(* ===== verification/_CoqProject ===== *)
-Q . S2P
Prelude.v
Words.v
Decimal.v
Subnets.v
Targets.v
Sys.v
Script.v
NsSocket.v
IcmpWire.v
SweepSpec.v
IcmpSweep.v
IcmpLive.v
IcmpSweepWin.v
IcmpLiveWin.v
TcpProbe.v
Window.v
Held.v
Probe.v
Connects.v
ConnectsLive.v
Shared.v
Run.v
Multicast.v
Resolver.v
NeighborList.v
Netlink.v
Neighbors.v
Rtt.v
Ranges.v
Text.v
Packets.v
Names.v
Packed.v
Oui.v
Ports.v
PortScan.v
ScanPorts.v
Progress.v
Discovery.v
Warnings.v
NeighborTable.v
Pool.v
Pings.v
Bindings.v
Harvest.v
Results.v
Listener.v
Scan.v
Interrupt.v
Live.v
Json.v
Output.v
Streams.v
Cli.v
Events.v
CliReports.v
