(* ===== verification/Prelude.v ===== *)
(** * NetScanner: from the command line to the C helpers, verified

    NetScanner ([ns]) is a LAN scanner: a Zig engine (src/src/core) on top of
    C helpers (src/src/c) that make the calls every operating system spells
    differently.  This library models the C helpers completely, all three
    platforms of their [#ifdef]s, and on top of them the Zig program: the scan
    engine, what it prints, the command line, the status line and Ctrl+C.  It
    proves what each part promises its callers, up to what a user or a script
    reads on stdout.

    ** How the programs are modelled

    A C function is a Rocq function of the same name.  Pure code is a plain
    function.  Code that talks to the system is a program of the monad [M]
    of Sys.v: it threads an environment [e], asks it for the result of each
    system call or callback ([ask]), and returns the log of what it asked
    and was answered.  The environment is a parameter ([Env]): nothing is
    assumed of it except where a theorem names a law,
    - [ClockLaw]: the monotonic clock does not go back, does not stand still
      for ever, and no call lasts more than a day longer than the wait it was
      asked for;
    - [QueueLaw]: receive queues are finite, and callbacks and allocations
      put nothing into them;
    - [AllocLaw]: realloc never hands out more than PTRDIFF_MAX bytes;
    - [EchoLaw]: an echo IcmpSendEcho2 left pending completes exactly once,
      in some alertable wait;
    - [EchoClock]: it does so within its timeout and some grace, and the
      performance counter runs with the monotonic clock;
    - [SupplyLaw]: the source of a run has finitely many connects, and a loop
      that holds none gets its share (which Shared.v shows of the code that
      answers: [shared_take_share]);
    - [RlimitLaw]: the soft open-file limit is not above the hard one;
    - [StopLaw] (Listener.v): a stop flag is raised after finitely many looks
      at it.
    Script.v is a concrete environment that satisfies them all and plays
    scripted answers; the witnesses run the programs in it.

    A [while] or [for (;;)] is [loop n body s]: [n] bounds the rounds, and a
    run that would need more is [None].  [for] loops over data are structural
    recursions.  No theorem hides behind fuel: for each function with a loop
    there is a theorem that some fuel is enough, and more changes nothing
    ([runs], [fuel_mono]).  The two sweeps, whose loops only time ends, share
    one argument ([paced_terminates]: every round makes progress or comes
    closer to a deadline), which also bounds when the last round begins; it
    takes that no single round is longer than a given time ([brisk]).
    Zig's errors are [inl] of a sum, its checked arithmetic is [option]
    ([fits] in Words.v).  Integers are [Z] with the C type's wrap-around
    written where the C expression has it (Words.v); bytes are [Z] below 256.
    Memory is modelled by who owns it: the calls that hand out or take back a
    socket, block, file or table are in the log, [acquired] and [released]
    read them off, and [keeps_from held t held'] says a run that logged [t]
    turned the resources [held] into [held'].  Bounds of the parsers that
    walk raw memory (Netlink.v, Neighbors.v) are explicit: a read outside
    the bytes received is the outcome [OverRead].

    ** The files

    - Prelude.v: tactics, hint databases, counting in lists.  Words.v:
      machine words, byte orders, IPv4 addresses.  Decimal.v: numbers in
      text.  Subnets.v: host order and prefix masks.  Targets.v: the data the
      connect engine's parts exchange.  Sys.v: system calls,
      the monad, loops, termination, resources.  Script.v: the scripted
      environment.
    - NsSocket.v: ns_socket.h and win_wsa.h, the calls all helpers share;
      ns_wait_any with its EINTR loop.
    - IcmpWire.v: the echo on the wire.  SweepSpec.v: what a ping sweep may
      do, as a step relation on labels read off a log ([sweep_allowed]), with
      an executable monitor of it.  IcmpSweep.v, IcmpLive.v: icmp_ping.c on
      Linux and macOS, its refinement of that specification, its
      termination.  IcmpSweepWin.v, IcmpLiveWin.v: the same for Windows.
    - TcpProbe.v: tcp_probe.c, TCP connects on Windows.
    - connects.zig, the engine of TCP connects: Window.v, how many go in
      flight; Held.v, the ones a loop holds back and has in flight; Probe.v,
      one connect from start to verdict; Connects.v, a loop's thread and what
      becomes of its jobs and sockets; ConnectsLive.v, that it ends;
      Shared.v, the source and window behind their lock; Run.v, [run]: the
      limits, the start, any interleaving of its loops, and the end.
    - Multicast.v: multicast.c, the sockets of discovery.
    - Resolver.v: resolver.c, name queries, file reading, SendARP.
    - NeighborList.v, Netlink.v, Neighbors.v: neighbors.c, the array of
      entries, the Linux netlink dump, the other readers and
      dump_neighbors.
    - Rtt.v: rtt.zig, the timeouts learned from round trips.
    - Packets.v: multicast.zig, the queries of multicast discovery and the
      parser of their answers.  Names.v: resolver.zig, from a host's replies
      to its name.
    - Ranges.v: utils.zig, address, CIDR and port-list text, and the way
      scanner.zig turns a CIDR argument into the list of hosts.  Text.v: its
      JSON and MAC text, and the functions of std.mem the core uses.
    - Bindings.v: c_bindings.zig, the conversions between C and Zig, and that
      the callers' models, which use C results as values, are the program
      through it.
    - Packed.v: packed_db.zig, the tables built into the program.  Oui.v:
      oui.zig, manufacturers from the table or a manuf file.  Ports.v:
      ports.zig, port names and ranks.
    - PortScan.v: the port scan of scanner.zig as a source of a run, its
      methods and its invariant.  ScanPorts.v: scanPorts, its passes over
      Run.v.
    - Progress.v: progress.zig, and the workers of scanner.zig that count.
    - Discovery.v: what the workers of a discovery share, the TCP sweep over
      Run.v, and the reading of the neighbour table.  Pool.v: the worker pools
      of scanner.zig, for any work.  Pings.v: pingSweep, over the sweeps of
      icmp_ping.c or ping(1).  Harvest.v: harvestArp, of those three.
      Results.v: what a discovery reports, with its details and names.
    - NeighborTable.v: neighbor_table.zig, the neighbour table asked of the
      parent process, and readNeighbors of scanner.zig, which asks the kernel
      when the parent does not answer.  Listener.v: the multicast listener, its
      start, thread and end.  Scan.v: scanNetwork and scanNetworkPing, the two
      discoveries from the range to the report, over all of these.
      Warnings.v: the lines they write to stderr.
    - Interrupt.v: interrupt.zig, Ctrl+C, its handlers interleaved with the
      process.  Live.v: live.zig, the status line.  Json.v: lines of JSON and a
      reader of them (nothing of the program's: what its output is read back
      with).  Output.v: the lines of a scan (scanner.zig, neighbor_table.zig).
      Streams.v: a discovery's workers printing while they run, in any order.
      Cli.v: main.zig, its arguments, messages, commands and exits.
      Events.v: every kind of line of --json, and UTF-8.  CliReports.v: a whole
      command with --json.

    IcmpSweep, TcpProbe, Multicast and Resolver call NsSocket's functions and
    use its lemmas about them; the readers of neighbors.c meet in
    [list_add] and its invariant [list_ok].  The connect engine uses TcpProbe's
    [start_outcome_of_run], [finish_of_run] and [wait_of_run] on Windows and
    the system's sockets elsewhere.  A loop sees what it shares with the
    others only through requests ([TakeNext], [ReportDone], [LoadStarved],
    ...), so its theorems hold whatever the others do; [serves] in Shared.v
    says how the shared state answers those of all loops, in the order in
    which they got the lock ([merged]), and what it asks the source.  Its
    ledger ([balance], [covers]) says that nothing is reported before it was
    handed out; PortScan.v and Discovery.v are such sources, and their theorems
    hold for every order of calls with such a ledger.  Port scans see the
    table of Ports.v only as [PortRanks], which Ports.v shows of it.
    Cli.v runs scanPorts and the discoveries of Scan.v between the arguments
    and the report: a port scan's events are printed as PortScan.v says them
    ([say_all]), a discovery's as its workers' steps come ([emit_step] of
    Streams.v; every scan that returns has such an order of steps:
    [subnet_scan_ends]); the status line of Live.v acts on the process of
    Interrupt.v.

    ** What the theorems show

    - Ping sweeps: every host is reported exactly once (both
      implementations), answering only on its own reply; sends are paced;
      rounds keep the invariant that ties the counter, the states and the
      log together; nothing leaks; both refine the one specification of
      SweepSpec.v and both end, within a span the theorems give.  One theorem
      shows a defect: whenever the oldest host's echo could not be sent, the
      wait is computed from a send time never written.
    - The wire: the checksum is the Internet checksum, requests verify,
      a reply is matched exactly to its host.
    - Timeouts: the estimator never overflows, stays between its bounds and
      settles on the network's round trip.
    - Tables: the build accepts exactly the files whose header, sizes and kind
      are right, so every record is inside the file ([open_checks]); lookups in
      a packed table find exactly what was packed.  String offsets are not
      checked by the build: a manufacturer's lookup stays in the table but for
      one addition of 32 bits, which an accepted file can overflow
      ([lookup_overflows]).  A manuf file's entries are looked up before the
      table's, and what they take is given back, but for one block when memory
      runs out.
    - Text: JSON strings read back, MAC addresses are read exactly.
    - The command line: a port scan's arguments are accepted exactly when they
      are well formed, and mean what they say; whatever is refused is refused
      in the form asked for, with status 1, and never as a trace.
    - Commands: read line by line, the stdout of `ns -p` and `ns -s` with
      --json is a sequence of objects that says exactly what the scan of these
      arguments found, however its workers interleave: hosts where they were
      first reported, counts of each phase that increase to its total, then the
      report.  stderr has a line for each port the list had no room for, and
      each of a discovery's warnings, and nothing else.  Every event is one
      line with one object; it is UTF-8, as JSON must be, exactly when what
      the buffers kept of its texts is, and a text cut inside a character is
      not.
    - Ctrl+C: the first press asks the scan to stop, the second ends the
      process, however the handlers interleave.  The status line: each frame
      is whole characters within the terminal's width; once it is down,
      Ctrl+C writes nothing into the results, wherever its handlers' steps fall
      between those of [end].
    - Port scans: exactly the open ports, sorted; every port tried once in the
      order of the ranks; second and third tries only where earned, within
      the waits promised; no overflow and no stray slot, in any order of
      calls.  One theorem exhibits a port found after progress was full.
    - Progress: printed counts increase, at most 100, the total once.
    - Discovery: each host found once, by its first source; the sweep probes
      and counts every host once; the harvest settles every entry and counts
      every candidate once; the report lists the hosts found in order, each
      with its own MAC, manufacturer and name.
    - The whole of a discovery: whatever the order in which its phases and its
      listener act, it lists hosts of the network it was given, each once, in
      order, and each on evidence the theorem names; and it misses none that
      answered a connect.  A ping scan lists exactly the hosts that answered.
    - The listener: it does what the replies from the range say, in order, and
      nothing else; it asks again once, and each responder for its name once;
      it ends when told to, and gives its socket back.
    - The parent's table: lines are read whole whatever pieces they come in;
      a table is taken only of the line that answers this request, late
      answers are skipped, a parent that fails is not asked again, and the
      entries kept are those the kernel's reader would have kept.  One theorem
      exhibits a parent that holds the scan up past the promised deadline.
    - Threads: a pool works on each index once, returns, and never waits for
      itself; a wave of ping(1) waits for every process it started.
    - Ranges: exactly the well-formed addresses and port lists are read, and
      a CIDR argument becomes every host of its network once, in order.
    - Waiting: ns_wait_any ends, how it ends, and that it never waits longer
      than asked.
    - TCP probes: the verdict of every branch; tcp_probe_wait's sort and
      search is membership; no socket leaks.
    - TCP connects: however the loops of a run interleave, every connect the
      source hands out is reported to it exactly once, or the run fails and
      says so; every loop ends, and so does the end of a run; the window
      stays in its bounds, shrinks only for the reasons it should and
      recovers; a verdict follows from what the system answered; every
      socket and block is given back.
    - Name queries: each request gets its own reply, the compaction of the
      waiting sockets skips and repeats none, the exchange ends; the file
      reader stays in its buffer.
    - Host names: DNS names are decoded exactly as their bytes spell them,
      through at most 16 pointers, and never from outside the packet; the
      name in an encoded reply is read back; the NetBIOS name is the first
      usable one; what resolveHostName hands out is what one of the hosts'
      replies, or reverse DNS, said: not empty, printable unless reverse DNS
      gave it, then never an address, and the one block it keeps; it ends, on
      Linux and macOS, like the exchange under it.
    - Multicast: the chosen interface is the first whose subnet meets the
      range; address arithmetic; open, send and receive on every branch.
    - Neighbour tables: the parsers undo the kernel's encoding (netlink,
      routing messages, Windows rows), stay within an aligned reply up to
      one gap, end on every input, and hand out real hosts only, in one
      block the caller can free.  One theorem exhibits a defect: the
      unsigned cast in NLMSG_OK lets the parse run past an odd-sized reply.

    ** Bounds and fuel

    Hosts of a sweep are fewer than 2^64 (size_t counts them); a sweep's
    arithmetic is exact until 2^62 ms after its start ([HORIZON_MS]); waits
    of up to 10^9 ms fit their [int].  The checksum needs two carry folds of
    the three allowed; netmasks shift out in 32 rounds; a netlink reply of
    [n] bytes needs at most [n] rounds of either loop.  Round trips are up to
    2^60 us; collecting a range takes one round for each of its addresses.
    A loop of a run holds at most 4096 connects (select's limit on Windows;
    [run_setup_sound] shows that it gets at most 1024); the window counts up
    to 2^60 verdicts.

    ** Not modelled

    Of connects.zig the atomics' memory order is left open: a read of
    [starved] may be late, and what [cut] reads is any value.  Left to
    parameters are what code outside src/ does: decoding the parent's lines as
    JSON (std.json, in NeighborTable.v), the digits of a summary's seconds
    ([seconds] in Output.v), what std.Progress, the terminal and the threads
    answer (Live.v), the system's error names in a warning.  A write to stdout
    or stderr that fails is not modelled, nor is the trace of a Zig error that
    leaves main.  Build scripts, table
    generators and tests stay out, and so do the contents of the tables,
    which are generated.  Of the C code only the body of the atexit handler
    (WSACleanup) and setsockopt's effects are left to the environment. *)
From Stdlib Require Export ZArith Lia.
From stdpp Require Export base tactics numbers list option well_founded sets.
Export stdpp.list_basics.list stdpp.list_relations.list stdpp.list_monad.list
  stdpp.list_misc.list stdpp.list_numbers.list.

#[export] Set Default Goal Selector "!".

Declare Scope netscan_scope.
Delimit Scope netscan_scope with netscan.

(** The lemmas that automate the common cases: bounds of machine words,
    membership in byte lists, balance of resources. *)
Create HintDb netscan.
Create HintDb words.

(** ** Tactics *)

(** Split every conjunction of the goal. *)
Ltac splits := repeat match goal with |- _ /\ _ => split end.

(** Turn the boolean comparisons of the code into propositions. *)
Ltac to_prop :=
  repeat match goal with
    | H : (_ && _)%bool = true |- _ => apply andb_true_iff in H as [? ?]
    | H : (_ && _)%bool = false |- _ => apply andb_false_iff in H
    | H : (_ || _)%bool = true |- _ => apply orb_true_iff in H
    | H : (_ || _)%bool = false |- _ => apply orb_false_iff in H as [? ?]
    | H : negb _ = true |- _ => apply negb_true_iff in H
    | H : negb _ = false |- _ => apply negb_false_iff in H
    | H : (_ =? _)%Z = true |- _ => apply Z.eqb_eq in H
    | H : (_ =? _)%Z = false |- _ => apply Z.eqb_neq in H
    | H : (_ <? _)%Z = true |- _ => apply Z.ltb_lt in H
    | H : (_ <? _)%Z = false |- _ => apply Z.ltb_ge in H
    | H : (_ <=? _)%Z = true |- _ => apply Z.leb_le in H
    | H : (_ <=? _)%Z = false |- _ => apply Z.leb_gt in H
    | H : (_ >? _)%Z = _ |- _ => rewrite Z.gtb_ltb in H
    | H : (_ >=? _)%Z = _ |- _ => rewrite Z.geb_leb in H
    | H : (_ =? _)%nat = true |- _ => apply Nat.eqb_eq in H
    | H : (_ =? _)%nat = false |- _ => apply Nat.eqb_neq in H
    | H : (_ <? _)%nat = true |- _ => apply Nat.ltb_lt in H
    | H : (_ <? _)%nat = false |- _ => apply Nat.ltb_ge in H
    | H : (_ <=? _)%nat = true |- _ => apply Nat.leb_le in H
    | H : (_ <=? _)%nat = false |- _ => apply Nat.leb_gt in H
    | H : bool_decide _ = true |- _ => apply bool_decide_eq_true in H
    | H : bool_decide _ = false |- _ => apply bool_decide_eq_false in H
    end.

(** Case on the first test of the goal (or of a hypothesis) and keep
    what it says as a proposition. *)
Ltac case_test :=
  match goal with
  | |- context [if ?b then _ else _] => let E := fresh "T" in destruct b eqn:E
  | H : context [if ?b then _ else _] |- _ => let E := fresh "T" in destruct b eqn:E
  end; to_prop.

(** Find an element of an explicit list, filling in what it leaves open. *)
Ltac in_list :=
  first
    [ eassumption
    | apply list_elem_of_here
    | apply list_elem_of_further; in_list
    | apply elem_of_app; first [left; in_list | right; in_list] ].

(** ** Lists *)

Section Lists.
Context {A : Type}.
Implicit Types (l : list A) (i j : nat) (x : A).

(** The number of elements a test accepts: what a counter kept next to
    an array (in_flight next to state[]) counts. *)
Definition countb (p : A → bool) l : nat := length (List.filter p l).

Lemma countb_nil p : countb p [] = 0%nat.
Proof. done. Qed.

Lemma countb_cons p x l : countb p (x :: l) = ((if p x then 1 else 0) + countb p l)%nat.
Proof. unfold countb; simpl. by destruct (p x). Qed.

Lemma countb_app p l k : countb p (l ++ k) = (countb p l + countb p k)%nat.
Proof. unfold countb. by rewrite List.filter_app, length_app. Qed.

Lemma countb_le p l : (countb p l ≤ length l)%nat.
Proof. induction l; [done|]. rewrite countb_cons; simpl. destruct (p a); lia. Qed.

(** Overwriting one slot moves the count by what the slot was and is. *)
Lemma countb_insert p l i x y :
  l !! i = Some y →
  (countb p (<[i:=x]> l) + (if p y then 1 else 0) =
   countb p l + (if p x then 1 else 0))%nat.
Proof.
  revert i. induction l as [|a l IH]; intros [|i] Hi; simplify_eq/=.
  - rewrite !countb_cons. lia.
  - rewrite !countb_cons. specialize (IH _ Hi). lia.
Qed.

Lemma countb_replicate p n x :
  countb p (replicate n x) = (if p x then n else 0)%nat.
Proof. induction n; simpl; [by destruct (p x)|]. rewrite countb_cons, IHn. by destruct (p x). Qed.

Lemma countb_zero p l : countb p l = 0%nat ↔ (∀ i x, l !! i = Some x → p x = false).
Proof.
  induction l as [|a l IH]; [done|]. rewrite countb_cons. split.
  - intros H [|i] x Hi; simplify_eq/=; [destruct (p x); [lia|done]|].
    destruct (p a); [lia|]. eapply IH; [lia|done].
  - intros H. rewrite (H 0%nat a eq_refl). apply IH. intros i. apply (H (S i)).
Qed.

Lemma countb_pos p l i x : l !! i = Some x → p x = true → (0 < countb p l)%nat.
Proof.
  intros Hi Hp. destruct (countb p l) eqn:E; [|lia].
  rewrite countb_zero in E. apply E in Hi. congruence.
Qed.

Lemma lookup_inv_lt l i x : l !! i = Some x → (i < length l)%nat.
Proof. apply lookup_lt_Some. Qed.
End Lists.

#[export] Hint Resolve lookup_inv_lt : netscan.

(** ** Removing from an array by moving its last element in *)

(** a[j] = a[--len]; *)
Definition swap_remove {A} (j : nat) (l : list A) : list A :=
  let pending := (length l - 1)%nat in
  match l !! pending with
  | Some moved => take pending (<[j := moved]> l)
  | None => l
  end.

Section Swap.
Context {A : Type}.
Implicit Types (l : list A) (x : A).

Lemma swap_remove_perm l j x : l !! j = Some x → l ≡ₚ x :: swap_remove j l.
Proof.
  intros Hj. assert (j < length l)%nat as Hlt by eauto with netscan.
  destruct l as [|y k _] using rev_ind; [done|].
  unfold swap_remove. rewrite length_app in *. simpl length in *.
  replace (length k + 1 - 1)%nat with (length k) by lia.
  rewrite list_lookup_middle by done.
  destruct (decide (j < length k)%nat) as [Hk|Hk].
  - rewrite lookup_app_l in Hj by done.
    rewrite insert_app_l, take_app_length' by (rewrite ?length_insert; done).
    rewrite <- (take_drop_middle k j x Hj) at 1.
    rewrite insert_take_drop by done. solve_Permutation.
  - assert (j = length k) as -> by lia. rewrite list_lookup_middle in Hj by done. simplify_eq.
    rewrite insert_app_r_alt, take_app_length' by done. solve_Permutation.
Qed.

Lemma swap_remove_take l j : (j < length l)%nat → take j (swap_remove j l) = take j l.
Proof.
  intros Hj. unfold swap_remove. destruct (l !! (length l - 1)%nat) as [m|]; [|done].
  rewrite take_take, Nat.min_l by lia. by rewrite take_insert_ge.
Qed.

Lemma swap_remove_length l j : (j < length l)%nat → length (swap_remove j l) = (length l - 1)%nat.
Proof.
  intros Hj. assert (is_Some (l !! j)) as [x Hx] by by apply lookup_lt_is_Some_2.
  apply swap_remove_perm in Hx. apply Permutation_length in Hx. simpl in Hx. lia.
Qed.
End Swap.

(** A filtered list splits where the list does. *)
Lemma filter_split {A} (P : A → Prop) `{!∀ x, Decision (P x)} (l : list A) : ∀ k1 k2,
  filter P l = k1 ++ k2 → ∃ l1 l2, l = l1 ++ l2 ∧ filter P l1 = k1 ∧ filter P l2 = k2.
Proof.
  induction l as [|x l IH]; intros k1 k2 Hl.
  { simpl in Hl. symmetry in Hl. apply app_nil in Hl as [-> ->]. by exists [], []. }
  rewrite filter_cons in Hl. case_decide.
  - destruct k1 as [|y k1]; simpl in Hl.
    + exists [], (x :: l). by rewrite filter_cons_True.
    + injection Hl as -> Hl. destruct (IH _ _ Hl) as (l1 & l2 & -> & <- & <-). exists (y :: l1), l2. by rewrite filter_cons_True.
  - destruct (IH _ _ Hl) as (l1 & l2 & -> & <- & <-). exists (x :: l1), l2. by rewrite filter_cons_False.
Qed.

(** ** Ledgers: what a log takes in and gives out, as multisets

    [balance have t held]: a run logged as [t] that starts with [have] ends
    holding [held], and at no moment has given out what it did not have. *)
Section Ledger.
Context {Ev A : Type} (gets gives : Ev → list A).

Definition covers (have : list A) (t : list Ev) : Prop :=
  ∀ p s, t = p ++ s → ∃ rest, have ++ flat_map gets p ≡ₚ flat_map gives p ++ rest.

Definition balance (have : list A) (t : list Ev) (held : list A) : Prop :=
  have ++ flat_map gets t ≡ₚ flat_map gives t ++ held ∧ covers have t.

Lemma balance_total a t b : balance a t b → a ++ flat_map gets t ≡ₚ flat_map gives t ++ b.
Proof. by intros [H _]. Qed.

Lemma balance_covers a t b : balance a t b → covers a t.
Proof. by intros [_ H]. Qed.

Lemma covers_prefix a t u : covers a (t ++ u) → covers a t.
Proof. intros H p s ->. apply (H p (s ++ u)). by rewrite app_assoc. Qed.

Lemma ledger_app a t b u c :
  a ++ flat_map gets t ≡ₚ flat_map gives t ++ b → b ++ flat_map gets u ≡ₚ flat_map gives u ++ c →
  a ++ flat_map gets (t ++ u) ≡ₚ flat_map gives (t ++ u) ++ c.
Proof.
  rewrite !flat_map_app. intros H1 H2. rewrite app_assoc, H1, <- !app_assoc. f_equiv. by rewrite H2.
Qed.

Lemma covers_app a t b u :
  a ++ flat_map gets t ≡ₚ flat_map gives t ++ b → covers a t → covers b u → covers a (t ++ u).
Proof.
  intros H1 Ht Hu p s Heq. apply app_eq_inv in Heq as [(k & -> & ->)|(k & -> & ->)]; [by apply (Ht p k)|].
  destruct (Hu k s eq_refl) as [rest Hr]. exists rest. by eapply ledger_app.
Qed.

Lemma balance_app a t b u c : balance a t b → balance b u c → balance a (t ++ u) c.
Proof. intros [H1 C1] [H2 C2]. split; [by eapply ledger_app|by eapply covers_app]. Qed.

Lemma covers_frame f a t : covers a t → covers (f ++ a) t.
Proof. intros Hc p s Heq. destruct (Hc p s Heq) as [rest Hr]. exists (f ++ rest). rewrite <- app_assoc, Hr. solve_Permutation. Qed.

Lemma balance_frame f a t b : balance a t b → balance (f ++ a) t (f ++ b).
Proof.
  intros [H C]. split; [|by apply covers_frame].
  rewrite <- app_assoc, H, !app_assoc. f_equiv. by rewrite Permutation_app_comm.
Qed.

(** A log of one event. *)
Lemma balance_one a ev b : a ++ gets ev ≡ₚ gives ev ++ b → balance a [ev] b.
Proof.
  intros H. assert (a ++ flat_map gets [ev] ≡ₚ flat_map gives [ev] ++ b) as Ht by (simpl; by rewrite !app_nil_r).
  split; [done|]. intros [|x p] s Heq; [by exists a; simpl; rewrite app_nil_r|].
  destruct p; [|done]. simplify_eq/=. by exists b.
Qed.

Lemma balance_nil a : balance a [] a.
Proof. split; [simpl; by rewrite app_nil_r|]. intros [|] s Heq; [|done]. exists a. simpl. by rewrite app_nil_r. Qed.

Lemma balance_quiet a t : Forall (λ ev, gets ev = [] ∧ gives ev = []) t → balance a t a.
Proof.
  induction 1 as [|ev t [Hg Hv] _ IH]; [apply balance_nil|].
  apply (balance_app a [ev] a); [|done]. apply balance_one. by rewrite Hg, Hv, app_nil_r.
Qed.

#[global] Instance covers_proper : Proper ((≡ₚ) ==> (=) ==> iff) covers.
Proof. intros a a' Ha t ? <-. unfold covers. by setoid_rewrite Ha. Qed.

#[global] Instance balance_proper : Proper ((≡ₚ) ==> (=) ==> (≡ₚ) ==> iff) balance.
Proof. intros a a' Ha t ? <- b b' Hb. unfold balance. by rewrite Ha, Hb. Qed.

(** One event at a time. *)
Lemma covers_cons a ev t : covers a (ev :: t) → ∃ b, a ++ gets ev ≡ₚ gives ev ++ b ∧ covers b t.
Proof.
  intros Hc. destruct (Hc [ev] t eq_refl) as [b Hb]. simpl in Hb. rewrite !app_nil_r in Hb.
  exists b. split; [done|]. intros p s ->. destruct (Hc (ev :: p) s eq_refl) as [rest Hr].
  exists rest. apply (Permutation_app_inv_l (gives ev)). simpl in Hr.
  by rewrite app_assoc, <- Hb, <- app_assoc, Hr, <- app_assoc.
Qed.

Lemma covers_step a ev b t : a ++ gets ev ≡ₚ gives ev ++ b → covers b t → covers a (ev :: t).
Proof.
  intros Hb Hc. apply balance_one in Hb as [Hb C]. by apply (covers_app a [ev] b t).
Qed.

(** A log that only takes in, and one that only gives out. *)
Lemma covers_gets_only a t : flat_map gives t = [] → covers a t.
Proof.
  intros Hg p s ->. rewrite flat_map_app in Hg. apply app_nil in Hg as [Hp _]. exists (a ++ flat_map gets p). by rewrite Hp.
Qed.

Lemma covers_gives_only a t b : flat_map gets t = [] → a ≡ₚ flat_map gives t ++ b → covers a t.
Proof.
  intros Hg Ha p s ->. rewrite flat_map_app in Hg, Ha. apply app_nil in Hg as [Hp _].
  exists (flat_map gives s ++ b). by rewrite Hp, app_nil_r, Ha, <- app_assoc.
Qed.
End Ledger.
