(* ===== verification/Words.v ===== *)
(** * Machine words and byte strings

    The fixed-width integers of the C code as [Z] with the wrap-around
    written out, and the byte orders it moves them in: big-endian for
    network packets, little-endian for the native structs it copies with
    [memcpy] (every target of build.zig is little-endian). *)
From S2P Require Import Prelude.
Open Scope Z_scope.

(** ** Wrap-around *)

Definition u8 (z : Z) : Z := z mod 256.
Definition u16 (z : Z) : Z := z mod 65536.
Definition u32 (z : Z) : Z := z mod 4294967296.
Definition u64 (z : Z) : Z := z mod 18446744073709551616.
Definition i32 (z : Z) : Z := (z + 2147483648) mod 4294967296 - 2147483648.

Definition is_u8 (z : Z) : Prop := 0 <= z < 256.
Definition is_u16 (z : Z) : Prop := 0 <= z < 65536.
Definition is_u32 (z : Z) : Prop := 0 <= z < 4294967296.
Definition is_u64 (z : Z) : Prop := 0 <= z < 18446744073709551616.
Definition is_i32 (z : Z) : Prop := -2147483648 <= z < 2147483648.

Lemma u8_range z : is_u8 (u8 z).
Proof. unfold is_u8, u8. apply Z.mod_pos_bound. lia. Qed.
Lemma u16_range z : is_u16 (u16 z).
Proof. unfold is_u16, u16. apply Z.mod_pos_bound. lia. Qed.
Lemma u32_range z : is_u32 (u32 z).
Proof. unfold is_u32, u32. apply Z.mod_pos_bound. lia. Qed.
Lemma u64_range z : is_u64 (u64 z).
Proof. unfold is_u64, u64. apply Z.mod_pos_bound. lia. Qed.
Lemma i32_range z : is_i32 (i32 z).
Proof. unfold is_i32, i32. pose proof (Z.mod_pos_bound (z + 2147483648) 4294967296). lia. Qed.

Lemma u8_id z : is_u8 z → u8 z = z.
Proof. apply Z.mod_small. Qed.
Lemma u16_id z : is_u16 z → u16 z = z.
Proof. apply Z.mod_small. Qed.
Lemma u32_id z : is_u32 z → u32 z = z.
Proof. apply Z.mod_small. Qed.
Lemma u64_id z : is_u64 z → u64 z = z.
Proof. apply Z.mod_small. Qed.
Lemma i32_id z : is_i32 z → i32 z = z.
Proof. unfold is_i32, i32. intros. rewrite Z.mod_small; lia. Qed.

#[export] Hint Resolve u8_range u16_range u32_range u64_range i32_range : words.
#[export] Hint Rewrite u8_id u16_id u32_id u64_id i32_id
  using (unfold is_u8, is_u16, is_u32, is_u64, is_i32; lia) : words.

(** ** Disjoint bit fields: [a << k | b] is [a * 2^k + b] when b fits. *)

Lemma land_shiftl_low a b k :
  0 <= k → 0 <= b < 2 ^ k → Z.land (Z.shiftl a k) b = 0.
Proof.
  intros Hk Hb. apply Z.bits_inj'. intros n Hn.
  rewrite Z.land_spec, Z.bits_0, Z.shiftl_spec by lia.
  destruct (decide (n < k)); [by rewrite (Z.testbit_neg_r a) by lia|].
  destruct (decide (b = 0)) as [->|]; [by rewrite Z.bits_0, andb_false_r|].
  rewrite (Z.bits_above_log2 b n); [by rewrite andb_false_r|lia|].
  apply Z.log2_lt_pow2; [lia|]. eapply Z.lt_le_trans; [apply Hb|].
  apply Z.pow_le_mono_r; lia.
Qed.

Lemma lor_shiftl_add a b k :
  0 <= k → 0 <= b < 2 ^ k → Z.lor (Z.shiftl a k) b = a * 2 ^ k + b.
Proof.
  intros Hk Hb. rewrite <- Z.shiftl_mul_pow2 by done.
  pose proof (land_shiftl_low a b k Hk Hb) as Hl.
  rewrite <- Z.lxor_lor by done. symmetry. by apply Z.add_nocarry_lxor.
Qed.

Lemma lor_byte a b : is_u8 b → Z.lor (Z.shiftl a 8) b = a * 256 + b.
Proof. intros. rewrite lor_shiftl_add; [done|lia|]. unfold is_u8 in *. lia. Qed.

Lemma shiftr_byte a : Z.shiftr a 8 = a / 256.
Proof. by rewrite Z.shiftr_div_pow2 by lia. Qed.

Lemma land_ffff a : Z.land a 65535 = a mod 65536.
Proof. change 65535 with (Z.ones 16). by rewrite Z.land_ones by lia. Qed.

Lemma shiftr_16 a : Z.shiftr a 16 = a / 65536.
Proof. by rewrite Z.shiftr_div_pow2 by lia. Qed.

(** ** Byte strings *)

Definition bytes (bs : list Z) : Prop := Forall is_u8 bs.

Lemma bytes_nil : bytes [].
Proof. constructor. Qed.
Lemma bytes_cons b bs : is_u8 b → bytes bs → bytes (b :: bs).
Proof. by constructor. Qed.
Lemma bytes_app a b : bytes a → bytes b → bytes (a ++ b).
Proof. apply Forall_app_2. Qed.
Lemma bytes_app_inv a b : bytes (a ++ b) → bytes a ∧ bytes b.
Proof. apply Forall_app. Qed.
Lemma bytes_replicate n b : is_u8 b → bytes (replicate n b).
Proof. intros. by apply Forall_replicate. Qed.
Lemma bytes_lookup bs i b : bytes bs → bs !! i = Some b → is_u8 b.
Proof. intros. by eapply Forall_lookup_1. Qed.
Lemma bytes_take n bs : bytes bs → bytes (take n bs).
Proof. apply Forall_take. Qed.
Lemma bytes_drop n bs : bytes bs → bytes (drop n bs).
Proof. apply Forall_drop. Qed.

Lemma is_u8_0 : is_u8 0. Proof. unfold is_u8; lia. Qed.
#[export] Hint Resolve bytes_nil bytes_cons bytes_app bytes_replicate bytes_take bytes_drop is_u8_0 : words.

(** Big-endian 16-bit fields, as the packet builders write them. *)
Definition be16 (v : Z) : list Z := [u8 (Z.shiftr v 8); u8 v].
Definition get_be16 (hi lo : Z) : Z := Z.lor (Z.shiftl hi 8) lo.

Lemma get_be16_val hi lo : is_u8 lo → get_be16 hi lo = hi * 256 + lo.
Proof. apply lor_byte. Qed.

Lemma get_be16_be16 v : get_be16 (u8 (Z.shiftr v 8)) (u8 v) = u16 v.
Proof.
  rewrite get_be16_val by apply u8_range. unfold u8, u16. rewrite shiftr_byte.
  pose proof (Z.div_mod v 65536). pose proof (Z.div_mod v 256).
  pose proof (Z.div_mod (v / 256) 256).
  assert (v / 256 / 256 = v / 65536) by (rewrite Z.div_div by lia; done). lia.
Qed.

(** Little-endian words of [n] bytes: a native integer in memory. *)
Fixpoint le_bytes (n : nat) (v : Z) : list Z :=
  match n with
  | O => []
  | S n => u8 v :: le_bytes n (Z.shiftr v 8)
  end.

Fixpoint le_value (bs : list Z) : Z :=
  match bs with
  | [] => 0
  | b :: bs => b + 256 * le_value bs
  end.

Lemma length_le_bytes n v : length (le_bytes n v) = n.
Proof. revert v; induction n; intros; simpl; auto. Qed.

Lemma bytes_le_bytes n v : bytes (le_bytes n v).
Proof. revert v; induction n; intros; simpl; auto with words. Qed.
#[export] Hint Resolve bytes_le_bytes : words.

Lemma le_value_bytes n v : le_value (le_bytes n v) = v mod 256 ^ Z.of_nat n.
Proof.
  revert v; induction n as [|n IH]; intros v.
  - simpl. by rewrite Z.mod_1_r.
  - cbn [le_bytes le_value]. rewrite IH, shiftr_byte. unfold u8.
    rewrite Nat2Z.inj_succ, Z.pow_succ_r by lia.
    rewrite Z.rem_mul_r by lia. done.
Qed.

Lemma le_value_u32 v : is_u32 v → le_value (le_bytes 4 v) = v.
Proof. intros. rewrite le_value_bytes. by apply Z.mod_small. Qed.

Lemma le_value_u16 v : is_u16 v → le_value (le_bytes 2 v) = v.
Proof. intros. rewrite le_value_bytes. by apply Z.mod_small. Qed.

Lemma le_value_range bs : bytes bs → 0 <= le_value bs < 256 ^ Z.of_nat (length bs).
Proof.
  induction 1 as [|b bs Hb _ IH]; [simpl; lia|].
  cbn [le_value length]. rewrite Nat2Z.inj_succ, Z.pow_succ_r by lia. unfold is_u8 in Hb. lia.
Qed.

(** ** IPv4 addresses: four bytes in network order *)

Record ip4 := IP { ip_a : Z; ip_b : Z; ip_c : Z; ip_d : Z }.

#[export] Instance ip4_eq_dec : EqDecision ip4.
Proof. solve_decision. Defined.

Definition ip_bytes (i : ip4) : list Z := [ip_a i; ip_b i; ip_c i; ip_d i].

Definition ip_ok (i : ip4) : Prop := bytes (ip_bytes i).

Definition ip_of_bytes (bs : list Z) : option ip4 :=
  match bs with
  | [a; b; c; d] => Some (IP a b c d)
  | _ => None
  end.

Lemma ip_of_bytes_ip_bytes i : ip_of_bytes (ip_bytes i) = Some i.
Proof. by destruct i. Qed.

(** The address as the number it orders by: a.b.c.d is a*2^24 + ... + d. *)
Definition ip_value (i : ip4) : Z :=
  ip_a i * 16777216 + ip_b i * 65536 + ip_c i * 256 + ip_d i.

Lemma ip_ok_bytes i : ip_ok i → is_u8 (ip_a i) ∧ is_u8 (ip_b i) ∧ is_u8 (ip_c i) ∧ is_u8 (ip_d i).
Proof. unfold ip_ok, ip_bytes, bytes. rewrite !Forall_cons. tauto. Qed.

Lemma ip_value_range i : ip_ok i → is_u32 (ip_value i).
Proof. intros (?&?&?&?)%ip_ok_bytes. unfold is_u8, is_u32, ip_value in *. lia. Qed.

Lemma ip_value_inj i j : ip_ok i → ip_ok j → ip_value i = ip_value j → i = j.
Proof.
  intros (?&?&?&?)%ip_ok_bytes (?&?&?&?)%ip_ok_bytes. destruct i, j.
  unfold ip_value, is_u8 in *; simpl in *. intros. f_equal; lia.
Qed.

(** ** Zig's integers

    Plain Zig arithmetic does not wrap: a result that does not fit its type
    is illegal behaviour (a panic in the safe builds), here [None]. *)

Definition fits (bound z : Z) : option Z := if (0 <=? z) && (z <? bound) then Some z else None.

Definition zu8 : Z → option Z := fits 256.
Definition zu16 : Z → option Z := fits 65536.
Definition zu32 : Z → option Z := fits 4294967296.
Definition zu64 : Z → option Z := fits 18446744073709551616.

Lemma fits_some bound z : 0 <= z < bound → fits bound z = Some z.
Proof. intros. unfold fits. by rewrite (proj2 (Z.leb_le _ _)), (proj2 (Z.ltb_lt _ _)) by lia. Qed.

Lemma fits_inv bound z y : fits bound z = Some y → y = z ∧ 0 <= z < bound.
Proof. unfold fits. case_test; naive_solver. Qed.

Lemma fits_none bound z : ¬ 0 <= z < bound → fits bound z = None.
Proof. intros. unfold fits. case_test; [lia|done]. Qed.
