(* ===== verification/Decimal.v ===== *)
(** * Decimal numbers in text

    printf's %u and Zig's {d}, the numbers digit strings denote, and that the
    two undo each other: every number has one way to be written without
    leading zeros.  Text is a list of byte values; [text] is that of a string
    literal. *)
From Stdlib Require Ascii String.
From S2P Require Import Prelude Words.
Open Scope Z_scope.

(** A string literal's bytes. *)
Definition text (s : String.string) : list Z := map (λ c, Z.of_nat (Ascii.nat_of_ascii c)) (String.list_ascii_of_string s).

(** printf's %u: decimal digits, most significant first; [n] bounds them
    (a byte has at most three). *)
Fixpoint u_digits (n : nat) (v : Z) : list Z :=
  match n with
  | O => []
  | S n => (if v <? 10 then [] else u_digits n (v / 10)) ++ [48 + v mod 10]
  end.

Definition fmt_u (b : Z) : list Z := u_digits 10 b.

(** The number a digit string denotes. *)
Definition digits_value (ds : list Z) : Z := foldl (λ acc d, acc * 10 + (d - 48)) 0 ds.

Lemma u_digits_value n v :
  0 <= v < 10 ^ Z.of_nat n → (0 < n)%nat → digits_value (u_digits n v) = v.
Proof.
  revert v. induction n as [|n IH]; intros v Hv Hn; [lia|]. cbn [u_digits].
  unfold digits_value. rewrite foldl_app. cbn [foldl]. pose proof (Z.div_mod v 10 ltac:(lia)).
  rewrite Nat2Z.inj_succ, Z.pow_succ_r in Hv by lia. case_test.
  - cbn [foldl]. rewrite Z.mod_small by lia. lia.
  - fold (digits_value (u_digits n (v / 10))).
    assert (v / 10 < 10 ^ Z.of_nat n) by (apply Z.div_lt_upper_bound; lia).
    destruct n as [|n']; [simpl in *; pose proof (Z.div_pos v 10); lia|].
    rewrite IH; [lia| |lia]. split; [apply Z.div_pos; lia|done].
Qed.

Lemma u_digits_length n v k :
  0 <= v < 10 ^ Z.of_nat k → (0 < k)%nat → (length (u_digits n v) ≤ k)%nat.
Proof.
  revert v k. induction n as [|n IH]; intros v k Hv Hk; cbn [u_digits]; [simpl; lia|].
  rewrite length_app. cbn [length]. case_test; [simpl; lia|].
  destruct k as [|[|k]]; [lia|simpl in Hv; lia|].
  specialize (IH (v / 10) (S k)). rewrite Nat2Z.inj_succ, Z.pow_succ_r in Hv by lia.
  assert (length (u_digits n (v / 10)) ≤ S k)%nat; [|lia]. apply IH; [|lia].
  split; [apply Z.div_pos; lia|apply Z.div_lt_upper_bound; lia].
Qed.

Lemma fmt_u_byte b : is_u8 b → digits_value (fmt_u b) = b ∧ (length (fmt_u b) ≤ 3)%nat.
Proof.
  unfold is_u8, fmt_u. intros Hb. split; [apply u_digits_value; [simpl; lia|lia]|].
  apply u_digits_length; [simpl; lia|lia].
Qed.

(** ** Digit strings *)

Definition is_digit (c : Z) : Prop := 48 <= c <= 57.
Definition digits (s : list Z) : Prop := Forall is_digit s.

Lemma digits_value_snoc s d : digits_value (s ++ [d]) = digits_value s * 10 + (d - 48).
Proof. unfold digits_value. by rewrite foldl_app. Qed.

Lemma digits_value_acc s acc :
  foldl (λ acc d, acc * 10 + (d - 48)) acc s = acc * 10 ^ Z.of_nat (length s) + digits_value s.
Proof.
  induction s as [|d s IH] using rev_ind; [unfold digits_value; simpl; lia|].
  rewrite digits_value_snoc, foldl_app, length_app, Nat2Z.inj_add, Z.pow_add_r by lia.
  cbn [length foldl]. rewrite IH. change (10 ^ Z.of_nat 1) with 10. lia.
Qed.

Lemma digits_value_cons d s : digits_value (d :: s) = (d - 48) * 10 ^ Z.of_nat (length s) + digits_value s.
Proof. unfold digits_value at 1. simpl. by rewrite digits_value_acc. Qed.

Lemma digits_value_pos s : digits s → 0 <= digits_value s.
Proof.
  induction s as [|d s IH]; intros Hs; [done|]. apply Forall_cons in Hs as [Hd Hs].
  rewrite digits_value_cons. unfold is_digit in Hd. specialize (IH Hs).
  pose proof (Z.pow_nonneg 10 (Z.of_nat (length s))). nia.
Qed.

(** A longer digit string only denotes more. *)
Lemma digits_value_app s u : digits s → digits u → digits_value s <= digits_value (s ++ u).
Proof.
  intros Hs Hu. induction u as [|d u IH] using rev_ind; [by rewrite app_nil_r|].
  apply Forall_app in Hu as [Hu Hd%Forall_inv]. specialize (IH Hu).
  rewrite app_assoc, digits_value_snoc. unfold is_digit in Hd.
  assert (0 <= digits_value (s ++ u)) by (apply digits_value_pos; by apply Forall_app). lia.
Qed.

Lemma u_digits_digits n v : 0 <= v → digits (u_digits n v).
Proof.
  revert v. induction n as [|n IH]; intros v Hv; [constructor|]. cbn [u_digits].
  pose proof (Z.mod_pos_bound v 10). apply Forall_app. split.
  - case_test; [constructor|]. apply IH. apply Z.div_pos; lia.
  - apply Forall_singleton. unfold is_digit. lia.
Qed.

Lemma fmt_u_digits v : 0 <= v → digits (fmt_u v).
Proof. apply u_digits_digits. Qed.

Lemma fmt_u_nonempty v : fmt_u v ≠ [].
Proof. unfold fmt_u. cbn [u_digits]. intros Hx. by apply app_eq_nil in Hx as [_ ?]. Qed.

(** Without a leading zero. *)
Definition canonical (s : list Z) : Prop := digits s ∧ ∃ d u, s = d :: u ∧ (d ≠ 48 ∨ u = []).

(** The number is written as the string it is read from. *)
Lemma u_digits_unique n s :
  canonical s → digits_value s < 10 ^ Z.of_nat n → (0 < n)%nat → u_digits n (digits_value s) = s.
Proof.
  revert n. induction s as [|d s IH] using rev_ind; intros n [Hs (d0 & u & Heq & Hd0)] Hv Hn; [done|].
  apply Forall_app in Hs as [Hs Hd%Forall_inv]. unfold is_digit in Hd.
  destruct n as [|n]; [lia|]. cbn [u_digits]. rewrite digits_value_snoc in *.
  assert (digits_value s * 10 + (d - 48) = d - 48 + digits_value s * 10) as -> by lia.
  rewrite Z.div_add, Z.mod_add, Z.div_small, Z.mod_small by lia. rewrite Z.add_0_l.
  replace (48 + (d - 48)) with d by lia. f_equal.
  destruct s as [|d1 s].
  { change (digits_value []) with 0. by rewrite (proj2 (Z.ltb_lt _ _)) by lia. }
  simpl in Heq. injection Heq as -> <-.
  assert (d0 ≠ 48) as Hne by (destruct Hd0 as [?|Hx]; [done|by destruct s]).
  pose proof Hs as Hs'. apply Forall_cons in Hs' as [H0 Hs1]. unfold is_digit in H0.
  assert (1 <= digits_value (d0 :: s)) as Hbig.
  { rewrite digits_value_cons. pose proof (digits_value_pos s Hs1).
    pose proof (Z.pow_pos_nonneg 10 (Z.of_nat (length s))). nia. }
  rewrite (proj2 (Z.ltb_ge _ _)) by lia. rewrite Nat2Z.inj_succ, Z.pow_succ_r in Hv by lia.
  apply IH; [|lia|destruct n; simpl in Hv; lia].
  split; [done|]. exists d0, s. auto.
Qed.

Lemma fmt_u_unique s : canonical s → digits_value s < 10000000000 → fmt_u (digits_value s) = s.
Proof. intros. apply (u_digits_unique 10); [done|simpl; lia|lia]. Qed.

Lemma u_digits_canonical n v : 0 <= v < 10 ^ Z.of_nat n → (0 < n)%nat → canonical (u_digits n v).
Proof.
  intros Hv Hn. split; [apply u_digits_digits; lia|].
  revert v Hv. induction n as [|n IH]; intros v Hv; [lia|]. cbn [u_digits].
  rewrite Nat2Z.inj_succ, Z.pow_succ_r in Hv by lia.
  pose proof (Z.div_mod v 10). pose proof (Z.mod_pos_bound v 10). case_test; [by eexists _, []; auto|].
  destruct n as [|n]; [simpl in Hv; lia|].
  destruct (IH ltac:(lia) (v / 10)) as (d & u & Hu & Hd).
  { split; [apply Z.div_pos; lia|apply Z.div_lt_upper_bound; lia]. }
  rewrite Hu. exists d, (u ++ [48 + v mod 10]). split; [done|]. left. destruct Hd as [?| ->]; [done|].
  intros ->. assert (digits_value [48] = v / 10) as Hz; [|change (digits_value [48]) with 0 in Hz; lia].
  rewrite <- Hu. apply u_digits_value; [|lia].
  split; [apply Z.div_pos; lia|apply Z.div_lt_upper_bound; lia].
Qed.

Lemma fmt_u_canonical v : 0 <= v < 10000000000 → canonical (fmt_u v).
Proof. intros. apply u_digits_canonical; [simpl; lia|lia]. Qed.

Lemma fmt_u_value v : 0 <= v < 10000000000 → digits_value (fmt_u v) = v.
Proof. intros. apply u_digits_value; [simpl; lia|lia]. Qed.

(** ** {d} of a size *)

(** A usize or u64 has at most twenty digits. *)
Definition fmt_usize (v : Z) : list Z := u_digits 20 v.

Lemma fmt_usize_canonical v : is_u64 v → canonical (fmt_usize v).
Proof. unfold is_u64. intros. apply u_digits_canonical; [simpl; lia|lia]. Qed.

Lemma fmt_usize_value v : is_u64 v → digits_value (fmt_usize v) = v.
Proof. unfold is_u64. intros. apply u_digits_value; [simpl; lia|lia]. Qed.

Lemma fmt_usize_length v : (length (fmt_usize v) ≤ 20)%nat.
Proof.
  unfold fmt_usize. generalize 20%nat. intros n. revert v. induction n as [|n IH]; intros v; cbn [u_digits]; [simpl; lia|].
  case_match; simpl; [lia|]. rewrite length_app. simpl. specialize (IH (v / 10)). lia.
Qed.

Lemma fmt_usize_bytes v : is_u64 v → bytes (fmt_usize v).
Proof.
  intros Hv. destruct (fmt_usize_canonical v Hv) as [Hd _]. eapply Forall_impl; [exact Hd|].
  intros c Hc. unfold is_digit, is_u8 in *. lia.
Qed.
