(* ===== verification/Subnets.v ===== *)
(** * Addresses as numbers, and subnets

    The host order of an IPv4 address and the mask arithmetic of its
    prefixes, which multicast.c (choosing an interface) and utils.zig
    (expanding a CIDR range) share. *)
From S2P Require Import Prelude Words.
Open Scope Z_scope.

Definition to_host_order (ip : ip4) : Z :=
  Z.lor (Z.lor (Z.lor (Z.shiftl (ip_a ip) 24) (Z.shiftl (ip_b ip) 16)) (Z.shiftl (ip_c ip) 8)) (ip_d ip).

Definition from_host_order (value : Z) : ip4 :=
  IP (u8 (Z.shiftr value 24)) (u8 (Z.shiftr value 16)) (u8 (Z.shiftr value 8)) (u8 value).

(** 0xFFFFFFFFu << (32 - prefix) *)
Definition prefix_mask (prefix : Z) : Z := u32 (Z.shiftl 4294967295 (32 - prefix)).

(** ** Host order *)

Lemma to_host_order_value ip : ip_ok ip → to_host_order ip = ip_value ip.
Proof.
  intros (Ha & Hb & Hc & Hd)%ip_ok_bytes. unfold to_host_order, ip_value, is_u8 in *.
  assert (∀ x, Z.shiftl x 24 = Z.shiftl (Z.shiftl (Z.shiftl x 8) 8) 8) as ->.
  { intros x. by rewrite !Z.shiftl_shiftl by lia. }
  assert (Z.shiftl (ip_b ip) 16 = Z.shiftl (Z.shiftl (ip_b ip) 8) 8) as ->.
  { by rewrite !Z.shiftl_shiftl by lia. }
  rewrite <- !Z.shiftl_lor, !lor_byte by (unfold is_u8; lia). lia.
Qed.

Lemma from_host_order_ok value : ip_ok (from_host_order value).
Proof. unfold ip_ok, ip_bytes, bytes; simpl. repeat constructor; apply u8_range. Qed.

Lemma shiftr_8k v : Z.shiftr v 24 = v / 16777216 ∧ Z.shiftr v 16 = v / 65536 ∧ Z.shiftr v 8 = v / 256.
Proof. by rewrite !Z.shiftr_div_pow2 by lia. Qed.

Lemma from_to_host_order ip : ip_ok ip → from_host_order (to_host_order ip) = ip.
Proof.
  intros Hip. rewrite to_host_order_value by done. apply ip_ok_bytes in Hip.
  destruct ip as [a b c d]; unfold from_host_order, ip_value, is_u8 in *; simpl in *.
  destruct (shiftr_8k (a * 16777216 + b * 65536 + c * 256 + d)) as (-> & -> & ->).
  unfold u8. f_equal; Z.to_euclidean_division_equations; lia.
Qed.

Lemma to_from_host_order v : is_u32 v → to_host_order (from_host_order v) = v.
Proof.
  intros Hv. rewrite to_host_order_value by apply from_host_order_ok.
  unfold from_host_order, ip_value; simpl. destruct (shiftr_8k v) as (-> & -> & ->).
  unfold u8, is_u32 in *. Z.to_euclidean_division_equations. lia.
Qed.

(** ** Subnets *)

Lemma u32_bits z i : 0 <= i → Z.testbit (u32 z) i = (i <? 32) && Z.testbit z i.
Proof.
  intros Hi. unfold u32. change 4294967296 with (2 ^ 32). destruct (i <? 32) eqn:T; to_prop; simpl.
  - by rewrite Z.mod_pow2_bits_low by lia.
  - by rewrite Z.mod_pow2_bits_high by lia.
Qed.

Lemma u32_bits_id z i : is_u32 z → 0 <= i → Z.testbit z i = (i <? 32) && Z.testbit z i.
Proof. intros Hz Hi. rewrite <- (u32_id z Hz) at 1. by apply u32_bits. Qed.

Lemma ones_bits n i : 0 <= n → 0 <= i → Z.testbit (Z.ones n) i = (i <? n).
Proof. intros. apply eq_bool_prop_intro. rewrite !Is_true_true, Z.testbit_ones by done.
  rewrite andb_true_iff, Z.leb_le. intuition lia.
Qed.

Lemma prefix_mask_bits p i :
  0 <= p <= 32 → 0 <= i → Z.testbit (prefix_mask p) i = (32 - p <=? i) && (i <? 32).
Proof.
  intros Hp Hi. unfold prefix_mask. rewrite u32_bits by done. change 4294967295 with (Z.ones 32).
  rewrite Z.shiftl_spec by lia. destruct (i <? 32) eqn:T1, (32 - p <=? i) eqn:T2; to_prop; simpl; try done.
  - rewrite ones_bits by lia. apply Z.ltb_lt. lia.
  - by apply Z.testbit_neg_r; lia.
Qed.

(** The network address and the broadcast address of a subnet. *)
Lemma subnet_net addr p :
  is_u32 addr → 0 <= p <= 32 →
  Z.land addr (prefix_mask p) = Z.shiftl (addr / 2 ^ (32 - p)) (32 - p).
Proof.
  intros Ha Hp. rewrite <- Z.shiftr_div_pow2 by lia. apply Z.bits_inj'. intros i Hi.
  rewrite Z.land_spec, prefix_mask_bits, Z.shiftl_spec by lia.
  rewrite (u32_bits_id addr i) by done. destruct (32 - p <=? i) eqn:T; to_prop; simpl.
  - rewrite Z.shiftr_spec by lia. replace (i - (32 - p) + (32 - p)) with i by lia.
    rewrite (u32_bits_id addr i) by done. destruct (i <? 32), (Z.testbit addr i); done.
  - rewrite andb_false_r. by rewrite Z.testbit_neg_r by lia.
Qed.

Lemma subnet_host_bits p : 0 <= p <= 32 → u32 (Z.lnot (prefix_mask p)) = Z.ones (32 - p).
Proof.
  intros Hp. apply Z.bits_inj'. intros i Hi.
  rewrite u32_bits, Z.lnot_spec, prefix_mask_bits, ones_bits by lia.
  destruct (i <? 32) eqn:T1, (32 - p <=? i) eqn:T2, (i <? 32 - p) eqn:T3; to_prop; simpl; lia || done.
Qed.

(** The addresses of the subnet [addr]/[p]. *)
Definition in_subnet (addr p x : Z) : Prop := x / 2 ^ (32 - p) = addr / 2 ^ (32 - p).

Lemma in_subnet_range addr p x :
  0 <= p <= 32 →
  in_subnet addr p x ↔
  addr / 2 ^ (32 - p) * 2 ^ (32 - p) <= x <= addr / 2 ^ (32 - p) * 2 ^ (32 - p) + 2 ^ (32 - p) - 1.
Proof.
  intros Hp. unfold in_subnet. set (n := 2 ^ (32 - p)).
  assert (0 < n) by (apply Z.pow_pos_nonneg; lia). clearbody n. set (q := addr / n). clearbody q.
  pose proof (Z.div_mod x n ltac:(lia)). pose proof (Z.mod_pos_bound x n ltac:(lia)).
  split; [intros <-; nia|]. intros. symmetry. apply Z.div_unique with (r := x - q * n); lia.
Qed.
