(* ===== verification/Targets.v ===== *)
(** * What the connect engine hands around

    The data of connects.zig that its loops, its source and the state they
    share exchange: targets, jobs, verdicts. *)
From S2P Require Import Prelude Words.
Open Scope Z_scope.

(** What one TCP connect attempt found. *)
Inductive Outcome := open | refused | filtered.

#[export] Instance Outcome_eq_dec : EqDecision Outcome.
Proof. solve_decision. Defined.

(** What a connect found before the run reports it. *)
Inductive Verdict := v_open | v_refused | v_filtered | v_unconfirmed.

#[export] Instance Verdict_eq_dec : EqDecision Verdict.
Proof. solve_decision. Defined.

Definition alone (self : Verdict) : Outcome :=
  match self with
  | v_open | v_unconfirmed => open
  | v_refused => refused
  | v_filtered => filtered
  end.

Record Target := { t_ip : ip4; t_port : Z; t_timeout_ms : Z; t_cut_floor_ms : option Z }.

#[export] Instance Target_eq_dec : EqDecision Target.
Proof. solve_decision. Defined.

(** Any struct with a target; [j_id] is whatever else it carries. *)
Record Job := { j_id : Z; j_target : Target }.

#[export] Instance Job_eq_dec : EqDecision Job.
Proof. solve_decision. Defined.

(** One connect's verdict, on its way back to the source. *)
Record Settled := { s_job : Job; s_verdict : Verdict; s_elapsed_us : Z }.

#[export] Instance Settled_eq_dec : EqDecision Settled.
Proof. solve_decision. Defined.

(** Take: a job, this loop holds its share already, or no more. *)
Inductive Take := TakeJob (job : Job) | TakeFull | TakeDry.

#[export] Instance Take_eq_dec : EqDecision Take.
Proof. solve_decision. Defined.

Record Cut := { c_wait_ms : option Z; c_last_answer_ns : Z }.
