(* ===== verification/Sys.v ===== *)
(** * The operating system as an environment

    What NetScanner's C helpers and its connect engine ask of the platform
    they run on (sockets, clocks, memory, files, the neighbour table) and of
    what runs beside them (the callbacks of the Zig side, the state the
    engine's loops share) is code outside the function at hand.  [call] names each request
    with its arguments and the type of its answer; an [Env] answers them in
    any way it likes, and every theorem quantifies over it.  The C functions
    are programs of the monad [M]: they thread the environment, log every
    request with its answer, and fail ([None]) only when a loop runs out of
    the fuel it was given. *)
From S2P Require Import Prelude Words Targets.
Open Scope Z_scope.

(** The [#ifdef]s of the C code. *)
Inductive platform := Linux | MacOS | Windows.

#[export] Instance platform_eq_dec : EqDecision platform.
Proof. solve_decision. Defined.

(** A call that can fail: its value, or the error number it leaves in
    [errno] ([WSAGetLastError()] on Windows). *)
Inductive sys (A : Type) :=
| Ok (a : A)
| Err (e : Z).
Arguments Ok {A} a.
Arguments Err {A} e.

Definition sys_ok {A} (r : sys A) : bool :=
  match r with Ok _ => true | Err _ => false end.

Inductive sock_kind := UdpSock | TcpSock | IcmpSock | NetlinkSock.

(** Socket options and ioctls, with the value they set. *)
Inductive sock_opt :=
| OptRcvBuf (n : Z)
| OptSndBuf (n : Z)
| OptRcvTimeo (sec usec : Z)
| OptMulticastIf (ip : ip4)
| OptMulticastTtl (n : Z)
| IoctlUdpConnReset (on : bool)
| IoctlInitialRto (rtt max_syn : Z).

Definition AF_INET : Z := 2.

Record sockaddr := SA { sa_family : Z; sa_ip : ip4; sa_port : Z }.

(** struct timespec *)
Record timespec := TS { tv_sec : Z; tv_nsec : Z }.

Definition ts_ns (t : timespec) : Z := tv_sec t * 1000000000 + tv_nsec t.

(** One interface address of getifaddrs: address and netmask are absent
    or have a family, flags are [IFF_*]. *)
Record ifaddr := IfAddr {
  ifa_addr : option (Z * ip4);
  ifa_netmask : option ip4;
  ifa_up : bool;
  ifa_loopback : bool
}.

(** One adapter of GetAdaptersAddresses with its unicast addresses
    (family, address, on-link prefix length; no family when the address
    pointer is null). *)
Record adapter := Adapter {
  ad_up : bool;
  ad_software_loopback : bool;
  ad_unicast : list (option (Z * ip4) * Z)
}.

(** One record of DnsQuery_A: its type and, for PTR data, the name. *)
Record dns_record := DnsRec { dr_type : Z; dr_name : option (list Z) }.

(** One row of GetIpNetTable2. *)
Record ipnet_row := IpNetRow {
  row_state : Z;
  row_family : Z;
  row_ip : ip4;
  row_phys : list Z;
  row_phys_len : Z
}.

(** What IcmpParseReplies leaves in a reply buffer: how many replies, and
    the first one's status and address. *)
Record icmp_reply := IcmpReply { ir_count : Z; ir_status : Z; ir_addr : ip4 }.

(** The answer of IcmpSendEcho2: 0 with the last error, or a count. *)
Inductive echo2_result := Echo2Zero (last_error : Z) | Echo2Replies (n : Z).

Inductive call : Type → Type :=
(* clocks *)
| ClockMonotonic : call timespec
| ClockRealtime : call timespec
| TickCount64 : call Z
| PerfCounter : call (Z * Z)
| GetPid : call Z
(* sockets *)
| InitOnceBegin : call bool
| InitOnceComplete (ok : bool) : call unit
| WsaStartup : call Z
| AtexitWsaCleanup : call unit
| Socket (k : sock_kind) : call (sys Z)
| CloseSock (s : Z) : call unit
| FcntlGetFl (s : Z) : call (sys Z)
| FcntlSetFl (s flags : Z) : call (sys unit)
| IoctlNonblocking (s : Z) : call (sys unit)
| SetOpt (s : Z) (o : sock_opt) : call (sys unit)
| Bind (s : Z) (a : sockaddr) : call (sys unit)
| Connect (s : Z) (a : sockaddr) : call (sys unit)
| Send (s : Z) (data : list Z) : call (sys Z)
| SendTo (s : Z) (data : list Z) (a : sockaddr) : call (sys Z)
| Recv (s cap : Z) : call (sys (list Z))
| RecvFrom (s cap : Z) : call (sys (list Z * sockaddr))
| Poll (fds : list Z) (timeout_ms : Z) : call (sys (list Z))
| Select (readable writable failed : list Z) (sec usec : Z) : call (sys (list Z * list Z * list Z))
| GetSockName (s : Z) : call (sys sockaddr)
| GetPeerName (s : Z) : call (sys sockaddr)
| GetSoError (s : Z) : call (sys Z)
(* memory *)
| Malloc (size : Z) : call (option Z)
| Realloc (old : option Z) (size : Z) : call (option Z)
| Free (p : Z) : call unit
(* files *)
| Fopen (path : list Z) : call (option Z)
| Fseek (f : Z) (to_end : bool) : call unit
| Ftell (f : Z) : call Z
| Fread (f n : Z) : call (list Z)
| Fclose (f : Z) : call unit
(* names *)
| InetPton (text : list Z) : call (option ip4)
| GetNameInfo (ip : ip4) (cap : Z) : call (option (list Z))
(* [Err] is a nonzero status, or a zero one without records. *)
| DnsQueryPtr (query : list Z) : call (sys (Z * list dns_record))
| DnsFree (h : Z) : call unit
| SendArp (ip : ip4) : call (sys (list Z * Z))
(* interfaces and neighbour tables *)
| GetIfAddrs : call (option (Z * list ifaddr))
| FreeIfAddrs (h : Z) : call unit
| GetAdapters (size : Z) : call (sys (list adapter) * Z)
| GetIpNetTable2 : call (option (Z * list ipnet_row))
| FreeMibTable (h : Z) : call unit
| SysctlSize : call (sys Z)
| SysctlRead (cap : Z) : call (sys (list Z))
(* Windows ICMP *)
| IcmpCreateFile : call (option Z)
| IcmpCloseHandle (h : Z) : call unit
| IcmpSendEcho2 (h slot : Z) (dest : ip4) (payload : list Z) (timeout_ms : Z) : call echo2_result
| IcmpParseReplies (slot : Z) : call icmp_reply
| CreateTimer : call (option Z)
| SetTimer (h due : Z) : call bool
| AlertableWait (ms : option Z) : call (list Z)
| CloseTimer (h : Z) : call unit
(* the observer's callbacks *)
| Pinged (index : nat) (answered : bool) : call unit
| StopRequested : call bool
(* what the connect engine asks besides *)
| PollOut (fds : list Z) (timeout_ms : Z) : call (sys (list Z))
| Sleep (ns : Z) : call unit
| GetRlimit : call (sys (Z * Z))
| SetRlimit (cur max : Z) : call (sys unit)
(* of the state its loops share (Shared in connects.zig), one at a time *)
| TakeNext (in_flight : nat) : call Take
| ReportDone (batch : list Settled) (now : Z) : call unit
| LoadCap : call Z
| LoadLastAnswer : call Z
| LoadStarved : call bool
| StoreStarved : call unit
(* of the source itself, and of the machine before the loops start *)
| SourceNext : call (option Job)
| SourceDone (job : Job) (outcome : Outcome) (elapsed_us : Z) : call unit
| SourceWaitCap : call (option Z)
| AppendJob (job : Job) : call bool
| CpuCount : call (sys Z).

(** One logged request with its answer. *)
Inductive event :=
| Ev (A : Type) (c : call A) (r : A).
Arguments Ev {A} c r.

Class Env (E : Type) := env_step : ∀ A, call A → E → A * E.
Arguments env_step {E _ A} c e.

Definition M (E A : Type) : Type := E → option (A * E * list event).

#[export] Instance M_ret E : MRet (M E) := λ A a e, Some (a, e, []).

#[export] Instance M_bind E : MBind (M E) := λ A B k m e,
  match m e with
  | Some (a, e', t) =>
    match k a e' with
    | Some (b, e'', t') => Some (b, e'', t ++ t')
    | None => None
    end
  | None => None
  end.

Definition ask {E} `{Env E} {A} (c : call A) : M E A := λ e,
  let '(r, e') := env_step c e in Some (r, e', [Ev c r]).

(** What receiving [data] leaves in a buffer of [cap] bytes: whatever the
    kernel hands over arrives as bytes, and the rest of a datagram larger
    than the buffer is cut off. *)
Definition buffer (cap : Z) (data : list Z) : list Z := map u8 (take (Z.to_nat cap) data).

Lemma bytes_buffer cap data : bytes (buffer cap data).
Proof. unfold buffer. apply Forall_map, Forall_forall. intros. apply u8_range. Qed.

Lemma length_buffer cap data :
  0 <= cap → Z.of_nat (length (buffer cap data)) <= cap.
Proof. intros. unfold buffer. rewrite length_map, length_take. lia. Qed.

Lemma buffer_id cap data :
  bytes data → Z.of_nat (length data) <= cap → buffer cap data = data.
Proof.
  intros Hb Hlen. unfold buffer. rewrite take_ge by lia. clear Hlen.
  induction Hb as [|b bs Hb _ IH]; [done|]. simpl. by rewrite IH, u8_id.
Qed.

(** free(p), which ignores a null pointer. *)
Definition free_opt {E} `{Env E} (p : option Z) : M E unit :=
  match p with Some p => ask (Free p) | None => mret () end.

(** [loop n body s] runs [body] until it answers [inr]: a [for (;;)] or
    [while] of the C code.  [n] bounds the rounds. *)
Fixpoint loop {E St R} (n : nat) (body : St → M E (St + R)) (s : St) : M E R :=
  match n with
  | O => λ _, None
  | S n =>
    x ← body s;
    match x with
    | inl s' => loop n body s'
    | inr r => mret r
    end
  end.

(** ** Inverting and composing runs *)

Section Runs.
Context {E : Type}.

Lemma ret_inv {A} (a b : A) (e e' : E) t :
  (mret a : M E A) e = Some (b, e', t) → b = a ∧ e' = e ∧ t = [].
Proof. unfold mret, M_ret. naive_solver. Qed.

Lemma bind_inv {A B} (m : M E A) (k : A → M E B) e b e'' t :
  (m ≫= k) e = Some (b, e'', t) →
  ∃ a e' t1 t2, m e = Some (a, e', t1) ∧ k a e' = Some (b, e'', t2) ∧ t = t1 ++ t2.
Proof.
  unfold mbind, M_bind. destruct (m e) as [[[a e'] t1]|]; [|done].
  destruct (k a e') as [[[? ?] t2]|] eqn:Hk; [|done]. naive_solver.
Qed.

Lemma bind_some {A B} (m : M E A) (k : A → M E B) e a e' t1 b e'' t2 :
  m e = Some (a, e', t1) → k a e' = Some (b, e'', t2) →
  (m ≫= k) e = Some (b, e'', t1 ++ t2).
Proof. unfold mbind, M_bind. by intros -> ->. Qed.

(** A part that answers without a request is its answer. *)
Lemma bind_then {A B} (m : M E A) (k : A → M E B) e a e' :
  m e = Some (a, e', []) → (m ≫= k) e = k a e'.
Proof. unfold mbind, M_bind. intros ->. by destruct (k a e') as [[[? ?] ?]|]. Qed.

Lemma bind_none {A B} (m : M E A) (k : A → M E B) e :
  (m ≫= k) e = None →
  m e = None ∨ ∃ a e' t, m e = Some (a, e', t) ∧ k a e' = None.
Proof.
  unfold mbind, M_bind. destruct (m e) as [[[a e'] t1]|]; [|by left].
  destruct (k a e') as [[[? ?] t2]|] eqn:Hk; [done|]. naive_solver.
Qed.

Lemma ask_inv `{Env E} {A} (c : call A) e r e' t :
  ask c e = Some (r, e', t) → env_step c e = (r, e') ∧ t = [Ev c r].
Proof. unfold ask. destruct (env_step c e). naive_solver. Qed.
End Runs.

(** Break a run of a program into the runs of its parts. *)
Ltac run_inv1 :=
  match goal with
  | H : (_ ≫= _) _ = Some (_, _, _) |- _ =>
      let H1 := fresh "R" in let H2 := fresh "R" in
      apply bind_inv in H as (? & ? & ? & ? & H1 & H2 & ->)
  | H : mret _ _ = Some (_, _, _) |- _ => apply ret_inv in H as (? & ? & ?); simplify_eq
  | H : ask _ _ = Some (_, _, _) |- _ => apply ask_inv in H as [H ->]
  | H : (if ?b then _ else _) _ = Some _ |- _ => destruct b eqn:?
  | H : (match ?x with _ => _ end) _ = Some _ |- _ => destruct x eqn:?
  | H : (let '(_, _) := ?x in _) _ = Some _ |- _ => destruct x eqn:?
  | x : unit |- _ => destruct x
  end.
Ltac run_inv := repeat (run_inv1; cbn beta in * ).

(** ** Programs that always answer *)

Definition total {E A} (m : M E A) : Prop := ∀ e, is_Some (m e).

Lemma total_ret {E A} (a : A) : total (mret a : M E A).
Proof. intros e. by eexists. Qed.

Lemma total_ask {E} `{Env E} {A} (c : call A) : total (ask c).
Proof. intros e. unfold ask. destruct (env_step c e). by eexists. Qed.

Lemma total_bind {E A B} (m : M E A) (k : A → M E B) :
  total m → (∀ a, total (k a)) → total (m ≫= k).
Proof.
  intros Hm Hk e. destruct (Hm e) as [[[a e'] t] Ha]. destruct (Hk a e') as [[[b e''] t'] Hb].
  exists (b, e'', t ++ t'). by eapply bind_some.
Qed.

Create HintDb total.
#[export] Hint Resolve total_ret total_ask total_bind : total.

(** Prove a straight-line program total, splitting its branches. *)
Ltac solve_total :=
  repeat (intros; match goal with
  | |- total (_ ≫= _) => apply total_bind
  | |- total (mret _) => apply total_ret
  | |- total (ask _) => apply total_ask
  | |- total (if ?b then _ else _) => destruct b
  | |- total (match ?x with _ => _ end) => destruct x
  | |- total _ => progress auto with total
  end).

(** ** Loops *)

Section Loops.
Context {E St R : Type}.
Implicit Types (body : St → M E (St + R)) (s : St).

(** Partial correctness: what holds of the state, the environment and
    the log so far, and is kept by every round, holds at the end. *)
Lemma loop_invariant (I : St → E → list event → Prop) (Q : R → E → list event → Prop) body :
  (∀ s e t0 s' e' t, I s e t0 → body s e = Some (inl s', e', t) → I s' e' (t0 ++ t)) →
  (∀ s e t0 r e' t, I s e t0 → body s e = Some (inr r, e', t) → Q r e' (t0 ++ t)) →
  ∀ n s e t0 r e' t, I s e t0 → loop n body s e = Some (r, e', t) → Q r e' (t0 ++ t).
Proof.
  intros Hstep Hend n. induction n as [|n IH]; [done|].
  intros s e t0 r e' t HI H. cbn [loop] in H.
  apply bind_inv in H as ([s'|r'] & e1 & t1 & t2 & Hb & Hk & ->).
  - rewrite app_assoc. by eapply IH; eauto.
  - apply ret_inv in Hk as (-> & -> & ->). rewrite app_nil_r. eauto.
Qed.

(** More fuel never changes an answer. *)
Definition fuel_mono {A} (f : nat → M E A) : Prop :=
  ∀ n m e x, (n ≤ m)%nat → f n e = Some x → f m e = Some x.

Lemma loop_mono (body : nat → St → M E (St + R)) :
  (∀ s, fuel_mono (λ n, body n s)) →
  ∀ n m k l s e x, (n ≤ m)%nat → (k ≤ l)%nat →
  loop n (body k) s e = Some x → loop m (body l) s e = Some x.
Proof.
  intros Hb n. induction n as [|n IH]; [done|].
  intros [|m] k l s e x Hnm Hkl H; [lia|].
  destruct x as [[r e'] t]. cbn [loop] in *.
  apply bind_inv in H as ([s'|r'] & e1 & t1 & t2 & Hb1 & Hk & ->).
  - eapply bind_some; [by eapply Hb|]. simpl. eapply IH; [| |done]; lia.
  - eapply bind_some; [by eapply Hb|done].
Qed.

End Loops.

(** The rounds a loop goes through, some fuel being enough for each. *)
Inductive rounds {E St R} (body : nat → St → M E (St + R)) : St * E → St * E → Prop :=
| rounds_refl p : rounds body p p
| rounds_step n s e s' e' t q :
    body n s e = Some (inl s', e', t) → rounds body (s', e') q → rounds body (s, e) q.

(** Termination up to an exceptional state: a loop whose rounds descend
    except in a [bad] state either ends or reaches one. *)
Lemma loop_ends_or {E St R} (I : St → E → Prop) (bad : St → E → Prop)
    (lt : St * E → St * E → Prop) (body : nat → St → M E (St + R)) :
  well_founded lt →
  (∀ s, fuel_mono (λ n, body n s)) →
  (∀ s e, I s e → bad s e ∨ ∃ n x e' t, body n s e = Some (x, e', t) ∧
     match x with inl s' => I s' e' ∧ lt (s', e') (s, e) | inr _ => True end) →
  ∀ s e, I s e →
    (∃ n, ∀ m k, (n ≤ m)%nat → (n ≤ k)%nat → is_Some (loop m (body k) s e)) ∨
    ∃ s' e', rounds body (s, e) (s', e') ∧ bad s' e'.
Proof.
  intros Hwf Hmono Hstep s e.
  remember (s, e) as p eqn:Hp. revert s e Hp.
  induction p as [p IH] using (well_founded_ind Hwf). intros s e -> HI.
  destruct (Hstep s e HI) as [Hbad|(n & [s'|r] & e' & t & Hb & Hx)].
  - right. exists s, e. split; [constructor|done].
  - destruct Hx as [HI' Hlt]. destruct (IH _ Hlt s' e' eq_refl HI') as [[n' Hn']|(s2 & e2 & Hr & Hbad)].
    + left. exists (S (n + n'))%nat. intros [|m] k Hm Hk; [lia|].
      destruct (Hn' m k ltac:(lia) ltac:(lia)) as [[[r e''] t'] Hl].
      exists (r, e'', t ++ t'). cbn [loop]. eapply bind_some; [eapply Hmono; [|exact Hb]; lia|exact Hl].
    + right. exists s2, e2. split; [by econstructor|done].
  - left. exists (S n). intros [|m] k Hm Hk; [lia|]. exists (r, e', t ++ []). cbn [loop].
    eapply bind_some; [eapply Hmono; [|exact Hb]; lia|done].
Qed.

(** Termination: when every round answers under the invariant and each
    round that goes on descends in a well-founded order, some fuel is
    enough. *)
Lemma loop_terminates {E St R} (I : St → E → Prop) (lt : St * E → St * E → Prop)
    (body : nat → St → M E (St + R)) :
  well_founded lt →
  (∀ s, fuel_mono (λ n, body n s)) →
  (∀ s e, I s e → ∃ n x e' t, body n s e = Some (x, e', t) ∧
     match x with inl s' => I s' e' ∧ lt (s', e') (s, e) | inr _ => True end) →
  ∀ s e, I s e → ∃ n, ∀ m k, (n ≤ m)%nat → (n ≤ k)%nat → is_Some (loop m (body k) s e).
Proof.
  intros Hwf Hmono Hstep s e HI.
  destruct (loop_ends_or I (λ _ _, False) lt body Hwf Hmono ltac:(auto) s e HI) as [?|(?&?&_&[])].
  done.
Qed.

Lemma fuel_mono_const {E A} (m : M E A) : fuel_mono (λ _, m).
Proof. by intros ? ? ? ? _. Qed.

Lemma fuel_mono_bind {E A B} (f : nat → M E A) (k : nat → A → M E B) :
  fuel_mono f → (∀ a, fuel_mono (λ n, k n a)) → fuel_mono (λ n, f n ≫= k n).
Proof.
  intros Hf Hk n m e [[b e''] t] Hle H.
  apply bind_inv in H as (a & e' & t1 & t2 & Ha & Hb & ->).
  eapply bind_some; [by eapply Hf|by eapply Hk].
Qed.

Lemma fuel_mono_loop {E St R} (body : nat → St → M E (St + R)) s :
  (∀ s, fuel_mono (λ n, body n s)) → fuel_mono (λ n, loop n (body n) s).
Proof. intros Hb n m e x Hle H. by eapply loop_mono. Qed.

(** Programs that answer in every environment when given enough fuel, and
    the same whatever the fuel beyond that. *)
Definition runs {E A} (f : nat → M E A) : Prop :=
  fuel_mono f ∧ ∀ e, ∃ n, is_Some (f n e).

Lemma runs_const {E A} (m : M E A) : total m → runs (λ _, m).
Proof. intros Hm. split; [apply fuel_mono_const|]. intros e. by exists 0%nat. Qed.

Lemma runs_bind {E A B} (f : nat → M E A) (k : nat → A → M E B) :
  runs f → (∀ a, runs (λ n, k n a)) → runs (λ n, f n ≫= k n).
Proof.
  intros [Hf1 Hf2] Hk. split; [apply fuel_mono_bind; [done|apply Hk]|].
  intros e. destruct (Hf2 e) as [n [[[a e'] t] Ha]].
  destruct (Hk a) as [Hk1 Hk2]. destruct (Hk2 e') as [m [[[b e''] t'] Hb]].
  exists (n `max` m)%nat. eexists. eapply bind_some.
  - eapply Hf1; [|exact Ha]. lia.
  - eapply (Hk1 m); [lia|exact Hb].
Qed.

(** The same when what follows only runs on what the first part can answer. *)
Lemma runs_bind_when {E A B} (P : A → Prop) (f : nat → M E A) (k : nat → A → M E B) :
  runs f → (∀ n e a e' t, f n e = Some (a, e', t) → P a) →
  (∀ a, fuel_mono (λ n, k n a)) → (∀ a, P a → runs (λ n, k n a)) → runs (λ n, f n ≫= k n).
Proof.
  intros [Hf1 Hf2] HP Hm Hk. split; [by apply fuel_mono_bind|].
  intros e. destruct (Hf2 e) as [n [[[a e'] t] Ha]].
  destruct (Hk a (HP _ _ _ _ _ Ha)) as [Hk1 Hk2]. destruct (Hk2 e') as [m [[[b e''] t'] Hb]].
  exists (n `max` m)%nat. eexists. eapply bind_some.
  - eapply Hf1; [|exact Ha]. lia.
  - eapply (Hk1 m); [lia|exact Hb].
Qed.

Lemma runs_enough {E A} (f : nat → M E A) e :
  runs f → ∃ n, ∀ m, (n ≤ m)%nat → is_Some (f m e).
Proof.
  intros [Hm Hf]. destruct (Hf e) as [n [x Hx]]. exists n. intros m Hle. exists x. by eapply Hm.
Qed.

(** A loop whose rounds always descend runs to its end. *)
Lemma runs_loop {E St R} (lt : St * E → St * E → Prop) (body : nat → St → M E (St + R)) s :
  well_founded lt →
  (∀ s, runs (λ n, body n s)) →
  (∀ n s e s' e' t, body n s e = Some (inl s', e', t) → lt (s', e') (s, e)) →
  runs (λ n, loop n (body n) s).
Proof.
  intros Hwf Hb Hlt. split; [apply fuel_mono_loop; intros; apply Hb|]. intros e.
  destruct (loop_terminates (λ _ _, True) lt body Hwf) with (s := s) (e := e) as [n Hn].
  - intros. apply Hb.
  - intros s1 e1 _. destruct (Hb s1) as [_ Hs]. destruct (Hs e1) as [n [[[x e2] t] Hx]].
    exists n, x, e2, t. split; [done|]. destruct x; [|done]. split; [done|]. by eapply Hlt.
  - done.
  - exists n. by apply (Hn n n).
Qed.

(** ** Time

    The law the termination theorems rest on: the monotonic clock (in
    nanoseconds) never goes back, it does not stand still for ever
    ([stall e] bounds how many more readings of it can show the same time),
    and a call that is asked to wait no longer than some time lasts less
    than a day longer than that (the C code keeps elapsed milliseconds in an
    [int], which holds 24 days). *)

(** The longest a call is asked to wait, in ms; [None] is for ever. *)
Definition asked_ms {A} (c : call A) : option Z :=
  match c with
  | Poll _ ms | PollOut _ ms => if ms <? 0 then None else Some ms
  | Sleep ns => Some (ns / 1000000 + 1)
  | Select _ _ _ sec usec => Some (sec * 1000 + usec / 1000 + 1)
  | AlertableWait ms => ms
  | _ => Some 0
  end.

Class ClockLaw (E : Type) `{Env E} := {
  clk : E → Z;
  stall : E → nat;
  clock_read : ∀ (e e' : E) ts, env_step ClockMonotonic e = (ts, e') →
    ts_ns ts = clk e ∧ 0 <= tv_nsec ts < 1000000000 ∧
    (clk e < clk e' ∨ (clk e = clk e' ∧ (stall e' < stall e)%nat));
  clock_mono : ∀ A (c : call A) (e e' : E) r, env_step c e = (r, e') →
    clk e < clk e' ∨ (clk e = clk e' ∧ (stall e' ≤ stall e)%nat);
  clock_day : ∀ A (c : call A) ms (e e' : E) r, env_step c e = (r, e') → asked_ms c = Some ms →
    clk e' <= clk e + Z.max 0 ms * 1000000 + 86400000000000
}.

Section Clock.
Context {E : Type} `{ClockLaw E}.

(** [later e' e]: [e'] is [e] or comes after it. *)
Definition later (e' e : E) : Prop :=
  clk e < clk e' ∨ (clk e = clk e' ∧ (stall e' ≤ stall e)%nat).

(** [ticked e' e]: and the clock was read in between. *)
Definition ticked (e' e : E) : Prop :=
  clk e < clk e' ∨ (clk e = clk e' ∧ (stall e' < stall e)%nat).

Lemma later_refl e : later e e.
Proof. unfold later; lia. Qed.
Lemma later_trans e1 e2 e3 : later e2 e1 → later e3 e2 → later e3 e1.
Proof. unfold later; lia. Qed.
Lemma ticked_later e1 e2 : ticked e2 e1 → later e2 e1.
Proof. unfold ticked, later; lia. Qed.
Lemma ticked_later_trans e1 e2 e3 : ticked e2 e1 → later e3 e2 → ticked e3 e1.
Proof. unfold ticked, later; lia. Qed.
Lemma later_ticked_trans e1 e2 e3 : later e2 e1 → ticked e3 e2 → ticked e3 e1.
Proof. unfold ticked, later; lia. Qed.

(** A program that only moves time forward: every program built from
    requests does. *)
Definition timely {A} (m : M E A) : Prop :=
  ∀ e a e' t, m e = Some (a, e', t) → later e' e.

Lemma timely_ret {A} (a : A) : timely (mret a).
Proof. intros e b e' t Hr. run_inv. apply later_refl. Qed.

Lemma timely_ask {A} (c : call A) : timely (ask c).
Proof. intros e b e' t Hr. run_inv. by eapply clock_mono. Qed.

Lemma timely_bind {A B} (m : M E A) (k : A → M E B) :
  timely m → (∀ a, timely (k a)) → timely (m ≫= k).
Proof.
  intros Hm Hk e b e' t Hr. run_inv. eapply later_trans; [by eapply Hm|by eapply Hk].
Qed.

Lemma timely_loop {St R} n (body : St → M E (St + R)) :
  (∀ s, timely (body s)) → ∀ s, timely (loop n body s).
Proof.
  intros Hb. induction n as [|n IH]; [done|]. intros s. cbn [loop].
  apply timely_bind; [done|]. intros [s'|r]; [done|apply timely_ret].
Qed.

(** Rounds that read the clock and go on only before a deadline: the
    order that makes a polling loop terminate. *)
Definition clock_lt (deadline : Z) (e' e : E) : Prop := ticked e' e ∧ clk e < deadline.

Lemma clock_lt_wf deadline : well_founded (clock_lt deadline).
Proof.
  assert (∀ n m e, (Z.to_nat (deadline - clk e) ≤ n)%nat → (stall e ≤ m)%nat →
    Acc (clock_lt deadline) e) as Hacc.
  { induction n as [n IHn] using lt_wf_ind. induction m as [m IHm] using lt_wf_ind.
    intros e Hn Hm. constructor. intros e' [[Ht|[Ht1 Ht2]] Hd].
    - eapply (IHn (Z.to_nat (deadline - clk e'))); [lia|done..].
    - eapply (IHm (stall e')); [lia|rewrite <- Ht1; lia|done]. }
  intros e. by eapply Hacc.
Qed.

(** The same for rounds that also carry a state. *)
Definition round_lt {St} (deadline : Z) (p q : St * E) : Prop := clock_lt deadline p.2 q.2.

Lemma round_lt_wf {St} deadline : well_founded (round_lt (St := St) deadline).
Proof. eapply (wf_projected (clock_lt deadline) snd); [done|apply clock_lt_wf]. Qed.

(** No round of a loop that goes on takes longer than [ms]. *)
Definition brisk {St R} (body : nat → St → M E (St + R)) (ms : Z) (p : St * E) : Prop :=
  ∀ s e n s' e' t, rounds body p (s, e) → body n s e = Some (inl s', e', t) →
  clk e' <= clk e + ms * 1000000.

Lemma brisk_next {St R} (body : nat → St → M E (St + R)) ms n s e s' e' t :
  brisk body ms (s, e) → body n s e = Some (inl s', e', t) →
  clk e' <= clk e + ms * 1000000 ∧ brisk body ms (s', e').
Proof.
  intros Hb Hr. split; [eapply Hb; [constructor|exact Hr]|].
  intros s1 e1 k s2 e2 u Hrs. eapply Hb. by econstructor.
Qed.

(** A loop that can be run is brisk when its own run is: [n] rounds are
    enough, and fuel [k] for each. *)
Fixpoint brisk_run {St R} (body : nat → St → M E (St + R)) (ms : Z) (n k : nat) (s : St) (e : E) : bool :=
  match n with
  | O => false
  | S n =>
    match body k s e with
    | Some (inl s', e', _) => (clk e' <=? clk e + ms * 1000000) && brisk_run body ms n k s' e'
    | Some (inr _, _, _) => true
    | None => false
    end
  end.

Lemma brisk_run_sound {St R} (body : nat → St → M E (St + R)) ms k :
  (∀ s, fuel_mono (λ n, body n s)) →
  ∀ n s e, brisk_run body ms n k s e = true → brisk body ms (s, e).
Proof.
  intros Hmono n. induction n as [|n IH]; intros s e Hrun; [done|]. simpl in Hrun.
  assert (∀ j x, body j s e = Some x → body k s e = Some x) as Hsame.
  { intros j x Hx. destruct (body k s e) as [y|] eqn:Hy; [|done].
    assert (body (j `max` k)%nat s e = Some x) by (by eapply Hmono; [|exact Hx]; lia).
    assert (body (j `max` k)%nat s e = Some y) by (by eapply Hmono; [|exact Hy]; lia). congruence. }
  intros s1 e1 j s2 e2 u Hrs Hr. inversion Hrs as [|? ? ? s' e' t ? Hr1 Hrs1]; simplify_eq.
  - apply Hsame in Hr. rewrite Hr in Hrun. apply andb_true_iff in Hrun as [Hle _]. to_prop. lia.
  - apply Hsame in Hr1. rewrite Hr1 in Hrun. apply andb_true_iff in Hrun as [_ Hrun].
    exact (IH _ _ Hrun s1 e1 j s2 e2 u Hrs1 Hr).
Qed.
End Clock.

(** ** Loops that make progress or wait for a deadline

    A round of such a loop makes [measure] smaller, or it began before a
    [deadline] that then stays.  When no round lasts longer than [ms], the
    loop is over [span_ns] later: as many pauses as the measure says.  The
    argument may need the clock to stay below some [horizon], which the span
    then has to keep within. *)

Definition span_ns (pause ms : Z) (measure : nat) : Z :=
  Z.of_nat measure * (pause + 2 * (ms * 1000000)) + pause + ms * 1000000.

Section Paced.
Context {E : Type} `{ClockLaw E} {St R : Type}.
Variables (body : nat → St → M E (St + R)) (I : St → E → Prop).
Variables (measure : St → E → nat) (deadline : St → E → Z) (pause horizon : Z).

Definition advances (p' p : St * E) : Prop :=
  (measure p'.1 p'.2 < measure p.1 p.2)%nat ∨
  (measure p'.1 p'.2 = measure p.1 p.2 ∧ deadline p'.1 p'.2 <= deadline p.1 p.2 ∧
   clk p.2 < deadline p.1 p.2).

(** The order the rounds descend in. *)
Definition paced_order (p' p : St * E) : Prop := ticked p'.2 p.2 ∧ advances p' p.

Lemma paced_order_wf : well_founded paced_order.
Proof.
  assert (∀ n D e s, measure s e = n → deadline s e <= D → Acc paced_order (s, e)) as Hacc.
  { induction n as [n IHn] using lt_wf_ind. intros D.
    induction e as [e IHe] using (well_founded_ind (clock_lt_wf D)).
    intros s Hn HD. constructor. intros [s' e'] [Ht [Hlt|(Hm & Hd & Hc)]]; simpl in *.
    - subst. by eapply IHn.
    - eapply (IHe e'); [|lia..]. split; [done|lia]. }
  intros [s e]. by eapply Hacc.
Qed.

Hypothesis Hruns : ∀ s, runs (λ n, body n s).
Hypothesis Hpause : 0 <= pause.
Hypothesis Hround : ∀ n s e s' e' t,
  I s e → clk e' < horizon → body n s e = Some (inl s', e', t) →
  I s' e' ∧ deadline s' e' <= clk e' + pause ∧ paced_order (s', e') (s, e).

(** Where the rounds stand: the measure lost pays for the time gone by. *)
Definition on_time (ms t0 : Z) (m0 : nat) (s : St) (e : E) : Prop :=
  let spent := t0 + (Z.of_nat m0 - Z.of_nat (measure s e)) * (pause + 2 * (ms * 1000000)) in
  I s e ∧ (measure s e ≤ m0)%nat ∧
  deadline s e <= spent + pause ∧ clk e <= spent + pause + ms * 1000000.

Lemma on_time_span ms t0 m0 s e :
  0 <= ms → on_time ms t0 m0 s e → clk e <= t0 + span_ns pause ms m0.
Proof.
  intros Hms (_ & Hm & _ & Hc). unfold span_ns.
  assert (0 <= Z.of_nat (measure s e) * (pause + 2 * (ms * 1000000))) by (apply Z.mul_nonneg_nonneg; lia).
  lia.
Qed.

Lemma on_time_round ms t0 m0 n s e s' e' t :
  0 <= ms → t0 + span_ns pause ms m0 + ms * 1000000 < horizon → on_time ms t0 m0 s e →
  body n s e = Some (inl s', e', t) → clk e' <= clk e + ms * 1000000 →
  on_time ms t0 m0 s' e' ∧ paced_order (s', e') (s, e).
Proof.
  intros Hms Hspan Hon Hr Hle. pose proof (on_time_span _ _ _ _ _ Hms Hon) as Hnow.
  destruct Hon as (Hi & Hm & Hd & Hc).
  assert (clk e' < horizon) as Hnear by lia.
  destruct (Hround _ _ _ _ _ _ Hi Hnear Hr) as (Hi' & Hd' & Hord). split; [|done].
  destruct Hord as [_ [Hlt|(Heq & Hdl & Hlt)]]; simpl in *.
  - assert ((Z.of_nat m0 - Z.of_nat (measure s e)) * (pause + 2 * (ms * 1000000))
      + (pause + 2 * (ms * 1000000))
      <= (Z.of_nat m0 - Z.of_nat (measure s' e')) * (pause + 2 * (ms * 1000000))) as Hpay.
    { rewrite <- Z.mul_succ_l. apply Z.mul_le_mono_nonneg_r; lia. }
    unfold on_time. cbv zeta in *. repeat split; [done|lia..].
  - unfold on_time. cbv zeta in *. rewrite Heq. repeat split; [done|lia..].
Qed.

Lemma on_time_start ms s e : 0 <= ms → I s e → deadline s e <= clk e + pause → on_time ms (clk e) (measure s e) s e.
Proof. intros. unfold on_time. rewrite Z.sub_diag. simpl. repeat split; [done|lia..]. Qed.

Lemma paced_rounds ms t0 m0 p q :
  0 <= ms → t0 + span_ns pause ms m0 + ms * 1000000 < horizon →
  rounds body p q → on_time ms t0 m0 p.1 p.2 → brisk body ms p → on_time ms t0 m0 q.1 q.2.
Proof.
  intros Hms Hspan. induction 1 as [p|n s e s' e' u q Hr _ IH]; intros Hon Hb; [done|].
  destruct (brisk_next _ _ _ _ _ _ _ _ Hb Hr) as [Hle Hb2]. apply IH; [|done].
  by eapply on_time_round.
Qed.

(** The loop ends, and every round of it begins within the span. *)
Lemma paced_terminates ms s e :
  0 <= ms → I s e → deadline s e <= clk e + pause →
  clk e + span_ns pause ms (measure s e) + ms * 1000000 < horizon → brisk body ms (s, e) →
  (∃ n, ∀ m k, (n ≤ m)%nat → (n ≤ k)%nat → is_Some (loop m (body k) s e)) ∧
  ∀ s' e', rounds body (s, e) (s', e') → clk e' <= clk e + span_ns pause ms (measure s e).
Proof.
  intros Hms Hi Hd Hspan Hb. pose proof (on_time_start _ _ _ Hms Hi Hd) as Hon. split.
  - apply (loop_terminates (λ s1 e1, on_time ms (clk e) (measure s e) s1 e1 ∧ brisk body ms (s1, e1))
      paced_order); [apply paced_order_wf|intros; apply Hruns| |done].
    intros s1 e1 [Hon1 Hb1]. destruct (Hruns s1) as [_ Hends]. destruct (Hends e1) as [n [[[x e2] u] Hr]].
    exists n, x, e2, u. split; [done|]. destruct x as [s2|]; [|done].
    destruct (brisk_next _ _ _ _ _ _ _ _ Hb1 Hr) as [Hle Hb2].
    by destruct (on_time_round _ _ _ _ _ _ _ _ _ Hms Hspan Hon1 Hr Hle).
  - intros s' e' Hrs. eapply on_time_span; [done|].
    exact (paced_rounds _ _ _ _ _ Hms Hspan Hrs Hon Hb).
Qed.
End Paced.

Create HintDb timely.
#[export] Hint Resolve timely_ret timely_ask timely_bind timely_loop : timely.

Ltac solve_timely :=
  repeat (intros; match goal with
  | |- timely (_ ≫= _) => apply timely_bind
  | |- timely (mret _) => apply timely_ret
  | |- timely (ask _) => apply timely_ask
  | |- timely (loop _ _ _) => apply timely_loop
  | |- timely (if ?b then _ else _) => destruct b
  | |- timely (match ?x with _ => _ end) => destruct x
  | |- timely _ => progress auto with timely
  end).

(** ** Receive queues

    What the receive loops rely on: datagrams queue up finitely, taking one
    (or being interrupted) leaves fewer, and a callback or an allocation
    brings in none. *)

Definition EINTR : Z := 4.

Class QueueLaw (E : Type) `{Env E} := {
  queued : E → nat;
  queued_recvfrom : ∀ s cap (e e' : E) r, env_step (RecvFrom s cap) e = (r, e') →
    (sys_ok r = true ∨ r = Err EINTR) → (queued e' < queued e)%nat;
  queued_recv : ∀ s cap (e e' : E) r, env_step (Recv s cap) e = (r, e') →
    (sys_ok r = true ∨ r = Err EINTR) → (queued e' < queued e)%nat;
  queued_pinged : ∀ i a (e e' : E) r, env_step (Pinged i a) e = (r, e') →
    (queued e' ≤ queued e)%nat;
  queued_realloc : ∀ p n (e e' : E) r, env_step (Realloc p n) e = (r, e') →
    (queued e' ≤ queued e)%nat
}.

(** Programs that leave the queues as they are, or shorter. *)
Section Queues.
Context {E : Type} `{QueueLaw E}.

Definition settled {A} (m : M E A) : Prop :=
  ∀ e a e' t, m e = Some (a, e', t) → (queued e' ≤ queued e)%nat.

Lemma settled_ret {A} (a : A) : settled (mret a).
Proof. intros e b e' t Hr. by run_inv. Qed.

Lemma settled_realloc p n : settled (ask (Realloc p n)).
Proof. intros e r e' t Hr. run_inv. by eapply queued_realloc. Qed.

Lemma settled_bind {A B} (m : M E A) (k : A → M E B) :
  settled m → (∀ a, settled (k a)) → settled (m ≫= k).
Proof. intros Hm Hk e b e' t Hr. run_inv. etrans; [by eapply Hk|by eapply Hm]. Qed.

Lemma settled_loop {St R} n (body : St → M E (St + R)) :
  (∀ s, settled (body s)) → ∀ s, settled (loop n body s).
Proof.
  intros Hb. induction n as [|n IH]; [done|]. intros s. cbn [loop].
  apply settled_bind; [done|]. intros [s'|r]; [done|apply settled_ret].
Qed.
End Queues.

Ltac solve_settled :=
  repeat (intros; match goal with
  | |- settled (_ ≫= _) => apply settled_bind
  | |- settled (mret _) => apply settled_ret
  | |- settled (ask (Realloc _ _)) => apply settled_realloc
  | |- settled (loop _ _ _) => apply settled_loop
  | |- settled (if ?b then _ else _) => destruct b
  | |- settled (match ?x with _ => _ end) => destruct x
  end).

(** ** The source of a run

    Its connects are finite in number, and a loop that holds none always has
    a share of the window. *)
Class SupplyLaw (E : Type) `{Env E} := {
  supply : E → nat;
  supply_take : ∀ n (e e' : E) job, env_step (TakeNext n) e = (TakeJob job, e') →
    (supply e' < supply e)%nat;
  supply_kept : ∀ A (c : call A) (e e' : E) r, env_step c e = (r, e') → (supply e' ≤ supply e)%nat;
  take_share : ∀ (e e' : E), env_step (TakeNext 0) e ≠ (TakeFull, e')
}.

(** No allocation is larger than PTRDIFF_MAX: realloc fails instead. *)
Class AllocLaw (E : Type) `{Env E} :=
  realloc_fits : ∀ p n (e e' : E) q, env_step (Realloc p n) e = (Some q, e') →
    n <= 9223372036854775807.

(** ** Asynchronous echoes (Windows)

    IcmpSendEcho2 that answers ERROR_IO_PENDING leaves an echo under way for
    the slot it was given; a completion routine runs for it exactly once,
    during some alertable wait, and no other call changes what is under
    way. *)

Definition ERROR_IO_PENDING : Z := 997.

Definition echo2_pends (slot : Z) (r : echo2_result) : list Z :=
  match r with
  | Echo2Zero err => if err =? ERROR_IO_PENDING then [slot] else []
  | Echo2Replies _ => []
  end.

Definition moves_echoes {A} (c : call A) : bool :=
  match c with IcmpSendEcho2 _ _ _ _ _ | AlertableWait _ => true | _ => false end.

Class EchoLaw (E : Type) `{Env E} := {
  pending : E → list Z;
  pending_sent : ∀ h slot dest p ms (e e' : E) r,
    env_step (IcmpSendEcho2 h slot dest p ms) e = (r, e') →
    pending e' = pending e ++ echo2_pends slot r;
  pending_done : ∀ ms (e e' : E) done, env_step (AlertableWait ms) e = (done, e') →
    pending e ≡ₚ done ++ pending e';
  pending_kept : ∀ A (c : call A) (e e' : E) r, moves_echoes c = false →
    env_step c e = (r, e') → pending e' = pending e
}.

Definition sends_echo {A} (c : call A) : bool :=
  match c with IcmpSendEcho2 _ _ _ _ _ => true | _ => false end.

(** And they finish in time: QueryPerformanceCounter counts the time of the
    monotonic clock at [perf_rate] a second, an echo is over [echo_grace] ns
    after its timeout at the latest, so every echo under way is over by
    [last_due], and an alertable wait then runs a completion routine. *)
Class EchoClock (E : Type) `{ClockLaw E, !EchoLaw E} := {
  perf_rate : Z;
  echo_grace : Z;
  last_due : E → Z;
  perf_read : ∀ (e e' : E) fc, env_step PerfCounter e = (fc, e') →
    1000 <= perf_rate ∧ fc = (perf_rate, clk e * perf_rate / 1000000000) ∧
    (clk e < clk e' ∨ (clk e = clk e' ∧ (stall e' < stall e)%nat));
  grace_pos : 0 <= echo_grace;
  due_sent : ∀ h slot dest p ms (e e' : E) r,
    env_step (IcmpSendEcho2 h slot dest p ms) e = (r, e') → 0 <= clk e → 0 <= ms →
    last_due e' <= Z.max (match pending e with [] => clk e | _ => last_due e end)
                     (clk e + ms * 1000000 + echo_grace);
  due_kept : ∀ A (c : call A) (e e' : E) r, sends_echo c = false →
    env_step c e = (r, e') → last_due e' <= last_due e;
  due_done : ∀ ms (e e' : E) done, env_step (AlertableWait ms) e = (done, e') →
    pending e ≠ [] → last_due e <= clk e → done ≠ []
}.

(** ** What a program can log *)

Definition logs {E A} (P : event → Prop) (m : M E A) : Prop :=
  ∀ e a e' t, m e = Some (a, e', t) → Forall P t.

Section Logs.
Context {E : Type} `{Env E}.
Variable P : event → Prop.

Lemma logs_ret {A} (a : A) : logs P (mret a : M E A).
Proof. intros e b e' t Hr. by run_inv. Qed.

Lemma logs_ask {A} (c : call A) : (∀ r, P (Ev c r)) → logs P (ask (E := E) c).
Proof. intros Hc e b e' t Hr. run_inv. by constructor. Qed.

Lemma logs_bind {A B} (m : M E A) (k : A → M E B) :
  logs P m → (∀ a, logs P (k a)) → logs P (m ≫= k).
Proof. intros Hm Hk e b e' t Hr. run_inv. apply Forall_app. split; [by eapply Hm|by eapply Hk]. Qed.

Lemma logs_loop {St R} n (body : St → M E (St + R)) s :
  (∀ s, logs P (body s)) → logs P (loop n body s).
Proof.
  intros Hb. revert s. induction n as [|n IH]; [done|]. intros s. cbn [loop].
  apply logs_bind; [done|]. intros [s'|r]; [done|apply logs_ret].
Qed.
End Logs.

Create HintDb logs.
#[export] Hint Resolve logs_ret logs_bind logs_loop : logs.

Ltac solve_logs :=
  repeat (intros; match goal with
  | |- logs _ (_ ≫= _) => apply logs_bind
  | |- logs _ (mret _) => apply logs_ret
  | |- logs _ (ask _) => apply logs_ask; intros; solve [done | split; done]
  | |- logs _ (loop _ _ _) => apply logs_loop
  | |- logs _ (if ?b then _ else _) => destruct b
  | |- logs _ (match ?x with _ => _ end) => destruct x
  | |- logs _ _ => progress auto with logs
  end).

(** Learn of the run [H] that its log satisfies [P]. *)
Ltac log_of H P :=
  match type of H with
  | ?m _ = Some (_, _, ?t) =>
    let HP := fresh H "_log" in
    assert (Forall P t) as HP
      by (let Hm := fresh in assert (logs P m) as Hm by solve_logs; exact (Hm _ _ _ _ H))
  end.

(** ** Resources

    What a call hands to the program and what it takes back.  A function
    leaks nothing when the resources its log acquires are, as a multiset,
    the ones it releases plus the ones it still holds for its caller. *)

Inductive res :=
| RSock (s : Z) | RMem (p : Z) | RFile (f : Z) | RIfAddrs (h : Z) | RDns (h : Z)
| RTable (h : Z) | RIcmp (h : Z) | RTimer (h : Z).

#[export] Instance res_eq_dec : EqDecision res.
Proof. solve_decision. Defined.

Definition acquires (ev : event) : list res :=
  match ev with
  | Ev c r =>
    match c in call T return T → list res with
    | Socket _ => λ r, match r with Ok s => [RSock s] | Err _ => [] end
    | Malloc _ => λ r, match r with Some p => [RMem p] | None => [] end
    | Realloc _ _ => λ r, match r with Some p => [RMem p] | None => [] end
    | Fopen _ => λ r, match r with Some f => [RFile f] | None => [] end
    | GetIfAddrs => λ r, match r with Some (h, _) => [RIfAddrs h] | None => [] end
    | DnsQueryPtr _ => λ r, match r with Ok (h, _) => [RDns h] | Err _ => [] end
    | GetIpNetTable2 => λ r, match r with Some (h, _) => [RTable h] | None => [] end
    | IcmpCreateFile => λ r, match r with Some h => [RIcmp h] | None => [] end
    | CreateTimer => λ r, match r with Some h => [RTimer h] | None => [] end
    | _ => λ _, []
    end r
  end.

Definition releases (ev : event) : list res :=
  match ev with
  | Ev c r =>
    match c in call T return T → list res with
    | CloseSock s => λ _, [RSock s]
    | Free p => λ _, [RMem p]
    | Realloc (Some p) _ => λ r, match r with Some _ => [RMem p] | None => [] end
    | Fclose f => λ _, [RFile f]
    | FreeIfAddrs h => λ _, [RIfAddrs h]
    | DnsFree h => λ _, [RDns h]
    | FreeMibTable h => λ _, [RTable h]
    | IcmpCloseHandle h => λ _, [RIcmp h]
    | CloseTimer h => λ _, [RTimer h]
    | _ => λ _, []
    end r
  end.

Definition acquired (t : list event) : list res := flat_map acquires t.
Definition released (t : list event) : list res := flat_map releases t.

(** [keeps t held]: the run logged as [t] ends holding exactly [held]. *)
Definition keeps (t : list event) (held : list res) : Prop :=
  acquired t ≡ₚ released t ++ held.

(** [keeps_from have t held]: the same for a run that started with [have]. *)
Definition keeps_from (have : list res) (t : list event) (held : list res) : Prop :=
  have ++ acquired t ≡ₚ released t ++ held.

Lemma acquired_app t u : acquired (t ++ u) = acquired t ++ acquired u.
Proof. apply flat_map_app. Qed.
Lemma released_app t u : released (t ++ u) = released t ++ released u.
Proof. apply flat_map_app. Qed.
#[export] Hint Rewrite acquired_app released_app : netscan.

Lemma keeps_from_nil have : keeps_from have [] have.
Proof. unfold keeps_from; simpl. by rewrite app_nil_r. Qed.

Lemma keeps_keeps_from t held : keeps t held ↔ keeps_from [] t held.
Proof. done. Qed.

Lemma keeps_from_app a t b u c :
  keeps_from a t b → keeps_from b u c → keeps_from a (t ++ u) c.
Proof.
  unfold keeps_from. autorewrite with netscan. intros H1 H2.
  rewrite app_assoc, H1, <- !app_assoc. f_equiv. by rewrite H2.
Qed.

Lemma keeps_from_perm a a' t b b' :
  a ≡ₚ a' → b ≡ₚ b' → keeps_from a t b → keeps_from a' t b'.
Proof. unfold keeps_from. by intros -> ->. Qed.

#[export] Instance keeps_from_proper :
  Proper ((≡ₚ) ==> (=) ==> (≡ₚ) ==> iff) keeps_from.
Proof. intros a a' Ha t ? <- b b' Hb. split; apply keeps_from_perm; done. Qed.

(** Holding something else on the side changes nothing. *)
Lemma keeps_from_frame f a t b : keeps_from a t b → keeps_from (f ++ a) t (f ++ b).
Proof.
  unfold keeps_from. intros H. rewrite <- app_assoc, H, !app_assoc. f_equiv.
  by rewrite Permutation_app_comm.
Qed.

Lemma keeps_frame f t b : keeps t b → keeps_from f t (f ++ b).
Proof.
  intros Hk. rewrite <- (app_nil_r f) at 1. apply keeps_from_frame. exact Hk.
Qed.

(** Events that hand over and take back nothing. *)
Definition neutral (ev : event) : Prop := acquires ev = [] ∧ releases ev = [].

Lemma neutral_nothing t : Forall neutral t → acquired t = [] ∧ released t = [].
Proof.
  induction 1 as [|ev t [Ha Hr] _ [IHa IHr]]; [done|].
  unfold acquired, released in *; simpl. by rewrite Ha, Hr, IHa, IHr.
Qed.

Lemma keeps_from_neutral have t : Forall neutral t → keeps_from have t have.
Proof.
  intros [Ha Hr]%neutral_nothing. unfold keeps_from. by rewrite Ha, Hr, app_nil_r.
Qed.

(** Settle an accounting goal whose log is a concrete list of events. *)
Ltac solve_keeps :=
  unfold keeps, keeps_from in *;
  repeat match goal with
  | H : Forall neutral _ |- _ => apply neutral_nothing in H; destruct H
  end;
  repeat (progress (autorewrite with netscan; simpl));
  repeat match goal with
  | H : acquired _ = [] |- _ => rewrite ?H; clear H
  | H : released _ = [] |- _ => rewrite ?H; clear H
  end;
  simpl; rewrite ?app_nil_r; solve [done | solve_Permutation].

Lemma free_opt_keeps {E} `{Env E} p (e : E) r e' t :
  free_opt p e = Some (r, e', t) →
  keeps_from (match p with Some p => [RMem p] | None => [] end) t [].
Proof. intros Hr. unfold free_opt in Hr. run_inv; solve_keeps. Qed.

Lemma total_free_opt {E} `{Env E} p : total (free_opt (E := E) p).
Proof. unfold free_opt. solve_total. Qed.
#[export] Hint Resolve total_free_opt : total.

(** ** Concrete runs: evaluate a program in a concrete environment. *)

Ltac run_here := do 3 eexists; split; [vm_compute; reflexivity|].
Ltac here := solve [vm_compute; reflexivity | vm_compute; intuition congruence | lia].
