(* ===== verification/Script.v ===== *)
(** * A scripted environment

    A concrete [Env] that the witnesses run the programs in: answers come
    from queues, the clock advances by a tenth of a millisecond with every
    reading and by the whole wait when a wait times out, and an exhausted
    queue answers as an idle, healthy machine would.  It satisfies the laws
    the theorems assume of an environment, so none of them is vacuous. *)
From S2P Require Import Prelude Words Targets Sys.
Open Scope Z_scope.

Record script := Script {
  sc_now : Z;                                       (* ns *)
  sc_fd : Z;                                        (* next handle *)
  sc_polls : list (sys (list Z));
  sc_selects : list (sys (list Z * list Z * list Z));
  sc_sends : list (sys Z);
  sc_recvs : list (sys (list Z * sockaddr));
  sc_connects : list (sys unit);
  sc_mallocs : list bool;
  sc_files : list Z;                                (* what Fread gives *)
  sc_size : Z;                                      (* what Ftell gives *)
  sc_ifaddrs : list ifaddr;
  sc_local : sys sockaddr;
  sc_peer : sys sockaddr;
  sc_soerror : sys Z;
  sc_stops : list bool;
  sc_rows : list ipnet_row;
  sc_echo2 : list echo2_result;                     (* what IcmpSendEcho2 answers *)
  sc_pending : list Z;                              (* slots of echoes under way *)
  sc_parsed : list icmp_reply;
  sc_jobs : list Job;                               (* what the source still has *)
  sc_caps : list (option Z)                         (* the source's wait caps *)
}.

Definition idle_addr : sockaddr := SA AF_INET (IP 127 0 0 1) 40000.

Definition idle (now : Z) : script :=
  {| sc_now := now; sc_fd := 3; sc_polls := []; sc_selects := []; sc_sends := []; sc_recvs := [];
     sc_connects := []; sc_mallocs := []; sc_files := []; sc_size := 0; sc_ifaddrs := [];
     sc_local := Ok idle_addr; sc_peer := Ok idle_addr; sc_soerror := Ok 0; sc_stops := []; sc_rows := [];
     sc_echo2 := []; sc_pending := []; sc_parsed := []; sc_jobs := [];
     sc_caps := [] |}.

Definition pop {A} (d : A) (q : list A) : A * list A :=
  match q with [] => (d, []) | a :: q => (a, q) end.

Definition set_now (f : Z → Z) (s : script) : script :=
  {| sc_now := f (sc_now s); sc_fd := sc_fd s; sc_polls := sc_polls s; sc_selects := sc_selects s;
     sc_sends := sc_sends s; sc_recvs := sc_recvs s; sc_connects := sc_connects s;
     sc_mallocs := sc_mallocs s; sc_files := sc_files s; sc_size := sc_size s;
     sc_ifaddrs := sc_ifaddrs s; sc_local := sc_local s; sc_peer := sc_peer s;
     sc_soerror := sc_soerror s; sc_stops := sc_stops s; sc_rows := sc_rows s;
     sc_echo2 := sc_echo2 s; sc_pending := sc_pending s; sc_parsed := sc_parsed s; sc_jobs := sc_jobs s;
     sc_caps := sc_caps s |}.

Definition set_fd (s : script) : script :=
  {| sc_now := sc_now s; sc_fd := sc_fd s + 1; sc_polls := sc_polls s; sc_selects := sc_selects s;
     sc_sends := sc_sends s; sc_recvs := sc_recvs s; sc_connects := sc_connects s;
     sc_mallocs := sc_mallocs s; sc_files := sc_files s; sc_size := sc_size s;
     sc_ifaddrs := sc_ifaddrs s; sc_local := sc_local s; sc_peer := sc_peer s;
     sc_soerror := sc_soerror s; sc_stops := sc_stops s; sc_rows := sc_rows s;
     sc_echo2 := sc_echo2 s; sc_pending := sc_pending s; sc_parsed := sc_parsed s; sc_jobs := sc_jobs s;
     sc_caps := sc_caps s |}.

Definition set_queues (polls : list (sys (list Z))) (selects : list (sys (list Z * list Z * list Z)))
    (sends : list (sys Z)) (recvs : list (sys (list Z * sockaddr))) (connects : list (sys unit))
    (mallocs : list bool) (stops : list bool) (s : script) : script :=
  {| sc_now := sc_now s; sc_fd := sc_fd s; sc_polls := polls; sc_selects := selects;
     sc_sends := sends; sc_recvs := recvs; sc_connects := connects;
     sc_mallocs := mallocs; sc_files := sc_files s; sc_size := sc_size s;
     sc_ifaddrs := sc_ifaddrs s; sc_local := sc_local s; sc_peer := sc_peer s;
     sc_soerror := sc_soerror s; sc_stops := stops; sc_rows := sc_rows s;
     sc_echo2 := sc_echo2 s; sc_pending := sc_pending s; sc_parsed := sc_parsed s; sc_jobs := sc_jobs s;
     sc_caps := sc_caps s |}.

Definition set_icmp (echo2 : list echo2_result) (pending : list Z) (parsed : list icmp_reply)
    (s : script) : script :=
  {| sc_now := sc_now s; sc_fd := sc_fd s; sc_polls := sc_polls s; sc_selects := sc_selects s;
     sc_sends := sc_sends s; sc_recvs := sc_recvs s; sc_connects := sc_connects s;
     sc_mallocs := sc_mallocs s; sc_files := sc_files s; sc_size := sc_size s;
     sc_ifaddrs := sc_ifaddrs s; sc_local := sc_local s; sc_peer := sc_peer s;
     sc_soerror := sc_soerror s; sc_stops := sc_stops s; sc_rows := sc_rows s;
     sc_echo2 := echo2; sc_pending := pending; sc_parsed := parsed; sc_jobs := sc_jobs s;
     sc_caps := sc_caps s |}.

Definition set_jobs (jobs : list Job) (s : script) : script :=
  {| sc_now := sc_now s; sc_fd := sc_fd s; sc_polls := sc_polls s; sc_selects := sc_selects s;
     sc_sends := sc_sends s; sc_recvs := sc_recvs s; sc_connects := sc_connects s;
     sc_mallocs := sc_mallocs s; sc_files := sc_files s; sc_size := sc_size s;
     sc_ifaddrs := sc_ifaddrs s; sc_local := sc_local s; sc_peer := sc_peer s;
     sc_soerror := sc_soerror s; sc_stops := sc_stops s; sc_rows := sc_rows s;
     sc_echo2 := sc_echo2 s; sc_pending := sc_pending s; sc_parsed := sc_parsed s; sc_jobs := jobs;
     sc_caps := sc_caps s |}.

Definition set_caps (caps : list (option Z)) (s : script) : script :=
  {| sc_now := sc_now s; sc_fd := sc_fd s; sc_polls := sc_polls s; sc_selects := sc_selects s;
     sc_sends := sc_sends s; sc_recvs := sc_recvs s; sc_connects := sc_connects s;
     sc_mallocs := sc_mallocs s; sc_files := sc_files s; sc_size := sc_size s;
     sc_ifaddrs := sc_ifaddrs s; sc_local := sc_local s; sc_peer := sc_peer s;
     sc_soerror := sc_soerror s; sc_stops := sc_stops s; sc_rows := sc_rows s;
     sc_echo2 := sc_echo2 s; sc_pending := sc_pending s; sc_parsed := sc_parsed s; sc_jobs := sc_jobs s;
     sc_caps := caps |}.

Definition ts_of (ns : Z) : timespec := TS (ns / 1000000000) (ns mod 1000000000).

(** Time passes while a wait that was asked to last [ms] times out. *)
Definition waited (ms : Z) (s : script) : script :=
  set_now (λ n, n + Z.max 0 ms * 1000000) s.

Definition fresh {A} (f : Z → A) (s : script) : A * script := (f (sc_fd s), set_fd s).

Definition alloc (s : script) : option Z * script :=
  let '(ok, q) := pop true (sc_mallocs s) in
  let s' := set_queues (sc_polls s) (sc_selects s) (sc_sends s) (sc_recvs s) (sc_connects s) q (sc_stops s) s in
  if ok then fresh Some s' else (None, s').

Definition script_step (A : Type) (c : call A) : script → A * script :=
  match c in call T return script → T * script with
  | ClockMonotonic => λ s, (ts_of (sc_now s), set_now (λ n, n + 100000) s)
  | ClockRealtime => λ s, (ts_of (sc_now s), s)
  | TickCount64 => λ s, (sc_now s / 1000000, set_now (λ n, n + 100000) s)
  | PerfCounter => λ s, ((1000000000, sc_now s), set_now (λ n, n + 100000) s)
  | GetPid => λ s, (4242, s)
  | InitOnceBegin => λ s, (false, s)
  | InitOnceComplete _ => λ s, ((), s)
  | WsaStartup => λ s, (0, s)
  | AtexitWsaCleanup => λ s, ((), s)
  | Socket _ => fresh Ok
  | CloseSock _ => λ s, ((), s)
  | FcntlGetFl _ => λ s, (Ok 2, s)
  | FcntlSetFl _ _ => λ s, (Ok (), s)
  | IoctlNonblocking _ => λ s, (Ok (), s)
  | SetOpt _ _ => λ s, (Ok (), s)
  | Bind _ _ => λ s, (Ok (), s)
  | Connect _ _ => λ s,
      let '(r, q) := pop (Ok ()) (sc_connects s) in
      (r, set_queues (sc_polls s) (sc_selects s) (sc_sends s) (sc_recvs s) q (sc_mallocs s) (sc_stops s) s)
  | Send _ data => λ s,
      let '(r, q) := pop (Ok (Z.of_nat (length data))) (sc_sends s) in
      (r, set_queues (sc_polls s) (sc_selects s) q (sc_recvs s) (sc_connects s) (sc_mallocs s) (sc_stops s) s)
  | SendTo _ data _ => λ s,
      let '(r, q) := pop (Ok (Z.of_nat (length data))) (sc_sends s) in
      (r, set_queues (sc_polls s) (sc_selects s) q (sc_recvs s) (sc_connects s) (sc_mallocs s) (sc_stops s) s)
  | Recv _ _ => λ s,
      let '(r, q) := pop (Err 11) (sc_recvs s) in
      (match r with Ok (d, _) => Ok d | Err e => Err e end,
       set_queues (sc_polls s) (sc_selects s) (sc_sends s) q (sc_connects s) (sc_mallocs s) (sc_stops s) s)
  | RecvFrom _ _ => λ s,
      let '(r, q) := pop (Err 11) (sc_recvs s) in
      (r, set_queues (sc_polls s) (sc_selects s) (sc_sends s) q (sc_connects s) (sc_mallocs s) (sc_stops s) s)
  | Poll fds ms | PollOut fds ms => λ s,
      match sc_polls s with
      | [] => (Ok (map (λ _, 0) fds), waited ms s)
      | r :: q => (r, set_queues q (sc_selects s) (sc_sends s) (sc_recvs s) (sc_connects s) (sc_mallocs s) (sc_stops s) s)
      end
  | Select _ _ _ sec usec => λ s,
      match sc_selects s with
      | [] => (Ok ([], [], []), waited (sec * 1000 + usec / 1000) s)
      | r :: q => (r, set_queues (sc_polls s) q (sc_sends s) (sc_recvs s) (sc_connects s) (sc_mallocs s) (sc_stops s) s)
      end
  | GetSockName _ => λ s, (sc_local s, s)
  | GetPeerName _ => λ s, (sc_peer s, s)
  | GetSoError _ => λ s, (sc_soerror s, s)
  | Malloc _ => alloc
  | Realloc _ n => λ s, if n <=? 9223372036854775807 then alloc s else (None, s)
  | Free _ => λ s, ((), s)
  | Fopen _ => fresh Some
  | Fseek _ _ => λ s, ((), s)
  | Ftell _ => λ s, (sc_size s, s)
  | Fread _ _ => λ s, (sc_files s, s)
  | Fclose _ => λ s, ((), s)
  | InetPton _ => λ s, (Some (IP 192 168 1 1), s)
  | GetNameInfo _ _ => λ s, (None, s)
  | DnsQueryPtr _ => λ s, (Err 9003, s)
  | DnsFree _ => λ s, ((), s)
  | SendArp _ => λ s, (Err 67, s)
  | GetIfAddrs => λ s, fresh (λ h, Some (h, sc_ifaddrs s)) s
  | FreeIfAddrs _ => λ s, ((), s)
  | GetAdapters n => λ s, ((Ok [], n), s)
  | GetIpNetTable2 => λ s, fresh (λ h, Some (h, sc_rows s)) s
  | FreeMibTable _ => λ s, ((), s)
  | SysctlSize => λ s, (Ok (Z.of_nat (length (sc_files s))), s)
  | SysctlRead _ => λ s, (Ok (sc_files s), s)
  | IcmpCreateFile => fresh Some
  | IcmpCloseHandle _ => λ s, ((), s)
  | IcmpSendEcho2 _ slot _ _ _ => λ s,
      let '(r, q) := pop (Echo2Zero 11010) (sc_echo2 s) in
      (r, set_icmp q (sc_pending s ++ echo2_pends slot r) (sc_parsed s) s)
  | IcmpParseReplies _ => λ s,
      let '(r, q) := pop (IcmpReply 0 0 (IP 0 0 0 0)) (sc_parsed s) in
      (r, set_icmp (sc_echo2 s) (sc_pending s) q s)
  | CreateTimer => fresh Some
  | SetTimer _ _ => λ s, (true, s)
  | AlertableWait ms => λ s,
      (sc_pending s, waited (default 1 ms) (set_icmp (sc_echo2 s) [] (sc_parsed s) s))
  | CloseTimer _ => λ s, ((), s)
  | Pinged _ _ => λ s, ((), s)
  | StopRequested => λ s,
      let '(r, q) := pop false (sc_stops s) in
      (r, set_queues (sc_polls s) (sc_selects s) (sc_sends s) (sc_recvs s) (sc_connects s) (sc_mallocs s) q s)
  | Sleep ns => λ s, ((), set_now (λ n, n + Z.max 0 ns) s)
  | GetRlimit => λ s, (Ok (256, 4096), s)
  | SetRlimit _ _ => λ s, (Ok (), s)
  | TakeNext _ => λ s, match sc_jobs s with [] => (TakeDry, s) | job :: jobs => (TakeJob job, set_jobs jobs s) end
  | ReportDone _ _ => λ s, ((), s)
  | LoadCap => λ s, (0, s)
  | LoadLastAnswer => λ s, (0, s)
  | LoadStarved => λ s, (false, s)
  | StoreStarved => λ s, ((), s)
  | SourceNext => λ s, match sc_jobs s with [] => (None, s) | job :: jobs => (Some job, set_jobs jobs s) end
  | SourceDone _ _ _ => λ s, ((), s)
  | SourceWaitCap => λ s, let '(cap, q) := pop None (sc_caps s) in (cap, set_caps q s)
  | AppendJob _ => λ s, (true, s)
  | CpuCount => λ s, (Ok 2, s)
  end.

#[export] Instance script_env : Env script := script_step.

Lemma fresh_now {A} (f : Z → A) s r s' : fresh f s = (r, s') → sc_now s' = sc_now s.
Proof. unfold fresh. naive_solver. Qed.

Lemma script_step_now A (c : call A) s r s' :
  script_step A c s = (r, s') →
  sc_now s <= sc_now s' ∧
  ∀ ms, asked_ms c = Some ms → sc_now s' <= sc_now s + Z.max 0 ms * 1000000 + 86400000000000.
Proof.
  destruct c; simpl; unfold alloc, waited, pop; repeat case_match; intros Hs;
    (split; [|intros ? ?]);
    simplify_eq/=; try lia; try solve [Z.to_euclidean_division_equations; lia]; repeat case_match; simplify_eq/=; to_prop; try lia;
    apply fresh_now in Hs; simpl in Hs; lia.
Qed.

#[export] Instance script_clock : ClockLaw script.
Proof.
  refine {| clk := sc_now; stall := λ _, 0%nat |}.
  - intros e e' ts H. cbn in H. simplify_eq. unfold ts_ns; simpl.
    pose proof (Z.div_mod (sc_now e) 1000000000).
    pose proof (Z.mod_pos_bound (sc_now e) 1000000000). lia.
  - intros A c e e' r [H _]%script_step_now. lia.
  - intros A c ms e e' r [_ H]%script_step_now ?. by apply H.
Defined.

#[export] Instance script_queue : QueueLaw script.
Proof.
  refine {| queued := λ s, length (sc_recvs s) |}.
  - intros s cap e e' r H Hr. cbn in H. destruct (sc_recvs e); simpl in H; simplify_eq/=; [|lia].
    by destruct Hr.
  - intros s cap e e' r H Hr. cbn in H. destruct (sc_recvs e); simpl in H; simplify_eq/=; [|lia].
    by destruct Hr.
  - intros i a e e' r H. cbn in H. by simplify_eq.
  - intros p n e e' r H. cbn in H. unfold alloc, fresh, pop in H.
    destruct (n <=? 9223372036854775807); [|by simplify_eq].
    destruct (sc_mallocs e) as [|[] q]; simplify_eq/=; lia.
Defined.

#[export] Instance script_alloc : AllocLaw script.
Proof.
  intros p n e e' q H. cbn in H. destruct (n <=? 9223372036854775807) eqn:Hn; [by to_prop|by simplify_eq].
Defined.

Lemma alloc_pending s r s' : alloc s = (r, s') → sc_pending s' = sc_pending s.
Proof.
  unfold alloc, fresh, pop. destruct (sc_mallocs s) as [|[] q]; intros; by simplify_eq/=.
Qed.

#[export] Instance script_echo : EchoLaw script.
Proof.
  refine {| pending := sc_pending |}.
  - intros h slot dest p ms e e' r H. cbn in H. destruct (sc_echo2 e); by simplify_eq/=.
  - intros ms e e' done H. cbn in H. simplify_eq. simpl. by rewrite app_nil_r.
  - intros A c e e' r Hc H. destruct c; cbn in H; try done; try by simplify_eq/=.
    all: try (unfold fresh, pop in H; simpl in H; repeat case_match; by simplify_eq/=).
    + by eapply alloc_pending.
    + case_match; [by eapply alloc_pending|by simplify_eq].
Defined.

#[export] Instance script_echo_clock : EchoClock script.
Proof.
  refine {| perf_rate := 1000000000; echo_grace := 0; last_due := λ _, 0 |}.
  - intros e e' fc H. cbn in H. simplify_eq. rewrite Z.div_mul by done. simpl. splits; [done..|].
    left. lia.
  - done.
  - intros h slot dest p ms e e' r _ Hc Hms. etrans; [|apply Z.le_max_r]. lia.
  - done.
  - intros ms e e' done H Hp _. cbn in H. by simplify_eq.
Defined.

#[export] Instance script_supply : SupplyLaw script.
Proof.
  refine {| supply := λ s, length (sc_jobs s) |}.
  - intros n e e' job H. cbn in H. destruct (sc_jobs e); simplify_eq/=. lia.
  - intros A c e e' r H. destruct c; cbn in H; unfold alloc, fresh, pop in H; simpl in H;
      repeat case_match; simplify_eq/=; try lia. all: match goal with Hj : sc_jobs _ = _ |- _ => by rewrite Hj end.
  - intros e e' H. cbn in H. by destruct (sc_jobs e).
Defined.
