(* ===== verification/NsSocket.v ===== *)
(** * ns_socket.h and win_wsa.h: the socket calls every helper shares

    One definition per inline function; the [#ifdef _WIN32] branches are
    cases of the platform [os].  The waits are the part with a loop: on
    POSIX a signal interrupts [poll], and [ns_wait_any] polls again for the
    time that is left. *)
From S2P Require Import Prelude Words Sys Script.
Open Scope Z_scope.

(** Error numbers and flags of the platforms. *)
Definition EAGAIN (os : platform) : Z :=
  match os with Linux => 11 | MacOS => 35 | Windows => 0 end.
Definition EWOULDBLOCK (os : platform) : Z := EAGAIN os.
Definition WSAEWOULDBLOCK : Z := 10035.
Definition WSAECONNRESET : Z := 10054.
Definition ENOMEM : Z := 12.
Definition ENOBUFS (os : platform) : Z :=
  match os with Linux => 105 | MacOS => 55 | Windows => 0 end.
Definition ECONNREFUSED (os : platform) : Z :=
  match os with Linux => 111 | MacOS => 61 | Windows => 10061 end.
Definition ECONNRESET (os : platform) : Z :=
  match os with Linux => 104 | MacOS => 54 | Windows => 10054 end.
Definition EINPROGRESS (os : platform) : Z :=
  match os with Linux => 115 | MacOS => 36 | Windows => 10036 end.
Definition EADDRNOTAVAIL (os : platform) : Z :=
  match os with Linux => 99 | MacOS => 49 | Windows => 10049 end.
Definition O_NONBLOCK (os : platform) : Z :=
  match os with Linux => 2048 | MacOS => 4 | Windows => 0 end.

Definition NS_WAIT_MAX : Z := 8.

Section NsSocket.
Context {E : Type} `{Env E}.
Variable os : platform.

(** win_wsa.h: the callback of the one-time initialisation. *)
Definition win_wsa_do_startup : M E bool :=
  rc ← ask WsaStartup;
  if rc =? 0 then ask AtexitWsaCleanup;; mret true else mret false.

(** InitOnceExecuteOnce runs the callback until it succeeds once. *)
Definition win_wsa_init_once : M E unit :=
  pending ← ask InitOnceBegin;
  if (pending : bool) then
    ok ← win_wsa_do_startup;
    ask (InitOnceComplete ok)
  else mret ().

Definition ns_socket_init : M E unit :=
  match os with Windows => win_wsa_init_once | _ => mret () end.

Definition ns_close (sock : Z) : M E unit := ask (CloseSock sock).

Definition ns_set_nonblocking (sock : Z) : M E unit :=
  match os with
  | Windows => ask (IoctlNonblocking sock);; mret ()
  | _ =>
    flags ← ask (FcntlGetFl sock);
    match flags with
    | Ok flags =>
      if flags >=? 0 then
        ask (FcntlSetFl sock (Z.lor flags (O_NONBLOCK os)));; mret ()
      else mret ()
    | Err _ => mret ()
    end
  end.

(** A non-blocking IPv4 UDP socket, or None for NS_NO_SOCKET. *)
Definition ns_udp_socket : M E (option Z) :=
  ns_socket_init;;
  sock ← ask (Socket UdpSock);
  match sock with
  | Err _ => mret None
  | Ok sock => ns_set_nonblocking sock;; mret (Some sock)
  end.

(** Parse dotted-quad text, as inet_pton / InetPtonA. *)
Definition ns_inet_pton (text : list Z) : M E (option ip4) := ask (InetPton text).

(** The poll result: how many entries have events, and which. *)
Definition poll_ready (count : nat) (revents : list Z) : list bool :=
  map (λ r, negb (r =? 0)) (resize count 0 revents).

Definition none_ready (socks : list Z) : list bool := map (λ _, false) socks.

(** (now.tv_sec - start.tv_sec) * 1000L + (now.tv_nsec - start.tv_nsec) / 1000000L,
    with C's division, which rounds towards zero. *)
Definition elapsed_ms (start now : timespec) : Z :=
  (tv_sec now - tv_sec start) * 1000 + Z.quot (tv_nsec now - tv_nsec start) 1000000.

(** One round of the POSIX for (;;) of ns_wait_any: [left] goes on with
    that much time, a result ends it. *)
Definition wait_any_round (socks : list Z) (timeout_ms : Z) (start : timespec) (left : Z)
    : M E (Z + Z * list bool) :=
  r ← ask (Poll socks left);
  match r with
  | Ok revents =>
    let ready := poll_ready (length socks) revents in
    mret (inr (Z.of_nat (countb id ready), ready))
  | Err e =>
    if negb (e =? EINTR) then mret (inr (-1, none_ready socks))
    else
      now ← ask ClockMonotonic;
      let left := timeout_ms - i32 (elapsed_ms start now) in
      if left <=? 0 then mret (inr (0, none_ready socks)) else mret (inl left)
  end.

(** FD_ISSET after select. *)
Definition fd_isset (s : Z) (set : list Z) : bool := bool_decide (s ∈ set).

(** Wait for any of [socks]: how many are ready (-1 on error) and the
    ready[] flags.  A count out of range leaves ready[] alone: []. *)
Definition ns_wait_any (fuel : nat) (socks : list Z) (timeout_ms : Z) : M E (Z * list bool) :=
  let count := Z.of_nat (length socks) in
  if (count <=? 0) || (count >? NS_WAIT_MAX) then mret (-1, [])
  else
    match os with
    | Windows =>
      r ← ask (Select socks [] [] (Z.quot timeout_ms 1000) (Z.rem timeout_ms 1000 * 1000));
      match r with
      | Ok (rfds, wfds, efds) =>
        let n := Z.of_nat (length rfds + length wfds + length efds) in
        mret (n, map (λ s, (n >? 0) && fd_isset s rfds) socks)
      | Err _ => mret (-1, none_ready socks)
      end
    | _ =>
      start ← ask ClockMonotonic;
      loop fuel (wait_any_round socks timeout_ms start) timeout_ms
    end.

Definition ns_wait_readable (fuel : nat) (sock timeout_ms : Z) : M E Z :=
  r ← ns_wait_any fuel [sock] timeout_ms;
  mret (if r.1 >? 0 then 1 else r.1).

Definition ns_now_ms : M E Z :=
  match os with
  | Windows => ask TickCount64
  | _ =>
    now ← ask ClockMonotonic;
    mret (tv_sec now * 1000 + Z.quot (tv_nsec now) 1000000)
  end.

(** Whether the error [e] of the last recv means "nothing there yet". *)
Definition ns_would_block (e : Z) : bool :=
  match os with
  | Windows => e =? WSAEWOULDBLOCK
  | _ => (e =? EAGAIN os) || (e =? EWOULDBLOCK os) || (e =? EINTR)
  end.
End NsSocket.

(** ** The waits *)

(** Timeouts the callers use, in ms: the elapsed time of a wait then fits
    an [int] even when every call in it lasts a day longer than asked. *)
Definition timeout_ok (ms : Z) : Prop := 0 < ms <= 1000000000.

Lemma elapsed_ms_bounds start now :
  0 <= tv_nsec start < 1000000000 → 0 <= tv_nsec now < 1000000000 →
  ts_ns now - ts_ns start - 1000000 < elapsed_ms start now * 1000000
    < ts_ns now - ts_ns start + 1000000.
Proof.
  unfold ts_ns, elapsed_ms. intros. Z.to_euclidean_division_equations. lia.
Qed.

(** ns_now_ms is the monotonic time in whole milliseconds. *)
Lemma now_ms_div ts :
  0 <= tv_nsec ts < 1000000000 →
  tv_sec ts * 1000 + Z.quot (tv_nsec ts) 1000000 = ts_ns ts / 1000000.
Proof. unfold ts_ns. intros. Z.to_euclidean_division_equations. lia. Qed.

(** The POSIX clock of the waits, and of the deadlines around them. *)
Lemma ns_now_ms_clock {E} `{ClockLaw E} os (e : E) now e' u :
  os ≠ Windows → ns_now_ms os e = Some (now, e', u) → now = clk e / 1000000 ∧ ticked e' e.
Proof.
  intros Hos Hr. assert ((ts ← ask ClockMonotonic;
    mret (tv_sec ts * 1000 + Z.quot (tv_nsec ts) 1000000)) e = Some (now, e', u)) as Hp by by destruct os.
  clear Hr. run_inv. rename select (env_step ClockMonotonic _ = _) into Hc.
  apply clock_read in Hc as (Hts & Hn & Ht). split; [|exact Ht]. rewrite <- Hts. by apply now_ms_div.
Qed.

Section Waits.
Context {E : Type} `{ClockLaw E}.
Variable os : platform.

Lemma timely_wait_any_round socks timeout start left :
  timely (wait_any_round (E := E) socks timeout start left).
Proof. unfold wait_any_round. solve_timely. Qed.

Lemma timely_ns_wait_any fuel socks timeout :
  timely (ns_wait_any (E := E) os fuel socks timeout).
Proof. unfold ns_wait_any. solve_timely; apply timely_wait_any_round. Qed.

(** How a POSIX wait that began at [e0] can have ended, [last] being the
    last thing it asked of the system. *)
Inductive wait_end (socks : list Z) (timeout : Z) (e0 : E) : Z * list bool → E → option event → Prop :=
| WaitReady left revents e' :
    let ready := poll_ready (length socks) revents in
    wait_end socks timeout e0 (Z.of_nat (countb id ready), ready) e'
      (Some (Ev (Poll socks left) (Ok revents)))
| WaitError left err e' :
    err ≠ EINTR →
    wait_end socks timeout e0 (-1, none_ready socks) e' (Some (Ev (Poll socks left) (Err err)))
| WaitExpired e' ev :
    clk e0 + (timeout - 1) * 1000000 < clk e' →
    wait_end socks timeout e0 (0, none_ready socks) e' ev.

(** The timeouts a log's polls asked for. *)
Definition poll_waits (t : list event) : list Z :=
  flat_map (λ ev, match ev with Ev (Poll _ l) _ => [l] | _ => [] end) t.

Lemma poll_waits_app t u : poll_waits (t ++ u) = poll_waits t ++ poll_waits u.
Proof. apply flat_map_app. Qed.

Definition round_inv (timeout : Z) (e0 : E) (start : timespec) (left : Z) (e : E) (t : list event) : Prop :=
  later e e0 ∧ clk e + left * 1000000 <= clk e0 + (timeout + 1) * 1000000 + 86400000000000 ∧
  ts_ns start = clk e0 ∧ 0 <= tv_nsec start < 1000000000 ∧
  0 < left <= timeout ∧ Forall (λ l, 0 < l <= timeout) (poll_waits t).

(** The arithmetic of one interrupted round: no overflow, and time left
    is time not yet waited. *)
Lemma round_left timeout e0 start left e t now e1 e2 r :
  timeout_ok timeout → round_inv timeout e0 start left e t →
  env_step (Poll r left) e = (Err EINTR, e1) →
  env_step ClockMonotonic e1 = (now, e2) →
  let left' := timeout - i32 (elapsed_ms start now) in
  ticked e2 e ∧ left' <= timeout ∧ (0 < left' → clk e < clk e0 + (timeout + 1) * 1000000) ∧
  (left' <= 0 → clk e0 + (timeout - 1) * 1000000 < clk e2) ∧
  (0 < left' → clk e2 + left' * 1000000 <= clk e0 + (timeout + 1) * 1000000 + 86400000000000).
Proof.
  intros Hok (Hlater & Hd & Hts & Hn & Hleft & _) Hp Hc left'.
  pose proof (clock_mono _ _ _ _ _ Hp) as Hp1.
  pose proof (clock_day _ _ left _ _ _ Hp) as Hp2. simpl in Hp2.
  rewrite (proj2 (Z.ltb_ge left 0)) in Hp2 by lia. specialize (Hp2 eq_refl).
  pose proof (clock_read _ _ _ Hc) as (Hnow & Hn' & Htick).
  pose proof (clock_day _ _ 0 _ _ _ Hc eq_refl) as Hc2.
  pose proof (elapsed_ms_bounds _ _ Hn Hn') as Hel.
  subst left'. unfold timeout_ok, later, ticked in *.
  rewrite i32_id by (unfold is_i32; lia). lia.
Qed.

Lemma eqb_eintr e : negb (e =? EINTR) = false → e = EINTR.
Proof. intros. to_prop. done. Qed.

Lemma round_step timeout socks e0 start left e t x e' u :
  timeout_ok timeout → round_inv timeout e0 start left e t →
  wait_any_round socks timeout start left e = Some (x, e', u) →
  Forall (λ l, 0 < l <= timeout) (poll_waits (t ++ u)) ∧ later e' e ∧
  match x with
  | inl left' => round_inv timeout e0 start left' e' (t ++ u) ∧
      clock_lt (clk e0 + (timeout + 1) * 1000000) e' e
  | inr r => wait_end socks timeout e0 r e' (last (t ++ u))
  end.
Proof.
  intros Hok HI Hr. pose proof (timely_wait_any_round _ _ _ _ _ _ _ _ Hr) as Hlat.
  destruct HI as (HI1 & HI2 & HI3 & HI4 & HI5 & HI6).
  assert (round_inv timeout e0 start left e t) as HI by done.
  unfold wait_any_round in Hr. run_inv; simplify_eq.
  - rewrite app_nil_r, poll_waits_app, last_snoc. splits; [|done|constructor].
    apply Forall_app; split; [done|]. simpl. by constructor.
  - rewrite app_nil_r, poll_waits_app, last_snoc. to_prop.
    splits; [|done|by constructor].
    apply Forall_app; split; [done|]. simpl. by constructor.
  - rename select (negb _ = false) into He. apply eqb_eintr in He as ->.
    rename select (env_step (Poll _ _) _ = _) into Hp.
    rename select (env_step ClockMonotonic _ = _) into Hc.
    destruct (round_left _ _ _ _ _ _ _ _ _ _ Hok HI Hp Hc) as (Ht & Hl & _ & Hex & _).
    to_prop. rewrite poll_waits_app. splits; [|done|].
    { apply Forall_app; split; [done|]. simpl. by constructor. }
    constructor. auto.
  - rename select (negb _ = false) into He. apply eqb_eintr in He as ->.
    rename select (env_step (Poll _ _) _ = _) into Hp.
    rename select (env_step ClockMonotonic _ = _) into Hc.
    destruct (round_left _ _ _ _ _ _ _ _ _ _ Hok HI Hp Hc) as (Ht & Hl & Hgo' & _ & Hgo).
    to_prop. match goal with |- Forall ?P (poll_waits ?u) ∧ _ =>
      assert (Forall P (poll_waits u)) as Hpolls end.
    { rewrite poll_waits_app. apply Forall_app; split; [done|]. simpl. by constructor. }
    splits; [done..| |split; [done|apply Hgo'; lia]]. unfold round_inv.
    splits; first [done|lia|by eapply later_trans|apply Hgo; lia].
Qed.

Lemma round_inv_start timeout e ts e' :
  timeout_ok timeout → env_step ClockMonotonic e = (ts, e') →
  round_inv timeout e ts timeout e' [Ev ClockMonotonic ts].
Proof.
  intros Hok Hc. pose proof (clock_read _ _ _ Hc) as (? & ? & Ht).
  pose proof (clock_day _ _ 0 _ _ _ Hc eq_refl). pose proof (clock_mono _ _ _ _ _ Hc).
  unfold round_inv, timeout_ok, later in *. splits; simpl; try done; lia.
Qed.

Lemma wait_any_terminates socks timeout e :
  timeout_ok timeout →
  ∃ n, ∀ m, (n ≤ m)%nat → is_Some (ns_wait_any os m socks timeout e).
Proof.
  intros Hok. unfold ns_wait_any.
  destruct (_ || _); [exists 0%nat; intros; by eexists|].
  assert (∃ n, ∀ m, (n ≤ m)%nat → is_Some ((start ← ask ClockMonotonic;
    loop m (wait_any_round socks timeout start) timeout) e)) as Hposix.
  { destruct (env_step ClockMonotonic e) as [ts e1] eqn:Hc.
    destruct (loop_terminates
      (λ left e', ∃ t, round_inv timeout e ts left e' t)
      (round_lt (clk e + (timeout + 1) * 1000000))
      (λ _, wait_any_round socks timeout ts) (round_lt_wf _)
      (λ s, fuel_mono_const _)) with (s := timeout) (e := e1) as [n Hn].
    - intros left e2 [t HI].
      assert (total (wait_any_round (E := E) socks timeout ts left)) as Htot
        by (unfold wait_any_round; solve_total).
      destruct (Htot e2) as [[[x e3] u] Hr]. exists 0%nat, x, e3, u. split; [done|].
      destruct (round_step _ _ _ _ _ _ _ _ _ _ Hok HI Hr) as (_ & _ & Hx).
      destruct x as [left'|]; [|done]. destruct Hx as [HI' Ht]. split; [by eexists|done].
    - eexists. by apply round_inv_start.
    - exists n. intros m Hm. destruct (Hn m m Hm Hm) as [[[r e2] t] Hl].
      eexists. eapply bind_some; [|exact Hl]. unfold ask. by rewrite Hc. }
  destruct os; [exact Hposix|exact Hposix|].
  exists 0%nat. intros m _. apply total_bind; [apply total_ask|].
  intros [[[? ?] ?]|]; apply total_ret.
Qed.
End Waits.

(** ** What every caller of the waits relies on *)

Section Callers.
Context {E : Type} `{Env E}.
Variable os : platform.

Lemma ns_wait_any_mono socks timeout :
  fuel_mono (λ n, ns_wait_any (E := E) os n socks timeout).
Proof.
  unfold ns_wait_any. destruct (_ || _); [apply fuel_mono_const|].
  destruct os; try apply fuel_mono_const;
    (apply fuel_mono_bind; [apply fuel_mono_const|]; intros start;
     apply (fuel_mono_loop (λ _, _)); intros; apply fuel_mono_const).
Qed.

Lemma total_ns_udp_socket : total (ns_udp_socket (E := E) os).
Proof.
  unfold ns_udp_socket, ns_socket_init, win_wsa_init_once, win_wsa_do_startup, ns_set_nonblocking.
  solve_total.
Qed.

Lemma total_ns_now_ms : total (ns_now_ms (E := E) os).
Proof. unfold ns_now_ms. solve_total. Qed.

Lemma ns_socket_init_neutral : logs neutral (ns_socket_init (E := E) os).
Proof. unfold ns_socket_init, win_wsa_init_once, win_wsa_do_startup. solve_logs. Qed.

Lemma ns_set_nonblocking_neutral sock : logs neutral (ns_set_nonblocking (E := E) os sock).
Proof. unfold ns_set_nonblocking. solve_logs. Qed.

Lemma ns_now_ms_neutral : logs neutral (ns_now_ms (E := E) os).
Proof. unfold ns_now_ms. solve_logs. Qed.

Lemma ns_wait_any_neutral fuel socks timeout : logs neutral (ns_wait_any (E := E) os fuel socks timeout).
Proof. unfold ns_wait_any, wait_any_round. solve_logs. Qed.

(** A new socket is all [ns_udp_socket] keeps. *)
Lemma ns_udp_socket_keeps (e : E) r e' t :
  ns_udp_socket os e = Some (r, e', t) →
  keeps t (match r with Some s => [RSock s] | None => [] end).
Proof.
  intros Hr. unfold ns_udp_socket in Hr.
  apply bind_inv in Hr as ([] & e1 & t1 & u1 & Hn%ns_socket_init_neutral & Hr & ->).
  apply bind_inv in Hr as (s & e2 & t2 & u2 & [_ ->]%ask_inv & Hr & ->).
  destruct s as [s|]; [|run_inv; solve_keeps].
  apply bind_inv in Hr as ([] & e3 & t3 & u3 & Hn3%ns_set_nonblocking_neutral & Hr & ->).
  run_inv. solve_keeps.
Qed.

(** ready[] has a flag for each socket when some are ready. *)
Lemma ns_wait_any_length fuel socks timeout (e : E) n ready e' t :
  ns_wait_any os fuel socks timeout e = Some ((n, ready), e', t) → 0 < n →
  length ready = length socks.
Proof.
  intros Hr Hn. unfold ns_wait_any in Hr. destruct (_ || _); [run_inv; lia|].
  assert (∀ start left u v f, loop fuel (wait_any_round socks timeout start) left u
    = Some ((n, ready), f, v) → length ready = length socks) as Hloop.
  { intros start left u v f Hl.
    refine (loop_invariant (λ _ _ _, True) (λ r _ _, 0 < r.1 → length r.2 = length socks)
      (wait_any_round socks timeout start) _ _ fuel left u [] (n, ready) f v I Hl Hn); [done|].
    clear Hr Hl.
    intros s0 e0 t0 [m r] e1 w _ Hb. unfold wait_any_round, poll_ready, none_ready in Hb.
    run_inv; simpl; intros; by rewrite ?length_map, ?length_resize. }
  destruct os; run_inv; rewrite ?length_map; try done;
    match goal with Hl : loop _ _ _ _ = _ |- _ => exact (Hloop _ _ _ _ _ Hl) end.
Qed.
End Callers.
#[export] Hint Resolve total_ns_udp_socket total_ns_now_ms : total.
#[export] Hint Resolve ns_socket_init_neutral ns_set_nonblocking_neutral ns_now_ms_neutral
  ns_wait_any_neutral : logs.

(** ** Properties *)

Section Theorems.
Context {E : Type} `{ClockLaw E}.

(** a finished POSIX wait ended in one of three ways: [poll] said
    what is ready, [poll] failed otherwise than by a signal (-1), or
    signals interrupted it until the whole timeout had passed on the
    clock (0, nothing ready); and no [poll] on the way was asked to wait
    longer than the timeout, or not at all. *)
Theorem ns_wait_any_end os fuel (socks : list Z) timeout (e e' : E) r t :
  os ≠ Windows → timeout_ok timeout → 0 < Z.of_nat (length socks) <= NS_WAIT_MAX →
  ns_wait_any os fuel socks timeout e = Some (r, e', t) →
  wait_end socks timeout e r e' (last t) ∧
  Forall (λ l, 0 < l <= timeout) (poll_waits t).
Proof.
  intros Hos Hok Hlen Hr. unfold ns_wait_any in Hr.
  destruct (_ || _) eqn:Hg in Hr; [to_prop; destruct Hg; to_prop; lia|].
  assert ((start ← ask ClockMonotonic; loop fuel (wait_any_round socks timeout start) timeout) e
    = Some (r, e', t)) as Hp by (by destruct os).
  clear Hr. run_inv.
  eapply (loop_invariant (λ left e1 t, round_inv timeout e x left e1 t)
    (λ r e' t, wait_end socks timeout e r e' (last t) ∧ Forall (λ l, 0 < l <= timeout) (poll_waits t)));
    [| |by apply round_inv_start|done].
  - intros s e1 t0 s' e2 u HI Hb.
    by destruct (round_step _ _ _ _ _ _ _ _ _ _ Hok HI Hb) as (_ & _ & ? & _).
  - intros s e1 t0 r' e2 u HI Hb.
    by destruct (round_step _ _ _ _ _ _ _ _ _ _ Hok HI Hb) as (? & _ & ?).
Qed.

(** a wait ends however often signals interrupt it, on every
    platform, for any sockets. *)
Theorem ns_wait_any_terminates os socks timeout (e : E) :
  timeout_ok timeout →
  ∃ n, ∀ m, (n ≤ m)%nat → is_Some (ns_wait_any os m socks timeout e).
Proof. apply wait_any_terminates. Qed.
End Theorems.

(** A wait that two signals interrupt, then the second socket is ready. *)
Definition interrupted : script :=
  set_queues [Err EINTR; Err EINTR; Ok [0; 1]] [] [] [] [] [] [] (idle 5000000).

Lemma ns_wait_any_end_witness :
  ∃ r e' t, ns_wait_any Linux 5 [7; 8] 50 interrupted = Some (r, e', t) ∧
    r = (1, [false; true]) ∧ poll_waits t = [50; 50; 50] ∧
    wait_end [7; 8] 50 interrupted r e' (last t) ∧ Forall (λ l, 0 < l <= 50) (poll_waits t).
Proof.
  run_here. split; [here|]. split; [here|].
  refine (ns_wait_any_end Linux 5 [7; 8] 50 interrupted _ _ _ _ _ _ _);
    [done|unfold timeout_ok; lia|unfold NS_WAIT_MAX; simpl; lia|here].
Defined.

Lemma ns_wait_any_terminates_witness :
  ∃ n, ∀ m, (n ≤ m)%nat → is_Some (ns_wait_any MacOS m [7; 8] 50 interrupted).
Proof. apply (ns_wait_any_terminates MacOS [7; 8] 50 interrupted). unfold timeout_ok. lia. Defined.
