(* ===== verification/IcmpWire.v ===== *)
(** * icmp_ping.c: the echo on the wire

    The pure parts of the ping sweep: the pacing budget, the Internet
    checksum, the echo request it sends and the test that ties a datagram
    it receives to the host it was sent to. *)
From S2P Require Import Prelude Words Sys.
Open Scope Z_scope.

Definition SENDS_PER_MS : Z := 2.
Definition PAYLOAD_LEN : nat := 32.
Definition ICMP_HEADER_LEN : nat := 8.
Definition ICMP_ECHO_REPLY_TYPE : Z := 0.
Definition ICMP_ECHO_REQUEST_TYPE : Z := 8.

(** echo_payload: token, index, padding. *)
Record echo_payload := EchoPayload { ep_token : Z; ep_index : Z; ep_pad : list Z }.

(** The struct as memcpy sees it. *)
Definition payload_bytes (p : echo_payload) : list Z :=
  le_bytes 4 (ep_token p) ++ le_bytes 4 (ep_index p) ++ ep_pad p.

Definition payload_of_bytes (bs : list Z) : echo_payload :=
  EchoPayload (le_value (take 4 bs)) (le_value (take 4 (drop 4 bs)))
    (take (PAYLOAD_LEN - 8) (drop 8 bs)).

(** How many more echoes the send rate allows, in size_t arithmetic. *)
Definition send_budget (elapsed_ms sent : Z) : Z :=
  let allowed := u64 (u64 (elapsed_ms + 1) * SENDS_PER_MS) in
  if allowed >? sent then allowed - sent else 0.

(** for (i = 0; i + 1 < len; i += 2) sum += data[i] << 8 | data[i + 1];
    if (len & 1) sum += data[len - 1] << 8; all in uint32_t. *)
Fixpoint checksum_sum (sum : Z) (data : list Z) : Z :=
  match data with
  | hi :: lo :: data => checksum_sum (u32 (sum + get_be16 hi lo)) data
  | [last] => u32 (sum + u32 (Z.shiftl last 8))
  | [] => sum
  end.

(** while (sum >> 16) sum = (sum & 0xFFFF) + (sum >> 16); [n] bounds the
    rounds: a 32-bit sum needs at most two. *)
Fixpoint fold_carries (n : nat) (sum : Z) : Z :=
  match n with
  | O => sum
  | S n =>
    if Z.shiftr sum 16 =? 0 then sum
    else fold_carries n (u32 (Z.land sum 65535 + Z.shiftr sum 16))
  end.

Definition checksum (data : list Z) : Z :=
  u16 (Z.lnot (fold_carries 3 (checksum_sum 0 data))).

(** The packet send_echo builds: header with the checksum left 0, then
    payload. *)
Definition echo_packet_with (sum : list Z) (ident token index : Z) : list Z :=
  [ICMP_ECHO_REQUEST_TYPE; 0] ++ sum ++
  [u8 (Z.shiftr ident 8); u8 ident; u8 (Z.shiftr index 8); u8 index] ++
  payload_bytes (EchoPayload token (u32 index) (replicate (PAYLOAD_LEN - 8) 0)).

Definition echo_packet (ident token index : Z) : list Z :=
  let sum := checksum (echo_packet_with [0; 0] ident token index) in
  echo_packet_with [u8 (Z.shiftr sum 8); u8 sum] ident token index.

(** Where the ICMP message starts: after the IP header, if there is one. *)
Definition reply_offset (buf : list Z) : nat :=
  match buf with
  | b0 :: _ => if Z.shiftr b0 4 =? 4 then (Z.to_nat (Z.land b0 15) * 4)%nat else 0%nat
  | [] => 0%nat
  end.

(** The host index an echo reply answers, or -1. *)
Definition match_reply (os : platform) (buf : list Z) (from : ip4) (ident token : Z)
    (ips : list ip4) : Z :=
  let len := length buf in
  let offset := reply_offset buf in
  if (len <? offset + ICMP_HEADER_LEN + PAYLOAD_LEN)%nat then -1
  else
    match drop offset buf with
    | t :: c :: _ :: _ :: i4 :: i5 :: _ :: _ :: rest =>
      if negb (t =? ICMP_ECHO_REPLY_TYPE) || negb (c =? 0) then -1
      else if negb (bool_decide (os = Linux)) && negb (u16 (get_be16 i4 i5) =? ident) then -1
      else
        let payload := payload_of_bytes (take PAYLOAD_LEN rest) in
        if negb (ep_token payload =? token) || (ep_index payload >=? Z.of_nat (length ips)) then -1
        else
          match ips !! Z.to_nat (ep_index payload) with
          | Some ip => if bool_decide (from = ip) then ep_index payload else -1
          | None => -1
          end
    | _ => -1
    end.

(** ** Pacing *)

Lemma send_budget_pace elapsed sent :
  0 <= elapsed < 4611686018427387904 → 0 <= sent →
  send_budget elapsed sent = Z.max 0 (SENDS_PER_MS * (elapsed + 1) - sent).
Proof.
  intros He Hs. unfold send_budget, SENDS_PER_MS.
  rewrite (u64_id (elapsed + 1)) by (unfold is_u64; lia).
  rewrite u64_id by (unfold is_u64; lia). case_test; lia.
Qed.

(** ** The Internet checksum (RFC 1071) *)

(** The sum of the big-endian 16-bit words, an odd last byte padded. *)
Fixpoint word_sum (data : list Z) : Z :=
  match data with
  | hi :: lo :: data => hi * 256 + lo + word_sum data
  | [last] => last * 256
  | [] => 0
  end.

Lemma word_sum_ind (P : list Z → Prop) :
  P [] → (∀ a, P [a]) → (∀ a b l, P l → P (a :: b :: l)) → ∀ l, P l.
Proof.
  intros H0 H1 H2 l. enough (P l ∧ ∀ a, P (a :: l)) by tauto.
  induction l as [|b l [IH1 IH2]]; auto.
Qed.

Lemma word_sum_app a b :
  Nat.Even (length a) → word_sum (a ++ b) = word_sum a + word_sum b.
Proof.
  induction a as [|x|x y a IH] using word_sum_ind; intros [k Hk].
  - done.
  - simpl in Hk. lia.
  - cbn [word_sum app length] in *. rewrite IH; [lia|]. exists (k - 1)%nat. lia.
Qed.

Lemma word_sum_bound data :
  bytes data → 0 <= word_sum data <= 65535 * ((Z.of_nat (length data) + 1) / 2).
Proof.
  induction data as [|a|a b l IH] using word_sum_ind; intros Hb.
  - done.
  - apply Forall_cons in Hb as [Ha _]. unfold is_u8 in Ha.
    cbn [word_sum length]. change ((Z.of_nat 1 + 1) / 2) with 1. lia.
  - apply Forall_cons in Hb as [Ha Hb]. apply Forall_cons in Hb as [Hb Hl].
    specialize (IH Hl). unfold is_u8 in *. cbn [word_sum length].
    replace (Z.of_nat (S (S (length l))) + 1) with (Z.of_nat (length l) + 1 + 1 * 2) by lia.
    rewrite Z.div_add by lia. lia.
Qed.

(** No wrap below 2^16 words: the uint32_t sum is the sum. *)
Lemma checksum_sum_exact data sum :
  bytes data → 0 <= sum → sum + word_sum data < 4294967296 →
  checksum_sum sum data = sum + word_sum data.
Proof.
  revert sum. induction data as [|a|a b l IH] using word_sum_ind; intros sum Hb Hs Hlt.
  - simpl; lia.
  - apply Forall_cons in Hb as [Ha _]. unfold is_u8 in Ha. cbn [checksum_sum word_sum] in *.
    rewrite Z.shiftl_mul_pow2 by lia. change (2 ^ 8) with 256.
    rewrite (u32_id (a * 256)) by (unfold is_u32; lia). rewrite u32_id; [done|unfold is_u32; lia].
  - apply Forall_cons in Hb as [Ha Hb]. apply Forall_cons in Hb as [Hb Hl].
    cbn [checksum_sum word_sum] in *. rewrite get_be16_val by done.
    pose proof (word_sum_bound l Hl) as Hw. unfold is_u8 in *.
    rewrite u32_id by (unfold is_u32; lia). rewrite IH; [lia|done|lia|lia].
Qed.

(** The one's complement sum: 16 bits, the same residue modulo 65535, and
    0 only for 0. *)
Definition ones_sum (s : Z) : Z := if s =? 0 then 0 else (s - 1) mod 65535 + 1.

Lemma fold_step s :
  65536 <= s < 4294967296 →
  u32 (Z.land s 65535 + Z.shiftr s 16) = s - 65535 * (s / 65536) ∧
  0 < s - 65535 * (s / 65536) < s ∧ s - 65535 * (s / 65536) <= 131070.
Proof.
  intros. rewrite land_ffff, shiftr_16.
  pose proof (Z.div_mod s 65536 ltac:(lia)). pose proof (Z.mod_pos_bound s 65536 ltac:(lia)).
  assert (1 <= s / 65536 < 65536) by (split; [apply Z.div_le_lower_bound|apply Z.div_lt_upper_bound]; lia).
  rewrite u32_id by (unfold is_u32; lia). lia.
Qed.

Lemma ones_sum_small s : 0 <= s < 65536 → ones_sum s = s.
Proof. intros. unfold ones_sum. case_test; [done|]. rewrite Z.mod_small; lia. Qed.

Lemma ones_sum_sub s k : 0 < s - 65535 * k → 0 < s → ones_sum (s - 65535 * k) = ones_sum s.
Proof.
  intros. unfold ones_sum. rewrite !(proj2 (Z.eqb_neq _ 0)) by lia. f_equal.
  replace (s - 65535 * k - 1) with (s - 1 + (- k) * 65535) by lia. by rewrite Z.mod_add by lia.
Qed.

Lemma fold_carries_ones s : is_u32 s → fold_carries 3 s = ones_sum s.
Proof.
  unfold is_u32. intros Hs.
  assert (∀ x, 0 <= x → (Z.shiftr x 16 =? 0) = (x <? 65536)) as Hsh.
  { intros x Hx. rewrite shiftr_16. destruct (x <? 65536) eqn:T; to_prop.
    - rewrite Z.div_small by lia. done.
    - apply Z.eqb_neq. assert (1 <= x / 65536) by (apply Z.div_le_lower_bound; lia). lia. }
  cbn [fold_carries]. rewrite Hsh by lia. case_test; [by rewrite ones_sum_small by lia|].
  destruct (fold_step s) as (-> & [? ?] & ?); [lia|].
  set (s1 := s - 65535 * (s / 65536)) in *.
  rewrite Hsh by lia. case_test.
  { rewrite <- (ones_sum_small s1) by lia. apply ones_sum_sub; lia. }
  destruct (fold_step s1) as (-> & [? ?] & _); [lia|].
  assert (s1 / 65536 = 1) as Hd.
  { symmetry. apply Z.div_unique with (r := s1 - 65536); lia. }
  rewrite Hd in *. rewrite Hsh by lia. case_test; [|lia].
  rewrite <- (ones_sum_small (s1 - 65535 * 1)) by lia.
  rewrite ones_sum_sub by lia. apply ones_sum_sub; lia.
Qed.

Lemma ones_sum_range s : 0 <= s → 0 <= ones_sum s <= 65535.
Proof.
  intros. unfold ones_sum. case_test; [lia|].
  pose proof (Z.mod_pos_bound (s - 1) 65535 ltac:(lia)). lia.
Qed.

Lemma lnot_u16 s : 0 <= s <= 65535 → u16 (Z.lnot s) = 65535 - s.
Proof.
  intros. unfold Z.lnot, u16. rewrite <- (Z.mod_add (Z.pred (- s)) 1 65536) by lia.
  rewrite Z.mod_small; lia.
Qed.

Lemma checksum_value data :
  bytes data → word_sum data < 4294967296 →
  checksum data = 65535 - ones_sum (word_sum data).
Proof.
  intros Hb Hlt. pose proof (word_sum_bound data Hb).
  unfold checksum. rewrite checksum_sum_exact by (done || lia).
  rewrite fold_carries_ones by (unfold is_u32; lia).
  apply lnot_u16, ones_sum_range. lia.
Qed.

(** Filling a zero field of whole words with the checksum makes the sum
    all ones: the receiver's check. *)
Lemma ones_sum_complement w :
  0 <= w → ones_sum (w + (65535 - ones_sum w)) = 65535.
Proof.
  intros Hw. pose proof (ones_sum_range w Hw) as Hr.
  destruct (Z.eqb_spec w 0) as [->|Hn]; [done|].
  assert (ones_sum w = (w - 1) mod 65535 + 1) as Hv.
  { unfold ones_sum. by rewrite (proj2 (Z.eqb_neq w 0)) by lia. }
  pose proof (Z.div_mod (w - 1) 65535 ltac:(lia)).
  replace (w + (65535 - ones_sum w)) with (65535 - 65535 * (- ((w - 1) / 65535))) by lia.
  pose proof (Z.div_pos (w - 1) 65535 ltac:(lia) ltac:(lia)).
  rewrite ones_sum_sub; [done|lia|lia].
Qed.

(** ** The packet *)

Lemma payload_of_payload_bytes p :
  is_u32 (ep_token p) → is_u32 (ep_index p) → length (ep_pad p) = 24%nat →
  payload_of_bytes (payload_bytes p) = p.
Proof.
  intros Ht Hi Hp. destruct p as [tok idx pad]; simpl in *.
  unfold payload_of_bytes, payload_bytes; cbn [ep_token ep_index ep_pad].
  rewrite take_app_length', (drop_app_length' (le_bytes 4 tok)) by by rewrite length_le_bytes.
  rewrite take_app_length' by by rewrite length_le_bytes.
  rewrite app_assoc, (drop_app_length' (le_bytes 4 tok ++ le_bytes 4 idx))
    by by rewrite length_app, !length_le_bytes.
  rewrite !le_value_u32 by done. rewrite take_ge; [done|]. rewrite Hp. done.
Qed.

Lemma length_payload_bytes p : length (payload_bytes p) = (8 + length (ep_pad p))%nat.
Proof. unfold payload_bytes. by rewrite !length_app, !length_le_bytes. Qed.

Lemma length_echo_packet_with a b ident token index :
  length (echo_packet_with [a; b] ident token index) = 40%nat.
Proof. unfold echo_packet_with. simpl. done. Qed.

Lemma bytes_echo_packet_with a b ident token index :
  is_u8 a → is_u8 b → bytes (echo_packet_with [a; b] ident token index).
Proof.
  intros. unfold echo_packet_with, payload_bytes.
  repeat (apply bytes_app || apply bytes_cons || apply bytes_le_bytes || apply bytes_replicate
    || apply bytes_nil || apply u8_range || done || (unfold is_u8, ICMP_ECHO_REQUEST_TYPE; lia)).
Qed.

Lemma word_sum_echo_packet_with a b ident token index :
  word_sum (echo_packet_with [a; b] ident token index) =
  a * 256 + b + word_sum (echo_packet_with [0; 0] ident token index).
Proof.
  unfold echo_packet_with. rewrite !(word_sum_app [_; _]) by by exists 1%nat. simpl word_sum at 2 5. lia.
Qed.

Lemma checksum_echo_packet ident token index :
  checksum (echo_packet ident token index) = 0.
Proof.
  unfold echo_packet. set (p0 := echo_packet_with [0; 0] ident token index).
  set (c := checksum p0). assert (bytes p0) as Hb0 by (apply bytes_echo_packet_with; apply is_u8_0).
  pose proof (word_sum_bound p0 Hb0) as Hw0.
  change (length p0) with 40%nat in Hw0. change ((Z.of_nat 40 + 1) / 2) with 20 in Hw0.
  assert (c = 65535 - ones_sum (word_sum p0)) as Hc by (apply checksum_value; [done|lia]).
  pose proof (ones_sum_range (word_sum p0) ltac:(lia)) as Hr.
  assert (u8 (Z.shiftr c 8) * 256 + u8 c = c) as Hcc.
  { pose proof (get_be16_be16 c) as Hg. rewrite get_be16_val in Hg by apply u8_range.
    rewrite Hg. apply u16_id. unfold is_u16. lia. }
  pose proof (word_sum_echo_packet_with (u8 (Z.shiftr c 8)) (u8 c) ident token index) as Hw.
  fold p0 in Hw. rewrite checksum_value; rewrite ?Hw, ?Hcc.
  - rewrite Z.add_comm, Hc, ones_sum_complement; lia.
  - apply bytes_echo_packet_with; apply u8_range.
  - lia.
Qed.

(** ** What counts as a reply *)

(** [buf] is an echo reply from [from] to host [n] of this sweep: an
    optional IP header, type 0 and code 0, the sweep's identifier where
    the OS does not filter by socket, and a payload with the sweep's token
    and the index of a host whose address is [from]. *)
Definition answers (os : platform) (ident token : Z) (ips : list ip4) (from : ip4) (n : nat)
    (buf : list Z) : Prop :=
  ∃ hdr c1 c2 i4 i5 s1 s2 payload extra,
    buf = hdr ++ [ICMP_ECHO_REPLY_TYPE; 0; c1; c2; i4; i5; s1; s2] ++ payload ++ extra ∧
    reply_offset buf = length hdr ∧ length payload = PAYLOAD_LEN ∧
    (os = Linux ∨ u16 (get_be16 i4 i5) = ident) ∧
    le_value (take 4 payload) = token ∧
    le_value (take 4 (drop 4 payload)) = Z.of_nat n ∧
    ips !! n = Some from.

Lemma list_8 (l : list Z) :
  (8 ≤ length l)%nat → ∃ a b c d e f g h r, l = a :: b :: c :: d :: e :: f :: g :: h :: r.
Proof. intros. do 8 (destruct l as [|? l]; [simpl in *; lia|]). naive_solver. Qed.

Lemma ident_test os x ident :
  negb (bool_decide (os = Linux)) && negb (u16 x =? ident) = false ↔ os = Linux ∨ u16 x = ident.
Proof. rewrite andb_false_iff, !negb_false_iff, bool_decide_eq_true, Z.eqb_eq. done. Qed.

Lemma le_value_nonneg bs : bytes bs → 0 <= le_value bs.
Proof. intros. by apply le_value_range. Qed.

Lemma match_reply_answers os buf from ident token ips n :
  bytes buf →
  match_reply os buf from ident token ips = Z.of_nat n ↔ answers os ident token ips from n buf.
Proof.
  intros Hb. unfold match_reply, answers. split.
  - case_test; [lia|]. unfold ICMP_HEADER_LEN, PAYLOAD_LEN in *.
    destruct (list_8 (drop (reply_offset buf) buf)) as (t&c&c1&c2&i4&i5&s1&s2&rest&Hd).
    { rewrite length_drop. lia. }
    rewrite Hd. assert (length rest = (length buf - reply_offset buf - 8)%nat) as Hlen.
    { assert (length (drop (reply_offset buf) buf) = (8 + length rest)%nat) by by rewrite Hd.
      rewrite length_drop in *. lia. }
    case_test; [lia|]. destruct (negb (bool_decide _) && _) eqn:Hid; [lia|]. apply ident_test in Hid.
    unfold payload_of_bytes; cbn [ep_token ep_index]. case_test; [lia|].
    set (idx := le_value (take 4 (drop 4 (take 32 rest)))) in *.
    assert (0 <= idx) as Hidx.
    { apply le_value_nonneg. assert (bytes rest).
      { apply (bytes_drop (reply_offset buf)) in Hb. rewrite Hd in Hb.
        do 8 apply Forall_cons in Hb as [_ Hb]. done. }
      auto with words. }
    destruct (ips !! Z.to_nat idx) as [ip|] eqn:Hips; [|lia]. case_test; [|lia].
    intros Hn. assert (n = Z.to_nat idx) as -> by lia. subst. exists (take (reply_offset buf) buf), c1, c2, i4, i5, s1, s2, (take 32 rest), (drop 32 rest).
    rewrite take_drop. splits; try done.
    + rewrite <- (take_drop (reply_offset buf) buf) at 1. by rewrite Hd.
    + rewrite length_take. lia.
    + rewrite length_take. lia.
  - intros (hdr&c1&c2&i4&i5&s1&s2&payload&extra&Hbuf&Hoff&Hp&Hid&Htok&Hidx&Hips).
    rewrite Hoff, Hbuf, !length_app, drop_app_length. cbn [length app].
    unfold ICMP_HEADER_LEN, PAYLOAD_LEN in *. case_test; [lia|]. simpl negb. simpl orb.
    apply ident_test in Hid. rewrite Hid. rewrite take_app_length' by done.
    unfold payload_of_bytes; cbn [ep_token ep_index]. rewrite Htok, Hidx, Z.eqb_refl.
    assert (n < length ips)%nat by eauto with netscan.
    rewrite Z.geb_leb, (proj2 (Z.leb_gt _ _)) by lia. simpl. rewrite Nat2Z.id, Hips.
    by rewrite bool_decide_eq_true_2.
Qed.

Lemma match_reply_range os buf from ident token ips :
  bytes buf →
  match_reply os buf from ident token ips = -1 ∨
  ∃ n, match_reply os buf from ident token ips = Z.of_nat n ∧ (n < length ips)%nat.
Proof.
  intros Hb. destruct (Z.ltb_spec (match_reply os buf from ident token ips) 0) as [Hn|Hn].
  - left. unfold match_reply in *. repeat case_match; try done; to_prop. exfalso.
    assert (0 <= ep_index (payload_of_bytes (take PAYLOAD_LEN l6))) as Hpos; [|lia].
    apply le_value_nonneg.
    assert (bytes (drop (reply_offset buf) buf)) as Hd by auto with words.
    rename select (drop _ buf = _) into Heq. rewrite Heq in Hd.
    do 8 apply Forall_cons in Hd as [_ Hd]. auto with words.
  - right. exists (Z.to_nat (match_reply os buf from ident token ips)).
    rewrite Z2Nat.id by done. split; [done|].
    apply Z2Nat.id in Hn. symmetry in Hn. apply match_reply_answers in Hn; [|done].
    destruct Hn as (hdr&c1&c2&i4&i5&s1&s2&payload&extra&_&_&_&_&_&_&Hips). eauto with netscan.
Qed.

(** ** Properties *)

(** the checksum is the Internet checksum: the complement of the one's
    complement sum of the big-endian 16-bit words, for any data short
    enough that the 32-bit accumulator does not wrap. *)
Theorem checksum_internet data :
  bytes data → word_sum data < 4294967296 →
  checksum data = 65535 - ones_sum (word_sum data).
Proof. apply checksum_value. Qed.

(** every echo request the sweep sends verifies at its receiver: the
    checksum over the whole packet, the stored one included, is 0, and the
    packet is a 40-byte string of bytes. *)
Theorem echo_packet_verifies ident token index :
  checksum (echo_packet ident token index) = 0 ∧
  length (echo_packet ident token index) = 40%nat ∧
  bytes (echo_packet ident token index).
Proof.
  split; [apply checksum_echo_packet|]. split; [done|].
  apply bytes_echo_packet_with; apply u8_range.
Qed.

(** a datagram is matched to host [n] exactly when it is an echo
    reply of this sweep from the address of host [n]; otherwise the answer
    is -1, and no datagram is matched to a host that does not exist. *)
Theorem match_reply_exact os buf from ident token ips n :
  bytes buf →
  (match_reply os buf from ident token ips = Z.of_nat n ↔ answers os ident token ips from n buf) ∧
  (match_reply os buf from ident token ips = -1 ∨
   ∃ k, match_reply os buf from ident token ips = Z.of_nat k ∧ (k < length ips)%nat).
Proof. intros. split; [by apply match_reply_answers|by apply match_reply_range]. Qed.

(** What a host sends back: the request with type, code and checksum of a
    reply, and on macOS the IP header in front. *)
Definition echo_reply (hdr sum request : list Z) : list Z :=
  hdr ++ [ICMP_ECHO_REPLY_TYPE; 0] ++ sum ++ drop 4 request.

Definition ip_header (hdr : list Z) : Prop :=
  bytes hdr ∧ ∃ b0 rest, hdr = b0 :: rest ∧ Z.shiftr b0 4 = 4 ∧
    length hdr = (Z.to_nat (Z.land b0 15) * 4)%nat.

Lemma reply_offset_header hdr body :
  hdr = [] ∧ (∀ b rest, body = b :: rest → Z.shiftr b 4 ≠ 4) ∨ ip_header hdr →
  reply_offset (hdr ++ body) = length hdr.
Proof.
  intros [[-> Hb]|(_ & b0 & rest & -> & H4 & Hl)]; unfold reply_offset; cbn [app].
  - destruct body as [|b rest]; [done|].
    by rewrite (proj2 (Z.eqb_neq (Z.shiftr b 4) 4)) by (by eapply Hb).
  - by rewrite H4, Z.eqb_refl.
Qed.

(** round trip.  The reply of host [n] to the request sent to it, with
    or without an IP header in front, is matched to host [n]. *)
Theorem match_reply_roundtrip os hdr s1 s2 ident token ips n ip :
  hdr = [] ∨ ip_header hdr → is_u8 s1 → is_u8 s2 →
  is_u16 ident → is_u32 token → ips !! n = Some ip → Z.of_nat n < 4294967296 →
  match_reply os (echo_reply hdr [s1; s2] (echo_packet ident token (Z.of_nat n))) ip ident token ips
    = Z.of_nat n.
Proof.
  intros Hh H1 H2 Hid Htok Hip Hn.
  assert (bytes hdr) as Hbh by (destruct Hh as [->|[]]; [constructor|done]).
  set (pl := payload_bytes (EchoPayload token (u32 (Z.of_nat n)) (replicate 24 0))).
  assert (length pl = 32%nat) as Hlen by done.
  apply match_reply_answers.
  { unfold echo_reply. apply bytes_app; [done|].
    repeat (apply bytes_cons; [done || (unfold is_u8, ICMP_ECHO_REPLY_TYPE; lia)|]).
    apply bytes_drop. by apply (echo_packet_verifies ident token (Z.of_nat n)). }
  exists hdr, s1, s2, (u8 (Z.shiftr ident 8)), (u8 ident), (u8 (Z.shiftr (Z.of_nat n) 8)),
    (u8 (Z.of_nat n)), pl, [].
  splits; try done.
  - apply reply_offset_header. destruct Hh as [->|Hh]; [left|by right].
    split; [reflexivity|]. intros b rest Hb. injection Hb as <- _. discriminate.
  - right. rewrite get_be16_be16. rewrite (u16_id ident) by done. by apply u16_id.
  - subst pl. unfold payload_bytes. cbn [ep_token]. rewrite take_app_length' by (by rewrite length_le_bytes).
    by apply le_value_u32.
  - subst pl. unfold payload_bytes. cbn [ep_token ep_index].
    rewrite drop_app_length' by (by rewrite length_le_bytes).
    rewrite take_app_length' by (by rewrite length_le_bytes).
    rewrite u32_id by (unfold is_u32; lia). apply le_value_u32. unfold is_u32. lia.
Qed.

(** ** Witnesses *)

Lemma checksum_internet_witness :
  word_sum [8; 0; 1; 2; 3] < 4294967296 ∧
  checksum [8; 0; 1; 2; 3] = 65535 - ones_sum (word_sum [8; 0; 1; 2; 3]).
Proof. split; [done|]. apply (checksum_internet [8; 0; 1; 2; 3]); [|done]. repeat constructor; lia. Defined.

Definition one_host : list ip4 := [IP 10 0 0 1].

Lemma match_reply_exact_witness :
  (match_reply Linux (echo_reply [] [0; 0] (echo_packet 1 2 0)) (IP 10 0 0 1) 1 2 one_host = Z.of_nat 0 ↔
   answers Linux 1 2 one_host (IP 10 0 0 1) 0 (echo_reply [] [0; 0] (echo_packet 1 2 0))) ∧
  (match_reply Linux (echo_reply [] [0; 0] (echo_packet 1 2 0)) (IP 10 0 0 1) 1 2 one_host = -1 ∨
   ∃ k, match_reply Linux (echo_reply [] [0; 0] (echo_packet 1 2 0)) (IP 10 0 0 1) 1 2 one_host
        = Z.of_nat k ∧ (k < 1)%nat).
Proof.
  apply (match_reply_exact Linux (echo_reply [] [0; 0] (echo_packet 1 2 0)) (IP 10 0 0 1) 1 2 one_host 0).
  vm_compute. repeat constructor; congruence.
Defined.

Definition plain_header : list Z := [69; 0; 0; 60; 0; 0; 0; 0; 64; 1; 0; 0; 10; 0; 0; 1; 10; 0; 0; 9].

Lemma match_reply_roundtrip_witness :
  match_reply MacOS (echo_reply plain_header [7; 9] (echo_packet 4242 99 0)) (IP 10 0 0 1) 4242 99 one_host = 0.
Proof.
  apply (match_reply_roundtrip MacOS plain_header 7 9 4242 99 one_host 0 (IP 10 0 0 1));
    [right|unfold is_u8, is_u16, is_u32; lia..|done|done].
  split; [unfold bytes, plain_header; repeat constructor; lia|].
  eexists 69, _. split; [done|]. split; done.
Defined.
