(* ===== verification/SweepSpec.v ===== *)
(** * What a ping sweep promises

    The vocabulary both sweeps of icmp_ping.c share, and an executable
    specification of a sweep: a monitor over what its callers can observe
    (the echoes that left, the hosts reported, the stop it saw).  IcmpSweep.v
    and IcmpSweepWin.v prove that every log of theirs is one the monitor
    accepts; what follows from that alone is proved here, once for both. *)
From S2P Require Import Prelude Words Sys.
From stdpp Require Import gmap.
Open Scope Z_scope.

Inductive icmp_ping_result := ICMP_PING_DONE | ICMP_PING_UNAVAILABLE | ICMP_PING_NO_MEMORY.

(** Where each host stands. *)
Inductive host_state := STATE_WAITING | STATE_IN_FLIGHT | STATE_REPORTED.

#[export] Instance host_state_eq_dec : EqDecision host_state.
Proof. solve_decision. Defined.

(** ** Observations *)

Inductive label :=
| LSent (ip : ip4)               (* an echo left for [ip] and is under way *)
| LFate (i : nat) (answered : bool)
| LStop.

Definition label_of (ev : event) : list label :=
  match ev with
  | Ev c r =>
    match c in call T return T → list label with
    | SendTo _ _ a => λ r, match r with Ok _ => [LSent (sa_ip a)] | Err _ => [] end
    | IcmpSendEcho2 _ slot dest _ _ => λ r,
        match echo2_pends slot r with [] => [] | _ => [LSent dest] end
    | Pinged i a => λ _, [LFate i a]
    | StopRequested => λ r, if (r : bool) then [LStop] else []
    | _ => λ _, []
    end r
  end.

Definition labels (t : list event) : list label := flat_map label_of t.

Lemma labels_app t u : labels (t ++ u) = labels t ++ labels u.
Proof. apply flat_map_app. Qed.

(** The hosts reported, in order, with their fate. *)
Definition pinged (t : list event) : list (nat * bool) :=
  flat_map (λ ev, match ev with Ev (Pinged i a) _ => [(i, a)] | _ => [] end) t.

Definition stop_seen (t : list event) : Prop := Ev StopRequested true ∈ t.

Lemma pinged_app t u : pinged (t ++ u) = pinged t ++ pinged u.
Proof. apply flat_map_app. Qed.

Definition fates (ls : list label) : list (nat * bool) :=
  flat_map (λ l, match l with LFate i a => [(i, a)] | _ => [] end) ls.

Lemma fates_labels t : fates (labels t) = pinged t.
Proof.
  induction t as [|ev t IH]; [done|]. change (ev :: t) with ([ev] ++ t).
  rewrite labels_app, pinged_app, <- IH. unfold fates at 1. rewrite flat_map_app. f_equal.
  destruct ev as [A c r]. destruct c; try done; simpl.
  - by destruct r.
  - by destruct (echo2_pends _ _).
  - by destruct r.
Qed.

(** Requests that show nothing. *)
Definition quiet (ev : event) : Prop := label_of ev = [].

Lemma quiet_labels t : Forall quiet t → labels t = [].
Proof. induction 1 as [|ev t Hev _ IH]; [done|]. unfold labels in *. simpl. by rewrite Hev, IH. Qed.

Lemma labels_pinged t : labels t = [] → pinged t = [].
Proof. intros Ht. by rewrite <- fates_labels, Ht. Qed.

Lemma quiet_pinged t : Forall quiet t → pinged t = [].
Proof. intros. by apply labels_pinged, quiet_labels. Qed.

(** ** The monitor *)

Record spec := Spec { sp_next : nat; sp_flying : gset nat; sp_stopped : bool }.

Definition spec_start : spec := Spec 0 ∅ false.

Section Monitor.
Variables (ips : list ip4) (max : Z).

(** The next echo goes to the next host, while there is room and no stop was
    seen; a host is reported when its echo is under way, or in its turn when
    none left for it. *)
Definition monitor (sp : spec) (l : label) : option spec :=
  match l with
  | LSent ip =>
    if negb (sp_stopped sp) && bool_decide (ips !! sp_next sp = Some ip) &&
       (Z.of_nat (size (sp_flying sp)) <? max)
    then Some (Spec (S (sp_next sp)) ({[sp_next sp]} ∪ sp_flying sp) (sp_stopped sp))
    else None
  | LFate i _ =>
    if bool_decide (i ∈ sp_flying sp)
    then Some (Spec (sp_next sp) (sp_flying sp ∖ {[i]}) (sp_stopped sp))
    else if negb (sp_stopped sp) && (i =? sp_next sp)%nat && (i <? length ips)%nat
    then Some (Spec (S (sp_next sp)) (sp_flying sp) (sp_stopped sp))
    else None
  | LStop => if sp_stopped sp then None else Some (Spec (sp_next sp) (sp_flying sp) true)
  end.

Fixpoint monitor_all (sp : spec) (ls : list label) : option spec :=
  match ls with
  | [] => Some sp
  | l :: ls => match monitor sp l with Some sp => monitor_all sp ls | None => None end
  end.

Definition spec_over (sp : spec) : Prop :=
  sp_flying sp = ∅ ∧ (sp_stopped sp = true ∨ sp_next sp = length ips).

Lemma monitor_all_app ls ks : ∀ sp,
  monitor_all sp (ls ++ ks) =
  match monitor_all sp ls with Some sp => monitor_all sp ks | None => None end.
Proof. induction ls as [|l ls IH]; intros sp; [done|]. simpl. by destruct (monitor sp l). Qed.

(** ** What the monitor guarantees *)

Record spec_inv (sp : spec) (ls : list label) : Prop := {
  si_next : (sp_next sp ≤ length ips)%nat;
  si_flying : ∀ i, i ∈ sp_flying sp → (i < sp_next sp)%nat;
  si_fates : ∀ i, i ∈ (fates ls).*1 ↔ (i < sp_next sp)%nat ∧ i ∉ sp_flying sp;
  si_nodup : NoDup (fates ls).*1;
  si_stop : sp_stopped sp = true ↔ LStop ∈ ls
}.

Lemma fates_app ls ks : fates (ls ++ ks) = fates ls ++ fates ks.
Proof. apply flat_map_app. Qed.

Lemma monitor_inv sp l sp' ls :
  spec_inv sp ls → monitor sp l = Some sp' → spec_inv sp' (ls ++ [l]).
Proof.
  intros [Hn Hfly Hf Hnd Hst] Hm. destruct l as [ip|i a|]; simpl in Hm.
  - destruct (_ && _) eqn:Hg in Hm; [|done]. to_prop. simplify_eq.
    assert (sp_next sp < length ips)%nat by by eapply lookup_lt_Some.
    split; simpl; rewrite ?fates_app, ?app_nil_r; try done.
    + intros i. rewrite elem_of_union, elem_of_singleton. intros [->|Hi%Hfly]; lia.
    + intros i. rewrite Hf, elem_of_union, elem_of_singleton. split.
      * intros [? ?]. split; [lia|]. intros [->|?]; [lia|done].
      * intros [? Hni]. split; [|tauto]. destruct (decide (i = sp_next sp)); [tauto|lia].
    + rewrite Hst, elem_of_app, list_elem_of_singleton. naive_solver.
  - assert (∀ nx (fl : gset nat), (∀ j, (j < nx)%nat ∧ j ∉ fl ↔ (j < sp_next sp)%nat ∧ j ∉ sp_flying sp ∨ j = i) →
      i ∉ (fates ls).*1 → ∀ j, j ∈ (fates (ls ++ [LFate i a])).*1 ↔ (j < nx)%nat ∧ j ∉ fl) as Hadd.
    { intros nx fl Hfl _ j. rewrite fates_app, fmap_app, elem_of_app, Hf, Hfl. simpl.
      by rewrite list_elem_of_singleton. }
    assert (∀ j, j ∉ (fates ls).*1 → NoDup ((fates (ls ++ [LFate j a])).*1)) as Hnew.
    { intros j Hj. rewrite fates_app, fmap_app. simpl. apply NoDup_app. split; [done|].
      split; [|apply NoDup_singleton]. by intros k Hk ->%list_elem_of_singleton. }
    destruct (bool_decide (i ∈ sp_flying sp)) eqn:Hi; to_prop.
    + simplify_eq. assert (i ∉ (fates ls).*1) as Hni by (rewrite Hf; tauto).
      split; simpl; [done|set_solver| |by apply Hnew|].
      * apply Hadd; [|done]. intros j. specialize (Hfly i Hi).
        rewrite elem_of_difference, elem_of_singleton. split.
        -- intros [? ?]. destruct (decide (j = i)); [by right|left]. tauto.
        -- intros [[? ?]| ->]; tauto.
      * rewrite Hst, elem_of_app, list_elem_of_singleton. naive_solver.
    + destruct (_ && _) eqn:Hg in Hm; [|done]. to_prop. simplify_eq.
      assert (sp_next sp ∉ (fates ls).*1) as Hni by (rewrite Hf; lia).
      split; simpl; [lia|intros j Hj%Hfly; lia| |by apply Hnew|].
      * apply Hadd; [|done]. intros j. split.
        -- intros [? ?]. destruct (decide (j = sp_next sp)); [by right|left]. split; [lia|done].
        -- intros [[? ?]| ->]; [split; [lia|done]|]. split; [lia|done].
      * rewrite Hst, elem_of_app, list_elem_of_singleton. naive_solver.
  - destruct (sp_stopped sp); [done|]. simplify_eq.
    split; simpl; rewrite ?fates_app, ?app_nil_r; try done.
    rewrite elem_of_app, list_elem_of_singleton. tauto.
Qed.

Lemma monitor_all_inv ls : ∀ sp ks sp',
  spec_inv sp ks → monitor_all sp ls = Some sp' → spec_inv sp' (ks ++ ls).
Proof.
  induction ls as [|l ls IH]; intros sp ks sp' Hi Hm; simpl in Hm; [simplify_eq; by rewrite app_nil_r|].
  destruct (monitor sp l) as [sp1|] eqn:Hl; [|done].
  change (l :: ls) with ([l] ++ ls). rewrite app_assoc. eapply IH; [|done]. by eapply monitor_inv.
Qed.

Lemma spec_start_inv : spec_inv spec_start [].
Proof.
  split; simpl; [lia|set_solver| |apply NoDup_nil_2|].
  - intros i. split; [by intros ?%elem_of_nil|lia].
  - split; [done|by intros ?%elem_of_nil].
Qed.

(** A finished sweep reported the first hosts, each once: all of them,
    unless it saw a stop. *)
Lemma spec_over_fates ls sp :
  monitor_all spec_start ls = Some sp → spec_over sp →
  (fates ls).*1 ≡ₚ seq 0 (sp_next sp) ∧ (sp_next sp ≤ length ips)%nat ∧
  (sp_next sp = length ips ∨ LStop ∈ ls).
Proof.
  intros Hm [Hf Ho]. apply (monitor_all_inv ls spec_start []) in Hm as Hi; [|apply spec_start_inv].
  simpl in Hi. destruct Hi as [Hn _ Hfa Hnd Hst]. split; [|split; [done|]].
  - apply NoDup_Permutation; [done|apply NoDup_seq|]. intros i.
    rewrite Hfa, Hf, elem_of_seq. set_solver by lia.
  - destruct Ho as [Ho|Ho]; [right; by apply Hst|by left].
Qed.
End Monitor.

(** ** Following the specification

    Where an implementation with [next], a state per host, a count of echoes
    in flight and a stop flag stands, and where the monitor stands after the
    log so far, are the same place. *)

Section Follows.
Variables (ips : list ip4) (max : Z).

Definition follows (t : list event) (next : nat) (st : list host_state) (in_flight : Z)
    (stopped : bool) : Prop :=
  ∃ sp, monitor_all ips max spec_start (labels t) = Some sp ∧
    sp_next sp = next ∧ sp_stopped sp = stopped ∧
    (∀ i, i ∈ sp_flying sp ↔ st !! i = Some STATE_IN_FLIGHT) ∧
    Z.of_nat (size (sp_flying sp)) = in_flight.

Lemma follows_start n : follows [] 0 (replicate n STATE_WAITING) 0 false.
Proof.
  exists spec_start. splits; try done. intros i. simpl. rewrite lookup_replicate. set_solver.
Qed.

Lemma follows_step t u l next st k stopped sp' :
  follows t next st k stopped → labels u = [l] →
  (∀ sp, sp_next sp = next → sp_stopped sp = stopped →
     (∀ i, i ∈ sp_flying sp ↔ st !! i = Some STATE_IN_FLIGHT) →
     Z.of_nat (size (sp_flying sp)) = k → monitor ips max sp l = Some (sp' sp)) →
  ∃ sp, sp_next sp = next ∧ sp_stopped sp = stopped ∧
    (∀ i, i ∈ sp_flying sp ↔ st !! i = Some STATE_IN_FLIGHT) ∧
    Z.of_nat (size (sp_flying sp)) = k ∧
    monitor_all ips max spec_start (labels (t ++ u)) = Some (sp' sp).
Proof.
  intros (sp & Hm & H1 & H2 & H3 & H4) Hu Hl. exists sp. splits; try done.
  rewrite labels_app, Hu, monitor_all_app, Hm. simpl. by rewrite Hl.
Qed.

Lemma follows_quiet t u next st k stopped :
  labels u = [] → follows t next st k stopped → follows (t ++ u) next st k stopped.
Proof. intros Hu (sp & Hm & Hs). exists sp. by rewrite labels_app, Hu, app_nil_r. Qed.

Lemma follows_sent t u ip next st k :
  labels u = [LSent ip] → ips !! next = Some ip → k < max →
  (next < length st)%nat → st !! next ≠ Some STATE_IN_FLIGHT →
  follows t next st k false →
  follows (t ++ u) (S next) (<[next := STATE_IN_FLIGHT]> st) (k + 1) false.
Proof.
  intros Hu Hip Hk Hlen Hnot Hf.
  destruct (follows_step t u (LSent ip) _ _ _ _
    (λ sp, Spec (S (sp_next sp)) ({[sp_next sp]} ∪ sp_flying sp) (sp_stopped sp)) Hf Hu)
    as (sp & H1 & H2 & H3 & H4 & Hm).
  { intros sp H1 H2 H3 H4. simpl. rewrite H2, H1, H4, (proj2 (Z.ltb_lt _ _)) by done.
    by rewrite bool_decide_eq_true_2. }
  eexists; split; [exact Hm|]. simpl. rewrite H1. splits; [done|done| |].
  - intros i. rewrite elem_of_union, elem_of_singleton, H3. destruct (decide (i = next)) as [->|].
    + rewrite list_lookup_insert_eq by done. tauto.
    + rewrite list_lookup_insert_ne by done. tauto.
  - rewrite size_union; [rewrite size_singleton; lia|].
    apply disjoint_singleton_l. by rewrite H3.
Qed.

Lemma follows_landed t i a next st k stopped :
  st !! i = Some STATE_IN_FLIGHT → follows t next st k stopped →
  follows (t ++ [Ev (Pinged i a) ()]) next (<[i := STATE_REPORTED]> st) (k - 1) stopped.
Proof.
  intros Hi Hf.
  destruct (follows_step t [Ev (Pinged i a) ()] (LFate i a) _ _ _ _
    (λ sp, Spec (sp_next sp) (sp_flying sp ∖ {[i]}) (sp_stopped sp)) Hf eq_refl)
    as (sp & H1 & H2 & H3 & H4 & Hm).
  { intros sp H1 H2 H3 H4. simpl. by rewrite bool_decide_eq_true_2 by by apply H3. }
  assert (i < length st)%nat as Hlen by by eapply lookup_lt_Some.
  eexists; split; [exact Hm|]. simpl. splits; [done|done| |].
  - intros j. rewrite elem_of_difference, elem_of_singleton, H3. destruct (decide (j = i)) as [->|].
    + rewrite list_lookup_insert_eq by done. naive_solver.
    + rewrite list_lookup_insert_ne by done. naive_solver.
  - assert (i ∈ sp_flying sp) as Hin by by apply H3.
    rewrite (union_difference_singleton_L i (sp_flying sp)) in H4 by done.
    rewrite size_union, size_singleton in H4 by set_solver. lia.
Qed.

Lemma follows_failed t a next st k :
  (next < length ips)%nat → (next < length st)%nat → st !! next ≠ Some STATE_IN_FLIGHT →
  follows t next st k false →
  follows (t ++ [Ev (Pinged next a) ()]) (S next) (<[next := STATE_REPORTED]> st) k false.
Proof.
  intros Hlt Hlen Hnot Hf.
  destruct (follows_step t [Ev (Pinged next a) ()] (LFate next a) _ _ _ _
    (λ sp, Spec (S (sp_next sp)) (sp_flying sp) (sp_stopped sp)) Hf eq_refl)
    as (sp & H1 & H2 & H3 & H4 & Hm).
  { intros sp H1 H2 H3 H4. simpl. rewrite bool_decide_eq_false_2 by by rewrite H3.
    by rewrite H1, H2, Nat.eqb_refl, (proj2 (Nat.ltb_lt _ _)). }
  eexists; split; [exact Hm|]. simpl. rewrite H1. splits; [done|done| |done].
  intros i. rewrite H3. destruct (decide (i = next)) as [->|].
  - rewrite list_lookup_insert_eq by done. naive_solver.
  - by rewrite list_lookup_insert_ne by done.
Qed.

Lemma follows_stop t b next st k :
  follows t next st k false → follows (t ++ [Ev StopRequested b]) next st k b.
Proof.
  intros Hf. destruct b; [|by apply follows_quiet].
  destruct (follows_step t [Ev StopRequested true] LStop _ _ _ _
    (λ sp, Spec (sp_next sp) (sp_flying sp) true) Hf eq_refl) as (sp & H1 & H2 & H3 & H4 & Hm).
  { intros sp H1 H2 H3 H4. simpl. by rewrite H2. }
  by exists (Spec (sp_next sp) (sp_flying sp) true).
Qed.

(** The log of a finished sweep is one the specification allows. *)
Definition sweep_allowed (t : list event) : Prop :=
  ∃ sp, monitor_all ips max spec_start (labels t) = Some sp ∧ spec_over ips sp.

Lemma follows_allowed t next st k stopped :
  follows t next st k stopped → k = 0 → stopped = true ∨ next = length ips → sweep_allowed t.
Proof.
  intros (sp & Hm & H1 & H2 & H3 & H4) -> Ho. exists sp. split; [done|]. split; [|by subst].
  apply size_empty_inv in H4 as Hz || (assert (size (sp_flying sp) = 0%nat) as Hz by lia;
    apply size_empty_inv in Hz; set_solver).
Qed.

Lemma labels_stop t : LStop ∈ labels t ↔ stop_seen t.
Proof.
  unfold stop_seen. induction t as [|ev t IH]; [split; by intros ?%elem_of_nil|].
  change (labels (ev :: t)) with (label_of ev ++ labels t).
  rewrite elem_of_app, elem_of_cons, IH. assert (LStop ∈ label_of ev ↔ Ev StopRequested true = ev) as ->;
    [|done].
  split.
  - destruct ev as [A c r]. destruct c; simpl; try (intros ?%elem_of_nil; done).
    + destruct r; [intros ?%list_elem_of_singleton; done|intros ?%elem_of_nil; done].
    + destruct (echo2_pends _ _); [intros ?%elem_of_nil; done|intros ?%list_elem_of_singleton; done].
    + intros ?%list_elem_of_singleton. done.
    + destruct r; [done|intros ?%elem_of_nil; done].
  - intros <-. apply list_elem_of_here.
Qed.

(** Every host once, or none of the late ones after a stop. *)
Lemma allowed_once t :
  sweep_allowed t →
  ∃ n, (pinged t).*1 ≡ₚ seq 0 n ∧ (n ≤ length ips)%nat ∧ (n = length ips ∨ stop_seen t).
Proof.
  intros (sp & Hm & Ho). destruct (spec_over_fates _ _ _ _ Hm Ho) as (Hf & Hn & Hs).
  exists (sp_next sp). rewrite <- fates_labels, <- labels_stop. done.
Qed.
End Follows.
