(* ===== verification/IcmpSweep.v ===== *)
(** * icmp_ping.c, Linux and macOS: the ping sweep

    [icmp_ping_sweep] as one definition per loop of the C function.  The
    sweep's local variables are the record [sweep]; the observer's two
    callbacks are requests to the environment.  A round of the outer
    [for (;;)] is [sweep_round]; only it and the receive loop need fuel. *)
From S2P Require Import Prelude Words Sys Script NsSocket IcmpWire SweepSpec.
Open Scope Z_scope.

Inductive send_outcome := SEND_OK | SEND_BUSY | SEND_FAILED.

#[export] Instance send_outcome_eq_dec : EqDecision send_outcome.
Proof. solve_decision. Defined.

Definition ECHOES_PER_SOCKET : Z := 32.
Definition MAX_SOCKETS : Z := 16.
Definition BUSY_GIVE_UP_MS : Z := 5000.
Definition POLLIN : Z := 1.

(** The local variables of the sweep. *)
Record sweep := Sweep {
  sw_state : list host_state;
  sw_sent_at : list Z;
  sw_next : nat;       (* the next host to send to *)
  sw_oldest : nat;     (* every host below this one is reported *)
  sw_in_flight : Z;
  sw_stopped : bool;
  sw_busy_since : Z    (* when [next] first found every socket full, or -1 *)
}.

(** The assignments of the loop bodies. *)
Definition reported (i : nat) (s : sweep) : sweep :=
  Sweep (<[i := STATE_REPORTED]> (sw_state s)) (sw_sent_at s) (sw_next s) (sw_oldest s)
    (sw_in_flight s) (sw_stopped s) (sw_busy_since s).
Definition landed (s : sweep) : sweep :=
  Sweep (sw_state s) (sw_sent_at s) (sw_next s) (sw_oldest s)
    (u64 (sw_in_flight s - 1)) (sw_stopped s) (sw_busy_since s).
Definition passed (s : sweep) : sweep :=
  Sweep (sw_state s) (sw_sent_at s) (sw_next s) (S (sw_oldest s))
    (sw_in_flight s) (sw_stopped s) (sw_busy_since s).
Definition launched (now : Z) (s : sweep) : sweep :=
  Sweep (<[sw_next s := STATE_IN_FLIGHT]> (sw_state s)) (<[sw_next s := now]> (sw_sent_at s))
    (sw_next s) (sw_oldest s) (u64 (sw_in_flight s + 1)) (sw_stopped s) (sw_busy_since s).
Definition next_host (s : sweep) : sweep :=
  Sweep (sw_state s) (sw_sent_at s) (S (sw_next s)) (sw_oldest s)
    (sw_in_flight s) (sw_stopped s) (sw_busy_since s).
Definition busy_from (b : Z) (s : sweep) : sweep :=
  Sweep (sw_state s) (sw_sent_at s) (sw_next s) (sw_oldest s) (sw_in_flight s) (sw_stopped s) b.
Definition stop (b : bool) (s : sweep) : sweep :=
  Sweep (sw_state s) (sw_sent_at s) (sw_next s) (sw_oldest s) (sw_in_flight s) b (sw_busy_since s).

Section IcmpSweep.
Context {E : Type} `{Env E}.
Variable os : platform.

Definition now_ms : M E Z :=
  ts ← ask ClockMonotonic;
  mret (tv_sec ts * 1000 + Z.quot (tv_nsec ts) 1000000).

(** state[index] = STATE_REPORTED; observer->pinged(ctx, index, answered) *)
Definition report (index : nat) (answered : bool) (s : sweep) : M E sweep :=
  ask (Pinged index answered);; mret (reported index s).

Definition send_echo (sock : Z) (ip : ip4) (ident token : Z) (index : nat) : M E send_outcome :=
  r ← ask (SendTo sock (echo_packet ident token (Z.of_nat index)) (SA AF_INET ip 0));
  match r with
  | Ok _ => mret SEND_OK
  | Err e =>
    if (e =? EAGAIN os) || (e =? EWOULDBLOCK os) || (e =? ENOBUFS os) || (e =? EINTR)
    then mret SEND_BUSY else mret SEND_FAILED
  end.

Definition open_socket : M E (option Z) :=
  r ← ask (Socket IcmpSock);
  match r with
  | Err _ => mret None
  | Ok sock =>
    flags ← ask (FcntlGetFl sock);
    match flags with
    | Err _ => ask (CloseSock sock);; mret None
    | Ok flags =>
      r ← ask (FcntlSetFl sock (Z.lor flags (O_NONBLOCK os)));
      match r with
      | Err _ => ask (CloseSock sock);; mret None
      | Ok _ =>
        ask (SetOpt sock (OptRcvBuf (Z.shiftl 1 20)));;
        ask (SetOpt sock (OptSndBuf (Z.shiftl 1 20)));;
        mret (Some sock)
      end
    end
  end.

(** while (nsocks < wanted) { ... if (sock < 0) break; ... } *)
Fixpoint open_sockets (wanted : nat) (socks : list Z) : M E (list Z) :=
  match wanted with
  | O => mret socks
  | S wanted =>
    sock ← open_socket;
    match sock with
    | None => mret socks
    | Some sock => open_sockets wanted (socks ++ [sock])
    end
  end.

(** for (i = 0; i < nsocks; i++) close(socks[i].fd) *)
Fixpoint close_all (socks : list Z) : M E unit :=
  match socks with
  | [] => mret ()
  | s :: socks => ask (CloseSock s);; close_all socks
  end.

Section Round.
(** What stays fixed while the sweep runs. *)
Variables (ips : list ip4) (timeout_ms max_in_flight ident token started : Z) (socks : list Z).

Definition sent_at (s : sweep) (i : nat) : Z := default 0 (sw_sent_at s !! i).
Definition count : nat := length ips.

(** while (oldest < next) ...; [n] is next - oldest. *)
Fixpoint expire (n : nat) (now : Z) (s : sweep) : M E sweep :=
  match n with
  | O => mret s
  | S n =>
    if negb (sw_oldest s <? sw_next s)%nat then mret s
    else if bool_decide (sw_state s !! sw_oldest s = Some STATE_IN_FLIGHT) then
      if now <? sent_at s (sw_oldest s) + timeout_ms then mret s
      else
        s ← report (sw_oldest s) false s;
        expire n now (passed (landed s))
    else expire n now (passed s)
  end.

Definition check_stop (s : sweep) : M E sweep :=
  if sw_stopped s then mret s
  else requested ← ask StopRequested; mret (stop requested s).

(** for (k = 0; k < nsocks && sent == SEND_BUSY; k++) *)
Fixpoint try_sockets (ks : list nat) (ip : ip4) (next : nat) : M E send_outcome :=
  match ks with
  | [] => mret SEND_BUSY
  | k :: ks =>
    sent ← send_echo (default (-1) (socks !! ((next + k) `mod` length socks)%nat)) ip ident token next;
    match sent with
    | SEND_BUSY => try_sockets ks ip next
    | _ => mret sent
    end
  end.

(** while (!stopped && next < count && in_flight < max_in_flight && budget > 0);
    the answer says whether the loop broke off busy. *)
Fixpoint send_loop (budget : nat) (now : Z) (s : sweep) : M E (sweep * bool) :=
  match budget with
  | O => mret (s, false)
  | S budget =>
    match ips !! sw_next s with
    | None => mret (s, false)
    | Some ip =>
      if sw_stopped s || negb (sw_in_flight s <? max_in_flight) then mret (s, false)
      else
        sent ← try_sockets (seq 0 (length socks)) ip (sw_next s);
        match sent with
        | SEND_BUSY =>
          let since := if sw_busy_since s <? 0 then now else sw_busy_since s in
          if now - since <? BUSY_GIVE_UP_MS then mret (busy_from since s, true)
          else
            s ← report (sw_next s) false (busy_from (-1) s);
            send_loop budget now (next_host s)
        | SEND_OK => send_loop budget now (next_host (launched now (busy_from (-1) s)))
        | SEND_FAILED =>
          s ← report (sw_next s) false (busy_from (-1) s);
          send_loop budget now (next_host s)
        end
    end
  end.

Definition wait_ms (now : Z) (busy : bool) (s : sweep) : Z :=
  let wait := timeout_ms in
  let wait :=
    if (sw_oldest s <? sw_next s)%nat
    then i32 (sent_at s (sw_oldest s) + timeout_ms - now) else wait in
  let wait :=
    if negb (sw_stopped s) && (sw_next s <? count)%nat
       && (busy || (sw_in_flight s <? max_in_flight))
    then 1 else wait in
  if wait <? 0 then 0 else wait.

(** for (;;) { recvfrom ... }: take every waiting datagram of a socket. *)
Definition drain_round (sock : Z) (s : sweep) : M E (sweep + sweep) :=
  r ← ask (RecvFrom sock 512);
  match r with
  | Err e => if e =? EINTR then mret (inl s) else mret (inr s)
  | Ok (data, from) =>
    let index := match_reply os (buffer 512 data) (sa_ip from) ident token ips in
    if (index <? 0) || negb (bool_decide (sw_state s !! Z.to_nat index = Some STATE_IN_FLIGHT))
    then mret (inl s)
    else
      s ← report (Z.to_nat index) true s;
      mret (inl (landed s))
  end.

(** for (i = 0; i < nsocks; i++) if (socks[i].revents & POLLIN) ... *)
Fixpoint drain_sockets (fuel : nat) (ready : list (Z * Z)) (s : sweep) : M E sweep :=
  match ready with
  | [] => mret s
  | (sock, revents) :: ready =>
    s ← (if Z.land revents POLLIN =? 0 then mret s else loop fuel (drain_round sock) s);
    drain_sockets fuel ready s
  end.

(** One round of the outer for (;;): [inr] leaves it. *)
Definition sweep_round (fuel : nat) (s : sweep) : M E (sweep + sweep) :=
  now ← now_ms;
  s ← expire (sw_next s - sw_oldest s) now s;
  s ← check_stop s;
  '(s, busy) ← send_loop (Z.to_nat (send_budget (now - started) (Z.of_nat (sw_next s)))) now s;
  if (sw_in_flight s =? 0) && (sw_stopped s || (sw_next s =? count)%nat) then mret (inr s)
  else
    r ← ask (Poll socks (wait_ms now busy s));
    match r with
    | Err _ => mret (inl s)
    | Ok revents =>
      let revents := resize (length socks) 0 revents in
      if (countb (λ r, negb (r =? 0)%Z) revents =? 0)%nat then mret (inl s)
      else
        s ← drain_sockets fuel (zip socks revents) s;
        mret (inl s)
    end.
End Round.

(** calloc'ed states, whatever malloc left in sent_at[]. *)
Definition sweep_start (count : nat) (garbage : list Z) : sweep :=
  Sweep (replicate count STATE_WAITING) (resize count 0 garbage) 0 0 0 false (-1).

Definition sweep_token (nsec pid : Z) (count : nat) : Z :=
  Z.lxor (Z.lxor (u32 nsec) (u32 (Z.shiftl (u32 pid) 16))) (u32 (Z.of_nat count)).

Definition wanted_sockets (max_in_flight : Z) : Z :=
  Z.min MAX_SOCKETS (u64 (max_in_flight + ECHOES_PER_SOCKET - 1) / ECHOES_PER_SOCKET).

(** What the sweep sets up before its loop. *)
Record setup := Setup {
  su_socks : list Z; su_state : Z; su_sent : Z; su_started : Z; su_ident : Z; su_token : Z
}.

(** From opening the sockets to the token; [inl] is an early return. *)
Definition sweep_setup (count : nat) (max_in_flight : Z) : M E (icmp_ping_result + setup) :=
  socks ← open_sockets (Z.to_nat (wanted_sockets max_in_flight)) [];
  if (length socks =? 0)%nat then mret (inl ICMP_PING_UNAVAILABLE)
  else
    state ← ask (Malloc (Z.of_nat count));
    sent ← ask (Malloc (u64 (Z.of_nat count * 8)));
    match state, sent with
    | Some state, Some sent =>
      started ← now_ms;
      pid ← ask GetPid;
      seed ← ask ClockRealtime;
      pid' ← ask GetPid;
      mret (inr (Setup socks state sent started (u16 pid)
                   (sweep_token (tv_nsec seed) pid' count)))
    | _, _ =>
      free_opt state;;
      free_opt sent;;
      close_all socks;;
      mret (inl ICMP_PING_NO_MEMORY)
    end.

(** The loop of rounds from its first. *)
Definition sweep_rounds (fuel : nat) (garbage : list Z) (ips : list ip4)
    (timeout_ms max_in_flight : Z) (su : setup) : M E sweep :=
  loop fuel
    (sweep_round ips timeout_ms max_in_flight (su_ident su) (su_token su) (su_started su)
       (su_socks su) fuel)
    (sweep_start (length ips) garbage).

(** [garbage] is what the memory of sent_at[] held before. *)
Definition icmp_ping_sweep (fuel : nat) (garbage : list Z) (ips : list ip4)
    (timeout_ms max_in_flight : Z) : M E icmp_ping_result :=
  if (length ips =? 0)%nat then mret ICMP_PING_DONE
  else
    let max_in_flight := if max_in_flight =? 0 then 1 else max_in_flight in
    su ← sweep_setup (length ips) max_in_flight;
    match su with
    | inl r => mret r
    | inr su =>
      sweep_rounds fuel garbage ips timeout_ms max_in_flight su;;
      ask (Free (su_sent su));;
      ask (Free (su_state su));;
      close_all (su_socks su);;
      mret ICMP_PING_DONE
    end.
End IcmpSweep.

(** ** What a log says about the hosts *)

Definition is_in_flight (h : host_state) : bool := bool_decide (h = STATE_IN_FLIGHT).

Section Invariant.
Variables (os : platform) (ips : list ip4) (max_in_flight ident token : Z).

(** Host [i] was heard: a datagram in the log is its echo reply. *)
Definition heard (t : list event) (i : nat) : Prop :=
  ∃ sock data from, Ev (RecvFrom sock 512) (Ok (data, from)) ∈ t ∧
    answers os ident token ips (sa_ip from) i (buffer 512 data).

(** What every step of the sweep keeps: the counter matches the states,
    hosts below [oldest] are reported and hosts from [next] on are
    untouched, the log's reports are exactly the reported hosts, each
    once, and a host reported as answering was heard. *)
Record sweep_inv (s : sweep) (t : list event) : Prop := {
  inv_state : length (sw_state s) = length ips;
  inv_sent : length (sw_sent_at s) = length ips;
  inv_next : (sw_oldest s ≤ sw_next s ≤ length ips)%nat;
  inv_done : ∀ i, (i < sw_oldest s)%nat → sw_state s !! i = Some STATE_REPORTED;
  inv_waiting : ∀ i, (sw_next s ≤ i)%nat → ∀ h, sw_state s !! i = Some h → h = STATE_WAITING;
  inv_started : ∀ i, (i < sw_next s)%nat → sw_state s !! i ≠ Some STATE_WAITING;
  inv_in_flight : sw_in_flight s = Z.of_nat (countb is_in_flight (sw_state s));
  inv_max : sw_in_flight s <= max_in_flight;
  inv_nodup : NoDup (pinged t).*1;
  inv_pinged : ∀ i, i ∈ (pinged t).*1 ↔ sw_state s !! i = Some STATE_REPORTED;
  inv_heard : ∀ i, (i, true) ∈ pinged t → heard t i;
  inv_stop : sw_stopped s = true → stop_seen t;
  inv_spec : follows ips max_in_flight t (sw_next s) (sw_state s) (sw_in_flight s) (sw_stopped s)
}.

Lemma heard_app t u i : heard t i → heard (t ++ u) i.
Proof. intros (sock & data & from & Ht & Ha). exists sock, data, from. set_solver. Qed.

(** Events that show nothing change nothing. *)
Lemma inv_quiet s t u : labels u = [] → sweep_inv s t → sweep_inv s (t ++ u).
Proof.
  intros Hl []. pose proof (labels_pinged _ Hl) as Hu. split; try done; rewrite ?pinged_app, ?Hu, ?app_nil_r; try done.
  - intros i Hi. by apply heard_app, inv_heard0.
  - unfold stop_seen in *. set_solver.
  - by apply follows_quiet.
Qed.

Lemma inv_busy b s t : sweep_inv s t → sweep_inv (busy_from b s) t.
Proof. intros []. by split. Qed.

(** size_t counts hosts: the counter of echoes in flight never wraps. *)
Hypothesis Hcount : Z.of_nat (length ips) < 18446744073709551616.

Lemma in_flight_range s t :
  sweep_inv s t → 0 <= sw_in_flight s < 18446744073709551616.
Proof.
  intros Hi. rewrite (inv_in_flight _ _ Hi). pose proof (countb_le is_in_flight (sw_state s)).
  rewrite (inv_state _ _ Hi) in *. lia.
Qed.

(** Dropping a host out of flight. *)
Lemma in_flight_land i (st : list host_state) :
  st !! i = Some STATE_IN_FLIGHT →
  Z.of_nat (countb is_in_flight (<[i := STATE_REPORTED]> st)) =
  Z.of_nat (countb is_in_flight st) - 1.
Proof. intros Hi. pose proof (countb_insert is_in_flight st i STATE_REPORTED _ Hi). simpl in *. lia. Qed.

Lemma inv_land i a s t :
  sweep_inv s t → sw_state s !! i = Some STATE_IN_FLIGHT → (a = true → heard t i) →
  sweep_inv (landed (reported i s)) (t ++ [Ev (Pinged i a) ()]).
Proof.
  intros Hi Hf Ha. pose proof (in_flight_range _ _ Hi) as Hr.
  assert (i < sw_next s)%nat as Hlt.
  { destruct (decide (i < sw_next s)%nat); [done|].
    by discriminate (inv_waiting _ _ Hi i ltac:(lia) _ Hf). }
  assert (i < length (sw_state s))%nat as Hlen by eauto with netscan.
  pose proof (countb_pos is_in_flight _ _ _ Hf eq_refl) as Hpos.
  pose proof (in_flight_land _ _ Hf) as Hc.
  assert (u64 (sw_in_flight s - 1) = sw_in_flight s - 1) as Hu.
  { apply u64_id. unfold is_u64. rewrite (inv_in_flight _ _ Hi) in *. lia. }
  destruct Hi. split; simpl; rewrite ?length_insert; try done.
  - intros j Hj. rewrite list_lookup_insert_ne; [auto|]. intros ->.
    rewrite (inv_done0 _ Hj) in Hf. done.
  - intros j Hj h Hh. rewrite list_lookup_insert_ne in Hh by lia. eauto.
  - intros j Hj. destruct (decide (i = j)) as [->|].
    + by rewrite list_lookup_insert_eq.
    + rewrite list_lookup_insert_ne by done. auto.
  - rewrite Hu, inv_in_flight0, Hc. done.
  - rewrite Hu. lia.
  - rewrite pinged_app, fmap_app. simpl. apply NoDup_app. split; [done|].
    split; [|apply NoDup_singleton]. intros j Hj Hj'. apply list_elem_of_singleton in Hj' as ->.
    apply inv_pinged0 in Hj. congruence.
  - intros j. rewrite pinged_app, fmap_app, elem_of_app, inv_pinged0. simpl.
    rewrite list_elem_of_singleton. destruct (decide (i = j)) as [->|].
    + rewrite list_lookup_insert_eq by done. naive_solver.
    + rewrite list_lookup_insert_ne by done. naive_solver.
  - intros j. rewrite pinged_app, elem_of_app. simpl. rewrite list_elem_of_singleton.
    intros [Hj|Hj]; [by apply heard_app, inv_heard0|]. simplify_eq. by apply heard_app, Ha.
  - intros Hs. specialize (inv_stop0 Hs). unfold stop_seen in *. set_solver.
  - rewrite Hu. by apply follows_landed.
Qed.

Lemma inv_passed s t :
  sweep_inv s t → (sw_oldest s < sw_next s)%nat →
  sw_state s !! sw_oldest s ≠ Some STATE_IN_FLIGHT → sweep_inv (passed s) t.
Proof.
  intros Hi Hlt Hf. assert (sw_state s !! sw_oldest s = Some STATE_REPORTED) as Hr.
  { assert (is_Some (sw_state s !! sw_oldest s)) as [[] Hh]; [|by destruct (inv_started _ _ Hi _ Hlt)|done|done].
    apply lookup_lt_is_Some_2. rewrite (inv_state _ _ Hi). pose proof (inv_next _ _ Hi). lia. }
  destruct Hi. split; simpl; try done; [lia|].
  intros i Hi. destruct (decide (i = sw_oldest s)) as [->|]; [done|]. apply inv_done0. lia.
Qed.

Lemma inv_check_stop b s t :
  sw_stopped s = false → sweep_inv s t → sweep_inv (stop b s) (t ++ [Ev StopRequested b]).
Proof.
  intros Hs []. split; try done; rewrite ?pinged_app, ?app_nil_r; try done.
  - intros i Hi. by apply heard_app, inv_heard0.
  - simpl. intros ->. unfold stop_seen. set_solver.
  - rewrite Hs in inv_spec0. by apply follows_stop.
Qed.

Lemma waiting_next s t :
  sweep_inv s t → (sw_next s < length ips)%nat → sw_state s !! sw_next s = Some STATE_WAITING.
Proof.
  intros Hi Hlt. assert (is_Some (sw_state s !! sw_next s)) as [h Hh].
  { apply lookup_lt_is_Some_2. by rewrite (inv_state _ _ Hi). }
  by rewrite Hh, (inv_waiting _ _ Hi _ (le_n _) _ Hh).
Qed.

(** Filling the slot of [next] with a state that is not WAITING. *)
Lemma inv_next_slots s t h :
  sweep_inv s t → (sw_next s < length ips)%nat → h ≠ STATE_WAITING →
  let st := <[sw_next s := h]> (sw_state s) in
  (∀ i, (i < sw_oldest s)%nat → st !! i = Some STATE_REPORTED) ∧
  (∀ i, (S (sw_next s) ≤ i)%nat → ∀ h, st !! i = Some h → h = STATE_WAITING) ∧
  (∀ i, (i < S (sw_next s))%nat → st !! i ≠ Some STATE_WAITING).
Proof.
  intros Hi Hlt Hh st. pose proof (inv_next _ _ Hi) as Hn.
  assert (sw_next s < length (sw_state s))%nat as Hlen by by rewrite (inv_state _ _ Hi).
  subst st. splits.
  - intros i Hio. rewrite list_lookup_insert_ne by lia. by apply (inv_done _ _ Hi).
  - intros i Hio h' Hh'. rewrite list_lookup_insert_ne in Hh' by lia.
    apply (inv_waiting _ _ Hi i); [lia|done].
  - intros i Hio. destruct (decide (i = sw_next s)) as [->|].
    + rewrite list_lookup_insert_eq by done. congruence.
    + rewrite list_lookup_insert_ne by done. apply (inv_started _ _ Hi). lia.
Qed.

Lemma inv_launch now ip s t u :
  sweep_inv s t → ips !! sw_next s = Some ip → labels u = [LSent ip] → sw_stopped s = false →
  sw_in_flight s < max_in_flight → sweep_inv (next_host (launched now s)) (t ++ u).
Proof.
  intros Hi Hip Hu' Hgo Hmax. assert (sw_next s < length ips)%nat as Hlt by eauto with netscan.
  assert (pinged u = []) as Hpu by (rewrite <- fates_labels, Hu'; done). pose proof (waiting_next _ _ Hi Hlt) as Hw.
  pose proof (in_flight_range _ _ Hi) as Hr.
  destruct (inv_next_slots s t STATE_IN_FLIGHT Hi Hlt ltac:(done)) as (H1 & H2 & H3).
  pose proof (countb_insert is_in_flight _ _ STATE_IN_FLIGHT _ Hw) as Hc.
  pose proof (countb_le is_in_flight (<[sw_next s := STATE_IN_FLIGHT]> (sw_state s))) as Hle.
  rewrite length_insert, (inv_state _ _ Hi) in Hle.
  assert (u64 (sw_in_flight s + 1) = sw_in_flight s + 1) as Hu.
  { apply u64_id. unfold is_u64. rewrite (inv_in_flight _ _ Hi) in *. simpl in Hc. lia. }
  destruct Hi. split; simpl; rewrite ?length_insert, ?Hu, ?pinged_app, ?Hpu, ?app_nil_r; try done; try lia.
  - rewrite inv_in_flight0. simpl in Hc. lia.
  - intros i. rewrite inv_pinged0. destruct (decide (i = sw_next s)) as [->|].
    + rewrite list_lookup_insert_eq by by rewrite inv_state0. naive_solver congruence.
    + by rewrite list_lookup_insert_ne.
  - intros i Hi. by apply heard_app, inv_heard0.
  - rewrite Hgo. done.
  - rewrite Hgo in *. eapply follows_sent; try done; [by rewrite inv_state0|congruence].
Qed.

Lemma inv_fail s t :
  sweep_inv s t → (sw_next s < length ips)%nat → sw_stopped s = false →
  sweep_inv (next_host (reported (sw_next s) s)) (t ++ [Ev (Pinged (sw_next s) false) ()]).
Proof.
  intros Hi Hlt Hgo. pose proof (waiting_next _ _ Hi Hlt) as Hw.
  destruct (inv_next_slots s t STATE_REPORTED Hi Hlt ltac:(done)) as (H1 & H2 & H3).
  pose proof (countb_insert is_in_flight _ _ STATE_REPORTED _ Hw) as Hc.
  assert (sw_next s < length (sw_state s))%nat as Hlen by by rewrite (inv_state _ _ Hi).
  destruct Hi. split; simpl; rewrite ?length_insert; try done; try lia.
  - rewrite inv_in_flight0. simpl in Hc. lia.
  - rewrite pinged_app, fmap_app. simpl. apply NoDup_app. split; [done|].
    split; [|apply NoDup_singleton]. intros j Hj Hj'. apply list_elem_of_singleton in Hj' as ->.
    apply inv_pinged0 in Hj. congruence.
  - intros j. rewrite pinged_app, fmap_app, elem_of_app, inv_pinged0. simpl.
    rewrite list_elem_of_singleton. destruct (decide (j = sw_next s)) as [->|].
    + rewrite list_lookup_insert_eq by done. naive_solver.
    + rewrite list_lookup_insert_ne by done. naive_solver.
  - intros j. rewrite pinged_app, elem_of_app. simpl. rewrite list_elem_of_singleton.
    intros [Hj|Hj]; [by apply heard_app, inv_heard0|]. by simplify_eq.
  - congruence.
  - rewrite Hgo in *. apply follows_failed; [done|done|congruence|done].
Qed.

Lemma inv_start garbage :
  0 <= max_in_flight → sweep_inv (sweep_start (length ips) garbage) [].
Proof.
  intros Hm. split; simpl; rewrite ?length_replicate, ?length_resize; try done; try lia.
  - intros i _ h Hh. by apply lookup_replicate in Hh as [-> _].
  - by rewrite countb_replicate.
  - constructor.
  - intros i. rewrite lookup_replicate. set_solver.
  - set_solver.
  - apply follows_start.
Qed.
End Invariant.

(** ** Every step keeps the invariant *)

Section Steps.
Context {E : Type} `{Env E}.
Variables (os : platform) (ips : list ip4).
Variables (timeout_ms max_in_flight ident token started : Z) (socks : list Z).
Hypothesis Hcount : Z.of_nat (length ips) < 18446744073709551616.

Let inv := sweep_inv os ips max_in_flight ident token.

Lemma step_expire n now s e t s' e' u :
  inv s t → expire timeout_ms n now s e = Some (s', e', u) → inv s' (t ++ u).
Proof.
  revert s e t s' e' u. induction n as [|n IH]; intros s e t s' e' u Hi Hr; cbn [expire] in Hr.
  { run_inv. by rewrite app_nil_r. }
  destruct (negb (sw_oldest s <? sw_next s)%nat) eqn:Hlt; [run_inv; by rewrite app_nil_r|]. to_prop.
  destruct (bool_decide _) eqn:Hf; to_prop.
  - destruct (now <? _) eqn:Hnow; [run_inv; by rewrite app_nil_r|].
    unfold report in Hr. run_inv. rewrite !app_nil_r, app_assoc. eapply IH; [|done].
    apply inv_passed; simpl; [|done|].
    + by apply inv_land.
    + rewrite list_lookup_insert_eq by eauto with netscan. done.
  - eapply IH; [|done]. by apply inv_passed.
Qed.

Lemma step_check_stop s e t s' e' u :
  inv s t → check_stop s e = Some (s', e', u) → inv s' (t ++ u).
Proof.
  intros Hi Hr. unfold check_stop in Hr. run_inv; rewrite ?app_nil_r; [done|].
  by apply inv_check_stop.
Qed.

Lemma try_sockets_labels ks ip next e sent e' u :
  try_sockets os ident token socks ks ip next e = Some (sent, e', u) →
  labels u = match sent with SEND_OK => [LSent ip] | _ => [] end.
Proof.
  revert e u. induction ks as [|k ks IH]; intros e u Hr; cbn [try_sockets] in Hr; [by run_inv|].
  unfold send_echo in Hr. run_inv; rewrite ?labels_app; simpl; rewrite ?app_nil_r; eauto.
Qed.

Lemma step_send_loop budget now s e t s' busy e' u :
  inv s t →
  send_loop os ips max_in_flight ident token socks budget now s e = Some ((s', busy), e', u) →
  inv s' (t ++ u).
Proof.
  revert s e t u. induction budget as [|budget IH]; intros s e t u Hi Hr; cbn [send_loop] in Hr.
  { run_inv. by rewrite app_nil_r. }
  destruct (ips !! sw_next s) as [ip|] eqn:Hip; [|run_inv; by rewrite app_nil_r].
  assert (sw_next s < length ips)%nat as Hlt by eauto with netscan.
  destruct (sw_stopped s || _) eqn:Hgo; [run_inv; by rewrite app_nil_r|]. to_prop.
  apply bind_inv in Hr as (sent & e1 & t1 & t2 & Hsend & Hr & ->).
  apply try_sockets_labels in Hsend as Hq. rewrite app_assoc.
  destruct sent.
  - eapply IH; [|done]. eapply inv_launch; [done|by apply inv_busy|done..].
  - apply (inv_quiet _ _ _ _ _ s t t1 Hq) in Hi.
    case_test; [run_inv; rewrite app_nil_r; by apply inv_busy|].
    unfold report in Hr. run_inv. rewrite app_nil_r, app_assoc. eapply IH; [|done].
    by apply inv_fail with (s := busy_from (-1) s); [apply inv_busy|..].
  - apply (inv_quiet _ _ _ _ _ s t t1 Hq) in Hi.
    unfold report in Hr. run_inv. rewrite app_nil_r, app_assoc. eapply IH; [|done].
    by apply inv_fail with (s := busy_from (-1) s); [apply inv_busy|..].
Qed.

Lemma step_drain_round sock s e t x e' u :
  inv s t → drain_round os ips ident token sock s e = Some (x, e', u) →
  match x with inl s' => inv s' (t ++ u) | inr s' => inv s' (t ++ u) end.
Proof.
  intros Hi Hr. unfold drain_round, report in Hr. run_inv; rewrite ?app_nil_r;
    try by apply inv_quiet.
  to_prop. rewrite app_assoc. apply inv_land; [done|by apply inv_quiet|done|].
  intros _. eexists sock, _, _. split; [apply elem_of_app; right; by apply list_elem_of_singleton|].
  apply match_reply_answers; [apply bytes_buffer|]. by rewrite Z2Nat.id.
Qed.

Lemma step_drain_sockets fuel ready s e t s' e' u :
  inv s t → drain_sockets os ips ident token fuel ready s e = Some (s', e', u) → inv s' (t ++ u).
Proof.
  revert s e t u. induction ready as [|[sock revents] ready IH]; intros s e t u Hi Hr;
    cbn [drain_sockets] in Hr; [run_inv; by rewrite app_nil_r|].
  apply bind_inv in Hr as (s1 & e1 & t1 & t2 & Hd & Hr & ->). rewrite app_assoc.
  eapply IH; [|done]. destruct (Z.land revents POLLIN =? 0); [run_inv; by rewrite app_nil_r|].
  eapply (loop_invariant (λ s _ t, inv s t) (λ s _ t, inv s t)); [| |done|done].
  - intros ? ? ? ? ? ? Hi' Hb. by apply (step_drain_round _ _ _ _ _ _ _ Hi' Hb).
  - intros ? ? ? ? ? ? Hi' Hb. by apply (step_drain_round _ _ _ _ _ _ _ Hi' Hb).
Qed.

(** Where a finished sweep stands: nothing in flight, and every host
    sent to unless a stop was asked for. *)
Definition sweep_over (s : sweep) : Prop :=
  sw_in_flight s = 0 ∧ (sw_stopped s = true ∨ sw_next s = length ips).

Lemma step_sweep_round fuel s e t x e' u :
  inv s t →
  sweep_round os ips timeout_ms max_in_flight ident token started socks fuel s e = Some (x, e', u) →
  match x with
  | inl s' => inv s' (t ++ u)
  | inr s' => inv s' (t ++ u) ∧ sweep_over s'
  end.
Proof.
  intros Hi Hr. unfold sweep_round in Hr.
  apply bind_inv in Hr as (now & e1 & u1 & v1 & Hnow & Hr & ->).
  apply bind_inv in Hr as (s2 & e2 & u2 & v2 & Hexp & Hr & ->).
  apply bind_inv in Hr as (s3 & e3 & u3 & v3 & Hstop & Hr & ->).
  apply bind_inv in Hr as ([s4 busy] & e4 & u4 & v4 & Hsend & Hr & ->).
  assert (inv s (t ++ u1)) as Hi1.
  { apply inv_quiet; [|done]. unfold now_ms in Hnow. by run_inv. }
  pose proof (step_expire _ _ _ _ _ _ _ _ Hi1 Hexp) as Hi2.
  pose proof (step_check_stop _ _ _ _ _ _ Hi2 Hstop) as Hi3.
  pose proof (step_send_loop _ _ _ _ _ _ _ _ _ Hi3 Hsend) as Hi4.
  rewrite !app_assoc. case_test.
  { run_inv. rewrite app_nil_r. split; [done|]. split; [done|].
    rename select (_ ∨ _) into Hend. destruct Hend; to_prop; [by left|by right]. }
  apply bind_inv in Hr as (r & e5 & u5 & v5 & Hpoll & Hr & ->).
  apply (inv_quiet _ _ _ _ _ _ _ u5) in Hi4; [|by run_inv]. rewrite !app_assoc.
  destruct r as [revents|]; [|run_inv; by rewrite app_nil_r].
  case_test; [run_inv; by rewrite app_nil_r|]. run_inv. rewrite app_nil_r.
  by eapply step_drain_sockets.
Qed.
End Steps.

(** ** The whole sweep *)

Section Resources.
Context {E : Type} `{Env E}.
Variable os : platform.

Lemma open_socket_quiet : logs quiet (open_socket (E := E) os).
Proof. unfold open_socket. solve_logs. Qed.

Lemma open_sockets_quiet n socks : logs quiet (open_sockets (E := E) os n socks).
Proof.
  revert socks. induction n as [|n IH]; intros socks; cbn [open_sockets]; [apply logs_ret|].
  apply logs_bind; [apply open_socket_quiet|]. intros [sock|]; [apply IH|apply logs_ret].
Qed.

Lemma close_all_quiet socks : logs quiet (close_all (E := E) socks).
Proof. induction socks; cbn [close_all]; solve_logs. Qed.

Lemma open_socket_keeps e r e' t :
  open_socket os e = Some (r, e', t) →
  keeps_from [] t (match r with Some s => [RSock s] | None => [] end).
Proof. intros Hr. unfold open_socket in Hr. run_inv; solve_keeps. Qed.

Lemma open_sockets_keeps n socks e socks' e' t :
  open_sockets os n socks e = Some (socks', e', t) →
  keeps_from (map RSock socks) t (map RSock socks').
Proof.
  revert socks e t. induction n as [|n IH]; intros socks e t Hr; cbn [open_sockets] in Hr.
  { run_inv. apply keeps_from_nil. }
  apply bind_inv in Hr as (r & e1 & t1 & t2 & Ho & Hr & ->).
  apply open_socket_keeps in Ho. apply (keeps_from_frame (map RSock socks)) in Ho.
  rewrite app_nil_r in Ho. eapply keeps_from_app; [exact Ho|]. destruct r as [sock|].
  - apply IH in Hr. by rewrite map_app in Hr.
  - run_inv. rewrite app_nil_r. apply keeps_from_nil.
Qed.

Lemma close_all_keeps socks e r e' t :
  close_all socks e = Some (r, e', t) → keeps_from (map RSock socks) t [].
Proof.
  revert e t. induction socks as [|s socks IH]; intros e t Hr; cbn [close_all] in Hr.
  { run_inv. apply keeps_from_nil. }
  run_inv. apply (keeps_from_app _ [_] (map RSock socks)); [solve_keeps|]. by eapply IH.
Qed.

Lemma free_opt_quiet p : logs quiet (free_opt (E := E) p).
Proof. unfold free_opt. solve_logs. Qed.
End Resources.

Lemma now_ms_quiet {E} `{Env E} : logs quiet (now_ms (E := E)).
Proof. unfold now_ms. solve_logs. Qed.
#[export] Hint Resolve now_ms_quiet open_socket_quiet open_sockets_quiet close_all_quiet free_opt_quiet : logs.

Section WholeSweep.
Context {E : Type} `{Env E}.
Variables (os : platform) (ips : list ip4) (timeout_ms : Z).

(** The rounds hand over and take back nothing. *)
Lemma expire_neutral n now s : logs neutral (expire (E := E) timeout_ms n now s).
Proof. revert s. induction n; intros; cbn [expire]; unfold report; solve_logs. Qed.

Lemma try_sockets_neutral ident token socks ks ip next :
  logs neutral (try_sockets (E := E) os ident token socks ks ip next).
Proof. induction ks; cbn [try_sockets]; unfold send_echo; solve_logs. Qed.

Lemma send_loop_neutral max ident token socks budget now s :
  logs neutral (send_loop (E := E) os ips max ident token socks budget now s).
Proof.
  revert s. induction budget; intros; cbn [send_loop]; unfold report;
    solve_logs; apply try_sockets_neutral.
Qed.

Lemma drain_sockets_neutral ident token fuel ready s :
  logs neutral (drain_sockets (E := E) os ips ident token fuel ready s).
Proof.
  revert s. induction ready as [|[sock ev] ready IH]; intros; cbn [drain_sockets];
    unfold drain_round, report; solve_logs.
Qed.

Lemma sweep_round_neutral max ident token started socks fuel s :
  logs neutral (sweep_round (E := E) os ips timeout_ms max ident token started socks fuel s).
Proof.
  unfold sweep_round, now_ms, check_stop.
  solve_logs; auto using expire_neutral, send_loop_neutral, drain_sockets_neutral.
Qed.

(** The rounds from the start to the end. *)
Lemma sweep_rounds_end max su fuel garbage e s e' u t0 :
  Z.of_nat (length ips) < 18446744073709551616 → 0 <= max → labels t0 = [] →
  sweep_rounds os fuel garbage ips timeout_ms max su e = Some (s, e', u) →
  sweep_inv os ips max (su_ident su) (su_token su) s (t0 ++ u) ∧ sweep_over ips s.
Proof.
  intros Hc Hm Hq Hl. unfold sweep_rounds in Hl.
  eapply (loop_invariant (λ s _ t, sweep_inv os ips max _ _ s t)
    (λ s _ t, sweep_inv os ips max _ _ s t ∧ sweep_over ips s)); [| | |done].
  - intros ? ? ? ? ? ? Hi Hb. by apply (step_sweep_round _ _ _ _ _ _ _ _ Hc _ _ _ _ _ _ _ Hi Hb).
  - intros ? ? ? ? ? ? Hi Hb. by apply (step_sweep_round _ _ _ _ _ _ _ _ Hc _ _ _ _ _ _ _ Hi Hb).
  - apply (inv_quiet _ _ _ _ _ _ [] t0 Hq). by apply inv_start.
Qed.

Lemma sweep_rounds_neutral max su fuel garbage :
  logs neutral (sweep_rounds (E := E) os fuel garbage ips timeout_ms max su).
Proof. unfold sweep_rounds. apply logs_loop. intros. apply sweep_round_neutral. Qed.

(** ** Setting up *)

(** The sweep's own identifier and token, as its log shows them. *)
Definition sweep_ids (t : list event) (ident token : Z) : Prop :=
  ∃ pid pid' seed, Ev GetPid pid ∈ t ∧ Ev GetPid pid' ∈ t ∧ Ev ClockRealtime seed ∈ t ∧
    ident = u16 pid ∧ token = sweep_token (tv_nsec seed) pid' (length ips).

(** What a set-up sweep holds. *)
Definition setup_held (su : setup) : list res :=
  RMem (su_sent su) :: RMem (su_state su) :: map RSock (su_socks su).

Lemma sweep_setup_quiet n max : logs quiet (sweep_setup (E := E) os n max).
Proof. unfold sweep_setup. solve_logs. Qed.

(** Out of memory: whatever was allocated goes back, and every socket. *)
Lemma setup_gives_up {A} state sent socks (a x : A) n m e e' t :
  (free_opt state;; free_opt sent;; close_all socks;; mret a) e = Some (x, e', t) →
  a = x ∧ keeps_from (map RSock socks) ([Ev (Malloc n) state] ++ [Ev (Malloc m) sent] ++ t) [].
Proof.
  intros Hr. run_inv. split; [done|]. rewrite app_nil_r.
  rename select (free_opt state _ = _) into H1. rename select (free_opt sent _ = _) into H2.
  rename select (close_all _ _ = _) into H3.
  apply free_opt_keeps in H1, H2. apply close_all_keeps in H3.
  set (r1 := match state with Some p => [RMem p] | None => [] end) in *.
  set (r2 := match sent with Some p => [RMem p] | None => [] end) in *.
  apply (keeps_from_frame (map RSock socks ++ r2)) in H1.
  apply (keeps_from_frame (map RSock socks)) in H2. rewrite !app_nil_r in *.
  apply (keeps_from_app _ _ (map RSock socks ++ r1)).
  { subst r1. destruct state; solve_keeps. }
  apply (keeps_from_app _ _ ((map RSock socks ++ r2) ++ r1)).
  { subst r2. destruct sent; solve_keeps. }
  eapply keeps_from_app; [exact H1|]. eapply keeps_from_app; [exact H2|done].
Qed.

Lemma sweep_setup_keeps n max e x e' t :
  sweep_setup os n max e = Some (x, e', t) →
  keeps t (match x with inl _ => [] | inr su => setup_held su end).
Proof.
  intros Hr. unfold sweep_setup in Hr. apply keeps_keeps_from.
  apply bind_inv in Hr as (socks & e1 & t1 & u & Ho & Hr & ->).
  apply open_sockets_keeps in Ho. eapply keeps_from_app; [exact Ho|]. clear Ho. case_test.
  { run_inv. apply nil_length_inv in T as ->. apply keeps_from_nil. }
  apply bind_inv in Hr as (state & e2 & t2 & u2 & [_ ->]%ask_inv & Hr & ->).
  apply bind_inv in Hr as (sent & e3 & t3 & u3 & [_ ->]%ask_inv & Hr & ->).
  destruct state as [p|]; [destruct sent as [q|]|].
  - unfold now_ms in Hr. run_inv. unfold setup_held; simpl. solve_keeps.
  - eapply (setup_gives_up (Some p) None) in Hr. destruct Hr as [<- Hk]. exact Hk.
  - eapply (setup_gives_up None sent) in Hr. destruct Hr as [<- Hk]. exact Hk.
Qed.

(** What the set-up gives. *)
Lemma sweep_setup_inr n max e su e' t :
  sweep_setup os n max e = Some (inr su, e', t) →
  su_socks su ≠ [] ∧
  ∃ pid pid' seed, Ev GetPid pid ∈ t ∧ Ev GetPid pid' ∈ t ∧ Ev ClockRealtime seed ∈ t ∧
    su_ident su = u16 pid ∧ su_token su = sweep_token (tv_nsec seed) pid' n.
Proof.
  intros Hr. unfold sweep_setup in Hr.
  apply bind_inv in Hr as (socks & e1 & t1 & u & _ & Hr & ->). case_test; [by run_inv|].
  apply bind_inv in Hr as (state & e2 & t2 & u2 & [_ ->]%ask_inv & Hr & ->).
  apply bind_inv in Hr as (sent & e3 & t3 & u3 & [_ ->]%ask_inv & Hr & ->).
  destruct state as [p|]; [destruct sent as [q|]|]; [|run_inv..]. unfold now_ms in Hr. run_inv.
  split; [by intros Hs; simpl in Hs; subst|]. simpl.
  match goal with |- context [sweep_token (tv_nsec ?seed) ?pid' _] =>
    match goal with |- context [u16 ?pid] => exists pid, pid', seed end end.
  splits; [set_solver+..|done|done].
Qed.

(** How a sweep can end: nothing was asked of it; it could not start;
    or the invariant holds of its last round. *)
Definition sweep_outcome (max : Z) (r : icmp_ping_result) (t : list event) : Prop :=
  match r with
  | ICMP_PING_DONE => ips = [] ∧ t = [] ∨ ∃ ident token s, sweep_ids t ident token ∧
      sweep_inv os ips (Z.max 1 max) ident token s t ∧ sweep_over ips s
  | _ => ips ≠ [] ∧ labels t = []
  end.

Lemma sweep_setup_inl n max e r e' t :
  sweep_setup os n max e = Some (inl r, e', t) → r ≠ ICMP_PING_DONE.
Proof.
  intros Hr. unfold sweep_setup in Hr.
  apply bind_inv in Hr as (socks & e1 & t1 & u & _ & Hr & ->). case_test; [by run_inv|].
  by run_inv.
Qed.

Lemma icmp_ping_sweep_outcome fuel garbage max e r e' t :
  Z.of_nat (length ips) < 18446744073709551616 → 0 <= max →
  icmp_ping_sweep os fuel garbage ips timeout_ms max e = Some (r, e', t) →
  sweep_outcome max r t.
Proof.
  intros Hc Hm Hr. unfold icmp_ping_sweep in Hr. case_test.
  { run_inv. left. split; [by apply nil_length_inv|done]. }
  assert (ips ≠ []) as Hne by by destruct ips.
  replace (if max =? 0 then 1 else max) with (Z.max 1 max) in Hr by (case_test; lia).
  apply bind_inv in Hr as (su & e1 & t1 & u & Hsu & Hr & ->).
  pose proof (sweep_setup_quiet _ _ _ _ _ _ Hsu) as Hq%quiet_labels.
  destruct su as [r'|su].
  { run_inv. apply sweep_setup_inl in Hsu. rewrite app_nil_r. by destruct r'. }
  apply bind_inv in Hr as (s & e2 & t2 & u2 & Hl & Hr & ->). log_of Hr quiet.
  assert (r = ICMP_PING_DONE) as -> by (clear -Hr; by run_inv).
  apply sweep_setup_inr in Hsu as (_ & pid & pid' & seed & H1 & H2 & H3 & H4 & H5).
  apply (sweep_rounds_end _ _ _ _ _ _ _ _ t1) in Hl as [Hi Hover]; [|done|lia|done].
  right. exists (su_ident su), (su_token su), s. split; [|split; [|done]].
  { exists pid, pid', seed. set_solver. }
  rewrite app_assoc. apply inv_quiet; [by apply quiet_labels|done].
Qed.

Lemma icmp_ping_sweep_allowed fuel garbage max e r e' t :
  Z.of_nat (length ips) < 18446744073709551616 → 0 <= max →
  icmp_ping_sweep os fuel garbage ips timeout_ms max e = Some (r, e', t) →
  match r with ICMP_PING_DONE => sweep_allowed ips (Z.max 1 max) t | _ => labels t = [] end.
Proof.
  intros Hc Hm Hr. apply icmp_ping_sweep_outcome in Hr; [|done..]. destruct r; [|by destruct Hr..].
  destruct Hr as [[-> ->]|(ident & token & s & _ & Hi & Hf & Ho)].
  - exists spec_start. split; [done|]. split; [done|by right].
  - eapply follows_allowed; [apply (inv_spec _ _ _ _ _ _ _ Hi)|done|done].
Qed.

Lemma icmp_ping_sweep_keeps fuel garbage max e r e' t :
  icmp_ping_sweep os fuel garbage ips timeout_ms max e = Some (r, e', t) → keeps t [].
Proof.
  intros Hr. unfold icmp_ping_sweep in Hr. case_test; [run_inv; apply (keeps_from_nil [])|].
  apply bind_inv in Hr as (su & e1 & t1 & u & Hsu & Hr & ->).
  apply sweep_setup_keeps in Hsu. destruct su as [r'|su].
  { run_inv. by rewrite app_nil_r. }
  apply keeps_keeps_from. eapply keeps_from_app; [exact Hsu|].
  apply bind_inv in Hr as (s & e2 & t2 & u2 & Hl & Hr & ->).
  apply sweep_rounds_neutral in Hl.
  eapply keeps_from_app; [by apply keeps_from_neutral|]. run_inv.
  apply (keeps_from_app _ [_] (RMem (su_state su) :: map RSock (su_socks su)));
    [unfold setup_held; solve_keeps|].
  apply (keeps_from_app _ [_] (map RSock (su_socks su))); [solve_keeps|].
  rewrite app_nil_r. by eapply close_all_keeps.
Qed.
End WholeSweep.

(** ** Pacing of the send loop *)

Section Pacing.
Context {E : Type} `{Env E}.
Variables (os : platform) (ips : list ip4) (max_in_flight ident token : Z) (socks : list Z).

Lemma send_loop_next budget now s e s' busy e' u :
  send_loop os ips max_in_flight ident token socks budget now s e = Some ((s', busy), e', u) →
  (sw_next s ≤ sw_next s' ≤ sw_next s + budget)%nat.
Proof.
  revert s e u. induction budget as [|budget IH]; intros s e u Hr; cbn [send_loop] in Hr.
  { run_inv. lia. }
  destruct (ips !! sw_next s) as [ip|]; [|run_inv; lia].
  destruct (sw_stopped s || _); [run_inv; lia|].
  apply bind_inv in Hr as (sent & e1 & t1 & t2 & _ & Hr & ->).
  destruct sent; [| |]; unfold report in Hr; try case_test; run_inv; simpl; try lia;
    match goal with H : send_loop _ _ _ _ _ _ _ _ _ _ = _ |- _ =>
      apply IH in H; simpl in H; lia end.
Qed.
End Pacing.

(** ** The send time of a host no echo left for *)

Section SendTimes.
Context {E : Type} `{Env E}.
Variables (os : platform) (garbage : list Z) (ips : list ip4).
Variables (timeout_ms max_in_flight ident token started : Z) (socks : list Z).
Hypothesis Hcount : Z.of_nat (length ips) < 18446744073709551616.
Hypothesis Hmax : 0 <= max_in_flight.

Let round fuel := sweep_round (E := E) os ips timeout_ms max_in_flight ident token started socks fuel.

(** The rounds of a sweep that goes on: its state and its log so far. *)
Inductive under_way : sweep → list event → Prop :=
  | under_way_start : under_way (sweep_start (length ips) garbage) []
  | under_way_round fuel s t e s' e' u :
      under_way s t → round fuel s e = Some (inl s', e', u) → under_way s' (t ++ u).

(** A round up to its poll: hosts whose wait is over, the stop, the sends. *)
Definition send_phase (s : sweep) : M E (Z * sweep * bool) :=
  now ← now_ms;
  s ← expire timeout_ms (sw_next s - sw_oldest s) now s;
  s ← check_stop s;
  '(s, busy) ← send_loop os ips max_in_flight ident token socks
    (Z.to_nat (send_budget (now - started) (Z.of_nat (sw_next s)))) now s;
  mret (now, s, busy).

(** A host's echo left: the log has its packet sent. *)
Definition sent_packets (t : list event) : list (list Z) :=
  flat_map (λ ev, match ev with
    | Ev c r => match c in call T return T → list (list Z) with
      | SendTo _ packet _ => λ r, match r with Ok _ => [packet] | Err _ => [] end
      | _ => λ _, []
      end r
    end) t.
Definition echo_left (t : list event) (i : nat) : Prop :=
  echo_packet ident token (Z.of_nat i) ∈ sent_packets t.

Lemma echo_left_app t u i : echo_left t i ∨ echo_left u i → echo_left (t ++ u) i.
Proof. unfold echo_left, sent_packets. rewrite flat_map_app, elem_of_app. done. Qed.

(** sent_at[] is written for hosts whose echo left, and every host in
    flight is one of them. *)
Record sent_inv (s : sweep) (t : list event) : Prop := {
  sent_garbage : ∀ i, ¬ echo_left t i → sw_sent_at s !! i = resize (length ips) 0 garbage !! i;
  sent_flight : ∀ i, sw_state s !! i = Some STATE_IN_FLIGHT → echo_left t i
}.

(** What a step that sends nothing does to them. *)
Definition calmer (s s' : sweep) : Prop :=
  sw_sent_at s' = sw_sent_at s ∧
  ∀ i, sw_state s' !! i = Some STATE_IN_FLIGHT → sw_state s !! i = Some STATE_IN_FLIGHT.

#[local] Instance calmer_preorder : PreOrder calmer.
Proof. split; [done|]. intros s1 s2 s3 [H1 H2] [H3 H4]. split; [congruence|auto]. Qed.

Lemma calmer_reported i s : calmer s (reported i s).
Proof.
  split; [done|]. simpl. intros j Hj. destruct (decide (i = j)) as [->|].
  - apply list_lookup_insert_Some in Hj. naive_solver.
  - by rewrite list_lookup_insert_ne in Hj.
Qed.

Lemma calmer_inv s s' t u : calmer s s' → sent_inv s t → sent_inv s' (t ++ u).
Proof.
  intros [Hc1 Hc2] [Hg Hf]. split; intros i.
  - intros Hn. rewrite Hc1. apply Hg. intros Ht. apply Hn, echo_left_app. by left.
  - intros Hi. apply echo_left_app. left. by apply Hf, Hc2.
Qed.

Lemma expire_calmer n now s e s' e' u :
  expire timeout_ms n now s e = Some (s', e', u) → calmer s s'.
Proof.
  revert s e u. induction n as [|n IH]; intros s e u Hr; cbn [expire] in Hr; [by run_inv|].
  destruct (negb _); [by run_inv|]. destruct (bool_decide _).
  - destruct (now <? _); [by run_inv|]. unfold report in Hr. run_inv.
    rename select (expire _ _ _ _ _ = _) into Hx. apply IH in Hx.
    etrans; [apply (calmer_reported (sw_oldest s))|exact Hx].
  - apply IH in Hr. exact Hr.
Qed.

Lemma drain_sockets_calmer fuel ready s e s' e' u :
  drain_sockets os ips ident token fuel ready s e = Some (s', e', u) → calmer s s'.
Proof.
  revert s e u. induction ready as [|[sock revents] ready IH]; intros s e u Hr;
    cbn [drain_sockets] in Hr; [by run_inv|].
  apply bind_inv in Hr as (s1 & e1 & t1 & t2 & Hd & Hr & ->).
  etrans; [|by eapply IH]. destruct (Z.land revents POLLIN =? 0); [by run_inv|].
  refine (loop_invariant (λ s1 _ _, calmer s s1) (λ s1 _ _, calmer s s1) _ _ _ _ _ _ [] _ _ _ _ Hd);
    [| |reflexivity];
    intros ? ? ? ? ? ? Hi Hb; unfold drain_round, report in Hb; run_inv;
    (done || (etrans; [done|apply calmer_reported])).
Qed.

Lemma try_sockets_left ks ip next e e' u :
  try_sockets os ident token socks ks ip next e = Some (SEND_OK, e', u) → echo_left u next.
Proof.
  revert e u. induction ks as [|k ks IH]; intros e u Hr; cbn [try_sockets] in Hr; [by run_inv|].
  unfold send_echo in Hr. run_inv;
    try (apply echo_left_app; right; eauto; fail).
  all: apply list_elem_of_here.
Qed.

Lemma send_loop_sent budget now s e t s' busy e' u :
  sent_inv s t →
  send_loop os ips max_in_flight ident token socks budget now s e = Some ((s', busy), e', u) →
  sent_inv s' (t ++ u).
Proof.
  revert s e t u. induction budget as [|budget IH]; intros s e t u Hi Hr; cbn [send_loop] in Hr.
  { run_inv. by eapply calmer_inv. }
  destruct (ips !! sw_next s) as [ip|] eqn:Hip; [|run_inv; by eapply calmer_inv].
  destruct (sw_stopped s || _); [run_inv; by eapply calmer_inv|].
  apply bind_inv in Hr as (sent & e1 & t1 & t2 & Hsend & Hr & ->). rewrite app_assoc.
  assert (∀ u, sent_inv (next_host (reported (sw_next s) (busy_from (-1) s))) ((t ++ t1) ++ u)) as Hno.
  { intros v. eapply calmer_inv, calmer_inv, Hi; [|reflexivity].
    apply (calmer_reported (sw_next s) s). }
  destruct sent; [| |].
  - eapply IH; [|done]. apply try_sockets_left in Hsend. destruct Hi as [Hg Hf].
    split; simpl; intros i; (destruct (decide (sw_next s = i)) as [<-|]; [|rewrite list_lookup_insert_ne by done]).
    + intros []. apply echo_left_app. by right.
    + intros Hn. apply Hg. intros Ht. apply Hn, echo_left_app. by left.
    + intros _. apply echo_left_app. by right.
    + intros Hj. apply echo_left_app. left. by apply Hf.
  - case_test; [run_inv; rewrite app_nil_r; by eapply (calmer_inv s)|].
    unfold report in Hr. run_inv. rewrite app_assoc. eapply IH; [apply Hno|done].
  - unfold report in Hr. run_inv. rewrite app_assoc. eapply IH; [apply Hno|done].
Qed.

(** The invariant of the whole sweep, with the one of the send times. *)
Let inv s t := sweep_inv os ips max_in_flight ident token s t ∧ sent_inv s t.

Lemma send_phase_inv s t e now s1 busy e1 u :
  inv s t → send_phase s e = Some ((now, s1, busy), e1, u) → inv s1 (t ++ u).
Proof.
  intros [Hi Hs] Hr. unfold send_phase in Hr.
  apply bind_inv in Hr as (now' & e2 & u1 & v1 & Hnow & Hr & ->).
  apply bind_inv in Hr as (s2 & e3 & u2 & v2 & Hexp & Hr & ->).
  apply bind_inv in Hr as (s3 & e4 & u3 & v3 & Hstop & Hr & ->).
  apply bind_inv in Hr as ([s4 busy'] & e5 & u4 & v4 & Hsend & Hr & ->).
  run_inv. rewrite app_nil_r, !app_assoc. split.
  - assert (sweep_inv os ips max_in_flight ident token s (t ++ u1)) as Hi1.
    { apply inv_quiet; [|done]. unfold now_ms in Hnow. by run_inv. }
    eapply step_send_loop; [done| |exact Hsend]. eapply step_check_stop; [done| |exact Hstop].
    by eapply step_expire.
  - eapply send_loop_sent; [|exact Hsend]. apply (calmer_inv s2).
    { unfold check_stop in Hstop. by run_inv. }
    apply (calmer_inv s); [by eapply expire_calmer|]. by apply (calmer_inv s).
Qed.

(** A round is its send phase, then the poll and what it brings. *)
Lemma sweep_round_phases fuel s e x e' u :
  round fuel s e = Some (x, e', u) →
  ∃ now s1 busy e1 u1 u2,
    send_phase s e = Some ((now, s1, busy), e1, u1) ∧ u = u1 ++ u2 ∧
    calmer s1 (match x with inl s2 => s2 | inr s2 => s2 end) ∧
    (sw_in_flight s1 ≠ 0 →
     ∃ r, Ev (Poll socks (wait_ms ips timeout_ms max_in_flight now busy s1)) r ∈ u2).
Proof.
  intros Hr. unfold round, sweep_round in Hr.
  apply bind_inv in Hr as (now & e1 & u1 & v1 & Hnow & Hr & ->).
  apply bind_inv in Hr as (s2 & e2 & u2 & v2 & Hexp & Hr & ->).
  apply bind_inv in Hr as (s3 & e3 & u3 & v3 & Hstop & Hr & ->).
  apply bind_inv in Hr as ([s4 busy] & e4 & u4 & v4 & Hsend & Hr & ->).
  exists now, s4, busy, e4, (u1 ++ u2 ++ u3 ++ u4 ++ []), v4. split; [|split].
  - unfold send_phase. do 4 (eapply bind_some; [done|]). done.
  - by rewrite app_nil_r, <- !app_assoc.
  - case_test; [run_inv; split; [reflexivity|lia]|].
    apply bind_inv in Hr as (r & e5 & u5 & v5 & Hpoll & Hr & ->).
    apply ask_inv in Hpoll as [_ ->]. split; [|eexists; apply list_elem_of_here].
    destruct r as [revents|]; [|by run_inv].
    case_test; [by run_inv|]. run_inv. by eapply drain_sockets_calmer.
Qed.

Lemma under_way_inv s t : under_way s t → inv s t.
Proof.
  induction 1 as [|fuel s t e s' e' u _ [Hi Hs] Hr].
  - split; [by apply inv_start|]. split; simpl; [done|].
    intros i Hi. apply lookup_replicate in Hi. naive_solver.
  - split; [by apply (step_sweep_round _ _ _ _ _ _ _ _ Hcount _ _ _ _ _ _ _ Hi Hr)|].
    apply sweep_round_phases in Hr as (now & s1 & busy & e1 & u1 & u2 & Hp & -> & Hc & _).
    rewrite app_assoc. eapply calmer_inv; [done|]. by eapply send_phase_inv.
Qed.

(** A host passed by the sends whose echo never left is reported, and its
    send time is what the memory held before. *)
Lemma unsent_host s t i :
  inv s t → (i < sw_next s)%nat → ¬ echo_left t i →
  sw_state s !! i = Some STATE_REPORTED ∧ sent_at s i = default 0 (garbage !! i).
Proof.
  intros [Hi Hs] Hlt Hn. pose proof (inv_next _ _ _ _ _ _ _ Hi) as Hnext. split.
  - assert (is_Some (sw_state s !! i)) as [[] Hh]; [|..|done].
    + apply lookup_lt_is_Some_2. rewrite (inv_state _ _ _ _ _ _ _ Hi). lia.
    + by destruct (inv_started _ _ _ _ _ _ _ Hi i).
    + by destruct Hn; apply (sent_flight _ _ Hs).
  - unfold sent_at. rewrite (sent_garbage _ _ Hs i Hn).
    destruct (decide (i < length garbage)%nat).
    + by rewrite lookup_resize by lia.
    + rewrite lookup_resize_new by lia. by rewrite lookup_ge_None_2 by lia.
Qed.

(** Nothing more can go out before the next round. *)
Definition sends_over (s : sweep) (busy : bool) : Prop :=
  sw_stopped s = true ∨ sw_next s = length ips ∨
  busy = false ∧ max_in_flight <= sw_in_flight s.

Lemma wait_ms_oldest now s busy :
  sends_over s busy → (sw_oldest s < sw_next s ≤ length ips)%nat →
  wait_ms ips timeout_ms max_in_flight now busy s =
  Z.max 0 (i32 (sent_at s (sw_oldest s) + timeout_ms - now)).
Proof.
  intros Ho [Hlt Hle]. unfold wait_ms, count.
  rewrite (proj2 (Nat.ltb_lt _ _) Hlt).
  assert (negb (sw_stopped s) && (sw_next s <? length ips)%nat &&
          (busy || (sw_in_flight s <? max_in_flight)) = false) as ->.
  { destruct Ho as [->|[->|[-> Hm]]]; [done| |].
    - by rewrite Nat.ltb_irrefl, andb_false_r.
    - rewrite (proj2 (Z.ltb_ge _ _) Hm). by rewrite andb_false_r. }
  case_test; lia.
Qed.
End SendTimes.

(** ** Properties *)

Section Properties.
Context {E : Type} `{Env E}.

(** C30: refinement.  Every log of a sweep that ends as ICMP_PING_DONE is one
    the specification of a sweep allows: echoes leave for the hosts in
    order, at most [max] under way at a time, each host is reported once,
    when its echo is under way or in its turn when none could leave, nothing
    new leaves after a stop, and nothing is under way at the end.  A sweep
    that could not start shows nothing. *)
Theorem icmp_ping_sweep_refines os fuel garbage ips timeout_ms max (e : E) r e' t :
  Z.of_nat (length ips) < 18446744073709551616 → 0 <= max →
  icmp_ping_sweep os fuel garbage ips timeout_ms max e = Some (r, e', t) →
  match r with
  | ICMP_PING_DONE => sweep_allowed ips (Z.max 1 max) t
  | _ => labels t = []
  end.
Proof.
  intros Hc Hm Hr. apply icmp_ping_sweep_allowed in Hr; [|done..]. by destruct r.
Qed.

(** C4: exactly once.  A sweep that ends as ICMP_PING_DONE has called
    the observer's [pinged] once for each of the first [n] hosts and for
    no other, where [n] is every host unless a stop was asked for; one
    that could not start has called it for none. *)
Theorem icmp_ping_sweep_reports os fuel garbage ips timeout_ms max (e : E) r e' t :
  Z.of_nat (length ips) < 18446744073709551616 → 0 <= max →
  icmp_ping_sweep os fuel garbage ips timeout_ms max e = Some (r, e', t) →
  match r with
  | ICMP_PING_DONE => ∃ n, (pinged t).*1 ≡ₚ seq 0 n ∧ (n ≤ length ips)%nat ∧
      (n = length ips ∨ stop_seen t)
  | _ => pinged t = []
  end.
Proof.
  intros Hc Hm Hr. apply icmp_ping_sweep_allowed in Hr; [|done..].
  destruct r; [by eapply allowed_once|by apply labels_pinged..].
Qed.

(** a host is reported as answering only when a datagram received in
    this sweep is an echo reply from that host's address, carrying the
    sweep's token, the host's index and (where the OS does not filter by
    socket) the sweep's identifier. *)
Theorem icmp_ping_sweep_answered os fuel garbage ips timeout_ms max (e : E) r e' t i :
  Z.of_nat (length ips) < 18446744073709551616 → 0 <= max →
  icmp_ping_sweep os fuel garbage ips timeout_ms max e = Some (r, e', t) →
  (i, true) ∈ pinged t →
  ∃ ident token, sweep_ids ips t ident token ∧ heard os ips ident token t i.
Proof.
  intros Hc Hm Hr Hi. apply icmp_ping_sweep_outcome in Hr; [|done..].
  destruct r; [|by destruct Hr as [_ Hp%labels_pinged]; rewrite Hp in Hi; set_solver..].
  destruct Hr as [[-> ->]|(ident & token & s & Hids & Hinv & _)]; [set_solver|].
  exists ident, token. split; [done|]. by apply (inv_heard _ _ _ _ _ _ _ Hinv).
Qed.

(** a sweep leaks nothing: every socket it opened is closed and
    every block it allocated is freed, on the early returns too. *)
Theorem icmp_ping_sweep_leak_free os fuel garbage ips timeout_ms max (e : E) r e' t :
  icmp_ping_sweep os fuel garbage ips timeout_ms max e = Some (r, e', t) → keeps t [].
Proof. apply icmp_ping_sweep_keeps. Qed.

(** every round keeps the sweep's invariant (the counter matches the
    states and never exceeds [max_in_flight], hosts below [oldest] are
    reported, hosts from [next] on untouched, each reported host logged
    once), and the round that leaves the loop has nothing in flight. *)
Theorem sweep_round_invariant os ips timeout_ms max ident token started socks fuel s
    (e : E) t x e' u :
  Z.of_nat (length ips) < 18446744073709551616 →
  sweep_inv os ips max ident token s t →
  sweep_round os ips timeout_ms max ident token started socks fuel s e = Some (x, e', u) →
  match x with
  | inl s' => sweep_inv os ips max ident token s' (t ++ u)
  | inr s' => sweep_inv os ips max ident token s' (t ++ u) ∧ sweep_over ips s'
  end.
Proof. intros. by eapply step_sweep_round. Qed.

(** pacing.  After the send loop of a round [elapsed] ms into the
    sweep, at most SENDS_PER_MS hosts per started millisecond were sent
    to, counting from the first (or nothing was sent in this round). *)
Theorem send_loop_paced os ips max ident token socks now started s (e : E) s' busy e' u :
  0 <= now - started < 4611686018427387904 →
  send_loop os ips max ident token socks
    (Z.to_nat (send_budget (now - started) (Z.of_nat (sw_next s)))) now s e
    = Some ((s', busy), e', u) →
  (sw_next s ≤ sw_next s')%nat ∧
  (sw_next s' = sw_next s ∨ Z.of_nat (sw_next s') <= SENDS_PER_MS * (now - started + 1)).
Proof.
  intros He Hr. apply send_loop_next in Hr. rewrite send_budget_pace in Hr by lia.
  unfold SENDS_PER_MS in *. lia.
Qed.
End Properties.

(** ** Witnesses: two hosts swept by a machine that hears the second *)

Definition two_hosts : list ip4 := [IP 10 0 0 1; IP 10 0 0 2].

Definition second_answers : list Z :=
  [ICMP_ECHO_REPLY_TYPE; 0; 0; 0; 0; 0; 0; 1] ++
  payload_bytes (EchoPayload (sweep_token 100000 4242 2) 1 (replicate 24 0)).

Definition lan : script :=
  set_queues [Ok [1]] [] [] [Ok (second_answers, SA AF_INET (IP 10 0 0 2) 0)] [] [] [] (idle 1000000000).

Lemma icmp_ping_sweep_reports_witness :
  ∃ r e' t, icmp_ping_sweep Linux 50 [] two_hosts 20 8 lan = Some (r, e', t) ∧
    r = ICMP_PING_DONE ∧ pinged t = [(1, true); (0, false)]%nat ∧
    ∃ n, (pinged t).*1 ≡ₚ seq 0 n ∧ (n ≤ 2)%nat ∧ (n = 2%nat ∨ stop_seen t).
Proof.
  run_here. split; [here|]. split; [here|].
  refine (icmp_ping_sweep_reports Linux 50 [] two_hosts 20 8 lan ICMP_PING_DONE _ _ _ _ _); here.
Defined.

Lemma icmp_ping_sweep_refines_witness :
  ∃ r e' t, icmp_ping_sweep Linux 50 [] two_hosts 20 8 lan = Some (r, e', t) ∧
    labels t = [LSent (IP 10 0 0 1); LSent (IP 10 0 0 2); LFate 1 true; LFate 0 false] ∧
    sweep_allowed two_hosts 8 t.
Proof.
  run_here. split; [here|].
  refine (icmp_ping_sweep_refines Linux 50 [] two_hosts 20 8 lan ICMP_PING_DONE _ _ _ _ _); here.
Defined.

Lemma icmp_ping_sweep_answered_witness :
  ∃ r e' t, icmp_ping_sweep Linux 50 [] two_hosts 20 8 lan = Some (r, e', t) ∧
    ∃ ident token, sweep_ids two_hosts t ident token ∧ heard Linux two_hosts ident token t 1.
Proof.
  run_here. refine (icmp_ping_sweep_answered Linux 50 [] two_hosts 20 8 lan _ _ _ _ _ _ _ _); [here..|].
  vm_compute. apply list_elem_of_here.
Defined.

Lemma icmp_ping_sweep_leak_free_witness :
  ∃ r e' t, icmp_ping_sweep Linux 50 [] two_hosts 20 8 lan = Some (r, e', t) ∧ keeps t [].
Proof.
  run_here. refine (icmp_ping_sweep_leak_free Linux 50 [] two_hosts 20 8 lan _ _ _ _); here.
Defined.

Lemma sweep_round_invariant_witness :
  ∃ s' e' u,
    sweep_round Linux two_hosts 20 8 4242 7 1000 [3] 9 (sweep_start 2 []) (idle 1000000000)
      = Some (inl s', e', u) ∧
    sw_in_flight s' = 2 ∧ sweep_inv Linux two_hosts 8 4242 7 s' u.
Proof.
  run_here. split; [here|].
  refine (sweep_round_invariant Linux two_hosts 20 8 4242 7 1000 [3] 9 (sweep_start 2 [])
    (idle 1000000000) [] (inl _) _ _ _ _ _); [here| |here].
  by apply inv_start.
Defined.

Lemma send_loop_paced_witness :
  ∃ x e' u,
    send_loop Linux two_hosts 8 4242 7 [3] (Z.to_nat (send_budget (1003 - 1000) 0)) 1003
      (sweep_start 2 []) (idle 1003000000) = Some (x, e', u) ∧
    (0 ≤ sw_next x.1)%nat ∧
    (sw_next x.1 = 0%nat ∨ Z.of_nat (sw_next x.1) <= SENDS_PER_MS * (1003 - 1000 + 1)).
Proof.
  run_here.
  refine (send_loop_paced Linux two_hosts 8 4242 7 [3] 1003 1000 (sweep_start 2 [])
    (idle 1003000000) _ _ _ _ _ _); [lia|here].
Defined.

(** ** A host no echo left for *)

(** A machine that has been up for 30 days and has no route to the first of
    two hosts. *)
Definition month_up : script :=
  set_queues [] [] [Err 101; Ok 40] [] [] [] [] (idle 2592000000000000).

(** C40: sent_at[] is read where it was never written.  In any round of any
    sweep: when the oldest host not yet passed is one no echo left for (it
    is already reported), and nothing more can go out, the poll waits for
    whatever the memory of sent_at[] held plus timeout_ms less now, cut to
    an [int], however long a host has to answer.  With zeroed memory and an
    uptime between 2^31 ms and 2^32 ms that is a sleep past timeout_ms, until
    the uptime has 2^32 ms. *)
Theorem unsent_host_oversleeps {E} `{Env E} os garbage ips timeout_ms max ident token started socks
    fuel s t (e : E) x e' u now s1 busy e1 u1 :
  Z.of_nat (length ips) < 18446744073709551616 → 0 <= max →
  under_way os garbage ips timeout_ms max ident token started socks s t →
  sweep_round os ips timeout_ms max ident token started socks fuel s e = Some (x, e', u) →
  send_phase os ips timeout_ms max ident token started socks s e = Some ((now, s1, busy), e1, u1) →
  sw_in_flight s1 ≠ 0 → sends_over ips max s1 busy →
  (sw_oldest s1 < sw_next s1)%nat → ¬ echo_left ident token (t ++ u1) (sw_oldest s1) →
  ∃ g w r, g = default 0 (garbage !! sw_oldest s1) ∧
    sw_state s1 !! sw_oldest s1 = Some STATE_REPORTED ∧
    Ev (Poll socks w) r ∈ u ∧ w = Z.max 0 (i32 (g + timeout_ms - now)) ∧
    (g = 0 → 0 <= timeout_ms → 2147483648 + timeout_ms < now < 4294967296 →
     timeout_ms < w ∧ w = 4294967296 + timeout_ms - now).
Proof.
  intros Hc Hm Hu Hr Hp Hf Ho Hlt Hn. pose proof Hr as Hr2.
  apply sweep_round_phases in Hr2 as (now' & s1' & busy' & e1' & u1' & u2 & Hp' & -> & _ & Hpoll).
  rewrite Hp in Hp'. simplify_eq. apply (under_way_inv _ _ _ _ _ _ _ _ _ Hc Hm) in Hu.
  pose proof (send_phase_inv _ _ _ _ _ _ _ _ _ Hc _ _ _ _ _ _ _ _ Hu Hp) as Hi.
  destruct (unsent_host _ _ _ _ _ _ _ _ _ Hi Hlt Hn) as [Hs Hg].
  destruct (Hpoll Hf) as [r Hev]. rewrite wait_ms_oldest, Hg in Hev; [|done|].
  - exists (default 0 (garbage !! sw_oldest s1')), (Z.max 0 (i32 (default 0 (garbage !! sw_oldest s1') + timeout_ms - now'))), r.
    split; [done|]. split; [done|]. split; [apply elem_of_app; right; done|].
    split; [done|]. intros -> Ht Hnow.
    replace (i32 (0 + timeout_ms - now')) with (4294967296 + timeout_ms - now'); [lia|].
    rewrite <- (i32_id (4294967296 + timeout_ms - now')) at 1 by (unfold is_i32; lia). unfold i32.
    rewrite <- (Z.mod_add (0 + timeout_ms - now' + 2147483648) 1) by lia. do 2 f_equal. lia.
  - split; [done|]. apply (inv_next _ _ _ _ _ _ _ (proj1 Hi)).
Qed.

(** With two hosts, the first unreachable, and malloc's memory zeroed. *)
Lemma unsent_host_oversleeps_witness :
  ∃ s1 e1 u1,
    send_phase Linux two_hosts 20 8 4242 7 2592000000 [3] (sweep_start 2 []) month_up
      = Some ((2592000000, s1, false), e1, u1) ∧
    labels u1 = [LFate 0 false; LSent (IP 10 0 0 2)] ∧ ∃ x e' u,
    sweep_round Linux two_hosts 20 8 4242 7 2592000000 [3] 9 (sweep_start 2 []) month_up
      = Some (x, e', u) ∧
    ∃ g w r, g = default 0 ([] !! sw_oldest s1) ∧
      sw_state s1 !! sw_oldest s1 = Some STATE_REPORTED ∧
      Ev (Poll [3] w) r ∈ u ∧ w = Z.max 0 (i32 (g + 20 - 2592000000)) ∧
      (g = 0 → 0 <= 20 → 2147483648 + 20 < 2592000000 < 4294967296 →
       20 < w ∧ w = 4294967296 + 20 - 2592000000).
Proof.
  run_here. split; [here|]. run_here.
  refine (unsent_host_oversleeps Linux [] two_hosts 20 8 4242 7 2592000000 [3] 9 (sweep_start 2 [])
    [] month_up _ _ _ 2592000000 _ false _ _ _ _ (under_way_start _ _ _ _ _ _ _ _ _) _ _ _ _ _ _);
    try here; [by right; left|].
  unfold echo_left. refine (bool_decide_unpack _ _). vm_compute. exact I.
Defined.
