(* ===== verification/IcmpLive.v ===== *)
(** * icmp_ping.c: the sweep comes to an end

    The outer [for (;;)] of [icmp_ping_sweep] has no bound of its own.  It
    ends because every round either makes progress (a host more is sent to,
    an echo less is in flight) or ends before a deadline that stays put
    while there is no progress: the last wait's end, the next send slot of
    the pacing, or the moment a full socket is given up.  When no round
    lasts longer than [round_ms], this bounds the sweep's time too
    ([span_ms]), so it is over long before 2^62 ms, where the [size_t]
    arithmetic of [send_budget] would wrap. *)
From S2P Require Import Prelude Words Sys Script NsSocket IcmpWire SweepSpec IcmpSweep.
Open Scope Z_scope.

(** The hosts in flight, counted from the states. *)
Definition flying (s : sweep) : nat := countb is_in_flight (sw_state s).

(** [s'] is [s] with some hosts no longer in flight. *)
Definition settles (s s' : sweep) : Prop :=
  sw_next s' = sw_next s ∧ sw_sent_at s' = sw_sent_at s ∧
  sw_busy_since s' = sw_busy_since s ∧ sw_stopped s' = sw_stopped s ∧
  (∀ i, sw_state s' !! i = Some STATE_IN_FLIGHT → sw_state s !! i = Some STATE_IN_FLIGHT) ∧
  (flying s' ≤ flying s)%nat.

Lemma settles_refl s : settles s s.
Proof. by repeat split. Qed.

#[export] Instance settles_trans : Transitive settles.
Proof. intros a b c (?&?&?&?&?&?) (?&?&?&?&?&?). repeat split; try congruence; [auto|lia]. Qed.

Lemma flying_reported i s : (flying (reported i s) ≤ flying s)%nat.
Proof.
  unfold flying; simpl. destruct (sw_state s !! i) as [h|] eqn:Hi.
  - pose proof (countb_insert is_in_flight _ _ STATE_REPORTED _ Hi). simpl in *. lia.
  - rewrite list_insert_ge; [done|]. by apply lookup_ge_None.
Qed.

Lemma flying_launched now s : (flying (launched now s) ≤ S (flying s))%nat.
Proof.
  unfold flying; simpl. destruct (sw_state s !! sw_next s) as [h|] eqn:Hi.
  - pose proof (countb_insert is_in_flight _ _ STATE_IN_FLIGHT _ Hi). simpl in *. lia.
  - rewrite list_insert_ge; [lia|]. by apply lookup_ge_None.
Qed.

Lemma settles_landed i s : settles s (landed (reported i s)).
Proof.
  repeat split; [|apply flying_reported]. intros j. simpl. rewrite list_lookup_insert. by case_decide.
Qed.

(** When the last echo still in flight left. *)
Definition latest (s : sweep) : Z :=
  foldr Z.max 0 (imap (λ i t, if bool_decide (sw_state s !! i = Some STATE_IN_FLIGHT) then t else 0)
    (sw_sent_at s)).

Lemma foldr_max_spec ts m : foldr Z.max 0 ts <= m ↔ 0 <= m ∧ Forall (λ t, t <= m) ts.
Proof.
  induction ts as [|t ts IH]; simpl; [split; [intros; split; [lia|constructor]|tauto]|].
  rewrite Forall_cons, Z.max_lub_iff, IH. tauto.
Qed.

Lemma latest_spec s m :
  0 <= m → (∀ i t, sw_state s !! i = Some STATE_IN_FLIGHT → sw_sent_at s !! i = Some t → t <= m) ↔
  latest s <= m.
Proof.
  intros Hm. unfold latest. rewrite foldr_max_spec, Forall_lookup. setoid_rewrite list_lookup_imap_Some.
  split.
  - intros Ha. split; [done|]. intros i x (t & Ht & ->). case_bool_decide; [by eapply Ha|done].
  - intros [_ Ha] i t Hs Ht. specialize (Ha i t). apply Ha. exists t. by rewrite bool_decide_true.
Qed.

Lemma latest_pos s : 0 <= latest s.
Proof. unfold latest. induction (imap _ _); simpl; lia. Qed.

Lemma latest_lookup s i t :
  sw_state s !! i = Some STATE_IN_FLIGHT → sw_sent_at s !! i = Some t → t <= latest s.
Proof. apply latest_spec; [apply latest_pos|done]. Qed.

Section Live.
Context {E : Type} `{ClockLaw E} `{!QueueLaw E}.
Variables (os : platform) (ips : list ip4) (timeout_ms max_in_flight ident token started : Z).
Variables (socks : list Z).
Hypothesis Hcount : Z.of_nat (length ips) < 18446744073709551616.

(** ** Draining the sockets *)

Lemma drain_runs sock s :
  runs (λ n, loop n (drain_round (E := E) os ips ident token sock) s).
Proof.
  apply (runs_loop (λ p q, (queued p.2 < queued q.2)%nat) (λ _, drain_round os ips ident token sock)).
  - apply (wf_projected lt (λ p : sweep * E, queued p.2)); [done|apply lt_wf].
  - intros. apply runs_const. unfold drain_round, report. solve_total.
  - intros _ s1 e1 s2 e2 t Hr. unfold drain_round, report in Hr. simpl.
    run_inv; to_prop; subst; rename select (env_step (RecvFrom _ _) _ = _) into Hq;
      try (rename select (env_step (Pinged _ _) _ = _) into Hp; apply queued_pinged in Hp);
      apply queued_recvfrom in Hq; auto; lia.
Qed.

Lemma drain_sockets_runs ready s :
  runs (λ n, drain_sockets (E := E) os ips ident token n ready s).
Proof.
  revert s. induction ready as [|[sock ev] ready IH]; intros s; cbn [drain_sockets].
  { apply runs_const. solve_total. }
  apply (runs_bind _ (λ n s, drain_sockets os ips ident token n ready s)); [|done].
  destruct (_ =? 0); [apply runs_const; solve_total|apply drain_runs].
Qed.

Lemma drain_sockets_settles fuel ready s (e : E) s' e' u :
  drain_sockets os ips ident token fuel ready s e = Some (s', e', u) → settles s s'.
Proof.
  revert s e u. induction ready as [|[sock ev] ready IH]; intros s e u Hr; cbn [drain_sockets] in Hr.
  { run_inv. apply settles_refl. }
  apply bind_inv in Hr as (s1 & e1 & t1 & t2 & Hd & Hr & ->). apply IH in Hr.
  etrans; [|exact Hr]. destruct (_ =? 0); [run_inv; apply settles_refl|].
  apply (loop_invariant (λ s1 _ _, settles s s1) (λ s1 _ _, settles s s1)) with (t0 := []) in Hd;
    [done| | |apply settles_refl]; unfold drain_round, report;
    intros s2 e2 t0 s3 e3 t Hs Hb; run_inv; try done; etrans; eauto using settles_landed.
Qed.

(** ** The deadline *)

(** In ms: by then the sweep has made progress. *)
Definition deadline (s : sweep) : Z :=
  Z.max (latest s + timeout_ms)
    (Z.max (started + Z.of_nat (sw_next s) + 1) (sw_busy_since s + BUSY_GIVE_UP_MS)).

Lemma settles_deadline s s' : settles s s' → deadline s' <= deadline s.
Proof.
  unfold deadline. intros (-> & Hsent & -> & _ & Hfly & _).
  assert (latest s' <= latest s); [|lia].
  apply latest_spec; [apply latest_pos|]. intros i t Hi Ht. rewrite Hsent in Ht.
  eapply latest_lookup; eauto.
Qed.

Let inv := sweep_inv os ips max_in_flight ident token.

Lemma flying_in_flight s t : inv s t → sw_in_flight s = Z.of_nat (flying s).
Proof. apply inv_in_flight. Qed.

Lemma flying_none s t : inv s t → (sw_next s ≤ sw_oldest s)%nat → flying s = 0%nat.
Proof.
  intros Hi Hle. apply countb_zero. intros i h Hh. destruct (decide (i < sw_oldest s)%nat).
  - rewrite (inv_done _ _ _ _ _ _ _ Hi) in Hh by done. by simplify_eq.
  - by rewrite (inv_waiting _ _ _ _ _ _ _ Hi i ltac:(lia) _ Hh).
Qed.

Lemma expire_end n now s (e : E) s' e' u :
  (sw_next s - sw_oldest s ≤ n)%nat →
  expire timeout_ms n now s e = Some (s', e', u) →
  settles s s' ∧ ((sw_next s' ≤ sw_oldest s')%nat ∨
    sw_state s' !! sw_oldest s' = Some STATE_IN_FLIGHT ∧
    (sw_oldest s' < sw_next s')%nat ∧ now < sent_at s' (sw_oldest s') + timeout_ms).
Proof.
  revert s e u. induction n as [|n IH]; intros s e u Hn Hr; cbn [expire] in Hr.
  { run_inv. split; [apply settles_refl|]. left. lia. }
  destruct (negb _) eqn:Hlt; to_prop; [run_inv; split; [apply settles_refl|left; lia]|].
  destruct (bool_decide _) eqn:Hf; to_prop.
  - destruct (now <? _) eqn:Hnow; to_prop.
    { run_inv. split; [apply settles_refl|]. by right. }
    unfold report in Hr. run_inv.
    match goal with H : expire _ _ _ _ _ = _ |- _ => apply IH in H as [Hs He]; [|simpl; lia] end.
    split; [|done]. etrans; [apply (settles_landed (sw_oldest s))|exact Hs].
  - apply IH in Hr as [Hs He]; [|simpl; lia]. split; [|done]. etrans; [|exact Hs]. by repeat split.
Qed.

(** After expiry nothing is in flight, or the deadline is ahead. *)
Lemma expire_before now s (e : E) s' e' u t :
  expire timeout_ms (sw_next s - sw_oldest s) now s e = Some (s', e', u) →
  inv s t → inv s' (t ++ u) → settles s s' ∧ (flying s' = 0%nat ∨ now < deadline s').
Proof.
  intros Hr Hi Hi'. apply expire_end in Hr as [Hs He]; [|done]. split; [done|].
  destruct He as [He|(Hfl & Hlt & He)]; [left; by eapply flying_none|right].
  assert (is_Some (sw_sent_at s' !! sw_oldest s')) as [x Hx].
  { apply lookup_lt_is_Some_2. rewrite (inv_sent _ _ _ _ _ _ _ Hi').
    pose proof (inv_next _ _ _ _ _ _ _ Hi'). lia. }
  unfold sent_at in He. rewrite Hx in He. simpl in He.
  pose proof (latest_lookup _ _ _ Hfl Hx). unfold deadline. lia.
Qed.

(** ** Why a round sent nothing *)

Inductive held_back (budget : nat) (now : Z) (s s' : sweep) : bool → Prop :=
| HeldBudget : budget = 0%nat → s' = s → held_back budget now s s' false
| HeldDone : (length ips ≤ sw_next s)%nat → s' = s → held_back budget now s s' false
| HeldStopped : sw_stopped s = true → s' = s → held_back budget now s s' false
| HeldFull : max_in_flight <= sw_in_flight s → s' = s → held_back budget now s s' false
| HeldBusy since :
    since = (if sw_busy_since s <? 0 then now else sw_busy_since s) →
    now - since < BUSY_GIVE_UP_MS → s' = busy_from since s → held_back budget now s s' true.

Lemma send_loop_held budget now s (e : E) s' busy e' u :
  send_loop os ips max_in_flight ident token socks budget now s e = Some ((s', busy), e', u) →
  (sw_next s < sw_next s')%nat ∨ held_back budget now s s' busy.
Proof.
  destruct budget as [|budget]; cbn [send_loop]; intros Hr.
  { run_inv. right. by constructor. }
  destruct (ips !! sw_next s) as [ip|] eqn:Hip.
  2:{ apply lookup_ge_None in Hip. run_inv. right. by apply HeldDone. }
  destruct (sw_stopped s || _) eqn:Hgo.
  { run_inv. right. apply orb_true_iff in Hgo as [Hst|Hfull]; [by apply HeldStopped|].
    to_prop. by apply HeldFull. }
  apply bind_inv in Hr as (sent & e1 & t1 & t2 & _ & Hr & ->).
  destruct sent; unfold report in Hr.
  - left. apply send_loop_next in Hr. simpl in Hr. lia.
  - case_test.
    + run_inv. right. by eapply HeldBusy.
    + left. run_inv.
      match goal with H : send_loop _ _ _ _ _ _ _ _ _ _ = _ |- _ => apply send_loop_next in H end.
      simpl in *. lia.
  - left. run_inv.
    match goal with H : send_loop _ _ _ _ _ _ _ _ _ _ = _ |- _ => apply send_loop_next in H end.
    simpl in *. lia.
Qed.

(** ** Progress *)

Definition measure (s : sweep) : nat :=
  (length ips - sw_next s) * 4 + 2 * flying s + (if sw_busy_since s <? 0 then 1 else 0).

(** At most the hosts sent to are newly in flight. *)
Lemma send_loop_flying budget now s (e : E) s' busy e' u :
  send_loop os ips max_in_flight ident token socks budget now s e = Some ((s', busy), e', u) →
  (flying s' + sw_next s ≤ flying s + sw_next s')%nat.
Proof.
  revert s e u. induction budget as [|budget IH]; intros s e u Hr; cbn [send_loop] in Hr; [by run_inv|].
  destruct (ips !! sw_next s) as [ip|]; [|by run_inv].
  destruct (sw_stopped s || _); [by run_inv|].
  apply bind_inv in Hr as (sent & e1 & t1 & t2 & _ & Hr & ->).
  pose proof (flying_reported (sw_next s) s) as Hrep.
  unfold report in Hr. destruct sent.
  - apply IH in Hr. pose proof (flying_launched now s). unfold flying in *. simpl in *. lia.
  - destruct (now - _ <? _); run_inv; [done|]. rename select (send_loop _ _ _ _ _ _ _ _ _ _ = _) into Hs.
    apply IH in Hs. unfold flying in *. simpl in *. lia.
  - run_inv. rename select (send_loop _ _ _ _ _ _ _ _ _ _ = _) into Hs.
    apply IH in Hs. unfold flying in *. simpl in *. lia.
Qed.

Lemma measure_sent s s' t :
  inv s' t → (flying s' + sw_next s ≤ flying s + sw_next s')%nat →
  (sw_next s < sw_next s')%nat → (measure s' < measure s)%nat.
Proof.
  intros Hi Hfly Hlt. pose proof (inv_next _ _ _ _ _ _ _ Hi).
  unfold measure. destruct (_ <? 0), (_ <? 0); lia.
Qed.

(** From a round that begins at [now] to its end: the measure is smaller,
    or the round is one more of those before the deadline. *)
Definition progress (now : Z) (s s' : sweep) : Prop :=
  (measure s' < measure s)%nat ∨
  (measure s' = measure s ∧ deadline s' <= deadline s ∧ now < deadline s).

(** What the rest of a round after the send loop leaves. *)
Lemma settles_measure s s' : settles s s' → (measure s' ≤ measure s)%nat.
Proof. unfold measure. intros (-> & _ & -> & _ & _ & ?). lia. Qed.

(** A full socket: the first time is progress, and the wait for room
    ends [BUSY_GIVE_UP_MS] after it. *)
Lemma busy_progress now since s s' :
  0 <= now → since = (if sw_busy_since s <? 0 then now else sw_busy_since s) →
  now - since < BUSY_GIVE_UP_MS → s' = busy_from since s →
  progress now s s'.
Proof.
  intros Hnow Hs Hlt ->. destruct (sw_busy_since s <? 0) eqn:Hneg; to_prop.
  - left. unfold measure, busy_from; simpl. rewrite Hs.
    rewrite (proj2 (Z.ltb_ge now 0)), (proj2 (Z.ltb_lt _ _)) by lia.
    change (flying _) with (flying s). lia.
  - right. subst since. destruct s; unfold busy_from; simpl in *. splits; try done.
    unfold deadline; simpl. lia.
Qed.

(** A round that held back and goes on: less in flight, newly busy, or
    before the deadline. *)
Lemma held_progress now s s' busy t :
  0 <= now - started < 4611686018427387904 → 0 <= now → 0 < max_in_flight →
  inv s t → (flying s = 0%nat ∨ now < deadline s) →
  held_back (Z.to_nat (send_budget (now - started) (Z.of_nat (sw_next s)))) now s s' busy →
  ((sw_in_flight s' =? 0) && (sw_stopped s' || (sw_next s' =? length ips)%nat)) = false →
  progress now s s'.
Proof.
  intros Hel Hnow Hmax Hi Hfly Hheld Hgo. pose proof (flying_in_flight _ _ Hi) as Hf.
  pose proof (inv_next _ _ _ _ _ _ _ Hi) as Hn.
  destruct Hheld as [Hz ->|Hdone ->|Hst ->|Hfull ->|since Hs Hlt ->];
    [| | | |by eapply busy_progress];
    (destruct Hfly as [Hfly|Hd]; [|by right]); rewrite Hfly in Hf; simpl in Hf.
  - right. splits; try done. rewrite send_budget_pace in Hz by lia.
    unfold SENDS_PER_MS in Hz. unfold deadline. lia.
  - exfalso. rewrite Hf in Hgo. simpl in Hgo. to_prop. lia.
  - exfalso. by rewrite Hf, Hst in Hgo.
  - lia.
Qed.

Lemma timely_expire n now s : timely (expire (E := E) timeout_ms n now s).
Proof. revert s. induction n; intros; cbn [expire]; unfold report; solve_timely. Qed.

Lemma timely_try_sockets ks ip next :
  timely (try_sockets (E := E) os ident token socks ks ip next).
Proof. induction ks; cbn [try_sockets]; unfold send_echo; solve_timely. Qed.
#[local] Hint Resolve timely_expire timely_try_sockets : timely.

Lemma timely_send_loop budget now s :
  timely (send_loop (E := E) os ips max_in_flight ident token socks budget now s).
Proof. revert s. induction budget; intros; cbn [send_loop]; unfold report; solve_timely. Qed.

Lemma timely_drain_sockets fuel ready s :
  timely (drain_sockets (E := E) os ips ident token fuel ready s).
Proof.
  revert s. induction ready as [|[sock ev] ready IH]; intros; cbn [drain_sockets];
    unfold drain_round, report; solve_timely.
Qed.
#[local] Hint Resolve timely_send_loop timely_drain_sockets : timely.

Let round := sweep_round (E := E) os ips timeout_ms max_in_flight ident token started socks.

Lemma now_ms_clock (e : E) now e' u :
  now_ms e = Some (now, e', u) → now = clk e / 1000000 ∧ labels u = [] ∧ ticked e' e.
Proof.
  intros Hr. unfold now_ms in Hr. run_inv. rename select (env_step ClockMonotonic _ = _) into Hc.
  apply clock_read in Hc as (Hts & ? & Ht). splits; [|done|exact Ht].
  rewrite <- Hts. by apply now_ms_div.
Qed.

(** Every round reads the clock first. *)
Lemma sweep_round_clock fuel s (e : E) x e' u :
  round fuel s e = Some (x, e', u) → ticked e' e.
Proof.
  intros Hr. unfold round, sweep_round in Hr.
  apply bind_inv in Hr as (now & e1 & u1 & v1 & Hnow & Hr & ->).
  match type of Hr with ?m _ = _ => assert (timely m) as Hm end.
  { unfold check_stop. solve_timely. }
  apply Hm in Hr. apply now_ms_clock in Hnow as (_ & _ & Ht). by eapply ticked_later_trans.
Qed.

Lemma progress_settles now s0 s s' s1 :
  settles s0 s → progress now s s' → settles s' s1 → progress now s0 s1.
Proof.
  unfold progress. intros Ha [H1|(H1&H2&H3)] Hb; pose proof (settles_measure _ _ Ha);
    pose proof (settles_measure _ _ Hb); [left; lia|].
  apply settles_deadline in Ha, Hb. lia.
Qed.

Lemma check_stop_same s (e : E) s' e' u :
  check_stop s e = Some (s', e', u) → ∃ b, s' = stop b s.
Proof. unfold check_stop. intros Hr. destruct s as [? ? ? ? ? [] ?]; simpl in Hr; run_inv; by eexists. Qed.

Lemma sweep_round_progress fuel s (e : E) s' e' u t :
  inv s t → 0 < max_in_flight → 0 <= clk e →
  0 <= clk e / 1000000 - started < 4611686018427387904 →
  round fuel s e = Some (inl s', e', u) → progress (clk e / 1000000) s s'.
Proof.
  intros Hi Hmax Hclk Hel Hr. unfold round, sweep_round in Hr.
  apply bind_inv in Hr as (now & e1 & u1 & v1 & Hnow & Hr & ->).
  apply bind_inv in Hr as (s2 & e2 & u2 & v2 & Hexp & Hr & ->).
  apply bind_inv in Hr as (s3 & e3 & u3 & v3 & Hstop & Hr & ->).
  apply bind_inv in Hr as ([s4 busy] & e4 & u4 & v4 & Hsend & Hr & ->).
  apply now_ms_clock in Hnow as (-> & Hq & _).
  assert (inv s (t ++ u1)) as Hi1 by by apply inv_quiet.
  assert (inv s2 ((t ++ u1) ++ u2)) as Hi2 by by eapply step_expire.
  assert (inv s3 (((t ++ u1) ++ u2) ++ u3)) as Hi3 by by eapply step_check_stop.
  assert (inv s4 ((((t ++ u1) ++ u2) ++ u3) ++ u4)) as Hi4 by by eapply step_send_loop.
  destruct (expire_before _ _ _ _ _ _ _ Hexp Hi1 Hi2) as [Hs2 Hfly].
  apply check_stop_same in Hstop as [b ->].
  destruct (_ && _) eqn:Hgo in Hr; [by run_inv|].
  assert (settles s4 s') as Hs4.
  { apply bind_inv in Hr as (r & e5 & u5 & v5 & Hpoll & Hr & ->).
    destruct r as [revents|]; [|run_inv; apply settles_refl].
    case_test; run_inv; [apply settles_refl|]. by eapply drain_sockets_settles. }
  pose proof (send_loop_flying _ _ _ _ _ _ _ _ Hsend) as Hnew.
  apply send_loop_held in Hsend as [Hlt|Hheld].
  - eapply progress_settles; [exact Hs2| |exact Hs4]. left.
    change (measure s2) with (measure (stop b s2)). by eapply measure_sent.
  - eapply progress_settles; [exact Hs2| |exact Hs4].
    change (progress (clk e / 1000000) (stop b s2) s4).
    eapply held_progress; [lia|apply Z.div_pos; lia|done|exact Hi3|exact Hfly|exact Hheld|exact Hgo].
Qed.

(** ** Termination *)

Lemma total_expire n now s : total (expire (E := E) timeout_ms n now s).
Proof. revert s. induction n; intros; cbn [expire]; unfold report; solve_total. Qed.

Lemma total_try_sockets ks ip next :
  total (try_sockets (E := E) os ident token socks ks ip next).
Proof. induction ks; cbn [try_sockets]; unfold send_echo; solve_total. Qed.
#[local] Hint Resolve total_expire total_try_sockets : total.

Lemma total_send_loop budget now s :
  total (send_loop (E := E) os ips max_in_flight ident token socks budget now s).
Proof. revert s. induction budget; intros; cbn [send_loop]; unfold report; solve_total. Qed.

#[local] Hint Resolve total_send_loop : total.

Lemma sweep_round_runs s : runs (λ n, round n s).
Proof.
  unfold round, sweep_round.
  apply runs_bind; [apply runs_const; unfold now_ms; solve_total|]. intros now.
  apply runs_bind; [apply runs_const; solve_total|]. intros s2.
  apply runs_bind; [apply runs_const; unfold check_stop; solve_total|]. intros s3.
  apply runs_bind; [apply runs_const; solve_total|]. intros [s4 busy].
  destruct (_ && _); [apply runs_const; solve_total|].
  apply runs_bind; [apply runs_const; solve_total|].
  intros [revents|]; [|apply runs_const; solve_total].
  destruct (_ =? _)%nat; [apply runs_const; solve_total|].
  apply runs_bind; [apply drain_sockets_runs|]. intros. apply runs_const. solve_total.
Qed.

(** ** How long the rounds take *)

(** Every echo in flight left by [now], and so did the first attempt that
    found the sockets full. *)
Definition past (now : Z) (s : sweep) : Prop := latest s <= now ∧ sw_busy_since s <= now.

Lemma past_settles now s s' : settles s s' → past now s → past now s'.
Proof.
  intros (_ & Hsent & Hb & _ & Hfly & _) [Hl ?]. split; [|by rewrite Hb].
  etrans; [|exact Hl]. apply latest_spec; [apply latest_pos|].
  intros i t Hi Ht. rewrite Hsent in Ht. eapply latest_lookup; eauto.
Qed.

Lemma past_launched now s : 0 <= now → past now s → past now (launched now s).
Proof.
  intros Hnow [Hl Hb]. split; [|done]. apply latest_spec; [done|]. intros i t Hi Ht.
  simpl in *. apply list_lookup_insert_Some in Ht as [(_ & -> & _)|[Hne Ht]]; [done|].
  rewrite list_lookup_insert_ne in Hi by done. etrans; [by eapply latest_lookup|done].
Qed.

Lemma past_busy_from now b s : b <= now → past now s → past now (busy_from b s).
Proof. by intros ? [? _]. Qed.

Lemma past_next_host now s : past now s → past now (next_host s).
Proof. done. Qed.

Lemma past_reported now i s : past now s → past now (reported i s).
Proof.
  intros Hp. assert (past now (landed (reported i s))) as Hp' by by eapply past_settles, Hp; apply settles_landed.
  exact Hp'.
Qed.

Lemma past_send_loop budget now s (e : E) s' busy e' u :
  0 <= now → send_loop os ips max_in_flight ident token socks budget now s e = Some ((s', busy), e', u) →
  past now s → past now s'.
Proof.
  intros Hnow. revert s e u. induction budget as [|budget IH]; intros s e u Hr Hp; cbn [send_loop] in Hr;
    [by run_inv|].
  destruct (ips !! sw_next s) as [ip|]; [|by run_inv].
  destruct (sw_stopped s || _); [by run_inv|].
  apply bind_inv in Hr as (sent & e1 & t1 & t2 & _ & Hr & ->).
  assert (past now (busy_from (-1) s)) as Hq by (apply past_busy_from; [lia|done]).
  assert (past now (next_host (reported (sw_next s) (busy_from (-1) s)))) as Hrep
    by by apply past_next_host, past_reported.
  unfold report in Hr. destruct sent.
  - eapply IH; [exact Hr|]. by apply past_next_host, past_launched.
  - destruct (now - _ <? _).
    + run_inv. apply past_busy_from; [|done]. destruct Hp. case_test; lia.
    + run_inv. by eapply IH.
  - run_inv. by eapply IH.
Qed.

(** The round's clock reading, and what is [past] then still is after. *)
Lemma sweep_round_past fuel s (e : E) s' e' u :
  0 <= clk e → round fuel s e = Some (inl s', e', u) →
  past (clk e / 1000000) s → past (clk e / 1000000) s'.
Proof.
  intros Hclk Hr Hp. unfold round, sweep_round in Hr.
  apply bind_inv in Hr as (now & e1 & u1 & v1 & Hnow & Hr & ->).
  apply bind_inv in Hr as (s2 & e2 & u2 & v2 & Hexp & Hr & ->).
  apply bind_inv in Hr as (s3 & e3 & u3 & v3 & Hstop & Hr & ->).
  apply bind_inv in Hr as ([s4 busy] & e4 & u4 & v4 & Hsend & Hr & ->).
  apply now_ms_clock in Hnow as (-> & _ & _).
  apply expire_end in Hexp as [Hs2 _]; [|done]. apply (past_settles _ _ _ Hs2) in Hp.
  apply check_stop_same in Hstop as [b ->].
  apply past_send_loop in Hsend; [|apply Z.div_pos; lia|exact Hp].
  destruct (_ && _) in Hr; [by run_inv|].
  apply bind_inv in Hr as (r & e5 & u5 & v5 & Hpoll & Hr & ->).
  destruct r as [revents|]; [|by run_inv]. case_test; run_inv; [done|].
  eapply past_settles; [by eapply drain_sockets_settles|done].
Qed.

(** The longest the sweep stays without progress, but for the round under
    way. *)
Definition pause_ms : Z := Z.max 0 timeout_ms + BUSY_GIVE_UP_MS + Z.of_nat (length ips) + 1.

Lemma past_deadline now s t :
  inv s t → started <= now → past now s → deadline s <= now + pause_ms.
Proof.
  intros Hi Hst [Hl Hb]. pose proof (inv_next _ _ _ _ _ _ _ Hi).
  unfold deadline, pause_ms, BUSY_GIVE_UP_MS in *. lia.
Qed.

(** The send budget's 64-bit arithmetic is exact until then. *)
Definition HORIZON_MS : Z := 4611686018427387904.

Definition pause_ns : Z := pause_ms * 1000000.
Definition deadline_ns (s : sweep) (e : E) : Z := deadline s * 1000000.

(** What holds between the rounds. *)
Definition underway (s : sweep) (e : E) : Prop :=
  (∃ t, inv s t) ∧ past (clk e / 1000000) s ∧ 0 <= clk e ∧ started <= clk e / 1000000.

Lemma underway_deadline s (e : E) : underway s e → deadline_ns s e <= clk e + pause_ns.
Proof.
  intros ([t Hi] & Hp & Hc & Hst). pose proof (past_deadline _ _ _ Hi Hst Hp) as Hd.
  unfold deadline_ns, pause_ns.
  pose proof (Z.div_mod (clk e) 1000000). pose proof (Z.mod_pos_bound (clk e) 1000000). lia.
Qed.

(** A round that goes on makes progress or began before the deadline. *)
Lemma sweep_round_paced n s (e : E) s' e' u :
  0 < max_in_flight → underway s e → clk e' < (started + HORIZON_MS) * 1000000 →
  round n s e = Some (inl s', e', u) →
  underway s' e' ∧ deadline_ns s' e' <= clk e' + pause_ns ∧
  paced_order (λ s _, measure s) deadline_ns (s', e') (s, e).
Proof.
  intros Hmax ([t Hi] & Hp & Hclk & Hst) Hnear Hr.
  pose proof (sweep_round_clock _ _ _ _ _ _ Hr) as Ht.
  assert (clk e <= clk e') as Hle by (unfold ticked in Ht; lia).
  assert (clk e / 1000000 < started + HORIZON_MS) as Hel by (apply Z.div_lt_upper_bound; lia).
  assert (progress (clk e / 1000000) s s') as Hprog.
  { eapply sweep_round_progress; try done. unfold HORIZON_MS in *. lia. }
  pose proof (step_sweep_round _ _ _ _ _ _ _ _ Hcount _ _ _ _ _ _ _ Hi Hr) as Hi'. simpl in Hi'.
  pose proof (sweep_round_past _ _ _ _ _ _ Hclk Hr Hp) as Hp'.
  assert (clk e / 1000000 <= clk e' / 1000000) as Hle' by (apply Z.div_le_mono; lia).
  assert (underway s' e') as Hun.
  { split; [by eexists|]. split; [destruct Hp'; split; lia|]. lia. }
  split; [done|]. split; [by apply underway_deadline|]. split; [done|].
  destruct Hprog as [|(? & ? & Hlt)]; [by left|right]. unfold deadline_ns. simpl. split; [done|].
  pose proof (Z.div_mod (clk e) 1000000). pose proof (Z.mod_pos_bound (clk e) 1000000). lia.
Qed.
End Live.

(** ** The whole sweep *)

Section WholeSweep.
Context {E : Type} `{ClockLaw E} `{!QueueLaw E}.
Variable os : platform.

Lemma total_open_sockets n socks : total (open_sockets (E := E) os n socks).
Proof.
  revert socks. induction n; intros; cbn [open_sockets]; unfold open_socket; solve_total.
Qed.

Lemma timely_open_sockets n socks : timely (open_sockets (E := E) os n socks).
Proof.
  revert socks. induction n; intros; cbn [open_sockets]; unfold open_socket; solve_timely.
Qed.

Lemma total_close_all socks : total (close_all (E := E) socks).
Proof. induction socks; cbn [close_all]; solve_total. Qed.
#[local] Hint Resolve total_open_sockets total_close_all : total.
#[local] Hint Resolve timely_open_sockets : timely.

Lemma total_sweep_setup n max : total (sweep_setup (E := E) os n max).
Proof. unfold sweep_setup, free_opt, now_ms. solve_total. Qed.

(** The requests between the sweep's first clock reading and its first
    round, in ms. *)
Definition SETUP_MS : Z := 345600000.

(** The sweep's own clock starts before its first round, and not long
    before. *)
Lemma sweep_setup_started n max (e : E) su e' t :
  sweep_setup os n max e = Some (inr su, e', t) → 0 <= clk e →
  0 <= clk e' ∧ su_started su <= clk e' / 1000000 <= su_started su + SETUP_MS.
Proof.
  intros Hr Hc. unfold sweep_setup in Hr.
  apply bind_inv in Hr as (socks & e1 & t1 & u & Ho & Hr & ->).
  apply timely_open_sockets in Ho. case_test; [by run_inv|].
  apply bind_inv in Hr as (state & e2 & t2 & u2 & Hm & Hr & ->). apply timely_ask in Hm.
  apply bind_inv in Hr as (sent & e3 & t3 & u3 & Hs & Hr & ->). apply timely_ask in Hs.
  destruct state as [p|]; [destruct sent as [q|]|]; [|run_inv..].
  apply bind_inv in Hr as (now & e4 & t4 & u4 & Hnow & Hr & ->).
  assert (clk e4 <= clk e3 + 86400000000000) as Hday.
  { unfold now_ms in Hnow. run_inv. rename select (env_step ClockMonotonic _ = _) into Hstep.
    pose proof (clock_day _ _ 0 _ _ _ Hstep eq_refl). lia. }
  apply now_ms_clock in Hnow as (Hnow & _ & Ht%ticked_later).
  match type of Hr with ?m _ = _ => assert (timely m) as Hl by solve_timely end.
  pose proof (Hl _ _ _ _ Hr) as Hl'.
  assert (clk e' <= clk e4 + 3 * 86400000000000) as Hdays.
  { run_inv. repeat match goal with Hstep : env_step _ _ = _ |- _ =>
      apply (clock_day _ _ 0) in Hstep; [|done] end. lia. }
  run_inv. simpl. unfold later, SETUP_MS in *. split; [lia|].
  rewrite <- Z.div_add by lia. split; apply Z.div_le_mono; lia.
Qed.

Lemma underway_start garbage ips max su (e : E) :
  Z.of_nat (length ips) < 18446744073709551616 →
  0 <= max → 0 <= clk e → su_started su <= clk e / 1000000 →
  underway os ips max (su_ident su) (su_token su) (su_started su) (sweep_start (length ips) garbage) e.
Proof.
  intros Hcount Hmax Hc Hst. assert (0 <= clk e / 1000000) as Hnow by (apply Z.div_pos; lia).
  split; [exists []; by apply inv_start|]. split; [|done].
  split; [|simpl; lia]. apply (proj1 (latest_spec _ _ Hnow)).
  intros i x Hs _. simpl in Hs. by apply lookup_replicate in Hs as [? _].
Qed.

Lemma measure_start garbage ips : measure ips (sweep_start (length ips) garbage) = (4 * length ips + 1)%nat.
Proof.
  unfold measure. assert (flying (sweep_start (length ips) garbage) = 0%nat) as ->; [|simpl; lia].
  apply countb_zero. intros i h Hh. simpl in Hh. by apply lookup_replicate in Hh as [-> _].
Qed.

(** The longest a sweep takes, when no round lasts longer than [round_ms]. *)
Definition sweep_span (ips : list ip4) (timeout_ms round_ms : Z) : Z :=
  span_ns (pause_ns ips timeout_ms) round_ms (4 * length ips + 1).

(** C5: a sweep ends.  Under the laws of the clock and of the receive
    queues, and when no single round lasts longer than [round_ms],
    [icmp_ping_sweep] returns for every set of hosts, timeout and limit
    (some fuel is enough, and more changes nothing), and every round of it
    begins within [sweep_span] of the first: at most four pauses a host, each
    a timeout, a wait for room and the pacing of all hosts.  The span has to
    stay under 2^62 ms, where the send budget wraps. *)
Theorem icmp_ping_sweep_terminates garbage ips timeout_ms max round_ms (e : E) :
  Z.of_nat (length ips) < 18446744073709551616 → 0 <= max → 0 <= clk e → 0 <= round_ms →
  sweep_span ips timeout_ms round_ms < (HORIZON_MS - SETUP_MS - 1 - round_ms) * 1000000 →
  (∀ su e1 t, sweep_setup os (length ips) (Z.max 1 max) e = Some (inr su, e1, t) →
    brisk (sweep_round os ips timeout_ms (Z.max 1 max) (su_ident su) (su_token su)
      (su_started su) (su_socks su)) round_ms (sweep_start (length ips) garbage, e1)) →
  (∃ n, ∀ m, (n ≤ m)%nat → is_Some (icmp_ping_sweep os m garbage ips timeout_ms max e)) ∧
  ∀ su e1 t s e2,
    sweep_setup os (length ips) (Z.max 1 max) e = Some (inr su, e1, t) →
    rounds (sweep_round os ips timeout_ms (Z.max 1 max) (su_ident su) (su_token su)
      (su_started su) (su_socks su)) (sweep_start (length ips) garbage, e1) (s, e2) →
    clk e2 <= clk e1 + sweep_span ips timeout_ms round_ms.
Proof.
  intros Hcount Hmax Hclk Hround Hspan Hbrisk.
  assert (∀ su e1 t, sweep_setup os (length ips) (Z.max 1 max) e = Some (inr su, e1, t) →
    let body := sweep_round os ips timeout_ms (Z.max 1 max) (su_ident su) (su_token su)
      (su_started su) (su_socks su) in
    let s0 := sweep_start (length ips) garbage in
    (∃ n, ∀ m k, (n ≤ m)%nat → (n ≤ k)%nat → is_Some (loop m (body k) s0 e1)) ∧
    ∀ s e2, rounds body (s0, e1) (s, e2) → clk e2 <= clk e1 + sweep_span ips timeout_ms round_ms) as Hloop.
  { intros su e1 t Hsu body s0. destruct (sweep_setup_started _ _ _ _ _ _ Hsu Hclk) as [Hc1 Hst].
    pose proof (underway_start garbage ips (Z.max 1 max) su e1 Hcount ltac:(lia) Hc1 ltac:(lia)) as Hun.
    unfold sweep_span in *. rewrite <- (measure_start garbage ips) in *.
    apply (paced_terminates body (underway os ips (Z.max 1 max) (su_ident su) (su_token su) (su_started su))
      (λ s _, measure ips s) (deadline_ns timeout_ms (su_started su)) (pause_ns ips timeout_ms)
      ((su_started su + HORIZON_MS) * 1000000)); try done.
    - intros s. apply sweep_round_runs.
    - unfold pause_ns, pause_ms, BUSY_GIVE_UP_MS. lia.
    - intros. eapply sweep_round_paced; try done. lia.
    - by eapply underway_deadline.
    - assert (clk e1 < (clk e1 / 1000000 + 1) * 1000000); [|lia].
      pose proof (Z.div_mod (clk e1) 1000000). pose proof (Z.mod_pos_bound (clk e1) 1000000). lia.
    - by eapply Hbrisk. }
  split; [|intros su e1 t s e2 Hsu; by apply (Hloop _ _ _ Hsu)].
  unfold icmp_ping_sweep.
  destruct (_ =? _)%nat eqn:Hn; [exists 0%nat; intros; by eexists|].
  replace (if max =? 0 then 1 else max) with (Z.max 1 max) by (case_test; lia).
  destruct (total_sweep_setup (length ips) (Z.max 1 max) e) as [[[[r|su] e1] t] Hsu].
  { exists 0%nat. intros m _. eexists. by eapply bind_some. }
  destruct (Hloop _ _ _ Hsu) as [[n Hl] _].
  exists n. intros m Hm. destruct (Hl m m Hm Hm) as [[[s e2] u] Hrun].
  match goal with |- is_Some ((_ ≫= ?k) e) => assert (is_Some (k (inr su) e1)) as [[[r e3] v] Hk] end.
  { assert (total (ask (E := E) (Free (su_sent su));; ask (Free (su_state su));;
      close_all (su_socks su);; mret ICMP_PING_DONE)) as Ht by solve_total.
    destruct (Ht e2) as [[[r e3] v] Hk]. eexists. eapply bind_some; [exact Hrun|exact Hk]. }
  eexists. eapply bind_some; [exact Hsu|exact Hk].
Qed.
End WholeSweep.

Lemma icmp_ping_sweep_terminates_witness :
  sweep_span two_hosts 20 50 = 51180000000 ∧
  (∃ n, ∀ m, (n ≤ m)%nat → is_Some (icmp_ping_sweep Linux m [] two_hosts 20 8 lan)) ∧
  ∀ su e1 t s e2,
    sweep_setup Linux 2 8 lan = Some (inr su, e1, t) →
    rounds (sweep_round Linux two_hosts 20 8 (su_ident su) (su_token su)
      (su_started su) (su_socks su)) (sweep_start 2 [], e1) (s, e2) →
    clk e2 <= clk e1 + sweep_span two_hosts 20 50.
Proof.
  split; [here|].
  refine (icmp_ping_sweep_terminates Linux [] two_hosts 20 8 50 lan _ _ _ _ _ _); [here..|].
  intros su e1 t Hsu. vm_compute in Hsu. injection Hsu as <- <- _.
  eapply (brisk_run_sound _ 50 9 (λ s, proj1 (sweep_round_runs Linux two_hosts 20 8 4242 _ 1000 [3] s)) 9).
  here.
Defined.
