(* ===== verification/IcmpSweepWin.v ===== *)
(** * icmp_ping.c, Windows: the sweep over IcmpSendEcho2

    Each echo under way owns a slot of a pool; a completion routine, run
    inside an alertable wait, reports the slot's host and returns the slot
    to the free list.  The struct [sweep] and the locals of
    [icmp_ping_sweep] are the record [win_sweep]; [free_slots] is the
    linked list from its head. *)
From S2P Require Import Prelude Words Sys Script NsSocket IcmpWire SweepSpec IcmpSweep.
Open Scope Z_scope.

(** sizeof(slot) on 64-bit Windows: REPLY_SIZE is 40 + 32 + 8 + 16 + 64. *)
Definition SLOT_SIZE : Z := 184.
Definition IP_SUCCESS : Z := 0.

Record win_sweep := WinSweep {
  ws_state : list host_state;
  ws_index : list nat;       (* slots[k].index *)
  ws_free : list nat;        (* free_slots and what follows it *)
  ws_in_flight : Z;
  ws_next : nat;
  ws_stopped : bool
}.

(** state[i] = STATE_REPORTED *)
Definition win_reported (i : nat) (s : win_sweep) : win_sweep :=
  WinSweep (<[i := STATE_REPORTED]> (ws_state s)) (ws_index s) (ws_free s) (ws_in_flight s)
    (ws_next s) (ws_stopped s).

Definition release (sl : nat) (s : win_sweep) : win_sweep :=
  WinSweep (ws_state s) (ws_index s) (sl :: ws_free s) (u64 (ws_in_flight s - 1))
    (ws_next s) (ws_stopped s).

(** Take the first free slot for host [next]. *)
Definition win_launched (sl : nat) (free : list nat) (s : win_sweep) : win_sweep :=
  WinSweep (<[ws_next s := STATE_IN_FLIGHT]> (ws_state s)) (<[sl := ws_next s]> (ws_index s)) free
    (u64 (ws_in_flight s + 1)) (S (ws_next s)) (ws_stopped s).

Definition win_stop (b : bool) (s : win_sweep) : win_sweep :=
  WinSweep (ws_state s) (ws_index s) (ws_free s) (ws_in_flight s) (ws_next s) b.

(** sl->index *)
Definition slot_index (s : win_sweep) (sl : nat) : nat := default 0%nat (ws_index s !! sl).

Section IcmpSweepWin.
Context {E : Type} `{Env E}.

(** counter / (frequency / 1000) *)
Definition win_now_ms : M E Z :=
  fc ← ask PerfCounter;
  mret (Z.quot fc.2 (Z.quot fc.1 1000)).

(** SleepEx, or a waitable timer: the slots whose completion routines ran. *)
Definition alertable_wait (timer : option Z) (ms : Z) : M E (list Z) :=
  match timer with
  | Some timer =>
    set ← ask (SetTimer timer (- ms * 10000));
    if (set : bool) then ask (AlertableWait None) else ask (AlertableWait (Some ms))
  | None => ask (AlertableWait (Some ms))
  end.

Section WinRound.
Variables (ips : list ip4) (timeout_ms : Z) (icmp : Z) (timer : option Z) (started : Z).

Definition is_answer (sl : nat) (s : win_sweep) : M E bool :=
  reply ← ask (IcmpParseReplies (Z.of_nat sl));
  mret (if ir_count reply =? 0 then false
        else (ir_status reply =? IP_SUCCESS) &&
             bool_decide (ips !! slot_index s sl = Some (ir_addr reply))).

(** report, then release. *)
Definition finish (sl : nat) (answered : bool) (s : win_sweep) : M E win_sweep :=
  ask (Pinged (slot_index s sl) answered);;
  mret (release sl (win_reported (slot_index s sl) s)).

Definition on_reply (sl : nat) (s : win_sweep) : M E win_sweep :=
  answered ← is_answer sl s;
  finish sl answered s.

(** The completion routines an alertable wait ran, in their order. *)
Fixpoint completions (done : list Z) (s : win_sweep) : M E win_sweep :=
  match done with
  | [] => mret s
  | sl :: done => s ← on_reply (Z.to_nat sl) s; completions done s
  end.

(** payload: all zero but the index. *)
Definition win_payload (index : nat) : list Z :=
  payload_bytes (EchoPayload 0 (u32 (Z.of_nat index)) (replicate (PAYLOAD_LEN - 8) 0)).

(** while (!stopped && next < count && s.free_slots != NULL && budget > 0) *)
Fixpoint win_send_loop (budget : nat) (s : win_sweep) : M E win_sweep :=
  match budget with
  | O => mret s
  | S budget =>
    match ips !! ws_next s, ws_free s with
    | Some ip, sl :: free =>
      if ws_stopped s then mret s
      else
        let payload := win_payload (ws_next s) in
        let s := win_launched sl free s in
        rc ← ask (IcmpSendEcho2 icmp (Z.of_nat sl) ip payload (u32 timeout_ms));
        match rc with
        | Echo2Zero err =>
          if err =? ERROR_IO_PENDING then win_send_loop budget s
          else s ← finish sl false s; win_send_loop budget s
        | Echo2Replies _ =>
          answered ← is_answer sl s;
          s ← finish sl answered s;
          win_send_loop budget s
        end
    | _, _ => mret s
    end
  end.

Definition win_check_stop (s : win_sweep) : M E win_sweep :=
  if ws_stopped s then mret s
  else requested ← ask StopRequested; mret (win_stop (requested : bool) s).

(** One round of the for (;;). *)
Definition win_round (s : win_sweep) : M E (win_sweep + win_sweep) :=
  s ← win_check_stop s;
  now ← win_now_ms;
  s ← win_send_loop (Z.to_nat (send_budget (now - started) (Z.of_nat (ws_next s)))) s;
  if (ws_in_flight s =? 0) && (ws_stopped s || (ws_next s =? length ips)%nat) then mret (inr s)
  else
    let can_send := negb (ws_stopped s) && (ws_next s <? length ips)%nat &&
                    negb (length (ws_free s) =? 0)%nat in
    done ← alertable_wait timer (if can_send then 1 else 50);
    s ← completions done s;
    mret (inl s).
End WinRound.

(** Every slot goes to the front of the free list in turn. *)
Definition win_start (count slots : nat) : win_sweep :=
  WinSweep (replicate count STATE_WAITING) (replicate slots 0%nat)
    (fold_left (λ free k, k :: free) (seq 0 slots) []) 0 0 false.

(** What the sweep sets up before its loop. *)
Record win_setup := WinSetup {
  wu_icmp : Z; wu_state : Z; wu_slots : Z; wu_timer : option Z; wu_started : Z
}.

(** From opening the ICMP handle to the clock; [inl] is an early return. *)
Definition win_prepare (count max_in_flight : Z) : M E (icmp_ping_result + win_setup) :=
  icmp ← ask IcmpCreateFile;
  match icmp with
  | None => mret (inl ICMP_PING_UNAVAILABLE)
  | Some icmp =>
    state ← ask (Malloc count);
    slots ← ask (Malloc (max_in_flight * SLOT_SIZE));
    match state, slots with
    | Some state, Some slots =>
      timer ← ask CreateTimer;
      started ← win_now_ms;
      mret (inr (WinSetup icmp state slots timer started))
    | _, _ =>
      free_opt state;;
      free_opt slots;;
      ask (IcmpCloseHandle icmp);;
      mret (inl ICMP_PING_NO_MEMORY)
    end
  end.

(** The size of the pool: max_in_flight, from 1 to the number of hosts. *)
Definition win_limit (count max_in_flight : Z) : Z :=
  let max_in_flight := if max_in_flight =? 0 then 1 else max_in_flight in
  if max_in_flight >? count then count else max_in_flight.

Definition win_ping_sweep (fuel : nat) (ips : list ip4) (timeout_ms max_in_flight : Z)
    : M E icmp_ping_result :=
  let count := Z.of_nat (length ips) in
  if count =? 0 then mret ICMP_PING_DONE
  else
    let max_in_flight := win_limit count max_in_flight in
    su ← win_prepare count max_in_flight;
    match su with
    | inl r => mret r
    | inr su =>
      loop fuel (win_round ips timeout_ms (wu_icmp su) (wu_timer su) (wu_started su))
        (win_start (length ips) (Z.to_nat max_in_flight));;
      (match wu_timer su with Some timer => ask (CloseTimer timer) | None => mret () end);;
      ask (IcmpCloseHandle (wu_icmp su));;
      ask (Free (wu_slots su));;
      ask (Free (wu_state su));;
      mret ICMP_PING_DONE
    end.
End IcmpSweepWin.

(** ** The invariant *)

Section WinInvariant.
Variables (ips : list ip4) (slots : nat).

(** Host [i]'s echo came back: a parsed reply says so. *)
Definition win_heard (t : list event) (i : nat) : Prop :=
  ∃ sl reply, Ev (IcmpParseReplies sl) reply ∈ t ∧ ir_count reply ≠ 0 ∧
    ir_status reply = IP_SUCCESS ∧ ips !! i = Some (ir_addr reply).

Definition hosts_of (s : win_sweep) (P : list Z) : list nat :=
  map (λ sl, slot_index s (Z.to_nat sl)) P.

(** [P]: the slots of the echoes under way.  The free list and they share
    out the pool, and the hosts they carry are the hosts in flight. *)
Record win_inv (s : win_sweep) (P : list Z) (t : list event) : Prop := {
  wi_state : length (ws_state s) = length ips;
  wi_index : length (ws_index s) = slots;
  wi_next : (ws_next s ≤ length ips)%nat;
  wi_waiting : ∀ i, (ws_next s ≤ i)%nat → ∀ h, ws_state s !! i = Some h → h = STATE_WAITING;
  wi_started : ∀ i, (i < ws_next s)%nat → ws_state s !! i ≠ Some STATE_WAITING;
  wi_pool : map Z.of_nat (ws_free s) ++ P ≡ₚ map Z.of_nat (seq 0 slots);
  wi_in_flight : ws_in_flight s = Z.of_nat (length P);
  wi_hosts : NoDup (hosts_of s P);
  wi_flying : ∀ i, i ∈ hosts_of s P ↔ ws_state s !! i = Some STATE_IN_FLIGHT;
  wi_nodup : NoDup (pinged t).*1;
  wi_pinged : ∀ i, i ∈ (pinged t).*1 ↔ ws_state s !! i = Some STATE_REPORTED;
  wi_heard : ∀ i, (i, true) ∈ pinged t → win_heard t i;
  wi_stop : ws_stopped s = true → stop_seen t
}.

Lemma win_heard_app t u i : win_heard t i → win_heard (t ++ u) i.
Proof. intros (sl & r & Ht & Ha). exists sl, r. set_solver. Qed.

Lemma win_inv_perm s P P' t : P ≡ₚ P' → win_inv s P t → win_inv s P' t.
Proof.
  intros HP []. split; try done.
  - by rewrite <- HP.
  - by rewrite <- HP.
  - unfold hosts_of in *. by rewrite <- HP.
  - intros i. unfold hosts_of in *. by rewrite <- HP.
Qed.

Lemma win_inv_quiet s P t u : pinged u = [] → win_inv s P t → win_inv s P (t ++ u).
Proof.
  intros Hu []. split; try done; rewrite ?pinged_app, ?Hu, ?app_nil_r; try done.
  - intros i Hi. by apply win_heard_app, wi_heard0.
  - unfold stop_seen in *. set_solver.
Qed.

Lemma pool_bound s P t : win_inv s P t → (length P + length (ws_free s) = slots)%nat.
Proof.
  intros Hi. pose proof (Permutation_length (wi_pool _ _ _ Hi)) as Hl.
  rewrite length_app, !length_map, length_seq in Hl. lia.
Qed.

Lemma pool_nodup s P t : win_inv s P t → NoDup (map Z.of_nat (ws_free s) ++ P).
Proof.
  intros Hi. rewrite (wi_pool _ _ _ Hi). apply NoDup_fmap_2; [intros ???; lia|apply NoDup_seq].
Qed.

Lemma pool_slot s P t sl : win_inv s P t → sl ∈ P → 0 <= sl ∧ (Z.to_nat sl < slots)%nat.
Proof.
  intros Hi Hin. assert (sl ∈ map Z.of_nat (seq 0 slots)) as Hs.
  { rewrite <- (wi_pool _ _ _ Hi). apply elem_of_app. by right. }
  apply list_elem_of_fmap in Hs as (k & -> & Hk). apply elem_of_seq in Hk. lia.
Qed.

Hypothesis Hcount : Z.of_nat (length ips) < 18446744073709551616.
Hypothesis Hslots : (slots ≤ length ips)%nat.

(** Slots other than [sl] keep their hosts. *)
Lemma hosts_launched s sl free P :
  (sl < length (ws_index s))%nat → Z.of_nat sl ∉ P → (∀ k, k ∈ P → 0 <= k) →
  hosts_of (win_launched sl free s) (P ++ [Z.of_nat sl]) = hosts_of s P ++ [ws_next s].
Proof.
  intros Hlt Hnew Hpos. unfold hosts_of. rewrite map_app. simpl. f_equal.
  - apply map_ext_in. intros k Hk%list_elem_of_In. unfold slot_index; simpl.
    rewrite list_lookup_insert_ne; [done|]. intros ->. specialize (Hpos _ Hk).
    by rewrite Z2Nat.id in Hnew.
  - unfold slot_index; simpl. by rewrite Nat2Z.id, list_lookup_insert_eq.
Qed.

Lemma inv_launched s P t sl free :
  win_inv s P t → ws_free s = sl :: free → (ws_next s < length ips)%nat →
  win_inv (win_launched sl free s) (P ++ [Z.of_nat sl]) t.
Proof.
  intros Hi Hf Hn. pose proof (pool_bound _ _ _ Hi) as Hb. rewrite Hf in Hb. simpl in Hb.
  pose proof (pool_nodup _ _ _ Hi) as Hnd. rewrite Hf in Hnd.
  assert (sl < slots)%nat as Hsl.
  { assert (Z.of_nat sl ∈ map Z.of_nat (seq 0 slots)) as Hs.
    { rewrite <- (wi_pool _ _ _ Hi), Hf. simpl. apply list_elem_of_here. }
    apply list_elem_of_fmap in Hs as (k & Hk & Hin). apply elem_of_seq in Hin. lia. }
  assert (Z.of_nat sl ∉ P) as Hnew.
  { simpl in Hnd. apply NoDup_cons in Hnd as [Hnd _]. set_solver. }
  assert (hosts_of (win_launched sl free s) (P ++ [Z.of_nat sl]) = hosts_of s P ++ [ws_next s]) as Hh.
  { apply hosts_launched; [by rewrite (wi_index _ _ _ Hi)|done|].
    intros k Hk. by destruct (pool_slot _ _ _ _ Hi Hk). }
  assert (ws_state s !! ws_next s = Some STATE_WAITING) as Hw.
  { destruct (lookup_lt_is_Some_2 (ws_state s) (ws_next s)) as [h Hh']; [by rewrite (wi_state _ _ _ Hi)|].
    by rewrite (wi_waiting _ _ _ Hi _ ltac:(done) _ Hh') in Hh'. }
  assert (length (ws_state s) = length ips) as Hlen by apply Hi.
  pose proof (wi_in_flight _ _ _ Hi) as Hfl.
  split; simpl; rewrite ?length_insert; try apply Hi; try lia.
  - intros i Hle h Hh'. rewrite list_lookup_insert_ne in Hh' by lia.
    eapply (wi_waiting _ _ _ Hi); [|done]. lia.
  - intros i Hlt. destruct (decide (i = ws_next s)) as [->|].
    + by rewrite list_lookup_insert_eq by lia.
    + rewrite list_lookup_insert_ne by done. apply (wi_started _ _ _ Hi). lia.
  - rewrite <- (wi_pool _ _ _ Hi), Hf. simpl. rewrite app_assoc.
    by rewrite <- Permutation_cons_append.
  - rewrite u64_id by (unfold is_u64; lia). rewrite length_app. simpl. lia.
  - rewrite Hh. apply NoDup_app. split; [apply Hi|]. split; [|apply NoDup_singleton].
    intros i Hin ->%list_elem_of_singleton. apply (wi_flying _ _ _ Hi) in Hin. congruence.
  - intros i. rewrite Hh, elem_of_app, list_elem_of_singleton, (wi_flying _ _ _ Hi).
    destruct (decide (i = ws_next s)) as [->|].
    + rewrite list_lookup_insert_eq by lia. naive_solver.
    + rewrite list_lookup_insert_ne by done. naive_solver.
  - intros i. rewrite (wi_pinged _ _ _ Hi). destruct (decide (i = ws_next s)) as [->|].
    + rewrite list_lookup_insert_eq by lia. rewrite Hw. naive_solver.
    + by rewrite list_lookup_insert_ne by done.
Qed.

Lemma inv_finished s P t sl a :
  win_inv s (Z.of_nat sl :: P) t → (a = true → win_heard t (slot_index s sl)) →
  win_inv (release sl (win_reported (slot_index s sl) s)) P
    (t ++ [Ev (Pinged (slot_index s sl) a) ()]).
Proof.
  intros Hi Ha. set (i := slot_index s sl).
  assert (hosts_of s (Z.of_nat sl :: P) = i :: hosts_of s P) as Hh.
  { unfold hosts_of. simpl. by rewrite Nat2Z.id. }
  pose proof (wi_hosts _ _ _ Hi) as Hnd. rewrite Hh in Hnd. apply NoDup_cons in Hnd as [Hnew Hnd].
  assert (ws_state s !! i = Some STATE_IN_FLIGHT) as Hf.
  { apply (wi_flying _ _ _ Hi). rewrite Hh. apply list_elem_of_here. }
  assert (i < ws_next s)%nat as Hlt.
  { destruct (decide (i < ws_next s)%nat); [done|].
    by discriminate (wi_waiting _ _ _ Hi i ltac:(lia) _ Hf). }
  assert (i < length (ws_state s))%nat as Hlen by eauto with netscan.
  pose proof (pool_bound _ _ _ Hi) as Hb. simpl in Hb.
  pose proof (wi_in_flight _ _ _ Hi) as Hfl. simpl in Hfl.
  split; simpl; rewrite ?length_insert; try apply Hi.
  - intros j Hj h Hh'. rewrite list_lookup_insert_ne in Hh' by lia. by eapply (wi_waiting _ _ _ Hi).
  - intros j Hj. destruct (decide (j = i)) as [->|].
    + by rewrite list_lookup_insert_eq.
    + rewrite list_lookup_insert_ne by done. by apply (wi_started _ _ _ Hi).
  - rewrite <- (wi_pool _ _ _ Hi). apply Permutation_middle.
  - rewrite u64_id by (unfold is_u64; lia). lia.
  - done.
  - intros j. assert (hosts_of (release sl (win_reported i s)) P = hosts_of s P) as -> by done.
    destruct (decide (j = i)) as [->|].
    + rewrite list_lookup_insert_eq by done. naive_solver.
    + rewrite list_lookup_insert_ne by done. rewrite <- (wi_flying _ _ _ Hi), Hh.
      rewrite elem_of_cons. naive_solver.
  - rewrite pinged_app, fmap_app. simpl. apply NoDup_app. split; [apply Hi|].
    split; [|apply NoDup_singleton]. intros j Hj ->%list_elem_of_singleton.
    apply (wi_pinged _ _ _ Hi) in Hj. unfold i in *. congruence.
  - intros j. rewrite pinged_app, fmap_app, elem_of_app, (wi_pinged _ _ _ Hi). simpl.
    rewrite list_elem_of_singleton. destruct (decide (j = i)) as [->|].
    + rewrite list_lookup_insert_eq by done. naive_solver.
    + rewrite list_lookup_insert_ne by done. naive_solver.
  - intros j. rewrite pinged_app, elem_of_app. simpl. rewrite list_elem_of_singleton.
    intros [Hj|Hj]; [by apply win_heard_app, (wi_heard _ _ _ Hi)|]. simplify_eq.
    by apply win_heard_app, Ha.
  - intros Hs. pose proof (wi_stop _ _ _ Hi Hs). unfold stop_seen in *. set_solver.
Qed.

Lemma inv_win_stop b s P t :
  ws_stopped s = false → win_inv s P t → win_inv (win_stop b s) P (t ++ [Ev StopRequested b]).
Proof.
  intros Hs Hi. destruct (win_inv_quiet s P t [Ev StopRequested b] eq_refl Hi).
  split; try done. simpl. intros ->. unfold stop_seen. apply elem_of_app. right. apply list_elem_of_here.
Qed.
End WinInvariant.

(** ** The steps keep it, and follow the specification *)

Section WinSteps.
Context {E : Type} `{EchoLaw E}.
Variables (ips : list ip4) (slots : nat).
Hypothesis Hcount : Z.of_nat (length ips) < 18446744073709551616.
Hypothesis Hslots : (slots ≤ length ips)%nat.
(** The invariant, with the log so far one the specification allows. *)
Definition tracks (s : win_sweep) (P : list Z) (t : list event) : Prop :=
  win_inv ips slots s P t ∧
  follows ips (Z.of_nat slots) t (ws_next s) (ws_state s) (ws_in_flight s) (ws_stopped s).

Lemma tracks_quiet s P t u : labels u = [] → tracks s P t → tracks s P (t ++ u).
Proof.
  intros Hu [Hi Hf]. split; [|by apply follows_quiet]. apply win_inv_quiet; [by apply labels_pinged|done].
Qed.

Lemma tracks_perm s P P' t : P ≡ₚ P' → tracks s P t → tracks s P' t.
Proof. intros HP [Hi Hf]. split; [by eapply win_inv_perm|done]. Qed.

Lemma ask_kept {A} (c : call A) (e : E) r e' t :
  moves_echoes c = false → ask c e = Some (r, e', t) → pending e' = pending e ∧ t = [Ev c r].
Proof. intros Hc [Hs ->]%ask_inv. split; [by eapply pending_kept|done]. Qed.

Lemma step_is_answer sl s (e : E) a e' u t :
  is_answer ips sl s e = Some (a, e', u) →
  pending e' = pending e ∧ labels u = [] ∧ (a = true → win_heard ips (t ++ u) (slot_index s sl)).
Proof.
  intros Hr. unfold is_answer in Hr.
  apply bind_inv in Hr as (r & e1 & t1 & u1 & [Hp ->]%ask_kept & Hr & ->); [|done].
  apply ret_inv in Hr as (-> & -> & ->). rewrite app_nil_r.
  split; [done|]. split; [done|].
  intros Ha. case_test; [done|]. to_prop. exists (Z.of_nat sl), r. splits; try done.
  apply elem_of_app. right. apply list_elem_of_here.
Qed.

Lemma finish_run sl a s (e : E) s' e' u :
  finish sl a s e = Some (s', e', u) →
  s' = release sl (win_reported (slot_index s sl) s) ∧ pending e' = pending e ∧
  u = [Ev (Pinged (slot_index s sl) a) ()].
Proof.
  intros Hr. unfold finish in Hr.
  apply bind_inv in Hr as ([] & e1 & t1 & u1 & [Hp ->]%ask_kept & Hr & ->); [|done].
  by apply ret_inv in Hr as (-> & -> & ->).
Qed.

(** The counter, which never wraps. *)
Lemma in_flight_down s sl P t :
  win_inv ips slots s (Z.of_nat sl :: P) t → u64 (ws_in_flight s - 1) = ws_in_flight s - 1.
Proof.
  intros Hi. pose proof (pool_bound _ _ _ _ _ Hi) as Hb. pose proof (wi_in_flight _ _ _ _ _ Hi) as Hf.
  simpl in *. apply u64_id. unfold is_u64. lia.
Qed.

Lemma step_on_reply sl s P t (e : E) s' e' u :
  tracks s (Z.of_nat sl :: P) t → on_reply ips sl s e = Some (s', e', u) →
  tracks s' P (t ++ u) ∧ pending e' = pending e.
Proof.
  intros [Hi Hf] Hr. unfold on_reply in Hr.
  apply bind_inv in Hr as (a & e1 & t1 & u1 & Ha & Hr & ->).
  destruct (step_is_answer _ _ _ _ _ _ t Ha) as (Hp & Hq & Hh).
  destruct (finish_run _ _ _ _ _ _ _ Hr) as (-> & Hp' & ->). split; [|congruence].
  rewrite app_assoc. split.
  - apply inv_finished; [done|done|apply win_inv_quiet; [by apply labels_pinged|done]|done].
  - simpl. rewrite (in_flight_down _ _ _ _ Hi). apply follows_landed; [|by apply follows_quiet].
    apply (wi_flying _ _ _ _ _ Hi). unfold hosts_of. simpl. rewrite Nat2Z.id. apply list_elem_of_here.
Qed.

Lemma step_completions done : ∀ s P t (e : E) s' e' u,
  tracks s (done ++ P) t → completions ips done s e = Some (s', e', u) →
  tracks s' P (t ++ u) ∧ pending e' = pending e.
Proof.
  induction done as [|sl done IH]; intros s P t e s' e' u Hi Hr; cbn [completions] in Hr.
  - apply ret_inv in Hr as (-> & -> & ->). by rewrite app_nil_r.
  - apply bind_inv in Hr as (s1 & e1 & t1 & u1 & Ho & Hr & ->).
    assert (0 <= sl) as Hpos by (eapply pool_slot; [apply Hi|apply list_elem_of_here]).
    apply (step_on_reply _ _ (done ++ P) t) in Ho as [Hi1 Hp]; [|by rewrite Z2Nat.id].
    eapply IH in Hr; [|exact Hi1]. rewrite app_assoc. destruct Hr as [? ->]. done.
Qed.

(** An echo that ends on the spot: its host is reported in its turn. *)
Lemma tracks_at_once s P t sl free a :
  tracks s P t → ws_free s = sl :: free → (ws_next s < length ips)%nat → ws_stopped s = false →
  (a = true → win_heard ips t (ws_next s)) →
  let s1 := win_launched sl free s in
  slot_index s1 sl = ws_next s ∧
  tracks (release sl (win_reported (ws_next s) s1)) P (t ++ [Ev (Pinged (ws_next s) a) ()]).
Proof.
  intros [Hi Hf] Hfree Hlt Hgo Ha s1.
  pose proof (inv_launched _ _ Hcount Hslots _ _ _ _ _ Hi Hfree Hlt) as Hi1. fold s1 in Hi1.
  assert (slot_index s1 sl = ws_next s) as Hsl.
  { unfold slot_index, s1; simpl. rewrite list_lookup_insert_eq; [done|].
    rewrite (wi_index _ _ _ _ _ Hi).
    assert (Z.of_nat sl ∈ map Z.of_nat (seq 0 slots)) as Hs.
    { rewrite <- (wi_pool _ _ _ _ _ Hi), Hfree. simpl. apply list_elem_of_here. }
    apply list_elem_of_fmap in Hs as (k & Hk & Hin). apply elem_of_seq in Hin. lia. }
  split; [done|].
  eapply win_inv_perm in Hi1; [|symmetry; apply Permutation_cons_append].
  pose proof (in_flight_down _ _ _ _ Hi1) as Hdown. split.
  - rewrite <- Hsl. apply inv_finished; [done|done|done|by rewrite Hsl].
  - simpl. simpl in Hdown. rewrite Hdown.
    pose proof (wi_in_flight _ _ _ _ _ Hi1) as Hf1. simpl in Hf1. rewrite Hf1.
    pose proof (wi_in_flight _ _ _ _ _ Hi) as Hf0.
    replace (Z.of_nat (S (length P)) - 1) with (ws_in_flight s) by lia.
    rewrite list_insert_insert_eq. rewrite Hgo in *.
    apply follows_failed; [done|by rewrite (wi_state _ _ _ _ _ Hi)| |done].
    intros Hw. by discriminate (wi_waiting _ _ _ _ _ Hi _ (le_n _) _ Hw).
Qed.

(** An echo that is under way. *)
Lemma tracks_sent s P t sl free ip u :
  tracks s P t → ws_free s = sl :: free → ips !! ws_next s = Some ip → ws_stopped s = false →
  labels u = [LSent ip] → tracks (win_launched sl free s) (P ++ [Z.of_nat sl]) (t ++ u).
Proof.
  intros [Hi Hf] Hfree Hip Hgo Hu. assert (ws_next s < length ips)%nat as Hlt by eauto with netscan.
  pose proof (inv_launched _ _ Hcount Hslots _ _ _ _ _ Hi Hfree Hlt) as Hi1.
  pose proof (wi_in_flight _ _ _ _ _ Hi1) as Hf1. pose proof (wi_in_flight _ _ _ _ _ Hi) as Hf0.
  pose proof (pool_bound _ _ _ _ _ Hi) as Hb. rewrite Hfree in Hb.
  rewrite length_app in Hf1. simpl in Hb, Hf1. split.
  - apply win_inv_quiet; [by rewrite <- fates_labels, Hu|done].
  - simpl. rewrite Hf1. replace (Z.of_nat (length P + 1)) with (ws_in_flight s + 1) by lia.
    rewrite Hgo in *. eapply follows_sent; try done; [lia|by rewrite (wi_state _ _ _ _ _ Hi)|].
    intros Hw. by discriminate (wi_waiting _ _ _ _ _ Hi _ (le_n _) _ Hw).
Qed.

Lemma step_win_send_loop timeout_ms icmp budget : ∀ s t (e : E) s' e' u,
  tracks s (pending e) t → win_send_loop ips timeout_ms icmp budget s e = Some (s', e', u) →
  tracks s' (pending e') (t ++ u).
Proof.
  induction budget as [|budget IH]; intros s t e s' e' u Hi Hr; cbn [win_send_loop] in Hr;
    [apply ret_inv in Hr as (-> & -> & ->); by rewrite app_nil_r|].
  destruct (ips !! ws_next s) as [ip|] eqn:Hip;
    [|apply ret_inv in Hr as (-> & -> & ->); by rewrite app_nil_r].
  destruct (ws_free s) as [|sl free] eqn:Hfree;
    [apply ret_inv in Hr as (-> & -> & ->); by rewrite app_nil_r|].
  destruct (ws_stopped s) eqn:Hgo; [apply ret_inv in Hr as (-> & -> & ->); by rewrite app_nil_r|].
  assert (ws_next s < length ips)%nat as Hlt by eauto with netscan.
  apply bind_inv in Hr as (rc & e1 & t1 & u1 & [Hs ->]%ask_inv & Hr & ->).
  apply pending_sent in Hs. rewrite app_assoc.
  set (sent := [Ev (IcmpSendEcho2 _ _ _ _ _) rc]).
  destruct (echo2_pends (Z.of_nat sl) rc) as [|sl' pend] eqn:Hpend.
  - (* nothing under way *)
    assert (tracks s (pending e1) (t ++ sent)) as Hi1.
    { rewrite Hs, app_nil_r. apply tracks_quiet; [|done]. unfold sent. cbn. by rewrite Hpend. }
    assert (∀ a e2 t2 (u2 : list event) f2, pending e2 = pending e1 → labels t2 = [] →
      (a = true → win_heard ips ((t ++ sent) ++ t2) (slot_index (win_launched sl free s) sl)) →
      (s ← finish sl a (win_launched sl free s); win_send_loop ips timeout_ms icmp budget s) e2
        = Some (s', f2, u2) → tracks s' (pending f2) (((t ++ sent) ++ t2) ++ u2)) as Hgo2.
    { intros a e2 t2 u2 f2 Hp2 Ht2 Ha Hrun.
      apply bind_inv in Hrun as (s3 & e3 & t3 & u3 & Hfin & Hrun & ->).
      apply finish_run in Hfin as (-> & Hp3 & ->). rewrite app_assoc.
      eapply tracks_quiet in Hi1; [|exact Ht2].
      destruct (tracks_at_once _ _ _ sl free false Hi1 Hfree Hlt Hgo) as [Hsl _]; [done|].
      rewrite Hsl in *.
      destruct (tracks_at_once _ _ _ sl free a Hi1 Hfree Hlt Hgo Ha) as [_ Hi2].
      eapply IH; [|exact Hrun]. by rewrite Hp3, Hp2. }
    destruct rc as [err|n]; simpl in Hpend.
    + destruct (err =? ERROR_IO_PENDING); [done|].
      apply (Hgo2 false e1 [] u1 e') in Hr; [|done..]. by rewrite app_nil_r in Hr.
    + apply bind_inv in Hr as (a & e2 & t2 & u2 & Ha & Hr & ->).
      destruct (step_is_answer _ _ _ _ _ _ (t ++ sent) Ha) as (Hp2 & Ht2 & Hh).
      rewrite app_assoc. by apply (Hgo2 a e2 t2 u2 e').
  - (* under way *)
    destruct rc as [err|n]; [|done]. simpl in Hpend.
    destruct (err =? ERROR_IO_PENDING) eqn:Herr; [|done].
    eapply IH; [|exact Hr]. rewrite Hs, <- Hpend. eapply tracks_sent; try done.
    unfold sent. cbn. by rewrite Herr.
Qed.

Lemma step_alertable_wait timer ms s t (e : E) done e' u :
  tracks s (pending e) t → alertable_wait timer ms e = Some (done, e', u) →
  tracks s (done ++ pending e') (t ++ u).
Proof.
  intros Hi Hr.
  assert (∀ ms (e : E) done e' u t, tracks s (pending e) t → ask (AlertableWait ms) e = Some (done, e', u) →
    tracks s (done ++ pending e') (t ++ u)) as Hwait.
  { intros ms' f d f' v t' Hf [Hs ->]%ask_inv. apply pending_done in Hs.
    apply tracks_quiet; [done|]. by eapply tracks_perm. }
  unfold alertable_wait in Hr. destruct timer as [timer|]; [|by eapply Hwait].
  apply bind_inv in Hr as (b & e1 & t1 & u1 & [Hp ->]%ask_kept & Hr & ->); [|done].
  rewrite app_assoc. destruct b; eapply Hwait; try exact Hr; rewrite Hp; by apply tracks_quiet.
Qed.

Definition win_over (s : win_sweep) : Prop :=
  ws_in_flight s = 0 ∧ (ws_stopped s = true ∨ ws_next s = length ips).

Lemma step_win_check_stop s t (e : E) s' e' u :
  tracks s (pending e) t → win_check_stop s e = Some (s', e', u) → tracks s' (pending e') (t ++ u).
Proof.
  intros [Hi Hf] Hr. unfold win_check_stop in Hr. destruct (ws_stopped s) eqn:Hst.
  - apply ret_inv in Hr as (-> & -> & ->). rewrite app_nil_r. split; [done|]. by rewrite Hst.
  - apply bind_inv in Hr as (b & e2 & t2 & u2 & [Hp ->]%ask_kept & Hret & ->); [|done].
    apply ret_inv in Hret as (-> & -> & ->). rewrite app_nil_r, Hp.
    split; [by apply inv_win_stop|by apply follows_stop].
Qed.

Lemma win_now_ms_run (e : E) now e' u :
  win_now_ms e = Some (now, e', u) → pending e' = pending e ∧ labels u = [].
Proof.
  intros Hr. unfold win_now_ms in Hr.
  apply bind_inv in Hr as (fc & e3 & t3 & u3 & [Hp ->]%ask_kept & Hret & ->); [|done].
  by apply ret_inv in Hret as (-> & -> & ->).
Qed.

Lemma step_win_round timeout_ms icmp timer started s t (e : E) x e' u :
  tracks s (pending e) t → win_round ips timeout_ms icmp timer started s e = Some (x, e', u) →
  match x with
  | inl s' => tracks s' (pending e') (t ++ u)
  | inr s' => tracks s' (pending e') (t ++ u) ∧ win_over s'
  end.
Proof.
  intros Hi Hr. unfold win_round in Hr.
  apply bind_inv in Hr as (s1 & e1 & t1 & u1 & Hstop & Hr & ->).
  eapply step_win_check_stop in Hstop; [|exact Hi].
  apply bind_inv in Hr as (now & e2 & t2 & u2 & Hnow & Hr & ->). rewrite app_assoc.
  apply win_now_ms_run in Hnow as [Hp2 Ht2].
  apply bind_inv in Hr as (s3 & e3 & t3 & u3 & Hsend & Hr & ->). rewrite app_assoc.
  eapply step_win_send_loop in Hsend; [|rewrite Hp2; by apply tracks_quiet].
  destruct (_ && _) eqn:Hover in Hr.
  - apply ret_inv in Hr as (-> & -> & ->). rewrite app_nil_r. split; [done|].
    apply andb_true_iff in Hover as [H1 H2]. apply orb_true_iff in H2. unfold win_over.
    to_prop. split; [done|]. destruct H2 as [H2|H2]; [by left|right; by apply Nat.eqb_eq].
  - apply bind_inv in Hr as (done & e4 & t4 & u4 & Hwait & Hr & ->). rewrite app_assoc.
    eapply step_alertable_wait in Hwait; [|exact Hsend].
    apply bind_inv in Hr as (s5 & e5 & t5 & u5 & Hcomp & Hr & ->).
    eapply step_completions in Hcomp as [Hi5 Hp5]; [|exact Hwait].
    apply ret_inv in Hr as (-> & -> & ->). by rewrite app_nil_r, Hp5, app_assoc.
Qed.
End WinSteps.

(** ** The whole sweep *)

Lemma win_free_slots slots : fold_left (λ free k, k :: free) (seq 0 slots) [] ≡ₚ seq 0 slots.
Proof.
  assert (∀ l acc : list nat, fold_left (λ free k, k :: free) l acc ≡ₚ l ++ acc) as Hf.
  { induction l as [|k l IH]; intros acc; [done|]. simpl. rewrite IH. symmetry. apply Permutation_middle. }
  by rewrite Hf, app_nil_r.
Qed.

Lemma win_start_inv ips slots : (slots ≤ length ips)%nat → win_inv ips slots (win_start (length ips) slots) [] [].
Proof.
  intros Hs. unfold win_start. split; simpl; rewrite ?length_replicate; try done; try lia.
  - intros i _ h Hh. by apply lookup_replicate in Hh as [-> _].
  - by rewrite app_nil_r, win_free_slots.
  - apply NoDup_nil_2.
  - intros i. split; [by intros ?%elem_of_nil|]. intros Hh. by apply lookup_replicate in Hh as [? _].
  - apply NoDup_nil_2.
  - intros i. split; [by intros ?%elem_of_nil|]. intros Hh. by apply lookup_replicate in Hh as [? _].
  - by intros i ?%elem_of_nil.
Qed.

(** The pool, as a number of slots. *)
Definition win_slots (ips : list ip4) (max : Z) : nat :=
  Z.to_nat (Z.min (Z.of_nat (length ips)) (Z.max 1 max)).

Lemma win_limit_slots ips max : 0 <= max → Z.to_nat (win_limit (Z.of_nat (length ips)) max) = win_slots ips max.
Proof. intros. unfold win_limit, win_slots. repeat case_test; lia. Qed.

Lemma win_slots_le ips max : (win_slots ips max ≤ length ips)%nat.
Proof. unfold win_slots. lia. Qed.

Section WinSweep.
Context {E : Type} `{EchoLaw E}.

Lemma win_rounds_end ips slots timeout_ms icmp timer started fuel (e : E) pre s e' u :
  Z.of_nat (length ips) < 18446744073709551616 → (slots ≤ length ips)%nat →
  pending e = [] → labels pre = [] →
  loop fuel (win_round ips timeout_ms icmp timer started) (win_start (length ips) slots) e
    = Some (s, e', u) →
  tracks ips slots s [] (pre ++ u) ∧ win_over ips s.
Proof.
  intros Hc Hs Hp Hpre Hl.
  eapply (loop_invariant (λ s e t, tracks ips slots s (pending e) t)
    (λ s e t, tracks ips slots s (pending e) t ∧ win_over ips s)) in Hl as [[Hi Hf] Ho].
  - split; [|done]. destruct Ho as [Hz _]. rewrite (wi_in_flight _ _ _ _ _ Hi) in Hz.
    assert (pending e' = []) as He by (apply length_zero_iff_nil; lia). by rewrite He in Hi.
  - intros ? ? ? ? ? ? Hi Hb. by apply (step_win_round _ _ Hc Hs _ _ _ _ _ _ _ _ _ _ Hi Hb).
  - intros ? ? ? ? ? ? Hi Hb. by apply (step_win_round _ _ Hc Hs _ _ _ _ _ _ _ _ _ _ Hi Hb).
  - apply (tracks_quiet _ _ _ _ [] pre Hpre). rewrite Hp. split; [by apply win_start_inv|apply follows_start].
Qed.

(** Setting up shows nothing and starts nothing. *)
Lemma win_prepare_quiet count max (e : E) su e' t :
  win_prepare count max e = Some (su, e', t) → pending e = [] →
  pending e' = [] ∧ labels t = [] ∧ su ≠ inl ICMP_PING_DONE.
Proof.
  intros Hr Hp. unfold win_prepare in Hr.
  apply bind_inv in Hr as (icmp & e1 & t1 & u1 & [Hp1 ->]%ask_kept & Hr & ->); [|done].
  destruct icmp as [icmp|]; [|apply ret_inv in Hr as (-> & -> & ->); by rewrite Hp1].
  apply bind_inv in Hr as (st & e2 & t2 & u2 & [Hp2 ->]%ask_kept & Hr & ->); [|done].
  apply bind_inv in Hr as (sl & e3 & t3 & u3 & [Hp3 ->]%ask_kept & Hr & ->); [|done].
  assert (pending e3 = []) as Hp' by congruence.
  destruct st as [st|], sl as [sl|].
  { apply bind_inv in Hr as (timer & e4 & t4 & u4 & [Hp4 ->]%ask_kept & Hr & ->); [|done].
    apply bind_inv in Hr as (now & e5 & t5 & u5 & [Hp5 Ht5]%win_now_ms_run & Hr & ->).
    apply ret_inv in Hr as (-> & -> & ->). rewrite app_nil_r. splits; [congruence| |done].
    change (labels t5 = []). done. }
  all: assert (su = inl ICMP_PING_NO_MEMORY) as -> by (clear -Hr; by run_inv).
  all: log_of Hr quiet; apply quiet_labels in Hr_log; splits; [|exact Hr_log|done].
  all: rewrite <- Hp'; clear -Hr; unfold free_opt in Hr; run_inv;
    repeat match goal with Hs : env_step _ _ = _ |- _ => apply pending_kept in Hs; [|done] end; congruence.
Qed.

(** What a sweep leaves behind: nobody reported, or the invariant of its
    last round with nothing under way. *)
Lemma win_ping_sweep_outcome fuel ips timeout_ms max (e : E) r e' t :
  Z.of_nat (length ips) < 18446744073709551616 → 0 <= max → pending e = [] →
  win_ping_sweep fuel ips timeout_ms max e = Some (r, e', t) →
  match r with
  | ICMP_PING_DONE => ips = [] ∧ t = [] ∨
      ∃ s, tracks ips (win_slots ips max) s [] t ∧ win_over ips s
  | _ => labels t = []
  end.
Proof.
  intros Hc Hm Hp Hr. unfold win_ping_sweep in Hr.
  destruct (Z.of_nat (length ips) =? 0) eqn:H0'; to_prop.
  { apply ret_inv in Hr as (-> & _ & ->). left. destruct ips; [done|simpl in *; lia]. }
  apply bind_inv in Hr as (su & e1 & t1 & u1 & Hsu & Hr & ->).
  rewrite win_limit_slots in Hr by done.
  apply win_prepare_quiet in Hsu as (Hp1 & Ht1 & Hres); [|done].
  destruct su as [r1|su].
  { apply ret_inv in Hr as (-> & _ & ->). rewrite app_nil_r. destruct r1; [done|done..]. }
  apply bind_inv in Hr as (s & e6 & t6 & u6 & Hloop & Hr & ->).
  eapply (win_rounds_end ips _ _ _ _ _ fuel e1 t1) in Hloop as [Hi Ho];
    [|done|apply win_slots_le|done..].
  assert (r = ICMP_PING_DONE) as -> by (clear -Hr; run_inv; done).
  right. exists s. split; [|done].
  log_of Hr quiet. apply quiet_labels in Hr_log. rewrite app_assoc. by apply tracks_quiet.
Qed.

Lemma win_ping_sweep_allowed fuel ips timeout_ms max (e : E) r e' t :
  Z.of_nat (length ips) < 18446744073709551616 → 0 <= max → pending e = [] →
  win_ping_sweep fuel ips timeout_ms max e = Some (r, e', t) →
  match r with
  | ICMP_PING_DONE => sweep_allowed ips (Z.of_nat (win_slots ips max)) t
  | _ => labels t = []
  end.
Proof.
  intros Hc Hm Hp Hr. apply win_ping_sweep_outcome in Hr; [|done..]. destruct r; [|done..].
  destruct Hr as [[-> ->]|(s & [_ Hf] & Hz & Ho)].
  - exists spec_start. split; [done|]. split; [done|by right].
  - by eapply follows_allowed.
Qed.
End WinSweep.

(** ** Resources *)

Section WinResources.
Context {E : Type} `{Env E}.
Variable ips : list ip4.

Lemma finish_neutral sl a s : logs neutral (finish (E := E) sl a s).
Proof. unfold finish. solve_logs. Qed.

Lemma is_answer_neutral sl s : logs neutral (is_answer (E := E) ips sl s).
Proof. unfold is_answer. solve_logs. Qed.

Lemma completions_neutral done : ∀ s, logs neutral (completions (E := E) ips done s).
Proof.
  induction done as [|sl done IH]; intros s; cbn [completions]; [apply logs_ret|].
  apply logs_bind; [|apply IH]. unfold on_reply.
  apply logs_bind; [apply is_answer_neutral|intros; apply finish_neutral].
Qed.

Lemma win_send_loop_neutral timeout_ms icmp budget : ∀ s,
  logs neutral (win_send_loop (E := E) ips timeout_ms icmp budget s).
Proof.
  induction budget as [|budget IH]; intros s; cbn [win_send_loop]; [apply logs_ret|].
  solve_logs; auto using is_answer_neutral, finish_neutral.
Qed.

Lemma win_round_neutral timeout_ms icmp timer started s :
  logs neutral (win_round (E := E) ips timeout_ms icmp timer started s).
Proof.
  unfold win_round, win_check_stop, win_now_ms, alertable_wait.
  solve_logs; auto using win_send_loop_neutral, completions_neutral.
Qed.

Lemma win_ping_sweep_keeps fuel timeout_ms max (e : E) r e' t :
  win_ping_sweep fuel ips timeout_ms max e = Some (r, e', t) → keeps t [].
Proof.
  intros Hr. unfold win_ping_sweep, win_prepare in Hr. case_test; [run_inv; solve_keeps|].
  apply bind_inv in Hr as (su & e0 & t0 & u0 & Hsu & Hr & ->).
  apply bind_inv in Hsu as (icmp & e1 & t1 & u1 & [_ ->]%ask_inv & Hsu & ->).
  destruct icmp as [icmp|]; [|run_inv; solve_keeps].
  apply bind_inv in Hsu as (st & e2 & t2 & u2 & [_ ->]%ask_inv & Hsu & ->).
  apply bind_inv in Hsu as (sl & e3 & t3 & u3 & [_ ->]%ask_inv & Hsu & ->).
  destruct st as [st|], sl as [sl|]; [|unfold free_opt in Hsu; run_inv; solve_keeps..].
  apply bind_inv in Hsu as (timer & e4 & t4 & u4 & [_ ->]%ask_inv & Hsu & ->).
  apply bind_inv in Hsu as (now & e5 & t5 & u5 & Hnow & Hsu & ->).
  apply ret_inv in Hsu as (-> & -> & ->). simpl in Hr.
  apply bind_inv in Hr as (s & e6 & t6 & u6 & Hloop & Hr & ->).
  assert (Forall neutral t5) as Hn5.
  { unfold win_now_ms in Hnow. run_inv; apply Forall_singleton; by split. }
  assert (Forall neutral t6) as Hn6.
  { eapply (logs_loop neutral fuel); [|exact Hloop]. intros. apply win_round_neutral. }
  destruct timer as [timer|]; run_inv; solve_keeps.
Qed.
End WinResources.

(** ** Properties *)

Section WinProperties.
Context {E : Type} `{EchoLaw E}.

(** C31: refinement.  The Windows sweep implements the same specification as
    the POSIX one, with its pool of slots as the limit: every log of a sweep
    that is done is one the specification allows. *)
Theorem win_ping_sweep_refines fuel ips timeout_ms max (e : E) r e' t :
  Z.of_nat (length ips) < 18446744073709551616 → 0 <= max → pending e = [] →
  win_ping_sweep fuel ips timeout_ms max e = Some (r, e', t) →
  match r with
  | ICMP_PING_DONE => sweep_allowed ips (Z.of_nat (win_slots ips max)) t
  | _ => labels t = []
  end.
Proof.
  intros Hc Hm Hp Hr. apply win_ping_sweep_allowed in Hr; [|done..]. by destruct r.
Qed.

(** exactly once, on Windows.  When every echo under way completes once,
    a sweep that ends as ICMP_PING_DONE has reported each of the first [n]
    hosts once and no other, where [n] is every host unless a stop was asked
    for, whatever order the completion routines ran in. *)
Theorem win_ping_sweep_reports fuel ips timeout_ms max (e : E) r e' t :
  Z.of_nat (length ips) < 18446744073709551616 → 0 <= max → pending e = [] →
  win_ping_sweep fuel ips timeout_ms max e = Some (r, e', t) →
  match r with
  | ICMP_PING_DONE => ∃ n, (pinged t).*1 ≡ₚ seq 0 n ∧ (n ≤ length ips)%nat ∧
      (n = length ips ∨ stop_seen t)
  | _ => pinged t = []
  end.
Proof.
  intros Hc Hm Hp Hr. apply win_ping_sweep_allowed in Hr; [|done..].
  destruct r; [by eapply allowed_once|by apply labels_pinged..].
Qed.

(** on Windows a host is reported as answering only when a reply parsed
    in this sweep has the status IP_SUCCESS and comes from its address. *)
Theorem win_ping_sweep_answered fuel ips timeout_ms max (e : E) r e' t i :
  Z.of_nat (length ips) < 18446744073709551616 → 0 <= max → pending e = [] →
  win_ping_sweep fuel ips timeout_ms max e = Some (r, e', t) →
  (i, true) ∈ pinged t → win_heard ips t i.
Proof.
  intros Hc Hm Hp Hr Hi. apply win_ping_sweep_outcome in Hr; [|done..].
  destruct r; [|apply labels_pinged in Hr; rewrite Hr in Hi; by apply elem_of_nil in Hi..].
  destruct Hr as [[_ ->]|(s & [Hinv _] & _)]; [by apply elem_of_nil in Hi|].
  by apply (wi_heard _ _ _ _ _ Hinv).
Qed.

(** a Windows sweep gives back its handle, its timer and its memory, on
    every return. *)
Theorem win_ping_sweep_leak_free fuel ips timeout_ms max (e : E) r e' t :
  win_ping_sweep fuel ips timeout_ms max e = Some (r, e', t) → keeps t [].
Proof. apply win_ping_sweep_keeps. Qed.
End WinProperties.

(** ** Witnesses: one slot for two hosts, the second answering *)

Definition win_lan : script :=
  set_icmp [Echo2Zero ERROR_IO_PENDING; Echo2Zero ERROR_IO_PENDING] []
    [IcmpReply 1 11010 (IP 10 0 0 1); IcmpReply 1 IP_SUCCESS (IP 10 0 0 2)] (idle 0).

Lemma win_ping_sweep_reports_witness :
  ∃ r e' t, win_ping_sweep 50 two_hosts 20 1 win_lan = Some (r, e', t) ∧
    pinged t = [(0, false); (1, true)]%nat ∧
    ∃ n, (pinged t).*1 ≡ₚ seq 0 n ∧ (n ≤ 2)%nat ∧ (n = 2%nat ∨ stop_seen t).
Proof.
  run_here. split; [here|].
  refine (win_ping_sweep_reports 50 two_hosts 20 1 win_lan ICMP_PING_DONE _ _ _ _ _ _); here.
Defined.

Lemma win_ping_sweep_refines_witness :
  ∃ r e' t, win_ping_sweep 50 two_hosts 20 1 win_lan = Some (r, e', t) ∧
    labels t = [LSent (IP 10 0 0 1); LFate 0 false; LSent (IP 10 0 0 2); LFate 1 true] ∧
    sweep_allowed two_hosts 1 t.
Proof.
  run_here. split; [here|].
  refine (win_ping_sweep_refines 50 two_hosts 20 1 win_lan ICMP_PING_DONE _ _ _ _ _ _); here.
Defined.

Lemma win_ping_sweep_answered_witness :
  ∃ r e' t, win_ping_sweep 50 two_hosts 20 1 win_lan = Some (r, e', t) ∧ win_heard two_hosts t 1.
Proof.
  run_here. refine (win_ping_sweep_answered 50 two_hosts 20 1 win_lan _ _ _ _ _ _ _ _ _); [here..|].
  vm_compute. apply list_elem_of_further, list_elem_of_here.
Defined.

Lemma win_ping_sweep_leak_free_witness :
  ∃ r e' t, win_ping_sweep 50 two_hosts 20 1 win_lan = Some (r, e', t) ∧ keeps t [].
Proof.
  run_here. refine (win_ping_sweep_leak_free 50 two_hosts 20 1 win_lan _ _ _ _). here.
Defined.
