(* ===== verification/IcmpLiveWin.v ===== *)
(** * icmp_ping.c, Windows: the sweep comes to an end

    Every round of the Windows sweep sends to a host, sees an echo come back,
    or began before a deadline: the moment the echoes under way are over
    (IcmpSendEcho2 keeps their timeout), or the next send slot of the pacing.
    The argument about rounds and time is Sys.v's [paced_terminates], the one
    the POSIX sweep uses. *)
From S2P Require Import Prelude Words Sys Script NsSocket IcmpWire SweepSpec IcmpSweep IcmpSweepWin.
Open Scope Z_scope.

Section LiveWin.
Context {E : Type} `{EchoClock E}.

(** ** The clock the sweep reads *)

(** now_ms() at [c] ns. *)
Definition perf_ms (c : Z) : Z := Z.quot (c * perf_rate / 1000000000) (Z.quot perf_rate 1000).

(** By then it shows [ms]. *)
Definition perf_due (ms : Z) : Z := ms * (perf_rate / 1000) * 1000000000 / perf_rate + 1.

Lemma win_now_ms_clock (e : E) now e' u :
  win_now_ms e = Some (now, e', u) → 1000 <= perf_rate ∧ now = perf_ms (clk e) ∧ ticked e' e ∧ last_due e' <= last_due e.
Proof.
  intros Hr. unfold win_now_ms in Hr. run_inv. rename select (env_step PerfCounter _ = _) into Hc.
  pose proof (due_kept _ PerfCounter _ _ _ eq_refl Hc) as Hd. apply perf_read in Hc as (Hrate & -> & Ht). done.
Qed.

Lemma perf_ms_div c : 1000 <= perf_rate → 0 <= c → perf_ms c = c * perf_rate / 1000000000 / (perf_rate / 1000).
Proof.
  intros Hr Hc. assert (0 < perf_rate / 1000) by (apply Z.div_str_pos; lia).
  unfold perf_ms. rewrite (Z.quot_div_nonneg perf_rate) by lia.
  apply Z.quot_div_nonneg; [|done]. apply Z.div_pos; [apply Z.mul_nonneg_nonneg|]; lia.
Qed.

Lemma perf_ms_mono a b : 1000 <= perf_rate → 0 <= a <= b → perf_ms a <= perf_ms b.
Proof.
  intros Hr Hab. rewrite !perf_ms_div by lia. assert (0 < perf_rate / 1000) by (apply Z.div_str_pos; lia).
  apply Z.div_le_mono; [done|]. apply Z.div_le_mono; [done|]. apply Z.mul_le_mono_nonneg_r; lia.
Qed.

Lemma perf_ms_pos c : 1000 <= perf_rate → 0 <= c → 0 <= perf_ms c.
Proof. intros Hr Hc. change 0 with (perf_ms 0). apply perf_ms_mono; lia. Qed.

(** Its millisecond is at least half a real one. *)
Lemma perf_ms_rate c : 1000 <= perf_rate → 0 <= c → perf_ms c * 500000 <= c.
Proof.
  intros Hr Hc. rewrite perf_ms_div by lia. set (k := perf_rate / 1000).
  assert (perf_rate < 1000 * k + 1000) as Hk.
  { pose proof (Z.div_mod perf_rate 1000). pose proof (Z.mod_pos_bound perf_rate 1000). lia. }
  assert (1 <= k) as Hk1 by (apply Z.div_le_lower_bound; lia).
  pose proof (Z.mul_div_le (c * perf_rate) 1000000000 ltac:(lia)) as Hq1.
  pose proof (Z.mul_div_le (c * perf_rate / 1000000000) k ltac:(lia)) as Hq2.
  set (q := c * perf_rate / 1000000000) in *. set (m := q / k) in *.
  assert (0 <= m) by (apply Z.div_pos; [apply Z.div_pos; [apply Z.mul_nonneg_nonneg|]|]; lia).
  assert (1000000000 * (k * m) <= c * perf_rate) by lia.
  assert (perf_rate <= 2000 * k) by lia.
  assert (c * perf_rate <= c * (2000 * k)) by (apply Z.mul_le_mono_nonneg_l; lia).
  nia.
Qed.

Lemma perf_due_ahead ms c : 1000 <= perf_rate → 0 <= c → perf_ms c < ms → c < perf_due ms.
Proof.
  intros Hr Hc Hlt. rewrite perf_ms_div in Hlt by lia. unfold perf_due. set (k := perf_rate / 1000) in *.
  assert (1 <= k) as Hk1 by (apply Z.div_le_lower_bound; lia).
  assert (c * perf_rate / 1000000000 < k * ms) as Hq1.
  { pose proof (Z.mul_succ_div_gt (c * perf_rate / 1000000000) k ltac:(lia)) as Hgt.
    assert (k * Z.succ (c * perf_rate / 1000000000 / k) <= k * ms) by (apply Z.mul_le_mono_nonneg_l; lia).
    lia. }
  assert (c * perf_rate < 1000000000 * (k * ms)) as Hq2.
  { pose proof (Z.mul_succ_div_gt (c * perf_rate) 1000000000 ltac:(lia)). lia. }
  apply Z.lt_succ_r, Z.div_le_lower_bound; lia.
Qed.

Lemma perf_due_soon ms d c :
  1000 <= perf_rate → 0 <= c → ms <= perf_ms c → 0 <= d → perf_due (ms + d) <= c + d * 1000000 + 1.
Proof.
  intros Hr Hc Hms Hd. rewrite perf_ms_div in Hms by lia. unfold perf_due. set (k := perf_rate / 1000) in *.
  assert (1 <= k) as Hk1 by (apply Z.div_le_lower_bound; lia).
  pose proof (Z.mul_div_le (c * perf_rate) 1000000000 ltac:(lia)) as Hq1.
  pose proof (Z.mul_div_le (c * perf_rate / 1000000000) k ltac:(lia)) as Hq2.
  pose proof (Z.mul_div_le perf_rate 1000 ltac:(lia)) as Hq3. fold k in Hq3.
  assert (k * ms <= c * perf_rate / 1000000000).
  { etrans; [|exact Hq2]. apply Z.mul_le_mono_nonneg_l; lia. }
  assert (d * (1000 * k) <= d * perf_rate) by (apply Z.mul_le_mono_nonneg_l; lia).
  apply Zplus_le_compat_r, Z.div_le_upper_bound; [lia|].
  transitivity (1000000000 * (c * perf_rate / 1000000000) + 1000000 * (d * perf_rate)); lia.
Qed.

(** ** The echoes under way are over in time *)

Variables (ips : list ip4) (slots : nat) (timeout_ms icmp : Z) (timer : option Z) (started : Z).
Hypothesis Hcount : Z.of_nat (length ips) < 18446744073709551616.
Hypothesis Hslots : (1 ≤ slots ≤ length ips)%nat.

(** The longest an echo takes, in ns. *)
Definition echo_ns : Z := u32 timeout_ms * 1000000 + echo_grace.

Lemma echo_ns_pos : 0 <= echo_ns.
Proof. pose proof grace_pos. pose proof (u32_range timeout_ms) as Hu. unfold is_u32, echo_ns in *. lia. Qed.

Definition in_time (e : E) : Prop := 0 <= clk e ∧ (pending e ≠ [] → last_due e <= clk e + echo_ns).

(** Programs of the sweep: time goes on, and echoes keep their time. *)
Definition punctual {A} (m : M E A) : Prop :=
  ∀ e a e' t, m e = Some (a, e', t) → in_time e → in_time e' ∧ clk e <= clk e'.

Lemma punctual_ret {A} (a : A) : punctual (mret a).
Proof. intros e b e' t (-> & -> & _)%ret_inv Ht. by split. Qed.

Lemma punctual_bind {A B} (m : M E A) (k : A → M E B) :
  punctual m → (∀ a, punctual (k a)) → punctual (m ≫= k).
Proof.
  intros Hm Hk e b e' t Hr Ht. apply bind_inv in Hr as (a & e1 & t1 & t2 & Hma & Hka & ->).
  destruct (Hm _ _ _ _ Hma Ht) as [Ht1 ?]. destruct (Hk _ _ _ _ _ Hka Ht1) as [Ht2 ?]. split; [done|lia].
Qed.

Lemma punctual_ask {A} (c : call A) : sends_echo c = false → punctual (ask c).
Proof.
  intros Hc e a e' t Hr [Hpos Hd]. run_inv. rename select (env_step _ _ = _) into Hs.
  pose proof (clock_mono _ _ _ _ _ Hs) as Hm. pose proof (due_kept _ _ _ _ _ Hc Hs) as Hk.
  assert (clk e <= clk e') as Hle by lia. split; [|done]. split; [lia|]. intros Hp.
  assert (pending e ≠ []) as Hp0; [|specialize (Hd Hp0); lia].
  intros Hnil. apply Hp. destruct (moves_echoes c) eqn:Hmv.
  - destruct c; try discriminate. apply pending_done in Hs. rewrite Hnil in Hs.
    apply Permutation_nil_l in Hs. symmetry in Hs. by apply app_eq_nil in Hs as [_ ?].
  - by rewrite (pending_kept _ _ _ _ _ Hmv Hs).
Qed.

Lemma punctual_send h slot dest p : punctual (ask (IcmpSendEcho2 h slot dest p (u32 timeout_ms))).
Proof.
  intros e a e' t Hr [Hpos Hd]. run_inv. rename select (env_step _ _ = _) into Hs.
  pose proof (clock_mono _ _ _ _ _ Hs) as Hm. pose proof (u32_range timeout_ms) as Hu. unfold is_u32 in Hu.
  assert (clk e <= clk e') as Hle by lia. split; [|done]. split; [lia|]. intros _.
  apply due_sent in Hs; [|done|lia]. pose proof echo_ns_pos. unfold echo_ns in *.
  destruct (pending e) as [|sl pend]; [lia|]. specialize (Hd ltac:(done)). lia.
Qed.

Ltac solve_punctual :=
  repeat (intros; match goal with
  | |- punctual (_ ≫= _) => apply punctual_bind
  | |- punctual (mret _) => apply punctual_ret
  | |- punctual (ask (IcmpSendEcho2 _ _ _ _ _)) => apply punctual_send
  | |- punctual (ask _) => by apply punctual_ask
  | |- punctual (if ?b then _ else _) => destruct b
  | |- punctual (match ?x with _ => _ end) => destruct x
  | |- punctual _ => by auto
  end).

Lemma punctual_completions done s : punctual (completions ips done s).
Proof.
  revert s. induction done as [|sl done IH]; intros s; cbn [completions]; unfold on_reply, is_answer, finish;
    solve_punctual.
Qed.

Lemma punctual_send_loop budget s : punctual (win_send_loop ips timeout_ms icmp budget s).
Proof.
  revert s. induction budget as [|budget IH]; intros s; cbn [win_send_loop]; unfold is_answer, finish;
    solve_punctual.
Qed.

(** ** What a round does *)

(** Why the send loop stopped where it was. *)
Definition held_back (budget : nat) (s : win_sweep) : Prop :=
  budget = 0%nat ∨ ips !! ws_next s = None ∨ ws_free s = [] ∨ ws_stopped s = true.

Lemma finish_next sl a s (e : E) s' e' u :
  finish sl a s e = Some (s', e', u) → ws_next s' = ws_next s ∧ pending e' = pending e.
Proof. intros Hr. by apply finish_run in Hr as (-> & -> & _). Qed.

Lemma win_send_loop_next budget s (e : E) s' e' u :
  win_send_loop ips timeout_ms icmp budget s e = Some (s', e', u) →
  (s' = s ∧ e' = e ∧ held_back budget s) ∨
  (ws_next s < ws_next s')%nat ∧ (length (pending e') + ws_next s ≤ length (pending e) + ws_next s')%nat.
Proof.
  assert (∀ budget s (e : E) s' e' u, win_send_loop ips timeout_ms icmp budget s e = Some (s', e', u) →
    (ws_next s ≤ ws_next s')%nat ∧ (length (pending e') + ws_next s ≤ length (pending e) + ws_next s')%nat ∧
    (s' = s ∧ e' = e ∧ held_back budget s ∨ (ws_next s < ws_next s')%nat)) as Hmain.
  { clear. intros budget. induction budget as [|budget IH]; intros s e s' e' u Hr; cbn [win_send_loop] in Hr.
    { run_inv. split; [done|]. split; [done|]. left. unfold held_back; tauto. }
    destruct (ips !! ws_next s) as [ip|] eqn:Hip;
      [|run_inv; split; [done|]; split; [done|]; left; unfold held_back; tauto].
    destruct (ws_free s) as [|sl free] eqn:Hfree;
      [run_inv; split; [done|]; split; [done|]; left; unfold held_back; tauto|].
    destruct (ws_stopped s) eqn:Hst; [run_inv; split; [done|]; split; [done|]; left; unfold held_back; tauto|].
    apply bind_inv in Hr as (rc & e1 & t1 & u1 & [Hs _]%ask_inv & Hr & _).
    apply pending_sent in Hs.
    assert (length (pending e1) ≤ S (length (pending e)))%nat as H1e.
    { rewrite Hs, length_app. destruct rc as [err|]; simpl; [destruct (err =? _)|]; simpl; lia. }
    assert (∀ s1 (e2 : E) u2, ws_next s1 = S (ws_next s) → pending e2 = pending e1 →
      win_send_loop ips timeout_ms icmp budget s1 e2 = Some (s', e', u2) →
      (ws_next s < ws_next s')%nat ∧ (length (pending e') + ws_next s ≤ length (pending e) + ws_next s')%nat) as Hnext.
    { intros s1 e2 u2 Hn Hp Hrun. apply IH in Hrun as (? & ? & _). rewrite Hp in *. lia. }
    assert ((ws_next s < ws_next s')%nat ∧
      (length (pending e') + ws_next s ≤ length (pending e) + ws_next s')%nat); [|split; [lia|]; split; [lia|right; lia]].
    assert (∀ a (e2 : E) u2, pending e2 = pending e1 →
      (s ← finish sl a (win_launched sl free s); win_send_loop ips timeout_ms icmp budget s) e2
        = Some (s', e', u2) →
      (ws_next s < ws_next s')%nat ∧ (length (pending e') + ws_next s ≤ length (pending e) + ws_next s')%nat) as Hfin.
    { intros a e2 u2 Hp Hrun. apply bind_inv in Hrun as (s3 & e3 & t3 & u3 & Hf & Hrun & _).
      apply finish_next in Hf as [Hn Hp3]. eapply Hnext; [|by rewrite Hp3|exact Hrun]. by rewrite Hn. }
    destruct rc as [err|n].
    - destruct (err =? _); [by eapply Hnext in Hr|by eapply Hfin in Hr].
    - apply bind_inv in Hr as (a & e2 & t2 & u2 & Ha & Hr & _).
      destruct (step_is_answer _ _ _ _ _ _ _ [] Ha) as (Hp2 & _). by eapply Hfin in Hr. }
  intros Hr. apply Hmain in Hr as (? & ? & [?|?]); [by left|by right].
Qed.

Definition round := win_round (E := E) ips timeout_ms icmp timer started.

Definition measure (s : win_sweep) (e : E) : nat :=
  2 * (length ips - ws_next s) + length (pending e).

(** In ns: by then a round has seen progress. *)
Definition deadline (s : win_sweep) (e : E) : Z :=
  Z.max (match pending e with [] => 0 | _ => last_due e end) (perf_due (started + Z.of_nat (ws_next s))).

(** The longest the sweep stays without progress, but for the round under
    way. *)
Definition win_pause_ns : Z := Z.max echo_ns (Z.of_nat (length ips) * 1000000 + 1).

(** What holds between the rounds. *)
Definition underway (s : win_sweep) (e : E) : Prop :=
  (∃ t, tracks ips slots s (pending e) t) ∧ in_time e ∧ 1000 <= perf_rate ∧
  0 <= started <= perf_ms (clk e).

Lemma win_underway_deadline s e : underway s e → deadline s e <= clk e + win_pause_ns.
Proof.
  intros ([t [Hi _]] & [Hc Hd] & Hrate & Hst). pose proof (wi_next _ _ _ _ _ Hi) as Hn.
  pose proof (perf_due_soon started (Z.of_nat (ws_next s)) (clk e) Hrate Hc ltac:(lia) ltac:(lia)) as Hp.
  pose proof echo_ns_pos. unfold deadline, win_pause_ns.
  destruct (pending e) as [|sl pend]; [lia|]. specialize (Hd ltac:(done)). lia.
Qed.

(** Nothing to send, nothing to wait for: the round would have been the
    last. *)
Lemma idle_round_budget s t now :
  tracks ips slots s [] t →
  held_back (Z.to_nat (send_budget (now - started) (Z.of_nat (ws_next s)))) s →
  (ws_in_flight s =? 0) && (ws_stopped s || (ws_next s =? length ips)%nat) = false →
  0 <= now - started < 4611686018427387904 → now < started + Z.of_nat (ws_next s).
Proof.
  intros [Hi _] Hheld Hgo Hnow. pose proof (wi_next _ _ _ _ _ Hi) as Hn.
  pose proof (pool_bound _ _ _ _ _ Hi) as Hb. pose proof (wi_in_flight _ _ _ _ _ Hi) as Hf. simpl in Hb, Hf.
  rewrite Hf in Hgo. simpl in Hgo. apply orb_false_iff in Hgo as [Hst Hne]. apply Nat.eqb_neq in Hne.
  destruct Hheld as [Hz|[Hz|[Hz|Hz]]].
  - rewrite send_budget_pace in Hz by lia. unfold SENDS_PER_MS in Hz. lia.
  - apply lookup_ge_None in Hz. lia.
  - rewrite Hz in Hb. simpl in Hb. lia.
  - congruence.
Qed.

(** What the alertable wait at the end of a round brings. *)
Lemma alertable_wait_done ms (e : E) done e' u :
  alertable_wait timer ms e = Some (done, e', u) →
  pending e ≡ₚ done ++ pending e' ∧ last_due e' <= last_due e ∧
  (pending e ≠ [] → done = [] → clk e < last_due e).
Proof.
  assert (∀ ms (e : E) done e' u, ask (AlertableWait ms) e = Some (done, e', u) →
    pending e ≡ₚ done ++ pending e' ∧ last_due e' <= last_due e ∧
    (pending e ≠ [] → done = [] → clk e < last_due e)) as Hwait.
  { intros ms' f d f' v [Hs _]%ask_inv. split; [by eapply pending_done|].
    split; [by eapply (due_kept _ (AlertableWait ms'))|]. intros Hp Hd.
    destruct (Z.lt_ge_cases (clk f) (last_due f)); [done|]. by destruct (due_done _ _ _ _ Hs Hp). }
  intros Hr. unfold alertable_wait in Hr. destruct timer as [tm|]; [|by eapply Hwait].
  apply bind_inv in Hr as (b & e1 & t1 & u1 & [Hs _]%ask_inv & Hr & _).
  pose proof (pending_kept _ (SetTimer tm (- ms * 10000)) _ _ _ eq_refl Hs) as Hp.
  pose proof (due_kept _ (SetTimer tm (- ms * 10000)) _ _ _ eq_refl Hs) as Hd.
  pose proof (clock_mono _ _ _ _ _ Hs) as Hc. rewrite <- Hp.
  destruct b; apply Hwait in Hr as (? & ? & Hx); (split; [done|]; split; [lia|]; intros Hp1 Hd1;
    specialize (Hx Hp1 Hd1); lia).
Qed.

Lemma completions_calm done : ∀ s (e : E) s' e' u,
  completions ips done s e = Some (s', e', u) →
  ws_next s' = ws_next s ∧ pending e' = pending e ∧ last_due e' <= last_due e.
Proof.
  induction done as [|sl done IH]; intros s e s' e' u Hr; cbn [completions] in Hr; [by run_inv|].
  apply bind_inv in Hr as (s1 & e1 & t1 & u1 & Ho & Hr & _). apply IH in Hr as (Hn & Hp & Hd).
  unfold on_reply, is_answer, finish in Ho. run_inv.
  repeat match goal with Hs : env_step ?c _ = _ |- _ =>
    pose proof (pending_kept _ c _ _ _ eq_refl Hs); apply (due_kept _ c _ _ _ eq_refl) in Hs end.
  simpl in Hn. split; [done|]. split; [congruence|lia].
Qed.

Lemma check_stop_calm s (e : E) s' e' u :
  win_check_stop s e = Some (s', e', u) →
  ws_next s' = ws_next s ∧ pending e' = pending e ∧ last_due e' <= last_due e ∧ later e' e.
Proof.
  unfold win_check_stop. destruct (ws_stopped s); intros Hr; run_inv; [split; [done|]; split; [done|];
    split; [done|apply later_refl]|].
  rename select (env_step _ _ = _) into Hs. pose proof (clock_mono _ _ _ _ _ Hs).
  pose proof (pending_kept _ StopRequested _ _ _ eq_refl Hs).
  by pose proof (due_kept _ StopRequested _ _ _ eq_refl Hs).
Qed.

Lemma timely_completions done s : timely (completions (E := E) ips done s).
Proof.
  revert s. induction done; intros; cbn [completions]; unfold on_reply, is_answer, finish; solve_timely.
Qed.

Lemma timely_win_send_loop budget s : timely (win_send_loop (E := E) ips timeout_ms icmp budget s).
Proof. revert s. induction budget; intros; cbn [win_send_loop]; unfold is_answer, finish; solve_timely. Qed.
#[local] Hint Resolve timely_completions timely_win_send_loop : timely.

Lemma punctual_round s : punctual (round s).
Proof.
  unfold round, win_round, win_check_stop, win_now_ms, alertable_wait.
  solve_punctual; auto using punctual_completions, punctual_send_loop.
Qed.

(** Every round reads the clock. *)
Lemma win_round_ticked s (e : E) x e' u : round s e = Some (x, e', u) → ticked e' e.
Proof.
  intros Hr. unfold round, win_round in Hr.
  apply bind_inv in Hr as (s1 & e1 & t1 & u1 & Hs & Hr & _). apply check_stop_calm in Hs as (_ & _ & _ & Hs).
  apply bind_inv in Hr as (now & e2 & t2 & u2 & Hn & Hr & _). apply win_now_ms_clock in Hn as (_ & _ & Hn & _).
  match type of Hr with ?m _ = _ => assert (timely m) as Hm by (unfold alertable_wait; solve_timely) end.
  eapply ticked_later_trans; [by eapply later_ticked_trans|by eapply Hm].
Qed.

(** A round that goes on: hosts sent to, echoes over, or neither. *)
Lemma win_round_advances s (e : E) s' e' u t :
  tracks ips slots s (pending e) t → 0 <= clk e → 0 <= started <= perf_ms (clk e) →
  clk e' * 2 < 4611686018427387904 * 1000000 → round s e = Some (inl s', e', u) →
  advances measure deadline (s', e') (s, e).
Proof.
  intros Ht Hc Hst Hnear Hr. pose proof (win_round_ticked _ _ _ _ _ Hr) as Htick.
  assert (∃ t', tracks ips slots s' (pending e') t') as [t' [Hi' _]].
  { eexists. by eapply (step_win_round _ _ Hcount (proj2 Hslots)) in Hr; [|exact Ht]. }
  pose proof (wi_next _ _ _ _ _ Hi') as Hn'.
  unfold round, win_round in Hr.
  apply bind_inv in Hr as (s1 & e1 & t1 & u1 & Hstop & Hr & _).
  pose proof (step_win_check_stop _ _ _ _ _ _ _ _ Ht Hstop) as Ht1.
  apply check_stop_calm in Hstop as (Hn1 & Hp1 & Hd1 & Hl1).
  apply bind_inv in Hr as (now & e2 & t2 & u2 & Hnow & Hr & _).
  pose proof (win_now_ms_run _ _ _ _ Hnow) as [Hp2 Hq2].
  apply win_now_ms_clock in Hnow as (Hrate & -> & Htick2 & Hd2).
  apply bind_inv in Hr as (s3 & e3 & t3 & u3 & Hsend & Hr & _).
  pose proof (timely_win_send_loop _ _ _ _ _ _ Hsend) as Hl3.
  destruct (_ && _) eqn:Hover in Hr; [by run_inv|].
  apply bind_inv in Hr as (done & e4 & t4 & u4 & Hwait & Hr & _).
  assert (timely (alertable_wait (E := E) timer (if negb (ws_stopped s3) && (ws_next s3 <? length ips)%nat &&
    negb (length (ws_free s3) =? 0)%nat then 1 else 50))) as Hl4 by (unfold alertable_wait; solve_timely).
  apply Hl4 in Hwait as Hl4'. apply alertable_wait_done in Hwait as (Hp4 & Hd4 & Hend).
  pose proof (Permutation_length Hp4) as Hlen. rewrite length_app in Hlen.
  apply bind_inv in Hr as (s5 & e5 & t5 & u5 & Hcomp & Hr & _).
  pose proof (timely_completions _ _ _ _ _ _ Hcomp) as Hl5.
  apply completions_calm in Hcomp as (Hn5 & Hp5 & Hd5). apply ret_inv in Hr as (Heq & -> & _). simplify_eq.
  unfold advances, measure; simpl. rewrite Hn5, Hp5 in *.
  apply win_send_loop_next in Hsend as [(-> & -> & Hheld)|[Hlt Hmore]].
  2:{ left. rewrite Hp2, Hp1 in Hmore. lia. }
  rewrite Hp2, Hp1 in *. rewrite Hn1 in *.
  destruct done as [|sl done]; [|left; simpl in Hlen; lia].
  simpl in Hp4, Hlen. right. split; [lia|].
  assert (clk e <= clk e1 ∧ clk e1 <= clk e2 ∧ clk e2 <= clk e5) as (Hc1 & Hc2 & Hc5).
  { unfold later, ticked in *. lia. }
  unfold deadline. rewrite Hn5, Hp5. destruct (pending e) as [|sl pend] eqn:Hpe.
  - apply Permutation_nil_l in Hp4. rewrite <- Hp4. split; [lia|].
    assert (perf_ms (clk e1) < started + Z.of_nat (ws_next s)) as Hpace.
    { pose proof (idle_round_budget s1 (t ++ t1) (perf_ms (clk e1)) Ht1) as Hidle. rewrite Hn1 in Hidle.
      apply Hidle; try done.
      assert (0 <= clk e <= clk e1) as Hm by lia. apply perf_ms_mono in Hm; [|done].
      assert (0 <= clk e1) as Hpos by lia. apply perf_ms_rate in Hpos; [lia|done]. }
    apply perf_due_ahead in Hpace; [lia|done|lia].
  - destruct (pending e4) as [|sl' pend'] eqn:Hpe4; [by apply Permutation_nil_r in Hp4|].
    specialize (Hend ltac:(done) eq_refl). lia.
Qed.

Lemma win_round_paced (n : nat) s (e : E) s' e' u :
  underway s e → clk e' < 4611686018427387904 * 500000 → round s e = Some (inl s', e', u) →
  underway s' e' ∧ deadline s' e' <= clk e' + win_pause_ns ∧ paced_order measure deadline (s', e') (s, e).
Proof.
  intros ([t Ht] & Hin & Hrate & Hst) Hnear Hr.
  destruct (punctual_round _ _ _ _ _ Hr Hin) as [Hin' Hle]. destruct Hin as [Hc _].
  assert (underway s' e') as Hun.
  { split; [|split; [done|]; split; [done|]].
    - eexists. by eapply (step_win_round _ _ Hcount (proj2 Hslots)) in Hr; [|exact Ht].
    - assert (0 <= clk e <= clk e') as Hm by lia. apply perf_ms_mono in Hm; [lia|done]. }
  split; [done|]. split; [by apply win_underway_deadline|]. split; [by eapply win_round_ticked|].
  eapply win_round_advances; try done. lia.
Qed.

Lemma total_win_round s : total (round s).
Proof.
  assert (∀ done s, total (completions (E := E) ips done s)) as Hcomp.
  { intros done. induction done; intros; cbn [completions]; unfold on_reply, is_answer, finish; solve_total. }
  assert (∀ budget s, total (win_send_loop (E := E) ips timeout_ms icmp budget s)) as Hsend.
  { intros budget. induction budget; intros; cbn [win_send_loop]; unfold is_answer, finish; solve_total. }
  unfold round, win_round, win_check_stop, win_now_ms, alertable_wait. solve_total.
Qed.
End LiveWin.

(** ** The whole sweep *)

(** The requests before the first round, in ns. *)
Definition WIN_SETUP_NS : Z := 5 * 86400000000000.

(** Uptime until which the send budget is exact, in ns. *)
Definition WIN_HORIZON_NS : Z := 4611686018427387904 * 500000.

Section WholeWinSweep.
Context {E : Type} `{EchoClock E}.

(** The longest a sweep takes, when no round lasts longer than [round_ms]. *)
Definition win_span (ips : list ip4) (timeout_ms round_ms : Z) : Z :=
  span_ns (win_pause_ns ips timeout_ms) round_ms (2 * length ips).

Lemma win_prepare_clock count max (e : E) su e' t :
  win_prepare count max e = Some (inr su, e', t) → 0 <= clk e →
  1000 <= perf_rate ∧ 0 <= wu_started su <= perf_ms (clk e') ∧ 0 <= clk e' <= clk e + WIN_SETUP_NS.
Proof.
  intros Hr Hc. unfold win_prepare in Hr.
  apply bind_inv in Hr as (icmp & e1 & t1 & u1 & [H1s _]%ask_inv & Hr & _).
  destruct icmp as [icmp|]; [|run_inv].
  apply bind_inv in Hr as (st & e2 & t2 & u2 & [H2s _]%ask_inv & Hr & _).
  apply bind_inv in Hr as (sl & e3 & t3 & u3 & [H3s _]%ask_inv & Hr & _).
  destruct st as [st|], sl as [sl|]; [|unfold free_opt in Hr; run_inv..].
  apply bind_inv in Hr as (tm & e4 & t4 & u4 & [H4s _]%ask_inv & Hr & _).
  apply bind_inv in Hr as (now & e5 & t5 & u5 & Hnow & Hr & _). apply ret_inv in Hr as (Heq & -> & _).
  assert (clk e5 <= clk e4 + 86400000000000) as Hday.
  { unfold win_now_ms in Hnow. run_inv. rename select (env_step PerfCounter _ = _) into Hs.
    pose proof (clock_day _ PerfCounter 0 _ _ _ Hs eq_refl). lia. }
  apply win_now_ms_clock in Hnow as (Hrate & -> & Htick & _). simplify_eq/=.
  apply ticked_later in Htick. unfold later in Htick.
  repeat match goal with Hs : env_step ?c _ = _ |- _ =>
    pose proof (clock_mono _ _ _ _ _ Hs); apply (clock_day _ c 0) in Hs; [|done] end.
  assert (0 <= clk e4 <= clk e5) as Hm by lia.
  split; [done|]. split; [|unfold WIN_SETUP_NS; lia].
  split; [apply perf_ms_pos; lia|by apply perf_ms_mono].
Qed.

(** a Windows sweep ends.  When echoes finish within their timeout and
    some grace, and no single round lasts longer than [round_ms], the sweep
    returns for every set of hosts, timeout and limit (some fuel is enough,
    and more changes nothing), and every round of it begins within
    [win_span] of the first: two pauses a host, each an echo's longest time
    or the pacing of all hosts. *)
Theorem win_ping_sweep_terminates ips timeout_ms max round_ms (e : E) :
  Z.of_nat (length ips) < 18446744073709551616 → 0 <= max → pending e = [] → 0 <= clk e → 0 <= round_ms →
  clk e + WIN_SETUP_NS + win_span ips timeout_ms round_ms + round_ms * 1000000 < WIN_HORIZON_NS →
  (∀ su e1 t, win_prepare (Z.of_nat (length ips)) (win_limit (Z.of_nat (length ips)) max) e
      = Some (inr su, e1, t) →
    brisk (λ _, win_round ips timeout_ms (wu_icmp su) (wu_timer su) (wu_started su)) round_ms
      (win_start (length ips) (win_slots ips max), e1)) →
  (∃ n, ∀ m, (n ≤ m)%nat → is_Some (win_ping_sweep m ips timeout_ms max e)) ∧
  ∀ su e1 t s e2,
    win_prepare (Z.of_nat (length ips)) (win_limit (Z.of_nat (length ips)) max) e = Some (inr su, e1, t) →
    rounds (λ _, win_round ips timeout_ms (wu_icmp su) (wu_timer su) (wu_started su))
      (win_start (length ips) (win_slots ips max), e1) (s, e2) → (0 < length ips)%nat →
    clk e2 <= clk e1 + win_span ips timeout_ms round_ms.
Proof.
  intros Hcount Hmax Hp Hc Hms Hspan Hbrisk.
  assert (∀ su e1 t, win_prepare (Z.of_nat (length ips)) (win_limit (Z.of_nat (length ips)) max) e
      = Some (inr su, e1, t) → (0 < length ips)%nat →
    let body := win_round ips timeout_ms (wu_icmp su) (wu_timer su) (wu_started su) in
    let s0 := win_start (length ips) (win_slots ips max) in
    (∃ n, ∀ m k, (n ≤ m)%nat → (n ≤ k)%nat → is_Some (loop m body s0 e1)) ∧
    ∀ s e2, rounds (λ _, body) (s0, e1) (s, e2) → clk e2 <= clk e1 + win_span ips timeout_ms round_ms) as Hloop.
  { intros su e1 t Hsu Hn body s0. destruct (win_prepare_quiet _ _ _ _ _ _ Hsu Hp) as (Hp1 & _ & _).
    destruct (win_prepare_clock _ _ _ _ _ _ Hsu Hc) as (Hrate & Hst & Hc1).
    pose proof (win_slots_le ips max) as Hle.
    assert (1 ≤ win_slots ips max ≤ length ips)%nat as Hslots by (unfold win_slots in *; lia).
    assert (underway ips (win_slots ips max) timeout_ms (wu_started su) s0 e1) as Hun.
    { split; [|split; [split; [lia|by rewrite Hp1]|done]]. exists []. rewrite Hp1.
      split; [by apply win_start_inv|apply follows_start]. }
    assert (measure ips s0 e1 = (2 * length ips)%nat) as Hm by (unfold measure; rewrite Hp1; simpl; lia).
    unfold win_span in *. rewrite <- Hm in *.
    apply (paced_terminates (λ _, body) (underway ips (win_slots ips max) timeout_ms (wu_started su))
      (measure ips) (deadline (wu_started su)) (win_pause_ns ips timeout_ms) WIN_HORIZON_NS); try done.
    - intros s. apply runs_const, total_win_round.
    - unfold win_pause_ns. lia.
    - intros n s f s' f' u Hs Hnear Hr.
      by apply (win_round_paced ips _ timeout_ms (wu_icmp su) (wu_timer su) (wu_started su) Hcount Hslots n s f s' f' u).
    - by eapply win_underway_deadline.
    - lia.
    - by eapply Hbrisk. }
  split; [|intros su e1 t s e2 Hsu Hr Hn; exact (proj2 (Hloop _ _ _ Hsu Hn) s e2 Hr)].
  unfold win_ping_sweep. case_test; [exists 0%nat; intros; by eexists|]. to_prop.
  assert (total (win_prepare (E := E) (Z.of_nat (length ips)) (win_limit (Z.of_nat (length ips)) max))) as Htot.
  { unfold win_prepare, free_opt, win_now_ms. solve_total. }
  destruct (Htot e) as [[[[r|su] e1] t] Hsu].
  { exists 0%nat. intros m _. eexists. by eapply bind_some. }
  destruct (Hloop _ _ _ Hsu ltac:(lia)) as [[n Hl] _].
  exists n. intros m Hm. destruct (Hl m m Hm Hm) as [[[s e2] u] Hrun]. rewrite win_limit_slots by done.
  match goal with |- is_Some ((_ ≫= ?k) e) => assert (is_Some (k (inr su) e1)) as [[[r e3] v] Hk] end.
  { match goal with |- is_Some ((_ ≫= ?k) e1) => assert (total (k s)) as Ht by solve_total end.
    destruct (Ht e2) as [[[r e3] v] Hk]. eexists. eapply bind_some; [exact Hrun|exact Hk]. }
  eexists. eapply bind_some; [exact Hsu|exact Hk].
Qed.
End WholeWinSweep.

Lemma win_ping_sweep_terminates_witness :
  win_span two_hosts 20 60 = 640000000 ∧
  (∃ n, ∀ m, (n ≤ m)%nat → is_Some (win_ping_sweep m two_hosts 20 1 win_lan)) ∧
  ∀ su e1 t s e2,
    win_prepare 2 (win_limit 2 1) win_lan = Some (inr su, e1, t) →
    rounds (λ _, win_round two_hosts 20 (wu_icmp su) (wu_timer su) (wu_started su))
      (win_start 2 (win_slots two_hosts 1), e1) (s, e2) → (0 < 2)%nat →
    clk e2 <= clk e1 + win_span two_hosts 20 60.
Proof.
  split; [here|].
  refine (win_ping_sweep_terminates two_hosts 20 1 60 win_lan _ _ _ _ _ _ _); [here..|].
  intros su e1 t Hsu. vm_compute in Hsu. injection Hsu as <- <- _.
  eapply (brisk_run_sound _ 60 0 (λ s, fuel_mono_const _) 9). here.
Defined.
