(* ===== verification/TcpProbe.v ===== *)
(** * tcp_probe.c: TCP connect probes on Windows

    The three steps of a probe (start, wait, finish) and their helpers.
    [tcp_probe_wait] finds the settled sockets by sorting the ready ones
    and searching them; [sort_sockets] and [bsearch] are the C library's
    [qsort] and [bsearch] on its comparison [compare_sockets]. *)
From S2P Require Import Prelude Words Sys Script NsSocket.
Open Scope Z_scope.

Inductive tcp_probe_result :=
| TCP_PROBE_OPEN
| TCP_PROBE_REFUSED
| TCP_PROBE_FILTERED
| TCP_PROBE_PENDING
| TCP_PROBE_UNCONFIRMED
| TCP_PROBE_NO_SOCKET
| TCP_PROBE_NO_ADDRESS.

#[export] Instance tcp_probe_result_eq_dec : EqDecision tcp_probe_result.
Proof. solve_decision. Defined.

Definition TCP_PROBE_MAX_SOCKETS : Z := 4096.

Definition WSAEADDRINUSE : Z := 10048.
Definition WSAEADDRNOTAVAIL : Z := 10049.
Definition WSAENOBUFS : Z := 10055.
Definition WSAECONNREFUSED : Z := 10061.
(* TCP_INITIAL_RTO_NO_SYN_RETRANSMISSIONS, a UCHAR *)
Definition NO_SYN_RETRANSMISSIONS : Z := 254.
(* sizeof(fd_set) with FD_SETSIZE 4096: a count, padding, 8-byte handles *)
Definition FD_SET_SIZE : Z := 8 + 8 * 4096.

Definition classify (so_error : Z) : tcp_probe_result :=
  if so_error =? 0 then TCP_PROBE_OPEN
  else if (so_error =? WSAECONNREFUSED) || (so_error =? WSAECONNRESET) then TCP_PROBE_REFUSED
  else TCP_PROBE_FILTERED.

(** (x > y) - (x < y) *)
Definition compare_sockets (x y : Z) : Z :=
  (if x >? y then 1 else 0) - (if x <? y then 1 else 0).

Fixpoint insert_socket (x : Z) (l : list Z) : list Z :=
  match l with
  | [] => [x]
  | y :: l' => if compare_sockets x y <=? 0 then x :: l else y :: insert_socket x l'
  end.

(** qsort(..., compare_sockets) *)
Definition sort_sockets (l : list Z) : list Z := foldr insert_socket [] l.

(** bsearch(&key, arr, hi - lo, ..., compare_sockets) != NULL, halving
    [lo, hi) at most [fuel] times. *)
Fixpoint bsearch (fuel : nat) (key : Z) (arr : list Z) (lo hi : nat) : bool :=
  match fuel with
  | O => false
  | S fuel =>
    if (hi <=? lo)%nat then false
    else
      let mid := (lo + (hi - lo) / 2)%nat in
      let c := compare_sockets key (default 0 (arr !! mid)) in
      if c =? 0 then true
      else if c <? 0 then bsearch fuel key arr lo mid
      else bsearch fuel key arr (S mid) hi
  end.

(** if (count > TCP_PROBE_MAX_SOCKETS) count = TCP_PROBE_MAX_SOCKETS; *)
Definition watched (socks : list Z) : list Z :=
  take (Z.to_nat TCP_PROBE_MAX_SOCKETS) socks.

Section TcpProbe.
Context {E : Type} `{Env E}.

Definition connected (sock : Z) : M E tcp_probe_result :=
  local ← ask (GetSockName sock);
  match local with
  | Err _ => mret TCP_PROBE_OPEN
  | Ok local =>
    peer ← ask (GetPeerName sock);
    match peer with
    | Err _ => mret TCP_PROBE_OPEN
    | Ok peer =>
      if negb (bool_decide (sa_ip local = sa_ip peer)) then mret TCP_PROBE_OPEN
      else mret (if sa_port local =? sa_port peer then TCP_PROBE_REFUSED else TCP_PROBE_UNCONFIRMED)
    end
  end.

Definition refuse_fast (sock timeout_ms : Z) : M E unit :=
  ask (SetOpt sock (IoctlInitialRto (u16 (if timeout_ms >? 65534 then 65534 else timeout_ms))
         NO_SYN_RETRANSMISSIONS));;
  mret ().

(** The verdict, and what is stored in *out_sock. *)
Definition tcp_probe_start (ip : ip4) (port timeout_ms : Z) : M E (tcp_probe_result * option Z) :=
  win_wsa_init_once;;
  sock ← ask (Socket TcpSock);
  match sock with
  | Err _ => mret (TCP_PROBE_NO_SOCKET, None)
  | Ok sock =>
    nonblocking ← ask (IoctlNonblocking sock);
    match nonblocking with
    | Err _ => ask (CloseSock sock);; mret (TCP_PROBE_NO_SOCKET, None)
    | Ok _ =>
      refuse_fast sock timeout_ms;;
      r ← ask (Connect sock (SA AF_INET ip port));
      match r with
      | Ok _ =>
        verdict ← connected sock;
        ask (CloseSock sock);;
        mret (verdict, None)
      | Err connect_error =>
        if negb (connect_error =? WSAEWOULDBLOCK) then
          ask (CloseSock sock);;
          mret (if connect_error =? WSAENOBUFS then TCP_PROBE_NO_SOCKET
                else if (connect_error =? WSAEADDRNOTAVAIL) || (connect_error =? WSAEADDRINUSE)
                then TCP_PROBE_NO_ADDRESS
                else classify connect_error, None)
        else mret (TCP_PROBE_PENDING, Some sock)
      end
    end
  end.

(** if (bsearch(...) != NULL) { settled[i] = 1; settled_count++; } *)
Definition settle (ready : list Z) (sock : Z) : bool :=
  bsearch (S (length ready)) sock ready 0 (length ready).

(** tcp_probe_wait once [count] is clamped: how many settled (-1 on
    failure), and settled[], what the call wrote. *)
Definition wait_watched (socks : list Z) (wait_ms : Z) : M E (Z * list bool) :=
  if (length socks =? 0)%nat then mret (0, [])
  else
    let none := map (λ _, false) socks in
    writable ← ask (Malloc FD_SET_SIZE);
    failed ← ask (Malloc FD_SET_SIZE);
    match writable, failed with
    | Some writable, Some failed =>
      r ← ask (Select [] socks socks (Z.quot wait_ms 1000) (Z.rem wait_ms 1000 * 1000));
      match r with
      | Err _ => ask (Free writable);; ask (Free failed);; mret (-1, none)
      | Ok (_, wfds, efds) =>
        if (length wfds + length efds =? 0)%nat then
          ask (Free writable);; ask (Free failed);; mret (0, none)
        else
          ready ← ask (Malloc (u64 (8 * Z.of_nat (length wfds + length efds))));
          match ready with
          | None => ask (Free writable);; ask (Free failed);; mret (-1, none)
          | Some ready =>
            ask (Free writable);;
            ask (Free failed);;
            let sorted := sort_sockets (wfds ++ efds) in
            let settled := map (settle sorted) socks in
            ask (Free ready);;
            mret (Z.of_nat (countb id settled), settled)
          end
      end
    | _, _ => free_opt writable;; free_opt failed;; mret (-1, none)
    end.

Definition tcp_probe_wait (socks : list Z) (wait_ms : Z) : M E (Z * list bool) :=
  wait_watched (watched socks) wait_ms.

Definition tcp_probe_finish (sock : Z) (settled : bool) : M E tcp_probe_result :=
  r ← ask (GetSoError sock);
  let read_failed := negb (sys_ok r) in
  let so_error := match r with Ok e => e | Err _ => 0 end in
  verdict ←
    (if read_failed || (negb settled && (so_error =? 0)) then mret TCP_PROBE_FILTERED
     else if so_error =? 0 then connected sock
     else mret (classify so_error));
  ask (CloseSock sock);;
  mret verdict.

End TcpProbe.

(** ** Sorting and searching *)

Lemma compare_sockets_sign x y :
  (compare_sockets x y < 0 ↔ x < y) ∧ (compare_sockets x y = 0 ↔ x = y) ∧
  (compare_sockets x y <= 0 ↔ x <= y).
Proof. unfold compare_sockets. repeat case_test; lia. Qed.

Lemma insert_socket_perm x l : insert_socket x l ≡ₚ x :: l.
Proof.
  induction l as [|y l IH]; [done|]. cbn [insert_socket]. case_test; [done|].
  by rewrite IH, Permutation_swap.
Qed.

Lemma sort_sockets_perm l : sort_sockets l ≡ₚ l.
Proof. induction l as [|x l IH]; [done|]. simpl. by rewrite insert_socket_perm, IH. Qed.

(** In order: each socket at most the ones after it. *)
Definition ascending (l : list Z) : Prop :=
  ∀ i j x y, (i < j)%nat → l !! i = Some x → l !! j = Some y → x <= y.

Lemma ascending_cons x l : ascending (x :: l) ↔ Forall (λ y, x <= y) l ∧ ascending l.
Proof.
  split.
  - intros Ha. split.
    + apply Forall_lookup. intros j y Hj. by apply (Ha 0%nat (S j) x y); [lia| |].
    + intros i j a b Hij Hi Hj. apply (Ha (S i) (S j)); [lia|done|done].
  - intros [Hx Ha] [|i] [|j] a b Hij Hi Hj; simpl in *; simplify_eq; [lia| |lia|].
    + rewrite Forall_lookup in Hx. by eapply Hx.
    + eapply (Ha i j); [lia|done|done].
Qed.

Lemma insert_socket_ascending x l : ascending l → ascending (insert_socket x l).
Proof.
  induction l as [|y l IH]; intros Ha; cbn [insert_socket].
  - apply ascending_cons. split; [constructor|done].
  - destruct (compare_sockets x y <=? 0) eqn:Hc; to_prop.
    + apply ascending_cons. split; [|done].
      assert (x <= y) as Hxy by (pose proof (compare_sockets_sign x y); lia).
      apply ascending_cons in Ha as [Hy _]. constructor; [done|].
      eapply Forall_impl; [exact Hy|]. simpl. lia.
    + assert (y <= x) as Hyx by (pose proof (compare_sockets_sign x y); lia).
      apply ascending_cons in Ha as [Hy Ha]. apply ascending_cons. split; [|by apply IH].
      rewrite insert_socket_perm. by constructor.
Qed.

Lemma sort_sockets_ascending l : ascending (sort_sockets l).
Proof.
  induction l as [|x l IH]; [by intros i j ? ? _ Hi|]. simpl. by apply insert_socket_ascending.
Qed.

(** The search looks at every place the key can be. *)
Lemma bsearch_range fuel key arr lo hi :
  ascending arr → (hi ≤ length arr)%nat → (hi - lo < fuel)%nat →
  bsearch fuel key arr lo hi = true ↔ ∃ i, (lo ≤ i < hi)%nat ∧ arr !! i = Some key.
Proof.
  intros Ha. revert lo hi. induction fuel as [|fuel IH]; intros lo hi Hhi Hf; [lia|].
  cbn [bsearch]. destruct (hi <=? lo)%nat eqn:Hle; to_prop.
  { split; [done|]. intros (i & Hi & _). lia. }
  set (mid := (lo + (hi - lo) / 2)%nat).
  assert (lo ≤ mid < hi)%nat as Hmid.
  { pose proof (Nat.Div0.div_le_mono 0 (hi - lo) 2). subst mid.
    pose proof (Nat.div_lt (hi - lo) 2). lia. }
  assert (is_Some (arr !! mid)) as [m Hm] by (apply lookup_lt_is_Some_2; lia).
  rewrite Hm. cbn [default from_option id]. destruct (compare_sockets_sign key m) as (Hlt & Heq & _).
  destruct (compare_sockets key m =? 0) eqn:E0; to_prop.
  { apply Heq in E0 as ->. split; [|done]. intros _. by exists mid. }
  destruct (compare_sockets key m <? 0) eqn:E1; to_prop.
  - rewrite IH by lia. split; intros (i & Hi & Hk); [exists i; split; [lia|done]|].
    exists i. split; [|done]. destruct (decide (i < mid)%nat); [lia|].
    destruct (decide (i = mid)) as [->|]; [simplify_eq; lia|].
    pose proof (Ha mid i m key ltac:(lia) Hm Hk). lia.
  - rewrite IH by lia. split; intros (i & Hi & Hk); [exists i; split; [lia|done]|].
    exists i. split; [|done]. destruct (decide (mid < i)%nat); [lia|].
    destruct (decide (i = mid)) as [->|]; [simplify_eq; lia|].
    pose proof (Ha i mid key m ltac:(lia) Hk Hm). lia.
Qed.

Lemma settle_sorted l sock : settle (sort_sockets l) sock = bool_decide (sock ∈ l).
Proof.
  apply eq_bool_prop_intro. rewrite !Is_true_true. unfold settle.
  rewrite bsearch_range; [|apply sort_sockets_ascending|done|lia].
  rewrite bool_decide_eq_true, <- (sort_sockets_perm l), list_elem_of_lookup.
  split; [intros (i & _ & ?); by exists i|]. intros [i Hi]. exists i. split; [|done].
  split; [lia|]. by eapply lookup_lt_Some.
Qed.

(** ** What the steps do *)

Section Steps.
Context {E : Type} `{Env E}.

(** The verdict on a connect that succeeded, as [connected] reads it from
    the two ends of the socket. *)
Definition own_address (t : list event) (sock : Z) (own_port : bool) : Prop :=
  ∃ local peer, Ev (GetSockName sock) (Ok local) ∈ t ∧ Ev (GetPeerName sock) (Ok peer) ∈ t ∧
    sa_ip local = sa_ip peer ∧ (own_port = true ↔ sa_port local = sa_port peer).

Lemma connected_sound sock (e : E) v e' t :
  connected sock e = Some (v, e', t) →
  Forall neutral t ∧
  (v = TCP_PROBE_OPEN ∨ (v = TCP_PROBE_REFUSED ∧ own_address t sock true) ∨
   (v = TCP_PROBE_UNCONFIRMED ∧ own_address t sock false)).
Proof.
  intros Hr. split.
  { assert (logs neutral (connected (E := E) sock)) as Hl by (unfold connected; solve_logs).
    by eapply Hl. }
  unfold connected in Hr. run_inv; to_prop; try by left.
  right. case_test; [left|right]; (split; [done|]); eexists _, _;
    (splits; [in_list|in_list|done|naive_solver]).
Qed.

Lemma own_address_mono t u sock b :
  (∀ ev, ev ∈ t → ev ∈ u) → own_address t sock b → own_address u sock b.
Proof. intros Hs (l & p & H1 & H2 & ?). exists l, p. auto. Qed.

(** What the C code learns from a connect that failed at once. *)
Definition start_error (e : Z) : tcp_probe_result :=
  if e =? WSAENOBUFS then TCP_PROBE_NO_SOCKET
  else if (e =? WSAEADDRNOTAVAIL) || (e =? WSAEADDRINUSE) then TCP_PROBE_NO_ADDRESS
  else classify e.

(** A request that sends nothing to the target. *)
Definition not_connect (ev : event) : Prop :=
  match ev with Ev (Connect _ _) _ => False | _ => True end.

(** Winsock starts without touching sockets or memory. *)
Lemma win_wsa_init_once_neutral : logs neutral (win_wsa_init_once (E := E)).
Proof. unfold win_wsa_init_once, win_wsa_do_startup. solve_logs. Qed.

Lemma win_wsa_init_once_quiet : logs not_connect (win_wsa_init_once (E := E)).
Proof. unfold win_wsa_init_once, win_wsa_do_startup. solve_logs. Qed.

(** The outcomes of a start: no socket, a connect that settled at once, or
    one under way. *)
Inductive start_outcome (ip : ip4) (port : Z) (t : list event) : tcp_probe_result * option Z → Prop :=
| StartNoSocket :
    Forall not_connect t → start_outcome ip port t (TCP_PROBE_NO_SOCKET, None)
| StartConnected sock v :
    Ev (Connect sock (SA AF_INET ip port)) (Ok ()) ∈ t →
    v = TCP_PROBE_OPEN ∨ (v = TCP_PROBE_REFUSED ∧ own_address t sock true) ∨
    (v = TCP_PROBE_UNCONFIRMED ∧ own_address t sock false) →
    start_outcome ip port t (v, None)
| StartFailed sock err :
    Ev (Connect sock (SA AF_INET ip port)) (Err err) ∈ t →
    err ≠ WSAEWOULDBLOCK → start_outcome ip port t (start_error err, None)
| StartPending sock :
    Ev (IoctlNonblocking sock) (Ok ()) ∈ t →
    Ev (Connect sock (SA AF_INET ip port)) (Err WSAEWOULDBLOCK) ∈ t →
    start_outcome ip port t (TCP_PROBE_PENDING, Some sock).

Definition held_sock (s : option Z) : list res :=
  match s with Some s => [RSock s] | None => [] end.

Lemma start_outcome_of_run ip port timeout_ms (e : E) r e' t :
  tcp_probe_start ip port timeout_ms e = Some (r, e', t) →
  start_outcome ip port t r ∧ keeps t (held_sock r.2).
Proof.
  intros Hr. unfold tcp_probe_start in Hr.
  apply bind_inv in Hr as ([] & e1 & t1 & t2 & Hwsa & Hr & ->).
  pose proof (win_wsa_init_once_quiet _ _ _ _ Hwsa) as Hq.
  pose proof (win_wsa_init_once_neutral _ _ _ _ Hwsa) as Hn. clear Hwsa.
  enough (start_outcome ip port (t1 ++ t2) r ∧ keeps t2 (held_sock r.2)) as [? Hk].
  { split; [done|]. apply keeps_keeps_from. eapply keeps_from_app; [by apply keeps_from_neutral|done]. }
  apply bind_inv in Hr as (sock & e2 & u1 & u2 & [_ ->]%ask_inv & Hr & ->).
  destruct sock as [sock|err].
  2:{ run_inv. split; [|solve_keeps]. constructor. apply Forall_app. by repeat constructor. }
  apply bind_inv in Hr as (nb & e3 & u3 & u4 & [_ ->]%ask_inv & Hr & ->).
  destruct nb as [[]|err].
  2:{ run_inv. split; [|solve_keeps]. constructor. apply Forall_app. by repeat constructor. }
  unfold refuse_fast in Hr.
  apply bind_inv in Hr as ([] & e4 & u5 & u6 & Hf & Hr & ->).
  apply bind_inv in Hr as (c & e5 & u7 & u8 & [_ ->]%ask_inv & Hr & ->).
  destruct c as [[]|err].
  - apply bind_inv in Hr as (v & e6 & u9 & u10 & Hc & Hr & ->).
    apply connected_sound in Hc as [Hcn Hv]. run_inv. split.
    + eapply (StartConnected _ _ _ sock); [in_list|].
      destruct Hv as [?|[[? Ho]|[? Ho]]]; [auto|right; left|right; right]; (split; [done|]);
        (eapply own_address_mono; [|exact Ho]); intros ev Hev; in_list.
    + solve_keeps.
  - case_test; run_inv; (split; [|solve_keeps]).
    + eapply (StartFailed _ _ _ sock); [in_list|done].
    + eapply (StartPending _ _ _ sock); in_list.
Qed.

(** What SO_ERROR, read at the end, has to say for each verdict. *)
Definition finish_reason (sock : Z) (settled : bool) (t : list event) (v : tcp_probe_result) : Prop :=
  match v with
  | TCP_PROBE_OPEN => settled = true ∧ Ev (GetSoError sock) (Ok 0) ∈ t
  | TCP_PROBE_UNCONFIRMED =>
      settled = true ∧ Ev (GetSoError sock) (Ok 0) ∈ t ∧ own_address t sock false
  | TCP_PROBE_REFUSED =>
      (∃ err, Ev (GetSoError sock) (Ok err) ∈ t ∧ (err = WSAECONNREFUSED ∨ err = WSAECONNRESET)) ∨
      settled = true ∧ Ev (GetSoError sock) (Ok 0) ∈ t ∧ own_address t sock true
  | TCP_PROBE_FILTERED =>
      ∃ r, Ev (GetSoError sock) r ∈ t ∧
        match r with
        | Err _ => True
        | Ok err => (settled = false ∧ err = 0) ∨
            (err ≠ 0 ∧ err ≠ WSAECONNREFUSED ∧ err ≠ WSAECONNRESET)
        end
  | _ => False
  end.

Lemma classify_error err :
  err ≠ 0 →
  (classify err = TCP_PROBE_REFUSED ∧ (err = WSAECONNREFUSED ∨ err = WSAECONNRESET)) ∨
  (classify err = TCP_PROBE_FILTERED ∧ err ≠ WSAECONNREFUSED ∧ err ≠ WSAECONNRESET).
Proof.
  intros Hn. unfold classify. rewrite (proj2 (Z.eqb_neq _ _)) by done. case_test; [left|right]; auto.
  split; [done|]. destruct T; to_prop; auto.
Qed.

Lemma finish_of_run sock settled (e : E) v e' t :
  tcp_probe_finish sock settled e = Some (v, e', t) →
  finish_reason sock settled t v ∧ keeps_from [RSock sock] t [].
Proof.
  intros Hr. unfold tcp_probe_finish in Hr.
  apply bind_inv in Hr as (r & e1 & t1 & t2 & [_ ->]%ask_inv & Hr & ->).
  apply bind_inv in Hr as (v' & e2 & u1 & u2 & Hv & Hr & ->).
  assert (v' = v ∧ u2 = [Ev (CloseSock sock) ()]) as [-> ->] by (run_inv; done). clear Hr.
  destruct (negb (sys_ok r) || _) eqn:Hgo in Hv.
  { run_inv. split; [|solve_keeps]. exists r. split; [in_list|].
    apply orb_true_iff in Hgo as [Hgo|Hgo]; destruct r as [err|]; try done.
    to_prop. left. by destruct settled. }
  destruct r as [err|]; [|done]. cbn in Hgo. destruct (err =? 0) eqn:He.
  - destruct settled; [|discriminate Hgo]. to_prop. subst. apply connected_sound in Hv as [Hn Hv]. split; [|solve_keeps].
    destruct Hv as [->|[[-> Ho]|[-> Ho]]]; simpl; [|right|]; splits; try done; try in_list;
      (eapply own_address_mono; [|exact Ho]); intros ev Hev; in_list.
  - to_prop. run_inv. split; [|solve_keeps].
    destruct (classify_error err He) as [[-> ?]|[-> ?]]; simpl; [left|]; eexists; (split; [in_list|simpl; tauto]).
Qed.

(** ** Waiting *)

(** The ready sockets select left in the two sets. *)
Definition selected (socks : list Z) (t : list event) (ready : list Z) : Prop :=
  ∃ sec usec rfds wfds efds, Ev (Select [] socks socks sec usec) (Ok (rfds, wfds, efds)) ∈ t ∧
    ready = wfds ++ efds.

Lemma countb_none {A} (l : list A) : countb id (map (λ _, false) l) = 0%nat.
Proof. induction l; [done|]. simpl. by rewrite countb_cons. Qed.

Lemma wait_of_run socks wait_ms (e : E) n settled e' t :
  wait_watched socks wait_ms e = Some ((n, settled), e', t) →
  keeps t [] ∧
  (socks = [] ∧ n = 0 ∧ settled = [] ∨
   n = -1 ∧ settled = map (λ _, false) socks ∨
   ∃ ready, selected socks t ready ∧
     settled = map (λ s, bool_decide (s ∈ ready)) socks ∧ n = Z.of_nat (countb id settled)).
Proof.
  intros Hr. unfold wait_watched in Hr.
  destruct (length socks =? 0)%nat eqn:Hlen; to_prop.
  { run_inv. split; [apply (keeps_from_nil [])|]. left. by apply nil_length_inv in Hlen. }
  apply bind_inv in Hr as (w & e1 & t1 & t2 & [_ ->]%ask_inv & Hr & ->).
  apply bind_inv in Hr as (f & e2 & u1 & u2 & [_ ->]%ask_inv & Hr & ->).
  destruct w as [w|], f as [f|];
    [|unfold free_opt in Hr; run_inv; (split; [solve_keeps|auto])..].
  apply bind_inv in Hr as (r & e3 & u3 & u4 & [_ ->]%ask_inv & Hr & ->).
  destruct r as [[[rfds wfds] efds]|]; [|run_inv; split; [solve_keeps|auto]].
  case_test.
  { run_inv. split; [solve_keeps|]. right; right. assert (wfds = [] ∧ efds = []) as [-> ->].
    { split; apply nil_length_inv; lia. }
    exists []. split; [eexists _, _, _, _, _; split; [in_list|done]|]. split; [|by rewrite countb_none].
    apply map_ext. intros. by rewrite bool_decide_eq_false_2 by set_solver. }
  apply bind_inv in Hr as (m & e4 & u5 & u6 & [_ ->]%ask_inv & Hr & ->).
  destruct m as [m|]; [|run_inv; split; [solve_keeps|auto]].
  run_inv. split; [solve_keeps|]. right; right. exists (wfds ++ efds).
  split; [eexists _, _, _, _, _; split; [in_list|done]|]. split; [|done].
  apply map_ext. intros. apply settle_sorted.
Qed.
End Steps.

(** ** Properties *)

Section Properties.
Context {E : Type} `{Env E}.

(** waiting.  [tcp_probe_wait] flags exactly the watched sockets that
    select left writable or failed, and returns their number; when it fails
    (-1) it flags none.  It looks only at the first 4096 sockets, and
    frees what it allocated on every path. *)
Theorem tcp_probe_wait_exact socks wait_ms (e : E) n settled e' t :
  tcp_probe_wait socks wait_ms e = Some ((n, settled), e', t) →
  keeps t [] ∧
  (watched socks = [] ∧ n = 0 ∧ settled = [] ∨
   n = -1 ∧ settled = map (λ _, false) (watched socks) ∨
   ∃ ready, selected (watched socks) t ready ∧
     settled = map (λ s, bool_decide (s ∈ ready)) (watched socks) ∧
     n = Z.of_nat (countb id settled)).
Proof. exact (wait_of_run (watched socks) wait_ms e n settled e' t). Qed.

(** the sort-and-search lookup of [tcp_probe_wait] is membership: a
    binary search of the sorted ready sockets finds a socket exactly when
    it is one of them. *)
Theorem settle_membership ready sock :
  settle (sort_sockets ready) sock = bool_decide (sock ∈ ready) ∧
  sort_sockets ready ≡ₚ ready ∧ ascending (sort_sockets ready).
Proof.
  split; [apply settle_sorted|]. split; [apply sort_sockets_perm|apply sort_sockets_ascending].
Qed.

(** starting.  A start connects to [ip]:[port] and nowhere else, and its
    verdict follows from how that connect ended: OPEN, REFUSED (it met
    itself) or UNCONFIRMED (its own machine) after one that succeeded, the
    error's verdict after one that failed, PENDING only for one under way
    on a non-blocking socket, NO_SOCKET when none was attempted. *)
Theorem tcp_probe_start_outcome ip port timeout_ms (e : E) r e' t :
  tcp_probe_start ip port timeout_ms e = Some (r, e', t) → start_outcome ip port t r.
Proof. apply start_outcome_of_run. Qed.

(** finishing.  The verdict of a pending probe follows from SO_ERROR:
    OPEN only when the socket was signaled and has no error, REFUSED on a
    refusal or reset (or a connect that met itself), otherwise FILTERED; it
    is never PENDING. *)
Theorem tcp_probe_finish_verdict sock settled (e : E) v e' t :
  tcp_probe_finish sock settled e = Some (v, e', t) → finish_reason sock settled t v.
Proof. apply finish_of_run. Qed.

(** a probe leaks no socket: a start keeps one exactly when it hands it
    out as pending, and start followed by finish keeps none. *)
Theorem tcp_probe_leak_free ip port timeout_ms settled (e : E) r e1 t1 :
  tcp_probe_start ip port timeout_ms e = Some (r, e1, t1) →
  keeps t1 (held_sock r.2) ∧
  (is_Some r.2 ↔ r.1 = TCP_PROBE_PENDING) ∧
  ∀ sock v e2 t2, r.2 = Some sock →
    tcp_probe_finish sock settled e1 = Some (v, e2, t2) → keeps (t1 ++ t2) [].
Proof.
  intros [Ho Hk]%start_outcome_of_run. split; [done|]. split.
  - destruct Ho as [|? ? ? Hv| |]; cbn [fst snd]; try naive_solver.
    split; [by intros [? ?]|]. intros Hv. unfold start_error, classify in Hv. by repeat case_match.
  - intros sock v e2 t2 Hs [_ Hf]%finish_of_run. rewrite Hs in Hk. apply keeps_keeps_from.
    eapply keeps_from_app; [exact Hk|exact Hf].
Qed.
End Properties.

(** ** Witnesses *)

Definition winsock : script :=
  set_queues [] [Ok ([], [9; 5], [7])] [] [] [Err WSAEWOULDBLOCK] [] [] (idle 1000000000).

Lemma tcp_probe_wait_exact_witness :
  ∃ x e' t, tcp_probe_wait [5; 6; 7; 8] 1500 winsock = Some (x, e', t) ∧
    x = (2, [true; false; true; false]) ∧
    keeps t [] ∧
    ([5; 6; 7; 8] = [] ∧ x.1 = 0 ∧ x.2 = [] ∨
     x.1 = -1 ∧ x.2 = map (λ _, false) [5; 6; 7; 8] ∨
     ∃ ready, selected [5; 6; 7; 8] t ready ∧
       x.2 = map (λ s, bool_decide (s ∈ ready)) [5; 6; 7; 8] ∧ x.1 = Z.of_nat (countb id x.2)).
Proof.
  run_here. split; [here|].
  refine (tcp_probe_wait_exact [5; 6; 7; 8] 1500 winsock _ _ _ _ _). here.
Defined.

Lemma tcp_probe_start_outcome_witness :
  ∃ r e' t, tcp_probe_start (IP 10 0 0 1) 443 800 winsock = Some (r, e', t) ∧
    r = (TCP_PROBE_PENDING, Some 3) ∧ start_outcome (IP 10 0 0 1) 443 t r.
Proof.
  run_here. split; [here|].
  refine (tcp_probe_start_outcome (IP 10 0 0 1) 443 800 winsock _ _ _ _). here.
Defined.

Lemma tcp_probe_finish_verdict_witness :
  ∃ v e' t, tcp_probe_finish 3 true winsock = Some (v, e', t) ∧ finish_reason 3 true t v.
Proof.
  run_here. refine (tcp_probe_finish_verdict 3 true winsock _ _ _ _). here.
Defined.

Lemma tcp_probe_leak_free_witness :
  ∃ r e1 t1, tcp_probe_start (IP 10 0 0 1) 443 800 winsock = Some (r, e1, t1) ∧
    keeps t1 (held_sock r.2) ∧
    (is_Some r.2 ↔ r.1 = TCP_PROBE_PENDING) ∧
    ∀ sock v e2 t2, r.2 = Some sock →
      tcp_probe_finish sock true e1 = Some (v, e2, t2) → keeps (t1 ++ t2) [].
Proof.
  run_here. refine (tcp_probe_leak_free (IP 10 0 0 1) 443 800 true winsock _ _ _ _). here.
Defined.
