(* ===== verification/Window.v ===== *)
(** * connects.zig: the window of connects in flight

    How many connects a run keeps in flight ([Window]): congestion control
    with delay as its signal.  Arithmetic is Zig's: [None] is an overflow,
    which the theorems exclude. *)
From S2P Require Import Prelude Words Targets.
Open Scope Z_scope.

Inductive Pace := adaptive | fixed | pool.

Definition SLACK_US : Z := 20 * 1000.
Definition DARK_NS : Z := 500 * 1000000.

Record Window := {
  w_size : Z;
  w_min : Z;
  w_max : Z;
  w_fastest_us : option Z;
  w_hold_until_ns : Z;
  w_adaptive : bool;
  w_settled : Z;
  w_answered : Z;
  w_last_answer_ns : Z;
  w_dark : bool
}.

(** The assertion on the bounds is [None]. *)
Definition window_init (min max : Z) (pace : Pace) : option Window :=
  if (1 <=? min) && (min <=? max) then
    Some {| w_size := match pace with fixed => max | _ => min end;
            w_min := min;
            w_max := match pace with pool => min | _ => max end;
            w_fastest_us := None; w_hold_until_ns := 0;
            w_adaptive := match pace with adaptive => true | _ => false end;
            w_settled := 0; w_answered := 0; w_last_answer_ns := 0; w_dark := false |}
  else None.

(** Assignments to the fields. *)
Definition set_size (size : Z) (w : Window) : Window :=
  {| w_size := size; w_min := w_min w; w_max := w_max w; w_fastest_us := w_fastest_us w;
     w_hold_until_ns := w_hold_until_ns w; w_adaptive := w_adaptive w; w_settled := w_settled w;
     w_answered := w_answered w; w_last_answer_ns := w_last_answer_ns w; w_dark := w_dark w |}.

Definition set_hold (hold : Z) (w : Window) : Window :=
  {| w_size := w_size w; w_min := w_min w; w_max := w_max w; w_fastest_us := w_fastest_us w;
     w_hold_until_ns := hold; w_adaptive := w_adaptive w; w_settled := w_settled w;
     w_answered := w_answered w; w_last_answer_ns := w_last_answer_ns w; w_dark := w_dark w |}.

Definition set_settled (n : Z) (w : Window) : Window :=
  {| w_size := w_size w; w_min := w_min w; w_max := w_max w; w_fastest_us := w_fastest_us w;
     w_hold_until_ns := w_hold_until_ns w; w_adaptive := w_adaptive w; w_settled := n;
     w_answered := w_answered w; w_last_answer_ns := w_last_answer_ns w; w_dark := w_dark w |}.

(** An answer at [now]: [answered] so far, [fastest] of all. *)
Definition set_answer (answered now fastest : Z) (w : Window) : Window :=
  {| w_size := w_size w; w_min := w_min w; w_max := w_max w; w_fastest_us := Some fastest;
     w_hold_until_ns := w_hold_until_ns w; w_adaptive := w_adaptive w; w_settled := w_settled w;
     w_answered := answered; w_last_answer_ns := now; w_dark := false |}.

Definition set_dark (w : Window) : Window :=
  {| w_size := w_min w; w_min := w_min w; w_max := w_max w; w_fastest_us := w_fastest_us w;
     w_hold_until_ns := w_hold_until_ns w; w_adaptive := w_adaptive w; w_settled := w_settled w;
     w_answered := w_answered w; w_last_answer_ns := w_last_answer_ns w; w_dark := true |}.

Definition goneDark (now_ns : Z) (self : Window) : option (bool * Window) :=
  if w_dark self then Some (true, self)
  else if w_answered self =? 0 then Some (false, self)
  else
    a2 ← zu64 (2 * w_answered self);
    if a2 <? w_settled self then Some (false, self)
    else if now_ns - w_last_answer_ns self <? DARK_NS then Some (false, self)
    else Some (true, set_dark self).

(** The end of [observe]: one more connect may go in flight. *)
Definition grow (now_ns : Z) (self : Window) : option Window :=
  if now_ns <? w_hold_until_ns self then Some self
  else bigger ← zu64 (w_size self + 1); Some (set_size (Z.min (w_max self) bigger) self).

Definition observe (outcome : Outcome) (rtt_us now_ns : Z) (self : Window) : option Window :=
  if negb (w_adaptive self) then Some self
  else
    settled ← zu64 (w_settled self + 1);
    let self := set_settled settled self in
    match outcome with
    | filtered =>
      '(dark, self) ← goneDark now_ns self;
      if (dark : bool) then Some self else grow now_ns self
    | _ =>
      answered ← zu64 (w_answered self + 1);
      let fastest := Z.min (default rtt_us (w_fastest_us self)) rtt_us in
      let self := set_answer answered now_ns fastest self in
      f2 ← zu64 (2 * fastest);
      slow ← zu64 (f2 + SLACK_US);
      if rtt_us >? slow then
        if now_ns >=? w_hold_until_ns self
        then Some (set_hold (now_ns + rtt_us * 1000) (set_size (Z.max (w_min self) (w_size self / 2)) self))
        else Some self
      else grow now_ns self
    end.

(** The verdicts of a run, in order: outcome, round trip, time. *)
Record Seen := { o_outcome : Outcome; o_rtt_us : Z; o_now_ns : Z }.

Fixpoint observe_all (self : Window) (seen : list Seen) : option Window :=
  match seen with
  | [] => Some self
  | o :: seen => self ← observe (o_outcome o) (o_rtt_us o) (o_now_ns o) self; observe_all self seen
  end.

(** ** What every window keeps *)

(** Round trips and counts that cannot overflow. *)
Definition LIMIT : Z := 1152921504606846976.

(** After at most [n] verdicts. *)
Record window_ok (n : Z) (w : Window) : Prop := {
  ok_min : 1 <= w_min w;
  ok_size : w_min w <= w_size w <= w_max w;
  ok_max : w_max w <= LIMIT;
  ok_counts : 0 <= w_answered w <= w_settled w ∧ w_settled w <= n;
  ok_fastest : match w_fastest_us w with Some f => 0 <= f <= LIMIT | None => True end;
  ok_dark : w_dark w = true → w_size w = w_min w
}.

Lemma zu64_some z : 0 <= z < 18446744073709551616 → zu64 z = Some z.
Proof. apply fits_some. Qed.

(** Rewrite a checked operation by its value. *)
Ltac no_overflow := rewrite zu64_some by (unfold LIMIT, SLACK_US in *; lia); cbn [mbind option_bind].

Lemma window_init_ok min max pace w :
  max <= LIMIT → window_init min max pace = Some w →
  window_ok 0 w ∧ w_min w = min ∧ w_max w <= max ∧ (pace ≠ adaptive → w_adaptive w = false).
Proof.
  unfold window_init. intros Hm Hw. destruct (_ && _) eqn:Hg; [|done]. to_prop. injection Hw as <-.
  split; [split|]; destruct pace; simpl; try lia; done || (split; [done|]; split; [lia|done]).
Qed.

Lemma grow_some n now w :
  window_ok n w →
  grow now w = Some (if now <? w_hold_until_ns w then w
                     else set_size (Z.min (w_max w) (w_size w + 1)) w).
Proof. intros []. unfold grow. destruct (now <? _); [done|]. by no_overflow. Qed.

Lemma goneDark_some n now w :
  window_ok n w → n <= LIMIT →
  goneDark now w = Some (
    if w_dark w then (true, w)
    else if (w_answered w =? 0) || (2 * w_answered w <? w_settled w) || (now - w_last_answer_ns w <? DARK_NS)
    then (false, w) else (true, set_dark w)).
Proof.
  intros [] Hn. unfold goneDark. destruct (w_dark w); [done|].
  destruct (_ =? 0); [done|]. no_overflow. simpl. destruct (_ <? w_settled w); [done|]. by destruct (_ <? DARK_NS).
Qed.

Lemma window_ok_settled n w : window_ok n w → window_ok (n + 1) (set_settled (w_settled w + 1) w).
Proof. intros []. split; simpl; done || lia. Qed.

Lemma window_ok_answer n now fastest w :
  window_ok n w → w_answered w < w_settled w → 0 <= fastest <= LIMIT →
  window_ok n (set_answer (w_answered w + 1) now fastest w).
Proof. intros [] ? ?. split; simpl; done || lia. Qed.

Lemma window_ok_size n s w :
  window_ok n w → w_min w <= s <= w_max w → w_dark w = false → window_ok n (set_size s w).
Proof. intros [] ? Hd. split; simpl; try done. by rewrite Hd. Qed.

Lemma window_ok_hold n h w : window_ok n w → window_ok n (set_hold h w).
Proof. intros []. by split. Qed.

Lemma window_ok_dark n w : window_ok n w → window_ok n (set_dark w).
Proof. intros []. split; simpl; done || lia. Qed.

(** What [observe] computes, when nothing overflows. *)
Definition fastest_of (rtt : Z) (w : Window) : Z := Z.min (default rtt (w_fastest_us w)) rtt.

Definition slow (rtt : Z) (w : Window) : bool := 2 * fastest_of rtt w + SLACK_US <? rtt.

Definition answered_by (rtt now : Z) (w : Window) : Window :=
  set_answer (w_answered w + 1) now (fastest_of rtt w) (set_settled (w_settled w + 1) w).

(** The host has answered most and now none for [DARK_NS]. *)
Definition falls_silent (now : Z) (w : Window) : bool :=
  negb (w_dark w) && (0 <? w_answered w) && (w_settled w + 1 <=? 2 * w_answered w) &&
  (DARK_NS <=? now - w_last_answer_ns w).

Definition grown (now : Z) (w : Window) : Window :=
  if now <? w_hold_until_ns w then w else set_size (Z.min (w_max w) (w_size w + 1)) w.

Lemma window_observe_some n o rtt now w :
  window_ok n w → n < LIMIT → 0 <= rtt <= LIMIT → w_adaptive w = true →
  observe o rtt now w = Some (
    if decide (o = filtered) then
      let w' := set_settled (w_settled w + 1) w in
      if w_dark w then w' else if falls_silent now w then set_dark w' else grown now w'
    else
      let w' := answered_by rtt now w in
      if slow rtt w then
        if now <? w_hold_until_ns w then w'
        else set_hold (now + rtt * 1000) (set_size (Z.max (w_min w) (w_size w / 2)) w')
      else grown now w').
Proof.
  intros Hok Hn Hr Ha. pose proof Hok as []. unfold observe. rewrite Ha. cbn [negb]. no_overflow.
  pose proof (window_ok_settled n w Hok) as Hok1. set (w1 := set_settled (w_settled w + 1) w) in *.
  assert (0 <= fastest_of rtt w <= LIMIT) as Hf by (unfold fastest_of; destruct (w_fastest_us w); simpl; lia).
  destruct (decide (o = filtered)) as [->|Hof].
  - rewrite (goneDark_some (n + 1)) by (done || lia). subst w1. simpl. unfold falls_silent.
    destruct (w_dark w) eqn:Hd; [done|]. simpl.
    assert ((w_answered w =? 0) || (2 * w_answered w <? w_settled w + 1) ||
      (now - w_last_answer_ns w <? DARK_NS) =
      negb ((0 <? w_answered w) && (w_settled w + 1 <=? 2 * w_answered w) &&
        (DARK_NS <=? now - w_last_answer_ns w))) as ->.
    { rewrite !negb_andb, <- !Z.ltb_antisym. do 2 f_equal.
      apply eq_bool_prop_intro. rewrite !Is_true_true, Z.eqb_eq, negb_true_iff, Z.ltb_ge. lia. }
    destruct (_ && _); simpl; [done|]. by rewrite (grow_some (n + 1)).
  - assert (∀ A (x y : A), match o with filtered => x | _ => y end = y) as Hsel by (intros; by destruct o).
    rewrite Hsel. subst w1. simpl. fold (fastest_of rtt w). do 3 no_overflow.
    fold (answered_by rtt now w). unfold slow. rewrite Z.gtb_ltb. destruct (_ <? rtt).
    + simpl. rewrite Z.geb_leb. rewrite Z.leb_antisym. by destruct (now <? _).
    + rewrite (grow_some (n + 1)); [done|].
      apply (window_ok_answer _ _ _ (set_settled (w_settled w + 1) w)); simpl; [done|lia|done].
Qed.

Lemma fastest_of_range n rtt w : window_ok n w → 0 <= rtt <= LIMIT → 0 <= fastest_of rtt w <= LIMIT.
Proof. intros [] Hr. unfold fastest_of. destruct (w_fastest_us w); simpl; lia. Qed.

Lemma answered_by_ok n rtt now w :
  window_ok n w → 0 <= rtt <= LIMIT → window_ok (n + 1) (answered_by rtt now w).
Proof.
  intros Hok Hr. apply (window_ok_answer _ _ _ (set_settled (w_settled w + 1) w)).
  - by apply window_ok_settled.
  - destruct Hok. simpl. lia.
  - by eapply fastest_of_range.
Qed.

Lemma grown_ok n now w : window_ok n w → w_dark w = false → window_ok n (grown now w).
Proof.
  intros Hok Hd. unfold grown. case_match; [done|]. apply window_ok_size; [done| |done]. destruct Hok. lia.
Qed.

Lemma window_observe_ok n o rtt now w :
  window_ok n w → n < LIMIT → 0 <= rtt <= LIMIT →
  ∃ w', observe o rtt now w = Some w' ∧ window_ok (n + 1) w' ∧
    w_min w' = w_min w ∧ w_max w' = w_max w ∧ w_adaptive w' = w_adaptive w ∧
    (w_adaptive w = false → w_size w' = w_size w).
Proof.
  intros Hok Hn Hr. destruct (w_adaptive w) eqn:Ha.
  2:{ exists w. unfold observe. rewrite Ha. repeat (split; [done|]).
      split; [destruct Hok; split; done || lia|done]. }
  rewrite (window_observe_some n) by done. eexists. split; [done|].
  pose proof (window_ok_settled n w Hok) as Hs. pose proof (answered_by_ok n rtt now w Hok Hr) as Hans.
  cut (∀ w', window_ok (n + 1) w' ∧ w_min w' = w_min w ∧ w_max w' = w_max w ∧ w_adaptive w' = w_adaptive w →
    window_ok (n + 1) w' ∧ w_min w' = w_min w ∧ w_max w' = w_max w ∧ w_adaptive w' = true ∧
    (true = false → w_size w' = w_size w)); [intros Hcut; apply Hcut|rewrite Ha; naive_solver].
  destruct (decide (o = filtered)); simpl.
  - destruct (w_dark w) eqn:Hd; [done|]. destruct (falls_silent now w).
    + split; [by apply window_ok_dark|done].
    + split; [by apply grown_ok|]. unfold grown. by case_match.
  - destruct (slow rtt w); [destruct (now <? _); [done|]|].
    + split; [|done]. apply window_ok_hold, window_ok_size; [done| |done]. destruct Hok. simpl.
      pose proof (Z.div_le_upper_bound (w_size w) 2 (w_size w)). lia.
    + split; [by apply grown_ok|]. unfold grown. by case_match.
Qed.

(** ** Theorems *)

Definition seen_ok (o : Seen) : Prop := 0 <= o_rtt_us o <= LIMIT.

Lemma window_all_ok seen : ∀ n w,
  window_ok n w → n + Z.of_nat (length seen) <= LIMIT → Forall seen_ok seen →
  ∃ w', observe_all w seen = Some w' ∧ window_ok (n + Z.of_nat (length seen)) w' ∧
    w_min w' = w_min w ∧ w_max w' = w_max w ∧ (w_adaptive w = false → w_size w' = w_size w).
Proof.
  induction seen as [|o seen IH]; intros n w Hok Hn Hs.
  { exists w. rewrite Z.add_0_r. auto. }
  apply Forall_cons in Hs as [Ho Hs]. cbn [length] in *. simpl.
  destruct (window_observe_ok n (o_outcome o) (o_rtt_us o) (o_now_ns o) w) as (w1 & -> & Hok1 & H1 & H2 & H3 & H4);
    [done|lia|done|]. cbn [mbind option_bind].
  destruct (IH (n + 1) w1) as (w2 & -> & Hok2 & ? & ? & Hfix); [done|lia|done|].
  exists w2. split; [done|]. split; [|split; [congruence|split; [congruence|]]].
  - replace (n + Z.of_nat (S (length seen))) with (n + 1 + Z.of_nat (length seen)) by lia. done.
  - intros Hf. rewrite Hfix by congruence. auto.
Qed.

(** bounds.  Whatever verdicts a run sees, in whatever order and at
    whatever times, the window never overflows and stays between the pace it
    started at and its limit; a fixed window stays at the limit, a pool's at
    its pace, and a host gone dark has the least. *)
Theorem window_bounds min max pace w0 seen :
  window_init min max pace = Some w0 → max <= LIMIT → Z.of_nat (length seen) <= LIMIT → Forall seen_ok seen →
  ∃ w, observe_all w0 seen = Some w ∧ min <= w_size w <= max ∧
    match pace with
    | fixed => w_size w = max
    | pool => w_size w = min
    | adaptive => w_dark w = true → w_size w = min
    end.
Proof.
  intros Hi Hm Hl Hs. pose proof Hi as (Hok & Hmin & Hmax & Ha)%window_init_ok; [|done].
  destruct (window_all_ok seen 0 w0 Hok ltac:(lia) Hs) as (w & Hw & Hok' & Hmin' & Hmax' & Hfix).
  exists w. split; [done|]. destruct Hok'. split; [lia|].
  unfold window_init in Hi. destruct (_ && _); [|done]. injection Hi as <-. simpl in *.
  destruct pace; [intros Hd; rewrite ok_dark0; done|by apply Hfix; apply Ha|by apply Hfix; apply Ha].
Qed.

Definition busy_host : list Seen :=
  [{| o_outcome := refused; o_rtt_us := 1000; o_now_ns := 1000000 |};
   {| o_outcome := filtered; o_rtt_us := 500000; o_now_ns := 2000000 |};
   {| o_outcome := refused; o_rtt_us := 90000; o_now_ns := 3000000 |}].

Lemma window_bounds_witness :
  ∃ w0, window_init 2 8 adaptive = Some w0 ∧ Forall seen_ok busy_host ∧
  (w_size <$> observe_all w0 busy_host) = Some 2 ∧
  ∃ w, observe_all w0 busy_host = Some w ∧ 2 <= w_size w <= 8 ∧ (w_dark w = true → w_size w = 2).
Proof.
  eexists. split; [reflexivity|].
  assert (Forall seen_ok busy_host) as Hs.
  { do 3 (apply Forall_cons; split; [unfold seen_ok, LIMIT; simpl; lia|]). constructor. }
  split; [done|]. split; [by vm_compute|].
  apply (window_bounds 2 8 adaptive _ busy_host); [done|unfold LIMIT; lia|unfold LIMIT; simpl; lia|done].
Defined.

(** why a window shrinks.  It gets smaller only for one of two reasons: an
    answer more than [SLACK_US] over twice the fastest, when no earlier cut
    still holds: it halves, not below its least, and holds for that round
    trip; or the first silence of [DARK_NS] from a host that had answered at
    least half of what settled: it drops to its least.  Silence from any
    other host, and answers while a cut holds, never shrink it. *)
Theorem window_shrinks n o rtt now w w' :
  window_ok n w → n < LIMIT → 0 <= rtt <= LIMIT →
  observe o rtt now w = Some w' → w_size w' < w_size w →
  (o ≠ filtered ∧ 2 * fastest_of rtt w + SLACK_US < rtt ∧ w_hold_until_ns w <= now ∧
   w_size w' = Z.max (w_min w) (w_size w / 2) ∧ w_hold_until_ns w' = now + rtt * 1000) ∨
  (o = filtered ∧ w_dark w = false ∧ 0 < w_answered w ∧ w_settled w + 1 <= 2 * w_answered w ∧
   DARK_NS <= now - w_last_answer_ns w ∧ w_dark w' = true ∧ w_size w' = w_min w).
Proof.
  intros Hok Hn Hr Hw Hlt. destruct (w_adaptive w) eqn:Ha.
  2:{ unfold observe in Hw. rewrite Ha in Hw. injection Hw as <-. lia. }
  assert (∀ v, w_size v = w_size w → w_max v = w_max w → ¬ w_size (grown now v) < w_size w) as Hgrown.
  { intros v Hv Hm. unfold grown. destruct Hok. destruct (now <? _); simpl; lia. }
  rewrite (window_observe_some n) in Hw by done. injection Hw as <-. destruct (decide (o = filtered)) as [->|Hof].
  - right. cbv zeta in *. destruct (w_dark w) eqn:Hd; [simpl in Hlt; lia|].
    destruct (falls_silent now w) eqn:Hf; [|by apply Hgrown in Hlt].
    unfold falls_silent in Hf. to_prop. auto 10.
  - left. cbv zeta in *. destruct (slow rtt w) eqn:Hs; [|by apply Hgrown in Hlt].
    unfold slow in Hs. destruct (now <? _) eqn:Hnow; [simpl in Hlt; lia|]. to_prop. auto 10.
Qed.

Lemma window_shrinks_witness :
  let w0 := {| w_size := 8; w_min := 2; w_max := 8; w_fastest_us := Some 1000; w_hold_until_ns := 0;
               w_adaptive := true; w_settled := 4; w_answered := 3; w_last_answer_ns := 0; w_dark := false |} in
  ∃ w', observe refused 90000 5000000 w0 = Some w' ∧ w_size w' = 4 ∧ w_hold_until_ns w' = 95000000 ∧
  ((refused ≠ filtered ∧ 2 * fastest_of 90000 w0 + SLACK_US < 90000 ∧ w_hold_until_ns w0 <= 5000000 ∧
    w_size w' = Z.max (w_min w0) (w_size w0 / 2) ∧ w_hold_until_ns w' = 5000000 + 90000 * 1000) ∨
   (refused = filtered ∧ w_dark w0 = false ∧ 0 < w_answered w0 ∧ w_settled w0 + 1 <= 2 * w_answered w0 ∧
    DARK_NS <= 5000000 - w_last_answer_ns w0 ∧ w_dark w' = true ∧ w_size w' = w_min w0)).
Proof.
  intros w0. eexists. split; [reflexivity|]. split; [done|]. split; [done|].
  apply (window_shrinks 4 refused 90000 5000000 w0); [|unfold LIMIT; lia|unfold LIMIT; lia|reflexivity|by vm_compute].
  split; simpl; unfold LIMIT; done || lia.
Defined.

(** A prompt answer of a host whose fastest is at least [lo], once the last
    cut no longer holds. *)
Definition prompt (lo hold : Z) (o : Seen) : Prop :=
  o_outcome o ≠ filtered ∧ lo <= o_rtt_us o <= 2 * lo + SLACK_US ∧ hold <= o_now_ns o.

Lemma observe_prompt n lo o w :
  window_ok n w → n < LIMIT → seen_ok o → w_adaptive w = true →
  prompt lo (w_hold_until_ns w) o → lo <= default (o_rtt_us o) (w_fastest_us w) →
  observe (o_outcome o) (o_rtt_us o) (o_now_ns o) w =
    Some (set_size (Z.min (w_max w) (w_size w + 1)) (answered_by (o_rtt_us o) (o_now_ns o) w)).
Proof.
  intros Hok Hn Ho Ha (Hof & Hr & Hnow) Hlo. rewrite (window_observe_some n) by done.
  rewrite decide_False by done. cbv zeta.
  assert (lo <= fastest_of (o_rtt_us o) w) as Hf by (unfold fastest_of; lia).
  assert (slow (o_rtt_us o) w = false) as -> by (unfold slow; apply Z.ltb_ge; lia).
  unfold grown. simpl. by rewrite (proj2 (Z.ltb_ge _ _)) by lia.
Qed.

(** liveness.  A window that was cut, or went dark, comes back: as soon as
    the host answers promptly again every answer gives one connect more, so
    [max - size] answers are enough to reach the limit. *)
Theorem window_recovers n lo w seen :
  window_ok n w → n + Z.of_nat (length seen) <= LIMIT → w_adaptive w = true →
  0 <= lo → (∀ f, w_fastest_us w = Some f → lo <= f) →
  Forall seen_ok seen → Forall (prompt lo (w_hold_until_ns w)) seen →
  ∃ w', observe_all w seen = Some w' ∧
    w_size w' = Z.min (w_max w) (w_size w + Z.of_nat (length seen)) ∧ (seen ≠ [] → w_dark w' = false).
Proof.
  revert n w. induction seen as [|o seen IH]; intros n w Hok Hn Ha Hlo Hf Hs Hp.
  { exists w. destruct Hok. simpl. split; [done|]. split; [lia|done]. }
  apply Forall_cons in Hs as [Ho Hs]. apply Forall_cons in Hp as [Hpo Hp]. cbn [length] in *. cbn [observe_all].
  assert (lo <= default (o_rtt_us o) (w_fastest_us w)) as Hlow.
  { destruct (w_fastest_us w) as [f|]; simpl; [by apply Hf|apply Hpo]. }
  rewrite (observe_prompt n lo) by (done || lia). cbn [mbind option_bind].
  set (w1 := set_size _ _). pose proof (answered_by_ok n (o_rtt_us o) (o_now_ns o) w Hok Ho) as Hok1.
  destruct (IH (n + 1) w1) as (w' & Hw' & Hsize & Hdark); [|lia|done|done| |done|done|].
  - apply window_ok_size; [done| |done]. destruct Hok. simpl. lia.
  - intros f [= <-]. unfold fastest_of. destruct Hpo as (_ & ? & _). lia.
  - exists w'. split; [done|]. split; [rewrite Hsize; subst w1; simpl; lia|]. intros _.
    destruct seen; [by injection Hw' as <-|by apply Hdark].
Qed.

Lemma window_recovers_witness :
  let w := {| w_size := 2; w_min := 2; w_max := 5; w_fastest_us := Some 1000; w_hold_until_ns := 1000;
              w_adaptive := true; w_settled := 4; w_answered := 3; w_last_answer_ns := 0; w_dark := true |} in
  let seen := replicate 4 {| o_outcome := open; o_rtt_us := 2000; o_now_ns := 5000 |} in
  ∃ w', observe_all w seen = Some w' ∧ w_size w' = Z.min (w_max w) (w_size w + Z.of_nat (length seen)) ∧
    (seen ≠ [] → w_dark w' = false).
Proof.
  intros w seen. apply (window_recovers 4 1000 w seen); [|unfold LIMIT; simpl; lia|done|lia| | |].
  - split; simpl; unfold LIMIT; done || lia.
  - intros f [= <-]. lia.
  - apply Forall_replicate. unfold seen_ok, LIMIT. simpl. lia.
  - apply Forall_replicate. unfold prompt, SLACK_US. simpl. split; [done|lia].
Defined.
