(* ===== verification/Held.v ===== *)
(** * connects.zig: what a loop holds

    The connects a loop has in flight ([Flight]), the ones it could not
    start ([Held]), and when each is looked at again.  Times are
    nanoseconds of one clock. *)
From S2P Require Import Prelude Words Targets.
Open Scope Z_scope.

Definition ns_per_ms : Z := 1000000.

Definition STALL_LIMIT_NS : Z := 5 * 1000000000.
Definition FIRST_PAUSE_NS : Z := 1 * ns_per_ms.
Definition MAX_PAUSE_NS : Z := 100 * ns_per_ms.

(** What a connect that could not start was short of. *)
Inductive Shortage := short_socket | short_address.

#[export] Instance Shortage_eq_dec : EqDecision Shortage.
Proof. solve_decision. Defined.

(** ** Connects that could not start *)

(** [h_jobs] is jobs[0..len]. *)
Record Held := {
  h_jobs : list Job;
  h_suspect : bool;
  h_short : bool;
  h_since : Z;
  h_retry_at : Z;
  h_pause : Z
}.

Definition no_held : Held :=
  {| h_jobs := []; h_suspect := false; h_short := false; h_since := 0; h_retry_at := 0;
     h_pause := FIRST_PAUSE_NS |}.

Definition held_len (self : Held) : nat := length (h_jobs self).

Definition due (now : Z) (self : Held) : bool :=
  (0 <? held_len self)%nat && negb (h_suspect self) && (negb (h_short self) || (now >=? h_retry_at self)).

Definition held_open (self : Held) : bool := (held_len self =? 0)%nat || h_suspect self.

Definition with_jobs (jobs : list Job) (self : Held) : Held :=
  {| h_jobs := jobs; h_suspect := h_suspect self; h_short := h_short self; h_since := h_since self;
     h_retry_at := h_retry_at self; h_pause := h_pause self |}.

Definition with_suspect (suspect : bool) (self : Held) : Held :=
  {| h_jobs := h_jobs self; h_suspect := suspect; h_short := h_short self; h_since := h_since self;
     h_retry_at := h_retry_at self; h_pause := h_pause self |}.

Definition with_short (short : bool) (since pause : Z) (self : Held) : Held :=
  {| h_jobs := h_jobs self; h_suspect := h_suspect self; h_short := short; h_since := since;
     h_retry_at := h_retry_at self; h_pause := pause |}.

Definition with_retry (retry_at pause : Z) (self : Held) : Held :=
  {| h_jobs := h_jobs self; h_suspect := h_suspect self; h_short := h_short self; h_since := h_since self;
     h_retry_at := retry_at; h_pause := pause |}.

(** jobs[0], and the rest moved up; [None] when there is none. *)
Definition held_pop (self : Held) : option (Job * Held) :=
  match h_jobs self with
  | job :: jobs => Some (job, with_jobs jobs self)
  | [] => None
  end.

(** False once the shortage has lasted [STALL_LIMIT_NS]. *)
Definition hold (job : Job) (shortage : Shortage) (now : Z) (self : Held) : Held * bool :=
  let self := with_jobs (h_jobs self ++ [job]) self in
  if bool_decide (shortage = short_address) && negb (h_short self) && (held_len self =? 1)%nat
  then (with_suspect true self, true)
  else
    let self := with_suspect false self in
    let self := if negb (h_short self) then with_short true now FIRST_PAUSE_NS self else self in
    let self := with_retry (now + h_pause self) (Z.min (2 * h_pause self) MAX_PAUSE_NS) self in
    (self, now - h_since self <? STALL_LIMIT_NS).

Definition dropSuspect (self : Held) : option Job * Held :=
  if negb (h_suspect self) then (None, self)
  else match held_pop (with_suspect false self) with
       | Some (job, self) => (Some job, self)
       | None => (None, with_suspect false self)
       end.

(** A connect started: nothing is short any more. *)
Definition held_started (self : Held) : option Job * Held :=
  dropSuspect (with_short false (h_since self) (h_pause self) self).

(** ** Connects in flight *)

(** One place of the parallel arrays. *)
Record Slot := { f_job : Job; f_sock : Z; f_started : Z; f_deadline : Z; f_settled : bool }.

(** [f_slots] is the arrays up to len; the arrays have [f_capacity]. *)
Record Flight := { f_capacity : nat; f_slots : list Slot }.

Definition flight_len (self : Flight) : nat := length (f_slots self).

Definition with_slots (slots : list Slot) (self : Flight) : Flight :=
  {| f_capacity := f_capacity self; f_slots := slots |}.

Definition flight_add (job : Job) (sock started : Z) (self : Flight) : Flight :=
  with_slots (f_slots self ++
    [{| f_job := job; f_sock := sock; f_started := started;
        f_deadline := started + t_timeout_ms (j_target job) * ns_per_ms; f_settled := false |}]) self.

(** The last slot moves into place [i]. *)
Definition flight_remove (i : nat) (self : Flight) : Flight :=
  with_slots (swap_remove i (f_slots self)) self.

Definition deadline (cut : Cut) (slot : Slot) : Z :=
  let own := f_deadline slot in
  match t_cut_floor_ms (j_target (f_job slot)), c_wait_ms cut with
  | Some floor, Some wait_ms =>
    let from := Z.max (f_started slot) (c_last_answer_ns cut) in
    Z.min own (from + Z.max wait_ms floor * ns_per_ms)
  | _, _ => own
  end.

(** When one connect is looked at again, at the latest. *)
Definition wake (cut : Cut) (now : Z) (slot : Slot) : Z :=
  let at_deadline := deadline cut slot in
  match c_wait_ms cut, t_cut_floor_ms (j_target (f_job slot)) with
  | None, Some floor =>
    let check := f_started slot + floor * ns_per_ms in
    if check >? now then Z.min at_deadline check else at_deadline
  | _, _ => at_deadline
  end.

(** std.math.maxInt(i96) *)
Definition MAX_I96 : Z := 2 ^ 95 - 1.

Definition earliestWake (cut : Cut) (now : Z) (self : Flight) : Z :=
  foldl (λ earliest slot, Z.min earliest (wake cut now slot)) MAX_I96 (f_slots self).

(** settled[i], as waitSettled leaves it. *)
Definition set_flags (flags : list bool) (self : Flight) : Flight :=
  with_slots (zip_with (λ slot settled,
    {| f_job := f_job slot; f_sock := f_sock slot; f_started := f_started slot;
       f_deadline := f_deadline slot; f_settled := settled |}) (f_slots self) flags) self.

Definition msUntil (now deadline : Z) : Z :=
  if deadline <=? now then 0
  else Z.min ((deadline - now + ns_per_ms - 1) / ns_per_ms) 2147483647.

Definition elapsedUs (started finished : Z) : Z := Z.max 0 (Z.quot (finished - started) 1000).

(** ** What [Held] keeps *)

(** Fit to take one more connect: the assertion of [hold], what a suspect
    is, and when the next try is at the latest. *)
Record held_ready (h : Held) : Prop := {
  ready_room : (held_len h < 2)%nat;
  ready_suspect : h_suspect h = true → held_len h = 1%nat ∧ h_short h = false;
  ready_pause : 0 < h_pause h <= MAX_PAUSE_NS;
  ready_retry : h_short h = true → h_retry_at h < h_since h + STALL_LIMIT_NS + MAX_PAUSE_NS
}.

(** Between two tries. *)
Record held_ok (h : Held) : Prop := {
  ok_room : (held_len h <= 2)%nat;
  ok_suspect : h_suspect h = true → held_len h = 1%nat ∧ h_short h = false;
  ok_pause : 0 < h_pause h <= MAX_PAUSE_NS;
  ok_retry : h_short h = true → h_retry_at h < h_since h + STALL_LIMIT_NS + MAX_PAUSE_NS;
  ok_short : h_short h = true → (0 < held_len h)%nat
}.

Lemma no_held_ok : held_ok no_held.
Proof. split; try done; unfold held_len, MAX_PAUSE_NS; simpl; unfold FIRST_PAUSE_NS, ns_per_ms; lia. Qed.

(** How far a shortage has got: the order in which tries change it. *)
Definition phase (h : Held) : nat :=
  if h_short h then 0%nat else if h_suspect h then 1%nat else 2%nat.

Lemma due_pop now h :
  held_ok h → due now h = true →
  ∃ job h', held_pop h = Some (job, h') ∧ h_jobs h = job :: h_jobs h' ∧ held_ready h' ∧
    phase h' = phase h ∧ h_short h' = h_short h ∧ h_since h' = h_since h.
Proof.
  intros [] Hd. unfold due in Hd. to_prop. unfold held_pop, held_len in *.
  destruct (h_jobs h) as [|job jobs] eqn:Hj; [simpl in *; lia|].
  exists job, (with_jobs jobs h). split; [done|]. split; [done|]. split; [|done].
  split; unfold held_len; simpl in *; try done; lia || congruence.
Qed.

Lemma open_ready h : held_ok h → held_open h = true → held_ready h.
Proof.
  intros [] Ho. split; try done. unfold held_open in Ho. apply orb_true_iff in Ho as [Ho|Ho].
  - to_prop. lia.
  - destruct (ok_suspect0 Ho). lia.
Qed.

(** Neither due nor open: short, and the pause is not over. *)
Lemma closed_short now h :
  held_ok h → due now h = false → held_open h = false → h_short h = true ∧ now < h_retry_at h.
Proof.
  intros [] Hd Ho. unfold held_open in Ho. to_prop. unfold due in Hd.
  assert ((0 <? held_len h)%nat = true) as Hlen by (apply Nat.ltb_lt; lia).
  rewrite Hlen in Hd. match goal with Hs : h_suspect h = false |- _ => rewrite Hs in Hd end. simpl in Hd.
  destruct (h_short h); [|done]. simpl in Hd. split; [done|]. rewrite Z.geb_leb in Hd. to_prop. lia.
Qed.

Lemma hold_patient job shortage now h h' :
  held_ready h → hold job shortage now h = (h', true) →
  held_ok h' ∧ h_jobs h' = h_jobs h ++ [job] ∧
  ((phase h' < phase h)%nat ∨ h_short h = true ∧ h_short h' = true ∧ h_since h' = h_since h ∧
    now < h_since h' + STALL_LIMIT_NS).
Proof.
  intros [] Hh. unfold hold in Hh. unfold held_len in Hh. simpl in Hh.
  assert (length (h_jobs h ++ [job]) = S (held_len h)) as Hlen by (rewrite length_app; simpl; unfold held_len; lia).
  rewrite Hlen in Hh. destruct (_ && _) eqn:Hs in Hh.
  - injection Hh as <-. to_prop. split; [|split; [done|]].
    + split; unfold held_len; simpl; rewrite ?Hlen; try done; lia || (intros; lia) || congruence.
    + left. unfold phase. simpl. match goal with Hx : h_short h = false |- _ => rewrite Hx end.
      destruct (h_suspect h) eqn:Hsus; [|lia]. destruct (ready_suspect0 eq_refl). lia.
  - destruct (h_short h) eqn:Hsh; simpl in Hh; injection Hh as <- Hpat; to_prop.
    + split; [|split; [done|]].
      * split; unfold held_len; simpl; rewrite ?Hlen; try done; unfold MAX_PAUSE_NS in *; lia.
      * right. repeat (split; [done|]). simpl. lia.
    + split; [|split; [done|]].
      * split; unfold held_len; simpl; rewrite ?Hlen; try done;
          unfold FIRST_PAUSE_NS, MAX_PAUSE_NS, ns_per_ms, STALL_LIMIT_NS; lia.
      * left. unfold phase. rewrite Hsh. simpl. destruct (h_suspect h); lia.
Qed.

(** Giving up: the shortage has lasted. *)
Lemma hold_gives_up job shortage now h h' :
  held_ready h → hold job shortage now h = (h', false) →
  h_short h = true ∧ STALL_LIMIT_NS <= now - h_since h.
Proof.
  intros [] Hh. unfold hold in Hh. simpl in Hh. destruct (_ && _) in Hh; [done|].
  destruct (h_short h) eqn:Hsh; simpl in Hh; injection Hh as <- Hpat; to_prop; [done|].
  rewrite Z.sub_diag in Hpat. unfold STALL_LIMIT_NS in Hpat. lia.
Qed.

Lemma dropSuspect_ok h suspect h' :
  held_ok h → dropSuspect h = (suspect, h') →
  held_ok h' ∧ h_jobs h = option_list suspect ++ h_jobs h' ∧ h_suspect h' = false ∧
  h_short h' = h_short h ∧ h_since h' = h_since h ∧ (suspect = None → h' = h).
Proof.
  intros Hok Hd. pose proof Hok as []. unfold dropSuspect in Hd. destruct (h_suspect h) eqn:Hs; simpl in Hd.
  - destruct (ok_suspect0 eq_refl) as [Hlen Hsh]. unfold held_pop, held_len in *. simpl in Hd.
    destruct (h_jobs h) as [|job [|]] eqn:Hj; try done. injection Hd as <- <-.
    split; [|done]. split; unfold held_len; simpl; try done; lia || congruence.
  - injection Hd as <- <-. done.
Qed.

Lemma started_ok h suspect h' :
  held_ready h → held_started h = (suspect, h') →
  held_ok h' ∧ h_jobs h = option_list suspect ++ h_jobs h' ∧ phase h' = 2%nat.
Proof.
  intros [] Hd. unfold held_started in Hd. apply dropSuspect_ok in Hd as (Hok & Hj & Hs & Hsh & _).
  - split; [done|]. split; [done|]. unfold phase. by rewrite Hsh, Hs.
  - unfold held_len in *. split; unfold held_len; simpl; try done; [lia|].
    intros Hx. split; [by apply ready_suspect0|done].
Qed.
