(* ===== verification/Probe.v ===== *)
(** * connects.zig: one connect

    Beginning a non-blocking connect, waiting for some to settle, and the
    verdict on each: directly on the system's sockets on Linux and macOS,
    through tcp_probe.c (TcpProbe.v) on Windows. *)
From S2P Require Import Prelude Words Targets Sys Script NsSocket TcpProbe Held.
Open Scope Z_scope.

Inductive Started :=
| s_done (verdict : Verdict)
| s_pending (sock : Z)
| s_unprobed (shortage : Shortage).

Section Probe.
Context {E : Type} `{Env E}.
Variable os : platform.

Definition nowNs : M E Z := now ← ask ClockMonotonic; mret (ts_ns now).

(** The verdict on a connect that succeeded. *)
Definition probe_connected (fd : Z) : M E Verdict :=
  local ← ask (GetSockName fd);
  match local with
  | Err _ => mret v_open
  | Ok local =>
    peer ← ask (GetPeerName fd);
    match peer with
    | Err _ => mret v_open
    | Ok peer =>
      if negb (bool_decide (sa_ip local = sa_ip peer)) then mret v_open
      else mret (if sa_port local =? sa_port peer then v_refused else v_unconfirmed)
    end
  end.

Definition probe_classify (so_error : Z) : Verdict :=
  if so_error =? 0 then v_open
  else if (so_error =? ECONNREFUSED os) || (so_error =? ECONNRESET os) then v_refused
  else v_filtered.

(** What tcp_probe_start answered (toTcpProbe keeps every value it has). *)
Definition started_of (r : tcp_probe_result * option Z) : Started :=
  match r with
  | (TCP_PROBE_OPEN, _) => s_done v_open
  | (TCP_PROBE_REFUSED, _) => s_done v_refused
  | (TCP_PROBE_FILTERED, _) => s_done v_filtered
  | (TCP_PROBE_UNCONFIRMED, _) => s_done v_unconfirmed
  | (TCP_PROBE_PENDING, sock) => s_pending (default 0 sock)
  | (TCP_PROBE_NO_SOCKET, _) => s_unprobed short_socket
  | (TCP_PROBE_NO_ADDRESS, _) => s_unprobed short_address
  end.

(** The answer to connect() on Linux and macOS. *)
Definition connect_answer (fd : Z) (r : sys unit) : M E Started :=
  match r with
  | Ok _ => verdict ← probe_connected fd; mret (s_done verdict)
  | Err err =>
    if (err =? EINPROGRESS os) || (err =? EINTR) then mret (s_pending fd)
    else if (err =? ENOBUFS os) || (err =? ENOMEM) || (err =? EAGAIN os) then mret (s_unprobed short_socket)
    else if err =? EADDRNOTAVAIL os then mret (s_unprobed short_address)
    else mret (s_done (probe_classify err))
  end.

(** Begin a non-blocking connect: on Linux and macOS. *)
Definition posix_start (target : Target) : M E Started :=
  fd ← ask (Socket TcpSock);
  match fd with
  | Err _ => mret (s_unprobed short_socket)
  | Ok fd =>
    raw_flags ← ask (FcntlGetFl fd);
    nonblocking ←
      match raw_flags with
      | Err _ => mret false
      | Ok flags => r ← ask (FcntlSetFl fd (Z.lor flags (O_NONBLOCK os))); mret (sys_ok r)
      end;
    if negb (nonblocking : bool) then
      ask (CloseSock fd);; mret (s_unprobed short_socket)
    else
      rc ← ask (Connect fd (SA AF_INET (t_ip target) (t_port target)));
      started ← connect_answer fd rc;
      match started with
      | s_pending _ => mret started
      | _ => ask (CloseSock fd);; mret started
      end
  end.

Definition start (target : Target) : M E Started :=
  match os with
  | Windows =>
    r ← tcp_probe_start (t_ip target) (t_port target) (t_timeout_ms target);
    mret (started_of r)
  | _ => posix_start target
  end.

(** settled[i] of each socket: on Linux and macOS. *)
Definition posix_wait (socks : list Z) (wait_ms : Z) : M E (list bool) :=
  r ← ask (PollOut socks wait_ms);
  mret match r with
       | Ok revents => poll_ready (length socks) revents
       | Err _ => none_ready socks
       end.

(** On Windows, [none_ready] being the memset after a failure. *)
Definition windows_wait (socks : list Z) (wait_ms : Z) : M E (list bool) :=
  '(n, settled) ← tcp_probe_wait socks wait_ms;
  mret (if n >=? 0 then settled else none_ready socks).

Definition waitSettled (socks : list Z) (wait_ms : Z) : M E (list bool) :=
  match os with Windows => windows_wait socks wait_ms | _ => posix_wait socks wait_ms end.

(** A pending connect's verdict, closing its socket: on Linux and macOS. *)
Definition posix_finish (sock : Z) (settled : bool) : M E Verdict :=
  r ← ask (GetSoError sock);
  verdict ←
    match r with
    | Err _ => mret v_filtered
    | Ok so_error =>
      if negb settled && (so_error =? 0) then mret v_filtered
      else if so_error =? 0 then probe_connected sock
      else mret (probe_classify so_error)
    end;
  ask (CloseSock sock);;
  mret verdict.

(** What tcp_probe_finish answered. *)
Definition verdict_of (r : tcp_probe_result) : Verdict :=
  match r with
  | TCP_PROBE_OPEN => v_open
  | TCP_PROBE_REFUSED => v_refused
  | TCP_PROBE_UNCONFIRMED => v_unconfirmed
  | _ => v_filtered
  end.

Definition finish (sock : Z) (settled : bool) : M E Verdict :=
  match os with
  | Windows => r ← tcp_probe_finish sock settled; mret (verdict_of r)
  | _ => posix_finish sock settled
  end.

(** connectOnce: the loop that starts the connect.  What goes on is when
    this try began and the pause before the next; what ends it is an
    outcome, or the socket and when its connect began. *)
Definition start_once (target : Target) (first : Z) (st : Z * Z) : M E (Z * Z + (Outcome + Z * Z)) :=
  let '(started, pause) := st in
  attempt ← start target;
  let again :=
    ask (Sleep pause);;
    now ← nowNs;
    mret (inl (now, Z.min (2 * pause) MAX_PAUSE_NS)) in
  match attempt with
  | s_done verdict => mret (inr (inl (alone verdict)))
  | s_pending sock => mret (inr (inr (sock, started)))
  | s_unprobed shortage =>
    if bool_decide (shortage = short_address) || (started - first >=? STALL_LIMIT_NS)
    then mret (inr (inl filtered)) else again
  end.

(** And the loop that waits for it: whether it settled. *)
Definition wait_once (sock deadline : Z) (_ : unit) : M E (unit + bool) :=
  now ← nowNs;
  if now >=? deadline then mret (inr false)
  else
    settled ← waitSettled [sock] (msUntil now deadline);
    mret (if default false (settled !! 0%nat) then inr true else inl ()).

Definition connectOnce (fuel : nat) (target : Target) : M E Outcome :=
  first ← nowNs;
  r ← loop fuel (start_once target first) (first, FIRST_PAUSE_NS);
  match r with
  | inl outcome => mret outcome
  | inr (sock, started) =>
    let deadline := started + t_timeout_ms target * ns_per_ms in
    settled ← loop fuel (wait_once sock deadline) ();
    verdict ← finish sock settled;
    mret (alone verdict)
  end.

(** The same for a connect that has settled on [sock], made elsewhere. *)
Definition settledVerdict (fuel : nat) (sock : Z) (target : Target) : M E Outcome :=
  verdict ← finish sock true;
  match verdict with
  | v_unconfirmed => connectOnce fuel target
  | _ => mret (alone verdict)
  end.
End Probe.

(** ** What one connect does *)

Section Reasons.
Variable os : platform.

(** Errors of a connect that goes on in the background, and refusals. *)
Definition in_progress (err : Z) : bool :=
  match os with
  | Windows => err =? WSAEWOULDBLOCK
  | _ => (err =? EINPROGRESS os) || (err =? EINTR)
  end.

Definition refusal (err : Z) : Prop := err = ECONNREFUSED os ∨ err = ECONNRESET os.

(** Errors of a connect that sent nothing, and what it was short of. *)
Definition shortage_of (err : Z) : option Shortage :=
  match os with
  | Windows =>
    if err =? WSAENOBUFS then Some short_socket
    else if (err =? WSAEADDRNOTAVAIL) || (err =? WSAEADDRINUSE) then Some short_address else None
  | _ =>
    if (err =? ENOBUFS os) || (err =? ENOMEM) || (err =? EAGAIN os) then Some short_socket
    else if err =? EADDRNOTAVAIL os then Some short_address else None
  end.

(** [connected t target sock r]: a connect of [sock] to [target] answered [r]. *)
Definition tried (t : list event) (target : Target) (sock : Z) (r : sys unit) : Prop :=
  Ev (Connect sock (SA AF_INET (t_ip target) (t_port target))) r ∈ t.

(** What the log of a start says for each of its results. *)
Definition start_reason (target : Target) (t : list event) (r : Started) : Prop :=
  match r with
  | s_done v_open => ∃ sock, tried t target sock (Ok ()) ∨ tried t target sock (Err 0)
  | s_done v_unconfirmed => ∃ sock, tried t target sock (Ok ()) ∧ own_address t sock false
  | s_done v_refused => ∃ sock, (tried t target sock (Ok ()) ∧ own_address t sock true) ∨
      ∃ err, tried t target sock (Err err) ∧ refusal err
  | s_done v_filtered => ∃ sock err, tried t target sock (Err err) ∧
      err ≠ 0 ∧ ¬ refusal err ∧ in_progress err = false ∧ shortage_of err = None
  | s_pending sock => ∃ err, tried t target sock (Err err) ∧ in_progress err = true
  | s_unprobed short =>
      (short = short_socket ∧ Forall not_connect t) ∨
      ∃ sock err, tried t target sock (Err err) ∧ in_progress err = false ∧ shortage_of err = Some short
  end.

(** What SO_ERROR, read at the end, says for each verdict. *)
Definition finish_says (sock : Z) (settled : bool) (t : list event) (v : Verdict) : Prop :=
  match v with
  | v_open => settled = true ∧ Ev (GetSoError sock) (Ok 0) ∈ t
  | v_unconfirmed => settled = true ∧ Ev (GetSoError sock) (Ok 0) ∈ t ∧ own_address t sock false
  | v_refused =>
      (∃ err, Ev (GetSoError sock) (Ok err) ∈ t ∧ refusal err) ∨
      settled = true ∧ Ev (GetSoError sock) (Ok 0) ∈ t ∧ own_address t sock true
  | v_filtered =>
      ∃ r, Ev (GetSoError sock) r ∈ t ∧
        match r with
        | Err _ => True
        | Ok err => (settled = false ∧ err = 0) ∨ (err ≠ 0 ∧ ¬ refusal err)
        end
  end.

End Reasons.

(** The sockets a start hands out. *)
Definition held_started_sock (r : Started) : list res :=
  match r with s_pending sock => [RSock sock] | _ => [] end.

Section Steps.
Context {E : Type} `{Env E}.
Variable os : platform.

Lemma probe_connected_sound sock (e : E) v e' t :
  probe_connected sock e = Some (v, e', t) →
  Forall neutral t ∧ Forall not_connect t ∧
  (v = v_open ∨ (v = v_refused ∧ own_address t sock true) ∨ (v = v_unconfirmed ∧ own_address t sock false)).
Proof.
  intros Hr. split; [|split].
  { assert (logs neutral (probe_connected (E := E) sock)) as Hl by (unfold probe_connected; solve_logs).
    by eapply Hl. }
  { assert (logs not_connect (probe_connected (E := E) sock)) as Hl by (unfold probe_connected; solve_logs).
    by eapply Hl. }
  unfold probe_connected in Hr. run_inv; to_prop; try by left.
  right. case_test; [left|right]; (split; [done|]); eexists _, _;
    (splits; [in_list|in_list|done|naive_solver]).
Qed.

Lemma classify_reason err :
  err ≠ 0 →
  (probe_classify os err = v_refused ∧ refusal os err) ∨ (probe_classify os err = v_filtered ∧ ¬ refusal os err).
Proof.
  intros Hn. unfold probe_classify, refusal. rewrite (proj2 (Z.eqb_neq err 0)) by done.
  destruct (_ || _) eqn:Hr; [left|right]; (split; [done|]).
  - by rewrite orb_true_iff, !Z.eqb_eq in Hr.
  - rewrite orb_false_iff, !Z.eqb_neq in Hr. tauto.
Qed.

Lemma start_reason_windows target (e : E) r e' t :
  os = Windows → start os target e = Some (r, e', t) →
  start_reason os target t r ∧ keeps t (held_started_sock r).
Proof.
  intros -> Hr. unfold start in Hr. apply bind_inv in Hr as (x & e1 & t1 & t2 & Hs & Hr & ->).
  apply ret_inv in Hr as (-> & -> & ->). rewrite app_nil_r.
  apply start_outcome_of_run in Hs as [Ho Hk]. destruct Ho as [Hq|sock v Hc Hv|sock err Hc Hne|sock Hi Hc]; simpl in *.
  - split; [by left|done].
  - destruct Hv as [->|[[-> Ho]|[-> Ho]]]; (split; [|done]); simpl; exists sock; [by left|by left|done].
  - unfold start_error in *. destruct (err =? WSAENOBUFS) eqn:H1; to_prop.
    { subst. split; [|done]. right. by exists sock, WSAENOBUFS. }
    destruct ((err =? WSAEADDRNOTAVAIL) || _) eqn:H2.
    { split; [|done]. right. exists sock, err. split; [done|]. unfold in_progress, shortage_of.
      rewrite H2. do 2 rewrite (proj2 (Z.eqb_neq _ _)) by done. done. }
    assert (in_progress Windows err = false ∧ shortage_of Windows err = None) as [Hp Hsh].
    { unfold in_progress, shortage_of. rewrite H2. by do 2 rewrite (proj2 (Z.eqb_neq _ _)) by done. }
    destruct (decide (err = 0)) as [->|Hz]; [split; [exists sock; by right|done]|].
    destruct (classify_error err Hz) as [[-> Hrf]|[-> Hrf]]; (split; [|done]); simpl; exists sock.
    + right. by exists err.
    + exists err. repeat (split; [done|]). split; [|done]. unfold refusal. tauto.
  - split; [|done]. by exists WSAEWOULDBLOCK.
Qed.

(** connect()'s answer, read on Linux and macOS. *)
Lemma connect_answer_reason target fd rc (e : E) r e' t :
  os ≠ Windows → connect_answer os fd rc e = Some (r, e', t) →
  Forall neutral t ∧
  ∀ u, tried u target fd rc → (∀ ev, ev ∈ t → ev ∈ u) → start_reason os target u r.
Proof.
  intros Hos Hr. unfold connect_answer in Hr. destruct rc as [[]|err].
  - apply bind_inv in Hr as (v & e1 & t1 & t2 & Hc & Hr & ->). apply ret_inv in Hr as (-> & -> & ->).
    rewrite app_nil_r. apply probe_connected_sound in Hc as (Hn & _ & Hv). split; [done|]. intros u Ht Hu.
    destruct Hv as [->|[[-> Ho]|[-> Ho]]]; simpl; exists fd; [by left|left|];
      (split; [done|]); by eapply own_address_mono.
  - assert (in_progress os err = (err =? EINPROGRESS os) || (err =? EINTR) ∧
      shortage_of os err = if (err =? ENOBUFS os) || (err =? ENOMEM) || (err =? EAGAIN os) then Some short_socket
        else if err =? EADDRNOTAVAIL os then Some short_address else None) as [Hp Hsh].
    { by unfold in_progress, shortage_of; destruct os. }
    destruct (_ || (err =? EINTR)) eqn:H1.
    { run_inv. split; [done|]. intros u Ht _. by exists err. }
    destruct ((err =? ENOBUFS os) || _ || _) eqn:H2.
    { run_inv. split; [done|]. intros u Ht _. right. by exists fd, err. }
    destruct (err =? EADDRNOTAVAIL os) eqn:H3.
    { run_inv. split; [done|]. intros u Ht _. right. by exists fd, err. }
    run_inv. split; [done|]. intros u Ht _.
    destruct (decide (err = 0)) as [->|Hz]; [exists fd; by right|].
    destruct (classify_reason err Hz) as [[-> Hrf]|[-> Hrf]]; simpl; exists fd.
    + right. by exists err.
    + by exists err.
Qed.

Lemma connect_answer_pending fd rc (e : E) r e' t sock :
  connect_answer os fd rc e = Some (r, e', t) → r = s_pending sock → sock = fd.
Proof. intros Hr ->. unfold connect_answer in Hr. run_inv; done. Qed.

Lemma start_reason_posix target (e : E) r e' t :
  os ≠ Windows → posix_start os target e = Some (r, e', t) →
  start_reason os target t r ∧ keeps t (held_started_sock r).
Proof.
  intros Hos Hr. unfold posix_start in Hr.
  apply bind_inv in Hr as (fd & e1 & t1 & t2 & [_ ->]%ask_inv & Hr & ->). destruct fd as [fd|err].
  2:{ run_inv. split; [left; split; [done|]; apply Forall_singleton; done|solve_keeps]. }
  apply bind_inv in Hr as (fl & e2 & t3 & t4 & [_ ->]%ask_inv & Hr & ->).
  apply bind_inv in Hr as (nb & e3 & t5 & t6 & Hnb & Hr & ->).
  assert (Forall neutral t5 ∧ Forall not_connect t5) as [Hn5 Hq5].
  { destruct fl; run_inv; (split; repeat (apply Forall_cons; split; [done|]); constructor). }
  destruct nb; simpl in Hr.
  2:{ clear Hnb. run_inv. split; [left; split; [done|]|solve_keeps].
      do 2 (apply Forall_cons; split; [done|]). apply Forall_app. split; [done|by apply Forall_singleton]. }
  apply bind_inv in Hr as (rc & e4 & t7 & t8 & [_ ->]%ask_inv & Hr & ->).
  apply bind_inv in Hr as (x & e5 & t9 & t10 & Hc & Hr & ->).
  pose proof (λ sock, connect_answer_pending fd rc e4 x e5 t9 sock Hc) as Hpend.
  apply (connect_answer_reason target) in Hc as Hx; [|done]. destruct Hx as [Hn Hreason].
  assert (r = x ∧ t10 = match x with s_pending _ => [] | _ => [Ev (CloseSock fd) ()] end) as [-> ->]
    by (clear Hnb; destruct x; run_inv; done).
  clear Hnb. split.
  - apply Hreason; [unfold tried; in_list|intros; in_list].
  - destruct x as [v|sock|sh]; simpl; [solve_keeps| |solve_keeps].
    rewrite (Hpend sock eq_refl). solve_keeps.
Qed.

Lemma start_run target (e : E) r e' t :
  start os target e = Some (r, e', t) → start_reason os target t r ∧ keeps t (held_started_sock r).
Proof.
  intros Hr. destruct (decide (os = Windows)) as [Hos|Hos]; [by apply start_reason_windows in Hr|].
  apply (start_reason_posix target e r e'); [done|]. by destruct os.
Qed.

Lemma probe_finish_run sock settled (e : E) v e' t :
  finish os sock settled e = Some (v, e', t) → finish_says os sock settled t v ∧ keeps_from [RSock sock] t [].
Proof.
  intros Hr. unfold finish in Hr.
  assert (posix_finish os sock settled e = Some (v, e', t) ∨
    os = Windows ∧ (r ← tcp_probe_finish sock settled; mret (verdict_of r)) e = Some (v, e', t)) as [Hp|[Hos Hw]]
    by (destruct os; auto); clear Hr.
  - unfold posix_finish in Hp. apply bind_inv in Hp as (r & e1 & t1 & t2 & [_ ->]%ask_inv & Hp & ->).
    apply bind_inv in Hp as (x & e2 & t3 & t4 & Hx & Hp & ->).
    assert (x = v ∧ t4 = [Ev (CloseSock sock) ()]) as [-> ->] by (run_inv; done). clear Hp.
    destruct r as [err|err]; [|run_inv; split; [exists (Err err); split; [in_list|done]|solve_keeps]].
    destruct (negb settled && (err =? 0)) eqn:H1.
    { run_inv. to_prop. split; [|solve_keeps]. exists (Ok err). split; [in_list|]. left. by destruct settled. }
    destruct (err =? 0) eqn:H2; to_prop.
    + subst. destruct settled; [|by destruct H1]. apply probe_connected_sound in Hx as (Hn & _ & Hv).
      split; [|solve_keeps].
      destruct Hv as [->|[[-> Ho]|[-> Ho]]]; simpl; [|right|]; splits; try done; try in_list;
        (eapply own_address_mono; [|exact Ho]); intros ev Hev; in_list.
    + run_inv. split; [|solve_keeps].
      destruct (classify_reason err H2) as [[-> ?]|[-> ?]]; simpl; [left|]; eexists;
        (split; [in_list|simpl; tauto]).
  - subst. apply bind_inv in Hw as (x & e1 & t1 & t2 & Hx & Hw & ->). apply ret_inv in Hw as (-> & -> & ->).
    rewrite app_nil_r. apply finish_of_run in Hx as [Hx Hk]. split; [|done].
    destruct x; simpl in *; try done.
    destruct Hx as (r & Hin & Hr). exists r. split; [done|]. destruct r; [|done].
    unfold refusal. simpl. destruct Hr as [?|(? & ? & ?)]; [by left|right]. split; [done|].
    intros [?|?]; done.
Qed.

Lemma watched_all socks : Z.of_nat (length socks) <= TCP_PROBE_MAX_SOCKETS → watched socks = socks.
Proof.
  intros Hlen. apply take_ge, Nat2Z.inj_le. rewrite Z2Nat.id; [exact Hlen|].
  unfold TCP_PROBE_MAX_SOCKETS. lia.
Qed.

(* Unfold the 4096 only where asked to. *)
#[global] Opaque watched.

Lemma waitSettled_run socks ms (e : E) flags e' t :
  waitSettled os socks ms e = Some (flags, e', t) → Z.of_nat (length socks) <= TCP_PROBE_MAX_SOCKETS → socks ≠ [] →
  keeps t [] ∧ length flags = length socks.
Proof.
  intros Hr Hlen Hne.
  assert (posix_wait socks ms e = Some (flags, e', t) ∨ windows_wait socks ms e = Some (flags, e', t)) as [Hp|Hw]
    by (unfold waitSettled in Hr; destruct os; auto); clear Hr.
  - unfold posix_wait in Hp. apply bind_inv in Hp as (r & e1 & t1 & t2 & [_ ->]%ask_inv & Hp & ->).
    run_inv. split; [solve_keeps|]. destruct r; [|apply length_map].
    unfold poll_ready. by rewrite length_map, length_resize.
  - unfold windows_wait in Hw. apply bind_inv in Hw as ([n fl] & e1 & t1 & t2 & Hx & Hw & ->).
    apply ret_inv in Hw as (-> & -> & ->). rewrite app_nil_r.
    unfold tcp_probe_wait in Hx. rewrite watched_all in Hx by exact Hlen.
    apply wait_of_run in Hx as [Hk Hx]. split; [exact Hk|].
    destruct Hx as [(-> & _)|[(-> & ->)|(ready & _ & -> & ->)]]; [done| |].
    + apply length_map.
    + rewrite Z.geb_leb, (proj2 (Z.leb_le _ _)) by lia. apply length_map.
Qed.
End Steps.

(** ** What one connect says *)

Section Verdicts.
Context {E : Type} `{Env E}.
Variable os : platform.

(** beginning a connect.  Each result has its reason in what the system
    answered: open and unconfirmed only for a connect that succeeded,
    refused only for a refusal or a connect that met itself, filtered only
    for an error that is neither, and a connect that sent nothing, for want
    of a socket or a port, is never reported as a verdict; and the socket
    stays open exactly when the connect is in progress. *)
Theorem probe_start_sound target (e : E) r e' t :
  start os target e = Some (r, e', t) → start_reason os target t r ∧ keeps t (held_started_sock r).
Proof. apply start_run. Qed.

(** the end of a connect.  Still in progress at its deadline it is never
    open; a refusal counts even then; open, unconfirmed and "met itself"
    only when the wait said that it had settled and no error is pending;
    and the socket is closed on every path. *)
Theorem probe_finish_sound sock settled (e : E) v e' t :
  finish os sock settled e = Some (v, e', t) → finish_says os sock settled t v ∧ keeps_from [RSock sock] t [].
Proof. apply probe_finish_run. Qed.

Lemma settledVerdict_of_finish fuel sock target (e : E) o e' t :
  settledVerdict os fuel sock target e = Some (o, e', t) →
  ∃ v e1 t1 t2, finish os sock true e = Some (v, e1, t1) ∧ t = t1 ++ t2 ∧
    (v ≠ v_unconfirmed → o = alone v ∧ t2 = []) ∧
    (v = v_unconfirmed → connectOnce os fuel target e1 = Some (o, e', t2)).
Proof.
  intros Hr. unfold settledVerdict in Hr. apply bind_inv in Hr as (v & e1 & t1 & t2 & Hf & Hr & ->).
  exists v, e1, t1, t2. split; [done|]. split; [done|].
  destruct v; split; try done; by apply ret_inv in Hr as (-> & _ & ->).
Qed.
End Verdicts.

Definition some_target : Target :=
  {| t_ip := IP 192 168 1 7; t_port := 22; t_timeout_ms := 500; t_cut_floor_ms := None |}.

Definition busy_machine : script := set_queues [] [] [] [] [Err 99] [] [] (idle 0).

Lemma probe_start_sound_witness :
  ∃ e' t, start Linux some_target busy_machine = Some (s_unprobed short_address, e', t) ∧
    start_reason Linux some_target t (s_unprobed short_address) ∧ keeps t [].
Proof.
  eexists _, _. split; [vm_compute; reflexivity|].
  refine (probe_start_sound Linux some_target busy_machine (s_unprobed short_address) _ _ _). reflexivity.
Defined.

Lemma probe_finish_sound_witness :
  ∃ e' t, finish Linux 3 false (idle 0) = Some (v_filtered, e', t) ∧
    finish_says Linux 3 false t v_filtered ∧ keeps_from [RSock 3] t [].
Proof.
  eexists _, _. split; [vm_compute; reflexivity|].
  refine (probe_finish_sound Linux 3 false (idle 0) v_filtered _ _ _). reflexivity.
Defined.
