(* ===== verification/Connects.v ===== *)
(** * connects.zig: one loop of a run

    A thread's share of a run: connects are taken from the source, started
    in batches, waited for together and reported in batches, until the
    source runs dry and everything has settled.  What the loops share is
    behind the calls [TakeNext], [ReportDone], [LoadCap] and so on, which
    other loops may come between (Shared.v). *)
From S2P Require Import Prelude Words Targets Sys Script NsSocket TcpProbe Held Probe.
Open Scope Z_scope.

Definition START_BATCH : nat := 16.
Definition NO_CAP : Z := 0.

(** The variables of a loop's thread; [l_batch] is settled[0..count], the
    verdicts waiting to be reported together. *)
Record Loop := {
  l_flight : Flight;
  l_held : Held;
  l_dry : bool;
  l_batch : list Settled
}.

Definition set_flight (flight : Flight) (l : Loop) : Loop :=
  {| l_flight := flight; l_held := l_held l; l_dry := l_dry l; l_batch := l_batch l |}.
Definition set_held (held : Held) (l : Loop) : Loop :=
  {| l_flight := l_flight l; l_held := held; l_dry := l_dry l; l_batch := l_batch l |}.
Definition set_dry (l : Loop) : Loop :=
  {| l_flight := l_flight l; l_held := l_held l; l_dry := true; l_batch := l_batch l |}.
Definition set_batch (batch : list Settled) (l : Loop) : Loop :=
  {| l_flight := l_flight l; l_held := l_held l; l_dry := l_dry l; l_batch := batch |}.

(** held = .{}; dry = true; *)
Definition abandon (l : Loop) : Loop := set_held no_held (set_dry l).

Definition settled_now (job : Job) (verdict : Verdict) (elapsed_us : Z) (l : Loop) : Loop :=
  set_batch (l_batch l ++ [{| s_job := job; s_verdict := verdict; s_elapsed_us := elapsed_us |}]) l.

Section Loop.
Context {E : Type} `{Env E}.
Variable os : platform.

(** Shared.done, which returns at once for an empty batch. *)
Definition report_batch (batch : list Settled) (now : Z) : M E unit :=
  match batch with
  | [] => mret ()
  | _ => ask (ReportDone batch now)
  end.

(** Shared.unanswered *)
Definition unanswered (job : Job) (now : Z) : M E unit :=
  report_batch [{| s_job := job; s_verdict := v_filtered; s_elapsed_us := 0 |}] now.

Definition report_suspect (suspect : option Job) (now : Z) : M E unit :=
  match suspect with Some job => unanswered job now | None => mret () end.

(** Shared.cut *)
Definition shared_cut : M E Cut :=
  cap ← ask LoadCap;
  last ← ask LoadLastAnswer;
  mret {| c_wait_ms := if cap =? NO_CAP then None else Some cap; c_last_answer_ns := last |}.

(** The connect that is started next: one held, or a new one; [None] ends
    the batch. *)
Definition next_job (started : Z) (l : Loop) : M E (option Job * Loop) :=
  if due started (l_held l) then
    mret match held_pop (l_held l) with
         | Some (job, held) => (Some job, set_held held l)
         | None => (None, l)
         end
  else if negb (held_open (l_held l)) then mret (None, l)
  else
    taken ← (if l_dry l then mret TakeDry else ask (TakeNext (flight_len (l_flight l))));
    match taken with
    | TakeJob job => mret (Some job, l)
    | TakeFull => mret (None, l)
    | TakeDry =>
      let l := set_dry l in
      let '(suspect, held) := dropSuspect (l_held l) in
      report_suspect suspect started;;
      mret (None, set_held held l)
    end.

(** A connect that started: settled at once, or in flight. *)
Definition proceed (job : Job) (started : Z) (attempt : Verdict + Z) (l : Loop) : M E Loop :=
  let '(suspect, held) := held_started (l_held l) in
  report_suspect suspect started;;
  let l := set_held held l in
  match attempt with
  | inl verdict =>
    now ← nowNs;
    mret (settled_now job verdict (elapsedUs started now) l)
  | inr sock => mret (set_flight (flight_add job sock started (l_flight l)) l)
  end.

(** A connect that could not start: held, or the run is given up. *)
Definition put_aside (job : Job) (started : Z) (shortage : Shortage) (l : Loop) : M E Loop :=
  let '(held, patient) := hold job shortage started (l_held l) in
  if (patient : bool) then mret (set_held held l)
  else ask StoreStarved;; mret (abandon l).

Definition start_job (job : Job) (started : Z) (l : Loop) : M E Loop :=
  attempt ← start os (j_target job);
  match attempt with
  | s_done verdict => proceed job started (inl verdict) l
  | s_pending sock => proceed job started (inr sock) l
  | s_unprobed shortage => put_aside job started shortage l
  end.

(** The inner while: [n] of the batch are left; true is room_left. *)
Fixpoint top_up (n : nat) (l : Loop) : M E (bool * Loop) :=
  if (flight_len (l_flight l) <? f_capacity (l_flight l))%nat then
    match n with
    | O => mret (true, l)
    | S n =>
      started ← nowNs;
      '(job, l) ← next_job started l;
      match job with
      | None => mret (false, l)
      | Some job => l ← start_job job started l; top_up n l
      end
    end
  else mret (false, l).

(** The last while of a round, from slot [i - 1] down. *)
Fixpoint sweep_slots (i : nat) (after : Z) (cut : Cut) (l : Loop) : M E Loop :=
  match i with
  | O => mret l
  | S i =>
    match f_slots (l_flight l) !! i with
    | None => mret l
    | Some slot =>
      let answered := f_settled slot in
      if negb answered && (after <? deadline cut slot) then sweep_slots i after cut l
      else
        verdict ← finish os (f_sock slot) answered;
        sweep_slots i after cut
          (set_flight (flight_remove i (l_flight l))
             (settled_now (f_job slot) verdict (elapsedUs (f_started slot) after) l))
    end
  end.

(** Wait for something to settle, and report what did or ran out of time. *)
Definition wait_round (room_left : bool) (l : Loop) : M E Loop :=
  now ← nowNs;
  cut ← shared_cut;
  let wake := earliestWake cut now (l_flight l) in
  let until := if h_short (l_held l) then Z.min (h_retry_at (l_held l)) wake else wake in
  let wait_ms := if room_left then 0 else msUntil now until in
  flags ← waitSettled os (map f_sock (f_slots (l_flight l))) wait_ms;
  after ← nowNs;
  cut ← shared_cut;
  let l := set_flight (set_flags flags (l_flight l)) l in
  l ← sweep_slots (flight_len (l_flight l)) after cut (set_batch [] l);
  report_batch (l_batch l) after;;
  mret (set_batch [] l).

(** One round of while (true). *)
Definition round (l : Loop) : M E (Loop + unit) :=
  starved ← ask LoadStarved;
  let l := if (starved : bool) then abandon l else l in
  '(room_left, l) ← top_up START_BATCH (set_batch [] l);
  now ← nowNs;
  report_batch (l_batch l) now;;
  let l := set_batch [] l in
  if (flight_len (l_flight l) =? 0)%nat then
    if h_short (l_held l) then
      now ← nowNs;
      (if h_retry_at (l_held l) >? now then ask (Sleep (h_retry_at (l_held l) - now)) else mret ());;
      mret (inl l)
    else if l_dry l && (held_len (l_held l) =? 0)%nat then mret (inr ())
    else mret (inl l)
  else
    l ← wait_round room_left l;
    mret (inl l).

(** errdefer and defer: the blocks freed one by one. *)
Fixpoint free_all (ps : list Z) : M E unit :=
  match ps with
  | [] => mret ()
  | p :: ps => ask (Free p);; free_all ps
  end.

(** Allocations in order, those made freed again when one fails. *)
Fixpoint alloc_all (sizes have : list Z) : M E (option (list Z)) :=
  match sizes with
  | [] => mret (Some have)
  | size :: sizes =>
    p ← ask (Malloc size);
    match p with
    | Some p => alloc_all sizes (p :: have)
    | None => free_all have;; mret None
    end
  end.

(** The arrays of a Flight (an i96 takes 16 bytes, a SOCKET 8, a pollfd 8,
    the fds of Windows none) and of settled[]. *)
Definition flight_sizes (job_size : Z) (capacity : nat) : list Z :=
  let c := Z.of_nat capacity in
  [c * job_size; c * (match os with Windows => 8 | _ => 4 end); c * 16; c * 16; c]
    ++ match os with Windows => [] | _ => [c * 8] end.

Definition no_flight (capacity : nat) : Loop :=
  {| l_flight := {| f_capacity := capacity; f_slots := [] |}; l_held := no_held; l_dry := false;
     l_batch := [] |}.

(** A thread's share of a run; false is error.OutOfMemory.  [fuel] bounds
    the rounds. *)
Definition loop_thread (job_size settled_size : Z) (fuel capacity : nat) : M E bool :=
  flight ← alloc_all (flight_sizes job_size capacity) [];
  match flight with
  | None => mret false
  | Some blocks =>
    settled ← ask (Malloc (Z.of_nat (capacity `max` START_BATCH) * settled_size));
    match settled with
    | None => free_all (reverse blocks);; mret false
    | Some settled =>
      loop fuel round (no_flight capacity);;
      ask (Free settled);;
      free_all (reverse blocks);;
      mret true
    end
  end.
End Loop.

(** ** Where the jobs are *)

(** Jobs a loop takes from the source, and reports back to it. *)
Definition takes (ev : event) : list Job :=
  match ev with
  | Ev c r =>
    match c in call T return T → list Job with
    | TakeNext _ => λ r, match r with TakeJob job => [job] | _ => [] end
    | _ => λ _, []
    end r
  end.

Definition reports (ev : event) : list Job :=
  match ev with Ev (ReportDone batch _) _ => map s_job batch | _ => [] end.

(** Nothing of the source's. *)
Definition private (ev : event) : Prop := takes ev = [] ∧ reports ev = [].

(** The run was found to be given up, or is given up here. *)
Definition starved_in (t : list event) : Prop := Ev LoadStarved true ∈ t ∨ Ev StoreStarved () ∈ t.

(** The source had no more, or the run was given up. *)
Definition drained (t : list event) : Prop := (∃ n, Ev (TakeNext n) TakeDry ∈ t) ∨ starved_in t.

(** From [have] in hand to [held], dropping some only when the run is given
    up. *)
Definition carries (have : list Job) (t : list event) (held : list Job) : Prop :=
  ∃ dropped, balance takes reports have t (held ++ dropped) ∧ (dropped = [] ∨ starved_in t).

Lemma starved_in_app t u : starved_in t ∨ starved_in u → starved_in (t ++ u).
Proof. unfold starved_in. rewrite !elem_of_app. tauto. Qed.

Lemma drained_app t u : drained t ∨ drained u → drained (t ++ u).
Proof.
  unfold drained. intros [[[n Hn]|Hs]|[[n Hn]|Hs]];
    try (right; apply starved_in_app; auto; fail); left; exists n; apply elem_of_app; auto.
Qed.

Lemma carries_balance a t b : balance takes reports a t b → carries a t b.
Proof. intros Hb. exists []. rewrite app_nil_r. auto. Qed.

Lemma carries_app a t b u c : carries a t b → carries b u c → carries a (t ++ u) c.
Proof.
  intros (d1 & H1 & Hd1) (d2 & H2 & Hd2). exists (d2 ++ d1). split.
  - eapply balance_app; [exact H1|]. rewrite app_assoc, !(Permutation_app_comm _ d1).
    by apply balance_frame.
  - destruct Hd1 as [->|Hd1]; [|right; apply starved_in_app; auto].
    destruct Hd2 as [->|Hd2]; [by left|right; apply starved_in_app; auto].
Qed.

Lemma carries_quiet a t : Forall private t → carries a t a.
Proof. intros Ht. by apply carries_balance, balance_quiet. Qed.

Lemma carries_perm a a' t b b' : a ≡ₚ a' → b ≡ₚ b' → carries a' t b' → carries a t b.
Proof. intros Ha Hb (d & Hd & ?). exists d. split; [|done]. by rewrite Ha, Hb. Qed.

Lemma carries_same a t b : Forall private t → a ≡ₚ b → carries a t b.
Proof. intros Ht Hab. eapply carries_perm; [exact Hab|reflexivity|]. by apply carries_quiet. Qed.

Lemma carries_nil a : carries a [] a.
Proof. by apply carries_quiet. Qed.

#[export] Instance carries_proper : Proper ((≡ₚ) ==> (=) ==> (≡ₚ) ==> iff) carries.
Proof.
  intros a a' Ha t ? <- b b' Hb. unfold carries.
  split; intros (d & Hd & ?); exists d; (split; [|done]); [by rewrite <- Ha, <- Hb|by rewrite Ha, Hb].
Qed.

(** The jobs and the sockets a loop has in hand. *)
Definition hand (l : Loop) : list Job :=
  map f_job (f_slots (l_flight l)) ++ h_jobs (l_held l) ++ map s_job (l_batch l).

Definition socks (l : Loop) : list res := map (λ slot, RSock (f_sock slot)) (f_slots (l_flight l)).

(** Nothing of the source's, and no resources. *)
Definition idle_event (ev : event) : Prop := private ev ∧ neutral ev.

Section Accounts.
Context {E : Type} `{Env E}.
Variable os : platform.

Lemma logs_split (P Q : event → Prop) t : Forall (λ ev, P ev ∧ Q ev) t → Forall P t ∧ Forall Q t.
Proof. rewrite !Forall_forall. naive_solver. Qed.

Lemma nowNs_run (e : E) now e' t : nowNs e = Some (now, e', t) → Forall idle_event t.
Proof. intros Hr. unfold nowNs in Hr. run_inv. by repeat constructor. Qed.

Lemma shared_cut_run (e : E) cut e' t : shared_cut e = Some (cut, e', t) → Forall idle_event t.
Proof. intros Hr. unfold shared_cut in Hr. run_inv. by repeat constructor. Qed.

Lemma start_private target : logs private (start (E := E) os target).
Proof.
  unfold start, posix_start, connect_answer, probe_connected, tcp_probe_start, win_wsa_init_once,
    win_wsa_do_startup, refuse_fast, connected. solve_logs.
Qed.

Lemma finish_private sock settled : logs private (finish (E := E) os sock settled).
Proof.
  unfold finish, posix_finish, probe_connected, tcp_probe_finish, connected. solve_logs.
Qed.

Lemma waitSettled_private socks ms : logs private (waitSettled (E := E) os socks ms).
Proof.
  unfold waitSettled, posix_wait, windows_wait, tcp_probe_wait, wait_watched, free_opt. solve_logs.
Qed.

Lemma report_batch_run batch now (e : E) x e' t :
  report_batch batch now e = Some (x, e', t) →
  Forall neutral t ∧ ∀ a, carries (a ++ map s_job batch) t a.
Proof.
  intros Hr. unfold report_batch in Hr. destruct batch as [|s batch]; run_inv.
  - split; [constructor|]. intros a. rewrite app_nil_r. apply carries_nil.
  - split; [by repeat constructor|]. intros a. apply carries_balance, balance_one. simpl.
    by rewrite app_nil_r, Permutation_app_comm.
Qed.

Lemma report_suspect_run suspect now (e : E) x e' t :
  report_suspect suspect now e = Some (x, e', t) →
  Forall neutral t ∧ ∀ a, carries (option_list suspect ++ a) t a.
Proof.
  intros Hr. unfold report_suspect, unanswered in Hr. destruct suspect as [job|].
  - apply report_batch_run in Hr as [Hn Hc]. split; [done|]. intros a. rewrite Permutation_app_comm. apply Hc.
  - run_inv. split; [constructor|]. intros a. apply carries_nil.
Qed.

Lemma idle_quiet t : Forall idle_event t → Forall private t ∧ Forall neutral t.
Proof. apply logs_split. Qed.

Lemma next_job_run started l (e : E) oj l' e' t :
  held_ok (l_held l) → next_job started l e = Some ((oj, l'), e', t) →
  carries (hand l) t (option_list oj ++ hand l') ∧ Forall neutral t ∧
  l_flight l' = l_flight l ∧ l_batch l' = l_batch l ∧
  (l_dry l' = true → l_dry l = true ∨ drained t) ∧
  match oj with Some _ => held_ready (l_held l') | None => held_ok (l_held l') end.
Proof.
  intros Hok Hr. unfold next_job in Hr. destruct (due started (l_held l)) eqn:Hdue.
  { destruct (due_pop _ _ Hok Hdue) as (job & h & Hpop & Hj & Hready & _). rewrite Hpop in Hr.
    apply ret_inv in Hr as ([= -> ->] & -> & ->). split; [|split; [constructor|auto]].
    unfold hand. simpl. rewrite Hj. apply carries_same; [constructor|]. solve_Permutation. }
  destruct (held_open (l_held l)) eqn:Hopen; simpl in Hr.
  2:{ apply ret_inv in Hr as ([= -> ->] & -> & ->). split; [apply carries_nil|]. split; [constructor|auto]. }
  apply bind_inv in Hr as (taken & e1 & t1 & t2 & Htake & Hr & ->).
  assert (taken = TakeDry → l_dry l = true ∨ drained t1) as Hdry1.
  { clear Hr. intros ->. destruct (l_dry l); [by left|]. run_inv. right. left. eexists. in_list. }
  assert (Forall neutral t1 ∧ ∀ a, carries a t1 (match taken with TakeJob job => [job] | _ => [] end ++ a)) as [Hn1 Hc1].
  { clear Hr Hdry1. destruct (l_dry l); run_inv; [split; [constructor|intros; apply carries_nil]|]. split; [by repeat constructor|].
    intros a. apply carries_balance, balance_one. destruct taken; simpl; solve_Permutation. }
  destruct taken as [job| |].
  - apply ret_inv in Hr as ([= -> ->] & -> & ->). rewrite app_nil_r. split; [apply Hc1|].
    split; [done|]. split; [done|]. split; [done|]. split; [auto|]. by apply open_ready.
  - apply ret_inv in Hr as ([= -> ->] & -> & ->). rewrite app_nil_r. split; [apply Hc1|]. auto 10.
  - simpl in Hr. destruct (dropSuspect (l_held l)) as [suspect h] eqn:Hdrop.
    destruct (dropSuspect_ok _ _ _ Hok Hdrop) as (Hok' & Hj & _).
    apply bind_inv in Hr as ([] & e2 & t3 & t4 & Hrep & Hr & ->).
    apply ret_inv in Hr as ([= -> ->] & -> & ->). rewrite app_nil_r.
    apply report_suspect_run in Hrep as [Hn Hc].
    split; [|split; [by apply Forall_app|split; [done|split; [done|split; [|done]]]]].
    2:{ intros _. destruct (Hdry1 eq_refl); [by left|right; apply drained_app; auto]. }
    eapply carries_app; [apply Hc1|]. simpl. unfold hand. simpl. rewrite Hj.
    eapply carries_perm; [|reflexivity|apply Hc]. solve_Permutation.
Qed.

(** What a part of a round does: no job is lost, no socket leaks, the
    arrays are not outgrown. *)
Record step_ok (l : Loop) (extra : list Job) (t : list event) (l' : Loop) : Prop := {
  step_jobs : carries (extra ++ hand l) t (hand l');
  step_socks : keeps_from (socks l) t (socks l');
  step_capacity : f_capacity (l_flight l') = f_capacity (l_flight l);
  step_held : held_ok (l_held l');
  step_dry : l_dry l' = true → l_dry l = true ∨ drained t
}.

(** The sockets a connect that started brings along. *)
Definition attempt_sock (attempt : Verdict + Z) : list res :=
  match attempt with inl _ => [] | inr sock => [RSock sock] end.

Lemma proceed_run job started attempt l (e : E) l' e' t :
  held_ready (l_held l) → proceed job started attempt l e = Some (l', e', t) →
  carries (job :: hand l) t (hand l') ∧ Forall neutral t ∧ socks l' ≡ₚ attempt_sock attempt ++ socks l ∧
  f_capacity (l_flight l') = f_capacity (l_flight l) ∧ held_ok (l_held l') ∧ phase (l_held l') = 2%nat ∧ l_dry l' = l_dry l ∧
  flight_len (l_flight l') = (length (attempt_sock attempt) + flight_len (l_flight l))%nat ∧
  length (l_batch l') = (1 - length (attempt_sock attempt) + length (l_batch l))%nat ∧
  (held_len (l_held l') <= held_len (l_held l))%nat.
Proof.
  intros Hready Hr. unfold proceed in Hr. destruct (held_started (l_held l)) as [suspect h] eqn:Hst.
  destruct (started_ok _ _ _ Hready Hst) as (Hok & Hj & Hph).
  assert (held_len h <= held_len (l_held l))%nat by (unfold held_len; rewrite Hj, length_app; lia).
  apply bind_inv in Hr as ([] & e1 & t1 & t2 & Hrep & Hr & ->).
  apply report_suspect_run in Hrep as [Hn Hc].
  assert (∀ b, carries (job :: hand l) t1 b ↔ carries (option_list suspect ++ job ::
    map f_job (f_slots (l_flight l)) ++ h_jobs h ++ map s_job (l_batch l)) t1 b) as Hhand.
  { intros b. assert (job :: hand l ≡ₚ option_list suspect ++ job ::
      map f_job (f_slots (l_flight l)) ++ h_jobs h ++ map s_job (l_batch l)) as Hp
      by (unfold hand; rewrite Hj; solve_Permutation). by rewrite Hp. }
  destruct attempt as [v|sock].
  - apply bind_inv in Hr as (now & e2 & t3 & t4 & Hnow & Hr & ->). apply ret_inv in Hr as (-> & -> & ->).
    apply nowNs_run, idle_quiet in Hnow as [Hp3 Hn3]. rewrite app_nil_r.
    split; [|split; [by apply Forall_app|]; repeat (split; [done|]); simpl; rewrite length_app; simpl; split; [lia|done]].
    eapply carries_app; [apply Hhand, Hc|]. apply carries_same; [done|]. unfold hand. simpl. rewrite map_app.
    simpl. solve_Permutation.
  - apply ret_inv in Hr as (-> & -> & ->). rewrite app_nil_r.
    split; [|split; [done|]; split; [|do 4 (split; [done|]); unfold flight_len; simpl; rewrite length_app; simpl; split; [lia|done]]].
    + apply Hhand. eapply carries_perm; [reflexivity| |apply Hc]. unfold hand. simpl. rewrite map_app. simpl.
      solve_Permutation.
    + unfold socks. simpl. rewrite map_app. simpl. solve_Permutation.
Qed.

Lemma put_aside_run job started shortage l (e : E) l' e' t :
  held_ready (l_held l) → put_aside job started shortage l e = Some (l', e', t) →
  carries (job :: hand l) t (hand l') ∧ Forall neutral t ∧ l_flight l' = l_flight l ∧
  l_batch l' = l_batch l ∧ held_ok (l_held l') ∧ (l_dry l' = true → l_dry l = true ∨ drained t).
Proof.
  intros Hready Hr. unfold put_aside in Hr.
  destruct (hold job shortage started (l_held l)) as [h [|]] eqn:Hh.
  - apply ret_inv in Hr as (-> & -> & ->).
    destruct (hold_patient _ _ _ _ _ Hready Hh) as (Hok & Hj & _). split; [|split; [constructor|auto]].
    apply carries_same; [constructor|]. unfold hand. simpl. rewrite Hj. solve_Permutation.
  - apply bind_inv in Hr as ([] & e2 & t3 & t4 & [_ ->]%ask_inv & Hr & ->).
    apply ret_inv in Hr as (-> & -> & ->). split; [|split; [by repeat constructor|]].
    + exists (job :: h_jobs (l_held l)). split; [|right; right; in_list].
      apply balance_one. unfold hand. simpl. solve_Permutation.
    + split; [done|]. split; [done|]. split; [apply no_held_ok|]. right. right. right. in_list.
Qed.

Lemma start_job_run job started l (e : E) l' e' t :
  held_ready (l_held l) → start_job os job started l e = Some (l', e', t) →
  step_ok l [job] t l' ∧ (flight_len (l_flight l') <= S (flight_len (l_flight l)))%nat ∧
  (length (l_batch l') <= S (length (l_batch l)))%nat.
Proof.
  intros Hready Hr. unfold start_job in Hr.
  apply bind_inv in Hr as (attempt & e1 & t1 & t2 & Hs & Hr & ->).
  pose proof (start_private (j_target job) _ _ _ _ Hs) as Hp1.
  apply start_run in Hs as [_ Hk1]. apply keeps_frame with (f := socks l) in Hk1.
  assert (∀ a b, carries a t2 b → carries a (t1 ++ t2) b) as Hcarry.
  { intros a b Hab. eapply carries_app; [by apply carries_quiet|done]. }
  assert (∀ a, Forall neutral t2 → socks l' ≡ₚ attempt_sock a ++ socks l →
    held_started_sock attempt = attempt_sock a → keeps_from (socks l) (t1 ++ t2) (socks l')) as Hkeep.
  { intros a Hn Hso Heq. eapply keeps_from_app; [exact Hk1|]. rewrite Heq, Hso.
    rewrite (Permutation_app_comm _ (socks l)). by apply keeps_from_neutral. }
  destruct attempt as [v|sock|shortage].
  - apply proceed_run in Hr as (Hc & Hn & Hso & Hcap & Hok & _ & Hd & Hfl & Hb & _); [|done]. simpl in Hfl, Hb.
    split; [split; [by apply Hcarry|by apply (Hkeep (inl v))|done|done|rewrite Hd; auto]|lia].
  - apply proceed_run in Hr as (Hc & Hn & Hso & Hcap & Hok & _ & Hd & Hfl & Hb & _); [|done]. simpl in Hfl, Hb.
    split; [split; [by apply Hcarry|by apply (Hkeep (inr sock))|done|done|rewrite Hd; auto]|lia].
  - apply put_aside_run in Hr as (Hc & Hn & Hfl & Hb & Hok & Hd); [|done].
    split; [split; [by apply Hcarry| |by rewrite Hfl|done|]|rewrite Hfl, Hb; lia].
    2:{ intros Hx. destruct (Hd Hx); [by left|right; apply drained_app; auto]. }
    apply (Hkeep (inl v_open)); [done| |done]. unfold socks. by rewrite Hfl.
Qed.

Lemma step_ok_app l a t l1 u l2 : step_ok l a t l1 → step_ok l1 [] u l2 → step_ok l a (t ++ u) l2.
Proof.
  intros [] []. split; [by eapply carries_app|by eapply keeps_from_app|congruence|done|].
  intros Hd. destruct (step_dry1 Hd) as [Hd1|]; [destruct (step_dry0 Hd1); [by left|]|];
    right; apply drained_app; auto.
Qed.

(** A part that logs nothing of interest and changes neither jobs nor
    sockets. *)
Lemma step_ok_idle l t l' :
  Forall idle_event t → hand l' = hand l → socks l' = socks l →
  f_capacity (l_flight l') = f_capacity (l_flight l) → held_ok (l_held l') → l_dry l' = l_dry l →
  step_ok l [] t l'.
Proof.
  intros [Hp Hn]%idle_quiet Hh Hs Hcap Hok Hd.
  split; [|rewrite Hs; by apply keeps_from_neutral|done|done|rewrite Hd; auto].
  rewrite Hh. by apply carries_quiet.
Qed.

Definition within (l : Loop) : Prop := (flight_len (l_flight l) <= f_capacity (l_flight l))%nat.

Lemma top_up_run n : ∀ l (e : E) b l' e' t,
  held_ok (l_held l) → within l → top_up os n l e = Some ((b, l'), e', t) →
  step_ok l [] t l' ∧ within l' ∧ (length (l_batch l') <= n + length (l_batch l))%nat.
Proof.
  induction n as [|n IH]; intros l e b l' e' t Hok Hw Hr; cbn [top_up] in Hr; unfold within in *;
    destruct (_ <? _)%nat eqn:Hroom; to_prop.
  1, 2, 4: apply ret_inv in Hr as ([= -> ->] & -> & ->); (split; [by apply step_ok_idle|lia]).
  apply bind_inv in Hr as (started & e1 & t1 & t2 & Hnow & Hr & ->). apply nowNs_run in Hnow.
  assert (step_ok l [] t1 l) as Hs1 by by apply step_ok_idle.
  apply bind_inv in Hr as ([oj l1] & e2 & t3 & t4 & Hnext & Hr & ->).
  apply next_job_run in Hnext as (Hc & Hn & Hfl & Hb & Hd & Hready); [|done].
  assert (socks l1 = socks l) as Hso by (unfold socks; by rewrite Hfl).
  destruct oj as [job|].
  2:{ apply ret_inv in Hr as ([= -> ->] & -> & ->). rewrite app_nil_r. split; [|rewrite Hfl, Hb; lia].
      eapply step_ok_app; [exact Hs1|]. split; [done|rewrite Hso; by apply keeps_from_neutral|by rewrite Hfl|done|done]. }
  apply bind_inv in Hr as (l2 & e3 & t5 & t6 & Hstart & Hr & ->).
  apply start_job_run in Hstart as ([Hj Hsk Hcap Hheld Hdr] & Hlen & Hbat); [|done].
  apply IH in Hr as (Hs & Hin & Hbt); [|done|rewrite Hfl in *; lia].
  split; [|rewrite Hb in Hbat; lia].
  eapply step_ok_app; [exact Hs1|]. rewrite app_assoc. eapply step_ok_app; [|exact Hs].
  split; [by eapply carries_app| |congruence|done|].
  - eapply keeps_from_app; [by apply keeps_from_neutral|]. by rewrite <- Hso.
  - intros Hx. destruct (Hdr Hx) as [Hx1|]; [destruct (Hd Hx1); [by left|]|]; right; apply drained_app; auto.
Qed.

Lemma flight_remove_perm i slot fl :
  f_slots fl !! i = Some slot → f_slots fl ≡ₚ slot :: f_slots (flight_remove i fl).
Proof. apply swap_remove_perm. Qed.

Lemma sweep_slots_run i : ∀ after cut l (e : E) l' e' t,
  held_ok (l_held l) → sweep_slots os i after cut l e = Some (l', e', t) →
  step_ok l [] t l' ∧ l_held l' = l_held l ∧ l_dry l' = l_dry l ∧
  (length (l_batch l') + flight_len (l_flight l') = length (l_batch l) + flight_len (l_flight l))%nat.
Proof.
  induction i as [|i IH]; intros after cut l e l' e' t Hok Hr; cbn [sweep_slots] in Hr.
  { apply ret_inv in Hr as (-> & -> & ->). split; [by apply step_ok_idle|done]. }
  destruct (f_slots (l_flight l) !! i) as [slot|] eqn:Hslot.
  2:{ apply ret_inv in Hr as (-> & -> & ->). split; [by apply step_ok_idle|done]. }
  destruct (_ && _); [by eapply IH|].
  apply bind_inv in Hr as (v & e1 & t1 & t2 & Hf & Hr & ->).
  pose proof (finish_private (f_sock slot) (f_settled slot) _ _ _ _ Hf) as Hp.
  apply probe_finish_run in Hf as [_ Hk]. apply flight_remove_perm in Hslot.
  assert (f_capacity (flight_remove i (l_flight l)) = f_capacity (l_flight l)) as Hcap by done.
  set (fl := flight_remove i (l_flight l)) in *. clearbody fl.
  apply IH in Hr as (Hs & Hheld & Hdry & Hlen); [|done]. split; [|split; [done|split; [done|]]].
  - eapply step_ok_app; [|exact Hs]. split; [| |done|done|auto].
    + apply carries_same; [done|]. unfold hand. simpl. rewrite map_app, Hslot. simpl. solve_Permutation.
    + unfold socks. rewrite Hslot. cbn [map]. simpl.
      apply (keeps_from_frame (map (λ s, RSock (f_sock s)) (f_slots fl))) in Hk.
      rewrite app_nil_r in Hk. rewrite Permutation_app_comm in Hk. exact Hk.
  - rewrite Hlen. simpl. rewrite length_app. unfold flight_len. rewrite Hslot. simpl. lia.
Qed.

Lemma report_all_run l now (e : E) x e' t :
  held_ok (l_held l) → report_batch (l_batch l) now e = Some (x, e', t) → step_ok l [] t (set_batch [] l).
Proof.
  intros Hok Hr. apply report_batch_run in Hr as [Hn Hc]. split; [|by apply keeps_from_neutral|done|done|auto].
  unfold hand. simpl. rewrite app_nil_r, app_assoc. apply Hc.
Qed.

Lemma set_flags_same flags fl :
  length flags = flight_len fl →
  map f_job (f_slots (set_flags flags fl)) = map f_job (f_slots fl) ∧
  map f_sock (f_slots (set_flags flags fl)) = map f_sock (f_slots fl).
Proof.
  unfold flight_len. simpl. generalize (f_slots fl). intros slots. revert flags.
  induction slots as [|slot slots IH]; intros [|b flags] Hlen; simplify_eq/=; [done|].
  destruct (IH flags) as [-> ->]; [lia|done].
Qed.

(** Small enough for select on Windows. *)
Definition small (l : Loop) : Prop := Z.of_nat (f_capacity (l_flight l)) <= TCP_PROBE_MAX_SOCKETS.

Lemma wait_round_run room_left l (e : E) l' e' t :
  held_ok (l_held l) → within l → small l → f_slots (l_flight l) ≠ [] → l_batch l = [] →
  wait_round os room_left l e = Some (l', e', t) →
  step_ok l [] t l' ∧ within l' ∧ l_batch l' = [] ∧ l_held l' = l_held l ∧ l_dry l' = l_dry l.
Proof.
  intros Hok Hw Hsm Hne Hb Hr. unfold wait_round in Hr.
  apply bind_inv in Hr as (now & e1 & t1 & t2 & Hnow & Hr & ->). apply nowNs_run in Hnow.
  apply bind_inv in Hr as (cut & e2 & t3 & t4 & Hcut & Hr & ->). apply shared_cut_run in Hcut.
  apply bind_inv in Hr as (flags & e3 & t5 & t6 & Hwait & Hr & ->).
  pose proof (waitSettled_private _ _ _ _ _ _ Hwait) as Hp5.
  apply waitSettled_run in Hwait as [Hk5 Hlen].
  2:{ rewrite length_map. unfold within, small, flight_len in *. lia. }
  2:{ by destruct (f_slots (l_flight l)). }
  rewrite length_map in Hlen.
  apply bind_inv in Hr as (after & e4 & t7 & t8 & Hafter & Hr & ->). apply nowNs_run in Hafter.
  apply bind_inv in Hr as (cut' & e5 & t9 & t10 & Hcut' & Hr & ->). apply shared_cut_run in Hcut'.
  set (l1 := set_batch [] (set_flight (set_flags flags (l_flight l)) l)) in *.
  destruct (set_flags_same flags (l_flight l) Hlen) as [Hjobs Hsocks].
  assert (flight_len (l_flight l1) = flight_len (l_flight l)) as Hlen1.
  { unfold flight_len. subst l1. cbn [l_flight set_batch set_flight].
    apply (f_equal length) in Hjobs. by rewrite !length_map in Hjobs. }
  apply bind_inv in Hr as (l2 & e6 & t11 & t12 & Hsweep & Hr & ->).
  apply sweep_slots_run in Hsweep as (Hs2 & Hheld2 & Hdry2 & Hlen2); [|done].
  apply bind_inv in Hr as ([] & e7 & t13 & t14 & Hrep & Hr & ->). apply ret_inv in Hr as (-> & -> & ->).
  rewrite app_nil_r. apply report_all_run in Hrep; [|apply Hs2].
  split; [|split; [|by split]].
  - assert (step_ok l [] (t1 ++ t3 ++ t5 ++ t7 ++ t9) l1) as Hs1.
    { apply idle_quiet in Hnow as [? ?], Hcut as [? ?], Hafter as [? ?], Hcut' as [? ?].
      split; [| |done|done|auto].
      - apply carries_same; [by repeat (apply Forall_app; split; [done|])|].
        unfold hand. subst l1. cbn [l_flight l_held l_batch set_batch set_flight]. by rewrite Hjobs, Hb.
      - assert (socks l1 = socks l) as ->.
        { unfold socks. subst l1. cbn [l_flight set_batch set_flight]. apply (f_equal (map RSock)) in Hsocks.
          by rewrite !map_map in Hsocks. }
        repeat (eapply keeps_from_app; [by apply keeps_from_neutral|]).
        eapply keeps_from_app; [|by apply keeps_from_neutral, Forall_app].
        apply keeps_frame with (f := socks l) in Hk5. by rewrite app_nil_r in Hk5. }
    repeat rewrite app_assoc. repeat rewrite <- app_assoc in Hs1. rewrite <- !app_assoc.
    replace (t1 ++ t3 ++ t5 ++ t7 ++ t9 ++ t11 ++ t13) with ((t1 ++ t3 ++ t5 ++ t7 ++ t9) ++ t11 ++ t13)
      by by rewrite <- !app_assoc.
    eapply step_ok_app; [exact Hs1|]. by eapply step_ok_app.
  - unfold within in *. destruct Hs2. simpl in *. lia.
Qed.

(** Between two rounds. *)
Record loop_inv (l : Loop) : Prop := {
  inv_held : held_ok (l_held l);
  inv_within : within l;
  inv_small : small l;
  inv_batch : l_batch l = []
}.

Lemma top_inv l : held_ok (l_held l) → step_ok l [] [] l.
Proof. intros. apply step_ok_idle; [constructor|done..]. Qed.

Lemma round_run l (e : E) x e' t :
  loop_inv l → round os l e = Some (x, e', t) →
  match x with
  | inl l' => loop_inv l' ∧ step_ok l [] t l'
  | inr _ => ∃ l', step_ok l [] t l' ∧ hand l' = [] ∧ socks l' = [] ∧ l_dry l' = true
  end.
Proof.
  intros [Hok Hw Hsm Hb] Hr. unfold round in Hr.
  apply bind_inv in Hr as (starved & e1 & t1 & t2 & [_ ->]%ask_inv & Hr & ->).
  set (l0 := if (starved : bool) then abandon l else l) in *.
  assert (step_ok l [] [Ev LoadStarved starved] l0 ∧ within l0 ∧ small l0 ∧ l_batch l0 = [])
    as (Hs0 & Hw0 & Hsm0 & Hb0).
  { subst l0. destruct starved; [|split; [|done]; by apply step_ok_idle; [by repeat constructor|..]].
    split; [|done]. split; [|by apply keeps_from_neutral; repeat constructor|done|apply no_held_ok|].
    - exists (h_jobs (l_held l)). split; [|right; left; in_list].
      apply balance_one. unfold hand. simpl. rewrite app_nil_r. solve_Permutation.
    - intros _. right. right. left. in_list. }
  clearbody l0. clear Hok Hw Hsm Hb.
  apply bind_inv in Hr as ([room_left l1] & e2 & t3 & t4 & Htop & Hr & ->).
  assert (set_batch [] l0 = l0) as Hset by (destruct l0; simpl in *; by subst).
  rewrite Hset in Htop. apply top_up_run in Htop as (Hs1 & Hw1 & _); [|apply Hs0|done].
  apply bind_inv in Hr as (now & e3 & t5 & t6 & Hnow & Hr & ->). apply nowNs_run in Hnow.
  apply bind_inv in Hr as ([] & e4 & t7 & t8 & Hrep & Hr & ->).
  apply report_all_run in Hrep; [|apply Hs1]. set (l2 := set_batch [] l1) in *.
  assert (step_ok l [] ([Ev LoadStarved starved] ++ t3 ++ t5 ++ t7) l2) as Hs2.
  { eapply step_ok_app; [exact Hs0|]. eapply step_ok_app; [exact Hs1|].
    eapply step_ok_app; [|exact Hrep]. apply step_ok_idle; try done. apply Hs1. }
  assert (loop_inv l2) as Hi2.
  { split; [apply Hrep|done| |done]. unfold small in *. destruct Hs1 as [_ _ Hcap _]. subst l2. simpl. by rewrite Hcap. }
  assert (∀ u, [Ev LoadStarved starved] ++ t3 ++ t5 ++ t7 ++ u = ([Ev LoadStarved starved] ++ t3 ++ t5 ++ t7) ++ u) as Hassoc
    by (intros; by rewrite <- !app_assoc).
  rewrite Hassoc. clear Hassoc.
  destruct (_ =? 0)%nat eqn:Hempty in Hr; to_prop.
  - apply nil_length_inv in Hempty. destruct (h_short (l_held l2)).
    { apply bind_inv in Hr as (now2 & e5 & t9 & t10 & Hnow2 & Hr & ->). apply nowNs_run in Hnow2.
      apply bind_inv in Hr as ([] & e6 & t11 & t12 & Hsleep & Hr & ->). apply ret_inv in Hr as (-> & -> & ->).
      rewrite app_nil_r. split; [done|]. eapply step_ok_app; [exact Hs2|].
      assert (Forall idle_event t11) by (run_inv; by repeat constructor).
      apply step_ok_idle; try done; [by apply Forall_app|apply Hi2]. }
    destruct (l_dry l2 && _) eqn:Hend; apply ret_inv in Hr as (-> & -> & ->); rewrite app_nil_r; [|done].
    apply andb_true_iff in Hend as [Hdry Hnone]. to_prop. apply nil_length_inv in Hnone.
    exists l2. split; [done|]. split; [|split; [|done]].
    + unfold hand. by rewrite Hempty, Hnone.
    + unfold socks. by rewrite Hempty.
  - apply bind_inv in Hr as (l3 & e5 & t9 & t10 & Hwait & Hr & ->). apply ret_inv in Hr as (-> & -> & ->).
    rewrite app_nil_r. destruct Hi2. apply wait_round_run in Hwait as (Hs3 & Hw3 & Hb3 & Hh3 & _); try done.
    2:{ intros Hx. unfold flight_len in Hempty. by rewrite Hx in Hempty. }
    split; [|by eapply step_ok_app]. split; [by rewrite Hh3|done| |done].
    unfold small in *. destruct Hs3 as [_ _ Hcap _]. by rewrite Hcap.
Qed.

(** ** A whole thread *)

Lemma free_all_run ps : ∀ (e : E) x e' t,
  free_all ps e = Some (x, e', t) → Forall private t ∧ keeps_from (map RMem ps) t [].
Proof.
  induction ps as [|p ps IH]; intros e x e' t Hr; cbn [free_all] in Hr.
  { run_inv. split; [constructor|apply keeps_from_nil]. }
  apply bind_inv in Hr as ([] & e1 & t1 & t2 & [_ ->]%ask_inv & Hr & ->).
  apply IH in Hr as [Hp Hk]. split; [by constructor|].
  apply (keeps_from_app _ _ (map RMem ps)); [|done]. unfold keeps_from. simpl. by rewrite app_nil_r.
Qed.

Lemma alloc_all_run sizes : ∀ have (e : E) r e' t,
  alloc_all sizes have e = Some (r, e', t) →
  Forall private t ∧
  keeps_from (map RMem have) t (match r with Some blocks => map RMem blocks | None => [] end).
Proof.
  induction sizes as [|size sizes IH]; intros have e r e' t Hr; cbn [alloc_all] in Hr.
  { run_inv. split; [constructor|apply keeps_from_nil]. }
  apply bind_inv in Hr as (p & e1 & t1 & t2 & [_ ->]%ask_inv & Hr & ->). destruct p as [p|].
  - apply IH in Hr as [Hp Hk]. split; [by constructor|]. eapply keeps_from_app; [|exact Hk].
    unfold keeps_from. simpl. solve_Permutation.
  - apply bind_inv in Hr as ([] & e2 & t3 & t4 & Hf & Hr & ->). run_inv.
    apply free_all_run in Hf as [Hp Hk]. rewrite app_nil_r. split; [by constructor|].
    eapply keeps_from_app; [|exact Hk]. unfold keeps_from. simpl. by rewrite app_nil_r.
Qed.

(** What the log of a thread amounts to: the jobs taken are the jobs
    reported and those given up with the run. *)
Definition accounts (t : list event) : Prop :=
  ∃ dropped, flat_map takes t ≡ₚ flat_map reports t ++ dropped ∧ (dropped = [] ∨ starved_in t).

Lemma accounts_private t : Forall private t → accounts t.
Proof.
  intros Hp. exists []. rewrite app_nil_r. split; [|by left].
  pose proof (balance_total _ _ _ _ _ (balance_quiet takes reports [] t Hp)) as Hb. simpl in Hb. by rewrite app_nil_r in Hb.
Qed.

Lemma covers_private t : Forall private t → covers takes reports [] t.
Proof. intros Hp. by eapply balance_covers, balance_quiet. Qed.

Lemma loop_run fuel capacity (e : E) r e' t :
  Z.of_nat capacity <= TCP_PROBE_MAX_SOCKETS →
  Sys.loop fuel (round os) (no_flight capacity) e = Some (r, e', t) →
  carries [] t [] ∧ keeps t [] ∧ drained t.
Proof.
  intros Hcap Hr.
  refine (loop_invariant (λ l _ u, loop_inv l ∧ step_ok (no_flight capacity) [] u l)
    (λ _ _ u, carries [] u [] ∧ keeps u [] ∧ drained u) (round os) _ _ fuel _ e [] r e' t _ Hr).
  - intros l e1 t0 l' e2 u [Hi Hs] Hround. apply round_run in Hround as [Hi' Hs']; [|done].
    split; [done|]. by eapply step_ok_app.
  - intros l e1 t0 [] e2 u [Hi Hs] Hround. apply round_run in Hround as (l' & Hs' & Hh & Hso & Hd); [|done].
    pose proof (step_ok_app _ _ _ _ _ _ Hs Hs') as [Hj Hk _ _ Hdry].
    rewrite Hh in Hj. rewrite Hso in Hk. split; [exact Hj|]. split; [exact Hk|].
    destruct (Hdry Hd); [done|done].
  - split; [|apply top_inv, no_held_ok]. split; [apply no_held_ok|unfold within, flight_len; simpl; lia|done|done].
Qed.

Lemma accounts_app t u : accounts t → accounts u → accounts (t ++ u).
Proof.
  intros (d1 & H1 & S1) (d2 & H2 & S2). exists (d1 ++ d2). rewrite !flat_map_app. split.
  - rewrite H1, H2. solve_Permutation.
  - destruct S1 as [->|?]; [|right; apply starved_in_app; auto].
    destruct S2 as [->|?]; [by left|right; apply starved_in_app; auto].
Qed.

#[export] Instance accounts_proper : Proper ((≡ₚ) ==> iff) accounts.
Proof.
  assert (∀ t u, t ≡ₚ u → accounts t → accounts u) as Hone.
  { intros t u Hp (d & Hb & Hs). exists d. split.
    - by rewrite <- (Permutation_flat_map takes Hp), <- (Permutation_flat_map reports Hp).
    - destruct Hs as [|[?|?]]; [by left|right; left|right; right]; by rewrite <- Hp. }
  intros t u Hp. split; by apply Hone.
Qed.

Lemma loop_thread_run job_size settled_size fuel capacity (e : E) r e' t :
  Z.of_nat capacity <= TCP_PROBE_MAX_SOCKETS →
  loop_thread os job_size settled_size fuel capacity e = Some (r, e', t) →
  accounts t ∧ covers takes reports [] t ∧ keeps t [] ∧ (r = true → drained t) ∧ (r = false → Forall private t).
Proof.
  intros Hcap Hr. unfold loop_thread in Hr.
  apply bind_inv in Hr as (flight & e1 & t1 & t2 & Ha & Hr & ->). apply alloc_all_run in Ha as [Hp1 Hk1].
  destruct flight as [blocks|].
  2:{ run_inv. rewrite app_nil_r. split; [by apply accounts_private|]. split; [by apply covers_private|]. by split. }
  apply bind_inv in Hr as (st & e2 & t3 & t4 & [_ ->]%ask_inv & Hr & ->). destruct st as [st|].
  2:{ apply bind_inv in Hr as ([] & e3 & t5 & t6 & Hf & Hr & ->). run_inv. apply free_all_run in Hf as [Hp5 Hk5].
      assert (Forall private (t1 ++ [Ev (Malloc (Z.of_nat (capacity `max` START_BATCH) * settled_size)) None] ++ t5 ++ []))
        as Hp by (rewrite app_nil_r; apply Forall_app; split; [done|by constructor]).
      split; [by apply accounts_private|]. split; [by apply covers_private|]. split; [|by split]. apply keeps_keeps_from.
      eapply keeps_from_app; [exact Hk1|]. rewrite app_nil_r.
      apply (keeps_from_app _ _ (map RMem (reverse blocks))); [|done].
      unfold keeps_from. simpl. by rewrite app_nil_r, reverse_Permutation. }
  apply bind_inv in Hr as ([] & e3 & t5 & t6 & Hloop & Hr & ->). apply loop_run in Hloop as (Hc & Hk & Hd); [|done].
  apply bind_inv in Hr as ([] & e4 & t7 & t8 & [_ ->]%ask_inv & Hr & ->).
  apply bind_inv in Hr as ([] & e5 & t9 & t10 & Hf & Hr & ->). run_inv. apply free_all_run in Hf as [Hp9 Hk9].
  rewrite app_nil_r. set (a := Ev (Malloc _) _) in *. set (f := Ev (Free st) ()).
  destruct Hc as (dropped & Hb & Hdr).
  assert (balance takes reports [] (t1 ++ [a] ++ t5 ++ [f] ++ t9) dropped) as Hall.
  { eapply balance_app; [by apply balance_quiet|]. apply (balance_app _ _ _ [a] []); [by apply balance_quiet; repeat constructor|].
    eapply balance_app; [exact Hb|]. apply balance_quiet. by constructor. }
  split; [|split; [by apply balance_covers in Hall|split; [|split; [intros _|done]]]].
  - exists dropped. split; [apply (balance_total _ _ _ _ _ Hall)|]. destruct Hdr as [|Hst]; [by left|right].
    do 2 (apply starved_in_app; right). apply starved_in_app. by left.
  - apply keeps_keeps_from. eapply keeps_from_app; [exact Hk1|].
    apply (keeps_from_app _ [a] (RMem st :: map RMem blocks)); [unfold keeps_from; simpl; solve_Permutation|].
    apply (keeps_from_app _ t5 (RMem st :: map RMem blocks)).
    { apply keeps_frame with (f := RMem st :: map RMem blocks) in Hk. by rewrite app_nil_r in Hk. }
    apply (keeps_from_app _ [f] (map RMem (reverse blocks))); [|done].
    unfold keeps_from. simpl. by rewrite app_nil_r, reverse_Permutation.
  - do 2 (apply drained_app; right). apply drained_app. by left.
Qed.

(** C34: one thread's share.  Whatever its environment and the other threads
    do, every connect a loop takes from the source is reported back to it
    exactly once, never before it was taken, or is given up together with
    the whole run; a loop that ends of its own found the source dry; and
    every socket and block it acquired is given back, on the error returns
    too. *)
Theorem loop_thread_accounts job_size settled_size fuel capacity (e : E) r e' t :
  Z.of_nat capacity <= TCP_PROBE_MAX_SOCKETS →
  loop_thread os job_size settled_size fuel capacity e = Some (r, e', t) →
  accounts t ∧ covers takes reports [] t ∧ keeps t [] ∧ (r = true → drained t) ∧ (r = false → Forall private t).
Proof. apply loop_thread_run. Qed.
End Accounts.

(** Three ports of one host, one of them slow: two connects at most in
    flight, the second refused at once. *)
Definition port_job (id port : Z) : Job :=
  {| j_id := id; j_target := {| t_ip := IP 192 168 1 7; t_port := port; t_timeout_ms := 500; t_cut_floor_ms := None |} |}.

Definition three_ports : script :=
  set_jobs [port_job 0 22; port_job 1 23; port_job 2 80]
    (set_queues [Ok [0; 4]] [] [] [] [Err 115; Err 111; Err 115] [] [] (idle 1000)).

Lemma loop_thread_accounts_witness :
  ∃ e' t, loop_thread Linux 24 40 9 2 three_ports = Some (true, e', t) ∧
    flat_map takes t = [port_job 0 22; port_job 1 23; port_job 2 80] ∧
    flat_map reports t = [port_job 1 23; port_job 2 80; port_job 0 22] ∧
    accounts t ∧ covers takes reports [] t ∧ keeps t [] ∧ (true = true → drained t) ∧ (true = false → Forall private t).
Proof.
  eexists _, _. split; [vm_compute; reflexivity|]. split; [here|]. split; [here|].
  refine (loop_thread_accounts Linux 24 40 9 2 three_ports _ _ _ _ _); here.
Defined.
