(* ===== verification/ConnectsLive.v ===== *)
(** * connects.zig: a loop ends

    Every round of a loop makes progress (a connect is taken, started, held
    for longer or settled) or began before a deadline that stays: the
    connects in flight have theirs, and a shortage is given up after
    [STALL_LIMIT_NS].  The source's connects being finite, the loop ends. *)
From S2P Require Import Prelude Words Targets Sys Script NsSocket TcpProbe Held Probe Connects.
Open Scope Z_scope.

Section Live.
Context {E : Type} `{ClockLaw E} `{!SupplyLaw E}.
Variable os : platform.

(** What is still to be done: a connect not yet started counts most, since
    starting it puts one in flight and may end a shortage. *)
Definition left_over (l : Loop) (e : E) : nat :=
  (4 * (supply e + held_len (l_held l)) + phase (l_held l) + flight_len (l_flight l))%nat.

(** The latest time at which nothing may have happened yet. *)
Definition last_deadline (l : Loop) : Z :=
  foldr Z.max (if h_short (l_held l) then h_since (l_held l) + STALL_LIMIT_NS + MAX_PAUSE_NS else 0)
    (map f_deadline (f_slots (l_flight l))).

(** The same connects in flight, and the same shortage. *)
Definition unchanged (l l' : Loop) : Prop :=
  map f_deadline (f_slots (l_flight l')) = map f_deadline (f_slots (l_flight l)) ∧
  h_short (l_held l') = h_short (l_held l) ∧
  (h_short (l_held l) = true → h_since (l_held l') = h_since (l_held l)).

(** A part of a round: progress, or as before. *)
Definition moves (l : Loop) (e : E) (l' : Loop) (e' : E) : Prop :=
  (left_over l' e' < left_over l e)%nat ∨ (left_over l' e' = left_over l e ∧ unchanged l l').

Lemma unchanged_refl l : unchanged l l.
Proof. by repeat split. Qed.

Lemma unchanged_trans l1 l2 l3 : unchanged l1 l2 → unchanged l2 l3 → unchanged l1 l3.
Proof.
  intros (H1 & H2 & H3) (K1 & K2 & K3). split; [congruence|]. split; [congruence|].
  intros Hs. rewrite K3 by congruence. auto.
Qed.

Lemma moves_trans l1 e1 l2 e2 l3 e3 : moves l1 e1 l2 e2 → moves l2 e2 l3 e3 → moves l1 e1 l3 e3.
Proof.
  intros [?|[? ?]] [?|[? ?]]; [left; lia..|]. right. split; [lia|]. by eapply unchanged_trans.
Qed.

Lemma unchanged_deadline l l' : unchanged l l' → last_deadline l' = last_deadline l.
Proof.
  intros (Hd & Hs & Hsince). unfold last_deadline. rewrite Hd, Hs. f_equal.
  destruct (h_short (l_held l)); [|done]. by rewrite Hsince.
Qed.

(** Programs that add nothing to the source. *)
Definition spends {A} (m : M E A) : Prop :=
  ∀ e a e' t, m e = Some (a, e', t) → (supply e' <= supply e)%nat.

Lemma spends_ret {A} (a : A) : spends (mret a).
Proof. intros e b e' t Hr. by run_inv. Qed.

Lemma spends_ask {A} (c : call A) : spends (ask c).
Proof. intros e b e' t Hr. run_inv. by eapply supply_kept. Qed.

Lemma spends_bind {A B} (m : M E A) (k : A → M E B) :
  spends m → (∀ a, spends (k a)) → spends (m ≫= k).
Proof. intros Hm Hk e b e' t Hr. run_inv. etrans; [by eapply Hk|by eapply Hm]. Qed.
End Live.

Ltac solve_spends :=
  repeat (intros; match goal with
  | |- spends (_ ≫= _) => apply spends_bind
  | |- spends (mret _) => apply spends_ret
  | |- spends (ask _) => apply spends_ask
  | |- spends (if ?b then _ else _) => destruct b
  | |- spends (match ?x with _ => _ end) => destruct x
  end).

Section Progress.
Context {E : Type} `{ClockLaw E} `{!SupplyLaw E}.
Variable os : platform.

Lemma spends_start target : spends (start (E := E) os target).
Proof.
  unfold start, posix_start, connect_answer, probe_connected, tcp_probe_start, win_wsa_init_once,
    win_wsa_do_startup, refuse_fast, connected. solve_spends.
Qed.

Lemma spends_finish sock settled : spends (finish (E := E) os sock settled).
Proof. unfold finish, posix_finish, probe_connected, tcp_probe_finish, connected. solve_spends. Qed.

Lemma spends_wait socks ms : spends (waitSettled (E := E) os socks ms).
Proof.
  unfold waitSettled, posix_wait, windows_wait, tcp_probe_wait, wait_watched, free_opt. solve_spends.
Qed.

Lemma spends_report batch now : spends (report_batch (E := E) batch now).
Proof. unfold report_batch. solve_spends. Qed.

Lemma spends_suspect suspect now : spends (report_suspect (E := E) suspect now).
Proof. unfold report_suspect, unanswered, report_batch. solve_spends. Qed.

Lemma spends_now : spends (nowNs (E := E)).
Proof. unfold nowNs. solve_spends. Qed.

Lemma spends_cut : spends (shared_cut (E := E)).
Proof. unfold shared_cut. solve_spends. Qed.

Lemma phase_bound h : (phase h <= 2)%nat.
Proof. unfold phase. destruct (h_short h), (h_suspect h); lia. Qed.

(** Taking the next connect: it counts as held until it starts. *)
Lemma next_job_moves started l (e : E) oj l' e' t :
  held_ok (l_held l) → next_job started l e = Some ((oj, l'), e', t) →
  match oj with
  | Some _ =>
    (4 * (supply e' + S (held_len (l_held l'))) + phase (l_held l') + flight_len (l_flight l') <= left_over l e)%nat ∧
    l_flight l' = l_flight l ∧ h_short (l_held l') = h_short (l_held l) ∧
    h_since (l_held l') = h_since (l_held l)
  | None =>
    (left_over l' e' < left_over l e)%nat ∨
    (left_over l' e' = left_over l e ∧ l_flight l' = l_flight l ∧ l_held l' = l_held l ∧
     ((h_short (l_held l) = true ∧ started < h_retry_at (l_held l)) ∨
      f_slots (l_flight l) ≠ [] ∨ (l_dry l' = true ∧ held_len (l_held l) = 0%nat)))
  end.
Proof.
  intros Hok Hr. unfold next_job in Hr. destruct (due started (l_held l)) eqn:Hdue.
  { destruct (due_pop _ _ Hok Hdue) as (job & h & Hpop & Hj & _ & Hph & Hsh & Hsi). rewrite Hpop in Hr.
    apply ret_inv in Hr as ([= -> ->] & -> & ->). split; [|done]. unfold left_over, held_len. simpl.
    rewrite Hj, Hph. simpl. lia. }
  destruct (held_open (l_held l)) eqn:Hopen; simpl in Hr.
  2:{ apply ret_inv in Hr as ([= -> ->] & -> & ->). right. repeat (split; [done|]). left.
      by apply closed_short. }
  apply bind_inv in Hr as (taken & e1 & t1 & t2 & Htake & Hr & ->).
  assert ((supply e1 <= supply e)%nat ∧ (∀ job, taken = TakeJob job → (supply e1 < supply e)%nat) ∧
    (taken = TakeFull → f_slots (l_flight l) ≠ [])) as (Hle & Hjob & Hfull).
  { clear Hr. destruct (l_dry l); run_inv; [done|]. split; [by eapply supply_kept|]. split.
    - intros job ->. by eapply supply_take.
    - intros -> Hnil. unfold flight_len in Htake. rewrite Hnil in Htake. by eapply take_share. }
  destruct taken as [job| |].
  - apply ret_inv in Hr as ([= -> ->] & -> & ->). split; [|done]. specialize (Hjob job eq_refl). unfold left_over. lia.
  - apply ret_inv in Hr as ([= -> ->] & -> & ->). unfold left_over.
    destruct (decide (supply e1 = supply e)) as [Heq|]; [right|left; lia].
    split; [lia|]. repeat (split; [done|]). right. left. by apply Hfull.
  - simpl in Hr. destruct (dropSuspect (l_held l)) as [suspect h] eqn:Hdrop.
    destruct (dropSuspect_ok _ _ _ Hok Hdrop) as (_ & Hj & Hs & _ & _ & Hsame).
    apply bind_inv in Hr as ([] & e2 & t3 & t4 & Hrep & Hr & ->).
    apply ret_inv in Hr as ([= -> ->] & -> & ->). apply spends_suspect in Hrep.
    destruct suspect as [job|].
    + left. unfold left_over, held_len. simpl. rewrite Hj. simpl. pose proof (phase_bound h). lia.
    + rewrite (Hsame eq_refl) in *. unfold left_over. simpl.
      destruct (decide (supply e2 = supply e)) as [Heq|]; [right|left; lia].
      split; [lia|]. repeat (split; [done|]). right. right. split; [done|].
      unfold held_open in Hopen. rewrite Hs, orb_false_r in Hopen. by to_prop.
Qed.

Lemma start_job_moves job started l (e : E) l' e' t :
  held_ready (l_held l) → start_job os job started l e = Some (l', e', t) →
  let before := (4 * (supply e + S (held_len (l_held l))) + phase (l_held l) + flight_len (l_flight l))%nat in
  (left_over l' e' < before)%nat ∨
  (left_over l' e' <= before)%nat ∧ l_flight l' = l_flight l ∧ h_short (l_held l) = true ∧
  h_short (l_held l') = true ∧ h_since (l_held l') = h_since (l_held l) ∧
  started < h_since (l_held l') + STALL_LIMIT_NS.
Proof.
  intros Hready Hr. unfold start_job in Hr.
  apply bind_inv in Hr as (attempt & e1 & t1 & t2 & Hs & Hr & ->). apply spends_start in Hs.
  assert (∀ a, proceed job started a l e1 = Some (l', e', t2) →
    (left_over l' e' < 4 * (supply e + S (held_len (l_held l))) + phase (l_held l) + flight_len (l_flight l))%nat)
    as Hproc.
  { intros a Hp. assert (supply e' <= supply e1)%nat.
    { assert (spends (proceed (E := E) job started a l)) as Hsp; [|by eapply Hsp].
      unfold proceed, report_suspect, unanswered, report_batch, nowNs. solve_spends. }
    apply proceed_run in Hp as (_ & _ & _ & _ & _ & Hph & _ & Hfl & _ & Hlen); [|done].
    unfold left_over. rewrite Hph, Hfl. assert (length (attempt_sock a) <= 1)%nat by (destruct a; simpl; lia). lia. }
  destruct attempt as [v|sock|shortage]; [left; by eapply Hproc..|].
  unfold put_aside in Hr. destruct (hold job shortage started (l_held l)) as [h [|]] eqn:Hh.
  - apply ret_inv in Hr as (-> & -> & ->).
    destruct (hold_patient _ _ _ _ _ Hready Hh) as (_ & Hj & Hph). unfold left_over, held_len. simpl.
    rewrite Hj, length_app. simpl. destruct Hph as [Hph|(Hs1 & Hs2 & Hs3 & Hlt)]; [left; lia|].
    right. split; [|done]. unfold phase. rewrite Hs1, Hs2. lia.
  - left. apply bind_inv in Hr as ([] & e2 & t3 & t4 & Hst & Hr & ->). apply spends_ask in Hst.
    apply ret_inv in Hr as (-> & -> & ->). unfold left_over. cbn [abandon set_held set_dry l_held l_flight]. change (held_len no_held) with 0%nat. change (phase no_held) with 2%nat. lia.
Qed.

Lemma moves_refl l (e : E) : moves l e l e.
Proof. right. split; [done|apply unchanged_refl]. Qed.

(** Time and the source only go one way. *)
Lemma moves_later l (e e1 : E) l' e' : (supply e1 <= supply e)%nat → moves l e1 l' e' → moves l e l' e'.
Proof.
  unfold moves, left_over. intros Hle [?|[Heq Hu]]; [left; lia|].
  destruct (decide (supply e1 = supply e)) as [Hs|]; [right|left; lia]. split; [by rewrite <- Hs|done].
Qed.

Lemma nowNs_clock (e : E) now e' t : nowNs e = Some (now, e', t) → now = clk e ∧ ticked e' e.
Proof.
  intros Hr. unfold nowNs in Hr. run_inv.
  match goal with Hs : env_step ClockMonotonic _ = _ |- _ => apply clock_read in Hs as (? & _ & ?) end.
  by unfold ticked.
Qed.

Lemma timely_start target : timely (start (E := E) os target).
Proof.
  unfold start, posix_start, connect_answer, probe_connected, tcp_probe_start, win_wsa_init_once,
    win_wsa_do_startup, refuse_fast, connected. solve_timely.
Qed.

Lemma timely_report suspect now : timely (report_suspect (E := E) suspect now).
Proof. unfold report_suspect, unanswered, report_batch. solve_timely. Qed.

Lemma timely_next_job started l : timely (next_job (E := E) started l).
Proof.
  unfold next_job. destruct (due _ _); [apply timely_ret|]. destruct (negb _); [apply timely_ret|].
  apply timely_bind; [solve_timely|]. intros []; [apply timely_ret..|]. simpl.
  destruct (dropSuspect _). apply timely_bind; [apply timely_report|intros; apply timely_ret].
Qed.

Lemma timely_start_job job started l : timely (start_job (E := E) os job started l).
Proof.
  unfold start_job. apply timely_bind; [apply timely_start|]. intros []; unfold proceed, put_aside.
  1, 2: destruct (held_started _); apply timely_bind; [apply timely_report|]; unfold nowNs; solve_timely.
  destruct (hold _ _ _ _) as [? []]; solve_timely.
Qed.

Lemma timely_top_up n l : timely (top_up (E := E) os n l).
Proof.
  revert l. induction n as [|n IH]; intros l; cbn [top_up]; (destruct (_ <? _)%nat; [|apply timely_ret]);
    [apply timely_ret|].
  apply timely_bind; [unfold nowNs; solve_timely|]. intros. apply timely_bind; [apply timely_next_job|].
  intros [[job|] l']; [|apply timely_ret]. apply timely_bind; [apply timely_start_job|done].
Qed.

Lemma spends_next_job started l : spends (next_job (E := E) started l).
Proof.
  unfold next_job. destruct (due _ _); [apply spends_ret|]. destruct (negb _); [apply spends_ret|].
  apply spends_bind; [solve_spends|]. intros []; [apply spends_ret..|]. simpl.
  destruct (dropSuspect _). apply spends_bind; [apply spends_suspect|intros; apply spends_ret].
Qed.

(** When topping up changed nothing, the shortage is not over yet, or
    nothing is left to be started. *)
Definition topped_up (n : nat) (l : Loop) (e : E) (l' : Loop) : Prop :=
  (0 < n)%nat → (0 < f_capacity (l_flight l))%nat →
  (f_slots (l_flight l') = [] → h_short (l_held l') = true →
     clk e < h_since (l_held l') + STALL_LIMIT_NS + MAX_PAUSE_NS) ∧
  (f_slots (l_flight l') = [] → h_short (l_held l') = false → l_dry l' = true ∧ held_len (l_held l') = 0%nat).

Lemma top_up_moves n : ∀ l (e : E) b l' e' t,
  held_ok (l_held l) → top_up os n l e = Some ((b, l'), e', t) →
  (left_over l' e' < left_over l e)%nat ∨
  (left_over l' e' = left_over l e ∧ unchanged l l' ∧ topped_up n l e l').
Proof.
  assert (∀ l (e : E), left_over l e = left_over l e ∧ unchanged l l) as Hrefl by (intros; split; [done|apply unchanged_refl]).
  induction n as [|n IH]; intros l e b l' e' t Hok Hr; cbn [top_up] in Hr; destruct (_ <? _)%nat eqn:Hroom; to_prop.
  1, 2: apply ret_inv in Hr as ([= -> ->] & -> & ->); right; (split; [done|]; split; [apply unchanged_refl|intros ?; lia]).
  2:{ apply ret_inv in Hr as ([= -> ->] & -> & ->). right. split; [done|]. split; [apply unchanged_refl|].
      intros _ Hcap. unfold flight_len in Hroom. split; intros Hnil; rewrite Hnil in Hroom; simpl in Hroom; lia. }
  apply bind_inv in Hr as (started & e1 & t1 & t2 & Hnow & Hr & ->).
  pose proof (spends_now _ _ _ _ Hnow) as Hs1. apply nowNs_clock in Hnow as [-> _].
  apply bind_inv in Hr as ([oj l1] & e2 & t3 & t4 & Hnext & Hr & ->).
  pose proof (next_job_run _ _ _ _ _ _ _ Hok Hnext) as (_ & _ & _ & _ & _ & Hready).
  apply next_job_moves in Hnext; [|done].
  assert (left_over l e1 <= left_over l e)%nat as Hle1 by (unfold left_over; lia).
  destruct oj as [job|].
  - apply bind_inv in Hr as (l2 & e3 & t5 & t6 & Hstart & Hr & ->).
    pose proof (start_job_run os _ _ _ _ _ _ _ Hready Hstart) as ([_ _ _ Hok2 _] & _).
    apply start_job_moves in Hstart; [|done]. destruct Hnext as (Hm1 & Hfl1 & Hsh1 & Hsi1).
    apply IH in Hr; [|done]. cbv zeta in Hstart.
    destruct Hstart as [Hlt|(Hle & Hfl2 & Hs & Hs2 & Hsi2 & Hstall)];
      [left; destruct Hr as [Hr|[Hr _]]; rewrite ?Hr; lia|].
    assert (unchanged l l2) as Hu.
    { split; [by rewrite Hfl2, Hfl1|]. split; [congruence|]. intros _. congruence. }
    destruct Hr as [Hr|(Hr & Hu2 & _)]; [left; lia|].
    destruct (decide (left_over l' e' = left_over l e)) as [Heq|]; [right|left; lia].
    split; [done|]. split; [by eapply unchanged_trans|]. intros _ _.
    destruct Hu2 as (_ & Hsh & Hsi). rewrite Hsh, (Hsi Hs2), Hs2. split; [|done]. intros _ _.
    unfold MAX_PAUSE_NS, ns_per_ms. lia.
  - apply ret_inv in Hr as ([= -> ->] & -> & ->).
    destruct Hnext as [Hlt|(Heq & Hfl & Hh & Hwhy)]; [left; lia|].
    destruct (decide (left_over l1 e2 = left_over l e)) as [Htot|]; [right|left; lia].
    split; [done|].
    split; [unfold unchanged; rewrite Hfl, Hh; done|]. intros _ _. rewrite Hfl, Hh.
    split; intros Hnil Hs; destruct Hwhy as [[Hsh Hret]|[Hne|[Hdry Hnone]]]; try done; try congruence.
    + pose proof (ok_retry _ Hok Hs). lia.
    + pose proof (ok_short _ Hok Hs). lia.
Qed.

Lemma sweep_slots_moves i : ∀ after cut l (e : E) l' e' t,
  sweep_slots os i after cut l e = Some (l', e', t) →
  (left_over l' e' < left_over l e)%nat ∨
  (left_over l' e' = left_over l e ∧ l_flight l' = l_flight l ∧ l_held l' = l_held l ∧
   ∀ j slot, (j < i)%nat → f_slots (l_flight l) !! j = Some slot → i = S j → after < f_deadline slot).
Proof.
  induction i as [|i IH]; intros after cut l e l' e' t Hr; cbn [sweep_slots] in Hr.
  { apply ret_inv in Hr as (-> & -> & ->). right. repeat (split; [done|]). intros; lia. }
  destruct (f_slots (l_flight l) !! i) as [slot|] eqn:Hslot.
  2:{ apply ret_inv in Hr as (-> & -> & ->). right. repeat (split; [done|]). intros j slot _ Hj [= ->]. congruence. }
  destruct (negb (f_settled slot) && (after <? deadline cut slot)) eqn:Hwait.
  - destruct (IH _ _ _ _ _ _ _ Hr) as [?|(Heq & Hfl & Hh & _)]; [by left|right].
    repeat (split; [done|]). intros j slot' _ Hj [= ->]. simplify_eq.
    apply andb_true_iff in Hwait as [_ Hlt]. to_prop. unfold deadline in Hlt. repeat case_match; lia.
  - apply bind_inv in Hr as (v & e1 & t1 & t2 & Hf & Hr & ->). apply spends_finish in Hf.
    left. apply flight_remove_perm in Hslot. apply Permutation_length in Hslot. cbn [length] in Hslot.
    set (l1 := set_flight _ _) in Hr.
    assert (left_over l1 e1 < left_over l e)%nat as Hlt.
    { unfold left_over, flight_len. subst l1. cbn [l_flight l_held set_flight settled_now set_batch]. lia. }
    apply IH in Hr as [?|[? _]]; lia.
Qed.

Lemma deadline_in l slot : slot ∈ f_slots (l_flight l) → f_deadline slot <= last_deadline l.
Proof.
  unfold last_deadline. intros Hin. generalize (if h_short (l_held l) then h_since (l_held l) + STALL_LIMIT_NS + MAX_PAUSE_NS else 0).
  intros z. induction Hin as [slot slots|slot slot' slots _ IH]; simpl; lia.
Qed.

Lemma deadline_short l :
  h_short (l_held l) = true → h_since (l_held l) + STALL_LIMIT_NS + MAX_PAUSE_NS <= last_deadline l.
Proof.
  intros Hs. unfold last_deadline. rewrite Hs. induction (f_slots (l_flight l)); simpl; lia.
Qed.

Lemma set_flags_deadlines flags fl :
  length flags = flight_len fl →
  map f_deadline (f_slots (set_flags flags fl)) = map f_deadline (f_slots fl) ∧
  flight_len (set_flags flags fl) = flight_len fl.
Proof.
  unfold flight_len. simpl. generalize (f_slots fl). intros slots. revert flags.
  induction slots as [|slot slots IH]; intros [|b flags] Hlen; simplify_eq/=; [done|].
  destruct (IH flags) as [-> ->]; [lia|done].
Qed.

Lemma unchanged_by l l' : l_flight l' = l_flight l → l_held l' = l_held l → unchanged l l'.
Proof. intros Hfl Hh. unfold unchanged. by rewrite Hfl, Hh. Qed.

Lemma timely_wait socks ms : timely (waitSettled (E := E) os socks ms).
Proof.
  unfold waitSettled, posix_wait, windows_wait, tcp_probe_wait, wait_watched, free_opt. solve_timely.
Qed.

Lemma wait_round_moves room_left l (e : E) l' e' t :
  within l → small l → f_slots (l_flight l) ≠ [] →
  wait_round os room_left l e = Some (l', e', t) →
  (left_over l' e' < left_over l e)%nat ∨
  (left_over l' e' = left_over l e ∧ unchanged l l' ∧ clk e < last_deadline l).
Proof.
  intros Hw Hsm Hne Hr. unfold wait_round in Hr.
  apply bind_inv in Hr as (now & e1 & t1 & t2 & Hnow & Hr & ->).
  pose proof (spends_now _ _ _ _ Hnow) as Hs1. apply nowNs_clock in Hnow as [_ Ht1%ticked_later].
  apply bind_inv in Hr as (cut & e2 & t3 & t4 & Hcut & Hr & ->).
  assert (timely (shared_cut (E := E))) as Htc by (unfold shared_cut; solve_timely).
  pose proof (Htc _ _ _ _ Hcut) as Ht2. apply spends_cut in Hcut.
  apply bind_inv in Hr as (flags & e3 & t5 & t6 & Hwait & Hr & ->).
  pose proof (spends_wait _ _ _ _ _ _ Hwait) as Hs3. pose proof (timely_wait _ _ _ _ _ _ Hwait) as Ht3.
  apply waitSettled_run in Hwait as [_ Hlen].
  2:{ rewrite length_map. unfold within, small, flight_len in *. lia. }
  2:{ by destruct (f_slots (l_flight l)). }
  rewrite length_map in Hlen. destruct (set_flags_deadlines flags (l_flight l) Hlen) as [Hdl Hlen1].
  apply bind_inv in Hr as (after & e4 & t7 & t8 & Hafter & Hr & ->).
  pose proof (spends_now _ _ _ _ Hafter) as Hs4. apply nowNs_clock in Hafter as [-> _].
  apply bind_inv in Hr as (cut' & e5 & t9 & t10 & Hcut' & Hr & ->). apply spends_cut in Hcut'.
  apply bind_inv in Hr as (l2 & e6 & t11 & t12 & Hsweep & Hr & ->).
  apply bind_inv in Hr as ([] & e7 & t13 & t14 & Hrep & Hr & ->). apply spends_report in Hrep.
  apply ret_inv in Hr as (-> & -> & ->).
  set (l1 := set_batch [] (set_flight (set_flags flags (l_flight l)) l)) in *.
  assert (left_over l1 e5 <= left_over l e)%nat as Hle.
  { unfold left_over. subst l1. cbn [l_flight l_held set_batch set_flight]. rewrite Hlen1. lia. }
  assert (left_over (set_batch [] l2) e7 <= left_over l2 e6)%nat as Hle2 by (unfold left_over; simpl; lia).
  assert (unchanged l l1) as Hu1 by (split; [exact Hdl|done]).
  apply sweep_slots_moves in Hsweep as [?|(Heq & Hfl & Hh & Hlast)]; [left; lia|].
  destruct (decide (left_over (set_batch [] l2) e7 = left_over l e)) as [Htot|]; [right|left; lia].
  split; [done|]. split.
  { eapply unchanged_trans; [exact Hu1|]. by apply unchanged_by. }
  assert (flight_len (l_flight l1) ≠ 0%nat) as Hpos.
  { subst l1. cbn [l_flight set_batch set_flight]. rewrite Hlen1. unfold flight_len.
    by destruct (f_slots (l_flight l)). }
  rewrite <- (unchanged_deadline l l1 Hu1).
  change (flight_len (l_flight (set_flight (set_flags flags (l_flight l)) l))) with (flight_len (l_flight l1)) in Hlast.
  destruct (flight_len (l_flight l1)) as [|k] eqn:Hk; [done|].
  destruct (lookup_lt_is_Some_2 (f_slots (l_flight l1)) k) as [slot Hslot]; [unfold flight_len in Hk; lia|].
  specialize (Hlast k slot). assert (clk e3 < f_deadline slot) as Hlt by (apply Hlast; [lia|done|done]).
  apply list_elem_of_lookup_2, deadline_in in Hslot. unfold later in *. lia.
Qed.

Lemma abandon_moves l (e : E) : held_ok (l_held l) → moves l e (abandon l) e.
Proof.
  intros Hok. unfold moves, left_over. cbn [abandon set_held set_dry l_held l_flight].
  change (held_len no_held) with 0%nat. change (phase no_held) with 2%nat.
  destruct (decide (held_len (l_held l) = 0%nat)) as [Hz|]; [|left; lia].
  right. assert (h_short (l_held l) = false) as Hs.
  { destruct (h_short (l_held l)) eqn:Hs; [|done]. pose proof (ok_short _ Hok Hs). lia. }
  assert (h_suspect (l_held l) = false) as Hsus.
  { destruct (h_suspect (l_held l)) eqn:Hsus; [|done]. pose proof (ok_suspect _ Hok Hsus). lia. }
  unfold phase, unchanged. rewrite Hs, Hsus, Hz. split; [lia|]. by simpl.
Qed.

(** Every round that goes on makes progress or began before the last
    deadline, which then stays. *)
Lemma round_moves l (e : E) l' e' t :
  loop_inv l → (0 < f_capacity (l_flight l))%nat → round os l e = Some (inl l', e', t) →
  (left_over l' e' < left_over l e)%nat ∨
  (left_over l' e' = left_over l e ∧ last_deadline l' <= last_deadline l ∧ clk e < last_deadline l).
Proof.
  intros [Hok Hw Hsm Hb] Hcap Hr. unfold round in Hr.
  apply bind_inv in Hr as (starved & e1 & t1 & t2 & Hst & Hr & ->).
  pose proof (spends_ask _ _ _ _ _ Hst) as Hs1. pose proof (timely_ask _ _ _ _ _ Hst) as Ht1.
  set (l0 := if (starved : bool) then abandon l else l) in *.
  assert (moves l e l0 e1 ∧ held_ok (l_held l0) ∧ within l0 ∧ small l0 ∧ f_capacity (l_flight l0) = f_capacity (l_flight l))
    as (Hm0 & Hok0 & Hw0 & Hsm0 & Hcap0).
  { subst l0. destruct starved.
    - split; [|split; [apply no_held_ok|done]]. pose proof (abandon_moves l e Hok) as Hg.
      eapply moves_trans; [exact Hg|]. eapply moves_later; [exact Hs1|apply moves_refl].
    - split; [|done]. eapply moves_later; [exact Hs1|apply moves_refl]. }
  clearbody l0. clear Hst.
  apply bind_inv in Hr as ([room_left l1] & e2 & t3 & t4 & Htop & Hr & ->).
  assert (held_ok (l_held (set_batch [] l0))) as Hokb by done.
  assert (within (set_batch [] l0)) as Hwb by done.
  pose proof (top_up_run os _ _ _ _ _ _ _ Hokb Hwb Htop) as ([_ _ Hcap1 Hok1 _] & Hw1 & _).
  pose proof (timely_top_up _ _ _ _ _ _ Htop) as Ht2. apply top_up_moves in Htop; [|done].
  change (left_over (set_batch [] l0) e1) with (left_over l0 e1) in Htop.
  apply bind_inv in Hr as (now & e3 & t5 & t6 & Hnow & Hr & ->).
  pose proof (spends_now _ _ _ _ Hnow) as Hs3. apply nowNs_clock in Hnow as [_ Ht3].
  apply bind_inv in Hr as ([] & e4 & t7 & t8 & Hrep & Hr & ->).
  assert (timely (report_batch (E := E) (l_batch l1) now)) as Ht4 by (unfold report_batch; solve_timely).
  specialize (Ht4 _ _ _ _ Hrep). apply spends_report in Hrep. set (l2 := set_batch [] l1) in *.
  assert (left_over l2 e4 <= left_over l1 e2)%nat as Hle by (unfold left_over; subst l2; simpl; lia).
  assert ((left_over l2 e4 < left_over l e)%nat ∨
    (left_over l2 e4 = left_over l e ∧ unchanged l l2 ∧ topped_up START_BATCH l0 e1 l1)) as Hmoved.
  { destruct Hm0 as [?|[Heq0 Hu0]], Htop as [?|(Heq1 & Hu1 & Htp)]; [left; lia..|].
    destruct (decide (left_over l2 e4 = left_over l e)); [right|left; lia]. split; [done|].
    split; [|exact Htp]. eapply unchanged_trans; [exact Hu0|]. exact Hu1. }
  destruct (_ =? 0)%nat eqn:Hempty in Hr; to_prop.
  - apply nil_length_inv in Hempty. destruct (h_short (l_held l2)) eqn:Hshort.
    + apply bind_inv in Hr as (now2 & e5 & t9 & t10 & Hnow2 & Hr & ->). apply spends_now in Hnow2.
      apply bind_inv in Hr as ([] & e6 & t11 & t12 & Hsleep & Hr & ->).
      assert (supply e6 <= supply e5)%nat.
      { destruct (_ >? _); [by apply spends_ask in Hsleep|]. by run_inv. }
      apply ret_inv in Hr as ([= ->] & -> & ->).
      assert (left_over l2 e6 <= left_over l2 e4)%nat by (unfold left_over; lia).
      destruct Hmoved as [?|(Heq & Hu & Htp)]; [left; lia|].
      destruct (decide (left_over l2 e6 = left_over l e)); [right|left; lia]. split; [done|].
      rewrite (unchanged_deadline l l2) by done. split; [done|].
      rewrite <- (unchanged_deadline l l2) by done.
      destruct Htp as [Htp _]; [unfold START_BATCH; lia|lia|].
      pose proof (deadline_short l2 Hshort). specialize (Htp Hempty Hshort).
      unfold later in Ht1. subst l2. simpl in *. lia.
    + destruct (l_dry l2 && _) eqn:Hend; apply ret_inv in Hr as (Hx & -> & ->); simplify_eq.
      destruct Hmoved as [?|(Heq & Hu & Htp)]; [by left|].
      destruct Htp as [_ Htp]; [unfold START_BATCH; lia|lia|]. destruct (Htp Hempty Hshort) as [Hd Hz].
      subst l2. simpl in Hend. by rewrite Hd, Hz in Hend.
  - apply bind_inv in Hr as (l3 & e5 & t9 & t10 & Hwait & Hr & ->). apply ret_inv in Hr as ([= ->] & -> & ->).
    assert (later e4 e) as Hlater by (unfold later, ticked in *; lia).
    apply wait_round_moves in Hwait; [|done| |].
    2:{ unfold small in *. subst l2. simpl. by rewrite Hcap1. }
    2:{ intros Hx. unfold flight_len in Hempty. by rewrite Hx in Hempty. }
    destruct Hmoved as [?|(Heq & Hu & _)], Hwait as [?|(Heq3 & Hu3 & Hlt)]; [left; lia..|].
    right. split; [lia|]. rewrite (unchanged_deadline l2 l3), (unchanged_deadline l l2) in * by done.
    split; [done|]. unfold later in Hlater. lia.
Qed.

Lemma timely_report_batch batch now : timely (report_batch (E := E) batch now).
Proof. unfold report_batch. solve_timely. Qed.

Lemma timely_cut : timely (shared_cut (E := E)).
Proof. unfold shared_cut. solve_timely. Qed.

Lemma timely_now : timely (nowNs (E := E)).
Proof. unfold nowNs. solve_timely. Qed.

Lemma timely_sweep_slots i after cut l : timely (sweep_slots (E := E) os i after cut l).
Proof.
  revert l. induction i as [|i IH]; intros l; cbn [sweep_slots]; [apply timely_ret|].
  destruct (_ !! i); [|apply timely_ret]. destruct (_ && _); [done|]. apply timely_bind; [|done].
  unfold finish, posix_finish, probe_connected, tcp_probe_finish, connected. solve_timely.
Qed.

Lemma timely_wait_round room_left l : timely (wait_round (E := E) os room_left l).
Proof.
  unfold wait_round. apply timely_bind; [apply timely_now|intros]. apply timely_bind; [apply timely_cut|intros].
  apply timely_bind; [apply timely_wait|intros]. apply timely_bind; [apply timely_now|intros].
  apply timely_bind; [apply timely_cut|intros]. apply timely_bind; [apply timely_sweep_slots|intros].
  apply timely_bind; [apply timely_report_batch|intros]. apply timely_ret.
Qed.

Lemma round_ticked l (e : E) x e' t : round os l e = Some (x, e', t) → ticked e' e.
Proof.
  intros Hr. unfold round in Hr.
  apply bind_inv in Hr as (starved & e1 & t1 & t2 & Hst & Hr & ->). apply timely_ask in Hst.
  apply bind_inv in Hr as ([room_left l1] & e2 & t3 & t4 & Htop & Hr & ->). apply timely_top_up in Htop.
  apply bind_inv in Hr as (now & e3 & t5 & t6 & Hnow & Hr & ->). apply nowNs_clock in Hnow as [_ Ht].
  assert (later e' e3) as Hl.
  { eapply (timely_bind (report_batch (l_batch l1) now)); [apply timely_report_batch| |exact Hr]. intros []. cbv beta zeta.
    destruct (_ =? _)%nat; [destruct (h_short _); [|destruct (_ && _); apply timely_ret]|].
    - apply timely_bind; [apply timely_now|]. solve_timely.
    - apply timely_bind; [apply timely_wait_round|]. solve_timely. }
  unfold later, ticked in *. lia.
Qed.

(** ** Every part answers *)

Lemma total_start target : total (start (E := E) os target).
Proof.
  unfold start, posix_start, connect_answer, probe_connected, tcp_probe_start, win_wsa_init_once,
    win_wsa_do_startup, refuse_fast, connected. solve_total.
Qed.

Lemma total_report_batch batch now : total (report_batch (E := E) batch now).
Proof. unfold report_batch. solve_total. Qed.

Lemma total_suspect suspect now : total (report_suspect (E := E) suspect now).
Proof. unfold report_suspect, unanswered, report_batch. solve_total. Qed.

Lemma total_now : total (nowNs (E := E)).
Proof. unfold nowNs. solve_total. Qed.
#[local] Hint Resolve total_start total_report_batch total_suspect total_now : total.

Lemma total_next_job started l : total (next_job (E := E) started l).
Proof.
  unfold next_job. destruct (due _ _); [apply total_ret|]. destruct (negb _); [apply total_ret|].
  apply total_bind; [solve_total|]. intros []; [apply total_ret..|]. simpl.
  destruct (dropSuspect _). solve_total.
Qed.

Lemma total_start_job job started l : total (start_job (E := E) os job started l).
Proof.
  unfold start_job. apply total_bind; [apply total_start|]. intros []; unfold proceed, put_aside.
  1, 2: destruct (held_started _); solve_total.
  destruct (hold _ _ _ _) as [? []]; solve_total.
Qed.
#[local] Hint Resolve total_next_job total_start_job : total.

Lemma total_top_up n l : total (top_up (E := E) os n l).
Proof.
  revert l. induction n as [|n IH]; intros l; cbn [top_up]; (destruct (_ <? _)%nat; [|apply total_ret]);
    [apply total_ret|]. apply total_bind; [apply total_now|]. intros. apply total_bind; [apply total_next_job|].
  intros [[job|] l']; [|apply total_ret]. apply total_bind; [apply total_start_job|done].
Qed.

Lemma total_sweep_slots i after cut l : total (sweep_slots (E := E) os i after cut l).
Proof.
  revert l. induction i as [|i IH]; intros l; cbn [sweep_slots]; [apply total_ret|].
  destruct (_ !! i); [|apply total_ret]. destruct (_ && _); [done|]. apply total_bind; [|done].
  unfold finish, posix_finish, probe_connected, tcp_probe_finish, connected. solve_total.
Qed.
#[local] Hint Resolve total_top_up total_sweep_slots : total.

Lemma total_wait_settled socks ms : total (waitSettled (E := E) os socks ms).
Proof.
  unfold waitSettled, posix_wait, windows_wait, tcp_probe_wait, wait_watched, free_opt. solve_total.
Qed.
#[local] Hint Resolve total_wait_settled : total.

Lemma total_round l : total (round (E := E) os l).
Proof.
  unfold round, wait_round, shared_cut. apply total_bind; [apply total_ask|]. intros starved.
  apply total_bind; [apply total_top_up|]. intros [room_left l1]. solve_total.
Qed.

Lemma loop_ends capacity (e : E) :
  Z.of_nat capacity <= TCP_PROBE_MAX_SOCKETS → (0 < capacity)%nat →
  ∃ n, ∀ m, (n ≤ m)%nat → is_Some (Sys.loop m (round os) (no_flight capacity) e).
Proof.
  intros Hsm Hcap.
  destruct (loop_terminates (λ l _, loop_inv l ∧ f_capacity (l_flight l) = capacity)
    (paced_order left_over (λ l _, last_deadline l)) (λ _, round (E := E) os)) with (s := no_flight capacity) (e := e)
    as [n Hn].
  - apply paced_order_wf.
  - intros s. apply fuel_mono_const.
  - intros l e1 [Hi Hc]. destruct (total_round l e1) as [[[x e2] t] Hr]. exists 0%nat, x, e2, t.
    split; [done|]. destruct x as [l'|]; [|done].
    destruct (round_run os _ _ _ _ _ Hi Hr) as [Hi' Hs']. pose proof (step_capacity _ _ _ _ Hs') as Hc'.
    split; [split; [done|congruence]|].
    split; [by eapply round_ticked|]. apply (round_moves l e1 l' e2 t); [done|lia|done].
  - split; [|done]. split; [apply no_held_ok|unfold within, flight_len; simpl; lia|done|done].
  - exists n. intros m Hm. apply (Hn m m); lia.
Qed.

Lemma total_free_all ps : total (free_all (E := E) ps).
Proof. induction ps; cbn [free_all]; solve_total. Qed.

Lemma total_alloc_all sizes have : total (alloc_all (E := E) sizes have).
Proof.
  revert have. induction sizes as [|size sizes IH]; intros have; cbn [alloc_all]; [apply total_ret|].
  apply total_bind; [apply total_ask|]. intros [p|]; [done|].
  apply total_bind; [apply total_free_all|intros; apply total_ret].
Qed.

(** C29: a loop ends.  Whatever the network answers, and whatever the other
    loops take and report in between, a loop's thread returns: some fuel is
    enough, and more changes nothing.  Silent targets run into their
    deadlines, a shortage of sockets or ports is over or given up after
    [STALL_LIMIT_NS], and the source's connects are finite. *)
Theorem loop_thread_terminates job_size settled_size capacity (e : E) :
  Z.of_nat capacity <= TCP_PROBE_MAX_SOCKETS → (0 < capacity)%nat →
  ∃ n, ∀ m, (n ≤ m)%nat → is_Some (loop_thread os job_size settled_size m capacity e).
Proof.
  intros Hsm Hcap.
  destruct (total_alloc_all (flight_sizes os job_size capacity) [] e) as [[[flight e1] t1] Ha].
  assert (∀ m, loop_thread os job_size settled_size m capacity e =
    (alloc_all (flight_sizes os job_size capacity) [] ≫= λ flight, match flight with
     | None => mret false
     | Some blocks =>
       settled ← ask (Malloc (Z.of_nat (capacity `max` START_BATCH) * settled_size));
       match settled with
       | None => free_all (reverse blocks);; mret false
       | Some settled =>
         Sys.loop m (round os) (no_flight capacity);;
         ask (Free settled);; free_all (reverse blocks);; mret true
       end
     end) e) as Heq by done.
  assert (∀ blocks st, total (ask (E := E) (Free st);; free_all (reverse blocks);; mret true)) as Hfree.
  { intros. apply total_bind; [apply total_ask|intros]. apply total_bind; [apply total_free_all|intros; apply total_ret]. }
  destruct flight as [blocks|].
  2:{ exists 0%nat. intros m _. rewrite Heq. eexists. eapply bind_some; [exact Ha|done]. }
  destruct (total_ask (Malloc (Z.of_nat (capacity `max` START_BATCH) * settled_size)) e1) as [[[st e2] t2] Hst].
  destruct st as [st|].
  2:{ exists 0%nat. intros m _. rewrite Heq.
      destruct (total_bind (free_all (reverse blocks)) (λ _, mret false) (total_free_all _) (λ _, total_ret false) e2)
        as [[[r e3] t3] Hr].
      eexists. eapply bind_some; [exact Ha|]. eapply bind_some; [exact Hst|exact Hr]. }
  destruct (loop_ends capacity e2 Hsm Hcap) as [n Hn]. exists n. intros m Hm.
  destruct (Hn m Hm) as [[[[] e3] t3] Hl]. destruct (Hfree blocks st e3) as [[[r e4] t4] Hr].
  rewrite Heq. eexists. eapply bind_some; [exact Ha|]. eapply bind_some; [exact Hst|].
  eapply bind_some; [exact Hl|exact Hr].
Qed.
End Progress.

Lemma loop_thread_terminates_witness :
  ∃ n, ∀ m, (n ≤ m)%nat → is_Some (loop_thread Windows 24 40 m 2 three_ports).
Proof. refine (loop_thread_terminates Windows 24 40 2 three_ports _ _); [by vm_compute|lia]. Defined.
