(* ===== verification/Shared.v ===== *)
(** * connects.zig: what a run's loops share

    The source and the window behind one lock ([Shared]): its methods as
    programs that call the source, and how they answer what the loops of
    Connects.v ask.  A method runs under the lock from end to end, so the
    loops' calls come one at a time; the atomics are read without it, and a
    read may be late. *)
From S2P Require Import Prelude Words Targets Sys Script NsSocket TcpProbe Window Held Probe Connects.
Open Scope Z_scope.

(** The wait cap and the last answer are the two atomics behind
    [Shared.cut]; times fit the i64 they are stored in. *)
Record Shared := {
  sh_loops : Z;
  sh_window : Window;
  sh_wait_cap_ms : Z;
  sh_last_cuttable_answer_ns : Z;
  sh_unconfirmed : list Job;
  sh_starved : bool
}.

(** A fresh one, around the source. *)
Definition shared_init (loops : Z) (window : Window) : Shared :=
  {| sh_loops := loops; sh_window := window; sh_wait_cap_ms := NO_CAP; sh_last_cuttable_answer_ns := 0;
     sh_unconfirmed := []; sh_starved := false |}.

Definition set_window (window : Window) (self : Shared) : Shared :=
  {| sh_loops := sh_loops self; sh_window := window; sh_wait_cap_ms := sh_wait_cap_ms self;
     sh_last_cuttable_answer_ns := sh_last_cuttable_answer_ns self;
     sh_unconfirmed := sh_unconfirmed self; sh_starved := sh_starved self |}.

Definition set_cap (cap : Z) (self : Shared) : Shared :=
  {| sh_loops := sh_loops self; sh_window := sh_window self; sh_wait_cap_ms := cap;
     sh_last_cuttable_answer_ns := sh_last_cuttable_answer_ns self;
     sh_unconfirmed := sh_unconfirmed self; sh_starved := sh_starved self |}.

Definition set_last_answer (now : Z) (self : Shared) : Shared :=
  {| sh_loops := sh_loops self; sh_window := sh_window self; sh_wait_cap_ms := sh_wait_cap_ms self;
     sh_last_cuttable_answer_ns := now;
     sh_unconfirmed := sh_unconfirmed self; sh_starved := sh_starved self |}.

Definition hold_back (job : Job) (self : Shared) : Shared :=
  {| sh_loops := sh_loops self; sh_window := sh_window self; sh_wait_cap_ms := sh_wait_cap_ms self;
     sh_last_cuttable_answer_ns := sh_last_cuttable_answer_ns self;
     sh_unconfirmed := sh_unconfirmed self ++ [job]; sh_starved := sh_starved self |}.

Definition set_starved (self : Shared) : Shared :=
  {| sh_loops := sh_loops self; sh_window := sh_window self; sh_wait_cap_ms := sh_wait_cap_ms self;
     sh_last_cuttable_answer_ns := sh_last_cuttable_answer_ns self;
     sh_unconfirmed := sh_unconfirmed self; sh_starved := true |}.

(** The share of the window one loop may hold. *)
Definition share (self : Shared) : Z := Z.max 1 (w_size (sh_window self) / sh_loops self).

(** A connect that may be cut short. *)
Definition cuttable (job : Job) : bool :=
  match t_cut_floor_ms (j_target job) with Some _ => true | None => false end.

Section Methods.
Context {Src : Type} `{Env Src}.
(** Whether the source has a waitCap. *)
Variable has_wait_cap : bool.

(** take *)
Definition shared_take (in_flight : nat) (self : Shared) : M Src Take :=
  if Z.of_nat in_flight >=? share self then mret TakeFull
  else
    job ← ask SourceNext;
    mret match job with Some job => TakeJob job | None => TakeDry end.

(** A checked operation: [None] is an overflow. *)
Definition checked {A} (a : option A) : M Src A :=
  λ s, match a with Some a => Some (a, s, []) | None => None end.

(** What is reported of one verdict, or held back. *)
Definition outcome_of (s : Settled) (self : Shared) : M Src (option Outcome * Shared) :=
  match s_verdict s with
  | v_unconfirmed =>
    room ← ask (AppendJob (s_job s));
    mret (if (room : bool) then (None, hold_back (s_job s) self) else (Some open, self))
  | verdict => mret (Some (alone verdict), self)
  end.

(** One round of done's for. *)
Definition done_one (now_ns : Z) (s : Settled) (self : Shared) : M Src Shared :=
  '(outcome, self) ← outcome_of s self;
  match outcome with
  | None => mret self
  | Some outcome =>
    window ← checked (observe outcome (s_elapsed_us s) now_ns (sh_window self));
    let self := set_window window self in
    ask (SourceDone (s_job s) outcome (s_elapsed_us s));;
    mret (if negb (bool_decide (outcome = filtered)) && cuttable (s_job s)
          then set_last_answer now_ns self else self)
  end.

Fixpoint done_each (now_ns : Z) (settled : list Settled) (self : Shared) : M Src Shared :=
  match settled with
  | [] => mret self
  | s :: settled => self ← done_one now_ns s self; done_each now_ns settled self
  end.

(** done *)
Definition shared_done (settled : list Settled) (now_ns : Z) (self : Shared) : M Src Shared :=
  match settled with
  | [] => mret self
  | _ =>
    self ← done_each now_ns settled self;
    if has_wait_cap then cap ← ask SourceWaitCap; mret (set_cap (default NO_CAP cap) self)
    else mret self
  end.

(** ** How the loops are served *)

(** Not of the state the loops share, or a read of an atomic whose value
    decides only how long a loop waits. *)
Definition own (ev : event) : Prop :=
  match ev with
  | Ev (TakeNext _) _ | Ev (ReportDone _ _) _ | Ev LoadStarved _ | Ev StoreStarved _ => False
  | _ => True
  end.

(** [served sh ev sh' u]: the shared state answers one request of a loop,
    asking the source [u]. *)
Inductive served : Shared → event → Shared → list event → Prop :=
| served_take n r sh s s' u :
    shared_take n sh s = Some (r, s', u) → served sh (Ev (TakeNext n) r) sh u
| served_done batch now sh sh' s s' u :
    shared_done batch now sh s = Some (sh', s', u) → served sh (Ev (ReportDone batch now) ()) sh' u
| served_store sh : served sh (Ev StoreStarved ()) (set_starved sh) []
| served_load b sh : (b = true → sh_starved sh = true) → served sh (Ev LoadStarved b) sh []
| served_own ev sh : own ev → served sh ev sh [].

(** A whole log of the loops, in the order in which they got the lock. *)
Inductive serves : Shared → list event → Shared → list event → Prop :=
| serves_nil sh : serves sh [] sh []
| serves_cons sh ev sh1 u t sh2 v :
    served sh ev sh1 u → serves sh1 t sh2 v → serves sh (ev :: t) sh2 (u ++ v).
End Methods.

(** Jobs the source hands out, and jobs reported to it. *)
Definition given (ev : event) : list Job :=
  match ev with
  | Ev c r =>
    match c in call T return T → list Job with
    | SourceNext => λ r, option_list r
    | _ => λ _, []
    end r
  end.

Definition told (ev : event) : list Job :=
  match ev with Ev (SourceDone job _ _) _ => [job] | _ => [] end.

(** A run's log holds its source's calls in order. *)
Definition of_source (ev : event) : bool :=
  match ev with Ev SourceNext _ | Ev (SourceDone _ _ _) _ | Ev SourceWaitCap _ => true | _ => false end.

Lemma given_source t : flat_map given t = flat_map given (filter of_source t).
Proof.
  induction t as [|ev t IH]; [done|]. rewrite filter_cons. simpl. rewrite IH.
  case_decide as Hev; [done|]. destruct ev as [A c r]. destruct c; try done; by destruct Hev.
Qed.

Lemma told_source t : flat_map told t = flat_map told (filter of_source t).
Proof.
  induction t as [|ev t IH]; [done|]. rewrite filter_cons. simpl. rewrite IH.
  case_decide as Hev; [done|]. destruct ev as [A c r]. destruct c; try done; by destruct Hev.
Qed.

Lemma source_covers t : covers given told [] t → covers given told [] (filter of_source t).
Proof.
  intros Hc p s Heq. apply filter_split in Heq as (t1 & t2 & -> & <- & <-). destruct (Hc t1 t2 eq_refl) as [rest Hr].
  exists rest. by rewrite <- given_source, <- told_source.
Qed.

(** The requests by which a loop learns, or says, that the run is given up,
    and that the source is dry. *)
Definition starved_ev (ev : event) : bool :=
  match ev with
  | Ev c r =>
    match c in call T return T → bool with
    | LoadStarved => λ r, r
    | StoreStarved => λ _, true
    | _ => λ _, false
    end r
  end.

Definition dry_ev (ev : event) : bool :=
  match ev with
  | Ev c r =>
    match c in call T return T → bool with
    | TakeNext _ => λ r, match r with TakeDry => true | _ => false end
    | _ => λ _, false
    end r
  end.

Lemma starved_in_ev t : starved_in t → ∃ ev, ev ∈ t ∧ starved_ev ev = true.
Proof. intros [Hin|Hin]; by eexists. Qed.

Lemma drained_ev t : drained t → (∃ ev, ev ∈ t ∧ dry_ev ev = true) ∨ ∃ ev, ev ∈ t ∧ starved_ev ev = true.
Proof. intros [[n Hin]|Hs]; [left; by eexists|right; by apply starved_in_ev]. Qed.

(** The round trips a batch is reported with. *)
Definition round_trips (ev : event) : list Z :=
  match ev with Ev (ReportDone batch _) _ => map s_elapsed_us batch | _ => [] end.

(** The number of connects a loop had going when it got one more. *)
Definition going (ev : event) : option nat :=
  match ev with
  | Ev c r =>
    match c in call T return T → option nat with
    | TakeNext n => λ r, match r with TakeJob _ => Some n | _ => None end
    | _ => λ _, None
    end r
  end.

(** Logs of several threads, interleaved. *)
Inductive merged {A} : list (list A) → list A → Prop :=
| merged_none : merged [] []
| merged_idle ts t : merged ts t → merged ([] :: ts) t
| merged_step ts1 ev t1 ts2 t : merged (ts1 ++ t1 :: ts2) t → merged (ts1 ++ (ev :: t1) :: ts2) (ev :: t).

Lemma merged_perm {A} (ts : list (list A)) t : merged ts t → concat ts ≡ₚ t.
Proof.
  induction 1 as [|ts t _ IH|ts1 ev t1 ts2 t _ IH]; [done|exact IH|].
  rewrite <- IH, !concat_app. simpl. symmetry. apply Permutation_middle.
Qed.

(** Interleaved logs that are each covered are covered together. *)
Lemma merged_covers ts t : merged ts t → ∀ haves,
  Forall2 (covers takes reports) haves ts → covers takes reports (concat haves) t.
Proof.
  induction 1 as [|ts t _ IH|ts1 ev t1 ts2 t _ IH]; intros haves Hh.
  - apply Forall2_nil_inv_r in Hh as ->. by apply covers_gets_only.
  - apply Forall2_cons_inv_r in Hh as (a & haves' & _ & Hh & ->). simpl. by apply covers_frame, IH.
  - apply Forall2_app_inv_r in Hh as (h1 & h2 & H1 & Hh & ->).
    apply Forall2_cons_inv_r in Hh as (a & h3 & Ha & H3 & ->).
    apply covers_cons in Ha as (b & Hb & Hc). rewrite concat_app. simpl.
    apply (covers_step _ _ _ _ (concat (h1 ++ b :: h3))).
    + rewrite concat_app. simpl. transitivity ((a ++ takes ev) ++ concat h1 ++ concat h3); [solve_Permutation|].
      rewrite Hb. solve_Permutation.
    + apply IH, Forall2_app; [done|by constructor].
Qed.

Lemma merged_covers_all ts t : merged ts t → Forall (covers takes reports []) ts → covers takes reports [] t.
Proof.
  intros Hm Hts. assert (concat (map (λ _, []) ts) = @nil Job) as <- by (clear; by induction ts).
  apply (merged_covers _ _ Hm). clear Hm. induction Hts; by constructor.
Qed.

Section Serving.
Context {Src : Type} `{Env Src}.
Variable has_wait_cap : bool.

(** A loop that holds nothing always gets a share: what a loop's
    termination asks of the state it shares. *)
Lemma shared_take_share (sh : Shared) (s : Src) s' u : shared_take 0 sh s ≠ Some (TakeFull, s', u).
Proof.
  unfold shared_take. destruct (_ >=? _) eqn:Hfull.
  - rewrite Z.geb_leb in Hfull. to_prop. unfold share in Hfull. lia.
  - intros (job & s1 & t1 & t2 & _ & Hr & _)%bind_inv. apply ret_inv in Hr as [Hr _]. by destruct job.
Qed.

(** ** What the source is told *)

Lemma shared_take_run n (sh : Shared) (s : Src) r s' u :
  shared_take n sh s = Some (r, s', u) →
  flat_map given u = takes (Ev (TakeNext n) r) ∧ flat_map told u = [] ∧
  (r = TakeDry → Ev SourceNext None ∈ u) ∧ (∀ job, r = TakeJob job → Z.of_nat n < share sh).
Proof.
  intros Hr. unfold shared_take in Hr. destruct (_ >=? _) eqn:Hfull.
  { run_inv. done. }
  apply bind_inv in Hr as (job & s1 & t1 & t2 & [_ ->]%ask_inv & Hr & ->). apply ret_inv in Hr as (-> & -> & ->).
  rewrite Z.geb_leb in Hfull. to_prop. destruct job; simpl; (split; [done|split; [done|split]]); try done; intros; try lia.
  in_list.
Qed.

Lemma checked_inv {A} (a : option A) (s : Src) b s' u :
  checked a s = Some (b, s', u) → a = Some b ∧ s' = s ∧ u = [].
Proof. unfold checked. destruct a; naive_solver. Qed.

Lemma outcome_of_run x (sh : Shared) (s : Src) o sh' s' u :
  outcome_of x sh s = Some ((o, sh'), s', u) →
  flat_map given u = [] ∧ flat_map told u = [] ∧ sh_starved sh' = sh_starved sh ∧
  sh_window sh' = sh_window sh ∧ sh_loops sh' = sh_loops sh ∧
  match o with
  | Some o => sh_unconfirmed sh' = sh_unconfirmed sh ∧ o = alone (s_verdict x)
  | None => sh_unconfirmed sh' = sh_unconfirmed sh ++ [s_job x] ∧ s_verdict x = v_unconfirmed
  end.
Proof.
  intros Hr. unfold outcome_of in Hr. destruct (s_verdict x).
  4:{ apply bind_inv in Hr as (room & s1 & t1 & t2 & [_ ->]%ask_inv & Hr & ->).
      destruct room; apply ret_inv in Hr as ([= -> ->] & -> & ->); done. }
  all: apply ret_inv in Hr as ([= -> ->] & -> & ->); done.
Qed.

(** A part of [done]: the jobs reported go to the source or are held back. *)
Definition done_ok (jobs : list Job) (sh sh' : Shared) (u : list event) : Prop :=
  flat_map given u = [] ∧ sh_starved sh' = sh_starved sh ∧ sh_loops sh' = sh_loops sh ∧
  sh_unconfirmed sh ++ jobs ≡ₚ flat_map told u ++ sh_unconfirmed sh'.

Lemma done_one_run now x (sh : Shared) (s : Src) sh' s' u :
  done_one now x sh s = Some (sh', s', u) → done_ok [s_job x] sh sh' u.
Proof.
  intros Hr. unfold done_one in Hr. apply bind_inv in Hr as ([o sh1] & s1 & t1 & t2 & Ho & Hr & ->).
  apply outcome_of_run in Ho as (Hg & Hd & Hst & _ & Hl & Ho). destruct o as [o|]; destruct Ho as [Hun _].
  2:{ apply ret_inv in Hr as (-> & -> & ->). rewrite app_nil_r. unfold done_ok. by rewrite Hg, Hd, Hun. }
  apply bind_inv in Hr as (w & s2 & t3 & t4 & Hw & Hr & ->). apply checked_inv in Hw as (_ & -> & ->).
  apply bind_inv in Hr as ([] & s3 & t5 & t6 & [_ ->]%ask_inv & Hr & ->). apply ret_inv in Hr as (-> & -> & ->).
  unfold done_ok. rewrite !flat_map_app, Hg, Hd.
  destruct (_ && _); simpl; rewrite Hun; (split; [done|]; split; [done|]; split; [done|]); solve_Permutation.
Qed.

Lemma done_ok_app jobs1 jobs2 sh sh1 sh2 u v :
  done_ok jobs1 sh sh1 u → done_ok jobs2 sh1 sh2 v → done_ok (jobs1 ++ jobs2) sh sh2 (u ++ v).
Proof.
  intros (Hg1 & Hs1 & Hl1 & Hp1) (Hg2 & Hs2 & Hl2 & Hp2). unfold done_ok. rewrite !flat_map_app, Hg1, Hg2.
  split; [done|]. split; [congruence|]. split; [congruence|].
  rewrite app_assoc, Hp1, <- !app_assoc. by rewrite Hp2.
Qed.

Lemma done_ok_refl sh : done_ok [] sh sh [].
Proof. unfold done_ok. by rewrite app_nil_r. Qed.

Lemma done_each_run now settled : ∀ (sh : Shared) (s : Src) sh' s' u,
  done_each now settled sh s = Some (sh', s', u) → done_ok (map s_job settled) sh sh' u.
Proof.
  induction settled as [|x settled IH]; intros sh s sh' s' u Hr; cbn [done_each] in Hr.
  { run_inv. apply done_ok_refl. }
  apply bind_inv in Hr as (sh1 & s1 & t1 & t2 & H1 & H2 & ->).
  eapply (done_ok_app [s_job x]); [by eapply done_one_run|by eapply IH].
Qed.

Lemma shared_done_run settled now (sh : Shared) (s : Src) sh' s' u :
  shared_done has_wait_cap settled now sh s = Some (sh', s', u) → done_ok (map s_job settled) sh sh' u.
Proof.
  intros Hr. unfold shared_done in Hr. destruct settled as [|x settled].
  { run_inv. apply done_ok_refl. }
  apply bind_inv in Hr as (sh1 & s1 & t1 & t2 & H1 & H2 & ->). apply done_each_run in H1.
  rewrite <- (app_nil_r (map s_job _)). eapply done_ok_app; [exact H1|].
  destruct has_wait_cap; run_inv; [|apply done_ok_refl]. unfold done_ok. simpl. by rewrite app_nil_r.
Qed.

(** ** Whole logs *)

(** What serving [t] comes to. *)
Record serves_ok (t : list event) (sh sh' : Shared) (u : list event) : Prop := {
  so_given : flat_map given u = flat_map takes t;
  so_told : sh_unconfirmed sh ++ flat_map reports t ≡ₚ flat_map told u ++ sh_unconfirmed sh';
  so_starved : sh_starved sh = true ∨ (∃ ev, ev ∈ t ∧ starved_ev ev = true) → sh_starved sh' = true;
  so_dry : (∃ ev, ev ∈ t ∧ dry_ev ev = true) → Ev SourceNext None ∈ u;
  so_loops : sh_loops sh' = sh_loops sh
}.

Lemma serves_ok_nil sh : serves_ok [] sh sh [].
Proof.
  split; try done; simpl; [by rewrite app_nil_r| |].
  - intros [?|(ev & Hin & _)]; [done|by apply not_elem_of_nil in Hin].
  - intros (ev & Hin & _). by apply not_elem_of_nil in Hin.
Qed.

Lemma serves_ok_app t1 t2 sh sh1 sh2 u v :
  serves_ok t1 sh sh1 u → serves_ok t2 sh1 sh2 v → serves_ok (t1 ++ t2) sh sh2 (u ++ v).
Proof.
  intros [G1 T1 S1 D1 L1] [G2 T2 S2 D2 L2]. split.
  - by rewrite !flat_map_app, G1, G2.
  - rewrite !flat_map_app, app_assoc, T1, <- !app_assoc. by rewrite T2.
  - intros [Hs|(ev & [Hin|Hin]%elem_of_app & Hev)]; apply S2; [left|left|right]; eauto.
  - intros (ev & [Hin|Hin]%elem_of_app & Hev); apply elem_of_app; [left|right]; eauto.
  - congruence.
Qed.

Lemma own_nothing ev : own ev → takes ev = [] ∧ reports ev = [] ∧ starved_ev ev = false ∧ dry_ev ev = false.
Proof. destruct ev as [A c r]. by destruct c. Qed.

(** One event. *)
Lemma serves_ok_event ev sh sh' u :
  flat_map given u = takes ev → sh_unconfirmed sh ++ reports ev ≡ₚ flat_map told u ++ sh_unconfirmed sh' →
  (sh_starved sh = true ∨ starved_ev ev = true → sh_starved sh' = true) →
  (dry_ev ev = true → Ev SourceNext None ∈ u) → sh_loops sh' = sh_loops sh → serves_ok [ev] sh sh' u.
Proof.
  intros Hg Ht Hs Hd Hl. split; simpl; rewrite ?app_nil_r; try done.
  - intros [?|(ev' & ->%list_elem_of_singleton & ?)]; auto.
  - intros (ev' & ->%list_elem_of_singleton & ?). auto.
Qed.

Lemma served_serves ev (sh sh' : Shared) u : served has_wait_cap sh ev sh' u → serves_ok [ev] sh sh' u.
Proof.
  intros Hs. destruct Hs as [n r sh s s' u Hr|batch now sh sh' s s' u Hr|sh|b sh Hb|ev sh Ho].
  - apply shared_take_run in Hr as (Hg & Ht & Hd & _). apply serves_ok_event; try done.
    + rewrite Ht. simpl. by rewrite app_nil_r.
    + intros [?|?]; done.
    + simpl. destruct r; try done. auto.
  - apply shared_done_run in Hr as (Hg & Hst & Hl & Hp). apply serves_ok_event; try done.
    rewrite Hst. by intros [?|?].
  - apply serves_ok_event; try done. simpl. by rewrite app_nil_r.
  - apply serves_ok_event; try done; [simpl; by rewrite app_nil_r|]. intros [?|?]; auto.
  - apply own_nothing in Ho as (Ht & Hr & Hs & Hd). apply serves_ok_event; try done.
    + by rewrite Hr, app_nil_r.
    + rewrite Hs. by intros [?|?].
    + by rewrite Hd.
Qed.

(** One request at a time, the source is asked or told, never both. *)
Lemma served_one_way ev (sh sh' : Shared) u :
  served has_wait_cap sh ev sh' u → flat_map told u = [] ∨ flat_map given u = [].
Proof.
  intros Hs. destruct Hs as [n r sh s s' u Hr|batch now sh sh' s s' u Hr|sh|b sh Hb|ev sh Ho]; try by left.
  - apply shared_take_run in Hr as (_ & ? & _). by left.
  - apply shared_done_run in Hr as (? & _). by right.
Qed.

(** The source is told of no job before it gave it out. *)
Lemma serves_covers t (sh sh' : Shared) u :
  serves has_wait_cap sh t sh' u → ∀ a, covers takes reports a t → covers given told (sh_unconfirmed sh ++ a) u.
Proof.
  induction 1 as [sh|sh ev sh1 u t sh2 v Hs _ IH]; intros a Hc; [by apply covers_gets_only|].
  apply covers_cons in Hc as (b & Hb & Hc). pose proof (served_serves _ _ _ _ Hs) as [Hg Ht _ _ _].
  simpl in Hg, Ht. rewrite app_nil_r in Hg, Ht.
  apply (covers_app _ _ _ _ (sh_unconfirmed sh1 ++ b)); [| |by apply IH].
  - by rewrite Hg, <- app_assoc, Hb, app_assoc, Ht, <- app_assoc.
  - destruct (served_one_way _ _ _ _ Hs) as [Hno|Hno]; [by apply covers_gets_only|].
    apply (covers_gives_only _ _ _ _ (sh_unconfirmed sh1 ++ b) Hno). rewrite <- Hg, Hno, app_nil_r in Hb.
    by rewrite Hb, app_assoc, Ht, <- app_assoc.
Qed.

Lemma serves_run t (sh sh' : Shared) u : serves has_wait_cap sh t sh' u → serves_ok t sh sh' u.
Proof.
  induction 1 as [sh|sh ev sh1 u t sh2 v Hs _ IH]; [apply serves_ok_nil|].
  apply (serves_ok_app [ev]) with sh1; [by apply served_serves|done].
Qed.
End Serving.

(** ** The window under the lock *)

Section Bounds.
Context {Src : Type} `{Env Src}.
Variable has_wait_cap : bool.

(** A window of these bounds, after at most [n] verdicts. *)
Definition window_at (lo hi n : Z) (w : Window) : Prop := window_ok n w ∧ w_min w = lo ∧ w_max w = hi.

Lemma window_at_later lo hi n m w : window_at lo hi n w → n <= m → window_at lo hi m w.
Proof. intros ([] & ? & ?) Hm. split; [|done]. split; lia || done. Qed.

Lemma observe_at lo hi n o rtt now w :
  window_at lo hi n w → n < LIMIT → 0 <= rtt <= LIMIT →
  ∃ w', observe o rtt now w = Some w' ∧ window_at lo hi (n + 1) w'.
Proof.
  intros (Hok & Hlo & Hhi) Hn Hr. destruct (window_observe_ok n o rtt now w Hok Hn Hr) as (w' & Ho & Hok' & Hmin & Hmax & _).
  exists w'. split; [done|]. split; [done|]. split; congruence.
Qed.

Lemma done_one_at lo hi n now x (sh : Shared) (s : Src) :
  window_at lo hi n (sh_window sh) → n < LIMIT → 0 <= s_elapsed_us x <= LIMIT →
  ∃ sh' s' u, done_one now x sh s = Some (sh', s', u) ∧ window_at lo hi (n + 1) (sh_window sh').
Proof.
  intros Hw Hn He. unfold done_one.
  assert (total (outcome_of (Src := Src) x sh)) as Ht by (unfold outcome_of; solve_total).
  destruct (Ht s) as [[[[o sh1] s1] t1] Ho]. pose proof Ho as (_ & _ & _ & Hw1 & _)%outcome_of_run.
  rewrite <- Hw1 in Hw. destruct o as [o|].
  2:{ do 3 eexists. split; [by eapply bind_some|]. eapply window_at_later; [done|lia]. }
  destruct (observe_at lo hi n o (s_elapsed_us x) now (sh_window sh1) Hw Hn He) as (w & Hobs & Hw').
  destruct (total_ask (SourceDone (s_job x) o (s_elapsed_us x)) s1) as [[[r s2] t2] Hdone].
  do 3 eexists. split.
  - eapply bind_some; [exact Ho|]. eapply bind_some; [unfold checked; by rewrite Hobs|].
    eapply bind_some; [exact Hdone|done].
  - by destruct (_ && _).
Qed.

Lemma done_each_at lo hi now settled : ∀ n (sh : Shared) (s : Src),
  window_at lo hi n (sh_window sh) → n + Z.of_nat (length settled) <= LIMIT →
  Forall (λ x, 0 <= s_elapsed_us x <= LIMIT) settled →
  ∃ sh' s' u, done_each now settled sh s = Some (sh', s', u) ∧
    window_at lo hi (n + Z.of_nat (length settled)) (sh_window sh').
Proof.
  induction settled as [|x settled IH]; intros n sh s Hw Hn He.
  { exists sh, s, []. split; [done|]. eapply window_at_later; [done|simpl; lia]. }
  apply Forall_cons in He as [Hx He]. cbn [length] in *.
  destruct (done_one_at lo hi n now x sh s Hw ltac:(lia) Hx) as (sh1 & s1 & u1 & H1 & Hw1).
  destruct (IH (n + 1) sh1 s1 Hw1 ltac:(lia) He) as (sh2 & s2 & u2 & H2 & Hw2).
  exists sh2, s2, (u1 ++ u2). split; [by eapply bind_some|]. eapply window_at_later; [done|lia].
Qed.

(** Every batch is taken in: no sum overflows. *)
Lemma shared_done_at lo hi now settled n (sh : Shared) (s : Src) :
  window_at lo hi n (sh_window sh) → n + Z.of_nat (length settled) <= LIMIT →
  Forall (λ x, 0 <= s_elapsed_us x <= LIMIT) settled →
  ∃ sh' s' u, shared_done has_wait_cap settled now sh s = Some (sh', s', u) ∧
    window_at lo hi (n + Z.of_nat (length settled)) (sh_window sh').
Proof.
  intros Hw Hn He. unfold shared_done. destruct settled as [|x settled].
  { exists sh, s, []. split; [done|]. eapply window_at_later; [done|simpl; lia]. }
  destruct (done_each_at lo hi now (x :: settled) n sh s Hw Hn He) as (sh1 & s1 & u1 & H1 & Hw1).
  assert (∃ sh2 s2 u2, (if has_wait_cap then cap ← ask SourceWaitCap; mret (set_cap (default NO_CAP cap) sh1)
    else mret sh1) s1 = Some (sh2, s2, u2) ∧ sh_window sh2 = sh_window sh1) as (sh2 & s2 & u2 & H2 & Heq).
  { destruct has_wait_cap; [|by exists sh1, s1, []].
    destruct (total_ask SourceWaitCap s1) as [[[cap s2] t2] Hcap].
    do 3 eexists. split; [by eapply bind_some|done]. }
  exists sh2, s2, (u1 ++ u2). split; [by eapply bind_some|]. by rewrite Heq.
Qed.

Lemma served_at lo hi n ev (sh sh' : Shared) u :
  served has_wait_cap sh ev sh' u → window_at lo hi n (sh_window sh) →
  n + Z.of_nat (length (reports ev)) <= LIMIT → Forall (λ us, 0 <= us <= LIMIT) (round_trips ev) →
  window_at lo hi (n + Z.of_nat (length (reports ev))) (sh_window sh') ∧
  ∀ k, going ev = Some k → Z.of_nat k < share sh.
Proof.
  intros Hs Hw Hn He. destruct Hs as [k r sh s s' u Hr|batch now sh sh' s s' u Hr|sh|b sh Hb|ev sh Ho].
  - split; [eapply window_at_later; [done|simpl; lia]|]. apply shared_take_run in Hr as (_ & _ & _ & Hr).
    simpl. destruct r as [job| |]; try done. intros ? [= <-]. by eapply Hr.
  - split; [|done]. simpl in *. rewrite length_map in *. apply Forall_map in He.
    destruct (shared_done_at lo hi now batch n sh s Hw Hn He) as (sh2 & s2 & u2 & H2 & Hw2).
    by simplify_eq.
  - split; [eapply window_at_later; [done|simpl; lia]|done].
  - split; [eapply window_at_later; [done|simpl; lia]|done].
  - split; [eapply window_at_later; [done|lia]|]. destruct ev as [A c r]. by destruct c.
Qed.

Lemma share_at lo hi n (sh : Shared) loops :
  0 < loops → sh_loops sh = loops → window_at lo hi n (sh_window sh) → share sh <= Z.max 1 (hi / loops).
Proof.
  intros Hl <- ([] & _ & <-). unfold share. apply Z.max_le_compat_l, Z.div_le_mono; lia.
Qed.

Lemma serves_at lo hi loops : 0 < loops → ∀ t (sh sh' : Shared) u,
  serves has_wait_cap sh t sh' u → ∀ n, sh_loops sh = loops → window_at lo hi n (sh_window sh) →
  n + Z.of_nat (length (flat_map reports t)) <= LIMIT → Forall (λ us, 0 <= us <= LIMIT) (flat_map round_trips t) →
  window_at lo hi (n + Z.of_nat (length (flat_map reports t))) (sh_window sh') ∧
  ∀ ev k, ev ∈ t → going ev = Some k → Z.of_nat k < Z.max 1 (hi / loops).
Proof.
  intros Hl t sh sh' u Hs. induction Hs as [sh|sh ev sh1 u t sh2 v Hs _ IH]; intros n Hlo Hw Hn He; simpl in *.
  { split; [eapply window_at_later; [done|lia]|]. intros ev k []%not_elem_of_nil. }
  rewrite length_app in *. apply Forall_app in He as [He1 He2].
  pose proof (so_loops _ _ _ _ (served_serves _ _ _ _ _ Hs)) as Hl1.
  destruct (served_at lo hi n ev sh sh1 u Hs Hw ltac:(lia) He1) as [Hw1 Hg].
  destruct (IH (n + Z.of_nat (length (reports ev)))) as [Hw2 Hg2]; [congruence|done|lia|done|].
  split; [eapply window_at_later; [done|lia]|]. intros ev' k [->|Hin]%elem_of_cons Hk; [|by eapply Hg2].
  specialize (Hg k Hk). pose proof (share_at lo hi n sh loops Hl Hlo Hw). lia.
Qed.

(** what the loops may ask for.  Whatever the order of their calls, the
    window they share stays between its least size and its limit, and a loop
    is handed one more connect only while it holds less than its share of
    the largest window: never more than the limit between them, or one
    each. *)
Theorem shared_bounds lo hi pace w loops t sh u :
  window_init lo hi pace = Some w → hi <= LIMIT → 0 < loops →
  serves has_wait_cap (shared_init loops w) t sh u →
  Z.of_nat (length (flat_map reports t)) <= LIMIT → Forall (λ us, 0 <= us <= LIMIT) (flat_map round_trips t) →
  lo <= w_size (sh_window sh) <= hi ∧
  ∀ ev k, ev ∈ t → going ev = Some k → Z.of_nat k < Z.max 1 (hi / loops).
Proof.
  intros Hi Hm Hl Hs Hn He. pose proof Hi as (Hok & Hmin & Hmax & _)%window_init_ok; [|done].
  destruct (serves_at lo (w_max w) loops Hl t _ _ _ Hs 0) as [([] & Hlo & Hhi) Hg]; try done.
  split; [lia|]. intros ev k Hin Hk. specialize (Hg ev k Hin Hk).
  pose proof (Z.div_le_mono (w_max w) hi loops Hl Hmax). lia.
Qed.
End Bounds.

(** ** Running it *)

Section Serve.
Context {Src : Type} `{Env Src}.
Variable has_wait_cap : bool.

(** Serves a log that is already there: no answer when one of its own
    answers is not what the shared state would have said. *)
Definition serve_one (ev : event) (sh : Shared) : M Src Shared :=
  match ev with
  | Ev c r =>
    match c in call T return T → M Src Shared with
    | TakeNext n => λ r, x ← shared_take n sh; if decide (x = r) then mret sh else λ _, None
    | ReportDone batch now => λ _, shared_done has_wait_cap batch now sh
    | StoreStarved => λ _, mret (set_starved sh)
    | LoadStarved => λ b, if b && negb (sh_starved sh) then λ _, None else mret sh
    | _ => λ _, mret sh
    end r
  end.

Fixpoint serve_log (t : list event) (sh : Shared) : M Src Shared :=
  match t with
  | [] => mret sh
  | ev :: t => sh ← serve_one ev sh; serve_log t sh
  end.

Lemma serve_one_sound ev (sh : Shared) (s : Src) sh' s' u :
  serve_one ev sh s = Some (sh', s', u) → served has_wait_cap sh ev sh' u.
Proof.
  intros Hr. destruct ev as [A c r]. destruct c; simpl in Hr;
    try (apply ret_inv in Hr as (-> & -> & ->); by constructor).
  - apply bind_inv in Hr as (x & s1 & t1 & t2 & Hx & Hr & ->). destruct (decide (x = r)) as [->|]; [|done].
    apply ret_inv in Hr as (-> & -> & ->). rewrite app_nil_r. by econstructor.
  - destruct r. by econstructor.
  - destruct (r && _) eqn:Hb; [done|]. apply ret_inv in Hr as (-> & -> & ->). constructor. intros ->.
    by destruct (sh_starved sh).
  - apply ret_inv in Hr as (-> & -> & ->). destruct r. constructor.
Qed.

Lemma serve_log_sound t : ∀ (sh : Shared) (s : Src) sh' s' u,
  serve_log t sh s = Some (sh', s', u) → serves has_wait_cap sh t sh' u.
Proof.
  induction t as [|ev t IH]; intros sh s sh' s' u Hr; cbn [serve_log] in Hr.
  { apply ret_inv in Hr as (-> & -> & ->). constructor. }
  apply bind_inv in Hr as (sh1 & s1 & t1 & t2 & H1 & H2 & ->).
  econstructor; [by eapply serve_one_sound|by eapply IH].
Qed.
End Serve.

(** Two loops, a window of two to eight: each gets one connect, the second
    is told that it has its share, and the first reports. *)
Definition two_loops : list event :=
  [Ev (TakeNext 0) (TakeJob (port_job 0 22)); Ev (TakeNext 0) (TakeJob (port_job 1 23));
   Ev (TakeNext 1) TakeFull;
   Ev (ReportDone [{| s_job := port_job 0 22; s_verdict := v_refused; s_elapsed_us := 900 |}] 5000) ()].

Lemma shared_bounds_witness :
  ∃ w sh u, window_init 2 8 adaptive = Some w ∧ serves true (shared_init 2 w) two_loops sh u ∧
    w_size (sh_window sh) = 3 ∧ 2 <= w_size (sh_window sh) <= 8 ∧
    ∀ ev k, ev ∈ two_loops → going ev = Some k → Z.of_nat k < Z.max 1 (8 / 2).
Proof.
  eexists _, _, _. split; [reflexivity|].
  split; [refine (serve_log_sound true two_loops _ three_ports _ _ _ _); vm_compute; reflexivity|].
  split; [reflexivity|].
  refine (shared_bounds true 2 8 adaptive _ 2 two_loops _ _ _ _ _ _ _ _);
    [reflexivity|done|lia|refine (serve_log_sound true two_loops _ three_ports _ _ _ _); vm_compute; reflexivity|done|].
  simpl. apply Forall_singleton. unfold LIMIT. lia.
Defined.
