(* ===== verification/Run.v ===== *)
(** * connects.zig: a run

    How many connects may go in flight ([inFlightLimit]) on how many threads
    ([loopCount]), a run's start and end, and the run as a whole: its loops
    (Connects.v) in any interleaving over what they share (Shared.v), then
    the connects left to confirm, one at a time ([connectOnce]). *)
From S2P Require Import Prelude Words Targets Sys Script NsSocket TcpProbe Window Held Probe Connects ConnectsLive Shared.
Open Scope Z_scope.

Definition MAX_IN_FLIGHT : Z := 1024.
Definition RESERVED_FDS : Z := 64.

Definition POOL_PACE (os : platform) : Z := match os with MacOS => 128 | _ => 256 end.

(** MAX_LOOPS, MAX_LOOPS_MACOS and MAX_LOOPS_WINDOWS *)
Definition max_loops (os : platform) : Z := match os with Linux => 8 | MacOS => 3 | Windows => 4 end.

(** std.posix.RLIM.INFINITY *)
Definition RLIM_INFINITY (os : platform) : Z :=
  match os with MacOS => 9223372036854775807 | _ => 18446744073709551615 end.

Inductive run_result := run_ok | out_of_memory | out_of_sockets.

#[export] Instance run_result_eq_dec : EqDecision run_result.
Proof. solve_decision. Defined.

Section Run.
Context {E : Type} `{Env E}.
Variable os : platform.

(** On Linux and macOS. *)
Definition posix_limit : M E Z :=
  let wanted := MAX_IN_FLIGHT + RESERVED_FDS in
  limits ← ask GetRlimit;
  match limits with
  | Err _ => mret (MAX_IN_FLIGHT / 8)
  | Ok (cur, max) =>
    cur ←
      (if negb (cur =? RLIM_INFINITY os) && (cur <? wanted) then
         let raised := if max =? RLIM_INFINITY os then wanted else Z.min wanted max in
         r ← ask (SetRlimit raised max);
         mret (if sys_ok r then raised else cur)
       else mret cur);
    mret (if (cur =? RLIM_INFINITY os) || (cur >=? wanted) then MAX_IN_FLIGHT
          else if cur <=? 2 * RESERVED_FDS then Z.max 1 (cur / 2)
          else cur - RESERVED_FDS)
  end.

Definition inFlightLimit : M E Z :=
  match os with Windows => mret MAX_IN_FLIGHT | _ => posix_limit end.

Definition loopCount : M E Z :=
  cpus ← ask CpuCount;
  let cpus := match cpus with Ok n => n | Err _ => 1 end in
  mret (Z.max 1 (Z.min (cpus / 2) (max_loops os))).

(** The start of [run]: what its loops share, how many of them there are
    at most, and the capacity of each. *)
Definition run_setup (pace : Pace) : M E (Shared * Z * nat) :=
  limit ← inFlightLimit;
  count ← loopCount;
  let loops := Z.min count limit in
  window ← checked (window_init (Z.max loops (Z.min (POOL_PACE os) limit)) limit pace);
  mret (shared_init loops window, loops, Z.to_nat ((limit + loops - 1) / loops)).

(** The connects to confirm, one at a time. *)
Fixpoint confirm (fuel : nat) (jobs : list Job) : M E unit :=
  match jobs with
  | [] => mret ()
  | job :: jobs =>
    started ← nowNs;
    outcome ← connectOnce os fuel (j_target job);
    finished ← nowNs;
    ask (SourceDone job outcome (elapsedUs started finished));;
    confirm fuel jobs
  end.

(** The end of [run], all loops being over: [first] is what the loop on its
    own thread returned. *)
Definition run_end (fuel : nat) (first : bool) (shared : Shared) : M E run_result :=
  if negb first then mret out_of_memory
  else if sh_starved shared then mret out_of_sockets
  else confirm fuel (sh_unconfirmed shared);; mret run_ok.

Variable has_wait_cap : bool.
Variables (job_size settled_size : Z) (fuel : nat).

(** A run of [run]: its loops (its own thread's first, then as many of the
    others as could be started, each in an environment of its own that the
    others change) interleave in any way, and are served one request at a
    time.  [source] is what the source is asked and told, [sys] what the
    machine is. *)
Inductive run_of (pace : Pace) : run_result → list event → list event → Prop :=
| runs_all e0 shared0 loops capacity e1 t0 first log others t shared u e2 res e3 t1 :
    run_setup pace e0 = Some ((shared0, loops, capacity), e1, t0) →
    Z.of_nat (S (length others)) <= loops →
    Forall (λ '(r, t), ∃ e e', loop_thread os job_size settled_size fuel capacity e = Some (r, e', t))
      ((first, log) :: others) →
    merged (log :: map snd others) t →
    serves (Src := E) has_wait_cap shared0 t shared u →
    run_end fuel first shared e2 = Some (res, e3, t1) →
    run_of pace res (u ++ t1) (t0 ++ t ++ t1).
End Run.

(** The soft open-file limit is never above the hard one. *)
Class RlimitLaw (E : Type) `{Env E} :=
  rlimit_range : ∀ (e e' : E) cur max, env_step GetRlimit e = (Ok (cur, max), e') → 0 <= cur <= max.

#[export] Instance script_rlimit : RlimitLaw script.
Proof. intros e e' cur max Hs. cbn in Hs. simplify_eq. lia. Qed.

Section Limits.
Context {E : Type} `{Env E} `{!RlimitLaw E}.
Variable os : platform.

(** What the requests to the system were, for a limit of [r]. *)
Definition limit_reason (r : Z) (t : list event) : Prop :=
  (∃ err, t = [Ev GetRlimit (Err err)] ∧ r = 128) ∨
  ∃ cur max soft, cur <= soft <= max ∧
    (t = [Ev GetRlimit (Ok (cur, max))] ∧ soft = cur ∨
     ∃ raised x, t = [Ev GetRlimit (Ok (cur, max)); Ev (SetRlimit raised max) x] ∧ cur <= raised <= max ∧
       soft = if sys_ok x then raised else cur) ∧
    (r + RESERVED_FDS <= soft ∨ soft <= 2 * RESERVED_FDS ∧ r = Z.max 1 (soft / 2)).

Lemma posix_limit_run (e : E) r e' t :
  posix_limit os e = Some (r, e', t) → 1 <= r <= MAX_IN_FLIGHT ∧ limit_reason r t.
Proof.
  intros Hp.
  unfold posix_limit in Hp. apply bind_inv in Hp as (lim & e1 & t1 & t2 & [Hlim ->]%ask_inv & Hp & ->).
  destruct lim as [[cur max]|err].
  2:{ apply ret_inv in Hp as (-> & -> & ->). split; [by vm_compute|]. left. by exists err. }
  apply rlimit_range in Hlim. apply bind_inv in Hp as (soft & e2 & t3 & t4 & Hs & Hp & ->).
  apply ret_inv in Hp as (-> & -> & ->). rewrite app_nil_r.
  assert (Hsoft : cur <= soft <= max ∧ (t3 = [] ∧ soft = cur ∨
    ∃ raised x, t3 = [Ev (SetRlimit raised max) x] ∧ cur <= raised <= max ∧ soft = if sys_ok x then raised else cur)).
  { destruct (_ && _) eqn:Hlow.
    2:{ apply ret_inv in Hs as (-> & -> & ->). split; [lia|by left]. }
    to_prop. apply bind_inv in Hs as (x & e3 & t5 & t6 & [_ ->]%ask_inv & Hs & ->).
    apply ret_inv in Hs as (-> & -> & ->).
    set (raised := if max =? RLIM_INFINITY os then _ else _) in *.
    assert (cur <= raised <= max) as Hraised.
    { subst raised. destruct (max =? _) eqn:Hinf; to_prop; [|lia].
      subst max. unfold RLIM_INFINITY, MAX_IN_FLIGHT, RESERVED_FDS in *. destruct os; lia. }
    clearbody raised. split; [destruct (sys_ok x); lia|]. right. by exists raised, x. }
  clear Hs. destruct Hsoft as [Hle Ht].
  assert (Hr : ∀ q, q = (if (soft =? RLIM_INFINITY os) || (soft >=? MAX_IN_FLIGHT + RESERVED_FDS) then MAX_IN_FLIGHT
    else if soft <=? 2 * RESERVED_FDS then Z.max 1 (soft / 2) else soft - RESERVED_FDS) →
    1 <= q <= MAX_IN_FLIGHT ∧ (q + RESERVED_FDS <= soft ∨ soft <= 2 * RESERVED_FDS ∧ q = Z.max 1 (soft / 2))).
  { intros q ->. pose proof (Z.div_le_upper_bound soft 2 64). unfold MAX_IN_FLIGHT, RESERVED_FDS in *.
    assert (0 <= soft) by lia. destruct (soft =? RLIM_INFINITY os) eqn:Hinf; simpl; to_prop.
    { subst soft. unfold RLIM_INFINITY. destruct os; lia. }
    rewrite Z.geb_leb. destruct (_ <=? soft) eqn:Hbig; to_prop; [lia|].
    destruct (soft <=? _) eqn:Hsmall; to_prop; [split; [lia|right; lia]|lia]. }
  destruct (Hr _ eq_refl) as [Hr1 Hr2]. split; [exact Hr1|]. right. exists cur, max, soft. split; [done|].
  split; [|exact Hr2]. destruct Ht as [[-> ->]|(raised & x & -> & ? & ?)]; [by left|right].
  by exists raised, x.
Qed.

(** the in-flight limit.  It is at least one and at most
    [MAX_IN_FLIGHT]; with the descriptors kept for everything else it fits
    the soft open-file limit in force afterwards, or is half of that limit
    when it is too small; and the soft limit is never lowered and never set
    above the hard one, which stays. *)
Theorem inFlightLimit_sound (e : E) r e' t :
  inFlightLimit os e = Some (r, e', t) →
  1 <= r <= MAX_IN_FLIGHT ∧ match os with Windows => r = MAX_IN_FLIGHT ∧ t = [] | _ => limit_reason r t end.
Proof.
  intros Hr. unfold inFlightLimit in Hr. pose proof (posix_limit_run e r e' t) as Hp.
  destruct os; try by apply Hp. apply ret_inv in Hr as (-> & _ & ->). by split.
Qed.

Lemma total_inFlightLimit : total (inFlightLimit (E := E) os).
Proof. unfold inFlightLimit, posix_limit. solve_total. Qed.

Lemma inFlightLimit_range (e : E) r e' t : inFlightLimit os e = Some (r, e', t) → 1 <= r <= MAX_IN_FLIGHT.
Proof.
  intros Hr. unfold inFlightLimit in Hr. pose proof (posix_limit_run e r e' t) as Hp.
  destruct os; try by apply Hp. by apply ret_inv in Hr as (-> & _ & _).
Qed.

Lemma loopCount_range (e : E) n e' t : loopCount os e = Some (n, e', t) → 1 <= n <= max_loops os.
Proof.
  intros Hr. unfold loopCount in Hr. run_inv; unfold max_loops; destruct os; lia.
Qed.

(** What a run starts from. *)
Record setup_ok (pace : Pace) (shared : Shared) (loops limit : Z) (capacity : nat) : Prop := {
  setup_loops : 1 <= loops <= max_loops os;
  setup_limit : loops <= limit <= MAX_IN_FLIGHT;
  setup_shared : ∃ w, shared = shared_init loops w ∧
    window_init (Z.max loops (Z.min (POOL_PACE os) limit)) limit pace = Some w;
  setup_capacity : limit <= loops * Z.of_nat capacity < limit + loops
}.

Lemma setup_small pace shared loops limit capacity :
  setup_ok pace shared loops limit capacity →
  Z.of_nat capacity <= TCP_PROBE_MAX_SOCKETS ∧ (0 < capacity)%nat ∧ limit / loops <= Z.of_nat capacity.
Proof.
  intros [[Hl _] [Hlim Hmax] _ [Hc1 Hc2]]. unfold MAX_IN_FLIGHT, TCP_PROBE_MAX_SOCKETS in *. split; [nia|]. split; [nia|].
  apply Z.div_le_upper_bound; lia.
Qed.

Lemma run_setup_run pace (e : E) shared loops capacity e' t :
  run_setup os pace e = Some ((shared, loops, capacity), e', t) → ∃ limit, setup_ok pace shared loops limit capacity.
Proof.
  intros Hr. unfold run_setup in Hr. apply bind_inv in Hr as (limit & e1 & t1 & t2 & Hlim & Hr & ->).
  apply inFlightLimit_range in Hlim. apply bind_inv in Hr as (count & e2 & t3 & t4 & Hc & Hr & ->).
  apply loopCount_range in Hc. apply bind_inv in Hr as (w & e3 & t5 & t6 & Hw & Hr & ->).
  apply checked_inv in Hw as (Hw & _ & _). apply ret_inv in Hr as ([= -> -> ->] & -> & ->).
  exists limit. split; [lia|lia|by exists w|].
  rewrite Z2Nat.id by (apply Z.div_pos; lia).
  pose proof (Z.div_mod (limit + Z.min count limit - 1) (Z.min count limit)).
  pose proof (Z.mod_pos_bound (limit + Z.min count limit - 1) (Z.min count limit)). lia.
Qed.

(** a run's start.  It never trips the window's assertion: there is
    always a window, of at least one connect per loop and at most the limit;
    there are at most [max_loops] loops; and each has the capacity for its
    share of the largest window, which poll and select can wait for. *)
Theorem run_setup_sound pace (e : E) :
  ∃ w loops limit capacity e' t,
    run_setup os pace e = Some ((shared_init loops w, loops, capacity), e', t) ∧
    1 <= loops <= max_loops os ∧ loops <= limit <= MAX_IN_FLIGHT ∧
    loops <= w_size w <= limit ∧ w_max w / loops <= Z.of_nat capacity <= TCP_PROBE_MAX_SOCKETS ∧ (0 < capacity)%nat.
Proof.
  destruct (total_inFlightLimit e) as [[[limit e1] t1] Hlim].
  assert (total (loopCount (E := E) os)) as Ht by (unfold loopCount; solve_total).
  destruct (Ht e1) as [[[count e2] t2] Hcount]. pose proof (inFlightLimit_range _ _ _ _ Hlim).
  pose proof (loopCount_range _ _ _ _ Hcount). set (loops := Z.min count limit).
  assert (∃ w, window_init (Z.max loops (Z.min (POOL_PACE os) limit)) limit pace = Some w) as [w Hw].
  { unfold window_init. rewrite (proj2 (Z.leb_le 1 _)), (proj2 (Z.leb_le _ limit)) by lia. by eexists. }
  assert (run_setup os pace e = Some ((shared_init loops w, loops, Z.to_nat ((limit + loops - 1) / loops)), e2, t1 ++ t2 ++ [] ++ []))
    as Hrun.
  { eapply bind_some; [exact Hlim|]. eapply bind_some; [exact Hcount|].
    eapply bind_some; [|done]. unfold checked. cbv zeta. fold loops. by rewrite Hw. }
  destruct (run_setup_run _ _ _ _ _ _ _ Hrun) as [limit' Hok]. pose proof (setup_small _ _ _ _ _ Hok) as (Hs & Hpos & Hshare).
  destruct Hok as [Hl1 Hl2 (w' & Hsh & Hw') _]. injection Hsh as <-.
  assert (limit' <= LIMIT) as Hfit by (unfold MAX_IN_FLIGHT, LIMIT in *; lia).
  pose proof (window_init_ok _ _ _ _ Hfit Hw') as (Hok & Hmin & Hmax & _).
  exists w, loops, limit', (Z.to_nat ((limit + loops - 1) / loops)). do 2 eexists. split; [exact Hrun|].
  destruct Hok. pose proof (Z.div_le_mono (w_max w) limit' loops). split; [done|]. split; [done|]. split; [lia|].
  split; [lia|done].
Qed.
End Limits.

(** ** One connect, alone *)

(** Nothing of the source's own. *)
Definition unsourced (ev : event) : Prop := given ev = [] ∧ told ev = [].

Section Once.
Context {E : Type} `{Env E}.
Variable os : platform.

Lemma start_unsourced target : logs unsourced (start (E := E) os target).
Proof.
  unfold start, posix_start, connect_answer, probe_connected, tcp_probe_start, win_wsa_init_once,
    win_wsa_do_startup, refuse_fast, connected. solve_logs.
Qed.

Lemma connectOnce_unsourced fuel target : logs unsourced (connectOnce (E := E) os fuel target).
Proof.
  unfold connectOnce. apply logs_bind; [unfold nowNs; solve_logs|]. intros first.
  apply logs_bind.
  { apply logs_loop. intros [started pause]. unfold start_once. apply logs_bind; [apply start_unsourced|].
    unfold nowNs. solve_logs. }
  intros [outcome|[sock started]]; [solve_logs|]. cbv zeta. apply logs_bind.
  { apply logs_loop. intros []. unfold wait_once, nowNs, waitSettled, posix_wait, windows_wait, tcp_probe_wait,
      wait_watched, free_opt. solve_logs. }
  intros settled. unfold finish, posix_finish, probe_connected, tcp_probe_finish, connected. solve_logs.
Qed.

Lemma nowNs_keeps (e : E) now e' t : nowNs e = Some (now, e', t) → ∀ have, keeps_from have t have.
Proof. intros [_ Hn]%nowNs_run%idle_quiet have. by apply keeps_from_neutral. Qed.

Lemma start_once_keeps target first st (e : E) x e' t :
  start_once os target first st e = Some (x, e', t) →
  keeps_from [] t (match x with inr (inr (sock, _)) => [RSock sock] | _ => [] end).
Proof.
  intros Hr. destruct st as [started pause]. unfold start_once in Hr.
  apply bind_inv in Hr as (attempt & e1 & t1 & t2 & Hs & Hr & ->). apply start_run in Hs as [_ Hk].
  eapply keeps_from_app; [exact Hk|]. destruct attempt as [v|sock|short]; simpl.
  - apply ret_inv in Hr as (-> & -> & ->). apply keeps_from_nil.
  - apply ret_inv in Hr as (-> & -> & ->). apply keeps_from_nil.
  - destruct (_ || _); [apply ret_inv in Hr as (-> & -> & ->); apply keeps_from_nil|].
    apply bind_inv in Hr as ([] & e2 & t3 & t4 & [_ ->]%ask_inv & Hr & ->).
    apply bind_inv in Hr as (now & e3 & t5 & t6 & Hnow & Hr & ->). apply ret_inv in Hr as (-> & -> & ->).
    apply (keeps_from_app _ [_] []); [apply keeps_from_neutral; by repeat constructor|].
    rewrite app_nil_r. by eapply nowNs_keeps.
Qed.

Lemma wait_once_keeps sock until st (e : E) x e' t :
  wait_once os sock until st e = Some (x, e', t) → ∀ have, keeps_from have t have.
Proof.
  intros Hr have. unfold wait_once in Hr. apply bind_inv in Hr as (now & e1 & t1 & t2 & Hnow & Hr & ->).
  eapply keeps_from_app; [by eapply nowNs_keeps|].
  destruct (now >=? until); [apply ret_inv in Hr as (-> & -> & ->); apply keeps_from_nil|].
  apply bind_inv in Hr as (flags & e2 & t3 & t4 & Hw & Hr & ->). apply ret_inv in Hr as (-> & -> & ->).
  apply waitSettled_run in Hw as [Hk _]; [|done|done]. rewrite app_nil_r.
  apply keeps_frame with (f := have) in Hk. by rewrite app_nil_r in Hk.
Qed.

Lemma connectOnce_keeps fuel target (e : E) o e' t :
  connectOnce os fuel target e = Some (o, e', t) → keeps t [].
Proof.
  intros Hr. unfold connectOnce in Hr. apply bind_inv in Hr as (first & e1 & t1 & t2 & Hnow & Hr & ->).
  apply keeps_keeps_from. eapply keeps_from_app; [by eapply nowNs_keeps|]. clear Hnow.
  apply bind_inv in Hr as (r & e2 & t3 & t4 & Hl & Hr & ->).
  eapply keeps_from_app.
  { refine (loop_invariant (λ _ _ u, keeps_from [] u [])
      (λ r _ u, keeps_from [] u (match r with inr (sock, _) => [RSock sock] | inl _ => [] end))
      (start_once os target first) _ _ _ _ _ [] _ _ _ _ Hl); [..|apply keeps_from_nil].
    - intros s e3 t0 s' e4 u Hk Hs. apply start_once_keeps in Hs. by eapply keeps_from_app.
    - intros s e3 t0 r' e4 u Hk Hs. apply start_once_keeps in Hs. by eapply keeps_from_app. }
  clear Hl. destruct r as [outcome|[sock started]].
  { apply ret_inv in Hr as (-> & -> & ->). apply keeps_from_nil. }
  cbv zeta in Hr. apply bind_inv in Hr as (settled & e3 & t5 & t6 & Hl & Hr & ->).
  apply (keeps_from_app _ _ [RSock sock]).
  { refine (loop_invariant (λ _ _ u, keeps_from [RSock sock] u [RSock sock]) (λ _ _ u, keeps_from [RSock sock] u [RSock sock])
      (wait_once os sock _) _ _ _ _ _ [] _ _ _ _ Hl); [..|apply keeps_from_nil];
      intros s e4 t0 s' e5 u Hk Hw; (eapply keeps_from_app; [exact Hk|by eapply wait_once_keeps]). }
  apply bind_inv in Hr as (v & e4 & t7 & t8 & Hf & Hr & ->). apply ret_inv in Hr as (-> & -> & ->).
  rewrite app_nil_r. by apply probe_finish_run in Hf as [_ Hk].
Qed.

(** The connects to confirm, each reported. *)
Lemma confirm_run fuel jobs : ∀ (e : E) x e' t,
  confirm os fuel jobs e = Some (x, e', t) →
  flat_map given t = [] ∧ flat_map told t = jobs ∧ keeps t [].
Proof.
  induction jobs as [|job jobs IH]; intros e x e' t Hr; cbn [confirm] in Hr.
  { run_inv. split; [done|]. split; [done|apply keeps_keeps_from, keeps_from_nil]. }
  apply bind_inv in Hr as (started & e1 & t1 & t2 & Hst & Hr & ->).
  apply bind_inv in Hr as (outcome & e2 & t3 & t4 & Ho & Hr & ->).
  apply bind_inv in Hr as (finished & e3 & t5 & t6 & Hfi & Hr & ->).
  apply bind_inv in Hr as ([] & e4 & t7 & t8 & [_ ->]%ask_inv & Hr & ->).
  apply IH in Hr as (Hg & Ht & Hk).
  assert (∀ u, Forall unsourced u → flat_map given u = [] ∧ flat_map told u = []) as Hq.
  { induction 1 as [|ev u [H1 H2] _ [IH1 IH2]]; [done|]. simpl. by rewrite H1, H2, IH1, IH2. }
  assert (logs unsourced (nowNs (E := E))) as Hnow by (unfold nowNs; solve_logs).
  destruct (Hq _ (Hnow _ _ _ _ Hst)) as [G1 T1], (Hq _ (Hnow _ _ _ _ Hfi)) as [G5 T5],
    (Hq _ (connectOnce_unsourced _ _ _ _ _ _ Ho)) as [G3 T3].
  rewrite !flat_map_app, G1, G3, G5, Hg, T1, T3, T5, Ht. simpl. split; [done|]. split; [done|].
  apply keeps_keeps_from. eapply keeps_from_app; [by eapply nowNs_keeps|].
  eapply keeps_from_app; [by apply connectOnce_keeps in Ho|].
  eapply keeps_from_app; [by eapply nowNs_keeps|].
  apply (keeps_from_app _ [_] []); [apply keeps_from_neutral; by repeat constructor|exact Hk].
Qed.
End Once.

(** ** Whole runs *)

Section Whole.
Context {E : Type} `{Env E} `{!RlimitLaw E}.
Variables (os : platform) (has_wait_cap : bool) (job_size settled_size : Z) (fuel : nat).

Lemma run_end_run first shared (e : E) res e' t :
  run_end os fuel first shared e = Some (res, e', t) →
  flat_map given t = [] ∧ keeps t [] ∧
  match res with
  | run_ok => first = true ∧ sh_starved shared = false ∧ flat_map told t = sh_unconfirmed shared
  | out_of_memory => first = false ∧ t = []
  | out_of_sockets => sh_starved shared = true ∧ t = []
  end.
Proof.
  intros Hr. unfold run_end in Hr. destruct first; simpl in Hr.
  2:{ apply ret_inv in Hr as (-> & -> & ->). split; [done|]. split; [apply keeps_keeps_from, keeps_from_nil|done]. }
  destruct (sh_starved shared).
  { apply ret_inv in Hr as (-> & -> & ->). split; [done|]. split; [apply keeps_keeps_from, keeps_from_nil|done]. }
  apply bind_inv in Hr as ([] & e1 & t1 & t2 & Hc & Hr & ->). apply ret_inv in Hr as (-> & -> & ->).
  rewrite app_nil_r. apply confirm_run in Hc as (? & ? & ?). done.
Qed.

Lemma run_setup_keeps pace (e : E) x e' t : run_setup os pace e = Some (x, e', t) → keeps t [].
Proof.
  intros Hr. apply keeps_keeps_from, keeps_from_neutral. revert Hr.
  assert (logs neutral (run_setup (E := E) os pace)) as Hl; [|by apply Hl].
  unfold run_setup. apply logs_bind; [unfold inFlightLimit, posix_limit; solve_logs|]. intros limit.
  apply logs_bind; [unfold loopCount; solve_logs|]. intros count. apply logs_bind; [|solve_logs].
  by intros e1 w e2 u (_ & _ & ->)%checked_inv.
Qed.

Lemma keeps_perm t u : t ≡ₚ u → keeps t [] → keeps u [].
Proof.
  unfold keeps, acquired, released. intros Hp Hk.
  by rewrite <- (Permutation_flat_map acquires Hp), <- (Permutation_flat_map releases Hp).
Qed.

(** The loops' logs, interleaved. *)
Lemma loops_account capacity (rs : list (bool * list event)) t :
  Z.of_nat capacity <= TCP_PROBE_MAX_SOCKETS →
  Forall (λ '(r, t), ∃ e e', loop_thread (E := E) os job_size settled_size fuel capacity e = Some (r, e', t)) rs →
  merged (map snd rs) t →
  keeps t [] ∧ accounts t ∧ covers takes reports [] t ∧ ∀ log, (true, log) ∈ rs → drained t.
Proof.
  intros Hcap Hrs Hm. assert (covers takes reports [] t) as Hcov.
  { apply (merged_covers_all _ _ Hm), Forall_map. eapply Forall_impl; [exact Hrs|].
    intros [r log] (e & e' & Hr). by apply loop_thread_run in Hr as (_ & Hc & _). }
  apply merged_perm in Hm.
  cut (keeps (concat (map snd rs)) [] ∧ accounts (concat (map snd rs)) ∧
    ∀ log, (true, log) ∈ rs → drained (concat (map snd rs))).
  { intros (Hk & Ha & Hd). split; [by eapply keeps_perm|]. split; [by rewrite <- Hm|]. split; [done|].
    intros log [[n Hin]|[Hin|Hin]]%Hd; [left; exists n|right; left|right; right]; by rewrite <- Hm. }
  clear Hm Hcov t.
  induction Hrs as [|[r log] rs (e & e' & Hr) _ (IHk & IHa & IHd)]; simpl.
  { split; [apply keeps_keeps_from, keeps_from_nil|]. split; [by apply accounts_private|].
    intros log []%not_elem_of_nil. }
  apply loop_thread_run in Hr as (Ha & _ & Hk & Hd & _); [|done].
  split; [apply keeps_keeps_from; by eapply keeps_from_app|]. split; [by apply accounts_app|].
  intros log' [[= <- <-]|Hin]%elem_of_cons; apply drained_app; [left; auto|right; by eapply IHd].
Qed.

Lemma run_keeps_account pace res source sys :
  run_of (E := E) os has_wait_cap job_size settled_size fuel pace res source sys →
  keeps sys [] ∧
  (∃ left, balance given told [] source left ∧ (res = run_ok → left = [])) ∧
  (res = run_ok → Ev SourceNext None ∈ source).
Proof.
  intros Hr. destruct Hr as [e0 shared0 loops capacity e1 t0 first log others t shared u e2 res e3 t1 Hset Hlen Hloops Hm Hs Hend].
  pose proof (run_setup_keeps _ _ _ _ _ Hset) as Hk0. apply run_setup_run in Hset as (limit & Hok).
  destruct (setup_small _ _ _ _ _ _ Hok) as (Hcap & _). destruct Hok as [_ _ (w & -> & _) _].
  apply (loops_account capacity ((first, log) :: others)) in Hm as (Hk & Ha & Hcov & Hd); [|done|done].
  pose proof (serves_covers _ _ _ _ _ Hs [] Hcov) as Hsrc. apply serves_run in Hs as [Hg Ht Hst Hdry _]. apply run_end_run in Hend as (Hg1 & Hk1 & Hres).
  assert (starved_in t → sh_starved shared = true) as Hstarved by (intros ?%starved_in_ev; auto).
  split; [|split].
  - apply keeps_keeps_from. eapply keeps_from_app; [exact Hk0|]. by eapply keeps_from_app.
  - cut (∃ left, flat_map given (u ++ t1) ≡ₚ flat_map told (u ++ t1) ++ left ∧ (res = run_ok → left = [])).
    { intros (left & Hleft & Hnone). exists left. split; [split; [done|]|done].
      intros p s Heq. apply app_eq_inv in Heq as [(k & -> & ->)|(k & -> & ->)]; [by apply (Hsrc p k)|].
      exists (flat_map told s ++ left). revert Hleft. rewrite !flat_map_app in *. apply app_nil in Hg1 as [-> ->].
      intros ->. solve_Permutation. }
    destruct Ha as (dropped & Ha & Hdrop). simpl in Ht.
    assert (flat_map takes t ≡ₚ flat_map told u ++ sh_unconfirmed shared ++ dropped) as Hall
      by by rewrite Ha, Ht, app_assoc.
    assert (flat_map given (u ++ t1) = flat_map takes t) as -> by by rewrite flat_map_app, Hg, Hg1, app_nil_r.
    rewrite flat_map_app. destruct res.
    + destruct Hres as (_ & Hns & Htold). exists []. rewrite Hall, Htold. split; [|done].
      destruct Hdrop as [->|Hx%Hstarved]; [solve_Permutation|congruence].
    + destruct Hres as (_ & ->). exists (sh_unconfirmed shared ++ dropped). rewrite Hall. split; [simpl; solve_Permutation|done].
    + destruct Hres as (_ & ->). exists (sh_unconfirmed shared ++ dropped). rewrite Hall. split; [simpl; solve_Permutation|done].
  - intros ->. destruct Hres as (-> & Hns & _). apply elem_of_app. left.
    destruct (drained_ev t) as [?|Hx]; [by eapply Hd, list_elem_of_here|auto|].
    rewrite Hst in Hns; [done|by right].
Qed.

(** C6: the run as a whole.  However its loops interleave, whatever the
    network answers, and whichever threads could be started: when it returns
    without an error, the source has said that it has no more, and every
    connect it handed out was reported to it exactly once, never before it
    was handed out, those left to confirm included; when it returns an error, none was reported twice and
    none was made up.  Every socket and block is given back in the end. *)
Theorem run_reports_once pace res source sys :
  run_of (E := E) os has_wait_cap job_size settled_size fuel pace res source sys →
  keeps sys [] ∧
  (∃ left, balance given told [] source left ∧ (res = run_ok → left = [])) ∧
  (res = run_ok → Ev SourceNext None ∈ source).
Proof. apply run_keeps_account. Qed.
End Whole.

(** ** A connect alone ends *)

Section OnceEnds.
Context {E : Type} `{ClockLaw E}.
Variable os : platform.

Lemma start_once_total target first st : total (start_once (E := E) os target first st).
Proof.
  destruct st as [started pause]. unfold start_once. apply total_bind; [apply total_start|]. unfold nowNs. solve_total.
Qed.

Lemma wait_once_total sock until st : total (wait_once (E := E) os sock until st).
Proof.
  unfold wait_once. apply total_bind; [apply total_now|]. intros now. destruct (now >=? until); [apply total_ret|].
  apply total_bind; [apply total_wait_settled|]. intros. apply total_ret.
Qed.

Lemma finish_total sock settled : total (finish (E := E) os sock settled).
Proof. unfold finish, posix_finish, probe_connected, tcp_probe_finish, connected. solve_total. Qed.

(** How many tries are left once the clock has passed the limit. *)
Definition tries_left (limit : Z) (st : Z * Z) (e : E) : nat :=
  if st.1 >=? limit then 0%nat else if clk e >=? limit then 1%nat else 2%nat.

Lemma start_once_moves target first st (e : E) st' e' t :
  start_once os target first st e = Some (inl st', e', t) →
  paced_order (tries_left (first + STALL_LIMIT_NS)) (λ _ _, first + STALL_LIMIT_NS) (st', e') (st, e).
Proof.
  intros Hr. destruct st as [started pause]. unfold start_once in Hr.
  apply bind_inv in Hr as (attempt & e1 & t1 & t2 & Hs & Hr & ->). apply timely_start in Hs.
  destruct attempt as [v|sock|short]; [apply ret_inv in Hr as [Hr _]; done..|].
  destruct (_ || _) eqn:Hlim; [apply ret_inv in Hr as [Hr _]; done|].
  apply orb_false_iff in Hlim as [_ Hlim]. rewrite Z.geb_leb in Hlim. to_prop.
  apply bind_inv in Hr as ([] & e2 & t3 & t4 & Hsl & Hr & ->). apply timely_ask in Hsl.
  apply bind_inv in Hr as (now & e3 & t5 & t6 & Hnow & Hr & ->). apply nowNs_clock in Hnow as [-> Ht].
  apply ret_inv in Hr as ([= ->] & -> & ->). unfold paced_order, advances, tries_left. simpl.
  rewrite !Z.geb_leb. split; [unfold later, ticked in *; lia|].
  assert (clk e <= clk e2) by (unfold later in *; lia).
  destruct (first + STALL_LIMIT_NS <=? started) eqn:Ha; to_prop; [lia|].
  destruct (first + STALL_LIMIT_NS <=? clk e) eqn:Hb, (first + STALL_LIMIT_NS <=? clk e2) eqn:Hc; to_prop; try lia.
  destruct (_ <=? clk e3); lia.
Qed.

Lemma wait_once_moves sock until st (e : E) st' e' t :
  wait_once os sock until st e = Some (inl st', e', t) → round_lt until (st', e') (st, e).
Proof.
  intros Hr. unfold wait_once in Hr. apply bind_inv in Hr as (now & e1 & t1 & t2 & Hnow & Hr & ->).
  apply nowNs_clock in Hnow as [-> Ht]. rewrite Z.geb_leb in Hr.
  destruct (_ <=? _) eqn:Hd; [apply ret_inv in Hr as [Hr _]; done|]. to_prop.
  apply bind_inv in Hr as (flags & e2 & t3 & t4 & Hw & Hr & ->). apply timely_wait in Hw.
  apply ret_inv in Hr as (_ & -> & _). split; [|done]. unfold later, ticked in *. simpl. lia.
Qed.

Lemma runs_connectOnce target : runs (λ n, connectOnce (E := E) os n target).
Proof.
  unfold connectOnce. apply runs_bind; [apply runs_const, total_now|]. intros first. apply runs_bind.
  { eapply runs_loop; [apply (paced_order_wf (tries_left (first + STALL_LIMIT_NS)) (λ _ _, first + STALL_LIMIT_NS))|..].
    - intros st. apply runs_const, start_once_total.
    - intros _ st e st' e' t. apply start_once_moves. }
  intros [outcome|[sock started]]; [apply runs_const, total_ret|]. cbv zeta. apply runs_bind.
  { eapply runs_loop; [apply (round_lt_wf (started + t_timeout_ms target * ns_per_ms))|..].
    - intros st. apply runs_const, wait_once_total.
    - intros _ st e st' e' t. apply wait_once_moves. }
  intros settled. apply runs_const, total_bind; [apply finish_total|]. intros. apply total_ret.
Qed.

Lemma runs_confirm jobs : runs (λ n, confirm (E := E) os n jobs).
Proof.
  induction jobs as [|job jobs IH]; cbn [confirm]; [apply runs_const, total_ret|].
  apply runs_bind; [apply runs_const, total_now|]. intros started.
  apply runs_bind; [apply runs_connectOnce|]. intros outcome.
  apply runs_bind; [apply runs_const, total_now|]. intros finished.
  apply runs_bind; [apply runs_const, total_ask|]. intros. exact IH.
Qed.

(** a run's end.  Once its loops are over, a run always returns, whatever
    the network does: each connect it confirms waits out a shortage or gives
    it up after [STALL_LIMIT_NS], and a silent target after its timeout; more
    fuel changes nothing. *)
Theorem run_end_terminates first shared (e : E) :
  ∃ n, ∀ m, (n ≤ m)%nat → is_Some (run_end os m first shared e).
Proof.
  apply runs_enough. unfold run_end. destruct first; simpl; [|apply runs_const, total_ret].
  destruct (sh_starved shared); [apply runs_const, total_ret|].
  apply runs_bind; [apply runs_confirm|]. intros. apply runs_const, total_ret.
Qed.
End OnceEnds.

(** ** Concrete runs *)

Lemma inFlightLimit_sound_witness :
  ∃ e' t, inFlightLimit Linux (idle 0) = Some (1024, e', t) ∧ 1 <= 1024 <= MAX_IN_FLIGHT ∧ limit_reason 1024 t.
Proof.
  eexists _, _. split; [vm_compute; reflexivity|]. apply (inFlightLimit_sound Linux (idle 0) 1024 (idle 0)).
  reflexivity.
Defined.

Lemma run_setup_sound_witness :
  ∃ w loops limit capacity e' t,
    run_setup Linux adaptive (idle 0) = Some ((shared_init loops w, loops, capacity), e', t) ∧
    1 <= loops <= max_loops Linux ∧ loops <= limit <= MAX_IN_FLIGHT ∧
    loops <= w_size w <= limit ∧ w_max w / loops <= Z.of_nat capacity <= TCP_PROBE_MAX_SOCKETS ∧ (0 < capacity)%nat.
Proof. exact (run_setup_sound Linux adaptive (idle 0)). Defined.

Lemma merged_one {A} (t : list A) : merged [t] t.
Proof.
  induction t as [|ev t IH]; [apply merged_idle, merged_none|]. by apply (merged_step [] ev t []).
Qed.

(** Three ports of the machine itself: the first connect succeeds, but may
    have met another of the run's, so that port is asked again at the end. *)
Definition own_ports : script :=
  let s := set_jobs [port_job 0 22; port_job 1 23; port_job 2 80]
    (set_queues [Ok [4]] [] [] [] [Ok (); Err 111; Err 115; Ok ()] [] [] (idle 1000)) in
  {| sc_now := sc_now s; sc_fd := sc_fd s; sc_polls := sc_polls s; sc_selects := sc_selects s;
     sc_sends := sc_sends s; sc_recvs := sc_recvs s; sc_connects := sc_connects s;
     sc_mallocs := sc_mallocs s; sc_files := sc_files s; sc_size := sc_size s;
     sc_ifaddrs := sc_ifaddrs s; sc_local := Ok (SA AF_INET (IP 192 168 1 7) 50000);
     sc_peer := Ok (SA AF_INET (IP 192 168 1 7) 22);
     sc_soerror := Ok 111; sc_stops := sc_stops s; sc_rows := sc_rows s;
     sc_echo2 := sc_echo2 s; sc_pending := sc_pending s; sc_parsed := sc_parsed s; sc_jobs := sc_jobs s;
     sc_caps := sc_caps s |}.

Lemma run_reports_once_witness :
  ∃ source sys, run_of (E := script) Linux true 24 40 9 adaptive run_ok source sys ∧
    flat_map told source = [port_job 1 23; port_job 2 80; port_job 0 22] ∧
    keeps sys [] ∧
    (∃ left, balance given told [] source left ∧ (run_ok = run_ok → left = [])) ∧
    (run_ok = run_ok → Ev SourceNext None ∈ source).
Proof.
  assert (∃ source sys, run_of (E := script) Linux true 24 40 9 adaptive run_ok source sys ∧
    flat_map told source = [port_job 1 23; port_job 2 80; port_job 0 22]) as (source & sys & Hr & Ht).
  { eexists _, _. split.
    - eapply (runs_all Linux true 24 40 9 adaptive own_ports _ _ _ own_ports _ _ _ [] _ _ _ own_ports).
      + vm_compute. reflexivity.
      + vm_compute. congruence.
      + apply Forall_singleton. exists own_ports. eexists. vm_compute. reflexivity.
      + apply merged_one.
      + refine (serve_log_sound true _ _ own_ports _ _ _ _). vm_compute. reflexivity.
      + vm_compute. reflexivity.
    - vm_compute. reflexivity. }
  exists source, sys. split; [exact Hr|]. split; [exact Ht|].
  exact (run_reports_once Linux true 24 40 9 adaptive run_ok source sys Hr).
Defined.
