(* ===== verification/Multicast.v ===== *)
(** * multicast.c: the sockets of multicast discovery

    Choosing the interface whose subnet meets the scanned range, and
    opening, using, waking and closing the discovery socket.  Addresses
    are compared in host order; [to_host_order] also stands for the
    [ntohl] of an address read from the system. *)
From S2P Require Import Prelude Words Subnets Sys Script NsSocket.
Open Scope Z_scope.

Definition subnet_overlaps (addr prefix first last : Z) : bool :=
  if (prefix =? 0) || (prefix >=? 32) then false
  else
    let mask := prefix_mask prefix in
    let net := Z.land addr mask in
    let broadcast := Z.lor net (u32 (Z.lnot mask)) in
    (net <=? last) && (broadcast >=? first).

(** for (m = mask; m & 0x80000000u; m <<= 1) prefix++; a 32-bit word
    shifts out after 32 rounds. *)
Fixpoint mask_prefix (n : nat) (m prefix : Z) : Z :=
  match n with
  | O => prefix
  | S n =>
    if Z.land m 2147483648 =? 0 then prefix
    else mask_prefix n (u32 (Z.shiftl m 1)) (prefix + 1)
  end.

(** for (i = list; i; i = i->ifa_next) *)
Fixpoint find_ifaddr (lo hi : Z) (list : list ifaddr) : option ip4 :=
  match list with
  | [] => None
  | i :: list =>
    match ifa_addr i, ifa_netmask i with
    | Some (family, ip), Some netmask =>
      if negb (family =? AF_INET) then find_ifaddr lo hi list
      else if negb (ifa_up i) || ifa_loopback i then find_ifaddr lo hi list
      else
        let addr := to_host_order ip in
        let prefix := mask_prefix 32 (to_host_order netmask) 0 in
        if subnet_overlaps addr prefix lo hi then Some (from_host_order addr)
        else find_ifaddr lo hi list
    | _, _ => find_ifaddr lo hi list
    end
  end.

(** for (u = a->FirstUnicastAddress; u; u = u->Next) *)
Fixpoint find_unicast (lo hi : Z) (us : list (option (Z * ip4) * Z)) : option ip4 :=
  match us with
  | [] => None
  | (Some (family, ip), prefix) :: us =>
    if negb (family =? AF_INET) then find_unicast lo hi us
    else
      let addr := to_host_order ip in
      if subnet_overlaps addr prefix lo hi then Some (from_host_order addr)
      else find_unicast lo hi us
  | (None, _) :: us => find_unicast lo hi us
  end.

(** for (a = adapters; a && found != 0; a = a->Next) *)
Fixpoint find_adapter (lo hi : Z) (adapters : list adapter) : option ip4 :=
  match adapters with
  | [] => None
  | a :: adapters =>
    if negb (ad_up a) then find_adapter lo hi adapters
    else if ad_software_loopback a then find_adapter lo hi adapters
    else
      match find_unicast lo hi (ad_unicast a) with
      | Some ip => Some ip
      | None => find_adapter lo hi adapters
      end
  end.

Definition ERROR_BUFFER_OVERFLOW : Z := 111.
Definition WSAEMSGSIZE : Z := 10040.
Definition INADDR_ANY : ip4 := IP 0 0 0 0.
Definition INADDR_LOOPBACK : ip4 := IP 127 0 0 1.

Section Multicast.
Context {E : Type} `{Env E}.
Variable os : platform.

(** for (attempt = 0; attempt < 3 && ret == ERROR_BUFFER_OVERFLOW; ...):
    None when malloc fails. *)
Fixpoint grow_adapters (attempts : nat) (size : Z) (buf : option Z) (ret : sys (list adapter))
    : M E (option (option Z * sys (list adapter))) :=
  match attempts, ret with
  | S attempts, Err err =>
    if err =? ERROR_BUFFER_OVERFLOW then
      free_opt buf;;
      buf ← ask (Malloc size);
      match buf with
      | None => mret None
      | Some buf =>
        '(ret, size) ← ask (GetAdapters size);
        grow_adapters attempts size (Some buf) ret
      end
    else mret (Some (buf, ret))
  | _, _ => mret (Some (buf, ret))
  end.

(** The address written to out_local, or None for -1.  A pointer argument
    is None when null. *)
Definition mc_local_address (first last : option ip4) (out_local : bool) : M E (option ip4) :=
  match first, last, out_local with
  | Some first, Some last, true =>
    let lo := to_host_order first in
    let hi := to_host_order last in
    match os with
    | Windows =>
      win_wsa_init_once;;
      got ← grow_adapters 3 (16 * 1024) None (Err ERROR_BUFFER_OVERFLOW);
      match got with
      | None => mret None
      | Some (buf, Err _) => free_opt buf;; mret None
      | Some (buf, Ok adapters) =>
        let found := find_adapter lo hi adapters in
        free_opt buf;;
        mret found
      end
    | _ =>
      got ← ask GetIfAddrs;
      match got with
      | None => mret None
      | Some (h, list) =>
        let found := find_ifaddr lo hi list in
        ask (FreeIfAddrs h);;
        mret found
      end
    end
  | _, _, _ => mret None
  end.

Definition mc_open (local : option ip4) : M E (option Z) :=
  match local with
  | None => mret None
  | Some local =>
    sock ← ns_udp_socket os;
    match sock with
    | None => mret None
    | Some sock =>
      (match os with
       | Windows => ask (SetOpt sock (IoctlUdpConnReset false));; mret ()
       | _ => mret ()
       end);;
      r ← ask (Bind sock (SA AF_INET INADDR_ANY 0));
      match r with
      | Err _ => ns_close sock;; mret None
      | Ok _ =>
        ask (SetOpt sock (OptMulticastIf local));;
        ask (SetOpt sock (OptMulticastTtl 1));;
        ask (SetOpt sock (OptRcvBuf (256 * 1024)));;
        mret (Some sock)
      end
    end
  end.

Definition mc_send (sock : option Z) (ip : option ip4) (port : Z) (buf : option (list Z)) : M E Z :=
  match sock, ip, buf with
  | Some sock, Some ip, Some buf =>
    let len := i32 (Z.of_nat (length buf)) in
    r ← ask (SendTo sock buf (SA AF_INET ip port));
    let sent := match r with Ok n => i32 n | Err _ => -1 end in
    mret (if sent =? len then 0 else -1)
  | _, _, _ => mret (-1)
  end.

(** The errors of recvfrom that do not end the listener. *)
Definition recv_ignores (err : Z) : bool :=
  match os with
  | Windows => (err =? WSAEWOULDBLOCK) || (err =? WSAEMSGSIZE) || (err =? WSAECONNRESET)
  | _ => (err =? EAGAIN os) || (err =? EWOULDBLOCK os) || (err =? EINTR) || (err =? ECONNREFUSED os)
  end.

(** The length of the datagram (0 for nothing, -1 for an error), with its
    sender and what was written to buf. *)
Definition mc_recv (fuel : nat) (sock : option Z) (timeout_ms : Z) (buf : option Z) (out_from : bool)
    : M E (Z * option (ip4 * list Z)) :=
  match sock, buf, out_from with
  | Some sock, Some cap, true =>
    ready ← ns_wait_readable os fuel sock timeout_ms;
    if ready =? 0 then mret (0, None)
    else if ready <? 0 then mret (-1, None)
    else
      r ← ask (RecvFrom sock (i32 cap));
      match r with
      | Err err => mret (if recv_ignores err then 0 else -1, None)
      | Ok (data, from) =>
        let data := buffer (i32 cap) data in
        if negb (sa_family from =? AF_INET) then mret (0, None)
        else mret (Z.of_nat (length data), Some (sa_ip from, data))
      end
  | _, _, _ => mret (-1, None)
  end.

Definition mc_wake (sock : option Z) : M E unit :=
  match sock with
  | None => mret ()
  | Some sock =>
    self ← ask (GetSockName sock);
    match self with
    | Err _ => mret ()
    | Ok self =>
      ask (SendTo sock [] (SA (sa_family self) INADDR_LOOPBACK (sa_port self)));;
      mret ()
    end
  end.

Definition mc_close (sock : option Z) : M E unit :=
  match sock with None => mret () | Some sock => ns_close sock end.
End Multicast.

(** ** Subnets *)

Lemma subnet_overlaps_range addr p first last :
  is_u32 addr → 0 < p < 32 →
  subnet_overlaps addr p first last = true ↔
  addr / 2 ^ (32 - p) * 2 ^ (32 - p) <= last ∧
  first <= addr / 2 ^ (32 - p) * 2 ^ (32 - p) + 2 ^ (32 - p) - 1.
Proof.
  intros Ha Hp. unfold subnet_overlaps.
  rewrite (proj2 (Z.eqb_neq _ _)), Z.geb_leb, (proj2 (Z.leb_gt _ _)) by lia. simpl.
  rewrite subnet_net, subnet_host_bits by (done || lia).
  pose proof (Z.pow_pos_nonneg 2 (32 - p) ltac:(lia) ltac:(lia)) as Hk.
  rewrite lor_shiftl_add; [|lia|rewrite Z.ones_equiv; lia].
  rewrite Z.shiftl_mul_pow2, Z.ones_equiv by lia.
  rewrite andb_true_iff, Z.leb_le, Z.geb_leb, Z.leb_le. lia.
Qed.

Lemma subnet_overlaps_iff addr p first last :
  is_u32 addr → 0 <= p → first <= last →
  subnet_overlaps addr p first last = true ↔
  0 < p < 32 ∧ ∃ x, in_subnet addr p x ∧ first <= x <= last.
Proof.
  intros Ha Hp Hfl. destruct (decide (0 < p < 32)) as [Hr|Hr].
  - rewrite subnet_overlaps_range by done. split.
    + intros [H1 H2]. split; [done|]. set (n := addr / 2 ^ (32 - p) * 2 ^ (32 - p)) in *.
      exists (Z.max first n). rewrite in_subnet_range by lia. fold n.
      pose proof (Z.pow_pos_nonneg 2 (32 - p) ltac:(lia) ltac:(lia)). lia.
    + intros (_ & x & Hx & Hle). rewrite in_subnet_range in Hx by lia. lia.
  - split; [|by intros [? _]]. unfold subnet_overlaps. rewrite Z.geb_leb.
    destruct (p =? 0) eqn:T1, (32 <=? p) eqn:T2; to_prop; simpl; try done. lia.
Qed.

(** ** Netmasks *)

Lemma land_top m : is_u32 m → (Z.land m 2147483648 =? 0) = negb (Z.testbit m 31).
Proof.
  intros Hm. change 2147483648 with (2 ^ 31). destruct (Z.testbit m 31) eqn:T; simpl.
  - apply Z.eqb_neq. intros He. assert (Z.testbit (Z.land m (2 ^ 31)) 31 = true) as Hb.
    { by rewrite Z.land_spec, T, Z.pow2_bits_true by lia. }
    by rewrite He, Z.bits_0 in Hb.
  - apply Z.eqb_eq, Z.bits_inj'. intros i Hi. rewrite Z.land_spec, Z.bits_0, Z.pow2_bits_eqb by lia.
    destruct (31 =? i) eqn:E; to_prop; [by subst; rewrite T|apply andb_false_r].
Qed.

(** The loop counts the leading ones of the word. *)
Lemma mask_prefix_ones n m p0 :
  is_u32 m → (n ≤ 32)%nat →
  ∃ k, mask_prefix n m p0 = p0 + Z.of_nat k ∧ (k ≤ n)%nat ∧
    (∀ i, (i < k)%nat → Z.testbit m (31 - Z.of_nat i) = true) ∧
    ((k < n)%nat → Z.testbit m (31 - Z.of_nat k) = false).
Proof.
  revert m p0. induction n as [|n IH]; intros m p0 Hm Hn; cbn [mask_prefix].
  { exists 0%nat. splits; lia. }
  rewrite land_top by done. destruct (Z.testbit m 31) eqn:T; simpl.
  - destruct (IH (u32 (Z.shiftl m 1)) (p0 + 1) (u32_range _) ltac:(lia)) as (k & Hk & Hle & H1 & H2).
    assert (∀ i, (i < 31)%nat → Z.testbit (u32 (Z.shiftl m 1)) (31 - Z.of_nat i) =
      Z.testbit m (31 - Z.of_nat (S i))) as Hs.
    { intros i Hi. rewrite u32_bits, Z.shiftl_spec by lia.
      rewrite (proj2 (Z.ltb_lt _ _)) by lia. simpl. f_equal. lia. }
    exists (S k). splits; [lia|lia| |].
    + intros [|i] Hi; [done|]. rewrite <- Hs by lia. apply H1. lia.
    + intros Hi. rewrite <- Hs by lia. apply H2. lia.
  - exists 0%nat. splits; [lia|lia|lia|done].
Qed.

Lemma mask_prefix_mask p : 0 <= p <= 32 → mask_prefix 32 (prefix_mask p) 0 = p.
Proof.
  intros Hp. destruct (mask_prefix_ones 32 (prefix_mask p) 0 (u32_range _) ltac:(lia)) as (k & -> & Hk & H1 & H2).
  destruct (decide (Z.of_nat k = p)) as [|Hne]; [lia|]. exfalso.
  destruct (decide (Z.of_nat k < p)) as [Hlt|Hge].
  - specialize (H2 ltac:(lia)). rewrite prefix_mask_bits in H2 by lia.
    apply andb_false_iff in H2 as [H2|H2]; to_prop; lia.
  - specialize (H1 (Z.to_nat p) ltac:(lia)). rewrite prefix_mask_bits in H1 by lia. to_prop. lia.
Qed.

(** ** Choosing the interface *)

(** What both platforms search, in the order they list it: the IPv4
    addresses of the interfaces that are up and not loopback, each with
    its prefix length. *)
Definition ifaddr_candidates (l : list ifaddr) : list (ip4 * Z) :=
  flat_map (λ i,
    match ifa_addr i, ifa_netmask i with
    | Some (family, ip), Some netmask =>
      if (family =? AF_INET) && ifa_up i && negb (ifa_loopback i)
      then [(ip, mask_prefix 32 (to_host_order netmask) 0)] else []
    | _, _ => []
    end) l.

Definition unicast_candidates (us : list (option (Z * ip4) * Z)) : list (ip4 * Z) :=
  flat_map (λ u,
    match u with
    | (Some (family, ip), prefix) => if family =? AF_INET then [(ip, prefix)] else []
    | (None, _) => []
    end) us.

Definition adapter_candidates (adapters : list adapter) : list (ip4 * Z) :=
  flat_map (λ a,
    if ad_up a && negb (ad_software_loopback a) then unicast_candidates (ad_unicast a) else []) adapters.

Fixpoint first_overlap (lo hi : Z) (cs : list (ip4 * Z)) : option ip4 :=
  match cs with
  | [] => None
  | (ip, prefix) :: cs =>
    if subnet_overlaps (to_host_order ip) prefix lo hi then Some (from_host_order (to_host_order ip))
    else first_overlap lo hi cs
  end.

Lemma first_overlap_app lo hi cs ds :
  first_overlap lo hi (cs ++ ds) =
  match first_overlap lo hi cs with Some ip => Some ip | None => first_overlap lo hi ds end.
Proof.
  induction cs as [|[ip p] cs IH]; [done|]. simpl. by destruct (subnet_overlaps _ _ _ _).
Qed.

Lemma find_ifaddr_first lo hi l :
  find_ifaddr lo hi l = first_overlap lo hi (ifaddr_candidates l).
Proof.
  induction l as [|i l IH]; [done|].
  unfold ifaddr_candidates in *. cbn [flat_map find_ifaddr]. rewrite first_overlap_app, <- IH.
  destruct (ifa_addr i) as [[family ip]|], (ifa_netmask i) as [nm|]; try reflexivity.
  destruct (family =? AF_INET), (ifa_up i), (ifa_loopback i); try reflexivity.
  cbn [negb orb andb first_overlap]. by destruct (subnet_overlaps _ _ _ _).
Qed.

Lemma find_unicast_first lo hi us :
  find_unicast lo hi us = first_overlap lo hi (unicast_candidates us).
Proof.
  induction us as [|[[[family ip]|] p] us IH]; [done| |done]. cbn [find_unicast].
  unfold unicast_candidates in *; cbn [flat_map].
  destruct (family =? AF_INET); cbn [negb app first_overlap]; [|done].
  by destruct (subnet_overlaps _ _ _ _); [|rewrite IH].
Qed.

Lemma find_adapter_first lo hi adapters :
  find_adapter lo hi adapters = first_overlap lo hi (adapter_candidates adapters).
Proof.
  induction adapters as [|a adapters IH]; [done|].
  unfold adapter_candidates in *. cbn [flat_map find_adapter]. rewrite first_overlap_app, <- IH.
  destruct (ad_up a), (ad_software_loopback a); try reflexivity.
  cbn [negb andb]. by rewrite find_unicast_first.
Qed.

(** The subnet of a candidate shares an address with lo..hi, and is not a
    point-to-point /32. *)
Definition meets (lo hi : Z) (c : ip4 * Z) : Prop :=
  0 < c.2 < 32 ∧ ∃ x, in_subnet (ip_value c.1) c.2 x ∧ lo <= x <= hi.

Definition candidate_ok (c : ip4 * Z) : Prop := ip_ok c.1 ∧ 0 <= c.2.

(** The first candidate that meets the range, or nothing when none does. *)
Definition chosen (lo hi : Z) (cs : list (ip4 * Z)) (r : option ip4) : Prop :=
  match r with
  | Some ip => ∃ pre p post, cs = pre ++ (ip, p) :: post ∧ meets lo hi (ip, p) ∧
      Forall (λ c, ¬ meets lo hi c) pre
  | None => Forall (λ c, ¬ meets lo hi c) cs
  end.

Lemma first_overlap_chosen lo hi cs :
  lo <= hi → Forall candidate_ok cs → chosen lo hi cs (first_overlap lo hi cs).
Proof.
  intros Hle. induction 1 as [|[ip p] cs [Hip Hp] _ IH]; simpl in *; [constructor|].
  rewrite to_host_order_value by done. pose proof (ip_value_range ip Hip) as Hv.
  pose proof (subnet_overlaps_iff (ip_value ip) p lo hi Hv Hp Hle) as Hiff.
  destruct (subnet_overlaps (ip_value ip) p lo hi).
  - rewrite <- to_host_order_value, from_to_host_order by done.
    exists [], p, cs. splits; [done| |constructor]. by apply Hiff.
  - assert (¬ meets lo hi (ip, p)) as Hn by (intros Hm; by apply Hiff in Hm).
    unfold chosen in *. destruct (first_overlap lo hi cs) as [a|]; [|by constructor].
    destruct IH as (pre & q & post & -> & Hm & Hpre). exists ((ip, p) :: pre), q, post.
    splits; [done|done|by constructor].
Qed.

Section Runs.
Context {E : Type} `{Env E}.
Variable os : platform.

(** A list of candidates the system gave. *)
Definition listed (t : list event) (cs : list (ip4 * Z)) : Prop :=
  (∃ h l, Ev GetIfAddrs (Some (h, l)) ∈ t ∧ cs = ifaddr_candidates l) ∨
  (∃ size n l, Ev (GetAdapters size) (Ok l, n) ∈ t ∧ cs = adapter_candidates l).

Definition opt_mem (p : option Z) : list res :=
  match p with Some p => [RMem p] | None => [] end.

Lemma free_opt_mem p (e : E) r e' t : free_opt p e = Some (r, e', t) → keeps_from (opt_mem p) t [].
Proof. intros Hr. unfold free_opt in Hr. run_inv; solve_keeps. Qed.

Lemma grow_adapters_run n size buf ret (e : E) r e' t :
  grow_adapters n size buf ret e = Some (r, e', t) →
  keeps_from (opt_mem buf) t (match r with Some (b, _) => opt_mem b | None => [] end) ∧
  match r with
  | Some (_, Ok l) => ret = Ok l ∨ listed t (adapter_candidates l)
  | _ => True
  end.
Proof.
  revert size buf ret e t. induction n as [|n IH]; intros size buf ret e t Hr; cbn [grow_adapters] in Hr.
  { run_inv. split; [apply keeps_from_nil|]. destruct ret; auto. }
  destruct ret as [l|err]; [run_inv; split; [apply keeps_from_nil|auto]|].
  destruct (err =? ERROR_BUFFER_OVERFLOW); [|run_inv; split; [apply keeps_from_nil|auto]].
  apply bind_inv in Hr as ([] & e1 & t1 & u1 & Hf%free_opt_mem & Hr & ->).
  apply bind_inv in Hr as (b & e2 & t2 & u2 & [_ ->]%ask_inv & Hr & ->).
  destruct b as [b|]; [|run_inv; split; [eapply keeps_from_app; [exact Hf|solve_keeps]|done]].
  apply bind_inv in Hr as ([ret' size'] & e3 & t3 & u3 & [_ ->]%ask_inv & Hr & ->).
  apply IH in Hr as [Hk Hl]. split.
  - eapply keeps_from_app; [exact Hf|].
    eapply (keeps_from_app _ [_]); [|eapply (keeps_from_app _ [_]); [|exact Hk]]; solve_keeps.
  - destruct r as [[b' [l|]]|]; [|done..]. right. destruct Hl as [->|[(h & l' & Hin & ?)|(s & m & l' & Hin & ->)]].
    + right. exists size, size', l. split; [in_list|done].
    + left. exists h, l'. split; [in_list|done].
    + right. exists s, m, l'. split; [in_list|done].
Qed.

(** What mc_local_address answers: nothing when no list was to be had, or
    the search of one it got. *)
Lemma mc_local_address_run first last (e : E) r e' t :
  mc_local_address os (Some first) (Some last) true e = Some (r, e', t) →
  keeps t [] ∧
  (r = None ∨ ∃ cs, listed t cs ∧
    r = first_overlap (to_host_order first) (to_host_order last) cs).
Proof.
  intros Hr. cbn [mc_local_address] in Hr.
  assert (∀ u, (got ← ask GetIfAddrs;
      match got with
      | None => mret None
      | Some (h, l) =>
        ask (FreeIfAddrs h);; mret (find_ifaddr (to_host_order first) (to_host_order last) l)
      end) e = Some (r, e', u) →
    keeps u [] ∧ (r = None ∨ ∃ cs, listed u cs ∧
      r = first_overlap (to_host_order first) (to_host_order last) cs)) as Hposix.
  { clear Hr. intros u Hu. apply bind_inv in Hu as (got & e1 & t1 & t2 & [_ ->]%ask_inv & Hu & ->).
    destruct got as [[h l]|]; run_inv; (split; [solve_keeps|]); [right|by left].
    exists (ifaddr_candidates l). split; [|apply find_ifaddr_first].
    left. exists h, l. split; [in_list|done]. }
  destruct os; [by apply Hposix|by apply Hposix|]. clear Hposix.
  apply bind_inv in Hr as ([] & e1 & t1 & u1 & Hwsa & Hr & ->).
  assert (Forall neutral t1) as Hn.
  { assert (logs neutral (win_wsa_init_once (E := E))) as Hl
      by (unfold win_wsa_init_once, win_wsa_do_startup; solve_logs). by eapply Hl. }
  apply bind_inv in Hr as (got & e2 & t2 & u2 & Hg & Hr & ->).
  apply grow_adapters_run in Hg as [Hk Hl].
  apply (keeps_from_neutral []) in Hn.
  enough (keeps_from (match got with Some (b, _) => opt_mem b | None => [] end) u2 [] ∧
    (r = None ∨ ∃ cs, listed t2 cs ∧
       r = first_overlap (to_host_order first) (to_host_order last) cs)) as [Hu Hres].
  { split.
    - apply keeps_keeps_from. eapply keeps_from_app; [exact Hn|].
      eapply keeps_from_app; [exact Hk|exact Hu].
    - destruct Hres as [|(cs & Hcs & ->)]; [by left|right]. exists cs. split; [|done].
      destruct Hcs as [(h & l & Hin & ?)|(sz & n & l & Hin & ?)]; [left; exists h, l|right; exists sz, n, l];
        (split; [in_list|done]). }
  destruct got as [[buf [l|err]]|].
  - apply bind_inv in Hr as ([] & e3 & t3 & u3 & Hf%free_opt_mem & Hr & ->). run_inv.
    rewrite app_nil_r. split; [exact Hf|]. right. exists (adapter_candidates l).
    split; [by destruct Hl|apply find_adapter_first].
  - apply bind_inv in Hr as ([] & e3 & t3 & u3 & Hf%free_opt_mem & Hr & ->). run_inv.
    rewrite app_nil_r. split; [exact Hf|by left].
  - run_inv. split; [apply keeps_from_nil|by left].
Qed.

(** Opening: what it asked of the socket it keeps. *)
Definition opened (local : ip4) (sock : Z) (t : list event) : Prop :=
  Ev (Bind sock (SA AF_INET INADDR_ANY 0)) (Ok ()) ∈ t ∧
  (∃ r, Ev (SetOpt sock (OptMulticastIf local)) r ∈ t) ∧
  (∃ r, Ev (SetOpt sock (OptMulticastTtl 1)) r ∈ t).

Lemma mc_open_run local (e : E) r e' t :
  mc_open os (Some local) e = Some (r, e', t) →
  keeps t (match r with Some s => [RSock s] | None => [] end) ∧
  match r with Some s => opened local s t | None => True end.
Proof.
  intros Hr. cbn [mc_open] in Hr.
  apply bind_inv in Hr as (s & e1 & t1 & u1 & Hs%ns_udp_socket_keeps & Hr & ->).
  destruct s as [s|]; [|run_inv; by rewrite app_nil_r].
  apply bind_inv in Hr as ([] & e2 & t2 & u2 & Ho & Hr & ->).
  assert (Forall neutral t2) as Hn by (destruct os; run_inv; repeat constructor). clear Ho.
  apply bind_inv in Hr as (b & e3 & t3 & u3 & [_ ->]%ask_inv & Hr & ->). unfold ns_close in Hr.
  assert (∀ v held, keeps_from [RSock s] v held → keeps (t1 ++ t2 ++ v) held) as Hkeep.
  { intros v held Hv. apply keeps_keeps_from. eapply keeps_from_app; [exact Hs|].
    eapply keeps_from_app; [by apply keeps_from_neutral|exact Hv]. }
  destruct b as [[]|]; run_inv; (split; [apply Hkeep; solve_keeps|]); [|done].
  split; [in_list|]. split; eexists; in_list.
Qed.
End Runs.

(** ** Properties *)

(** host order.  [to_host_order] and [from_host_order] are inverse to
    each other on addresses and 32-bit words, and [to_host_order] orders
    addresses as numbers. *)
Theorem host_order_roundtrip :
  (∀ ip, ip_ok ip → from_host_order (to_host_order ip) = ip ∧ to_host_order ip = ip_value ip) ∧
  (∀ v, is_u32 v → to_host_order (from_host_order v) = v ∧ ip_ok (from_host_order v)).
Proof.
  split.
  - intros ip Hip. split; [by apply from_to_host_order|by apply to_host_order_value].
  - intros v Hv. split; [by apply to_from_host_order|apply from_host_order_ok].
Qed.

(** [subnet_overlaps] is true exactly when the subnet has a prefix of
    1 to 31 bits and contains an address of first..last. *)
Theorem subnet_overlaps_exact addr prefix first last :
  is_u32 addr → 0 <= prefix → first <= last →
  subnet_overlaps addr prefix first last = true ↔
  0 < prefix < 32 ∧ ∃ x, in_subnet addr prefix x ∧ first <= x <= last.
Proof. apply subnet_overlaps_iff. Qed.

(** the loop over the netmask counts its leading ones (so a
    contiguous netmask gives back its prefix length), and never runs more
    than 32 rounds. *)
Theorem mask_prefix_leading_ones m :
  is_u32 m →
  (∃ k, mask_prefix 32 m 0 = Z.of_nat k ∧ (k ≤ 32)%nat ∧
    (∀ i, (i < k)%nat → Z.testbit m (31 - Z.of_nat i) = true) ∧
    ((k < 32)%nat → Z.testbit m (31 - Z.of_nat k) = false)) ∧
  (∀ p, 0 <= p <= 32 → m = prefix_mask p → mask_prefix 32 m 0 = p).
Proof.
  intros Hm. split.
  - destruct (mask_prefix_ones 32 m 0 Hm ltac:(lia)) as (k & ? & ?). by exists k.
  - intros p Hp ->. by apply mask_prefix_mask.
Qed.

Section Properties.
Context {E : Type} `{Env E}.

(** on every platform [mc_local_address] answers with the address of
    the first listed interface (up, not loopback) whose subnet meets
    first..last, fails (None) when it has listed the interfaces and none
    does, or when listing them failed; and it frees the list. *)
Theorem mc_local_address_first os first last (e : E) r e' t :
  ip_ok first → ip_ok last → ip_value first <= ip_value last →
  mc_local_address os (Some first) (Some last) true e = Some (r, e', t) →
  keeps t [] ∧
  (r = None ∨ ∃ cs, listed t cs ∧
    (Forall candidate_ok cs → chosen (ip_value first) (ip_value last) cs r)).
Proof.
  intros Hf Hl Hle Hr. apply mc_local_address_run in Hr as [Hk Hr]. split; [done|].
  destruct Hr as [|(cs & Hcs & ->)]; [by left|right]. exists cs. split; [done|].
  intros Hok. rewrite !to_host_order_value by done. by apply first_overlap_chosen.
Qed.

(** [mc_open] hands out a socket bound to an ephemeral port, with its
    multicast interface set to [local] and a TTL of 1, or no socket; then
    it has closed the one it opened. *)
Theorem mc_open_owned os local (e : E) r e' t :
  mc_open os (Some local) e = Some (r, e', t) →
  keeps t (match r with Some s => [RSock s] | None => [] end) ∧
  match r with Some s => opened local s t | None => True end.
Proof. apply mc_open_run. Qed.

(** How a receive can end: [asked] is its last request, if it got as far
    as receiving. *)
Inductive recv_end (os : platform) (s cap : Z) (ready : Z) : list event → Z * option (ip4 * list Z) → Prop :=
| RecvNothing t : ready = 0 → recv_end os s cap ready t (0, None)
| RecvWaitError t : ready < 0 → recv_end os s cap ready t (-1, None)
| RecvDatagram t data from :
    0 < ready → last t = Some (Ev (RecvFrom s cap) (Ok (data, from))) → sa_family from = AF_INET →
    recv_end os s cap ready t
      (Z.of_nat (length (buffer cap data)), Some (sa_ip from, buffer cap data))
| RecvOtherFamily t data from :
    0 < ready → last t = Some (Ev (RecvFrom s cap) (Ok (data, from))) → sa_family from ≠ AF_INET →
    recv_end os s cap ready t (0, None)
| RecvFailed t err :
    0 < ready → last t = Some (Ev (RecvFrom s cap) (Err err)) →
    recv_end os s cap ready t (if recv_ignores os err then 0 else -1, None).

(** receiving.  [mc_recv] first waits for the socket with
    [ns_wait_readable]; nothing ready is 0 and a failed wait -1.  Otherwise
    it answers with the IPv4 datagram it received and its sender, 0 for one
    of another family or an error that does not end the listener, or -1. *)
Theorem mc_recv_end os fuel sock timeout cap (e : E) r e' t :
  0 <= cap < 2147483648 →
  mc_recv os fuel (Some sock) timeout (Some cap) true e = Some (r, e', t) →
  ∃ ready e1 t1, ns_wait_readable os fuel sock timeout e = Some (ready, e1, t1) ∧
    recv_end os sock cap ready t r ∧ r.1 <= cap.
Proof.
  intros Hcap Hr. cbn [mc_recv] in Hr. rewrite (i32_id cap) in Hr by (unfold is_i32; lia).
  apply bind_inv in Hr as (ready & e1 & t1 & u1 & Hw & Hr & ->).
  exists ready, e1, t1. split; [done|]. case_test.
  { run_inv. split; [by constructor|simpl; lia]. }
  case_test; [run_inv; split; [by constructor|simpl; lia]|].
  apply bind_inv in Hr as (x & e2 & t2 & u2 & [_ ->]%ask_inv & Hr & ->).
  assert (0 < ready) by lia. destruct x as [[data from]|err].
  - case_test; run_inv; rewrite app_nil_r.
    + split; [|simpl; lia]. eapply RecvOtherFamily; [done|by rewrite last_snoc|done].
    + split; [|simpl; apply length_buffer; lia]. eapply RecvDatagram; [done|by rewrite last_snoc|done].
  - run_inv. rewrite app_nil_r. split; [|simpl; case_match; lia].
    eapply RecvFailed; [done|by rewrite last_snoc].
Qed.

(** sending.  [mc_send] is 0 exactly when the whole datagram was
    accepted for [ip]:[port]. *)
Theorem mc_send_whole sock ip port data (e : E) r e' t :
  Z.of_nat (length data) < 2147483648 →
  mc_send (Some sock) (Some ip) port (Some data) e = Some (r, e', t) →
  ∃ x, t = [Ev (SendTo sock data (SA AF_INET ip port)) x] ∧
    (r = 0 ∨ r = -1) ∧
    (∀ n, x = Ok n → is_i32 n → (r = 0 ↔ n = Z.of_nat (length data))) ∧
    (∀ err, x = Err err → r = -1).
Proof.
  intros Hlen Hr. cbn [mc_send] in Hr. run_inv.
  match goal with |- ∃ x, [Ev _ ?y] ++ [] = _ ∧ _ => exists y end. split; [done|].
  rewrite (i32_id (Z.of_nat (length data))) by (unfold is_i32; lia). splits.
  - case_match; auto.
  - intros n -> Hn. rewrite i32_id by done. case_match; to_prop; intuition lia.
  - intros err ->. by rewrite (proj2 (Z.eqb_neq _ _)) by lia.
Qed.
End Properties.

(** ** Witnesses *)

Definition home : ifaddr := IfAddr (Some (AF_INET, IP 192 168 1 20)) (Some (IP 255 255 255 0)) true false.
Definition tunnel : ifaddr := IfAddr (Some (AF_INET, IP 10 8 0 2)) (Some (IP 255 255 255 255)) true false.

Definition laptop : script :=
  {| sc_now := 0; sc_fd := 3; sc_polls := [Ok [1]]; sc_selects := []; sc_sends := [];
     sc_recvs := [Ok ([1; 2; 3], SA AF_INET (IP 192 168 1 7) 5353)];
     sc_connects := []; sc_mallocs := []; sc_files := []; sc_size := 0;
     sc_ifaddrs := [tunnel; home]; sc_local := Ok idle_addr; sc_peer := Ok idle_addr;
     sc_soerror := Ok 0; sc_stops := []; sc_rows := [];
     sc_echo2 := []; sc_pending := []; sc_parsed := []; sc_jobs := [];
     sc_caps := [] |}.

Lemma host_order_roundtrip_witness :
  from_host_order (to_host_order (IP 192 168 1 20)) = IP 192 168 1 20.
Proof. apply (proj1 host_order_roundtrip). vm_compute. repeat constructor; congruence. Defined.

Lemma subnet_overlaps_exact_witness :
  subnet_overlaps 3232235796 24 3232235777 3232235900 = true ∧
  (0 < 24 < 32 ∧ ∃ x, in_subnet 3232235796 24 x ∧ 3232235777 <= x <= 3232235900).
Proof.
  split; [here|]. apply (subnet_overlaps_exact 3232235796 24 3232235777 3232235900);
    [unfold is_u32; lia|lia|lia|here].
Defined.

Lemma mask_prefix_leading_ones_witness :
  mask_prefix 32 4294967040 0 = 24 ∧
  ∃ k, mask_prefix 32 4294967040 0 = Z.of_nat k ∧ (k ≤ 32)%nat ∧
    (∀ i, (i < k)%nat → Z.testbit 4294967040 (31 - Z.of_nat i) = true) ∧
    ((k < 32)%nat → Z.testbit 4294967040 (31 - Z.of_nat k) = false).
Proof.
  split; [here|]. apply (mask_prefix_leading_ones 4294967040). unfold is_u32. lia.
Defined.

Lemma mc_local_address_first_witness :
  ∃ r e' t, mc_local_address Linux (Some (IP 192 168 1 1)) (Some (IP 192 168 1 254)) true laptop
      = Some (r, e', t) ∧
    r = Some (IP 192 168 1 20) ∧ keeps t [] ∧
    (r = None ∨ ∃ cs, listed t cs ∧
      (Forall candidate_ok cs →
       chosen (ip_value (IP 192 168 1 1)) (ip_value (IP 192 168 1 254)) cs r)).
Proof.
  run_here. split; [here|].
  refine (mc_local_address_first Linux (IP 192 168 1 1) (IP 192 168 1 254) laptop _ _ _ _ _ _ _);
    [vm_compute; repeat constructor; congruence..|here|here].
Defined.

Lemma mc_open_owned_witness :
  ∃ r e' t, mc_open Windows (Some (IP 192 168 1 20)) laptop = Some (r, e', t) ∧
    r = Some 3 ∧ keeps t (match r with Some s => [RSock s] | None => [] end) ∧
    match r with Some s => opened (IP 192 168 1 20) s t | None => True end.
Proof.
  run_here. split; [here|]. refine (mc_open_owned Windows (IP 192 168 1 20) laptop (Some 3) _ _ _). here.
Defined.

Lemma mc_recv_end_witness :
  ∃ r e' t, mc_recv Linux 3 (Some 3) 100 (Some 1500) true laptop = Some (r, e', t) ∧
    r = (3, Some (IP 192 168 1 7, [1; 2; 3])) ∧
    ∃ ready e1 t1, ns_wait_readable Linux 3 3 100 laptop = Some (ready, e1, t1) ∧
      recv_end Linux 3 1500 ready t r ∧ r.1 <= 1500.
Proof.
  run_here. split; [here|]. refine (mc_recv_end Linux 3 3 100 1500 laptop _ _ _ _ _); [lia|here].
Defined.

Lemma mc_send_whole_witness :
  ∃ r e' t, mc_send (Some 3) (Some (IP 224 0 0 251)) 5353 (Some [1; 2]) laptop = Some (r, e', t) ∧
    r = 0 ∧ ∃ x, t = [Ev (SendTo 3 [1; 2] (SA AF_INET (IP 224 0 0 251) 5353)) x] ∧
      (r = 0 ∨ r = -1) ∧
      (∀ n, x = Ok n → is_i32 n → (r = 0 ↔ n = 2)) ∧ (∀ err, x = Err err → r = -1).
Proof.
  run_here. split; [here|].
  refine (mc_send_whole 3 (IP 224 0 0 251) 5353 [1; 2] laptop _ _ _ _ _); [done|here].
Defined.
