(* ===== verification/Resolver.v ===== *)
(** * resolver.c: name queries, files and SendARP

    [udp_exchange_all] is the part with state: an array of waiting sockets
    that a backwards pass compacts by moving the last one into a settled
    one's slot.  [waiting] is that array up to [pending], each socket with
    its owner[] entry; the answers (resp_len and what was written to resp)
    are a list indexed like xs[]. *)
From S2P Require Import Prelude Words Decimal Sys Script NsSocket.
Open Scope Z_scope.

(** ** resolve_ptr *)

(** ".in-addr.arpa" *)
Definition in_addr_arpa : list Z := [46; 105; 110; 45; 97; 100; 100; 114; 46; 97; 114; 112; 97].

(** snprintf(out, len, ...): what the buffer holds before its NUL. *)
Definition snprintf (len : Z) (text : list Z) : list Z := take (Z.to_nat (len - 1)) text.

(** "%u.%u.%u.%u.in-addr.arpa" with the bytes backwards *)
Definition ptr_name (addr : ip4) : list Z :=
  fmt_u (ip_d addr) ++ [46] ++ fmt_u (ip_c addr) ++ [46] ++ fmt_u (ip_b addr) ++ [46] ++
  fmt_u (ip_a addr) ++ in_addr_arpa.

Definition DNS_TYPE_PTR : Z := 12.

(** for (r = records; r; r = r->pNext): the first PTR record with a name *)
Fixpoint first_ptr (records : list dns_record) : option (list Z) :=
  match records with
  | [] => None
  | r :: records =>
    match dr_name r with
    | None => first_ptr records
    | Some name => if negb (dr_type r =? DNS_TYPE_PTR) then first_ptr records else Some name
    end
  end.

Section Names.
Context {E : Type} `{Env E}.
Variable os : platform.

(** The name written to out_buf (its bytes before the NUL), or None for
    -1; [ip_address] is None and [out_buf] false for null pointers. *)
Definition resolve_ptr (ip_address : option (list Z)) (out_buf : bool) (out_len : Z)
    : M E (option (list Z)) :=
  match os with
  | Windows =>
    match ip_address with
    | Some text =>
      if negb out_buf || (out_len =? 0) then mret None
      else
        addr ← ns_inet_pton text;
        match addr with
        | None => mret None
        | Some addr =>
          r ← ask (DnsQueryPtr (snprintf 32 (ptr_name addr)));
          match r with
          | Err _ => mret None
          | Ok (h, records) =>
            let ret := snprintf out_len <$> first_ptr records in
            ask (DnsFree h);;
            mret ret
          end
        end
    | None => mret None
    end
  | _ =>
    ns_socket_init os;;
    match ip_address with
    | Some text =>
      if negb out_buf || (out_len =? 0) then mret None
      else
        addr ← ns_inet_pton text;
        match addr with
        | None => mret None
        | Some addr => ask (GetNameInfo addr out_len)
        end
    | None => mret None
    end
  end.

(** The MAC address written to out_mac, or None for -1. *)
Definition get_mac_sendarp (ip_address : option (list Z)) (out_mac : bool) : M E (option (list Z)) :=
  match os with
  | Windows =>
    win_wsa_init_once;;
    match ip_address with
    | Some text =>
      if negb out_mac then mret None
      else
        addr ← ask (InetPton text);
        match addr with
        | None => mret None
        | Some addr =>
          ret ← ask (SendArp addr);
          match ret with
          | Ok (mac, mac_len) => mret (if mac_len =? 6 then Some (take 6 mac) else None)
          | Err _ => mret None
          end
        end
    | None => mret None
    end
  | _ => mret None
  end.
End Names.

(** ** udp_exchange_all *)

(** ns_udp_exchange, without its out-fields. *)
Record ns_udp_exchange := Exchange { x_req : list Z; x_cap : Z; x_port : Z }.

(** resp_len and the bytes of resp. *)
Definition answer : Type := Z * list Z.

Definition no_answer : answer := (-1, []).

Section Exchange.
Context {E : Type} `{Env E}.
Variable os : platform.

(** for (i = 0; i < count; i++): a connected socket per request. *)
Fixpoint send_requests (ip : ip4) (i : nat) (xs : list ns_udp_exchange) (waiting : list (Z * nat))
    : M E (list (Z * nat)) :=
  match xs with
  | [] => mret waiting
  | x :: xs =>
    sock ← ns_udp_socket os;
    match sock with
    | None => send_requests ip (S i) xs waiting
    | Some sock =>
      c ← ask (Connect sock (SA AF_INET ip (x_port x)));
      match c with
      | Err _ => ns_close sock;; send_requests ip (S i) xs waiting
      | Ok _ =>
        r ← ask (Send sock (x_req x));
        let sent := match r with Ok n => n | Err _ => -1 end in
        if negb (sent =? i32 (Z.of_nat (length (x_req x)))) then
          ns_close sock;; send_requests ip (S i) xs waiting
        else send_requests ip (S i) xs (waiting ++ [(sock, i)])
      end
    end
  end.

(** for (j = pending - 1; j >= 0; j--): [j] is one more than the index. *)
Fixpoint settle_ready (xs : list ns_udp_exchange) (ready : list bool) (j : nat)
    (waiting : list (Z * nat)) (answers : list answer) : M E (list (Z * nat) * list answer) :=
  match j with
  | O => mret (waiting, answers)
  | S j =>
    match ready !! j, waiting !! j with
    | Some true, Some (sock, i) =>
      let cap := i32 (default 0 (x_cap <$> xs !! i)) in
      r ← ask (Recv sock cap);
      match r with
      | Err err =>
        if ns_would_block os err then settle_ready xs ready j waiting answers
        else
          ns_close sock;;
          settle_ready xs ready j (swap_remove j waiting) (<[i := (-1, [])]> answers)
      | Ok data =>
        let data := buffer cap data in
        ns_close sock;;
        settle_ready xs ready j (swap_remove j waiting)
          (<[i := (Z.of_nat (length data), data)]> answers)
      end
    | _, _ => settle_ready xs ready j waiting answers
    end
  end.

(** One round of while (pending > 0). *)
Definition exchange_round (xs : list ns_udp_exchange) (deadline : Z) (fuel : nat)
    (st : list (Z * nat) * list answer)
    : M E (list (Z * nat) * list answer + list (Z * nat) * list answer) :=
  let '(waiting, answers) := st in
  if (length waiting =? 0)%nat then mret (inr st)
  else
    now ← ns_now_ms os;
    let left := deadline - now in
    if left <=? 0 then mret (inr st)
    else
      '(n, ready) ← ns_wait_any os fuel waiting.*1 (i32 left);
      if n <=? 0 then mret (inr st)
      else
        st ← settle_ready xs ready (length waiting) waiting answers;
        mret (inl st).

(** for (j = 0; j < pending; j++) ns_close(waiting[j]) *)
Fixpoint close_waiting (waiting : list (Z * nat)) : M E unit :=
  match waiting with
  | [] => mret ()
  | (sock, _) :: waiting => ns_close sock;; close_waiting waiting
  end.

(** The answers, one per request; [ip] is None for a null pointer. *)
Definition udp_exchange_all (fuel : nat) (ip : option ip4) (xs : list ns_udp_exchange)
    (timeout_ms : Z) : M E (list answer) :=
  let answers := map (λ _, no_answer) xs in
  match ip with
  | Some ip =>
    if (length xs =? 0)%nat || (Z.of_nat (length xs) >? NS_WAIT_MAX) || (timeout_ms <=? 0)
    then mret answers
    else
      waiting ← send_requests ip 0 xs [];
      now ← ns_now_ms os;
      '(waiting, answers) ← loop fuel (exchange_round xs (now + timeout_ms) fuel) (waiting, answers);
      close_waiting waiting;;
      mret answers
  | None => mret answers
  end.
End Exchange.

(** ** Files *)

Definition MAX_FILE : Z := 64 * 1024 * 1024.

Section Files.
Context {E : Type} `{Env E}.

(** The buffer and the bytes in it before the NUL, or None. *)
Definition read_file_content (path : option (list Z)) (out_len : bool) : M E (option (Z * list Z)) :=
  match path, out_len with
  | Some path, true =>
    f ← ask (Fopen path);
    match f with
    | None => mret None
    | Some f =>
      ask (Fseek f true);;
      size ← ask (Ftell f);
      if (size <? 0) || (size >? MAX_FILE) then ask (Fclose f);; mret None
      else
        ask (Fseek f false);;
        buf ← ask (Malloc (u64 (size + 1)));
        match buf with
        | None => ask (Fclose f);; mret None
        | Some buf =>
          data ← ask (Fread f size);
          ask (Fclose f);;
          mret (Some (buf, buffer size data))
        end
    end
  | _, _ => mret None
  end.

Definition free_file_content (ptr : option Z) : M E unit := free_opt ptr.
End Files.

(** ** The query name *)

Lemma ptr_name_length addr : ip_ok addr → (length (ptr_name addr) ≤ 28)%nat.
Proof.
  intros (?&?&?&?)%ip_ok_bytes. unfold ptr_name. rewrite !length_app. cbn [length in_addr_arpa].
  repeat match goal with H : is_u8 ?b |- _ => apply fmt_u_byte in H as [_ H] end. lia.
Qed.

(** ** The exchange *)

(** The sockets received from, in order. *)
Definition recv_socks (t : list event) : list Z :=
  flat_map (λ ev, match ev with Ev (Recv s _) _ => [s] | _ => [] end) t.

Lemma recv_socks_app t u : recv_socks (t ++ u) = recv_socks t ++ recv_socks u.
Proof. apply flat_map_app. Qed.

(** The waiting sockets that are ready, in array order. *)
Definition ready_socks (waiting : list (Z * nat)) (ready : list bool) : list Z :=
  flat_map (λ p, if (p.2 : bool) then [p.1.1] else []) (zip waiting ready).

Lemma ready_socks_snoc w p ready b :
  length w = length ready →
  ready_socks (w ++ [p]) (ready ++ [b]) = ready_socks w ready ++ (if b then [p.1] else []).
Proof.
  intros Hl. unfold ready_socks. rewrite zip_with_app, flat_map_app by done. simpl. by destruct b.
Qed.

(** What a request has been answered with: nothing yet or a failure, or a
    datagram received on a socket connected to its port. *)
Definition answer_ok (ip : ip4) (xs : list ns_udp_exchange) (t : list event) (i : nat) (a : answer) : Prop :=
  a = no_answer ∨
  ∃ x sock data, xs !! i = Some x ∧ Ev (Connect sock (SA AF_INET ip (x_port x))) (Ok ()) ∈ t ∧
    Ev (Recv sock (i32 (x_cap x))) (Ok data) ∈ t ∧
    a = (Z.of_nat (length (buffer (i32 (x_cap x)) data)), buffer (i32 (x_cap x)) data).

(** [waiting] holds each unanswered request at most once, on a socket
    connected to its port. *)
Record exchange_inv (ip : ip4) (xs : list ns_udp_exchange) (waiting : list (Z * nat))
    (answers : list answer) (t : list event) : Prop := {
  ex_owners : NoDup waiting.*2;
  ex_waiting : ∀ sock i, (sock, i) ∈ waiting → answers !! i = Some no_answer ∧
    ∃ x, xs !! i = Some x ∧ Ev (Connect sock (SA AF_INET ip (x_port x))) (Ok ()) ∈ t;
  ex_length : length answers = length xs;
  ex_answers : ∀ i a, answers !! i = Some a → answer_ok ip xs t i a
}.

Lemma answer_ok_app ip xs t u i a : answer_ok ip xs t i a → answer_ok ip xs (t ++ u) i a.
Proof.
  intros [|(x & s & d & ? & ? & ? & ?)]; [by left|right]. exists x, s, d.
  splits; [done|in_list|in_list|done].
Qed.

Lemma exchange_inv_app ip xs w ans t u : exchange_inv ip xs w ans t → exchange_inv ip xs w ans (t ++ u).
Proof.
  intros []. split; try done.
  - intros s i Hi. destruct (ex_waiting0 s i Hi) as [? (x & ? & ?)]. split; [done|].
    exists x. split; [done|in_list].
  - intros. by apply answer_ok_app, ex_answers0.
Qed.

(** Settling one request. *)
Lemma exchange_inv_settle ip xs w ans t j sock i a :
  exchange_inv ip xs w ans t → w !! j = Some (sock, i) → answer_ok ip xs t i a →
  exchange_inv ip xs (swap_remove j w) (<[i := a]> ans) t.
Proof.
  intros [] Hj Ha. pose proof (swap_remove_perm _ _ _ Hj) as Hp.
  assert (NoDup (i :: (swap_remove j w).*2)) as [Hi Hnd]%NoDup_cons.
  { change (NoDup (((sock, i) :: swap_remove j w).*2)). by rewrite <- Hp. }
  split; [done| |by rewrite length_insert|].
  - intros s k Hk. assert ((s, k) ∈ w) as Hw by (rewrite Hp; by apply list_elem_of_further).
    rewrite list_lookup_insert_ne; [by apply ex_waiting0|]. intros ->. apply Hi.
    apply list_elem_of_fmap. by exists (s, k).
  - intros k b Hk. destruct (decide (i = k)) as [->|].
    + apply list_lookup_insert_Some in Hk as [(_ & <- & _)|[? _]]; done.
    + rewrite list_lookup_insert_ne in Hk by done. auto.
Qed.

Section ExchangeRuns.
Context {E : Type} `{Env E}.
Variables (os : platform) (ip : ip4) (xs : list ns_udp_exchange).

(** A settled socket is closed and leaves the array. *)
Lemma settle_closes (w : list (Z * nat)) j sock i :
  w !! j = Some (sock, i) →
  keeps_from (map RSock w.*1) [Ev (CloseSock sock) ()] (map RSock (swap_remove j w).*1).
Proof. intros Hj. rewrite (swap_remove_perm _ _ _ Hj) at 1. simpl. solve_keeps. Qed.

Lemma after_recv (have held : list res) sock cap r v (P : list Z) (Q : Prop) :
  recv_socks v = P ∧ keeps_from have v held ∧ Q →
  sock :: recv_socks v = sock :: P ∧ keeps_from have (Ev (Recv sock cap) r :: v) held ∧ Q.
Proof.
  intros (-> & Hk & HQ). splits; [done| |done].
  apply (keeps_from_app _ [_] have v); [|done]. apply keeps_from_neutral. by repeat constructor.
Qed.

(** One backwards pass: every ready socket is received from once and no
    other, the sockets given up are closed, and the invariant is kept. *)
Lemma settle_ready_run ready w0 j w ans (e : E) t0 w' ans' e' t :
  (j ≤ length w)%nat → (j ≤ length w0)%nat → take j w = take j w0 → length w0 = length ready →
  exchange_inv ip xs w ans t0 →
  settle_ready os xs ready j w ans e = Some ((w', ans'), e', t) →
  recv_socks t = reverse (ready_socks (take j w0) (take j ready)) ∧
  keeps_from (map RSock w.*1) t (map RSock w'.*1) ∧
  exchange_inv ip xs w' ans' (t0 ++ t).
Proof.
  revert w ans e t0 t. induction j as [|j IH]; intros w ans e t0 t Hw Hw0 Htk Hlen Hi Hr;
    cbn [settle_ready] in Hr.
  { run_inv. splits; [done|apply keeps_from_nil|by rewrite app_nil_r]. }
  destruct (w !! j) as [[sock i]|] eqn:Hj; [|by apply lookup_ge_None in Hj; lia].
  assert (w0 !! j = Some (sock, i)) as Hj0.
  { rewrite <- (lookup_take_lt _ (S j) j), <- Htk, lookup_take_lt by lia. done. }
  destruct (ready !! j) as [b|] eqn:Hb; [|by apply lookup_ge_None in Hb; lia].
  assert (take j w = take j w0) as Htk'.
  { apply (f_equal (take j)) in Htk. by rewrite !take_take, Nat.min_l in Htk by lia. }
  rewrite (take_S_r w0 j _ Hj0), (take_S_r ready j _ Hb).
  rewrite ready_socks_snoc, reverse_app by (rewrite !length_take; lia). cbn [fst].
  destruct b; [|by apply (IH w ans e t0); [lia|lia|done|done|done|]].
  apply bind_inv in Hr as (r & e1 & t1 & u1 & [_ ->]%ask_inv & Hr & ->).
  assert (exchange_inv ip xs w ans (t0 ++ [Ev (Recv sock (i32 (default 0 (x_cap <$> xs !! i)))) r])) as Hi1
    by by apply exchange_inv_app.
  set (T := t0 ++ [Ev (Recv sock (i32 (default 0 (x_cap <$> xs !! i)))) r]) in *.
  rewrite app_assoc, recv_socks_app. fold T. cbn [recv_socks flat_map app].
  assert (∀ a v (f : E), answer_ok ip xs T i a →
    settle_ready os xs ready j (swap_remove j w) (<[i := a]> ans) f = Some ((w', ans'), e', v) →
    recv_socks ([Ev (CloseSock sock) ()] ++ v) = reverse (ready_socks (take j w0) (take j ready)) ∧
    keeps_from (map RSock w.*1) ([Ev (CloseSock sock) ()] ++ v) (map RSock w'.*1) ∧
    exchange_inv ip xs w' ans' (T ++ [Ev (CloseSock sock) ()] ++ v)) as Hsettle.
  { intros a v f Ha Hv.
    apply (IH _ _ _ (T ++ [Ev (CloseSock sock) ()])) in Hv as (H1 & H2 & H3).
    - split; [exact H1|]. split; [|by rewrite app_assoc]. eapply keeps_from_app; [|exact H2].
      by eapply settle_closes.
    - rewrite swap_remove_length by lia. lia.
    - lia.
    - rewrite swap_remove_take by lia. done.
    - done.
    - apply exchange_inv_app. by eapply exchange_inv_settle. }
  apply (after_recv _ _ _ _ _ u1). destruct r as [data|err].
  - apply bind_inv in Hr as ([] & e2 & t2 & u2 & [_ ->]%ask_inv & Hr & ->). eapply Hsettle; [|exact Hr].
    right. destruct (ex_waiting _ _ _ _ _ Hi1 sock i) as (_ & x & Hx & Hc); [by eapply list_elem_of_lookup_2|].
    subst T. rewrite Hx in *. exists x, sock, data. splits; [done|done|in_list|done].
  - destruct (ns_would_block os err).
    + by apply (IH w ans e1 T); [lia|lia|done|done|done|].
    + apply bind_inv in Hr as ([] & e2 & t2 & u2 & [_ ->]%ask_inv & Hr & ->).
      eapply Hsettle; [by left|exact Hr].
Qed.

(** Sending: an accumulator of sockets, each connected to its owner's port. *)
Definition connected_to (t : list event) (p : Z * nat) : Prop :=
  ∃ x, xs !! p.2 = Some x ∧ Ev (Connect p.1 (SA AF_INET ip (x_port x))) (Ok ()) ∈ t.

Lemma connected_to_app t u p : connected_to t p → connected_to (t ++ u) p.
Proof. intros (x & ? & ?). exists x. split; [done|in_list]. Qed.

Lemma connected_to_app_r t u p : connected_to u p → connected_to (t ++ u) p.
Proof. intros (x & ? & ?). exists x. split; [done|in_list]. Qed.

Definition sending (i : nat) (waiting : list (Z * nat)) (t : list event) : Prop :=
  NoDup waiting.*2 ∧ Forall (λ p, (p.2 < i)%nat ∧ connected_to t p) waiting.

Lemma sending_weaken i w t u : sending i w t → sending (S i) w (t ++ u).
Proof.
  intros [Hn Hw]. split; [done|]. eapply Forall_impl; [exact Hw|].
  intros p [? ?]. split; [lia|by apply connected_to_app].
Qed.

Lemma sending_snoc i w t sock :
  sending i w t → connected_to t (sock, i) → sending (S i) (w ++ [(sock, i)]) t.
Proof.
  intros [Hn Hw] Hc. split.
  - rewrite fmap_app. apply NoDup_app. split; [done|]. split; [|apply NoDup_singleton].
    intros k (p & -> & Hp)%list_elem_of_fmap Hk%list_elem_of_singleton.
    rewrite Forall_forall in Hw. destruct (Hw p Hp). simpl in *. lia.
  - apply Forall_app. split; [|by repeat constructor; simpl].
    eapply Forall_impl; [exact Hw|]. intros p [? ?]. split; [lia|done].
Qed.

Lemma send_requests_run rest i w (e : E) w' e' t0 t :
  drop i xs = rest → sending i w t0 →
  send_requests os ip i rest w e = Some (w', e', t) →
  keeps_from (map RSock w.*1) t (map RSock w'.*1) ∧ sending (length xs) w' (t0 ++ t).
Proof.
  revert i w e t0 t. induction rest as [|x rest IH]; intros i w e t0 t Hd Hs Hr; cbn [send_requests] in Hr.
  { run_inv. split; [apply keeps_from_nil|]. rewrite app_nil_r.
    assert (length xs ≤ i)%nat as Hle by (apply (f_equal length) in Hd; rewrite length_drop in Hd; simpl in Hd; lia).
    destruct Hs as [? Hw]. split; [done|]. eapply Forall_impl; [exact Hw|].
    intros p [_ (y & Hy & ?)]. split; [by eapply lookup_lt_Some|by exists y]. }
  assert (xs !! i = Some x) as Hx.
  { rewrite <- (Nat.add_0_r i), <- lookup_drop, Hd. done. }
  assert (drop (S i) xs = rest) as Hd'.
  { replace (S i) with (i + 1)%nat by lia. rewrite <- drop_drop, Hd. done. }
  apply bind_inv in Hr as (s & e1 & t1 & u1 & Hk%ns_udp_socket_keeps & Hr & ->).
  destruct s as [sock|].
  2:{ destruct (IH _ _ _ (t0 ++ t1) _ Hd' (sending_weaken _ _ _ _ Hs) Hr) as [Hk' Hs'].
      rewrite app_assoc. split; [|done]. eapply keeps_from_app; [|exact Hk'].
      apply (keeps_frame (map RSock w.*1)) in Hk. by rewrite app_nil_r in Hk. }
  apply (keeps_frame (map RSock w.*1)) in Hk.
  apply bind_inv in Hr as (c & e2 & t2 & u2 & [_ ->]%ask_inv & Hr & ->).
  (* a socket given up *)
  assert (∀ v f z, send_requests os ip (S i) rest w f = Some (w', e', v) → Forall neutral z →
    keeps_from (map RSock w.*1) (t1 ++ z ++ [Ev (CloseSock sock) ()] ++ v) (map RSock w'.*1) ∧
    sending (length xs) w' (t0 ++ t1 ++ z ++ [Ev (CloseSock sock) ()] ++ v)) as Hgive.
  { intros v f z Hv Hz.
    destruct (IH _ _ _ (t0 ++ t1 ++ z ++ [Ev (CloseSock sock) ()]) _ Hd' (sending_weaken _ _ _ _ Hs) Hv) as [Hk' Hs'].
    rewrite <- !app_assoc in Hs'. split; [|done]. eapply keeps_from_app; [exact Hk|].
    eapply keeps_from_app; [by apply keeps_from_neutral|]. eapply keeps_from_app; [|exact Hk']. solve_keeps. }
  destruct c as [[]|err].
  - apply bind_inv in Hr as (r & e3 & t3 & u3 & [_ ->]%ask_inv & Hr & ->). case_test.
    + apply bind_inv in Hr as ([] & e4 & t4 & u4 & [_ ->]%ask_inv & Hr & ->).
      apply (Hgive _ _ [_; _] Hr). by repeat constructor.
    + set (ev := Ev (Connect sock (SA AF_INET ip (x_port x))) (Ok ())) in *.
      set (ev2 := Ev (Send sock (x_req x)) r) in *.
      assert (sending (S i) (w ++ [(sock, i)]) (t0 ++ t1 ++ [ev] ++ [ev2])) as Hsend.
      { destruct Hs as [Hn Hw]. apply sending_snoc; [|exists x; split; [done|in_list]].
        split; [done|]. eapply Forall_impl; [exact Hw|]. intros p [? ?]. split; [lia|by apply connected_to_app]. }
      destruct (IH _ _ _ _ _ Hd' Hsend Hr) as [Hk' Hs'].
      rewrite <- !app_assoc in Hs'. split; [|exact Hs']. eapply keeps_from_app; [exact Hk|].
      apply (keeps_from_app _ [ev; ev2] (map RSock w.*1 ++ [RSock sock]) u3).
      { apply keeps_from_neutral. by repeat constructor. }
      rewrite fmap_app, map_app in Hk'. exact Hk'.
  - apply bind_inv in Hr as ([] & e4 & t4 & u4 & [_ ->]%ask_inv & Hr & ->).
    apply (Hgive _ _ [_] Hr). by repeat constructor.
Qed.

Lemma close_waiting_keeps w (e : E) r e' t :
  close_waiting w e = Some (r, e', t) → keeps_from (map RSock w.*1) t [].
Proof.
  revert e t. induction w as [|[s i] w IH]; intros e t Hr; cbn [close_waiting] in Hr.
  { run_inv. apply keeps_from_nil. }
  apply bind_inv in Hr as ([] & e1 & t1 & u1 & [_ ->]%ask_inv & Hr & ->).
  apply (keeps_from_app _ [_] (map RSock w.*1)); [simpl; solve_keeps|by eapply IH].
Qed.

(** What every round keeps: the resources match the array, and the answers
    are as the log says. *)
Definition exchange_state (have : list res) (st : list (Z * nat) * list answer) (t0 t : list event) : Prop :=
  keeps_from have t (map RSock st.1.*1) ∧ exchange_inv ip xs st.1 st.2 (t0 ++ t).

Lemma exchange_state_neutral have st t0 t u :
  exchange_state have st t0 t → Forall neutral u → exchange_state have st t0 (t ++ u).
Proof.
  intros [Hk Hi] Hu. split.
  - eapply keeps_from_app; [exact Hk|by apply keeps_from_neutral].
  - rewrite app_assoc. by apply exchange_inv_app.
Qed.

Lemma exchange_round_run deadline fuel st (e : E) x e' t have t0 t1 :
  exchange_state have st t0 t1 →
  exchange_round os xs deadline fuel st e = Some (x, e', t) →
  match x with inl st' | inr st' => exchange_state have st' t0 (t1 ++ t) end.
Proof.
  intros Hst Hr. destruct st as [w ans]. unfold exchange_round in Hr. case_test.
  { run_inv. by rewrite app_nil_r. }
  apply bind_inv in Hr as (now & e1 & t2 & u2 & Hn%ns_now_ms_neutral & Hr & ->).
  pose proof (exchange_state_neutral _ _ _ _ _ Hst Hn) as Hst2. case_test.
  { run_inv. by rewrite app_nil_r. }
  apply bind_inv in Hr as ([n ready] & e2 & t3 & u3 & Hw & Hr & ->).
  pose proof (ns_wait_any_neutral _ _ _ _ _ _ _ _ Hw) as Hn3.
  pose proof (exchange_state_neutral _ _ _ _ _ Hst2 Hn3) as [Hk Hi]. case_test.
  { run_inv. rewrite app_nil_r, app_assoc. by split. }
  apply ns_wait_any_length in Hw; [|lia]. rewrite length_fmap in Hw.
  apply bind_inv in Hr as ([w' ans'] & e3 & t4 & u4 & Hs & Hr & ->).
  apply (settle_ready_run ready w _ _ _ _ (t0 ++ (t1 ++ t2) ++ t3)) in Hs as (_ & Hk' & Hi'); try done.
  run_inv. rewrite app_nil_r. split.
  - rewrite !app_assoc. eapply keeps_from_app; [exact Hk|exact Hk'].
  - simpl. rewrite <- !app_assoc in *. exact Hi'.
Qed.

Lemma udp_exchange_all_run fuel timeout_ms (e : E) r e' t :
  udp_exchange_all os fuel (Some ip) xs timeout_ms e = Some (r, e', t) →
  keeps t [] ∧ length r = length xs ∧ ∀ i a, r !! i = Some a → answer_ok ip xs t i a.
Proof.
  intros Hr. unfold udp_exchange_all in Hr.
  assert (∀ t i a, map (λ _, no_answer) xs !! i = Some a → answer_ok ip xs t i a) as Hnone.
  { intros v i a Ha. left. apply list_lookup_fmap_Some in Ha as (? & -> & _). done. }
  case_test.
  { run_inv. splits; [apply (keeps_from_nil [])|apply length_map|auto]. }
  apply bind_inv in Hr as (w & e1 & t1 & u1 & Hs & Hr & ->).
  destruct (send_requests_run xs 0 [] _ _ _ [] _ eq_refl ltac:(by split; constructor) Hs) as [Hk [Hn Hw]].
  apply bind_inv in Hr as (now & e2 & t2 & u2 & Hn2%ns_now_ms_neutral & Hr & ->).
  apply bind_inv in Hr as ([w' ans] & e3 & t3 & u3 & Hl & Hr & ->).
  apply bind_inv in Hr as ([] & e4 & t4 & u4 & Hc%close_waiting_keeps & Hr & ->). run_inv.
  assert (exchange_state [] (w, map (λ _, no_answer) xs) [] (t1 ++ t2)) as Hst.
  { apply exchange_state_neutral; [|done]. split; [done|]. simpl in *. split; simpl.
    - done.
    - intros sock i Hin. rewrite Forall_forall in Hw. destruct (Hw _ Hin) as [Hlt Hcon]. simpl in *.
      split; [|done]. destruct Hcon as (x & Hx & _). simpl in Hx.
      by rewrite list_lookup_fmap, Hx.
    - apply length_map.
    - auto. }
  assert (exchange_state [] (w', ans) [] ((t1 ++ t2) ++ t3)) as [Hk' Hi'].
  { refine (loop_invariant (λ st _ t, exchange_state [] st [] t) (λ st _ t, exchange_state [] st [] t)
      _ _ _ _ _ _ _ _ _ _ Hst Hl); 
      intros ? ? ? ? ? ? HI Hb; exact (exchange_round_run _ _ _ _ _ _ _ _ _ _ HI Hb). }
  simpl in *. splits.
  - rewrite app_nil_r, !app_assoc. apply keeps_keeps_from. eapply keeps_from_app; [exact Hk'|exact Hc].
  - apply (ex_length _ _ _ _ _ Hi').
  - intros i a Ha. rewrite app_nil_r, !app_assoc. apply answer_ok_app. by apply (ex_answers _ _ _ _ _ Hi').
Qed.
End ExchangeRuns.

(** ** The exchange ends *)

Section ExchangeEnds.
Context {E : Type} `{ClockLaw E}.
Variables (os : platform) (ip : ip4) (xs : list ns_udp_exchange).

Lemma total_send_requests i rest w : total (send_requests (E := E) os ip i rest w).
Proof.
  revert i w. induction rest; intros; cbn [send_requests]; unfold ns_close; solve_total.
Qed.

Lemma total_settle_ready ready j w ans : total (settle_ready (E := E) os xs ready j w ans).
Proof. revert w ans. induction j; intros; cbn [settle_ready]; unfold ns_close; solve_total. Qed.

Lemma timely_settle_ready ready j w ans : timely (settle_ready (E := E) os xs ready j w ans).
Proof. revert w ans. induction j; intros; cbn [settle_ready]; unfold ns_close; solve_timely. Qed.

Lemma total_close_waiting w : total (close_waiting (E := E) w).
Proof. induction w as [|[]]; cbn [close_waiting]; unfold ns_close; solve_total. Qed.

Lemma exchange_round_mono deadline st :
  fuel_mono (λ n, exchange_round (E := E) os xs deadline n st).
Proof.
  destruct st as [w ans]. unfold exchange_round. destruct (_ =? _)%nat; [apply fuel_mono_const|].
  apply fuel_mono_bind; [apply fuel_mono_const|]. intros now.
  destruct (_ <=? _); [apply fuel_mono_const|].
  apply fuel_mono_bind; [apply ns_wait_any_mono|]. intros. apply fuel_mono_const.
Qed.

(** A round answers while the time left is a timeout the wait accepts, and
    goes on only before the deadline. *)
Lemma exchange_round_ends deadline st (e : E) :
  os ≠ Windows → deadline - clk e / 1000000 <= 1000000000 →
  ∃ n x e' t, exchange_round os xs deadline n st e = Some (x, e', t) ∧
    match x with
    | inl _ => clock_lt (deadline * 1000000) e' e
    | inr _ => True
    end.
Proof.
  intros Hos Hleft. destruct st as [w ans]. unfold exchange_round.
  destruct (_ =? _)%nat; [by exists 0%nat, (inr (w, ans)), e, []|].
  destruct (total_ns_now_ms os e) as [[[now e1] t1] Hnow].
  destruct (ns_now_ms_clock _ _ _ _ _ Hos Hnow) as [-> Htick].
  destruct (deadline - clk e / 1000000 <=? 0) eqn:Hz; to_prop.
  { exists 0%nat, (inr (w, ans)), e1, (t1 ++ []). split; [|done].
    eapply bind_some; [exact Hnow|]. cbv beta. by rewrite (proj2 (Z.leb_le _ _)) by lia. }
  assert (i32 (deadline - clk e / 1000000) = deadline - clk e / 1000000) as Hi by (apply i32_id; unfold is_i32; lia).
  destruct (wait_any_terminates os w.*1 (deadline - clk e / 1000000) e1) as [n Hn]; [unfold timeout_ok; lia|].
  destruct (Hn n (le_n _)) as [[[[m ready] e2] t2] Hw].
  pose proof (timely_ns_wait_any _ _ _ _ _ _ _ _ Hw) as Hl2.
  assert (clk e < deadline * 1000000) as Hd.
  { pose proof (Z.div_mod (clk e) 1000000). pose proof (Z.mod_pos_bound (clk e) 1000000). lia. }
  destruct (m <=? 0) eqn:Hm.
  { exists n, (inr (w, ans)), e2, (t1 ++ t2 ++ []). split; [|done].
    eapply bind_some; [exact Hnow|]. cbv beta. rewrite Hi, (proj2 (Z.leb_gt _ _)) by lia.
    eapply bind_some; [exact Hw|]. cbv beta iota. by rewrite Hm. }
  destruct (total_settle_ready ready (length w) w ans e2) as [[[st' e3] t3] Hs].
  pose proof (timely_settle_ready _ _ _ _ _ _ _ _ Hs) as Hl3.
  exists n, (inl st'), e3, (t1 ++ t2 ++ t3 ++ []). split.
  - eapply bind_some; [exact Hnow|]. cbv beta. rewrite Hi, (proj2 (Z.leb_gt _ _)) by lia.
    eapply bind_some; [exact Hw|]. cbv beta iota. rewrite Hm. by eapply bind_some.
  - split; [|done]. eapply ticked_later_trans; [exact Htick|]. by eapply later_trans.
Qed.

Lemma udp_exchange_all_ends timeout_ms (e : E) :
  os ≠ Windows → 0 < timeout_ms <= 1000000000 →
  ∃ n, ∀ m, (n ≤ m)%nat → is_Some (udp_exchange_all os m (Some ip) xs timeout_ms e).
Proof.
  intros Hos Ht. unfold udp_exchange_all.
  destruct (_ || _); [exists 0%nat; intros; by eexists|].
  destruct (total_send_requests 0 xs [] e) as [[[w e1] t1] Hs].
  destruct (total_ns_now_ms os e1) as [[[now e2] t2] Hnow].
  pose proof (ns_now_ms_clock _ _ _ _ _ Hos Hnow) as [-> Htick].
  destruct (loop_terminates (λ _ e', clk e1 <= clk e') (round_lt ((clk e1 / 1000000 + timeout_ms) * 1000000))
    (λ n, exchange_round os xs (clk e1 / 1000000 + timeout_ms) n) (round_lt_wf _)
    (λ st, exchange_round_mono _ st)) with (s := (w, map (λ _, no_answer) xs)) (e := e2) as [n Hn].
  - intros st f Hf.
    destruct (exchange_round_ends (clk e1 / 1000000 + timeout_ms) st f Hos) as (n & x & f' & t & Hr & Hx).
    { pose proof (Z.div_le_mono (clk e1) (clk f) 1000000). lia. }
    exists n, x, f', t. split; [done|]. destruct x; [|done]. split; [|done].
    destruct Hx as [Hx _]. unfold ticked in Hx. lia.
  - unfold ticked in Htick. lia.
  - exists n. intros m Hm. destruct (Hn m m Hm Hm) as [[[[w' ans] e3] t3] Hl].
    destruct (total_close_waiting w' e3) as [[[[] e4] t4] Hc].
    eexists. eapply bind_some; [exact Hs|]. eapply bind_some; [exact Hnow|].
    eapply bind_some; [exact Hl|]. cbv beta iota. by eapply bind_some.
Qed.
End ExchangeEnds.

(** ** Names and files *)

Section NameRuns.
Context {E : Type} `{Env E}.

(** The query text a Windows lookup asked for. *)
Definition asked_ptr (t : list event) : list (list Z) :=
  flat_map (λ ev, match ev with Ev (DnsQueryPtr q) _ => [q] | _ => [] end) t.

(** The addresses texts were parsed to. *)
Definition parsed (t : list event) : list ip4 :=
  flat_map (λ ev, match ev with Ev (InetPton _) (Some a) => [a] | _ => [] end) t.

Lemma snprintf_fits len text : Z.of_nat (length text) < len → snprintf len text = text.
Proof. intros. unfold snprintf. apply take_ge. lia. Qed.

Lemma snprintf_length len text : 0 < len → Z.of_nat (length (snprintf len text)) < len.
Proof. intros. unfold snprintf. rewrite length_take. lia. Qed.

Lemma resolve_ptr_windows_run text out_len (e : E) r e' t :
  resolve_ptr Windows (Some text) true out_len e = Some (r, e', t) → 0 < out_len →
  keeps t [] ∧
  (∀ addr, addr ∈ parsed t → ip_ok addr → asked_ptr t = [ptr_name addr]) ∧
  (∀ name, r = Some name → Z.of_nat (length name) < out_len).
Proof.
  intros Hr Hlen. cbn [resolve_ptr] in Hr. rewrite (proj2 (Z.eqb_neq _ _)) in Hr by lia.
  cbn [negb orb] in Hr. unfold ns_inet_pton in Hr.
  apply bind_inv in Hr as (addr & e1 & t1 & u1 & [_ ->]%ask_inv & Hr & ->).
  destruct addr as [addr|]; [|run_inv; splits; [solve_keeps|intros a Ha; by apply elem_of_nil in Ha|done]].
  apply bind_inv in Hr as (q & e2 & t2 & u2 & [_ ->]%ask_inv & Hr & ->).
  assert (∀ v, parsed v = [] → asked_ptr v = [] → ∀ a,
    a ∈ parsed ([Ev (InetPton text) (Some addr)] ++ [Ev (DnsQueryPtr (snprintf 32 (ptr_name addr))) q] ++ v) →
    ip_ok a →
    asked_ptr ([Ev (InetPton text) (Some addr)] ++
      [Ev (DnsQueryPtr (snprintf 32 (ptr_name addr))) q] ++ v) = [ptr_name a]) as Hasked.
  { intros v Hv1 Hv2 a Ha Hok.
    change (a ∈ addr :: parsed v) in Ha. rewrite Hv1 in Ha. apply list_elem_of_singleton in Ha as ->.
    change (snprintf 32 (ptr_name addr) :: asked_ptr v = [ptr_name addr]).
    rewrite Hv2, snprintf_fits; [done|]. pose proof (ptr_name_length addr Hok). lia. }
  destruct q as [[h records]|]; run_inv; (splits; [solve_keeps|by apply Hasked|]); [|done].
  intros name Hn. destruct (first_ptr records); simplify_eq/=. by apply snprintf_length.
Qed.

(** A file read whole, or nothing kept. *)
Lemma read_file_content_run path (e : E) r e' t :
  read_file_content (Some path) true e = Some (r, e', t) →
  keeps t (match r with Some (p, _) => [RMem p] | None => [] end) ∧
  ∀ p data, r = Some (p, data) → ∃ f size got, Ev (Ftell f) size ∈ t ∧ 0 <= size <= MAX_FILE ∧
    Ev (Malloc (size + 1)) (Some p) ∈ t ∧ Ev (Fread f size) got ∈ t ∧
    data = buffer size got ∧ Z.of_nat (length data) < size + 1.
Proof.
  intros Hr. cbn [read_file_content] in Hr.
  apply bind_inv in Hr as (f & e1 & t1 & u1 & [_ ->]%ask_inv & Hr & ->).
  destruct f as [f|]; [|run_inv; split; [solve_keeps|done]].
  apply bind_inv in Hr as ([] & e2 & t2 & u2 & [_ ->]%ask_inv & Hr & ->).
  apply bind_inv in Hr as (size & e3 & t3 & u3 & [_ ->]%ask_inv & Hr & ->).
  destruct (_ || _) eqn:Hsize in Hr; [run_inv; split; [solve_keeps|done]|]. to_prop.
  apply bind_inv in Hr as ([] & e4 & t4 & u4 & [_ ->]%ask_inv & Hr & ->).
  apply bind_inv in Hr as (buf & e5 & t5 & u5 & [_ ->]%ask_inv & Hr & ->).
  unfold MAX_FILE in *. rewrite u64_id by (unfold is_u64; lia).
  destruct buf as [buf|]; run_inv; [|split; [solve_keeps|done]].
  split; [solve_keeps|]. intros p data Hp. simplify_eq.
  eexists f, size, _. splits; try in_list; try done; try lia.
  apply Z.lt_succ_r, length_buffer. lia.
Qed.
End NameRuns.

(** ** Properties *)

Section Properties.
Context {E : Type} `{Env E}.

(** the backwards pass never skips or repeats one: whatever replies or
    errors the sockets give, compacting the array as it goes, it receives
    once from each ready socket, from the last to the first, and from no
    other; the array it leaves holds exactly the sockets it did not close. *)
Theorem settle_ready_visits os ip xs waiting ready answers (e : E) waiting' answers' e' t0 t :
  length waiting = length ready → exchange_inv ip xs waiting answers t0 →
  settle_ready os xs ready (length waiting) waiting answers e = Some ((waiting', answers'), e', t) →
  recv_socks t = reverse (ready_socks waiting ready) ∧
  keeps_from (map RSock waiting.*1) t (map RSock waiting'.*1) ∧
  exchange_inv ip xs waiting' answers' (t0 ++ t).
Proof.
  intros Hl Hi Hr. eapply settle_ready_run in Hr; [|done|done|done|exact Hl|exact Hi].
  by rewrite take_ge, take_ge in Hr by lia.
Qed.

(** C33: an exchange answers every request with what the log backs: no
    answer (-1), or a datagram that was received, cut to the caller's
    buffer, on a socket connected to that request's port; and it closes
    every socket it opened. *)
Theorem udp_exchange_all_answers os fuel ip xs timeout_ms (e : E) r e' t :
  udp_exchange_all os fuel (Some ip) xs timeout_ms e = Some (r, e', t) →
  keeps t [] ∧ length r = length xs ∧ ∀ i a, r !! i = Some a → answer_ok ip xs t i a.
Proof. apply udp_exchange_all_run. Qed.

(** a Windows lookup asks for the address's name under in-addr.arpa in
    full (it always fits the 32-byte buffer), hands out a name that fits
    the caller's buffer with its NUL, and frees the records. *)
Theorem resolve_ptr_windows text out_len (e : E) r e' t :
  0 < out_len → resolve_ptr Windows (Some text) true out_len e = Some (r, e', t) →
  keeps t [] ∧
  (∀ addr, addr ∈ parsed t → ip_ok addr → asked_ptr t = [ptr_name addr]) ∧
  (∀ name, r = Some name → Z.of_nat (length name) < out_len).
Proof. intros. by eapply resolve_ptr_windows_run. Qed.

(** [read_file_content] closes the file on every path, refuses files of
    more than 64 MB, and on success hands out one buffer with a byte more
    than what it read, so the final NUL is written inside it. *)
Theorem read_file_content_bounded path (e : E) r e' t :
  read_file_content (Some path) true e = Some (r, e', t) →
  keeps t (match r with Some (p, _) => [RMem p] | None => [] end) ∧
  ∀ p data, r = Some (p, data) → ∃ f size got, Ev (Ftell f) size ∈ t ∧ 0 <= size <= MAX_FILE ∧
    Ev (Malloc (size + 1)) (Some p) ∈ t ∧ Ev (Fread f size) got ∈ t ∧
    data = buffer size got ∧ Z.of_nat (length data) < size + 1.
Proof. apply read_file_content_run. Qed.
End Properties.

(** an exchange ends: on Linux and macOS, for any requests and a
    timeout of up to 10^9 ms, whatever replies, errors and signals arrive. *)
Theorem udp_exchange_all_terminates {E} `{ClockLaw E} os ip xs timeout_ms (e : E) :
  os ≠ Windows → 0 < timeout_ms <= 1000000000 →
  ∃ n, ∀ m, (n ≤ m)%nat → is_Some (udp_exchange_all os m (Some ip) xs timeout_ms e).
Proof. apply udp_exchange_all_ends. Qed.

(** ** Witnesses *)

(** Two queries: the second socket's reply comes first, then the first's. *)
Definition name_server : script :=
  set_queues [Ok [0; 1]; Ok [1]] [] [] [Ok ([7; 8], idle_addr); Ok ([9], idle_addr)] [] [] [] (idle 0).

Definition queries : list ns_udp_exchange := [Exchange [1] 1024 137; Exchange [2; 2] 512 5353].

Lemma udp_exchange_all_answers_witness :
  ∃ r e' t, udp_exchange_all Linux 9 (Some (IP 192 168 1 7)) queries 400 name_server = Some (r, e', t) ∧
    r = [(1, [9]); (2, [7; 8])] ∧
    keeps t [] ∧ length r = 2%nat ∧
    ∀ i a, r !! i = Some a → answer_ok (IP 192 168 1 7) queries t i a.
Proof.
  run_here. split; [here|].
  refine (udp_exchange_all_answers Linux 9 (IP 192 168 1 7) queries 400 name_server _ _ _ _). here.
Defined.

Definition three_waiting : list (Z * nat) := [(3, 0%nat); (4, 1%nat); (5, 2%nat)].

Lemma exchange_inv_start :
  exchange_inv (IP 10 0 0 1) (queries ++ [Exchange [3] 99 80]) three_waiting
    (replicate 3 no_answer)
    [Ev (Connect 3 (SA AF_INET (IP 10 0 0 1) 137)) (Ok ());
     Ev (Connect 4 (SA AF_INET (IP 10 0 0 1) 5353)) (Ok ());
     Ev (Connect 5 (SA AF_INET (IP 10 0 0 1) 80)) (Ok ())].
Proof.
  split.
  - unfold three_waiting; simpl. repeat (apply NoDup_cons; split; [set_solver|]). apply NoDup_nil_2.
  - intros s i Hi. unfold three_waiting in Hi. rewrite !elem_of_cons in Hi.
    destruct Hi as [Hi|[Hi|[Hi|Hi]]]; [simplify_eq..|by apply elem_of_nil in Hi];
      (split; [done|]); eexists; (split; [reflexivity|]); simpl; in_list.
  - done.
  - intros i a Ha. left. apply (list_elem_of_lookup_2 (replicate 3 no_answer) i) in Ha.
    by apply elem_of_replicate in Ha as [-> _].
Qed.

Lemma settle_ready_visits_witness :
  ∃ x e' t, settle_ready Linux (queries ++ [Exchange [3] 99 80]) [true; false; true] 3 three_waiting
      (replicate 3 no_answer) name_server = Some (x, e', t) ∧
    x.1 = [(4, 1%nat)] ∧ recv_socks t = [5; 3] ∧
    recv_socks t = reverse (ready_socks three_waiting [true; false; true]).
Proof.
  run_here. split; [here|]. split; [here|].
  refine (proj1 (settle_ready_visits Linux (IP 10 0 0 1) (queries ++ [Exchange [3] 99 80]) three_waiting
    [true; false; true] (replicate 3 no_answer) name_server _ _ _ _ _ eq_refl exchange_inv_start _)).
  here.
Defined.

Lemma resolve_ptr_windows_witness :
  ∃ r e' t, resolve_ptr Windows (Some [49]) true 64 name_server = Some (r, e', t) ∧
    asked_ptr t = [ptr_name (IP 192 168 1 1)] ∧
    keeps t [] ∧
    (∀ addr, addr ∈ parsed t → ip_ok addr → asked_ptr t = [ptr_name addr]) ∧
    (∀ name, r = Some name → Z.of_nat (length name) < 64).
Proof.
  run_here. split; [here|]. refine (resolve_ptr_windows [49] 64 name_server _ _ _ _ _); [lia|here].
Defined.

Definition small_file : script :=
  {| sc_now := 0; sc_fd := 3; sc_polls := []; sc_selects := []; sc_sends := []; sc_recvs := [];
     sc_connects := []; sc_mallocs := []; sc_files := [79; 85; 73]; sc_size := 3; sc_ifaddrs := [];
     sc_local := Ok idle_addr; sc_peer := Ok idle_addr; sc_soerror := Ok 0; sc_stops := []; sc_rows := [];
     sc_echo2 := []; sc_pending := []; sc_parsed := []; sc_jobs := [];
     sc_caps := [] |}.

Lemma read_file_content_bounded_witness :
  ∃ r e' t, read_file_content (Some [97]) true small_file = Some (r, e', t) ∧
    r = Some (4, [79; 85; 73]) ∧ keeps t [RMem 4] ∧
    ∀ p data, r = Some (p, data) → ∃ f size got, Ev (Ftell f) size ∈ t ∧ 0 <= size <= MAX_FILE ∧
      Ev (Malloc (size + 1)) (Some p) ∈ t ∧ Ev (Fread f size) got ∈ t ∧
      data = buffer size got ∧ Z.of_nat (length data) < size + 1.
Proof.
  run_here. split; [here|].
  refine (read_file_content_bounded [97] small_file (Some (4, [79; 85; 73])) _ _ _). here.
Defined.

Lemma udp_exchange_all_terminates_witness :
  ∃ n, ∀ m, (n ≤ m)%nat →
    is_Some (udp_exchange_all Linux m (Some (IP 192 168 1 7)) queries 400 name_server).
Proof. apply (udp_exchange_all_terminates Linux (IP 192 168 1 7) queries 400 name_server); [done|lia]. Defined.
