(* ===== verification/NeighborList.v ===== *)
(** * neighbors.c: the growable array of entries

    [neighbor_list] with [list_add], which every platform's reader calls,
    the invariant of the array, and what an entry of it is guaranteed to
    be. *)
From S2P Require Import Prelude Words Sys Script.
Open Scope Z_scope.

Definition NS_NEIGH_REACHABLE : Z := 1.
Definition NS_NEIGH_STALE : Z := 2.

(** [mac] is all zero when there is none. *)
Record ns_neighbor := Neighbor { nb_ip : ip4; nb_mac : list Z; nb_has_mac : bool; nb_state : Z }.

(** sizeof(ns_neighbor): 4 + 6 + 1 + 1 bytes *)
Definition NS_NEIGHBOR_SIZE : Z := 12.

Record neighbor_list := NeighborList {
  nl_items : option Z;               (* the allocation *)
  nl_entries : list ns_neighbor;     (* items[0..len) *)
  nl_cap : Z
}.

Definition empty_list : neighbor_list := NeighborList None [] 0.

Definition BROADCAST_MAC : list Z := [255; 255; 255; 255; 255; 255].

Definition no_mac : list Z := [0; 0; 0; 0; 0; 0].

(** mac != NULL && mac_len == 6 *)
Definition has_mac (mac : option (list Z)) (mac_len : Z) : bool :=
  bool_decide (mac ≠ None) && (mac_len =? 6).

(** What list_add leaves out. *)
Definition skipped (ip : ip4) (mac : option (list Z)) (mac_len : Z) : bool :=
  (ip_a ip >=? 224) || (ip_a ip =? 0) ||
  (has_mac mac mac_len && bool_decide (take 6 (default [] mac) = BROADCAST_MAC)).

Definition entry_of (ip : ip4) (mac : option (list Z)) (mac_len state : Z) : ns_neighbor :=
  Neighbor ip (if has_mac mac mac_len then take 6 (default [] mac) else no_mac)
    (has_mac mac mac_len) state.

Section ListAdd.
Context {E : Type} `{Env E}.

(** 0 or -1, and the list. *)
Definition list_add (l : neighbor_list) (ip : ip4) (mac : option (list Z)) (mac_len state : Z)
    : M E (Z * neighbor_list) :=
  if skipped ip mac mac_len then mret (0, l)
  else
    let entry := entry_of ip mac mac_len state in
    if Z.of_nat (length (nl_entries l)) =? nl_cap l then
      let cap := if nl_cap l =? 0 then 64 else u64 (nl_cap l * 2) in
      grown ← ask (Realloc (nl_items l) (u64 (cap * NS_NEIGHBOR_SIZE)));
      match grown with
      | None => mret (-1, l)
      | Some items => mret (0, NeighborList (Some items) (nl_entries l ++ [entry]) cap)
      end
    else mret (0, NeighborList (nl_items l) (nl_entries l ++ [entry]) (nl_cap l)).
End ListAdd.

(** ** The invariant *)

(** A real host: unicast, and not the broadcast MAC. *)
Definition real_host (n : ns_neighbor) : Prop :=
  0 < ip_a (nb_ip n) < 224 ∧ length (nb_mac n) = 6%nat ∧
  (nb_has_mac n = true → nb_mac n ≠ BROADCAST_MAC) ∧
  (nb_has_mac n = false → nb_mac n = no_mac).

(** The entries are real hosts and fit the allocation, which is there
    exactly when there is room, and whose size did not wrap. *)
Record list_ok (l : neighbor_list) : Prop := {
  lo_hosts : Forall real_host (nl_entries l);
  lo_room : Z.of_nat (length (nl_entries l)) <= nl_cap l;
  lo_items : nl_items l = None ↔ nl_cap l = 0;
  lo_size : nl_cap l * NS_NEIGHBOR_SIZE <= 9223372036854775807
}.

Definition list_held (l : neighbor_list) : list res :=
  match nl_items l with Some p => [RMem p] | None => [] end.

Lemma empty_list_ok : list_ok empty_list.
Proof. by split. Qed.

(** A mac pointer with at least the bytes its length promises. *)
Definition mac_readable (mac : option (list Z)) (mac_len : Z) : Prop :=
  ∀ m, mac = Some m → mac_len = 6 → (6 ≤ length m)%nat.

Lemma skipped_false ip mac mac_len :
  0 <= ip_a ip → skipped ip mac mac_len = false →
  0 < ip_a ip < 224 ∧ (has_mac mac mac_len = true → take 6 (default [] mac) ≠ BROADCAST_MAC).
Proof.
  intros Hpos Hs. unfold skipped in Hs. apply orb_false_iff in Hs as [Hs Hb].
  apply orb_false_iff in Hs as [H1 H2]. rewrite Z.geb_leb in H1. to_prop. split; [lia|].
  intros Hm. destruct Hb as [Hb|Hb]; [congruence|by apply bool_decide_eq_false in Hb].
Qed.

Lemma entry_real ip mac mac_len state :
  0 <= ip_a ip → mac_readable mac mac_len → skipped ip mac mac_len = false →
  real_host (entry_of ip mac mac_len state).
Proof.
  intros Hpos Hread [Hip Hb]%skipped_false; [|done]. unfold real_host, entry_of; simpl.
  split; [done|]. destruct (has_mac mac mac_len) eqn:Hm; [|by splits].
  unfold has_mac in Hm. to_prop. destruct mac as [m|]; [|done]. simpl in *.
  splits; [rewrite length_take; pose proof (Hread m eq_refl ltac:(done)); lia|auto|done].
Qed.

(** From list to list: entries are only appended, the invariant and the one
    allocation kept. *)
Definition grows (l : neighbor_list) (t : list event) (l' : neighbor_list) : Prop :=
  list_ok l' ∧ nl_entries l `prefix_of` nl_entries l' ∧ keeps_from (list_held l) t (list_held l').

Lemma grows_nil l : list_ok l → grows l [] l.
Proof. intros. split; [done|]. split; [done|apply keeps_from_nil]. Qed.

Lemma grows_neutral l t : list_ok l → Forall neutral t → grows l t l.
Proof. intros. split; [done|]. split; [done|by apply keeps_from_neutral]. Qed.

(** A handle acquired before and released after. *)
Lemma grows_bracket l r opens t closes l' :
  acquired opens = [r] → released opens = [] →
  acquired closes = [] → released closes = [r] →
  grows l t l' → grows l (opens ++ t ++ closes) l'.
Proof.
  intros Ho1 Ho2 Hc1 Hc2 (Hl & Hp & Hk). split; [done|]. split; [done|].
  apply (keeps_from_app _ _ ([r] ++ list_held l)).
  { unfold keeps_from. by rewrite Ho1, Ho2, Permutation_app_comm. }
  eapply keeps_from_app; [by apply keeps_from_frame|].
  unfold keeps_from. by rewrite Hc1, Hc2, app_nil_r.
Qed.

Lemma grows_app l t l' u l'' : grows l t l' → grows l' u l'' → grows l (t ++ u) l''.
Proof.
  intros (_ & Hp & Hk) (Hl & Hp' & Hk'). split; [done|]. split; [by etrans|by eapply keeps_from_app].
Qed.

Section ListAddRuns.
Context {E : Type} `{AllocLaw E}.

(** Every branch of an addition. *)
Lemma list_add_run l ip mac mac_len state (e : E) rc l' e' t :
  list_add l ip mac mac_len state e = Some ((rc, l'), e', t) →
  list_ok l →
  0 <= ip_a ip → mac_readable mac mac_len →
  list_ok l' ∧ keeps_from (list_held l) t (list_held l') ∧
  (rc = 0 ∧ nl_entries l' = nl_entries l ++
     (if skipped ip mac mac_len then [] else [entry_of ip mac mac_len state]) ∨
   rc = -1 ∧ l' = l ∧ skipped ip mac mac_len = false).
Proof.
  intros Hr Hl Hip Hread. unfold list_add in Hr.
  destruct (skipped ip mac mac_len) eqn:Hs.
  { run_inv. splits; [done|apply keeps_from_nil|]. left. by rewrite app_nil_r. }
  pose proof (entry_real _ _ _ state Hip Hread Hs) as He. pose proof (lo_room _ Hl) as Hroom.
  destruct (Z.of_nat (length (nl_entries l)) =? nl_cap l) eqn:Hfull; to_prop.
  - apply bind_inv in Hr as (grown & e1 & t1 & u1 & [Hre ->]%ask_inv & Hr & ->).
    pose proof (lo_size _ Hl) as Hsize. unfold NS_NEIGHBOR_SIZE in *.
    set (cap := if nl_cap l =? 0 then 64 else u64 (nl_cap l * 2)) in *.
    assert (Z.of_nat (length (nl_entries l)) < cap ∧ cap * 12 < 18446744073709551616) as [Hc1 Hc2].
    { subst cap. case_test; [lia|]. rewrite u64_id by (unfold is_u64; lia). lia. }
    destruct grown as [p|]; run_inv; rewrite app_nil_r.
    + apply realloc_fits in Hre.
      rewrite u64_id in Hre by (unfold is_u64; lia).
      split; [|split; [|left; done]].
      * split; simpl; [apply Forall_app; split; [apply (lo_hosts _ Hl)|by apply Forall_singleton]| | |].
        -- rewrite length_app. simpl. lia.
        -- split; [done|lia].
        -- done.
      * unfold list_held; simpl. destruct (nl_items l); solve_keeps.
    + splits; [done|apply keeps_from_neutral|by right].
      repeat constructor; destruct (nl_items l); done.
  - run_inv. split; [|split; [apply keeps_from_nil|left; done]]. destruct Hl. split; simpl; try done.
    + apply Forall_app. split; [done|by apply Forall_singleton].
    + rewrite length_app. simpl. lia.
Qed.

Lemma list_add_grows l ip mac mac_len state (e : E) rc l' e' t :
  list_add l ip mac mac_len state e = Some ((rc, l'), e', t) →
  list_ok l → 0 <= ip_a ip → mac_readable mac mac_len → grows l t l'.
Proof.
  intros Hadd Hl Hip Hm. apply list_add_run in Hadd as (Hl2 & Hk & Hent); [|done..].
  split; [done|]. split; [|done].
  destruct Hent as [[_ ->]|(_ & -> & _)]; [by apply prefix_app_r|done].
Qed.

Lemma total_list_add l ip mac mac_len state : total (list_add (E := E) l ip mac mac_len state).
Proof. unfold list_add. solve_total. Qed.
End ListAddRuns.
#[export] Hint Resolve total_list_add : total.

(** ** Properties *)

(** adding an entry keeps the array's invariant (real hosts only, within
    the allocation, no wrap in its size) and its one allocation; it appends
    exactly the entry unless it is not a real host, and fails only when
    memory is out, leaving the array as it was. *)
Theorem list_add_ok {E} `{AllocLaw E} l ip mac mac_len state (e : E) rc l' e' t :
  list_add l ip mac mac_len state e = Some ((rc, l'), e', t) →
  list_ok l →
  0 <= ip_a ip → mac_readable mac mac_len →
  list_ok l' ∧ keeps_from (list_held l) t (list_held l') ∧
  (rc = 0 ∧ nl_entries l' = nl_entries l ++
     (if skipped ip mac mac_len then [] else [entry_of ip mac mac_len state]) ∨
   rc = -1 ∧ l' = l ∧ skipped ip mac mac_len = false).
Proof. apply list_add_run. Qed.

Lemma list_add_ok_witness :
  ∃ x e' t, list_add empty_list (IP 10 0 0 1) (Some [1; 2; 3; 4; 5; 6]) 6 2 (idle 0) = Some (x, e', t) ∧
    nl_entries x.2 = [Neighbor (IP 10 0 0 1) [1; 2; 3; 4; 5; 6] true 2] ∧
    list_ok x.2 ∧ keeps_from [] t (list_held x.2) ∧
    (x.1 = 0 ∧ nl_entries x.2 = [] ++ [Neighbor (IP 10 0 0 1) [1; 2; 3; 4; 5; 6] true 2] ∨
     x.1 = -1 ∧ x.2 = empty_list ∧
     skipped (IP 10 0 0 1) (Some [1; 2; 3; 4; 5; 6]) 6 = false).
Proof.
  run_here. split; [here|].
  refine (list_add_ok empty_list (IP 10 0 0 1) (Some [1; 2; 3; 4; 5; 6]) 6 2 (idle 0) _ _ _ _ _
    empty_list_ok _ _); [here|done|].
  intros m Hm _. by simplify_eq.
Defined.
