(* ===== verification/Netlink.v ===== *)
(** * neighbors.c, Linux: the netlink dump

    [linux_parse] walks the messages of one reply and the attributes of
    each neighbour message with the macros of linux/netlink.h and
    linux/rtnetlink.h ([NLMSG_OK], [NLMSG_NEXT], [RTA_OK], [RTA_NEXT]), in
    the widths and signs the C expressions have: [len] and [attr_len] are
    [int]s, and the source passes [(unsigned)len] to [NLMSG_OK].  The
    buffer is the bytes recv wrote; a read outside them ends the model with
    [OverRead] (the C code goes on with bytes that are not the reply's). *)
From S2P Require Import Prelude Words Sys Script NsSocket NeighborList.
Open Scope Z_scope.

Definition NLMSG_ERROR : Z := 2.
Definition NLMSG_DONE : Z := 3.
Definition RTM_NEWNEIGH : Z := 28.
Definition RTM_GETNEIGH : Z := 30.
Definition NLM_F_REQUEST : Z := 1.
Definition NLM_F_DUMP : Z := 768.
Definition NDA_DST : Z := 1.
Definition NDA_LLADDR : Z := 2.
Definition NUD_REACHABLE : Z := 2.
Definition NUD_STALE : Z := 4.
Definition NUD_DELAY : Z := 8.
Definition NUD_PROBE : Z := 16.
Definition NUD_PERMANENT : Z := 128.

(** sizeof(struct nlmsghdr), sizeof(struct ndmsg), sizeof(struct rtattr) *)
Definition NLMSG_HDR : Z := 16.
Definition NDMSG : Z := 12.
Definition RTATTR : Z := 4.

(** NLMSG_ALIGN and RTA_ALIGN: ((len) + 4U - 1) & ~(4U - 1) *)
Definition align4 (len : Z) : Z := Z.land (u32 (u32 (len + 4) - 1)) 4294967292.

(** Reading the reply: [n] bytes at [off]. *)
Definition read_bytes (buf : list Z) (off n : Z) : option (list Z) :=
  if (0 <=? off) && (0 <=? n) && (off + n <=? Z.of_nat (length buf))
  then Some (take (Z.to_nat n) (drop (Z.to_nat off) buf)) else None.

Definition read_le (buf : list Z) (off n : Z) : option Z := le_value <$> read_bytes buf off n.

Definition linux_state (nud : Z) : Z :=
  if negb (Z.land nud (Z.lor NUD_REACHABLE NUD_DELAY) =? 0) then NS_NEIGH_REACHABLE
  else if negb (Z.land nud (Z.lor NUD_STALE (Z.lor NUD_PROBE NUD_PERMANENT)) =? 0) then NS_NEIGH_STALE
  else 0.

(** What linux_parse returns: 0, 1 or -1; or where the model stops. *)
Inductive parse_end := ParseMore | ParseDone | ParseError | OverRead.

#[export] Instance parse_end_eq_dec : EqDecision parse_end.
Proof. solve_decision. Defined.

(** The attributes seen so far: where the address is, where the MAC is and
    how long. *)
Record attrs := Attrs { at_ip : option Z; at_mac : option Z; at_mac_len : Z }.

Section Netlink.
Context {E : Type} `{Env E}.

(** One round of the attribute loop, at [rta] with [attr_len] left. *)
Definition attr_round (buf : list Z) (st : Z * Z * attrs) : M E (Z * Z * attrs + option attrs) :=
  let '(rta, attr_len, a) := st in
  if negb (attr_len >=? RTATTR) then mret (inr (Some a))
  else
    match read_le buf rta 2 with
    | None => mret (inr None)
    | Some rta_len =>
      if negb ((rta_len >=? RTATTR) && (rta_len <=? attr_len)) then mret (inr (Some a))
      else
        match read_le buf (rta + 2) 2 with
        | None => mret (inr None)
        | Some rta_type =>
          let payload := rta_len - RTATTR in
          let a :=
            if (rta_type =? NDA_DST) && (payload =? 4)
            then Attrs (Some (rta + RTATTR)) (at_mac a) (at_mac_len a)
            else if rta_type =? NDA_LLADDR
            then Attrs (at_ip a) (Some (rta + RTATTR)) payload
            else a in
          mret (inl (rta + align4 rta_len, i32 (attr_len - align4 rta_len), a))
        end
    end.

(** if (ip && list_add(list, ip, mac, mac_len, state) != 0) return -1;
    the MAC is read only when it has six bytes. *)
Definition add_attrs (buf : list Z) (l : neighbor_list) (a : attrs) (state : Z)
    : M E (parse_end * neighbor_list) :=
  match at_ip a with
  | None => mret (ParseMore, l)
  | Some off =>
    match read_bytes buf off 4 with
    | Some [i0; i1; i2; i3] =>
      let mac :=
        match at_mac a with
        | None => Some None
        | Some m => if at_mac_len a =? 6 then Some <$> read_bytes buf m 6 else Some (Some [])
        end in
      match mac with
      | None => mret (OverRead, l)
      | Some mac =>
        '(rc, l) ← list_add l (IP i0 i1 i2 i3) mac (at_mac_len a) state;
        mret (if rc =? 0 then ParseMore else ParseError, l)
      end
    | _ => mret (OverRead, l)
    end
  end.

(** The body of the message loop for an RTM_NEWNEIGH at [nh]. *)
Definition parse_neigh (fuel : nat) (buf : list Z) (nh nlmsg_len : Z) (l : neighbor_list)
    : M E (parse_end * neighbor_list) :=
  let ndm := nh + NLMSG_HDR in
  match read_le buf ndm 1 with
  | None => mret (OverRead, l)
  | Some family =>
    if negb (family =? AF_INET) then mret (ParseMore, l)
    else
      match read_le buf (ndm + 8) 2 with
      | None => mret (OverRead, l)
      | Some nud =>
        let state := linux_state nud in
        if state =? 0 then mret (ParseMore, l)
        else
          let attr_len := i32 (i32 nlmsg_len - (NDMSG + NLMSG_HDR)) in
          a ← loop fuel (attr_round buf) (ndm + NDMSG, attr_len, Attrs None None 0);
          match a with
          | None => mret (OverRead, l)
          | Some a => add_attrs buf l a state
          end
      end
  end.

(** One round of the message loop, at [nh] with [len] left. *)
Definition msg_round (fuel : nat) (buf : list Z) (st : Z * Z * neighbor_list)
    : M E (Z * Z * neighbor_list + parse_end * neighbor_list) :=
  let '(nh, len, l) := st in
  if negb (u32 len >=? NLMSG_HDR) then mret (inr (ParseMore, l))
  else
    match read_le buf nh 4 with
    | None => mret (inr (OverRead, l))
    | Some nlmsg_len =>
      if negb ((nlmsg_len >=? NLMSG_HDR) && (nlmsg_len <=? u32 len)) then mret (inr (ParseMore, l))
      else
        match read_le buf (nh + 4) 2 with
        | None => mret (inr (OverRead, l))
        | Some nlmsg_type =>
          if nlmsg_type =? NLMSG_DONE then mret (inr (ParseDone, l))
          else if nlmsg_type =? NLMSG_ERROR then mret (inr (ParseError, l))
          else
            '(res, l) ← (if negb (nlmsg_type =? RTM_NEWNEIGH) then mret (ParseMore, l)
                         else parse_neigh fuel buf nh nlmsg_len l);
            match res with
            | ParseMore => mret (inl (nh + align4 nlmsg_len, i32 (len - align4 nlmsg_len), l))
            | _ => mret (inr (res, l))
            end
        end
    end.

(** [buf] is the reply: len is its length. *)
Definition linux_parse (fuel : nat) (l : neighbor_list) (buf : list Z) : M E (parse_end * neighbor_list) :=
  loop fuel (msg_round fuel buf) (0, i32 (Z.of_nat (length buf)), l).

(** The request: nlmsghdr and ndmsg, little-endian. *)
Definition getneigh_request : list Z :=
  le_bytes 4 (NDMSG + NLMSG_HDR) ++ le_bytes 2 RTM_GETNEIGH ++
  le_bytes 2 (Z.lor NLM_F_REQUEST NLM_F_DUMP) ++ le_bytes 4 1 ++ le_bytes 4 0 ++
  [AF_INET] ++ replicate 11 0.

Definition AF_NETLINK : Z := 16.
Definition RECV_BUF : Z := 32768.

(** One round of while (result == 0). *)
Definition dump_round (fuel : nat) (fd : Z) (l : neighbor_list)
    : M E (neighbor_list + parse_end * neighbor_list) :=
  n ← ask (Recv fd RECV_BUF);
  match n with
  | Err err => if err =? EINTR then mret (inl l) else mret (inr (ParseError, l))
  | Ok data =>
    let buf := buffer RECV_BUF data in
    if (length buf =? 0)%nat then mret (inr (ParseError, l))
    else
      '(result, l) ← linux_parse fuel l buf;
      match result with
      | ParseMore => mret (inl l)
      | _ => mret (inr (result, l))
      end
  end.

(** 0 is ParseDone, -1 is ParseError. *)
Definition linux_dump (fuel : nat) (l : neighbor_list) : M E (parse_end * neighbor_list) :=
  fd ← ask (Socket NetlinkSock);
  match fd with
  | Err _ => mret (ParseError, l)
  | Ok fd =>
    ask (SetOpt fd (OptRcvTimeo 2 0));;
    r ← ask (SendTo fd getneigh_request (SA AF_NETLINK (IP 0 0 0 0) 0));
    match r with
    | Err _ => ask (CloseSock fd);; mret (ParseError, l)
    | Ok _ =>
      res ← loop fuel (dump_round fuel fd) l;
      ask (CloseSock fd);;
      mret res
    end
  end.
End Netlink.

(** ** Reading and aligning *)

Lemma read_bytes_some buf off n bs :
  read_bytes buf off n = Some bs →
  0 <= off ∧ 0 <= n ∧ off + n <= Z.of_nat (length buf) ∧ Z.of_nat (length bs) = n ∧
  (bytes buf → bytes bs).
Proof.
  unfold read_bytes. destruct (_ && _) eqn:Hc; [|done]. apply andb_true_iff in Hc as [Hc ?].
  apply andb_true_iff in Hc as [? ?]. to_prop. intros [= <-]. splits; try done.
  - rewrite length_take, length_drop. lia.
  - intros. by apply bytes_take, bytes_drop.
Qed.

Lemma read_bytes_ok buf off n :
  0 <= off → 0 <= n → off + n <= Z.of_nat (length buf) → is_Some (read_bytes buf off n).
Proof.
  intros. unfold read_bytes. rewrite !(proj2 (Z.leb_le _ _)) by lia. by eexists.
Qed.

Lemma read_le_ok buf off n :
  0 <= off → 0 <= n → off + n <= Z.of_nat (length buf) → is_Some (read_le buf off n).
Proof. intros. unfold read_le. apply fmap_is_Some. by apply read_bytes_ok. Qed.

Lemma read_le_some buf off n v :
  read_le buf off n = Some v → 0 <= off ∧ off + n <= Z.of_nat (length buf).
Proof.
  unfold read_le. intros (bs & Hb & ->)%fmap_Some. apply read_bytes_some in Hb. lia.
Qed.

Lemma read_le_range buf off n v :
  bytes buf → read_le buf off n = Some v → 0 <= v < 256 ^ n.
Proof.
  unfold read_le. intros Hbuf (bs & Hb & ->)%fmap_Some. apply read_bytes_some in Hb as (? & ? & ? & <- & Hbs).
  by apply le_value_range, Hbs.
Qed.

Lemma land_mask4 y : is_u32 y → Z.land y 4294967292 = y / 4 * 4.
Proof.
  intros Hy. change 4294967292 with (Z.ldiff (Z.ones 32) (Z.ones 2)).
  assert (Z.land y (Z.ldiff (Z.ones 32) (Z.ones 2)) = Z.ldiff (Z.land y (Z.ones 32)) (Z.ones 2)) as ->.
  { apply Z.bits_inj'. intros i _. rewrite !Z.land_spec, !Z.ldiff_spec, Z.land_spec.
    by rewrite andb_assoc. }
  rewrite Z.land_ones by lia. change (2 ^ 32) with 4294967296. fold (u32 y). rewrite u32_id by done.
  rewrite Z.ldiff_ones_r, Z.shiftl_mul_pow2, Z.shiftr_div_pow2 by lia. done.
Qed.

Lemma align4_val x : 0 <= x < 4294967292 → align4 x = (x + 3) / 4 * 4.
Proof.
  intros Hx. unfold align4. rewrite (u32_id (x + 4)) by (unfold is_u32; lia).
  replace (x + 4 - 1) with (x + 3) by lia. rewrite u32_id by (unfold is_u32; lia).
  apply land_mask4. unfold is_u32. lia.
Qed.

Lemma align4_bounds x : 0 <= x < 4294967292 → x <= align4 x <= x + 3 ∧ align4 x mod 4 = 0.
Proof.
  intros Hx. rewrite align4_val by done. pose proof (Z.div_mod (x + 3) 4). 
  pose proof (Z.mod_pos_bound (x + 3) 4). split; [lia|]. by rewrite Z.mod_mul by lia.
Qed.

(** An aligned length is no more than an aligned bound. *)
Lemma align4_le x len : 0 <= x <= len → len < 4294967292 → len mod 4 = 0 → align4 x <= len.
Proof.
  intros Hx Hlen Hm. destruct (align4_bounds x) as [[H1 H2] H3]; [lia|].
  Z.to_euclidean_division_equations. lia.
Qed.

(** ** The attributes of a message *)

(** Where the attribute loop stands: it never looks beyond [stop], and what
    it found lies before it. *)
Definition attrs_in (stop : Z) (a : attrs) : Prop :=
  (∀ off, at_ip a = Some off → 0 <= off ∧ off + 4 <= stop) ∧
  (∀ off, at_mac a = Some off → 0 <= off ∧ off + at_mac_len a <= stop).

Definition attr_inv (stop : Z) (st : Z * Z * attrs) : Prop :=
  let '(rta, attr_len, a) := st in
  0 <= rta ∧ -3 <= attr_len < 2147483648 ∧ rta + attr_len = stop ∧ attrs_in stop a.

Definition attr_left (st : Z * Z * attrs) : nat := Z.to_nat (4 + st.1.2).

Section Attrs.
Context {E : Type} `{Env E}.
Variable buf : list Z.

Lemma attr_round_step st (e : E) x e' t stop :
  stop <= Z.of_nat (length buf) → attr_inv stop st →
  attr_round buf st e = Some (x, e', t) →
  e' = e ∧ t = [] ∧
  match x with
  | inl st' => attr_inv stop st' ∧ (attr_left st' < attr_left st)%nat
  | inr (Some a) => attrs_in stop a
  | inr None => False
  end.
Proof.
  intros Hstop Hi Hr. destruct st as [[rta attr_len] a]. destruct Hi as (Hrta & Hlen & Hsum & Ha).
  unfold attr_round, RTATTR in Hr. case_test; [by run_inv|].
  destruct (read_le_ok buf rta 2) as [rta_len Hl]; [lia..|]. rewrite Hl in Hr.
  destruct (negb _) eqn:Hok in Hr; [by run_inv|]. apply negb_false_iff, andb_true_iff in Hok as [H1 H2].
  to_prop.
  destruct (read_le_ok buf (rta + 2) 2) as [ty Hty]; [lia..|]. rewrite Hty in Hr. run_inv.
  destruct (align4_bounds rta_len) as [[H3 H4] _]; [lia|].
  rewrite i32_id by (unfold is_i32; lia).
  split; [done|]. split; [done|]. split; [|unfold attr_left; simpl; lia].
  destruct Ha as [Hip Hmac]. unfold attr_inv. do 3 (split; [lia|]).
  unfold attrs_in, RTATTR; repeat case_match; to_prop; split; simpl; intros off Hoff; simplify_eq; auto; lia.
Qed.

Lemma attr_round_total st : total (attr_round (E := E) buf st).
Proof. destruct st as [[rta attr_len] a]. unfold attr_round. solve_total. Qed.
End Attrs.

(** ** The parse ends *)

Section ParseEnds.
Context {E : Type} `{Env E}.
Variable buf : list Z.

Lemma attr_round_left st (e : E) st' e' t :
  is_i32 st.1.2 → attr_round buf st e = Some (inl st', e', t) →
  is_i32 st'.1.2 ∧ (attr_left st' < attr_left st)%nat.
Proof.
  intros Hi Hr. destruct st as [[rta attr_len] a]. unfold is_i32 in *. simpl in Hi.
  unfold attr_round, RTATTR in Hr. case_test; [by run_inv|].
  destruct (read_le buf rta 2) as [rta_len|]; [|by run_inv].
  destruct (negb _) eqn:Hok in Hr; [by run_inv|]. apply negb_false_iff, andb_true_iff in Hok as [H1 H2].
  to_prop. destruct (read_le buf (rta + 2) 2); [|by run_inv]. run_inv.
  destruct (align4_bounds rta_len) as [[H3 H4] _]; [lia|].
  unfold attr_left; simpl. rewrite i32_id by (unfold is_i32; lia). lia.
Qed.

Lemma attr_loop_runs st : is_i32 st.1.2 → runs (λ n, loop n (attr_round (E := E) buf) st).
Proof.
  intros Hi. split.
  { apply (fuel_mono_loop (λ _, _)). intros. apply fuel_mono_const. }
  intros e. destruct (loop_terminates (λ st _, is_i32 st.1.2) (λ p q, (attr_left p.1 < attr_left q.1)%nat)
    (λ _, attr_round (E := E) buf)) with (s := st) (e := e) as [n Hn]; [| | |done|].
  - apply (wf_projected lt (λ p : _ * E, attr_left p.1)); [done|apply lt_wf].
  - intros. apply fuel_mono_const.
  - intros s f Hs. destruct (attr_round_total buf s f) as [[[x f'] t] Hx].
    exists 0%nat, x, f', t. split; [done|]. destruct x; [|done]. by eapply attr_round_left.
  - exists n. by apply (Hn n n).
Qed.

Lemma total_add_attrs l a state : total (add_attrs (E := E) buf l a state).
Proof. unfold add_attrs. solve_total. Qed.

Lemma parse_neigh_runs nh nlmsg_len l : runs (λ n, parse_neigh (E := E) n buf nh nlmsg_len l).
Proof.
  unfold parse_neigh. destruct (read_le buf (nh + NLMSG_HDR) 1); [|apply runs_const; solve_total].
  destruct (negb _); [apply runs_const; solve_total|].
  destruct (read_le buf (nh + NLMSG_HDR + 8) 2); [|apply runs_const; solve_total].
  destruct (_ =? 0); [apply runs_const; solve_total|].
  apply runs_bind; [apply attr_loop_runs; simpl; apply i32_range|].
  intros [a|]; apply runs_const; [apply total_add_attrs|solve_total].
Qed.

Lemma msg_round_runs st : runs (λ n, msg_round (E := E) n buf st).
Proof.
  destruct st as [[nh len] l]. unfold msg_round. destruct (negb _); [apply runs_const; solve_total|].
  destruct (read_le buf nh 4); [|apply runs_const; solve_total].
  destruct (negb _); [apply runs_const; solve_total|].
  destruct (read_le buf (nh + 4) 2); [|apply runs_const; solve_total].
  destruct (_ =? NLMSG_DONE); [apply runs_const; solve_total|].
  destruct (_ =? NLMSG_ERROR); [apply runs_const; solve_total|].
  apply runs_bind.
  - destruct (negb _); [apply runs_const; solve_total|apply parse_neigh_runs].
  - intros [res l']. apply runs_const. solve_total.
Qed.

(** Where the message loop stands: the position and the length left go
    together, and the length can go at most 3 below 0. *)
Definition msg_inv (st : Z * Z * neighbor_list) : Prop :=
  0 <= st.1.1 ∧ -3 <= st.1.2 ∧ st.1.1 + st.1.2 = Z.of_nat (length buf).

Definition msg_left (st : Z * Z * neighbor_list) : nat := Z.to_nat (4 + st.1.2).

Hypothesis Hbuf : Z.of_nat (length buf) < 2147483648.

Lemma msg_round_left fuel st (e : E) st' e' t :
  msg_inv st → msg_round fuel buf st e = Some (inl st', e', t) →
  msg_inv st' ∧ (msg_left st' < msg_left st)%nat ∧
  ∃ len ty, read_le buf st.1.1 4 = Some len ∧ 16 <= len <= st.1.2 ∧
    st'.1.2 = st.1.2 - align4 len ∧ st'.1.1 = st.1.1 + align4 len ∧
    read_le buf (st.1.1 + 4) 2 = Some ty ∧ ty ≠ NLMSG_DONE ∧ ty ≠ NLMSG_ERROR.
Proof.
  intros (Hnh & Hlen & Hsum) Hr. destruct st as [[nh len] l]; simpl in *.
  destruct (decide (0 <= len)) as [Hp|Hn].
  2:{ destruct (read_le buf nh 4) as [v|] eqn:Hv; [apply read_le_some in Hv; lia|].
      case_test; by run_inv. }
  rewrite !(u32_id len) in Hr by (unfold is_u32; lia). unfold NLMSG_HDR in *.
  case_test; [by run_inv|]. destruct (read_le buf nh 4) as [v|] eqn:Hv; [|by run_inv].
  destruct (negb _) eqn:Hok in Hr; [by run_inv|]. apply negb_false_iff, andb_true_iff in Hok as [H1 H2].
  to_prop. destruct (read_le buf (nh + 4) 2) as [ty|]; [|by run_inv].
  destruct (ty =? NLMSG_DONE) eqn:Hd; [by run_inv|]. destruct (ty =? NLMSG_ERROR) eqn:He; [by run_inv|].
  to_prop. apply bind_inv in Hr as ([res l'] & e1 & t1 & u1 & _ & Hr & ->).
  destruct res; run_inv. destruct (align4_bounds v) as [[H3 H4] _]; [lia|].
  unfold msg_inv, msg_left; simpl. rewrite i32_id by (unfold is_i32; lia).
  splits; [lia..|]. exists v, ty. splits; done || lia.
Qed.

Lemma linux_parse_runs l : runs (λ n, linux_parse (E := E) n l buf).
Proof.
  unfold linux_parse. split; [apply fuel_mono_loop; intros; apply msg_round_runs|].
  intros e. destruct (loop_terminates (λ st _, msg_inv st) (λ p q, (msg_left p.1 < msg_left q.1)%nat)
    (λ n, msg_round (E := E) n buf)) with (s := (0, i32 (Z.of_nat (length buf)), l)) (e := e) as [n Hn].
  - apply (wf_projected lt (λ p : _ * E, msg_left p.1)); [done|apply lt_wf].
  - intros. apply msg_round_runs.
  - intros s f Hs. destruct (msg_round_runs s) as [_ Hends]. destruct (Hends f) as [n [[[x f'] t] Hx]].
    exists n, x, f', t. split; [done|]. destruct x as [s'|]; [|done].
    by destruct (msg_round_left _ _ _ _ _ _ Hs Hx) as (? & ? & _).
  - unfold msg_inv; simpl. rewrite i32_id by (unfold is_i32; lia). lia.
  - exists n. by apply (Hn n n).
Qed.
End ParseEnds.

(** ** What the parse reads *)

Section ParseReads.
Context {E : Type} `{Env E}.
Variable buf : list Z.
Hypothesis Hbuf : Z.of_nat (length buf) < 2147483648.

Lemma attr_loop_end stop fuel st (e : E) x e' t :
  stop <= Z.of_nat (length buf) → attr_inv stop st →
  loop fuel (attr_round buf) st e = Some (x, e', t) →
  e' = e ∧ t = [] ∧ ∃ a, x = Some a ∧ attrs_in stop a.
Proof.
  intros Hstop Hi Hl.
  refine (loop_invariant (λ st f t, attr_inv stop st ∧ f = e ∧ t = [])
    (λ x f t, f = e ∧ t = [] ∧ ∃ a, x = Some a ∧ attrs_in stop a)
    (attr_round buf) _ _ fuel st e [] x e' t _ Hl); [| |done].
  - intros s f t0 s' f' u (Hs & -> & ->) Hb.
    destruct (attr_round_step _ _ _ _ _ _ _ Hstop Hs Hb) as (-> & -> & ? & _). done.
  - intros s f t0 r f' u (Hs & -> & ->) Hb.
    destruct (attr_round_step _ _ _ _ _ _ _ Hstop Hs Hb) as (-> & -> & Hr).
    destruct r as [a|]; [|done]. splits; [done|done|by exists a].
Qed.

(** A complete neighbour message is parsed within its bytes. *)
Lemma parse_neigh_within fuel nh len l (e : E) res l' e' t :
  0 <= nh → 28 <= len → nh + len <= Z.of_nat (length buf) →
  parse_neigh fuel buf nh len l e = Some ((res, l'), e', t) → res ≠ OverRead.
Proof.
  intros Hnh Hlen Hend Hr. unfold parse_neigh, NLMSG_HDR, NDMSG in Hr.
  destruct (read_le_ok buf (nh + 16) 1) as [fam Hf]; [lia..|]. rewrite Hf in Hr.
  case_test; [by run_inv|]. destruct (read_le_ok buf (nh + 16 + 8) 2) as [nud Hnud]; [lia..|].
  rewrite Hnud in Hr. case_test; [by run_inv|].
  rewrite (i32_id len), i32_id in Hr by (unfold is_i32; lia).
  apply bind_inv in Hr as (a & e1 & t1 & u1 & Hl & Hr & ->).
  apply (attr_loop_end (nh + len)) in Hl as (-> & -> & a' & -> & Hip & Hmac); [|lia|].
  2:{ unfold attr_inv. splits; [lia..|]. split; simpl; intros off Hoff; done. }
  unfold add_attrs in Hr. destruct (at_ip a') as [off|]; [|by run_inv].
  destruct (Hip off eq_refl) as [Ho1 Ho2].
  destruct (read_bytes_ok buf off 4) as [ipb Hipb]; [lia..|]. rewrite Hipb in Hr.
  apply read_bytes_some in Hipb as (_ & _ & _ & Hl4 & _).
  destruct ipb as [|i0 [|i1 [|i2 [|i3 [|]]]]]; simpl in Hl4; try lia.
  destruct (at_mac a') as [m|] eqn:Hm; [|run_inv; by case_match].
  destruct (Hmac m eq_refl) as [Hm1 Hm2]. destruct (at_mac_len a' =? 6) eqn:H6; [|run_inv; by case_match].
  to_prop. destruct (read_bytes_ok buf m 6) as [mb Hmb]; [lia..|]. rewrite Hmb in Hr.
  simpl in Hr. run_inv. by case_match.
Qed.

(** The offsets at which the parse comes to look for a message: the start,
    and what follows a whole message that does not end the reply. *)
Inductive reached : Z → Prop :=
  | reached_first : reached 0
  | reached_next nh len ty :
      reached nh → read_le buf nh 4 = Some len → 16 <= len <= Z.of_nat (length buf) - nh →
      read_le buf (nh + 4) 2 = Some ty → ty ≠ NLMSG_DONE → ty ≠ NLMSG_ERROR →
      reached (nh + align4 len).

(** A neighbour message of the reply, whole by its own length, that is
    shorter than the ndmsg it should hold, and stands so near the end that
    a field of the ndmsg the code looks at lies past the reply. *)
Definition short_neigh : Prop :=
  ∃ nh len, reached nh ∧ read_le buf nh 4 = Some len ∧
    read_le buf (nh + 4) 2 = Some RTM_NEWNEIGH ∧
    16 <= len < 28 ∧ len <= Z.of_nat (length buf) - nh ∧
    (Z.of_nat (length buf) <= nh + 16 ∨
     read_le buf (nh + 16) 1 = Some AF_INET ∧ Z.of_nat (length buf) < nh + 26).

(** A message shorter than that has no attributes to look at. *)
Lemma parse_neigh_short fuel nh len l (e : E) l' e' t :
  0 <= nh → 16 <= len < 28 → parse_neigh fuel buf nh len l e = Some ((OverRead, l'), e', t) →
  Z.of_nat (length buf) <= nh + 16 ∨
  read_le buf (nh + 16) 1 = Some AF_INET ∧ Z.of_nat (length buf) < nh + 26.
Proof.
  intros Hnh Hlen Hr. destruct (decide (Z.of_nat (length buf) <= nh + 16)); [by left|right].
  unfold parse_neigh, NLMSG_HDR, NDMSG in Hr.
  destruct (read_le_ok buf (nh + 16) 1) as [fam Hf]; [lia..|]. rewrite Hf in Hr |- *.
  case_test; [by run_inv|]. subst fam. split; [done|].
  destruct (decide (Z.of_nat (length buf) < nh + 26)); [done|exfalso].
  destruct (read_le_ok buf (nh + 16 + 8) 2) as [nud Hnud]; [lia..|].
  rewrite Hnud in Hr. case_test; [by run_inv|].
  rewrite (i32_id len), i32_id in Hr by (unfold is_i32; lia).
  destruct fuel as [|fuel]; cbn [loop] in Hr; [done|]. unfold attr_round, RTATTR in Hr.
  rewrite Z.geb_leb, (proj2 (Z.leb_gt _ _)) in Hr by lia. simpl in Hr.
  unfold add_attrs in Hr. by run_inv.
Qed.

Definition aligned_inv (st : Z * Z * neighbor_list) : Prop :=
  msg_inv buf st ∧ 0 <= st.1.2 ∧ st.1.2 mod 4 = 0 ∧ reached st.1.1.

Lemma msg_round_aligned fuel st (e : E) x e' t :
  aligned_inv st → msg_round fuel buf st e = Some (x, e', t) →
  match x with
  | inl st' => aligned_inv st'
  | inr (res, _) => res = OverRead → short_neigh
  end.
Proof.
  intros (Hi & Hp & Hm & Hreach) Hr. destruct x as [st'|[res l']].
  - destruct (msg_round_left buf Hbuf _ _ _ _ _ _ Hi Hr)
      as (Hi' & _ & len & ty & Hv & Hlen & Heq & Hnext & Hty & Hd & He).
    destruct Hi as (Hnh & _ & Hsum).
    pose proof (align4_le len st.1.2 ltac:(lia) ltac:(lia) Hm) as Hle.
    split; [done|]. rewrite Heq, Hnext. split; [lia|]. destruct (align4_bounds len) as [_ Ha]; [lia|].
    split; [rewrite Zminus_mod, Hm, Ha; done|]. eapply reached_next; [done|done|lia|done..].
  - destruct st as [[nh len] l]. destruct Hi as (Hnh & _ & Hsum); simpl in *.
    rewrite !(u32_id len) in Hr by (unfold is_u32; lia). unfold NLMSG_HDR in *.
    case_test; [by run_inv|]. destruct (read_le_ok buf nh 4) as [v Hv]; [lia..|]. rewrite Hv in Hr.
    destruct (negb _) eqn:Hok in Hr; [by run_inv|]. apply negb_false_iff, andb_true_iff in Hok as [H1 H2].
    to_prop. destruct (read_le_ok buf (nh + 4) 2) as [ty Hty]; [lia..|]. rewrite Hty in Hr.
    destruct (ty =? NLMSG_DONE); [by run_inv|]. destruct (ty =? NLMSG_ERROR); [by run_inv|].
    apply bind_inv in Hr as ([res' l2] & e1 & t1 & u1 & Hres & Hr & ->).
    destruct (negb (ty =? RTM_NEWNEIGH)) eqn:Hnew; [by run_inv|]. to_prop. intros ->.
    assert (res' = OverRead) as -> by (destruct res'; by run_inv).
    destruct (decide (v < 28)) as [Hlt|]; [|by apply parse_neigh_within in Hres; [|lia..]].
    apply parse_neigh_short in Hres; [|lia..].
    exists nh, v. subst ty. splits; [done..|lia|lia|done].
Qed.

(** In a reply whose length is a multiple of 4, only a neighbour message
    too short for its own header makes the parse read past the bytes. *)
Lemma linux_parse_aligned fuel l (e : E) res l' e' t :
  Z.of_nat (length buf) mod 4 = 0 →
  linux_parse fuel l buf e = Some ((res, l'), e', t) → res = OverRead → short_neigh.
Proof.
  intros Hm Hr Hres. unfold linux_parse in Hr. rewrite i32_id in Hr by (unfold is_i32; lia).
  refine (loop_invariant (λ st _ _, aligned_inv st) (λ r _ _, r.1 = OverRead → short_neigh)
    (msg_round fuel buf) _ _ fuel _ e [] (res, l') e' t _ Hr Hres).
  - intros s f t0 s' f' u Hs Hb. exact (msg_round_aligned _ _ _ (inl s') _ _ Hs Hb).
  - intros s f t0 [r l2] f' u Hs Hb. exact (msg_round_aligned _ _ _ (inr (r, l2)) _ _ Hs Hb).
  - unfold aligned_inv, msg_inv; simpl. splits; [lia..|done|constructor].
Qed.
End ParseReads.

(** ** The wire format: what a reply of the kernel says

    A reply as the messages it was made of: neighbour messages with their
    attributes, and others.  [encode_msg] lays one out as linux/netlink.h
    does, [add_msgs] is what it should add to the list. *)

Notation len bs := (Z.of_nat (length bs)).

Record wire_neigh := WireNeigh {
  wn_family : Z;
  wn_fixed : list Z;              (* ndm_pad1, ndm_pad2, ndm_ifindex *)
  wn_state : Z;
  wn_flags : list Z;              (* ndm_flags, ndm_type *)
  wn_attrs : list (Z * list Z)    (* type and payload *)
}.

(** [hdr]: nlmsg_flags, nlmsg_seq and nlmsg_pid. *)
Inductive wire_msg :=
| WireNeighMsg (hdr : list Z) (n : wire_neigh)
| WireOther (type : Z) (hdr body : list Z).

Definition pad4 (bs : list Z) : list Z := bs ++ replicate (Z.to_nat (align4 (len bs) - len bs)) 0.

Definition encode_attr (a : Z * list Z) : list Z :=
  pad4 (le_bytes 2 (RTATTR + len a.2) ++ le_bytes 2 a.1 ++ a.2).

Definition encode_neigh (n : wire_neigh) : list Z :=
  [wn_family n] ++ wn_fixed n ++ le_bytes 2 (wn_state n) ++ wn_flags n ++
  flat_map encode_attr (wn_attrs n).

Definition wire_type (m : wire_msg) : Z :=
  match m with WireNeighMsg _ _ => RTM_NEWNEIGH | WireOther ty _ _ => ty end.
Definition wire_hdr (m : wire_msg) : list Z :=
  match m with WireNeighMsg h _ | WireOther _ h _ => h end.
Definition wire_body (m : wire_msg) : list Z :=
  match m with WireNeighMsg _ n => encode_neigh n | WireOther _ _ b => b end.

Definition encode_msg (m : wire_msg) : list Z :=
  pad4 (le_bytes 4 (NLMSG_HDR + len (wire_body m)) ++ le_bytes 2 (wire_type m) ++
        wire_hdr m ++ wire_body m).

Definition encode_reply (ms : list wire_msg) : list Z := flat_map encode_msg ms.

Definition attr_ok (a : Z * list Z) : Prop := is_u16 a.1 ∧ RTATTR + len a.2 < 65536.

Definition wire_ok (m : wire_msg) : Prop :=
  length (wire_hdr m) = 10%nat ∧
  match m with
  | WireNeighMsg _ n =>
    length (wn_fixed n) = 7%nat ∧ length (wn_flags n) = 2%nat ∧ is_u16 (wn_state n) ∧
    Forall attr_ok (wn_attrs n)
  | WireOther ty _ _ => is_u16 ty ∧ ty ≠ RTM_NEWNEIGH
  end.

(** The address and the MAC a message names: the last NDA_DST of four bytes
    and the last NDA_LLADDR. *)
Definition note_attr (m : option ip4 * option (list Z)) (a : Z * list Z)
    : option ip4 * option (list Z) :=
  if (a.1 =? NDA_DST) && (len a.2 =? 4) then (ip_of_bytes a.2, m.2)
  else if a.1 =? NDA_LLADDR then (m.1, Some a.2) else m.

Section Meaning.
Context {E : Type} `{Env E}.

Definition add_neigh (l : neighbor_list) (n : wire_neigh) : M E (parse_end * neighbor_list) :=
  if negb (wn_family n =? AF_INET) || (linux_state (wn_state n) =? 0) then mret (ParseMore, l)
  else
    let '(ip, mac) := fold_left note_attr (wn_attrs n) (None, None) in
    match ip with
    | None => mret (ParseMore, l)
    | Some ip =>
      '(rc, l) ← list_add l ip mac (len (default [] mac)) (linux_state (wn_state n));
      mret (if rc =? 0 then ParseMore else ParseError, l)
    end.

Fixpoint add_msgs (l : neighbor_list) (ms : list wire_msg) : M E (parse_end * neighbor_list) :=
  match ms with
  | [] => mret (ParseMore, l)
  | WireOther ty _ _ :: ms =>
    if ty =? NLMSG_DONE then mret (ParseDone, l)
    else if ty =? NLMSG_ERROR then mret (ParseError, l)
    else add_msgs l ms
  | WireNeighMsg _ n :: ms =>
    '(res, l) ← add_neigh l n;
    match res with ParseMore => add_msgs l ms | _ => mret (res, l) end
  end.
End Meaning.

Lemma length_pad4 bs : len bs < 4294967292 → len (pad4 bs) = align4 (len bs).
Proof.
  intros Hb. unfold pad4. rewrite length_app, length_replicate.
  destruct (align4_bounds (len bs)); lia.
Qed.

(** Reading a field that lies between [pre] and [post]. *)
Lemma read_bytes_mid pre mid post off n :
  off = len pre → n = len mid → read_bytes (pre ++ mid ++ post) off n = Some mid.
Proof.
  intros -> ->. unfold read_bytes. rewrite !length_app, !(proj2 (Z.leb_le _ _)) by lia. simpl.
  by rewrite !Nat2Z.id, drop_app_length, take_app_length.
Qed.

Lemma read_le_mid pre n v post buf off k :
  buf = pre ++ le_bytes n v ++ post → off = len pre → k = Z.of_nat n →
  0 <= v < 256 ^ Z.of_nat n → read_le buf off k = Some v.
Proof.
  intros -> -> -> Hv. unfold read_le. rewrite read_bytes_mid; [|done|by rewrite length_le_bytes].
  simpl. by rewrite le_value_bytes, Z.mod_small.
Qed.

Section Stream.
Context {E : Type} `{Env E}.

(** The offsets the attribute loop holds point at what was meant. *)
Definition attrs_mean (buf : list Z) (a : attrs) (m : option ip4 * option (list Z)) : Prop :=
  match at_ip a, m.1 with
  | None, None => True
  | Some off, Some ip => read_bytes buf off 4 = Some (ip_bytes ip)
  | _, _ => False
  end ∧
  match at_mac a, m.2 with
  | None, None => True
  | Some off, Some mac => at_mac_len a = len mac ∧ read_bytes buf off (len mac) = Some mac
  | _, _ => False
  end.

Lemma attr_loop_stream buf (e : E) attrs : ∀ pre post a m fuel,
  buf = pre ++ flat_map encode_attr attrs ++ post →
  len (flat_map encode_attr attrs) < 2147483648 →
  Forall attr_ok attrs → (length attrs < fuel)%nat → attrs_mean buf a m →
  ∃ a', loop fuel (attr_round buf) (len pre, len (flat_map encode_attr attrs), a) e = Some (Some a', e, []) ∧
    attrs_mean buf a' (fold_left note_attr attrs m).
Proof.
  induction attrs as [|[ty data] attrs IH]; intros pre post a m [|fuel] Hbuf Hlen Hok Hf Hm;
    simpl in Hf; try lia.
  - exists a. split; [done|done].
  - apply Forall_cons in Hok as [[Hty Hda] Hok]. simpl in Hty, Hda.
    cbn [flat_map] in *. set (rest := flat_map encode_attr attrs) in *.
    set (raw := le_bytes 2 (RTATTR + len data) ++ le_bytes 2 ty ++ data) in *.
    assert (len raw = RTATTR + len data) as Hraw.
    { unfold raw. rewrite !length_app, !length_le_bytes. unfold RTATTR. lia. }
    assert (encode_attr (ty, data) = pad4 raw) as Henc by done.
    unfold RTATTR in *.
    assert (len (encode_attr (ty, data)) = align4 (4 + len data)) as Hal
      by (rewrite Henc, length_pad4, Hraw; lia).
    destruct (align4_bounds (4 + len data)) as [[Ha1 Ha2] _]; [lia|].
    rewrite length_app, Nat2Z.inj_add, Hal in Hlen |- *.
    assert (buf = pre ++ le_bytes 2 (4 + len data) ++ le_bytes 2 ty ++ data ++
      replicate (Z.to_nat (align4 (len raw) - len raw)) 0 ++ rest ++ post) as Hbuf'.
    { rewrite Hbuf, Henc. unfold pad4, raw. by rewrite <- !app_assoc. }
    assert (read_le buf (len pre) 2 = Some (4 + len data)) as Hr1.
    { eapply read_le_mid; [exact Hbuf'|done|done|unfold is_u16 in *; lia]. }
    assert (read_le buf (len pre + 2) 2 = Some ty) as Hr2.
    { eapply (read_le_mid (pre ++ le_bytes 2 (4 + len data)) 2); [rewrite <- app_assoc; exact Hbuf'| |done|].
      - rewrite length_app, length_le_bytes. lia.
      - unfold is_u16 in *. lia. }
    assert (read_bytes buf (len pre + 4) (len data) = Some data) as Hr3.
    { rewrite Hbuf'. rewrite (app_assoc pre), (app_assoc (pre ++ _)). apply read_bytes_mid; [|done].
      rewrite !length_app, !length_le_bytes. lia. }
    edestruct (IH (pre ++ encode_attr (ty, data)) post
      (if (ty =? NDA_DST) && (4 + len data - 4 =? 4)
            then Attrs (Some (len pre + 4)) (at_mac a) (at_mac_len a)
            else if ty =? NDA_LLADDR
            then Attrs (at_ip a) (Some (len pre + 4)) (4 + len data - 4)
            else a) (note_attr m (ty, data)) fuel) as (a' & Hl & Hm'); [| |done|lia| |].
    + by rewrite Hbuf, <- !app_assoc.
    + lia.
    + replace (4 + len data - 4) with (len data) by lia. unfold note_attr; simpl.
      destruct Hm as [Hip Hmac]. destruct (ty =? NDA_DST) eqn:Hd; simpl.
      * destruct (len data =? 4) eqn:H4; to_prop.
        -- split; [|exact Hmac]. destruct data as [|a0 [|a1 [|a2 [|a3 [|]]]]]; simpl in H4; try lia. exact Hr3.
        -- by rewrite (proj2 (Z.eqb_neq _ _)) by (unfold NDA_DST, NDA_LLADDR in *; lia).
      * destruct (ty =? NDA_LLADDR); [|done]. split; [exact Hip|]. by split.
    + exists a'. split; [|exact Hm']. cbn [loop].
      rewrite length_app, Nat2Z.inj_add, Hal in Hl.
      eapply (bind_some _ _ e (inl (_, _, _)) e [] _ _ []); [|exact Hl].
      unfold attr_round. rewrite Hr1, Hr2, !Z.geb_leb, !(proj2 (Z.leb_le _ _)) by (unfold RTATTR; lia).
      simpl. unfold RTATTR. rewrite i32_id by (unfold is_i32; lia).
      by replace (align4 (4 + len data) + len rest - align4 (4 + len data)) with (len rest) by lia.
Qed.

(** Without a six-byte MAC, list_add looks at neither the MAC nor its length. *)
Lemma list_add_no_mac l ip m n m' n' state (e : E) :
  has_mac m n = false → has_mac m' n' = false →
  list_add l ip m n state e = list_add l ip m' n' state e.
Proof. intros H1 H2. unfold list_add, skipped, entry_of. by rewrite H1, H2. Qed.

Lemma add_attrs_stream buf l a m state (e : E) :
  attrs_mean buf a m →
  add_attrs buf l a state e =
  match m.1 with
  | None => mret (ParseMore, l)
  | Some ip =>
    '(rc, l) ← list_add l ip m.2 (len (default [] m.2)) state;
    mret (if rc =? 0 then ParseMore else ParseError, l)
  end e.
Proof.
  destruct m as [ip mac]. intros [Hip Hmac]; simpl in *. unfold add_attrs.
  destruct (at_ip a) as [off|], ip as [ip|]; try done. rewrite Hip. simpl.
  destruct (at_mac a) as [o|], mac as [mac|]; try done; simpl.
  - destruct Hmac as [-> Hmac]. destruct (len mac =? 6) eqn:H6.
    + to_prop. rewrite H6 in Hmac. rewrite Hmac. simpl. by destruct ip.
    + unfold mbind, M_bind. rewrite (list_add_no_mac _ _ _ _ (Some mac) (len mac)).
      * by destruct ip.
      * unfold has_mac. rewrite H6. by rewrite andb_false_r.
      * unfold has_mac. rewrite H6. by rewrite andb_false_r.
  - unfold mbind, M_bind. rewrite (list_add_no_mac _ _ _ _ None 0) by done. by destruct ip.
Qed.

Lemma read_byte_mid pre v post buf off :
  buf = pre ++ [v] ++ post → off = len pre → read_le buf off 1 = Some v.
Proof.
  intros -> ->. unfold read_le. rewrite read_bytes_mid by done. simpl. f_equal. lia.
Qed.

Lemma length_encode_neigh n :
  length (wn_fixed n) = 7%nat → length (wn_flags n) = 2%nat →
  len (encode_neigh n) = NDMSG + len (flat_map encode_attr (wn_attrs n)).
Proof.
  intros H1 H2. unfold encode_neigh. rewrite !length_app, length_le_bytes, H1, H2.
  unfold NDMSG. simpl. lia.
Qed.

Lemma parse_neigh_stream fuel buf pre hdr n post l (e : E) :
  buf = pre ++ hdr ++ encode_neigh n ++ post → len hdr = NLMSG_HDR → wire_ok (WireNeighMsg (drop 6 hdr) n) →
  len buf < 2147483648 → (length (wn_attrs n) < fuel)%nat →
  parse_neigh fuel buf (len pre) (NLMSG_HDR + len (encode_neigh n)) l e = add_neigh l n e.
Proof.
  intros Hbuf Hhdr (_ & Hfx & Hfl & Hst & Hok) Hlen Hf.
  pose proof (length_encode_neigh n Hfx Hfl) as Hn. rewrite Hn. unfold parse_neigh, add_neigh.
  set (rest := flat_map encode_attr (wn_attrs n)) in *.
  assert (buf = (pre ++ hdr) ++ [wn_family n] ++ wn_fixed n ++ le_bytes 2 (wn_state n) ++
    wn_flags n ++ rest ++ post) as Hbuf'.
  { rewrite Hbuf. unfold encode_neigh. by rewrite <- !app_assoc. }
  assert (len (pre ++ hdr) = len pre + NLMSG_HDR) as Hp by (rewrite length_app; lia).
  rewrite (read_byte_mid _ _ _ _ _ Hbuf' (eq_sym Hp)).
  destruct (wn_family n =? AF_INET); [|done]. cbn [negb orb].
  assert (read_le buf (len pre + NLMSG_HDR + 8) 2 = Some (wn_state n)) as ->.
  { eapply (read_le_mid ((pre ++ hdr) ++ [wn_family n] ++ wn_fixed n) 2); [|..|done|].
    - rewrite Hbuf', <- !app_assoc. done.
    - rewrite length_app, Nat2Z.inj_add, Hp, length_app, Hfx. simpl. lia.
    - unfold is_u16 in *. lia. }
  destruct (linux_state (wn_state n) =? 0); [done|].
  assert (0 <= NLMSG_HDR + (NDMSG + len rest) < 2147483648) as Hsz.
  { rewrite Hbuf' in Hlen. rewrite !length_app, length_le_bytes in Hlen. rewrite length_app in Hp.
    simpl in Hlen. unfold NLMSG_HDR, NDMSG in *. lia. }
  unfold NLMSG_HDR, NDMSG in *.
  rewrite (i32_id (_ + _)), i32_id by (unfold is_i32; lia).
  destruct (attr_loop_stream buf e (wn_attrs n)
    ((pre ++ hdr) ++ [wn_family n] ++ wn_fixed n ++ le_bytes 2 (wn_state n) ++ wn_flags n)
    post (Attrs None None 0) (None, None) fuel) as (a & Hl & Ha).
  - rewrite Hbuf', <- !app_assoc. done.
  - unfold rest in *. lia.
  - done.
  - done.
  - done.
  - replace (len ((pre ++ hdr) ++ _)) with (len pre + 16 + 12) in Hl.
    2:{ rewrite !length_app, length_le_bytes in *. simpl. lia. }
    replace (16 + (12 + len rest) - (12 + 16)) with (len rest) by lia.
    unfold rest. erewrite (bind_then _ _ _ _ _ Hl).
    rewrite (add_attrs_stream _ _ _ _ _ _ Ha).
    by destruct (fold_left note_attr (wn_attrs n) (None, None)) as [[ip|] mac].
Qed.

(** The attributes of a message: what bounds the inner loop. *)
Definition wire_attrs (m : wire_msg) : nat :=
  match m with WireNeighMsg _ n => length (wn_attrs n) | WireOther _ _ _ => 0%nat end.

(** A message as the loop reads it: its length field and its type first. *)
Lemma encode_msg_split m :
  wire_ok m → NLMSG_HDR + len (wire_body m) < 2147483648 →
  ∃ hdr fill, encode_msg m = hdr ++ wire_body m ++ fill ∧ len hdr = NLMSG_HDR ∧
    drop 6 hdr = wire_hdr m ∧
    (∃ h, hdr = le_bytes 4 (NLMSG_HDR + len (wire_body m)) ++ le_bytes 2 (wire_type m) ++ h) ∧
    len (encode_msg m) = align4 (NLMSG_HDR + len (wire_body m)).
Proof.
  intros [Hh _] Hlen. unfold encode_msg.
  set (raw := le_bytes 4 _ ++ _).
  assert (len raw = NLMSG_HDR + len (wire_body m)) as Hraw.
  { unfold raw. rewrite !length_app, !length_le_bytes, Hh. unfold NLMSG_HDR. lia. }
  exists (le_bytes 4 (NLMSG_HDR + len (wire_body m)) ++ le_bytes 2 (wire_type m) ++ wire_hdr m),
    (replicate (Z.to_nat (align4 (len raw) - len raw)) 0).
  splits.
  - unfold pad4, raw. by rewrite <- !app_assoc.
  - rewrite !length_app, !length_le_bytes, Hh. done.
  - done.
  - by exists (wire_hdr m).
  - rewrite length_pad4; rewrite Hraw; [done|lia].
Qed.

Lemma wire_type_u16 m : wire_ok m → is_u16 (wire_type m).
Proof. destruct m; intros [_ Hm]; simpl; [unfold is_u16, RTM_NEWNEIGH; lia|tauto]. Qed.

Lemma add_msgs_loop fuel buf ms : ∀ pre l n (e : E),
  buf = pre ++ encode_reply ms → len buf < 2147483648 → Forall wire_ok ms →
  (length ms < n)%nat → Forall (λ m, (wire_attrs m < fuel)%nat) ms →
  loop n (msg_round fuel buf) (len pre, len (encode_reply ms), l) e = add_msgs l ms e.
Proof.
  induction ms as [|m ms IH]; intros pre l [|n] e Hbuf Hlen Hok Hn Hf; simpl in Hn; try lia; [done|].
  apply Forall_cons in Hok as [Hm Hok]. apply Forall_cons in Hf as [Hfm Hf].
  unfold encode_reply in Hbuf |- *. cbn [flat_map] in *. fold (encode_reply ms) in *.
  assert (len (encode_msg m) + len (encode_reply ms) <= len buf) as Hle
    by (rewrite Hbuf, !length_app; lia).
  assert (NLMSG_HDR + len (wire_body m) <= len (encode_msg m)) as Hbody.
  { unfold encode_msg, pad4. rewrite !length_app, !length_le_bytes, (proj1 Hm). unfold NLMSG_HDR. lia. }
  destruct (encode_msg_split m Hm) as (hdr & fill & Henc & Hhdr & Hdrop & (h & Hh) & Hal); [lia|].
  rewrite length_app, Nat2Z.inj_add.
  set (size := NLMSG_HDR + len (wire_body m)) in *.
  assert (16 <= size) by (unfold size, NLMSG_HDR; lia).
  assert (read_le buf (len pre) 4 = Some size) as Hr1.
  { eapply (read_le_mid pre 4); [|done|done|lia]. by rewrite Hbuf, Henc, Hh, <- !app_assoc. }
  assert (read_le buf (len pre + 4) 2 = Some (wire_type m)) as Hr2.
  { eapply (read_le_mid (pre ++ le_bytes 4 size) 2); [| |done|by apply wire_type_u16].
    - by rewrite Hbuf, Henc, Hh, <- !app_assoc.
    - rewrite length_app, length_le_bytes. lia. }
  cbn [loop]. unfold mbind, M_bind, msg_round at 1. cbv beta iota.
  rewrite (u32_id (_ + _)) by (unfold is_u32; lia). rewrite Z.geb_leb, (proj2 (Z.leb_le _ _)) by (unfold NLMSG_HDR; lia).
  cbn [negb]. rewrite Hr1, Z.geb_leb, !(proj2 (Z.leb_le _ _)) by (unfold NLMSG_HDR; lia).
  cbn [negb andb]. rewrite Hr2, i32_id by (unfold is_i32; lia).
  assert (∀ l e, loop n (msg_round fuel buf)
    (len pre + align4 size, len (encode_msg m) + len (encode_reply ms) - align4 size, l) e =
    add_msgs l ms e) as Hnext.
  { intros l1 e1. rewrite <- Hal. rewrite Z.add_simpl_l, <- Nat2Z.inj_add, <- length_app.
    apply IH; [|done..|lia|done]. by rewrite Hbuf, <- app_assoc. }
  destruct m as [h' wn|ty h' body]; simpl in Hr2 |- *.
  - assert (parse_neigh fuel buf (len pre) size l e = add_neigh l wn e) as Hpn.
    { apply (parse_neigh_stream fuel buf pre hdr wn (fill ++ encode_reply ms)); try done.
      - by rewrite Hbuf, Henc, <- !app_assoc.
      - by rewrite Hdrop. }
    unfold mbind, M_bind. rewrite Hpn. destruct (add_neigh l wn e) as [[[[res l'] e'] t]|]; [|done].
    destruct res; simpl; rewrite ?app_nil_r; try done.
    rewrite Hnext. by destruct (add_msgs l' ms e') as [[[[] ?] ?]|].
  - destruct (ty =? NLMSG_DONE); [done|]. destruct (ty =? NLMSG_ERROR); [done|].
    destruct Hm as (_ & _ & Hty). simpl in Hty. rewrite (proj2 (Z.eqb_neq _ _)) by done. simpl.
    rewrite Hnext. by destruct (add_msgs l ms e) as [[[[] ?] ?]|].
Qed.
End Stream.

(** ** The dump: what it keeps and that it ends *)

Section Dump.
Context {E : Type} `{AllocLaw E}.

Lemma add_attrs_grows buf l a state (e : E) res l' e' t :
  bytes buf → list_ok l → add_attrs buf l a state e = Some ((res, l'), e', t) → grows l t l'.
Proof.
  intros Hbuf Hl Hr. unfold add_attrs in Hr.
  destruct (at_ip a) as [off|]; [|run_inv; by apply grows_nil].
  destruct (read_bytes buf off 4) as [[|i0 [|i1 [|i2 [|i3 [|]]]]]|] eqn:Hip;
    try (run_inv; by apply grows_nil).
  apply read_bytes_some in Hip as (_ & _ & _ & _ & Hip). specialize (Hip Hbuf).
  apply Forall_cons in Hip as [Hi0 _]. unfold is_u8 in Hi0.
  set (mac := match at_mac a with None => _ | Some m => _ end) in Hr.
  destruct mac as [mac'|] eqn:Hmac; [|run_inv; by apply grows_nil].
  apply bind_inv in Hr as ([rc l2] & e1 & t1 & u1 & Hadd & Hr & ->). run_inv. rewrite app_nil_r.
  eapply list_add_grows; [exact Hadd|done|simpl; lia|].
  intros m -> H6. destruct (at_mac a) as [o|]; [|done].
  rewrite H6 in Hmac. simpl in Hmac. apply fmap_Some in Hmac as (m' & Hm' & [= ->]).
  apply read_bytes_some in Hm'. lia.
Qed.

(** The attribute loop asks for nothing. *)
Lemma attr_loop_silent fuel buf st (e : E) x e' t :
  loop fuel (attr_round buf) st e = Some (x, e', t) → t = [].
Proof.
  intros Hl. assert (logs (E := E) (λ _, False) (loop fuel (attr_round buf) st)) as Hs.
  { apply logs_loop. intros [[rta n] a]. unfold attr_round. solve_logs. }
  specialize (Hs _ _ _ _ Hl). by destruct Hs.
Qed.

Lemma parse_neigh_grows fuel buf nh nlmsg_len l (e : E) res l' e' t :
  bytes buf → list_ok l →
  parse_neigh fuel buf nh nlmsg_len l e = Some ((res, l'), e', t) → grows l t l'.
Proof.
  intros Hbuf Hl Hr. unfold parse_neigh in Hr.
  destruct (read_le buf (nh + NLMSG_HDR) 1); [|run_inv; by apply grows_nil].
  case_test; [run_inv; by apply grows_nil|].
  destruct (read_le buf (nh + NLMSG_HDR + 8) 2); [|run_inv; by apply grows_nil].
  case_test; [run_inv; by apply grows_nil|].
  apply bind_inv in Hr as (a & e1 & t1 & u1 & Hloop & Hr & ->).
  apply attr_loop_silent in Hloop as ->.
  destruct a as [a|]; [|run_inv; by apply grows_nil]. by eapply add_attrs_grows.
Qed.

Lemma msg_round_grows fuel buf nh n l (e : E) x e' t :
  bytes buf → list_ok l → msg_round fuel buf (nh, n, l) e = Some (x, e', t) →
  match x with inl (_, _, l') => grows l t l' | inr (_, l') => grows l t l' end.
Proof.
  intros Hbuf Hl Hr. unfold msg_round in Hr. case_test; [run_inv; by apply grows_nil|].
  destruct (read_le buf nh 4); [|run_inv; by apply grows_nil].
  case_test; [run_inv; by apply grows_nil|].
  destruct (read_le buf (nh + 4) 2) as [ty|]; [|run_inv; by apply grows_nil].
  case_test; [run_inv; by apply grows_nil|]. case_test; [run_inv; by apply grows_nil|].
  apply bind_inv in Hr as ([res l'] & e1 & t1 & u1 & Hb & Hr & ->).
  assert (grows l t1 l') as Hg.
  { case_test; [run_inv; by apply grows_nil|]. by eapply parse_neigh_grows. }
  destruct res; run_inv; by rewrite app_nil_r.
Qed.

Lemma linux_parse_grows fuel l buf (e : E) res l' e' t :
  bytes buf → list_ok l → linux_parse fuel l buf e = Some ((res, l'), e', t) → grows l t l'.
Proof.
  intros Hbuf Hl Hr. unfold linux_parse in Hr.
  refine (loop_invariant (λ st _ t, grows l t st.2) (λ r _ t, grows l t r.2)
    (msg_round fuel buf) _ _ fuel (0, i32 (len buf), l) e [] (res, l') e' t (grows_nil _ Hl) Hr).
  - intros [[nh n] l1] f t0 [[nh' n'] l2] f' u Hg Hb. eapply grows_app; [exact Hg|].
    exact (msg_round_grows _ _ _ _ _ _ _ _ _ Hbuf (proj1 Hg) Hb).
  - intros [[nh n] l1] f t0 [r l2] f' u Hg Hb. eapply grows_app; [exact Hg|].
    exact (msg_round_grows _ _ _ _ _ _ _ _ _ Hbuf (proj1 Hg) Hb).
Qed.

Lemma dump_round_grows fuel fd l (e : E) x e' t :
  list_ok l → dump_round fuel fd l e = Some (x, e', t) →
  grows l t (match x with inl l' => l' | inr (_, l') => l' end).
Proof.
  intros Hl Hr. unfold dump_round in Hr.
  apply bind_inv in Hr as (n & e1 & t1 & u1 & [_ ->]%ask_inv & Hr & ->).
  apply (grows_app _ [Ev (Recv fd RECV_BUF) n] l); [apply grows_neutral; [done|apply Forall_singleton; by split]|].
  destruct n as [data|err].
  - case_test; [run_inv; by apply grows_nil|].
    apply bind_inv in Hr as ([res l'] & e2 & t2 & u2 & Hp & Hr & ->).
    apply linux_parse_grows in Hp; [|apply bytes_buffer|done].
    destruct res; run_inv; by rewrite app_nil_r.
  - case_test; run_inv; by apply grows_nil.
Qed.

Lemma linux_dump_grows fuel l (e : E) res l' e' t :
  list_ok l → linux_dump fuel l e = Some ((res, l'), e', t) → grows l t l'.
Proof.
  intros Hl Hr. unfold linux_dump in Hr.
  apply bind_inv in Hr as (fd & e1 & t1 & u1 & [_ ->]%ask_inv & Hr & ->).
  destruct fd as [fd|err]; [|run_inv; apply grows_neutral; [done|apply Forall_singleton; by split]].
  apply bind_inv in Hr as (o & e2 & t2 & u2 & [_ ->]%ask_inv & Hr & ->).
  apply bind_inv in Hr as (r & e3 & t3 & u3 & [_ ->]%ask_inv & Hr & ->).
  destruct r as [n|err].
  - apply bind_inv in Hr as ([res' l2] & e4 & t4 & u4 & Hloop & Hr & ->). run_inv. rewrite app_nil_r.
    apply (grows_bracket _ (RSock fd) [_; _; _] t4 [_]); [done..|].
    refine (loop_invariant (λ l2 _ t, grows l t l2) (λ r _ t, grows l t r.2)
      (dump_round fuel fd) _ _ fuel l _ [] _ _ t4 (grows_nil _ Hl) Hloop).
    + intros l1 f t0 l3 f' u Hg Hb. eapply grows_app; [exact Hg|].
      exact (dump_round_grows _ _ _ _ _ _ _ (proj1 Hg) Hb).
    + intros l1 f t0 [r l3] f' u Hg Hb. eapply grows_app; [exact Hg|].
      exact (dump_round_grows _ _ _ _ _ _ _ (proj1 Hg) Hb).
  - run_inv. apply (grows_bracket _ (RSock fd) [_; _; _] [] [_]); [done..|by apply grows_nil].
Qed.
End Dump.

Section DumpEnds.
Context {E : Type} `{QueueLaw E}.

Lemma attr_round_settled buf st : settled (attr_round (E := E) buf st).
Proof. destruct st as [[rta n] a]. unfold attr_round. solve_settled. Qed.

Lemma linux_parse_settled fuel l buf : settled (linux_parse (E := E) fuel l buf).
Proof.
  apply settled_loop. intros [[nh n] l1]. unfold msg_round, parse_neigh, add_attrs, list_add.
  repeat (solve_settled; try apply attr_round_settled).
Qed.

Lemma dump_round_runs fd l : runs (λ n, dump_round (E := E) n fd l).
Proof.
  unfold dump_round. apply runs_bind; [apply runs_const, total_ask|].
  intros [data|err]; [|apply runs_const; solve_total].
  case_match; [apply runs_const; solve_total|].
  apply runs_bind; [|intros [res l']; apply runs_const; solve_total].
  apply linux_parse_runs.
  pose proof (length_buffer RECV_BUF data ltac:(done)). unfold RECV_BUF in *. lia.
Qed.

Lemma linux_dump_runs l : runs (λ n, linux_dump (E := E) n l).
Proof.
  unfold linux_dump. apply runs_bind; [apply runs_const, total_ask|].
  intros [fd|err]; [|apply runs_const; solve_total].
  apply runs_bind; [apply runs_const, total_ask|]. intros o.
  apply runs_bind; [apply runs_const, total_ask|].
  intros [n|err]; [|apply runs_const; solve_total].
  apply runs_bind; [|intros x; apply runs_const; solve_total].
  apply (runs_loop (λ p q, (queued p.2 < queued q.2)%nat)).
  - apply (wf_projected lt (λ p : neighbor_list * E, queued p.2)); [done|apply lt_wf].
  - intros. apply dump_round_runs.
  - intros m s e s' e' t Hr. simpl. unfold dump_round in Hr.
    apply bind_inv in Hr as (x & e1 & t1 & u1 & [Hq _]%ask_inv & Hr & _).
    destruct x as [data|err].
    + assert (queued e1 < queued e)%nat by (eapply queued_recv; [exact Hq|by left]).
      case_match; [by run_inv|].
      apply bind_inv in Hr as ([res l'] & e2 & t2 & u2 & Hp & Hr & _).
      apply linux_parse_settled in Hp. destruct res; run_inv; lia.
    + destruct (err =? EINTR) eqn:He; [|by run_inv]. to_prop. run_inv.
      eapply queued_recv; [exact Hq|by right].
Qed.
End DumpEnds.

(** The messages of a reply bound both loops of its parse. *)
Lemma encode_reply_bounds ms :
  (length ms ≤ length (encode_reply ms))%nat ∧
  Forall (λ m, (wire_attrs m ≤ length (encode_reply ms))%nat) ms.
Proof.
  assert (∀ as_, (length as_ ≤ length (flat_map encode_attr as_))%nat) as Hattrs.
  { induction as_ as [|a as_ IH]; [done|]. cbn [flat_map length]. rewrite length_app.
    unfold encode_attr at 1, pad4. rewrite !length_app, length_le_bytes. lia. }
  assert (∀ m, (1 ≤ length (encode_msg m) ∧ wire_attrs m ≤ length (encode_msg m))%nat) as Hmsg.
  { intros m. assert (wire_attrs m ≤ length (wire_body m))%nat.
    { destruct m as [h n|ty h b]; cbn [wire_attrs wire_body]; [|lia]. unfold encode_neigh.
      rewrite !length_app. specialize (Hattrs (wn_attrs n)). lia. }
    unfold encode_msg, pad4. rewrite !length_app, !length_le_bytes. lia. }
  induction ms as [|m ms [IH1 IH2]]; [done|]. unfold encode_reply in *. cbn [flat_map length]. rewrite length_app.
  destruct (Hmsg m). split; [lia|]. constructor; [lia|].
  eapply Forall_impl; [exact IH2|]. simpl. lia.
Qed.

(** ** Properties *)

(** C32: parsing a reply undoes its encoding: for every sequence of
    well-formed netlink messages, the parse adds to the list exactly the
    neighbours those messages name, in their order, and ends as the first
    NLMSG_DONE, NLMSG_ERROR or failing allocation says. *)
Theorem linux_parse_reply {E} `{Env E} ms l fuel (e : E) :
  Forall wire_ok ms →
  Z.of_nat (length (encode_reply ms)) < 2147483648 →
  (length (encode_reply ms) < fuel)%nat →
  linux_parse fuel l (encode_reply ms) e = add_msgs l ms e.
Proof.
  intros Hok Hlen Hf. unfold linux_parse. rewrite i32_id by (unfold is_i32; lia).
  destruct (encode_reply_bounds ms) as [H1 H2].
  apply (add_msgs_loop fuel (encode_reply ms) ms [] l fuel e); try done; [lia|].
  eapply Forall_impl; [exact H2|]. simpl. lia.
Qed.

Definition sample_neigh : wire_neigh :=
  WireNeigh AF_INET (replicate 7 0) NUD_REACHABLE [0; 0]
    [(NDA_DST, [10; 0; 0; 1]); (NDA_LLADDR, [1; 2; 3; 4; 5; 6])].

Definition sample_msgs : list wire_msg :=
  [WireNeighMsg (replicate 10 0) sample_neigh; WireOther NLMSG_DONE (replicate 10 0) [0; 0; 0; 0]].

Lemma linux_parse_reply_witness :
  ∃ l' e' t,
    linux_parse 200 empty_list (encode_reply sample_msgs) (idle 0) = Some ((ParseDone, l'), e', t) ∧
    linux_parse 200 empty_list (encode_reply sample_msgs) (idle 0) =
      add_msgs empty_list sample_msgs (idle 0) ∧
    nl_entries l' = [Neighbor (IP 10 0 0 1) [1; 2; 3; 4; 5; 6] true NS_NEIGH_REACHABLE].
Proof.
  run_here. split; [|here]. apply linux_parse_reply; [|here|apply Nat.ltb_lt; here].
  unfold sample_msgs, wire_ok, attr_ok, is_u16, RTATTR, NUD_REACHABLE, NLMSG_DONE, RTM_NEWNEIGH; simpl.
  repeat (first [lia | split | apply Forall_cons | apply Forall_nil]); simpl; try lia; done.
Defined.

(** C38: over any bytes a kernel sends in whole 4-byte units, the parse reads
    only bytes of the reply, whatever lengths its messages and attributes
    claim, unless one of the messages it comes to is a neighbour message that
    claims to be shorter than its own fixed part and stands at the very end
    of the reply. *)
Theorem linux_parse_in_bounds {E} `{Env E} buf fuel l (e : E) res l' e' t :
  Z.of_nat (length buf) < 2147483648 → Z.of_nat (length buf) mod 4 = 0 → ¬ short_neigh buf →
  linux_parse fuel l buf e = Some ((res, l'), e', t) → res ≠ OverRead.
Proof.
  intros Hlen Hm Hs Hr Hres. apply Hs. by eapply linux_parse_aligned.
Qed.

(** A message whose payload looks like a short neighbour message, then one
    that claims more bytes than there are. *)
Definition lying_reply : list Z :=
  (le_bytes 4 32 ++ le_bytes 2 16 ++ replicate 10 0 ++
   le_bytes 4 16 ++ le_bytes 2 RTM_NEWNEIGH ++ replicate 10 0) ++
  le_bytes 4 400 ++ le_bytes 2 RTM_NEWNEIGH ++ replicate 14 0.

Lemma linux_parse_in_bounds_witness :
  ∃ x e' t, linux_parse 3 empty_list lying_reply (idle 0) = Some (x, e', t) ∧ x.1 ≠ OverRead.
Proof.
  run_here.
  refine (linux_parse_in_bounds lying_reply 3 empty_list (idle 0) _ empty_list _ _ _ _ _ _);
    [here|here| |vm_compute; reflexivity].
  assert (∀ nh, reached lying_reply nh → nh = 0 ∨ nh = 32) as Hreach.
  { induction 1 as [|nh n ty _ [->| ->] Hn Hl]; [by left| |]; vm_compute in Hn; simplify_eq;
      vm_compute in Hl; [by right|by destruct Hl as [_ []]]. }
  intros (nh & n & H1 & H2 & _ & H3 & _). apply Hreach in H1 as [->| ->]; vm_compute in H2;
    simplify_eq; lia.
Defined.

(** the length the message loop keeps can go below zero, and the cast to
    unsigned in NLMSG_OK(nh, (unsigned)len) turns that into a huge length:
    after a 17-byte reply holding one well-formed message, the loop reads a
    header past its end, although no message of it is too short. *)
Theorem linux_parse_odd_reply {E} `{Env E} fuel l (e : E) :
  linux_parse (S (S fuel)) l (le_bytes 4 17 ++ le_bytes 2 1 ++ replicate 11 0) e = Some ((OverRead, l), e, []) ∧
  ¬ short_neigh (le_bytes 4 17 ++ le_bytes 2 1 ++ replicate 11 0).
Proof.
  split; [done|].
  intros (nh & n & H1 & H2 & H3 & _). destruct H1 as [|nh n' ty H1 Hn Hl].
  - vm_compute in H3. simplify_eq.
  - pose proof (read_le_some _ _ _ _ H2) as [Hn1 Hn2]. pose proof (read_le_some _ _ _ _ Hn) as [Hn3 _]. simpl in Hn2, Hl. destruct (align4_bounds n'); lia.
Qed.

(** A dump ends: with a receive queue that empties (the socket has a
    receive timeout), some fuel is enough for all its loops, whatever bytes
    the kernel sends. *)
Lemma linux_dump_terminates {E} `{QueueLaw E} l (e : E) :
  ∃ n, ∀ m, (n ≤ m)%nat → is_Some (linux_dump m l e).
Proof. exact (runs_enough _ e (linux_dump_runs l)). Qed.

Definition sample_script : script :=
  set_queues [] [] [] [Ok (encode_reply sample_msgs, idle_addr)] [] [] [] (idle 0).

Lemma linux_dump_terminates_witness :
  (∃ n, ∀ m, (n ≤ m)%nat → is_Some (linux_dump m empty_list sample_script)) ∧
  (λ x, x.1.1) <$> linux_dump 200 empty_list sample_script =
    Some (ParseDone, NeighborList (Some 4)
      [Neighbor (IP 10 0 0 1) [1; 2; 3; 4; 5; 6] true NS_NEIGH_REACHABLE] 64).
Proof. split; [apply linux_dump_terminates|here]. Defined.

(** Whatever the kernel sends, and however the dump ends, it only appends
    entries, all of them real hosts within the array's allocation, and it
    closes its socket: it holds what it held, the array's one allocation. *)
Lemma linux_dump_keeps {E} `{AllocLaw E} fuel l (e : E) res l' e' t :
  list_ok l → linux_dump fuel l e = Some ((res, l'), e', t) →
  list_ok l' ∧ nl_entries l `prefix_of` nl_entries l' ∧
  keeps_from (list_held l) t (list_held l').
Proof. apply linux_dump_grows. Qed.

Lemma linux_dump_keeps_witness :
  ∃ x e' t, linux_dump 200 empty_list sample_script = Some (x, e', t) ∧
    list_ok x.2 ∧ nl_entries empty_list `prefix_of` nl_entries x.2 ∧
    keeps_from [] t (list_held x.2).
Proof.
  run_here. refine (linux_dump_keeps 200 empty_list sample_script _ _ _ _ empty_list_ok _). here.
Defined.
