(* ===== verification/Neighbors.v ===== *)
(** * neighbors.c: the other readers and the dump

    [windows_dump] over the rows of GetIpNetTable2, [macos_dump] over the
    routing messages of sysctl(NET_RT_FLAGS), and [dump_neighbors] with
    [free_neighbors], the interface neighbor_table.zig calls. *)
From S2P Require Import Prelude Words Sys Script NsSocket NeighborList Netlink.
Open Scope Z_scope.

(** ** Windows *)

Definition NlnsProbe : Z := 2.
Definition NlnsDelay : Z := 3.
Definition NlnsStale : Z := 4.
Definition NlnsReachable : Z := 5.
Definition NlnsPermanent : Z := 6.

Definition windows_state (state : Z) : Z :=
  if (state =? NlnsReachable) || (state =? NlnsDelay) then NS_NEIGH_REACHABLE
  else if (state =? NlnsStale) || (state =? NlnsProbe) || (state =? NlnsPermanent)
  then NS_NEIGH_STALE
  else 0.

(** ** macOS: the structs of net/route.h and net/if_dl.h *)

(** sizeof(struct rt_msghdr): 36 bytes and the 14 words of its metrics *)
Definition RT_MSGHDR : Z := 92.
Definition AF_LINK : Z := 18.

Definition ARP_SA_ROUNDUP (a : Z) : Z :=
  if a >? 0 then 1 + Z.lor (a - 1) (4 - 1) else 4.

Section Dumps.
Context {E : Type} `{Env E}.

(** The for loop over table->Table. *)
Fixpoint add_rows (l : neighbor_list) (rows : list ipnet_row) : M E (parse_end * neighbor_list) :=
  match rows with
  | [] => mret (ParseDone, l)
  | row :: rows =>
    let state := windows_state (row_state row) in
    if (state =? 0) || negb (row_family row =? AF_INET) then add_rows l rows
    else
      '(rc, l) ← list_add l (row_ip row) (Some (row_phys row)) (row_phys_len row) state;
      if negb (rc =? 0) then mret (ParseError, l) else add_rows l rows
  end.

Definition windows_dump (l : neighbor_list) : M E (parse_end * neighbor_list) :=
  table ← ask GetIpNetTable2;
  match table with
  | None => mret (ParseError, l)
  | Some (h, rows) =>
    '(result, l) ← add_rows l rows;
    ask (FreeMibTable h);;
    mret (result, l)
  end.

(** One attempt: size the table, replace the buffer, read into it.  None is
    a return of -1 with the buffer freed. *)
Definition route_attempt (raw : option Z) : M E (option (Z * sys (list Z))) :=
  needed ← ask SysctlSize;
  match needed with
  | Err _ => free_opt raw;; mret None
  | Ok needed =>
    let raw_len := u64 (needed + needed / 2 + RT_MSGHDR) in
    free_opt raw;;
    raw ← ask (Malloc raw_len);
    match raw with
    | None => mret None
    | Some p =>
      r ← ask (SysctlRead raw_len);
      mret (Some (p, match r with Ok data => Ok (buffer raw_len data) | Err e => Err e end))
    end
  end.

(** The for loop over attempt, [more] of them after this one: the buffer
    with its contents. *)
Fixpoint read_routes (more : nat) (raw : option Z) : M E (option (Z * list Z)) :=
  a ← route_attempt raw;
  match a with
  | None => mret None
  | Some (p, Ok data) => mret (Some (p, data))
  | Some (p, Err err) =>
    match more with
    | S more => if negb (err =? ENOMEM) then ask (Free p);; mret None else read_routes more (Some p)
    | O => ask (Free p);; mret None
    end
  end.

(** The second half of a round: the link-layer address at [sdl] for the
    address at [sin]. *)
Definition link_address (raw : list Z) (sin sdl next : Z) (l : neighbor_list)
    : M E (Z * neighbor_list + parse_end * neighbor_list) :=
  match read_le raw (sdl + 1) 1 with
  | None => mret (inr (OverRead, l))
  | Some sdl_family =>
    if negb (sdl_family =? AF_LINK) then mret (inl (next, l))
    else
      match read_le raw (sdl + 6) 1 with
      | None => mret (inr (OverRead, l))
      | Some sdl_alen =>
        if negb (sdl_alen =? 6) then mret (inl (next, l))
        else
          match read_bytes raw (sin + 4) 4, read_le raw (sdl + 5) 1 with
          | Some [i0; i1; i2; i3], Some sdl_nlen =>
            match read_bytes raw (sdl + 8 + sdl_nlen) 6 with
            | None => mret (inr (OverRead, l))
            | Some mac =>
              '(rc, l) ← list_add l (IP i0 i1 i2 i3) (Some mac) 6 NS_NEIGH_STALE;
              mret (if negb (rc =? 0) then inr (ParseError, l) else inl (next, l))
            end
          | _, _ => mret (inr (OverRead, l))
          end
      end
  end.

(** One round of the walk, at offset [next]. *)
Definition route_round (raw : list Z) (st : Z * neighbor_list)
    : M E (Z * neighbor_list + parse_end * neighbor_list) :=
  let '(next, l) := st in
  if negb (next <? Z.of_nat (length raw)) then mret (inr (ParseDone, l))
  else
    match read_le raw next 2 with
    | None => mret (inr (OverRead, l))
    | Some rtm_msglen =>
      if rtm_msglen =? 0 then mret (inr (ParseDone, l))
      else
        let sin := next + RT_MSGHDR in
        let next := next + rtm_msglen in
        match read_le raw (sin + 1) 1 with
        | None => mret (inr (OverRead, l))
        | Some sin_family =>
          if negb (sin_family =? AF_INET) then mret (inl (next, l))
          else
            match read_le raw sin 1 with
            | None => mret (inr (OverRead, l))
            | Some sin_len => link_address raw sin (sin + ARP_SA_ROUNDUP sin_len) next l
            end
        end
    end.

Definition macos_dump (fuel : nat) (l : neighbor_list) : M E (parse_end * neighbor_list) :=
  raw ← read_routes 2 None;
  match raw with
  | None => mret (ParseError, l)
  | Some (p, data) =>
    '(result, l) ← loop fuel (route_round data) (0, l);
    ask (Free p);;
    mret (result, l)
  end.

(** What dump_neighbors leaves its caller: -1, or 0 with *out and
    *out_count; or the model stopped at a read outside the reply. *)
Inductive dump_result :=
| DumpFailed
| Dumped (out : option Z) (entries : list ns_neighbor)
| DumpOverRead (l : neighbor_list).

(** [null]: one of the pointers out, out_count is null. *)
Definition dump_neighbors (fuel : nat) (os : platform) (null : bool) : M E dump_result :=
  if null then mret DumpFailed
  else
    '(result, l) ← match os with
                   | Linux => linux_dump fuel empty_list
                   | Windows => windows_dump empty_list
                   | MacOS => macos_dump fuel empty_list
                   end;
    match result with
    | ParseDone => mret (Dumped (nl_items l) (nl_entries l))
    | OverRead => mret (DumpOverRead l)
    | _ => free_opt (nl_items l);; mret DumpFailed
    end.

Definition free_neighbors (ptr : option Z) : M E unit := free_opt ptr.
End Dumps.

(** ** What the readers keep *)

Definition mem_held (p : option Z) : list res :=
  match p with Some p => [RMem p] | None => [] end.

Lemma route_attempt_keeps {E} `{Env E} raw (e : E) x e' t :
  route_attempt raw e = Some (x, e', t) →
  keeps_from (mem_held raw) t (mem_held (fst <$> x)) ∧
  (∀ p data, x = Some (p, Ok data) → bytes data).
Proof.
  intros Hr. unfold route_attempt in Hr.
  apply bind_inv in Hr as (needed & e1 & t1 & u1 & [_ ->]%ask_inv & Hr & ->).
  assert (keeps_from (mem_held raw) [Ev SysctlSize needed] (mem_held raw)) as Hsize.
  { apply keeps_from_neutral, Forall_singleton. by split. }
  destruct needed as [needed|err]; apply bind_inv in Hr as ([] & e2 & t2 & u2 & Hf & Hr & ->);
    apply free_opt_keeps in Hf; (split; [eapply keeps_from_app; [exact Hsize|]|]);
    try (eapply keeps_from_app; [exact Hf|]); run_inv; try done.
  all: try (unfold mem_held; solve_keeps).
  intros p data [= _ Hx]. case_match; simplify_eq. apply bytes_buffer.
Qed.

(** The buffer of the routing table is the only thing read_routes leaves. *)
Lemma read_routes_keeps {E} `{Env E} more : ∀ raw (e : E) x e' t,
  read_routes more raw e = Some (x, e', t) →
  keeps_from (mem_held raw) t (mem_held (fst <$> x)) ∧
  (∀ p data, x = Some (p, data) → bytes data).
Proof.
  induction more as [|more IH]; intros raw e x e' t Hr; cbn [read_routes] in Hr;
    apply bind_inv in Hr as (a & e1 & t1 & u1 & Ha & Hr & ->);
    apply route_attempt_keeps in Ha as [Hk Hb].
  all: destruct a as [[p [data|err]]|]; [run_inv; rewrite app_nil_r; split; [done|naive_solver]| |
    run_inv; by rewrite app_nil_r].
  - run_inv. split; [|done]. eapply keeps_from_app; [exact Hk|]. unfold mem_held. solve_keeps.
  - destruct (negb _).
    + run_inv. split; [|done]. eapply keeps_from_app; [exact Hk|]. unfold mem_held. solve_keeps.
    + apply IH in Hr as [Hk' Hb']. split; [|done]. by eapply keeps_from_app.
Qed.

Section DumpsKeep.
Context {E : Type} `{AllocLaw E}.

(** A row as the system fills it: address bytes, and PhysicalAddress is an
    array of 32 bytes. *)
Definition row_ok (row : ipnet_row) : Prop :=
  ip_ok (row_ip row) ∧ length (row_phys row) = 32%nat.

(** The rows the system answered with in a run. *)
Definition table_rows (ev : event) : list ipnet_row :=
  match ev with
  | Ev c r =>
    match c in call T return T → list ipnet_row with
    | GetIpNetTable2 => λ r, match r with Some (_, rows) => rows | None => [] end
    | _ => λ _, []
    end r
  end.

Lemma add_rows_grows rows : ∀ l (e : E) res l' e' t,
  Forall row_ok rows → list_ok l → add_rows l rows e = Some ((res, l'), e', t) → grows l t l'.
Proof.
  induction rows as [|row rows IH]; intros l e res l' e' t Hok Hl Hr; simpl in Hr.
  - run_inv. by apply grows_nil.
  - apply Forall_cons in Hok as [[Hip Hph] Hok]. case_test; [by eapply IH|].
    apply bind_inv in Hr as ([rc l2] & e1 & t1 & u1 & Hadd & Hr & ->).
    apply list_add_grows in Hadd; [|done| |].
    + case_test; [run_inv; by rewrite app_nil_r|].
      eapply grows_app; [exact Hadd|]. by eapply IH; [|apply Hadd|].
    + apply ip_ok_bytes in Hip as [Hip _]. apply Hip.
    + intros m [= <-] _. lia.
Qed.

Lemma windows_dump_grows l (e : E) res l' e' t :
  Forall row_ok (flat_map table_rows t) →
  list_ok l → windows_dump l e = Some ((res, l'), e', t) → grows l t l'.
Proof.
  intros Hrows Hl Hr. unfold windows_dump in Hr.
  apply bind_inv in Hr as (tb & e1 & t1 & u1 & [_ ->]%ask_inv & Hr & ->).
  destruct tb as [[h rows]|]; [|run_inv; apply grows_neutral; [done|apply Forall_singleton; by split]].
  apply bind_inv in Hr as ([res' l2] & e2 & t2 & u2 & Hadd & Hr & ->). run_inv. rewrite app_nil_r.
  apply (grows_bracket _ (RTable h) [_] t2 [_]); [done..|].
  eapply add_rows_grows; [|done|exact Hadd]. simpl in Hrows. by apply Forall_app in Hrows as [? _].
Qed.

Lemma route_round_grows raw next l (e : E) x e' t :
  bytes raw → list_ok l → route_round raw (next, l) e = Some (x, e', t) →
  grows l t (match x with inl (_, l') => l' | inr (_, l') => l' end).
Proof.
  intros Hraw Hl Hr. unfold route_round, link_address in Hr.
  repeat match type of Hr with
  | (if ?b then _ else _) _ = _ => destruct b
  | mret _ _ = _ => run_inv; by apply grows_nil
  | (match ?o with _ => _ end) _ = _ => destruct o eqn:?
  end.
  all: try (run_inv; by apply grows_nil).
  apply bind_inv in Hr as ([rc l'] & e1 & t1 & u1 & Hadd & Hr & ->).
  apply list_add_grows in Hadd; [|done| |].
  - run_inv; rewrite app_nil_r. by destruct (negb _).
  - rename select (read_bytes raw _ 4 = _) into Hb.
    apply read_bytes_some in Hb as (_ & _ & _ & _ & Hb). apply Hb, Forall_cons in Hraw as [Hi _].
    apply Hi.
  - intros m [= <-] _. rename select (read_bytes raw _ 6 = _) into Hb. apply read_bytes_some in Hb. lia.
Qed.

Lemma macos_dump_grows fuel l (e : E) res l' e' t :
  list_ok l → macos_dump fuel l e = Some ((res, l'), e', t) → grows l t l'.
Proof.
  intros Hl Hr. unfold macos_dump in Hr.
  apply bind_inv in Hr as (raw & e1 & t1 & u1 & Hraw & Hr & ->).
  apply read_routes_keeps in Hraw as [Hk Hb]. destruct raw as [[p data]|]; simpl in Hk.
  - apply bind_inv in Hr as ([res' l2] & e2 & t2 & u2 & Hloop & Hr & ->). run_inv. rewrite app_nil_r.
    assert (grows l t2 l2) as (Hl2 & Hp2 & Hk2).
    { refine (loop_invariant (λ st _ t, grows l t st.2) (λ r _ t, grows l t r.2)
        (route_round data) _ _ fuel (0, l) _ [] _ _ t2 (grows_nil _ Hl) Hloop).
      + intros [n1 l1] f t0 [n3 l3] f' u Hg Hr. eapply grows_app; [exact Hg|].
        exact (route_round_grows _ _ _ _ _ _ _ (Hb _ _ eq_refl) (proj1 Hg) Hr).
      + intros [n1 l1] f t0 [r l3] f' u Hg Hr. eapply grows_app; [exact Hg|].
        exact (route_round_grows _ _ _ _ _ _ _ (Hb _ _ eq_refl) (proj1 Hg) Hr). }
    split; [done|]. split; [done|].
    apply (keeps_from_frame (list_held l)) in Hk.
    eapply keeps_from_app; [eapply keeps_from_perm; [| |exact Hk]; [by rewrite app_nil_r|done]|].
    rewrite Permutation_app_comm.
    eapply keeps_from_app; [by apply keeps_from_frame|]. solve_keeps.
  - run_inv. rewrite app_nil_r. split; [done|]. split; [done|].
    apply (keeps_from_frame (list_held l)) in Hk. simpl in Hk. by rewrite app_nil_r in Hk.
Qed.

(** Every platform's reader, on the empty list. *)
Lemma dump_grows fuel os (e : E) res l' e' t :
  Forall row_ok (flat_map table_rows t) →
  (match os with
   | Linux => linux_dump fuel empty_list
   | Windows => windows_dump empty_list
   | MacOS => macos_dump fuel empty_list
   end) e = Some ((res, l'), e', t) → grows empty_list t l'.
Proof.
  intros Hrows Hr. destruct os.
  - exact (linux_dump_grows _ _ _ _ _ _ _ empty_list_ok Hr).
  - exact (macos_dump_grows _ _ _ _ _ _ _ empty_list_ok Hr).
  - exact (windows_dump_grows _ _ _ _ _ _ Hrows empty_list_ok Hr).
Qed.
End DumpsKeep.

(** What a row of the Windows table says. *)
Definition row_entries (row : ipnet_row) : list ns_neighbor :=
  let state := windows_state (row_state row) in
  let mac := Some (row_phys row) in
  if (state =? 0) || negb (row_family row =? AF_INET) || skipped (row_ip row) mac (row_phys_len row)
  then [] else [entry_of (row_ip row) mac (row_phys_len row) state].

Section DumpsEnd.
Context {E : Type} `{AllocLaw E}.

Lemma add_rows_exact rows : ∀ l (e : E) res l' e' t,
  Forall row_ok rows → list_ok l → add_rows l rows e = Some ((res, l'), e', t) →
  (res = ParseDone ∧ nl_entries l' = nl_entries l ++ flat_map row_entries rows) ∨ res = ParseError.
Proof.
  induction rows as [|row rows IH]; intros l e res l' e' t Hok Hl Hr; simpl in Hr.
  - run_inv. left. by rewrite app_nil_r.
  - apply Forall_cons in Hok as [[Hip Hph] Hok]. unfold row_entries. simpl.
    destruct (_ || _) eqn:Hs in Hr; rewrite Hs; [by eapply IH|].
    apply bind_inv in Hr as ([rc l2] & e1 & t1 & u1 & Hadd & Hr & ->).
    apply list_add_run in Hadd as (Hl2 & _ & [[Hrc Hent]|[Hrc _]]); [subst rc|subst rc|done| |].
    + eapply IH in Hr; [|done..]. destruct Hr as [[Hres Hent']|Hres]; [left|by right]. subst res.
      split; [done|]. rewrite Hent', Hent, <- app_assoc. done.
    + right. by run_inv.
    + apply ip_ok_bytes in Hip as [Hip _]. apply Hip.
    + intros m [= <-] _. lia.
Qed.
End DumpsEnd.

Section DumpRuns.
Context {E : Type} `{QueueLaw E}.

Lemma total_add_rows rows : ∀ l, total (add_rows (E := E) l rows).
Proof.
  induction rows as [|row rows IH]; intros l; simpl; [apply total_ret|].
  case_match; [apply IH|]. apply total_bind; [apply total_list_add|].
  intros [rc l']. case_match; [apply total_ret|apply IH].
Qed.

Lemma total_route_attempt raw : total (route_attempt (E := E) raw).
Proof. unfold route_attempt. repeat (solve_total; try apply total_free_opt). Qed.

Lemma total_read_routes more : ∀ raw, total (read_routes (E := E) more raw).
Proof.
  induction more as [|more IH]; intros raw; cbn [read_routes]; (apply total_bind;
    [apply total_route_attempt|]); intros [[p [data|err]]|]; solve_total.
Qed.

Lemma total_route_round raw st : total (route_round (E := E) raw st).
Proof. destruct st as [next l]. unfold route_round, link_address. solve_total. Qed.

Lemma route_round_left raw st (e : E) st' e' t :
  bytes raw → route_round raw st e = Some (inl st', e', t) → st.1 < st'.1 ∧ st.1 < Z.of_nat (length raw).
Proof.
  intros Hraw Hr. destruct st as [next l]. unfold route_round in Hr.
  case_test; [by run_inv|]. destruct (read_le raw next 2) as [n|] eqn:Hn; [|by run_inv].
  apply read_le_range in Hn; [|done]. case_test; [by run_inv|].
  assert (st'.1 = next + n) as ->; [|simpl; lia]. unfold link_address in Hr.
  run_inv; try done; case_match; by simplify_eq.
Qed.

Lemma macos_dump_runs l : runs (λ n, macos_dump (E := E) n l).
Proof.
  assert (∀ data, fuel_mono (λ n, loop n (route_round (E := E) data) (0, l))) as Hmono.
  { intros. apply (fuel_mono_loop (λ _, route_round data)). intros. apply fuel_mono_const. }
  unfold macos_dump.
  apply (runs_bind_when (λ x, ∀ p data, x = Some (p, data) → bytes data)).
  - apply runs_const, total_read_routes.
  - intros n e a e' t Hr. by apply read_routes_keeps in Hr as [_ ?].
  - intros [[p data]|]; [|apply fuel_mono_const]. apply fuel_mono_bind; [done|].
    intros [result l']. apply fuel_mono_const.
  - intros [[p data]|] Hb; [|apply runs_const, total_ret].
    apply runs_bind; [|intros [result l']; apply runs_const; solve_total].
    apply (runs_loop (λ p q, (Z.to_nat (Z.of_nat (length data) - p.1.1) <
      Z.to_nat (Z.of_nat (length data) - q.1.1))%nat) (λ _, route_round data)).
    + apply (wf_projected lt (λ p : (Z * neighbor_list) * E, Z.to_nat (Z.of_nat (length data) - p.1.1)));
        [done|apply lt_wf].
    + intros. apply runs_const, total_route_round.
    + intros m s e s' e' t Hr. apply route_round_left in Hr; [|by eapply Hb]. simpl. lia.
Qed.

Lemma dump_neighbors_runs os null : runs (λ n, dump_neighbors (E := E) n os null).
Proof.
  unfold dump_neighbors. destruct null; [apply runs_const, total_ret|].
  apply runs_bind.
  - destruct os; [apply linux_dump_runs|apply macos_dump_runs|].
    apply runs_const. unfold windows_dump. repeat (solve_total; try apply total_add_rows).
  - intros [res l]. apply runs_const. repeat (solve_total; try apply total_free_opt).
Qed.
End DumpRuns.

(** ** The routing messages of macOS

    A message as the kernel writes it: a header, the sockaddr_in with its
    padding, the sockaddr_dl with the interface's name before the link-layer
    address. *)

Record route_msg := RouteMsg {
  rm_header : list Z;         (* the rt_msghdr after its length: 90 bytes *)
  rm_sin_len : Z; rm_family : Z; rm_port : list Z; rm_ip : ip4; rm_pad : list Z;
  rm_sdl_len : Z; rm_sdl_family : Z; rm_index : list Z; rm_type : Z; rm_slen : Z;
  rm_name : list Z; rm_addr : list Z; rm_tail : list Z
}.

Definition route_body (m : route_msg) : list Z :=
  rm_header m ++ [rm_sin_len m] ++ [rm_family m] ++ rm_port m ++ ip_bytes (rm_ip m) ++ rm_pad m ++
  [rm_sdl_len m] ++ [rm_sdl_family m] ++ rm_index m ++ [rm_type m] ++ [len (rm_name m)] ++
  [len (rm_addr m)] ++ [rm_slen m] ++ rm_name m ++ rm_addr m ++ rm_tail m.

Definition encode_route (m : route_msg) : list Z := le_bytes 2 (2 + len (route_body m)) ++ route_body m.

Definition route_ok (m : route_msg) : Prop :=
  length (rm_header m) = 90%nat ∧ length (rm_port m) = 2%nat ∧ length (rm_index m) = 2%nat ∧
  len (rm_pad m) = ARP_SA_ROUNDUP (rm_sin_len m) - 8 ∧ 2 + len (route_body m) < 65536.

Section Routes.
Context {E : Type} `{Env E}.

(** The neighbours the messages name: IPv4 with a six-byte link address. *)
Fixpoint add_routes (l : neighbor_list) (ms : list route_msg) : M E (parse_end * neighbor_list) :=
  match ms with
  | [] => mret (ParseDone, l)
  | m :: ms =>
    if (rm_family m =? AF_INET) && (rm_sdl_family m =? AF_LINK) && (len (rm_addr m) =? 6) then
      '(rc, l) ← list_add l (rm_ip m) (Some (rm_addr m)) 6 NS_NEIGH_STALE;
      if rc =? 0 then add_routes l ms else mret (ParseError, l)
    else add_routes l ms
  end.

(** A round over one whole message. *)
Lemma route_round_msg m raw pre post l (e : E) :
  raw = pre ++ encode_route m ++ post → route_ok m →
  route_round raw (len pre, l) e =
  (if (rm_family m =? AF_INET) && (rm_sdl_family m =? AF_LINK) && (len (rm_addr m) =? 6) then
     '(rc, l) ← list_add l (rm_ip m) (Some (rm_addr m)) 6 NS_NEIGH_STALE;
     mret (if negb (rc =? 0) then inr (ParseError, l) else inl (len pre + len (encode_route m), l))
   else mret (inl (len pre + len (encode_route m), l))) e.
Proof.
  intros Hraw (Hh & Hport & Hidx & Hpad & Hlen).
  set (size := 2 + len (route_body m)) in *.
  assert (len (encode_route m) = size) as Hsize.
  { unfold encode_route. rewrite length_app, length_le_bytes. unfold size. lia. }
  assert (92 <= size) as Hbig.
  { unfold size, route_body. rewrite length_app, Hh. lia. }
  unfold route_round. rewrite (proj2 (Z.ltb_lt _ _)).
  2:{ rewrite Hraw, !length_app. lia. }
  cbn [negb].
  rewrite (read_le_mid pre 2 size (route_body m ++ post)); [| |done|done|lia].
  2:{ rewrite Hraw. unfold encode_route. by rewrite <- !app_assoc. }
  rewrite (proj2 (Z.eqb_neq _ _)) by lia. unfold RT_MSGHDR.
  set (base := pre ++ le_bytes 2 size ++ rm_header m) in *.
  assert (len base = len pre + 92) as Hbase.
  { unfold base. rewrite !length_app, length_le_bytes, Hh. lia. }
  assert (raw = base ++ [rm_sin_len m] ++ [rm_family m] ++ rm_port m ++ ip_bytes (rm_ip m) ++ rm_pad m ++
    [rm_sdl_len m] ++ [rm_sdl_family m] ++ rm_index m ++ [rm_type m] ++ [len (rm_name m)] ++
    [len (rm_addr m)] ++ [rm_slen m] ++ rm_name m ++ rm_addr m ++ rm_tail m ++ post) as Hr.
  { rewrite Hraw. unfold encode_route, route_body, base. fold size. by rewrite <- !app_assoc. }
  clear Hraw. rewrite <- Hbase.
  pose proof Hr as Hr2. rewrite app_assoc in Hr2.
  rewrite (read_byte_mid _ _ _ _ (len base + 1) Hr2) by (rewrite length_app; simpl; lia).
  destruct (rm_family m =? AF_INET); [|by rewrite Hsize]. cbn [negb andb].
  rewrite (read_byte_mid _ _ _ _ (len base) Hr) by done. unfold link_address.
  set (base2 := base ++ [rm_sin_len m] ++ [rm_family m] ++ rm_port m ++ ip_bytes (rm_ip m) ++ rm_pad m).
  assert (len base2 = len base + ARP_SA_ROUNDUP (rm_sin_len m)) as Hbase2.
  { unfold base2. rewrite !length_app, Hport. simpl. lia. }
  rewrite <- Hbase2.
  assert (∀ skip v rest, raw = base2 ++ skip ++ [v] ++ rest → read_le raw (len base2 + len skip) 1 = Some v)
    as Hbyte.
  { intros skip v rest Hs. rewrite app_assoc in Hs. apply (read_byte_mid _ _ _ _ _ Hs).
    by rewrite length_app, Nat2Z.inj_add. }
  assert (raw = base2 ++ [rm_sdl_len m] ++ [rm_sdl_family m] ++ rm_index m ++ [rm_type m] ++
    [len (rm_name m)] ++ [len (rm_addr m)] ++ [rm_slen m] ++ rm_name m ++ rm_addr m ++ rm_tail m ++ post)
    as Hr3 by (rewrite Hr; unfold base2; by rewrite <- !app_assoc).
  rewrite (Hbyte [rm_sdl_len m] _ _ Hr3 : read_le raw (len base2 + 1) 1 = _).
  destruct (rm_sdl_family m =? AF_LINK); [|by rewrite Hsize]. cbn [negb andb].
  assert (read_le raw (len base2 + 5) 1 = Some (len (rm_name m))) as Hnlen.
  { replace 5 with (len ([rm_sdl_len m] ++ [rm_sdl_family m] ++ rm_index m ++ [rm_type m]))
      by (rewrite !length_app, Hidx; done).
    eapply Hbyte. by rewrite Hr3, <- !app_assoc. }
  assert (read_le raw (len base2 + 6) 1 = Some (len (rm_addr m))) as ->.
  { replace 6 with (len ([rm_sdl_len m] ++ [rm_sdl_family m] ++ rm_index m ++ [rm_type m] ++ [len (rm_name m)]))
      by (rewrite !length_app, Hidx; done).
    eapply Hbyte. by rewrite Hr3, <- !app_assoc. }
  destruct (len (rm_addr m) =? 6) eqn:H6; [|by rewrite Hsize]. cbn [negb]. to_prop.
  assert (read_bytes raw (len base + 4) 4 = Some (ip_bytes (rm_ip m))) as ->.
  { rewrite Hr. set (rest := rm_pad m ++ _).
    rewrite (app_assoc [rm_sin_len m]), (app_assoc _ (rm_port m)), (app_assoc base).
    apply read_bytes_mid; [|done]. rewrite !length_app, Hport. simpl. lia. }
  rewrite Hnlen.
  assert (read_bytes raw (len base2 + 8 + len (rm_name m)) 6 = Some (rm_addr m)) as ->.
  { rewrite Hr3, <- H6. set (rest := rm_tail m ++ post).
    rewrite (app_assoc [rm_sdl_len m]), (app_assoc _ (rm_index m)), (app_assoc _ [rm_type m]),
      (app_assoc _ [len (rm_name m)]), (app_assoc _ [len (rm_addr m)]), (app_assoc _ [rm_slen m]),
      (app_assoc _ (rm_name m)), (app_assoc base2).
    apply read_bytes_mid; [|done]. rewrite !length_app, Hidx. simpl. lia. }
  rewrite Hsize. simpl. by destruct (rm_ip m).
Qed.

Lemma add_routes_loop raw ms : ∀ pre l n (e : E),
  raw = pre ++ flat_map encode_route ms → Forall route_ok ms → (length ms < n)%nat →
  loop n (route_round raw) (len pre, l) e = add_routes l ms e.
Proof.
  induction ms as [|m ms IH]; intros pre l [|n] e Hraw Hok Hn; simpl in Hn; try lia.
  - simpl in *. rewrite app_nil_r in Hraw. subst raw. unfold route_round. by rewrite Z.ltb_irrefl.
  - apply Forall_cons in Hok as [Hm Hok]. cbn [flat_map] in Hraw. cbn [loop add_routes].
    unfold mbind, M_bind. rewrite (route_round_msg m raw pre (flat_map encode_route ms)) by done.
    assert (∀ l e, loop n (route_round raw) (len pre + len (encode_route m), l) e = add_routes l ms e)
      as Hnext.
    { intros l1 e1. rewrite <- Nat2Z.inj_add, <- length_app. apply IH; [|done|lia].
      by rewrite Hraw, <- app_assoc. }
    destruct (_ && _ && _).
    + unfold mbind, M_bind. destruct (list_add l _ _ _ _ e) as [[[[rc l'] e'] t]|]; [|done].
      simpl. rewrite app_nil_r. destruct (rc =? 0); simpl; [by rewrite Hnext|by rewrite app_nil_r].
    + simpl. rewrite Hnext. by destruct (add_routes l ms e) as [[[? ?] ?]|].
Qed.
End Routes.

(** ** Properties *)

Lemma dump_neighbors_real {E} `{AllocLaw E} fuel os null (e : E) res e' t :
  dump_neighbors fuel os null e = Some (res, e', t) →
  Forall row_ok (flat_map table_rows t) →
  match res with
  | Dumped out entries =>
    Forall real_host entries ∧ (out = None → entries = []) ∧ keeps t (mem_held out) ∧
    ∀ e2 t2, free_neighbors out e' = Some ((), e2, t2) → keeps (t ++ t2) []
  | DumpFailed => keeps t []
  | DumpOverRead l => keeps t (list_held l)
  end.
Proof.
  intros Hr Hrows. unfold dump_neighbors in Hr. destruct null; [run_inv; exact (keeps_from_nil [])|].
  apply bind_inv in Hr as ([result l] & e1 & t1 & u1 & Hd & Hr & ->).
  apply dump_grows in Hd as (Hl & _ & Hk); [|by rewrite flat_map_app in Hrows; apply Forall_app in Hrows as [? _]].
  destruct result; try (run_inv; rewrite app_nil_r).
  - apply keeps_keeps_from. eapply keeps_from_app; [exact Hk|]. rewrite ?app_nil_r. by eapply free_opt_keeps.
  - splits; [apply lo_hosts, Hl| |exact Hk|].
    + intros Hnone. destruct (lo_items _ Hl) as [Hi _]. pose proof (lo_room _ Hl).
      apply length_zero_iff_nil. specialize (Hi Hnone). lia.
    + intros e2 t2 Hf. apply keeps_keeps_from. eapply keeps_from_app; [exact Hk|]. by apply free_opt_keeps in Hf.
  - apply keeps_keeps_from. eapply keeps_from_app; [exact Hk|]. rewrite ?app_nil_r. by eapply free_opt_keeps.
  - done.
Qed.

(** on every platform, what a successful dump hands out are real hosts
    only (unicast address, no broadcast MAC), and the run holds nothing but
    their array: every socket, table and buffer is given back, and
    free_neighbors gives back the array too.  A dump that fails holds
    nothing. *)
Theorem dump_neighbors_hosts {E} `{AllocLaw E} fuel os null (e : E) res e' t :
  dump_neighbors fuel os null e = Some (res, e', t) →
  Forall row_ok (flat_map table_rows t) →
  match res with
  | Dumped out entries =>
    Forall real_host entries ∧ (out = None → entries = []) ∧ keeps t (mem_held out) ∧
    ∀ e2 t2, free_neighbors out e' = Some ((), e2, t2) → keeps (t ++ t2) []
  | DumpFailed => keeps t []
  | DumpOverRead l => keeps t (list_held l)
  end.
Proof. exact (dump_neighbors_real fuel os null e res e' t). Qed.

Definition sample_rows : list ipnet_row :=
  [IpNetRow NlnsReachable AF_INET (IP 10 0 0 7) ([1; 2; 3; 4; 5; 6] ++ replicate 26 0) 6;
   IpNetRow NlnsPermanent AF_INET (IP 10 0 0 255) (BROADCAST_MAC ++ replicate 26 0) 6;
   IpNetRow 0 AF_INET (IP 10 0 0 8) (replicate 32 0) 0].

Definition rows_script : script :=
  {| sc_now := 0; sc_fd := 3; sc_polls := []; sc_selects := []; sc_sends := []; sc_recvs := [];
     sc_connects := []; sc_mallocs := []; sc_files := []; sc_size := 0; sc_ifaddrs := [];
     sc_local := Ok idle_addr; sc_peer := Ok idle_addr; sc_soerror := Ok 0; sc_stops := [];
     sc_rows := sample_rows;
     sc_echo2 := []; sc_pending := []; sc_parsed := []; sc_jobs := [];
     sc_caps := [] |}.

Lemma sample_rows_ok : Forall row_ok sample_rows.
Proof.
  unfold sample_rows, row_ok, ip_ok, bytes, ip_bytes, is_u8; simpl.
  repeat (first [lia | split | apply Forall_cons | apply Forall_nil]); done.
Qed.

Lemma dump_neighbors_hosts_witness :
  ∃ x e' t, dump_neighbors 1 Windows false rows_script = Some (x, e', t) ∧
    x = Dumped (Some 4) [Neighbor (IP 10 0 0 7) [1; 2; 3; 4; 5; 6] true NS_NEIGH_REACHABLE] ∧
    keeps t (mem_held (Some 4)).
Proof.
  run_here. split; [done|].
  refine (proj1 (proj2 (proj2 (dump_neighbors_hosts 1 Windows false rows_script
    (Dumped (Some 4) [Neighbor (IP 10 0 0 7) [1; 2; 3; 4; 5; 6] true NS_NEIGH_REACHABLE]) _ _ _ _)))).
  - here.
  - change (Forall row_ok (sample_rows ++ [])). rewrite app_nil_r. apply sample_rows_ok.
Defined.

(** the dump ends on every platform, whatever the kernel answers. *)
Theorem dump_neighbors_terminates {E} `{QueueLaw E} os null (e : E) :
  ∃ n, ∀ m, (n ≤ m)%nat → is_Some (dump_neighbors m os null e).
Proof. exact (runs_enough _ e (dump_neighbors_runs os null)). Qed.

Lemma dump_neighbors_terminates_witness :
  ∃ n, ∀ m, (n ≤ m)%nat → is_Some (dump_neighbors m MacOS false sample_script).
Proof. apply dump_neighbors_terminates. Defined.

(** on Windows a dump that succeeds appends exactly the rows whose state
    says somebody answered, IPv4 and a real host, in the table's order, and
    frees the table. *)
Theorem windows_dump_exact {E} `{AllocLaw E} l (e : E) l' e' t :
  windows_dump l e = Some ((ParseDone, l'), e', t) →
  Forall row_ok (flat_map table_rows t) → list_ok l →
  nl_entries l' = nl_entries l ++ flat_map row_entries (flat_map table_rows t) ∧
  ∃ h, Ev (FreeMibTable h) () ∈ t.
Proof.
  intros Hr Hrows Hl. unfold windows_dump in Hr.
  apply bind_inv in Hr as (tb & e1 & t1 & u1 & [_ ->]%ask_inv & Hr & ->).
  destruct tb as [[h rows]|]; [|by run_inv].
  apply bind_inv in Hr as ([res' l2] & e2 & t2 & u2 & Hadd & Hr & ->).
  assert (flat_map table_rows t2 = []) as Ht2.
  { assert (logs (λ ev, table_rows ev = []) (add_rows (E := E) l rows)) as Hlogs.
    { clear. revert l. induction rows as [|row rows IH]; intros l; simpl; [apply logs_ret|].
      case_match; [apply IH|]. apply logs_bind; [unfold list_add; solve_logs|].
      intros [rc l']. case_match; [apply logs_ret|apply IH]. }
    apply Hlogs in Hadd. clear -Hadd. induction Hadd as [|ev t Hev _ IH]; [done|]. simpl. by rewrite Hev. }
  run_inv. split; [|exists h; in_list].
  simpl in *. rewrite !flat_map_app, Ht2 in *. simpl in *. rewrite !app_nil_r in *.
  by apply add_rows_exact in Hadd as [[_ ->]|Hf].
Qed.

Lemma windows_dump_exact_witness :
  ∃ l' e' t, windows_dump empty_list rows_script = Some ((ParseDone, l'), e', t) ∧
    nl_entries l' = nl_entries empty_list ++ flat_map row_entries (flat_map table_rows t) ∧
    ∃ h, Ev (FreeMibTable h) () ∈ t.
Proof.
  run_here. eapply (windows_dump_exact empty_list rows_script); [here| |exact empty_list_ok].
  change (Forall row_ok (sample_rows ++ [])). rewrite app_nil_r. apply sample_rows_ok.
Defined.

(** on macOS the walk over a routing table made of well-formed messages
    adds exactly the neighbours they name: the IPv4 entries with a six-byte
    link-layer address, wherever the padding and the interface's name put
    it; the result is the walk's, whatever reading the table took. *)
Theorem macos_dump_routes {E} `{Env E} fuel l ms (e : E) p e1 t1 res l' e2 t2 :
  read_routes 2 None e = Some (Some (p, flat_map encode_route ms), e1, t1) →
  Forall route_ok ms → (length ms < fuel)%nat →
  add_routes l ms e1 = Some ((res, l'), e2, t2) →
  ∃ e3, macos_dump fuel l e = Some ((res, l'), e3, t1 ++ t2 ++ [Ev (Free p) ()]).
Proof.
  intros Hread Hok Hf Hadd. destruct (env_step (Free p) e2) as [[] e3] eqn:Hfree. exists e3.
  eapply bind_some; [exact Hread|]. cbn beta iota.
  eapply bind_some.
  - rewrite <- Hadd. by apply (add_routes_loop _ ms []).
  - cbn beta iota. unfold mbind, M_bind, ask. by rewrite Hfree.
Qed.

Definition sample_route : route_msg :=
  RouteMsg (replicate 90 0) 16 AF_INET [0; 0] (IP 10 0 0 9) (replicate 8 0)
    20 AF_LINK [4; 0] 6 0 [101; 110; 48] [2; 4; 6; 8; 10; 12] [0; 0; 0].

Definition routes_script : script :=
  {| sc_now := 0; sc_fd := 3; sc_polls := []; sc_selects := []; sc_sends := []; sc_recvs := [];
     sc_connects := []; sc_mallocs := []; sc_files := encode_route sample_route; sc_size := 0;
     sc_ifaddrs := []; sc_local := Ok idle_addr; sc_peer := Ok idle_addr; sc_soerror := Ok 0;
     sc_stops := []; sc_rows := [];
     sc_echo2 := []; sc_pending := []; sc_parsed := []; sc_jobs := [];
     sc_caps := [] |}.

Lemma macos_dump_routes_witness :
  ∃ l' e3 t, macos_dump 2 empty_list routes_script = Some ((ParseDone, l'), e3, t) ∧
    nl_entries l' = [Neighbor (IP 10 0 0 9) [2; 4; 6; 8; 10; 12] true NS_NEIGH_STALE].
Proof.
  eexists. edestruct (macos_dump_routes 2 empty_list [sample_route] routes_script) as [e3 He3].
  - vm_compute. reflexivity.
  - apply Forall_singleton. unfold route_ok. splits; try here. 
  - here.
  - vm_compute. reflexivity.
  - do 2 eexists. split; [exact He3|here].
Defined.
