(* ===== verification/Rtt.v ===== *)
(** * rtt.zig: connect timeouts learned from round trips

    The estimator of a scan's round trips (RFC 6298 in integers) and the
    timeout it gives the next probe.  Arithmetic is Zig's: [None] is an
    overflow, which the theorems exclude for any round trip under 73
    millennia. *)
From S2P Require Import Prelude Words.
Open Scope Z_scope.

Definition us_per_ms : Z := 1000.

Record RttEstimator := Rtt {
  floor_ms : Z;
  headroom_ms : Z;
  ceiling_ms : Z;
  srtt_us : option Z;
  rttvar_us : Z
}.

(** The assertion on the bounds is [None]. *)
Definition init (floor headroom ceiling : Z) : option RttEstimator :=
  if floor <=? ceiling then Some (Rtt floor headroom ceiling None 0) else None.

Definition observe (self : RttEstimator) (rtt_us : Z) : option RttEstimator :=
  match srtt_us self with
  | None => Some (Rtt (floor_ms self) (headroom_ms self) (ceiling_ms self) (Some rtt_us) (rtt_us / 2))
  | Some srtt =>
    deviation ← (if srtt >? rtt_us then zu64 (srtt - rtt_us) else zu64 (rtt_us - srtt));
    v3 ← zu64 (3 * rttvar_us self);
    v ← zu64 (v3 + deviation);
    s7 ← zu64 (7 * srtt);
    s ← zu64 (s7 + rtt_us);
    Some (Rtt (floor_ms self) (headroom_ms self) (ceiling_ms self) (Some (s / 8)) (v / 4))
  end.

(** std.math.divCeil on unsigned integers, and std.math.clamp. *)
Definition div_ceil (a b : Z) : Z := (a + b - 1) / b.
Definition clamp (x lo hi : Z) : Z := Z.max lo (Z.min x hi).

Definition timeoutMs (self : RttEstimator) : option Z :=
  match srtt_us self with
  | None => Some (ceiling_ms self)
  | Some srtt =>
    v4 ← zu64 (4 * rttvar_us self);
    h ← zu64 (headroom_ms self * us_per_ms);
    let headroom_us := Z.max v4 h in
    wait_us ← zu64 (srtt + headroom_us);
    zu32 (clamp (div_ceil wait_us us_per_ms) (floor_ms self) (ceiling_ms self))
  end.

(** The answers of a scan, in order. *)
Fixpoint observe_all (self : RttEstimator) (rtts : list Z) : option RttEstimator :=
  match rtts with
  | [] => Some self
  | r :: rtts => self ← observe self r; observe_all self rtts
  end.

(** ** What every estimator keeps *)

(** Round trips that cannot overflow: 2^60 us. *)
Definition MAX_RTT : Z := 1152921504606846976.

(** [lo] and [hi] bound the answers seen so far. *)
Record rtt_ok (lo hi : Z) (r : RttEstimator) : Prop := {
  ok_bounds : 0 <= floor_ms r <= ceiling_ms r;
  ok_ceiling : is_u32 (ceiling_ms r);
  ok_headroom : is_u32 (headroom_ms r);
  ok_range : 0 <= lo ∧ hi <= MAX_RTT;
  ok_srtt : match srtt_us r with Some s => lo <= s <= hi | None => rttvar_us r = 0 end;
  ok_var : 0 <= rttvar_us r <= Z.max 0 hi
}.

(** What [observe] computes, when nothing overflows. *)
Definition next_srtt (s x : Z) : Z := (7 * s + x) / 8.
Definition next_var (s v x : Z) : Z := (3 * v + Z.abs (s - x)) / 4.

Lemma next_srtt_range lo hi s x : lo <= s <= hi → lo <= x <= hi → lo <= next_srtt s x <= hi.
Proof.
  intros. unfold next_srtt. split; [apply Z.div_le_lower_bound|apply Z.div_le_upper_bound]; lia.
Qed.

Lemma next_var_range d s v x : 0 <= v <= d → Z.abs (s - x) <= d → 0 <= next_var s v x <= d.
Proof.
  intros. unfold next_var. split; [apply Z.div_pos|apply Z.div_le_upper_bound]; lia.
Qed.

Definition with_estimate (s v : Z) (r : RttEstimator) : RttEstimator :=
  Rtt (floor_ms r) (headroom_ms r) (ceiling_ms r) (Some s) v.

Lemma observe_some lo hi r s x :
  rtt_ok lo hi r → srtt_us r = Some s → 0 <= x <= MAX_RTT →
  observe r x = Some (with_estimate (next_srtt s x) (next_var s (rttvar_us r) x) r).
Proof.
  intros [] Hs Hx. rewrite Hs in *. unfold observe, zu64, MAX_RTT in *. rewrite Hs.
  assert ((if s >? x then fits 18446744073709551616 (s - x) else fits 18446744073709551616 (x - s))
    = Some (Z.abs (s - x))) as ->.
  { rewrite Z.gtb_ltb. case_test; rewrite fits_some by lia; f_equal; lia. }
  cbn [mbind option_bind]. rewrite (fits_some _ (3 * rttvar_us r)) by lia. cbn [mbind option_bind].
  rewrite (fits_some _ (_ + Z.abs _)) by lia. cbn [mbind option_bind].
  rewrite (fits_some _ (7 * s)) by lia. cbn [mbind option_bind].
  by rewrite (fits_some _ (7 * s + x)) by lia.
Qed.

Lemma observe_first r x :
  srtt_us r = None → observe r x = Some (with_estimate x (x / 2) r).
Proof. intros Hs. unfold observe. by rewrite Hs. Qed.

Lemma observe_ok lo hi r x :
  rtt_ok lo hi r → lo <= x <= hi →
  ∃ r', observe r x = Some r' ∧ rtt_ok lo hi r' ∧ is_Some (srtt_us r') ∧
    floor_ms r' = floor_ms r ∧ headroom_ms r' = headroom_ms r ∧ ceiling_ms r' = ceiling_ms r.
Proof.
  intros Hok Hx. pose proof Hok as []. destruct (srtt_us r) as [s|] eqn:Hs.
  - eexists. split; [eapply observe_some; [done|done|lia]|]. split; [|by eexists].
    split; simpl; try done; [by apply next_srtt_range|]. apply next_var_range; lia.
  - eexists. split; [by apply observe_first|]. split; [|by eexists].
    split; simpl; try done. pose proof (Z.div_pos x 2).
    pose proof (Z.mul_div_le x 2). lia.
Qed.

Lemma observe_all_ok lo hi xs : ∀ r,
  rtt_ok lo hi r → Forall (λ x, lo <= x <= hi) xs →
  ∃ r', observe_all r xs = Some r' ∧ rtt_ok lo hi r' ∧
    (is_Some (srtt_us r) ∨ xs ≠ [] → is_Some (srtt_us r')) ∧
    floor_ms r' = floor_ms r ∧ headroom_ms r' = headroom_ms r ∧ ceiling_ms r' = ceiling_ms r.
Proof.
  induction xs as [|x xs IH]; intros r Hok Hxs; [exists r; naive_solver|].
  apply Forall_cons in Hxs as [Hx Hxs].
  destruct (observe_ok _ _ _ _ Hok Hx) as (r1 & Ho & Hok1 & Hs1 & Hf & Hh & Hc).
  destruct (IH _ Hok1 Hxs) as (r2 & Ho2 & Hok2 & Hs2 & Hf2 & Hh2 & Hc2).
  exists r2. simpl. rewrite Ho. simpl. split; [done|]. split; [done|]. split; [intros; apply Hs2; by left|].
  repeat split; congruence.
Qed.

(** The timeout, when nothing overflows. *)
Definition wait_ms (s v headroom : Z) : Z := div_ceil (s + Z.max (4 * v) (headroom * us_per_ms)) us_per_ms.

Lemma timeoutMs_some lo hi r s :
  rtt_ok lo hi r → srtt_us r = Some s →
  timeoutMs r = Some (clamp (wait_ms s (rttvar_us r) (headroom_ms r)) (floor_ms r) (ceiling_ms r)).
Proof.
  intros [] Hs. rewrite Hs in *. unfold timeoutMs, zu64, zu32, MAX_RTT, is_u32, us_per_ms in *. rewrite Hs.
  rewrite (fits_some _ (4 * rttvar_us r)) by lia. cbn [mbind option_bind].
  rewrite (fits_some _ (headroom_ms r * 1000)) by lia. cbn [mbind option_bind].
  rewrite (fits_some _ (s + _)) by lia. cbn [mbind option_bind]. unfold wait_ms, us_per_ms, clamp.
  apply fits_some. lia.
Qed.

Lemma div_ceil_spec a b : 0 < b → (div_ceil a b - 1) * b < a <= div_ceil a b * b.
Proof.
  intros Hb. unfold div_ceil. pose proof (Z.div_mod (a + b - 1) b). pose proof (Z.mod_pos_bound (a + b - 1) b). lia.
Qed.

Lemma div_ceil_mono a a' b : 0 < b → a <= a' → div_ceil a b <= div_ceil a' b.
Proof. intros. unfold div_ceil. apply Z.div_le_mono; lia. Qed.

(** ** Settling *)

(** How far the smoothed value is from a steady round trip. *)
Lemma next_srtt_below s x : s <= x → s <= next_srtt s x <= x ∧ (s + 8 <= x → s < next_srtt s x).
Proof.
  intros Hle. unfold next_srtt.
  pose proof (Z.div_mod (7 * s + x) 8). pose proof (Z.mod_pos_bound (7 * s + x) 8). lia.
Qed.

Lemma next_srtt_above s x : x < s → x <= next_srtt s x < s.
Proof.
  intros Hlt. unfold next_srtt.
  pose proof (Z.div_mod (7 * s + x) 8). pose proof (Z.mod_pos_bound (7 * s + x) 8). lia.
Qed.

Lemma next_var_settles d s v x : Z.abs (s - x) <= d → d < v → 0 <= v → next_var s v x < v.
Proof.
  intros. unfold next_var. apply Z.div_lt_upper_bound; lia.
Qed.

Section Steady.
Variable x : Z.

Definition steady_step (p : Z * Z) : Z * Z := (next_srtt p.1 x, next_var p.1 p.2 x).

(** As close as integer division lets the estimate come. *)
Definition settled (p : Z * Z) : Prop := x - 7 <= p.1 <= x ∧ 0 <= p.2 <= 7.

Lemma settled_step p : settled p → settled (steady_step p).
Proof.
  destruct p as [s v]. unfold settled, steady_step; simpl. intros [Hs Hv].
  destruct (next_srtt_below s x) as [? _]; [lia|].
  pose proof (next_var_range 7 s v x). lia.
Qed.

Lemma settled_stays p n : settled p → settled (Nat.iter n steady_step p).
Proof. intros Hp. induction n as [|n IH]; [done|]. by apply settled_step. Qed.

Lemma steady_settles s v : 0 <= v → ∃ n, settled (Nat.iter n steady_step (s, v)).
Proof.
  revert v. remember (Z.to_nat (Z.abs (s - x))) as d eqn:Hd. revert s Hd.
  induction d as [d IHd] using lt_wf_ind. intros s Hd.
  assert (∀ v, 0 <= v → (Z.to_nat (Z.abs (next_srtt s x - x)) < d)%nat →
    ∃ n, settled (Nat.iter n steady_step (s, v))) as Hnear.
  { intros v Hv Hlt. assert (0 <= next_var s v x) by (unfold next_var; apply Z.div_pos; lia).
    destruct (IHd _ Hlt _ eq_refl (next_var s v x)) as [n Hn]; [done|].
    exists (S n). by rewrite Nat.iter_succ_r. }
  destruct (Z.lt_ge_cases x s) as [Hlt|Hle].
  { intros v Hv. apply Hnear; [done|]. pose proof (next_srtt_above s x Hlt). lia. }
  pose proof (next_srtt_below s x Hle) as [Hb Hmove].
  destruct (Z.lt_ge_cases s (x - 7)) as [Hfar|Hclose]; [intros v Hv; apply Hnear; [done|lia]|].
  (* the smoothed value has settled: the variation follows *)
  clear IHd Hd Hnear Hmove Hb. intros v.
  assert (∀ n s v, x - 7 <= s <= x → 0 <= v → (Z.to_nat v ≤ n)%nat →
    ∃ k, settled (Nat.iter k steady_step (s, v))) as Hvar; [|intros Hv; by eapply Hvar].
  clear. intros n. induction n as [|n IH]; intros s v Hs Hv Hn.
  { exists 0%nat. split; simpl; lia. }
  destruct (Z.le_gt_cases v 7); [exists 0%nat; split; simpl; lia|].
  destruct (next_srtt_below s x) as [Hb _]; [lia|].
  assert (next_var s v x < v) by (apply (next_var_settles 7); lia).
  assert (0 <= next_var s v x) by (unfold next_var; apply Z.div_pos; lia).
  destruct (IH (next_srtt s x) (next_var s v x)) as [k Hk]; [lia..|].
  exists (S k). by rewrite Nat.iter_succ_r.
Qed.
End Steady.

Lemma observe_steady lo hi x n : ∀ r s,
  rtt_ok lo hi r → srtt_us r = Some s → lo <= x <= hi →
  observe_all r (replicate n x) =
    Some (let p := Nat.iter n (steady_step x) (s, rttvar_us r) in with_estimate p.1 p.2 r).
Proof.
  induction n as [|n IH]; intros r s Hok Hs Hx.
  { simpl. destruct r. unfold with_estimate. simpl in *. by subst. }
  destruct (observe_ok _ _ _ _ Hok Hx) as (r1 & Ho & Hok1 & _). pose proof Hok as [].
  rewrite (observe_some lo hi r s x) in Ho by (done || lia). injection Ho as <-.
  rewrite Nat.iter_succ_r. cbn [replicate observe_all].
  rewrite (observe_some lo hi r s x) by (done || lia). cbn [mbind option_bind].
  by rewrite (IH _ (next_srtt s x) Hok1 eq_refl Hx).
Qed.

(** ** Properties *)

(** bounds.  An estimator never overflows on round trips up to 2^60 us,
    whatever their order; its timeout is always between the floor and the
    ceiling, it is the ceiling until the first answer, and afterwards it is
    the ceiling or leaves the whole headroom above the fastest answer. *)
Theorem timeout_learned floor headroom ceiling rtts lo hi :
  0 <= floor <= ceiling → is_u32 ceiling → is_u32 headroom → 0 <= lo → hi <= MAX_RTT →
  Forall (λ x, lo <= x <= hi) rtts →
  ∃ r0 r t, init floor headroom ceiling = Some r0 ∧ observe_all r0 rtts = Some r ∧
    timeoutMs r = Some t ∧ floor <= t <= ceiling ∧
    (rtts = [] → t = ceiling) ∧
    (rtts ≠ [] → t = ceiling ∨ lo + headroom * us_per_ms <= t * us_per_ms).
Proof.
  intros Hf Hc Hh Hlo Hhi Hrtts. unfold init. rewrite (proj2 (Z.leb_le _ _)) by lia.
  exists (Rtt floor headroom ceiling None 0).
  assert (rtt_ok lo hi (Rtt floor headroom ceiling None 0)) as Hok by (split; simpl; try done; lia).
  destruct (observe_all_ok _ _ _ _ Hok Hrtts) as (r & Ho & Hokr & Hs & Hfl & Hhd & Hce). simpl in *.
  destruct rtts as [|x rtts].
  { injection Ho as <-. eexists _, ceiling. splits; try done; lia. }
  destruct (Hs ltac:(by right)) as [s Hsr]. pose proof Hokr as []. rewrite Hsr in *.
  pose proof (timeoutMs_some _ _ _ _ Hokr Hsr) as Ht. rewrite Hfl, Hhd, Hce in Ht.
  eexists r, _. split; [done|]. split; [done|]. split; [exact Ht|]. unfold clamp.
  pose proof (div_ceil_spec (s + Z.max (4 * rttvar_us r) (headroom * us_per_ms)) us_per_ms) as Hd.
  unfold wait_ms, us_per_ms in *. split; [lia|]. split; [done|]. intros _.
  destruct (Z.le_gt_cases ceiling (div_ceil (s + Z.max (4 * rttvar_us r) (headroom * 1000)) 1000)); lia.
Qed.

(** liveness.  The timeout follows the network: from any state an
    estimator can be in, once answers keep taking [x] us, the timeout is from
    some answer on the one for [x] and the headroom, up to 7 us, which is the
    least integer smoothing can tell. *)
Theorem timeout_settles lo hi r x :
  rtt_ok lo hi r → lo <= x <= hi → 0 < headroom_ms r →
  ∃ n, ∀ k, (n ≤ k)%nat → ∃ r' s, observe_all r (replicate k x) = Some r' ∧
    srtt_us r' = Some s ∧ x - 7 <= s <= x ∧
    timeoutMs r' = Some (clamp (div_ceil s us_per_ms + headroom_ms r) (floor_ms r) (ceiling_ms r)).
Proof.
  intros Hok Hx Hh.
  assert (∀ r s, rtt_ok lo hi r → srtt_us r = Some s → 0 < headroom_ms r → ∃ n, ∀ k, (n ≤ k)%nat →
    ∃ r' s', observe_all r (replicate k x) = Some r' ∧ srtt_us r' = Some s' ∧ x - 7 <= s' <= x ∧
      timeoutMs r' = Some (clamp (div_ceil s' us_per_ms + headroom_ms r) (floor_ms r) (ceiling_ms r))) as Hmain.
  { clear r Hok Hh. intros r s Hok Hs Hh. pose proof Hok as [].
    destruct (steady_settles x s (rttvar_us r)) as [n Hn]; [lia|].
    exists n. intros k Hk. pose proof (settled_stays x _ (k - n) Hn) as Hk'.
    rewrite <- Nat.iter_add in Hk'. replace (k - n + n)%nat with k in Hk' by lia.
    pose proof (observe_steady _ _ _ k _ _ Hok Hs Hx) as Ho. simpl in Ho.
    set (p := Nat.iter k (steady_step x) (s, rttvar_us r)) in *. destruct Hk' as [Hps Hpv].
    destruct (observe_all_ok lo hi (replicate k x) r Hok) as (r' & Ho' & Hokr & _).
    { by apply Forall_replicate. }
    rewrite Ho' in Ho. injection Ho as ->. exists (with_estimate p.1 p.2 r), p.1. split; [done|]. split; [done|].
    split; [done|]. rewrite (timeoutMs_some _ _ _ p.1 Hokr) by done. simpl. do 2 f_equal.
    unfold wait_ms, div_ceil, us_per_ms. rewrite Z.max_r by lia.
    rewrite <- Z.div_add by lia. f_equal. lia. }
  destruct (srtt_us r) as [s|] eqn:Hs; [by eapply Hmain|].
  destruct (observe_ok _ _ _ _ Hok Hx) as (r1 & Ho & Hok1 & [s1 Hs1] & Hf & Hhd & Hce).
  destruct (Hmain r1 s1 Hok1 Hs1) as [n Hn]; [by rewrite Hhd|]. exists (S n). intros [|k] Hk; [lia|].
  destruct (Hn k ltac:(lia)) as (r' & s' & Hr & Hrs & Hrange & Ht). exists r', s'. simpl. rewrite Ho. simpl.
  rewrite Hf, Hhd, Hce in Ht. done.
Qed.

(** A scan's estimator: 100 ms floor, 40 ms headroom, 500 ms ceiling. *)
Lemma timeout_learned_witness :
  ∃ r0 r t, init 100 40 500 = Some r0 ∧ observe_all r0 [180000; 210000; 95000] = Some r ∧
    timeoutMs r = Some t ∧ 100 <= t <= 500 ∧
    ([180000; 210000; 95000] = [] → t = 500) ∧
    ([180000; 210000; 95000] ≠ [] → t = 500 ∨ 95000 + 40 * us_per_ms <= t * us_per_ms).
Proof.
  refine (timeout_learned 100 40 500 [180000; 210000; 95000] 95000 210000 _ _ _ _ _ _);
    [lia|done|done|lia|done|]. repeat constructor; lia.
Defined.

Lemma timeout_settles_witness :
  ∃ n, ∀ k, (n ≤ k)%nat → ∃ r' s, observe_all (Rtt 100 40 500 None 0) (replicate k 120000) = Some r' ∧
    srtt_us r' = Some s ∧ 120000 - 7 <= s <= 120000 ∧
    timeoutMs r' = Some (clamp (div_ceil s us_per_ms + 40) 100 500).
Proof.
  refine (timeout_settles 0 200000 (Rtt 100 40 500 None 0) 120000 _ _ _); [|lia|done].
  split; simpl; done || lia.
Defined.
