(* ===== verification/Ranges.v ===== *)
(** * utils.zig: addresses, CIDR ranges and port lists

    How the command line's text becomes what is scanned: dotted addresses,
    "<ip>/<prefix>", the hosts of a subnet, "first-last" port lists.  Text is
    a list of byte values.  A Zig error is [inl]; [None] in [option] is
    illegal behaviour (an overflow).  [room] says which of a list's
    allocations succeed. *)
From S2P Require Import Prelude Words Decimal Subnets.
Open Scope Z_scope.

Inductive zig_error :=
| InvalidIpAddress | InvalidCidr | InvalidPrefixLength | InvalidPortRange
| InvalidCharacter | Overflow | OutOfMemory.

#[export] Instance zig_ret : MRet (sum zig_error) := λ A, inr.
#[export] Instance zig_bind : MBind (sum zig_error) := λ A B k m,
  match m with inl e => inl e | inr a => k a end.

(** try on an optional of the model: the code's only error there *)
Definition or_error {A} (e : zig_error) (m : option A) : zig_error + A :=
  match m with Some a => inr a | None => inl e end.

Record Network := Net { address : ip4; prefix_len : Z }.
Record IpRange := Range { range_start : ip4; range_end : ip4 }.

(** ** Addresses in text *)

Definition DOT : Z := 46.
Definition SLASH : Z := 47.

(** The while loop over the text, with ip_bytes[0..byte_index]. *)
Fixpoint ip_loop (s ip_bytes : list Z) (byte : Z) (has_digits : bool) : option ip4 :=
  match s with
  | [] =>
    if negb (length ip_bytes =? 3)%nat || negb has_digits then None
    else ip_of_bytes (ip_bytes ++ [byte])
  | char :: s =>
    if char =? DOT then
      if (4 <=? length ip_bytes)%nat || negb has_digits then None
      else ip_loop s (ip_bytes ++ [byte]) 0 false
    else if (char <? 48) || (char >? 57) then None
    else
      let digit := char - 48 in
      if byte >? (255 - digit) / 10 then None
      else ip_loop s ip_bytes (byte * 10 + digit) true
  end.

Definition ipStringToBytes (ip_string : list Z) : zig_error + ip4 :=
  or_error InvalidIpAddress (ip_loop ip_string [] 0 false).

(** std.mem.print with "{d}.{d}.{d}.{d}" *)
Definition formatIp (ip : ip4) : list Z :=
  fmt_u (ip_a ip) ++ [DOT] ++ fmt_u (ip_b ip) ++ [DOT] ++ fmt_u (ip_c ip) ++ [DOT] ++ fmt_u (ip_d ip).

(** ** CIDR *)

(** The pieces std.mem.splitScalar hands out. *)
Fixpoint split_scalar (c : Z) (s : list Z) : list (list Z) :=
  match s with
  | [] => [[]]
  | x :: s =>
    if x =? c then [] :: split_scalar c s
    else match split_scalar c s with
         | p :: ps => (x :: p) :: ps
         | [] => [[x]]
         end
  end.

(** std.fmt.charToDigit *)
Definition char_to_digit (c base : Z) : option Z :=
  let value :=
    if (48 <=? c) && (c <=? 57) then Some (c - 48)
    else if (65 <=? c) && (c <=? 90) then Some (c - 65 + 10)
    else if (97 <=? c) && (c <=? 122) then Some (c - 97 + 10)
    else None in
  v ← value;
  if v >=? base then None else Some v.

(** std.fmt.parseInt(u8, ...): the digits after the sign; '_' separates. *)
Fixpoint parse_digits (neg : bool) (base : Z) (buf : list Z) (acc : Z) : zig_error + Z :=
  match buf with
  | [] => mret acc
  | c :: buf =>
    if c =? 95 then parse_digits neg base buf acc
    else
      digit ← or_error InvalidCharacter (char_to_digit c base);
      if negb (acc =? 0) then
        acc ← or_error Overflow (zu8 (acc * base));
        acc ← or_error Overflow (zu8 (if neg then acc - digit else acc + digit));
        parse_digits neg base buf acc
      else
        acc ← or_error Overflow (zu8 (if neg then - digit else acc + digit));
        parse_digits neg base buf acc
  end.

Definition parse_signed (neg : bool) (base : Z) (buf : list Z) : zig_error + Z :=
  match buf with
  | [] => inl InvalidCharacter
  | c :: _ =>
    if (c =? 95) || bool_decide (last buf = Some 95) then inl InvalidCharacter
    else parse_digits neg base buf 0
  end.

Definition parseInt_u8 (buf : list Z) (base : Z) : zig_error + Z :=
  match buf with
  | [] => inl InvalidCharacter
  | c :: rest =>
    if c =? 43 then parse_signed false base rest
    else if c =? 45 then parse_signed true base rest
    else parse_signed false base buf
  end.

Definition parseCidr (cidr : list Z) : zig_error + Network :=
  match split_scalar SLASH cidr with
  | [ip_str; prefix_str] =>
    address ← ipStringToBytes ip_str;
    prefix_len ← parseInt_u8 prefix_str 10;
    if prefix_len >? 32 then inl InvalidPrefixLength else mret (Net address prefix_len)
  | _ => inl InvalidCidr
  end.

(** ** Ranges *)

(** The shift drops what leaves the word; its amount is a u5. *)
Definition computeMask (prefix_len : Z) : option Z :=
  if prefix_len =? 0 then Some 0
  else if prefix_len =? 32 then Some 4294967295
  else amount ← fits 32 (32 - prefix_len); Some (u32 (Z.shiftl 4294967295 amount)).

Definition ipToU32 (ip : ip4) : Z :=
  Z.lor (Z.lor (Z.lor (Z.shiftl (ip_a ip) 24) (Z.shiftl (ip_b ip) 16)) (Z.shiftl (ip_c ip) 8)) (ip_d ip).

Definition u32ToIp (value : Z) : ip4 :=
  IP (u8 (Z.land (Z.shiftr value 24) 255)) (u8 (Z.land (Z.shiftr value 16) 255))
    (u8 (Z.land (Z.shiftr value 8) 255)) (u8 (Z.land value 255)).

Definition getIpRange (network : Network) : option IpRange :=
  mask ← computeMask (prefix_len network);
  let start_ip := Z.land (ipToU32 (address network)) mask in
  let end_ip := Z.lor start_ip (u32 (Z.lnot mask)) in
  Some (Range (u32ToIp start_ip) (u32ToIp end_ip)).

(** The bytes from the last back to the first, as the loops walk them. *)
Definition back (ip : ip4) : list Z := [ip_d ip; ip_c ip; ip_b ip; ip_a ip].
Definition of_back (bs : list Z) (ip : ip4) : ip4 :=
  match bs with [d; c; b; a] => IP a b c d | _ => ip end.

(** ip[i] +%= 1; stop unless it wrapped to 0 *)
Fixpoint increment_bytes (bs : list Z) : list Z :=
  match bs with
  | [] => []
  | b :: bs => if u8 (b + 1) =? 0 then u8 (b + 1) :: increment_bytes bs else u8 (b + 1) :: bs
  end.

Definition incrementIP (ip : ip4) : ip4 := of_back (increment_bytes (back ip)) ip.

(** ip[i] -%= 1; stop unless it was 0 *)
Fixpoint decrement_bytes (bs : list Z) : list Z :=
  match bs with
  | [] => []
  | b :: bs => if b =? 0 then u8 (b - 1) :: decrement_bytes bs else u8 (b - 1) :: bs
  end.

Definition decrementIP (ip : ip4) : ip4 := of_back (decrement_bytes (back ip)) ip.

(** while (true) append, stop at last_ip, increment; [None] is out of fuel *)
Fixpoint collect (fuel : nat) (room : nat → bool) (ips : list ip4) (ip last_ip : ip4)
    : option (zig_error + list ip4) :=
  match fuel with
  | O => None
  | S fuel =>
    if negb (room (length ips)) then Some (inl OutOfMemory)
    else if bool_decide (ip = last_ip) then Some (inr (ips ++ [ip]))
    else collect fuel room (ips ++ [ip]) (incrementIP ip) last_ip
  end.

Definition collectIps (fuel : nat) (room : nat → bool) (first_ip last_ip : ip4)
    : option (zig_error + list ip4) :=
  collect fuel room [] first_ip last_ip.

Definition usableHosts (network : Network) (range : IpRange) : IpRange :=
  if prefix_len network >=? 31 then range
  else Range (incrementIP (range_start range)) (decrementIP (range_end range)).

Definition ipInRange (ip first last : ip4) : bool :=
  let value := ipToU32 ip in
  (value >=? ipToU32 first) && (value <=? ipToU32 last).

(** ** Port lists *)

Fixpoint split_loop (room : nat → bool) (delimiter : Z) (string array : list Z) (number : Z)
    (has_digits : bool) : zig_error + list Z :=
  match string with
  | [] =>
    if negb has_digits then inl InvalidPortRange
    else if negb (room (length array)) then inl OutOfMemory
    else if negb (room (S (length array))) then inl OutOfMemory
    else mret (array ++ [number])
  | char :: string =>
    if char =? delimiter then
      if negb has_digits then inl InvalidPortRange
      else if negb (room (length array)) then inl OutOfMemory
      else split_loop room delimiter string (array ++ [number]) 0 false
    else if (char <? 48) || (char >? 57) then inl InvalidPortRange
    else
      let digit := char - 48 in
      if number >? (65535 - digit) / 10 then inl InvalidPortRange
      else
        let number := number * 10 + digit in
        if number =? 0 then inl InvalidPortRange
        else split_loop room delimiter string array number true
  end.

Definition splitStringToIntArray (room : nat → bool) (string : list Z) (delimiter : Z) : zig_error + list Z :=
  split_loop room delimiter string [] 0 false.

(** ** What text denotes *)

(** Pieces with a separator between. *)
Fixpoint join (c : Z) (ts : list (list Z)) : list Z :=
  match ts with
  | [] => []
  | [t] => t
  | t :: ts => t ++ c :: join c ts
  end.

Lemma join_cons c t ts : ts ≠ [] → join c (t :: ts) = t ++ c :: join c ts.
Proof. by destruct ts. Qed.

(** A decimal of one address byte: digits of a value up to 255. *)
Definition octet (t : list Z) : Prop := t ≠ [] ∧ digits t ∧ digits_value t <= 255.

Lemma ip_of_bytes_some bs ip : ip_of_bytes bs = Some ip → ip_bytes ip = bs.
Proof. destruct bs as [|? [|? [|? [|? [|]]]]]; simpl; intros; by simplify_eq. Qed.

Lemma is_digit_test char : (char <? 48) || (char >? 57) = false ↔ is_digit char.
Proof. unfold is_digit. rewrite Z.gtb_ltb, orb_false_iff, !Z.ltb_ge. lia. Qed.

Lemma digit_guard n d bound :
  0 <= d <= 9 → 0 <= n → 9 <= bound → (n >? (bound - d) / 10) = false ↔ n * 10 + d <= bound.
Proof.
  intros Hd Hn Hb. rewrite Z.gtb_ltb, Z.ltb_ge.
  pose proof (Z.div_mod (bound - d) 10). pose proof (Z.mod_pos_bound (bound - d) 10). lia.
Qed.

Lemma ip_loop_sound s : ∀ done cur ip,
  digits cur → digits_value cur <= 255 →
  ip_loop s done (digits_value cur) (bool_decide (cur ≠ [])) = Some ip →
  ∃ ts, ts ≠ [] ∧ cur ++ s = join DOT ts ∧ Forall octet ts ∧ ip_bytes ip = done ++ map digits_value ts.
Proof.
  induction s as [|char s IH]; intros done cur ip Hcur Hv Hr; cbn [ip_loop] in Hr.
  - destruct (_ || _) eqn:Hg; [done|]. apply orb_false_iff in Hg as [_ Hhas].
    apply negb_false_iff, bool_decide_eq_true in Hhas. apply ip_of_bytes_some in Hr.
    exists [cur]. rewrite app_nil_r. split; [done|]. split; [done|]. split; [|done]. by repeat constructor.
  - destruct (char =? DOT) eqn:Hdot; to_prop.
    + subst. destruct (_ || _) eqn:Hg; [done|]. apply orb_false_iff in Hg as [_ Hhas].
      apply negb_false_iff, bool_decide_eq_true in Hhas.
      destruct (IH (done ++ [digits_value cur]) [] ip) as (ts & Hts & Hj & Hoct & Hip);
        [constructor|done|exact Hr|].
      exists (cur :: ts). rewrite join_cons by done. rewrite <- Hj, Hip. split; [done|]. split; [done|].
      split; [by constructor|]. by rewrite <- app_assoc.
    + destruct ((char <? 48) || _) eqn:Hd; [done|]. apply is_digit_test in Hd.
      destruct (_ >? _) eqn:Hg; [done|]. unfold is_digit in Hd.
      apply digit_guard in Hg; [|lia|by apply digits_value_pos|lia].
      destruct (IH done (cur ++ [char]) ip) as (ts & Hts & Hj & Hrest);
        [by apply Forall_app; split; [|apply Forall_singleton]|rewrite digits_value_snoc; lia| |].
      { rewrite digits_value_snoc, bool_decide_true; [done|]. by destruct cur. }
      exists ts. split; [done|]. split; [|done]. by rewrite <- Hj, <- app_assoc.
Qed.

(** The digits of one byte are read as the number they denote. *)
Lemma ip_loop_digits t : ∀ s done cur,
  digits cur → digits t → digits_value (cur ++ t) <= 255 →
  ip_loop (t ++ s) done (digits_value cur) (bool_decide (cur ≠ [])) =
  ip_loop s done (digits_value (cur ++ t)) (bool_decide (cur ++ t ≠ [])).
Proof.
  induction t as [|char t IH]; intros s done cur Hcur Ht Hv; [by rewrite app_nil_r|].
  pose proof Ht as [Hd Ht']%Forall_cons. unfold is_digit in Hd.
  replace (cur ++ char :: t) with ((cur ++ [char]) ++ t) in * by by rewrite <- app_assoc.
  assert (digits (cur ++ [char])) as Hcur' by (apply Forall_app; split; [done|by apply Forall_singleton]).
  assert (digits_value (cur ++ [char]) <= 255) as Hle.
  { etrans; [by apply (digits_value_app _ t)|done]. }
  rewrite <- (IH s done (cur ++ [char])) by done. cbn [app ip_loop].
  rewrite (proj2 (Z.eqb_neq char DOT)) by (unfold DOT; lia).
  rewrite (proj2 (is_digit_test char)) by done. rewrite digits_value_snoc in *.
  rewrite (proj2 (digit_guard (digits_value cur) (char - 48) 255 ltac:(lia) (digits_value_pos _ Hcur) ltac:(lia)) Hle).
  rewrite bool_decide_true; [done|]. by destruct cur.
Qed.

Lemma ip_loop_octet t s done : octet t → ip_loop (t ++ s) done 0 false = ip_loop s done (digits_value t) true.
Proof.
  intros (Hne & Ht & Hv). pose proof (ip_loop_digits t s done [] ltac:(constructor) Ht Hv) as Hl.
  simpl in Hl. by rewrite bool_decide_true in Hl.
Qed.

Lemma ip_loop_complete a b c d :
  Forall octet [a; b; c; d] →
  ip_loop (join DOT [a; b; c; d]) [] 0 false =
    Some (IP (digits_value a) (digits_value b) (digits_value c) (digits_value d)).
Proof.
  rewrite !Forall_cons. intros (Ha & Hb & Hc & Hd & _). cbn [join].
  rewrite ip_loop_octet by done. cbn [ip_loop]. simpl (_ || _).
  rewrite ip_loop_octet by done. cbn [ip_loop]. simpl (_ || _).
  rewrite ip_loop_octet by done. cbn [ip_loop]. simpl (_ || _).
  rewrite <- (app_nil_r d) at 1. by rewrite ip_loop_octet by done.
Qed.

Lemma octet_fmt_u v : is_u8 v → octet (fmt_u v) ∧ digits_value (fmt_u v) = v.
Proof.
  unfold is_u8. intros Hv. rewrite fmt_u_value by lia. split; [|done].
  split; [apply fmt_u_nonempty|]. split; [apply fmt_u_digits; lia|]. rewrite fmt_u_value by lia. lia.
Qed.

Lemma ipStringToBytes_formatIp ip : ip_ok ip → ipStringToBytes (formatIp ip) = inr ip.
Proof.
  intros (Ha & Hb & Hc & Hd)%ip_ok_bytes. unfold ipStringToBytes.
  apply octet_fmt_u in Ha as [Ha Hva], Hb as [Hb Hvb], Hc as [Hc Hvc], Hd as [Hd Hvd].
  change (formatIp ip) with (join DOT [fmt_u (ip_a ip); fmt_u (ip_b ip); fmt_u (ip_c ip); fmt_u (ip_d ip)]).
  rewrite ip_loop_complete by (rewrite !Forall_cons; done).
  rewrite Hva, Hvb, Hvc, Hvd. by destruct ip.
Qed.

(** ** CIDR text *)

Lemma split_scalar_none c s : c ∉ s → split_scalar c s = [s].
Proof.
  induction s as [|x s IH]; intros Hc; [done|]. apply not_elem_of_cons in Hc as [Hne Hc]. simpl.
  rewrite (proj2 (Z.eqb_neq x c)) by done. by rewrite IH.
Qed.

Lemma split_scalar_sep c s u : c ∉ s → split_scalar c (s ++ c :: u) = s :: split_scalar c u.
Proof.
  induction s as [|x s IH]; intros Hc; simpl; [by rewrite Z.eqb_refl|].
  apply not_elem_of_cons in Hc as [Hne Hc]. rewrite (proj2 (Z.eqb_neq x c)) by done. by rewrite IH.
Qed.

Lemma digits_not_elem c s : ¬ is_digit c → digits s → c ∉ s.
Proof. intros Hc Hs Hin. eapply Forall_forall in Hs; [|exact Hin]. done. Qed.

Lemma slash_formatIp ip : ip_ok ip → SLASH ∉ formatIp ip.
Proof.
  intros (Ha & Hb & Hc & Hd)%ip_ok_bytes. unfold formatIp, is_u8 in *.
  rewrite !not_elem_of_app, !not_elem_of_cons.
  repeat split; try apply not_elem_of_nil; try done;
    (apply digits_not_elem; [unfold is_digit, SLASH; lia|apply fmt_u_digits; lia]).
Qed.

(** parseInt on plain decimal digits. *)
Lemma parse_digits_value s : ∀ acc,
  digits s → 0 <= acc → foldl (λ acc d, acc * 10 + (d - 48)) acc s <= 255 →
  parse_digits false 10 s acc = inr (foldl (λ acc d, acc * 10 + (d - 48)) acc s).
Proof.
  induction s as [|c s IH]; intros acc Hs Hacc Hv; [done|].
  apply Forall_cons in Hs as [Hc Hs]. unfold is_digit in Hc. cbn [parse_digits foldl] in *.
  assert (acc * 10 + (c - 48) <= 255) as Hle.
  { etrans; [|exact Hv]. rewrite digits_value_acc. pose proof (digits_value_pos s Hs).
    pose proof (Z.pow_pos_nonneg 10 (Z.of_nat (length s))). nia. }
  rewrite (proj2 (Z.eqb_neq c 95)) by lia. unfold char_to_digit.
  rewrite (proj2 (Z.leb_le 48 c)), (proj2 (Z.leb_le c 57)) by lia. cbn [andb mbind option_bind].
  rewrite Z.geb_leb, (proj2 (Z.leb_gt 10 (c - 48))) by lia. cbn [or_error mbind zig_bind].
  unfold zu8. destruct (acc =? 0) eqn:H0; to_prop; cbn [negb].
  - subst. rewrite fits_some by lia. cbn [or_error mbind zig_bind].
    replace (0 * 10 + (c - 48)) with (0 + (c - 48)) in * by lia. apply IH; [done|lia|done].
  - rewrite (fits_some _ (acc * 10)) by lia. cbn [or_error mbind zig_bind].
    rewrite fits_some by lia. cbn [or_error mbind zig_bind]. apply IH; [done|lia|done].
Qed.

Lemma parseInt_fmt_u v : is_u8 v → parseInt_u8 (fmt_u v) 10 = inr v.
Proof.
  intros Hv. destruct (octet_fmt_u v Hv) as [(Hne & Hd & Hle) Hval]. unfold parseInt_u8.
  destruct (fmt_u v) as [|c t] eqn:Ht; [done|]. pose proof Hd as [Hc _]%Forall_cons. unfold is_digit in Hc.
  rewrite (proj2 (Z.eqb_neq c 43)), (proj2 (Z.eqb_neq c 45)) by lia. unfold parse_signed.
  rewrite (proj2 (Z.eqb_neq c 95)) by lia. rewrite bool_decide_false; cbn [orb].
  - unfold digits_value in *. rewrite parse_digits_value; [by rewrite Hval|done|lia|done].
  - rewrite last_lookup. intros Hl%list_elem_of_lookup_2.
    eapply Forall_forall in Hd; [|exact Hl]. unfold is_digit in Hd. lia.
Qed.

Lemma parseCidr_print ip p :
  ip_ok ip → 0 <= p <= 32 → parseCidr (formatIp ip ++ SLASH :: fmt_u p) = inr (Net ip p).
Proof.
  intros Hip Hp. unfold parseCidr. rewrite split_scalar_sep by by apply slash_formatIp.
  rewrite split_scalar_none.
  2:{ apply digits_not_elem; [unfold is_digit, SLASH; lia|apply fmt_u_digits; lia]. }
  rewrite ipStringToBytes_formatIp by done. cbn [mbind zig_bind].
  rewrite parseInt_fmt_u by (unfold is_u8; lia). cbn [mbind zig_bind].
  by rewrite Z.gtb_ltb, (proj2 (Z.ltb_ge 32 p)) by lia.
Qed.

(** ** Address arithmetic *)

Lemma ipToU32_value ip : ip_ok ip → ipToU32 ip = ip_value ip.
Proof. apply to_host_order_value. Qed.

Lemma u32ToIp_host v : u32ToIp v = from_host_order v.
Proof.
  assert (∀ x, u8 (Z.land x 255) = u8 x) as Hx.
  { intros x. change 255 with (Z.ones 8). rewrite Z.land_ones by lia. unfold u8. change (2 ^ 8) with 256.
    by rewrite Z.mod_mod by lia. }
  unfold u32ToIp. by rewrite !Hx.
Qed.

Lemma ip_value_host v : is_u32 v → ip_value (from_host_order v) = v.
Proof.
  intros Hv. rewrite <- to_host_order_value by apply from_host_order_ok. by apply to_from_host_order.
Qed.

Lemma computeMask_prefix p : 0 <= p <= 32 → computeMask p = Some (prefix_mask p).
Proof.
  intros Hp. unfold computeMask. repeat case_test; subst; [done..|].
  rewrite fits_some by lia. done.
Qed.

(** The first address of a subnet, as a number, and how many it has. *)
Definition net_of (ip : ip4) (p : Z) : Z := ip_value ip / 2 ^ (32 - p) * 2 ^ (32 - p).

Lemma net_of_range ip p :
  ip_ok ip → 0 <= p <= 32 → 0 <= net_of ip p ∧ net_of ip p + 2 ^ (32 - p) <= 4294967296.
Proof.
  intros Hip Hp. pose proof (ip_value_range _ Hip) as Hv. unfold is_u32, net_of in *.
  pose proof (Z.pow_pos_nonneg 2 (32 - p)) as Hpos.
  assert (2 ^ (32 - p) * 2 ^ p = 4294967296) as Hsplit.
  { rewrite <- Z.pow_add_r by lia. replace (32 - p + p) with 32 by lia. done. }
  pose proof (Z.pow_pos_nonneg 2 p). set (k := 2 ^ (32 - p)) in *. set (m := 2 ^ p) in *.
  assert (ip_value ip / k < m) by (apply Z.div_lt_upper_bound; lia).
  pose proof (Z.div_pos (ip_value ip) k). nia.
Qed.

Lemma getIpRange_value net :
  ip_ok (address net) → 0 <= prefix_len net <= 32 →
  let first := net_of (address net) (prefix_len net) in
  let size := 2 ^ (32 - prefix_len net) in
  getIpRange net = Some (Range (from_host_order first) (from_host_order (first + size - 1))).
Proof.
  intros Hip Hp first size. unfold getIpRange. rewrite computeMask_prefix by done. cbn [mbind option_bind].
  rewrite ipToU32_value, !u32ToIp_host by done. pose proof (ip_value_range _ Hip) as Hv.
  rewrite subnet_net, subnet_host_bits by done. pose proof (Z.pow_pos_nonneg 2 (32 - prefix_len net)).
  rewrite lor_shiftl_add by (rewrite ?Z.ones_equiv; lia). rewrite Z.shiftl_mul_pow2, Z.ones_equiv by lia.
  do 3 f_equal. fold size. unfold first, net_of. fold size. lia.
Qed.

Lemma of_back_ok bs ip : ip_ok ip → bytes bs → ip_ok (of_back bs ip).
Proof.
  intros Hip Hbs. destruct bs as [|d [|c [|b [|a [|]]]]]; simpl; try done.
  unfold bytes in Hbs. rewrite !Forall_cons in Hbs. unfold ip_ok, ip_bytes, bytes. simpl.
  rewrite !Forall_cons. tauto.
Qed.

Lemma back_ok ip : ip_ok ip → bytes (back ip).
Proof. intros (?&?&?&?)%ip_ok_bytes. do 4 (apply Forall_cons; split; [done|]). constructor. Qed.

Lemma increment_bytes_ok bs : bytes bs → bytes (increment_bytes bs).
Proof.
  induction 1 as [|b bs Hb Hbs IH]; [constructor|]. simpl. case_match; constructor; auto using u8_range.
Qed.

Lemma decrement_bytes_ok bs : bytes bs → bytes (decrement_bytes bs).
Proof.
  induction 1 as [|b bs Hb Hbs IH]; [constructor|]. simpl. case_match; constructor; auto using u8_range.
Qed.

(** The bytes from the last are a little-endian number. *)
Lemma le_value_back ip : le_value (back ip) = ip_value ip.
Proof. unfold back, ip_value. cbn [le_value]. lia. Qed.

Lemma le_value_of_back bs ip : length bs = 4%nat → ip_value (of_back bs ip) = le_value bs.
Proof. destruct bs as [|d [|c [|b [|a [|]]]]]; try done. intros _. unfold ip_value. simpl. lia. Qed.

Lemma length_increment_bytes bs : length (increment_bytes bs) = length bs.
Proof. induction bs as [|b bs IH]; [done|]. simpl. case_match; simpl; congruence. Qed.

Lemma length_decrement_bytes bs : length (decrement_bytes bs) = length bs.
Proof. induction bs as [|b bs IH]; [done|]. simpl. case_match; simpl; congruence. Qed.

Lemma increment_bytes_value bs :
  bytes bs → le_value (increment_bytes bs) = (le_value bs + 1) mod 256 ^ Z.of_nat (length bs).
Proof.
  induction 1 as [|b bs Hb Hbs IH]; [done|]. cbn [increment_bytes le_value length].
  rewrite Nat2Z.inj_succ, Z.pow_succ_r by lia. pose proof (le_value_range _ Hbs) as Hr.
  set (m := 256 ^ Z.of_nat (length bs)) in *. unfold is_u8, u8 in *. destruct (_ =? 0) eqn:H0; to_prop.
  - assert (b = 255) as -> by (destruct (decide (b = 255)); [done|rewrite Z.mod_small in H0; lia]).
    cbn [le_value]. rewrite IH. replace (255 + 256 * le_value bs + 1) with ((le_value bs + 1) * 256) by lia.
    rewrite (Z.mul_comm 256 m), Z.mul_mod_distr_r by lia. change ((255 + 1) mod 256) with 0. lia.
  - assert (b ≠ 255) by (intros ->; done). cbn [le_value].
    rewrite Z.mod_small by lia. rewrite Z.mod_small by lia. lia.
Qed.

Lemma decrement_bytes_value bs :
  bytes bs → le_value (decrement_bytes bs) = (le_value bs - 1) mod 256 ^ Z.of_nat (length bs).
Proof.
  induction 1 as [|b bs Hb Hbs IH]; [done|]. cbn [decrement_bytes le_value length].
  rewrite Nat2Z.inj_succ, Z.pow_succ_r by lia. pose proof (le_value_range _ Hbs) as Hr.
  set (m := 256 ^ Z.of_nat (length bs)) in *. unfold is_u8, u8 in *. destruct (_ =? 0) eqn:H0; to_prop.
  - subst b. cbn [le_value]. rewrite IH. change ((0 - 1) mod 256) with 255.
    pose proof (Z.mod_pos_bound (le_value bs - 1) m ltac:(lia)).
    pose proof (Z.div_mod (le_value bs - 1) m ltac:(lia)).
    apply Z.mod_unique with (q := (le_value bs - 1) / m); [left; lia|lia].
  - cbn [le_value]. rewrite Z.mod_small by lia. rewrite Z.mod_small by lia. lia.
Qed.

Lemma incrementIP_value ip :
  ip_ok ip → ip_ok (incrementIP ip) ∧ ip_value (incrementIP ip) = u32 (ip_value ip + 1).
Proof.
  intros Hip. pose proof (back_ok _ Hip) as Hb. unfold incrementIP.
  split; [apply of_back_ok; auto using increment_bytes_ok|].
  rewrite le_value_of_back by (by rewrite length_increment_bytes).
  by rewrite increment_bytes_value, le_value_back by done.
Qed.

Lemma decrementIP_value ip :
  ip_ok ip → ip_ok (decrementIP ip) ∧ ip_value (decrementIP ip) = u32 (ip_value ip - 1).
Proof.
  intros Hip. pose proof (back_ok _ Hip) as Hb. unfold decrementIP.
  split; [apply of_back_ok; auto using decrement_bytes_ok|].
  rewrite le_value_of_back by (by rewrite length_decrement_bytes).
  by rewrite decrement_bytes_value, le_value_back by done.
Qed.

(** ** Collecting a range *)

(** The numbers from [first] on, around the end of the address space. *)
Definition addresses (first : Z) (n : nat) : list Z := map (λ i, u32 (first + Z.of_nat i)) (seq 0 n).

Lemma addresses_S first n : is_u32 first → addresses first (S n) = first :: addresses (u32 (first + 1)) n.
Proof.
  intros Hf. unfold addresses. cbn [seq map]. rewrite Z.add_0_r, u32_id by done. f_equal.
  rewrite <- seq_shift, map_map. apply map_ext. intros i. unfold u32.
  rewrite Zplus_mod_idemp_l. f_equal. lia.
Qed.

Lemma addresses_small first n :
  0 <= first → first + Z.of_nat n <= 4294967296 → addresses first n = seqZ first (Z.of_nat n).
Proof.
  intros Hf Hn. unfold addresses, seqZ. rewrite Nat2Z.id. apply map_ext_in. intros i Hi%in_seq.
  rewrite u32_id by (unfold is_u32; lia). lia.
Qed.

(** How many addresses lie between two, both ends included. *)
Definition distance (first last : ip4) : Z := u32 (ip_value last - ip_value first).

(** The first of [n] attempts that fails, if one does. *)
Lemma first_failure (room : nat → bool) n :
  (∀ k, (k < n)%nat → room k = true) ∨
  ∃ k, (k < n)%nat ∧ (∀ j, (j < k)%nat → room j = true) ∧ room k = false.
Proof.
  induction n as [|n [Hall|(k & Hk & Hrest)]]; [by left; lia| |right; exists k; split; [lia|done]].
  destruct (room n) eqn:Hn; [left|right; exists n; split; [lia|done]].
  intros k Hk. destruct (decide (k = n)) as [->|]; [done|]. apply Hall. lia.
Qed.

Lemma collect_run room last : ∀ n fuel ips ip,
  ip_ok ip → ip_ok last → distance ip last = Z.of_nat n → (n < fuel)%nat →
  (∀ k, (k ≤ n)%nat → room (length ips + k)%nat = true) →
  ∃ l, collect fuel room ips ip last = Some (inr (ips ++ l)) ∧ Forall ip_ok l ∧
    map ip_value l = addresses (ip_value ip) (S n).
Proof.
  induction n as [|n IH]; intros [|fuel] ips ip Hip Hlast Hd Hfuel Hroom; try lia;
    cbn [collect]; pose proof (Hroom 0%nat ltac:(lia)) as Hr0; rewrite Nat.add_0_r in Hr0;
    rewrite Hr0; cbn [negb];
    pose proof (ip_value_range _ Hip) as Hv; pose proof (ip_value_range _ Hlast) as Hvl;
    unfold distance, u32, is_u32 in *; rewrite addresses_S by done.
  - assert (ip = last) as ->.
    { apply ip_value_inj; [done..|]. apply Z.mod_divide in Hd as [k Hk]; [|lia].
      assert (k = 0) by lia. lia. }
    rewrite bool_decide_true by done. exists [last]. split; [done|]. split; [by apply Forall_singleton|done].
  - rewrite bool_decide_false by (intros ->; rewrite Z.sub_diag, Zmod_0_l in Hd; lia).
    destruct (incrementIP_value _ Hip) as [Hip' Hval].
    destruct (IH fuel (ips ++ [ip]) (incrementIP ip)) as (l & Hl & Hok & Hmap); [done|done| |lia| |].
    + rewrite Hval. unfold u32. rewrite Zminus_mod_idemp_r.
      replace (ip_value last - (ip_value ip + 1)) with (ip_value last - ip_value ip - 1) by lia.
      rewrite <- Zminus_mod_idemp_l, Hd. rewrite Z.mod_small; [lia|].
      pose proof (Z.mod_pos_bound (ip_value last - ip_value ip) 4294967296). lia.
    + intros k Hk. rewrite length_app. replace (length ips + length [ip] + k)%nat
        with (length ips + S k)%nat by (simpl; lia). apply Hroom. lia.
    + exists (ip :: l). rewrite Hl, <- app_assoc. split; [done|]. split; [by constructor|].
      cbn [map]. by rewrite Hmap, Hval.
Qed.

Lemma collect_fails room last : ∀ n fuel ips ip,
  ip_ok ip → ip_ok last → Z.of_nat n <= distance ip last → (n < fuel)%nat →
  (∀ k, (k < n)%nat → room (length ips + k)%nat = true) → room (length ips + n)%nat = false →
  collect fuel room ips ip last = Some (inl OutOfMemory).
Proof.
  induction n as [|n IH]; intros [|fuel] ips ip Hip Hlast Hd Hfuel Hroom Hfull; try lia; cbn [collect].
  { rewrite Nat.add_0_r in Hfull. by rewrite Hfull. }
  pose proof (Hroom 0%nat ltac:(lia)) as H0. rewrite Nat.add_0_r in H0. rewrite H0. cbn [negb].
  unfold distance, u32 in *.
  rewrite bool_decide_false by (intros ->; rewrite Z.sub_diag, Zmod_0_l in Hd; lia).
  destruct (incrementIP_value _ Hip) as [Hip' Hval]. apply IH; [done|done| |lia| |].
  - rewrite Hval. unfold u32. rewrite Zminus_mod_idemp_r.
    replace (ip_value last - (ip_value ip + 1)) with (ip_value last - ip_value ip - 1) by lia.
    rewrite <- Zminus_mod_idemp_l.
    pose proof (Z.mod_pos_bound (ip_value last - ip_value ip) 4294967296).
    rewrite (Z.mod_small (_ - 1)) by lia. lia.
  - intros k Hk. rewrite length_app. replace (length ips + length [ip] + k)%nat with (length ips + S k)%nat
      by (simpl; lia). apply Hroom. lia.
  - rewrite length_app. replace (length ips + length [ip] + n)%nat with (length ips + S n)%nat by (simpl; lia).
    done.
Qed.

(** ** Theorems *)

(** an address is read exactly when the text is four decimals of at
    most 255 (leading zeros allowed) with a dot between, and what is read is
    those four values: nothing else is accepted, and nothing valid refused. *)
Theorem ipStringToBytes_exact s ip :
  ipStringToBytes s = inr ip ↔
  ∃ a b c d, Forall octet [a; b; c; d] ∧ s = join DOT [a; b; c; d] ∧
    ip = IP (digits_value a) (digits_value b) (digits_value c) (digits_value d).
Proof.
  unfold ipStringToBytes. split.
  - destruct (ip_loop s [] 0 false) as [ip'|] eqn:Hl; [|done]. intros [= ->].
    destruct (ip_loop_sound s [] [] ip) as (ts & _ & Hs & Hts & Hip); [constructor|done|done|].
    destruct ts as [|a [|b [|c [|d [|]]]]]; try done.
    exists a, b, c, d. split; [done|]. split; [done|]. destruct ip. by injection Hip as -> -> -> ->.
  - intros (a & b & c & d & Hts & -> & ->). by rewrite ip_loop_complete.
Qed.

(** The range that is scanned: [first] up to [last], in order. *)
Definition host_range (ip : ip4) (p : Z) : list Z :=
  let first := net_of ip p in
  let size := 2 ^ (32 - p) in
  if p <=? 30 then seqZ (first + 1) (size - 2) else seqZ first size.

Lemma collectIps_range fuel room a b :
  is_u32 a → is_u32 b → a <= b → (Z.to_nat (b - a) < fuel)%nat → (∀ k, room k = true) →
  ∃ l, collectIps fuel room (from_host_order a) (from_host_order b) = Some (inr l) ∧
    Forall ip_ok l ∧ map ip_value l = seqZ a (b - a + 1).
Proof.
  intros Ha Hb Hle Hf Hroom. pose proof (from_host_order_ok a). pose proof (from_host_order_ok b).
  destruct (collect_run room (from_host_order b) (Z.to_nat (b - a)) fuel [] (from_host_order a))
    as (l & Hl & Hok & Hmap); [done|done| |done|by intros|].
  { unfold distance. rewrite !ip_value_host by done. unfold is_u32 in *. rewrite u32_id; [lia|unfold is_u32; lia]. }
  exists l. split; [done|]. split; [done|]. rewrite Hmap, ip_value_host by done. unfold is_u32 in *.
  rewrite addresses_small by lia. f_equal. lia.
Qed.

Lemma incrementIP_host v : is_u32 v → incrementIP (from_host_order v) = from_host_order (u32 (v + 1)).
Proof.
  intros Hv. destruct (incrementIP_value (from_host_order v) (from_host_order_ok v)) as [Hok Hval].
  apply ip_value_inj; [done|apply from_host_order_ok|]. rewrite Hval, !ip_value_host; [done|apply u32_range|done].
Qed.

Lemma decrementIP_host v : is_u32 v → decrementIP (from_host_order v) = from_host_order (u32 (v - 1)).
Proof.
  intros Hv. destruct (decrementIP_value (from_host_order v) (from_host_order_ok v)) as [Hok Hval].
  apply ip_value_inj; [done|apply from_host_order_ok|]. rewrite Hval, !ip_value_host; [done|apply u32_range|done].
Qed.

(** The command "-s <cidr>": from the text to the list of hosts. *)
Definition cidr_ips (fuel : nat) (room : nat → bool) (cidr : list Z) : option (zig_error + list ip4) :=
  match parseCidr cidr with
  | inl e => Some (inl e)
  | inr network =>
    range ← getIpRange network;
    let hosts := usableHosts network range in
    collectIps fuel room (range_start hosts) (range_end hosts)
  end.

Lemma parse_digits_u8 neg base s : ∀ acc v,
  is_u8 acc → parse_digits neg base s acc = inr v → is_u8 v.
Proof.
  induction s as [|c s IH]; intros acc v Hacc; cbn [parse_digits]; [by intros [= <-]|].
  case_match; [by apply IH|]. destruct (char_to_digit c base) as [d|]; [|done]. cbn [or_error mbind zig_bind].
  unfold zu8. assert (∀ z x, fits 256 z = Some x → is_u8 x) as Hfits.
  { intros z x Hx. apply fits_inv in Hx. unfold is_u8. lia. }
  destruct (negb _).
  - destruct (fits 256 (acc * base)) as [a|]; [|done]. cbn [or_error mbind zig_bind].
    destruct (fits 256 (if neg then _ else _)) as [a'|] eqn:Ha; [|done]. cbn [or_error mbind zig_bind]. eauto.
  - destruct (fits 256 (if neg then _ else _)) as [a'|] eqn:Ha; [|done]. cbn [or_error mbind zig_bind]. eauto.
Qed.

Lemma parseInt_u8_range s v : parseInt_u8 s 10 = inr v → is_u8 v.
Proof.
  assert (∀ neg u, parse_signed neg 10 u = inr v → is_u8 v) as Hs.
  { intros neg [|c u]; [done|]. cbn [parse_signed]. case_match; [done|]. apply parse_digits_u8. done. }
  destruct s as [|c s]; [done|]. cbn [parseInt_u8]. repeat case_match; apply Hs.
Qed.

Lemma octet_value t : octet t → is_u8 (digits_value t).
Proof. intros (_ & Hd & Hv). pose proof (digits_value_pos t Hd). unfold is_u8. lia. Qed.

Lemma ipStringToBytes_ok s ip : ipStringToBytes s = inr ip → ip_ok ip.
Proof.
  unfold ipStringToBytes. destruct (ip_loop s [] 0 false) as [ip'|] eqn:Hl; [|done]. intros [= ->].
  destruct (ip_loop_sound s [] [] ip) as (ts & _ & _ & Hts & Hip); [constructor|done|done|].
  unfold ip_ok, bytes. rewrite Hip. simpl. apply Forall_map. eapply Forall_impl; [exact Hts|].
  apply octet_value.
Qed.

Lemma parseCidr_ok s net : parseCidr s = inr net → ip_ok (address net) ∧ 0 <= prefix_len net <= 32.
Proof.
  unfold parseCidr. destruct (split_scalar SLASH s) as [|t [|u [|]]]; try done.
  destruct (ipStringToBytes t) as [|ip] eqn:Hip; [done|]. cbn [mbind zig_bind].
  destruct (parseInt_u8 u 10) as [|p] eqn:Hp; [done|]. cbn [mbind zig_bind].
  destruct (p >? 32) eqn:Hle; [done|]. intros [= <-]. apply parseInt_u8_range in Hp.
  rewrite Z.gtb_ltb, Z.ltb_ge in Hle. unfold is_u8 in Hp. split; [by eapply ipStringToBytes_ok|]. simpl. lia.
Qed.

Lemma usableHosts_value net a b :
  is_u32 a → is_u32 b → a + 1 < b ∨ 31 <= prefix_len net →
  usableHosts net (Range (from_host_order a) (from_host_order b)) =
    if prefix_len net <=? 30 then Range (from_host_order (a + 1)) (from_host_order (b - 1))
    else Range (from_host_order a) (from_host_order b).
Proof.
  intros Ha Hb Hab. unfold usableHosts, is_u32 in *. rewrite Z.geb_leb.
  destruct (prefix_len net <=? 30) eqn:H30; to_prop.
  - rewrite (proj2 (Z.leb_gt 31 _)) by lia. simpl.
    rewrite incrementIP_host, decrementIP_host, !u32_id by (unfold is_u32; lia). done.
  - by rewrite (proj2 (Z.leb_le 31 _)) by lia.
Qed.

(** A list that was collected is the one more fuel and memory collect. *)
Lemma collect_more room last fuel : ∀ fuel' ips ip l, (fuel ≤ fuel')%nat →
  collect fuel room ips ip last = Some (inr l) → collect fuel' (λ _, true) ips ip last = Some (inr l).
Proof.
  induction fuel as [|fuel IH]; intros [|fuel'] ips ip l Hle Hc; try (done || lia). cbn [collect] in *.
  destruct (room (length ips)); [|done]. cbn [negb] in *. case_bool_decide; [done|]. eapply IH; [lia|exact Hc].
Qed.

Lemma collected_range fuel room a b l :
  is_u32 a → is_u32 b → a <= b → collectIps fuel room (from_host_order a) (from_host_order b) = Some (inr l) →
  Forall ip_ok l ∧ map ip_value l = seqZ a (b - a + 1).
Proof.
  intros Ha Hb Hle Hc. pose proof (collect_more room (from_host_order b) fuel (fuel + S (Z.to_nat (b - a))) [] (from_host_order a) l ltac:(lia) Hc) as Hmore.
  destruct (collectIps_range (fuel + S (Z.to_nat (b - a))) (λ _, true) a b Ha Hb Hle ltac:(lia) ltac:(done)) as (l' & Hl & Hok & Hv).
  unfold collectIps in Hl. rewrite Hmore in Hl. by simplify_eq.
Qed.

(** The hosts of a network, from the first to the last. *)
Lemma cidr_range cidr net :
  parseCidr cidr = inr net →
  ∃ range lo hi, getIpRange net = Some range ∧ usableHosts net range = Range (from_host_order lo) (from_host_order hi) ∧
    is_u32 lo ∧ is_u32 hi ∧ lo <= hi < lo + 2 ^ (32 - prefix_len net) ∧
    host_range (address net) (prefix_len net) = seqZ lo (hi - lo + 1).
Proof.
  intros [Hip Hp]%parseCidr_ok. rewrite getIpRange_value by done. destruct (net_of_range _ _ Hip Hp) as [Hlo Hhi]. unfold host_range.
  set (p := prefix_len net) in *. set (first := net_of (address net) p) in *.
  assert (0 < 2 ^ (32 - p)) by (apply Z.pow_pos_nonneg; lia).
  assert (p <= 30 → 4 <= 2 ^ (32 - p)) as Hsize.
  { intros H30. change 4 with (2 ^ 2). apply Z.pow_le_mono_r; lia. }
  pose proof (usableHosts_value net first (first + 2 ^ (32 - p) - 1)) as Huse. fold p in Huse.
  destruct (p <=? 30) eqn:H30; to_prop.
  - eexists _, (first + 1), (first + 2 ^ (32 - p) - 1 - 1). split; [done|]. split; [apply Huse; unfold is_u32; lia|].
    unfold is_u32. split; [lia|]. split; [lia|]. split; [lia|]. f_equal. lia.
  - eexists _, first, (first + 2 ^ (32 - p) - 1). split; [done|]. split; [apply Huse; unfold is_u32; lia|].
    unfold is_u32. split; [lia|]. split; [lia|]. split; [lia|]. f_equal. lia.
Qed.

(** whatever text is accepted as a range names a network of 0 to 32 bits,
    and what is then scanned is every address of that network in order, the
    network and broadcast addresses left out when the prefix is 30 or less:
    from the command line to the target list no host is missed, repeated or
    added, at either end of the address space. *)
Theorem cidr_hosts fuel room cidr net :
  parseCidr cidr = inr net →
  2 ^ (32 - prefix_len net) <= Z.of_nat fuel → (∀ k, room k = true) →
  ∃ l, cidr_ips fuel room cidr = Some (inr l) ∧ Forall ip_ok l ∧
    map ip_value l = host_range (address net) (prefix_len net).
Proof.
  intros Hparse Hfuel Hroom. unfold cidr_ips. rewrite Hparse. destruct (cidr_range _ _ Hparse) as (range & lo & hi & -> & Huse & Hlo & Hhi & Hle & ->).
  cbn [mbind option_bind]. rewrite Huse. apply collectIps_range; [done|done|lia|lia|done].
Qed.

(** "192.168.0.77/30" *)
Definition sample_cidr : list Z := [49;57;50;46;49;54;56;46;48;46;55;55;47;51;48].

Lemma cidr_hosts_witness :
  parseCidr sample_cidr = inr (Net (IP 192 168 0 77) 30) ∧
  cidr_ips 4 (λ _, true) sample_cidr = Some (inr [IP 192 168 0 77; IP 192 168 0 78]) ∧
  ∃ l, cidr_ips 4 (λ _, true) sample_cidr = Some (inr l) ∧ Forall ip_ok l ∧
    map ip_value l = host_range (IP 192 168 0 77) 30.
Proof.
  split; [by vm_compute|]. split; [by vm_compute|].
  apply (cidr_hosts 4 (λ _, true) sample_cidr (Net (IP 192 168 0 77) 30)); [by vm_compute|by vm_compute|done].
Defined.

(** a network written the usual way is read back as itself, whatever the
    address and the prefix length. *)
Theorem parseCidr_roundtrip ip p :
  ip_ok ip → 0 <= p <= 32 → parseCidr (formatIp ip ++ SLASH :: fmt_u p) = inr (Net ip p).
Proof. apply parseCidr_print. Qed.

Lemma parseCidr_roundtrip_witness :
  parseCidr (formatIp (IP 192 168 0 77) ++ SLASH :: fmt_u 30) = inr (Net (IP 192 168 0 77) 30).
Proof.
  apply (parseCidr_roundtrip (IP 192 168 0 77) 30); [|lia]. unfold ip_ok, bytes, ip_bytes. simpl.
  do 4 (apply Forall_cons; split; [by unfold is_u8|]). constructor.
Defined.

(** collectIps always ends: it gives the addresses from the first up to
    the last, both included, going around 255.255.255.255 when the last is
    below the first; and it gives OutOfMemory exactly when one of the appends
    on the way cannot be had. *)
Theorem collectIps_exact fuel room first last :
  ip_ok first → ip_ok last → distance first last < Z.of_nat fuel →
  (∀ k, Z.of_nat k <= distance first last → room k = true) ∧
    (∃ l, collectIps fuel room first last = Some (inr l) ∧ Forall ip_ok l ∧
      map ip_value l = addresses (ip_value first) (S (Z.to_nat (distance first last)))) ∨
  (∃ k, Z.of_nat k <= distance first last ∧ room k = false) ∧
    collectIps fuel room first last = Some (inl OutOfMemory).
Proof.
  intros Hf Hl Hfuel. assert (0 <= distance first last) as Hd by (apply u32_range).
  set (n := Z.to_nat (distance first last)).
  assert (Z.of_nat n = distance first last) as Hn by lia. clearbody n.
  destruct (first_failure room (S n)) as [Hall|(k & Hk & Hbefore & Hfail)].
  - left. split; [intros k Hk; apply Hall; lia|].
    destruct (collect_run room last n fuel [] first) as (l & Hc & Hok & Hmap); [done|done|done|lia| |].
    { intros k Hk. apply Hall. simpl. lia. }
    exists l. unfold collectIps. by rewrite Hc.
  - right. split; [exists k; split; [lia|done]|].
    apply (collect_fails room last k); [done|done|lia|lia| |done]. intros j Hj. by apply Hbefore.
Qed.

Lemma collectIps_exact_witness :
  let first := IP 255 255 255 254 in let last := IP 0 0 0 1 in
  ip_ok first ∧ ip_ok last ∧ distance first last = 3 ∧
  collectIps 4 (λ _, true) first last =
    Some (inr [IP 255 255 255 254; IP 255 255 255 255; IP 0 0 0 0; IP 0 0 0 1]) ∧
  ((∀ k, Z.of_nat k <= distance first last → true = true) ∧
    (∃ l, collectIps 4 (λ _, true) first last = Some (inr l) ∧ Forall ip_ok l ∧
      map ip_value l = addresses (ip_value first) (S (Z.to_nat (distance first last)))) ∨
   (∃ k, Z.of_nat k <= distance first last ∧ true = false) ∧
    collectIps 4 (λ _, true) first last = Some (inl OutOfMemory)).
Proof.
  intros first last.
  assert (∀ a b c d, is_u8 a → is_u8 b → is_u8 c → is_u8 d → ip_ok (IP a b c d)) as Hok.
  { intros. do 4 (apply Forall_cons; split; [done|]). constructor. }
  assert (ip_ok first) by (apply Hok; unfold is_u8; lia).
  assert (ip_ok last) by (apply Hok; unfold is_u8; lia).
  repeat (split; [done || by vm_compute|]).
  apply (collectIps_exact 4 (λ _, true) first last); [done|done|by vm_compute].
Defined.

(** ** Port lists *)

Lemma fmt_u_snoc n d : 1 <= n → n * 10 + d < 10000000000 → 0 <= d <= 9 → fmt_u (n * 10 + d) = fmt_u n ++ [48 + d].
Proof.
  intros Hn Hv Hd. destruct (fmt_u_canonical n ltac:(lia)) as [Hdig (c & u & Hc & Hz)].
  rewrite <- (fmt_u_value n) at 1 by lia. replace d with (48 + d - 48) at 1 by lia.
  rewrite <- digits_value_snoc. apply fmt_u_unique.
  - split; [apply Forall_app; split; [done|apply Forall_singleton; unfold is_digit; lia]|].
    rewrite Hc. exists c, (u ++ [48 + d]). split; [done|]. left. destruct Hz as [?| ->]; [done|].
    intros ->. assert (digits_value [48] = n) as Hx; [by rewrite <- Hc, fmt_u_value by lia|].
    change (digits_value [48]) with 0 in Hx. lia.
  - rewrite digits_value_snoc, fmt_u_value by lia. lia.
Qed.

Lemma fmt_u_one d : 0 <= d <= 9 → fmt_u d = [48 + d].
Proof.
  intros Hd. unfold fmt_u. cbn [u_digits]. rewrite (proj2 (Z.ltb_lt d 10)) by lia.
  by rewrite Z.mod_small by lia.
Qed.

Definition is_port (n : Z) : Prop := 1 <= n <= 65535.

(** What has been read of the number under way. *)
Definition read_so_far (number : Z) (has_digits : bool) : list Z :=
  if has_digits then fmt_u number else [].

Lemma split_loop_sound room d s : ∀ array number (has_digits : bool) ns,
  ¬ is_digit d → (if has_digits then is_port number else number = 0) →
  split_loop room d s array number has_digits = inr ns →
  ∃ ts, ts ≠ [] ∧ Forall is_port ts ∧ ns = array ++ ts ∧
    read_so_far number has_digits ++ s = join d (map fmt_u ts).
Proof.
  induction s as [|char s IH]; intros array number has_digits ns Hd Hnum Hr; cbn [split_loop] in Hr.
  - destruct has_digits; [|done]. cbn [negb] in Hr. destruct (room _); [|done].
    destruct (room (S _)); [|done]. injection Hr as <-. exists [number].
    split; [done|]. split; [by apply Forall_singleton|]. split; [done|]. by rewrite app_nil_r.
  - destruct (char =? d) eqn:Hc; to_prop.
    + subst. destruct has_digits; [|done]. cbn [negb] in Hr. destruct (room _); [|done]. cbn [negb] in Hr.
      destruct (IH (array ++ [number]) 0 false ns Hd eq_refl Hr) as (ts & Hts & Hp & -> & Hs).
      exists (number :: ts). split; [done|]. split; [by constructor|]. split; [by rewrite <- app_assoc|].
      cbn [map]. rewrite join_cons by (by destruct ts). by rewrite <- Hs.
    + destruct ((char <? 48) || _) eqn:Hdig; [done|]. apply is_digit_test in Hdig. unfold is_digit in Hdig.
      destruct (_ >? _) eqn:Hg; [done|].
      assert (0 <= number) as Hpos by (destruct has_digits; unfold is_port in Hnum; lia).
      apply digit_guard in Hg; [|lia|done|lia].
      destruct (number * 10 + (char - 48) =? 0) eqn:Hz0; [done|]. to_prop.
      destruct (IH array (number * 10 + (char - 48)) true ns Hd) as (ts & Hts & Hp & Hns & Hs);
        [unfold is_port; lia|done|].
      exists ts. repeat (split; [done|]). rewrite <- Hs. unfold read_so_far.
      replace char with (48 + (char - 48)) at 1 by lia. destruct has_digits; unfold is_port in Hnum.
      * rewrite fmt_u_snoc by lia. by rewrite <- app_assoc.
      * subst. by rewrite Z.mul_0_l, Z.add_0_l, fmt_u_one by lia.
Qed.

(** The remaining digits of a number. *)
Lemma split_loop_digits room d t : ∀ s array number has_digits,
  ¬ is_digit d → digits t → 0 <= number → (number = 0 → ∃ c u, t = c :: u ∧ c ≠ 48) →
  t ≠ [] → number * 10 ^ Z.of_nat (length t) + digits_value t <= 65535 →
  split_loop room d (t ++ s) array number has_digits =
  split_loop room d s array (number * 10 ^ Z.of_nat (length t) + digits_value t) true.
Proof.
  induction t as [|char t IH]; intros s array number has_digits Hd Ht Hn Hz Hne Hv; [done|].
  apply Forall_cons in Ht as [Hc Ht]. unfold is_digit in Hc.
  rewrite digits_value_cons in *. cbn [length] in *. rewrite Nat2Z.inj_succ, Z.pow_succ_r in * by lia.
  assert (0 < 10 ^ Z.of_nat (length t)) as Hpow by (apply Z.pow_pos_nonneg; lia).
  pose proof (digits_value_pos t Ht) as Hval.
  assert (number * (10 * 10 ^ Z.of_nat (length t)) + ((char - 48) * 10 ^ Z.of_nat (length t) + digits_value t) =
    (number * 10 + (char - 48)) * 10 ^ Z.of_nat (length t) + digits_value t) as Heq by lia.
  rewrite Heq in *. assert (number * 10 + (char - 48) <= 65535) as Hle by nia.
  assert (number * 10 + (char - 48) ≠ 0) as Hnz.
  { intros H0. destruct (Hz ltac:(lia)) as (c & u & [= <- <-] & ?). lia. }
  cbn [app split_loop]. assert (char ≠ d) as Hcd by (intros ->; by apply Hd).
  rewrite (proj2 (Z.eqb_neq char d)) by done. rewrite (proj2 (is_digit_test char)) by done.
  assert (number >? (65535 - (char - 48)) / 10 = false) as -> by (apply digit_guard; lia).
  rewrite (proj2 (Z.eqb_neq _ 0)) by done. destruct t as [|c t].
  - cbn [app length]. f_equal. change (digits_value []) with 0. simpl. lia.
  - apply IH; [done|done|lia|lia|done|done].
Qed.

Lemma split_loop_number room d n s array :
  ¬ is_digit d → is_port n →
  split_loop room d (fmt_u n ++ s) array 0 false = split_loop room d s array n true.
Proof.
  unfold is_port. intros Hd Hn. destruct (fmt_u_canonical n ltac:(lia)) as [Hdig (c & u & Hc & Hz)].
  pose proof (fmt_u_value n ltac:(lia)) as Hval.
  rewrite split_loop_digits; [by rewrite Hval|done|done|lia| |by rewrite Hc|lia].
  intros _. exists c, u. split; [done|]. destruct Hz as [?| ->]; [done|]. intros ->.
  rewrite Hc in Hval. change (digits_value [48]) with 0 in Hval. lia.
Qed.

Lemma split_loop_complete room d : ∀ ts array,
  ¬ is_digit d → (∀ k, room k = true) → ts ≠ [] → Forall is_port ts →
  split_loop room d (join d (map fmt_u ts)) array 0 false = inr (array ++ ts).
Proof.
  induction ts as [|n ts IH]; intros array Hd Hroom Hne Hp; [done|]. apply Forall_cons in Hp as [Hn Hp].
  cbn [map]. destruct ts as [|m ts].
  - cbn [map join]. rewrite <- (app_nil_r (fmt_u n)). rewrite split_loop_number by done.
    cbn [split_loop negb]. by rewrite !Hroom.
  - rewrite join_cons by done. rewrite split_loop_number by done. cbn [split_loop]. rewrite Z.eqb_refl, Hroom.
    cbn [negb]. rewrite IH by done. by rewrite <- app_assoc.
Qed.

Lemma port_list_read room s d ns :
  ¬ is_digit d → (∀ k, room k = true) →
  splitStringToIntArray room s d = inr ns ↔ ns ≠ [] ∧ Forall is_port ns ∧ s = join d (map fmt_u ns).
Proof.
  intros Hd Hroom. unfold splitStringToIntArray. split.
  - intros Hr. by destruct (split_loop_sound room d s [] 0 false ns Hd eq_refl Hr) as (ts & ? & ? & -> & ?).
  - intros (Hne & Hp & ->). by apply split_loop_complete.
Qed.

(** a port list is accepted exactly when it is decimals between 1 and
    65535 without leading zeros, one delimiter between each two, and what is
    read is those numbers: printing them again gives the text back. *)
Theorem splitStringToIntArray_exact room s d ns :
  ¬ is_digit d → (∀ k, room k = true) →
  splitStringToIntArray room s d = inr ns ↔
  ns ≠ [] ∧ Forall is_port ns ∧ s = join d (map fmt_u ns).
Proof. apply port_list_read. Qed.

(** "20-80" *)
Lemma splitStringToIntArray_exact_witness :
  splitStringToIntArray (λ _, true) [50;48;45;56;48] 45 = inr [20; 80] ∧
  (splitStringToIntArray (λ _, true) [50;48;45;56;48] 45 = inr [20; 80] ↔
   [20; 80] ≠ [] ∧ Forall is_port [20; 80] ∧ [50;48;45;56;48] = join 45 (map fmt_u [20; 80])).
Proof.
  split; [by vm_compute|].
  apply (splitStringToIntArray_exact (λ _, true) [50;48;45;56;48] 45 [20; 80]); [unfold is_digit; lia|done].
Defined.

(** the test of the multicast listener, on the number: between the two
    ends, both included. *)
Theorem ipInRange_exact ip first last :
  ip_ok ip → ip_ok first → ip_ok last →
  ipInRange ip first last = true ↔ ip_value first <= ip_value ip <= ip_value last.
Proof.
  intros. unfold ipInRange. rewrite !ipToU32_value by done. rewrite andb_true_iff, Z.geb_leb, !Z.leb_le. done.
Qed.
