(* ===== verification/Text.v ===== *)
(** * Text: std.mem as the code uses it, and utils.zig's JSON and MAC text

    Cutting text at characters of a set; [jsonEscape] and
    [jsonStringOrNull], which `--json` output goes through, and a reader of
    JSON strings that they are proved against; MAC addresses read and
    printed. *)
From S2P Require Import Prelude Words Ranges.
Open Scope Z_scope.

(** ** std.mem *)

(** std.mem.trimStart, trimEnd and trim, of the characters in [set]. *)
Fixpoint trimStart (set s : list Z) : list Z :=
  match s with
  | [] => []
  | c :: rest => if bool_decide (c ∈ set) then trimStart set rest else s
  end.

Definition trimEnd (set s : list Z) : list Z := reverse (trimStart set (reverse s)).

Definition trim (set s : list Z) : list Z := trimEnd set (trimStart set s).

(** bytes[first..last]: outside [packet], the program stops. *)
Definition slice (packet : list Z) (first last : nat) : option (list Z) :=
  if (first <=? last)%nat && (last <=? length packet)%nat
  then Some (take (last - first) (drop first packet)) else None.

(** What comes before the first [c]: all of it when there is none. *)
Fixpoint before (c : Z) (s : list Z) : list Z :=
  match s with
  | [] => []
  | x :: s => if x =? c then [] else x :: before c s
  end.

(** The token at the start of [s], and what follows it. *)
Fixpoint until (set s : list Z) : list Z :=
  match s with
  | [] => []
  | c :: s => if bool_decide (c ∈ set) then [] else c :: until set s
  end.

Fixpoint after (set s : list Z) : list Z :=
  match s with
  | [] => []
  | c :: rest => if bool_decide (c ∈ set) then s else after set rest
  end.

(** One call of the next of std.mem.tokenizeAny: the token, and the text the
    iterator is left with. *)
Definition next_token (set s : list Z) : option (list Z * list Z) :=
  match trimStart set s with
  | [] => None
  | t => Some (until set t, after set t)
  end.

(** ** JSON *)

(** "0123456789abcdef" *)
Definition HEX : list Z := [48; 49; 50; 51; 52; 53; 54; 55; 56; 57; 97; 98; 99; 100; 101; 102].

Definition hex_digit (v : Z) : Z := default 0 (HEX !! Z.to_nat v).

(** The characters of the switch's range arm. *)
Definition json_control (c : Z) : bool :=
  ((0 <=? c) && (c <=? 8)) || (c =? 11) || (c =? 12) || ((14 <=? c) && (c <=? 31)) || (c =? 127).

Definition json_piece (c : Z) : list Z :=
  if c =? 34 then [92; 34]
  else if c =? 92 then [92; 92]
  else if c =? 10 then [92; 110]
  else if c =? 13 then [92; 114]
  else if c =? 9 then [92; 116]
  else if json_control c then [92; 117; 48; 48; hex_digit (Z.shiftr c 4); hex_digit (Z.land c 15)]
  else [c].

(** The for loop: [out] is buf[0..n], of [cap] bytes. *)
Fixpoint json_loop (cap : nat) (s out : list Z) : list Z :=
  match s with
  | [] => out
  | c :: s =>
    let piece := json_piece c in
    if (cap <? length out + length piece)%nat then out else json_loop cap s (out ++ piece)
  end.

Definition jsonEscape (cap : nat) (s : list Z) : list Z := json_loop cap s [].

(** "null" *)
Definition NULL : list Z := [110; 117; 108; 108].

Definition jsonStringOrNull (cap : nat) (s : option (list Z)) : list Z :=
  match s with
  | None => NULL
  | Some value => if (cap <? 2)%nat then NULL else 34 :: jsonEscape (cap - 2) value ++ [34]
  end.

(** ** MAC addresses *)

Definition MAC_DELIMITERS : list Z := [58; 45].

(** The while loop over the tokens, with mac[0..byte_idx]; [n] bounds its
    rounds. *)
Fixpoint mac_loop (n : nat) (s mac : list Z) : option (list Z) :=
  match n with
  | O => None
  | S n =>
    match next_token MAC_DELIMITERS s with
    | None => if (length mac =? 6)%nat then Some mac else None
    | Some (token, rest) =>
      if (6 <=? length mac)%nat then None
      else if (length token <? 1)%nat || (2 <? length token)%nat then None
      else match parseInt_u8 token 16 with
           | inl _ => None
           | inr val => mac_loop n rest (mac ++ [val])
           end
    end
  end.

(** Every round but the last adds a byte, and there are at most six. *)
Definition parseMac (s : list Z) : option (list Z) := mac_loop 7 s [].

(** {x:0>2} *)
Definition hex2 (b : Z) : list Z := [hex_digit (Z.shiftr b 4); hex_digit (Z.land b 15)].

(** The rest of the text after the first byte. *)
Fixpoint colon_hex (mac : list Z) : list Z :=
  match mac with [] => [] | b :: mac => [58] ++ hex2 b ++ colon_hex mac end.

Definition formatMac (mac : list Z) : list Z :=
  match mac with [] => [] | b :: mac => hex2 b ++ colon_hex mac end.

(** ** Trimming keeps what the text is *)

Lemma Forall_trimStart (P : Z → Prop) set s : Forall P s → Forall P (trimStart set s).
Proof. induction 1; simpl; [constructor|]. case_bool_decide; [done|by constructor]. Qed.

Lemma Forall_trimEnd (P : Z → Prop) set s : Forall P s → Forall P (trimEnd set s).
Proof. intros Hs. unfold trimEnd. by apply Forall_reverse, Forall_trimStart, Forall_reverse. Qed.

Lemma Forall_trim (P : Z → Prop) set s : Forall P s → Forall P (trim set s).
Proof. intros Hs. by apply Forall_trimEnd, Forall_trimStart. Qed.

Lemma Forall_before (P : Z → Prop) c s : Forall P s → Forall P (before c s).
Proof. induction 1; simpl; [constructor|]. destruct (_ =? _); by constructor. Qed.

Lemma length_trimStart set s : (length (trimStart set s) ≤ length s)%nat.
Proof. induction s; simpl; [done|]. case_bool_decide; simpl; lia. Qed.

Lemma lookup_some (packet : list Z) pos : (pos < length packet)%nat → ∃ b, packet !! pos = Some b.
Proof. apply lookup_lt_is_Some_2. Qed.

Lemma slice_some (packet : list Z) a b :
  (a ≤ b)%nat → (b ≤ length packet)%nat → ∃ s, slice packet a b = Some s ∧ length s = (b - a)%nat.
Proof.
  intros Ha Hb. unfold slice. rewrite (proj2 (Nat.leb_le a b)), (proj2 (Nat.leb_le b _)) by done. simpl.
  eexists. split; [done|]. rewrite length_take, length_drop. lia.
Qed.

Lemma slice_length (packet : list Z) a b s :
  slice packet a b = Some s → length s = (b - a)%nat ∧ (a ≤ b)%nat ∧ (b ≤ length packet)%nat.
Proof.
  unfold slice. destruct (_ && _) eqn:Hr; [|done]. intros [= <-]. to_prop. rewrite length_take, length_drop. lia.
Qed.

Lemma slice_app pre s post : slice (pre ++ s ++ post) (length pre) (length pre + length s) = Some s.
Proof.
  unfold slice. rewrite !length_app. rewrite (proj2 (Nat.leb_le _ _)), (proj2 (Nat.leb_le _ _)) by lia. simpl.
  replace (length pre + length s - length pre)%nat with (length s) by lia.
  by rewrite drop_app_length, take_app_length.
Qed.

(** [slice_app] where the positions are given. *)
Lemma slice_parts whole a b pre s post :
  whole = pre ++ s ++ post → a = length pre → b = (length pre + length s)%nat → slice whole a b = Some s.
Proof. intros -> -> ->. apply slice_app. Qed.

(** ** JSON read back *)

Definition hex_value (a b c d : Z) : option Z :=
  a ← char_to_digit a 16; b ← char_to_digit b 16; c ← char_to_digit c 16; d ← char_to_digit d 16;
  Some (((a * 16 + b) * 16 + c) * 16 + d).

(** The one-character escapes of RFC 8259. *)
Definition simple_escape (e : Z) : option Z :=
  if e =? 34 then Some 34 else if e =? 92 then Some 92 else if e =? 47 then Some 47
  else if e =? 98 then Some 8 else if e =? 102 then Some 12 else if e =? 110 then Some 10
  else if e =? 114 then Some 13 else if e =? 116 then Some 9 else None.

(** What the characters between a JSON string's quotes stand for (RFC 8259,
    section 7), for escapes of ASCII.  Quotes and control characters must be
    escaped. *)
Fixpoint json_string (s : list Z) : option (list Z) :=
  match s with
  | [] => Some []
  | c :: s =>
    if c =? 92 then
      match s with
      | [] => None
      | e :: s =>
        if e =? 117 then
          match s with
          | a :: b :: c :: d :: s =>
            v ← hex_value a b c d;
            if v <? 128 then cons v <$> json_string s else None
          | _ => None
          end
        else v ← simple_escape e; cons v <$> json_string s
      end
    else if (c =? 34) || (c <? 32) then None
    else cons c <$> json_string s
  end.

Definition escaped (s : list Z) : list Z := concat (map json_piece s).

(** A property of bytes, tried on all of them. *)
Lemma all_bytes (p : Z → bool) : forallb p (Z.of_nat <$> seq 0 256) = true → ∀ c, is_u8 c → p c = true.
Proof.
  intros Hall c Hc. rewrite forallb_forall in Hall. apply Hall, list_elem_of_In, list_elem_of_fmap.
  exists (Z.to_nat c). unfold is_u8 in Hc. split; [lia|]. apply elem_of_seq. lia.
Qed.

(** No character of an escape is a control character. *)
Definition visible (c : Z) : Prop := 32 <= c ∧ c ≠ 127.

Lemma json_piece_visible c : is_u8 c → Forall visible (json_piece c).
Proof.
  intros Hc. pose proof (all_bytes (λ c, forallb (λ x, (32 <=? x) && negb (x =? 127)) (json_piece c))
    ltac:(by vm_compute) c Hc) as Hp.
  rewrite forallb_forall in Hp. apply Forall_forall. intros x Hx%list_elem_of_In. apply Hp in Hx. to_prop. by split.
Qed.

Lemma json_piece_length c : (1 ≤ length (json_piece c) ≤ 6)%nat.
Proof. unfold json_piece. repeat case_match; simpl; lia. Qed.

Lemma json_control_value c :
  is_u8 c → json_control c = true → hex_value 48 48 (hex_digit (Z.shiftr c 4)) (hex_digit (Z.land c 15)) = Some c ∧ c < 128.
Proof.
  intros Hc Hj. pose proof (all_bytes (λ c, negb (json_control c) || (bool_decide (hex_value 48 48
    (hex_digit (Z.shiftr c 4)) (hex_digit (Z.land c 15)) = Some c) && (c <? 128)))
    ltac:(by vm_compute) c Hc) as Hp.
  cbv beta in Hp. rewrite Hj in Hp. simpl in Hp. apply andb_true_iff in Hp as [Hp%bool_decide_eq_true Hl]. by to_prop.
Qed.

Lemma json_string_piece c s : is_u8 c → json_string (json_piece c ++ s) = cons c <$> json_string s.
Proof.
  intros Hc. unfold json_piece.
  destruct (c =? 34) eqn:H1; [to_prop; by subst|]. destruct (c =? 92) eqn:H2; [to_prop; by subst|].
  destruct (c =? 10) eqn:H3; [to_prop; by subst|]. destruct (c =? 13) eqn:H4; [to_prop; by subst|].
  destruct (c =? 9) eqn:H5; [to_prop; by subst|]. destruct (json_control c) eqn:Hj.
  - destruct (json_control_value c Hc Hj) as [Hv Hl]. cbn [app json_string]. simpl (92 =? 92). simpl (117 =? 117).
    cbv iota. rewrite Hv. cbn [mbind option_bind]. by rewrite (proj2 (Z.ltb_lt _ _)).
  - cbn [app json_string]. rewrite H2, H1. simpl orb.
    assert (c <? 32 = false) as ->; [|done]. unfold json_control, is_u8 in *. to_prop.
    apply Z.ltb_ge. lia.
Qed.

Lemma json_string_escaped s : bytes s → json_string (escaped s) = Some s.
Proof.
  induction 1 as [|c s Hc _ IH]; [done|]. unfold escaped in *. cbn [map concat].
  by rewrite json_string_piece, IH.
Qed.

Lemma escaped_visible s : bytes s → Forall visible (escaped s).
Proof.
  induction 1 as [|c s Hc _ IH]; [constructor|]. unfold escaped in *. cbn [map concat]. apply Forall_app. split; [|done].
  by apply json_piece_visible.
Qed.

Lemma escaped_length s : (length (escaped s) ≤ 6 * length s)%nat.
Proof.
  induction s as [|c s IH]; [done|]. unfold escaped in *. cbn [map concat]. rewrite length_app. simpl length.
  pose proof (json_piece_length c). lia.
Qed.

(** As many characters as fit. *)
Lemma json_loop_value cap s : ∀ out,
  (length out ≤ cap)%nat →
  ∃ k, (k ≤ length s)%nat ∧ json_loop cap s out = out ++ escaped (take k s) ∧
    (length (json_loop cap s out) ≤ cap)%nat ∧
    ∀ c, s !! k = Some c → (cap < length (json_loop cap s out) + length (json_piece c))%nat.
Proof.
  induction s as [|c s IH]; intros out Hout; cbn [json_loop].
  { exists 0%nat. cbn. rewrite app_nil_r. split; [lia|]. by split. }
  destruct (cap <? _)%nat eqn:Hfit; to_prop.
  { exists 0%nat. cbn. rewrite app_nil_r. split; [lia|]. split; [done|]. split; [done|]. by intros ? [= <-]. }
  destruct (IH (out ++ json_piece c)) as (k & Hk & Hv & Hl & Hn); [rewrite length_app; lia|].
  exists (S k). split; [simpl; lia|]. split; [|done].
  rewrite Hv. cbn [take]. unfold escaped. cbn [map concat]. by rewrite app_assoc.
Qed.

Lemma jsonEscape_run cap s :
  bytes s →
  ∃ k, (k ≤ length s)%nat ∧ json_string (jsonEscape cap s) = Some (take k s) ∧
    (length (jsonEscape cap s) ≤ cap)%nat ∧ Forall visible (jsonEscape cap s) ∧
    (∀ c, s !! k = Some c → (cap < length (jsonEscape cap s) + length (json_piece c))%nat) ∧
    ((6 * length s ≤ cap)%nat → k = length s).
Proof.
  intros Hs. destruct (json_loop_value cap s []) as (k & Hk & Hv & Hl & Hn); [simpl; lia|].
  exists k. unfold jsonEscape. split; [done|]. split; [rewrite Hv; by apply json_string_escaped, bytes_take|].
  split; [done|]. split; [rewrite Hv; by apply escaped_visible, bytes_take|]. split; [done|].
  intros Hcap. destruct (decide (k = length s)) as [|Hne]; [done|]. exfalso.
  assert (is_Some (s !! k)) as [c Hc] by (apply lookup_lt_is_Some; lia). specialize (Hn c Hc).
  rewrite Hv in Hn. cbn [app] in Hn. pose proof (escaped_length (take k s)) as He. rewrite length_take in He.
  pose proof (json_piece_length c). lia.
Qed.

(** JSON text.  [jsonEscape] never writes past its buffer, and what it
    writes between the quotes stands for the text it was given, cut only
    where the next character's escape would not fit (six bytes a character
    are always enough); no control character, DEL included, gets into it. *)
Theorem jsonEscape_reads cap s :
  bytes s →
  ∃ k, (k ≤ length s)%nat ∧ json_string (jsonEscape cap s) = Some (take k s) ∧
    (length (jsonEscape cap s) ≤ cap)%nat ∧ Forall visible (jsonEscape cap s) ∧
    (∀ c, s !! k = Some c → (cap < length (jsonEscape cap s) + length (json_piece c))%nat) ∧
    ((6 * length s ≤ cap)%nat → k = length s).
Proof. apply jsonEscape_run. Qed.

(** A JSON value that is null or a string. *)
Definition json_value (text : list Z) : option (option (list Z)) :=
  if bool_decide (text = NULL) then Some None
  else match text with
       | 34 :: rest =>
         if bool_decide (last rest = Some 34) then Some <$> json_string (take (length rest - 1) rest) else None
       | _ => None
       end.

(** Optional fields: null, or the string; only a buffer without room for two
    quotes loses it. *)
Lemma jsonStringOrNull_reads cap s :
  (∀ text, s = Some text → bytes text) →
  ∃ r, json_value (jsonStringOrNull cap s) = Some r ∧
    match s, r with
    | Some text, Some value => ∃ k, value = take k text ∧ ((6 * length text + 2 ≤ cap)%nat → value = text)
    | Some _, None => (cap < 2)%nat
    | None, r => r = None
    end.
Proof.
  intros Hs. destruct s as [text|]; [|by exists None]. unfold jsonStringOrNull.
  destruct (cap <? 2)%nat eqn:Hc; to_prop; [by exists None|].
  destruct (jsonEscape_run (cap - 2) text (Hs text eq_refl)) as (k & _ & Hv & _ & _ & _ & Hk).
  exists (Some (take k text)). split.
  - unfold json_value. rewrite bool_decide_eq_false_2 by done.
    rewrite last_app_cons. cbn [last]. rewrite bool_decide_eq_true_2 by done.
    rewrite length_app. cbn [length]. by rewrite Nat.add_sub, take_app_length, Hv.
  - exists k. split; [done|]. intros Hcap. rewrite Hk by lia. by apply take_ge.
Qed.

(** ** Tokens *)

(** The pieces between characters of [set], and those that are not empty. *)
Fixpoint split_any (set s : list Z) : list (list Z) :=
  match s with
  | [] => [[]]
  | c :: s =>
    if bool_decide (c ∈ set) then [] :: split_any set s
    else match split_any set s with
         | p :: ps => (c :: p) :: ps
         | [] => [[c]]
         end
  end.

Definition fields (set s : list Z) : list (list Z) := filter (λ p, p ≠ []) (split_any set s).

Lemma split_any_until set s :
  split_any set s = until set s :: match after set s with [] => [] | _ :: rest => split_any set rest end.
Proof.
  induction s as [|c s IH]; [done|]. cbn [split_any until after]. case_bool_decide; [done|]. by rewrite IH.
Qed.

Lemma fields_delimiter set c s : c ∈ set → fields set (c :: s) = fields set s.
Proof. intros Hc. unfold fields. cbn [split_any]. by rewrite bool_decide_eq_true_2. Qed.

Lemma fields_trimStart set s : fields set (trimStart set s) = fields set s.
Proof.
  induction s as [|c s IH]; [done|]. cbn [trimStart]. case_bool_decide; [|done]. by rewrite fields_delimiter.
Qed.

Lemma after_delimiter set s c rest : after set s = c :: rest → c ∈ set.
Proof. induction s as [|x s IH]; [done|]. cbn [after]. case_bool_decide; [by intros [= <- <-]|auto]. Qed.

Lemma until_free set s : Forall (λ c, c ∉ set) (until set s).
Proof. induction s; cbn [until]; [constructor|]. case_bool_decide; by constructor. Qed.

Lemma until_after set s : until set s ++ after set s = s.
Proof. induction s as [|c s IH]; [done|]. cbn [until after]. case_bool_decide; [done|]. cbn [app]. by rewrite IH. Qed.

Lemma fields_until set s :
  fields set s = (if decide (until set s = []) then [] else [until set s]) ++ fields set (after set s).
Proof.
  unfold fields. rewrite split_any_until at 1. rewrite filter_cons.
  assert (filter (λ p, p ≠ []) match after set s with [] => [] | _ :: rest => split_any set rest end
    = filter (λ p, p ≠ []) (split_any set (after set s))) as Heq.
  { destruct (after set s) as [|c rest] eqn:Ha; [done|].
    pose proof (fields_delimiter set c rest (after_delimiter _ _ _ _ Ha)) as Hf. unfold fields in Hf. by rewrite Hf. }
  rewrite Heq. destruct (decide (until set s ≠ [])), (decide (until set s = [])); done.
Qed.

(** next hands out the fields in order. *)
Lemma next_token_fields set s :
  match next_token set s with
  | None => fields set s = []
  | Some (token, rest) => fields set s = token :: fields set rest ∧ token ≠ [] ∧ Forall (λ c, c ∉ set) token
  end.
Proof.
  unfold next_token. rewrite <- (fields_trimStart set s).
  assert (∀ c r, trimStart set s = c :: r → c ∉ set) as Hc.
  { induction s as [|x s IH]; [done|]. cbn [trimStart]. case_bool_decide; [done|]. by intros c r [= <- <-]. }
  destruct (trimStart set s) as [|c r]; [done|].
  assert (until set (c :: r) ≠ []) as Hne by (cbn [until]; rewrite bool_decide_eq_false_2 by eauto; done).
  split; [|split; [done|apply until_free]]. rewrite fields_until. by rewrite decide_False.
Qed.

(** One field, then a delimiter or the end. *)
Lemma token_app set t s :
  Forall (λ c, c ∉ set) t → (∀ c r, s = c :: r → c ∈ set) → until set (t ++ s) = t ∧ after set (t ++ s) = s.
Proof.
  induction 1 as [|c t Hc _ IH]; intros Hs; cbn [app].
  - destruct s as [|c r]; [done|]. cbn [until after]. by rewrite bool_decide_eq_true_2 by by eapply Hs.
  - cbn [until after]. rewrite bool_decide_eq_false_2 by done. destruct (IH Hs) as [-> ->]. done.
Qed.

Lemma next_token_app set t s :
  t ≠ [] → Forall (λ c, c ∉ set) t → (∀ c r, s = c :: r → c ∈ set) → next_token set (t ++ s) = Some (t, s).
Proof.
  intros Hne Ht Hs. unfold next_token. destruct t as [|c t]; [done|]. pose proof Ht as Hcs. apply Forall_cons in Ht as [Hc _].
  assert (trimStart set ((c :: t) ++ s) = (c :: t) ++ s) as ->
    by (cbn [app trimStart]; by rewrite bool_decide_eq_false_2).
  destruct (token_app set (c :: t) s Hcs Hs) as [Hu Ha]. cbn [app] in *. by rewrite Hu, Ha.
Qed.

Lemma fields_app set t s :
  t ≠ [] → Forall (λ c, c ∉ set) t → (∀ c r, s = c :: r → c ∈ set) → fields set (t ++ s) = t :: fields set s.
Proof.
  intros Hne Ht Hs. pose proof (next_token_fields set (t ++ s)) as Hf. by rewrite next_token_app in Hf by done; apply Hf.
Qed.

(** ** MAC addresses *)

(** What a field of one or two characters is worth: hexadecimal digits, or,
    as std.fmt.parseInt reads it, a plus sign and one. *)
Definition octet (t : list Z) (v : Z) : Prop :=
  match t with
  | [d] => char_to_digit d 16 = Some v
  | [a; b] =>
    (a = 43 ∧ char_to_digit b 16 = Some v) ∨
    ∃ x y, char_to_digit a 16 = Some x ∧ char_to_digit b 16 = Some y ∧ v = x * 16 + y
  | _ => False
  end.

Lemma hex_digit_range c v : char_to_digit c 16 = Some v → 0 <= v < 16.
Proof.
  unfold char_to_digit. intros (x & Hx & Hv)%bind_Some. destruct (x >=? 16) eqn:Hge in Hv; [done|].
  injection Hv as <-. to_prop. split; [|lia]. repeat case_match; simplify_eq; to_prop; lia.
Qed.

Lemma parse_digits_hex d v acc ds :
  char_to_digit d 16 = Some v → 0 <= acc < 16 →
  parse_digits false 16 (d :: ds) acc = parse_digits false 16 ds (acc * 16 + v).
Proof.
  intros Hd Hacc. pose proof (hex_digit_range d v Hd) as Hv. cbn [parse_digits].
  destruct (d =? 95) eqn:Hu; [to_prop; by subst|]. rewrite Hd. cbn [or_error mbind zig_bind].
  unfold zu8. destruct (acc =? 0) eqn:Hz; to_prop; simpl negb; cbv iota.
  - rewrite fits_some by lia. cbn [or_error mbind zig_bind]. f_equal. lia.
  - rewrite fits_some by lia. cbn [or_error mbind zig_bind]. by rewrite fits_some by lia.
Qed.

Lemma parse_digits_bad d acc ds : d ≠ 95 → char_to_digit d 16 = None → parse_digits false 16 (d :: ds) acc = inl InvalidCharacter.
Proof. intros Hd Hn. cbn [parse_digits]. rewrite (proj2 (Z.eqb_neq _ _) Hd). by rewrite Hn. Qed.

Lemma parse_one d v : parse_signed false 16 [d] = inr v ↔ char_to_digit d 16 = Some v.
Proof.
  unfold parse_signed. cbn [last]. destruct (decide (d = 95)) as [->|Hd]; [by simpl|].
  rewrite (proj2 (Z.eqb_neq _ _) Hd), bool_decide_eq_false_2 by congruence. simpl orb. cbv iota.
  destruct (char_to_digit d 16) as [x|] eqn:Hx.
  - rewrite (parse_digits_hex d x) by (done || lia). cbn [parse_digits]. unfold mret, zig_ret.
    split; intros [= <-]; f_equal; lia.
  - by rewrite parse_digits_bad.
Qed.

Lemma octet_parse t v :
  45 ∉ t → (1 ≤ length t ≤ 2)%nat ∧ parseInt_u8 t 16 = inr v ↔ octet t v.
Proof.
  intros Hm. destruct t as [|a [|b [|]]]; cbn [length octet].
  - split; [lia|done].
  - unfold parseInt_u8. rewrite (proj2 (Z.eqb_neq a 45)) by set_solver. destruct (a =? 43) eqn:Ha.
    { to_prop. subst. simpl. by split; [intros [_ ?]|]. }
    rewrite parse_one. split; [tauto|]. split; [lia|done].
  - unfold parseInt_u8. rewrite (proj2 (Z.eqb_neq a 45)) by set_solver. destruct (a =? 43) eqn:Ha; to_prop.
    { rewrite parse_one. subst a. split; [tauto|]. intros [[_ ?]|(x & y & ? & _)]; [split; [lia|done]|done]. }
    unfold parse_signed. cbn [last].
    transitivity (∃ x y, char_to_digit a 16 = Some x ∧ char_to_digit b 16 = Some y ∧ v = x * 16 + y).
    2:{ split; [by right|]. by intros [[? _]|?]. }
    destruct (decide (a = 95)) as [->|Ha95].
    { simpl. split; [by intros [_ ?]|]. by intros (x & y & ? & _). }
    rewrite (proj2 (Z.eqb_neq _ _) Ha95). simpl orb. destruct (decide (b = 95)) as [->|Hb95].
    { rewrite bool_decide_eq_true_2 by done. split; [by intros [_ ?]|]. by intros (x & y & _ & ? & _). }
    rewrite bool_decide_eq_false_2 by congruence. cbv iota.
    destruct (char_to_digit a 16) as [x|] eqn:Hx.
    2:{ rewrite parse_digits_bad by done. split; [by intros [_ ?]|naive_solver]. }
    pose proof (hex_digit_range a x Hx). rewrite (parse_digits_hex a x) by (done || lia).
    destruct (char_to_digit b 16) as [y|] eqn:Hy.
    2:{ rewrite parse_digits_bad by done. split; [by intros [_ ?]|naive_solver]. }
    rewrite (parse_digits_hex b y) by (done || lia). cbn [parse_digits]. unfold mret, zig_ret.
    split; [intros [_ [= <-]]; exists x, y; split; [done|]; split; [done|lia]|].
    intros (x' & y' & [= <-] & [= <-] & ->). split; [lia|done].
  - split; [lia|done].
Qed.

Lemma octet_inj t v w : octet t v → octet t w → v = w.
Proof. destruct t as [|a [|b [|]]]; simpl; naive_solver. Qed.

Lemma octet_u8 t v : octet t v → is_u8 v.
Proof.
  unfold is_u8. destruct t as [|a [|b [|]]]; simpl; try done; [intros H%hex_digit_range; lia|].
  intros [[_ H%hex_digit_range]|(x & y & Hx%hex_digit_range & Hy%hex_digit_range & ->)]; lia.
Qed.

Lemma mac_loop_iff n : ∀ s mac r,
  (length mac ≤ 6)%nat → (7 - length mac ≤ n)%nat →
  mac_loop n s mac = Some r ↔ ∃ vs, Forall2 octet (fields MAC_DELIMITERS s) vs ∧ r = mac ++ vs ∧ length r = 6%nat.
Proof.
  induction n as [|n IH]; intros s mac r Hmac Hn; [lia|]. cbn [mac_loop].
  pose proof (next_token_fields MAC_DELIMITERS s) as Hf.
  destruct (next_token MAC_DELIMITERS s) as [[token rest]|].
  2:{ rewrite Hf. destruct (length mac =? 6)%nat eqn:Hl; to_prop.
      - split; [intros [= <-]; exists []; rewrite app_nil_r; by repeat split|].
        intros (vs & Hvs%Forall2_nil_inv_l & -> & _). by rewrite Hvs, app_nil_r.
      - split; [done|]. intros (vs & Hvs%Forall2_nil_inv_l & -> & Hlen). by rewrite Hvs, app_nil_r in Hlen. }
  destruct Hf as (-> & Hne & Hfree).
  assert (45 ∉ token) as Hm.
  { intros Hin. eapply Forall_forall in Hfree; [|exact Hin]. unfold MAC_DELIMITERS in Hfree. set_solver. }
  destruct (6 <=? length mac)%nat eqn:Hfull; to_prop.
  { split; [done|]. intros (vs & Hvs & -> & Hlen). destruct vs as [|w vs]; [by apply Forall2_length in Hvs|].
    rewrite length_app in Hlen. simpl in Hlen. lia. }
  destruct ((length token <? 1)%nat || (2 <? length token)%nat) eqn:Hlen.
  { split; [done|]. intros (vs & Hvs & _). apply Forall2_cons_inv_l in Hvs as (w & vs' & Hw & _ & ->).
    apply (octet_parse _ _ Hm) in Hw as [? _]. apply orb_true_iff in Hlen as [?|?]; to_prop; lia. }
  to_prop. destruct (parseInt_u8 token 16) as [err|val] eqn:Hp.
  { split; [done|]. intros (vs & Hvs & _). apply Forall2_cons_inv_l in Hvs as (w & vs' & Hw & _ & ->).
    apply (octet_parse _ _ Hm) in Hw as [_ ?]. congruence. }
  assert (octet token val) as Ho by (apply octet_parse; [done|]; split; [lia|done]).
  rewrite IH by (rewrite length_app; simpl; lia). split.
  - intros (vs & Hvs & -> & Hr). exists (val :: vs). rewrite <- app_assoc in *. split; [by constructor|done].
  - intros (vs & Hvs & -> & Hr). apply Forall2_cons_inv_l in Hvs as (w & vs' & Hw & Hvs & ->).
    rewrite (octet_inj _ _ _ Ho Hw) in *. exists vs'. rewrite <- app_assoc. by repeat split.
Qed.

(** MAC addresses read.  Text is a MAC address exactly when its fields
    between colons and hyphens are six, each of one or two characters that
    are a hexadecimal number, which are the address's bytes. *)
Theorem parseMac_exact s mac :
  parseMac s = Some mac ↔ length mac = 6%nat ∧ Forall2 octet (fields MAC_DELIMITERS s) mac.
Proof.
  unfold parseMac. rewrite mac_loop_iff by (simpl; lia). split; [intros (vs & ? & -> & ?); by split|].
  intros [? ?]. by exists mac.
Qed.

Lemma hex2_value b :
  is_u8 b → octet (hex2 b) b ∧ Forall (λ c, c ∉ MAC_DELIMITERS) (hex2 b) ∧ Forall (λ c, c ∉ [32; 9]) (hex2 b).
Proof.
  intros Hb.
  pose proof (all_bytes (λ b, match hex2 b with
    | [x; y] => match char_to_digit x 16, char_to_digit y 16 with
                | Some v, Some w => v * 16 + w =? b | _, _ => false end
                && bool_decide (Forall (λ c, c ∉ MAC_DELIMITERS) [x; y]) && bool_decide (Forall (λ c, c ∉ [32; 9]) [x; y])
    | _ => false end) ltac:(by vm_compute) b Hb) as Hp.
  cbv beta in Hp. destruct (hex2 b) as [|x [|y [|]]]; try done.
  apply andb_true_iff in Hp as [[Hp Hd%bool_decide_eq_true]%andb_true_iff Hs%bool_decide_eq_true].
  split; [|by split]. right. destruct (char_to_digit x 16) as [v|]; [|done]. destruct (char_to_digit y 16) as [w|]; [|done].
  apply Z.eqb_eq in Hp. exists v, w. by repeat split.
Qed.

Lemma fields_colon_hex mac : bytes mac → fields MAC_DELIMITERS (colon_hex mac) = map hex2 mac.
Proof.
  induction 1 as [|b mac Hb _ IH]; [done|]. cbn [colon_hex map].
  change (fields MAC_DELIMITERS ([58] ++ hex2 b ++ colon_hex mac)) with (fields MAC_DELIMITERS (58 :: (hex2 b ++ colon_hex mac))).
  rewrite fields_delimiter by (unfold MAC_DELIMITERS; set_solver).
  rewrite fields_app; [by rewrite IH|done|by apply hex2_value|].
  intros c r Hc. destruct mac; [done|]. injection Hc as <- _. unfold MAC_DELIMITERS. set_solver.
Qed.

(** MAC addresses printed are read back: 17 characters, six pairs of
    digits with colons between. *)
Theorem formatMac_parses mac :
  bytes mac → length mac = 6%nat → parseMac (formatMac mac) = Some mac ∧ length (formatMac mac) = 17%nat.
Proof.
  intros Hb Hlen. split.
  - unfold parseMac. apply mac_loop_iff; [simpl; lia..|]. exists mac. split; [|done].
    destruct mac as [|b mac]; [done|]. cbn [formatMac]. apply Forall_cons in Hb as [Hb Hm].
    rewrite fields_app; [|done|by apply hex2_value|].
    2:{ intros c r Hc. destruct mac; [done|]. injection Hc as <- _. unfold MAC_DELIMITERS. set_solver. }
    rewrite fields_colon_hex by done. constructor; [by apply hex2_value|].
    clear Hlen. induction Hm; simpl; constructor; [by apply hex2_value|done].
  - destruct mac as [|? [|? [|? [|? [|? [|? [|]]]]]]]; try done.
Qed.

(** ** Concrete texts *)

(** A quote, a line feed, a DEL and a letter: in 10 bytes, the letter is left
    out. *)
Definition TEXT : list Z := [34; 10; 127; 97].

Lemma jsonEscape_reads_witness :
  jsonEscape 10 TEXT = [92; 34; 92; 110; 92; 117; 48; 48; 55; 102] ∧
  ∃ k, (k ≤ 4)%nat ∧ json_string (jsonEscape 10 TEXT) = Some (take k TEXT) ∧
    (length (jsonEscape 10 TEXT) ≤ 10)%nat ∧ Forall visible (jsonEscape 10 TEXT) ∧
    (∀ c, TEXT !! k = Some c →
      (10 < length (jsonEscape 10 TEXT) + length (json_piece c))%nat) ∧
    ((6 * 4 ≤ 10)%nat → k = 4%nat).
Proof.
  split; [by vm_compute|]. apply (jsonEscape_reads 10 TEXT).
  repeat (apply Forall_cons; split; [unfold is_u8; lia|]). constructor.
Defined.

Lemma formatMac_parses_witness :
  formatMac [16; 230; 107; 38; 126; 83] = [49; 48; 58; 101; 54; 58; 54; 98; 58; 50; 54; 58; 55; 101; 58; 53; 51] ∧
  parseMac (formatMac [16; 230; 107; 38; 126; 83]) = Some [16; 230; 107; 38; 126; 83] ∧
  length (formatMac [16; 230; 107; 38; 126; 83]) = 17%nat.
Proof.
  split; [by vm_compute|]. apply (formatMac_parses [16; 230; 107; 38; 126; 83]); [|reflexivity].
  repeat (apply Forall_cons; split; [unfold is_u8; lia|]). constructor.
Defined.
