(* ===== verification/Packets.v ===== *)
(** * multicast.zig: the packets of multicast discovery

    The queries sent to the mDNS and SSDP groups, and how their answers are
    read.  Packets are lists of bytes and positions in them are [nat]; a
    read outside a packet, or a write outside a buffer, stops a Zig program,
    which is [None] here ("nothing found" is [Some None]).  The theorems show
    that it never happens. *)
From S2P Require Import Prelude Words Decimal Resolver Text.
Open Scope Z_scope.

Definition DNS_TYPE_A : Z := 1.
Definition DNS_CLASS_IN : Z := 1.
Definition DNS_HEADER_LEN : nat := 12.

(** ** Queries *)

(** One label: its length and its bytes. *)
Definition encode_label (label : list Z) : list Z := Z.of_nat (length label) :: label.

Definition encode_labels (labels : list (list Z)) : list Z := concat (map encode_label labels).

(** A one-question DNS query. *)
Definition dnsQuery (id : Z) (labels : list (list Z)) (qtype : Z) : list Z :=
  [Z.shiftr id 8; Z.land id 255; 0; 0; 0; 1; 0; 0; 0; 0; 0; 0]
    ++ encode_labels labels
    ++ [0; Z.shiftr qtype 8; Z.land qtype 255; Z.shiftr DNS_CLASS_IN 8; Z.land DNS_CLASS_IN 255].

(** "_services", "_dns-sd", "_udp", "local" *)
Definition services_query : list Z :=
  dnsQuery 20051
    [[95; 115; 101; 114; 118; 105; 99; 101; 115]; [95; 100; 110; 115; 45; 115; 100]; [95; 117; 100; 112];
     [108; 111; 99; 97; 108]] DNS_TYPE_PTR.

(** "in-addr" and "arpa" *)
Definition IN_ADDR : list Z := [105; 110; 45; 97; 100; 100; 114].
Definition ARPA : list Z := [97; 114; 112; 97].

Definition query_header : list Z := [78; 84; 0; 0; 0; 1; 0; 0; 0; 0; 0; 0].

(** The bytes of the address backwards, each printed as a label. *)
Definition reverse_labels (ip : ip4) : list Z :=
  encode_labels (map fmt_u (reverse (ip_bytes ip))).

Definition query_tail : list Z :=
  [7] ++ IN_ADDR ++ [4] ++ ARPA ++ [0; 0; DNS_TYPE_PTR; 0; DNS_CLASS_IN].

(** The unicast name query, if it fits the buffer of 64 bytes. *)
Definition reverseQuery (ip : ip4) : option (list Z) :=
  let query := query_header ++ reverse_labels ip ++ query_tail in
  if (length query <=? 64)%nat then Some query else None.

(** ** Reading *)

Inductive Kind := mdns | ssdp.

#[export] Instance Kind_eq_dec : EqDecision Kind.
Proof. solve_decision. Defined.

(** std.ascii.toLower and std.ascii.eqlIgnoreCase *)
Definition toLower (c : Z) : Z := if (65 <=? c) && (c <=? 90) then c + 32 else c.

Definition eqlIgnoreCase (a b : list Z) : bool := bool_decide (map toLower a = map toLower b).

(** "HTTP/1.1 200" *)
Definition ssdp_ok : list Z := [72; 84; 84; 80; 47; 49; 46; 49; 32; 50; 48; 48].

Definition is_ssdp (data : list Z) : option bool :=
  if (length ssdp_ok <=? length data)%nat
  then start ← slice data 0 (length ssdp_ok); Some (eqlIgnoreCase start ssdp_ok)
  else Some false.

Definition classify (data : list Z) : option (option Kind) :=
  http ← is_ssdp data;
  if (http : bool) then Some (Some ssdp)
  else if (DNS_HEADER_LEN <=? length data)%nat then
    flags ← data !! 2%nat;
    Some (if Z.land flags 248 =? 128 then Some mdns else None)
  else Some None.

Definition readU16 (packet : list Z) (pos : nat) : option Z :=
  hi ← packet !! pos;
  lo ← packet !! S pos;
  Some (get_be16 hi lo).

(** skipName's loop; [n] bounds its rounds. *)
Fixpoint skip_loop (n : nat) (packet : list Z) (pos : nat) : option (option nat) :=
  match n with
  | O => None
  | S n =>
    if (pos <? length packet)%nat then
      len ← packet !! pos;
      if len =? 0 then Some (Some (pos + 1)%nat)
      else if Z.land len 192 =? 192 then
        Some (if (pos + 2 <=? length packet)%nat then Some (pos + 2)%nat else None)
      else if negb (Z.land len 192 =? 0) then Some None
      else skip_loop n packet (pos + 1 + Z.to_nat len)
    else Some None
  end.

(** Every round gets further into the packet. *)
Definition skipName (packet : list Z) (start : nat) : option (option nat) :=
  skip_loop (S (length packet)) packet start.

Definition MAX_JUMPS : nat := 16.

(** out[len] = c: [out] is what has been written, of 256 bytes. *)
Definition put (out : list Z) (c : Z) : option (list Z) :=
  if (length out <? 256)%nat then Some (out ++ [c]) else None.

(** The characters of a label, none of them outside printable ASCII. *)
Fixpoint copy_chars (chars out : list Z) : option (option (list Z)) :=
  match chars with
  | [] => Some (Some out)
  | c :: chars =>
    if (c <? 32) || (c >? 126) then Some None
    else out ← put out c; copy_chars chars out
  end.

(** decodeName's loop; [n] bounds its rounds. *)
Fixpoint decode_loop (n : nat) (packet : list Z) (pos : nat) (out : list Z) (jumps : nat)
    : option (option (list Z)) :=
  match n with
  | O => None
  | S n =>
    if (length packet <=? pos)%nat then Some None
    else
      label_len ← packet !! pos;
      if label_len =? 0 then Some (if (length out =? 0)%nat then None else Some out)
      else if Z.land label_len 192 =? 192 then
        if (length packet <=? pos + 1)%nat || (jumps =? MAX_JUMPS)%nat then Some None
        else
          low ← packet !! (pos + 1)%nat;
          decode_loop n packet (Z.to_nat (Z.lor (Z.shiftl (Z.land label_len 63) 8) low)) out (S jumps)
      else if negb (Z.land label_len 192 =? 0) then Some None
      else
        let label_end := (pos + 1 + Z.to_nat label_len)%nat in
        if (length packet <? label_end)%nat then Some None
        else
          let dot := if (0 <? length out)%nat then 1%nat else 0%nat in
          if (256 <? length out + dot + Z.to_nat label_len)%nat then Some None
          else
            out ← (if (dot =? 1)%nat then put out 46 else Some out);
            chars ← slice packet (pos + 1) label_end;
            written ← copy_chars chars out;
            match written with
            | None => Some None
            | Some out => decode_loop n packet label_end out jumps
            end
  end.

(** At most 17 stretches without a jump, none longer than the packet. *)
Definition decodeName (packet : list Z) (start : nat) : option (option (list Z)) :=
  decode_loop (17 * S (length packet)) packet start [] 0.

(** ** hostName *)

(** The loop over the questions: where the records start. *)
Fixpoint skip_questions (n : nat) (packet : list Z) (pos : nat) : option (option nat) :=
  match n with
  | O => Some (Some pos)
  | S n =>
    next ← skipName packet pos;
    match next with
    | None => Some None
    | Some pos => skip_questions n packet (pos + 4)
    end
  end.

(** What one record gives: the answer, or the name to go on with. *)
Definition read_record (packet : list Z) (from : ip4) (reverse : list Z) (owner_pos rdata rdlen : nat)
    (rtype : Z) (by_address : option (list Z)) : option (option (list Z) + option (list Z)) :=
  if rtype =? DNS_TYPE_PTR then
    owner ← decodeName packet owner_pos;
    match owner with
    | None => Some (inl by_address)
    | Some owner =>
      if negb (eqlIgnoreCase owner reverse) then Some (inl by_address)
      else name ← decodeName packet rdata; Some (inr name)
    end
  else if (rtype =? DNS_TYPE_A) && (rdlen =? 4)%nat && bool_decide (by_address = None) then
    address ← slice packet rdata (rdata + 4);
    if bool_decide (address = ip_bytes from) then name ← decodeName packet owner_pos; Some (inl name)
    else Some (inl by_address)
  else Some (inl by_address).

(** The loop over the records. *)
Fixpoint read_records (n : nat) (packet : list Z) (from : ip4) (reverse : list Z) (pos : nat)
    (by_address : option (list Z)) : option (option (list Z)) :=
  match n with
  | O => Some by_address
  | S n =>
    if (length packet <? pos)%nat then Some None
    else
      next ← skipName packet pos;
      match next with
      | None => Some None
      | Some fixed =>
        if (length packet <? fixed + 10)%nat then Some None
        else
          rtype ← readU16 packet fixed;
          rdlen ← readU16 packet (fixed + 8);
          let rdata := (fixed + 10)%nat in
          let after := (rdata + Z.to_nat rdlen)%nat in
          if (length packet <? after)%nat then Some None
          else
            r ← read_record packet from reverse pos rdata (Z.to_nat rdlen) rtype by_address;
            match r with
            | inr name => Some name
            | inl by_address => read_records n packet from reverse after by_address
            end
      end
  end.

(** The name compared with, in its buffer of 32 bytes. *)
Definition reverse_name (from : ip4) : option (list Z) :=
  if (length (ptr_name from) <=? 32)%nat then Some (ptr_name from) else None.

Definition hostName (packet : list Z) (from : ip4) : option (option (list Z)) :=
  if (length packet <? DNS_HEADER_LEN)%nat then Some None
  else
    qdcount ← readU16 packet 4;
    ancount ← readU16 packet 6;
    nscount ← readU16 packet 8;
    arcount ← readU16 packet 10;
    reverse ← reverse_name from;
    start ← skip_questions (Z.to_nat qdcount) packet DNS_HEADER_LEN;
    match start with
    | None => Some None
    | Some pos => read_records (Z.to_nat (ancount + nscount + arcount)) packet from reverse pos None
    end.

(** ** What a name is *)

Definition printable (c : Z) : Prop := 32 <= c <= 126.

Definition printableb (c : Z) : bool := negb ((c <? 32) || (c >? 126)).

Lemma printableb_spec c : printableb c = true ↔ printable c.
Proof. unfold printableb, printable. rewrite negb_true_iff, orb_false_iff, Z.gtb_ltb, !Z.ltb_ge. lia. Qed.

Lemma printableb_all l : forallb printableb l = true ↔ Forall printable l.
Proof. rewrite forallb_forall, Forall_forall. setoid_rewrite printableb_spec. by setoid_rewrite list_elem_of_In. Qed.

(** One more label of a dotted name. *)
Definition extend (out label : list Z) : list Z :=
  (if (0 <? length out)%nat then out ++ [46] else out) ++ label.

Definition dotted (labels : list (list Z)) : list Z := foldl extend [] labels.

(** A label as RFC 1035 has it, of characters that are safe to print. *)
Definition label_ok (label : list Z) : Prop := (0 < length label < 64)%nat ∧ Forall printable label.

(** [name_at packet pos jumps labels]: the labels that spell the name at
    [pos] of a packet, with so many compression pointers on the way. *)
Inductive name_at (packet : list Z) : nat → nat → list (list Z) → Prop :=
| name_end pos : packet !! pos = Some 0 → name_at packet pos 0 []
| name_label pos label labels jumps :
    label_ok label → packet !! pos = Some (Z.of_nat (length label)) →
    slice packet (pos + 1) (pos + 1 + length label) = Some label →
    name_at packet (pos + 1 + length label) jumps labels → name_at packet pos jumps (label :: labels)
| name_jump pos high low jumps labels :
    packet !! pos = Some high → packet !! (pos + 1)%nat = Some low → Z.land high 192 = 192 →
    name_at packet (Z.to_nat (Z.lor (Z.shiftl (Z.land high 63) 8) low)) jumps labels →
    name_at packet pos (S jumps) labels.

(** A name that is handed out: not empty, within its buffer, printable. *)
Definition name_ok (name : list Z) : Prop := name ≠ [] ∧ (length name ≤ 256)%nat ∧ Forall printable name.

Lemma copy_chars_value chars : ∀ out,
  (length out + length chars ≤ 256)%nat →
  copy_chars chars out = Some (if forallb printableb chars then Some (out ++ chars) else None).
Proof.
  induction chars as [|c chars IH]; intros out Hlen; simpl in *; [by rewrite app_nil_r|].
  unfold printableb at 1. destruct (_ || _); simpl; [done|]. unfold put.
  rewrite (proj2 (Nat.ltb_lt _ _)) by lia. simpl. rewrite IH by (rewrite length_app; simpl; lia).
  by rewrite <- app_assoc.
Qed.

(** The bit tests of a length byte. *)
Lemma length_byte b : is_u8 b → Z.land b 192 = 0 ↔ b < 64.
Proof.
  intros Hb. change 192 with (Z.shiftl 3 6). unfold is_u8 in Hb.
  assert (Z.land b (Z.shiftl 3 6) = Z.shiftl (Z.land (Z.shiftr b 6) 3) 6) as ->.
  { apply Z.bits_inj'. intros n Hn. rewrite !Z.land_spec, !Z.shiftl_spec, Z.land_spec by lia.
    destruct (decide (6 <= n)); [by rewrite Z.shiftr_spec, Z.sub_add by lia|].
    rewrite (Z.testbit_neg_r 3) by lia. by rewrite !andb_false_r. }
  change 3 with (Z.ones 2). rewrite Z.land_ones, Z.shiftl_mul_pow2, Z.shiftr_div_pow2 by lia.
  change (2 ^ 6) with 64. change (2 ^ 2) with 4.
  rewrite Z.mod_small by (split; [apply Z.div_pos|apply Z.div_lt_upper_bound]; lia).
  pose proof (Z.div_mod b 64). pose proof (Z.mod_pos_bound b 64). split; [intros; lia|].
  intros. by rewrite Z.div_small by lia.
Qed.

(** ** Reading never leaves the packet *)

Lemma skip_loop_total packet : ∀ n pos,
  (length packet - pos < n)%nat →
  ∃ r, skip_loop n packet pos = Some r ∧ ∀ p, r = Some p → (pos < p ≤ length packet)%nat.
Proof.
  induction n as [|n IH]; intros pos Hn; [lia|]. cbn [skip_loop].
  destruct (pos <? length packet)%nat eqn:Hp; to_prop; [|by exists None].
  destruct (lookup_some packet pos Hp) as [len Hlen]. rewrite Hlen. cbn [mbind option_bind].
  destruct (len =? 0); [eexists; split; [done|]; intros p [= <-]; lia|].
  destruct (_ =? 192).
  { eexists. split; [done|]. intros p. destruct (_ <=? _)%nat eqn:Hl; [|done]. to_prop. intros [= <-]. lia. }
  destruct (negb _); [by exists None|].
  destruct (IH (pos + 1 + Z.to_nat len)%nat) as (r & Hr & Hpos); [lia|].
  exists r. split; [done|]. intros p Hx. specialize (Hpos p Hx). lia.
Qed.

Lemma skipName_total packet start :
  ∃ r, skipName packet start = Some r ∧ ∀ p, r = Some p → (start < p ≤ length packet)%nat.
Proof. apply skip_loop_total. lia. Qed.

Lemma extend_ok out label :
  Forall printable out → Forall printable label → Forall printable (extend out label).
Proof.
  intros Ho Hl. unfold extend. apply Forall_app. split; [|done]. destruct (_ <? _)%nat; [|done].
  apply Forall_app. split; [done|]. apply Forall_singleton. unfold printable. lia.
Qed.

Lemma extend_length out label :
  length (extend out label) = (length out + (if (0 <? length out)%nat then 1 else 0) + length label)%nat.
Proof. unfold extend. destruct (_ <? _)%nat; rewrite !length_app; simpl; lia. Qed.

(** What a round makes of a label that is inside the packet and fits. *)
Lemma decode_label n packet pos out jumps b :
  is_u8 b → packet !! pos = Some b → b ≠ 0 → Z.land b 192 = 0 →
  decode_loop (S n) packet pos out jumps =
    match slice packet (pos + 1) (pos + 1 + Z.to_nat b) with
    | None => Some None
    | Some label =>
      if (256 <? length (extend out label))%nat || negb (forallb printableb label) then Some None
      else decode_loop n packet (pos + 1 + Z.to_nat b) (extend out label) jumps
    end.
Proof.
  intros Hb Hp Hz Hl. pose proof (lookup_lt_Some _ _ _ Hp). cbn [decode_loop].
  rewrite (proj2 (Nat.leb_gt _ _)) by done. rewrite Hp. cbn [mbind option_bind].
  rewrite (proj2 (Z.eqb_neq _ _) Hz), Hl. simpl. cbv zeta.
  destruct (length packet <? _)%nat eqn:Hend; to_prop.
  { unfold slice. rewrite (proj2 (Nat.leb_gt _ (length packet))) by lia. by rewrite andb_false_r. }
  destruct (slice_some packet (pos + 1) (pos + 1 + Z.to_nat b)) as (label & Hs & Hlen); [lia|done|].
  rewrite Hs. assert (length label = Z.to_nat b) as Hlen' by lia.
  assert (length (extend out label) = length out + (if (0 <? length out)%nat then 1 else 0) + Z.to_nat b)%nat as Hext
    by by rewrite extend_length, Hlen'.
  rewrite Hext. destruct (256 <? _)%nat eqn:Hroom; [done|]. to_prop. cbn [orb].
  assert ((if ((if (0 <? length out)%nat then 1%nat else 0%nat) =? 1)%nat then put out 46 else Some out) =
    Some (if (0 <? length out)%nat then out ++ [46] else out)) as Hdot.
  { destruct (0 <? length out)%nat; [|done]. unfold put. by rewrite (proj2 (Nat.ltb_lt _ _)) by (simpl; lia). }
  rewrite Hdot. cbn [mbind option_bind]. cbn [mbind option_bind] in Hs.
  rewrite copy_chars_value.
  - cbn [mbind option_bind]. unfold extend. by destruct (forallb printableb label).
  - destruct (0 <? length out)%nat; rewrite ?length_app; simpl in *; lia.
Qed.

Lemma decode_loop_total packet : bytes packet → ∀ n pos out jumps,
  Forall printable out → (length out ≤ 256)%nat → (jumps ≤ MAX_JUMPS)%nat →
  ((MAX_JUMPS - jumps) * S (length packet) + (length packet - pos) < n)%nat →
  ∃ r, decode_loop n packet pos out jumps = Some r ∧ ∀ name, r = Some name → name_ok name.
Proof.
  intros Hb. induction n as [|n IH]; intros pos out jumps Ho Hlen Hj Hn; [by apply Nat.nlt_0_r in Hn|].
  destruct (decide (pos < length packet)%nat) as [Hp|Hp].
  2:{ exists None. split; [|done]. cbn [decode_loop]. by rewrite (proj2 (Nat.leb_le _ _)) by lia. }
  destruct (lookup_some packet pos Hp) as [b Hpos]. pose proof (bytes_lookup _ _ _ Hb Hpos) as Hu.
  destruct (decide (b ≠ 0 ∧ Z.land b 192 = 0)) as [[Hz Hl]|Hother].
  - rewrite (decode_label n packet pos out jumps b) by done.
    destruct (slice packet (pos + 1) _) as [label|] eqn:Hs; [|by exists None].
    destruct (_ || _) eqn:Hbad; [by exists None|]. apply orb_false_iff in Hbad as [Hroom Hpr].
    apply negb_false_iff, printableb_all in Hpr. to_prop. apply slice_length in Hs as (_ & _ & Hend).
    apply IH; [by apply extend_ok|lia|done|]. clear -Hn Hp Hend. set (k := (_ * S _)%nat) in *. lia.
  - cbn [decode_loop]. rewrite (proj2 (Nat.leb_gt _ _)) by done. rewrite Hpos. cbn [mbind option_bind].
    destruct (b =? 0) eqn:Hz; to_prop.
    { eexists. split; [done|]. intros name Hx. destruct out; simplify_eq/=. by repeat split. }
    destruct (Z.land b 192 =? 192); [|destruct (Z.land b 192 =? 0) eqn:Hl; to_prop; [by destruct Hother|by exists None]].
    destruct (_ || _) eqn:Hstop; [by exists None|]. apply orb_false_iff in Hstop as [Hlow Hjumps]. to_prop.
    destruct (lookup_some packet (pos + 1) Hlow) as [low Hlw]. rewrite Hlw. cbn [mbind option_bind].
    apply IH; [done|done|lia|]. assert (MAX_JUMPS - jumps = S (MAX_JUMPS - S jumps))%nat as Heq by lia.
    rewrite Heq in Hn. rewrite Nat.mul_succ_l in Hn. set (k := (_ * S _)%nat) in *. lia.
Qed.

Lemma decodeName_total packet start :
  bytes packet → ∃ r, decodeName packet start = Some r ∧ ∀ name, r = Some name → name_ok name.
Proof.
  intros Hb. apply decode_loop_total; [done|constructor|simpl; lia|unfold MAX_JUMPS; lia|].
  unfold MAX_JUMPS. lia.
Qed.

(** ** Names, exactly *)

Lemma foldl_extend_length labels : ∀ out, (length out ≤ length (foldl extend out labels))%nat.
Proof.
  induction labels as [|label labels IH]; intros out; simpl; [done|].
  etrans; [|apply IH]. rewrite extend_length. lia.
Qed.

Lemma label_byte packet pos b label :
  is_u8 b → b ≠ 0 → Z.land b 192 = 0 → slice packet (pos + 1) (pos + 1 + Z.to_nat b) = Some label →
  Forall printable label → label_ok label ∧ Z.of_nat (length label) = b.
Proof.
  intros Hb Hz Hl Hs Hp. apply length_byte in Hl; [|done]. apply slice_length in Hs as (Hlen & _).
  unfold is_u8 in Hb. split; [split; [lia|done]|lia].
Qed.

Lemma decode_loop_sound packet name : bytes packet → ∀ n pos out jumps,
  (length out ≤ 256)%nat → (jumps ≤ MAX_JUMPS)%nat → decode_loop n packet pos out jumps = Some (Some name) →
  ∃ k labels, name_at packet pos k labels ∧ (jumps + k ≤ MAX_JUMPS)%nat ∧ foldl extend out labels = name ∧
    (length name ≤ 256)%nat ∧ name ≠ [].
Proof.
  intros Hb. induction n as [|n IH]; intros pos out jumps Hlen Hj Hr; [done|].
  destruct (decide (pos < length packet)%nat) as [Hp|Hp].
  2:{ cbn [decode_loop] in Hr. by rewrite (proj2 (Nat.leb_le _ _)) in Hr by lia. }
  destruct (lookup_some packet pos Hp) as [b Hpos]. pose proof (bytes_lookup _ _ _ Hb Hpos) as Hu.
  destruct (decide (b ≠ 0 ∧ Z.land b 192 = 0)) as [[Hz Hl]|Hother].
  - rewrite (decode_label n packet pos out jumps b) in Hr by done.
    destruct (slice packet (pos + 1) _) as [label|] eqn:Hs; [|done].
    destruct (_ || _) eqn:Hbad; [done|]. apply orb_false_iff in Hbad as [Hroom Hpr].
    apply negb_false_iff, printableb_all in Hpr. to_prop.
    destruct (label_byte packet pos b label) as [Hok Hlb]; [done..|].
    apply IH in Hr as (k & labels & Hn & Hk & Hf & ?); [|lia|done].
    exists k, (label :: labels). split; [|done].
    assert (Z.to_nat b = length label) as Heq by lia. rewrite Heq in *. by apply name_label; [|rewrite Hlb| |].
  - cbn [decode_loop] in Hr. rewrite (proj2 (Nat.leb_gt _ _)) in Hr by done. rewrite Hpos in Hr.
    cbn [mbind option_bind] in Hr. destruct (b =? 0) eqn:Hz; to_prop.
    { exists 0%nat, []. subst b. destruct out as [|c out]; [done|]. injection Hr as <-.
      split; [by apply name_end|]. split; [lia|]. split; [done|]. split; [done|done]. }
    destruct (Z.land b 192 =? 192) eqn:Hjmp; [|destruct (Z.land b 192 =? 0) eqn:Hl; to_prop; [by destruct Hother|done]].
    destruct (_ || _) eqn:Hstop; [done|]. apply orb_false_iff in Hstop as [Hlow Hjumps]. to_prop.
    destruct (lookup_some packet (pos + 1) Hlow) as [low Hlw]. rewrite Hlw in Hr. cbn [mbind option_bind] in Hr.
    apply IH in Hr as (k & labels & Hn & Hk & Hf & ?); [|done|lia].
    exists (S k), labels. split; [by eapply name_jump|]. split; [lia|done].
Qed.

Lemma decode_loop_complete packet : bytes packet → ∀ pos k labels, name_at packet pos k labels → ∀ n out jumps r,
  (jumps + k ≤ MAX_JUMPS)%nat → (length (foldl extend out labels) ≤ 256)%nat →
  decode_loop n packet pos out jumps = Some r →
  r = if (length (foldl extend out labels) =? 0)%nat then None else Some (foldl extend out labels).
Proof.
  intros Hb pos k labels Hn.
  induction Hn as [pos Hz|pos label labels k [Hll Hpr] Hp Hs _ IH|pos high low k labels Hh Hlo Hm _ IH];
    intros [|n] out jumps r Hj Hlen Hr; try done.
  - cbn [decode_loop] in Hr. pose proof (lookup_lt_Some _ _ _ Hz).
    rewrite (proj2 (Nat.leb_gt _ _)), Hz in Hr by done. by injection Hr as <-.
  - pose proof (bytes_lookup _ _ _ Hb Hp) as Hu.
    rewrite (decode_label n packet pos out jumps (Z.of_nat (length label))) in Hr; [|done..| |].
    2:{ lia. }
    2:{ apply length_byte; [done|lia]. }
    rewrite Nat2Z.id, Hs in Hr. simpl in Hlen. pose proof (foldl_extend_length labels (extend out label)).
    rewrite (proj2 (Nat.ltb_ge _ _)) in Hr by lia. rewrite (proj2 (printableb_all label)) in Hr by done.
    simpl in Hr. by eapply IH in Hr.
  - cbn [decode_loop] in Hr. pose proof (lookup_lt_Some _ _ _ Hh). pose proof (lookup_lt_Some _ _ _ Hlo).
    rewrite (proj2 (Nat.leb_gt _ _)), Hh in Hr by done. cbn [mbind option_bind] in Hr.
    assert (high ≠ 0) as Hne by (intros ->; done).
    rewrite (proj2 (Z.eqb_neq _ _) Hne), Hm in Hr. simpl in Hr.
    rewrite (proj2 (Nat.leb_gt (length packet) _)), (proj2 (Nat.eqb_neq _ _)), Hlo in Hr by lia.
    simpl in Hr. eapply IH in Hr; [done|lia|done].
Qed.

Lemma dotted_empty labels : Forall label_ok labels → dotted labels = [] → labels = [].
Proof.
  intros Hok Hd. destruct labels as [|label labels]; [done|]. apply Forall_cons in Hok as [[Hl _] _].
  pose proof (foldl_extend_length labels (extend [] label)) as Hle. unfold dotted in Hd. simpl in Hd.
  rewrite Hd, extend_length in Hle. simpl in Hle. lia.
Qed.

Lemma name_at_ok packet pos k labels : name_at packet pos k labels → Forall label_ok labels.
Proof. induction 1; [constructor|by constructor|done]. Qed.

Lemma decodeName_iff packet start name :
  bytes packet →
  decodeName packet start = Some (Some name) ↔
  ∃ jumps labels, name_at packet start jumps labels ∧ (jumps ≤ MAX_JUMPS)%nat ∧ labels ≠ [] ∧
    dotted labels = name ∧ (length name ≤ 256)%nat.
Proof.
  intros Hb. split.
  - intros Hr. apply decode_loop_sound in Hr as (k & labels & Hn & Hk & Hf & Hlen & Hne); [|done|simpl; lia|lia].
    exists k, labels. split; [done|]. split; [lia|]. split; [|done]. intros ->. by destruct Hne.
  - intros (k & labels & Hn & Hk & Hne & Hd & Hlen).
    destruct (decodeName_total packet start Hb) as (r & Hr & _). rewrite Hr. f_equal.
    eapply decode_loop_complete in Hr; [|done|exact Hn|lia|by subst name].
    fold (dotted labels) in Hr. rewrite Hd in Hr. rewrite Hr.
    destruct (length name =? 0)%nat eqn:Hz; [|done]. to_prop. apply nil_length_inv in Hz. subst name.
    apply dotted_empty in Hz; [done|by eapply name_at_ok].
Qed.

(** C37: names.  Reading a name never leaves the packet and always ends; it
    hands one out exactly when the bytes spell a sequence of labels of
    printable characters, through at most 16 compression pointers, and that
    name, dotted, fits the buffer. *)
Theorem decodeName_exact packet start :
  bytes packet →
  ∃ r, decodeName packet start = Some r ∧
    ∀ name, r = Some name ↔
      ∃ jumps labels, name_at packet start jumps labels ∧ (jumps ≤ MAX_JUMPS)%nat ∧ labels ≠ [] ∧
        dotted labels = name ∧ (length name ≤ 256)%nat.
Proof.
  intros Hb. destruct (decodeName_total packet start Hb) as (r & Hr & _). exists r. split; [done|].
  intros name. rewrite <- decodeName_iff by done. rewrite Hr. naive_solver.
Qed.

(** ** Replies, from their parts *)

(** A name written out, without pointers. *)
Definition encode_name (labels : list (list Z)) : list Z := encode_labels labels ++ [0].

Inductive rdata :=
| RPtr (name : list (list Z))
| RAddr (ip : ip4)
| ROther (rtype : Z) (data : list Z).

(** [r_fixed] is the class and the time to live. *)
Record record := { r_owner : list (list Z); r_fixed : list Z; r_data : rdata }.

Definition rdata_type (d : rdata) : Z :=
  match d with RPtr _ => DNS_TYPE_PTR | RAddr _ => DNS_TYPE_A | ROther t _ => t end.

Definition rdata_bytes (d : rdata) : list Z :=
  match d with RPtr name => encode_name name | RAddr ip => ip_bytes ip | ROther _ data => data end.

Definition encode_record (r : record) : list Z :=
  encode_name (r_owner r) ++ be16 (rdata_type (r_data r)) ++ r_fixed r
    ++ be16 (Z.of_nat (length (rdata_bytes (r_data r)))) ++ rdata_bytes (r_data r).

(** A question: its name, type and class. *)
Definition encode_question (q : list (list Z) * list Z) : list Z := encode_name q.1 ++ q.2.

(** A message: id and flags, the questions, and the records of its three
    sections, of which the last two have [ns] and [ar]. *)
Record message := {
  m_start : list Z;
  m_questions : list (list (list Z) * list Z);
  m_ns : nat;
  m_ar : nat;
  m_records : list record
}.

Definition encode_message (m : message) : list Z :=
  m_start m ++ be16 (Z.of_nat (length (m_questions m)))
    ++ be16 (Z.of_nat (length (m_records m) - m_ns m - m_ar m)) ++ be16 (Z.of_nat (m_ns m))
    ++ be16 (Z.of_nat (m_ar m))
    ++ concat (map encode_question (m_questions m)) ++ concat (map encode_record (m_records m)).

Definition name_fits (labels : list (list Z)) : Prop :=
  Forall label_ok labels ∧ (length (dotted labels) ≤ 256)%nat.

Definition rdata_ok (d : rdata) : Prop :=
  match d with
  | RPtr name => name_fits name
  | RAddr ip => ip_ok ip
  | ROther t data => is_u16 t ∧ t ≠ DNS_TYPE_PTR ∧ (t = DNS_TYPE_A → length data ≠ 4%nat) ∧ bytes data ∧
      Z.of_nat (length data) < 65536
  end.

Definition record_ok (r : record) : Prop :=
  name_fits (r_owner r) ∧ bytes (r_fixed r) ∧ length (r_fixed r) = 6%nat ∧ rdata_ok (r_data r) ∧
  Z.of_nat (length (rdata_bytes (r_data r))) < 65536.

Record message_ok (m : message) : Prop := {
  mo_start : bytes (m_start m) ∧ length (m_start m) = 4%nat;
  mo_questions : Forall (λ q, Forall label_ok q.1 ∧ bytes q.2 ∧ length q.2 = 4%nat) (m_questions m);
  mo_records : Forall record_ok (m_records m);
  mo_counts : Z.of_nat (length (m_questions m)) < 65536 ∧ Z.of_nat (length (m_records m)) < 65536 ∧
    (m_ns m + m_ar m ≤ length (m_records m))%nat
}.

(** Whose name a reply tells: that of the first answer to the reverse query,
    or else of the first record of the address. *)
Definition name_of (labels : list (list Z)) : option (list Z) :=
  match labels with [] => None | _ => Some (dotted labels) end.

Fixpoint told_name (from : ip4) (records : list record) (by_address : option (list Z)) : option (list Z) :=
  match records with
  | [] => by_address
  | r :: records =>
    match r_data r with
    | RPtr name =>
      match name_of (r_owner r) with
      | Some owner =>
        if eqlIgnoreCase owner (ptr_name from) then name_of name else told_name from records by_address
      | None => told_name from records by_address
      end
    | RAddr ip =>
      if bool_decide (by_address = None ∧ ip = from)
      then told_name from records (name_of (r_owner r)) else told_name from records by_address
    | ROther _ _ => told_name from records by_address
    end
  end.

(** *** Names in their place *)

Lemma label_ok_bytes label : label_ok label → bytes (encode_label label).
Proof.
  intros [Hl Hp]. apply bytes_cons; [unfold is_u8; lia|]. eapply Forall_impl; [exact Hp|].
  unfold printable, is_u8. lia.
Qed.

Lemma encode_name_bytes labels : Forall label_ok labels → bytes (encode_name labels).
Proof.
  intros Hl. apply bytes_app; [|apply Forall_singleton; unfold is_u8; lia].
  induction Hl as [|label labels Ho _ IH]; [constructor|]. apply bytes_app; [by apply label_ok_bytes|done].
Qed.

Lemma readU16_at pre v post : is_u16 v → readU16 (pre ++ be16 v ++ post) (length pre) = Some v.
Proof.
  intros Hv. unfold readU16. rewrite (lookup_app_r pre _ (length pre)), (lookup_app_r pre _ (S (length pre))) by lia.
  rewrite Nat.sub_diag. replace (S (length pre) - length pre)%nat with 1%nat by lia. simpl.
  by rewrite get_be16_be16, u16_id.
Qed.

Lemma skip_loop_name post labels : Forall label_ok labels → ∀ pre n r,
  skip_loop n (pre ++ encode_name labels ++ post) (length pre) = Some r →
  r = Some (length pre + length (encode_name labels))%nat.
Proof.
  intros Hl. induction Hl as [|label labels [Hlen Hp] _ IH]; intros pre [|n] r Hr; try done; cbn [skip_loop] in Hr.
  - change (encode_name [] ++ post) with (0 :: post) in Hr.
    rewrite (proj2 (Nat.ltb_lt _ _)) in Hr by (rewrite length_app; simpl; lia).
    rewrite lookup_app_r, Nat.sub_diag in Hr by lia. simpl in Hr. by injection Hr as <-.
  - assert (pre ++ encode_name (label :: labels) ++ post = (pre ++ encode_label label) ++ encode_name labels ++ post)
      as Heq by (unfold encode_name, encode_labels; simpl; by rewrite <- !app_assoc).
    assert ((pre ++ encode_name (label :: labels) ++ post) !! length pre = Some (Z.of_nat (length label))) as Hb
      by by apply list_lookup_middle.
    set (packet := pre ++ encode_name (label :: labels) ++ post) in *. clearbody packet.
    pose proof (lookup_lt_Some _ _ _ Hb). rewrite (proj2 (Nat.ltb_lt _ _)), Hb in Hr by done.
    cbn [mbind option_bind] in Hr. rewrite (proj2 (Z.eqb_neq _ _)) in Hr by lia.
    assert (Z.land (Z.of_nat (length label)) 192 = 0) as Hbits by (apply length_byte; unfold is_u8; lia).
    rewrite Hbits in Hr. simpl in Hr. rewrite Nat2Z.id, Heq in Hr.
    replace (length pre + 1 + length label)%nat with (length (pre ++ encode_label label)) in Hr
      by (rewrite length_app; simpl; lia).
    apply IH in Hr. rewrite Hr. f_equal. unfold encode_name, encode_labels. simpl.
    rewrite ?length_app. simpl. rewrite ?length_app. simpl. lia.
Qed.

Lemma skipName_at pre labels post :
  Forall label_ok labels →
  skipName (pre ++ encode_name labels ++ post) (length pre) = Some (Some (length pre + length (encode_name labels))%nat).
Proof.
  intros Hl. destruct (skipName_total (pre ++ encode_name labels ++ post) (length pre)) as (r & Hr & _).
  rewrite Hr. f_equal. by eapply skip_loop_name.
Qed.

Lemma name_at_encoded labels post : Forall label_ok labels → ∀ pre,
  name_at (pre ++ encode_name labels ++ post) (length pre) 0 labels.
Proof.
  intros Hl. induction Hl as [|label labels Hok _ IH]; intros pre.
  - apply name_end. by apply list_lookup_middle.
  - assert (pre ++ encode_name (label :: labels) ++ post = (pre ++ encode_label label) ++ encode_name labels ++ post)
      as Heq by (unfold encode_name, encode_labels; simpl; by rewrite <- !app_assoc).
    apply name_label; [done|by apply list_lookup_middle| |].
    + assert (pre ++ encode_name (label :: labels) ++ post =
        (pre ++ [Z.of_nat (length label)]) ++ label ++ encode_name labels ++ post) as ->
        by (rewrite Heq; unfold encode_label; by rewrite <- !app_assoc).
      pose proof (slice_app (pre ++ [Z.of_nat (length label)]) label (encode_name labels ++ post)) as Hs.
      by rewrite length_app in Hs.
    + rewrite Heq. specialize (IH (pre ++ encode_label label)).
      by replace (length (pre ++ encode_label label)) with (length pre + 1 + length label)%nat in IH
        by (rewrite length_app; simpl; lia).
Qed.

Lemma decodeName_at pre labels post :
  bytes (pre ++ encode_name labels ++ post) → name_fits labels →
  decodeName (pre ++ encode_name labels ++ post) (length pre) = Some (name_of labels).
Proof.
  intros Hb [Hl Hd]. destruct labels as [|label labels].
  - destruct (decodeName_total _ (length pre) Hb) as (r & Hr & _). rewrite Hr. f_equal.
    eapply (decode_loop_complete _ Hb _ 0 []) in Hr; [done|by apply name_at_encoded|lia|simpl; lia].
  - apply decodeName_iff; [done|]. exists 0%nat, (label :: labels). split; [by apply name_at_encoded|].
    split; [lia|]. by split.
Qed.

(** *** Host names *)

(** What has been found so far is a name. *)
Definition found_ok (name : option (list Z)) : Prop := ∀ n, name = Some n → name_ok n.

Lemma ptr_name_fits from : ip_ok from → reverse_name from = Some (ptr_name from).
Proof.
  intros (Ha & Hb & Hc & Hd)%ip_ok_bytes. unfold reverse_name, ptr_name.
  destruct (fmt_u_byte _ Ha), (fmt_u_byte _ Hb), (fmt_u_byte _ Hc), (fmt_u_byte _ Hd).
  rewrite (proj2 (Nat.leb_le _ _)); [done|]. rewrite !length_app. simpl. lia.
Qed.

Lemma readU16_some packet pos : bytes packet → (pos + 1 < length packet)%nat → ∃ v, readU16 packet pos = Some v ∧ 0 <= v.
Proof.
  intros Hb Hp. unfold readU16. destruct (lookup_some packet pos) as [hi Hhi]; [lia|].
  destruct (lookup_some packet (S pos)) as [lo Hlo]; [lia|]. rewrite Hhi, Hlo. cbn [mbind option_bind].
  eexists. split; [done|]. pose proof (bytes_lookup _ _ _ Hb Hhi). pose proof (bytes_lookup _ _ _ Hb Hlo).
  rewrite get_be16_val by done. unfold is_u8 in *. lia.
Qed.

Lemma read_record_total packet from rev owner_pos rdata rdlen rtype by_address :
  bytes packet → (rdata + rdlen ≤ length packet)%nat → found_ok by_address →
  ∃ r, read_record packet from rev owner_pos rdata rdlen rtype by_address = Some r ∧
    match r with inl by_address => found_ok by_address | inr name => found_ok name end.
Proof.
  intros Hb Hlen Hby. unfold read_record. destruct (decodeName_total packet owner_pos Hb) as (owner & Ho & Hok).
  destruct (rtype =? DNS_TYPE_PTR).
  - rewrite Ho. cbn [mbind option_bind]. destruct owner as [owner|]; [|by eexists].
    destruct (negb _); [by eexists|]. destruct (decodeName_total packet rdata Hb) as (name & Hn & Hnok).
    rewrite Hn. cbn [mbind option_bind]. by eexists.
  - destruct (_ && _) eqn:Ha; [|by eexists]. to_prop.
    destruct (slice_some packet rdata (rdata + 4)) as (s & Hs & _); [lia|lia|]. rewrite Hs. cbn [mbind option_bind].
    case_bool_decide; [|by eexists]. rewrite Ho. cbn [mbind option_bind]. by eexists.
Qed.

Lemma read_records_total packet from rev : bytes packet → ∀ n pos by_address, found_ok by_address →
  ∃ r, read_records n packet from rev pos by_address = Some r ∧ found_ok r.
Proof.
  intros Hb. induction n as [|n IH]; intros pos by_address Hby; cbn [read_records]; [by eexists|].
  destruct (length packet <? pos)%nat; [by exists None|].
  destruct (skipName_total packet pos) as (next & Hs & Hnext). rewrite Hs. cbn [mbind option_bind].
  destruct next as [fixed|]; [|by exists None]. destruct (_ <? fixed + 10)%nat eqn:Hf; to_prop; [by exists None|].
  destruct (readU16_some packet fixed Hb) as (rtype & Ht & _); [lia|].
  destruct (readU16_some packet (fixed + 8) Hb) as (rdlen & Hl & Hpos); [lia|]. rewrite Ht, Hl. cbn [mbind option_bind].
  destruct (length packet <? _)%nat eqn:Hend; to_prop; [by exists None|].
  destruct (read_record_total packet from rev pos (fixed + 10) (Z.to_nat rdlen) rtype by_address) as (r & Hr & Hok);
    [done|lia|done|]. rewrite Hr. cbn [mbind option_bind]. destruct r as [by'|name]; [by apply IH|by eexists].
Qed.

Lemma skip_questions_total packet n : ∀ pos, ∃ r, skip_questions n packet pos = Some r.
Proof.
  induction n as [|n IH]; intros pos; cbn [skip_questions]; [by eexists|].
  destruct (skipName_total packet pos) as (next & Hs & _). rewrite Hs. cbn [mbind option_bind].
  destruct next; [apply IH|by eexists].
Qed.

Lemma hostName_total packet from :
  bytes packet → ip_ok from →
  ∃ r, hostName packet from = Some r ∧ ∀ name, r = Some name → name_ok name.
Proof.
  intros Hb Hip. unfold hostName. destruct (_ <? DNS_HEADER_LEN)%nat eqn:Hlen; [by exists None|].
  unfold DNS_HEADER_LEN in *. to_prop.
  destruct (readU16_some packet 4 Hb) as (qd & -> & _); [lia|]. destruct (readU16_some packet 6 Hb) as (an & -> & _); [lia|].
  destruct (readU16_some packet 8 Hb) as (ns & -> & _); [lia|]. destruct (readU16_some packet 10 Hb) as (ar & -> & _); [lia|].
  cbn [mbind option_bind]. rewrite ptr_name_fits by done. cbn [mbind option_bind].
  destruct (skip_questions_total packet (Z.to_nat qd) 12) as (start & ->). cbn [mbind option_bind].
  destruct start as [pos|]; [|by exists None]. by apply read_records_total.
Qed.

(** whatever a host sends.  Reading the name an mDNS reply gives its
    sender never leaves the packet or a buffer and always ends; and a name
    that comes out is not empty, fits its buffer and holds nothing but
    printable ASCII: no reply can slip an escape sequence through. *)
Theorem hostName_safe packet from :
  bytes packet → ip_ok from →
  ∃ r, hostName packet from = Some r ∧ ∀ name, r = Some name → name_ok name.
Proof. apply hostName_total. Qed.

(** Where the parts of one record are. *)
Lemma read_one pre r post from by_address :
  let packet := pre ++ encode_record r ++ post in
  let owner_len := length (encode_name (r_owner r)) in
  bytes packet → record_ok r →
  skipName packet (length pre) = Some (Some (length pre + owner_len)%nat) ∧
  readU16 packet (length pre + owner_len) = Some (rdata_type (r_data r)) ∧
  readU16 packet (length pre + owner_len + 8) = Some (Z.of_nat (length (rdata_bytes (r_data r)))) ∧
  length (encode_record r) = (owner_len + 10 + length (rdata_bytes (r_data r)))%nat ∧
  (∀ rev, rev = ptr_name from →
   read_record packet from rev (length pre) (length pre + owner_len + 10) (length (rdata_bytes (r_data r)))
    (rdata_type (r_data r)) by_address =
   Some match r_data r with
        | RPtr name =>
          match name_of (r_owner r) with
          | Some owner => if eqlIgnoreCase owner (ptr_name from) then inr (name_of name) else inl by_address
          | None => inl by_address
          end
        | RAddr ip => inl (if bool_decide (by_address = None ∧ ip = from) then name_of (r_owner r) else by_address)
        | ROther _ _ => inl by_address
        end).
Proof.
  intros packet owner_len Hb ([Hown Hfit] & Hfb & Hfl & Hd & Hlen).
  set (rd := r_data r) in *. set (len := Z.of_nat (length (rdata_bytes rd))) in *.
  assert (packet = pre ++ encode_name (r_owner r) ++ (be16 (rdata_type rd) ++ r_fixed r ++ be16 len ++ rdata_bytes rd ++ post))
    as Hp1 by (subst packet; unfold encode_record; by rewrite <- !app_assoc).
  assert (packet = (pre ++ encode_name (r_owner r)) ++ be16 (rdata_type rd) ++ (r_fixed r ++ be16 len ++ rdata_bytes rd ++ post))
    as Hp2 by by rewrite Hp1, <- !app_assoc.
  assert (packet = (pre ++ encode_name (r_owner r) ++ be16 (rdata_type rd) ++ r_fixed r) ++ be16 len ++ (rdata_bytes rd ++ post))
    as Hp3 by by rewrite Hp1, <- !app_assoc.
  assert (∃ front, packet = front ++ rdata_bytes rd ++ post ∧ length front = length pre + owner_len + 10)%nat
    as (front & Hp4 & Hl4).
  { exists (pre ++ encode_name (r_owner r) ++ be16 (rdata_type rd) ++ r_fixed r ++ be16 len).
    split; [by rewrite Hp1, <- !app_assoc|]. rewrite !length_app, Hfl. simpl. lia. }
  assert (is_u16 (rdata_type rd)) as Htype.
  { unfold is_u16. destruct rd; simpl in *; unfold DNS_TYPE_PTR, DNS_TYPE_A; try lia. apply Hd. }
  assert (decodeName packet (length pre) = Some (name_of (r_owner r))) as Howner.
  { rewrite Hp1. apply decodeName_at; [by rewrite <- Hp1|done]. }
  split; [|split; [|split; [|split]]].
  - rewrite Hp1. by apply skipName_at.
  - rewrite Hp2. pose proof (readU16_at (pre ++ encode_name (r_owner r)) (rdata_type rd)
      (r_fixed r ++ be16 len ++ rdata_bytes rd ++ post) Htype) as Hr. by rewrite length_app in Hr.
  - rewrite Hp3. pose proof (readU16_at (pre ++ encode_name (r_owner r) ++ be16 (rdata_type rd) ++ r_fixed r) len
      (rdata_bytes rd ++ post)) as Hr. rewrite !length_app, Hfl in Hr. simpl in Hr.
    replace (length pre + owner_len + 8)%nat with (length pre + (owner_len + 8))%nat by lia. apply Hr. unfold is_u16. lia.
  - unfold encode_record. fold rd. rewrite !length_app, Hfl. simpl. lia.
  - intros rev ->. unfold read_record. destruct rd as [name|ip|t data] eqn:Hrd; cbn [rdata_type rdata_bytes] in *.
    + rewrite Z.eqb_refl, Howner. cbn [mbind option_bind]. destruct (name_of (r_owner r)) as [owner|]; [|done].
      destruct (eqlIgnoreCase owner (ptr_name from)); [|done]. simpl. rewrite <- Hl4. rewrite Hp4 at 1.
      rewrite decodeName_at; [done|by rewrite <- Hp4|done].
    + change (DNS_TYPE_A =? DNS_TYPE_PTR) with false. rewrite Z.eqb_refl. cbn [andb length ip_bytes]. simpl.
      destruct by_address as [b|]; [by rewrite !bool_decide_eq_false_2 by naive_solver|].
      rewrite (bool_decide_eq_true_2 (None = None)) by done. pose proof (slice_app front (ip_bytes ip) post) as Hs.
      rewrite <- Hp4, Hl4 in Hs. cbn [length ip_bytes] in Hs. rewrite Hs. cbn [mbind option_bind].
      destruct (decide (ip = from)) as [->|Hne].
      * rewrite !bool_decide_eq_true_2 by done. by rewrite Howner.
      * rewrite bool_decide_eq_false_2; [by rewrite bool_decide_eq_false_2 by naive_solver|].
        intros Hx. apply Hne. destruct ip, from. by injection Hx as -> -> -> ->.
    + destruct Hd as (_ & Hnp & Hna & _). rewrite (proj2 (Z.eqb_neq _ _) Hnp).
      destruct (t =? DNS_TYPE_A) eqn:Ht; [|done]. to_prop. by rewrite (proj2 (Nat.eqb_neq _ _)) by auto.
Qed.

Lemma read_records_value from records : Forall record_ok records → ∀ pre by_address,
  bytes (pre ++ concat (map encode_record records)) →
  read_records (length records) (pre ++ concat (map encode_record records)) from (ptr_name from) (length pre) by_address =
  Some (told_name from records by_address).
Proof.
  intros Hok. induction Hok as [|r records Hr _ IH]; intros pre by_address Hb; [done|].
  cbn [map concat length] in *.
  destruct (read_one pre r (concat (map encode_record records)) from by_address Hb Hr) as (Hs & Ht & Hl & Hlen & Hv).
  cbn [read_records]. rewrite (proj2 (Nat.ltb_ge _ _)) by (rewrite !length_app; lia).
  rewrite Hs. cbn [mbind option_bind]. rewrite (proj2 (Nat.ltb_ge _ _)) by (rewrite !length_app; lia).
  rewrite Ht. cbn [mbind option_bind]. rewrite Hl. cbn [mbind option_bind]. rewrite Nat2Z.id.
  rewrite (proj2 (Nat.ltb_ge _ _)) by (rewrite !length_app; lia).
  rewrite (Hv _ eq_refl). cbn [mbind option_bind].
  assert (∀ by', read_records (length records) (pre ++ encode_record r ++ concat (map encode_record records)) from
    (ptr_name from) (length pre + length (encode_name (r_owner r)) + 10 + length (rdata_bytes (r_data r)))%nat by' =
    Some (told_name from records by')) as Hgo.
  { intros by'. specialize (IH (pre ++ encode_record r) by'). rewrite <- app_assoc, length_app, Hlen in IH.
    rewrite <- IH by done. f_equal. lia. }
  cbn [told_name]. destruct (r_data r) as [name|ip|t data]; [|destruct (bool_decide _); apply Hgo|apply Hgo].
  destruct (name_of (r_owner r)); [destruct (eqlIgnoreCase _ _); [done|apply Hgo]|apply Hgo].
Qed.

Lemma skip_questions_value qs post : Forall (λ q, Forall label_ok q.1 ∧ bytes q.2 ∧ length q.2 = 4%nat) qs → ∀ pre,
  skip_questions (length qs) (pre ++ concat (map encode_question qs) ++ post) (length pre) =
  Some (Some (length pre + length (concat (map encode_question qs)))%nat).
Proof.
  intros Hq. induction Hq as [|[labels fixed] qs (Hl & _ & Hf) _ IH]; intros pre.
  { simpl. by rewrite Nat.add_0_r. }
  cbn [fst snd] in Hl, Hf. cbn [map concat length skip_questions]. change (encode_question (labels, fixed)) with (encode_name labels ++ fixed). rewrite <- !app_assoc.
  rewrite skipName_at by done. cbn [mbind option_bind].
  specialize (IH (pre ++ encode_name labels ++ fixed)). rewrite <- !app_assoc in IH. rewrite !length_app, Hf in IH.
  replace (length pre + length (encode_name labels) + 4)%nat with (length pre + (length (encode_name labels) + 4))%nat by lia.
  rewrite IH. do 2 f_equal. rewrite !length_app, Hf. lia.
Qed.

Lemma be16_bytes v : bytes (be16 v).
Proof. unfold be16. repeat apply bytes_cons; auto using bytes_nil, u8_range. Qed.

Lemma rdata_bytes_ok d : rdata_ok d → bytes (rdata_bytes d).
Proof. destruct d; simpl; [by intros [? _]; apply encode_name_bytes|done|tauto]. Qed.

Lemma encode_record_bytes r : record_ok r → bytes (encode_record r).
Proof.
  intros ([Ho _] & Hf & _ & Hd & _). unfold encode_record.
  apply bytes_app; [by apply encode_name_bytes|]. apply bytes_app; [apply be16_bytes|].
  apply bytes_app; [done|]. apply bytes_app; [apply be16_bytes|by apply rdata_bytes_ok].
Qed.

Lemma concat_bytes ls : Forall bytes ls → bytes (concat ls).
Proof. induction 1; simpl; [apply bytes_nil|by apply bytes_app]. Qed.

Lemma encode_message_bytes m : message_ok m → bytes (encode_message m).
Proof.
  intros [[Hs _] Hq Hr _]. unfold encode_message. apply bytes_app; [done|].
  do 4 (apply bytes_app; [apply be16_bytes|]). apply bytes_app; apply concat_bytes, Forall_map.
  - eapply Forall_impl; [exact Hq|]. intros q (Hl & Hb & _). simpl. apply bytes_app; [by apply encode_name_bytes|done].
  - eapply Forall_impl; [exact Hr|]. apply encode_record_bytes.
Qed.

(** The counts in a header. *)
Lemma header_counts start a b c d rest :
  length start = 4%nat → is_u16 a → is_u16 b → is_u16 c → is_u16 d →
  let packet := start ++ be16 a ++ be16 b ++ be16 c ++ be16 d ++ rest in
  readU16 packet 4 = Some a ∧ readU16 packet 6 = Some b ∧ readU16 packet 8 = Some c ∧ readU16 packet 10 = Some d.
Proof.
  intros Hs Ha Hb Hc Hd packet. do 4 (destruct start as [|? start]; [done|]). destruct start; [|done].
  split; [exact (readU16_at [_; _; _; _] a _ Ha)|].
  split; [exact (readU16_at ([_; _; _; _] ++ be16 a) b _ Hb)|].
  split; [exact (readU16_at ([_; _; _; _] ++ be16 a ++ be16 b) c _ Hc)|].
  exact (readU16_at ([_; _; _; _] ++ be16 a ++ be16 b ++ be16 c) d _ Hd).
Qed.

(** C36: what a reply says.  On any well-formed DNS message, with any
    questions and any records in its three sections, the name read for the
    sender is the one its records tell: that of the first PTR record whose
    owner is the sender's reverse name, whatever its case, or else that of
    the first address record for it. *)
Theorem hostName_reads m from :
  message_ok m → ip_ok from → hostName (encode_message m) from = Some (told_name from (m_records m) None).
Proof.
  intros Hm Hip. pose proof (encode_message_bytes m Hm) as Hb. destruct Hm as [[Hsb Hsl] Hq Hr (Hcq & Hcr & Hcn)].
  unfold hostName. set (qd := Z.of_nat (length (m_questions m))) in *.
  set (an := Z.of_nat (length (m_records m) - m_ns m - m_ar m)).
  destruct (header_counts (m_start m) qd an (Z.of_nat (m_ns m)) (Z.of_nat (m_ar m))
    (concat (map encode_question (m_questions m)) ++ concat (map encode_record (m_records m)))) as (H4 & H6 & H8 & H10);
    [done|unfold is_u16; lia..|].
  fold (encode_message m) in H4, H6, H8, H10.
  assert (length (encode_message m) = 12 + length (concat (map encode_question (m_questions m)))
    + length (concat (map encode_record (m_records m))))%nat as Hlen
    by (unfold encode_message; rewrite !length_app, Hsl; simpl; lia).
  rewrite (proj2 (Nat.ltb_ge _ _)) by (unfold DNS_HEADER_LEN; lia).
  change (encode_message m) with (m_start m ++ be16 qd ++ be16 an ++ be16 (Z.of_nat (m_ns m)) ++ be16 (Z.of_nat (m_ar m))
    ++ concat (map encode_question (m_questions m)) ++ concat (map encode_record (m_records m))) in *.
  rewrite H4, H6, H8, H10. cbn [mbind option_bind]. rewrite ptr_name_fits by done. cbn [mbind option_bind].
  replace (Z.to_nat (an + Z.of_nat (m_ns m) + Z.of_nat (m_ar m))) with (length (m_records m)) by lia.
  replace (Z.to_nat qd) with (length (m_questions m)) by lia.
  set (header := m_start m ++ be16 qd ++ be16 an ++ be16 (Z.of_nat (m_ns m)) ++ be16 (Z.of_nat (m_ar m))).
  assert (∀ rest, m_start m ++ be16 qd ++ be16 an ++ be16 (Z.of_nat (m_ns m)) ++ be16 (Z.of_nat (m_ar m)) ++ rest = header ++ rest)
    as Hheader by (intros; subst header; by rewrite <- !app_assoc).
  rewrite Hheader in *. assert (length header = DNS_HEADER_LEN) as Hhl by (subst header; rewrite !length_app, Hsl; done).
  rewrite <- Hhl. rewrite skip_questions_value by done. cbn [mbind option_bind].
  rewrite app_assoc, <- length_app. apply read_records_value; [done|by rewrite <- app_assoc].
Qed.

(** ** Queries, as a responder reads them *)

(** The labels of an address's reverse name. *)
Definition reverse_name_labels (ip : ip4) : list (list Z) := map fmt_u (reverse (ip_bytes ip)) ++ [IN_ADDR; ARPA].

Lemma fmt_u_label b : is_u8 b → label_ok (fmt_u b) ∧ (length (fmt_u b) ≤ 3)%nat.
Proof.
  intros Hb. pose proof (fmt_u_byte b Hb) as [_ Hlen]. split; [|done]. split.
  - pose proof (fmt_u_nonempty b). destruct (fmt_u b); [done|]. simpl in *. lia.
  - assert (digits (fmt_u b)) as Hd by (apply fmt_u_digits; unfold is_u8 in Hb; lia).
    eapply Forall_impl; [exact Hd|]. unfold is_digit, printable. lia.
Qed.

Lemma extend_more out label : out ≠ [] → extend out label = out ++ [46] ++ label.
Proof. intros Ho. destruct out; [done|]. unfold extend. simpl. by rewrite <- app_assoc. Qed.

Lemma foldl_extend_more labels : ∀ out, out ≠ [] → foldl extend out labels = out ++ concat (map (λ l, [46] ++ l) labels).
Proof.
  induction labels as [|label labels IH]; intros out Ho; simpl; [by rewrite app_nil_r|].
  rewrite extend_more by done. rewrite IH by by destruct out. by rewrite <- !app_assoc.
Qed.

(** Four numbers and the domain of reverse lookups. *)
Definition arpa_labels (d c b a : list Z) : list (list Z) := [d; c; b; a; IN_ADDR; ARPA].

Lemma arpa_dotted d c b a :
  d ≠ [] → dotted (arpa_labels d c b a) = d ++ [46] ++ c ++ [46] ++ b ++ [46] ++ a ++ in_addr_arpa.
Proof.
  intros Hd. unfold dotted, arpa_labels. cbn [foldl]. change (extend [] d) with d.
  change (foldl extend d [c; b; a; IN_ADDR; ARPA] = d ++ [46] ++ c ++ [46] ++ b ++ [46] ++ a ++ in_addr_arpa).
  by rewrite foldl_extend_more.
Qed.

Lemma arpa_query d c b a :
  query_header ++ encode_labels [d; c; b; a] ++ query_tail =
  query_header ++ encode_question (arpa_labels d c b a, be16 DNS_TYPE_PTR ++ be16 DNS_CLASS_IN).
Proof.
  f_equal. change (arpa_labels d c b a) with ([d; c; b; a] ++ [IN_ADDR; ARPA]).
  unfold encode_question, encode_name. cbn [fst snd]. generalize [d; c; b; a]. intros labels.
  unfold encode_labels. rewrite map_app, concat_app, <- !app_assoc. done.
Qed.

Lemma arpa_query_length d c b a :
  length (query_header ++ encode_labels [d; c; b; a] ++ query_tail) =
  (34 + length d + length c + length b + length a)%nat.
Proof.
  unfold encode_labels, encode_label. cbn [map concat]. rewrite !length_app. simpl. rewrite ?length_app. simpl. lia.
Qed.

Lemma reverseQuery_some ip : ip_ok ip → is_Some (reverseQuery ip).
Proof.
  intros (Ha & Hb & Hc & Hd)%ip_ok_bytes.
  destruct (fmt_u_byte _ Ha), (fmt_u_byte _ Hb), (fmt_u_byte _ Hc), (fmt_u_byte _ Hd). unfold reverseQuery.
  change (reverse_labels ip) with (encode_labels [fmt_u (ip_d ip); fmt_u (ip_c ip); fmt_u (ip_b ip); fmt_u (ip_a ip)]).
  rewrite arpa_query_length, (proj2 (Nat.leb_le _ _)) by lia. by eexists.
Qed.

(** the reverse query.  For every address it fits its buffer, and it is
    one question, of type PTR and class IN, for the very name that a reply
    is then searched for. *)
Theorem reverseQuery_asks ip :
  ip_ok ip →
  reverseQuery ip = Some (query_header ++ encode_question (reverse_name_labels ip, be16 DNS_TYPE_PTR ++ be16 DNS_CLASS_IN)) ∧
  name_fits (reverse_name_labels ip) ∧ dotted (reverse_name_labels ip) = ptr_name ip.
Proof.
  intros (Ha & Hb & Hc & Hd)%ip_ok_bytes.
  destruct (fmt_u_label _ Ha) as [La Na], (fmt_u_label _ Hb) as [Lb Nb], (fmt_u_label _ Hc) as [Lc Nc],
    (fmt_u_label _ Hd) as [Ld Nd].
  change (reverse_name_labels ip) with (arpa_labels (fmt_u (ip_d ip)) (fmt_u (ip_c ip)) (fmt_u (ip_b ip)) (fmt_u (ip_a ip))).
  pose proof (arpa_dotted (fmt_u (ip_d ip)) (fmt_u (ip_c ip)) (fmt_u (ip_b ip)) (fmt_u (ip_a ip)) (fmt_u_nonempty _)) as Hdot.
  split; [|split; [split|exact Hdot]].
  - unfold reverseQuery.
    change (reverse_labels ip) with (encode_labels [fmt_u (ip_d ip); fmt_u (ip_c ip); fmt_u (ip_b ip); fmt_u (ip_a ip)]).
    rewrite arpa_query_length, (proj2 (Nat.leb_le _ _)) by lia. by rewrite arpa_query.
  - assert (∀ l, (0 < length l < 64)%nat → forallb printableb l = true → label_ok l) as Hlab
      by (intros l ? ?%printableb_all; by split).
    repeat (apply Forall_cons; split; [first [done|apply Hlab; [simpl; lia|done]]|]). constructor.
  - rewrite Hdot, !length_app. simpl. lia.
Qed.

(** Only replies count: an SSDP search response, or a DNS message with the
    response bit set and opcode 0. *)
Lemma classify_value data :
  classify data = Some (
    if (12 <=? length data)%nat && eqlIgnoreCase (take 12 data) ssdp_ok then Some ssdp
    else match data !! 2%nat with
         | Some flags => if (12 <=? length data)%nat && (Z.land flags 248 =? 128) then Some mdns else None
         | None => None
         end).
Proof.
  unfold classify, is_ssdp, DNS_HEADER_LEN. change (length ssdp_ok) with 12%nat.
  destruct (12 <=? length data)%nat eqn:Hlen.
  - unfold slice. rewrite Hlen. cbn -[eqlIgnoreCase take]. to_prop. rewrite drop_0.
    destruct (lookup_some data 2) as [flags Hf]; [lia|]. rewrite Hf. by destruct (eqlIgnoreCase _ _).
  - simpl. by destruct (data !! 2%nat).
Qed.

(** ** Concrete packets *)

(** "_services._dns-sd._udp.local", as sent. *)
Example services_query_name :
  decodeName services_query 12 = Some (Some
    ([95; 115; 101; 114; 118; 105; 99; 101; 115; 46; 95; 100; 110; 115; 45; 115; 100; 46; 95; 117; 100; 112; 46]
      ++ [108; 111; 99; 97; 108])).
Proof. by vm_compute. Qed.

(** "ns.local" through a pointer to its second label. *)
Definition pointed : list Z := [5; 108; 111; 99; 97; 108; 0; 2; 110; 115; 192; 0].

Lemma decodeName_exact_witness :
  decodeName pointed 7 = Some (Some [110; 115; 46; 108; 111; 99; 97; 108]) ∧
  ∃ r, decodeName pointed 7 = Some r ∧
    ∀ name, r = Some name ↔
      ∃ jumps labels, name_at pointed 7 jumps labels ∧ (jumps ≤ MAX_JUMPS)%nat ∧ labels ≠ [] ∧
        dotted labels = name ∧ (length name ≤ 256)%nat.
Proof.
  split; [by vm_compute|]. apply (decodeName_exact pointed 7).
  repeat (apply Forall_cons; split; [unfold is_u8; lia|]). constructor.
Defined.

(** A reply of one record whose owner points at itself. *)
Definition circular : list Z := [0; 0; 132; 0; 0; 0; 0; 1; 0; 0; 0; 0; 192; 12; 0; 12; 0; 1; 0; 0; 0; 0; 0; 0].

Lemma hostName_safe_witness :
  hostName circular (IP 10 0 0 7) = Some None ∧
  ∃ r, hostName circular (IP 10 0 0 7) = Some r ∧ ∀ name, r = Some name → name_ok name.
Proof.
  split; [by vm_compute|].
  apply (hostName_safe circular); repeat (apply Forall_cons; split; [unfold is_u8; simpl; lia|]); constructor.
Defined.

(** The answer to the reverse query of 10.0.0.7: "nas.local". *)
Definition nas_reply : message :=
  {| m_start := [78; 84; 132; 0]; m_questions := [(reverse_name_labels (IP 10 0 0 7), [0; 12; 0; 1])];
     m_ns := 0; m_ar := 0;
     m_records := [{| r_owner := reverse_name_labels (IP 10 0 0 7); r_fixed := [0; 1; 0; 0; 0; 10];
                      r_data := RPtr [[110; 97; 115]; [108; 111; 99; 97; 108]] |}] |}.

Lemma hostName_reads_witness :
  told_name (IP 10 0 0 7) (m_records nas_reply) None = Some [110; 97; 115; 46; 108; 111; 99; 97; 108] ∧
  hostName (encode_message nas_reply) (IP 10 0 0 7) = Some (told_name (IP 10 0 0 7) (m_records nas_reply) None).
Proof.
  split; [by vm_compute|].
  assert (∀ l, (0 < length l < 64)%nat → forallb printableb l = true → label_ok l) as Hlab
    by (intros l ? ?%printableb_all; by split).
  assert (Forall label_ok (reverse_name_labels (IP 10 0 0 7))) as Hrev.
  { repeat (apply Forall_cons; split; [apply Hlab; vm_compute; [lia|done]|]). constructor. }
  assert (Forall label_ok [[110; 97; 115]; [108; 111; 99; 97; 108]]) as Hnas.
  { repeat (apply Forall_cons; split; [apply Hlab; vm_compute; [lia|done]|]). constructor. }
  assert (∀ a b c d, ip_ok (IP a b c d) ↔ is_u8 a ∧ is_u8 b ∧ is_u8 c ∧ is_u8 d) as Hip.
  { intros. unfold ip_ok, bytes, ip_bytes. simpl. rewrite !Forall_cons, Forall_nil. tauto. }
  apply (hostName_reads nas_reply); [|apply Hip; unfold is_u8; lia].
  split; simpl; [| | |lia].
  - split; [|done]. repeat (apply Forall_cons; split; [unfold is_u8; lia|]). constructor.
  - apply Forall_singleton. split; [done|]. split; [|done].
    repeat (apply Forall_cons; split; [unfold is_u8; simpl; lia|]). constructor.
  - apply Forall_singleton. split; [split; [done|vm_compute; lia]|].
    split; [repeat (apply Forall_cons; split; [unfold is_u8; simpl; lia|]); constructor|].
    split; [done|]. split; [split; [done|vm_compute; lia]|vm_compute; done].
Defined.

Lemma reverseQuery_asks_witness :
  reverseQuery (IP 10 0 0 7) = Some (query_header ++ encode_question
    (reverse_name_labels (IP 10 0 0 7), be16 DNS_TYPE_PTR ++ be16 DNS_CLASS_IN)) ∧
  name_fits (reverse_name_labels (IP 10 0 0 7)) ∧
  dotted (reverse_name_labels (IP 10 0 0 7)) = ptr_name (IP 10 0 0 7).
Proof.
  apply (reverseQuery_asks (IP 10 0 0 7)).
  repeat (apply Forall_cons; split; [unfold is_u8; simpl; lia|]). constructor.
Defined.
