(* ===== verification/Names.v ===== *)
(** * resolver.zig: a host's name

    NetBIOS, mDNS and reverse DNS, in this order: the NetBIOS reply's name
    table, the clean-up of names, and [resolveHostName] on top of the C
    helpers of Resolver.v and the packets of Packets.v. *)
From S2P Require Import Prelude Words Decimal Sys Script NsSocket Resolver Ranges Text Packets.
Open Scope Z_scope.

Definition NAME_QUERY_TIMEOUT_MS : Z := 200.
Definition MDNS_PORT : Z := 5353.
Definition NETBIOS_PORT : Z := 137.

Definition netbios_request : list Z :=
  [19; 55; 0; 0; 0; 1; 0; 0; 0; 0; 0; 0; 32; 67; 75] ++ replicate 30 65 ++ [0; 0; 33; 0; 1].

(** ** Text *)

(** " \t\r\n" *)
Definition SPACES : list Z := [32; 9; 13; 10].

Definition cleanDomainName (raw : list Z) : list Z :=
  let trimmed := trim SPACES raw in
  match trimmed with
  | [] => trimmed
  | _ =>
    let clean_name := before DOT trimmed in
    match clean_name with [] => trimmed | _ => clean_name end
  end.

(** std.mem.endsWith *)
Definition endsWith (s suffix : list Z) : bool := bool_decide (suffix `suffix_of` s).

(** ** NetBIOS *)

(** The name of one entry, if it is usable. *)
Definition netbios_entry (entry : list Z) : option (option (list Z)) :=
  suffix ← entry !! 15%nat;
  flags ← entry !! 16%nat;
  if negb (Z.land flags 128 =? 0) || (negb (suffix =? 0) && negb (suffix =? 32)) then Some None
  else
    padded ← slice entry 0 15;
    let name := trimEnd [32] padded in
    Some (if (length name =? 0)%nat then None else if forallb printableb name then Some name else None).

Fixpoint netbios_entries (n : nat) (entries : list Z) : option (option (list Z)) :=
  match n with
  | O => Some None
  | S n =>
    if (length entries <? 18)%nat then Some None
    else
      entry ← slice entries 0 18;
      rest ← slice entries 18 (length entries);
      name ← netbios_entry entry;
      match name with
      | Some name => Some (Some name)
      | None => netbios_entries n rest
      end
  end.

Definition table_start : nat := 57.

Definition netbiosName (reply : list Z) : option (option (list Z)) :=
  if (length reply <? table_start)%nat then Some None
  else
    id0 ← reply !! 0%nat;
    id1 ← reply !! 1%nat;
    if negb (id0 =? 19) || negb (id1 =? 55) then Some None
    else
      count ← reply !! 56%nat;
      entries ← slice reply table_start (length reply);
      netbios_entries (Z.to_nat count) entries.

(** ** resolveHostName *)

(** ".in-addr.arpa" is Resolver's; this is ".ip6.arpa". *)
Definition ip6_arpa : list Z := [46; 105; 112; 54; 46; 97; 114; 112; 97].

Definition is_address (s : list Z) : bool :=
  match ipStringToBytes s with inl InvalidIpAddress => false | _ => true end.

(** UdpExchange.reply *)
Definition reply_of (a : answer) : option (list Z) :=
  if a.1 <? 0 then None else Some (take (Z.to_nat a.1) a.2).

Section Resolve.
Context {E : Type} `{Env E}.
Variable os : platform.

(** A read outside its bounds stops the program. *)
Definition checked {A} (a : option A) : M E A :=
  λ e, match a with Some a => Some (a, e, []) | None => None end.

(** allocator.dupe(u8, text) catch null: the copy and its block. *)
Definition dupe (text : list Z) : M E (option (Z * list Z)) :=
  p ← ask (Malloc (Z.of_nat (length text)));
  mret match p with Some p => Some (p, text) | None => None end.

Definition netbios_exchange : ns_udp_exchange := Exchange netbios_request 1024 NETBIOS_PORT.

(** 1. NetBIOS: the name of the reply, if there is one. *)
Definition netbios_heard (reply : option (list Z)) : M E (list Z) :=
  match reply with
  | None => mret []
  | Some reply => name ← checked (netbiosName reply); mret (trim SPACES (default [] name))
  end.

(** 2. mDNS *)
Definition mdns_heard (ip : ip4) (mdns_name reply : option (list Z)) : M E (list Z) :=
  match mdns_name, reply with
  | Some name, _ => mret (cleanDomainName name)
  | None, Some reply => name ← checked (hostName reply ip); mret (cleanDomainName (default [] name))
  | None, None => mret []
  end.

(** 3. Reverse DNS, unless it says no more than the address. *)
Definition reverse_dns (ip : ip4) : M E (list Z) :=
  let ip_str := formatIp ip in
  found ← resolve_ptr os (Some ip_str) true 256;
  mret match found with
       | None => []
       | Some buf =>
         let ptr_name := before 0 buf in
         if negb (bool_decide (ptr_name = ip_str)) && negb (endsWith ptr_name in_addr_arpa)
            && negb (endsWith ptr_name ip6_arpa) && negb (is_address ptr_name)
         then let clean_name := cleanDomainName ptr_name in if is_address clean_name then [] else clean_name
         else []
       end.

(** The name in a block of its own, for the caller to free. *)
Definition resolveHostName (fuel : nat) (ip : ip4) (mdns_name : option (list Z)) : M E (option (Z * list Z)) :=
  query ← checked (reverseQuery ip);
  let xs := netbios_exchange ::
    match mdns_name with None => [Exchange query 1024 MDNS_PORT] | Some _ => [] end in
  answers ← udp_exchange_all os fuel (Some ip) xs NAME_QUERY_TIMEOUT_MS;
  netbios ← netbios_heard (answers !! 0%nat ≫= reply_of);
  if (0 <? length netbios)%nat then dupe netbios
  else
    heard ← mdns_heard ip mdns_name (answers !! 1%nat ≫= reply_of);
    if (0 <? length heard)%nat then dupe heard
    else
      clean_name ← reverse_dns ip;
      if (0 <? length clean_name)%nat then dupe clean_name else mret None.

(** The name a host gives itself by mDNS, when [port] is MDNS_PORT. *)
Definition queryMdns (fuel : nat) (ip : ip4) (port timeout_ms : Z) : M E (option (list Z)) :=
  query ← checked (reverseQuery ip);
  answers ← udp_exchange_all os fuel (Some ip) [Exchange query 1024 port] timeout_ms;
  match answers !! 0%nat ≫= reply_of with
  | None => mret None
  | Some reply => checked (hostName reply ip)
  end.
End Resolve.

(** ** Text stays what it is *)

Lemma Forall_clean (P : Z → Prop) s : Forall P s → Forall P (cleanDomainName s).
Proof.
  intros Hs. unfold cleanDomainName. pose proof (Forall_trim P SPACES s Hs) as Ht.
  destruct (trim SPACES s) as [|c rest]; [done|]. cbv zeta.
  destruct (before DOT (c :: rest)) eqn:Hb; [done|]. rewrite <- Hb. by apply Forall_before.
Qed.

(** A clean name has no spaces around it, and no domain, unless that is all
    there is. *)
Lemma clean_name_domain s : ∀ c rest, cleanDomainName s = c :: rest → c ≠ DOT → DOT ∉ cleanDomainName s.
Proof.
  intros c rest Hc Hd. unfold cleanDomainName in *. destruct (trim SPACES s) as [|x xs] eqn:Ht; [done|].
  assert (∀ l, DOT ∉ before DOT l) as Hno.
  { induction l as [|y l IH]; simpl; [apply not_elem_of_nil|]. destruct (y =? DOT) eqn:Hy; [apply not_elem_of_nil|].
    to_prop. rewrite not_elem_of_cons. auto. }
  cbv zeta in *. destruct (before DOT (x :: xs)) as [|y ys] eqn:Hb; [|rewrite <- Hb; apply Hno].
  injection Hc as -> ->. simpl in Hb. destruct (c =? DOT) eqn:Hy; [by to_prop|done].
Qed.

(** ** NetBIOS replies *)

(** The 18 bytes of entry [i]. *)
Definition entry_at (reply : list Z) (i : nat) : list Z := take 18 (drop (table_start + 18 * i) reply).

(** The name a whole entry gives: of a unique workstation or server name,
    what is left of its 15 bytes without the padding, if that is printable. *)
Definition usable_name (entry : list Z) : option (list Z) :=
  match entry !! 15%nat, entry !! 16%nat with
  | Some suffix, Some flags =>
    let name := trimEnd [32] (take 15 entry) in
    if (Z.land flags 128 =? 0) && ((suffix =? 0) || (suffix =? 32)) && negb (length name =? 0)%nat
       && forallb printableb name
    then Some name else None
  | _, _ => None
  end.

Lemma netbios_entry_value entry : length entry = 18%nat → netbios_entry entry = Some (usable_name entry).
Proof.
  intros Hlen. unfold netbios_entry, usable_name.
  destruct (lookup_some entry 15) as [suffix Hs]; [lia|]. destruct (lookup_some entry 16) as [flags Hf]; [lia|].
  rewrite Hs, Hf. cbn [mbind option_bind].
  assert (slice entry 0 15 = Some (take 15 entry)) as Hsl.
  { unfold slice. rewrite (proj2 (Nat.leb_le 15 _)) by lia. simpl. by rewrite drop_0. }
  rewrite Hsl. cbn [mbind option_bind]. cbv zeta.
  destruct (Z.land flags 128 =? 0), (suffix =? 0), (suffix =? 32); simpl; try done;
    destruct (_ =? 0)%nat; try done; by destruct (forallb _ _).
Qed.

(** The first usable name among [n] entries. *)
Fixpoint first_name (n i : nat) (reply : list Z) : option (list Z) :=
  match n with
  | O => None
  | S n =>
    if (length reply <? table_start + 18 * S i)%nat then None
    else match usable_name (entry_at reply i) with
         | Some name => Some name
         | None => first_name n (S i) reply
         end
  end.

Lemma netbios_entries_value n reply : ∀ i,
  netbios_entries n (drop (table_start + 18 * i) reply) = Some (first_name n i reply).
Proof.
  induction n as [|n IH]; intros i; cbn [netbios_entries first_name]; [done|].
  rewrite length_drop.
  destruct (length reply <? table_start + 18 * S i)%nat eqn:Hlen; to_prop.
  { by rewrite (proj2 (Nat.ltb_lt _ _)) by lia. }
  rewrite (proj2 (Nat.ltb_ge _ _)) by lia. set (entries := drop (table_start + 18 * i) reply).
  assert (length entries = length reply - (table_start + 18 * i))%nat as Hel by apply length_drop.
  rewrite <- Hel.
  assert (slice entries 0 18 = Some (entry_at reply i)) as ->
    by (unfold slice; rewrite (proj2 (Nat.leb_le 18 _)) by lia; simpl; by rewrite drop_0).
  assert (slice entries 18 (length entries) = Some (drop (table_start + 18 * S i) reply)) as ->.
  { unfold slice. rewrite (proj2 (Nat.leb_le 18 _)), Nat.leb_refl by lia. simpl andb. cbv iota. f_equal.
    rewrite take_ge by (rewrite length_drop; lia). subst entries. rewrite drop_drop. f_equal. lia. }
  cbn [mbind option_bind].
  rewrite netbios_entry_value by (unfold entry_at; rewrite length_take, length_drop; lia). cbn [mbind option_bind].
  destruct (usable_name (entry_at reply i)); [done|]. apply IH.
Qed.

Lemma first_name_spec n reply name : ∀ i,
  first_name n i reply = Some name ↔
  ∃ j, (i ≤ j < i + n)%nat ∧ (table_start + 18 * S j ≤ length reply)%nat ∧
    usable_name (entry_at reply j) = Some name ∧ ∀ k, (i ≤ k < j)%nat → usable_name (entry_at reply k) = None.
Proof.
  induction n as [|n IH]; intros i; cbn [first_name]; [split; [done|intros (j & ? & _); lia]|].
  destruct (length reply <? _)%nat eqn:Hlen; to_prop; [split; [done|intros (j & ? & ? & _); lia]|].
  destruct (usable_name (entry_at reply i)) as [name'|] eqn:Hu.
  - split.
    + intros [= ->]. exists i. split; [lia|]. split; [done|]. split; [done|]. intros k ?. lia.
    + intros (j & Hj & _ & Hn & Hk). destruct (decide (j = i)) as [->|]; [congruence|].
      rewrite (Hk i) in Hu by lia. done.
  - rewrite IH. split; intros (j & Hj & Hl & Hn & Hk).
    + exists j. split; [lia|]. split; [done|]. split; [done|]. intros k Hki.
      destruct (decide (k = i)) as [->|]; [done|]. apply Hk. lia.
    + destruct (decide (j = i)) as [->|]; [congruence|]. exists j. split; [lia|]. split; [done|]. split; [done|].
      intros k ?. apply Hk. lia.
Qed.

Lemma netbiosName_value reply :
  netbiosName reply = Some (
    match reply !! 0%nat, reply !! 1%nat, reply !! 56%nat with
    | Some 19, Some 55, Some count => first_name (Z.to_nat count) 0 reply
    | _, _, _ => None
    end).
Proof.
  unfold netbiosName. destruct (length reply <? table_start)%nat eqn:Hlen; unfold table_start in *; to_prop.
  { rewrite (lookup_ge_None_2 reply 56) by lia. destruct (reply !! 0%nat) as [x|], (reply !! 1%nat) as [y|]; try done;
      repeat case_match; done. }
  destruct (lookup_some reply 0) as [a Ha]; [lia|]. destruct (lookup_some reply 1) as [b Hb]; [lia|].
  destruct (lookup_some reply 56) as [count Hc]; [lia|]. rewrite Ha, Hb, Hc. cbn [mbind option_bind].
  assert (slice reply 57 (length reply) = Some (drop (table_start + 18 * 0) reply)) as Hs.
  { unfold slice. rewrite (proj2 (Nat.leb_le 57 _)), Nat.leb_refl by lia. simpl. f_equal. apply take_ge.
    rewrite length_drop. lia. }
  destruct (decide (a = 19)) as [->|Hna]; [destruct (decide (b = 55)) as [->|Hnb]|]; simpl.
  - rewrite Hs. cbn [mbind option_bind]. by rewrite netbios_entries_value.
  - rewrite (proj2 (Z.eqb_neq _ _) Hnb). simpl. repeat case_match; done.
  - rewrite (proj2 (Z.eqb_neq _ _) Hna). simpl. repeat case_match; done.
Qed.

(** the NetBIOS name.  Reading a reply never leaves it.  A name comes out
    exactly when the reply has the request's id and one of the entries it
    counts, wholly inside it, is a unique workstation or server name with
    something printable in it; it is the first such entry's, without its
    padding: at most 15 characters, none outside printable ASCII. *)
Theorem netbiosName_first reply :
  ∃ r, netbiosName reply = Some r ∧ ∀ name,
    (r = Some name ↔
     reply !! 0%nat = Some 19 ∧ reply !! 1%nat = Some 55 ∧
     ∃ count j, reply !! 56%nat = Some count ∧ (j < Z.to_nat count)%nat ∧ (table_start + 18 * S j ≤ length reply)%nat ∧
       usable_name (entry_at reply j) = Some name ∧ ∀ k, (k < j)%nat → usable_name (entry_at reply k) = None) ∧
    (r = Some name → (0 < length name ≤ 15)%nat ∧ Forall printable name).
Proof.
  eexists. split; [apply netbiosName_value|]. intros name.
  assert (∀ count j, first_name count j reply = Some name → (0 < length name ≤ 15)%nat ∧ Forall printable name) as Hok.
  { intros count j (k & _ & _ & Hn & _)%first_name_spec. unfold usable_name in Hn.
    destruct (entry_at reply k !! 15%nat); [|done]. destruct (entry_at reply k !! 16%nat); [|done]. cbv zeta in Hn.
    destruct (_ && _) eqn:Hg in Hn; [|done]. injection Hn as <-. apply andb_true_iff in Hg as [Hg Hp].
    apply andb_true_iff in Hg as [_ Hne]. apply printableb_all in Hp. to_prop. split; [|done].
    pose proof (length_trimStart [32] (reverse (take 15 (entry_at reply k)))) as Hl. unfold trimEnd in *.
    rewrite ?length_reverse, ?length_take in *. lia. }
  split.
  - destruct (decide (reply !! 0%nat = Some 19)) as [->|Ha].
    2:{ split; [|by intros [? _]]. destruct (reply !! 0%nat); [|done]. repeat case_match; done. }
    destruct (decide (reply !! 1%nat = Some 55)) as [->|Hb].
    2:{ split; [|by intros (_ & ? & _)]. destruct (reply !! 1%nat); [|done]. repeat case_match; done. }
    destruct (reply !! 56%nat) as [count|] eqn:Hc; [|split; [done|by intros (_ & _ & count & j & ? & _)]].
    rewrite first_name_spec. split.
    + intros (j & Hj & Hl & Hn & Hk). split; [done|]. split; [done|]. exists count, j. split; [done|]. split; [lia|].
      split; [done|]. split; [done|]. intros k ?. apply Hk. lia.
    + intros (_ & _ & count' & j & [= <-] & Hj & Hl & Hn & Hk). exists j. split; [lia|]. split; [done|].
      split; [done|]. intros k ?. apply Hk. lia.
  - intros Hr. repeat case_match; try done; by eapply Hok.
Qed.

(** ** resolveHostName *)

(** ** Where a name comes from *)

(** What the NetBIOS reply says, trimmed: the exchange's first answer. *)
Definition netbios_says (answers : list answer) (name : list Z) : Prop :=
  ∃ reply nb, answers !! 0%nat ≫= reply_of = Some reply ∧ netbiosName reply = Some (Some nb) ∧
    name = trim SPACES nb.

(** What mDNS says: the name heard already, else the second answer's. *)
Definition mdns_says (ip : ip4) (mdns_name : option (list Z)) (answers : list answer) (name : list Z) : Prop :=
  match mdns_name with
  | Some n => name = cleanDomainName n
  | None => ∃ reply n, answers !! 1%nat ≫= reply_of = Some reply ∧ hostName reply ip = Some (Some n) ∧
      name = cleanDomainName n
  end.

(** A reverse DNS result that says no more than the address: the address
    itself, however written, or a name under the reverse zones. *)
Definition says_address (ip : ip4) (text : list Z) : Prop :=
  text = formatIp ip ∨ in_addr_arpa `suffix_of` text ∨ ip6_arpa `suffix_of` text ∨
  ipStringToBytes text ≠ inl InvalidIpAddress.

(** What reverse DNS says: the host part of a result that is a name, when
    that is no address either. *)
Definition dns_says (ip : ip4) (found : option (list Z)) (name : list Z) : Prop :=
  ∃ buf, found = Some buf ∧ ¬ says_address ip (before 0 buf) ∧ name = cleanDomainName (before 0 buf) ∧
    ipStringToBytes name = inl InvalidIpAddress.

(** A source that says nothing, or nothing but spaces. *)
Definition silent (says : list Z → Prop) : Prop := ∀ name, says name → name = [].

Section Sound.
Context {E : Type} `{Env E}.
Variable os : platform.
Implicit Types (e : E).

Lemma checked_run {A} (a : option A) e b e' t : checked a e = Some (b, e', t) → a = Some b ∧ e' = e ∧ t = [].
Proof. unfold checked. destruct a; naive_solver. Qed.

Lemma dupe_run text e r e' t :
  dupe text e = Some (r, e', t) →
  keeps t (match r with Some (p, _) => [RMem p] | None => [] end) ∧ ∀ p name, r = Some (p, name) → name = text.
Proof.
  intros Hr. unfold dupe in Hr. apply bind_inv in Hr as (p & e1 & t1 & t2 & [_ ->]%ask_inv & Hr & ->).
  apply ret_inv in Hr as (-> & -> & ->). destruct p as [p|]; (split; [|naive_solver]); unfold keeps; simpl; done.
Qed.

Lemma resolve_ptr_keeps text out_len e r e' t :
  0 < out_len → resolve_ptr os (Some text) true out_len e = Some (r, e', t) → keeps t [].
Proof.
  intros Hlen Hr. destruct (decide (os = Windows)) as [->|Hos]; [by apply resolve_ptr_windows_run in Hr as [? _]|].
  apply keeps_keeps_from, keeps_from_neutral. revert Hr.
  assert (logs neutral (resolve_ptr (E := E) os (Some text) true out_len)) as Hl; [|by apply Hl].
  unfold resolve_ptr, ns_inet_pton. pose proof (ns_socket_init_neutral (E := E) os). destruct os; solve_logs.
Qed.

(** A reply is bytes. *)
Lemma reply_bytes xs ip t i a reply :
  answer_ok ip xs t i a → reply_of a = Some reply → bytes reply.
Proof.
  intros [->|(x & sock & data & _ & _ & _ & ->)] Hr; [done|]. unfold reply_of in Hr. simpl in Hr.
  rewrite (proj2 (Z.ltb_ge _ _)) in Hr by lia. injection Hr as <-. apply bytes_take, bytes_buffer.
Qed.

Lemma replies_bytes xs ip t (answers : list answer) (i : nat) reply :
  (∀ i a, answers !! i = Some a → answer_ok ip xs t i a) → answers !! i ≫= reply_of = Some reply → bytes reply.
Proof. intros Ha Hr. apply bind_Some in Hr as (a & Hi & Hr). by eapply reply_bytes; [apply Ha|]. Qed.

Lemma netbiosName_printable reply nb : netbiosName reply = Some (Some nb) → Forall printable nb.
Proof.
  intros Hn. rewrite netbiosName_value in Hn. injection Hn as Hn. repeat case_match; try done.
  apply first_name_spec in Hn as (j & _ & _ & Hn & _). unfold usable_name in Hn. repeat case_match; try done.
  injection Hn as <-. match goal with Hg : _ && _ = true |- _ => apply andb_true_iff in Hg as [_ Hg] end.
  by apply printableb_all.
Qed.

(** A part's answer is what the source says, or nothing at all. *)
Definition heard_as (says : list Z → Prop) (name : list Z) : Prop :=
  (name = [] → silent says) ∧ (name ≠ [] → says name).

Lemma heard_as_none says : (∀ name, ¬ says name) → heard_as says [].
Proof. intros Hn. split; [|done]. intros _ name Hs. by destruct (Hn name). Qed.

Lemma heard_as_only says name : says name → (∀ n, says n → n = name) → heard_as says name.
Proof. intros Hs Hu. split; [|done]. intros -> n Hn. by apply Hu. Qed.

Lemma netbios_heard_run answers e name e' t :
  netbios_heard (answers !! 0%nat ≫= reply_of) e = Some (name, e', t) →
  t = [] ∧ e' = e ∧ heard_as (netbios_says answers) name ∧ Forall printable name.
Proof.
  intros Hr. unfold netbios_heard in Hr. destruct (answers !! 0%nat ≫= reply_of) as [reply|] eqn:Hreply.
  2:{ apply ret_inv in Hr as (-> & -> & ->). split_and!; [done..| |constructor].
      apply heard_as_none. intros name (reply & nb & Hx & _). congruence. }
  apply bind_inv in Hr as (n & e1 & t1 & t2 & (Hn & -> & ->)%checked_run & Hr & ->).
  apply ret_inv in Hr as (-> & -> & ->). split; [done|]. split; [done|]. destruct n as [nb|].
  - split; [|by apply Forall_trim, (netbiosName_printable reply)].
    apply heard_as_only; [by exists reply, nb|]. intros n (reply' & nb' & Hx & Hy & ->). naive_solver.
  - split; [|constructor]. apply heard_as_none. intros n (reply' & nb' & Hx & Hy & _). naive_solver.
Qed.

Lemma hostName_printable packet ip name :
  bytes packet → ip_ok ip → hostName packet ip = Some (Some name) → Forall printable name.
Proof.
  intros Hb Hip Hn. destruct (hostName_total packet ip Hb Hip) as (r & Hr & Hok). rewrite Hr in Hn.
  injection Hn as ->. by apply Hok.
Qed.

Lemma mdns_heard_run ip mdns_name answers e name e' t :
  ip_ok ip → (∀ n, mdns_name = Some n → Forall printable n) →
  (∀ r, answers !! 1%nat ≫= reply_of = Some r → bytes r) →
  mdns_heard ip mdns_name (answers !! 1%nat ≫= reply_of) e = Some (name, e', t) →
  t = [] ∧ e' = e ∧ heard_as (mdns_says ip mdns_name answers) name ∧ Forall printable name.
Proof.
  intros Hip Hm Hb Hr. unfold mdns_heard in Hr. destruct mdns_name as [n|].
  { apply ret_inv in Hr as (-> & -> & ->). do 2 (split; [done|]). split; [|by apply Forall_clean, Hm].
    by apply heard_as_only. }
  destruct (answers !! 1%nat ≫= reply_of) as [reply|] eqn:Hreply.
  2:{ apply ret_inv in Hr as (-> & -> & ->). split_and!; [done..| |constructor].
      apply heard_as_none. intros name (reply & n & Hx & _). congruence. }
  apply bind_inv in Hr as (n & e1 & t1 & t2 & (Hn & -> & ->)%checked_run & Hr & ->).
  apply ret_inv in Hr as (-> & -> & ->). do 2 (split; [done|]). destruct n as [n|].
  - split; [|apply Forall_clean; eapply hostName_printable; [|done|exact Hn]; auto].
    apply heard_as_only; [by exists reply, n|]. intros m (reply' & n' & Hx & Hy & ->). naive_solver.
  - split; [|constructor]. apply heard_as_none. intros m (reply' & n' & Hx & Hy & _). naive_solver.
Qed.

Lemma is_address_iff s : is_address s = false ↔ ipStringToBytes s = inl InvalidIpAddress.
Proof. unfold is_address. destruct (ipStringToBytes s) as [[]|]; naive_solver. Qed.

Lemma reverse_dns_run ip e name e' t :
  reverse_dns os ip e = Some (name, e', t) →
  ∃ found, resolve_ptr os (Some (formatIp ip)) true 256 e = Some (found, e', t) ∧ keeps t [] ∧
    heard_as (dns_says ip found) name.
Proof.
  intros Hr. unfold reverse_dns in Hr. cbv zeta in Hr.
  apply bind_inv in Hr as (found & e1 & t1 & t2 & Hp & Hr & ->).
  apply ret_inv in Hr as (-> & -> & ->). rewrite app_nil_r. exists found. split; [done|].
  split; [exact (resolve_ptr_keeps _ 256 _ _ _ _ eq_refl Hp)|]. destruct found as [buf|].
  2:{ apply heard_as_none. by intros name (buf & ? & _). }
  destruct (_ && _) eqn:Hg.
  - apply andb_true_iff in Hg as [Hg H4]. apply andb_true_iff in Hg as [Hg H3].
    apply andb_true_iff in Hg as [H1 H2]. unfold endsWith in *. rewrite negb_true_iff in *. to_prop.
    apply is_address_iff in H4.
    destruct (is_address (cleanDomainName _)) eqn:Ha.
    + apply heard_as_none. intros name (buf' & [= <-] & _ & -> & Hx). apply is_address_iff in Hx. congruence.
    + apply heard_as_only; [|by intros n (buf' & [= <-] & _ & -> & _)]. exists buf. split; [done|].
      split; [by intros [?|[?|[?|?]]]|]. split; [done|]. by apply is_address_iff.
  - apply heard_as_none. intros name (buf' & [= <-] & Hno & _). revert Hg. apply not_false_iff_true.
    rewrite !andb_true_iff, !negb_true_iff. unfold endsWith, says_address in *. rewrite !bool_decide_eq_false.
    rewrite is_address_iff. destruct (ipStringToBytes (before 0 buf)) as [[]|] eqn:Hx; try tauto.
    all: exfalso; apply Hno; do 3 right; congruence.
Qed.

(** The name in its block, or no block for want of memory. *)
Definition handed_out (name : list Z) (r : option (Z * list Z)) (t : list event) : Prop :=
  match r with
  | Some (_, text) => text = name
  | None => Ev (Malloc (Z.of_nat (length name))) None ∈ t
  end.

(** Where a call's result comes from, by what its exchange brought and
    what reverse DNS found: NetBIOS first, then mDNS, then reverse DNS,
    which is asked only when both said nothing. *)
Inductive resolved (ip : ip4) (mdns_name : option (list Z)) (answers : list answer) (e : E) :
    option (Z * list Z) → list event → Prop :=
  | by_netbios name r u :
      name ≠ [] → netbios_says answers name → Forall printable name → handed_out name r u →
      resolved ip mdns_name answers e r u
  | by_mdns name r u :
      silent (netbios_says answers) →
      name ≠ [] → mdns_says ip mdns_name answers name → Forall printable name → handed_out name r u →
      resolved ip mdns_name answers e r u
  | by_dns found e' u1 name r u :
      silent (netbios_says answers) → silent (mdns_says ip mdns_name answers) →
      resolve_ptr os (Some (formatIp ip)) true 256 e = Some (found, e', u1) →
      name ≠ [] → dns_says ip found name → handed_out name r u →
      resolved ip mdns_name answers e r (u1 ++ u)
  | by_none found e' u :
      silent (netbios_says answers) → silent (mdns_says ip mdns_name answers) →
      resolve_ptr os (Some (formatIp ip)) true 256 e = Some (found, e', u) →
      silent (dns_says ip found) →
      resolved ip mdns_name answers e None u.

Lemma dupe_handed text e r e' t :
  dupe text e = Some (r, e', t) →
  keeps t (match r with Some (p, _) => [RMem p] | None => [] end) ∧ handed_out text r t.
Proof.
  intros Hr. unfold dupe in Hr. apply bind_inv in Hr as (p & e1 & t1 & t2 & [_ ->]%ask_inv & Hr & ->).
  apply ret_inv in Hr as (-> & -> & ->). destruct p as [p|]; (split; [by unfold keeps|]); simpl; [done|].
  apply list_elem_of_here.
Qed.

(** The requests of the call: NetBIOS, and mDNS unless a name was heard. *)
Definition name_requests (query : list Z) (mdns_name : option (list Z)) : list ns_udp_exchange :=
  netbios_exchange :: match mdns_name with None => [Exchange query 1024 MDNS_PORT] | Some _ => [] end.

Lemma nonempty (text : list Z) : if (0 <? length text)%nat then text ≠ [] else text = [].
Proof. by destruct text. Qed.

Lemma resolveHostName_run fuel ip mdns_name e r e' t :
  ip_ok ip → (∀ n, mdns_name = Some n → Forall printable n) →
  resolveHostName os fuel ip mdns_name e = Some (r, e', t) →
  keeps t (match r with Some (p, _) => [RMem p] | None => [] end) ∧
  ∃ query answers e1 t1 t2,
    reverseQuery ip = Some query ∧
    udp_exchange_all os fuel (Some ip) (name_requests query mdns_name) NAME_QUERY_TIMEOUT_MS e
      = Some (answers, e1, t1) ∧
    t = t1 ++ t2 ∧ resolved ip mdns_name answers e1 r t2.
Proof.
  intros Hip Hm Hr. unfold resolveHostName in Hr.
  apply bind_inv in Hr as (query & e1 & t1 & t2 & (Hq & -> & ->)%checked_run & Hr & ->). cbv zeta in Hr.
  apply bind_inv in Hr as (answers & e2 & t3 & t4 & Hx & Hr & ->). fold (name_requests query mdns_name) in Hx.
  apply udp_exchange_all_run in Hx as Hu. destruct Hu as (Hk3 & _ & Ha).
  apply bind_inv in Hr as (nb & e3 & t5 & t6 & Hnb & Hr & ->).
  apply netbios_heard_run in Hnb as (-> & -> & [Hnb0 Hnb1] & Hnbp).
  assert (∀ u held, keeps u held → keeps (t3 ++ u) held) as Hk
    by (intros u held Hu; apply keeps_keeps_from; by eapply keeps_from_app).
  cut (keeps t6 (match r with Some (p, _) => [RMem p] | None => [] end) ∧ resolved ip mdns_name answers e2 r t6).
  { intros [Hk6 Hres]. simpl. split; [by apply Hk|]. by exists query, answers, e2, t3, t6. }
  clear Hk. pose proof (nonempty nb) as Hne. destruct (0 <? length nb)%nat.
  { apply dupe_handed in Hr as [Hk4 Hh]. split; [done|]. eapply by_netbios; eauto. }
  apply bind_inv in Hr as (heard & e4 & t7 & t8 & Hh & Hr & ->).
  apply mdns_heard_run in Hh as (-> & -> & [Hm0 Hm1] & Hmp); [|done|done|intros; by eapply replies_bytes].
  pose proof (nonempty heard) as Hne2. destruct (0 <? length heard)%nat.
  { apply dupe_handed in Hr as [Hk4 Hh]. split; [done|]. eapply by_mdns; eauto. }
  apply bind_inv in Hr as (clean & e5 & t9 & t10 & Hc & Hr & ->).
  apply reverse_dns_run in Hc as (found & Hp & Hk9 & [Hd0 Hd1]).
  cbn [app]. pose proof (nonempty clean) as Hne3. destruct (0 <? length clean)%nat.
  - apply dupe_handed in Hr as [Hk4 Hh]. split; [|eapply by_dns; eauto].
    apply keeps_keeps_from, (keeps_from_app _ t9 []); [exact Hk9|exact Hk4].
  - apply ret_inv in Hr as (-> & -> & ->). rewrite app_nil_r. split; [done|]. eapply by_none; eauto.
Qed.
End Sound.

Section Resolved.
Context {E : Type} `{Env E}.

(** C35: a resolved name.  What [resolveHostName] hands out is, in the one
    block the call keeps and never empty: the NetBIOS reply's name, trimmed;
    when that says nothing, the mDNS name (heard before, or the reply's)
    without its domain; when both say nothing, the host part of what reverse
    DNS found, which is not the address it was asked about, not an address
    however written, no name under the reverse zones, and whose host part
    is no address either.  NetBIOS and mDNS names are printable throughout.
    Without a name every source was asked and said nothing of the kind, or
    memory was short; nothing is kept then. *)
Theorem resolveHostName_sound os fuel ip mdns_name (e : E) r e' t :
  ip_ok ip → (∀ n, mdns_name = Some n → Forall printable n) →
  resolveHostName os fuel ip mdns_name e = Some (r, e', t) →
  keeps t (match r with Some (p, _) => [RMem p] | None => [] end) ∧
  ∃ query answers e1 t1 t2,
    reverseQuery ip = Some query ∧
    udp_exchange_all os fuel (Some ip) (name_requests query mdns_name) NAME_QUERY_TIMEOUT_MS e
      = Some (answers, e1, t1) ∧
    t = t1 ++ t2 ∧ resolved os ip mdns_name answers e1 r t2.
Proof. apply resolveHostName_run. Qed.
End Resolved.

Section Ends.
Context {E : Type} `{ClockLaw E}.

Lemma total_dupe text : total (dupe (E := E) text).
Proof. unfold dupe. solve_total. Qed.

Lemma total_resolve_ptr os text : total (resolve_ptr (E := E) os (Some text) true 256).
Proof.
  unfold resolve_ptr, ns_inet_pton, ns_socket_init, win_wsa_init_once, win_wsa_do_startup. solve_total.
Qed.

Lemma checked_total {A} (a : option A) (e : E) : is_Some a → is_Some (checked a e).
Proof. intros [b ->]. by eexists. Qed.

Lemma netbios_heard_total reply (e : E) : is_Some (netbios_heard reply e).
Proof.
  unfold netbios_heard. destruct reply as [reply|]; [|by eexists].
  rewrite (netbiosName_value reply). by eexists.
Qed.

Lemma mdns_heard_total ip mdns_name reply (e : E) :
  ip_ok ip → (∀ r, reply = Some r → bytes r) → is_Some (mdns_heard ip mdns_name reply e).
Proof.
  intros Hip Hb. unfold mdns_heard. destruct mdns_name; [by eexists|]. destruct reply as [reply|]; [|by eexists].
  destruct (hostName_total reply ip (Hb _ eq_refl) Hip) as (r & Hr & _). rewrite Hr. by eexists.
Qed.

Lemma reverse_dns_total os ip : total (reverse_dns (E := E) os ip).
Proof. unfold reverse_dns. apply total_bind; [apply total_resolve_ptr|]. intros. apply total_ret. Qed.

(** Programs that answer at one environment. *)
Lemma answers_bind {A B} (m : M E A) (k : A → M E B) e :
  is_Some (m e) → (∀ a e' t, m e = Some (a, e', t) → is_Some (k a e')) → is_Some ((m ≫= k) e).
Proof.
  intros [[[a e'] t] Hm] Hk. destruct (Hk a e' t Hm) as [[[b e''] u] Hb]. eexists. by eapply bind_some.
Qed.

(** looking up a name ends: on Linux and macOS, for every host, whatever
    it answers and whether or not it does, and no reply makes the readers
    leave their buffers. *)
Theorem resolveHostName_terminates os ip mdns_name (e : E) :
  os ≠ Windows → ip_ok ip → ∃ n, ∀ m, (n ≤ m)%nat → is_Some (resolveHostName os m ip mdns_name e).
Proof.
  intros Hos Hip. destruct (reverseQuery_some ip Hip) as [query Hq].
  set (xs := netbios_exchange :: match mdns_name with None => [Exchange query 1024 MDNS_PORT] | Some _ => [] end).
  destruct (udp_exchange_all_ends os ip xs NAME_QUERY_TIMEOUT_MS e) as [n Hn];
    [done|unfold NAME_QUERY_TIMEOUT_MS; lia|].
  exists n. intros m Hm. unfold resolveHostName. rewrite Hq.
  apply answers_bind; [by apply checked_total|]. intros q e1 t1 ([= <-] & -> & _)%checked_run. cbv zeta. fold xs.
  apply answers_bind; [by apply Hn|]. intros answers e2 t2 (_ & _ & Ha)%udp_exchange_all_run.
  apply answers_bind; [apply netbios_heard_total|]. intros nb e3 t3 _.
  destruct (0 <? length nb)%nat; [apply total_dupe|].
  apply answers_bind; [apply mdns_heard_total; [done|intros; by eapply replies_bytes]|]. intros heard e4 t4 _.
  destruct (0 <? length heard)%nat; [apply total_dupe|].
  apply answers_bind; [apply reverse_dns_total|]. intros clean e5 t5 _.
  destruct (0 <? length clean)%nat; [apply total_dupe|by eexists].
Qed.
End Ends.

(** ** Concrete runs *)

(** A Node Status Response with a group name and then "NAS". *)
Definition nas_status : list Z :=
  [19; 55; 132; 0] ++ replicate 52 0 ++ [2]
    ++ ([87; 71] ++ replicate 13 32 ++ [0; 132; 0]) ++ ([78; 65; 83] ++ replicate 12 32 ++ [0; 4; 0]).

Lemma netbiosName_first_witness :
  netbiosName nas_status = Some (Some [78; 65; 83]) ∧
  (0 < length [78; 65; 83] ≤ 15)%nat ∧ Forall printable [78; 65; 83].
Proof.
  split; [by vm_compute|]. destruct (netbiosName_first nas_status) as (r & Hr & Hn).
  vm_compute in Hr. injection Hr as <-. destruct (Hn [78; 65; 83]) as [_ Hok]. exact (Hok eq_refl).
Defined.

Definition nas_host : script := set_queues [Ok [1]; Ok [0; 1]] [] [] [Ok (nas_status, idle_addr)] [] [] [] (idle 0).

Lemma resolveHostName_sound_witness :
  ∃ e' t, resolveHostName Linux 9 (IP 10 0 0 7) None nas_host = Some (Some (5, [78; 65; 83]), e', t) ∧
    keeps t [RMem 5] ∧
    ∃ query answers e1 t1 t2,
      reverseQuery (IP 10 0 0 7) = Some query ∧
      udp_exchange_all Linux 9 (Some (IP 10 0 0 7)) (name_requests query None) NAME_QUERY_TIMEOUT_MS nas_host
        = Some (answers, e1, t1) ∧
      t = t1 ++ t2 ∧ resolved Linux (IP 10 0 0 7) None answers e1 (Some (5, [78; 65; 83])) t2.
Proof.
  assert (∃ e' t, resolveHostName Linux 9 (IP 10 0 0 7) None nas_host = Some (Some (5, [78; 65; 83]), e', t))
    as (e' & t & Hr) by (eexists _, _; vm_compute; reflexivity).
  exists e', t. split; [exact Hr|].
  apply (resolveHostName_sound Linux 9 (IP 10 0 0 7) None nas_host (Some (5, [78; 65; 83])) e' t); [|done|exact Hr].
  repeat (apply Forall_cons; split; [unfold is_u8; simpl; lia|]). constructor.
Defined.

Lemma resolveHostName_terminates_witness :
  ∃ n, ∀ m, (n ≤ m)%nat → is_Some (resolveHostName Linux m (IP 10 0 0 7) None nas_host).
Proof.
  apply (resolveHostName_terminates Linux (IP 10 0 0 7) None nas_host); [done|].
  repeat (apply Forall_cons; split; [unfold is_u8; simpl; lia|]). constructor.
Defined.
