(* ===== verification/Packed.v ===== *)
(** * packed_db.zig: the embedded tables

    A table is a header, records of one size sorted by key, and a pool of
    strings.  [open] checks a file's header; [None] is a read outside a
    slice, which the theorems exclude.  The binary search of the lookups in
    oui.zig, ports.zig and std.sort is written once, over any comparison
    with the searched key. *)
From S2P Require Import Prelude Words Text.
Open Scope Z_scope.

Definition HEADER_SIZE : nat := 24.

Record Table := {
  entry_count : nat;
  record_size : nat;
  records : list Z;
  strings : list Z
}.

(** std.mem.readInt(u32, bytes[pos..][0..4], .little), and u16 *)
Definition readU32le (bs : list Z) (pos : nat) : option Z := le_value <$> slice bs pos (pos + 4).
Definition readU16le (bs : list Z) (pos : nat) : option Z := le_value <$> slice bs pos (pos + 2).

Definition record (self : Table) (index : nat) : option (list Z) :=
  let start := (index * record_size self)%nat in
  slice (records self) start (start + record_size self).

(** The compile errors. *)
Inductive open_error :=
| SmallerThanHeader | BadMagic | BadVersion | RecordsBeyondFile | StringsMisplaced | StringsBeyondFile.

Definition open (file magic : list Z) (version : Z) (record_size : nat) : option (open_error + Table) :=
  if (length file <? HEADER_SIZE)%nat then Some (inl SmallerThanHeader)
  else
    file_magic ← slice file 0 4;
    file_version ← readU32le file 4;
    count ← readU32le file 8;
    table_offset ← readU32le file 12;
    strings_offset ← readU32le file 16;
    strings_len ← readU32le file 20;
    if negb (bool_decide (file_magic = magic)) then Some (inl BadMagic)
    else if negb (file_version =? version) then Some (inl BadVersion)
    else
      let table_end := table_offset + count * Z.of_nat record_size in
      if table_end >? Z.of_nat (length file) then Some (inl RecordsBeyondFile)
      else if negb (strings_offset =? table_end) then Some (inl StringsMisplaced)
      else if strings_offset + strings_len >? Z.of_nat (length file) then Some (inl StringsBeyondFile)
      else
        records ← slice file (Z.to_nat table_offset) (Z.to_nat table_end);
        strings ← slice file (Z.to_nat strings_offset) (Z.to_nat (strings_offset + strings_len));
        Some (inr {| entry_count := Z.to_nat count; record_size := record_size;
                     records := records; strings := strings |}).

(** std.mem.order of bytes *)
Fixpoint mem_order (a b : list Z) : comparison :=
  match a, b with
  | [], [] => Eq
  | [], _ => Lt
  | _, [] => Gt
  | x :: a, y :: b => match x ?= y with Eq => mem_order a b | c => c end
  end.

(** The binary search: [order mid] compares the key with entry [mid]; [n]
    bounds the rounds. *)
Fixpoint search (n : nat) (order : nat → option comparison) (low high : nat) : option (option nat) :=
  match n with
  | O => None
  | S n =>
    if (low <? high)%nat then
      let mid := (low + (high - low) / 2)%nat in
      c ← order mid;
      match c with
      | Lt => search n order low mid
      | Gt => search n order (mid + 1) high
      | Eq => Some (Some mid)
      end
    else Some None
  end.

(** Every round leaves a shorter range. *)
Definition binary_search (order : nat → option comparison) (count : nat) : option (option nat) :=
  search (S count) order 0 count.

(** ** Byte order *)

Lemma mem_order_eq a : ∀ b, mem_order a b = Eq ↔ a = b.
Proof.
  induction a as [|x a IH]; intros [|y b]; cbn [mem_order]; try done.
  destruct (Z.compare_spec x y) as [->|Hl|Hl]; [rewrite IH; split; congruence|..];
    (split; [done|]; intros Heq; injection Heq as -> _; lia).
Qed.

Lemma mem_order_opp a : ∀ b, mem_order a b = CompOpp (mem_order b a).
Proof.
  induction a as [|x a IH]; intros [|y b]; cbn [mem_order]; try done.
  rewrite (Z.compare_antisym y x). destruct (y ?= x); simpl; [apply IH|done..].
Qed.

Lemma mem_order_trans a : ∀ b c, mem_order a b = Lt → mem_order b c = Lt → mem_order a c = Lt.
Proof.
  induction a as [|x a IH]; intros [|y b] [|z c]; cbn [mem_order]; try done.
  destruct (Z.compare_spec x y) as [->|Hxy|Hxy]; intros Hab; try done;
    destruct (Z.compare_spec y z) as [->|Hyz|Hyz]; intros Hbc; try done.
  - by eapply IH.
  - by rewrite (proj2 (Z.compare_lt_iff x z)).
  - by rewrite (proj2 (Z.compare_lt_iff x z)) by lia.
Qed.

(** ** The search *)

(** Entries in ascending order, as the searched key sees them: what lies
    below one that is too large is not too small, and the other way round. *)
Definition ordered (order : nat → option comparison) (count : nat) : Prop :=
  ∀ i j c d, (i < j < count)%nat → order i = Some c → order j = Some d → (c = Lt → d = Lt) ∧ (d = Gt → c = Gt).

Lemma search_total order : ∀ n low high,
  (high - low < n)%nat → (∀ i, (i < high)%nat → is_Some (order i)) →
  ∃ r, search n order low high = Some r ∧ ∀ i, r = Some i → (low ≤ i < high)%nat ∧ order i = Some Eq.
Proof.
  induction n as [|n IH]; intros low high Hn Ho; [lia|]. cbn [search].
  destruct (low <? high)%nat eqn:Hl; to_prop; [|by exists None].
  set (mid := (low + (high - low) / 2)%nat).
  assert (low ≤ mid < high)%nat as Hmid.
  { subst mid. pose proof (Nat.div_lt (high - low) 2). split; [apply Nat.le_add_r|lia]. }
  destruct (Ho mid) as [c Hc]; [lia|]. rewrite Hc. cbn [mbind option_bind]. destruct c.
  - eexists. split; [done|]. by intros i [= <-].
  - destruct (IH low mid) as (r & Hr & Hi); [lia|intros; apply Ho; lia|]. exists r. split; [done|].
    intros i Hri. destruct (Hi i Hri). split; [lia|done].
  - destruct (IH (mid + 1)%nat high) as (r & Hr & Hi); [lia|done|]. exists r. split; [done|].
    intros i Hri. destruct (Hi i Hri). split; [lia|done].
Qed.

Lemma search_complete order count : ∀ n low high i,
  ordered order count → (high ≤ count)%nat → search n order low high = Some None →
  (low ≤ i < high)%nat → order i ≠ Some Eq.
Proof.
  induction n as [|n IH]; intros low high i Ho Hhigh Hs Hi Heq; [done|]. cbn [search] in Hs.
  rewrite (proj2 (Nat.ltb_lt low high)) in Hs by lia. set (mid := (low + (high - low) / 2)%nat) in *.
  assert (low ≤ mid < high)%nat as Hmid.
  { subst mid. pose proof (Nat.div_lt (high - low) 2). split; [apply Nat.le_add_r|lia]. }
  destruct (order mid) as [c|] eqn:Hc; [|done]. cbn [mbind option_bind] in Hs. destruct c; [done|..].
  - destruct (decide (i < mid)%nat); [exact (IH low mid i Ho ltac:(lia) Hs ltac:(lia) Heq)|].
    destruct (decide (i = mid)) as [->|]; [congruence|]. destruct (Ho mid i Lt Eq) as [Hx _]; [lia|done..|].
    by discriminate Hx.
  - destruct (decide (mid < i)%nat); [exact (IH (mid + 1)%nat high i Ho Hhigh Hs ltac:(lia) Heq)|].
    destruct (decide (i = mid)) as [->|]; [congruence|]. destruct (Ho i mid Eq Gt) as [_ Hx]; [lia|done..|].
    by discriminate Hx.
Qed.

Lemma binary_search_spec order count :
  (∀ i, (i < count)%nat → is_Some (order i)) → ordered order count →
  ∃ r, binary_search order count = Some r ∧
    match r with
    | Some i => (i < count)%nat ∧ order i = Some Eq
    | None => ∀ i, (i < count)%nat → order i ≠ Some Eq
    end.
Proof.
  intros Ho Hord. destruct (search_total order (S count) 0 count) as (r & Hr & Hi); [lia|done|].
  exists r. split; [done|]. destruct r as [i|]; [destruct (Hi i eq_refl); split; [lia|done]|].
  intros i Hlt. apply (search_complete order count (S count) 0 count i Hord (le_n _) Hr). lia.
Qed.

(** Keys in ascending order are ordered for every searched key. *)
Definition ascending (key : nat → option (list Z)) (count : nat) : Prop :=
  ∀ i j k l, (i < j < count)%nat → key i = Some k → key j = Some l → mem_order k l ≠ Gt.

Lemma ordered_keys (key : nat → option (list Z)) order count target :
  ascending key count → (∀ i, (i < count)%nat → order i = mem_order target <$> key i) → ordered order count.
Proof.
  intros Hk Ho i j c d Hij Hi Hj. rewrite Ho in Hi, Hj by lia.
  apply fmap_Some in Hi as (k & Hi & ->). apply fmap_Some in Hj as (l & Hj & ->).
  pose proof (Hk i j k l Hij Hi Hj) as Hle. destruct (mem_order k l) eqn:Hkl; [|split|done].
  - apply mem_order_eq in Hkl as ->. by split.
  - intros Ht. by eapply mem_order_trans.
  - intros Ht. rewrite mem_order_opp in Ht. rewrite mem_order_opp.
    destruct (mem_order l target) eqn:Hl; try done. by rewrite (mem_order_trans k l target).
Qed.

(** ** Files *)

(** What a table's parts promise: whole records, and sizes a header counts. *)
Record table_ok (self : Table) : Prop := {
  to_records : length (records self) = (entry_count self * record_size self)%nat;
  to_strings : Z.of_nat (length (strings self)) < 4294967296;
  to_bytes : bytes (records self) ∧ bytes (strings self)
}.

Lemma record_some self i :
  table_ok self → (i < entry_count self)%nat → ∃ r, record self i = Some r ∧ length r = record_size self.
Proof.
  intros Hok Hi. unfold record. pose proof (to_records _ Hok) as Hr.
  destruct (slice_some (records self) (i * record_size self) (i * record_size self + record_size self))
    as (r & Hs & Hl); [lia|rewrite Hr; nia|]. exists r. split; [done|lia].
Qed.

Lemma slice_bytes packet a b s : bytes packet → slice packet a b = Some s → bytes s.
Proof. intros Hb. unfold slice. destruct (_ && _); [|done]. intros [= <-]. by apply bytes_take, bytes_drop. Qed.

Lemma readU32le_some bs pos :
  bytes bs → (pos + 4 ≤ length bs)%nat → ∃ v, readU32le bs pos = Some v ∧ 0 <= v < 4294967296.
Proof.
  intros Hb Hp. unfold readU32le. destruct (slice_some bs pos (pos + 4)) as (s & Hs & Hl); [lia|done|].
  rewrite Hs. eexists. split; [done|]. pose proof (le_value_range s (slice_bytes _ _ _ _ Hb Hs)) as Hr.
  rewrite Hl in Hr. by replace (pos + 4 - pos)%nat with 4%nat in Hr by lia.
Qed.

(** The bytes of a file from [pos], [n] of them, and a little-endian field. *)
Definition span (file : list Z) (pos n : nat) : list Z := take n (drop pos file).
Definition field (file : list Z) (pos : nat) : Z := le_value (span file pos 4).

Lemma field_read file pos :
  bytes file → (pos + 4 ≤ length file)%nat →
  readU32le file pos = Some (field file pos) ∧ 0 <= field file pos < 4294967296.
Proof.
  intros Hb Hp. destruct (readU32le_some file pos Hb Hp) as (v & Hv & Hr).
  unfold readU32le, slice in *. destruct (_ && _); [|done]. injection Hv as <-. unfold field, span.
  by replace (pos + 4 - pos)%nat with 4%nat in * by lia.
Qed.

Lemma slice_span file a b : (a ≤ b ≤ length file)%nat → slice file a b = Some (span file a (b - a)).
Proof. intros [H1 H2]. unfold slice. by rewrite !(proj2 (Nat.leb_le _ _)). Qed.

Lemma span_length file a n : (a + n ≤ length file)%nat → length (span file a n) = n.
Proof. intros. unfold span. rewrite length_take, length_drop. lia. Qed.

Lemma span_span file a n b m : (b + m ≤ n)%nat → span (span file a n) b m = span file (a + b) m.
Proof. intros. unfold span. rewrite skipn_firstn_comm, take_take, drop_drop. f_equal. lia. Qed.

(** Where the records end, by the header. *)
Definition table_end (file : list Z) (size : nat) : Z := field file 12 + field file 8 * Z.of_nat size.

(** What the header of a file says is wrong with it, if anything; the checks
    in their order. *)
Definition open_result (file magic : list Z) (version : Z) (size : nat) (r : open_error + Table) : Prop :=
  match r with
  | inl SmallerThanHeader => (length file < 24)%nat
  | _ => (24 ≤ length file)%nat ∧
    match r with
    | inl BadMagic => take 4 file ≠ magic
    | _ => take 4 file = magic ∧
      match r with
      | inl BadVersion => field file 4 ≠ version
      | _ => field file 4 = version ∧
        match r with
        | inl RecordsBeyondFile => Z.of_nat (length file) < table_end file size
        | _ => table_end file size <= Z.of_nat (length file) ∧
          match r with
          | inl StringsMisplaced => field file 16 ≠ table_end file size
          | _ => field file 16 = table_end file size ∧
            match r with
            | inl StringsBeyondFile => Z.of_nat (length file) < field file 16 + field file 20
            | inl _ => False
            | inr self => field file 16 + field file 20 <= Z.of_nat (length file) ∧
              self = {| entry_count := Z.to_nat (field file 8); record_size := size;
                records := span file (Z.to_nat (field file 12)) (Z.to_nat (field file 8) * size);
                strings := span file (Z.to_nat (field file 16)) (Z.to_nat (field file 20)) |}
            end
          end
        end
      end
    end
  end.

Lemma open_result_of file magic version size :
  bytes file → ∃ r, open file magic version size = Some r ∧ open_result file magic version size r.
Proof.
  intros Hb. unfold open. destruct (length file <? HEADER_SIZE)%nat eqn:Hlen;
    unfold HEADER_SIZE in Hlen; to_prop; [by eexists|].
  rewrite (slice_span file 0 4) by lia. unfold span. rewrite drop_0.
  destruct (field_read file 4) as (-> & _); [done|lia|].
  destruct (field_read file 8) as (-> & Hc); [done|lia|].
  destruct (field_read file 12) as (-> & Ho); [done|lia|].
  destruct (field_read file 16) as (-> & Hs); [done|lia|].
  destruct (field_read file 20) as (-> & Hl); [done|lia|]. cbn [mbind option_bind]. cbv zeta.
  fold (table_end file size).
  destruct (bool_decide (take (4 - 0) file = magic)) eqn:H1; cbn [negb];
    to_prop; [|eexists; split; [done|]; simpl; splits; done || lia].
  destruct (field file 4 =? version) eqn:H2; cbn [negb];
    to_prop; [|eexists; split; [done|]; simpl; splits; done || lia].
  destruct (_ >? _) eqn:H3; to_prop; [eexists; split; [done|]; simpl; splits; done || lia|].
  destruct (field file 16 =? _) eqn:H4; cbn [negb];
    to_prop; [|eexists; split; [done|]; simpl; splits; done || lia].
  destruct (_ >? _) eqn:H5; to_prop; [eexists; split; [done|]; simpl; splits; done || lia|].
  unfold table_end in *. rewrite !slice_span by nia. cbn [mbind option_bind]. eexists. split; [done|]. simpl.
  splits; try (done || (unfold table_end; lia)). do 2 f_equal; nia.
Qed.

Lemma opened_record file size i off n self :
  (off + n * size ≤ length file)%nat → (i < n)%nat → records self = span file off (n * size) →
  record_size self = size → record self i = Some (span file (off + i * size) size).
Proof.
  intros Hl Hi Hrec Hs. unfold record. rewrite Hrec, Hs, slice_span by (rewrite span_length by lia; nia).
  rewrite span_span by nia. f_equal. f_equal. lia.
Qed.

Lemma opened_ok file magic version size self :
  bytes file → open_result file magic version size (inr self) → table_ok self ∧ record_size self = size.
Proof.
  intros Hb. simpl. intros (Hlen & _ & _ & Hend & Hso & Hpool & ->).
  destruct (field_read file 8) as (_ & Hc); [done|lia|]. destruct (field_read file 12) as (_ & Ho); [done|lia|].
  destruct (field_read file 16) as (_ & Hs); [done|lia|]. destruct (field_read file 20) as (_ & Hl); [done|lia|].
  unfold table_end in *. split; [|done]. constructor; simpl;
    [by rewrite span_length by nia|rewrite span_length by lia; lia|].
  unfold span. split; by apply bytes_take, bytes_drop.
Qed.

(** C39: opening a table.  Whatever the file holds, its header is checked
    without a read outside it, each check in its turn: a file too short for a
    header, one with another magic or version, with records that do not end
    inside it, or with a pool that does not start where they end or does not
    end inside it is refused as such; any other is accepted as the table of
    the count, the records and the pool its header names, and record [i] of
    it is the bytes of the file from table_offset plus [i] record sizes. *)
Theorem open_checks file magic version size :
  bytes file →
  ∃ r, open file magic version size = Some r ∧ open_result file magic version size r ∧
    ∀ self, r = inr self → table_ok self ∧
      ∀ i, (i < entry_count self)%nat →
        record self i = Some (span file (Z.to_nat (field file 12) + i * size) size) ∧
        (Z.to_nat (field file 12) + (i + 1) * size ≤ length file)%nat.
Proof.
  intros Hb. destruct (open_result_of file magic version size Hb) as (r & Hr & Hres).
  exists r. split; [done|]. split; [done|]. intros self ->.
  split; [by eapply opened_ok|]. simpl in Hres. destruct Hres as (Hlen & _ & _ & Hend & Hso & Hpool & ->).
  destruct (field_read file 8) as (_ & Hc); [done|lia|]. destruct (field_read file 12) as (_ & Ho); [done|lia|].
  unfold table_end in *. simpl. intros i Hi. split; [|nia].
  apply (opened_record file size i _ (Z.to_nat (field file 8))); simpl; done || nia.
Qed.

(** What the generators write. *)
Definition pack_table (magic : list Z) (version : Z) (size : nat) (recs : list (list Z)) (pool : list Z) : list Z :=
  magic ++ le_bytes 4 version ++ le_bytes 4 (Z.of_nat (length recs)) ++ le_bytes 4 24
    ++ le_bytes 4 (24 + Z.of_nat (length recs * size)) ++ le_bytes 4 (Z.of_nat (length pool)) ++ concat recs ++ pool.

Lemma readU32le_at whole pos pre v post :
  whole = pre ++ le_bytes 4 v ++ post → pos = length pre → is_u32 v → readU32le whole pos = Some v.
Proof.
  intros Hw -> Hv. unfold readU32le.
  rewrite (slice_parts whole _ _ pre (le_bytes 4 v) post) by (done || by rewrite length_le_bytes).
  simpl. f_equal. by apply le_value_u32.
Qed.

Lemma concat_length (recs : list (list Z)) size :
  Forall (λ r, length r = size) recs → length (concat recs) = (length recs * size)%nat.
Proof. induction 1 as [|r recs Hr _ IH]; [done|]. simpl. rewrite length_app. lia. Qed.

(** Record [i] of records written one after the other. *)
Lemma record_concat self recs i r :
  records self = concat recs → Forall (λ r, length r = record_size self) recs → recs !! i = Some r →
  record self i = Some r.
Proof.
  intros Hrec Hall Hi. unfold record. rewrite Hrec. apply list_elem_of_split_length in Hi as (l1 & l2 & -> & ->).
  apply Forall_app in Hall as [H1 [Hr H2]%Forall_cons].
  apply (slice_parts _ _ _ (concat l1) r (concat l2)); [by rewrite concat_app|by rewrite (concat_length l1 _ H1)|].
  rewrite (concat_length l1 _ H1). lia.
Qed.

(** Where a field of a header is. *)
Ltac file_at :=
  first [ done | by rewrite ?length_app, ?length_le_bytes; lia
        | match goal with file := _ |- ?f = _ => subst file; rewrite <- ?app_assoc; reflexivity end ].

(** A file a generator wrote opens as what went into it. *)
Lemma open_packed magic version size recs pool :
  length magic = 4%nat → is_u32 version → Forall (λ r, length r = size) recs →
  Z.of_nat (length recs) < 4294967296 → 24 + Z.of_nat (length recs * size) < 4294967296 →
  Z.of_nat (length pool) < 4294967296 →
  open (pack_table magic version size recs pool) magic version size =
    Some (inr {| entry_count := length recs; record_size := size; records := concat recs; strings := pool |}).
Proof.
  intros Hm Hv Hrecs Hc Ho Hp. pose proof (concat_length recs size Hrecs) as Hcl.
  unfold open, pack_table. set (file := magic ++ _).
  assert (length file = 24 + length recs * size + length pool)%nat as Hlen.
  { subst file. rewrite !length_app, !length_le_bytes, Hcl. lia. }
  rewrite Hlen. unfold HEADER_SIZE. rewrite (proj2 (Nat.ltb_ge _ _)) by lia.
  erewrite (slice_parts file 0 4 []) by (try reflexivity; rewrite Hm; done).
  set (n := Z.of_nat (length recs)) in *. set (o := 24 + Z.of_nat (length recs * size)) in *.
  set (l := Z.of_nat (length pool)) in *.
  assert (is_u32 n ∧ is_u32 o ∧ is_u32 l ∧ is_u32 24) as (? & ? & ? & ?) by (unfold is_u32; lia).
  assert (readU32le file 4 = Some version) as -> by (eapply (readU32le_at file 4 (magic)); file_at).
  assert (readU32le file 8 = Some n) as -> by (eapply (readU32le_at file 8 (magic ++ le_bytes 4 version)); file_at).
  assert (readU32le file 12 = Some 24) as -> by (eapply (readU32le_at file 12 (magic ++ le_bytes 4 version ++ le_bytes 4 n)); file_at).
  assert (readU32le file 16 = Some o) as -> by (eapply (readU32le_at file 16 (magic ++ le_bytes 4 version ++ le_bytes 4 n ++ le_bytes 4 24)); file_at).
  assert (readU32le file 20 = Some l) as -> by (eapply (readU32le_at file 20 (magic ++ le_bytes 4 version ++ le_bytes 4 n ++ le_bytes 4 24 ++ le_bytes 4 o)); file_at).
  assert (n * Z.of_nat size = Z.of_nat (length recs * size)) as Hns by (subst n; by rewrite Nat2Z.inj_mul).
  cbn [mbind option_bind]. rewrite Hns, bool_decide_eq_true_2 by done. rewrite Z.eqb_refl. cbn [negb]. cbv zeta.
  rewrite Z.gtb_ltb, (proj2 (Z.ltb_ge _ _)) by lia. rewrite (proj2 (Z.eqb_eq o _)) by lia. cbn [negb].
  rewrite Z.gtb_ltb, (proj2 (Z.ltb_ge _ _)) by lia.
  set (header := magic ++ le_bytes 4 version ++ le_bytes 4 n ++ le_bytes 4 24 ++ le_bytes 4 o ++ le_bytes 4 l).
  assert (length header = 24)%nat as Hh by (subst header; rewrite !length_app, !length_le_bytes; lia).
  assert (file = header ++ concat recs ++ pool) as Hf by (subst file header; by rewrite <- !app_assoc).
  assert (slice file (Z.to_nat 24) (Z.to_nat (24 + Z.of_nat (length recs * size))) = Some (concat recs)) as ->
    by (apply (slice_parts _ _ _ header _ pool); [exact Hf|lia..]).
  assert (slice file (Z.to_nat o) (Z.to_nat (o + l)) = Some pool) as ->.
  { apply (slice_parts _ _ _ (header ++ concat recs) _ []); rewrite ?length_app; [|lia..].
    by rewrite app_nil_r, Hf, <- app_assoc. }
  cbn [mbind option_bind]. subst n. by rewrite Nat2Z.id.
Qed.

(** A file of one record of two bytes and a pool of three. *)
Definition SMALL : list Z := pack_table [78; 83; 79; 85] 1 2 [[7; 9]] [97; 98; 99].

Lemma open_checks_witness :
  open SMALL [78; 83; 79; 85] 1 2 = Some (inr {| entry_count := 1; record_size := 2; records := [7; 9]; strings := [97; 98; 99] |}) ∧
  ∃ r, open SMALL [78; 83; 79; 85] 1 2 = Some r ∧ open_result SMALL [78; 83; 79; 85] 1 2 r ∧
    ∀ self, r = inr self → table_ok self ∧
      ∀ i, (i < entry_count self)%nat →
        record self i = Some (span SMALL (Z.to_nat (field SMALL 12) + i * 2) 2) ∧
        (Z.to_nat (field SMALL 12) + (i + 1) * 2 ≤ length SMALL)%nat.
Proof.
  split; [by vm_compute|]. apply (open_checks SMALL [78; 83; 79; 85] 1 2).
  repeat (apply Forall_cons; split; [unfold is_u8; vm_compute; intuition congruence|]). constructor.
Defined.
