(* ===== verification/Oui.v ===== *)
(** * oui.zig: hardware manufacturers

    The vendor of a MAC address: by binary search in the embedded table, or
    in the entries of a file the user names, which [loadFile] reads with
    resolver.c's read_file_content.  Of the blocks a database holds, every
    entry's text and the list itself, the calls keep account as the C code's
    do. *)
From S2P Require Import Prelude Words Sys Script Resolver Ranges Text Packed.
Open Scope Z_scope.

Record OuiEntry := { oe_prefix : list Z; oe_vendor : list Z }.

(** ** The embedded table *)

(** "NSOU" *)
Definition OUI_MAGIC : list Z := [78; 83; 79; 85].
Definition PACKED_ENTRY : nat := 8.

(** db.record(mid)'s first three bytes against the searched ones *)
Definition entry_order (db : Table) (target : list Z) (mid : nat) : option comparison :=
  entry ← record db mid;
  key ← slice entry 0 3;
  Some (mem_order target key).

(** [None] is a read outside the table or an overflow of the 32-bit sum. *)
Definition lookupEmbeddedVendor (db : Table) (mac : list Z) : option (option (list Z)) :=
  let target := take 3 mac in
  found ← binary_search (entry_order db target) (entry_count db);
  match found with
  | None => Some None
  | Some mid =>
    entry ← record db mid;
    name_len ← entry !! 3%nat;
    name_offset ← readU32le entry 4;
    name_end ← zu32 (name_offset + name_len);
    if name_end >? Z.of_nat (length (strings db)) then Some None
    else name ← slice (strings db) (Z.to_nat name_offset) (Z.to_nat name_end); Some (Some name)
  end.

(** ** Lines of a file *)

Definition BLANKS : list Z := [32; 9].

(** Three octets of the address column. *)
Definition manuf_prefix (mac_str : list Z) : option (list Z) :=
  '(h0, rest) ← next_token MAC_DELIMITERS mac_str;
  '(h1, rest) ← next_token MAC_DELIMITERS rest;
  '(h2, _) ← next_token MAC_DELIMITERS rest;
  if (length h0 =? 0)%nat || (2 <? length h0)%nat || (length h1 =? 0)%nat || (2 <? length h1)%nat
     || (length h2 =? 0)%nat || (2 <? length h2)%nat
  then None
  else match parseInt_u8 h0 16, parseInt_u8 h1 16, parseInt_u8 h2 16 with
       | inr b0, inr b1, inr b2 => Some [b0; b1; b2]
       | _, _, _ => None
       end.

Definition parseManufLine (raw_line : list Z) : option OuiEntry :=
  let line := trim [32; 9; 13] raw_line in
  if (length line =? 0)%nat || bool_decide (head line = Some 35) then None
  else
    '(mac_str, rest) ← next_token BLANKS line;
    '(short_name, rest) ← next_token BLANKS rest;
    let rest := trimStart BLANKS rest in
    let vendor_name := if (0 <? length rest)%nat then trim BLANKS rest else short_name in
    prefix ← manuf_prefix mac_str;
    Some {| oe_prefix := prefix; oe_vendor := vendor_name |}.

Fixpoint prefix_less (a b : list Z) : bool :=
  match a, b with
  | x :: a, y :: b => if x <? y then true else if x >? y then false else prefix_less a b
  | _, _ => false
  end.

Definition ouiEntryLessThan (a b : OuiEntry) : bool := prefix_less (oe_prefix a) (oe_prefix b).

Fixpoint prefix_order (key prefix : list Z) : comparison :=
  match key, prefix with
  | x :: key, y :: prefix => if x <? y then Lt else if x >? y then Gt else prefix_order key prefix
  | _, _ => Eq
  end.

Definition comparePrefix (key : list Z) (mid : OuiEntry) : comparison := prefix_order key (oe_prefix mid).

(** ** The database *)

(** An entry whose text has a block of its own. *)
Record Loaded := { lo_block : Z; lo_entry : OuiEntry }.

(** std.ArrayList: its block, its capacity, its items. *)
Record ArrayList := { al_block : option Z; al_capacity : nat; al_items : list Loaded }.

Definition empty_array : ArrayList := {| al_block := None; al_capacity := 0; al_items := [] |}.

Record OuiDatabase := { custom_entries : option ArrayList }.

Definition no_entries : OuiDatabase := {| custom_entries := None |}.

(** std.mem.sort, which is stable. *)
Fixpoint insert_entry (e : Loaded) (l : list Loaded) : list Loaded :=
  match l with
  | [] => [e]
  | x :: rest => if ouiEntryLessThan (lo_entry x) (lo_entry e) then x :: insert_entry e rest else e :: l
  end.

Definition sort_entries (l : list Loaded) : list Loaded := foldr insert_entry [] l.

Inductive load_error := LoadFileNotFound | LoadOutOfMemory.

Definition OUI_ENTRY_SIZE : Z := 24.

Section Load.
Context {E : Type} `{Env E}.

(** The standard library's choice of a capacity for so many items. *)
Variable capacity_for : nat → nat.

(** list.append: whether there was room, and the list. *)
Definition append (e : Loaded) (list : ArrayList) : M E (bool * ArrayList) :=
  if (length (al_items list) <? al_capacity list)%nat
  then mret (true, {| al_block := al_block list; al_capacity := al_capacity list; al_items := al_items list ++ [e] |})
  else
    let capacity := capacity_for (S (length (al_items list))) in
    grown ← ask (Realloc (al_block list) (Z.of_nat capacity * OUI_ENTRY_SIZE));
    mret match grown with
         | None => (false, list)
         | Some block => (true, {| al_block := Some block; al_capacity := capacity; al_items := al_items list ++ [e] |})
         end.

Fixpoint free_entries (items : list Loaded) : M E unit :=
  match items with [] => mret () | e :: items => ask (Free (lo_block e));; free_entries items end.

Definition free_list (list : ArrayList) : M E unit :=
  free_entries (al_items list);; free_opt (al_block list).

Definition deinit (self : OuiDatabase) : M E OuiDatabase :=
  match custom_entries self with
  | Some entries => free_list entries;; mret no_entries
  | None => mret self
  end.

(** The while loop over the lines: false when memory is out. *)
Fixpoint load_lines (lines : list (list Z)) (list : ArrayList) : M E (bool * ArrayList) :=
  match lines with
  | [] => mret (true, list)
  | raw_line :: lines =>
    match parseManufLine raw_line with
    | None => load_lines lines list
    | Some entry =>
      duped_vendor ← ask (Malloc (Z.of_nat (length (oe_vendor entry))));
      match duped_vendor with
      | None => mret (false, list)
      | Some block =>
        '(ok, list) ← append {| lo_block := block; lo_entry := entry |} list;
        if (ok : bool) then load_lines lines list else mret (false, list)
      end
    end
  end.

Definition loadFile (path : list Z) (self : OuiDatabase) : M E (OuiDatabase * (load_error + unit)) :=
  self ← deinit self;
  path_z ← ask (Malloc (Z.of_nat (length path) + 1));
  match path_z with
  | None => mret (self, inl LoadOutOfMemory)
  | Some path_z =>
    content ← read_file_content (Some path) true;
    match content with
    | None => ask (Free path_z);; mret (self, inl LoadFileNotFound)
    | Some (block, content) =>
      '(ok, list) ← load_lines (split_scalar 10 content) empty_array;
      if (ok : bool) then
        free_file_content (Some block);;
        ask (Free path_z);;
        mret ({| custom_entries := Some {| al_block := al_block list; al_capacity := al_capacity list;
                                           al_items := sort_entries (al_items list) |} |}, inr ())
      else
        free_list list;;
        free_file_content (Some block);;
        ask (Free path_z);;
        mret (self, inl LoadOutOfMemory)
    end
  end.
End Load.

(** std.sort.binarySearch in the file's entries, then the embedded table. *)
Definition lookup (db : Table) (self : OuiDatabase) (mac : list Z) : option (option (list Z)) :=
  match custom_entries self with
  | Some entries =>
    let target := take 3 mac in
    idx ← binary_search (λ mid, e ← al_items entries !! mid; Some (comparePrefix target (lo_entry e)))
      (length (al_items entries));
    match idx with
    | None => lookupEmbeddedVendor db mac
    | Some idx => e ← al_items entries !! idx; Some (Some (oe_vendor (lo_entry e)))
    end
  | None => lookupEmbeddedVendor db mac
  end.

(** ** The embedded table *)

(** What a list of vendors, searched from its start, says of a prefix. *)
Definition vendor_of (vendors : list OuiEntry) (target : list Z) : option (list Z) :=
  (λ p, oe_vendor p.2) <$> list_find (λ v, oe_prefix v = target) vendors.

(** The record of a vendor whose name is at [off] of the pool. *)
Definition oui_record (v : OuiEntry) (off : nat) : list Z :=
  oe_prefix v ++ [Z.of_nat (length (oe_vendor v))] ++ le_bytes 4 (Z.of_nat off).

Definition vendor_ok (v : OuiEntry) : Prop := length (oe_prefix v) = 3%nat ∧ (length (oe_vendor v) < 256)%nat.

(** The table holds these vendors, in this order. *)
Record holds (db : Table) (vendors : list OuiEntry) : Prop := {
  ho_count : entry_count db = length vendors;
  ho_pool : Z.of_nat (length (strings db)) < 4294967296;
  ho_vendors : Forall vendor_ok vendors;
  ho_records : ∀ i v, vendors !! i = Some v → ∃ off, record db i = Some (oui_record v off) ∧
    slice (strings db) off (off + length (oe_vendor v)) = Some (oe_vendor v)
}.

Definition strictly_ascending (vendors : list OuiEntry) : Prop :=
  ∀ i j v w, (i < j)%nat → vendors !! i = Some v → vendors !! j = Some w → mem_order (oe_prefix v) (oe_prefix w) = Lt.

Lemma vendor_of_some vendors i v :
  strictly_ascending vendors → vendors !! i = Some v → vendor_of vendors (oe_prefix v) = Some (oe_vendor v).
Proof.
  intros Ha Hi. unfold vendor_of. assert (list_find (λ x, oe_prefix x = oe_prefix v) vendors = Some (i, v)) as ->; [|done].
  apply list_find_Some. split; [done|]. split; [done|]. intros j w Hj Hlt Heq. pose proof (Ha j i w v Hlt Hj Hi) as Hc.
  rewrite Heq, (proj2 (mem_order_eq _ _)) in Hc by done. done.
Qed.

Lemma vendor_of_none vendors target :
  (∀ i v, vendors !! i = Some v → oe_prefix v ≠ target) → vendor_of vendors target = None.
Proof.
  intros Hn. unfold vendor_of. destruct (list_find _ _) as [[i v]|] eqn:Hf; [|done].
  apply list_find_Some in Hf as (Hi & Hv & _). by apply Hn in Hi.
Qed.

Lemma oui_record_parts v off :
  vendor_ok v → Z.of_nat off < 4294967296 →
  slice (oui_record v off) 0 3 = Some (oe_prefix v) ∧
  oui_record v off !! 3%nat = Some (Z.of_nat (length (oe_vendor v))) ∧
  readU32le (oui_record v off) 4 = Some (Z.of_nat off).
Proof.
  intros [Hp Hn] Ho. unfold oui_record. split; [|split].
  - eapply (slice_parts _ 0 3 []); [reflexivity|done|by rewrite Hp].
  - rewrite lookup_app_r, Hp by lia. done.
  - eapply (readU32le_at _ 4 (oe_prefix v ++ [_]) _ []); [by rewrite <- app_assoc, app_nil_r|by rewrite length_app, Hp|].
    unfold is_u32. lia.
Qed.

Lemma lookupEmbedded_value db vendors mac :
  holds db vendors → strictly_ascending vendors →
  lookupEmbeddedVendor db mac = Some (vendor_of vendors (take 3 mac)).
Proof.
  intros Hh Ha. unfold lookupEmbeddedVendor. cbv zeta. set (target := take 3 mac).
  assert (∀ i, (i < entry_count db)%nat → ∃ v off, vendors !! i = Some v ∧ vendor_ok v ∧ Z.of_nat off < 4294967296 ∧
    Z.of_nat off + Z.of_nat (length (oe_vendor v)) <= Z.of_nat (length (strings db)) ∧
    record db i = Some (oui_record v off) ∧
    slice (strings db) off (off + length (oe_vendor v)) = Some (oe_vendor v)) as Hrec.
  { intros i Hi. rewrite (ho_count _ _ Hh) in Hi. apply lookup_lt_is_Some in Hi as [v Hv].
    destruct (ho_records _ _ Hh i v Hv) as (off & Hr & Hs). pose proof (slice_length _ _ _ _ Hs) as (_ & _ & Hl).
    pose proof (ho_pool _ _ Hh). exists v, off. split; [done|].
    split; [by eapply Forall_lookup_1; [apply (ho_vendors _ _ Hh)|]|]. by split; [lia|split; [lia|]]. }
  assert (∀ i, (i < entry_count db)%nat → entry_order db target i = mem_order target <$> (oe_prefix <$> vendors !! i)) as Ho.
  { intros i Hi. destruct (Hrec i Hi) as (v & off & Hv & Hok & Hoff & _ & Hr & _). unfold entry_order.
    rewrite Hr. cbn [mbind option_bind]. destruct (oui_record_parts v off Hok Hoff) as [-> _].
    cbn [mbind option_bind]. by rewrite Hv. }
  destruct (binary_search_spec (entry_order db target) (entry_count db)) as (r & -> & Hr).
  - intros i Hi. rewrite Ho by done. destruct (Hrec i Hi) as (v & off & -> & _). by eexists.
  - apply (ordered_keys (λ i, oe_prefix <$> vendors !! i) _ _ target); [|done].
    intros i j k l Hij Hi Hj. apply fmap_Some in Hi as (v & Hi & ->). apply fmap_Some in Hj as (w & Hj & ->).
    rewrite (Ha i j v w) by (done || lia). done.
  - cbn [mbind option_bind]. destruct r as [i|].
    + destruct Hr as [Hi Heq]. rewrite Ho in Heq by done.
      destruct (Hrec i Hi) as (v & off & Hv & Hok & Hoff & Hfit & Hr & Hname). rewrite Hv in Heq. injection Heq as Heq.
      apply mem_order_eq in Heq. rewrite Hr. cbn [mbind option_bind].
      destruct (oui_record_parts v off Hok Hoff) as (_ & Hlen & Hpos). rewrite Hlen. cbn [mbind option_bind].
      rewrite Hpos. cbn [mbind option_bind]. pose proof (ho_pool _ _ Hh). unfold zu32.
      rewrite fits_some by lia. cbn [mbind option_bind]. rewrite Z.gtb_ltb, (proj2 (Z.ltb_ge _ _)) by lia.
      rewrite Nat2Z.id. replace (Z.to_nat (_ + _)) with (off + length (oe_vendor v))%nat by lia.
      rewrite Hname. cbn [mbind option_bind]. rewrite Heq. by rewrite (vendor_of_some vendors i v).
    + rewrite vendor_of_none; [done|]. intros i v Hv Hp. apply (Hr i).
      * rewrite (ho_count _ _ Hh). by eapply lookup_lt_Some.
      * rewrite Ho by (rewrite (ho_count _ _ Hh); by eapply lookup_lt_Some). rewrite Hv. simpl. f_equal.
        by apply mem_order_eq.
Qed.

(** ** Tables nobody checked further *)

(** [open] checks the header only.  A lookup in a table it accepted reads its
    records inside the file, and a name inside the pool, or stops at one
    place: name_offset + name_len is added in 32 bits before it is compared
    with the pool's length, and an entry of the table can make it overflow. *)
Lemma lookupEmbedded_reads file db mac :
  bytes file → open file OUI_MAGIC 1 PACKED_ENTRY = Some (inr db) →
  match lookupEmbeddedVendor db mac with
  | Some None => True
  | Some (Some name) => ∃ a b, slice (strings db) a b = Some name
  | None => ∃ i entry name_len name_offset, (i < entry_count db)%nat ∧ record db i = Some entry ∧
      entry !! 3%nat = Some name_len ∧ readU32le entry 4 = Some name_offset ∧
      4294967296 <= name_offset + name_len
  end.
Proof.
  intros Hb Ho. destruct (open_result_of file OUI_MAGIC 1 PACKED_ENTRY Hb) as (r & Hr & Hres).
  rewrite Ho in Hr. injection Hr as <-. pose proof (opened_ok _ _ _ _ _ Hb Hres) as [Hok Hsize].
  assert (∀ i, (i < entry_count db)%nat → ∃ e, record db i = Some e ∧ length e = 8%nat ∧ bytes e) as Hrec.
  { intros i Hi. destruct (record_some db i Hok Hi) as (e & He & Hl). exists e. split; [done|].
    rewrite Hsize in Hl. split; [done|]. eapply slice_bytes, He. apply (to_bytes _ Hok). }
  unfold lookupEmbeddedVendor. cbv zeta.
  destruct (search_total (entry_order db (take 3 mac)) (S (entry_count db)) 0 (entry_count db))
    as (found & Hf & Hi); [lia| |].
  { intros i Hi. destruct (Hrec i Hi) as (e & He & Hl & _). unfold entry_order. rewrite He. cbn [mbind option_bind].
    rewrite (slice_span e 0 3) by lia. by eexists. }
  unfold binary_search. rewrite Hf. cbn [mbind option_bind]. destruct found as [mid|]; [|done].
  destruct (Hi mid eq_refl) as [Hmid _]. destruct (Hrec mid) as (e & He & Hl & Hbe); [lia|]. rewrite He.
  cbn [mbind option_bind]. destruct (lookup_some e 3) as [n Hn]; [lia|]. rewrite Hn. cbn [mbind option_bind].
  destruct (field_read e 4) as [Hoff Hor]; [done|lia|]. rewrite Hoff. cbn [mbind option_bind].
  assert (is_u8 n) as Hun by (by eapply Forall_lookup_1). unfold is_u8 in Hun. unfold zu32.
  destruct (decide (field e 4 + n < 4294967296)) as [Hlt|].
  - rewrite fits_some by lia. cbn [mbind option_bind]. destruct (_ >? _) eqn:Hg; [done|]. to_prop.
    rewrite slice_span by lia. cbn [mbind option_bind]. eexists _, _. apply slice_span. lia.
  - rewrite fits_none by lia. exists mid, e, n, (field e 4). split; [lia|]. split; [done|]. split; [done|].
    split; [done|lia].
Qed.

(** Such a table: one entry with the largest offset and a name of one byte.
    packed_db.zig says that a bad file fails the build instead of a lookup. *)
Example lookup_overflows :
  let file := pack_table OUI_MAGIC 1 PACKED_ENTRY [[1; 2; 3; 1; 255; 255; 255; 255]] [65] in
  match open file OUI_MAGIC 1 PACKED_ENTRY with
  | Some (inr db) => lookupEmbeddedVendor db [1; 2; 3; 4; 5; 6] = None
  | _ => False
  end.
Proof. vm_compute. reflexivity. Qed.

(** The file generate_oui.py writes, the names one after the other. *)
Fixpoint oui_records (off : nat) (vendors : list OuiEntry) : list (list Z) :=
  match vendors with
  | [] => []
  | v :: vendors => oui_record v off :: oui_records (off + length (oe_vendor v)) vendors
  end.

Definition oui_pool (vendors : list OuiEntry) : list Z := concat (map oe_vendor vendors).

Definition pack_oui (vendors : list OuiEntry) : list Z :=
  pack_table OUI_MAGIC 1 PACKED_ENTRY (oui_records 0 vendors) (oui_pool vendors).

Lemma oui_records_lookup vendors : ∀ off i v,
  vendors !! i = Some v →
  oui_records off vendors !! i = Some (oui_record v (off + length (oui_pool (take i vendors)))) ∧
  oui_pool vendors = oui_pool (take i vendors) ++ oe_vendor v ++ oui_pool (drop (S i) vendors).
Proof.
  unfold oui_pool. induction vendors as [|w vendors IH]; intros off i v Hi; [done|]. destruct i as [|i].
  - injection Hi as <-. cbn. by rewrite Nat.add_0_r, drop_0.
  - change (vendors !! i = Some v) in Hi. destruct (IH (off + length (oe_vendor w))%nat i v Hi) as [Hr Hp].
    split.
    + transitivity (oui_records (off + length (oe_vendor w)) vendors !! i); [done|]. rewrite Hr.
      cbn [take map concat]. rewrite length_app. do 2 f_equal. lia.
    + cbn [map concat take drop]. by rewrite Hp, <- app_assoc.
Qed.

Lemma oui_records_shape vendors : ∀ off,
  Forall vendor_ok vendors →
  length (oui_records off vendors) = length vendors ∧ Forall (λ r, length r = PACKED_ENTRY) (oui_records off vendors).
Proof.
  induction vendors as [|v vendors IH]; intros off; [by split|]. intros [[Hp _] Hv]%Forall_cons. cbn [oui_records length].
  destruct (IH (off + length (oe_vendor v))%nat Hv) as [-> Hall]. split; [done|]. constructor; [|done].
  unfold oui_record, PACKED_ENTRY. rewrite !length_app, length_le_bytes, Hp. done.
Qed.

(** The sizes a header can count. *)
Definition oui_fits (vendors : list OuiEntry) : Prop :=
  24 + 8 * Z.of_nat (length vendors) < 4294967296 ∧ Z.of_nat (length (oui_pool vendors)) < 4294967296.

Definition oui_table (vendors : list OuiEntry) : Table :=
  {| entry_count := length vendors; record_size := PACKED_ENTRY; records := concat (oui_records 0 vendors);
     strings := oui_pool vendors |}.

Lemma oui_table_holds vendors : Forall vendor_ok vendors → oui_fits vendors → holds (oui_table vendors) vendors.
Proof.
  intros Hv [_ Hp]. destruct (oui_records_shape vendors 0 Hv) as [Hl Hall]. constructor; [done..|].
  intros i v Hi. destruct (oui_records_lookup vendors 0 i v Hi) as [Hr Hpool].
  exists (length (oui_pool (take i vendors))). split; [by eapply record_concat|].
  by eapply slice_parts; [exact Hpool|done|].
Qed.

(** the vendor table.  A table packed from vendors in order of their
    prefixes opens, and the binary search in it answers every address as a
    search of the list from its start would: with the vendor of its first
    three bytes, or with none. *)
Theorem oui_table_reads vendors :
  Forall vendor_ok vendors → strictly_ascending vendors → oui_fits vendors →
  ∃ db, open (pack_oui vendors) OUI_MAGIC 1 PACKED_ENTRY = Some (inr db) ∧
    ∀ mac, lookupEmbeddedVendor db mac = Some (vendor_of vendors (take 3 mac)).
Proof.
  intros Hv Ha Hf. destruct (oui_records_shape vendors 0 Hv) as [Hl Hall]. pose proof Hf as [Hn Hp].
  exists (oui_table vendors). split.
  - pose proof (open_packed OUI_MAGIC 1 PACKED_ENTRY (oui_records 0 vendors) (oui_pool vendors)) as Ho.
    rewrite Hl in Ho. unfold pack_oui. apply Ho; unfold is_u32, PACKED_ENTRY in *; try done; lia.
  - intros mac. apply lookupEmbedded_value; [by apply oui_table_holds|done].
Qed.

(** ** Lines *)

Definition WHITE : list Z := [32; 9; 13].

(** Text that starts and ends with something to see. *)
Definition firm (s : list Z) : Prop := ∃ c d, head s = Some c ∧ last s = Some d ∧ c ∉ WHITE ∧ d ∉ WHITE.

(** The address column: three octets, and anything after a delimiter. *)
Definition address_text (p addr : list Z) : Prop :=
  ∃ h0 h1 h2 b0 b1 b2 d e extra,
    addr = h0 ++ d :: h1 ++ e :: h2 ++ extra ∧ p = [b0; b1; b2] ∧ octet h0 b0 ∧ octet h1 b1 ∧ octet h2 b2 ∧
    d ∈ MAC_DELIMITERS ∧ e ∈ MAC_DELIMITERS ∧ (∀ c rest, extra = c :: rest → c ∈ MAC_DELIMITERS) ∧
    Forall (λ c, c ∉ MAC_DELIMITERS) (h0 ++ h1 ++ h2) ∧ Forall (λ c, c ∉ WHITE) addr.

(** A line of a manuf file that gives a prefix a vendor: address and name, or
    address, short name and long name, with blanks around them. *)
Inductive manuf_line (p : list Z) : list Z → list Z → Prop :=
| line_short pad addr sep name pad' :
    address_text p addr → Forall (λ c, c ∈ WHITE) pad → Forall (λ c, c ∈ WHITE) pad' →
    sep ≠ [] → Forall (λ c, c ∈ BLANKS) sep → name ≠ [] → Forall (λ c, c ∉ WHITE) name →
    manuf_line p (pad ++ (addr ++ sep ++ name) ++ pad') name
| line_long pad addr sep short sep' long pad' :
    address_text p addr → Forall (λ c, c ∈ WHITE) pad → Forall (λ c, c ∈ WHITE) pad' →
    sep ≠ [] → Forall (λ c, c ∈ BLANKS) sep → short ≠ [] → Forall (λ c, c ∉ WHITE) short →
    sep' ≠ [] → Forall (λ c, c ∈ BLANKS) sep' → firm long →
    manuf_line p (pad ++ (addr ++ sep ++ short ++ sep' ++ long) ++ pad') long.

Lemma trimStart_app set p s : Forall (λ c, c ∈ set) p → trimStart set (p ++ s) = trimStart set s.
Proof. induction 1 as [|c p Hc _ IH]; [done|]. cbn [app trimStart]. by rewrite bool_decide_eq_true_2. Qed.

Lemma trimStart_firm set s c : head s = Some c → c ∉ set → trimStart set s = s.
Proof. destruct s as [|x s]; [done|]. intros [= ->] Hc. cbn [trimStart]. by rewrite bool_decide_eq_false_2. Qed.

Lemma trimEnd_firm set s q d :
  last s = Some d → d ∉ set → Forall (λ c, c ∈ set) q → trimEnd set (s ++ q) = s.
Proof.
  intros Hl Hd Hq. unfold trimEnd. rewrite reverse_app, trimStart_app by by apply Forall_reverse.
  rewrite (trimStart_firm _ _ d) by (by rewrite ?head_reverse). apply reverse_involutive.
Qed.

Lemma trim_pad set p s q c d :
  head s = Some c → last s = Some d → c ∉ set → d ∉ set →
  Forall (λ c, c ∈ set) p → Forall (λ c, c ∈ set) q → trim set (p ++ s ++ q) = s.
Proof.
  intros Hh Hl Hc Hd Hp Hq. unfold trim. rewrite trimStart_app by done.
  rewrite (trimStart_firm set (s ++ q) c); [|by destruct s|done]. by eapply trimEnd_firm.
Qed.

Lemma next_token_pad set p s : Forall (λ c, c ∈ set) p → next_token set (p ++ s) = next_token set s.
Proof. intros Hp. unfold next_token. by rewrite trimStart_app. Qed.

Lemma octet_shape t v : octet t v → t ≠ [] ∧ (length t <= 2)%nat.
Proof. destruct t as [|a [|b [|]]]; simpl; intros; split; (done || lia). Qed.

Lemma octet_parses t v : octet t v → Forall (λ c, c ∉ MAC_DELIMITERS) t → parseInt_u8 t 16 = inr v.
Proof.
  intros Ho Hf. apply (octet_parse t v) in Ho as [_ ?]; [done|].
  intros Hin. eapply Forall_forall in Hf; [|exact Hin]. unfold MAC_DELIMITERS in Hf. set_solver.
Qed.

Lemma octet_sizes t v : octet t v → ((length t =? 0)%nat || (2 <? length t)%nat) = false.
Proof.
  intros [Hne Hl]%octet_shape. destruct t; [done|]. simpl in *. by rewrite (proj2 (Nat.ltb_ge _ _)).
Qed.

Lemma manuf_prefix_reads p addr : address_text p addr → manuf_prefix addr = Some p.
Proof.
  intros (h0 & h1 & h2 & b0 & b1 & b2 & d & e & extra & -> & -> & H0 & H1 & H2 & Hd & He & Hx & Hf & _).
  apply Forall_app in Hf as [F0 [F1 F2]%Forall_app]. unfold manuf_prefix.
  destruct (octet_shape _ _ H0), (octet_shape _ _ H1), (octet_shape _ _ H2).
  rewrite next_token_app by (done || by intros ? ? [= <- _]). cbn [mbind option_bind].
  change (d :: h1 ++ e :: h2 ++ extra) with ([d] ++ h1 ++ e :: h2 ++ extra).
  rewrite next_token_pad by by apply Forall_singleton.
  rewrite next_token_app by (done || by intros ? ? [= <- _]). cbn [mbind option_bind].
  change (e :: h2 ++ extra) with ([e] ++ h2 ++ extra). rewrite next_token_pad by by apply Forall_singleton.
  rewrite next_token_app by done. cbn [mbind option_bind].
  rewrite <- !orb_assoc, (orb_assoc (length h0 =? 0)%nat), (orb_assoc (length h1 =? 0)%nat).
  rewrite (octet_sizes _ _ H0), (octet_sizes _ _ H1), (octet_sizes _ _ H2). simpl orb. cbv iota.
  by rewrite (octet_parses _ _ H0), (octet_parses _ _ H1), (octet_parses _ _ H2).
Qed.

Lemma address_head p addr : address_text p addr → ∃ c rest, addr = c :: rest ∧ c ∉ WHITE ∧ c ≠ 35.
Proof.
  intros (h0 & h1 & h2 & b0 & b1 & b2 & d & e & extra & -> & _ & H0 & _ & _ & _ & _ & _ & _ & Hw).
  destruct h0 as [|c h0]; [done|]. eexists c, _. split; [done|]. apply Forall_cons in Hw as [Hc _].
  split; [done|]. intros ->. destruct h0 as [|? [|]]; naive_solver.
Qed.

Lemma white_blank s : Forall (λ c, c ∉ WHITE) s → Forall (λ c, c ∉ BLANKS) s.
Proof. intros Hs. apply (Forall_impl _ _ _ Hs). unfold WHITE, BLANKS. set_solver. Qed.

Lemma blank_head sep s : sep ≠ [] → Forall (λ c, c ∈ BLANKS) sep → ∀ c r, sep ++ s = c :: r → c ∈ BLANKS.
Proof. intros Hne Hs c r Hc. destruct sep; [done|]. injection Hc as <- _. by apply Forall_cons in Hs as [? _]. Qed.

(** What the parser makes of an address and what follows it. *)
Lemma parse_core p pad addr sep rest pad' d :
  address_text p addr → Forall (λ c, c ∈ WHITE) pad → Forall (λ c, c ∈ WHITE) pad' →
  sep ≠ [] → Forall (λ c, c ∈ BLANKS) sep → last rest = Some d → d ∉ WHITE →
  parseManufLine (pad ++ (addr ++ sep ++ rest) ++ pad') =
    ('(short_name, rest) ← next_token BLANKS rest;
     let rest := trimStart BLANKS rest in
     Some {| oe_prefix := p; oe_vendor := if (0 <? length rest)%nat then trim BLANKS rest else short_name |}).
Proof.
  intros Ha Hp Hp' Hne Hs Hl Hd. pose proof (address_head _ _ Ha) as (c & a & Hac & Hc & Hcc). unfold parseManufLine.
  change [32; 9; 13] with WHITE. rewrite (trim_pad WHITE pad (addr ++ sep ++ rest) pad' c d); try done.
  2:{ by rewrite Hac. }
  2:{ rewrite !last_app, Hl. done. }
  cbv zeta. rewrite Hac at 1. simpl (length _ =? 0)%nat. rewrite bool_decide_eq_false_2 by (rewrite Hac; simpl; congruence).
  simpl orb. cbv iota. rewrite next_token_app; [|by rewrite Hac| |by apply blank_head].
  2:{ apply white_blank. by destruct Ha as (? & ? & ? & ? & ? & ? & ? & ? & ? & _ & _ & _ & _ & _ & _ & _ & _ & _ & ?). }
  cbn [mbind option_bind]. rewrite next_token_pad by done. destruct (next_token BLANKS rest) as [[short rest']|]; [|done].
  cbn [mbind option_bind]. by rewrite (manuf_prefix_reads p addr Ha).
Qed.

(** lines of a manufacturer file.  A line of an address column and a
    name, or of an address column, a short and a long name, with blanks
    around them, gives the prefix of the column's first three octets the
    (long) name, whatever else the address column holds. *)
Theorem parseManufLine_reads p raw vendor :
  manuf_line p raw vendor → parseManufLine raw = Some {| oe_prefix := p; oe_vendor := vendor |}.
Proof.
  intros [pad addr sep name pad' Ha Hp Hp' Hne Hs Hn Hw|pad addr sep short sep' long pad' Ha Hp Hp' Hne Hs Hn Hw Hne' Hs' Hl].
  - destruct (last name) as [d|] eqn:Hd; [|by apply last_None in Hd].
    rewrite (parse_core p pad addr sep name pad' d); try done.
    2:{ eapply Forall_forall in Hw; [exact Hw|]. by eapply last_Some_elem_of. }
    rewrite <- (app_nil_r name) at 1. rewrite next_token_app by (done || by apply white_blank). done.
  - destruct Hl as (c & d & Hhead & Hlast & Hc & Hd).
    rewrite (parse_core p pad addr sep (short ++ sep' ++ long) pad' d); try done.
    2:{ by rewrite !last_app, Hlast. }
    rewrite next_token_app; [|done|by apply white_blank|by apply blank_head]. cbn [mbind option_bind]. cbv zeta.
    assert (c ∉ BLANKS ∧ d ∉ BLANKS) as [Hcb Hdb] by (unfold WHITE, BLANKS in *; set_solver).
    rewrite trimStart_app, (trimStart_firm _ _ c) by done.
    assert ((0 <? length long)%nat = true) as -> by (destruct long; [done|by apply Nat.ltb_lt; simpl; lia]).
    do 3 f_equal. rewrite <- (app_nil_r long) at 1. by apply (trim_pad BLANKS [] long [] c d).
Qed.

Lemma parse_entry_ok raw e :
  parseManufLine raw = Some e → length (oe_prefix e) = 3%nat ∧ oe_vendor e ≠ [].
Proof.
  unfold parseManufLine. cbv zeta. destruct (_ || _); [done|].
  intros ([mac_str rest] & _ & Hr)%bind_Some. apply bind_Some in Hr as ([short rest'] & Ht & Hr).
  apply bind_Some in Hr as (p & Hp & [= <-]). simpl. split.
  - unfold manuf_prefix in Hp. apply bind_Some in Hp as ([? ?] & _ & Hp). apply bind_Some in Hp as ([? ?] & _ & Hp).
    apply bind_Some in Hp as ([? ?] & _ & Hp). repeat case_match; simplify_eq; done.
  - pose proof (next_token_fields BLANKS rest) as Hf. rewrite Ht in Hf. destruct Hf as (_ & Hne & _).
    destruct (0 <? length (trimStart BLANKS rest'))%nat eqn:Hl; [|done]. to_prop.
    assert (∀ s c r, trimStart BLANKS s = c :: r → c ∉ BLANKS) as Hc.
    { induction s as [|x s IH]; intros c r; [done|]. cbn [trimStart]. case_bool_decide; [apply IH|by intros [= <- _]]. }
    destruct (trimStart BLANKS rest') as [|c r] eqn:Hs; [simpl in Hl; lia|]. apply Hc in Hs.
    unfold trim. rewrite (trimStart_firm _ _ c) by done. unfold trimEnd. rewrite reverse_cons. intros Hnil.
    apply (f_equal reverse) in Hnil. rewrite reverse_involutive, reverse_nil in Hnil.
    assert (∀ l, trimStart BLANKS (l ++ [c]) ≠ []) as Hx; [|by apply Hx in Hnil].
    induction l as [|y l IH]; cbn [app trimStart]; [by rewrite bool_decide_eq_false_2|]. by case_bool_decide.
Qed.

(** ** Order *)

Lemma prefix_order_value key : ∀ p, length key = length p → prefix_order key p = mem_order key p.
Proof.
  induction key as [|x key IH]; intros [|y p]; try done. cbn [prefix_order mem_order length]. intros [= Hl].
  rewrite Z.gtb_ltb. destruct (Z.compare_spec x y) as [->|Hlt|Hlt].
  - rewrite Z.ltb_irrefl. by apply IH.
  - by rewrite (proj2 (Z.ltb_lt _ _)).
  - by rewrite (proj2 (Z.ltb_ge _ _)), (proj2 (Z.ltb_lt _ _)) by lia.
Qed.

Lemma prefix_less_order a : ∀ b, prefix_less a b = true ↔ prefix_order a b = Lt.
Proof.
  induction a as [|x a IH]; intros [|y b]; try done. cbn [prefix_less prefix_order].
  destruct (x <? y); [done|]. by destruct (x >? y).
Qed.

(** [a] may come before [b]. *)
Definition before_or_same (a b : Loaded) : Prop := mem_order (oe_prefix (lo_entry a)) (oe_prefix (lo_entry b)) ≠ Gt.

Definition three (e : Loaded) : Prop := length (oe_prefix (lo_entry e)) = 3%nat.

Lemma less_order a b : three a → three b →
  ouiEntryLessThan (lo_entry a) (lo_entry b) = true ↔ mem_order (oe_prefix (lo_entry a)) (oe_prefix (lo_entry b)) = Lt.
Proof.
  intros Ha Hb. unfold ouiEntryLessThan, three in *. rewrite prefix_less_order, prefix_order_value by lia. done.
Qed.

Lemma before_trans a b c : before_or_same a b → before_or_same b c → before_or_same a c.
Proof.
  unfold before_or_same. destruct (mem_order (oe_prefix (lo_entry a)) (oe_prefix (lo_entry b))) eqn:Hab; [..|done].
  - by apply mem_order_eq in Hab as ->.
  - intros _ Hbc. destruct (mem_order (oe_prefix (lo_entry b)) (oe_prefix (lo_entry c))) eqn:Hc; [..|done].
    + apply mem_order_eq in Hc as <-. congruence.
    + by rewrite (mem_order_trans _ _ _ Hab Hc).
Qed.

Lemma insert_entry_perm e l : insert_entry e l ≡ₚ e :: l.
Proof. induction l as [|x l IH]; [done|]. cbn [insert_entry]. destruct (ouiEntryLessThan _ _); [|done]. rewrite IH. constructor. Qed.

Lemma sort_entries_perm l : sort_entries l ≡ₚ l.
Proof. induction l as [|e l IH]; [done|]. simpl. by rewrite insert_entry_perm, IH. Qed.

Fixpoint sorted_entries (l : list Loaded) : Prop :=
  match l with [] => True | e :: l => Forall (before_or_same e) l ∧ sorted_entries l end.

Lemma insert_entry_sorted e l :
  three e → Forall three l → sorted_entries l → sorted_entries (insert_entry e l).
Proof.
  intros He. induction l as [|x l IH]; [by repeat constructor|]. intros [Hx Hl]%Forall_cons [Hall Hs].
  cbn [insert_entry]. destruct (ouiEntryLessThan _ _) eqn:Hlt.
  - apply less_order in Hlt; [|done..]. split; [|by apply IH]. rewrite insert_entry_perm. constructor; [|done].
    unfold before_or_same. by rewrite Hlt.
  - assert (before_or_same e x) as Hex.
    { unfold before_or_same. rewrite mem_order_opp. intros Hgt. destruct (mem_order _ _) eqn:Hc; try done.
      apply less_order in Hc; [congruence|done..]. }
    split; [|by split]. constructor; [done|]. eapply Forall_impl; [exact Hall|]. intros y Hy. by eapply before_trans.
Qed.

Lemma sort_entries_sorted l : Forall three l → sorted_entries (sort_entries l).
Proof.
  induction 1 as [|e l He Hl IH]; [done|]. simpl. apply insert_entry_sorted; [done| |done]. by rewrite sort_entries_perm.
Qed.

Lemma sorted_entries_lookup l : sorted_entries l → ∀ i j a b,
  (i < j)%nat → l !! i = Some a → l !! j = Some b → before_or_same a b.
Proof.
  induction l as [|e l IH]; [done|]. intros [Hall Hs] i j a b Hij Hi Hj. destruct j as [|j]; [lia|].
  destruct i as [|i]; [|eapply (IH Hs i j); [lia|done..]]. injection Hi as <-. by eapply Forall_lookup_1.
Qed.

(** ** Loading a file *)

Definition vendor_blocks (items : list Loaded) : list res := map (λ e, RMem (lo_block e)) items.

Definition list_blocks (entries : ArrayList) : list res :=
  vendor_blocks (al_items entries) ++ match al_block entries with Some b => [RMem b] | None => [] end.

(** What a database holds. *)
Definition db_blocks (self : OuiDatabase) : list res :=
  match custom_entries self with Some entries => list_blocks entries | None => [] end.

(** The entries a file's text gives. *)
Definition file_entries (content : list Z) : list OuiEntry := omap parseManufLine (split_scalar 10 content).

Section LoadRuns.
Context {E : Type} `{Env E}.
Variable capacity_for : nat → nat.
Implicit Types (e : E).

Lemma append_run x list e ok list' e' t :
  append capacity_for x list e = Some ((ok, list'), e', t) →
  keeps_from (list_blocks list ++ [RMem (lo_block x)]) t
    (list_blocks list' ++ if ok : bool then [] else [RMem (lo_block x)]) ∧
  (if ok : bool then al_items list' = al_items list ++ [x] else list' = list).
Proof.
  intros Hr. unfold append in Hr. destruct (_ <? _)%nat.
  { run_inv. split; [|done]. unfold list_blocks, vendor_blocks. cbn [al_items al_block]. rewrite map_app. cbn [map].
    destruct (al_block list); solve_keeps. }
  apply bind_inv in Hr as (grown & e1 & t1 & t2 & [_ ->]%ask_inv & Hr & ->). unfold list_blocks, vendor_blocks.
  destruct grown as [b|]; run_inv; cbn [al_items al_block]; rewrite ?map_app; (split; [|done]);
    destruct (al_block list); solve_keeps.
Qed.

Lemma free_entries_run items e r e' t :
  free_entries items e = Some (r, e', t) → keeps_from (vendor_blocks items) t [].
Proof.
  revert e t. induction items as [|x items IH]; intros e t Hr; cbn [free_entries] in Hr; [run_inv; apply keeps_from_nil|].
  apply bind_inv in Hr as ([] & e1 & t1 & t2 & [_ ->]%ask_inv & Hr & ->). apply IH in Hr.
  eapply keeps_from_app; [|exact Hr]. unfold vendor_blocks. simpl. solve_keeps.
Qed.

Lemma free_list_run list e r e' t : free_list list e = Some (r, e', t) → keeps_from (list_blocks list) t [].
Proof.
  intros Hr. unfold free_list in Hr. apply bind_inv in Hr as ([] & e1 & t1 & t2 & Hf%free_entries_run & Hr & ->).
  apply free_opt_keeps in Hr. apply (keeps_from_frame (match al_block list with Some b => [RMem b] | None => [] end)) in Hf.
  rewrite app_nil_r in Hf. eapply keeps_from_app; [|exact Hr].
  eapply keeps_from_perm; [|reflexivity|exact Hf]. apply Permutation_app_comm.
Qed.

Lemma deinit_run self e self' e' t :
  deinit self e = Some (self', e', t) → self' = no_entries ∧ keeps_from (db_blocks self) t [].
Proof.
  intros Hr. unfold deinit, db_blocks in *. destruct self as [[entries|]]; cbn [custom_entries] in *.
  - apply bind_inv in Hr as ([] & e1 & t1 & t2 & Hf%free_list_run & Hr & ->). run_inv. rewrite app_nil_r. by split.
  - run_inv. split; [done|apply keeps_from_nil].
Qed.

(** Every line that is an entry becomes one; when memory runs out, at most
    the text of one entry is nowhere but in its block. *)
Lemma load_lines_run lines : ∀ have e ok list' e' t,
  load_lines capacity_for lines have e = Some ((ok, list'), e', t) →
  ∃ lost, keeps_from (list_blocks have) t (list_blocks list' ++ lost) ∧ (length lost ≤ 1)%nat ∧
    (ok = true → lost = [] ∧
      map lo_entry (al_items list') = map lo_entry (al_items have) ++ omap parseManufLine lines).
Proof.
  induction lines as [|raw lines IH]; intros have e ok list' e' t Hr; cbn [load_lines omap list_omap] in *.
  { run_inv. exists []. rewrite app_nil_r. split; [apply keeps_from_nil|]. split; [simpl; lia|]. by rewrite app_nil_r. }
  destruct (parseManufLine raw) as [entry|]; [|by eapply IH].
  apply bind_inv in Hr as (p & e1 & t1 & t2 & [_ ->]%ask_inv & Hr & ->). destruct p as [block|].
  2:{ run_inv. exists []. rewrite app_nil_r. split; [solve_keeps|]. split; [simpl; lia|done]. }
  apply bind_inv in Hr as ([ok1 list1] & e2 & t3 & t4 & Ha & Hr & ->). apply append_run in Ha as [Hk Hitems].
  cbn [lo_block] in Hk.
  assert (keeps_from (list_blocks have) ([Ev (Malloc (Z.of_nat (length (oe_vendor entry)))) (Some block)] ++ t3)
    (list_blocks list1 ++ if ok1 then [] else [RMem block])) as Hk1
    by (eapply keeps_from_app; [|exact Hk]; solve_keeps).
  destruct ok1.
  - apply IH in Hr as (lost & Hk2 & Hl & Hok). exists lost. rewrite app_nil_r in Hk1. rewrite app_assoc.
    split; [by eapply keeps_from_app|]. split; [done|]. intros [-> Hm]%Hok. split; [done|].
    by rewrite Hm, Hitems, map_app, <- app_assoc.
  - run_inv. exists [RMem block]. rewrite ?app_nil_r. split; [done|]. split; [simpl; lia|done].
Qed.
End LoadRuns.

(** A database with these entries in it, sorted. *)
Definition database_of (self : OuiDatabase) (es : list OuiEntry) : Prop :=
  ∃ entries, custom_entries self = Some entries ∧ map lo_entry (al_items entries) ≡ₚ es ∧
    sorted_entries (al_items entries) ∧ Forall three (al_items entries).

Lemma file_entries_three content : Forall (λ e, length (oe_prefix e) = 3%nat) (file_entries content).
Proof.
  apply Forall_forall. intros e He. apply list_elem_of_omap in He as (raw & _ & He). by apply parse_entry_ok in He as [? _].
Qed.

Lemma loadFile_run {E} `{Env E} capacity_for path self (e : E) self' r e' t :
  loadFile capacity_for path self e = Some ((self', r), e', t) →
  match r with
  | inr _ => keeps_from (db_blocks self) t (db_blocks self') ∧
      ∃ f size got, Ev (Fread f size) got ∈ t ∧ database_of self' (file_entries (buffer size got))
  | inl err => self' = no_entries ∧ ∃ lost, keeps_from (db_blocks self) t lost ∧ (length lost ≤ 1)%nat ∧
      (err = LoadFileNotFound → lost = [])
  end.
Proof.
  intros Hr. unfold loadFile in Hr.
  apply bind_inv in Hr as (self1 & e1 & t1 & u1 & [-> Hd]%deinit_run & Hr & ->).
  apply bind_inv in Hr as (path_z & e2 & t2 & u2 & [_ ->]%ask_inv & Hr & ->). destruct path_z as [path_z|].
  2:{ run_inv. split; [done|]. exists []. split; [eapply keeps_from_app; [exact Hd|]; solve_keeps|]. split; [simpl; lia|done]. }
  apply bind_inv in Hr as (content & e3 & t3 & u3 & Hc & Hr & ->). apply read_file_content_run in Hc as [Hk Hcontent].
  apply (keeps_frame [RMem path_z]) in Hk. cbn [app] in Hk.
  assert (keeps_from [] [Ev (Malloc (Z.of_nat (length path) + 1)) (Some path_z)] [RMem path_z]) as Hp by solve_keeps.
  pose proof (keeps_from_app _ _ _ _ _ Hd (keeps_from_app _ _ _ _ _ Hp Hk)) as Hpre. rewrite app_assoc in Hpre.
  destruct content as [[block content]|].
  2:{ run_inv. split; [done|]. exists []. rewrite app_nil_r. rewrite !app_assoc in *. split; [|split; [simpl; lia|done]].
      eapply keeps_from_app; [exact Hpre|]. solve_keeps. }
  destruct (Hcontent block content eq_refl) as (f & size & got & _ & _ & _ & Hread & -> & _).
  apply bind_inv in Hr as ([ok entries] & e4 & t4 & u4 & Hl & Hr & ->).
  apply load_lines_run in Hl as (lost & Hkl & Hlen & Hok).
  apply (keeps_from_frame [RMem path_z; RMem block]) in Hkl. cbn [list_blocks vendor_blocks map al_items al_block empty_array app] in Hkl.
  pose proof (keeps_from_app _ _ _ _ _ Hpre Hkl) as Hload.
  destruct ok.
  - destruct (Hok eq_refl) as [-> Hm]. rewrite app_nil_r in *. cbn [free_file_content free_opt] in Hr.
    unfold free_file_content, free_opt in Hr. run_inv. split.
    + assert (db_blocks {| custom_entries := Some {| al_block := al_block entries; al_capacity := al_capacity entries;
        al_items := sort_entries (al_items entries) |} |} ≡ₚ list_blocks entries) as ->.
      { unfold db_blocks, list_blocks, vendor_blocks. cbn. by rewrite sort_entries_perm. }
      rewrite ?app_nil_r, !app_assoc in *. eapply (keeps_from_app _ _ (RMem path_z :: list_blocks entries)); [|solve_keeps].
      eapply keeps_from_app; [exact Hload|].
      solve_keeps.
    + exists f, size, got. split; [by rewrite !elem_of_app; auto 10|]. eexists. split; [done|]. cbn.
      assert (Forall three (al_items entries)) as H3.
      { pose proof (file_entries_three (buffer size got)) as H3. unfold file_entries in H3. simpl in Hm.
        rewrite <- Hm, Forall_map in H3. exact H3. }
      split; [by rewrite sort_entries_perm, Hm|]. split; [by apply sort_entries_sorted|by rewrite sort_entries_perm].
  - apply bind_inv in Hr as ([] & e5 & t5 & u5 & Hf%free_list_run & Hr & ->).
    unfold free_file_content, free_opt in Hr. run_inv. split; [done|]. exists lost.
    apply (keeps_from_frame ([RMem path_z; RMem block] ++ lost)) in Hf. rewrite app_nil_r in Hf.
    split; [|by split]. rewrite ?app_nil_r, !app_assoc in *.
    eapply (keeps_from_app _ _ (RMem path_z :: lost)); [|solve_keeps].
    eapply (keeps_from_app _ _ (RMem path_z :: RMem block :: lost)); [|solve_keeps].
    eapply keeps_from_app; [exact Hload|]. eapply keeps_from_perm; [|reflexivity|exact Hf]. simpl. solve_Permutation.
Qed.

(** A search of the sorted entries finds one of those with the prefix. *)
Lemma lookup_custom db self es mac :
  database_of self es → (3 ≤ length mac)%nat →
  ((∀ v, v ∈ es → oe_prefix v ≠ take 3 mac) → lookup db self mac = lookupEmbeddedVendor db mac) ∧
  (∀ v, v ∈ es → oe_prefix v = take 3 mac →
    ∃ w, w ∈ es ∧ oe_prefix w = take 3 mac ∧ lookup db self mac = Some (Some (oe_vendor w))).
Proof.
  intros (entries & Hc & Hperm & Hs & H3) Hmac. unfold lookup. rewrite Hc. cbv zeta. set (items := al_items entries) in *.
  set (target := take 3 mac). assert (length target = 3%nat) as Ht by (subst target; rewrite length_take; lia).
  set (order := λ mid, e ← items !! mid; Some (comparePrefix target (lo_entry e))).
  assert (∀ i x, items !! i = Some x → order i = Some (mem_order target (oe_prefix (lo_entry x)))) as Ho.
  { intros i x Hi. subst order. cbv beta. rewrite Hi. cbn [mbind option_bind]. unfold comparePrefix.
    rewrite prefix_order_value; [done|]. rewrite Ht. symmetry. by eapply (Forall_lookup_1 three). }
  destruct (binary_search_spec order (length items)) as (r & -> & Hr).
  - intros i [x Hx]%lookup_lt_is_Some. rewrite (Ho i x Hx). by eexists.
  - apply (ordered_keys (λ i, (oe_prefix ∘ lo_entry) <$> items !! i) _ _ target).
    + intros i j k l Hij Hi Hj. apply fmap_Some in Hi as (a & Hi & ->). apply fmap_Some in Hj as (b & Hj & ->).
      apply (sorted_entries_lookup items Hs i j a b); [lia|done..].
    + intros i [x Hx]%lookup_lt_is_Some. rewrite (Ho i x Hx), Hx. done.
  - cbn [mbind option_bind]. destruct r as [i|].
    + destruct Hr as [Hi Heq]. apply lookup_lt_is_Some in Hi as [x Hx]. rewrite (Ho i x Hx) in Heq. injection Heq as Heq.
      apply mem_order_eq in Heq. rewrite Hx. cbn [mbind option_bind].
      assert (lo_entry x ∈ es) as Hin.
      { rewrite <- Hperm. apply list_elem_of_fmap. exists x. split; [done|]. by eapply list_elem_of_lookup_2. }
      split; [intros Hno; by destruct (Hno _ Hin)|]. intros v Hv Hp. by exists (lo_entry x).
    + split; [done|]. intros v Hv Hp. exfalso. rewrite <- Hperm in Hv. apply list_elem_of_fmap in Hv as (x & -> & Hx).
      apply list_elem_of_lookup in Hx as [i Hx]. apply (Hr i); [by eapply lookup_lt_Some|].
      rewrite (Ho i x Hx), Hp. f_equal. by apply mem_order_eq.
Qed.

Section LoadTheorems.
Context {E : Type} `{Env E}.

(** a manufacturer file.  After a file has been loaded, an address whose
    prefix a line of it gives gets the vendor of such a line (of the line, if
    there is one), and any other address what the embedded table says. *)
Theorem loadFile_looks_up capacity_for path self (e : E) self' e' t :
  loadFile capacity_for path self e = Some ((self', inr ()), e', t) →
  ∃ f size got, Ev (Fread f size) got ∈ t ∧ ∀ db mac, length mac = 6%nat →
    let entries := file_entries (buffer size got) in
    ((∀ v, v ∈ entries → oe_prefix v ≠ take 3 mac) → lookup db self' mac = lookupEmbeddedVendor db mac) ∧
    (∀ v, v ∈ entries → oe_prefix v = take 3 mac →
      ∃ w, w ∈ entries ∧ oe_prefix w = take 3 mac ∧ lookup db self' mac = Some (Some (oe_vendor w))).
Proof.
  intros (_ & f & size & got & Hin & Hdb)%loadFile_run. exists f, size, got. split; [done|].
  intros db mac Hmac entries. apply lookup_custom; [done|lia].
Qed.

(** the blocks of a database.  Loading gives back all a database held and
    leaves, when it succeeds, just what the new entries need; when it fails,
    nothing but, if memory ran out, at most one block. *)
Theorem loadFile_accounts capacity_for path self (e : E) self' r e' t :
  loadFile capacity_for path self e = Some ((self', r), e', t) →
  match r with
  | inr _ => keeps_from (db_blocks self) t (db_blocks self')
  | inl err => self' = no_entries ∧ ∃ lost, keeps_from (db_blocks self) t lost ∧ (length lost ≤ 1)%nat ∧
      (err = LoadFileNotFound → lost = [])
  end.
Proof. intros Hr%loadFile_run. destruct r; [done|]. by destruct Hr as [? _]. Qed.
End LoadTheorems.

(** ** Concrete files *)

(** "0:1:2 AB" and "3-4-5:60/28 CD E F" *)
Definition manuf_text : list Z :=
  [48; 58; 49; 58; 50; 32; 65; 66; 10; 51; 45; 52; 45; 53; 58; 54; 48; 47; 50; 56; 32; 67; 68; 32; 69; 32; 70].

Definition manuf_disk (mallocs : list bool) : script :=
  {| sc_now := 0; sc_fd := 3; sc_polls := []; sc_selects := []; sc_sends := []; sc_recvs := [];
     sc_connects := []; sc_mallocs := mallocs; sc_files := manuf_text; sc_size := 27; sc_ifaddrs := [];
     sc_local := Ok idle_addr; sc_peer := Ok idle_addr; sc_soerror := Ok 0; sc_stops := []; sc_rows := [];
     sc_echo2 := []; sc_pending := []; sc_parsed := []; sc_jobs := [];
     sc_caps := [] |}.

(** The line of a block of 28 bits names its first 24. *)
Example manuf_text_entries :
  file_entries manuf_text =
    [{| oe_prefix := [0; 1; 2]; oe_vendor := [65; 66] |}; {| oe_prefix := [3; 4; 5]; oe_vendor := [69; 32; 70] |}].
Proof. by vm_compute. Qed.

Definition TWO_VENDORS : list OuiEntry :=
  [{| oe_prefix := [0; 1; 2]; oe_vendor := [65; 66] |}; {| oe_prefix := [3; 4; 5]; oe_vendor := [69; 32; 70] |}].

(** a list that cannot grow.  When memory runs out for the list's own
    block, loadFile fails with the text of the entry it was adding still
    allocated, and nothing refers to it any more. *)
Theorem loadFile_leaks :
  ∃ e' t block, loadFile (λ n, n + 8)%nat [97] no_entries (manuf_disk [true; true; true; false]) =
    Some ((no_entries, inl LoadOutOfMemory), e', t) ∧ keeps_from [] t [RMem block].
Proof. eexists _, _, 6. split; [vm_compute; reflexivity|]. solve_keeps. Qed.

Lemma oui_table_reads_witness :
  ∃ db, open (pack_oui TWO_VENDORS) OUI_MAGIC 1 PACKED_ENTRY = Some (inr db) ∧
    ∀ mac, lookupEmbeddedVendor db mac = Some (vendor_of TWO_VENDORS (take 3 mac)).
Proof.
  apply (oui_table_reads TWO_VENDORS).
  - repeat constructor; simpl; lia.
  - intros i j v w Hij Hi Hj. destruct i as [|[|i]], j as [|[|j]]; simplify_eq; try lia; try done;
      simpl in *; simplify_eq; try done; destruct j; done.
  - split; vm_compute; reflexivity.
Defined.

Lemma parseManufLine_reads_witness :
  parseManufLine [32; 51; 45; 52; 45; 53; 58; 54; 32; 67; 32; 69; 32; 70; 13] =
    Some {| oe_prefix := [3; 4; 5]; oe_vendor := [69; 32; 70] |}.
Proof.
  apply (parseManufLine_reads [3; 4; 5] [32; 51; 45; 52; 45; 53; 58; 54; 32; 67; 32; 69; 32; 70; 13] [69; 32; 70]).
  apply (line_long [3; 4; 5] [32] [51; 45; 52; 45; 53; 58; 54] [32] [67] [32] [69; 32; 70] [13]); try done.
  - exists [51], [52], [53], 3, 4, 5, 45, 45, [58; 54]. unfold MAC_DELIMITERS, WHITE.
    repeat split; try reflexivity; try set_solver; repeat constructor; set_solver.
  - repeat constructor; unfold WHITE; set_solver.
  - repeat constructor; unfold WHITE; set_solver.
  - repeat constructor; unfold BLANKS; set_solver.
  - repeat constructor; unfold WHITE; set_solver.
  - repeat constructor; unfold BLANKS; set_solver.
  - exists 69, 70. unfold WHITE. repeat split; try reflexivity; set_solver.
Defined.

Lemma loadFile_looks_up_witness :
  ∃ self' e' t, loadFile (λ n, n + 8)%nat [97] no_entries (manuf_disk []) = Some ((self', inr ()), e', t) ∧
    lookup (oui_table []) self' [3; 4; 5; 99; 1; 1] = Some (Some [69; 32; 70]) ∧
    ∃ f size got, Ev (Fread f size) got ∈ t ∧ ∀ db mac, length mac = 6%nat →
      let entries := file_entries (buffer size got) in
      ((∀ v, v ∈ entries → oe_prefix v ≠ take 3 mac) → lookup db self' mac = lookupEmbeddedVendor db mac) ∧
      (∀ v, v ∈ entries → oe_prefix v = take 3 mac →
        ∃ w, w ∈ entries ∧ oe_prefix w = take 3 mac ∧ lookup db self' mac = Some (Some (oe_vendor w))).
Proof.
  assert (∃ self' e' t, loadFile (λ n, n + 8)%nat [97] no_entries (manuf_disk []) = Some ((self', inr ()), e', t) ∧
    lookup (oui_table []) self' [3; 4; 5; 99; 1; 1] = Some (Some [69; 32; 70])) as (self' & e' & t & Hr & Hl)
    by (eexists _, _, _; split; [vm_compute; reflexivity|vm_compute; reflexivity]).
  exists self', e', t. split; [exact Hr|]. split; [exact Hl|].
  exact (loadFile_looks_up (λ n, n + 8)%nat [97] no_entries (manuf_disk []) self' e' t Hr).
Defined.

Lemma loadFile_accounts_witness :
  ∃ e' t, loadFile (λ n, n + 8)%nat [97] no_entries (manuf_disk [true; false]) =
    Some ((no_entries, inl LoadFileNotFound), e', t) ∧
    no_entries = no_entries ∧ ∃ lost, keeps_from [] t lost ∧ (length lost ≤ 1)%nat ∧
      (LoadFileNotFound = LoadFileNotFound → lost = []).
Proof.
  assert (∃ e' t, loadFile (λ n, n + 8)%nat [97] no_entries (manuf_disk [true; false]) =
    Some ((no_entries, inl LoadFileNotFound), e', t)) as (e' & t & Hr) by (eexists _, _; vm_compute; reflexivity).
  exists e', t. split; [exact Hr|].
  exact (loadFile_accounts (λ n, n + 8)%nat [97] no_entries (manuf_disk [true; false]) no_entries (inl LoadFileNotFound) e' t Hr).
Defined.
