(* ===== verification/Ports.v ===== *)
(** * ports.zig: names and ranks of TCP ports

    The embedded table of ports, sorted by port: a port's service by binary
    search, its rank, and [by_rank], the order port scans try the ranked
    ports in, which the build computes.  [None] is a read outside the table;
    the theorems, about tables that hold a given list of ports, exclude it. *)
From S2P Require Import Prelude Words Text Packed.
Open Scope Z_scope.

(** What is known about one port. *)
Record Service := {
  sv_name : list Z;
  sv_iana : option (list Z);
  sv_description : option (list Z);
  sv_category : option (list Z)
}.

Definition RECORD_SIZE : nat := 20.

(** "NSPT" *)
Definition PORTS_MAGIC : list Z := [78; 83; 80; 84].

Inductive rank_error := RanksWithGaps.

Section Ports.
Variable db : Table.

Definition portAt (index : nat) : option Z := rec ← record db index; readU16le rec 0.

Definition rankAt (index : nat) : option Z := rec ← record db index; readU16le rec 2.

(** The while loop's comparison *)
Definition port_order (port : Z) (mid : nat) : option comparison :=
  key ← portAt mid;
  Some (if port <? key then Lt else if port >? key then Gt else Eq).

Definition indexOf (port : Z) : option (option nat) := binary_search (port_order port) (entry_count db).

Definition rank (port : Z) : option Z :=
  index ← indexOf port;
  match index with None => Some 0 | Some index => rankAt index end.

(** The first loop: how many ports have a rank. *)
Fixpoint count_ranked (indices : list nat) (count : nat) : option nat :=
  match indices with
  | [] => Some count
  | i :: indices => r ← rankAt i; count_ranked indices (if negb (r =? 0) then S count else count)
  end.

(** The second: each ranked port into its place. *)
Fixpoint place_ranked (indices : list nat) (order : list Z) : option (rank_error + list Z) :=
  match indices with
  | [] => Some (inr order)
  | i :: indices =>
    r ← rankAt i;
    if r =? 0 then place_ranked indices order
    else
      if r >? Z.of_nat (length order) then Some (inl RanksWithGaps)
      else
        slot ← order !! Z.to_nat (r - 1);
        if negb (slot =? 0) then Some (inl RanksWithGaps)
        else port ← portAt i; place_ranked indices (<[Z.to_nat (r - 1) := port]> order)
  end.

Definition by_rank : option (rank_error + list Z) :=
  let indices := seq 0 (entry_count db) in
  count ← count_ranked indices 0;
  place_ranked indices (replicate count 0).

Definition poolString (field : list Z) : option (option (list Z)) :=
  let offset := le_value field in
  if offset >=? Z.of_nat (length (strings db)) then Some None
  else
    len ← strings db !! Z.to_nat offset;
    if (len =? 0) || (offset + 1 + len >? Z.of_nat (length (strings db))) then Some None
    else text ← slice (strings db) (Z.to_nat (offset + 1)) (Z.to_nat (offset + 1 + len)); Some (Some text).

Definition decode (rec : list Z) : option (option Service) :=
  label ← (slice rec 4 8 ≫= poolString);
  iana ← (slice rec 8 12 ≫= poolString);
  match (match label with Some name => Some name | None => iana end) with
  | None => Some None
  | Some name =>
    description ← (slice rec 12 16 ≫= poolString);
    category ← (slice rec 16 20 ≫= poolString);
    Some (Some {| sv_name := name; sv_iana := iana; sv_description := description; sv_category := category |})
  end.

Definition lookup (port : Z) : option (option Service) :=
  index ← indexOf port;
  match index with
  | None => Some None
  | Some index => record db index ≫= decode
  end.
End Ports.

(** ** What a table holds *)

(** One port's row. *)
Record row := {
  r_port : Z;
  r_rank : Z;
  r_label : option (list Z);
  r_iana : option (list Z);
  r_description : option (list Z);
  r_category : option (list Z)
}.

Definition row_bytes (r : row) (label iana description category : Z) : list Z :=
  le_bytes 2 (r_port r) ++ le_bytes 2 (r_rank r) ++ le_bytes 4 label ++ le_bytes 4 iana
    ++ le_bytes 4 description ++ le_bytes 4 category.

(** A field's string in the pool; none is the empty string at 0. *)
Definition pooled (pool : list Z) (offset : Z) (s : option (list Z)) : Prop :=
  is_u32 offset ∧
  match s with
  | None => pool !! Z.to_nat offset = Some 0
  | Some text => text ≠ [] ∧ pool !! Z.to_nat offset = Some (Z.of_nat (length text)) ∧
      slice pool (S (Z.to_nat offset)) (S (Z.to_nat offset) + length text) = Some text
  end.

(** The table holds these rows, in ascending order of their ports. *)
Record holds (db : Table) (rows : list row) : Prop := {
  ho_count : entry_count db = length rows;
  ho_rows : ∀ i r, rows !! i = Some r → ∃ label iana description category,
    record db i = Some (row_bytes r label iana description category) ∧
    pooled (strings db) label (r_label r) ∧ pooled (strings db) iana (r_iana r) ∧
    pooled (strings db) description (r_description r) ∧ pooled (strings db) category (r_category r);
  ho_words : ∀ i r, rows !! i = Some r → is_u16 (r_port r) ∧ is_u16 (r_rank r);
  ho_ascending : ∀ i j r s, (i < j)%nat → rows !! i = Some r → rows !! j = Some s → r_port r < r_port s
}.

(** The rows' answers, searched from the start. *)
Definition row_of (rows : list row) (port : Z) : option row := snd <$> list_find (λ r, r_port r = port) rows.

Definition service_of (r : row) : option Service :=
  (λ name, {| sv_name := name; sv_iana := r_iana r; sv_description := r_description r;
              sv_category := r_category r |}) <$>
  match r_label r with Some name => Some name | None => r_iana r end.

Definition rank_of (rows : list row) (port : Z) : Z := default 0 (r_rank <$> row_of rows port).

Section Rows.
Variables (db : Table) (rows : list row).
Hypothesis Hdb : holds db rows.

Lemma field_of r label iana description category :
  is_u16 (r_port r) → is_u16 (r_rank r) →
  is_u32 label → is_u32 iana → is_u32 description → is_u32 category →
  let bs := row_bytes r label iana description category in
  readU16le bs 0 = Some (r_port r) ∧ readU16le bs 2 = Some (r_rank r) ∧
  slice bs 4 8 = Some (le_bytes 4 label) ∧ slice bs 8 12 = Some (le_bytes 4 iana) ∧
  slice bs 12 16 = Some (le_bytes 4 description) ∧ slice bs 16 20 = Some (le_bytes 4 category).
Proof.
  intros Hp Hr Hl Hi Hd Hc bs. unfold readU16le.
  assert (slice bs 0 (0 + 2) = Some (le_bytes 2 (r_port r)) ∧ slice bs 2 (2 + 2) = Some (le_bytes 2 (r_rank r)))
    as [-> ->] by done.
  cbn [fmap option_fmap option_map]. rewrite !le_value_u16 by done. done.
Qed.

Lemma row_read i r : rows !! i = Some r → portAt db i = Some (r_port r) ∧ rankAt db i = Some (r_rank r).
Proof.
  intros Hi. destruct (ho_rows _ _ Hdb i r Hi) as (l & a & d & c & Hr & [Hl _] & [Ha _] & [Hd _] & [Hc _]).
  destruct (ho_words _ _ Hdb i r Hi) as [Hp Hk]. unfold portAt, rankAt. rewrite Hr. cbn [mbind option_bind].
  by destruct (field_of r l a d c Hp Hk Hl Ha Hd Hc) as (-> & -> & _).
Qed.

Lemma row_some i : (i < entry_count db)%nat → ∃ r, rows !! i = Some r.
Proof. rewrite (ho_count _ _ Hdb). apply lookup_lt_is_Some_2. Qed.

Lemma row_of_at i r : rows !! i = Some r → row_of rows (r_port r) = Some r.
Proof.
  intros Hi. unfold row_of. assert (list_find (λ s, r_port s = r_port r) rows = Some (i, r)) as ->; [|done].
  apply list_find_Some. split; [done|]. split; [done|]. intros j s Hj Hlt Heq.
  pose proof (ho_ascending _ _ Hdb j i s r Hlt Hj Hi). lia.
Qed.

Lemma row_of_inv port r : row_of rows port = Some r → ∃ i, rows !! i = Some r ∧ r_port r = port.
Proof.
  unfold row_of. destruct (list_find _ _) as [[i s]|] eqn:Hf; [|done]. intros [= <-].
  apply list_find_Some in Hf as (Hi & Hs & _). by exists i.
Qed.

Lemma indexOf_value port :
  ∃ r, indexOf db port = Some r ∧
    match r with
    | Some i => ∃ s, rows !! i = Some s ∧ row_of rows port = Some s
    | None => row_of rows port = None
    end.
Proof.
  assert (∀ i r, rows !! i = Some r → port_order db port i = Some (port ?= r_port r)) as Ho.
  { intros i r Hi. unfold port_order. destruct (row_read i r Hi) as [-> _]. cbn [mbind option_bind]. rewrite Z.gtb_ltb.
    destruct (Z.compare_spec port (r_port r)) as [->|Hl|Hl].
    - by rewrite Z.ltb_irrefl.
    - by rewrite (proj2 (Z.ltb_lt _ _)).
    - by rewrite (proj2 (Z.ltb_ge _ _)), (proj2 (Z.ltb_lt _ _)) by lia. }
  destruct (binary_search_spec (port_order db port) (entry_count db)) as (r & Hr & Hs).
  - intros i [s Hs]%row_some. rewrite (Ho i s Hs). by eexists.
  - intros i j c d Hij Hi Hj. destruct (row_some i) as [r Hr]; [lia|]. destruct (row_some j) as [s Hs]; [lia|].
    rewrite (Ho i r Hr) in Hi. rewrite (Ho j s Hs) in Hj. simplify_eq.
    pose proof (ho_ascending _ _ Hdb i j r s ltac:(lia) Hr Hs).
    rewrite !Z.compare_lt_iff, !Z.compare_gt_iff. lia.
  - exists r. split; [done|]. destruct r as [i|].
    + destruct Hs as [Hi Heq]. destruct (row_some i Hi) as [s Hs]. rewrite (Ho i s Hs) in Heq. injection Heq as Heq.
      apply Z.compare_eq in Heq as ->. exists s. split; [done|]. by eapply row_of_at.
    + destruct (row_of rows port) as [s|] eqn:Hro; [|done]. apply row_of_inv in Hro as (i & Hi & <-). exfalso.
      apply (Hs i); [rewrite (ho_count _ _ Hdb); by eapply lookup_lt_Some|].
      rewrite (Ho i s Hi). by rewrite Z.compare_refl.
Qed.

Lemma rank_value port : rank db port = Some (rank_of rows port).
Proof.
  unfold rank, rank_of. destruct (indexOf_value port) as (r & -> & Hr). cbn [mbind option_bind].
  destruct r as [i|]; [|by rewrite Hr]. destruct Hr as (s & Hi & ->). by apply row_read in Hi as [_ ->].
Qed.

Lemma poolString_value offset s :
  pooled (strings db) offset s → poolString db (le_bytes 4 offset) = Some s.
Proof.
  intros [Ho Hs]. unfold poolString. rewrite le_value_u32 by done. cbv zeta. unfold is_u32 in Ho.
  destruct s as [text|].
  - destruct Hs as (Hne & Hl & Hslice). pose proof (lookup_lt_Some _ _ _ Hl) as Hlt.
    pose proof (slice_length _ _ _ _ Hslice) as (_ & _ & Hend).
    rewrite Z.geb_leb, (proj2 (Z.leb_gt _ _)) by lia. rewrite Hl. cbn [mbind option_bind].
    rewrite (proj2 (Z.eqb_neq _ _)) by (destruct text; simpl; [done|lia]). simpl orb.
    rewrite Z.gtb_ltb, (proj2 (Z.ltb_ge _ _)) by lia.
    replace (Z.to_nat (offset + 1)) with (S (Z.to_nat offset)) by lia.
    replace (Z.to_nat (offset + 1 + _)) with (S (Z.to_nat offset) + length text)%nat by lia. by rewrite Hslice.
  - pose proof (lookup_lt_Some _ _ _ Hs) as Hlt.
    rewrite Z.geb_leb, (proj2 (Z.leb_gt _ _)) by lia. by rewrite Hs.
Qed.

Lemma lookup_value port : lookup db port = Some (row_of rows port ≫= service_of).
Proof.
  unfold lookup. destruct (indexOf_value port) as (r & -> & Hr). cbn [mbind option_bind].
  destruct r as [i|]; [|by rewrite Hr]. destruct Hr as (s & Hi & ->). cbn [mbind option_bind].
  destruct (ho_rows _ _ Hdb i s Hi) as (l & a & d & c & Hrec & Hl & Ha & Hd & Hc).
  destruct (ho_words _ _ Hdb i s Hi) as [Hp Hk]. rewrite Hrec. cbn [mbind option_bind].
  destruct (field_of s l a d c Hp Hk (proj1 Hl) (proj1 Ha) (proj1 Hd) (proj1 Hc)) as (_ & _ & F1 & F2 & F3 & F4).
  unfold decode. rewrite F1, F2, F3, F4. cbn [mbind option_bind].
  rewrite !(poolString_value _ _ Hl), !(poolString_value _ _ Ha), !(poolString_value _ _ Hd), !(poolString_value _ _ Hc).
  cbn [mbind option_bind]. unfold service_of. destruct (r_label s); [done|]. by destruct (r_iana s).
Qed.
End Rows.

(** ** The order of the ranks *)

Definition ranked (rows : list row) : list row := filter (λ r, r_rank r ≠ 0) rows.

(** [place_ranked] on the rows themselves. *)
Fixpoint place_rows (rows : list row) (order : list Z) : rank_error + list Z :=
  match rows with
  | [] => inr order
  | r :: rows =>
    if r_rank r =? 0 then place_rows rows order
    else if r_rank r >? Z.of_nat (length order) then inl RanksWithGaps
    else if bool_decide (order !! Z.to_nat (r_rank r - 1) = Some 0)
         then place_rows rows (<[Z.to_nat (r_rank r - 1) := r_port r]> order)
         else inl RanksWithGaps
  end.

(** The slots that have been filled. *)
Definition placed (order : list Z) : list Z := filter (λ p, p ≠ 0) order.

Lemma placed_insert order i p : order !! i = Some 0 → p ≠ 0 → placed (<[i := p]> order) ≡ₚ p :: placed order.
Proof.
  intros Hi Hp. unfold placed. rewrite (insert_take_drop order i p) by by eapply lookup_lt_Some.
  rewrite <- (take_drop_middle order i 0 Hi) at 3. rewrite !filter_app, !filter_cons.
  rewrite decide_True, decide_False by (try done; intros Hn; by apply Hn). symmetry. apply Permutation_middle.
Qed.

Lemma filter_full (order : list Z) : length (placed order) = length order → placed order = order.
Proof.
  unfold placed. induction order as [|p order IH]; [done|]. rewrite filter_cons.
  pose proof (length_filter (λ p, p ≠ 0) order). destruct (decide (p ≠ 0)); simpl; intros; [f_equal; apply IH; lia|lia].
Qed.

Lemma place_rows_run rows : ∀ order order',
  Forall (λ r, r_port r ≠ 0 ∧ 0 <= r_rank r) rows → place_rows rows order = inr order' →
  length order' = length order ∧ placed order' ≡ₚ placed order ++ map r_port (ranked rows) ∧
  (∀ i p, order !! i = Some p → p ≠ 0 → order' !! i = Some p) ∧
  (∀ r, r ∈ ranked rows → order' !! Z.to_nat (r_rank r - 1) = Some (r_port r)).
Proof.
  induction rows as [|r rows IH]; intros order order' Hall Hp; cbn [place_rows] in Hp.
  { injection Hp as ->. split; [done|]. rewrite app_nil_r. split; [done|]. split; [done|]. by intros r ?%not_elem_of_nil. }
  apply Forall_cons in Hall as [[Hport Hrank] Hall]. unfold ranked. rewrite filter_cons.
  destruct (r_rank r =? 0) eqn:H0; to_prop.
  { rewrite decide_False by tauto. by apply IH. }
  rewrite decide_True by done. destruct (_ >? _); [done|]. case_bool_decide as Hslot; [|done].
  apply IH in Hp as (Hl & Hperm & Hkeep & Hin); [|done]. rewrite length_insert in Hl. split; [done|]. split; [|split].
  - rewrite Hperm, placed_insert by done. simpl. apply Permutation_middle.
  - intros i p Hi Hp. apply Hkeep; [|done]. rewrite list_lookup_insert_ne; [done|congruence].
  - intros s [->|Hs]%elem_of_cons; [|by apply Hin]. apply Hkeep; [|done].
    apply list_lookup_insert_eq. by eapply lookup_lt_Some.
Qed.

Lemma place_rows_succeeds rows : ∀ order,
  Forall (λ r, 0 <= r_rank r <= Z.of_nat (length order)) rows → NoDup (map r_rank (ranked rows)) →
  (∀ r, r ∈ ranked rows → order !! Z.to_nat (r_rank r - 1) = Some 0) →
  ∃ order', place_rows rows order = inr order'.
Proof.
  induction rows as [|r rows IH]; intros order Hall Hnd Hz; cbn [place_rows]; [by eexists|].
  apply Forall_cons in Hall as [Hr Hall]. unfold ranked in Hnd, Hz. rewrite filter_cons in Hnd, Hz.
  destruct (r_rank r =? 0) eqn:H0; to_prop; [rewrite decide_False in Hnd, Hz by tauto; by apply IH|].
  rewrite decide_True in Hnd, Hz by done. simpl in Hnd. apply NoDup_cons in Hnd as [Hni Hnd].
  rewrite Z.gtb_ltb, (proj2 (Z.ltb_ge _ _)) by lia. rewrite bool_decide_eq_true_2 by (apply Hz; by left).
  apply IH; [by rewrite length_insert|done|]. intros s Hs. rewrite list_lookup_insert_ne; [apply Hz; by right|].
  intros Heq. apply Hni. apply list_elem_of_fmap. exists s. split; [|done].
  apply list_elem_of_filter in Hs as [Hs0 Hs]. eapply Forall_forall in Hall; [|exact Hs]. cbv beta in Hall. lia.
Qed.

Section RankOrder.
Variables (db : Table) (rows : list row).
Hypothesis Hdb : holds db rows.

Lemma count_ranked_value rs : ∀ k n,
  (∀ i r, rs !! i = Some r → rows !! (k + i)%nat = Some r) →
  count_ranked db (seq k (length rs)) n = Some (n + length (ranked rs))%nat.
Proof.
  induction rs as [|r rs IH]; intros k n Hrs; cbn [length seq count_ranked]; [by rewrite Nat.add_0_r|].
  pose proof (Hrs 0%nat r eq_refl) as H0. rewrite Nat.add_0_r in H0. apply (row_read db rows Hdb) in H0 as [_ ->].
  cbn [mbind option_bind]. rewrite IH.
  2:{ intros i s Hi. rewrite <- (Hrs (S i) s Hi). f_equal. lia. }
  unfold ranked. rewrite filter_cons. f_equal. destruct (r_rank r =? 0) eqn:Hz; to_prop; simpl.
  - rewrite decide_False by tauto. done.
  - rewrite decide_True by done. simpl. lia.
Qed.

Lemma place_ranked_value rs : ∀ k order,
  (∀ i r, rs !! i = Some r → rows !! (k + i)%nat = Some r) →
  place_ranked db (seq k (length rs)) order = Some (place_rows rs order).
Proof.
  induction rs as [|r rs IH]; intros k order Hrs; cbn [length seq place_ranked place_rows]; [done|].
  pose proof (Hrs 0%nat r eq_refl) as H0. rewrite Nat.add_0_r in H0.
  destruct (ho_words _ _ Hdb k r H0) as [_ Hw]. unfold is_u16 in Hw.
  apply (row_read db rows Hdb) in H0 as [Hp ->].
  assert (∀ i s, rs !! i = Some s → rows !! (S k + i)%nat = Some s) as Hrest.
  { intros i s Hi. rewrite <- (Hrs (S i) s Hi). f_equal. lia. }
  cbn [mbind option_bind]. destruct (r_rank r =? 0) eqn:Hz; to_prop; [by apply IH|].
  destruct (_ >? _) eqn:Hgt; to_prop; [done|].
  destruct (lookup_lt_is_Some_2 order (Z.to_nat (r_rank r - 1))) as [slot Hs]; [lia|].
  rewrite Hs. cbn [mbind option_bind]. destruct (slot =? 0) eqn:Hslot; to_prop; simpl negb; cbv iota.
  - rewrite Hp. cbn [mbind option_bind]. subst slot. rewrite bool_decide_eq_true_2 by done. by apply IH.
  - rewrite bool_decide_eq_false_2; [done|congruence].
Qed.

Lemma by_rank_value : by_rank db = Some (place_rows rows (replicate (length (ranked rows)) 0)).
Proof.
  unfold by_rank. cbv zeta. rewrite (ho_count _ _ Hdb), count_ranked_value by done. cbn [mbind option_bind].
  by rewrite place_ranked_value.
Qed.

(** A port has one row. *)
Lemma same_port r s : r ∈ rows → s ∈ rows → r_port r = r_port s → r = s.
Proof.
  intros [i Hi]%list_elem_of_lookup [j Hj]%list_elem_of_lookup Heq.
  destruct (Nat.lt_trichotomy i j) as [Hlt|[->|Hlt]]; [|congruence|].
  - pose proof (ho_ascending _ _ Hdb i j r s Hlt Hi Hj). lia.
  - pose proof (ho_ascending _ _ Hdb j i s r Hlt Hj Hi). lia.
Qed.

Lemma rows_nodup : NoDup rows.
Proof.
  apply NoDup_alt. intros i j r Hi Hj. destruct (Nat.lt_trichotomy i j) as [Hlt|[->|Hlt]]; [|done|].
  - pose proof (ho_ascending _ _ Hdb i j r r Hlt Hi Hj). lia.
  - pose proof (ho_ascending _ _ Hdb j i r r Hlt Hj Hi). lia.
Qed.

(** What a finished order promises: every ranked port once, in its place. *)
Lemma by_rank_run order :
  Forall (λ r, r_port r ≠ 0) rows → by_rank db = Some (inr order) →
  order ≡ₚ map r_port (ranked rows) ∧
  (∀ r, r ∈ ranked rows → order !! Z.to_nat (r_rank r - 1) = Some (r_port r)).
Proof.
  intros Hp Hb. rewrite by_rank_value in Hb. injection Hb as Hb.
  assert (Forall (λ r, r_port r ≠ 0 ∧ 0 <= r_rank r) rows) as Hall.
  { apply Forall_lookup. intros i r Hi. split; [by eapply Forall_lookup_1 in Hp|].
    destruct (ho_words _ _ Hdb i r Hi) as [_ Hw]. unfold is_u16 in Hw. lia. }
  apply place_rows_run in Hb as (Hl & Hperm & _ & Hin); [|done]. split; [|done].
  assert (placed (replicate (length (ranked rows)) 0) = []) as Hnil.
  { unfold placed. generalize (length (ranked rows)). intros n. induction n as [|n IH]; [done|].
    simpl replicate. rewrite filter_cons, decide_False; [done|tauto]. }
  rewrite Hnil in Hperm. simpl in Hperm. rewrite <- Hperm. rewrite filter_full; [done|].
  rewrite Hperm, length_map, Hl, length_replicate. done.
Qed.

(** the order of a port scan.  by_rank never reads outside the table;
    the build accepts the table's ranks exactly when they are 1..N without
    repeats, and the order then has every ranked port once, port of rank [r]
    at place [r]. *)
Theorem by_rank_exact :
  Forall (λ r, r_port r ≠ 0) rows →
  ∃ res, by_rank db = Some res ∧
    ((∃ order, res = inr order) ↔
      NoDup (map r_rank (ranked rows)) ∧ Forall (λ r, r_rank r <= Z.of_nat (length (ranked rows))) rows) ∧
    ∀ order, res = inr order →
      order ≡ₚ map r_port (ranked rows) ∧
      ∀ r, r ∈ ranked rows → order !! Z.to_nat (r_rank r - 1) = Some (r_port r).
Proof.
  intros Hp. eexists. split; [apply by_rank_value|]. split; [|intros order Ho; apply by_rank_run; [done|]; by rewrite by_rank_value, Ho].
  assert (∀ r, r ∈ ranked rows → r ∈ rows ∧ 0 < r_rank r) as Hpos.
  { intros r [Hr0 Hr]%list_elem_of_filter. split; [done|]. apply list_elem_of_lookup in Hr as [i Hi].
    destruct (ho_words _ _ Hdb i r Hi) as [_ Hw]. unfold is_u16 in Hw. lia. }
  split.
  - intros [order Ho]. assert (by_rank db = Some (inr order)) as Hb by by rewrite by_rank_value, Ho.
    destruct (by_rank_run order Hp Hb) as [Hperm Hin]. split.
    + apply NoDup_fmap_2_strong; [|apply NoDup_filter, rows_nodup].
      intros r s Hr Hs Heq. apply (same_port r s); [by apply Hpos..|].
      apply Hin in Hr. apply Hin in Hs. rewrite Heq in Hr. congruence.
    + apply Forall_forall. intros r Hr. destruct (decide (r_rank r = 0)) as [->|Hne]; [lia|].
      assert (r ∈ ranked rows) as Hrr by by apply list_elem_of_filter.
      pose proof (lookup_lt_Some _ _ _ (Hin r Hrr)) as Hlt. rewrite Hperm, length_map in Hlt.
      apply Hpos in Hrr as [_ ?]. lia.
  - intros [Hnd Hmax]. apply place_rows_succeeds; [|done|].
    + rewrite length_replicate. apply Forall_forall. intros r Hr. eapply Forall_forall in Hmax; [|exact Hr].
      cbv beta in Hmax. apply list_elem_of_lookup in Hr as [i Hi]. destruct (ho_words _ _ Hdb i r Hi) as [_ Hw].
      unfold is_u16 in Hw. lia.
    + intros r Hr. apply lookup_replicate. split; [done|]. apply Hpos in Hr as [Hr H0].
      eapply Forall_forall in Hmax; [|exact Hr]. cbv beta in Hmax. lia.
Qed.
End RankOrder.

(** what is known of a port.  Over a table that holds a list of ports,
    the binary search finds each port's service and rank, and nothing for a
    port that is not in it; no lookup reads outside the table. *)
Theorem ports_lookup_exact db rows port :
  holds db rows →
  lookup db port = Some (row_of rows port ≫= service_of) ∧ rank db port = Some (rank_of rows port).
Proof. intros Hdb. split; [by apply lookup_value|by apply rank_value]. Qed.

(** ** What port scans ask of the table *)

(** The ranked ports in order, and every port's rank. *)
Class PortRanks := {
  ranks_order : list Z;
  ranks_rank : Z → Z;
  ranks_nodup : NoDup ranks_order;
  ranks_words : Forall is_u16 ranks_order;
  ranks_exact : ∀ port, port ∈ ranks_order ↔ ranks_rank port ≠ 0
}.

Lemma rank_of_ranked db rows port :
  holds db rows → rank_of rows port ≠ 0 ↔ ∃ r, r ∈ ranked rows ∧ r_port r = port.
Proof.
  intros Hdb. unfold rank_of. split.
  - destruct (row_of rows port) as [r|] eqn:Hr; [|done]. intros Hne. apply row_of_inv in Hr as (i & Hi & Hp).
    exists r. split; [|done]. apply list_elem_of_filter. split; [done|]. by eapply list_elem_of_lookup_2.
  - intros (r & [Hne Hr]%list_elem_of_filter & <-). apply list_elem_of_lookup in Hr as [i Hi].
    by rewrite (row_of_at db rows Hdb i r Hi).
Qed.

(** A table the build accepted answers them. *)
Definition table_ranks (db : Table) (rows : list row) (order : list Z) (Hdb : holds db rows)
    (Hports : Forall (λ r, r_port r ≠ 0) rows) (Horder : by_rank db = Some (inr order)) : PortRanks.
Proof.
  pose proof (proj1 (by_rank_run db rows Hdb order Hports Horder)) as Hperm.
  refine {| ranks_order := order; ranks_rank := rank_of rows |}.
  - rewrite Hperm. apply NoDup_fmap_2_strong; [|apply NoDup_filter, (rows_nodup db rows Hdb)].
    intros r s [_ Hr]%list_elem_of_filter [_ Hs]%list_elem_of_filter. by apply (same_port db rows Hdb).
  - rewrite Hperm. apply Forall_map, Forall_forall. intros r [_ Hr]%list_elem_of_filter.
    apply list_elem_of_lookup in Hr as [i Hi]. by apply (ho_words _ _ Hdb i r Hi).
  - intros port. rewrite (rank_of_ranked db rows port Hdb), Hperm, list_elem_of_fmap.
    split; [intros (r & -> & Hr); by exists r|intros (r & Hr & <-); by exists r].
Defined.

(** ** A small table: 22 "ssh" ranked 2nd, 80 ranked 1st and labelled, 81. *)

Definition SMALL_POOL : list Z := [0; 3; 115; 115; 104; 4; 104; 116; 116; 112; 3; 119; 101; 98].

Definition SSH : row :=
  {| r_port := 22; r_rank := 2; r_label := None; r_iana := Some [115; 115; 104]; r_description := None; r_category := None |}.
Definition WEB : row :=
  {| r_port := 80; r_rank := 1; r_label := Some [119; 101; 98]; r_iana := Some [104; 116; 116; 112];
     r_description := None; r_category := Some [119; 101; 98] |}.
Definition PLAIN : row :=
  {| r_port := 81; r_rank := 0; r_label := None; r_iana := None; r_description := None; r_category := None |}.

Definition SMALL_ROWS : list row := [SSH; WEB; PLAIN].

Definition SMALL_TABLE : Table :=
  {| entry_count := 3; record_size := RECORD_SIZE; strings := SMALL_POOL;
     records := row_bytes SSH 0 1 0 0 ++ row_bytes WEB 10 5 0 10 ++ row_bytes PLAIN 0 0 0 0 |}.

Ltac small_rows i := destruct i as [|[|[|i]]]; [..|done]; intros [= <-].

Lemma small_holds : holds SMALL_TABLE SMALL_ROWS.
Proof.
  assert (pooled SMALL_POOL 0 None ∧ pooled SMALL_POOL 1 (Some [115; 115; 104]) ∧
    pooled SMALL_POOL 5 (Some [104; 116; 116; 112]) ∧ pooled SMALL_POOL 10 (Some [119; 101; 98])) as (P0 & P1 & P5 & P10)
    by (unfold pooled, is_u32; repeat split; done || lia).
  constructor; [done|..].
  - intros i r. small_rows i.
    + exists 0, 1, 0, 0. by repeat split.
    + exists 10, 5, 0, 10. by repeat split.
    + exists 0, 0, 0, 0. by repeat split.
  - intros i r. small_rows i; unfold is_u16; simpl; lia.
  - intros i j r s Hij Hi Hj. revert Hij Hj. revert Hi. small_rows i; destruct j as [|[|[|j]]]; try done;
      intros ? [= <-]; simpl; lia.
Qed.

Lemma ports_lookup_exact_witness :
  lookup SMALL_TABLE 80 = Some (Some {| sv_name := [119; 101; 98]; sv_iana := Some [104; 116; 116; 112];
    sv_description := None; sv_category := Some [119; 101; 98] |}) ∧
  lookup SMALL_TABLE 80 = Some (row_of SMALL_ROWS 80 ≫= service_of) ∧ rank SMALL_TABLE 80 = Some (rank_of SMALL_ROWS 80).
Proof. split; [by vm_compute|]. apply (ports_lookup_exact SMALL_TABLE SMALL_ROWS 80). exact small_holds. Defined.

Lemma by_rank_exact_witness :
  by_rank SMALL_TABLE = Some (inr [80; 22]) ∧
  ∃ res, by_rank SMALL_TABLE = Some res ∧
    ((∃ order, res = inr order) ↔
      NoDup (map r_rank (ranked SMALL_ROWS)) ∧
      Forall (λ r, r_rank r <= Z.of_nat (length (ranked SMALL_ROWS))) SMALL_ROWS) ∧
    ∀ order, res = inr order →
      order ≡ₚ map r_port (ranked SMALL_ROWS) ∧
      ∀ r, r ∈ ranked SMALL_ROWS → order !! Z.to_nat (r_rank r - 1) = Some (r_port r).
Proof.
  split; [by vm_compute|]. apply (by_rank_exact SMALL_TABLE SMALL_ROWS small_holds). by repeat constructor.
Defined.

(** The small table's ranks, as a scan asks for them. *)
Definition small_ranks : PortRanks.
Proof. refine (table_ranks SMALL_TABLE SMALL_ROWS [80; 22] small_holds _ _); [by repeat constructor|by vm_compute]. Defined.
