(* ===== verification/PortScan.v ===== *)
(** * scanner.zig: the ports of one host

    A port scan's state [PortScan]: the source from which a run of
    connects.zig (Run.v) takes the ports to try, and to which it reports
    their verdicts, in up to three passes.  Methods that can overflow or
    read outside a list return [option]; the theorems exclude [None] for
    every order in which a run can call them. *)
From stdpp Require Import sorting.
From S2P Require Import Prelude Words Targets Rtt Ports.
Open Scope Z_scope.

Definition PORT_TIMEOUT_MS : Z := 500.
Definition PORT_TIMEOUT_FLOOR_MS : Z := 100.
Definition PORT_TIMEOUT_HEADROOM_MS : Z := 40.
Definition LOSSY_MIN_ANSWERS : nat := 1000.

(** std.math.maxInt(u64): no answer yet *)
Definition NO_ANSWER : Z := 18446744073709551615.

(** The enum of the field [pass] *)
Inductive Pass := pass_first | pass_retry | pass_third.

#[export] Instance Pass_eq_dec : EqDecision Pass.
Proof. solve_decision. Defined.

Record PortProbe := { pp_target : Target; pp_deferrable : bool; pp_blind : bool }.

#[export] Instance PortProbe_eq_dec : EqDecision PortProbe.
Proof. solve_decision. Defined.

Record Deferred := { d_port : Z; d_waited_ms : Z; d_blind : bool }.

(** The fields but [run], whose stop flag, output and allocator are
    arguments and results of the methods.  [ps_capacity] is the room
    [retries] has. *)
Record PortScan := {
  ps_ip : ip4;
  ps_pass : Pass;
  ps_next_ranked : nat;
  ps_next_port : Z;
  ps_start : Z;
  ps_end : Z;
  ps_fixed_ms : option Z;
  ps_estimator : RttEstimator;
  ps_fastest_answer_us : Z;
  ps_open_ports : list Z;
  ps_retries : list Deferred;
  ps_capacity : nat;
  ps_next_retry : nat;
  ps_silent_twice : nat;
  ps_answered_twice : nat;
  ps_next_third : nat;
  ps_half_units : nat
}.

(** ** Setting fields *)

Definition set_pass (x : Pass) (s : PortScan) : PortScan :=
  Build_PortScan (ps_ip s) x (ps_next_ranked s) (ps_next_port s) (ps_start s) (ps_end s) (ps_fixed_ms s)
    (ps_estimator s) (ps_fastest_answer_us s) (ps_open_ports s) (ps_retries s) (ps_capacity s)
    (ps_next_retry s) (ps_silent_twice s) (ps_answered_twice s) (ps_next_third s) (ps_half_units s).

Definition set_cursor (x : nat) (y : Z) (s : PortScan) : PortScan :=
  Build_PortScan (ps_ip s) (ps_pass s) x y (ps_start s) (ps_end s) (ps_fixed_ms s) (ps_estimator s)
    (ps_fastest_answer_us s) (ps_open_ports s) (ps_retries s) (ps_capacity s) (ps_next_retry s)
    (ps_silent_twice s) (ps_answered_twice s) (ps_next_third s) (ps_half_units s).

Definition set_learned (x : RttEstimator) (y : Z) (s : PortScan) : PortScan :=
  Build_PortScan (ps_ip s) (ps_pass s) (ps_next_ranked s) (ps_next_port s) (ps_start s) (ps_end s)
    (ps_fixed_ms s) x y (ps_open_ports s) (ps_retries s) (ps_capacity s) (ps_next_retry s) (ps_silent_twice s)
    (ps_answered_twice s) (ps_next_third s) (ps_half_units s).

Definition set_open (x : list Z) (s : PortScan) : PortScan :=
  Build_PortScan (ps_ip s) (ps_pass s) (ps_next_ranked s) (ps_next_port s) (ps_start s) (ps_end s)
    (ps_fixed_ms s) (ps_estimator s) (ps_fastest_answer_us s) x (ps_retries s) (ps_capacity s)
    (ps_next_retry s) (ps_silent_twice s) (ps_answered_twice s) (ps_next_third s) (ps_half_units s).

Definition set_retries (x : list Deferred) (s : PortScan) : PortScan :=
  Build_PortScan (ps_ip s) (ps_pass s) (ps_next_ranked s) (ps_next_port s) (ps_start s) (ps_end s)
    (ps_fixed_ms s) (ps_estimator s) (ps_fastest_answer_us s) (ps_open_ports s) x (ps_capacity s)
    (ps_next_retry s) (ps_silent_twice s) (ps_answered_twice s) (ps_next_third s) (ps_half_units s).

Definition set_next_retry (x : nat) (s : PortScan) : PortScan :=
  Build_PortScan (ps_ip s) (ps_pass s) (ps_next_ranked s) (ps_next_port s) (ps_start s) (ps_end s)
    (ps_fixed_ms s) (ps_estimator s) (ps_fastest_answer_us s) (ps_open_ports s) (ps_retries s) (ps_capacity s)
    x (ps_silent_twice s) (ps_answered_twice s) (ps_next_third s) (ps_half_units s).

Definition set_twice (x y : nat) (s : PortScan) : PortScan :=
  Build_PortScan (ps_ip s) (ps_pass s) (ps_next_ranked s) (ps_next_port s) (ps_start s) (ps_end s)
    (ps_fixed_ms s) (ps_estimator s) (ps_fastest_answer_us s) (ps_open_ports s) (ps_retries s) (ps_capacity s)
    (ps_next_retry s) x y (ps_next_third s) (ps_half_units s).

Definition set_next_third (x : nat) (s : PortScan) : PortScan :=
  Build_PortScan (ps_ip s) (ps_pass s) (ps_next_ranked s) (ps_next_port s) (ps_start s) (ps_end s)
    (ps_fixed_ms s) (ps_estimator s) (ps_fastest_answer_us s) (ps_open_ports s) (ps_retries s) (ps_capacity s)
    (ps_next_retry s) (ps_silent_twice s) (ps_answered_twice s) x (ps_half_units s).

Definition set_half (x : nat) (s : PortScan) : PortScan :=
  Build_PortScan (ps_ip s) (ps_pass s) (ps_next_ranked s) (ps_next_port s) (ps_start s) (ps_end s)
    (ps_fixed_ms s) (ps_estimator s) (ps_fastest_answer_us s) (ps_open_ports s) (ps_retries s) (ps_capacity s)
    (ps_next_retry s) (ps_silent_twice s) (ps_answered_twice s) (ps_next_third s) x.

(** What a scan says as it goes: an open port (printed when results stream,
    and counted), and a whole port of progress. *)
Inductive said := said_open (port : Z) | said_advance.

#[export] Instance said_eq_dec : EqDecision said.
Proof. solve_decision. Defined.

(** ** The next port *)

Section PortScan.
Context `{PortRanks}.

(** The first while of nextFirstPort, from entry [i] of by_rank on, of which
    [rest] is what follows. *)
Fixpoint skip_ranked (lo hi : Z) (rest : list Z) (i : nat) : nat * option Z :=
  match rest with
  | [] => (i, None)
  | port :: rest =>
    if (lo <=? port) && (port <=? hi) then (S i, Some port) else skip_ranked lo hi rest (S i)
  end.

(** The second while. *)
Fixpoint skip_unranked (fuel : nat) (hi next_port : Z) : option (Z * option Z) :=
  match fuel with
  | O => None
  | S fuel =>
    if next_port <=? hi then
      port ← zu16 next_port;
      next_port ← zu32 (next_port + 1);
      if ranks_rank port =? 0 then Some (next_port, Some port) else skip_unranked fuel hi next_port
    else Some (next_port, None)
  end.

Definition nextFirstPort (s : PortScan) : option (option Z * PortScan) :=
  match skip_ranked (ps_start s) (ps_end s) (drop (ps_next_ranked s) ranks_order) (ps_next_ranked s) with
  | (next_ranked, Some port) => Some (Some port, set_cursor next_ranked (ps_next_port s) s)
  | (next_ranked, None) =>
    '(next_port, port) ← skip_unranked (S (Z.to_nat (ps_end s + 1 - ps_next_port s))) (ps_end s) (ps_next_port s);
    Some (port, set_cursor next_ranked next_port s)
  end.

Definition probe (s : PortScan) (port timeout_ms : Z) (deferrable : bool) : PortProbe :=
  {| pp_target := {| t_ip := ps_ip s; t_port := port; t_timeout_ms := timeout_ms; t_cut_floor_ms := None |};
     pp_deferrable := deferrable; pp_blind := false |}.

Definition learnedWait (s : PortScan) : option (option Z) :=
  learned_ms ← timeoutMs (ps_estimator s);
  let far := ps_fastest_answer_us s >? PORT_TIMEOUT_FLOOR_MS * us_per_ms in
  if (far : bool) then Some None
  else
    twice ← zu32 (2 * learned_ms);
    Some (if twice >? PORT_TIMEOUT_MS then None else Some learned_ms).

Definition waitCap (s : PortScan) : option (option Z) := learnedWait s.

(** A first try sent before any answer *)
Definition blind_try (s : PortScan) (port : Z) : PortProbe :=
  {| pp_target := {| t_ip := ps_ip s; t_port := port; t_timeout_ms := PORT_TIMEOUT_MS;
                     t_cut_floor_ms := Some PORT_TIMEOUT_FLOOR_MS |};
     pp_deferrable := false; pp_blind := true |}.

Definition firstTry (s : PortScan) (port : Z) : option PortProbe :=
  match ps_fixed_ms s with
  | Some ms => Some (probe s port ms false)
  | None =>
    if ps_fastest_answer_us s =? NO_ANSWER then Some (blind_try s port)
    else
      learned ← learnedWait s;
      Some match learned with
           | Some learned_ms => probe s port learned_ms true
           | None => probe s port PORT_TIMEOUT_MS false
           end
  end.

(** next, [stop] being what the stop flag reads *)
Definition next (stop : bool) (s : PortScan) : option (option PortProbe * PortScan) :=
  if stop then Some (None, s)
  else
    match ps_pass s with
    | pass_first =>
      '(port, s') ← nextFirstPort s;
      match port with
      | None => Some (None, s')
      | Some port => p ← firstTry s' port; Some (Some p, s')
      end
    | pass_retry =>
      if (length (ps_retries s) <=? ps_next_retry s)%nat then Some (None, s)
      else
        deferred ← ps_retries s !! ps_next_retry s;
        let s := set_next_retry (S (ps_next_retry s)) s in
        left_ms ← (if d_blind deferred then Some PORT_TIMEOUT_MS else zu32 (PORT_TIMEOUT_MS - d_waited_ms deferred));
        learned ← timeoutMs (ps_estimator s);
        Some (Some (probe s (d_port deferred) (Z.min learned left_ms) false), s)
    | pass_third =>
      if (ps_silent_twice s <=? ps_next_third s)%nat then Some (None, s)
      else
        deferred ← ps_retries s !! ps_next_third s;
        let s := set_next_third (S (ps_next_third s)) s in
        learned ← timeoutMs (ps_estimator s);
        Some (Some (probe s (d_port deferred) learned false), s)
    end.

(** [10 * answered_twice >= retries.items.len], after a stop request or not *)
Definition needsThirdPass (stop : bool) (s : PortScan) : bool :=
  if stop || (ps_silent_twice s =? 0)%nat then false
  else (LOSSY_MIN_ANSWERS <=? ps_answered_twice s)%nat &&
       (length (ps_retries s) <=? 10 * ps_answered_twice s)%nat.

(** ** A verdict *)

Definition cutShort (p : PortProbe) (elapsed_us : Z) : bool :=
  elapsed_us <? t_timeout_ms (pp_target p) * us_per_ms.

(** [room]: the list can grow *)
Definition recordOpen (room : bool) (port : Z) (s : PortScan) : PortScan * list said :=
  (set_open (if room then ps_open_ports s ++ [port] else ps_open_ports s) s, [said_open port]).

Definition advanceHalves (halves : nat) (s : PortScan) : PortScan * list said :=
  let before := ps_half_units s in
  (set_half (before + halves) s, replicate ((before + halves) / 2 - before / 2) said_advance).

(** What an answer teaches. *)
Definition learn (outcome : Outcome) (elapsed_us : Z) (s : PortScan) : option PortScan :=
  if bool_decide (outcome = filtered) then Some s
  else
    estimator ← observe (ps_estimator s) elapsed_us;
    Some (set_learned estimator (Z.min (ps_fastest_answer_us s) elapsed_us) s).

(** A second try's verdict, counted. *)
Definition settle_retry (p : PortProbe) (outcome : Outcome) (s : PortScan) : option PortScan :=
  if bool_decide (ps_pass s = pass_retry) then
    if bool_decide (outcome = filtered) then
      let slot := {| d_port := t_port (pp_target p); d_waited_ms := t_timeout_ms (pp_target p); d_blind := false |} in
      if (ps_silent_twice s <? length (ps_retries s))%nat then
        Some (set_twice (S (ps_silent_twice s)) (ps_answered_twice s)
                (set_retries (<[ps_silent_twice s := slot]> (ps_retries s)) s))
      else None
    else Some (set_twice (ps_silent_twice s) (S (ps_answered_twice s)) s)
  else Some s.

(** Whether a try without an answer earns a second one. *)
Definition earns_retry (p : PortProbe) (elapsed_us : Z) (s : PortScan) : option bool :=
  if pp_deferrable p then Some true
  else if pp_blind p then
    learned ← learnedWait s;
    Some (bool_decide (is_Some learned) || cutShort p elapsed_us)
  else Some false.

Definition deferred_of (p : PortProbe) : Deferred :=
  {| d_port := t_port (pp_target p); d_waited_ms := t_timeout_ms (pp_target p); d_blind := pp_blind p |}.

(** retries.appendAssumeCapacity *)
Definition defer (p : PortProbe) (s : PortScan) : option PortScan :=
  if (length (ps_retries s) <? ps_capacity s)%nat then Some (set_retries (ps_retries s ++ [deferred_of p]) s)
  else None.

(** The end of [done], progress and open ports. *)
Definition count_verdict (room : bool) (p : PortProbe) (outcome : Outcome) (elapsed_us : Z) (s : PortScan)
    : option (PortScan * list said) :=
  let port := t_port (pp_target p) in
  match ps_pass s with
  | pass_third => Some (if bool_decide (outcome = open) then recordOpen room port s else (s, []))
  | _ =>
    let settled '(s, out) :=
      let '(s, out') := advanceHalves (if bool_decide (ps_pass s = pass_first) then 2 else 1) s in
      Some (s, out ++ out') in
    match outcome with
    | open => settled (recordOpen room port s)
    | refused => settled (s, [])
    | filtered =>
      again ← earns_retry p elapsed_us s;
      if (again : bool) then s ← defer p s; Some (advanceHalves 1 s) else settled (s, [])
    end
  end.

Definition done (room : bool) (p : PortProbe) (outcome : Outcome) (elapsed_us : Z) (s : PortScan)
    : option (PortScan * list said) :=
  s ← learn outcome elapsed_us s;
  s ← settle_retry p outcome s;
  count_verdict room p outcome elapsed_us s.
End PortScan.

(** scanPorts' scan, before its passes; [None] is the estimator's assertion. *)
Definition scan_of (ip : ip4) (start_port end_port : Z) (timeout_ms : option Z) : option PortScan :=
  estimator ← init PORT_TIMEOUT_FLOOR_MS PORT_TIMEOUT_HEADROOM_MS PORT_TIMEOUT_MS;
  Some {| ps_ip := ip; ps_pass := pass_first; ps_next_ranked := 0; ps_next_port := start_port;
          ps_start := start_port; ps_end := end_port; ps_fixed_ms := timeout_ms; ps_estimator := estimator;
          ps_fastest_answer_us := NO_ANSWER; ps_open_ports := []; ps_retries := [];
          ps_capacity := match timeout_ms with None => Z.to_nat (end_port - start_port + 1) | Some _ => 0 end;
          ps_next_retry := 0; ps_silent_twice := 0; ps_answered_twice := 0; ps_next_third := 0;
          ps_half_units := 0 |}.

Definition u16LessThan (a b : Z) : bool := a <? b.

(** std.mem.sort *)
Definition port_le (a b : Z) : Prop := u16LessThan b a = false.

#[export] Instance port_le_dec : RelDecision port_le.
Proof. intros a b. unfold port_le. solve_decision. Defined.

Definition sort_ports (ports : list Z) : list Z := merge_sort port_le ports.

Lemma port_le_le a b : port_le a b ↔ a <= b.
Proof. unfold port_le, u16LessThan. apply Z.ltb_ge. Qed.

Lemma sort_ports_perm ports : sort_ports ports ≡ₚ ports.
Proof. apply merge_sort_Permutation. Qed.

Lemma sort_ports_sorted ports : StronglySorted Z.le (sort_ports ports).
Proof.
  assert (Total port_le) by (intros a b; rewrite !port_le_le; lia).
  assert (Transitive port_le) by (intros a b c; rewrite !port_le_le; lia).
  pose proof (StronglySorted_merge_sort port_le ports) as Hs. unfold sort_ports.
  induction Hs as [|a l _ IH Ha]; constructor; [done|].
  eapply Forall_impl; [exact Ha|]. intros b. by rewrite port_le_le.
Qed.

(** ** The order of the first pass *)

Section Order.
Context `{PortRanks}.

(** The ports of a range, in the order the first pass tries them. *)
Definition scan_order (lo hi : Z) : list Z :=
  filter (λ p, lo <= p <= hi) ranks_order ++ filter (λ p, ranks_rank p = 0) (seqZ lo (hi + 1 - lo)).

(** What is left of it. *)
Definition untried (s : PortScan) : list Z :=
  filter (λ p, ps_start s <= p <= ps_end s) (drop (ps_next_ranked s) ranks_order) ++
  filter (λ p, ranks_rank p = 0) (seqZ (ps_next_port s) (ps_end s + 1 - ps_next_port s)).

Lemma scan_order_perm lo hi : scan_order lo hi ≡ₚ seqZ lo (hi + 1 - lo).
Proof.
  apply NoDup_Permutation; [|apply NoDup_seqZ|].
  - apply NoDup_app. split; [apply NoDup_filter, ranks_nodup|]. split; [|apply NoDup_filter, NoDup_seqZ].
    intros p [_ Hr%ranks_exact]%list_elem_of_filter [H0 _]%list_elem_of_filter. done.
  - intros p. unfold scan_order. rewrite elem_of_app, !list_elem_of_filter, ranks_exact, elem_of_seqZ.
    destruct (decide (ranks_rank p = 0)); naive_solver lia.
Qed.

Lemma skip_ranked_run lo hi rest : ∀ i,
  let '(j, r) := skip_ranked lo hi rest i in
  (i ≤ j ≤ i + length rest)%nat ∧
  filter (λ p, lo <= p <= hi) rest = option_list r ++ filter (λ p, lo <= p <= hi) (drop (j - i) rest) ∧
  (r = None → j = i + length rest)%nat ∧ (∀ p, r = Some p → lo <= p <= hi).
Proof.
  induction rest as [|port rest IH]; intros i; simpl; [rewrite drop_nil; splits; try done; lia|].
  destruct (_ && _) eqn:Hin; to_prop.
  - rewrite filter_cons_True by lia. replace (S i - i)%nat with 1%nat by lia. splits; try lia; [done..|].
    by intros p [= ->].
  - specialize (IH (S i)). destruct (skip_ranked lo hi rest (S i)) as [j r]. destruct IH as (Hj & Hf & Hn & Hp).
    rewrite filter_cons_False by lia. rewrite Hf. replace (j - i)%nat with (S (j - S i)) by lia. splits; try done; lia || idtac.
    intros Hr. specialize (Hn Hr). lia.
Qed.

Lemma skip_unranked_run hi fuel : ∀ port,
  0 <= port <= hi + 1 → hi < 65536 → hi + 1 - port < Z.of_nat fuel →
  ∃ q r, skip_unranked fuel hi port = Some (q, r) ∧ port <= q <= hi + 1 ∧
    filter (λ p, ranks_rank p = 0) (seqZ port (hi + 1 - port)) =
      option_list r ++ filter (λ p, ranks_rank p = 0) (seqZ q (hi + 1 - q)) ∧
    (r = None → q = hi + 1) ∧ (∀ p, r = Some p → port <= p <= hi).
Proof.
  induction fuel as [|fuel IH]; intros port Hport Hhi Hfuel; [lia|]. cbn [skip_unranked].
  destruct (port <=? hi) eqn:Hle; to_prop.
  2:{ exists port, None. splits; try done; lia. }
  unfold zu16, zu32. rewrite !fits_some by lia. cbn [mbind option_bind].
  rewrite (seqZ_cons port) by lia. rewrite filter_cons. replace (Z.succ port) with (port + 1) by lia.
  replace (Z.pred (hi + 1 - port)) with (hi + 1 - (port + 1)) by lia.
  destruct (ranks_rank port =? 0) eqn:Hr; to_prop.
  - exists (port + 1), (Some port). rewrite decide_True by done. splits; try done; [lia..|]. intros p [= <-]. lia.
  - rewrite decide_False by done. destruct (IH (port + 1)) as (q & r & Hs & Hq & Hf & Hn & Hp); [lia..|].
    exists q, r. splits; try done; [lia..|]. intros p Hp'. apply Hp in Hp'. lia.
Qed.

(** Where the first pass stands. *)
Record cursor_ok (s : PortScan) : Prop := {
  cu_range : 0 <= ps_start s ∧ ps_end s < 65536;
  cu_ranked : (ps_next_ranked s ≤ length ranks_order)%nat;
  cu_port : ps_start s <= ps_next_port s <= ps_end s + 1
}.

Lemma nextFirstPort_run s :
  cursor_ok s → ∃ r i q, nextFirstPort s = Some (r, set_cursor i q s) ∧ cursor_ok (set_cursor i q s) ∧
    untried s = option_list r ++ untried (set_cursor i q s) ∧
    (r = None → untried (set_cursor i q s) = []) ∧ (∀ p, r = Some p → ps_start s <= p <= ps_end s).
Proof.
  intros [Hr Hi Hp]. unfold nextFirstPort, untried.
  pose proof (skip_ranked_run (ps_start s) (ps_end s) (drop (ps_next_ranked s) ranks_order) (ps_next_ranked s)) as Hs.
  destruct (skip_ranked _ _ _ _) as [j r]. rewrite length_drop in Hs. destruct Hs as (Hj & Hf & Hn & Hin).
  rewrite drop_drop in Hf. replace (ps_next_ranked s + (j - ps_next_ranked s))%nat with j in Hf by lia.
  destruct r as [port|].
  - exists (Some port), j, (ps_next_port s). simpl. split; [done|]. split; [split; simpl; lia|].
    split; [by rewrite Hf|]. split; [done|]. intros p [= <-]. by apply Hin.
  - specialize (Hn eq_refl). rewrite (drop_ge ranks_order j) in Hf by lia. simpl in Hf. rewrite Hf.
    destruct (skip_unranked_run (ps_end s) (S (Z.to_nat (ps_end s + 1 - ps_next_port s))) (ps_next_port s))
      as (q & r & Hq & Hqr & Hqf & Hqn & Hqp); [lia..|].
    rewrite Hq. cbn [mbind option_bind]. exists r, j, q. simpl. split; [done|]. split; [split; simpl; lia|].
    rewrite (drop_ge ranks_order j) by lia. simpl. split; [done|]. split.
    + intros Hx. rewrite (Hqn Hx). by replace (ps_end s + 1 - (ps_end s + 1)) with 0 by lia.
    + intros p Hx. apply Hqp in Hx. lia.
Qed.
End Order.

(** ** What a scan keeps *)

Section Invariant.
Context `{PortRanks}.

Definition port_of (p : PortProbe) : Z := t_port (pp_target p).

(** The ports a pass has yet to try, and those it leaves for the next. *)
Definition to_try (s : PortScan) : list Z :=
  match ps_pass s with
  | pass_first => untried s
  | pass_retry => map d_port (drop (ps_next_retry s) (ps_retries s))
  | pass_third => map d_port (drop (ps_next_third s) (take (ps_silent_twice s) (ps_retries s)))
  end.

Definition kept (s : PortScan) : list Z :=
  match ps_pass s with
  | pass_first => map d_port (ps_retries s)
  | pass_retry => map d_port (take (ps_silent_twice s) (ps_retries s))
  | pass_third => []
  end.

(** The halves of progress a port has brought before its try in this pass,
    and after it. *)
Definition before_halves (pass : Pass) : nat :=
  match pass with pass_first => 0 | pass_retry => 1 | pass_third => 2 end.
Definition after_halves (pass : Pass) : nat := match pass with pass_first => 1 | _ => 2 end.

(** Every port of the range is in one place: its verdict is in ([settled]),
    it is being tried ([out]), it has yet to be tried in this pass, it waits
    for the next, or a stop request kept it from its first try ([skip0]) or
    its second ([skip1]).  An open port's verdict is in. *)
Record books (s : PortScan) (out : list PortProbe) (settled skip0 skip1 : list Z) : Prop := {
  bo_ports : seqZ (ps_start s) (ps_end s + 1 - ps_start s) ≡ₚ
    settled ++ map port_of out ++ to_try s ++ kept s ++ skip0 ++ skip1;
  bo_open : ps_open_ports s ⊆+ settled;
  bo_half : ps_half_units s = (2 * length settled + before_halves (ps_pass s) * (length out + length (to_try s)) +
    after_halves (ps_pass s) * length (kept s) + length skip1)%nat
}.

(** A connect under way. *)
Record probe_ok (s : PortScan) (p : PortProbe) : Prop := {
  pr_wait : 0 <= t_timeout_ms (pp_target p);
  pr_cap : t_timeout_ms (pp_target p) <= PORT_TIMEOUT_MS ∨ ps_fixed_ms s = Some (t_timeout_ms (pp_target p));
  pr_twice : pp_deferrable p = true → 2 * t_timeout_ms (pp_target p) <= PORT_TIMEOUT_MS;
  pr_once : ps_pass s ≠ pass_first ∨ ps_fixed_ms s ≠ None → pp_deferrable p = false ∧ pp_blind p = false
}.

(** A port waiting for its second try. *)
Definition waited_ok (d : Deferred) : Prop := d_blind d = false → 0 <= 2 * d_waited_ms d <= PORT_TIMEOUT_MS.

(** The queue's indices, with [n] connects under way. *)
Definition queue_ok (s : PortScan) (n : nat) : Prop :=
  match ps_pass s with
  | pass_first => ps_next_retry s = 0%nat ∧ ps_silent_twice s = 0%nat ∧ ps_answered_twice s = 0%nat ∧ ps_next_third s = 0%nat
  | pass_retry => (ps_silent_twice s + ps_answered_twice s + n)%nat = ps_next_retry s ∧
                  (ps_next_retry s ≤ length (ps_retries s))%nat ∧ ps_next_third s = 0%nat
  | pass_third => (ps_next_third s ≤ ps_silent_twice s ≤ length (ps_retries s))%nat
  end.

Definition learned_ok (r : RttEstimator) : Prop :=
  rtt_ok 0 MAX_RTT r ∧ floor_ms r = PORT_TIMEOUT_FLOOR_MS ∧ ceiling_ms r = PORT_TIMEOUT_MS.

Record scan_inv (s : PortScan) (out : list PortProbe) : Prop := {
  in_cursor : cursor_ok s;
  in_learned : learned_ok (ps_estimator s);
  in_fixed : ∀ ms, ps_fixed_ms s = Some ms → 0 <= ms;
  in_out : Forall (probe_ok s) out;
  in_waited : Forall waited_ok (drop (ps_next_retry s) (ps_retries s));
  in_queue : queue_ok s (length out);
  in_room : match ps_fixed_ms s with
            | Some _ => ps_retries s = []
            | None => ps_capacity s = length (seqZ (ps_start s) (ps_end s + 1 - ps_start s))
            end
}.

Lemma learned_timeout r : learned_ok r → ∃ t, timeoutMs r = Some t ∧ PORT_TIMEOUT_FLOOR_MS <= t <= PORT_TIMEOUT_MS.
Proof.
  intros (Hok & Hf & Hc). destruct (srtt_us r) as [x|] eqn:Hx.
  - eexists. split; [by eapply timeoutMs_some|]. unfold clamp. rewrite Hf, Hc.
    unfold PORT_TIMEOUT_FLOOR_MS, PORT_TIMEOUT_MS. lia.
  - exists (ceiling_ms r). unfold timeoutMs. rewrite Hx, Hc. unfold PORT_TIMEOUT_FLOOR_MS, PORT_TIMEOUT_MS. split; [done|lia].
Qed.

Lemma learnedWait_run s :
  learned_ok (ps_estimator s) → ∃ w, learnedWait s = Some w ∧
    ∀ ms, w = Some ms → PORT_TIMEOUT_FLOOR_MS <= ms ∧ 2 * ms <= PORT_TIMEOUT_MS.
Proof.
  intros Hok. destruct (learned_timeout _ Hok) as (t & Ht & Hr). unfold learnedWait. rewrite Ht. cbn [mbind option_bind].
  destruct (_ >? _); [by eexists|]. unfold zu32. rewrite fits_some.
  2:{ unfold PORT_TIMEOUT_FLOOR_MS, PORT_TIMEOUT_MS in *. lia. }
  cbn [mbind option_bind]. eexists. split; [done|]. case_test; intros ms [= <-]. lia.
Qed.

Lemma books_perm s out out' a k0 k1 : out ≡ₚ out' → books s out a k0 k1 → books s out' a k0 k1.
Proof. intros Ho [Hp Hop Hh]. split; [by rewrite <- Ho|done|by rewrite <- Ho]. Qed.

Lemma inv_perm s out out' : out ≡ₚ out' → scan_inv s out → scan_inv s out'.
Proof. intros Ho []. split; try done; by rewrite <- Ho. Qed.

(** ** Taking a port *)

Lemma firstTry_run s port :
  scan_inv s [] → ps_pass s = pass_first → ∃ p, firstTry s port = Some p ∧ port_of p = port ∧ probe_ok s p.
Proof.
  intros Hi Hp. pose proof (in_fixed _ _ Hi) as Hf. unfold firstTry.
  assert (∀ t, 0 <= t → t <= PORT_TIMEOUT_MS ∨ ps_fixed_ms s = Some t → probe_ok s (probe s port t false)) as Hplain by by split.
  destruct (ps_fixed_ms s) as [ms|] eqn:Hms.
  { eexists. split; [done|]. split; [done|]. apply Hplain; [by apply Hf|by right]. }
  destruct (_ =? _).
  { eexists. split; [done|]. split; [done|]. split; [done|by left|done|]. rewrite Hp, Hms. naive_solver. }
  destruct (learnedWait_run s (in_learned _ _ Hi)) as (w & Hw & Hb). rewrite Hw. cbn [mbind option_bind].
  eexists. split; [done|]. destruct w as [ms|]; [|split; [done|apply Hplain; [done|by left]]].
  destruct (Hb ms eq_refl). unfold PORT_TIMEOUT_FLOOR_MS in *. split; [done|].
  split; simpl; [lia|unfold PORT_TIMEOUT_MS in *; lia|done|]. rewrite Hp, Hms. naive_solver.
Qed.

(** What taking the next port comes to. *)
Record took (s : PortScan) (r : option PortProbe) (s' : PortScan) : Prop := {
  tk_pass : ps_pass s' = ps_pass s;
  tk_pool : to_try s = map port_of (option_list r) ++ to_try s';
  tk_kept : kept s' = kept s;
  tk_open : ps_open_ports s' = ps_open_ports s;
  tk_half : ps_half_units s' = ps_half_units s;
  tk_range : ps_start s' = ps_start s ∧ ps_end s' = ps_end s;
  tk_queue : ps_retries s' = ps_retries s ∧ ps_silent_twice s' = ps_silent_twice s ∧ ps_answered_twice s' = ps_answered_twice s
}.

Lemma took_books s out a k0 k1 r s' : took s r s' → books s out a k0 k1 → books s' (option_list r ++ out) a k0 k1.
Proof.
  intros [Hp Hpo Hk Ho Hh [Hs He] _] [B1 B2 B3]. split; rewrite ?Hp, ?Hk, ?Ho, ?Hh, ?Hs, ?He; [|done|].
  - rewrite B1, Hpo, map_app. solve_Permutation.
  - rewrite B3, Hpo, !length_app, length_map. lia.
Qed.

Lemma next_run stop s out :
  scan_inv s out → ∃ r s', next stop s = Some (r, s') ∧ took s r s' ∧ scan_inv s' (option_list r ++ out) ∧
    (stop = false → r = None → to_try s' = []).
Proof.
  intros Hi. assert (took s None s) as Hsame by by split.
  unfold next. destruct stop; [by exists None, s|].
  destruct Hi as [Hcu Hle Hfi Hout Hwa Hq Hroom]. unfold queue_ok in Hq. destruct (ps_pass s) eqn:Hpass.
  - destruct (nextFirstPort_run s Hcu) as (r & i & q & Hn & Hcu' & Hun & Hnone & _).
    rewrite Hn. cbn [mbind option_bind]. destruct r as [port|].
    + assert (scan_inv (set_cursor i q s) []) as Hi0 by (split; try done; by unfold queue_ok; simpl; rewrite Hpass).
      destruct (firstTry_run (set_cursor i q s) port Hi0 Hpass) as (p & Hp & Hport & Hok). rewrite Hp. cbn [mbind option_bind].
      eexists _, _. split; [done|]. split; [|split; [|done]].
      * split; try done. unfold to_try. simpl. by rewrite Hpass, Hun, Hport.
      * split; try done; [|unfold queue_ok; simpl; by rewrite Hpass].
        constructor; [done|]. eapply Forall_impl; [exact Hout|]. intros p' []. by split.
    + eexists _, _. split; [done|]. split; [|split].
      * split; try done. unfold to_try. simpl. by rewrite Hpass, Hun.
      * split; try done; [|unfold queue_ok; simpl; by rewrite Hpass].
        eapply Forall_impl; [exact Hout|]. intros p' []. by split.
      * intros _ _. unfold to_try. simpl. rewrite Hpass. by apply Hnone.
  - destruct Hq as (Hsum & Hlen & Hthird). destruct (_ <=? _)%nat eqn:Hend; to_prop.
    { exists None, s. split; [done|]. split; [done|]. split; [by split; try done; unfold queue_ok; rewrite Hpass|].
      intros _ _. unfold to_try. rewrite Hpass, drop_ge by lia. done. }
    destruct (lookup_lt_is_Some_2 (ps_retries s) (ps_next_retry s)) as [d Hd]; [lia|].
    rewrite (drop_S _ _ _ Hd) in Hwa. apply Forall_cons in Hwa as [Hw Hwa]. rewrite Hd. cbn [mbind option_bind].
    assert (∃ left_ms, (if d_blind d then Some PORT_TIMEOUT_MS else zu32 (PORT_TIMEOUT_MS - d_waited_ms d)) = Some left_ms ∧
      0 <= left_ms) as (left_ms & Hl & Hl0).
    { unfold waited_ok, PORT_TIMEOUT_MS in *. destruct (d_blind d); [by eexists|]. specialize (Hw eq_refl).
      unfold zu32. rewrite fits_some by lia. eexists. split; [done|lia]. }
    destruct (learned_timeout _ Hle) as (t & Ht & Htr).
    cbn [ps_estimator set_next_retry]. rewrite Hl, Ht. cbn [mbind option_bind].
    eexists _, _. split; [done|]. split; [|split; [|done]].
    + split; try done. unfold to_try. simpl. by rewrite Hpass, (drop_S _ _ _ Hd).
    + split; try done; [by destruct Hcu| |unfold queue_ok; simpl; rewrite Hpass; lia].
      constructor; [|eapply Forall_impl; [exact Hout|]; intros p' []; by split].
      split; simpl; try done; unfold PORT_TIMEOUT_FLOOR_MS in *; [lia|left; lia].
  - destruct (_ <=? _)%nat eqn:Hend; to_prop.
    { exists None, s. split; [done|]. split; [done|]. split; [by split; try done; unfold queue_ok; rewrite Hpass|].
      intros _ _. unfold to_try. rewrite Hpass, drop_ge by (rewrite length_take; lia). done. }
    destruct (lookup_lt_is_Some_2 (ps_retries s) (ps_next_third s)) as [d Hd]; [lia|]. rewrite Hd. cbn [mbind option_bind].
    destruct (learned_timeout _ Hle) as (t & Ht & Htr).
    cbn [ps_estimator set_next_third]. rewrite Ht. cbn [mbind option_bind].
    eexists _, _. split; [done|]. split; [|split; [|done]].
    + split; try done. unfold to_try. simpl. rewrite Hpass.
      assert (take (ps_silent_twice s) (ps_retries s) !! ps_next_third s = Some d) as Htd by (rewrite lookup_take_lt by lia; done).
      by rewrite (drop_S _ _ _ Htd).
    + split; try done; [by destruct Hcu| |unfold queue_ok; simpl; rewrite Hpass; lia].
      constructor; [|eapply Forall_impl; [exact Hout|]; intros p' []; by split].
      split; simpl; try done; unfold PORT_TIMEOUT_FLOOR_MS in *; [lia|left; lia].
Qed.

(** ** Taking in a verdict *)

(** What a verdict changes not. *)
Record same_scan (s s' : PortScan) : Prop := {
  sm_pass : ps_pass s' = ps_pass s;
  sm_range : ps_start s' = ps_start s ∧ ps_end s' = ps_end s;
  sm_cursor : ps_next_ranked s' = ps_next_ranked s ∧ ps_next_port s' = ps_next_port s;
  sm_fixed : ps_fixed_ms s' = ps_fixed_ms s ∧ ps_capacity s' = ps_capacity s;
  sm_next : ps_next_retry s' = ps_next_retry s ∧ ps_next_third s' = ps_next_third s
}.

Lemma same_untried s s' : same_scan s s' → untried s' = untried s.
Proof. intros [_ [H1 H2] [H3 H4] _ _]. unfold untried. by rewrite H1, H2, H3, H4. Qed.

Lemma same_inv s s' out out' :
  same_scan s s' → learned_ok (ps_estimator s') → scan_inv s out → out' ⊆+ out →
  Forall waited_ok (drop (ps_next_retry s') (ps_retries s')) → queue_ok s' (length out') →
  (ps_fixed_ms s ≠ None → ps_retries s = [] → ps_retries s' = []) → scan_inv s' out'.
Proof.
  intros [Hp [H1 H2] [H3 H4] [H5 H6] _] Hl [[] _ Hf Ho _ _ Hr] Hsub Hw Hq Hre.
  split; rewrite ?H1, ?H2, ?H5, ?H6; try done; [split; congruence| |].
  - apply Forall_forall. intros p Hin. eapply Forall_forall in Ho as []; [|by eapply elem_of_submseteq]. split; rewrite ?Hp, ?H5; done.
  - destruct (ps_fixed_ms s); [by apply Hre|done].
Qed.

(** A port's verdict is in. *)
Lemma books_settle s s' p out a k0 k1 opened :
  books s (p :: out) a k0 k1 → same_scan s s' → to_try s' = to_try s → kept s' = kept s →
  ps_open_ports s' = ps_open_ports s ++ opened → opened ⊆+ [port_of p] →
  (ps_half_units s' + before_halves (ps_pass s) = ps_half_units s + 2)%nat →
  books s' out (port_of p :: a) k0 k1.
Proof.
  intros [B1 B2 B3] [Hp [H1 H2] _ _ _] Hpo Hk Ho Hop Hh. split; rewrite ?H1, ?H2, ?Hpo, ?Hk, ?Ho, ?Hp.
  - rewrite B1. simpl. solve_Permutation.
  - rewrite (Permutation_app_comm _ opened). change (port_of p :: a) with ([port_of p] ++ a).
    by apply submseteq_app.
  - simpl in *. destruct (ps_pass s); simpl in *; lia.
Qed.

(** A port waits for the next pass. *)
Lemma books_keep s s' p out a k0 k1 :
  books s (p :: out) a k0 k1 → same_scan s s' → to_try s' = to_try s → kept s' = kept s ++ [port_of p] →
  ps_open_ports s' = ps_open_ports s →
  (ps_half_units s' + before_halves (ps_pass s) = ps_half_units s + after_halves (ps_pass s))%nat →
  books s' out a k0 k1.
Proof.
  intros [B1 B2 B3] [Hp [H1 H2] _ _ _] Hpo Hk Ho Hh. split; rewrite ?H1, ?H2, ?Hpo, ?Hk, ?Ho, ?Hp; [|done|].
  - rewrite B1. simpl. solve_Permutation.
  - rewrite length_app. simpl in *. lia.
Qed.

(** Changes that keep the invariant. *)
Lemma inv_drop s p out : scan_inv s (p :: out) → queue_ok s (length out) → scan_inv s out.
Proof. intros [] Hq. split; try done. by apply Forall_cons in in_out0 as [_ ?]. Qed.

Lemma inv_set_half n s out : scan_inv s out → scan_inv (set_half n s) out.
Proof. intros Hi. pose proof Hi as []. by apply (same_inv s _ out). Qed.

Lemma inv_set_open l s out : scan_inv s out → scan_inv (set_open l s) out.
Proof. intros Hi. pose proof Hi as []. by apply (same_inv s _ out). Qed.

Lemma inv_set_learned e f s out : learned_ok e → scan_inv s out → scan_inv (set_learned e f s) out.
Proof. intros He Hi. pose proof Hi as []. by apply (same_inv s _ out). Qed.

Lemma learn_run o us s out a k0 k1 :
  scan_inv s out → books s out a k0 k1 → 0 <= us <= MAX_RTT →
  ∃ e f, learn o us s = Some (set_learned e f s) ∧ scan_inv (set_learned e f s) out ∧ books (set_learned e f s) out a k0 k1.
Proof.
  intros Hi [B1 B2 B3] Hus. assert (∀ e f, books (set_learned e f s) out a k0 k1) as Hb by by split.
  unfold learn. case_test.
  - exists (ps_estimator s), (ps_fastest_answer_us s). split; [by destruct s|]. split; [|done]. by apply inv_set_learned; [apply Hi|].
  - destruct (in_learned _ _ Hi) as (Hok & Hfl & Hce).
    destruct (observe_ok _ _ _ us Hok Hus) as (e & He & Hoke & _ & Hf & _ & Hc). rewrite He. cbn [mbind option_bind].
    eexists _, _. split; [done|]. split; [|done]. apply inv_set_learned; [|done].
    split; [done|]. by rewrite Hf, Hc.
Qed.

(** What a verdict comes to: an open port is recorded before the progress it
    brings is. *)
Record gave (s : PortScan) (room : bool) (p : PortProbe) (o : Outcome) (s' : PortScan) (l : list said) : Prop := {
  gv_same : same_scan s s';
  gv_pool : to_try s' = to_try s;
  gv_open : ps_open_ports s' = ps_open_ports s ++ (if room && bool_decide (o = open) then [port_of p] else []);
  gv_said : l = (if bool_decide (o = open) then [said_open (port_of p)] else []) ++
    replicate (ps_half_units s' / 2 - ps_half_units s / 2) said_advance;
  gv_half : (ps_half_units s ≤ ps_half_units s')%nat
}.

(** The state a verdict leaves, and what it says. *)
Definition verdict_ok (s : PortScan) (room : bool) (p : PortProbe) (o : Outcome) (out : list PortProbe)
    (a k0 k1 : list Z) (r : option (PortScan * list said)) : Prop :=
  ∃ s' l a', r = Some (s', l) ∧ gave s room p o s' l ∧ scan_inv s' out ∧ books s' out a' k0 k1.

(** Half way: [s1] differs from [s] by what the verdict says of the port. *)
Record mid (s : PortScan) (opened : list Z) (s1 : PortScan) (out : list PortProbe) : Prop := {
  md_same : same_scan s s1;
  md_pool : to_try s1 = to_try s;
  md_open : ps_open_ports s1 = ps_open_ports s ++ opened;
  md_half : ps_half_units s1 = ps_half_units s;
  md_inv : scan_inv s1 out
}.

Lemma mid_gave s s1 room p o out n :
  mid s (if room && bool_decide (o = open) then [port_of p] else []) s1 out →
  gave s room p o (set_half (ps_half_units s1 + n) s1)
    ((if bool_decide (o = open) then [said_open (port_of p)] else []) ++
     replicate ((ps_half_units s1 + n) / 2 - ps_half_units s1 / 2) said_advance) ∧
  scan_inv (set_half (ps_half_units s1 + n) s1) out.
Proof.
  intros [[] Hp Ho Hh Hi]. split; [|by apply inv_set_half]. split; [by split|done|done|by rewrite Hh|simpl; lia].
Qed.

Lemma opened_sub (room : bool) (o : Outcome) (port : Z) :
  (if room && bool_decide (o = open) then [port] else []) ⊆+ [port].
Proof. destruct (_ && _); [done|]. apply submseteq_nil_l. Qed.

(** The verdict is in: the rest of the port's progress. *)
Lemma settle_ok s s1 room p o out a k0 k1 :
  books s (p :: out) a k0 k1 → mid s (if room && bool_decide (o = open) then [port_of p] else []) s1 out →
  kept s1 = kept s → ps_pass s ≠ pass_third →
  verdict_ok s room p o out a k0 k1
    (let '(s2, out') := advanceHalves (if bool_decide (ps_pass s1 = pass_first) then 2 else 1) s1 in
     Some (s2, (if bool_decide (o = open) then [said_open (port_of p)] else []) ++ out')).
Proof.
  intros Hb Hm Hk Hp. destruct Hm as [Hsame Hpool Hopen Hhalf Hinv]. unfold advanceHalves. rewrite (sm_pass _ _ Hsame).
  edestruct (mid_gave s s1 room p o out) as [Hg Hi]; [by split|].
  eexists _, _, (port_of p :: a). split; [done|]. split; [done|]. split; [done|].
  eapply (books_settle s); [done|apply Hg|apply Hg|done|done|apply opened_sub|].
  simpl. rewrite Hhalf. destruct (bool_decide (ps_pass s = _)) eqn:Hf; to_prop; [rewrite Hf; simpl; lia|].
  destruct (ps_pass s); try done. simpl. lia.
Qed.

(** The port waits for the next pass. *)
Lemma keep_ok s s1 room p out a k0 k1 n :
  books s (p :: out) a k0 k1 → mid s [] s1 out → kept s1 = kept s ++ [port_of p] →
  (n + before_halves (ps_pass s) = after_halves (ps_pass s))%nat →
  verdict_ok s room p filtered out a k0 k1 (Some (advanceHalves n s1)).
Proof.
  intros Hb Hm Hk Hn. edestruct (mid_gave s s1 room p filtered out n) as [Hg Hi].
  { by rewrite andb_false_r. }
  eexists _, _, a. split; [done|]. split; [exact Hg|]. split; [done|].
  eapply (books_keep s); [done|apply Hg|apply Hg|done| |].
  - simpl. by rewrite (md_open _ _ _ _ Hm), app_nil_r.
  - simpl. rewrite (md_half _ _ _ _ Hm). lia.
Qed.

Lemma waited_first s p out us :
  scan_inv s (p :: out) → earns_retry p us s = Some true →
  ps_pass s = pass_first ∧ ps_fixed_ms s = None ∧
  waited_ok (deferred_of p).
Proof.
  intros Hi He. pose proof (in_out _ _ Hi) as [[Hw _ Ht Ho] _]%Forall_cons. unfold earns_retry in He.
  destruct (decide (ps_pass s = pass_first)) as [Hp|Hp]; [|destruct Ho as [H1 H2]; [by left|by rewrite H1, H2 in He]].
  destruct (ps_fixed_ms s) as [ms|] eqn:Hf; [destruct Ho as [H1 H2]; [by right|by rewrite H1, H2 in He]|].
  split; [done|]. split; [done|]. unfold waited_ok. simpl. intros Hb. rewrite Hb in He.
  destruct (pp_deferrable p) eqn:Hd; [|done]. specialize (Ht eq_refl). lia.
Qed.

Lemma earns_retry_run s p us : learned_ok (ps_estimator s) → ∃ again, earns_retry p us s = Some again.
Proof.
  intros Hl. unfold earns_retry. destruct (learnedWait_run s Hl) as (w & -> & _).
  destruct (pp_deferrable p), (pp_blind p); by eexists.
Qed.

(** The first pass: an answer settles the port, silence may defer it. *)
Lemma count_first room p o us s out a k0 k1 :
  ps_pass s = pass_first → scan_inv s (p :: out) → books s (p :: out) a k0 k1 →
  verdict_ok s room p o out a k0 k1 (count_verdict room p o us s).
Proof.
  intros Hp Hi Hb. assert (scan_inv s out) as Hi1.
  { apply (inv_drop s p out Hi). pose proof (in_queue _ _ Hi) as Hq. unfold queue_ok in *. by rewrite Hp in *. }
  assert (∀ opened s1, s1 = set_open (ps_open_ports s ++ opened) s → mid s opened s1 out) as Hmid.
  { intros opened s1 ->. split; try done. by apply inv_set_open. }
  assert (mid s [] s out) as Hsame by (split; try done; by rewrite app_nil_r).
  unfold count_verdict. rewrite Hp. destruct o.
  - apply (settle_ok s (set_open (if room then ps_open_ports s ++ [port_of p] else ps_open_ports s) s)); [done| |done|by rewrite Hp].
    apply Hmid. rewrite bool_decide_true by done. destruct room; [done|]. by rewrite app_nil_r.
  - pose proof (settle_ok s s room p refused out a k0 k1 Hb) as Hs. rewrite bool_decide_false, andb_false_r, Hp in Hs by done.
    by apply Hs.
  - destruct (earns_retry_run s p us (in_learned _ _ Hi)) as [again He]. rewrite He. cbn [mbind option_bind].
    destruct again.
    2:{ pose proof (settle_ok s s room p filtered out a k0 k1 Hb) as Hs.
        rewrite bool_decide_false, andb_false_r, Hp in Hs by done. by apply Hs. }
    destruct (waited_first s p out us Hi He) as (_ & Hf & Hw). unfold defer.
    pose proof (in_room _ _ Hi) as Hroom. rewrite Hf in Hroom.
    pose proof (in_waited _ _ Hi) as Hall. pose proof (in_queue _ _ Hi) as Hq. unfold queue_ok in Hq. rewrite Hp in Hq.
    assert (length (ps_retries s) < ps_capacity s)%nat as Hlt.
    { rewrite Hroom, (bo_ports _ _ _ _ _ Hb). unfold kept. rewrite Hp. cbn [map]. rewrite !length_app. cbn [length].
      rewrite !length_map. lia. }
    rewrite (proj2 (Nat.ltb_lt _ _) Hlt). cbn [mbind option_bind]. apply keep_ok; [done| | |by rewrite Hp].
    + split; try done; [by unfold to_try; simpl; rewrite Hp|by rewrite app_nil_r|].
      apply (same_inv s _ out); try done; [apply Hi| |].
      * simpl. rewrite (proj1 Hq) in *. by apply Forall_app_2; [|constructor].
      * unfold queue_ok. simpl. by rewrite Hp.
    + unfold kept. simpl. rewrite Hp. by rewrite map_app.
Qed.

(** The second: silence writes the port into a slot already read. *)
Lemma count_retry room p o us s out a k0 k1 :
  ps_pass s = pass_retry → scan_inv s (p :: out) → books s (p :: out) a k0 k1 →
  verdict_ok s room p o out a k0 k1 (s ← settle_retry p o s; count_verdict room p o us s).
Proof.
  intros Hp Hi Hb. pose proof (in_queue _ _ Hi) as Hq. unfold queue_ok in Hq. rewrite Hp in Hq. simpl in Hq.
  destruct Hq as (Hsum & Hlen & Hthird). pose proof Hi as [_ Hle _ Hpr Hwa _ _].
  apply Forall_cons in Hpr as [[_ _ _ Honce] _]. destruct Honce as [Hd Hbl]; [left; by rewrite Hp|].
  unfold settle_retry. rewrite Hp, bool_decide_true by done. destruct (decide (o = filtered)) as [->|Ho].
  - rewrite bool_decide_true by done. rewrite (proj2 (Nat.ltb_lt _ _)) by lia. cbn [mbind option_bind].
    set (slot := Build_Deferred _ _ _). set (s1 := set_twice _ _ _).
    assert (take (S (ps_silent_twice s)) (<[ps_silent_twice s := slot]> (ps_retries s)) =
      take (ps_silent_twice s) (ps_retries s) ++ [slot]) as Htake.
    { rewrite (take_S_r _ _ slot) by (apply list_lookup_insert_eq; lia). by rewrite take_insert_ge. }
    assert (mid s [] s1 out) as Hm.
    { split; try done; [|by rewrite app_nil_r|].
      - unfold to_try. simpl. rewrite Hp. by rewrite drop_insert_lt by lia.
      - apply (same_inv s s1 (p :: out)); try done; [by apply submseteq_cons| | |].
        + simpl. by rewrite drop_insert_lt by lia.
        + unfold queue_ok. simpl. rewrite Hp, length_insert. lia.
        + simpl. by intros _ ->. }
    unfold count_verdict, earns_retry. replace (ps_pass s1) with pass_retry by done. rewrite Hd, Hbl. cbn [mbind option_bind].
    rewrite bool_decide_false by done. apply (keep_ok s s1 room p out a k0 k1 1 Hb Hm).
    + unfold kept. simpl. rewrite Hp, Htake. by rewrite map_app.
    + by rewrite Hp.
  - rewrite bool_decide_false by done. cbn [mbind option_bind]. set (s1 := set_twice _ _ _).
    assert (scan_inv s1 out) as Hi1.
    { apply (same_inv s s1 (p :: out)); try done; [by apply submseteq_cons|].
      unfold queue_ok. simpl. rewrite Hp. lia. }
    assert (∀ opened, mid s opened (set_open (ps_open_ports s ++ opened) s1) out) as Hmid.
    { intros opened. split; try done. by apply inv_set_open. }
    assert (mid s [] s1 out) as Hsame by (split; try done; by rewrite app_nil_r).
    assert (ps_pass s1 = pass_retry) as Hp1 by done.
    unfold count_verdict. rewrite Hp1. destruct o; [| |done].
    + pose proof (settle_ok s (set_open (if room then ps_open_ports s ++ [port_of p] else ps_open_ports s) s1) room p open
        out a k0 k1 Hb) as Hs. rewrite bool_decide_true in Hs by done. apply Hs; [|done|by rewrite Hp].
      destruct room; [apply Hmid|]. rewrite <- (app_nil_r (ps_open_ports s)). apply Hmid.
    + pose proof (settle_ok s s1 room p refused out a k0 k1 Hb) as Hs.
      rewrite bool_decide_false, andb_false_r, Hp, Hp1 in Hs by done. by apply Hs.
Qed.

(** The third: progress was full already. *)
Lemma count_third room p o us s out a k0 k1 :
  ps_pass s = pass_third → scan_inv s (p :: out) → books s (p :: out) a k0 k1 →
  verdict_ok s room p o out a k0 k1 (count_verdict room p o us s).
Proof.
  intros Hp Hi Hb. assert (scan_inv s out) as Hi1.
  { apply (inv_drop s p out Hi). pose proof (in_queue _ _ Hi) as Hq. unfold queue_ok in *. by rewrite Hp in *. }
  unfold count_verdict. rewrite Hp. cbn [settle_retry].
  exists (if bool_decide (o = open) then set_open (if room then ps_open_ports s ++ [port_of p] else ps_open_ports s) s else s),
    (if bool_decide (o = open) then [said_open (port_of p)] else []), (port_of p :: a).
  split; [by destruct (bool_decide _)|]. destruct (bool_decide (o = open)) eqn:Ho.
  - split; [|split; [by apply inv_set_open|]].
    + split; try done; [|by rewrite Ho, Nat.sub_diag]. rewrite Ho. destruct room; [done|]. by rewrite app_nil_r.
    + eapply (books_settle s _ p out a k0 k1 (if room then [port_of p] else [])); try done.
      * by destruct room; [|rewrite app_nil_r].
      * destruct room; [done|apply submseteq_nil_l].
      * simpl. by rewrite Hp.
  - split; [|split; [done|]].
    + split; try done; [by rewrite Ho, andb_false_r, app_nil_r|by rewrite Ho, Nat.sub_diag].
    + eapply (books_settle s _ p out a k0 k1 []); try done; [by rewrite app_nil_r|apply submseteq_nil_l|by rewrite Hp].
Qed.

(** Every verdict of a port being tried is taken in, whatever the pass. *)
Lemma done_run room p o us s out a k0 k1 :
  scan_inv s (p :: out) → books s (p :: out) a k0 k1 → 0 <= us <= MAX_RTT →
  verdict_ok s room p o out a k0 k1 (done room p o us s).
Proof.
  intros Hi Hb Hus. unfold done. destruct (learn_run o us s _ _ _ _ Hi Hb Hus) as (e & f & Hl & Hi1 & Hb1).
  rewrite Hl. cbn [mbind option_bind]. set (s1 := set_learned e f s) in *.
  assert (verdict_ok s1 room p o out a k0 k1 (s ← settle_retry p o s1; count_verdict room p o us s)) as Hv.
  { destruct (ps_pass s1) eqn:Hp; [| |]; [|by apply count_retry|].
    - unfold settle_retry. rewrite Hp, bool_decide_false by done. by apply count_first.
    - unfold settle_retry. rewrite Hp, bool_decide_false by done. by apply count_third. }
  destruct Hv as (s' & l & a' & Hr & Hg & Hv). exists s', l, a'. split; [exact Hr|]. split; [|done].
  destruct Hg as [[] Hpo Ho Hs Hh]. by split.
Qed.

(** The first pass only adds to the retries; an unanswered deferrable try is
    always added. *)
Lemma done_first room p o us s s' l :
  ps_pass s = pass_first → done room p o us s = Some (s', l) →
  ps_pass s' = pass_first ∧
  ps_retries s' = ps_retries s ++ (if bool_decide (o = filtered ∧ length (ps_retries s') ≠ length (ps_retries s))
                                   then [deferred_of p] else []) ∧
  (o = filtered → pp_deferrable p = true → length (ps_retries s') ≠ length (ps_retries s)).
Proof.
  intros Hp Hd. unfold done in Hd. destruct (learn o us s) as [s1|] eqn:Hl; [|done]. cbn [mbind option_bind] in Hd.
  assert (ps_pass s1 = pass_first ∧ ps_retries s1 = ps_retries s) as [Hp1 Hr1].
  { unfold learn in Hl. case_test; [by simplify_eq|]. destruct (Rtt.observe _ _); by simplify_eq/=. }
  rewrite <- Hr1. clear Hl Hp Hr1 s. unfold settle_retry in Hd. rewrite Hp1, bool_decide_false in Hd by done.
  cbn [mbind option_bind] in Hd. unfold count_verdict, recordOpen, advanceHalves in Hd. rewrite Hp1 in Hd.
  assert (∀ s2, ps_pass s2 = pass_first → ps_retries s2 = ps_retries s1 → s2 = s' → o ≠ filtered ∨ pp_deferrable p = false →
    ps_pass s' = pass_first ∧ ps_retries s' = ps_retries s1 ++
      (if bool_decide (o = filtered ∧ length (ps_retries s') ≠ length (ps_retries s1)) then [deferred_of p] else []) ∧
    (o = filtered → pp_deferrable p = true → length (ps_retries s') ≠ length (ps_retries s1))) as Hsame.
  { intros s2 Hp2 Hr2 <- Ho. rewrite Hr2, bool_decide_false, app_nil_r by (intros [_ Hne]; by apply Hne).
    split; [done|]. split; [done|]. intros Hf Hdf. destruct Ho; congruence. }
  destruct o.
  - simplify_eq. eapply Hsame; [| |done|by left]; done.
  - simplify_eq. eapply Hsame; [| |done|by left]; done.
  - destruct (earns_retry p us s1) as [[]|] eqn:He; cbn [mbind option_bind] in Hd; [| |done].
    + unfold defer in Hd. destruct (_ <? _)%nat; [|done]. simplify_eq/=. rewrite length_app. simpl.
      rewrite bool_decide_true by (split; [done|lia]). split; [done|]. split; [done|]. lia.
    + simplify_eq. eapply Hsame; [| |done|right]; [done..|]. unfold earns_retry in He. by destruct (pp_deferrable p).
Qed.

(** In the second, what is still to be read is what the pass reads on. *)
Lemma done_unread room p o us s s' l out :
  ps_pass s = pass_retry → scan_inv s (p :: out) → done room p o us s = Some (s', l) →
  drop (ps_next_retry s') (ps_retries s') = drop (ps_next_retry s) (ps_retries s).
Proof.
  intros Hp Hi Hd. pose proof (in_queue _ _ Hi) as Hq. unfold queue_ok in Hq. rewrite Hp in Hq. simpl in Hq.
  pose proof (in_out _ _ Hi) as [[_ _ _ Ho] _]%Forall_cons. destruct Ho as [Hdf Hbl]; [left; by rewrite Hp|]. clear Hi.
  unfold done in Hd. destruct (learn o us s) as [s1|] eqn:Hl; [|done]. cbn [mbind option_bind] in Hd.
  assert (ps_pass s1 = pass_retry ∧ ps_retries s1 = ps_retries s ∧ ps_next_retry s1 = ps_next_retry s ∧
    ps_silent_twice s1 = ps_silent_twice s) as (Hp1 & Hr1 & Hn1 & Hs1).
  { unfold learn in Hl. case_test; [by simplify_eq|]. destruct (Rtt.observe _ _); by simplify_eq/=. }
  destruct (settle_retry p o s1) as [s2|] eqn:Hs; [|done]. cbn [mbind option_bind] in Hd.
  assert (ps_pass s2 = pass_retry ∧ drop (ps_next_retry s2) (ps_retries s2) = drop (ps_next_retry s) (ps_retries s)) as [Hp2 Hr2].
  { unfold settle_retry in Hs. rewrite Hp1, bool_decide_true in Hs by done. destruct (bool_decide (o = filtered)).
    - destruct (_ <? _)%nat; [|done]. simplify_eq/=. rewrite Hn1, Hr1, Hs1. split; [done|]. apply drop_insert_lt. lia.
    - simplify_eq/=. by rewrite Hn1, Hr1. }
  rewrite <- Hr2. unfold count_verdict, recordOpen, advanceHalves, earns_retry in Hd. rewrite Hp2, Hdf, Hbl in Hd.
  destruct o; by simplify_eq/=.
Qed.

(** Taking a port leaves the retries alone, and a second try gets what the
    first left of the timeout. *)
Lemma next_first stop s r s' : ps_pass s = pass_first → next stop s = Some (r, s') →
  ps_pass s' = pass_first ∧ ps_retries s' = ps_retries s.
Proof.
  intros Hp Hn. unfold next in Hn. destruct stop; [by simplify_eq|]. rewrite Hp in Hn.
  unfold nextFirstPort in Hn. destruct (skip_ranked _ _ _ _) as [j [port|]]; cbn [mbind option_bind] in Hn.
  - destruct (firstTry _ _); by simplify_eq/=.
  - destruct (skip_unranked _ _ _) as [[q port]|]; [|done]. cbn [mbind option_bind] in Hn.
    destruct port; [destruct (firstTry _ _)|]; by simplify_eq/=.
Qed.

Lemma next_unread stop s r s' out :
  ps_pass s = pass_retry → scan_inv s out → next stop s = Some (r, s') →
  (r = None ∧ drop (ps_next_retry s') (ps_retries s') = drop (ps_next_retry s) (ps_retries s)) ∨
  ∃ d p, r = Some p ∧ drop (ps_next_retry s) (ps_retries s) = d :: drop (ps_next_retry s') (ps_retries s') ∧
    port_of p = d_port d ∧ (d_blind d = false → d_waited_ms d + t_timeout_ms (pp_target p) <= PORT_TIMEOUT_MS).
Proof.
  intros Hp Hi Hn. unfold next in Hn. destruct stop; [left; by simplify_eq|]. rewrite Hp in Hn.
  destruct (_ <=? _)%nat; [left; by simplify_eq|]. right. destruct (ps_retries s !! ps_next_retry s) as [d|] eqn:Hd; [|done].
  cbn [mbind option_bind] in Hn. destruct (learned_timeout _ (in_learned _ _ Hi)) as (t & Ht & _).
  cbn [ps_estimator set_next_retry] in Hn. destruct (if d_blind d then _ else _) as [left_ms|] eqn:Hl; [|done].
  cbn [mbind option_bind] in Hn. rewrite Ht in Hn. cbn [mbind option_bind] in Hn. simplify_eq/=.
  exists d. eexists. split; [done|]. split; [by apply drop_S|]. split; [done|]. intros Hb. rewrite Hb in Hl.
  apply fits_inv in Hl as [-> _]. simpl. lia.
Qed.
End Invariant.
