(* ===== verification/ScanPorts.v ===== *)
(** * scanner.zig: a whole port scan

    The passes of scanPorts, each a run of connects.zig (Run.v) with the scan
    (PortScan.v) as its source: what the run asks and tells the source, in
    whatever order its loops do, is what the scan answers and takes in. *)
From stdpp Require Import sorting relations.
From S2P Require Import Prelude Words Targets Rtt Ports PortScan Sys Script NsSocket TcpProbe Window Held Probe Connects Shared Run.
Open Scope Z_scope.

(** One call a run makes of its source: [stop] is what the stop flag reads,
    [room] whether the list of open ports can grow. *)
Inductive query :=
| q_next (stop : bool) (r : option PortProbe)
| q_done (p : PortProbe) (outcome : Outcome) (elapsed_us : Z) (room : bool)
| q_cap (r : option Z).

(** The job a probe is to a run: the flags are the rest of the struct. *)
Definition job_of (p : PortProbe) : Job :=
  {| j_id := (if pp_deferrable p then 1 else 0) + (if pp_blind p then 2 else 0); j_target := pp_target p |}.

#[export] Instance job_of_inj : Inj (=) (=) job_of.
Proof. intros [t1 [] []] [t2 [] []] Heq; simplify_eq/=; done. Qed.

(** A call as it shows in the run's log. *)
Definition seen (q : query) : event :=
  match q with
  | q_next _ r => Ev SourceNext (job_of <$> r)
  | q_done p outcome elapsed_us _ => Ev (SourceDone (job_of p) outcome elapsed_us) ()
  | q_cap r => Ev SourceWaitCap r
  end.

Definition handed (q : query) : list PortProbe := match q with q_next _ r => option_list r | _ => [] end.
Definition reported (q : query) : list PortProbe := match q with q_done p _ _ _ => [p] | _ => [] end.

(** The open ports a verdict records. *)
Definition recorded (q : query) : list Z := match q with q_done p open _ true => [port_of p] | _ => [] end.

Definition advances (l : list said) : nat := length (filter (λ x, x = said_advance) l).

(** Round trips under 2^60 us *)
Definition timely_query (q : query) : Prop := match q with q_done _ _ us _ => 0 <= us <= MAX_RTT | _ => True end.

(** The stop flag read as not set. *)
Definition unstopped (q : query) : Prop := match q with q_next stop _ => stop = false | _ => True end.

(** ** The scan as a source *)

Section Source.
Context `{PortRanks}.

(** One call, if its result is the one given. *)
Definition answer (q : query) (s : PortScan) : option (PortScan * list said) :=
  match q with
  | q_next stop r =>
    '(r', s') ← next stop s;
    if bool_decide (r' = r) then Some (s', []) else None
  | q_done p outcome elapsed_us room => done room p outcome elapsed_us s
  | q_cap r =>
    r' ← waitCap s;
    if bool_decide (r' = r) then Some (s, []) else None
  end.

Fixpoint answers (qs : list query) (s : PortScan) : option (PortScan * list said) :=
  match qs with
  | [] => Some (s, [])
  | q :: qs =>
    '(s, l) ← answer q s;
    '(s, l') ← answers qs s;
    Some (s, l ++ l')
  end.

Lemma answers_cons q qs s s' l :
  answers (q :: qs) s = Some (s', l) →
  ∃ s1 l1 l2, answer q s = Some (s1, l1) ∧ answers qs s1 = Some (s', l2) ∧ l = l1 ++ l2.
Proof.
  intros Ha. cbn [answers] in Ha. destruct (answer q s) as [[s1 l1]|]; [|done]. cbn [mbind option_bind] in Ha.
  destruct (answers qs s1) as [[s2 l2]|] eqn:Hq; [|done]. cbn [mbind option_bind] in Ha. simplify_eq.
  by exists s1, l1, l2.
Qed.

Lemma advances_app l l' : advances (l ++ l') = (advances l + advances l')%nat.
Proof. unfold advances. by rewrite filter_app, length_app. Qed.

Lemma advances_said (o : Outcome) port n :
  advances ((if bool_decide (o = open) then [said_open port] else []) ++ replicate n said_advance) = n.
Proof.
  rewrite advances_app. assert (advances (replicate n said_advance) = n) as ->.
  { induction n as [|n IH]; [done|]. unfold advances in *. simpl. by rewrite IH. }
  by destruct (bool_decide _).
Qed.

(** ** A pass *)

(** What a part of a pass does. *)
Record pass_ok (s : PortScan) (out : list PortProbe) (qs : list query) (s' : PortScan) (l : list said)
    (k0 k1 : list Z) (out' : list PortProbe) : Prop := {
  pa_out : out ++ flat_map handed qs ≡ₚ flat_map reported qs ++ out';
  pa_inv : scan_inv s' out';
  pa_books : ∃ a', books s' out' a' k0 k1;
  pa_pass : ps_pass s' = ps_pass s;
  pa_range : ps_start s' = ps_start s ∧ ps_end s' = ps_end s;
  pa_pool : to_try s = map port_of (flat_map handed qs) ++ to_try s';
  pa_open : ps_open_ports s' = ps_open_ports s ++ flat_map recorded qs;
  pa_half : (ps_half_units s ≤ ps_half_units s')%nat ∧ advances l = (ps_half_units s' / 2 - ps_half_units s / 2)%nat
}.

Lemma answer_run q s s' l out a k0 k1 b :
  scan_inv s out → books s out a k0 k1 → timely_query q → out ++ handed q ≡ₚ reported q ++ b →
  answer q s = Some (s', l) → pass_ok s out [q] s' l k0 k1 b ∧ (q = q_next false None → to_try s' = []).
Proof.
  intros Hi Hb Ht Hout Ha. destruct q as [stop r|p o us room|r]; simpl in Hout, Ht, Ha.
  - destruct (next_run stop s out Hi) as (r' & s1 & Hn & Htook & Hi1 & Hdry). rewrite Hn in Ha. cbn [mbind option_bind] in Ha.
    case_test; simplify_eq. assert (option_list r ++ out ≡ₚ b) as Hb' by (rewrite <- Hout; solve_Permutation).
    split; [|intros [= -> ->]; by apply Hdry]. destruct Htook eqn:Hx. split; simpl; rewrite ?app_nil_r; try done.
    + by eapply inv_perm.
    + exists a. eapply books_perm; [exact Hb'|]. by eapply took_books.
    + rewrite tk_half, Nat.sub_diag. by split.
  - rewrite app_nil_r in Hout. eapply inv_perm in Hi; [|exact Hout]. eapply books_perm in Hb; [|exact Hout].
    destruct (done_run room p o us s b a k0 k1 Hi Hb Ht) as (s1 & l1 & a' & Hd & Hg & Hi1 & Hb1).
    rewrite Hd in Ha. simplify_eq. split; [|done]. destruct Hg as [[] Hpo Hop Hs Hh].
    split; simpl; rewrite ?app_nil_r; try done.
    + by exists a'.
    + rewrite Hop. by destruct room, o.
    + rewrite Hs, advances_said. by split.
  - destruct (learnedWait_run s (in_learned _ _ Hi)) as (w & Hw & _). unfold waitCap in Ha. rewrite Hw in Ha.
    cbn [mbind option_bind] in Ha. case_test; simplify_eq. rewrite app_nil_r in Hout. split; [|done].
    split; simpl; rewrite ?app_nil_r; try done; [by eapply inv_perm|exists a; by eapply books_perm|].
    by rewrite Nat.sub_diag.
Qed.

Lemma pass_ok_app s out qs1 s1 l1 out1 qs2 s2 l2 out2 k0 k1 :
  pass_ok s out qs1 s1 l1 k0 k1 out1 → pass_ok s1 out1 qs2 s2 l2 k0 k1 out2 →
  pass_ok s out (qs1 ++ qs2) s2 (l1 ++ l2) k0 k1 out2.
Proof.
  intros [] []. split; try done; try congruence.
  - by eapply ledger_app.
  - naive_solver congruence.
  - rewrite pa_pool0, pa_pool1, flat_map_app, map_app. by rewrite app_assoc.
  - by rewrite pa_open1, pa_open0, flat_map_app, app_assoc.
  - rewrite advances_app. destruct pa_half0 as [H1 ->], pa_half1 as [H2 ->]. split; [lia|].
    pose proof (Nat.Div0.div_le_mono _ _ 2 H1). pose proof (Nat.Div0.div_le_mono _ _ 2 H2). lia.
Qed.

Lemma answers_run qs : ∀ s out a k0 k1 s' l,
  scan_inv s out → books s out a k0 k1 → covers handed reported out qs → Forall timely_query qs →
  answers qs s = Some (s', l) →
  ∃ out', pass_ok s out qs s' l k0 k1 out' ∧ (q_next false None ∈ qs → to_try s' = []).
Proof.
  induction qs as [|q qs IH]; intros s out a k0 k1 s' l Hi Hb Hc Ht Ha.
  { simplify_eq/=. exists out. split; [|by intros ?%not_elem_of_nil].
    split; simpl; rewrite ?app_nil_r, ?Nat.sub_diag; try done. by exists a. }
  apply covers_cons in Hc as (b & Hout & Hc). apply Forall_cons in Ht as [Hq Ht].
  apply answers_cons in Ha as (s1 & l1 & l2 & H1 & H2 & ->).
  destruct (answer_run q s s1 l1 out a k0 k1 b Hi Hb Hq Hout H1) as [Hp1 Hdry1].
  destruct (pa_books _ _ _ _ _ _ _ _ Hp1) as [a1 Hb1].
  destruct (IH s1 b a1 k0 k1 s' l2 (pa_inv _ _ _ _ _ _ _ _ Hp1) Hb1 Hc Ht H2) as (out' & Hp2 & Hdry2).
  exists out'. split; [by eapply (pass_ok_app _ _ [q] s1 l1 b)|].
  intros [<-|Hin]%elem_of_cons; [|auto]. specialize (Hdry1 eq_refl). rewrite (pa_pool _ _ _ _ _ _ _ _ Hp2) in Hdry1.
  by apply app_eq_nil in Hdry1 as [_ ->].
Qed.

(** ** What the second pass tries *)

Lemma first_pass_retries qs : ∀ s s' l,
  ps_pass s = pass_first → answers qs s = Some (s', l) →
  ∃ new, ps_retries s' = ps_retries s ++ new ∧
    Forall (λ d, ∃ p us room, q_done p filtered us room ∈ qs ∧ d = deferred_of p) new ∧
    ∀ p us room, q_done p filtered us room ∈ qs → pp_deferrable p = true → deferred_of p ∈ new.
Proof.
  induction qs as [|q qs IH]; intros s s' l Hp Ha.
  { simplify_eq/=. exists []. rewrite app_nil_r. split; [done|]. split; [done|]. by intros p us room ?%not_elem_of_nil. }
  apply answers_cons in Ha as (s1 & l1 & l2 & H1 & H2 & _).
  assert (ps_pass s1 = pass_first ∧ ∃ one, ps_retries s1 = ps_retries s ++ one ∧
    Forall (λ d, ∃ p us room, q = q_done p filtered us room ∧ d = deferred_of p) one ∧
    ∀ p us room, q = q_done p filtered us room → pp_deferrable p = true → deferred_of p ∈ one)
    as (Hp1 & one & Hr1 & Hone & Hin).
  { destruct q as [stop r|p o us room|r]; simpl in H1.
    - destruct (next stop s) as [[r' s2]|] eqn:Hn; [|done]. cbn [mbind option_bind] in H1. case_match; simplify_eq.
      destruct (next_first _ _ _ _ Hp Hn) as [Hp1 Hr1]. split; [done|]. exists []. by rewrite app_nil_r.
    - destruct (done_first room p o us s s1 l1 Hp H1) as (Hp1 & Hr1 & Hdef). split; [done|].
      eexists. split; [exact Hr1|]. destruct (bool_decide _) eqn:Hb; to_prop.
      + split; [constructor; [|done]; destruct Hb as [-> _]; by eauto|]. intros p' us' room' [= -> -> -> ->] _. in_list.
      + split; [done|]. intros p' us' room' [= -> -> -> ->] Hd. destruct Hb. split; [done|]. by apply Hdef.
    - destruct (waitCap s); [|done]. cbn [mbind option_bind] in H1. case_match; simplify_eq. split; [done|].
      exists []. by rewrite app_nil_r. }
  destruct (IH s1 s' l2 Hp1 H2) as (new & Hr2 & Hnew & Hnin). exists (one ++ new).
  split; [by rewrite Hr2, Hr1, app_assoc|]. split.
  - apply Forall_app. split; (eapply Forall_impl; [eassumption|]); intros d (p & us & room & Hq & ->);
      exists p, us, room; (split; [|done]); [subst q; in_list|by apply list_elem_of_further].
  - intros p us room [Hq|Hq]%elem_of_cons Hd; apply elem_of_app; [left; by eapply Hin|right; by eapply Hnin].
Qed.

Lemma second_pass_tries qs : ∀ s out a k0 k1 s' l,
  ps_pass s = pass_retry → scan_inv s out → books s out a k0 k1 → covers handed reported out qs →
  Forall timely_query qs → answers qs s = Some (s', l) →
  Forall (λ p, ∃ d, d ∈ drop (ps_next_retry s) (ps_retries s) ∧ port_of p = d_port d ∧
    (d_blind d = false → d_waited_ms d + t_timeout_ms (pp_target p) <= PORT_TIMEOUT_MS)) (flat_map handed qs).
Proof.
  induction qs as [|q qs IH]; intros s out a k0 k1 s' l Hp Hi Hb Hc Ht Ha; [constructor|].
  apply covers_cons in Hc as (b & Hout & Hc). apply Forall_cons in Ht as [Hq Ht].
  apply answers_cons in Ha as (s1 & l1 & l2 & H1 & H2 & ->).
  destruct (answer_run q s s1 l1 out a k0 k1 b Hi Hb Hq Hout H1) as [Hp1 _].
  destruct (pa_books _ _ _ _ _ _ _ _ Hp1) as [a1 Hb1]. pose proof (pa_pass _ _ _ _ _ _ _ _ Hp1) as Hpass. rewrite Hp in Hpass.
  specialize (IH s1 b a1 k0 k1 s' l2 Hpass (pa_inv _ _ _ _ _ _ _ _ Hp1) Hb1 Hc Ht H2).
  assert (∃ one, drop (ps_next_retry s) (ps_retries s) = one ++ drop (ps_next_retry s1) (ps_retries s1) ∧
    Forall2 (λ p d, port_of p = d_port d ∧
      (d_blind d = false → d_waited_ms d + t_timeout_ms (pp_target p) <= PORT_TIMEOUT_MS)) (handed q) one)
    as (one & Hdrop & Hone).
  { destruct q as [stop r|p o us room|r]; simpl in H1.
    - destruct (next stop s) as [[r' s2]|] eqn:Hn; [|done]. cbn [mbind option_bind] in H1. case_match; simplify_eq. to_prop. subst r'.
      destruct (next_unread _ _ _ _ _ Hp Hi Hn) as [[-> Hd]|(d & p & -> & Hd & Hport & Hw)]; [by exists []|].
      exists [d]. split; [done|]. by repeat constructor.
    - exists []. split; [|constructor]. symmetry. eapply done_unread; [done| |exact H1].
      eapply inv_perm; [|exact Hi]. simpl in Hout. by rewrite app_nil_r in Hout.
    - destruct (waitCap s); [|done]. cbn [mbind option_bind] in H1. case_match; simplify_eq. by exists []. }
  simpl. rewrite Hdrop. apply Forall_app. split.
  - clear -Hone. induction Hone as [|p d ps ds [Hport Hw] _ IHo]; constructor.
    + exists d. split; [apply elem_of_app; left; in_list|done].
    + eapply Forall_impl; [exact IHo|]. intros p' (d' & Hin & Hd'). exists d'. split; [|done]. by apply list_elem_of_further.
  - eapply Forall_impl; [exact IH|]. intros p (d & Hin & Hd). exists d. split; [|done]. apply elem_of_app. by right.
Qed.

(** ** From pass to pass *)

Lemma to_retry s a k0 k1 :
  ps_pass s = pass_first → scan_inv s [] → books s [] a k0 k1 →
  scan_inv (set_pass pass_retry s) [] ∧ books (set_pass pass_retry s) [] a (k0 ++ to_try s) k1.
Proof.
  intros Hp [Hcu Hle Hfi _ Hw Hq Hr] [B1 B2 B3]. unfold queue_ok in Hq. rewrite Hp in *. destruct Hq as (H1 & H2 & H3 & H4).
  split; split; try done.
  - by destruct Hcu.
  - unfold queue_ok. simpl. lia.
  - unfold to_try at 1, kept at 1. unfold kept in B1. rewrite Hp in B1. simpl in *. rewrite B1, H1, H2. simpl. solve_Permutation.
  - unfold to_try, kept in *. rewrite Hp in B3. simpl in *. rewrite B3, H1, H2, drop_0, !length_map. simpl. lia.
Qed.

Lemma to_third s a k0 k1 :
  ps_pass s = pass_retry → scan_inv s [] → books s [] a k0 k1 →
  scan_inv (set_pass pass_third s) [] ∧ books (set_pass pass_third s) [] a k0 (k1 ++ to_try s).
Proof.
  intros Hp [Hcu Hle Hfi _ Hw Hq Hr] [B1 B2 B3]. unfold queue_ok in Hq. rewrite Hp in *. destruct Hq as (H1 & H2 & H3).
  split; split; try done.
  - by destruct Hcu.
  - unfold queue_ok. simpl in *. lia.
  - unfold to_try at 1, kept at 1. unfold kept in B1. rewrite Hp in B1. simpl in *. rewrite B1, H3. simpl. solve_Permutation.
  - unfold to_try, kept in *. rewrite Hp in B3. simpl in *. rewrite B3, H3, Hp, drop_0, length_app, !length_map. simpl. lia.
Qed.

(** A fresh scan. *)
Lemma scan_of_ok ip lo hi timeout s :
  0 <= lo → hi < 65536 → (∀ ms, timeout = Some ms → 0 <= ms) → lo <= hi → scan_of ip lo hi timeout = Some s →
  scan_inv s [] ∧ books s [] [] [] [] ∧ to_try s = scan_order lo hi ∧ ps_pass s = pass_first ∧
  ps_start s = lo ∧ ps_end s = hi ∧ ps_open_ports s = [] ∧ ps_half_units s = 0%nat.
Proof.
  intros Hlo Hhi Hms Hle Hs. unfold scan_of, init in Hs. simpl in Hs. simplify_eq.
  assert (to_try {| ps_ip := ip; ps_pass := pass_first; ps_next_ranked := 0; ps_next_port := lo; ps_start := lo; ps_end := hi;
    ps_fixed_ms := timeout; ps_estimator := Rtt 100 40 500 None 0; ps_fastest_answer_us := NO_ANSWER; ps_open_ports := [];
    ps_retries := []; ps_capacity := match timeout with None => Z.to_nat (hi - lo + 1) | Some _ => 0 end;
    ps_next_retry := 0; ps_silent_twice := 0; ps_answered_twice := 0; ps_next_third := 0; ps_half_units := 0 |} = scan_order lo hi)
    as Hun by done.
  split; [|split; [|done]].
  - split; simpl; try done.
    + split; simpl; lia.
    + destruct timeout; [done|]. rewrite length_seqZ. f_equal. lia.
  - split; [|done|done]. change (seqZ lo (hi + 1 - lo) ≡ₚ scan_order lo hi ++ []). by rewrite scan_order_perm, app_nil_r.
Qed.
End Source.

(** ** Every way to call the scan *)

Section Reach.
Context `{PortRanks}.

(** The scan with the ports being tried: a run takes a port or reports one of
    those, in any order; between passes none is being tried. *)
Inductive scan_step : PortScan * list PortProbe → PortScan * list PortProbe → Prop :=
| step_next stop r s s' out : next stop s = Some (r, s') → scan_step (s, out) (s', option_list r ++ out)
| step_done room p o us s s' l out out' :
    out ≡ₚ p :: out' → 0 <= us <= MAX_RTT → done room p o us s = Some (s', l) → scan_step (s, out) (s', out')
| step_retry s : ps_pass s = pass_first → scan_step (s, []) (set_pass pass_retry s, [])
| step_third stop s : ps_pass s = pass_retry → needsThirdPass stop s = true →
    scan_step (s, []) (set_pass pass_third s, []).

(** What holds all along. *)
Definition scan_sound (lo hi : Z) (x : PortScan * list PortProbe) : Prop :=
  scan_inv x.1 x.2 ∧ (∃ a k0 k1, books x.1 x.2 a k0 k1) ∧ ps_start x.1 = lo ∧ ps_end x.1 = hi.

Lemma scan_step_sound lo hi x y : scan_step x y → scan_sound lo hi x → scan_sound lo hi y.
Proof.
  intros Hs (Hi & (a & k0 & k1 & Hb) & Hlo & Hhi). destruct Hs as [stop r s s' out Hn|room p o us s s' l out out' Hp Hus Hd|s Hp|stop s Hp _];
    simpl in *.
  - destruct (next_run stop s out Hi) as (r' & s1 & Hn' & Ht & Hi1 & _). simplify_eq. pose proof (tk_range _ _ _ Ht) as [H1 H2].
    split; [done|]. split; [|by rewrite <- H1, <- H2]. exists a, k0, k1. by eapply took_books.
  - eapply inv_perm in Hi; [|exact Hp]. eapply books_perm in Hb; [|exact Hp].
    destruct (done_run room p o us s out' a k0 k1 Hi Hb Hus) as (s1 & l1 & a' & Hd' & [Hsame _ _ _ _] & Hi1 & Hb1). simplify_eq.
    destruct (sm_range _ _ Hsame) as [H1 H2]. split; [done|]. split; [by exists a', k0, k1|]. by rewrite <- H1, <- H2.
  - destruct (to_retry s a k0 k1 Hp Hi Hb) as [Hi1 Hb1]. split; [done|]. split; [by exists a, (k0 ++ to_try s), k1|done].
  - destruct (to_third s a k0 k1 Hp Hi Hb) as [Hi1 Hb1]. split; [done|]. split; [by exists a, k0, (k1 ++ to_try s)|done].
Qed.

(** C8: A scan is never stuck.  However a run interleaves its calls, no method
    overflows or reads outside a list, the retries never outgrow the room
    reserved for them, no wait is longer than the fixed timeout or the one
    asked for, progress never passes the number of ports, and the second pass
    writes a silent port only into a slot it has already read. *)
Theorem scan_never_stuck ip lo hi timeout s0 s out :
  0 <= lo <= hi → hi < 65536 → (∀ ms, timeout = Some ms → 0 <= ms) → scan_of ip lo hi timeout = Some s0 →
  rtc scan_step (s0, []) (s, out) →
  (∀ stop, is_Some (next stop s)) ∧ is_Some (waitCap s) ∧
  (∀ room p o us, p ∈ out → 0 <= us <= MAX_RTT → is_Some (done room p o us s)) ∧
  Forall (λ p, 0 <= t_timeout_ms (pp_target p) ∧
    (t_timeout_ms (pp_target p) <= PORT_TIMEOUT_MS ∨ ps_fixed_ms s = Some (t_timeout_ms (pp_target p)))) out ∧
  (ps_half_units s / 2 ≤ Z.to_nat (hi + 1 - lo))%nat ∧
  (ps_pass s = pass_retry → out ≠ [] → (ps_silent_twice s < ps_next_retry s ≤ length (ps_retries s))%nat).
Proof.
  intros Hlo Hhi Hms Hs0 Hreach.
  destruct (scan_of_ok ip lo hi timeout s0) as (Hi0 & Hb0 & _ & _ & Hst & Hen & _); [lia|done|done|lia|done|].
  assert (scan_sound lo hi (s, out)) as (Hi & (a & k0 & k1 & Hb) & Hst1 & Hen1).
  { refine (rtc_ind_l (λ x, scan_sound lo hi x → scan_sound lo hi (s, out)) (s, out) _ _ (s0, []) Hreach _); [done| |].
    - intros x y Hxy _ IH Hx. by eapply IH, scan_step_sound.
    - split; [done|]. split; [by exists [], [], []|done]. }
  cbn [fst snd] in *. split.
  { intros stop. destruct (next_run stop s out Hi) as (r & s' & -> & _). by eexists. }
  split; [destruct (learnedWait_run s (in_learned _ _ Hi)) as (w & Hw & _); by exists w|]. split.
  { intros room p o us Hin Hus. apply elem_of_Permutation in Hin as [out' Hp].
    destruct (done_run room p o us s out' a k0 k1) as (s1 & l1 & a' & -> & _); [by eapply inv_perm|by eapply books_perm|done|by eexists]. }
  split; [eapply Forall_impl; [apply (in_out _ _ Hi)|]; intros p []; done|]. split.
  - apply Nat.Div0.div_le_upper_bound. pose proof (bo_half _ _ _ _ _ Hb) as Hh. pose proof (bo_ports _ _ _ _ _ Hb) as Hp.
    apply Permutation_length in Hp. rewrite length_seqZ, !length_app, length_map, Hst1, Hen1 in Hp. rewrite Hh, Hp.
    destruct (ps_pass s); simpl; lia.
  - intros Hpass Hout. pose proof (in_queue _ _ Hi) as Hq. unfold queue_ok in Hq. rewrite Hpass in Hq.
    destruct out; [done|]. simpl in Hq. lia.
Qed.
End Reach.

(** ** A pass as a run *)

Lemma given_seen qs : flat_map given (map seen qs) = map job_of (flat_map handed qs).
Proof. induction qs as [|q qs IH]; [done|]. simpl. rewrite IH, map_app. by destruct q as [? []| |]. Qed.

Lemma told_seen qs : flat_map told (map seen qs) = map job_of (flat_map reported qs).
Proof. induction qs as [|q qs IH]; [done|]. simpl. rewrite IH. by destruct q. Qed.

Lemma jobs_back (l k : list PortProbe) rest :
  map job_of l ≡ₚ map job_of k ++ rest → ∃ rest', rest = map job_of rest' ∧ l ≡ₚ k ++ rest'.
Proof.
  intros Hp. symmetry in Hp. apply Permutation_map_inv in Hp as (m & Hm & Hl).
  symmetry in Hm. apply map_eq_app in Hm as (m1 & m2 & -> & H1 & <-). exists m2. split; [done|].
  by apply (inj (fmap job_of)) in H1 as ->.
Qed.

Lemma queries_covers t qs : filter of_source t = map seen qs → covers given told [] t → covers handed reported [] qs.
Proof.
  intros Ht Hc%source_covers p s ->. rewrite Ht, map_app in Hc. destruct (Hc _ _ eq_refl) as [rest Hr].
  rewrite given_seen, told_seen in Hr. simpl in Hr. apply jobs_back in Hr as (rest' & _ & Hr). by exists rest'.
Qed.

Lemma seen_dry q : seen q = Ev SourceNext None → ∃ stop, q = q_next stop None.
Proof.
  intros Heq. assert (match seen q with Ev SourceNext _ => true | _ => false end = true) as Hq by by rewrite Heq.
  destruct q as [stop [p|]| |]; [by apply (f_equal given) in Heq|by exists stop|discriminate Hq..].
Qed.

(** ** Whole scans *)

Section ScanPorts.
Context `{PortRanks} {E : Type} `{Env E} `{!RlimitLaw E}.
Variables (os : platform) (job_size settled_size : Z) (fuel : nat).

(** A pass: a run that has the scan for its source. *)
Definition pass_run (pace : Pace) (s : PortScan) (qs : list query) (res : run_result) (s' : PortScan) (l : list said) : Prop :=
  ∃ source sys, run_of (E := E) os true job_size settled_size fuel pace res source sys ∧
    filter of_source source = map seen qs ∧ answers qs s = Some (s', l).

Lemma pass_run_ok pace s qs res s' l a k0 k1 :
  pass_run pace s qs res s' l → scan_inv s [] → books s [] a k0 k1 → Forall timely_query qs →
  ∃ out, pass_ok s [] qs s' l k0 k1 out ∧ (res = run_ok → out = [] ∧ (Forall unstopped qs → to_try s' = [])).
Proof.
  intros (source & sys & Hrun & Hqs & Ha) Hi Hb Ht.
  destruct (run_keeps_account _ _ _ _ _ _ _ _ _ Hrun) as (_ & (left & [Hbal Hcov] & Hleft) & Hdry).
  destruct (answers_run qs s [] a k0 k1 s' l Hi Hb (queries_covers _ _ Hqs Hcov) Ht Ha) as (out & Hp & Hend).
  exists out. split; [exact Hp|]. intros Hok. specialize (Hleft Hok). subst left. split.
  - rewrite given_source, told_source, Hqs, given_seen, told_seen, app_nil_r in Hbal. simpl in Hbal.
    pose proof (pa_out _ _ _ _ _ _ _ _ Hp) as Hout. simpl in Hout.
    apply Permutation_length in Hbal. apply Permutation_length in Hout. rewrite length_app in Hout. rewrite !length_map in Hbal.
    apply nil_length_inv. lia.
  - intros Hun. apply Hend. specialize (Hdry Hok).
    assert (Ev SourceNext None ∈ filter of_source source) as Hin.
    { rewrite list_elem_of_filter. split; [exact I|exact Hdry]. }
    rewrite Hqs in Hin. apply list_elem_of_fmap in Hin as (q & Heq & Hin).
    destruct (seen_dry q (eq_sym Heq)) as [stop ->]. eapply Forall_forall in Hun; [|exact Hin]. simpl in Hun. by subst.
Qed.

(** What scanPorts returns: the open ports, or one of its errors. *)
Inductive scan_result := scan_ports (ports : list Z) | invalid_port_range | scan_failed (why : run_result).

(** scanPorts, with the calls of each pass and everything said. *)
Inductive scanPorts (ip : ip4) (start_port end_port : Z) (timeout_ms : option Z) :
    scan_result → list (list query) → list said → Prop :=
| scan_invalid : end_port < start_port → scanPorts ip start_port end_port timeout_ms invalid_port_range [] []
| scan_no_room : start_port <= end_port → timeout_ms = None →
    scanPorts ip start_port end_port timeout_ms (scan_failed out_of_memory) [] []
| scan_first s0 qs1 res s1 l1 :
    start_port <= end_port → scan_of ip start_port end_port timeout_ms = Some s0 →
    pass_run adaptive s0 qs1 res s1 l1 → res ≠ run_ok →
    scanPorts ip start_port end_port timeout_ms (scan_failed res) [qs1] l1
| scan_second s0 qs1 s1 l1 qs2 res s2 l2 :
    start_port <= end_port → scan_of ip start_port end_port timeout_ms = Some s0 →
    pass_run adaptive s0 qs1 run_ok s1 l1 →
    pass_run adaptive (set_pass pass_retry s1) qs2 res s2 l2 → res ≠ run_ok →
    scanPorts ip start_port end_port timeout_ms (scan_failed res) [qs1; qs2] (l1 ++ l2)
| scan_twice s0 qs1 s1 l1 qs2 s2 l2 stop :
    start_port <= end_port → scan_of ip start_port end_port timeout_ms = Some s0 →
    pass_run adaptive s0 qs1 run_ok s1 l1 →
    pass_run adaptive (set_pass pass_retry s1) qs2 run_ok s2 l2 →
    needsThirdPass stop s2 = false →
    scanPorts ip start_port end_port timeout_ms (scan_ports (sort_ports (ps_open_ports s2))) [qs1; qs2] (l1 ++ l2)
| scan_third s0 qs1 s1 l1 qs2 s2 l2 stop qs3 res s3 l3 :
    start_port <= end_port → scan_of ip start_port end_port timeout_ms = Some s0 →
    pass_run adaptive s0 qs1 run_ok s1 l1 →
    pass_run adaptive (set_pass pass_retry s1) qs2 run_ok s2 l2 →
    needsThirdPass stop s2 = true →
    pass_run pool (set_pass pass_third s2) qs3 res s3 l3 →
    scanPorts ip start_port end_port timeout_ms
      (if bool_decide (res = run_ok) then scan_ports (sort_ports (ps_open_ports s3)) else scan_failed res)
      [qs1; qs2; qs3] (l1 ++ l2 ++ l3).

(** The first two passes. *)
Lemma two_passes ip lo hi timeout s0 qs1 s1 l1 qs2 res s2 l2 :
  0 <= lo <= hi → hi < 65536 → (∀ ms, timeout = Some ms → 0 <= ms) → scan_of ip lo hi timeout = Some s0 →
  pass_run adaptive s0 qs1 run_ok s1 l1 → pass_run adaptive (set_pass pass_retry s1) qs2 res s2 l2 →
  Forall timely_query qs1 → Forall timely_query qs2 →
  pass_ok s0 [] qs1 s1 l1 [] [] [] ∧ (Forall unstopped qs1 → to_try s1 = []) ∧
  scan_inv (set_pass pass_retry s1) [] ∧
  (∃ a, books (set_pass pass_retry s1) [] a (to_try s1) []) ∧
  ∃ out, pass_ok (set_pass pass_retry s1) [] qs2 s2 l2 (to_try s1) [] out ∧
    (res = run_ok → out = [] ∧ (Forall unstopped qs2 → to_try s2 = [])).
Proof.
  intros Hlo Hhi Hms Hs0 H1 H2 Ht1 Ht2.
  destruct (scan_of_ok ip lo hi timeout s0) as (Hi0 & Hb0 & _ & Hp0 & _); [lia|done|done|lia|done|].
  destruct (pass_run_ok _ _ _ _ _ _ _ _ _ H1 Hi0 Hb0 Ht1) as (out1 & Hp1 & Hend1).
  destruct (Hend1 eq_refl) as [-> Hdry1]. destruct (pa_books _ _ _ _ _ _ _ _ Hp1) as [a1 Hb1].
  pose proof (pa_pass _ _ _ _ _ _ _ _ Hp1) as Hpass1. rewrite Hp0 in Hpass1.
  destruct (to_retry s1 a1 [] [] Hpass1 (pa_inv _ _ _ _ _ _ _ _ Hp1) Hb1) as [Hi1 Hb1'].
  destruct (pass_run_ok _ _ _ _ _ _ _ _ _ H2 Hi1 Hb1' Ht2) as (out2 & Hp2 & Hend2).
  split; [done|]. split; [done|]. split; [done|]. split; [by exists a1|]. by exists out2.
Qed.

Lemma sorted_lt (l : list Z) : StronglySorted Z.le l → NoDup l → StronglySorted Z.lt l.
Proof.
  induction 1 as [|x l _ IH Hx]; intros Hnd; [constructor|]. apply NoDup_cons in Hnd as [Hni Hnd].
  constructor; [by apply IH|]. apply Forall_forall. intros y Hy. eapply Forall_forall in Hx; [|exact Hy]. cbv beta in Hx.
  assert (x ≠ y) by (by intros ->). lia.
Qed.

(** What a scan's books say of its open ports. *)
Lemma open_ports_ok s a k0 k1 :
  books s [] a k0 k1 → StronglySorted Z.lt (sort_ports (ps_open_ports s)) ∧
    ∀ p, p ∈ sort_ports (ps_open_ports s) → ps_start s <= p <= ps_end s.
Proof.
  intros [B1 B2 _]. simpl in B1.
  assert (ps_open_ports s ⊆+ seqZ (ps_start s) (ps_end s + 1 - ps_start s)) as Hsub.
  { rewrite B1. by apply submseteq_inserts_r. }
  split.
  - apply sorted_lt; [apply sort_ports_sorted|]. rewrite sort_ports_perm. apply submseteq_Permutation in Hsub as [rest Hperm].
    pose proof (NoDup_seqZ (ps_start s) (ps_end s + 1 - ps_start s)) as Hnd. rewrite Hperm in Hnd. by apply NoDup_app in Hnd as [? _].
  - intros p. rewrite sort_ports_perm. intros Hp. eapply elem_of_submseteq in Hp; [|exact Hsub].
    apply elem_of_seqZ in Hp. lia.
Qed.

(** Nothing left to try: progress is full. *)
Lemma full_progress s a k0 k1 :
  books s [] a k0 k1 → k0 = [] → k1 = [] → ps_pass s = pass_third ∨ ps_pass s = pass_retry ∧ to_try s = [] →
  ps_half_units s = (2 * Z.to_nat (ps_end s + 1 - ps_start s))%nat.
Proof.
  intros [B1 _ B3] -> -> Hp. apply Permutation_length in B1. rewrite length_seqZ, !length_app in B1. simpl in B1, B3.
  rewrite B1, B3. destruct Hp as [Hp|[Hp Hn]]; rewrite ?Hn, Hp; simpl; lia.
Qed.

Lemma div_halves (n : nat) : (2 * n / 2 = n)%nat.
Proof. rewrite Nat.mul_comm. by apply Nat.div_mul. Qed.

(** Progress adds up. *)
Lemma halves_add (a b c m n : nat) :
  (a ≤ b)%nat ∧ m = (b / 2 - a / 2)%nat → (b ≤ c)%nat ∧ n = (c / 2 - b / 2)%nat →
  (a ≤ c)%nat ∧ (m + n = c / 2 - a / 2)%nat.
Proof.
  intros [H1 ->] [H2 ->]. pose proof (Nat.Div0.div_le_mono _ _ 2 H1). pose proof (Nat.Div0.div_le_mono _ _ 2 H2). lia.
Qed.

(** How a complete scan ends. *)
Lemma scan_ends ip lo hi timeout ports logs l :
  0 <= lo → hi < 65536 → (∀ ms, timeout = Some ms → 0 <= ms) → Forall (Forall timely_query) logs →
  scanPorts ip lo hi timeout (scan_ports ports) logs l →
  ∃ s a k0 k1, ports = sort_ports (ps_open_ports s) ∧ books s [] a k0 k1 ∧ ps_start s = lo ∧ ps_end s = hi ∧
    ps_open_ports s = flat_map recorded (concat logs) ∧ advances l = (ps_half_units s / 2)%nat ∧
    (Forall (Forall unstopped) logs → map port_of (flat_map handed (hd [] logs)) = scan_order lo hi ∧
      k0 = [] ∧ k1 = [] ∧ (ps_pass s = pass_third ∨ ps_pass s = pass_retry ∧ to_try s = [])).
Proof.
  intros Hlo Hhi Hms Ht Hs. inversion Hs as [| | | |s0 qs1 s1 l1 qs2 s2 l2 stop Hle Hs0 H1 H2 Hno|
    s0 qs1 s1 l1 qs2 s2 l2 stop qs3 res s3 l3 Hle Hs0 H1 H2 Hyes H3]; subst; apply Forall_cons in Ht as [Ht1 [Ht2 Ht3]%Forall_cons];
    destruct (two_passes ip lo hi timeout s0 qs1 s1 l1 qs2 run_ok s2 l2 ltac:(lia) Hhi Hms Hs0 H1 H2 Ht1 Ht2)
      as (Hp1 & Hdry1 & Hi1 & _ & out & Hp2 & Hend); destruct (Hend eq_refl) as [-> Hdry2];
    destruct (pa_books _ _ _ _ _ _ _ _ Hp2) as [a2 Hb2];
    destruct (scan_of_ok ip lo hi timeout s0) as (_ & _ & Htry & Hp0 & Hst & Hen & Hop & Hhf); [lia|done|done|lia|done| |lia|done|done|lia|done|].
  - exists s2, a2, (to_try s1), []. split; [done|]. split; [done|].
    destruct Hp1 as [_ _ _ _ [R1 R2] Q1 O1 A1], Hp2 as [_ _ _ P2 [R3 R4] Q2 O2 A2]. simpl in *.
    split; [congruence|]. split; [congruence|]. split; [by rewrite O2, O1, Hop, app_nil_r, flat_map_app|].
    rewrite advances_app. destruct (halves_add _ _ _ _ _ A1 A2) as [_ ->]. rewrite Hhf, Nat.sub_0_r. split; [done|].
    intros Hun. apply Forall_cons in Hun as [Hun1 [Hun2 _]%Forall_cons]. specialize (Hdry1 Hun1). specialize (Hdry2 Hun2).
    split; [by rewrite <- Htry, Q1, Hdry1, app_nil_r|]. split; [done|]. split; [done|]. by right.
  - destruct (bool_decide (res = run_ok)) eqn:Hres; to_prop; [|done]. subst res. simplify_eq. apply Forall_cons in Ht3 as [Ht3 _].
    pose proof (pa_pass _ _ _ _ _ _ _ _ Hp2) as P2. destruct (to_third s2 a2 _ _ P2 (pa_inv _ _ _ _ _ _ _ _ Hp2) Hb2) as [Hi3 Hb3].
    destruct (pass_run_ok _ _ _ _ _ _ _ _ _ H3 Hi3 Hb3 Ht3) as (out3 & Hp3 & Hend3). destruct (Hend3 eq_refl) as [-> _].
    destruct (pa_books _ _ _ _ _ _ _ _ Hp3) as [a3 Hb3']. exists s3, a3, (to_try s1), (to_try s2). split; [done|]. split; [done|].
    destruct Hp1 as [_ _ _ _ [R1 R2] Q1 O1 A1], Hp2 as [_ _ _ _ [R3 R4] Q2 O2 A2], Hp3 as [_ _ _ P3 [R5 R6] _ O3 A3]. simpl in *.
    split; [congruence|]. split; [congruence|]. split; [by rewrite O3, O2, O1, Hop, app_nil_r, !flat_map_app, app_assoc|].
    rewrite !advances_app. destruct (halves_add _ _ _ _ _ A1 (halves_add _ _ _ _ _ A2 A3)) as [_ ->].
    rewrite Hhf, Nat.sub_0_r. split; [done|].
    intros Hun. apply Forall_cons in Hun as [Hun1 [Hun2 _]%Forall_cons]. specialize (Hdry1 Hun1). specialize (Hdry2 Hun2).
    split; [by rewrite <- Htry, Q1, Hdry1, app_nil_r|]. split; [done|]. split; [done|]. by left.
Qed.

(** C7: A complete port scan.  Whatever order a run's loops call the
    scan in, the ports returned are exactly those a connect was reported open
    for (the list having had room), each once, in ascending order and of the
    range asked for.  A scan no stop request cut short tried every port of
    the range once in its first pass, the ranked ones first in order of rank,
    then the others ascending; and its progress went up by exactly one unit
    per port. *)
Theorem scanPorts_exact ip lo hi timeout ports logs l :
  0 <= lo → hi < 65536 → (∀ ms, timeout = Some ms → 0 <= ms) → Forall (Forall timely_query) logs →
  scanPorts ip lo hi timeout (scan_ports ports) logs l →
  StronglySorted Z.lt ports ∧ Forall (λ port, lo <= port <= hi) ports ∧
  (∀ port, port ∈ ports ↔ port ∈ flat_map recorded (concat logs)) ∧
  (Forall (Forall unstopped) logs →
    map port_of (flat_map handed (hd [] logs)) = scan_order lo hi ∧ advances l = Z.to_nat (hi + 1 - lo)).
Proof.
  intros Hlo Hhi Hms Ht Hs.
  destruct (scan_ends _ _ _ _ _ _ _ Hlo Hhi Hms Ht Hs) as (s & a & k0 & k1 & -> & Hb & Hst & Hen & Hop & Hadv & Hun).
  destruct (open_ports_ok s a _ _ Hb) as [Hsort Hin]. rewrite Hst, Hen in Hin.
  split; [done|]. split; [by apply Forall_forall|]. split; [intros port; by rewrite sort_ports_perm, Hop|].
  intros (Ho & Hk0 & Hk1 & Hp)%Hun. split; [done|].
  by rewrite Hadv, (full_progress s a _ _ Hb Hk0 Hk1 Hp), div_halves, Hst, Hen.
Qed.

(** C9: Second tries.  The second pass tries again only ports whose first try
    went unanswered, none of them twice, and the two waits of a port together
    stay within the fixed timeout, unless the first went out blind.  When no
    stop request cut the pass short, every port whose first try was a learned
    wait that went unanswered is tried again: one lost SYN hides no open
    port. *)
Theorem second_tries ip lo hi timeout ports qs1 qs2 logs l :
  0 <= lo → hi < 65536 → (∀ ms, timeout = Some ms → 0 <= ms) → Forall (Forall timely_query) (qs1 :: qs2 :: logs) →
  scanPorts ip lo hi timeout (scan_ports ports) (qs1 :: qs2 :: logs) l →
  NoDup (map port_of (flat_map handed qs2)) ∧
  (∀ p2, p2 ∈ flat_map handed qs2 → ∃ p1 us room, q_done p1 filtered us room ∈ qs1 ∧ port_of p1 = port_of p2 ∧
    (pp_blind p1 = false → t_timeout_ms (pp_target p1) + t_timeout_ms (pp_target p2) <= PORT_TIMEOUT_MS)) ∧
  (Forall unstopped qs2 → ∀ p1 us room, q_done p1 filtered us room ∈ qs1 → pp_deferrable p1 = true →
    port_of p1 ∈ map port_of (flat_map handed qs2)).
Proof.
  intros Hlo Hhi Hms Ht Hs. apply Forall_cons in Ht as [Ht1 [Ht2 _]%Forall_cons].
  assert (∃ s0 s1 l1 s2 l2, lo <= hi ∧ scan_of ip lo hi timeout = Some s0 ∧ pass_run adaptive s0 qs1 run_ok s1 l1 ∧
    pass_run adaptive (set_pass pass_retry s1) qs2 run_ok s2 l2) as (s0 & s1 & l1 & s2 & l2 & Hle & Hs0 & H1 & H2).
  { inversion Hs; subst; by do 5 eexists. }
  clear Hs. destruct (two_passes ip lo hi timeout s0 qs1 s1 l1 qs2 run_ok s2 l2 ltac:(lia) Hhi Hms Hs0 H1 H2 Ht1 Ht2)
    as (Hp1 & _ & Hi1 & (a & Hb1) & out & Hp2 & Hend). destruct (Hend eq_refl) as [-> Hdry].
  destruct (scan_of_ok ip lo hi timeout s0) as (_ & _ & _ & Hp0 & _); [lia|done|done|lia|done|].
  destruct H1 as (source1 & sys1 & _ & _ & Ha1). destruct H2 as (source2 & sys2 & Hrun2 & Hqs2 & Ha2).
  destruct (first_pass_retries _ _ _ _ Hp0 Ha1) as (new & Hnew & Hfrom & Hto).
  assert (ps_retries s1 = new) as Hr1.
  { rewrite Hnew. unfold scan_of, init in Hs0. simpl in Hs0. by simplify_eq. }
  assert (to_try (set_pass pass_retry s1) = map d_port new) as Htry.
  { pose proof (pa_inv _ _ _ _ _ _ _ _ Hp1) as Hi. pose proof (in_queue _ _ Hi) as Hq. unfold queue_ok in Hq.
    rewrite (pa_pass _ _ _ _ _ _ _ _ Hp1), Hp0 in Hq. unfold to_try. simpl. by rewrite (proj1 Hq), Hr1. }
  pose proof (pa_pool _ _ _ _ _ _ _ _ Hp2) as Hpool. rewrite Htry in Hpool.
  split; [|split].
  - pose proof (NoDup_seqZ (ps_start s1) (ps_end s1 + 1 - ps_start s1)) as Hnd.
    pose proof (bo_ports _ _ _ _ _ Hb1) as Hall. simpl in Hall. rewrite Hall, Htry, Hpool in Hnd.
    apply NoDup_app in Hnd as (_ & _ & Hnd). apply NoDup_app in Hnd as (Hnd & _). by apply NoDup_app in Hnd as (? & _).
  - intros p2 Hin. destruct (run_keeps_account _ _ _ _ _ _ _ _ _ Hrun2) as (_ & (left & [_ Hcov] & _) & _).
    pose proof (second_pass_tries qs2 (set_pass pass_retry s1) _ _ _ _ _ _ eq_refl Hi1 Hb1 (queries_covers _ _ Hqs2 Hcov) Ht2 Ha2) as Htries.
    eapply Forall_forall in Htries as (d & Hd & Hport & Hw); [|exact Hin].
    assert (d ∈ new) as Hdn. { rewrite <- Hr1. simpl in Hd. eapply elem_of_submseteq; [exact Hd|]. apply sublist_submseteq, sublist_drop. }
    destruct (proj1 (Forall_forall _ _) Hfrom d Hdn) as (p1 & us & room & Hq & ->). exists p1, us, room.
    split; [done|]. split; [done|]. apply Hw.
  - intros Hun p1 us room Hq Hdef. rewrite (Hdry Hun), app_nil_r in Hpool. rewrite <- Hpool.
    specialize (Hto p1 us room Hq Hdef). apply list_elem_of_fmap. by exists (deferred_of p1).
Qed.
End ScanPorts.

(** ** A small scan *)

(** Ports 22 and 23 of a host near by: 22 refuses, 23 is open, but its first
    SYN is lost. *)
Definition lan_job (port wait : Z) (blind : bool) : Job :=
  {| j_id := if blind then 2 else 0;
     j_target := {| t_ip := IP 192 168 1 7; t_port := port; t_timeout_ms := wait;
                    t_cut_floor_ms := if blind then Some 100 else None |} |}.

Definition lan_probe (port wait : Z) (blind : bool) : PortProbe :=
  {| pp_target := j_target (lan_job port wait blind); pp_deferrable := false; pp_blind := blind |}.

Definition lan (jobs : list Job) (connects : list (sys unit)) (caps : list (option Z)) : script :=
  let s := set_caps caps (set_jobs jobs (set_queues [] [] [] [] connects [] [] (idle 1000))) in
  {| sc_now := sc_now s; sc_fd := sc_fd s; sc_polls := sc_polls s; sc_selects := sc_selects s;
     sc_sends := sc_sends s; sc_recvs := sc_recvs s; sc_connects := sc_connects s;
     sc_mallocs := sc_mallocs s; sc_files := sc_files s; sc_size := sc_size s;
     sc_ifaddrs := sc_ifaddrs s; sc_local := Ok (SA AF_INET (IP 192 168 1 5) 50000);
     sc_peer := Ok (SA AF_INET (IP 192 168 1 7) 23);
     sc_soerror := Ok 0; sc_stops := sc_stops s; sc_rows := sc_rows s;
     sc_echo2 := sc_echo2 s; sc_pending := sc_pending s; sc_parsed := sc_parsed s; sc_jobs := sc_jobs s;
     sc_caps := sc_caps s |}.

Definition first_lan : script :=
  lan [lan_job 22 500 true; lan_job 23 500 true] [Err 111; Err 115] [Some 100; Some 100].
Definition second_lan : script := lan [lan_job 23 100 false] [Ok ()] [Some 100].

Definition first_calls : list query :=
  [q_next false (Some (lan_probe 22 500 true)); q_next false (Some (lan_probe 23 500 true)); q_next false None;
   q_done (lan_probe 22 500 true) refused 100 true; q_cap (Some 100);
   q_done (lan_probe 23 500 true) filtered 500800 true; q_cap (Some 100)].

Definition second_calls : list query :=
  [q_next false (Some (lan_probe 23 100 false)); q_next false None;
   q_done (lan_probe 23 100 false) open 100 true; q_cap (Some 100)].

(** A run of one loop. *)
Ltac one_loop env :=
  eexists _, _; split;
  [ eapply (runs_all Linux true 24 40 20 adaptive env _ _ _ env _ _ _ [] _ _ _ env);
    [ vm_compute; reflexivity
    | vm_compute; congruence
    | apply Forall_singleton; exists env; eexists; vm_compute; reflexivity
    | apply merged_one
    | refine (serve_log_sound true _ _ env _ _ _ _); vm_compute; reflexivity
    | vm_compute; reflexivity ]
  | split; [vm_compute; reflexivity|] ].

Section Small.
#[local] Existing Instance small_ranks.

Lemma lan_scan :
  scanPorts (E := script) Linux 24 40 20 (IP 192 168 1 7) 22 23 None (scan_ports [23]) [first_calls; second_calls]
    [said_advance; said_open 23; said_advance].
Proof.
  assert (∃ s0 s1 l1, scan_of (IP 192 168 1 7) 22 23 None = Some s0 ∧ answers first_calls s0 = Some (s1, l1) ∧
    ∃ s2 l2, answers second_calls (set_pass pass_retry s1) = Some (s2, l2) ∧ needsThirdPass false s2 = false ∧
      sort_ports (ps_open_ports s2) = [23] ∧ l1 ++ l2 = [said_advance; said_open 23; said_advance])
    as (s0 & s1 & l1 & Hs0 & H1 & s2 & l2 & H2 & Hno & Hports & Hl).
  { eexists _, _, _. split; [vm_compute; reflexivity|]. split; [vm_compute; reflexivity|].
    eexists _, _. split; [vm_compute; reflexivity|]. by vm_compute. }
  rewrite <- Hports, <- Hl. eapply (scan_twice Linux 24 40 20 _ _ _ _ s0 _ s1 _ _ s2 _ false); [done|done| | |done].
  - one_loop first_lan. exact H1.
  - one_loop second_lan. exact H2.
Qed.

Lemma scanPorts_exact_witness :
  ∃ ports logs l, scanPorts (E := script) Linux 24 40 20 (IP 192 168 1 7) 22 23 None (scan_ports ports) logs l ∧ ports = [23] ∧
    StronglySorted Z.lt ports ∧ Forall (λ port, 22 <= port <= 23) ports ∧
    (∀ port, port ∈ ports ↔ port ∈ flat_map recorded (concat logs)) ∧
    (Forall (Forall unstopped) logs →
      map port_of (flat_map handed (hd [] logs)) = scan_order 22 23 ∧ advances l = Z.to_nat (23 + 1 - 22)).
Proof.
  exists [23], [first_calls; second_calls], [said_advance; said_open 23; said_advance].
  split; [exact lan_scan|]. split; [done|].
  apply (scanPorts_exact (E := script) Linux 24 40 20 (IP 192 168 1 7) 22 23 None [23] _ _); [lia|lia|done| |exact lan_scan].
  unfold first_calls, second_calls. repeat constructor; unfold MAX_RTT; lia.
Defined.

Lemma second_tries_witness :
  NoDup (map port_of (flat_map handed second_calls)) ∧
  (∀ p2, p2 ∈ flat_map handed second_calls → ∃ p1 us room, q_done p1 filtered us room ∈ first_calls ∧
    port_of p1 = port_of p2 ∧
    (pp_blind p1 = false → t_timeout_ms (pp_target p1) + t_timeout_ms (pp_target p2) <= PORT_TIMEOUT_MS)) ∧
  (Forall unstopped second_calls → ∀ p1 us room, q_done p1 filtered us room ∈ first_calls → pp_deferrable p1 = true →
    port_of p1 ∈ map port_of (flat_map handed second_calls)).
Proof.
  apply (second_tries (E := script) Linux 24 40 20 (IP 192 168 1 7) 22 23 None [23] first_calls second_calls []
    [said_advance; said_open 23; said_advance]); [lia|lia|done| |exact lan_scan].
  unfold first_calls, second_calls. repeat constructor; unfold MAX_RTT; lia.
Defined.

(** A scan whose every port is reported before the next is taken. *)
Fixpoint one_by_one (n : nat) (verdict : Z → Outcome) (s : PortScan) : option (PortScan * list said) :=
  match n with
  | O => Some (s, [])
  | S n =>
    '(r, s) ← next false s;
    match r with
    | None => Some (s, [])
    | Some p =>
      '(s, l) ← done true p (verdict (port_of p)) 1000 s;
      '(s, l') ← one_by_one n verdict s;
      Some (s, l ++ l')
    end
  end.

Lemma one_by_one_steps n verdict : ∀ s s' l, one_by_one n verdict s = Some (s', l) → rtc scan_step (s, []) (s', []).
Proof.
  induction n as [|n IH]; intros s s' l Hr; cbn [one_by_one] in Hr; [by simplify_eq|].
  destruct (next false s) as [[r s1]|] eqn:Hn; [|done]. cbn [mbind option_bind] in Hr. destruct r as [p|].
  2:{ simplify_eq. eapply rtc_l; [by eapply step_next|done]. }
  destruct (done _ _ _ _ s1) as [[s2 l2]|] eqn:Hd; [|done]. cbn [mbind option_bind] in Hr.
  destruct (one_by_one n verdict s2) as [[s3 l3]|] eqn:Ho; [|done]. cbn [mbind option_bind] in Hr. simplify_eq.
  eapply rtc_l; [by eapply step_next|]. eapply rtc_l; [|by eapply IH].
  eapply (step_done true p); [reflexivity| |exact Hd]. unfold MAX_RTT. lia.
Qed.

(** Ports 1000 to 2001 of a near host that loses every first SYN but one,
    and both the first and the second to 2001, which is open. *)
Definition lossy (pass : Pass) (port : Z) : Outcome :=
  match pass with
  | pass_first => if port =? 1000 then refused else filtered
  | pass_retry => if port =? 2001 then filtered else refused
  | pass_third => open
  end.

(** Three passes that end as claimed. *)
Definition ends_late (start : option PortScan) (pass : Pass → PortScan → option (PortScan * list said)) : bool :=
  match start with
  | None => false
  | Some s0 =>
    match pass pass_first s0 with
    | None => false
    | Some (s1, l1) =>
      match pass pass_retry (set_pass pass_retry s1) with
      | None => false
      | Some (s2, l2) =>
        match pass pass_third (set_pass pass_third s2) with
        | None => false
        | Some (_, l3) =>
          bool_decide (ps_pass s1 = pass_first) && bool_decide (ps_pass s2 = pass_retry) &&
          (advances (l1 ++ l2) =? 1002)%nat && needsThirdPass false s2 && bool_decide (l3 = [said_open 2001])
        end
      end
    end
  end.

Lemma ends_late_inv start pass : ends_late start pass = true →
  ∃ s0 s1 l1 s2 l2 s3, start = Some s0 ∧ pass pass_first s0 = Some (s1, l1) ∧
    pass pass_retry (set_pass pass_retry s1) = Some (s2, l2) ∧ advances (l1 ++ l2) = 1002%nat ∧
    needsThirdPass false s2 = true ∧ pass pass_third (set_pass pass_third s2) = Some (s3, [said_open 2001]) ∧
    ps_pass s1 = pass_first ∧ ps_pass s2 = pass_retry.
Proof.
  unfold ends_late. intros Hall. destruct start as [s0|]; [|done].
  destruct (pass pass_first s0) as [[s1 l1]|] eqn:H1; [|done].
  destruct (pass pass_retry _) as [[s2 l2]|] eqn:H2; [|done].
  destruct (pass pass_third _) as [[s3 l3]|] eqn:H3; [|done].
  apply andb_true_iff in Hall as [[[[P1 P2]%andb_true_iff Hadv]%andb_true_iff Hth]%andb_true_iff Hl3]. to_prop. subst l3.
  by exists s0, s1, l1, s2, l2, s3.
Qed.

(** A hit after 100%.  The progress of a scan is full when its second pass
    ends, and a third pass can still find an open port. *)
Theorem hit_after_full_progress :
  ∃ s0 s1 l1 s2 l2 s3, scan_of (IP 192 168 1 7) 1000 2001 None = Some s0 ∧
    one_by_one 1003 (lossy pass_first) s0 = Some (s1, l1) ∧
    one_by_one 1003 (lossy pass_retry) (set_pass pass_retry s1) = Some (s2, l2) ∧
    advances (l1 ++ l2) = Z.to_nat (2001 + 1 - 1000) ∧ needsThirdPass false s2 = true ∧
    one_by_one 1003 (lossy pass_third) (set_pass pass_third s2) = Some (s3, [said_open 2001]) ∧
    rtc scan_step (s0, []) (s3, []).
Proof.
  destruct (ends_late_inv (scan_of (IP 192 168 1 7) 1000 2001 None) (λ pass, one_by_one 1003 (lossy pass)))
    as (s0 & s1 & l1 & s2 & l2 & s3 & Hs0 & H1 & H2 & Hadv & Hth & H3 & P1 & P2); [vm_compute; reflexivity|].
  exists s0, s1, l1, s2, l2, s3. split; [exact Hs0|]. split; [exact H1|]. split; [exact H2|].
  split; [rewrite Hadv; lia|]. split; [exact Hth|]. split; [exact H3|].
  etrans; [by eapply one_by_one_steps|]. eapply rtc_l; [by apply step_retry|].
  etrans; [by eapply one_by_one_steps|]. eapply rtc_l; [by apply (step_third false)|]. by eapply one_by_one_steps.
Qed.

Lemma scan_never_stuck_witness :
  ∃ s0 s p, scan_of (IP 192 168 1 7) 22 23 None = Some s0 ∧ rtc scan_step (s0, []) (s, [p]) ∧
    (∀ stop, is_Some (next stop s)) ∧ is_Some (waitCap s) ∧
    (∀ room p' o us, p' ∈ [p] → 0 <= us <= MAX_RTT → is_Some (done room p' o us s)) ∧
    Forall (λ p, 0 <= t_timeout_ms (pp_target p) ∧
      (t_timeout_ms (pp_target p) <= PORT_TIMEOUT_MS ∨ ps_fixed_ms s = Some (t_timeout_ms (pp_target p)))) [p] ∧
    (ps_half_units s / 2 ≤ Z.to_nat (23 + 1 - 22))%nat ∧
    (ps_pass s = pass_retry → [p] ≠ [] → (ps_silent_twice s < ps_next_retry s ≤ length (ps_retries s))%nat).
Proof.
  assert (∃ s0 s, scan_of (IP 192 168 1 7) 22 23 None = Some s0 ∧ next false s0 = Some (Some (lan_probe 22 500 true), s))
    as (s0 & s & Hs0 & Hn) by (eexists _, _; split; [vm_compute; reflexivity|]; vm_compute; reflexivity).
  assert (rtc scan_step (s0, []) (s, [lan_probe 22 500 true])) as Hreach.
  { eapply rtc_once, (step_next false (Some (lan_probe 22 500 true))). exact Hn. }
  exists s0, s, (lan_probe 22 500 true). split; [exact Hs0|]. split; [exact Hreach|].
  apply (scan_never_stuck (IP 192 168 1 7) 22 23 None s0 s [lan_probe 22 500 true]); [lia|lia|done|exact Hs0|exact Hreach].
Defined.
End Small.
