(* ===== verification/Progress.v ===== *)
(** * progress.zig: counting a scan's progress

    The tracker of a scan's phase, and the progress events its workers print
    ([Run.advance] of scanner.zig): each counts a unit on the shared tracker,
    and, when that moves the whole percentage, claims the newest count under
    the output lock.  The two halves of different workers interleave. *)
From stdpp Require Import sorting relations.
From S2P Require Import Prelude Words.
Open Scope Z_scope.

Inductive Phase := phase_ports | phase_sweep | phase_arp | phase_identify.

#[export] Instance Phase_eq_dec : EqDecision Phase.
Proof. solve_decision. Defined.

(** [None] is an overflow of the product. *)
Definition crossesPercent (done total : Z) : option bool :=
  if (total =? 0) || (done =? 0) || (done >? total) then Some false
  else
    now ← zu64 (done * 100);
    before ← zu64 ((done - 1) * 100);
    Some (negb (now / total =? before / total)).

Record Tracker := {
  tr_found : Z;
  tr_done : Z;
  tr_phase : option Phase;
  tr_total : Z;
  tr_last_claimed : Z
}.

Definition fresh_tracker : Tracker :=
  {| tr_found := 0; tr_done := 0; tr_phase := None; tr_total := 0; tr_last_claimed := 0 |}.

Definition startPhase (phase : Phase) (total : Z) (self : Tracker) : Tracker :=
  {| tr_found := tr_found self; tr_done := 0; tr_phase := Some phase; tr_total := total; tr_last_claimed := 0 |}.

(** The atomic add wraps, the sum it is compared by does not. *)
Definition tracker_advance (self : Tracker) : option (bool * Tracker) :=
  done ← zu64 (tr_done self + 1);
  crosses ← crossesPercent done (tr_total self);
  Some (crosses, {| tr_found := tr_found self; tr_done := u64 (tr_done self + 1); tr_phase := tr_phase self;
                    tr_total := tr_total self; tr_last_claimed := tr_last_claimed self |}).

Definition tracker_addFound (self : Tracker) : Tracker :=
  {| tr_found := u64 (tr_found self + 1); tr_done := tr_done self; tr_phase := tr_phase self;
     tr_total := tr_total self; tr_last_claimed := tr_last_claimed self |}.

Definition claim (self : Tracker) : option Z * Tracker :=
  let done := Z.min (tr_done self) (tr_total self) in
  if done <=? tr_last_claimed self then (None, self)
  else (Some done, {| tr_found := tr_found self; tr_done := tr_done self; tr_phase := tr_phase self;
                      tr_total := tr_total self; tr_last_claimed := done |}).

Record Snapshot := { sn_phase : option Phase; sn_done : Z; sn_total : Z; sn_found : Z }.

Definition snapshot (self : Tracker) : Snapshot :=
  {| sn_phase := tr_phase self; sn_done := Z.min (tr_done self) (tr_total self);
     sn_total := tr_total self; sn_found := tr_found self |}.

(** [None] is an overflow, [Some None] nothing to show. *)
Definition percent (self : Snapshot) : option (option Z) :=
  if sn_total self =? 0 then Some None
  else p ← zu64 (sn_done self * 100); Some (Some (p / sn_total self)).

(** ** Workers *)

(** The tracker, how many workers have moved the percentage and have yet to
    claim, and the counts printed so far.  Any worker can be next. *)
Inductive work : Tracker * nat * list Z → Tracker * nat * list Z → Prop :=
| work_counts t crosses t' n printed :
    tracker_advance t = Some (crosses, t') →
    work (t, n, printed) (t', if (crosses : bool) then S n else n, printed)
| work_claims t r t' n printed :
    claim t = (r, t') → work (t, S n, printed) (t', n, printed ++ option_list r).

Section Events.
Variable total : Z.
Hypothesis Htotal : 0 <= total.
Hypothesis Hfits : total * 100 < 18446744073709551616.

Lemma crosses_value done :
  0 <= done → crossesPercent done total =
    Some (bool_decide (0 < done <= total ∧ (done - 1) * 100 / total < done * 100 / total)).
Proof.
  intros Hd. unfold crossesPercent, zu64. destruct (_ || _) eqn:Hout.
  - rewrite bool_decide_false; [done|]. intros [Hr _]. rewrite Z.gtb_ltb in Hout. to_prop.
    destruct Hout as [Hout|Hout]; [to_prop; destruct Hout|]; to_prop; lia.
  - rewrite Z.gtb_ltb in Hout. to_prop.
    rewrite !fits_some by lia. cbn [mbind option_bind]. f_equal.
    assert ((done - 1) * 100 / total <= done * 100 / total) by (apply Z.div_le_mono; lia).
    destruct (Z.eqb_spec (done * 100 / total) ((done - 1) * 100 / total)); simpl; symmetry;
      [apply bool_decide_false|apply bool_decide_true]; lia.
Qed.

(** The percentage a count has reached. *)
Definition reached (done : Z) : Z := Z.min done total * 100 / total.

Record events_ok (x : Tracker * nat * list Z) : Prop := {
  ev_total : tr_total x.1.1 = total;
  ev_done : 0 <= tr_done x.1.1;
  ev_sorted : StronglySorted Z.lt x.2;
  ev_range : Forall (λ k, 0 < k <= Z.min (tr_done x.1.1) total) x.2;
  ev_last : Forall (λ k, k <= tr_last_claimed x.1.1) x.2 ∧ (tr_last_claimed x.1.1 = 0 ∨ tr_last_claimed x.1.1 ∈ x.2);
  ev_percent : Z.of_nat (length x.2 + x.1.2) <= reached (tr_done x.1.1);
  ev_units : Z.of_nat (length x.2 + x.1.2) <= Z.min (tr_done x.1.1) total;
  ev_full : 0 < total <= tr_done x.1.1 → (0 < x.1.2)%nat ∨ tr_last_claimed x.1.1 = total
}.

Lemma sorted_snoc (l : list Z) k : StronglySorted Z.lt l → Forall (λ x, x < k) l → StronglySorted Z.lt (l ++ [k]).
Proof.
  induction 1 as [|x l _ IH Hx]; intros Hk; simpl; [by repeat constructor|].
  apply Forall_cons in Hk as [Hxk Hk]. constructor; [by apply IH|]. apply Forall_app. split; [done|by constructor].
Qed.

Lemma claim_ok t n printed r t' :
  claim t = (r, t') → events_ok (t, S n, printed) → events_ok (t', n, printed ++ option_list r).
Proof.
  intros Hc [Ht Hd Hs Hr [Hl Hin] Hp Hu Hf]. simpl in *. unfold claim in Hc. rewrite Ht in Hc.
  destruct (_ <=? _) eqn:Hle; to_prop; simplify_eq; simpl; rewrite ?app_nil_r.
  - split; simpl; try done; [lia|lia|]. intros Hfull. right. specialize (Hf Hfull).
    destruct Hin as [Hz|Hin]; [lia|]. eapply Forall_forall in Hr; [|exact Hin]. simpl in Hr. lia.
  - assert (0 <= tr_last_claimed t) as Hlast.
    { destruct Hin as [->|Hin]; [done|]. eapply Forall_forall in Hr; [|exact Hin]. simpl in Hr. lia. }
    split; simpl; try done.
    + apply sorted_snoc; [done|]. eapply Forall_impl; [exact Hl|]. simpl. lia.
    + apply Forall_app. split; [done|]. constructor; [lia|done].
    + split; [|right; apply elem_of_app; right; apply list_elem_of_here]. apply Forall_app. split; [|by constructor].
      eapply Forall_impl; [exact Hl|]. simpl. lia.
    + rewrite length_app. simpl. lia.
    + rewrite length_app. simpl. lia.
    + intros Hfull. right. lia.
Qed.

Lemma counts_ok t n printed crosses t' :
  tracker_advance t = Some (crosses, t') → events_ok (t, n, printed) →
  events_ok (t', if (crosses : bool) then S n else n, printed).
Proof.
  intros Ha [Ht Hd Hs Hr [Hl Hin] Hp Hu Hf]. simpl in *. unfold tracker_advance in Ha. rewrite Ht in Ha.
  destruct (zu64 _) as [d|] eqn:Hz; [|done]. apply fits_inv in Hz as [-> Hz]. cbn [mbind option_bind] in Ha.
  rewrite crosses_value in Ha by lia. cbn [mbind option_bind] in Ha. simplify_eq.
  replace (u64 (tr_done t + 1)) with (tr_done t + 1) by (symmetry; apply u64_id; done).
  assert (Forall (λ k, 0 < k <= Z.min (tr_done t + 1) total) printed) as Hr'.
  { eapply Forall_impl; [exact Hr|]. simpl. lia. }
  unfold reached in Hp. destruct (bool_decide _) eqn:Hc; to_prop.
  - destruct Hc as [Hc Hlt]. split; simpl; try done.
    + lia.
    + unfold reached. simpl. rewrite Z.min_l by lia. rewrite Z.min_l in Hp by lia.
      replace (tr_done t + 1 - 1) with (tr_done t) in Hlt by lia. lia.
    + lia.
    + intros _. left. lia.
  - split; simpl; try done; [lia| |lia|].
    + unfold reached. simpl. etrans; [exact Hp|]. destruct (decide (total = 0)) as [->|]; [by rewrite !Zdiv_0_r|]. apply Z.div_le_mono; lia.
    + intros Hfull. destruct (decide (total <= tr_done t)) as [Hge|Hlt]; [apply Hf; lia|].
      exfalso. apply Hc. assert (total = tr_done t + 1) as Heq by lia. split; [lia|].
      rewrite <- Heq, (Z.mul_comm total), Z.div_mul by lia. apply Z.div_lt_upper_bound; lia.
Qed.

Lemma events_start phase t : events_ok (startPhase phase total t, 0%nat, []).
Proof.
  split; simpl; try done; try constructor; try done; [by left| |lia..].
  unfold reached. rewrite Z.min_l by lia. destruct (decide (total = 0)) as [->|]; [by rewrite Zdiv_0_r|]. by rewrite Z.div_0_l.
Qed.

Lemma work_ok x y : work x y → events_ok x → events_ok y.
Proof. intros [t crosses t' n printed Ha|t r t' n printed Hc]; [by apply counts_ok|by apply claim_ok]. Qed.

(** What has been printed once every worker has claimed. *)
Lemma events_done t printed : events_ok (t, 0%nat, printed) →
  StronglySorted Z.lt printed ∧ Forall (λ k, 0 < k <= Z.min (tr_done t) total) printed ∧
  Z.of_nat (length printed) <= Z.min 100 total ∧ (0 < total <= tr_done t → last printed = Some total).
Proof.
  intros [Ht Hd Hs Hr [Hl Hin] Hp Hu Hf]. simpl in *. split; [done|]. split; [done|]. split.
  { apply Z.min_glb; [|lia]. etrans; [|etrans; [exact Hp|]]; [lia|]. unfold reached.
    destruct (decide (total = 0)) as [->|]; [by rewrite Zdiv_0_r|]. apply Z.div_le_upper_bound; lia. }
  intros Hfull. destruct (Hf Hfull) as [|Hlast]; [lia|]. rewrite Hlast in *.
  destruct Hin as [|Hin]; [lia|]. clear -Hs Hl Hin. induction Hs as [|x l Hs IH Hx]; [by apply not_elem_of_nil in Hin|].
  apply Forall_cons in Hl as [Hxt Hl]. apply elem_of_cons in Hin as [->|Hin].
  - destruct l as [|y l]; [done|]. apply Forall_cons in Hx as [Hx _]. apply Forall_cons in Hl as [Hy _]. lia.
  - rewrite last_cons. by rewrite (IH Hl Hin).
Qed.

(** C25: A phase's progress events.  However the workers interleave, the counts
    printed only increase and stay within the units of the phase and those
    finished; there are at most 100 of them, and at most one per unit; and
    once every unit is finished and every worker has claimed, the last one
    printed is the total, exactly once. *)
Theorem progress_events phase t0 t n printed :
  rtc work (startPhase phase total t0, 0%nat, []) (t, n, printed) →
  StronglySorted Z.lt printed ∧ Forall (λ k, 0 < k <= Z.min (tr_done t) total) printed ∧
  Z.of_nat (length printed) <= Z.min 100 total ∧
  (0 < total <= tr_done t → n = 0%nat → ∃ before, printed = before ++ [total] ∧ total ∉ before).
Proof.
  intros Hreach. assert (events_ok (t, n, printed)) as [Ht Hd Hs Hr [Hl Hin] Hp Hu Hf].
  { refine (rtc_ind_l (λ x, events_ok x → events_ok (t, n, printed)) (t, n, printed) _ _ _ Hreach _); [done| |apply events_start].
    intros x y Hxy _ IH Hx. by eapply IH, work_ok. }
  simpl in *. split; [done|]. split; [done|]. split.
  { apply Z.min_glb; [|lia]. etrans; [|etrans; [exact Hp|]]; [lia|]. unfold reached.
    destruct (decide (total = 0)) as [->|]; [by rewrite Zdiv_0_r|]. apply Z.div_le_upper_bound; lia. }
  intros Hfull ->. destruct (Hf Hfull) as [|Hlast]; [lia|]. rewrite Hlast in *.
  destruct Hin as [|Hin]; [lia|]. clear -Hs Hl Hin. induction Hs as [|x l Hs IH Hx]; [by apply not_elem_of_nil in Hin|].
  apply Forall_cons in Hl as [Hxt Hl]. apply elem_of_cons in Hin as [->|Hin].
  - exists []. destruct l as [|y l]; [split; [done|apply not_elem_of_nil]|]. apply Forall_cons in Hx as [Hx _].
    apply Forall_cons in Hl as [Hy _]. lia.
  - destruct (IH Hl Hin) as (before & -> & Hni). exists (x :: before). split; [done|].
    intros [<-|?]%elem_of_cons; [|done]. apply Forall_app in Hx as [_ Hx%Forall_cons]. lia.
Qed.

(** What a display shows: a percentage between 0 and 100, which is 100
    exactly when every unit is finished. *)
Theorem percent_range (t : Tracker) :
  tr_total t = total → 0 <= tr_done t → 0 < total →
  ∃ p, percent (snapshot t) = Some (Some p) ∧ 0 <= p <= 100 ∧ (p = 100 ↔ total <= tr_done t).
Proof.
  intros Ht Hd Hpos. unfold percent, snapshot. simpl. rewrite Ht. rewrite (proj2 (Z.eqb_neq _ _)) by lia.
  unfold zu64. rewrite fits_some by lia. cbn [mbind option_bind]. eexists. split; [done|].
  pose proof (Z.div_mod (Z.min (tr_done t) total * 100) total). pose proof (Z.mod_pos_bound (Z.min (tr_done t) total * 100) total).
  split; [nia|]. split; [nia|]. intros Hle. rewrite Z.min_r by lia. rewrite Z.mul_comm. by apply Z.div_mul; lia.
Qed.
End Events.

(** Three units, two workers: the second claims for both. *)
Lemma progress_events_witness :
  let t0 := startPhase phase_ports 3 fresh_tracker in
  ∃ t, rtc work (t0, 0%nat, []) (t, 0%nat, [2; 3]) ∧
    StronglySorted Z.lt [2; 3] ∧ Forall (λ k, 0 < k <= Z.min (tr_done t) 3) [2; 3] ∧
    Z.of_nat (length [2; 3]) <= Z.min 100 3 ∧
    (0 < 3 <= tr_done t → 0%nat = 0%nat → ∃ before, [2; 3] = before ++ [3] ∧ 3 ∉ before).
Proof.
  intros t0. assert (∃ t, rtc work (t0, 0%nat, []) (t, 0%nat, [2; 3])) as [t Hr].
  { eexists. eapply rtc_l; [apply work_counts; vm_compute; reflexivity|]. eapply rtc_l; [apply work_counts; vm_compute; reflexivity|].
    cbn [app]. eapply rtc_l; [eapply (work_claims _ (Some 2)); vm_compute; reflexivity|].
    eapply rtc_l; [eapply (work_claims _ None); vm_compute; reflexivity|].
    eapply rtc_l; [apply work_counts; vm_compute; reflexivity|].
    eapply rtc_l; [eapply (work_claims _ (Some 3)); vm_compute; reflexivity|]. apply rtc_refl. }
  exists t. split; [exact Hr|]. apply (progress_events 3 ltac:(lia) ltac:(lia) phase_ports fresh_tracker t 0 [2; 3] Hr).
Defined.

Lemma percent_range_witness :
  let t := {| tr_found := 1; tr_done := 120; tr_phase := Some phase_sweep; tr_total := 254; tr_last_claimed := 119 |} in
  ∃ p, percent (snapshot t) = Some (Some p) ∧ 0 <= p <= 100 ∧ (p = 100 ↔ 254 <= tr_done t).
Proof. intros t. by apply (percent_range 254 ltac:(lia) ltac:(lia) t). Defined.
