(* ===== verification/Discovery.v ===== *)
(** * scanner.zig: what a discovery's workers share

    The hosts found, the MACs and the names heard ([Discovery], [NameCache]),
    each operation of which runs under a lock from end to end; the TCP sweep
    as a source of a run of connects.zig; and the ARP harvest's reading of the
    neighbour table.  Workers act on the shared state one operation at a time,
    in any order: a list of such operations, whoever did each, is a list of
    [act]. *)
From stdpp Require Import countable gmap sorting.
From S2P Require Import Prelude Words Targets Ranges Sys Script NsSocket TcpProbe Window Held Probe Connects Shared Run NeighborList.
Open Scope Z_scope.

#[export] Instance ip4_countable : Countable ip4.
Proof.
  refine (inj_countable' (λ ip, (ip_a ip, ip_b ip, ip_c ip, ip_d ip)) (λ '(a, b, c, d), IP a b c d) _). by intros [].
Defined.

Inductive HostSource := by_tcp | by_arp | by_ping | by_mdns | by_ssdp.

#[export] Instance HostSource_eq_dec : EqDecision HostSource.
Proof. solve_decision. Defined.

(** What stands behind Discovery's pointers, and the lines it has printed. *)
Record Discovery := {
  dv_found : list ip4;
  dv_macs : gmap ip4 (list Z);
  dv_names : gmap ip4 (list Z);
  dv_printed : list (ip4 * HostSource)
}.

Definition nothing_found : Discovery := {| dv_found := []; dv_macs := ∅; dv_names := ∅; dv_printed := [] |}.

(** The loop of reportHost, isFound and containsIp *)
Definition containsIp (ips : list ip4) (ip : ip4) : bool := existsb (λ known, bool_decide (known = ip)) ips.

(** [room]: the list can grow *)
Definition reportHost (room : bool) (ip : ip4) (source : HostSource) (d : Discovery) : Discovery :=
  if containsIp (dv_found d) ip then d
  else if room then
    {| dv_found := dv_found d ++ [ip]; dv_macs := dv_macs d; dv_names := dv_names d;
       dv_printed := dv_printed d ++ [(ip, source)] |}
  else d.

Definition isFound (ip : ip4) (d : Discovery) : bool := containsIp (dv_found d) ip.

Definition recordMac (room : bool) (ip : ip4) (mac : list Z) (d : Discovery) : Discovery :=
  if room then
    {| dv_found := dv_found d; dv_macs := <[ip := mac]> (dv_macs d); dv_names := dv_names d; dv_printed := dv_printed d |}
  else d.

(** NameCache.put: room for the entry, then for the copy *)
Definition put_name (entry_room copy_room : bool) (ip : ip4) (name : list Z) (d : Discovery) : Discovery :=
  if negb entry_room then d
  else
    match dv_names d !! ip with
    | Some _ => d
    | None =>
      if copy_room then
        {| dv_found := dv_found d; dv_macs := dv_macs d; dv_names := <[ip := name]> (dv_names d); dv_printed := dv_printed d |}
      else d
    end.

(** NameCache.get *)
Definition get_name (ip : ip4) (d : Discovery) : option (list Z) := take 256 <$> dv_names d !! ip.

(** One operation of a worker.  A read is logged with what it read. *)
Inductive act :=
| a_report (ip : ip4) (source : HostSource) (room : bool)
| a_is_found (ip : ip4) (found : bool)
| a_mac (ip : ip4) (mac : list Z) (room : bool)
| a_name (ip : ip4) (name : list Z) (entry_room copy_room : bool)
| a_advance.

(** [None]: the read could not have given that. *)
Definition perform (a : act) (d : Discovery) : option Discovery :=
  match a with
  | a_report ip source room => Some (reportHost room ip source d)
  | a_is_found ip found => if bool_decide (isFound ip d = found) then Some d else None
  | a_mac ip mac room => Some (recordMac room ip mac d)
  | a_name ip name entry_room copy_room => Some (put_name entry_room copy_room ip name d)
  | a_advance => Some d
  end.

Fixpoint perform_all (acts : list act) (d : Discovery) : option Discovery :=
  match acts with
  | [] => Some d
  | a :: acts => d ← perform a d; perform_all acts d
  end.

(** ** The TCP sweep *)

Definition TCP_PROBE_PORT : Z := 80.
Definition CONNECT_TIMEOUT_MS : Z := 500.

(** sweepHosts' source: its IPs and [index]. *)
Record Sweep := { hs_ips : list ip4; hs_index : nat }.

(** HostProbe: nothing but a target *)
Definition host_job (ip : ip4) : Job :=
  {| j_id := 0;
     j_target := {| t_ip := ip; t_port := TCP_PROBE_PORT; t_timeout_ms := CONNECT_TIMEOUT_MS; t_cut_floor_ms := None |} |}.

Definition sweep_next (stop : bool) (s : Sweep) : option Job * Sweep :=
  match hs_ips s !! hs_index s with
  | None => (None, s)
  | Some ip => if stop then (None, s) else (Some (host_job ip), {| hs_ips := hs_ips s; hs_index := S (hs_index s) |})
  end.

Definition sweep_done (room : bool) (job : Job) (outcome : Outcome) : list act :=
  (if bool_decide (outcome = filtered) then [] else [a_report (t_ip (j_target job)) by_tcp room]) ++ [a_advance].

(** One call of the run. *)
Inductive sweep_call :=
| sc_next (stop : bool) (r : option Job)
| sc_done (job : Job) (outcome : Outcome) (elapsed_us : Z) (room : bool).

Definition sweep_seen (c : sweep_call) : event :=
  match c with
  | sc_next _ r => Ev SourceNext r
  | sc_done job outcome elapsed_us _ => Ev (SourceDone job outcome elapsed_us) ()
  end.

(** The calls, if their results are the source's, and what they do. *)
Fixpoint sweep_calls (cs : list sweep_call) (s : Sweep) : option (Sweep * list act) :=
  match cs with
  | [] => Some (s, [])
  | sc_next stop r :: cs =>
    let '(r', s) := sweep_next stop s in
    if bool_decide (r' = r) then sweep_calls cs s else None
  | sc_done job outcome _ room :: cs =>
    '(s, acts) ← sweep_calls cs s;
    Some (s, sweep_done room job outcome ++ acts)
  end.

(** ** The ARP harvest *)

(** NeighborState and Neighbor of c_bindings.zig *)
Inductive NeighborState := reachable | stale.

#[export] Instance NeighborState_eq_dec : EqDecision NeighborState.
Proof. solve_decision. Defined.

Record neighbor := { ne_ip : ip4; ne_mac : option (list Z); ne_state : NeighborState }.

(** dumpNeighbors' conversion of a row *)
Definition neighbor_of (row : ns_neighbor) : neighbor :=
  {| ne_ip := nb_ip row; ne_mac := if nb_has_mac row then Some (nb_mac row) else None;
     ne_state := if nb_state row =? NS_NEIGH_REACHABLE then reachable else stale |}.

(** The loop: one of the others with the MAC, in range *)
Definition sharesMac (table : list neighbor) (entry : neighbor) (first_ip last_ip : ip4) : bool :=
  match ne_mac entry with
  | None => false
  | Some mac =>
    existsb (λ other,
      match ne_mac other with
      | None => false
      | Some other_mac =>
        negb (bool_decide (ne_ip other = ne_ip entry) || negb (ipInRange (ne_ip other) first_ip last_ip)) &&
        bool_decide (other_mac = mac)
      end) table
  end.

Definition resolvedDuringScan (known_before : option (list neighbor)) (table : list neighbor) (entry : neighbor)
    (first_ip last_ip : ip4) : bool :=
  match known_before with
  | None => false
  | Some before =>
    if existsb (λ old, bool_decide (ne_ip old = ne_ip entry)) before then false
    else negb (sharesMac table entry first_ip last_ip)
  end.

Section Harvest.
Variables (known_before : option (list neighbor)) (table : list neighbor) (first_ip last_ip : ip4).

(** An entry the kernel vouches for *)
Definition fresh_entry (entry : neighbor) : bool :=
  bool_decide (ne_state entry = reachable) || resolvedDuringScan known_before table entry first_ip last_ip.

(** A round of the loop over the table: [rd_found] is what isFound reads, the
    rooms whether the map and the lists can grow. *)
Record round := { rd_entry : neighbor; rd_found : bool; rd_mac_room : bool; rd_room : bool }.

Definition harvest_entry (r : round) (candidates : list ip4) : list ip4 * list act :=
  let entry := rd_entry r in
  let macs := match ne_mac entry with Some mac => [a_mac (ne_ip entry) mac (rd_mac_room r)] | None => [] end in
  if negb (ipInRange (ne_ip entry) first_ip last_ip) then (candidates, macs)
  else
    let acts := macs ++ [a_is_found (ne_ip entry) (rd_found r)] in
    if rd_found r then (candidates, acts)
    else if fresh_entry entry then (candidates, acts ++ [a_report (ne_ip entry) by_arp (rd_room r)])
    else if containsIp candidates (ne_ip entry) then (candidates, acts)
    else if rd_room r then (candidates ++ [ne_ip entry], acts)
    else (candidates, acts).

Fixpoint harvest_loop (rounds : list round) (candidates : list ip4) : list ip4 * list act :=
  match rounds with
  | [] => (candidates, [])
  | r :: rounds =>
    let '(candidates, acts) := harvest_entry r candidates in
    let '(candidates, acts') := harvest_loop rounds candidates in
    (candidates, acts ++ acts')
  end.
End Harvest.

(** Confirm.pinged *)
Definition confirm_pinged (os : platform) (room : bool) (ip : ip4) (answered : bool) : list act :=
  (if answered then [a_report ip by_arp room] else []) ++
  (if answered || negb (bool_decide (os = Windows)) then [a_advance] else []).

(** scanNetworkPing's Sweep.pinged *)
Definition ping_pinged (room : bool) (ip : ip4) (answered : bool) : list act :=
  (if answered then [a_report ip by_ping room] else []) ++ [a_advance].

(** One index of arp_worker: [mac] is what SendARP gave. *)
Definition arp_confirm (mac_room room : bool) (ip : ip4) (mac : option (list Z)) : list act :=
  (match mac with Some mac => [a_mac ip mac mac_room; a_report ip by_arp room] | None => [] end) ++ [a_advance].

(** ** What the harvest decides *)

Lemma containsIp_elem ips ip : containsIp ips ip = true ↔ ip ∈ ips.
Proof.
  unfold containsIp. rewrite existsb_exists. split.
  - intros (x & Hin & Hx). to_prop. subst x. by apply list_elem_of_In.
  - intros Hin. exists ip. split; [by apply list_elem_of_In|by apply bool_decide_true].
Qed.

(** Another address in range with the MAC. *)
Definition same_mac (first_ip last_ip : ip4) (entry other : neighbor) : Prop :=
  is_Some (ne_mac entry) ∧ ne_mac other = ne_mac entry ∧ ne_ip other ≠ ne_ip entry ∧
  ipInRange (ne_ip other) first_ip last_ip = true.

Lemma sharesMac_elem table entry first_ip last_ip :
  sharesMac table entry first_ip last_ip = true ↔ ∃ other, other ∈ table ∧ same_mac first_ip last_ip entry other.
Proof.
  unfold sharesMac, same_mac. destruct (ne_mac entry) as [mac|] eqn:Hm; [|split; [done|by intros (? & _ & [? ?] & _)]].
  rewrite existsb_exists. split.
  - intros (other & Hin%list_elem_of_In & Ho). exists other. split; [done|]. destruct (ne_mac other) as [mac'|]; [|done].
    apply andb_true_iff in Ho as [Hne%negb_true_iff Heq]. apply orb_false_iff in Hne as [Hne Hr%negb_false_iff].
    to_prop. subst. split; [by eexists|done].
  - intros (other & Hin & _ & Ho & Hne & Hr). exists other. split; [by apply list_elem_of_In|]. rewrite Ho, Hr.
    rewrite bool_decide_false, bool_decide_true by done. done.
Qed.

(** An entry resolved during the scan.  It is one that the first reading of
    the table, which succeeded, did not have, and that no other address in
    range shares its MAC with. *)
Theorem resolvedDuringScan_exact known_before table entry first_ip last_ip :
  resolvedDuringScan known_before table entry first_ip last_ip = true ↔
  ∃ before, known_before = Some before ∧ (∀ old, old ∈ before → ne_ip old ≠ ne_ip entry) ∧
    ∀ other, other ∈ table → ¬ same_mac first_ip last_ip entry other.
Proof.
  unfold resolvedDuringScan. destruct known_before as [before|]; [|split; [done|by intros (? & ? & _)]].
  assert (existsb (λ old, bool_decide (ne_ip old = ne_ip entry)) before = true ↔ ∃ old, old ∈ before ∧ ne_ip old = ne_ip entry)
    as Hex by (rewrite existsb_exists; setoid_rewrite bool_decide_eq_true; by setoid_rewrite list_elem_of_In).
  destruct (existsb _ before) eqn:Hb.
  { split; [done|]. intros (? & [= <-] & Hno & _). destruct (proj1 Hex eq_refl) as (old & Hin & Heq). by destruct (Hno old Hin). }
  rewrite negb_true_iff, <- not_true_iff_false, sharesMac_elem. split.
  - intros Hno. exists before. split; [done|]. split; [|naive_solver]. intros old Hin Heq.
    enough (false = true) by done. apply Hex. eauto.
  - intros (? & [= <-] & _ & Hno) (other & Hin & Hs). by eapply Hno.
Qed.

Section Classified.
Variables (known_before : option (list neighbor)) (table : list neighbor) (first_ip last_ip : ip4).

(** In range and not found when the loop came to it. *)
Definition open_case (r : round) : Prop := ipInRange (ne_ip (rd_entry r)) first_ip last_ip = true ∧ rd_found r = false.

(** What a round adds. *)
Lemma harvest_entry_run r candidates candidates' acts :
  harvest_entry known_before table first_ip last_ip r candidates = (candidates', acts) →
  (∃ more, candidates' = candidates ++ more ∧ (NoDup candidates → NoDup candidates') ∧
    ∀ ip, ip ∈ more → ip = ne_ip (rd_entry r) ∧ open_case r ∧
      fresh_entry known_before table first_ip last_ip (rd_entry r) = false ∧ rd_room r = true) ∧
  (open_case r → fresh_entry known_before table first_ip last_ip (rd_entry r) = false → rd_room r = true →
    ne_ip (rd_entry r) ∈ candidates') ∧
  (∀ ip source room, a_report ip source room ∈ acts ↔
    ip = ne_ip (rd_entry r) ∧ source = by_arp ∧ room = rd_room r ∧ open_case r ∧
      fresh_entry known_before table first_ip last_ip (rd_entry r) = true) ∧
  (∀ ip mac room, a_mac ip mac room ∈ acts ↔
    ip = ne_ip (rd_entry r) ∧ ne_mac (rd_entry r) = Some mac ∧ room = rd_mac_room r).
Proof.
  unfold harvest_entry, open_case. set (macs := match ne_mac (rd_entry r) with Some _ => _ | None => _ end).
  assert (∀ a, a ∈ macs ↔ ∃ mac, ne_mac (rd_entry r) = Some mac ∧ a = a_mac (ne_ip (rd_entry r)) mac (rd_mac_room r)) as Hmacs.
  { intros a. subst macs. destruct (ne_mac (rd_entry r)) as [mac|].
    - rewrite list_elem_of_singleton. split; [intros ->; by exists mac|by intros (? & [= <-] & ->)].
    - split; [by intros ?%not_elem_of_nil|by intros (? & ? & _)]. }
  clearbody macs. pose proof (containsIp_elem candidates (ne_ip (rd_entry r))) as Hin.
  assert (∀ Q : ip4 → Prop, ∃ more, candidates = candidates ++ more ∧ (NoDup candidates → NoDup candidates) ∧
    ∀ ip, ip ∈ more → Q ip) as Hsame.
  { intros Q. exists []. rewrite app_nil_r. split; [done|]. split; [done|]. by intros ip ?%not_elem_of_nil. }
  destruct (ipInRange _ _ _); simpl.
  2:{ intros [= <- <-]. split; [apply Hsame|]. repeat setoid_rewrite Hmacs. split; [by intros [? _]|]. (clear -Hmacs; naive_solver). }
  destruct (rd_found r).
  { intros [= <- <-]. split; [apply Hsame|]. repeat setoid_rewrite elem_of_app. repeat setoid_rewrite Hmacs.
    repeat setoid_rewrite list_elem_of_singleton. split; [by intros [_ ?]|]. (clear -Hmacs; naive_solver). }
  destruct (fresh_entry _ _ _ _ _).
  { intros [= <- <-]. split; [apply Hsame|]. repeat setoid_rewrite elem_of_app. repeat setoid_rewrite Hmacs.
    repeat setoid_rewrite list_elem_of_singleton. split; [done|]. (clear -Hmacs; naive_solver). }
  destruct (containsIp candidates _) eqn:Hc; [|destruct (rd_room r)].
  - intros [= <- <-]. split; [apply Hsame|]. repeat setoid_rewrite elem_of_app. repeat setoid_rewrite Hmacs.
    repeat setoid_rewrite list_elem_of_singleton. split; [intros _ _ _; by apply Hin|]. (clear -Hmacs; naive_solver).
  - intros [= <- <-]. split.
    { eexists. split; [done|]. split; [|by intros ip ->%list_elem_of_singleton].
      intros Hn. apply NoDup_app. split; [done|]. split; [|apply NoDup_singleton].
      intros x Hx ->%list_elem_of_singleton. apply Hin in Hx. congruence. }
    repeat setoid_rewrite elem_of_app. repeat setoid_rewrite Hmacs. repeat setoid_rewrite list_elem_of_singleton.
    split; [intros; by right|]. (clear -Hmacs; naive_solver).
  - intros [= <- <-]. split; [apply Hsame|]. repeat setoid_rewrite elem_of_app. repeat setoid_rewrite Hmacs.
    repeat setoid_rewrite list_elem_of_singleton. split; [done|]. (clear -Hmacs; naive_solver).
Qed.

(** What the loop decides of the whole table. *)
Record harvested (rounds : list round) (before candidates : list ip4) (acts : list act) : Prop := {
  ha_candidates : ∃ more, candidates = before ++ more ∧ (NoDup before → NoDup candidates) ∧
    ∀ ip, ip ∈ more → ∃ r, r ∈ rounds ∧ ip = ne_ip (rd_entry r) ∧ open_case r ∧
      fresh_entry known_before table first_ip last_ip (rd_entry r) = false ∧ rd_room r = true;
  ha_pinged : ∀ r, r ∈ rounds → open_case r → fresh_entry known_before table first_ip last_ip (rd_entry r) = false →
    rd_room r = true → ne_ip (rd_entry r) ∈ candidates;
  ha_reports : ∀ ip source room, a_report ip source room ∈ acts ↔
    ∃ r, r ∈ rounds ∧ ip = ne_ip (rd_entry r) ∧ source = by_arp ∧ room = rd_room r ∧ open_case r ∧
      fresh_entry known_before table first_ip last_ip (rd_entry r) = true;
  ha_macs : ∀ ip mac room, a_mac ip mac room ∈ acts ↔
    ∃ r, r ∈ rounds ∧ ip = ne_ip (rd_entry r) ∧ ne_mac (rd_entry r) = Some mac ∧ room = rd_mac_room r
}.

Lemma harvest_loop_run rounds : ∀ before candidates acts,
  harvest_loop known_before table first_ip last_ip rounds before = (candidates, acts) →
  harvested rounds before candidates acts.
Proof.
  induction rounds as [|r rounds IH]; intros before candidates acts Hr; simpl in Hr.
  { simplify_eq. split; [exists []; rewrite app_nil_r|..].
    - split; [done|]. split; [done|]. by intros ip ?%not_elem_of_nil.
    - by intros r ?%not_elem_of_nil.
    - intros. split; [by intros ?%not_elem_of_nil|by intros (r & ?%not_elem_of_nil & _)].
    - intros. split; [by intros ?%not_elem_of_nil|by intros (r & ?%not_elem_of_nil & _)]. }
  destruct (harvest_entry _ _ _ _ r before) as [mid acts1] eqn:H1.
  destruct (harvest_loop _ _ _ _ rounds mid) as [after acts2] eqn:H2. simplify_eq.
  apply harvest_entry_run in H1 as ((more1 & -> & Hn1 & Hm1) & Hp1 & Hr1 & Hmac1).
  apply IH in H2 as [(more2 & -> & Hn2 & Hm2) Hp2 Hr2 Hmac2]. split.
  - exists (more1 ++ more2). rewrite app_assoc. split; [done|]. split; [auto|]. intros ip [Hin|Hin]%elem_of_app.
    + exists r. split; [apply list_elem_of_here|by apply Hm1].
    + apply Hm2 in Hin as (r' & ? & ?). exists r'. split; [by apply list_elem_of_further|done].
  - intros r' [->|Hin]%elem_of_cons Ho Hf Hroom; [|by apply Hp2]. apply elem_of_app. left. by apply Hp1.
  - intros ip source room. rewrite elem_of_app, Hr1, Hr2. setoid_rewrite elem_of_cons.
    clear. naive_solver.
  - intros ip mac room. rewrite elem_of_app, Hmac1, Hmac2. setoid_rewrite elem_of_cons.
    clear. naive_solver.
Qed.

(** C17: The ARP harvest.  Every entry in range that was not found when the loop
    came to it is settled one way: one the kernel vouches for, reachable or
    resolved during the scan, is reported at once, any other is a candidate
    for a ping, listed once however many entries name it.  Nothing else is
    reported or pinged, and every MAC in the table is recorded. *)
Theorem harvest_exact rounds candidates acts :
  harvest_loop known_before table first_ip last_ip rounds [] = (candidates, acts) →
  NoDup candidates ∧
  (∀ ip, ip ∈ candidates → ∃ r, r ∈ rounds ∧ ip = ne_ip (rd_entry r) ∧ open_case r ∧
    fresh_entry known_before table first_ip last_ip (rd_entry r) = false) ∧
  (∀ r, r ∈ rounds → open_case r → rd_room r = true →
    if fresh_entry known_before table first_ip last_ip (rd_entry r)
    then a_report (ne_ip (rd_entry r)) by_arp true ∈ acts else ne_ip (rd_entry r) ∈ candidates) ∧
  (∀ ip source room, a_report ip source room ∈ acts → source = by_arp ∧
    ∃ r, r ∈ rounds ∧ ip = ne_ip (rd_entry r) ∧ open_case r ∧
      fresh_entry known_before table first_ip last_ip (rd_entry r) = true) ∧
  (∀ r mac, r ∈ rounds → ne_mac (rd_entry r) = Some mac → a_mac (ne_ip (rd_entry r)) mac (rd_mac_room r) ∈ acts).
Proof.
  intros Hr. apply harvest_loop_run in Hr as [(more & -> & Hn & Hm) Hp Hrep Hmac]. simpl in *.
  split; [by apply Hn, NoDup_nil_2|]. split.
  { intros ip Hin. apply Hm in Hin as (r & ? & ? & ? & ? & _). by exists r. }
  split.
  { intros r Hin Ho Hroom. destruct (fresh_entry _ _ _ _ _) eqn:Hf; [apply Hrep|by apply Hp]. by exists r. }
  split.
  { intros ip source room Hin. apply Hrep in Hin as (r & ? & ? & -> & _ & ? & ?). split; [done|]. by exists r. }
  intros r mac Hin Hsome. apply Hmac. by exists r.
Qed.
End Classified.

(** ** What the workers leave *)

(** The hosts reported with room; of one host, in order, the sources that
    reported it, the MACs and the names that came. *)
Definition reported_host (a : act) : list ip4 := match a with a_report ip _ true => [ip] | _ => [] end.

Definition source_of (ip : ip4) (a : act) : option HostSource :=
  match a with a_report ip' source true => if bool_decide (ip' = ip) then Some source else None | _ => None end.

Definition mac_of (ip : ip4) (a : act) : option (list Z) :=
  match a with a_mac ip' mac true => if bool_decide (ip' = ip) then Some mac else None | _ => None end.

Definition name_of (ip : ip4) (a : act) : option (list Z) :=
  match a with a_name ip' name true true => if bool_decide (ip' = ip) then Some name else None | _ => None end.

Record found_ok (d : Discovery) (acts : list act) : Prop := {
  fo_nodup : NoDup (dv_found d);
  fo_found : ∀ ip, ip ∈ dv_found d ↔ ip ∈ flat_map reported_host acts;
  fo_printed : (dv_printed d).*1 = dv_found d;
  fo_source : ∀ ip source, (ip, source) ∈ dv_printed d → head (omap (source_of ip) acts) = Some source;
  fo_macs : ∀ ip, dv_macs d !! ip = last (omap (mac_of ip) acts);
  fo_names : ∀ ip, dv_names d !! ip = head (omap (name_of ip) acts)
}.

Lemma head_snoc {A} (l : list A) x : head (l ++ [x]) = match head l with Some y => Some y | None => Some x end.
Proof. by destruct l. Qed.

Lemma omap_snoc {A B} (f : A → option B) l a : omap f (l ++ [a]) = omap f l ++ option_list (f a).
Proof. rewrite omap_app. simpl. by destruct (f a). Qed.

(** The first thing heard stays the first. *)
Lemma head_stays {B} (f : act → option B) acts a x : head (omap f acts) = Some x → head (omap f (acts ++ [a])) = Some x.
Proof. rewrite omap_snoc. by destruct (omap f acts). Qed.

(** No source reported a host not found. *)
Lemma unheard acts ip : ip ∉ flat_map reported_host acts → omap (source_of ip) acts = [].
Proof.
  induction acts as [|a acts IH]; [done|]. change (a :: acts) with ([a] ++ acts).
  rewrite flat_map_app, omap_app, not_elem_of_app. intros [Ha Hni]. rewrite IH by done. destruct a as [ip' source []| | | |]; simpl; try done. simpl in Ha.
  rewrite bool_decide_false; [done|]. intros ->. apply Ha. in_list.
Qed.

(** An act that adds nothing. *)
Lemma found_keep d acts a :
  found_ok d acts → (∀ ip, ip ∈ reported_host a → ip ∈ dv_found d) → (∀ ip, mac_of ip a = None) →
  (∀ ip, name_of ip a = None ∨ is_Some (dv_names d !! ip)) → found_ok d (acts ++ [a]).
Proof.
  intros [H1 H2 H3 H4 H5 H6] Ha Hm Hn. split; try done.
  - intros ip. rewrite flat_map_app, elem_of_app, <- H2. simpl. rewrite app_nil_r. naive_solver.
  - intros ip source Hin. by apply head_stays, H4.
  - intros ip. by rewrite omap_snoc, Hm, app_nil_r.
  - intros ip. rewrite H6. destruct (Hn ip) as [Hno|[name Hname]]; [by rewrite omap_snoc, Hno, app_nil_r|].
    rewrite H6 in Hname. by rewrite Hname, (head_stays _ _ _ _ Hname).
Qed.

Lemma report_ok room ip source d acts : found_ok d acts → found_ok (reportHost room ip source d) (acts ++ [a_report ip source room]).
Proof.
  intros Hok. unfold reportHost. destruct (containsIp (dv_found d) ip) eqn:Hin.
  { apply containsIp_elem in Hin. apply found_keep; [done| |done|by left]. destruct room; [|by intros ? ?%not_elem_of_nil].
    by intros ip' ->%list_elem_of_singleton. }
  destruct room; [|apply found_keep; [done|by intros ? ?%not_elem_of_nil|done|by left]]. assert (ip ∉ dv_found d) as Hni.
  { intros Hx%containsIp_elem. congruence. }
  destruct Hok as [H1 H2 H3 H4 H5 H6]. split; simpl.
  - apply NoDup_app. split; [done|]. split; [by intros x Hx ->%list_elem_of_singleton|apply NoDup_singleton].
  - intros ip'. by rewrite flat_map_app, !elem_of_app, H2.
  - by rewrite fmap_app, H3.
  - intros ip' src [Hin'|[= -> ->]%list_elem_of_singleton]%elem_of_app; [by apply head_stays, H4|].
    rewrite omap_snoc, unheard; [simpl; by rewrite bool_decide_true|]. by rewrite <- H2.
  - intros ip'. by rewrite omap_snoc, app_nil_r.
  - intros ip'. by rewrite omap_snoc, app_nil_r.
Qed.

Lemma mac_ok ip mac room d acts : found_ok d acts → found_ok (recordMac room ip mac d) (acts ++ [a_mac ip mac room]).
Proof.
  intros Hok. unfold recordMac. destruct room; [|apply found_keep; [done|by intros ? ?%not_elem_of_nil|done|by left]].
  destruct Hok as [H1 H2 H3 H4 H5 H6]. split; simpl; try done.
  - intros ip'. by rewrite flat_map_app, app_nil_r.
  - intros ip' src Hin. by apply head_stays, H4.
  - intros ip'. rewrite omap_snoc. simpl. destruct (bool_decide (ip = ip')) eqn:Hip; to_prop.
    + subst. rewrite lookup_insert_eq. simpl. by rewrite last_snoc.
    + by rewrite lookup_insert_ne, app_nil_r.
  - intros ip'. by rewrite omap_snoc, app_nil_r.
Qed.

Lemma name_ok ip name er cr d acts : found_ok d acts → found_ok (put_name er cr ip name d) (acts ++ [a_name ip name er cr]).
Proof.
  intros Hok. unfold put_name.
  assert (∀ d, found_ok d acts → (∀ ip', name_of ip' (a_name ip name er cr) = None ∨ is_Some (dv_names d !! ip')) →
    found_ok d (acts ++ [a_name ip name er cr])) as Hkeep.
  { intros d' Hd' Hn. apply found_keep; [done|by intros ? ?%not_elem_of_nil|done|done]. }
  destruct er; [|apply Hkeep; [done|by left]]. simpl. destruct (dv_names d !! ip) as [old|] eqn:Hold.
  { apply Hkeep; [done|]. intros ip'. destruct cr; [|by left]. simpl.
    destruct (bool_decide (ip = ip')) eqn:Hip; to_prop; [subst; right; by eexists|by left]. }
  destruct cr; [|apply Hkeep; [done|by left]]. destruct Hok as [H1 H2 H3 H4 H5 H6]. split; simpl; try done.
  - intros ip'. by rewrite flat_map_app, app_nil_r.
  - intros ip' src Hin. by apply head_stays, H4.
  - intros ip'. by rewrite omap_snoc, app_nil_r.
  - intros ip'. rewrite omap_snoc. simpl. destruct (bool_decide (ip = ip')) eqn:Hip; to_prop.
    + subst. rewrite lookup_insert_eq. simpl. rewrite head_snoc, <- H6. by rewrite Hold.
    + by rewrite lookup_insert_ne, app_nil_r.
Qed.

Lemma perform_ok a d d' acts : found_ok d acts → perform a d = Some d' → found_ok d' (acts ++ [a]).
Proof.
  intros Hok Hp. destruct a as [ip source room|ip found|ip mac room|ip name er cr|]; simpl in Hp; simplify_eq.
  - by apply report_ok.
  - case_match; simplify_eq. apply found_keep; [done|by intros ? ?%not_elem_of_nil|done|by left].
  - by apply mac_ok.
  - by apply name_ok.
  - apply found_keep; [done|by intros ? ?%not_elem_of_nil|done|by left].
Qed.

Lemma nothing_ok : found_ok nothing_found [].
Proof.
  split; simpl; [apply NoDup_nil_2|done|done|by intros ip source ?%not_elem_of_nil|..]; intros ip; by rewrite lookup_empty.
Qed.

Lemma perform_all_ok acts : ∀ d before d', found_ok d before → perform_all acts d = Some d' → found_ok d' (before ++ acts).
Proof.
  induction acts as [|a acts IH]; intros d before d' Hok Hp; cbn [perform_all] in Hp.
  { simplify_eq. by rewrite app_nil_r. }
  destruct (perform a d) as [d1|] eqn:H1; [|done]. cbn [mbind option_bind] in Hp.
  change (a :: acts) with ([a] ++ acts). rewrite app_assoc. by eapply IH; [eapply perform_ok|].
Qed.

(** C11: The hosts found.  In whatever order the workers' operations come, each
    host is found once, and exactly those are that some worker reported while
    the list could grow; each is printed once, with the source of the first
    report of it.  The MAC kept of a host is the last recorded for it, its
    name the first. *)
Theorem found_exactly acts d : perform_all acts nothing_found = Some d → found_ok d acts.
Proof. intros Hp. by apply (perform_all_ok acts nothing_found []); [apply nothing_ok|]. Qed.

(** ** The sweep as a run *)

(** What the calls of a sweep come to. *)
Lemma sweep_calls_run cs : ∀ s s' acts,
  sweep_calls cs s = Some (s', acts) →
  hs_ips s' = hs_ips s ∧ (hs_index s ≤ hs_index s')%nat ∧
  flat_map given (map sweep_seen cs) = map host_job (take (hs_index s' - hs_index s) (drop (hs_index s) (hs_ips s))) ∧
  (sc_next false None ∈ cs → (length (hs_ips s) ≤ hs_index s')%nat) ∧
  acts = flat_map (λ c, match c with sc_done job outcome _ room => sweep_done room job outcome | _ => [] end) cs.
Proof.
  induction cs as [|c cs IH]; intros s s' acts Hr; cbn [sweep_calls] in Hr.
  { simplify_eq. rewrite Nat.sub_diag. split; [done|]. split; [done|]. split; [done|]. split; [by intros ?%not_elem_of_nil|done]. }
  destruct c as [stop r|job outcome us room].
  - unfold sweep_next in Hr. destruct (hs_ips s !! hs_index s) as [ip|] eqn:Hip; [destruct stop|].
    + case_match eqn:Hd; [|done]. to_prop. subst r. destruct (IH _ _ _ Hr) as (H1 & H2 & H3 & H4 & H5).
      split; [done|]. split; [done|]. split; [exact H3|]. split; [|exact H5]. intros [|Hin]%elem_of_cons; [done|by apply H4].
    + case_match eqn:Hd; [|done]. to_prop. subst r. destruct (IH _ _ _ Hr) as (H1 & H2 & H3 & H4 & H5). simpl in *.
      split; [done|]. split; [lia|]. split; [|split; [|exact H5]].
      * rewrite H3, (drop_S _ _ _ Hip). replace (hs_index s' - hs_index s)%nat with (S (hs_index s' - S (hs_index s))) by lia.
        done.
      * intros [|Hin]%elem_of_cons; [done|by apply H4].
    + case_match eqn:Hd; [|done]. to_prop. subst r. destruct (IH _ _ _ Hr) as (H1 & H2 & H3 & H4 & H5).
      split; [done|]. split; [done|]. split; [exact H3|]. split; [|exact H5]. intros _. apply lookup_ge_None in Hip. lia.
  - destruct (sweep_calls cs s) as [[s1 acts1]|] eqn:Hc; [|done]. cbn [mbind option_bind] in Hr. simplify_eq.
    destruct (IH _ _ _ Hc) as (H1 & H2 & H3 & H4 & H5). split; [done|]. split; [done|]. split; [exact H3|].
    split; [|by rewrite H5]. intros [|Hin]%elem_of_cons; [done|by apply H4].
Qed.

(** The verdicts are the ports the run told of. *)
Lemma sweep_told cs source : map sweep_seen cs = filter of_source source → ∀ job o us room,
  sc_done job o us room ∈ cs → job ∈ flat_map told source.
Proof.
  intros Heq job o us room Hin. rewrite told_source, <- Heq. apply list_elem_of_In, in_flat_map.
  exists (sweep_seen (sc_done job o us room)). split; [|by left]. by apply in_map, list_elem_of_In.
Qed.

Lemma sweep_given cs source : map sweep_seen cs = filter of_source source →
  flat_map given source = flat_map given (map sweep_seen cs) ∧ flat_map told source = flat_map told (map sweep_seen cs).
Proof. intros ->. split; [apply given_source|apply told_source]. Qed.

Definition calls_done (cs : list sweep_call) : list act :=
  flat_map (λ c, match c with sc_done job outcome _ room => sweep_done room job outcome | _ => [] end) cs.

(** The units counted by a list of operations. *)
Definition is_advance (a : act) : bool := match a with a_advance => true | _ => false end.

Definition counted (acts : list act) : nat := length (filter is_advance acts).

(** An IP counted for each verdict. *)
Lemma sweep_advances cs :
  counted (calls_done cs) = length (flat_map told (map sweep_seen cs)).
Proof.
  induction cs as [|c cs IH]; [done|]. unfold counted, calls_done in *. simpl. rewrite filter_app, !length_app, IH. f_equal.
  destruct c as [stop r|job o us room]; [done|]. unfold sweep_done. by destruct (bool_decide _).
Qed.

(** What the sweep's acts leave in a discovery: they read nothing. *)
Lemma sweep_performs cs d : ∃ d', perform_all (calls_done cs) d = Some d'.
Proof.
  assert (Forall (λ a, ∀ d, is_Some (perform a d)) (calls_done cs)) as Hall.
  { apply Forall_forall. unfold calls_done. intros a Ha%list_elem_of_In.
    apply in_flat_map in Ha as (c & _ & Ha). destruct c as [stop r|job o us room]; [done|]. unfold sweep_done in Ha.
    apply in_app_iff in Ha as [Ha|[<-|[]]]; [|by eexists]. destruct (bool_decide _); [done|].
    destruct Ha as [<-|[]]; by eexists. }
  revert d. induction Hall as [|a acts Ha _ IH]; intros d; [by eexists|]. destruct (Ha d) as [d1 H1].
  simpl. rewrite H1. apply IH.
Qed.

Lemma sweep_reported cs ip :
  ip ∈ flat_map reported_host (calls_done cs) ↔
  ∃ job o us, sc_done job o us true ∈ cs ∧ o ≠ filtered ∧ t_ip (j_target job) = ip.
Proof.
  unfold calls_done. rewrite list_elem_of_In, in_flat_map. split.
  - intros (a & Ha & Hip). apply in_flat_map in Ha as (c & Hc & Ha). destruct c as [stop r|job o us room]; [done|].
    unfold sweep_done in Ha. apply in_app_iff in Ha as [Ha|[<-|[]]]; [|done].
    destruct (bool_decide (o = filtered)) eqn:Ho; to_prop; [done|]. destruct Ha as [<-|[]]. destruct room; [|done].
    destruct Hip as [<-|[]]. exists job, o, us. by rewrite list_elem_of_In.
  - intros (job & o & us & Hin & Ho & <-). exists (a_report (t_ip (j_target job)) by_tcp true). split; [|by left].
    apply in_flat_map. exists (sc_done job o us true). rewrite <- list_elem_of_In. split; [done|].
    unfold sweep_done. rewrite bool_decide_false by done. by left.
Qed.

(** The calls with the stop flag not set. *)
Definition unstopped_call (c : sweep_call) : Prop := match c with sc_next stop _ => stop = false | _ => True end.

Section SweepRun.
Context {E : Type} `{Env E} `{!RlimitLaw E}.
Variables (os : platform) (job_size settled_size : Z) (fuel : nat).

(** A verdict is for a host of the list. *)
Lemma sweep_verdicts pace res ips cs source sys s acts :
  run_of (E := E) os false job_size settled_size fuel pace res source sys →
  map sweep_seen cs = filter of_source source → sweep_calls cs {| hs_ips := ips; hs_index := 0 |} = Some (s, acts) →
  ∀ job o us room, sc_done job o us room ∈ cs → ∃ ip, ip ∈ ips ∧ job = host_job ip.
Proof.
  intros Hr Heq Hc job o us room Hin. apply run_keeps_account in Hr as (_ & (left & Hbal & _) & _).
  destruct (sweep_given _ _ Heq) as [Hg _]. apply sweep_calls_run in Hc as (_ & _ & Hgive & _). rewrite <- Hg in Hgive.
  assert (job ∈ flat_map given source) as Hj.
  { rewrite (balance_total _ _ _ _ _ Hbal). apply elem_of_app. left. by eapply sweep_told. }
  rewrite Hgive in Hj. apply list_elem_of_fmap in Hj as (ip & -> & Hip). exists ip. split; [|done]. simpl in Hip.
  rewrite drop_0 in Hip. by apply elem_of_take in Hip as (i & Hip%list_elem_of_lookup_2 & _).
Qed.

(** C10: The TCP sweep.  In whatever order the run's loops ask and report, hosts
    are probed in the order of the list, each at most once, and each verdict
    is for a probed host that had none and counts one IP of the phase.  The
    hosts found are those whose connect was answered while the list could
    grow.  A sweep that ends well and is not stopped probes and counts every
    IP. *)
Theorem sweep_exact pace res ips cs source sys s acts :
  run_of (E := E) os false job_size settled_size fuel pace res source sys →
  map sweep_seen cs = filter of_source source → sweep_calls cs {| hs_ips := ips; hs_index := 0 |} = Some (s, acts) →
  flat_map given source = map host_job (take (hs_index s) ips) ∧
  (∃ left, balance given told [] source left ∧ (res = run_ok → left = [])) ∧
  counted acts = length (flat_map told source) ∧
  (∃ d, perform_all acts nothing_found = Some d ∧ NoDup (dv_found d) ∧
    ∀ ip, ip ∈ dv_found d ↔ ∃ o us, sc_done (host_job ip) o us true ∈ cs ∧ o ≠ filtered) ∧
  (res = run_ok → Forall unstopped_call cs →
    flat_map given source = map host_job ips ∧ flat_map told source ≡ₚ map host_job ips ∧
    counted acts = length ips).
Proof.
  intros Hr Heq Hc. pose proof (sweep_verdicts _ _ _ _ _ _ _ _ Hr Heq Hc) as Hverdicts. apply run_keeps_account in Hr as (_ & (left & Hbal & Hleft) & Hnone).
  destruct (sweep_given _ _ Heq) as [Hg Ht].
  apply sweep_calls_run in Hc as (_ & _ & Hgive & Hdry & ->). simpl in Hgive, Hdry. rewrite Nat.sub_0_r, drop_0, <- Hg in Hgive.
  assert (flat_map given source ≡ₚ flat_map told source ++ left) as Htotal by apply (balance_total _ _ _ _ _ Hbal).
  assert (counted (calls_done cs) = length (flat_map told source)) as Hadv
    by (rewrite Ht; apply sweep_advances).
  split; [done|]. split; [by exists left|]. split; [exact Hadv|]. split.
  { destruct (sweep_performs cs nothing_found) as [d Hd]. exists d. split; [exact Hd|].
    destruct (perform_all_ok _ _ [] _ nothing_ok Hd) as [Hn Hf _ _ _ _]. split; [done|]. intros ip. cbn [app] in Hf. rewrite Hf, sweep_reported.
    split; [|intros (o & us & Hin & Ho); by exists (host_job ip), o, us].
    intros (job & o & us & Hin & Ho & <-). exists o, us. split; [|done].
    destruct (Hverdicts _ _ _ _ Hin) as (ip & _ & ->). exact Hin. }
  intros Hok Hun. assert (sc_next false None ∈ cs) as Hin.
  { assert (Ev SourceNext None ∈ map sweep_seen cs) as Hev.
    { rewrite Heq. apply list_elem_of_filter. split; [done|by apply Hnone]. }
    apply list_elem_of_fmap in Hev as (c & Hcs & Hin). destruct c as [stop r|job o us room]; [|done].
    rewrite Forall_forall in Hun. pose proof (Hun _ Hin) as Hs. simpl in Hs, Hcs. subst stop.
    apply (f_equal given) in Hcs. destruct r; [done|exact Hin]. }
  rewrite take_ge in Hgive by by apply Hdry. rewrite (Hleft Hok), app_nil_r in Htotal. split; [done|].
  split; [by rewrite <- Htotal, Hgive|]. etrans; [exact Hadv|]. by rewrite <- Htotal, Hgive, length_map.
Qed.
End SweepRun.

(** ** Two hosts: the first refuses port 80, the second is silent *)

Definition web_hosts : list ip4 := [IP 192 168 1 7; IP 192 168 1 9].

Definition sweep_lan : script :=
  set_jobs (map host_job web_hosts) (set_queues [Ok [0; 0]] [] [] [] [Err 111; Err 115] [] [] (idle 1000)).

Definition two_calls : list sweep_call :=
  [sc_next false (Some (host_job (IP 192 168 1 7))); sc_next false (Some (host_job (IP 192 168 1 9))); sc_next false None;
   sc_done (host_job (IP 192 168 1 7)) refused 100 true; sc_done (host_job (IP 192 168 1 9)) filtered 500800 true].

Lemma sweep_exact_witness :
  ∃ source sys s acts,
    run_of (E := script) Linux false 24 40 9 fixed run_ok source sys ∧
    map sweep_seen two_calls = filter of_source source ∧
    flat_map given source = map host_job (take (hs_index s) web_hosts) ∧
    (∃ left, balance given told [] source left ∧ (run_ok = run_ok → left = [])) ∧
    counted acts = length (flat_map told source) ∧
    (∃ d, perform_all acts nothing_found = Some d ∧ NoDup (dv_found d) ∧
      ∀ ip, ip ∈ dv_found d ↔ ∃ o us, sc_done (host_job ip) o us true ∈ two_calls ∧ o ≠ filtered) ∧
    (run_ok = run_ok → Forall unstopped_call two_calls →
      flat_map given source = map host_job web_hosts ∧ flat_map told source ≡ₚ map host_job web_hosts ∧
      counted acts = length web_hosts).
Proof.
  assert (∃ source sys, run_of (E := script) Linux false 24 40 9 fixed run_ok source sys ∧
    map sweep_seen two_calls = filter of_source source) as (source & sys & Hr & Heq).
  { eexists _, _. split.
    - eapply (runs_all Linux false 24 40 9 fixed sweep_lan _ _ _ sweep_lan _ _ _ [] _ _ _ sweep_lan).
      + vm_compute. reflexivity.
      + vm_compute. congruence.
      + apply Forall_singleton. exists sweep_lan. eexists. vm_compute. reflexivity.
      + apply merged_one.
      + refine (serve_log_sound false _ _ sweep_lan _ _ _ _). vm_compute. reflexivity.
      + vm_compute. reflexivity.
    - vm_compute. reflexivity. }
  exists source, sys, {| hs_ips := web_hosts; hs_index := 2 |}, [a_report (IP 192 168 1 7) by_tcp true; a_advance; a_advance].
  split; [exact Hr|]. split; [exact Heq|].
  apply (sweep_exact Linux 24 40 9 fixed run_ok web_hosts two_calls source sys _ _ Hr Heq). vm_compute. reflexivity.
Defined.

Lemma found_exactly_witness :
  ∃ d, perform_all [a_mac (IP 192 168 1 7) [1; 2; 3; 4; 5; 6] true; a_report (IP 192 168 1 9) by_mdns true;
      a_report (IP 192 168 1 7) by_arp true; a_report (IP 192 168 1 9) by_tcp true] nothing_found = Some d ∧
    dv_found d = [IP 192 168 1 9; IP 192 168 1 7] ∧
    found_ok d [a_mac (IP 192 168 1 7) [1; 2; 3; 4; 5; 6] true; a_report (IP 192 168 1 9) by_mdns true;
      a_report (IP 192 168 1 7) by_arp true; a_report (IP 192 168 1 9) by_tcp true].
Proof.
  eexists. split; [vm_compute; reflexivity|]. split; [reflexivity|]. apply found_exactly. vm_compute. reflexivity.
Defined.

(** A table with the gateway reachable, a quiet host resolved during the scan
    and an old entry, listed twice. *)
Definition lan_entry (d : Z) (mac : Z) (state : NeighborState) : neighbor :=
  {| ne_ip := IP 192 168 1 d; ne_mac := Some [2; 0; 0; 0; 0; mac]; ne_state := state |}.

Definition lan_rounds : list round :=
  map (λ e, {| rd_entry := e; rd_found := false; rd_mac_room := true; rd_room := true |})
    [lan_entry 1 1 reachable; lan_entry 7 7 stale; lan_entry 9 9 stale; lan_entry 9 9 stale].

Lemma harvest_exact_witness :
  let known := Some [lan_entry 9 9 stale] in
  let table := map rd_entry lan_rounds in
  let lo := IP 192 168 1 1 in let hi := IP 192 168 1 254 in
  ∃ candidates acts, harvest_loop known table lo hi lan_rounds [] = (candidates, acts) ∧ candidates = [IP 192 168 1 9] ∧
    NoDup candidates ∧
    (∀ ip, ip ∈ candidates → ∃ r, r ∈ lan_rounds ∧ ip = ne_ip (rd_entry r) ∧ open_case lo hi r ∧
      fresh_entry known table lo hi (rd_entry r) = false) ∧
    (∀ r, r ∈ lan_rounds → open_case lo hi r → rd_room r = true →
      if fresh_entry known table lo hi (rd_entry r)
      then a_report (ne_ip (rd_entry r)) by_arp true ∈ acts else ne_ip (rd_entry r) ∈ candidates) ∧
    (∀ ip source room, a_report ip source room ∈ acts → source = by_arp ∧
      ∃ r, r ∈ lan_rounds ∧ ip = ne_ip (rd_entry r) ∧ open_case lo hi r ∧
        fresh_entry known table lo hi (rd_entry r) = true) ∧
    (∀ r mac, r ∈ lan_rounds → ne_mac (rd_entry r) = Some mac → a_mac (ne_ip (rd_entry r)) mac (rd_mac_room r) ∈ acts).
Proof.
  intros known table lo hi. eexists _, _. split; [vm_compute; reflexivity|]. split; [reflexivity|].
  apply (harvest_exact known table lo hi lan_rounds). vm_compute. reflexivity.
Defined.
