(* ===== verification/Warnings.v ===== *)
(** * The lines a scan writes to stderr

    scanner.zig and neighbor_table.zig print what went wrong without ending
    the scan with std.debug.print, one line each.  Which of them a scan
    prints is said where it goes wrong (NeighborTable.v, Harvest.v, Scan.v);
    here are their texts. *)
From Stdlib Require Import String.
From S2P Require Import Prelude Words Decimal.
Open Scope Z_scope.

Inductive warning :=
| w_no_answer (why : list Z)             (* neighbor_table.zig, awaitReply *)
| w_unreadable
| w_no_table                             (* readNeighbors *)
| w_table_empty
| w_sweep_stopped                        (* sweepHosts *)
| w_sweep_skipped (why : list Z)
| w_arp_skipped (why : list Z)           (* harvestArp *)
| w_oui_file (path why : list Z).        (* collectDetails *)

(** An error printed with {}: its name after [error.]; with @errorName, the
    name alone. *)
Definition warning_line (w : warning) : list Z :=
  match w with
  | w_no_answer why => text "neighbor table: no answer from the parent (" ++ why ++ text "); reading it directly"
  | w_unreadable => text "neighbor table: unreadable answer from the parent; reading it directly"
  | w_no_table => text "arp harvest skipped: cannot read the neighbor table"
  | w_table_empty =>
    text "arp table is empty: macOS hides it unless ns is codesigned with an "
      ++ text "identifier (`zig build` on a Mac does this) and launched directly from a shell; "
      ++ text "MAC addresses, manufacturers and quiet hosts will be missing"
  | w_sweep_stopped => text "tcp sweep stopped: out of sockets; hosts it did not reach may be missing"
  | w_sweep_skipped why => text "tcp sweep skipped: error." ++ why
  | w_arp_skipped why => text "arp check skipped: error." ++ why
  | w_oui_file path why => text "warning: failed to load oui file '" ++ path ++ text "': error." ++ why
  end ++ [10].

(** What is on stderr after them. *)
Definition warnings (ws : list warning) : list Z := concat (map warning_line ws).
