(* ===== verification/NeighborTable.v ===== *)
(** * neighbor_table.zig: the neighbour table from the parent process

    [Parent.request] asks on stdout and reads lines from a pipe until one
    answers.  What the pipe does is a list of [arrival]s, each so many
    milliseconds after the one before; a poll whose timeout is shorter sees
    nothing of it.  Decoding a line as JSON is std.json's, a parameter
    ([parse_message]); everything done with what it gives is here. *)
From stdpp Require Import countable gmap.
From Stdlib Require Import String.
From S2P Require Import Prelude Words Decimal Text Ranges Sys Script NeighborList Netlink Neighbors Discovery Warnings.
Open Scope Z_scope.

Definition default_timeout_ms : Z := 2000.
Definition max_reply_bytes : Z := 16 * 1024 * 1024.

Record Parent := { pa_timeout_ms : Z; pa_next_id : Z; pa_gave_up : bool; pa_pending : list Z }.

Definition new_parent : Parent := {| pa_timeout_ms := default_timeout_ms; pa_next_id := 1; pa_gave_up := false; pa_pending := [] |}.

(** What makes a poll return: nothing ever; an error of the poll; after so
    long, data (none at the end of the stream), and whether [pending] can grow
    by it, or an error of the read. *)
Inductive arrival :=
| silence
| poll_error
| arrives (after_ms : Z) (data : list Z) (room : bool)
| read_error (after_ms : Z).

(** var chunk: [64 * 1024]u8 *)
Definition CHUNK : Z := 64 * 1024.

(** poll: [None] when the timeout passes first; the time it took and what is
    left to come. *)
Definition poll (timeout_ms : Z) (a : arrival) : option arrival * Z :=
  match a with
  | silence => (None, timeout_ms)
  | poll_error => (Some a, 0)
  | arrives after_ms data room =>
    if after_ms <=? timeout_ms then (Some a, after_ms) else (None, timeout_ms)
  | read_error after_ms => if after_ms <=? timeout_ms then (Some a, after_ms) else (None, timeout_ms)
  end.

Definition later (ms : Z) (a : arrival) : arrival :=
  match a with
  | arrives after_ms data room => arrives (after_ms - ms) data room
  | read_error after_ms => read_error (after_ms - ms)
  | a => a
  end.

Inductive line_error := Unsupported | LineOutOfMemory | ReplyTooLarge | Timeout | PollFailed | ReadFailed | EndOfStream.

(** [line_waiting]: the arrivals are over and nothing came of them yet. *)
Inductive line_result := line_ok (line : list Z) | line_failed (why : line_error) | line_waiting.

(** std.mem.indexOfScalarPos *)
Definition index_from (c : Z) (s : list Z) (start : nat) : option nat :=
  (λ x, start + x.1)%nat <$> list_find (λ x, x = c) (drop start s).

Definition NEWLINE : Z := 10.

(** The loop of readLine, where it stopped searching: the line, what is left
    pending, the arrivals not used and the time waited. *)
Fixpoint read_line (room : bool) (timeout_ms : Z) (arrivals : list arrival) (pending : list Z) (searched : nat) (waited : Z)
    : line_result * list Z * list arrival * Z :=
  match index_from NEWLINE pending searched with
  | Some line_end =>
    if room then (line_ok (take line_end pending), drop (S line_end) pending, arrivals, waited)
    else (line_failed LineOutOfMemory, pending, arrivals, waited)
  | None =>
    if Z.of_nat (length pending) >? max_reply_bytes then (line_failed ReplyTooLarge, pending, arrivals, waited)
    else
      match arrivals with
      | [] => (line_waiting, pending, [], waited)
      | a :: arrivals =>
        let '(ready, took) := poll timeout_ms a in
        let waited := waited + took in
        match ready with
        | None | Some silence => (line_failed Timeout, pending, later took a :: arrivals, waited)
        | Some poll_error => (line_failed PollFailed, pending, arrivals, waited)
        | Some (read_error _) => (line_failed ReadFailed, pending, arrivals, waited)
        | Some (arrives _ data data_room) =>
          if bool_decide (data = []) then (line_failed EndOfStream, pending, arrivals, waited)
          else if data_room then read_line room timeout_ms arrivals (pending ++ data) (length pending) waited
          else (line_failed LineOutOfMemory, pending, arrivals, waited)
        end
      end
  end.

(** [room]: there is memory for a copy of the line *)
Definition readLine (os : platform) (room : bool) (timeout_ms : Z) (arrivals : list arrival) (pending : list Z)
    : line_result * list Z * list arrival * Z :=
  match os with
  | Windows => (line_failed Unsupported, pending, arrivals, 0)
  | _ => read_line room timeout_ms arrivals pending 0 0
  end.

(** ** Replies *)

Record Entry := { en_ip : list Z; en_mac : option (list Z); en_state : option (list Z) }.

Record Message := {
  me_type : list Z;
  me_id : Z;
  me_entries : option (list Entry);
  me_error : option (list Z)
}.

Inductive Reply := reply_table (table : list neighbor) | reply_failed | reply_earlier.

Inductive reply_error := InvalidReply | ReplyOutOfMemory.

(** "neighbors", "reachable" *)
Definition NEIGHBORS : list Z := [110; 101; 105; 103; 104; 98; 111; 114; 115].
Definition REACHABLE : list Z := [114; 101; 97; 99; 104; 97; 98; 108; 101].

(** One round of the loop over the entries *)
Definition keep_entry (e : Entry) : option neighbor :=
  match ipStringToBytes (en_ip e) with
  | inl _ => None
  | inr ip =>
    if (ip_a ip =? 0) || (ip_a ip >=? 224) then None
    else
      let entry mac :=
        if bool_decide (mac = Some BROADCAST_MAC) then None
        else
          Some {| ne_ip := ip; ne_mac := mac;
                  ne_state := if bool_decide (en_state e = Some REACHABLE) then reachable else stale |} in
      match en_mac e with
      | None => entry None
      | Some text => match parseMac text with None => None | Some mac => entry (Some mac) end
      end
  end.

Section Conversation.
(** std.json.parseFromSlice, its errors of the text told apart from a lack of
    memory *)
Variable parse_message : list Z → reply_error + Message.

(** [room]: there is memory for the table *)
Definition parseReply (room : bool) (line : list Z) (id : Z) : reply_error + Reply :=
  match parse_message line with
  | inl why => inl why
  | inr message =>
    if negb (bool_decide (me_type message = NEIGHBORS)) then inl InvalidReply
    else if me_id message <? id then inr reply_earlier
    else if negb (me_id message =? id) then inl InvalidReply
    else if bool_decide (me_error message ≠ None) then inr reply_failed
    else
      match me_entries message with
      | None => inl InvalidReply
      | Some entries => if room then inr (reply_table (omap keep_entry entries)) else inl ReplyOutOfMemory
      end
  end.

(** What an answer comes to: [None] is no table; the parent, the arrivals not
    used and the time waited. *)
Definition answer_of : Type := option (list neighbor) * Parent * list arrival * Z.

Definition set_pending (pending : list Z) (gave_up : bool) (self : Parent) : Parent :=
  {| pa_timeout_ms := pa_timeout_ms self; pa_next_id := pa_next_id self; pa_gave_up := gave_up; pa_pending := pending |}.

(** The loop of awaitReply, so long after its start.  [None]: out of fuel;
    [inr]: the arrivals are over and it still waits. *)
Fixpoint await (fuel : nat) (os : platform) (rooms : nat → bool * bool) (arrivals : list arrival) (self : Parent) (id waited : Z)
    : option (answer_of + unit) :=
  match fuel with
  | O => None
  | S fuel =>
    let left_ms := pa_timeout_ms self - waited in
    match readLine os (rooms fuel).1 (Z.max left_ms 0) arrivals (pa_pending self) with
    | (line_waiting, _, _, _) => Some (inr ())
    | (line_failed _, pending, arrivals, took) => Some (inl (None, set_pending pending true self, arrivals, waited + took))
    | (line_ok line, pending, arrivals, took) =>
      let self := set_pending pending (pa_gave_up self) self in
      match parseReply (rooms fuel).2 line id with
      | inl _ => Some (inl (None, self, arrivals, waited + took))
      | inr (reply_table table) => Some (inl (Some table, self, arrivals, waited + took))
      | inr reply_failed => Some (inl (None, self, arrivals, waited + took))
      | inr reply_earlier => await fuel os rooms arrivals self id (waited + took)
      end
    end
  end.

Definition awaitReply (fuel : nat) (os : platform) (rooms : nat → bool * bool) (arrivals : list arrival) (self : Parent) (id : Z)
    : option (answer_of + unit) := await fuel os rooms arrivals self id 0.

(** The answer, and whether a request was printed.  [None]: the id does not
    fit its type, or out of fuel. *)
Definition request (fuel : nat) (os : platform) (rooms : nat → bool * bool) (arrivals : list arrival) (self : Parent)
    : option ((answer_of + unit) * bool) :=
  if pa_gave_up self then Some (inl (None, self, arrivals, 0), false)
  else
    let id := pa_next_id self in
    next_id ← zu32 (id + 1);
    let self := {| pa_timeout_ms := pa_timeout_ms self; pa_next_id := next_id; pa_gave_up := pa_gave_up self;
                   pa_pending := pa_pending self |} in
    answer ← awaitReply fuel os rooms arrivals self id;
    Some (answer, true).

(** The id a request prints, if one is made. *)
Definition asked (parent : option Parent) : option Z :=
  match parent with Some self => if pa_gave_up self then None else Some (pa_next_id self) | None => None end.

(** @errorName of readLine's error; std's own errors of poll and read are
    [sys]. *)
Definition line_error_name (sys : list Z) (why : line_error) : list Z :=
  match why with
  | Unsupported => text "Unsupported"
  | LineOutOfMemory => text "OutOfMemory"
  | ReplyTooLarge => text "ReplyTooLarge"
  | Timeout => text "Timeout"
  | EndOfStream => text "EndOfStream"
  | PollFailed | ReadFailed => sys
  end.

(** What awaitReply writes to stderr: its two catches. *)
Fixpoint await_says (sys : list Z) (fuel : nat) (os : platform) (rooms : nat → bool * bool) (arrivals : list arrival) (self : Parent) (id waited : Z)
    : list warning :=
  match fuel with
  | O => []
  | S fuel =>
    let left_ms := pa_timeout_ms self - waited in
    match readLine os (rooms fuel).1 (Z.max left_ms 0) arrivals (pa_pending self) with
    | (line_waiting, _, _, _) => []
    | (line_failed why, _, _, _) => [w_no_answer (line_error_name sys why)]
    | (line_ok line, pending, arrivals, took) =>
      match parseReply (rooms fuel).2 line id with
      | inl _ => [w_unreadable]
      | inr reply_earlier => await_says sys fuel os rooms arrivals (set_pending pending (pa_gave_up self) self) id (waited + took)
      | inr _ => []
      end
    end
  end.

Definition request_says (sys : list Z) (fuel : nat) (os : platform) (rooms : nat → bool * bool) (arrivals : list arrival) (self : Parent) : list warning :=
  if pa_gave_up self then []
  else
    match zu32 (pa_next_id self + 1) with
    | None => []
    | Some next_id =>
      await_says sys fuel os rooms arrivals {| pa_timeout_ms := pa_timeout_ms self; pa_next_id := next_id; pa_gave_up := pa_gave_up self;
                   pa_pending := pa_pending self |} (pa_next_id self) 0
    end.

(** It gives up exactly when it says that there is no answer. *)
Lemma await_says_gave_up sys fuel os rooms : ∀ arrivals self id waited table self' rest took,
  await fuel os rooms arrivals self id waited = Some (inl (table, self', rest, took)) → pa_gave_up self = false →
  (pa_gave_up self' = true ↔ ∃ why, await_says sys fuel os rooms arrivals self id waited = [w_no_answer why]) ∧
  (is_Some table → await_says sys fuel os rooms arrivals self id waited = []).
Proof.
  induction fuel as [|fuel IH]; intros arrivals self id waited table self' rest took Ha Hg; [done|]. cbn [await await_says] in *.
  destruct (readLine _ _ _ _ _) as [[[[line|why|] pending] arrivals'] took'].
  - rewrite Hg in *. destruct (parseReply _ line id) as [|[table'| |]]; simplify_eq/=.
    + split; [split; [done|by intros (? & ?)]|by intros []].
    + split; [split; [done|by intros (? & ?)]|done].
    + split; [split; [done|by intros (? & ?)]|done].
    + by eapply IH.
  - simplify_eq/=. split; [split; [eauto|done]|by intros []].
  - done.
Qed.
End Conversation.

(** ** Reading the table *)

Section Reading.
Context {E : Type} `{Env E}.

(** [None]: dump_neighbors read past what it received; [Some None] is null.
    [room]: there is memory for the table. *)
Definition dumpNeighbors (fuel : nat) (os : platform) (room : bool) : M E (option (option (list neighbor))) :=
  res ← dump_neighbors fuel os false;
  match res with
  | DumpOverRead _ => mret None
  | DumpFailed => mret (Some None)
  | Dumped rows entries =>
    let neighbors := if room then Some (neighbor_of <$> entries) else None in
    free_neighbors rows;; mret (Some neighbors)
  end.

(** What a reading comes to: the table, null when it cannot be read, and
    where it is from; [reading_past] and [reading_on] if reading does not
    come to an end. *)
Inductive reading := read_from (parent : bool) (table : option (list neighbor)) | reading_past | reading_on.

Variable parse_message : list Z → reply_error + Message.

(** The reading, and the parent and its arrivals after it *)
Definition readNeighbors (request_fuel fuel : nat) (os : platform) (rooms : nat → bool * bool) (room : bool)
    (arrivals : list arrival) (neighbor_parent : option Parent) : M E (reading * option Parent * list arrival) :=
  let direct parent arrivals :=
    dumped ← dumpNeighbors fuel os room;
    match dumped with
    | None => mret (reading_past, parent, arrivals)
    | Some table => mret (read_from false table, parent, arrivals)
    end in
  match neighbor_parent with
  | None => direct None arrivals
  | Some parent =>
    match request parse_message request_fuel os rooms arrivals parent with
    | None => λ _, None
    | Some (inr _, _) => mret (reading_on, Some parent, [])
    | Some (inl (Some table, parent, arrivals, _), _) => mret (read_from true (Some table), Some parent, arrivals)
    | Some (inl (None, parent, arrivals, _), _) => direct (Some parent) arrivals
    end
  end.

(** What a reading writes to stderr, [quiet] or not: [from] and [table] are
    what it came to. *)
Definition reading_says (quiet : bool) (sys : list Z) (request_fuel : nat) (os : platform) (rooms : nat → bool * bool)
    (arrivals : list arrival) (neighbor_parent : option Parent) (from : bool) (table : option (list neighbor)) : list warning :=
  match neighbor_parent with Some parent => request_says parse_message sys request_fuel os rooms arrivals parent | None => [] end ++
  if from || quiet then []
  else match table with
       | None => [w_no_table]
       | Some [] => if bool_decide (os = MacOS) then [w_table_empty] else []
       | Some _ => []
       end.
End Reading.

(** ** A line *)

Lemma index_from_some c s start i :
  index_from c s start = Some i ↔ (start ≤ i)%nat ∧ s !! i = Some c ∧ c ∉ drop start (take i s).
Proof.
  unfold index_from. rewrite fmap_Some. split.
  - intros ([j x] & Hf & ->). apply list_find_Some in Hf as (Hj & -> & Hno). simpl. rewrite lookup_drop in Hj.
    split; [lia|]. split; [done|]. intros Hin. apply list_elem_of_lookup in Hin as [k Hk]. rewrite lookup_drop in Hk.
    apply lookup_take_Some in Hk as [Hk Hlt]. apply (Hno k c); [by rewrite lookup_drop|lia|done].
  - intros (Hle & Hi & Hno). exists ((i - start)%nat, c). split; [|simpl; lia]. apply list_find_Some. split; [|split; [done|]].
    + rewrite lookup_drop. by replace (start + (i - start))%nat with i by lia.
    + intros j y Hj Hlt ->. apply Hno. apply list_elem_of_lookup. exists j. rewrite lookup_drop in *.
      apply lookup_take_Some. split; [done|lia].
Qed.

Lemma index_from_none c s start : index_from c s start = None ↔ c ∉ drop start s.
Proof.
  unfold index_from. rewrite fmap_None, list_find_None. split.
  - intros Hall Hin. rewrite Forall_forall in Hall. by apply (Hall c).
  - intros Hno. apply Forall_forall. intros x Hin ->. done.
Qed.

(** Where the last search stopped does not matter: the same as from the
    start. *)
Lemma index_from_skip c s start : c ∉ take start s → index_from c s start = index_from c s 0.
Proof.
  intros Hno. destruct (index_from c s start) as [i|] eqn:Hi; symmetry.
  - apply index_from_some in Hi as (Hle & Hc & Hn). apply index_from_some. split; [lia|]. split; [done|].
    rewrite drop_0. intros Hin. destruct (decide (c ∈ drop start (take i s))) as [|_]; [done|].
    rewrite <- (take_drop start (take i s)), take_take, Nat.min_l in Hin by lia. by apply elem_of_app in Hin as [|].
  - apply index_from_none in Hi. apply index_from_none. rewrite drop_0, <- (take_drop start s). by intros [|]%elem_of_app.
Qed.

Definition bytes_of (arrivals : list arrival) : list Z :=
  flat_map (λ a, match a with arrives _ data _ => data | _ => [] end) arrivals.

(** Time does not go back, and a read fills at most its chunk. *)
Definition arrival_ok (a : arrival) : Prop :=
  match a with
  | arrives after_ms data _ => 0 <= after_ms ∧ Z.of_nat (length data) <= CHUNK
  | read_error after_ms => 0 <= after_ms
  | _ => True
  end.

(** What reading a line comes to: the arrivals it [used], those left, and
    what is pending of what came. *)
Definition line_read (pending : list Z) (used unused : list arrival) (res : line_result) (pending' : list Z) (rest : list arrival) : Prop :=
  match res with
  | line_ok line => rest = unused ∧ pending ++ bytes_of used = line ++ NEWLINE :: pending' ∧ NEWLINE ∉ line
  | line_waiting => rest = unused ∧ pending' = pending ++ bytes_of used ∧ NEWLINE ∉ pending'
  | line_failed _ => True
  end.

Lemma poll_took timeout a ready took :
  0 <= timeout → arrival_ok a → poll timeout a = (ready, took) →
  0 <= took <= timeout ∧ arrival_ok (later took a) ∧ match ready with Some a' => a' = a | None => True end.
Proof.
  intros Ht Ha Hp. destruct a as [| |after data room|after]; simpl in *; [|simplify_eq; split; [lia|done]|..].
  - by simplify_eq.
  - destruct (after <=? timeout) eqn:Hle; simplify_eq; to_prop; (split; [lia|]); (split; [lia|done]).
  - destruct (after <=? timeout) eqn:Hle; simplify_eq; to_prop; (split; [lia|]); (split; [lia|done]).
Qed.

Lemma read_line_run room timeout arrivals : ∀ pending searched waited res pending' rest waited',
  0 <= timeout → Forall arrival_ok arrivals → NEWLINE ∉ take searched pending →
  Z.of_nat (length pending) <= max_reply_bytes + CHUNK →
  read_line room timeout arrivals pending searched waited = (res, pending', rest, waited') →
  ∃ used unused, arrivals = used ++ unused ∧ waited <= waited' <= waited + Z.of_nat (length used) * timeout ∧
    Forall arrival_ok rest ∧ Z.of_nat (length pending') <= max_reply_bytes + CHUNK ∧
    line_read pending used unused res pending' rest.
Proof.
  induction arrivals as [|a arrivals IH]; intros pending searched waited res pending' rest waited' Ht Hok Hno Hlen Hr; simpl in Hr;
    rewrite index_from_skip in Hr by done; destruct (index_from NEWLINE pending 0) as [i|] eqn:Hi.
  1,3: eexists [], _; apply index_from_some in Hi as (_ & Hi & Hn); rewrite drop_0 in Hn; (split; [reflexivity|]);
    destruct room; simplify_eq; (split; [simpl; lia|]); (split; [done|]); (split; [rewrite ?length_drop; lia|]); [|done];
    unfold line_read, bytes_of; simpl; rewrite app_nil_r; by rewrite take_drop_middle.
  all: apply index_from_none in Hi; rewrite drop_0 in Hi.
  - exists [], []. split; [done|]. destruct (_ >? _); simplify_eq; (split; [simpl; lia|]); (split; [done|]); (split; [done|]); [done|].
    unfold line_read, bytes_of. simpl. by rewrite app_nil_r.
  - destruct (_ >? _) eqn:Hg.
    { simplify_eq. exists [], (a :: arrivals). split; [done|]. split; [simpl; lia|done]. }
    rewrite Z.gtb_ltb in Hg. apply Z.ltb_ge in Hg. pose proof Hok as [Ha Hoks]%Forall_cons.
    destruct (poll timeout a) as [ready took] eqn:Hp. destruct (poll_took _ _ _ _ Ht Ha Hp) as (Htook & Hlater & Hready).
    assert (∀ rest', Forall arrival_ok rest' → ∀ why, (line_failed why, pending, rest', waited + took) = (res, pending', rest, waited') →
      ∃ used unused, a :: arrivals = used ++ unused ∧ waited <= waited' <= waited + Z.of_nat (length used) * timeout ∧
        Forall arrival_ok rest ∧ Z.of_nat (length pending') <= max_reply_bytes + CHUNK ∧
        line_read pending used unused res pending' rest) as Hfail.
    { intros rest' Hrest why [= <- <- <- <-]. exists [a], arrivals. split; [done|]. split; [cbn [length]; lia|done]. }
    destruct ready as [a'|]; [|eapply Hfail; [|exact Hr]; by constructor].
    subst a'. destruct a as [| |after data data_room|after]; try (eapply Hfail; [|exact Hr]; by try constructor).
    case_bool_decide; [by eapply Hfail|]. destruct data_room; [|by eapply Hfail].
    apply IH in Hr as (used & unused & -> & Hw & Hrest & Hlen' & Hl); [|done|done|by rewrite take_app_length|rewrite length_app; simpl in Ha; lia].
    exists (arrives after data true :: used), unused. split; [done|]. split; [cbn [length]; lia|]. split; [done|]. split; [done|].
    destruct res; simpl in *; [by rewrite <- app_assoc in Hl|done|by rewrite <- app_assoc in Hl].
Qed.

Lemma readLine_run os room timeout arrivals pending res pending' rest waited :
  0 <= timeout → Forall arrival_ok arrivals → Z.of_nat (length pending) <= max_reply_bytes + CHUNK →
  readLine os room timeout arrivals pending = (res, pending', rest, waited) →
  ∃ used unused, arrivals = used ++ unused ∧ 0 <= waited <= Z.of_nat (length used) * timeout ∧ Forall arrival_ok rest ∧
    Z.of_nat (length pending') <= max_reply_bytes + CHUNK ∧ line_read pending used unused res pending' rest.
Proof.
  intros Ht Hok Hlen Hr. unfold readLine in Hr. destruct os.
  1,2: by apply read_line_run in Hr; [|done..|apply not_elem_of_nil|done].
  simplify_eq. exists [], rest. split; [done|]. split; [simpl; lia|done].
Qed.

(** Reading a line.  Whatever pieces it comes in, what is handed out is the
    bytes up to the first newline, and what came after it is kept for the next
    line; the buffer stays within the limit and one chunk, and each piece
    takes at most the timeout. *)
Theorem readLine_reads os room timeout arrivals pending res pending' rest waited :
  0 <= timeout → Forall arrival_ok arrivals → Z.of_nat (length pending) <= max_reply_bytes + CHUNK →
  readLine os room timeout arrivals pending = (res, pending', rest, waited) →
  ∃ used unused, arrivals = used ++ unused ∧ 0 <= waited <= Z.of_nat (length used) * timeout ∧
    Z.of_nat (length pending') <= max_reply_bytes + CHUNK ∧ line_read pending used unused res pending' rest.
Proof.
  intros Ht Hok Hlen Hr. destruct (readLine_run _ _ _ _ _ _ _ _ _ Ht Hok Hlen Hr) as (used & unused & ? & ? & _ & ? & ?).
  by exists used, unused.
Qed.

Lemma no_newline start m : NEWLINE ∉ drop start (replicate m 32).
Proof. rewrite drop_replicate. by intros [? _]%elem_of_replicate. Qed.

Lemma trickle n timeout : ∀ m searched waited,
  Z.of_nat (m + n) <= max_reply_bytes →
  read_line true timeout (replicate n (arrives timeout [32] true)) (replicate m 32) searched waited =
    (line_waiting, replicate (m + n) 32, [], waited + Z.of_nat n * timeout).
Proof.
  induction n as [|n IH]; intros m searched waited Hm; simpl; rewrite (proj2 (index_from_none _ _ _)) by apply no_newline;
    rewrite length_replicate; destruct (_ >? _) eqn:Hg; try (rewrite Z.gtb_ltb in Hg; to_prop; lia).
  - by rewrite Nat.add_0_r, Z.add_0_r.
  - rewrite Z.leb_refl, bool_decide_eq_false_2 by done. change [32] with (replicate 1 32).
    rewrite <- replicate_add, IH by lia. replace (m + 1 + n)%nat with (m + S n)%nat by lia. f_equal. lia.
Qed.

(** A parent that trickles.  The deadline of a line is that of each of its
    pieces: a parent that sends a byte as every timeout ends keeps readLine
    waiting for as many timeouts as there are bytes. *)
Theorem slow_parent n timeout :
  Z.of_nat n <= max_reply_bytes →
  readLine MacOS true timeout (replicate n (arrives timeout [32] true)) [] =
    (line_waiting, replicate n 32, [], Z.of_nat n * timeout).
Proof. intros Hn. apply (trickle n timeout 0 0 0). simpl. lia. Qed.

(** ** A reply *)

(** The row the kernel's reader would have been given. *)
Definition kernel_row (e : Entry) : option (ip4 * option (list Z) * Z) :=
  match ipStringToBytes (en_ip e) with
  | inl _ => None
  | inr ip =>
    let state := if bool_decide (en_state e = Some REACHABLE) then NS_NEIGH_REACHABLE else NS_NEIGH_STALE in
    match en_mac e with
    | None => Some (ip, None, state)
    | Some text => mac ← parseMac text; Some (ip, Some mac, state)
    end
  end.

(** What list_add and dumpNeighbors make of it. *)
Definition kernel_keeps (row : ip4 * option (list Z) * Z) : option neighbor :=
  let '(ip, mac, state) := row in
  if skipped ip mac 6 then None else Some (neighbor_of (entry_of ip mac 6 state)).

Lemma keep_entry_kernel e : keep_entry e = kernel_row e ≫= kernel_keeps.
Proof.
  unfold keep_entry, kernel_row. destruct (ipStringToBytes (en_ip e)) as [|ip]; [done|].
  destruct (en_mac e) as [text|]; [destruct (parseMac text) as [mac|] eqn:Hm|]; cbn [mbind option_bind kernel_keeps].
  - apply parseMac_exact in Hm as [Hlen _]. unfold skipped, has_mac. simpl. rewrite take_ge by lia.
    rewrite (orb_comm (ip_a ip =? 0)). destruct (_ || _); [done|]. simpl.
    destruct (decide (mac = BROADCAST_MAC)) as [->|Hne]; [done|].
    rewrite (bool_decide_eq_false_2 (mac = BROADCAST_MAC)), (bool_decide_eq_false_2 (Some mac = Some BROADCAST_MAC)) by congruence.
    unfold neighbor_of, entry_of, has_mac. simpl. rewrite take_ge by lia. by case_bool_decide.
  - by destruct (_ || _).
  - unfold skipped, has_mac. simpl. rewrite (orb_comm (ip_a ip =? 0)), orb_false_r. destruct (_ || _); [done|].
    unfold neighbor_of, entry_of, has_mac. simpl. by case_bool_decide.
Qed.

Section Answers.
Variable parse_message : list Z → reply_error + Message.


(** A line that answers request [id] with a table. *)
Definition answers (line : list Z) (id : Z) (table : list neighbor) : Prop :=
  ∃ message entries, parse_message line = inr message ∧ me_type message = NEIGHBORS ∧ me_id message = id ∧
    me_error message = None ∧ me_entries message = Some entries ∧
    table = omap (λ e, kernel_row e ≫= kernel_keeps) entries.

(** A line that answers a request before [id]. *)
Definition answers_earlier (id : Z) (line : list Z) : Prop :=
  ∃ message, parse_message line = inr message ∧ me_type message = NEIGHBORS ∧ me_id message < id.

Lemma parseReply_spec room line id :
  match parseReply parse_message room line id with
  | inr (reply_table table) => answers line id table
  | inr reply_earlier => answers_earlier id line
  | inr reply_failed => ∃ message, parse_message line = inr message ∧ me_id message = id ∧ me_error message ≠ None
  | inl _ => True
  end.
Proof.
  unfold parseReply. destruct (parse_message line) as [|message] eqn:Hp; [done|].
  case_bool_decide as Ht; simpl; [|done]. destruct (_ <? _) eqn:Hlt; [to_prop; by exists message|].
  destruct (_ =? _) eqn:Heq; simpl; [|done]. to_prop. case_bool_decide as He; [by exists message|].
  destruct (me_entries message) as [entries|] eqn:Hen; [|done]. destruct room; [|done].
  exists message, entries. split; [done|]. split; [done|]. split; [done|].
  split; [by destruct (me_error message); [destruct He|]|]. split; [done|].
  apply list_omap_ext, Forall_Forall2_diag, Forall_forall. intros e _. apply keep_entry_kernel.
Qed.

Lemma parseReply_earlier room line id : answers_earlier id line → parseReply parse_message room line id = inr reply_earlier.
Proof.
  intros (message & Hp & Ht & Hid). unfold parseReply.
  by rewrite Hp, bool_decide_eq_true_2, (proj2 (Z.ltb_lt _ _)).
Qed.

Lemma parseReply_table line id table : answers line id table → parseReply parse_message true line id = inr (reply_table table).
Proof.
  intros (message & entries & Hp & Ht & Hid & He & Hen & ->). unfold parseReply.
  rewrite Hp, bool_decide_eq_true_2, (proj2 (Z.ltb_ge _ _)), (proj2 (Z.eqb_eq _ _)), He, Hen by (done || lia). simpl.
  do 2 f_equal. apply list_omap_ext, Forall_Forall2_diag, Forall_forall. intros e _. apply keep_entry_kernel.
Qed.

(** The bytes of some lines, each with its newline *)
Definition lines_bytes (lines : list (list Z)) : list Z := flat_map (λ line, line ++ [NEWLINE]) lines.

(** What an answer comes to: the lines before it answered earlier requests;
    a table is from a line that has this request's id; without one the parent
    was given up, or a line came that could not be used. *)
Definition answered (pending : list Z) (used unused : list arrival) (rooms : nat → bool * bool) (id : Z) (self : Parent) (since : Z) (a : answer_of) (earlier : list (list Z)) : Prop :=
  let '(table, self', rest, waited) := a in
  pa_timeout_ms self' = pa_timeout_ms self ∧ pa_next_id self' = pa_next_id self ∧
  since <= waited <= since + Z.of_nat (length used) * pa_timeout_ms self ∧
  Z.of_nat (length (pa_pending self')) <= max_reply_bytes + CHUNK ∧
  match table with
  | Some table =>
    rest = unused ∧ pa_gave_up self' = pa_gave_up self ∧
    ∃ line, NEWLINE ∉ line ∧ answers line id table ∧
      pending ++ bytes_of used = lines_bytes (earlier ++ [line]) ++ pa_pending self'
  | None =>
    pa_gave_up self' = true ∨
    (rest = unused ∧ pa_gave_up self' = pa_gave_up self ∧
     ∃ line, NEWLINE ∉ line ∧ ¬ answers_earlier id line ∧ ((∀ n, (rooms n).2 = true) → ∀ table, ¬ answers line id table) ∧
       pending ++ bytes_of used = lines_bytes (earlier ++ [line]) ++ pa_pending self')
  end.

(** Or the arrivals are over and it still waits. *)
Definition awaited (pending : list Z) (used unused : list arrival) (rooms : nat → bool * bool) (id : Z) (self : Parent) (since : Z)
    (out : answer_of + unit) (earlier : list (list Z)) : Prop :=
  match out with
  | inl a => answered pending used unused rooms id self since a earlier
  | inr _ => unused = []
  end.

Lemma lines_bytes_cons line lines : lines_bytes (line :: lines) = line ++ NEWLINE :: lines_bytes lines.
Proof. unfold lines_bytes. simpl. by rewrite <- app_assoc. Qed.

Lemma lines_bytes_one line rest : lines_bytes ([] ++ [line]) ++ rest = line ++ NEWLINE :: rest.
Proof. unfold lines_bytes. simpl. by rewrite app_nil_r, <- app_assoc. Qed.

Lemma bytes_of_app a b : bytes_of (a ++ b) = bytes_of a ++ bytes_of b.
Proof. apply flat_map_app. Qed.

(** A line that answered an earlier request, before the rest. *)
Lemma awaited_cons pending pending' used used' unused rooms id self since since' line out earlier :
  pending ++ bytes_of used = line ++ NEWLINE :: pending' →
  since <= since' <= since + Z.of_nat (length used) * pa_timeout_ms self →
  awaited pending' used' unused rooms id self since' out earlier →
  awaited pending (used ++ used') unused rooms id self since out (line :: earlier).
Proof.
  intros Hline Hsince. destruct out as [[[[table self'] rest] waited]|[]]; simpl; [|done].
  intros (? & ? & Hw & ? & Ht). split; [done|]. split; [done|]. split; [rewrite length_app, Nat2Z.inj_add; lia|]. split; [done|].
  assert (∀ last, pending' ++ bytes_of used' = lines_bytes (earlier ++ [last]) ++ pa_pending self' →
    pending ++ bytes_of (used ++ used') = lines_bytes ((line :: earlier) ++ [last]) ++ pa_pending self') as Hbytes.
  { intros last Hb. rewrite bytes_of_app, app_assoc, Hline. cbn [app]. rewrite lines_bytes_cons, <- !app_assoc. cbn [app]. by rewrite Hb. }
  destruct table; [naive_solver|]. destruct Ht as [?|(? & ? & last & ? & ? & ? & ?)]; [by left|right].
  split; [done|]. split; [done|]. exists last. repeat split; try done. by apply Hbytes.
Qed.

Lemma await_spec fuel os rooms : ∀ arrivals self id waited out,
  0 <= pa_timeout_ms self → 0 <= waited → Forall arrival_ok arrivals → Z.of_nat (length (pa_pending self)) <= max_reply_bytes + CHUNK →
  await parse_message fuel os rooms arrivals self id waited = Some out →
  ∃ used unused earlier, arrivals = used ++ unused ∧ Forall (answers_earlier id) earlier ∧
    awaited (pa_pending self) used unused rooms id self waited out earlier.
Proof.
  induction fuel as [|fuel IH]; intros arrivals self id waited out Ht Hw Hok Hlen Ha; simpl in Ha; [done|].
  destruct (readLine os _ _ _ _) as [[[res pending'] rest] took] eqn:Hr.
  apply readLine_run in Hr as (used & unused & -> & Htook & Hrest & Hlen' & Hl); [|lia|done..].
  assert (Z.of_nat (length used) * Z.max (pa_timeout_ms self - waited) 0 <= Z.of_nat (length used) * pa_timeout_ms self) by nia.
  destruct res as [line|why|]; simpl in Hl.
  - destruct Hl as (-> & Hbytes & Hno). pose proof (parseReply_spec (rooms fuel).2 line id) as Hp.
    assert (parseReply parse_message (rooms fuel).2 line id ≠ inr reply_earlier →
      (∀ table, parseReply parse_message (rooms fuel).2 line id ≠ inr (reply_table table)) →
      awaited (pa_pending self) used unused rooms id self waited
        (inl (None, set_pending pending' (pa_gave_up self) self, unused, waited + took)) []) as Hbad.
    { intros Hne Hnt. split; [done|]. split; [done|]. split; [lia|]. split; [done|]. right. split; [done|]. split; [done|].
      exists line. split; [done|]. split; [by intros He%(parseReply_earlier (rooms fuel).2)|]. split.
      - intros Hroom table Htab%parseReply_table. rewrite Hroom in Hnt. by apply (Hnt table).
      - by rewrite Hbytes, lines_bytes_one. }
    destruct (parseReply parse_message (rooms fuel).2 line id) as [|[table| |]] eqn:Hpr; simplify_eq.
    + exists used, unused, []. split; [done|]. split; [done|]. by apply Hbad.
    + exists used, unused, []. split; [done|]. split; [done|]. split; [done|]. split; [done|]. split; [lia|]. split; [done|].
      split; [done|]. split; [done|]. exists line. split; [done|]. split; [done|]. by rewrite Hbytes, lines_bytes_one.
    + exists used, unused, []. split; [done|]. split; [done|]. by apply Hbad.
    + apply IH in Ha as (used' & unused' & earlier & -> & Hearlier & Ha); [|done|lia|done..].
      exists (used ++ used'), unused', (line :: earlier). split; [by rewrite app_assoc|]. split; [by constructor|].
      eapply awaited_cons; [exact Hbytes| |exact Ha]. simpl. lia.
  - simplify_eq. exists used, unused, []. split; [done|]. split; [done|]. split; [done|]. split; [done|]. split; [lia|]. split; [done|]. by left.
  - simplify_eq. exists (used ++ unused), [], []. split; [by rewrite app_nil_r|]. by split.
Qed.

(** Every round that goes on has taken a line off what came. *)
Lemma await_runs fuel os rooms : ∀ arrivals self id waited,
  0 <= pa_timeout_ms self → 0 <= waited → Forall arrival_ok arrivals → Z.of_nat (length (pa_pending self)) <= max_reply_bytes + CHUNK →
  (length (pa_pending self ++ bytes_of arrivals) < fuel)%nat →
  is_Some (await parse_message fuel os rooms arrivals self id waited).
Proof.
  induction fuel as [|fuel IH]; intros arrivals self id waited Ht Hw Hok Hlen Hfuel; [lia|]. simpl.
  destruct (readLine os _ _ _ _) as [[[res pending'] rest] took] eqn:Hr.
  apply readLine_run in Hr as (used & unused & -> & Htook & Hrest & Hlen' & Hl); [|lia|done..].
  destruct res as [line|why|]; [|by eexists..]. simpl in Hl. destruct Hl as (-> & Hbytes & _).
  destruct (parseReply parse_message (rooms fuel).2 line id) as [|[]]; [by eexists..|]. apply IH; [done|lia|done..|].
  rewrite bytes_of_app, app_assoc, Hbytes in Hfuel. simpl in *. rewrite !length_app in *. simpl in *. lia.
Qed.
End Answers.

(** C20: An answer of the parent.  A table is used only if it came in one line
    that names this request; the lines before it, in the order they came,
    answered requests before it, and bytes after it are kept.  Without a table
    the parent was given up (it was silent, closed the pipe or sent too much)
    or the first line that answers no earlier request has no table for this
    one.  A parent given up is not asked again. *)
Theorem request_answered parse_message fuel os rooms arrivals self out printed :
  0 <= pa_timeout_ms self → Forall arrival_ok arrivals → Z.of_nat (length (pa_pending self)) <= max_reply_bytes + CHUNK →
  request parse_message fuel os rooms arrivals self = Some (out, printed) →
  printed = negb (pa_gave_up self) ∧
  if pa_gave_up self then out = inl (None, self, arrivals, 0)
  else ∃ self' used unused earlier, pa_next_id self' = pa_next_id self + 1 ∧ pa_gave_up self' = false ∧
    pa_timeout_ms self' = pa_timeout_ms self ∧ arrivals = used ++ unused ∧
    Forall (answers_earlier parse_message (pa_next_id self)) earlier ∧
    awaited parse_message (pa_pending self) used unused rooms (pa_next_id self) self' 0 out earlier.
Proof.
  intros Ht Hok Hlen Hr. unfold request in Hr. destruct (pa_gave_up self) eqn:Hg; [by simplify_eq|].
  apply bind_Some in Hr as (next & Hnext & Hr). apply fits_inv in Hnext as [-> _].
  apply bind_Some in Hr as (answer & Ha & [= -> <-]). split; [done|].
  apply await_spec in Ha as (used & unused & earlier & -> & Hearlier & Ha); [|done..].
  eexists _, used, unused, earlier. split; [|split; [|split; [|split; [reflexivity|split; [exact Hearlier|exact Ha]]]]]; simpl; done.
Qed.

(** awaitReply ends as soon as the pipe does, however many stale answers
    there are. *)
Theorem request_returns parse_message os rooms arrivals self :
  0 <= pa_timeout_ms self → 0 <= pa_next_id self < 4294967295 → Forall arrival_ok arrivals →
  Z.of_nat (length (pa_pending self)) <= max_reply_bytes + CHUNK →
  is_Some (request parse_message (S (length (pa_pending self ++ bytes_of arrivals))) os rooms arrivals self).
Proof.
  intros Ht Hid Hok Hlen. unfold request. destruct (pa_gave_up self); [by eexists|].
  unfold zu32. rewrite fits_some by lia. cbn [mbind option_bind].
  match goal with |- context [awaitReply _ ?n _ _ _ ?s ?i] =>
    destruct (await_runs parse_message n os rooms arrivals s i 0) as [answer Ha]; [done|done|done|done|simpl; lia|] end.
  unfold awaitReply. rewrite Ha. by eexists.
Qed.

(** What the harvest relies on: a unicast address, and a MAC address that is
    not the broadcast one, if any. *)
Definition real_neighbor (n : neighbor) : Prop :=
  0 < ip_a (ne_ip n) < 224 ∧ ∀ mac, ne_mac n = Some mac → length mac = 6%nat ∧ mac ≠ BROADCAST_MAC.

Lemma neighbor_of_real row : real_host row → real_neighbor (neighbor_of row).
Proof.
  intros (Hip & Hlen & Hmac & _). split; [done|]. intros mac. simpl. destruct (nb_has_mac row); [|done]. intros [= <-]. auto.
Qed.

Lemma answers_real parse_message line id table : answers parse_message line id table → Forall real_neighbor table.
Proof.
  intros (message & entries & _ & _ & _ & _ & _ & ->). apply Forall_forall. intros n (e & _ & Hn)%list_elem_of_omap.
  apply bind_Some in Hn as ([[ip mac] state] & Hrow & Hn). unfold kernel_keeps in Hn.
  destruct (skipped ip mac 6) eqn:Hs; [done|]. injection Hn as <-. apply neighbor_of_real.
  unfold kernel_row in Hrow. destruct (ipStringToBytes (en_ip e)) as [|ip'] eqn:Hip; [done|].
  apply ipStringToBytes_ok, ip_ok_bytes in Hip as [Ha _]. destruct (en_mac e) as [text|].
  - apply bind_Some in Hrow as (mac' & Hmac & [= -> <- <-]). apply parseMac_exact in Hmac as [Hlen _].
    apply entry_real; [unfold is_u8 in Ha; lia| |done]. intros m [= ->] _. lia.
  - injection Hrow as -> <- <-. apply entry_real; [unfold is_u8 in Ha; lia|done|done].
Qed.

Lemma dumpNeighbors_real {E} `{AllocLaw E} fuel os room (e : E) res e' t :
  dumpNeighbors fuel os room e = Some (res, e', t) → Forall row_ok (flat_map table_rows t) →
  match res with
  | Some table => keeps t [] ∧ ∀ neighbors, table = Some neighbors → Forall real_neighbor neighbors
  | None => True
  end.
Proof.
  intros Hr Hrows. unfold dumpNeighbors in Hr. apply bind_inv in Hr as (res0 & e1 & t1 & t2 & Hd & Hr & ->).
  rewrite flat_map_app in Hrows. apply Forall_app in Hrows as [Hrows _].
  pose proof (dump_neighbors_real _ _ _ _ _ _ _ Hd Hrows) as Hk. destruct res0 as [|rows entries|l].
  - apply ret_inv in Hr as (-> & -> & ->). rewrite app_nil_r. by split.
  - apply bind_inv in Hr as ([] & e2 & u1 & u2 & Hf & Hr & ->). apply ret_inv in Hr as (-> & -> & ->).
    destruct Hk as (Hreal & _ & _ & Hfree). rewrite app_nil_r. split; [by eapply Hfree|].
    intros neighbors. destruct room; [|done]. intros [= <-]. apply Forall_fmap. eapply Forall_impl; [exact Hreal|apply neighbor_of_real].
  - by apply ret_inv in Hr as (-> & -> & ->).
Qed.

(** C19: Reading the table.  Whoever it is read from, the entries are real
    neighbours and nothing of the reading is kept; a table of the parent is
    one line's that named this request, and then the kernel was not asked. *)
Theorem readNeighbors_real {E} `{AllocLaw E} parse_message request_fuel fuel os rooms room arrivals parent (e : E) from table parent' rest e' t :
  readNeighbors parse_message request_fuel fuel os rooms room arrivals parent e = Some ((read_from from table, parent', rest), e', t) →
  Forall row_ok (flat_map table_rows t) →
  (∀ self, parent = Some self → 0 <= pa_timeout_ms self ∧ Z.of_nat (length (pa_pending self)) <= max_reply_bytes + CHUNK) →
  Forall arrival_ok arrivals →
  keeps t [] ∧ (∀ neighbors, table = Some neighbors → Forall real_neighbor neighbors) ∧
  (from = true → t = [] ∧ ∃ self neighbors line, parent = Some self ∧ table = Some neighbors ∧ answers parse_message line (pa_next_id self) neighbors).
Proof.
  intros Hr Hrows Hparent Hok. unfold readNeighbors in Hr.
  assert (∀ p arr, (dumped ← dumpNeighbors fuel os room;
      match dumped with None => mret (reading_past, p, arr) | Some table => mret (read_from false table, p, arr) end) e =
      Some ((read_from from table, parent', rest), e', t) →
    keeps t [] ∧ (∀ neighbors, table = Some neighbors → Forall real_neighbor neighbors) ∧ from = false) as Hdirect.
  { intros p arr Hd. apply bind_inv in Hd as (dumped & e1 & t1 & t2 & Hd & Hret & ->).
    destruct dumped as [dumped|]; apply ret_inv in Hret as (Heq & -> & ->); simplify_eq.
    rewrite app_nil_r in *. destruct (dumpNeighbors_real _ _ _ _ _ _ _ Hd Hrows). auto. }
  destruct parent as [self|]; [|destruct (Hdirect _ _ Hr) as (? & ? & ->); naive_solver].
  destruct (Hparent self eq_refl) as [Ht Hlen].
  destruct (request _ _ _ _ _ _) as [[out printed]|] eqn:Hq; [|done].
  destruct out as [[[[[neighbors|] self'] rest'] waited]|[]];
    [|destruct (Hdirect _ _ Hr) as (? & ? & ->); naive_solver|by apply ret_inv in Hr as (? & _ & _)].
  apply ret_inv in Hr as (Heq & -> & ->). simplify_eq. unfold request in Hq. destruct (pa_gave_up self); [done|].
  apply bind_Some in Hq as (next & Hnext & Hq). apply bind_Some in Hq as (answer & Ha & [= -> <-]).
  apply await_spec in Ha as (used & unused & earlier & _ & _ & Ha); [|done..].
  destruct Ha as (_ & _ & _ & _ & _ & _ & line & _ & Hline & _).
  split; [exact (keeps_from_nil [])|]. split; [intros ? [= <-]; by eapply answers_real|]. naive_solver.
Qed.

(** ** Runs *)

(** A parser of three texts: the answers "1" and "2" to requests 1 and 2, the
    second with a row of a router and two that are left out. *)
Definition sample_parse (text : list Z) : reply_error + Message :=
  if bool_decide (text = [49]) then
    inr {| me_type := NEIGHBORS; me_id := 1; me_entries := Some []; me_error := None |}
  else if bool_decide (text = [50]) then
    inr {| me_type := NEIGHBORS; me_id := 2; me_error := None;
           me_entries := Some
             [{| en_ip := formatIp (IP 10 0 0 1); en_mac := Some (formatMac [16; 230; 107; 38; 126; 83]); en_state := Some REACHABLE |};
              {| en_ip := formatIp (IP 10 0 0 255); en_mac := Some (formatMac BROADCAST_MAC); en_state := None |};
              {| en_ip := formatIp (IP 224 0 0 251); en_mac := None; en_state := None |}] |}
  else inl InvalidReply.

(** The first answer comes late, cut by a poll; the second with it. *)
Definition sample_arrivals : list arrival := [arrives 300 [49] true; arrives 20 [10; 50; 10; 51] true].

Definition asked_once : Parent := {| pa_timeout_ms := 2000; pa_next_id := 2; pa_gave_up := false; pa_pending := [] |}.

Definition answered_twice : Parent := {| pa_timeout_ms := 2000; pa_next_id := 3; pa_gave_up := false; pa_pending := [51] |}.

Definition sample_table : list neighbor :=
  [{| ne_ip := IP 10 0 0 1; ne_mac := Some [16; 230; 107; 38; 126; 83]; ne_state := reachable |}].

Lemma sample_arrivals_ok : Forall arrival_ok sample_arrivals.
Proof. repeat constructor; simpl; unfold CHUNK; lia. Qed.

Lemma readLine_reads_witness :
  readLine Linux true 2000 sample_arrivals [] = (line_ok [49], [50; 10; 51], [], 320) ∧
  Z.of_nat (length [50; 10; 51]) <= max_reply_bytes + CHUNK.
Proof.
  assert (readLine Linux true 2000 sample_arrivals [] = (line_ok [49], [50; 10; 51], [], 320)) as Hr by (vm_compute; reflexivity).
  split; [exact Hr|].
  destruct (readLine_reads Linux true 2000 sample_arrivals [] _ _ _ _ ltac:(lia) sample_arrivals_ok ltac:(vm_compute; discriminate) Hr)
    as (used & unused & _ & _ & Hlen & _).
  exact Hlen.
Defined.

Lemma slow_parent_witness :
  readLine MacOS true 2000 (replicate 3 (arrives 2000 [32] true)) [] = (line_waiting, replicate 3 32, [], 6000).
Proof. apply (slow_parent 3 2000). vm_compute. discriminate. Defined.

Lemma request_answered_witness :
  request sample_parse 9 Linux (λ _, (true, true)) sample_arrivals asked_once =
    Some (inl (Some sample_table, answered_twice, [], 320), true) ∧ true = negb (pa_gave_up asked_once).
Proof.
  assert (request sample_parse 9 Linux (λ _, (true, true)) sample_arrivals asked_once =
    Some (inl (Some sample_table, answered_twice, [], 320), true)) as Hr by (vm_compute; reflexivity).
  split; [exact Hr|].
  exact (proj1 (request_answered sample_parse 9 Linux (λ _, (true, true)) sample_arrivals asked_once _ _
    ltac:(simpl; lia) sample_arrivals_ok ltac:(vm_compute; discriminate) Hr)).
Defined.

Lemma request_returns_witness :
  is_Some (request sample_parse 6 MacOS (λ _, (true, true)) sample_arrivals asked_once).
Proof.
  refine (request_returns sample_parse MacOS (λ _, (true, true)) sample_arrivals asked_once _ _ sample_arrivals_ok _);
    [simpl; lia|simpl; lia|vm_compute; discriminate].
Defined.

(** There is no asking on Windows: the kernel's table is read. *)
Lemma readNeighbors_real_witness :
  ∃ parent e' t,
    readNeighbors sample_parse 9 1 Windows (λ _, (true, true)) true sample_arrivals (Some asked_once) rows_script =
      Some ((read_from false (Some [{| ne_ip := IP 10 0 0 7; ne_mac := Some [1; 2; 3; 4; 5; 6]; ne_state := reachable |}]),
             Some parent, sample_arrivals), e', t) ∧
    pa_gave_up parent = true ∧ keeps t [].
Proof.
  do 3 eexists. split; [vm_compute; reflexivity|]. split; [reflexivity|].
  refine (proj1 (readNeighbors_real sample_parse 9 1 Windows (λ _, (true, true)) true sample_arrivals (Some asked_once) rows_script
    false _ _ _ _ _ _ _ _ sample_arrivals_ok)).
  - vm_compute; reflexivity.
  - change (Forall row_ok (sample_rows ++ [])). rewrite app_nil_r. apply sample_rows_ok.
  - intros self [= <-]. split; [simpl; lia|vm_compute; discriminate].
Defined.
