(* ===== verification/Pool.v ===== *)
(** * scanner.zig: the worker pools

    resolveHostnames and the SendARP check of harvestArp share one shape: up to
    a number of threads take indices of a list from an atomic counter and work
    on each until the list is done or the scan is stopped; when no thread can
    be had, the caller works itself.  Here is that pool, for any work: every
    load, add, operation and spawn is a step, and the steps of the threads
    interleave. *)
From stdpp Require Import relations.
From S2P Require Import Prelude Words.

Section Pool.
(** What the workers do: [job i ops] if working on index [i] can be the
    operations [ops], in order. *)
Context {A : Type}.
Variables (job : nat → list A → Prop) (len : nat).

(** Where a worker is: at the loop's condition, before fetchAdd, in the middle
    of its work on an index, or done. *)
Inductive worker := w_check | w_take | w_work (i : nat) (ops : list A) | w_done.

#[export] Instance worker_done_dec w : Decision (w = w_done).
Proof. refine (match w with w_done => left _ | _ => right _ end); done. Defined.

(** Where the caller is: about to spawn so many more, waiting for a thread it
    could not keep, working itself, or joining. *)
Inductive caller := c_spawn (n : nat) | c_join_one (k : nat) | c_work (w : worker) | c_join | c_returned.

#[export] Instance caller_returned_dec c : Decision (c = c_returned).
Proof. refine (match c with c_returned => left _ | _ => right _ end); done. Defined.

(** [po_kept]: the length of [threads]. *)
Record pool := {
  po_next : nat;
  po_workers : list worker;
  po_kept : nat;
  po_caller : caller;
  po_log : list (nat * A);
  po_stopped : bool
}.

(** A worker's step: what it makes of the counter, what it logs, and whether
    it read the stop flag as set. *)
Inductive work_step : nat → worker → nat → worker → list (nat * A) → bool → Prop :=
| ws_stop next : work_step next w_check next w_done [] true
| ws_go next : work_step next w_check next w_take [] false
| ws_over next : (len ≤ next)%nat → work_step next w_take (S next) w_done [] false
| ws_take next ops : (next < len)%nat → job next ops → work_step next w_take (S next) (w_work next ops) [] false
| ws_op next i op ops : work_step next (w_work i (op :: ops)) next (w_work i ops) [(i, op)] false
| ws_next next i : work_step next (w_work i []) next w_check [] false.

Inductive pool_step : pool → pool → Prop :=
| ps_worker p k w next w' l stopped :
    po_workers p !! k = Some w → work_step (po_next p) w next w' l stopped →
    pool_step p {| po_next := next; po_workers := <[k := w']> (po_workers p); po_kept := po_kept p;
      po_caller := po_caller p; po_log := po_log p ++ l; po_stopped := po_stopped p || stopped |}
| ps_spawned p n kept :
    po_caller p = c_spawn (S n) →
    pool_step p {| po_next := po_next p; po_workers := po_workers p ++ [w_check];
      po_kept := if (kept : bool) then S (po_kept p) else po_kept p;
      po_caller := if kept then c_spawn n else c_join_one (length (po_workers p));
      po_log := po_log p; po_stopped := po_stopped p |}
| ps_no_thread p n :
    po_caller p = c_spawn (S n) →
    pool_step p {| po_next := po_next p; po_workers := po_workers p; po_kept := po_kept p;
      po_caller := c_spawn 0; po_log := po_log p; po_stopped := po_stopped p |}
| ps_joined_one p k :
    po_caller p = c_join_one k → po_workers p !! k = Some w_done →
    pool_step p {| po_next := po_next p; po_workers := po_workers p; po_kept := po_kept p;
      po_caller := c_spawn 0; po_log := po_log p; po_stopped := po_stopped p |}
| ps_spawn_over p :
    po_caller p = c_spawn 0 →
    pool_step p {| po_next := po_next p; po_workers := po_workers p; po_kept := po_kept p;
      po_caller := if (po_kept p =? 0)%nat then c_work w_check else c_join;
      po_log := po_log p; po_stopped := po_stopped p |}
| ps_caller p w next w' l stopped :
    po_caller p = c_work w → work_step (po_next p) w next w' l stopped →
    pool_step p {| po_next := next; po_workers := po_workers p; po_kept := po_kept p;
      po_caller := c_work w'; po_log := po_log p ++ l; po_stopped := po_stopped p || stopped |}
| ps_caller_done p :
    po_caller p = c_work w_done →
    pool_step p {| po_next := po_next p; po_workers := po_workers p; po_kept := po_kept p;
      po_caller := c_join; po_log := po_log p; po_stopped := po_stopped p |}
| ps_returns p :
    po_caller p = c_join → Forall (λ w, w = w_done) (po_workers p) →
    pool_step p {| po_next := po_next p; po_workers := po_workers p; po_kept := po_kept p;
      po_caller := c_returned; po_log := po_log p; po_stopped := po_stopped p |}.

Definition pool_start (most : nat) : pool :=
  {| po_next := 0; po_workers := []; po_kept := 0; po_caller := c_spawn (Nat.min len most); po_log := []; po_stopped := false |}.

(** ** What the workers did *)

Definition of_index (i : nat) (log : list (nat * A)) : list A := (filter (λ x, x.1 = i) log).*2.

Definition doers (p : pool) : list worker :=
  (match po_caller p with c_work w => [w] | _ => [] end) ++ po_workers p.

Definition held (w : worker) : list nat := match w with w_work i _ => [i] | _ => [] end.

(** Of doers [ws], a counter and a log. *)
Record shared_ok (ws : list worker) (next : nat) (log : list (nat * A)) (stopped : bool) : Prop := {
  so_once : NoDup (flat_map held ws);
  so_work : ∀ i ops, w_work i ops ∈ ws → (i < Nat.min next len)%nat ∧ job i (of_index i log ++ ops);
  so_done : ∀ i, (i < Nat.min next len)%nat → i ∉ flat_map held ws → job i (of_index i log);
  so_fresh : ∀ i, (Nat.min next len ≤ i)%nat → of_index i log = [];
  so_over : w_done ∈ ws → stopped = true ∨ (len ≤ next)%nat
}.

Record pool_ok (p : pool) : Prop := {
  pk_shared : shared_ok (doers p) (po_next p) (po_log p) (po_stopped p);
  pk_kept : (0 < po_kept p)%nat → po_workers p ≠ [];
  pk_one : ∀ k, po_caller p = c_join_one k → (k < length (po_workers p))%nat;
  pk_join : po_caller p = c_join ∨ po_caller p = c_returned →
    po_workers p ≠ [] ∨ po_stopped p = true ∨ (len ≤ po_next p)%nat;
  pk_returned : po_caller p = c_returned → Forall (λ w, w = w_done) (po_workers p)
}.

Lemma of_index_app i log log' : of_index i (log ++ log') = of_index i log ++ of_index i log'.
Proof. unfold of_index. by rewrite filter_app, fmap_app. Qed.

Lemma of_index_one i j (op : A) : of_index i [(j, op)] = if decide (j = i) then [op] else [].
Proof. unfold of_index. rewrite filter_cons. simpl. by destruct (decide (j = i)). Qed.

Lemma held_elem ws i : i ∈ flat_map held ws ↔ ∃ ops, w_work i ops ∈ ws.
Proof.
  rewrite list_elem_of_In, in_flat_map. split.
  - intros (w & Hin & Hi). destruct w as [| |j ops|]; simpl in Hi; try done; destruct Hi as [->|[]].
    exists ops. by apply list_elem_of_In.
  - intros (ops & Hin). exists (w_work i ops). split; [by apply list_elem_of_In|by left].
Qed.

Lemma shared_perm ws ws' next log stopped : ws ≡ₚ ws' → shared_ok ws next log stopped → shared_ok ws' next log stopped.
Proof.
  intros Hp [H1 H2 H3 H4 H5]. assert (flat_map held ws ≡ₚ flat_map held ws') as Hh by by rewrite Hp.
  split; [by rewrite <- Hh| | |done|by rewrite <- Hp].
  - intros i ops. rewrite <- Hp. apply H2.
  - intros i Hi. rewrite <- Hh. by apply H3.
Qed.

(** Workers that hold nothing and are not done count for nothing. *)
Lemma shared_more w ws next log stopped :
  held w = [] → (w = w_done → stopped = true ∨ (len ≤ next)%nat) →
  shared_ok (w :: ws) next log stopped ↔ shared_ok ws next log stopped.
Proof.
  intros Hw Hd. split; intros [H1 H2 H3 H4 H5]; simpl in *; rewrite ?Hw in *; simpl in *; split; simpl; rewrite ?Hw; try done.
  - intros i ops Hin. apply H2. by apply list_elem_of_further.
  - intros Hin. apply H5. by apply list_elem_of_further.
  - intros i ops [Hi|Hin]%elem_of_cons; [subst w; done|by apply H2].
  - intros [<-|Hin]%elem_of_cons; [by apply Hd|by apply H5].
Qed.

Lemma work_step_ok next w next' w' l b ws log stopped :
  work_step next w next' w' l b → shared_ok (w :: ws) next log stopped →
  shared_ok (w' :: ws) next' (log ++ l) (stopped || b).
Proof.
  intros Hs Hok. destruct Hs as [next|next|next Hn|next ops Hn Hj|next i op ops|next i]; rewrite ?app_nil_r, ?orb_false_r, ?orb_true_r.
  - apply shared_more; [done|by left|]. apply shared_more in Hok; [|done|done]. destruct Hok. split; try done. by left.
  - apply shared_more; [done|done|]. by apply shared_more in Hok.
  - apply shared_more; [done|right; lia|]. apply shared_more in Hok; [|done|done]. destruct Hok as [H1 H2 H3 H4 H5].
    split; rewrite ?(Nat.min_r (S next)), ?(Nat.min_r next) in * by lia; try done. intros Hin. right. lia.
  - apply shared_more in Hok; [|done|done]. destruct Hok as [H1 H2 H3 H4 H5].
    rewrite (Nat.min_l next) in * by lia. split; rewrite ?(Nat.min_l (S next)) by lia.
    + simpl. constructor; [|done]. intros (ops' & Hin)%held_elem. apply H2 in Hin. lia.
    + intros i ops' [[= -> ->]|Hin]%elem_of_cons; [split; [lia|]; by rewrite H4 by lia|].
      apply H2 in Hin as [? ?]. split; [lia|done].
    + intros i Hi Hni. apply H3; [|contradict Hni; simpl; apply elem_of_cons; by right].
      assert (i ≠ next); [|lia]. intros ->. apply Hni. simpl. apply elem_of_cons. by left.
    + intros i Hi. apply H4. lia.
    + intros [?|Hin]%elem_of_cons; [done|]. destruct (H5 Hin); [by left|right; lia].
  - destruct Hok as [H1 H2 H3 H4 H5]. simpl in H1, H3. apply NoDup_cons in H1 as [Hni H1].
    assert (∀ i', i' ≠ i → of_index i' (log ++ [(i, op)]) = of_index i' log) as Hother.
    { intros i' Hne. rewrite of_index_app, of_index_one. destruct (decide _); [congruence|by rewrite app_nil_r]. }
    destruct (H2 i (op :: ops)) as [Hi Hjob]; [apply list_elem_of_here|]. split.
    + simpl. by constructor.
    + intros i' ops' [[= -> ->]|Hin]%elem_of_cons.
      * split; [done|]. rewrite of_index_app, of_index_one, decide_True by done. by rewrite <- app_assoc.
      * rewrite Hother; [apply H2; by apply list_elem_of_further|]. intros ->. apply Hni, held_elem. by exists ops'.
    + simpl. intros i' Hi' Hni'. rewrite Hother; [by apply H3|]. intros ->. apply Hni', elem_of_cons. by left.
    + intros i' Hi'. rewrite Hother; [by apply H4|]. lia.
    + intros [?|Hin]%elem_of_cons; [done|]. apply H5. by apply list_elem_of_further.
  - apply shared_more; [done|done|]. destruct Hok as [H1 H2 H3 H4 H5]. simpl in H1, H3. apply NoDup_cons in H1 as [Hni H1].
    destruct (H2 i []) as [Hi Hjob]; [apply list_elem_of_here|]. rewrite app_nil_r in Hjob. split; try done.
    + intros i' ops Hin. apply H2. by apply list_elem_of_further.
    + intros i' Hi' Hni'. destruct (decide (i' = i)) as [->|Hne]; [done|]. apply H3; [done|].
      intros [?|?]%elem_of_cons; [done|by apply Hni'].
    + intros Hin. apply H5. by apply list_elem_of_further.
Qed.

Lemma put_perm (ws : list worker) k w w' : ws !! k = Some w → ∃ rest, ws ≡ₚ w :: rest ∧ <[k := w']> ws ≡ₚ w' :: rest.
Proof.
  intros Hk. exists (take k ws ++ drop (S k) ws). rewrite !Permutation_middle. split; [by rewrite take_drop_middle|].
  rewrite insert_take_drop by (by eapply lookup_lt_Some). done.
Qed.

Lemma over_mono (b b' : bool) (n n' : nat) : (n ≤ n')%nat → b = true ∨ (len ≤ n)%nat → (b || b') = true ∨ (len ≤ n')%nat.
Proof. intros Hle [->|?]; [by left|right; lia]. Qed.

Lemma work_step_next next w next' w' l b : work_step next w next' w' l b → (next ≤ next')%nat.
Proof. intros Hs. destruct Hs; lia. Qed.

Lemma pool_step_ok p q : pool_step p q → pool_ok p → pool_ok q.
Proof.
  intros Hs [Hsh Hk Ho Hj Hr].
  destruct Hs as [p k w next w' l b Hw Hs|p n kept Hc|p n Hc|p k Hc Hw|p Hc|p w next w' l b Hc Hs|p Hc|p Hc Hall];
    unfold doers in *; rewrite ?Hc in *; simpl in *.
  - destruct (put_perm _ _ _ w' Hw) as (rest & Hold & Hnew). pose proof (work_step_next _ _ _ _ _ _ Hs) as Hle.
    split; unfold doers; simpl.
    + eapply shared_perm; [by rewrite Hnew, <- Permutation_middle|]. eapply work_step_ok; [exact Hs|].
      eapply shared_perm; [|exact Hsh]. by rewrite Hold, <- Permutation_middle.
    + intros Hpos Hnil. apply (Hk Hpos). apply (f_equal length) in Hnil. rewrite length_insert in Hnil. by apply nil_length_inv.
    + intros k' Hc. rewrite length_insert. by apply Ho.
    + intros Hc. destruct (Hj Hc) as [Hne|Hover]; [left|right; by eapply over_mono].
      intros Hnil. apply Hne. apply (f_equal length) in Hnil. rewrite length_insert in Hnil. by apply nil_length_inv.
    + intros Hc. apply Hr in Hc. eapply Forall_lookup_1 in Hc; [|exact Hw]. simpl in Hc. subst w. by inversion Hs.
  - split; unfold doers; simpl.
    + eapply shared_perm; [|by apply (shared_more w_check); [done|done|exact Hsh]]. destruct kept; simpl; solve_Permutation.
    + intros _ Hnil. by destruct (app_cons_not_nil (po_workers p) [] w_check).
    + intros k. destruct kept; [done|]. intros [= <-]. rewrite length_app. simpl. lia.
    + destruct kept; by intros [?|?].
    + by destruct kept.
  - split; unfold doers; simpl; try done. by intros [?|?].
  - split; unfold doers; simpl; try done. by intros [?|?].
  - split; unfold doers; simpl; try done.
    + destruct (_ =? _)%nat; simpl; [|exact Hsh]. by apply (shared_more w_check).
    + intros k. by destruct (_ =? _)%nat.
    + destruct (_ =? _)%nat eqn:Hz; to_prop; [by intros [?|?]|]. intros _. left. apply Hk. lia.
    + by destruct (_ =? _)%nat.
  - pose proof (work_step_next _ _ _ _ _ _ Hs) as Hle. split; unfold doers; simpl; try done.
    + by eapply work_step_ok.
    + by intros [?|?].
  - split; unfold doers; simpl; try done.
    + destruct Hsh as [H1 H2 H3 H4 H5]. apply (shared_more w_done); [done|intros _; apply H5, list_elem_of_here|by split].
    + intros _. right. apply (so_over _ _ _ _ Hsh), list_elem_of_here.
  - split; unfold doers; simpl; try done. intros _. apply Hj. by left.
Qed.

Lemma pool_start_ok most : pool_ok (pool_start most).
Proof.
  split; unfold doers; simpl; try done.
  - split; simpl; [apply NoDup_nil_2|by intros i ops ?%not_elem_of_nil|intros; lia|done|by intros ?%not_elem_of_nil].
  - lia.
  - by intros [?|?].
Qed.

Lemma pool_reach_ok most p : rtc pool_step (pool_start most) p → pool_ok p.
Proof.
  intros Hr. refine (rtc_ind_l (λ q, pool_ok q → pool_ok p) p _ _ (pool_start most) Hr (pool_start_ok most)); [done|].
  intros q q' Hs _ IH Hok. by apply IH, (pool_step_ok q).
Qed.

Lemma pool_end most p :
  rtc pool_step (pool_start most) p → po_caller p = c_returned →
  ∃ n, (n ≤ len)%nat ∧ (po_stopped p = false → n = len) ∧
    (∀ i, (i < n)%nat → job i (of_index i (po_log p))) ∧
    (∀ i op, (i, op) ∈ po_log p → (i < n)%nat).
Proof.
  intros Hr Hc. apply pool_reach_ok in Hr as [[H1 H2 H3 H4 H5] Hk Ho Hj Hret]. specialize (Hret Hc).
  unfold doers in *. rewrite Hc in *. simpl in *. exists (Nat.min (po_next p) len).
  assert (∀ i, i ∉ flat_map held (po_workers p)) as Hnone.
  { intros i (ops & Hin)%held_elem. rewrite Forall_forall in Hret. by specialize (Hret _ Hin). }
  split; [lia|]. split; [|split].
  - intros Hun. enough (len ≤ po_next p)%nat by lia. destruct (Hj (or_intror eq_refl)) as [Hne|[?|?]]; [|congruence|done].
    destruct (po_workers p) as [|w ws]; [done|]. apply Forall_cons in Hret as [-> _].
    destruct (H5 (list_elem_of_here _ _)); [congruence|done].
  - intros i Hi. apply H3; [done|]. apply Hnone.
  - intros i op Hin. destruct (decide (i < Nat.min (po_next p) len)%nat) as [|Hge]; [done|].
    assert (op ∈ of_index i (po_log p)) as Hop.
    { unfold of_index. apply list_elem_of_fmap. exists (i, op). split; [done|]. by apply list_elem_of_filter. }
    rewrite H4 in Hop by lia. by apply not_elem_of_nil in Hop.
Qed.

(** The whole log, index by index. *)
Lemma log_split n log :
  (∀ i op, (i, op) ∈ log → (i < n)%nat) → map snd log ≡ₚ flat_map (λ i, of_index i log) (seq 0 n).
Proof.
  induction log as [|[j op] log IH]; intros Hin.
  { simpl. clear. induction (seq 0 n); done. }
  assert (j < n)%nat as Hj by (eapply Hin; apply list_elem_of_here).
  assert (∀ a m, (a + m ≤ j ∨ j < a)%nat → flat_map (λ i, of_index i ((j, op) :: log)) (seq a m) = flat_map (λ i, of_index i log) (seq a m)) as Hother.
  { intros a m. revert a. induction m as [|m IHm]; intros a Ha; [done|]. simpl. rewrite IHm by lia. f_equal.
    change ((j, op) :: log) with ([(j, op)] ++ log). rewrite of_index_app, of_index_one, decide_False by lia. done. }
  replace n with (j + S (n - S j))%nat in * by lia. rewrite seq_app in *. simpl. rewrite flat_map_app. cbn [flat_map].
  rewrite !Hother by lia. simpl in IH. rewrite IH by (intros i op' Hi; eapply Hin; by apply list_elem_of_further).
  rewrite flat_map_app. cbn [flat_map]. change ((j, op) :: log) with ([(j, op)] ++ log).
  rewrite of_index_app, of_index_one, decide_True by done. solve_Permutation.
Qed.

(** A list each operation of which changes the element at its index: what
    becomes of one element is what the operations at its index make of it. *)
Lemma log_at {B} (f : A → B → B) log : ∀ (bs : list B) i,
  foldl (λ bs x, alter (f x.2) x.1 bs) bs log !! i = (λ b, foldl (λ b op, f op b) b (of_index i log)) <$> bs !! i.
Proof.
  induction log as [|[j op] log IH]; intros bs i; simpl; [by destruct (bs !! i)|].
  rewrite IH. change ((j, op) :: log) with ([(j, op)] ++ log). rewrite of_index_app, of_index_one. destruct (decide (j = i)) as [->|Hne].
  - rewrite list_lookup_alter_eq. by destruct (bs !! i).
  - by rewrite list_lookup_alter_ne.
Qed.

(** C22: A pool's work.  However the threads interleave, no index is worked on
    twice, those worked on are the first of the list, and when the pool
    returns each of them was worked on from start to end; a pool that was not
    stopped has then done the whole list. *)
Theorem pool_once most p :
  rtc pool_step (pool_start most) p → po_caller p = c_returned →
  ∃ n, (n ≤ len)%nat ∧ (po_stopped p = false → n = len) ∧
    (∀ i, (i < n)%nat → job i (of_index i (po_log p))) ∧
    (∀ i op, (i, op) ∈ po_log p → (i < n)%nat).
Proof. apply pool_end. Qed.

(** ** It ends *)

Section Ends.
Variable most_ops : nat.
Hypothesis Hops : ∀ i ops, job i ops → (length ops ≤ most_ops)%nat.
Hypothesis Hsome : ∀ i, (i < len)%nat → ∃ ops, job i ops.

(** What is left to do. *)
Definition worker_left (w : worker) : nat :=
  match w with w_check => 2 | w_take => 1 | w_work _ ops => 3 + length ops | w_done => 0 end.

Definition caller_left (c : caller) : nat :=
  match c with c_spawn n => 4 * n + 6 | c_join_one _ => 7 | c_work w => worker_left w + 2 | c_join => 1 | c_returned => 0 end.

Definition pool_left (p : pool) : nat :=
  caller_left (po_caller p) + sum_list (map worker_left (po_workers p)) + (len - po_next p) * (most_ops + 4).

Lemma work_step_left next w next' w' l b :
  work_step next w next' w' l b →
  (worker_left w' + (len - next') * (most_ops + 4) < worker_left w + (len - next) * (most_ops + 4))%nat.
Proof.
  intros Hs. destruct Hs as [next|next|next Hn|next ops Hn Hj|next i op ops|next i]; cbn [worker_left length]; try lia.
  apply Hops in Hj. replace (len - next)%nat with (S (len - S next)) by lia. lia.
Qed.

Lemma sum_left_app ws ws' : sum_list (map worker_left (ws ++ ws')) = (sum_list (map worker_left ws) + sum_list (map worker_left ws'))%nat.
Proof. induction ws as [|w ws IH]; simpl; lia. Qed.

Lemma sum_left_perm ws ws' : ws ≡ₚ ws' → sum_list (map worker_left ws) = sum_list (map worker_left ws').
Proof. induction 1; simpl; lia. Qed.

Lemma pool_step_left p q : pool_step p q → (pool_left q < pool_left p)%nat.
Proof.
  intros Hs. unfold pool_left.
  destruct Hs as [p k w next w' l b Hw Hs|p n kept Hc|p n Hc|p k Hc Hw|p Hc|p w next w' l b Hc Hs|p Hc|p Hc Hall];
    rewrite ?Hc; simpl.
  - destruct (put_perm _ _ _ w' Hw) as (rest & Hold & Hnew). rewrite (sum_left_perm _ _ Hold), (sum_left_perm _ _ Hnew).
    apply work_step_left in Hs. simpl. lia.
  - rewrite sum_left_app. destruct kept; simpl; lia.
  - lia.
  - lia.
  - destruct (_ =? _)%nat; simpl; lia.
  - apply work_step_left in Hs. lia.
  - lia.
  - lia.
Qed.

Lemma steps_left k p q : nsteps pool_step k p q → (k + pool_left q ≤ pool_left p)%nat.
Proof. induction 1 as [|k p q r Hs _ IH]; [done|]. apply pool_step_left in Hs. lia. Qed.

Lemma worker_moves next w : w ≠ w_done → ∃ next' w' l b, work_step next w next' w' l b.
Proof.
  intros Hw. destruct w as [| |i [|op ops]|]; [by do 4 eexists; apply ws_go| |by do 4 eexists; apply ws_next|by do 4 eexists; apply ws_op|done].
  destruct (decide (next < len)%nat) as [Hn|Hn]; [|do 4 eexists; apply ws_over; lia].
  destruct (Hsome _ Hn) as [ops Hj]. do 4 eexists. by apply ws_take.
Qed.

(** Some step is possible until the pool has returned. *)
Lemma pool_moves p : pool_ok p → po_caller p ≠ c_returned → ∃ q, pool_step p q.
Proof.
  intros Hok Hc. destruct (decide (Forall (λ w, w = w_done) (po_workers p))) as [Hall|Hsm].
  - destruct (po_caller p) as [[|n]|k|w| |] eqn:Hcp; [by eexists; apply ps_spawn_over|by eexists; apply (ps_no_thread p n)| | |by eexists; apply ps_returns|done].
    + destruct (lookup_lt_is_Some_2 (po_workers p) k) as [w Hw]; [by apply (pk_one _ Hok)|].
      pose proof (Forall_lookup_1 _ _ _ _ Hall Hw) as ->. eexists. by eapply ps_joined_one.
    + destruct (decide (w = w_done)) as [->|Hw]; [by eexists; apply ps_caller_done|].
      destruct (worker_moves (po_next p) w Hw) as (next' & w' & l & b & Hs). eexists. by eapply ps_caller.
  - apply not_Forall_Exists in Hsm; [|intros w; apply _]. apply Exists_exists in Hsm as (w & Hin & Hw).
    apply list_elem_of_lookup in Hin as [k Hk]. destruct (worker_moves (po_next p) w Hw) as (next' & w' & l & b & Hs).
    eexists. by eapply ps_worker.
Qed.

(** C23: A pool ends.  However its threads are scheduled, a pool takes at most a
    number of steps known at its start, and until it has returned some thread
    can go on: it never waits for itself. *)
Theorem pool_terminates most k p :
  nsteps pool_step k (pool_start most) p →
  (k ≤ 4 * Nat.min len most + 6 + len * (most_ops + 4))%nat ∧ (po_caller p = c_returned ∨ ∃ q, pool_step p q).
Proof.
  intros Hn. split.
  - pose proof (steps_left _ _ _ Hn) as Hle. unfold pool_left in Hle. simpl in Hle. rewrite Nat.sub_0_r in Hle. lia.
  - assert (pool_ok p) as Hok. { apply (pool_reach_ok most). apply rtc_nsteps. by exists k. }
    destruct (decide (po_caller p = c_returned)) as [|Hc]; [by left|right; by apply pool_moves].
Qed.
End Ends.
End Pool.

(** ** A pool of one thread over one index *)

Section One.
Context {A : Type}.
Variables (job : nat → list A → Prop) (ops : list A).
Hypothesis Hjob : job 0%nat ops.

Definition one_thread (caller : @caller A) (w : @worker A) (next : nat) (log : list (nat * A)) : pool :=
  {| po_next := next; po_workers := [w]; po_kept := 1; po_caller := caller; po_log := log; po_stopped := false |}.

Definition one_end : pool := one_thread c_returned w_done 2 (map (pair 0%nat) ops).

Lemma one_step w next w' next' l l' :
  work_step job 1 next w next' w' l' false → pool_step job 1 (one_thread c_join w next l) (one_thread c_join w' next' (l ++ l')).
Proof. intros Hs. exact (ps_worker job 1 (one_thread c_join w next l) 0 w next' w' l' false eq_refl Hs). Qed.

Lemma one_works rest : ∀ l,
  rtc (pool_step job 1) (one_thread c_join (w_work 0 rest) 1 l) (one_thread c_join (w_work 0 []) 1 (l ++ map (pair 0%nat) rest)).
Proof.
  induction rest as [|op rest IH]; intros l; simpl; [by rewrite app_nil_r|].
  eapply rtc_l; [apply one_step, ws_op|]. change ((0%nat, op) :: map (pair 0%nat) rest) with ([(0%nat, op)] ++ map (pair 0%nat) rest).
  rewrite app_assoc. apply IH.
Qed.

Lemma one_runs most : (0 < most)%nat → rtc (pool_step job 1) (pool_start 1 most) one_end.
Proof.
  intros Hm. assert (pool_start (A := A) 1 most = pool_start 1 1) as -> by (unfold pool_start; by replace (Nat.min 1 most) with 1%nat by lia).
  apply (rtc_l _ _ (one_thread (c_spawn 0) w_check 0 [])); [exact (ps_spawned _ _ (pool_start 1 1) 0 true eq_refl)|].
  apply (rtc_l _ _ (one_thread c_join w_check 0 [])); [exact (ps_spawn_over _ _ (one_thread (c_spawn 0) w_check 0 []) eq_refl)|].
  apply (rtc_l _ _ (one_thread c_join w_take 0 [])); [exact (one_step _ _ _ _ [] _ (ws_go _ _ 0))|].
  apply (rtc_l _ _ (one_thread c_join (w_work 0 ops) 1 [])); [exact (one_step _ _ _ _ [] _ (ws_take job _ 0 ops Nat.lt_0_1 Hjob))|].
  etrans; [apply one_works|]. simpl. pose (log := map (pair 0%nat) ops).
  apply (rtc_l _ _ (one_thread c_join w_check 1 (log ++ []))); [exact (one_step _ _ _ _ log _ (ws_next _ _ 1 0))|].
  rewrite app_nil_r. apply (rtc_l _ _ (one_thread c_join w_take 1 (log ++ []))); [exact (one_step _ _ _ _ log _ (ws_go _ _ 1))|].
  rewrite app_nil_r. apply (rtc_l _ _ (one_thread c_join w_done 2 (log ++ []))); [exact (one_step _ _ _ _ log _ (ws_over _ _ 1 (Nat.le_refl 1)))|].
  rewrite app_nil_r. apply rtc_once.
  exact (ps_returns _ _ (one_thread c_join w_done 2 log) eq_refl (Forall_cons_2 _ _ _ eq_refl (Forall_nil_2 _))).
Qed.
End One.

Definition one_job (i : nat) (ops : list nat) : Prop := ops = [i].

Lemma pool_once_witness :
  ∃ p, rtc (pool_step one_job 1) (pool_start 1 16) p ∧ po_caller p = c_returned ∧
    ∃ n, (n ≤ 1)%nat ∧ (po_stopped p = false → n = 1%nat) ∧
      (∀ i, (i < n)%nat → one_job i (of_index i (po_log p))) ∧
      (∀ i op, (i, op) ∈ po_log p → (i < n)%nat).
Proof.
  assert (rtc (pool_step one_job 1) (pool_start 1 16) (one_end [0%nat])) as Hr by (apply one_runs; [done|lia]).
  exists (one_end [0%nat]). split; [exact Hr|]. split; [reflexivity|]. by apply (pool_once one_job 1 16 (one_end [0%nat]) Hr).
Defined.

Lemma pool_terminates_witness :
  ∃ k p, nsteps (pool_step one_job 1) k (pool_start 1 16) p ∧ po_caller p = c_returned ∧
    (k ≤ 4 * Nat.min 1 16 + 6 + 1 * (1 + 4))%nat ∧ (po_caller p = c_returned ∨ ∃ q, pool_step one_job 1 p q).
Proof.
  assert (∃ k, nsteps (pool_step one_job 1) k (pool_start 1 16) (one_end [0%nat])) as [k Hk]
    by (apply rtc_nsteps, one_runs; [done|lia]).
  exists k, (one_end [0%nat]). split; [exact Hk|]. split; [reflexivity|].
  apply (pool_terminates one_job 1 1); [by intros i ops ->|intros i _; by exists [i]|exact Hk].
Defined.
