(* ===== verification/Pings.v ===== *)
(** * scanner.zig: pinging a list of hosts

    pingSweep pings every host from inside the process (icmp_ping.c) and,
    where the system does not allow that, by running ping(1) in waves.  The
    log of its calls of [observer.pinged], index and answer, is what its
    clients see. *)
From Stdlib Require Import String Ascii.
From stdpp Require Import relations.
From S2P Require Import Prelude Words Decimal Ranges Sys Script NsSocket IcmpWire SweepSpec IcmpSweep IcmpSweepWin.
Open Scope Z_scope.

Definition PING_TIMEOUT_MS : Z := 1000.
Definition MAX_PINGS_IN_FLIGHT : Z := 512.
Definition MAX_PING_PROCESSES : nat := 256.

Definition ping_flags (os : platform) : list string :=
  (match os with
   | Windows => ["-n"; "1"; "-w"; "1000"]
   | MacOS => ["-c"; "1"; "-W"; "1000"; "-t"; "1"; "-q"]
   | Linux => ["-c"; "1"; "-W"; "1"; "-q"]
   end)%string.

Definition pingArgv (os : platform) (ip : list Z) : list (list Z) :=
  text "ping" :: map text (ping_flags os) ++ [ip].

(** ** A wave *)

(** How a child ended. *)
Inductive ending := exited (code : Z) | ended_otherwise | wait_failed.

#[export] Instance ending_eq_dec : EqDecision ending.
Proof. solve_decision. Defined.

Definition answered_of (e : ending) : bool := match e with exited code => code =? 0 | _ => false end.

(** A waiter: its index, how its child will end, and whether a thread waits
    for it. *)
Record waiter := { wt_index : nat; wt_ending : ending; wt_thread : bool }.

#[export] Instance waiter_eq_dec : EqDecision waiter.
Proof. solve_decision. Defined.

Definition verdict (w : waiter) : nat * bool := (wt_index w, answered_of (wt_ending w)).

Inductive wave_end := wave_ok | wave_stopped | wave_failed.

#[export] Instance wave_end_eq_dec : EqDecision wave_end.
Proof. solve_decision. Defined.

(** The spawn loop over [n] hosts from [index] on. *)
Inductive spawns : nat → nat → list waiter → wave_end → Prop :=
| sp_over index : spawns index 0 [] wave_ok
| sp_stop index n : spawns index (S n) [] wave_stopped
| sp_fail index n : spawns index (S n) [] wave_failed
| sp_start index n e thread ws r :
    spawns (S index) n ws r →
    spawns index (S n) ({| wt_index := index; wt_ending := e; wt_thread := thread |} :: ws) r.

(** The waiters left, those the caller has yet to come to, and the calls of
    the observer. *)
Definition waiting : Type := list waiter * list waiter * list (nat * bool).

Inductive wait_step : waiting → waiting → Prop :=
| wa_thread w going going' todo calls :
    wt_thread w = true → going ≡ₚ w :: going' → wait_step (going, todo, calls) (going', todo, calls ++ [verdict w])
| wa_join w going todo calls :
    wt_thread w = true → w ∉ going → wait_step (going, w :: todo, calls) (going, todo, calls)
| wa_alone w going going' todo calls :
    wt_thread w = false → going ≡ₚ w :: going' → wait_step (going, w :: todo, calls) (going', todo, calls ++ [verdict w]).

(** pingWave over ips[first..last] *)
Inductive pingWave (first last : nat) : list (nat * bool) → wave_end → Prop :=
| waved ws r going calls :
    spawns first (last - first) ws r → rtc wait_step (ws, ws, []) (going, [], calls) → pingWave first last calls r.

(** ** The sweep *)

(** The loop over the waves, from [first] on. *)
Inductive waves (count : nat) : nat → list (nat * bool) → wave_end → Prop :=
| wv_over first : (count ≤ first)%nat → waves count first [] wave_ok
| wv_stopped first : (first < count)%nat → waves count first [] wave_stopped
| wv_failed first calls :
    (first < count)%nat → pingWave first (Nat.min (first + MAX_PING_PROCESSES) count) calls wave_failed →
    waves count first calls wave_failed
| wv_more first calls r calls' r' :
    (first < count)%nat → pingWave first (Nat.min (first + MAX_PING_PROCESSES) count) calls r → r ≠ wave_failed →
    waves count (Nat.min (first + MAX_PING_PROCESSES) count) calls' r' →
    waves count first (calls ++ calls') (match r' with wave_failed => wave_failed | _ => if bool_decide (r = wave_ok) then r' else r end).

(** Context.pinged, and Waiter.wait, on the array; and the array [alive] after
    the calls. *)
Definition mark (alive : list bool) (c : nat * bool) : list bool := <[c.1 := c.2]> alive.

Definition alive_of (count : nat) (calls : list (nat * bool)) : list bool :=
  foldl mark (replicate count false) calls.

Inductive ping_result := pings_alive (alive : list bool) | pings_out_of_memory | pings_failed.

Section Sweep.
Context {E : Type} `{EchoLaw E}.
Variables (os : platform) (fuel : nat) (garbage : list Z).

(** icmpSweep: the call and its log *)
Definition icmpSweep (ips : list ip4) (e : E) : option (icmp_ping_result * E * list event) :=
  match os with
  | Windows => win_ping_sweep fuel ips PING_TIMEOUT_MS MAX_PINGS_IN_FLIGHT e
  | _ => icmp_ping_sweep os fuel garbage ips PING_TIMEOUT_MS MAX_PINGS_IN_FLIGHT e
  end.

(** [stopped]: a read of the stop flag said so. *)
Inductive pingSweep (ips : list ip4) : ping_result → list (nat * bool) → bool → Prop :=
| pings_no_array : pingSweep ips pings_out_of_memory [] false
| pings_inside e e' t stopped :
    pending e = [] → icmpSweep ips e = Some (ICMP_PING_DONE, e', t) → (stopped = true ↔ stop_seen t) →
    pingSweep ips (pings_alive (alive_of (length ips) (pinged t))) (pinged t) stopped
| pings_no_memory e e' t :
    pending e = [] → icmpSweep ips e = Some (ICMP_PING_NO_MEMORY, e', t) →
    pingSweep ips pings_out_of_memory (pinged t) false
| pings_outside e e' t calls r :
    pending e = [] → icmpSweep ips e = Some (ICMP_PING_UNAVAILABLE, e', t) → waves (length ips) 0 calls r →
    pingSweep ips (match r with wave_failed => pings_failed | _ => pings_alive (alive_of (length ips) (pinged t ++ calls)) end)
      (pinged t ++ calls) (match r with wave_stopped => true | _ => false end).
End Sweep.

(** ** Each host once *)

Lemma spawns_run index n ws r :
  spawns index n ws r → map wt_index ws = seq index (length ws) ∧ (length ws ≤ n)%nat ∧ (r = wave_ok → length ws = n).
Proof.
  induction 1 as [index|index n|index n|index n e thread ws r _ (H1 & H2 & H3)]; simpl; try (split; [done|]; split; [lia|done]).
  rewrite H1. split; [done|]. split; [lia|]. intros Hr. f_equal. by apply H3.
Qed.

(** Whoever waits, the calls are the verdicts of the waiters waited for; those
    left are still ahead of the caller, and those without a thread wait for
    it. *)
Record wait_ok (ws : list waiter) (x : waiting) : Prop := {
  wo_calls : x.2 ++ map verdict x.1.1 ≡ₚ map verdict ws;
  wo_ahead : ∀ w, w ∈ x.1.1 → w ∈ x.1.2;
  wo_alone : ∀ w, w ∈ x.1.2 → wt_thread w = false → w ∈ x.1.1;
  wo_nodup : NoDup x.1.1 ∧ NoDup x.1.2
}.

Lemma wait_step_ok ws x y : wait_step x y → wait_ok ws x → wait_ok ws y.
Proof.
  intros Hs. destruct Hs as [w going going' todo calls Ht Hp|w going todo calls Ht Hni|w going going' todo calls Ht Hp];
    intros [Hc Ha Hal [Hn1 Hn2]]; simpl in *.
  - rewrite Hp in Hn1, Hc. apply NoDup_cons in Hn1 as [_ Hn1]. split; simpl; [by rewrite <- Hc, <- app_assoc| | |done].
    + intros w' Hw'. apply Ha. rewrite Hp. by apply list_elem_of_further.
    + intros w' Hw' Hno. specialize (Hal w' Hw' Hno). rewrite Hp in Hal. apply elem_of_cons in Hal as [->|]; [congruence|done].
  - apply NoDup_cons in Hn2 as [Hni2 Hn2]. split; simpl; [done| | |done].
    + intros w' Hw'. pose proof (Ha w' Hw') as Hw. apply elem_of_cons in Hw as [->|]; done.
    + intros w' Hw' Hno. apply Hal; [by apply list_elem_of_further|done].
  - rewrite Hp in Hn1, Hc. apply NoDup_cons in Hn1 as [Hni Hn1]. apply NoDup_cons in Hn2 as [Hni2 Hn2].
    split; simpl; [by rewrite <- Hc, <- app_assoc| | |done].
    + intros w' Hw'. assert (w' ∈ w :: todo) as Hw by (apply Ha; rewrite Hp; by apply list_elem_of_further).
      apply elem_of_cons in Hw as [->|]; done.
    + intros w' Hw' Hno. assert (w' ∈ going) as Hw by (apply Hal; [by apply list_elem_of_further|done]).
      rewrite Hp in Hw. apply elem_of_cons in Hw as [->|]; done.
Qed.

Lemma wait_reach_ok ws y : NoDup (map wt_index ws) → rtc wait_step (ws, ws, []) y → wait_ok ws y.
Proof.
  intros Hn Hr. apply (NoDup_fmap_1 wt_index) in Hn.
  refine (rtc_ind_l (λ x, wait_ok ws x → wait_ok ws y) y _ _ (ws, ws, []) Hr _); [done| |by split].
  intros x x' Hs _ IH Hok. by apply IH, (wait_step_ok ws x).
Qed.

(** A wave waits for every ping it started, each once. *)
Lemma wave_run first last calls r :
  pingWave first last calls r →
  ∃ n, calls.*1 ≡ₚ seq first n ∧ (n ≤ last - first)%nat ∧ (r = wave_ok → n = last - first)%nat.
Proof.
  intros Hw. destruct Hw as [ws r going calls Hs Hr]. apply spawns_run in Hs as (Hi & Hle & Hok). exists (length ws).
  split; [|done].
  assert (wait_ok ws (going, [], calls)) as [Hc Hnil _ _] by (apply wait_reach_ok; [rewrite Hi; apply NoDup_seq|done]).
  simpl in *. assert (going = []) as ->. { destruct going as [|w going]; [done|]. pose proof (Hnil w (list_elem_of_here _ _)) as Hw.
    by apply not_elem_of_nil in Hw. }
  rewrite app_nil_r in Hc. rewrite Hc, <- Hi. change ((map verdict ws).*1) with (map fst (map verdict ws)). by rewrite map_map.
Qed.

(** Indices of a part of the hosts, each once. *)
Record some_of (first last : nat) (calls : list (nat * bool)) : Prop := {
  som_once : NoDup calls.*1;
  som_range : ∀ i, i ∈ calls.*1 → (first ≤ i < last)%nat
}.

Lemma some_of_seq first n last calls : calls.*1 ≡ₚ seq first n → (first + n ≤ last)%nat → some_of first last calls.
Proof.
  intros Hp Hle. split; [rewrite Hp; apply NoDup_seq|]. intros i. rewrite Hp, elem_of_seq. lia.
Qed.

Lemma some_of_app first mid last calls calls' :
  some_of first mid calls → some_of mid last calls' → (first ≤ mid ≤ last)%nat → some_of first last (calls ++ calls').
Proof.
  intros [H1 H2] [H3 H4] Hle. split; rewrite fmap_app.
  - apply NoDup_app. split; [done|]. split; [|done]. intros i Hi%H2 Hi'%H4. lia.
  - intros i [Hi%H2|Hi%H4]%elem_of_app; lia.
Qed.

Lemma waves_run count first calls r :
  waves count first calls r → (first ≤ count)%nat → some_of first count calls ∧
  (r = wave_ok → calls.*1 ≡ₚ seq first (count - first)).
Proof.
  induction 1 as [first Hge|first Hlt|first calls Hlt Hw|first calls r calls' r' Hlt Hw Hr _ IH]; intros Hle.
  - split; [by split; [apply NoDup_nil_2|intros i ?%not_elem_of_nil]|]. intros _. by replace (count - first)%nat with 0%nat by lia.
  - split; [by split; [apply NoDup_nil_2|intros i ?%not_elem_of_nil]|done].
  - apply wave_run in Hw as (n & Hp & Hn & _). split; [|done]. eapply some_of_seq; [exact Hp|lia].
  - set (mid := Nat.min (first + MAX_PING_PROCESSES) count) in *. apply wave_run in Hw as (n & Hp & Hn & Hok).
    destruct IH as [Hs IH]; [lia|]. split.
    + eapply (some_of_app _ mid); [eapply some_of_seq; [exact Hp|lia]|done|unfold MAX_PING_PROCESSES in *; lia].
    + intros Hres. assert (r = wave_ok ∧ r' = wave_ok) as [Hr1 ->].
      { by destruct r', r. }
      rewrite fmap_app, Hp, (IH eq_refl), (Hok Hr1). replace mid with (first + (mid - first))%nat at 2 by (unfold mid, MAX_PING_PROCESSES; lia).
      rewrite <- seq_app. f_equiv. unfold mid, MAX_PING_PROCESSES. lia.
Qed.

Lemma alive_keeps calls : ∀ alive i, i ∉ calls.*1 → foldl mark alive calls !! i = alive !! i.
Proof.
  induction calls as [|[j a] calls IH]; intros alive i Hni; [done|]. simpl in *.
  apply not_elem_of_cons in Hni as [Hne Hni].
  rewrite IH by done. by apply list_lookup_insert_ne.
Qed.

Lemma alive_length calls : ∀ alive : list bool, length (foldl mark alive calls) = length alive.
Proof. induction calls as [|c calls IH]; intros alive; [done|]. simpl. by rewrite IH; apply length_insert. Qed.

Lemma alive_set calls : ∀ alive i a, NoDup calls.*1 → (i, a) ∈ calls → (i < length alive)%nat →
  foldl mark alive calls !! i = Some a.
Proof.
  induction calls as [|[j b] calls IH]; intros alive i a Hn Hin Hi; [by apply not_elem_of_nil in Hin|].
  simpl in *. apply NoDup_cons in Hn as [Hj Hn]. apply elem_of_cons in Hin as [[= -> ->]|Hin].
  - rewrite alive_keeps by done. by apply list_lookup_insert_eq.
  - apply IH; [done|done|]. unfold mark. by rewrite length_insert.
Qed.

(** The array says of each host what its call said, and of one without a
    call that it did not answer. *)
Lemma alive_of_spec count calls :
  some_of 0 count calls → length (alive_of count calls) = count ∧
  ∀ i, alive_of count calls !! i = Some true ↔ (i, true) ∈ calls.
Proof.
  intros [Hn Hr]. unfold alive_of. split; [by rewrite alive_length, length_replicate|]. intros i.
  destruct (decide (i ∈ calls.*1)) as [Hin|Hni].
  - pose proof (Hr i Hin). apply list_elem_of_fmap in Hin as ([j a] & -> & Hin). simpl in *.
    rewrite (alive_set _ _ j a) by (rewrite ?length_replicate; done || lia). split; [by intros [= ->]|].
    intros Hin'. assert (a = true) as ->; [|done]. apply list_elem_of_lookup in Hin as [x Hx], Hin' as [y Hy].
    assert (x = y) as ->; [|congruence]. eapply (NoDup_lookup _ x y j Hn); rewrite list_lookup_fmap; [by rewrite Hx|by rewrite Hy].
  - rewrite alive_keeps by done. split; [by intros [? _]%lookup_replicate|]. intros Hin. destruct Hni.
    apply list_elem_of_fmap. by exists (i, true).
Qed.

Section Once.
Context {E : Type} `{EchoLaw E}.
Variables (os : platform) (fuel : nat) (garbage : list Z).

Lemma icmpSweep_run ips (e : E) r e' t :
  Z.of_nat (length ips) < 18446744073709551616 → pending e = [] → icmpSweep os fuel garbage ips e = Some (r, e', t) →
  match r with
  | ICMP_PING_DONE => ∃ n, (pinged t).*1 ≡ₚ seq 0 n ∧ (n ≤ length ips)%nat ∧ (n = length ips ∨ stop_seen t)
  | _ => pinged t = []
  end.
Proof.
  intros Hc Hp Hr. unfold icmpSweep in Hr. destruct os.
  all: first [apply win_ping_sweep_allowed in Hr; [|done..] | apply icmp_ping_sweep_allowed in Hr; [|done..]].
  all: destruct r; [by eapply allowed_once|by apply labels_pinged..].
Qed.

Lemma pingSweep_run ips r calls stopped :
  Z.of_nat (length ips) < 18446744073709551616 → pingSweep os fuel garbage ips r calls stopped →
  NoDup calls.*1 ∧ (∀ i, i ∈ calls.*1 → (i < length ips)%nat) ∧
  match r with
  | pings_alive alive => length alive = length ips ∧ (∀ i, alive !! i = Some true ↔ (i, true) ∈ calls) ∧
      (stopped = false → calls.*1 ≡ₚ seq 0 (length ips))
  | pings_out_of_memory => calls = []
  | pings_failed => True
  end.
Proof.
  intros Hc Hs. destruct Hs as [|e e' t stopped Hp Hi Hst|e e' t Hp Hi|e e' t calls r Hp Hi Hw].
  - split; [apply NoDup_nil_2|]. split; [by intros i ?%not_elem_of_nil|done].
  - apply icmpSweep_run in Hi as (n & Hn & Hle & Hend); [|done..].
    pose proof (some_of_seq 0 n (length ips) (pinged t) Hn Hle) as Hs. destruct (alive_of_spec _ _ Hs) as [Hlen Hal].
    destruct Hs as [H1 H2]. split; [done|]. split; [intros i Hin; apply H2 in Hin; lia|]. split; [done|]. split; [done|].
    intros ->. destruct Hend as [<-|Hst']; [done|]. by apply Hst in Hst'.
  - apply icmpSweep_run in Hi as ->; [|done..]. split; [apply NoDup_nil_2|]. split; [by intros i ?%not_elem_of_nil|done].
  - apply icmpSweep_run in Hi as ->; [|done..]. simpl. apply waves_run in Hw as [Hs Hall]; [|lia].
    destruct (alive_of_spec _ _ Hs) as [Hlen Hal]. destruct Hs as [H1 H2].
    split; [done|]. split; [intros i Hin; apply H2 in Hin; lia|].
    destruct r; [|by split|done]. split; [done|]. split; [done|]. intros _. rewrite Nat.sub_0_r in Hall. by apply Hall.
Qed.

(** C21: A ping sweep.  Whether the pings go out from inside the process or from
    ping(1), and in whatever order they end, a host is reported at most once;
    the array returned says exactly who answered; and a sweep that was not
    stopped and did not fail reports every host. *)
Theorem pingSweep_once ips r calls stopped :
  Z.of_nat (length ips) < 18446744073709551616 → pingSweep os fuel garbage ips r calls stopped →
  NoDup calls.*1 ∧ (∀ i, i ∈ calls.*1 → (i < length ips)%nat) ∧
  match r with
  | pings_alive alive => length alive = length ips ∧ (∀ i, alive !! i = Some true ↔ (i, true) ∈ calls) ∧
      (stopped = false → calls.*1 ≡ₚ seq 0 (length ips))
  | pings_out_of_memory => calls = []
  | pings_failed => True
  end.
Proof. apply pingSweep_run. Qed.
End Once.

Lemma wait_steps k x y : nsteps wait_step k x y → (k + (length y.1.1 + length y.1.2) ≤ length x.1.1 + length x.1.2)%nat.
Proof.
  induction 1 as [|k x y z Hs _ IH]; [done|].
  destruct Hs as [w going going' todo calls Ht Hp|w going todo calls Ht Hni|w going going' todo calls Ht Hp]; simpl in *; try apply Permutation_length in Hp; simpl in *; lia.
Qed.

(** Waiting out a wave.  Whatever the order in which its pings end, the caller
    comes to the end of its waiters after at most two steps for each, and
    until then a thread or the caller can go on. *)
Theorem wave_terminates k ws going todo calls :
  NoDup (map wt_index ws) → nsteps wait_step k (ws, ws, []) (going, todo, calls) →
  (k ≤ 2 * length ws)%nat ∧ (todo = [] ∨ ∃ y, wait_step (going, todo, calls) y).
Proof.
  intros Hn Hs. split; [apply wait_steps in Hs; simpl in Hs; lia|].
  assert (wait_ok ws (going, todo, calls)) as [_ _ Hal _] by (apply wait_reach_ok; [done|apply rtc_nsteps; by exists k]).
  simpl in Hal. destruct todo as [|w todo]; [by left|right]. destruct (wt_thread w) eqn:Ht.
  - destruct (decide (w ∈ going)) as [Hin|Hni]; [|by eexists; apply wa_join].
    apply elem_of_Permutation in Hin as [going' Hp]. eexists. by eapply wa_thread.
  - pose proof (Hal w (list_elem_of_here _ _) Ht) as Hin. apply elem_of_Permutation in Hin as [going' Hp].
    eexists. by eapply wa_alone.
Qed.

(** ** Two hosts *)

Lemma two_pinged :
  pingSweep (E := script) Linux 50 [] two_hosts (pings_alive [false; true]) [(1, true); (0, false)]%nat false.
Proof.
  assert (∃ e' t, icmpSweep Linux 50 [] two_hosts lan = Some (ICMP_PING_DONE, e', t) ∧ pinged t = [(1, true); (0, false)]%nat ∧
    existsb (λ ev, match ev with Ev StopRequested true => true | _ => false end) t = false) as (e' & t & Hr & Hp & Hst).
  { eexists _, _. split; [vm_compute; reflexivity|]. split; vm_compute; reflexivity. }
  change [false; true] with (alive_of (length two_hosts) [(1, true); (0, false)]%nat). rewrite <- Hp.
  eapply pings_inside; [|exact Hr|]; [done|]. split; [done|]. intros Hin. unfold stop_seen in Hin.
  rewrite <- Hst. apply existsb_exists. eexists. split; [by apply list_elem_of_In|done].
Qed.

Lemma pingSweep_once_witness :
  pingSweep (E := script) Linux 50 [] two_hosts (pings_alive [false; true]) [(1, true); (0, false)]%nat false ∧
  NoDup [1; 0]%nat ∧ (∀ i, i ∈ [1; 0]%nat → (i < 2)%nat) ∧
  length [false; true] = 2%nat ∧ (∀ i, [false; true] !! i = Some true ↔ (i, true) ∈ [(1, true); (0, false)]%nat) ∧
  (false = false → [1; 0]%nat ≡ₚ seq 0 2).
Proof.
  split; [exact two_pinged|]. apply (pingSweep_once (E := script) Linux 50 [] two_hosts
    (pings_alive [false; true]) [(1, true); (0, false)]%nat false); [vm_compute; reflexivity|exact two_pinged].
Defined.

(** A wave of two, the second without a thread of its own. *)
Definition two_waiters : list waiter :=
  [{| wt_index := 0; wt_ending := exited 0; wt_thread := true |}; {| wt_index := 1; wt_ending := exited 1; wt_thread := false |}].

Lemma wave_terminates_witness :
  ∃ going todo calls, nsteps wait_step 1 (two_waiters, two_waiters, []) (going, todo, calls) ∧ calls = [(0, true)]%nat ∧
    (1 ≤ 2 * length two_waiters)%nat ∧ (todo = [] ∨ ∃ y, wait_step (going, todo, calls) y).
Proof.
  assert (nsteps wait_step 1 (two_waiters, two_waiters, []) (tail two_waiters, two_waiters, [(0, true)]%nat)) as Hs.
  { apply nsteps_once. by eapply (wa_thread (hd {| wt_index := 0; wt_ending := wait_failed; wt_thread := true |} two_waiters)). }
  eexists _, _, _. split; [exact Hs|]. split; [reflexivity|]. eapply wave_terminates; [|exact Hs].
  apply (bool_decide_unpack _). vm_compute. exact I.
Defined.
