(* ===== verification/Bindings.v ===== *)
(** * c_bindings.zig: the C functions as the Zig code calls them

    What the models of the callers take for granted: they use the C functions
    of TcpProbe.v, Resolver.v, Multicast.v and the sweeps directly, with the C
    results as values.  The program goes through this file, which turns C's
    ints, null pointers and buffers into Zig's enums, optionals and slices,
    and asserts what it passes on.  Each binding is written out here, and the
    shortcuts are shown to be the same ([start_through], [wait_through],
    [finish_through], [ping_sweep_through], [reverse_dns_through]).  The rows
    of the neighbour table are in Discovery.v and NeighborTable.v, the reply
    of an exchange in Names.v, send and recv in Listener.v. *)
From S2P Require Import Prelude Words Decimal Ranges Text Targets Sys Script NsSocket SweepSpec IcmpSweep IcmpSweepWin TcpProbe Window Held Probe Multicast Resolver Packets Names Pings.
Open Scope Z_scope.

(** A failed assertion stops the program. *)
Definition assert {E} (b : bool) : M E unit := λ e, if b then Some ((), e, []) else None.

(** ** The connect probe *)

(** The C enum's ints. *)
Definition tcp_probe_value (r : tcp_probe_result) : Z :=
  match r with
  | TCP_PROBE_OPEN => 0 | TCP_PROBE_REFUSED => 1 | TCP_PROBE_FILTERED => 2 | TCP_PROBE_PENDING => 3
  | TCP_PROBE_UNCONFIRMED => 4 | TCP_PROBE_NO_SOCKET => 5 | TCP_PROBE_NO_ADDRESS => 6
  end.

Inductive TcpProbe := tp_open | tp_refused | tp_filtered | tp_pending | tp_unconfirmed | tp_no_socket | tp_no_address.

#[export] Instance TcpProbe_eq_dec : EqDecision TcpProbe.
Proof. solve_decision. Defined.

(** @backingInt *)
Definition backing_int (p : TcpProbe) : Z :=
  match p with
  | tp_open => 0 | tp_refused => 1 | tp_filtered => 2 | tp_pending => 3 | tp_unconfirmed => 4 | tp_no_socket => 5 | tp_no_address => 6
  end.

Definition toTcpProbe (raw : Z) : TcpProbe :=
  if raw =? backing_int tp_open then tp_open
  else if raw =? backing_int tp_refused then tp_refused
  else if raw =? backing_int tp_pending then tp_pending
  else if raw =? backing_int tp_unconfirmed then tp_unconfirmed
  else if raw =? backing_int tp_no_socket then tp_no_socket
  else if raw =? backing_int tp_no_address then tp_no_address
  else tp_filtered.

(** icmp_ping_result's ints, and IcmpSweep; an error is OutOfMemory. *)
Definition icmp_ping_value (r : icmp_ping_result) : Z :=
  match r with ICMP_PING_DONE => 0 | ICMP_PING_UNAVAILABLE => 1 | ICMP_PING_NO_MEMORY => 2 end.

Inductive IcmpSweep := is_done | is_unavailable.

Definition to_icmp_sweep (raw : Z) : option IcmpSweep :=
  if raw =? 0 then Some is_done else if raw =? 1 then Some is_unavailable else None.

Section Bindings.
Context {E : Type} `{Env E}.

(** With it the socket it leaves in [out_sock], if any. *)
Definition tcpProbeStart (ip : ip4) (port timeout_ms : Z) : M E (TcpProbe * option Z) :=
  '(raw, sock) ← tcp_probe_start ip port timeout_ms;
  mret (toTcpProbe (tcp_probe_value raw), sock).

(** With it what it leaves in [settled], which holds [room] flags. *)
Definition tcpProbeWait (socks : list Z) (wait_ms : Z) (room : nat) : M E (bool * list bool) :=
  assert ((Z.of_nat (length socks) <=? TCP_PROBE_MAX_SOCKETS) && (length socks <=? room)%nat);;
  '(n, settled) ← tcp_probe_wait socks wait_ms;
  mret (n >=? 0, settled).

Definition tcpProbeFinish (sock : Z) (settled : bool) : M E TcpProbe :=
  raw ← tcp_probe_finish sock settled;
  mret match toTcpProbe (tcp_probe_value raw) with
       | tp_pending => tp_filtered
       | verdict => verdict
       end.

(** The switches of connects.zig's start and finish. *)
Definition started_by (r : TcpProbe * option Z) : Started :=
  match r.1 with
  | tp_open => s_done v_open
  | tp_refused => s_done v_refused
  | tp_filtered => s_done v_filtered
  | tp_unconfirmed => s_done v_unconfirmed
  | tp_pending => s_pending (default 0 r.2)
  | tp_no_socket => s_unprobed short_socket
  | tp_no_address => s_unprobed short_address
  end.

Definition verdict_by (p : TcpProbe) : Verdict :=
  match p with
  | tp_open => v_open
  | tp_refused => v_refused
  | tp_unconfirmed => v_unconfirmed
  | tp_filtered | tp_pending | tp_no_socket | tp_no_address => v_filtered
  end.

(** ** Names, files, MAC addresses *)

Variable os : platform.

Definition getMacSendArp (ip_null_terminated : list Z) : M E (option (list Z)) :=
  get_mac_sendarp os (Some ip_null_terminated) true.

(** The block and the bytes in it, [len] of them. *)
Definition readFileContent (path : list Z) : M E (option (Z * list Z)) := read_file_content (Some path) true.

Definition freeFileContent (ptr : Z) : M E unit := free_file_content (Some ptr).

(** The text in a buffer of [len] bytes, up to its first NUL. *)
Definition resolvePtr (ip_null_terminated : list Z) (len : Z) : M E (option (list Z)) :=
  found ← resolve_ptr os (Some ip_null_terminated) true len;
  mret (before 0 <$> found).

Definition UDP_EXCHANGE_MAX : Z := 8.

(** UdpExchange.init: with no reply yet. *)
Definition exchange_init (port : Z) (request : list Z) (buf_len : Z) : ns_udp_exchange * answer :=
  (Exchange request buf_len port, no_answer).

(** What becomes of each exchange's reply. *)
Definition udpExchangeAll (fuel : nat) (ip : ip4) (xs : list ns_udp_exchange) (timeout_ms : Z) : M E (list answer) :=
  assert (Z.of_nat (length xs) <=? UDP_EXCHANGE_MAX);;
  udp_exchange_all os fuel (Some ip) xs timeout_ms.

(** ** Multicast sockets *)

Definition localAddress (first last : ip4) : M E (option ip4) := mc_local_address os (Some first) (Some last) true.

(** The handle; mc_open's [None] is MC_NO_SOCKET. *)
Definition socket_open (local : ip4) : M E (option Z) := mc_open os (Some local).

Definition socket_wake (handle : Z) : M E unit := mc_wake (Some handle).

Definition socket_close (handle : Z) : M E unit := mc_close (Some handle).

(** *** What the shortcuts skip *)

(** Zig reads every int of the enum as the value C meant. *)
Lemma toTcpProbe_value r : backing_int (toTcpProbe (tcp_probe_value r)) = tcp_probe_value r.
Proof. by destruct r. Qed.

(** An int that is no value of the enum is no answer. *)
Lemma toTcpProbe_other raw : (∀ r, tcp_probe_value r ≠ raw) → toTcpProbe raw = tp_filtered.
Proof.
  intros Hno. unfold toTcpProbe. repeat case_match; try done; to_prop; subst.
  - by destruct (Hno TCP_PROBE_OPEN).
  - by destruct (Hno TCP_PROBE_REFUSED).
  - by destruct (Hno TCP_PROBE_PENDING).
  - by destruct (Hno TCP_PROBE_UNCONFIRMED).
  - by destruct (Hno TCP_PROBE_NO_SOCKET).
  - by destruct (Hno TCP_PROBE_NO_ADDRESS).
Qed.

Lemma to_icmp_sweep_value r :
  to_icmp_sweep (icmp_ping_value r) =
    match r with ICMP_PING_DONE => Some is_done | ICMP_PING_UNAVAILABLE => Some is_unavailable | ICMP_PING_NO_MEMORY => None end.
Proof. by destruct r. Qed.

Lemma start_through target e :
  Probe.start Windows target e =
    (r ← tcpProbeStart (t_ip target) (t_port target) (t_timeout_ms target); mret (started_by r)) e.
Proof.
  unfold Probe.start, tcpProbeStart, mbind, M_bind, mret, M_ret. destruct (tcp_probe_start _ _ _ e) as [[[[raw sock] e'] t]|]; [|done].
  rewrite !app_nil_r. by destruct raw.
Qed.

Lemma wait_through socks wait_ms e :
  Z.of_nat (length socks) <= TCP_PROBE_MAX_SOCKETS →
  waitSettled Windows socks wait_ms e =
    ('(ok, settled) ← tcpProbeWait socks wait_ms (length socks); mret (if (ok : bool) then settled else none_ready socks)) e.
Proof.
  intros Hl. unfold waitSettled, windows_wait, tcpProbeWait, assert, mbind, M_bind, mret, M_ret.
  rewrite (proj2 (Z.leb_le _ _)), Nat.leb_refl by done. cbn [andb].
  destruct (tcp_probe_wait socks wait_ms e) as [[[[n settled] e'] t]|]; [|done]. by rewrite !app_nil_r.
Qed.

Lemma finish_through sock settled e :
  Probe.finish Windows sock settled e = (r ← tcpProbeFinish sock settled; mret (verdict_by r)) e.
Proof.
  unfold Probe.finish, tcpProbeFinish, mbind, M_bind, mret, M_ret. destruct (tcp_probe_finish sock settled e) as [[[raw e'] t]|]; [|done].
  rewrite !app_nil_r. by destruct raw.
Qed.

Lemma reverse_dns_through ip e :
  reverse_dns os ip e =
    (found ← resolvePtr (formatIp ip) 256;
     mret match found with
          | None => []
          | Some ptr_name =>
            if negb (bool_decide (ptr_name = formatIp ip)) && negb (endsWith ptr_name in_addr_arpa)
               && negb (endsWith ptr_name ip6_arpa) && negb (is_address ptr_name)
            then let clean_name := cleanDomainName ptr_name in if is_address clean_name then [] else clean_name
            else []
          end) e.
Proof.
  unfold reverse_dns, resolvePtr, mbind, M_bind, mret, M_ret. destruct (resolve_ptr os _ _ _ e) as [[[found e'] t]|]; [|done].
  rewrite !app_nil_r. by destruct found.
Qed.

(** What the name lookups exchange passes the assertion. *)
Lemma exchange_through fuel ip xs timeout_ms e :
  Z.of_nat (length xs) <= UDP_EXCHANGE_MAX → udpExchangeAll fuel ip xs timeout_ms e = udp_exchange_all os fuel (Some ip) xs timeout_ms e.
Proof.
  intros Hl. unfold udpExchangeAll, assert, mbind, M_bind. rewrite (proj2 (Z.leb_le _ _)) by done.
  by destruct (udp_exchange_all _ _ _ _ _ e) as [[[? ?] ?]|].
Qed.
End Bindings.

(** ** The ping sweep *)

Section Sweep.
Context {E : Type} `{EchoLaw E}.
Variables (os : platform) (fuel : nat) (garbage : list Z).

(** icmpPingSweep: with it what was reported through the observer (the
    log). *)
Definition icmpPingSweep (ips : list ip4) (timeout_ms max_in_flight : Z) : M E (option IcmpSweep) :=
  raw ← match os with
        | Windows => win_ping_sweep fuel ips timeout_ms max_in_flight
        | _ => icmp_ping_sweep os fuel garbage ips timeout_ms max_in_flight
        end;
  mret (to_icmp_sweep (icmp_ping_value raw)).

Lemma ping_sweep_through ips e :
  icmpPingSweep ips PING_TIMEOUT_MS MAX_PINGS_IN_FLIGHT e =
    match icmpSweep os fuel garbage ips e with
    | Some (r, e', t) =>
      Some (match r with ICMP_PING_DONE => Some is_done | ICMP_PING_UNAVAILABLE => Some is_unavailable | ICMP_PING_NO_MEMORY => None end, e', t)
    | None => None
    end.
Proof.
  unfold icmpPingSweep, icmpSweep, mbind, M_bind, mret, M_ret.
  destruct os; match goal with |- match ?m with _ => _ end = _ => destruct m as [[[r e'] t]|]; [|done] end; by rewrite app_nil_r, to_icmp_sweep_value.
Qed.
End Sweep.
