(* ===== verification/Harvest.v ===== *)
(** * scanner.zig: harvestArp

    The reading of the neighbour table (Discovery.v), then the check of its
    old entries: a ping sweep of the candidates (Pings.v) and, on Windows, a
    pool of workers (Pool.v) that ask the unanswered ones by ARP. *)
From stdpp Require Import countable gmap relations.
From S2P Require Import Prelude Words Ranges Sys Script NsSocket IcmpWire SweepSpec IcmpSweep IcmpSweepWin NeighborList Discovery Pool Pings.
Open Scope Z_scope.

(** ARP workers at most *)
Definition ARP_WORKERS : nat := 8.

(** The hosts whose ping went unanswered; [room i]: the list can grow. *)
Fixpoint unconfirmed (room : nat → bool) (i : nat) (candidates : list ip4) (alive : list bool) : list ip4 :=
  match candidates, alive with
  | ip :: candidates, is_up :: alive =>
    (if negb is_up && room i then [ip] else []) ++ unconfirmed room (S i) candidates alive
  | _, _ => []
  end.

(** The work on one of them. *)
Definition arp_job (targets : list ip4) (i : nat) (ops : list act) : Prop :=
  ∃ ip mac mac_room room, targets !! i = Some ip ∧ ops = arp_confirm mac_room room ip mac.

(** What the observer of the candidates' pings does. *)
Definition confirm_acts (os : platform) (room : nat → bool) (candidates : list ip4) (calls : list (nat * bool)) : list act :=
  flat_map (λ c, match candidates !! c.1 with Some ip => confirm_pinged os (room c.1) ip c.2 | None => [] end) calls.

Section Harvest.
Context {E : Type} `{EchoLaw E}.
Variables (os : platform) (fuel : nat) (garbage : list Z).

(** The second phase: the candidates, what is done, whether it was cut short,
    by a stop request, an error or for want of memory, and, for an error of
    the sweep, which. *)
Inductive confirms (candidates : list ip4) : list act → bool → option ping_result → Prop :=
| co_failed r calls stopped room :
    pingSweep os fuel garbage candidates r calls stopped → (∀ alive, r ≠ pings_alive alive) →
    confirms candidates (confirm_acts os room candidates calls) true (Some r)
| co_pinged alive calls stopped room :
    os ≠ Windows → pingSweep os fuel garbage candidates (pings_alive alive) calls stopped →
    confirms candidates (confirm_acts os room candidates calls) stopped None
| co_none alive calls stopped room room' :
    os = Windows → pingSweep os fuel garbage candidates (pings_alive alive) calls stopped →
    unconfirmed room' 0 candidates alive = [] →
    confirms candidates (confirm_acts os room candidates calls)
      (stopped || negb (bool_decide (unconfirmed (λ _, true) 0 candidates alive = []))) None
| co_asked alive calls stopped room room' p :
    os = Windows → pingSweep os fuel garbage candidates (pings_alive alive) calls stopped →
    let targets := unconfirmed room' 0 candidates alive in
    targets ≠ [] → rtc (pool_step (arp_job targets) (length targets)) (pool_start (length targets) ARP_WORKERS) p →
    po_caller p = c_returned →
    confirms candidates (confirm_acts os room candidates calls ++ map snd (po_log p))
      (stopped || po_stopped p || negb (bool_decide (targets = unconfirmed (λ _, true) 0 candidates alive))) None.

(** harvestArp with what readNeighbors gave it: what reading the table does,
    and, if there is a second phase, its candidates, what it does and whether
    it was cut short, and the error that ended it, if one did. *)
Inductive harvestArp (known_before : option (list neighbor)) (first_ip last_ip : ip4) :
    option (list neighbor) → list act → option (list ip4 * list act * bool) → option ping_result → Prop :=
| ha_no_table : harvestArp known_before first_ip last_ip None [] None None
| ha_over rounds candidates acts :
    let table := map rd_entry rounds in
    harvest_loop known_before table first_ip last_ip rounds [] = (candidates, acts) →
    harvestArp known_before first_ip last_ip (Some table) acts None None
| ha_confirm rounds candidates acts acts' cut failure :
    let table := map rd_entry rounds in
    harvest_loop known_before table first_ip last_ip rounds [] = (candidates, acts) →
    candidates ≠ [] → confirms candidates acts' cut failure →
    harvestArp known_before first_ip last_ip (Some table) acts (Some (candidates, acts', cut)) failure.
End Harvest.

(** ** Counting *)

Lemma counted_app acts acts' : counted (acts ++ acts') = (counted acts + counted acts')%nat.
Proof. unfold counted. by rewrite filter_app, length_app. Qed.

Lemma counted_perm acts acts' : acts ≡ₚ acts' → counted acts = counted acts'.
Proof. intros Hp. unfold counted. by rewrite Hp. Qed.

Lemma counted_each {B} (f : B → list act) (l : list B) :
  (∀ x, x ∈ l → counted (f x) = 1%nat) → counted (flat_map f l) = length l.
Proof.
  induction l as [|x l IH]; intros Hall; [done|]. simpl. rewrite counted_app, IH by (intros y Hy; apply Hall; by apply list_elem_of_further).
  by rewrite Hall by apply list_elem_of_here.
Qed.

Lemma counted_confirm os room ip (a : bool) : counted (confirm_pinged os room ip a) = if bool_decide (os = Windows) then Nat.b2n a else 1%nat.
Proof. unfold confirm_pinged. by destruct os, a. Qed.

Lemma counted_arp mr r ip mac : counted (arp_confirm mr r ip mac) = 1%nat.
Proof. by destruct mac. Qed.

(** The pings' calls that are for a candidate. *)
Lemma confirm_counts os room candidates calls :
  (∀ i, i ∈ calls.*1 → (i < length candidates)%nat) →
  counted (confirm_acts os room candidates calls) =
    if bool_decide (os = Windows) then length (filter (λ c, c.2 = true) calls) else length calls.
Proof.
  induction calls as [|[i a] calls IH]; intros Hin; [by case_match|]. unfold confirm_acts in *. simpl in *.
  destruct (lookup_lt_is_Some_2 candidates i) as [ip ->]; [apply Hin, list_elem_of_here|].
  rewrite counted_app, counted_confirm, IH by (intros j Hj; apply Hin; by apply list_elem_of_further).
  destruct (bool_decide _); [|done]. rewrite filter_cons. simpl. destruct a; [by rewrite decide_True|by rewrite decide_False].
Qed.

Lemma unconfirmed_counts candidates : ∀ i alive,
  length alive = length candidates →
  (length (unconfirmed (λ _, true) i candidates alive) + length (filter (λ a, a = true) alive) = length candidates)%nat.
Proof.
  induction candidates as [|ip candidates IH]; intros i [|a alive] Hlen; simplify_eq/=; [done|].
  rewrite length_app, filter_cons. specialize (IH (S i) alive Hlen). destruct a; simpl; lia.
Qed.

Lemma unconfirmed_fewer room candidates : ∀ i alive,
  (length (unconfirmed room i candidates alive) ≤ length (unconfirmed (λ _, true) i candidates alive))%nat.
Proof.
  induction candidates as [|ip candidates IH]; intros i [|a alive]; simpl; try lia. rewrite !length_app.
  specialize (IH (S i) alive). destruct a, (room i); simpl; lia.
Qed.

Lemma unconfirmed_elem room candidates : ∀ i alive ip, ip ∈ unconfirmed room i candidates alive → ip ∈ candidates.
Proof.
  induction candidates as [|ip' candidates IH]; intros i [|a alive] ip; simpl; try by intros ?%not_elem_of_nil.
  intros [Hin|Hin]%elem_of_app; [|by apply list_elem_of_further; eapply IH].
  destruct (_ && _); [apply list_elem_of_singleton in Hin as ->; apply list_elem_of_here|by apply not_elem_of_nil in Hin].
Qed.

Lemma filter_same {B} (P Q : B → Prop) `{!∀ x, Decision (P x), !∀ x, Decision (Q x)} (l : list B) :
  (∀ x, x ∈ l → P x ↔ Q x) → filter P l = filter Q l.
Proof.
  induction l as [|x l IH]; intros Hx; [done|]. rewrite !filter_cons, IH by (intros y Hy; apply Hx; by apply list_elem_of_further).
  specialize (Hx x (list_elem_of_here _ _)). destruct (decide (P x)), (decide (Q x)); naive_solver.
Qed.

(** Who answered, counted by call and by array. *)
Lemma answered_counts alive calls :
  NoDup calls.*1 → (∀ i, alive !! i = Some true ↔ (i, true) ∈ calls) →
  length (filter (λ c, c.2 = true) calls) = length (filter (λ a, a = true) alive).
Proof.
  intros Hn Hal. assert (∀ start (l : list bool),
    length (filter (λ i, (l !! (i - start)%nat) = Some true) (seq start (length l))) = length (filter (λ a, a = true) l)) as Hcount.
  { intros start l. revert start. induction l as [|a l IH]; intros start; [done|]. simpl. rewrite !filter_cons, Nat.sub_diag. simpl.
    assert (filter (λ i, (a :: l) !! (i - start)%nat = Some true) (seq (S start) (length l)) =
      filter (λ i, l !! (i - S start)%nat = Some true) (seq (S start) (length l))) as ->.
    { apply filter_same. intros i Hi%elem_of_seq. by replace (i - start)%nat with (S (i - S start)) by lia. }
    destruct a; simpl; [|by apply IH]. f_equal. apply IH. }
  rewrite <- (Hcount 0%nat alive). rewrite <- (length_fmap fst). apply Permutation_length, NoDup_Permutation.
  - eapply sublist_NoDup; [exact Hn|]. apply fmap_sublist, sublist_filter.
  - apply NoDup_filter, NoDup_seq.
  - intros i. rewrite list_elem_of_filter, Nat.sub_0_r, elem_of_seq, Hal, list_elem_of_fmap. split.
    + intros ([j a] & -> & [Ha Hin]%list_elem_of_filter). simpl in *. subst a. split; [done|].
      apply Hal, lookup_lt_Some in Hin. lia.
    + intros [Hin _]. exists (i, true). split; [done|]. by apply list_elem_of_filter.
Qed.

(** ** The whole phase *)

Section Counts.
Context {E : Type} `{EchoLaw E}.
Variables (os : platform) (fuel : nat) (garbage : list Z).

(** What the pool of ARP workers does. *)
Lemma asked_run targets p :
  rtc (pool_step (arp_job targets) (length targets)) (pool_start (length targets) ARP_WORKERS) p → po_caller p = c_returned →
  (counted (map snd (po_log p)) ≤ length targets)%nat ∧ (po_stopped p = false → counted (map snd (po_log p)) = length targets) ∧
  ∀ ip source room, a_report ip source room ∈ map snd (po_log p) → ip ∈ targets ∧ source = by_arp.
Proof.
  intros Hr Hc. destruct (pool_end _ _ _ _ Hr Hc) as (n & Hn & Hall & Hjob & Hin). apply log_split in Hin as Hsplit.
  assert (counted (map snd (po_log p)) = n) as Hcount.
  { rewrite (counted_perm _ _ Hsplit), counted_each, length_seq; [done|]. intros i Hi%elem_of_seq.
    destruct (Hjob i) as (ip & mac & mr & r & _ & ->); [lia|]. apply counted_arp. }
  split; [lia|]. split; [intros Hun; by rewrite Hcount, (Hall Hun)|]. intros ip source room Ha.
  rewrite Hsplit in Ha. apply list_elem_of_In, in_flat_map in Ha as (i & Hi%list_elem_of_In%elem_of_seq & Ha%list_elem_of_In).
  destruct (Hjob i) as (ip' & mac & mr & r & Hip & Hops); [lia|]. rewrite Hops in Ha. unfold arp_confirm in Ha.
  apply elem_of_app in Ha as [Ha|Ha%list_elem_of_singleton]; [|done]. destruct mac; [|by apply not_elem_of_nil in Ha].
  apply elem_of_cons in Ha as [|[= -> -> ->]%list_elem_of_singleton]; [done|]. split; [by eapply list_elem_of_lookup_2|done].
Qed.

Lemma confirm_reports room candidates calls ip source r :
  a_report ip source r ∈ confirm_acts os room candidates calls → ip ∈ candidates ∧ source = by_arp.
Proof.
  unfold confirm_acts. intros Ha. apply list_elem_of_In, in_flat_map in Ha as ([i a] & _ & Ha%list_elem_of_In). simpl in Ha.
  destruct (candidates !! i) as [ip'|] eqn:Hip; [|by apply not_elem_of_nil in Ha]. unfold confirm_pinged in Ha.
  apply elem_of_app in Ha as [Ha|Ha].
  - destruct a; [|by apply not_elem_of_nil in Ha]. apply list_elem_of_singleton in Ha as [= -> -> ->].
    split; [by eapply list_elem_of_lookup_2|done].
  - destruct (_ || _); [by apply list_elem_of_singleton in Ha|by apply not_elem_of_nil in Ha].
Qed.

(** The calls of a sweep that ended. *)
Lemma pinged_counts room candidates alive calls stopped :
  Z.of_nat (length candidates) < 18446744073709551616 → pingSweep os fuel garbage candidates (pings_alive alive) calls stopped →
  (counted (confirm_acts os room candidates calls) + (if bool_decide (os = Windows) then length (unconfirmed (λ _, true) 0 candidates alive) else 0)
    ≤ length candidates)%nat ∧
  (stopped = false →
    counted (confirm_acts os room candidates calls) + (if bool_decide (os = Windows) then length (unconfirmed (λ _, true) 0 candidates alive) else 0)
    = length candidates)%nat.
Proof.
  intros Hl Hp. apply pingSweep_run in Hp as (Hn & Hr & Hlen & Hal & Hall); [|done]. rewrite confirm_counts by done.
  pose proof (unconfirmed_counts candidates 0 alive Hlen) as Hu. rewrite <- (answered_counts alive calls Hn Hal) in Hu.
  assert (length calls ≤ length candidates)%nat as Hle.
  { rewrite <- (length_fmap fst). rewrite <- (length_seq (length candidates) 0). apply submseteq_length, NoDup_submseteq; [done|].
    intros i Hi%Hr. apply elem_of_seq. lia. }
  destruct (bool_decide (os = Windows)); [lia|]. split; [lia|]. intros Hun%Hall%Permutation_length.
  rewrite length_fmap, length_seq in Hun. lia.
Qed.

(** What the second phase counts and reports. *)
Lemma confirms_run candidates acts cut failure :
  Z.of_nat (length candidates) < 18446744073709551616 → confirms os fuel garbage candidates acts cut failure →
  (counted acts ≤ length candidates)%nat ∧ (cut = false → counted acts = length candidates) ∧
  ∀ ip source room, a_report ip source room ∈ acts → ip ∈ candidates ∧ source = by_arp.
Proof.
  intros Hl Hc. destruct Hc as [r calls stopped room Hp Hr|alive calls stopped room Hos Hp|alive calls stopped room room' Hos Hp Hu|
    alive calls stopped room room' p Hos Hp targets Ht Hpool Hret].
  - split; [|split; [done|apply confirm_reports]]. apply pingSweep_run in Hp as (Hn & Hrange & _); [|done].
    rewrite confirm_counts by done.
    assert (length calls ≤ length candidates)%nat as Hle.
    { rewrite <- (length_fmap fst). rewrite <- (length_seq (length candidates) 0). apply submseteq_length, NoDup_submseteq; [done|].
      intros i Hi%Hrange. apply elem_of_seq. lia. }
    destruct (bool_decide _); [|done]. etrans; [apply length_filter|done].
  - destruct (pinged_counts room _ _ _ _ Hl Hp) as [H1 H2]. rewrite bool_decide_false in * by done.
    split; [lia|]. split; [intros Hs%H2; lia|apply confirm_reports].
  - destruct (pinged_counts room _ _ _ _ Hl Hp) as [H1 H2]. rewrite (bool_decide_true (os = Windows)) in * by done.
    split; [lia|]. split; [|apply confirm_reports]. intros [Hs Hcut%negb_false_iff%bool_decide_eq_true]%orb_false_iff.
    rewrite Hcut in H2. simpl in H2. rewrite Nat.add_0_r in H2. by apply H2.
  - destruct (pinged_counts room _ _ _ _ Hl Hp) as [H1 H2]. rewrite (bool_decide_true (os = Windows)) in * by done.
    destruct (asked_run targets p Hpool Hret) as (Hle & Hall & Hrep). rewrite counted_app.
    pose proof (unconfirmed_fewer room' candidates 0 alive) as Hfew. fold targets in Hfew. split; [lia|]. split.
    + intros Hcut. apply orb_false_iff in Hcut as [[Hs Hps]%orb_false_iff Hroom%negb_false_iff%bool_decide_eq_true]. rewrite (Hall Hps), Hroom. by apply H2.
    + intros ip source r [Ha|Ha]%elem_of_app; [by eapply confirm_reports|].
      destruct (Hrep _ _ _ Ha) as [Hin ->]. split; [by eapply unconfirmed_elem|done].
Qed.

(** C18: The progress of the ARP check.  The second phase is announced with one
    unit for each candidate, none listed twice; however its pings and its ARP
    workers interleave it never counts more, and, unless it was stopped or
    failed, it counts every one, on Windows too, where an unanswered candidate
    is counted only after its second check.  It reports candidates only. *)
Theorem harvestArp_counts known_before first_ip last_ip table acts candidates acts' cut failure :
  harvestArp os fuel garbage known_before first_ip last_ip table acts (Some (candidates, acts', cut)) failure →
  Z.of_nat (length candidates) < 18446744073709551616 →
  candidates ≠ [] ∧ NoDup candidates ∧
  (counted acts' ≤ length candidates)%nat ∧ (cut = false → counted acts' = length candidates) ∧
  ∀ ip source room, a_report ip source room ∈ acts' → ip ∈ candidates ∧ source = by_arp.
Proof.
  intros Hh Hl. inversion Hh as [| |rounds ? ? ? ? ? ? Hloop Hne Hc]; subst. split; [done|].
  apply harvest_loop_run in Hloop as [(more & -> & Hn & _) _ _ _]. split; [by apply Hn, NoDup_nil_2|]. by eapply confirms_run.
Qed.
End Counts.

(** Two old entries, of which the second answers. *)
Definition old_entry (ip : ip4) : neighbor := {| ne_ip := ip; ne_mac := None; ne_state := stale |}.

Definition old_rounds : list round :=
  map (λ ip, {| rd_entry := old_entry ip; rd_found := false; rd_mac_room := true; rd_room := true |}) two_hosts.

Lemma harvestArp_counts_witness :
  ∃ acts acts', harvestArp (E := script) Linux 50 [] (Some (map old_entry two_hosts)) (IP 10 0 0 1) (IP 10 0 0 254)
      (Some (map rd_entry old_rounds)) acts
      (Some (two_hosts, acts', false)) None ∧
    two_hosts ≠ [] ∧ NoDup two_hosts ∧ (counted acts' ≤ length two_hosts)%nat ∧
    (false = false → counted acts' = length two_hosts) ∧
    ∀ ip source room, a_report ip source room ∈ acts' → ip ∈ two_hosts ∧ source = by_arp.
Proof.
  assert (∃ acts, harvest_loop (Some (map old_entry two_hosts)) (map rd_entry old_rounds) (IP 10 0 0 1) (IP 10 0 0 254) old_rounds [] =
    (two_hosts, acts)) as [acts Hloop] by (eexists; vm_compute; reflexivity).
  assert (harvestArp (E := script) Linux 50 [] (Some (map old_entry two_hosts)) (IP 10 0 0 1) (IP 10 0 0 254)
      (Some (map rd_entry old_rounds)) acts
    (Some (two_hosts, confirm_acts Linux (λ _, true) two_hosts [(1, true); (0, false)]%nat, false)) None) as Hh.
  { eapply ha_confirm; [exact Hloop|done|]. by eapply co_pinged; [|exact two_pinged]. }
  exists acts, (confirm_acts Linux (λ _, true) two_hosts [(1, true); (0, false)]%nat). split; [exact Hh|].
  apply (harvestArp_counts (E := script) Linux 50 [] (Some (map old_entry two_hosts)) (IP 10 0 0 1) (IP 10 0 0 254) _ acts two_hosts
    _ false None Hh). vm_compute. reflexivity.
Defined.
