(* ===== verification/Results.v ===== *)
(** * scanner.zig: the results of a discovery

    What reportResults prints once the workers are done: the hosts found in
    order, and, when asked for, their details: MACs and manufacturers, read
    one by one, and names, looked up by a pool of workers (Pool.v). *)
From stdpp Require Import countable gmap sorting relations.
From S2P Require Import Prelude Words Ranges Sys Script NsSocket Resolver Packets Names Packed Oui Discovery Pool.
Open Scope Z_scope.

Definition NAME_WORKERS : nat := 16.

Definition ipLessThan (a b : ip4) : bool := ipToU32 a <? ipToU32 b.

(** std.mem.sort *)
Definition ip_le (a b : ip4) : Prop := ipLessThan b a = false.

#[export] Instance ip_le_dec : RelDecision ip_le.
Proof. intros a b. unfold ip_le. apply _. Defined.

Definition sort_found (ips : list ip4) : list ip4 := merge_sort ip_le ips.

Record HostDetail := {
  hd_ip : ip4;
  hd_hostname : option (list Z);
  hd_mac : option (list Z);
  hd_vendor : option (list Z)
}.

(** What is asked for. *)
Record wants := { resolve_hostname : bool; resolve_vendor : bool }.

Definition set_hostname (name : option (list Z)) (d : HostDetail) : HostDetail :=
  {| hd_ip := hd_ip d; hd_hostname := name; hd_mac := hd_mac d; hd_vendor := hd_vendor d |}.

(** ** Details *)

Section Details.
Variables (options : wants) (d : Discovery).
(** What SendARP says of a host. *)
Variable send_arp : ip4 → option (list Z).
(** The embedded table, and the file's entries, if a file was loaded. *)
Variables (table : Table) (oui_db : OuiDatabase).

Definition first_detail (ip : ip4) : HostDetail :=
  {| hd_ip := ip; hd_hostname := None;
     hd_mac := match dv_macs d !! ip with
               | Some mac => Some mac
               | None => if resolve_vendor options then send_arp ip else None
               end;
     hd_vendor := None |}.

(** [None] is a read outside the tables. *)
Definition with_vendor (detail : HostDetail) : option HostDetail :=
  match hd_mac detail with
  | None => Some detail
  | Some mac =>
    vendor ← lookup table oui_db mac;
    Some {| hd_ip := hd_ip detail; hd_hostname := hd_hostname detail; hd_mac := hd_mac detail; hd_vendor := vendor |}
  end.

(** collectDetails before the names *)
Definition details_of (found : list ip4) : option (list HostDetail) :=
  let details := map first_detail found in
  if resolve_vendor options then mapM with_vendor details else Some details.
End Details.

(** ** Names *)

(** One operation of a worker on a host. *)
Inductive name_op := n_hear (heard : option (list Z)) | n_resolve (name : option (list Z)) | n_advance.

Definition apply_name (op : name_op) (detail : HostDetail) : HostDetail :=
  match op with n_resolve name => set_hostname name detail | _ => detail end.

(** A host counted. *)
Definition is_count (op : name_op) : bool := match op with n_advance => true | _ => false end.

Section Lookups.
Context {E : Type} `{Env E}.
Variables (os : platform) (names : option Discovery).

(** cache.get, if there is a cache *)
Definition heard_of (ip : ip4) : option (list Z) := d ← names; get_name ip d.

(** A result of resolveHostName. *)
Definition resolves (ip : ip4) (heard name : option (list Z)) : Prop :=
  ∃ fuel (e : E) r e' t, resolveHostName os fuel ip heard e = Some (r, e', t) ∧ name = snd <$> r.

(** What a worker does with one index. *)
Definition name_job (ips : list ip4) (i : nat) (ops : list name_op) : Prop :=
  ∃ ip name, ips !! i = Some ip ∧ resolves ip (heard_of ip) name ∧
    ops = [n_hear (heard_of ip); n_resolve name; n_advance].

(** resolveHostnames: the details after it, the units counted, and whether it
    was stopped. *)
Inductive resolveHostnames (details : list HostDetail) : list HostDetail → nat → bool → Prop :=
| resolved p :
    rtc (pool_step (name_job (map hd_ip details)) (length details)) (pool_start (length details) NAME_WORKERS) p →
    po_caller p = c_returned →
    resolveHostnames details (foldl (λ ds x, alter (apply_name x.2) x.1 ds) details (po_log p))
      (length (filter is_count (map snd (po_log p)))) (po_stopped p).
End Lookups.

(** ** The report *)

Inductive report := plain (ips : list ip4) | detailed (details : list HostDetail).

Definition reported_ips (r : report) : list ip4 :=
  match r with plain ips => ips | detailed details => map hd_ip details end.

Section Report.
Context {E : Type} `{Env E}.
Variables (os : platform) (names : option Discovery) (send_arp : ip4 → option (list Z)) (table : Table) (oui_db : OuiDatabase).

(** reportResults: what is printed, the units of the name lookups counted, and
    whether those were stopped. *)
Inductive reportResults (options : wants) (d : Discovery) : report → nat → bool → Prop :=
| rr_plain :
    resolve_hostname options = false → resolve_vendor options = false →
    reportResults options d (plain (sort_found (dv_found d))) 0 false
| rr_no_memory :
    resolve_hostname options || resolve_vendor options = true →
    reportResults options d (plain (sort_found (dv_found d))) 0 false
| rr_unnamed details :
    details_of options d send_arp table oui_db (sort_found (dv_found d)) = Some details →
    resolve_hostname options = false ∨ details = [] →
    reportResults options d (detailed details) 0 false
| rr_named details details' counted stopped :
    details_of options d send_arp table oui_db (sort_found (dv_found d)) = Some details →
    resolve_hostname options = true → details ≠ [] →
    resolveHostnames (E := E) os names details details' counted stopped →
    reportResults options d (detailed details') counted stopped.
End Report.

(** ** In order *)

Lemma ip_le_value a b : ip_ok a → ip_ok b → ip_le a b ↔ ip_value a <= ip_value b.
Proof.
  intros Ha Hb. unfold ip_le, ipLessThan. rewrite !ipToU32_value by done. rewrite Z.ltb_ge. done.
Qed.

Lemma ip_le_u32 a b : ip_le a b ↔ ipToU32 a <= ipToU32 b.
Proof. unfold ip_le, ipLessThan. by rewrite Z.ltb_ge. Qed.

Lemma sort_found_perm ips : sort_found ips ≡ₚ ips.
Proof. apply merge_sort_Permutation. Qed.

Lemma sort_found_sorted ips : NoDup ips → Forall ip_ok ips → StronglySorted (λ a b, ip_value a < ip_value b) (sort_found ips).
Proof.
  intros Hn Hok. pose proof (sort_found_perm ips) as Hp. rewrite <- Hp in Hn, Hok.
  assert (StronglySorted ip_le (sort_found ips)) as Hs.
  { assert (Transitive ip_le) by (intros a b c; rewrite !ip_le_u32; lia).
    assert (Total ip_le) by (intros a b; rewrite !ip_le_u32; lia). by apply StronglySorted_merge_sort. }
  clear Hp. induction Hs as [|ip l _ IH Hle]; [constructor|].
  apply NoDup_cons in Hn as [Hni Hn]. apply Forall_cons in Hok as [Hip Hok]. constructor; [by apply IH|].
  rewrite Forall_forall in *. intros b Hb. pose proof (Hle b Hb) as Hab. rewrite ip_le_value in Hab by auto.
  assert (ip_value ip ≠ ip_value b); [|lia]. intros Heq. apply Hni. apply ip_value_inj in Heq; auto. by subst.
Qed.

(** ** The details of each *)

Section Reported.
Context {E : Type} `{Env E}.
Variables (os : platform) (names : option Discovery) (send_arp : ip4 → option (list Z)) (table : Table) (oui_db : OuiDatabase).
Variables (options : wants) (d : Discovery).

(** What a detail says of its host, the name apart. *)
Record detail_ok (detail : HostDetail) : Prop := {
  do_mac : hd_mac detail = hd_mac (first_detail options d send_arp (hd_ip detail));
  do_vendor : if resolve_vendor options
    then match hd_mac detail with Some mac => lookup table oui_db mac = Some (hd_vendor detail) | None => hd_vendor detail = None end
    else hd_vendor detail = None
}.

Lemma details_of_ok found details :
  details_of options d send_arp table oui_db found = Some details →
  map hd_ip details = found ∧ Forall detail_ok details ∧ Forall (λ detail, hd_hostname detail = None) details.
Proof.
  unfold details_of. destruct (resolve_vendor options) eqn:Hv.
  - rewrite mapM_Some. intros Hall. assert (Forall2 (λ ip detail, with_vendor table oui_db (first_detail options d send_arp ip) = Some detail)
      found details) as Hf by by rewrite Forall2_fmap_l in Hall.
    clear Hall. induction Hf as [|ip detail found details Hd _ (H1 & H2 & H3)]; [by repeat constructor|].
    assert (hd_ip detail = ip ∧ detail_ok detail ∧ hd_hostname detail = None) as (Hip & Hok & Hno).
    { unfold with_vendor in Hd. destruct (hd_mac (first_detail options d send_arp ip)) as [mac|] eqn:Hm.
      - destruct (lookup table oui_db mac) as [vendor|] eqn:Hl; [|done]. cbn [mbind option_bind] in Hd. simplify_eq.
        split; [done|]. split; [|done]. split; [done|]. rewrite Hv. exact Hl.
      - simplify_eq. split; [done|]. split; [|done]. split; [done|]. by rewrite Hv, Hm. }
    simpl. rewrite Hip, H1. repeat split; by constructor.
  - intros [= <-]. rewrite map_map. simpl. rewrite map_id. split; [done|]. split; apply Forall_forall.
    + intros detail (ip & -> & _)%list_elem_of_fmap. split; [done|]. by rewrite Hv.
    + by intros detail (ip & -> & _)%list_elem_of_fmap.
Qed.

Lemma apply_keeps ops detail :
  hd_ip (foldl (λ b op, apply_name op b) detail ops) = hd_ip detail ∧
  hd_mac (foldl (λ b op, apply_name op b) detail ops) = hd_mac detail ∧
  hd_vendor (foldl (λ b op, apply_name op b) detail ops) = hd_vendor detail.
Proof.
  revert detail. induction ops as [|op ops IH]; intros detail; [done|]. simpl. destruct (IH (apply_name op detail)) as (-> & -> & ->).
  by destruct op.
Qed.

(** The lookups by host. *)
Lemma named_run details details' counted stopped :
  Forall (detail_ok) details → Forall (λ detail, hd_hostname detail = None) details →
  resolveHostnames (E := E) os names details details' counted stopped →
  map hd_ip details' = map hd_ip details ∧ Forall detail_ok details' ∧
  Forall (λ detail, hd_hostname detail = None ∨
    resolves (E := E) os (hd_ip detail) (heard_of names (hd_ip detail)) (hd_hostname detail)) details' ∧
  (stopped = false → counted = length details ∧
    Forall (λ detail, resolves (E := E) os (hd_ip detail) (heard_of names (hd_ip detail)) (hd_hostname detail)) details').
Proof.
  intros Hok Hno Hr. destruct Hr as [p Hr Hc]. destruct (pool_end _ _ _ _ Hr Hc) as (n & Hn & Hall & Hjob & Hin).
  set (details' := foldl _ details (po_log p)).
  assert (∀ i, details' !! i = (λ b, foldl (λ b op, apply_name op b) b (of_index i (po_log p))) <$> details !! i) as Hat
    by (intros i; apply log_at).
  assert (∀ i detail', details' !! i = Some detail' → ∃ detail, details !! i = Some detail ∧ hd_ip detail' = hd_ip detail ∧
    hd_mac detail' = hd_mac detail ∧ hd_vendor detail' = hd_vendor detail ∧
    ((n ≤ i)%nat → hd_hostname detail' = None) ∧
    ((i < n)%nat → resolves (E := E) os (hd_ip detail') (heard_of names (hd_ip detail')) (hd_hostname detail'))) as Hone.
  { intros i detail' Hi. rewrite Hat in Hi. destruct (details !! i) as [detail|] eqn:Hd; [|done]. simpl in Hi. injection Hi as <-.
    exists detail. destruct (apply_keeps (of_index i (po_log p)) detail) as (H1 & H2 & H3). rewrite H1.
    split; [done|]. split; [done|]. split; [done|]. split; [done|]. split.
    - intros Hge. assert (of_index i (po_log p) = []) as ->; [|simpl; by eapply Forall_lookup_1 in Hno].
      destruct (of_index i (po_log p)) as [|op ops] eqn:Hops; [done|]. assert (op ∈ of_index i (po_log p)) as Hop
        by (rewrite Hops; apply list_elem_of_here). unfold of_index in Hop.
      apply list_elem_of_fmap in Hop as ([j op'] & -> & [Hj Hop]%list_elem_of_filter). simpl in Hj. subst j.
      apply Hin in Hop. lia.
    - intros Hlt. destruct (Hjob i Hlt) as (ip & name & Hip & Hres & ->). simpl.
      rewrite list_lookup_fmap, Hd in Hip. simpl in Hip. injection Hip as <-. exact Hres. }
  split; [|split; [|split]].
  - apply list_eq. intros i. rewrite !list_lookup_fmap. destruct (details' !! i) as [x|] eqn:Hx; simpl.
    + destruct (Hone i x Hx) as (y & -> & -> & _). done.
    + rewrite Hat in Hx. by destruct (details !! i).
  - apply Forall_lookup_2. intros i x Hx. destruct (Hone i x Hx) as (y & Hy & H1 & H2 & H3 & _).
    eapply Forall_lookup_1 in Hok as [O1 O2]; [|exact Hy]. split; [by rewrite H2, O1, H1|]. by rewrite H2, H3.
  - apply Forall_lookup_2. intros i x Hx. destruct (Hone i x Hx) as (y & Hy & _ & _ & _ & H4 & H5).
    destruct (decide (i < n)%nat); [right; by apply H5|left; apply H4; lia].
  - intros Hun. specialize (Hall Hun). subst n. split.
    + rewrite (log_split _ _ Hin). clear -Hjob. rewrite <- (length_seq (length details) 0) at 2.
      assert (∀ i, i ∈ seq 0 (length details) → (i < length details)%nat) as Hs by (intros i Hi%elem_of_seq; lia). revert Hs.
      induction (seq 0 (length details)) as [|i l IH]; intros Hs; [done|]. simpl. rewrite filter_app, length_app.
      rewrite IH by (intros j Hj; apply Hs; by apply list_elem_of_further).
      by destruct (Hjob i) as (ip & name & _ & _ & ->); [apply Hs, list_elem_of_here|].
    + apply Forall_lookup_2. intros i x Hx. destruct (Hone i x Hx) as (y & Hy%lookup_lt_Some & _ & _ & _ & _ & H5). by apply H5.
Qed.

End Reported.

Lemma results_run {E} `{Env E} os names send_arp table oui_db options d r n stopped :
  NoDup (dv_found d) → Forall ip_ok (dv_found d) →
  reportResults (E := E) os names send_arp table oui_db options d r n stopped →
  reported_ips r ≡ₚ dv_found d ∧ StronglySorted (λ a b, ip_value a < ip_value b) (reported_ips r) ∧
  match r with
  | plain _ => True
  | detailed details => Forall (detail_ok send_arp table oui_db options d) details ∧
      Forall (λ detail, hd_hostname detail = None ∨
        resolves (E := E) os (hd_ip detail) (heard_of names (hd_ip detail)) (hd_hostname detail)) details ∧
      (resolve_hostname options = true → stopped = false → n = length details ∧
        Forall (λ detail, resolves (E := E) os (hd_ip detail) (heard_of names (hd_ip detail)) (hd_hostname detail)) details)
  end.
Proof.
  intros Hn Hok Hr. pose proof (sort_found_perm (dv_found d)) as Hp. pose proof (sort_found_sorted _ Hn Hok) as Hs.
  destruct Hr as [_ _|_|details Hd Hno|details details' n stopped Hd Hh Hne Hr]; [done..| |];
    apply details_of_ok in Hd as (Hips & Hdet & Hnone).
  - simpl. rewrite Hips. split; [done|]. split; [done|]. split; [done|]. split.
    + eapply Forall_impl; [exact Hnone|]. intros x Hx. by left.
    + intros Hh. destruct Hno as [Hno| ->]; [congruence|]. intros _. by split.
  - destruct (named_run _ _ _ _ _ _ _ _ _ _ _ Hdet Hnone Hr) as (Hips' & Hdet' & Hname & Hun). simpl. rewrite Hips', Hips.
    split; [done|]. split; [done|]. split; [done|]. split; [done|]. intros _ Hst. destruct (Hun Hst) as [-> Hall].
    split; [|done]. by rewrite <- (length_map hd_ip details), <- Hips', length_map.
Qed.

(** C24: The report.  However the name lookups interleave, it lists exactly the
    hosts found, each once, in ascending order of address.  A detail has the
    MAC recorded for its host or, asked for manufacturers, what SendARP said,
    the manufacturer of that MAC, and as name only what looking up that very
    host gave; lookups that were not stopped have named and counted every
    host. *)
Theorem results_exact {E} `{Env E} os names send_arp table oui_db options d r n stopped :
  NoDup (dv_found d) → Forall ip_ok (dv_found d) →
  reportResults (E := E) os names send_arp table oui_db options d r n stopped →
  reported_ips r ≡ₚ dv_found d ∧ StronglySorted (λ a b, ip_value a < ip_value b) (reported_ips r) ∧
  match r with
  | plain _ => True
  | detailed details => Forall (detail_ok send_arp table oui_db options d) details ∧
      Forall (λ detail, hd_hostname detail = None ∨
        resolves (E := E) os (hd_ip detail) (heard_of names (hd_ip detail)) (hd_hostname detail)) details ∧
      (resolve_hostname options = true → stopped = false → n = length details ∧
        Forall (λ detail, resolves (E := E) os (hd_ip detail) (heard_of names (hd_ip detail)) (hd_hostname detail)) details)
  end.
Proof. exact (results_run os names send_arp table oui_db options d r n stopped). Qed.

(** ** One host, named NAS, of the first vendor of a table of two *)

Definition nas_found : Discovery :=
  {| dv_found := [IP 10 0 0 7]; dv_macs := <[IP 10 0 0 7 := [0; 1; 2; 9; 9; 9]]> ∅; dv_names := ∅;
     dv_printed := [(IP 10 0 0 7, by_tcp)] |}.

Definition nas_detail (name : option (list Z)) : HostDetail :=
  {| hd_ip := IP 10 0 0 7; hd_hostname := name; hd_mac := Some [0; 1; 2; 9; 9; 9]; hd_vendor := Some [65; 66] |}.

Definition all_wanted : wants := {| resolve_hostname := true; resolve_vendor := true |}.

Lemma nas_report :
  reportResults (E := script) Linux None (λ _, None) (oui_table TWO_VENDORS) no_entries all_wanted nas_found
    (detailed [nas_detail (Some [78; 65; 83])]) 1 false.
Proof.
  assert (∃ e' t, resolveHostName Linux 9 (IP 10 0 0 7) None nas_host = Some (Some (5, [78; 65; 83]), e', t))
    as (e' & t & Hr) by (eexists _, _; vm_compute; reflexivity).
  eapply (rr_named _ _ _ _ _ _ _ [nas_detail None] _ 1 false); [vm_compute; reflexivity|done|done|].
  apply (resolved Linux None [nas_detail None] (one_end [n_hear None; n_resolve (Some [78; 65; 83]); n_advance])); [|done].
  apply one_runs; [|unfold NAME_WORKERS; lia]. exists (IP 10 0 0 7), (Some [78; 65; 83]). split; [done|]. split; [|done].
  exists 9%nat, nas_host, (Some (5, [78; 65; 83])), e', t. by split.
Qed.

Lemma results_exact_witness :
  let r := detailed [nas_detail (Some [78; 65; 83])] in
  reportResults (E := script) Linux None (λ _, None) (oui_table TWO_VENDORS) no_entries all_wanted nas_found r 1 false ∧
  reported_ips r ≡ₚ dv_found nas_found ∧ StronglySorted (λ a b, ip_value a < ip_value b) (reported_ips r) ∧
  match r with
  | plain _ => True
  | detailed details => Forall (detail_ok (λ _, None) (oui_table TWO_VENDORS) no_entries all_wanted nas_found) details ∧
      Forall (λ detail, hd_hostname detail = None ∨
        resolves (E := script) Linux (hd_ip detail) (heard_of None (hd_ip detail)) (hd_hostname detail)) details ∧
      (resolve_hostname all_wanted = true → false = false → 1%nat = length details ∧
        Forall (λ detail, resolves (E := script) Linux (hd_ip detail) (heard_of None (hd_ip detail)) (hd_hostname detail)) details)
  end.
Proof.
  intros r. split; [exact nas_report|].
  apply (results_exact (E := script) Linux None (λ _, None) (oui_table TWO_VENDORS) no_entries all_wanted nas_found r 1 false);
    [apply NoDup_singleton| |exact nas_report].
  apply Forall_singleton. repeat (apply Forall_cons; split; [unfold is_u8; simpl; lia|]). constructor.
Defined.
