(* ===== verification/Listener.v ===== *)
(** * scanner.zig: the multicast listener

    While the sweep and the harvest run, a thread of its own takes the answers
    to two multicast queries, reports whoever in range gave one, keeps the
    names they tell, and asks each for its name.  The socket is multicast.c's
    (Multicast.v), the packets multicast.zig's (Packets.v); what is reported
    are operations on the shared state of Discovery.v. *)
From stdpp Require Import countable gmap.
From S2P Require Import Prelude Words Text Ranges Sys Script NsSocket Multicast Packets Names Probe Discovery.
Open Scope Z_scope.

Definition MDNS_GROUP : ip4 := IP 224 0 0 251.
Definition SSDP_GROUP : ip4 := IP 239 255 255 250.
Definition SSDP_PORT : Z := 1900.

Definition CRLF : list Z := [13; 10].

(** M-SEARCH [*] HTTP/1.1 *)
Definition search_line : list Z :=
  [77; 45; 83; 69; 65; 82; 67; 72; 32; 42; 32; 72; 84; 84; 80; 47; 49; 46; 49].

(** HOST: 239.255.255.250:1900 *)
Definition host_line : list Z :=
  [72; 79; 83; 84; 58; 32; 50; 51; 57; 46; 50; 53; 53; 46; 50; 53; 53; 46; 50; 53; 48; 58; 49; 57; 48; 48].

(** MAN: 'ssdp:discover' *)
Definition man_line : list Z :=
  [77; 65; 78; 58; 32; 34; 115; 115; 100; 112; 58; 100; 105; 115; 99; 111; 118; 101; 114; 34].

(** MX: 1 *)
Definition mx_line : list Z :=
  [77; 88; 58; 32; 49].

(** ST: ssdp:all *)
Definition st_line : list Z :=
  [83; 84; 58; 32; 115; 115; 100; 112; 58; 97; 108; 108].

Definition ssdp_search : list Z :=
  search_line ++ CRLF ++ host_line ++ CRLF ++ man_line ++ CRLF ++ mx_line ++ CRLF ++ st_line ++ CRLF ++ CRLF.

Definition POLL_MS : Z := 50.
Definition RESEND_MS : Z := 250.

(** char buf[9000] *)
Definition DATAGRAM : Z := 9000.

(** What the thread reads of the listener. *)
Record MulticastListener := {
  ml_socket : Z;
  ml_first : ip4;
  ml_last : ip4;
  ml_ask_names : bool
}.

(** Room for what one datagram brings: the host, the name's entry and its
    copy, the entry of those asked. *)
Record rooms := { rm_host : bool; rm_entry : bool; rm_copy : bool; rm_asked : bool }.

(** The thread between two rounds: whether the queries went out again, who
    was asked, what it did to the shared state, and the rooms to come. *)
Record Listening := {
  li_resent : bool;
  li_asked : list ip4;
  li_acts : list act;
  li_rooms : list rooms
}.

Definition set_resent (s : Listening) : Listening :=
  {| li_resent := true; li_asked := li_asked s; li_acts := li_acts s; li_rooms := li_rooms s |}.

Definition set_asked (asked : list ip4) (s : Listening) : Listening :=
  {| li_resent := li_resent s; li_asked := asked; li_acts := li_acts s; li_rooms := li_rooms s |}.

Definition did (acts : list act) (rest : list rooms) (s : Listening) : Listening :=
  {| li_resent := li_resent s; li_asked := li_asked s; li_acts := li_acts s ++ acts; li_rooms := rest |}.

(** Memory is there unless said otherwise. *)
Definition all_rooms : rooms := {| rm_host := true; rm_entry := true; rm_copy := true; rm_asked := true |}.

Definition next_rooms (s : Listening) : rooms * list rooms :=
  match li_rooms s with [] => (all_rooms, []) | r :: rest => (r, rest) end.

(** How the thread ends; [l_stray]: a read or write outside a buffer. *)
Inductive listen_end := l_stopped | l_failed | l_stray.

(** MulticastSocket.recv *)
Inductive received := rv_failed | rv_nothing | rv_datagram (from : ip4) (data : list Z).

Section Listener.
Context {E : Type} `{Env E}.
Variable os : platform.

(** MulticastSocket.send *)
Definition socket_send (sock : Z) (ip : ip4) (port : Z) (payload : list Z) : M E bool :=
  r ← mc_send (Some sock) (Some ip) port (Some payload);
  mret (r =? 0).

Definition socket_recv (fuel : nat) (sock timeout_ms buf_len : Z) : M E received :=
  '(n, got) ← mc_recv os fuel (Some sock) timeout_ms (Some buf_len) true;
  mret (
    if n <? 0 then rv_failed
    else if n =? 0 then rv_nothing
    else match got with None => rv_nothing | Some (from, data) => rv_datagram from data end).

Definition sendQueries (self : MulticastListener) : M E unit :=
  socket_send (ml_socket self) MDNS_GROUP MDNS_PORT services_query;;
  socket_send (ml_socket self) SSDP_GROUP SSDP_PORT ssdp_search;;
  mret ().

(** The listener's own flag, then the scan's *)
Definition stopping : M E bool :=
  stop ← ask StopRequested;
  if (stop : bool) then mret true else ask StopRequested.

(** [None]: the query does not fit its buffer. *)
Definition askName (self : MulticastListener) (room : bool) (ip : ip4) (s : Listening) : M E (option Listening) :=
  if negb room then mret (Some s)
  else if bool_decide (ip ∈ li_asked s) then mret (Some s)
  else
    match reverseQuery ip with
    | None => mret None
    | Some query =>
      socket_send (ml_socket self) ip MDNS_PORT query;;
      mret (Some (set_asked (li_asked s ++ [ip]) s))
    end.

(** What a datagram of a kind does to the shared state; [names]: there is a
    cache of names.  [None] is a read or write outside a buffer. *)
Definition datagram_acts (names : bool) (room : rooms) (kind : Kind) (from : ip4) (data : list Z) : option (list act) :=
  match kind with
  | mdns =>
    let reported := a_report from by_mdns (rm_host room) in
    if names then
      name ← hostName data from;
      Some (reported :: match name with Some name => [a_name from name (rm_entry room) (rm_copy room)] | None => [] end)
    else Some [reported]
  | ssdp => Some [a_report from by_ssdp (rm_host room)]
  end.

(** A round from the receive on *)
Definition take_datagram (self : MulticastListener) (names : bool) (fuel : nat) (s : Listening)
    : M E (Listening + (Listening * listen_end)) :=
  datagram ← socket_recv fuel (ml_socket self) POLL_MS DATAGRAM;
  match datagram with
  | rv_failed => mret (inr (s, l_failed))
  | rv_nothing => mret (inl s)
  | rv_datagram from data =>
    if negb (ipInRange from (ml_first self) (ml_last self)) then mret (inl s)
    else
      match classify data with
      | None => mret (inr (s, l_stray))
      | Some None => mret (inl s)
      | Some (Some kind) =>
        let '(room, rest) := next_rooms s in
        match datagram_acts names room kind from data with
        | None => mret (inr (s, l_stray))
        | Some acts =>
          let s := did acts rest s in
          if ml_ask_names self then
            asked ← askName self (rm_asked room) from s;
            match asked with
            | None => mret (inr (s, l_stray))
            | Some s => mret (inl s)
            end
          else mret (inl s)
        end
      end
  end.

(** One round of the loop *)
Definition listen_round (self : MulticastListener) (names : bool) (started : Z) (fuel : nat) (s : Listening)
    : M E (Listening + (Listening * listen_end)) :=
  stop ← stopping;
  if (stop : bool) then mret (inr (s, l_stopped))
  else
    s ← (if li_resent s then mret s
         else
           now ← nowNs;
           if now - started >=? RESEND_MS * 1000000 then sendQueries self;; mret (set_resent s)
           else mret s);
    take_datagram self names fuel s.

Definition listening (rooms : list rooms) : Listening :=
  {| li_resent := false; li_asked := []; li_acts := []; li_rooms := rooms |}.

Definition listen (fuel : nat) (self : MulticastListener) (names : bool) (rooms : list rooms)
    : M E (Listening * listen_end) :=
  started ← nowNs;
  loop fuel (listen_round self names started fuel) (listening rooms).

(** [spawns]: the thread could be started. *)
Definition start (first last : ip4) (ask_names spawns : bool) : M E (option MulticastListener) :=
  if ipToU32 first >? ipToU32 last then mret None
  else
    local ← mc_local_address os (Some first) (Some last) true;
    match local with
    | None => mret None
    | Some local =>
      socket ← mc_open os (Some local);
      match socket with
      | None => mret None
      | Some socket =>
        let self := {| ml_socket := socket; ml_first := first; ml_last := last; ml_ask_names := ask_names |} in
        sendQueries self;;
        if spawns then mret (Some self)
        else mc_close (Some socket);; mret None
      end
    end.

(** [thread]: what the thread still does once the flag is set, until it can
    be joined; [None] when it was joined before. *)
Definition finish (self : MulticastListener) (thread : option (M E (Listening * listen_end)))
    : M E (option (Listening * listen_end)) :=
  match thread with
  | None => mret None
  | Some thread =>
    mc_wake (Some (ml_socket self));;
    done ← thread;
    mc_close (Some (ml_socket self));;
    mret (Some done)
  end.
End Listener.

(** ** What a log says *)

(** The datagrams received: sender and bytes *)
Definition heard_in (ev : event) : list (ip4 * list Z) :=
  match ev with
  | Ev c r =>
    match c in call T return T → list (ip4 * list Z) with
    | RecvFrom _ cap => λ r,
        match r with
        | Ok (data, from) => if sa_family from =? AF_INET then [(sa_ip from, buffer cap data)] else []
        | Err _ => []
        end
    | _ => λ _, []
    end r
  end.

Definition heard (t : list event) : list (ip4 * list Z) := flat_map heard_in t.

(** The datagrams sent: address, port and bytes *)
Definition sent_in (ev : event) : list (ip4 * Z * list Z) :=
  match ev with Ev (SendTo _ data to) _ => [(sa_ip to, sa_port to, data)] | _ => [] end.

Definition sent (t : list event) : list (ip4 * Z * list Z) := flat_map sent_in t.

(** A sender is a host's address. *)
Definition sender_ok (ev : event) : Prop := Forall (λ d : ip4 * list Z, ip_ok d.1) (heard_in ev).

Definition group_queries : list (ip4 * Z * list Z) :=
  [(MDNS_GROUP, MDNS_PORT, services_query); (SSDP_GROUP, SSDP_PORT, ssdp_search)].

Definition name_query (ip : ip4) : ip4 * Z * list Z := (ip, MDNS_PORT, default [] (reverseQuery ip)).

Section Told.
Variables (self : MulticastListener) (names : bool).

(** What a datagram counts as: an answer from the range, of a kind. *)
Definition answer_kind (d : ip4 * list Z) : option Kind :=
  if ipInRange d.1 (ml_first self) (ml_last self) then k ← classify d.2; k else None.

(** What it means for the scan, while there is memory *)
Definition told (d : ip4 * list Z) : list act :=
  match answer_kind d with
  | None => []
  | Some kind => default [] (datagram_acts names all_rooms kind d.1 d.2)
  end.

Definition responders (t : list event) : list ip4 := map fst (filter (λ d, answer_kind d ≠ None) (heard t)).

Definition with_room (a : act) : act :=
  match a with
  | a_report ip source _ => a_report ip source true
  | a_name ip name _ _ => a_name ip name true true
  | a => a
  end.

(** What a stretch of the thread's run, logged as [t], does. *)
Record heard_out (s : Listening) (t : list event) (s' : Listening) : Prop := {
  ho_acts : ∃ acts, li_acts s' = li_acts s ++ acts ∧ map with_room acts = flat_map told (heard t);
  ho_sent : ∃ (again : bool) asked, li_resent s' = li_resent s || again ∧ (li_resent s = true → again = false) ∧
    li_asked s' = li_asked s ++ asked ∧ sent t ≡ₚ (if again then group_queries else []) ++ map name_query asked ∧
    (∀ ip, ip ∈ asked → ip ∈ responders t) ∧ (ml_ask_names self = false → asked = []);
  ho_once : NoDup (li_asked s) → NoDup (li_asked s');
  ho_rooms : Forall (λ r, rm_asked r = true) (li_rooms s) → Forall (λ r, rm_asked r = true) (li_rooms s') ∧
    (ml_ask_names self = true → ∀ ip, ip ∈ responders t → ip ∈ li_asked s');
  ho_neutral : Forall neutral t
}.

Lemma replies_app t u : heard (t ++ u) = heard t ++ heard u.
Proof. apply flat_map_app. Qed.

Lemma sent_app t u : sent (t ++ u) = sent t ++ sent u.
Proof. apply flat_map_app. Qed.

Lemma responders_app t u : responders (t ++ u) = responders t ++ responders u.
Proof. unfold responders. by rewrite replies_app, filter_app, map_app. Qed.

Lemma heard_out_trans s t s1 u s2 : heard_out s t s1 → heard_out s1 u s2 → heard_out s (t ++ u) s2.
Proof.
  intros [(acts & Ha & Ht) (ag & asked & Hr & Hag & Hk & Hs & Hin & Hno) Ho Hrm Hn]
    [(acts' & Ha' & Ht') (ag' & asked' & Hr' & Hag' & Hk' & Hs' & Hin' & Hno') Ho' Hrm' Hn']. split.
  - exists (acts ++ acts'). by rewrite Ha', Ha, replies_app, flat_map_app, map_app, Ht, Ht', app_assoc.
  - exists (ag || ag'), (asked ++ asked'). rewrite Hr', Hr, orb_assoc. split; [done|].
    split; [intros Hres; rewrite Hres in *; rewrite Hag, Hag' by (rewrite ?Hr; by simpl); done|].
    split; [by rewrite Hk', Hk, app_assoc|].
    assert (ag = true → ag' = false) as Hone by (intros ->; apply Hag'; by rewrite Hr, orb_true_r).
    split; [|split].
    + rewrite sent_app, Hs, Hs', map_app. generalize group_queries. intros G. destruct ag; [rewrite Hone by done; solve_Permutation|].
      destruct ag'; solve_Permutation.
    + intros ip. rewrite responders_app, !elem_of_app. naive_solver.
    + intros Hf. by rewrite Hno, Hno'.
  - auto.
  - intros Hall. destruct (Hrm Hall) as [Hall' Hasked]. destruct (Hrm' Hall') as [Hall'' Hasked']. split; [done|].
    intros Hask ip. rewrite responders_app, elem_of_app. intros [Hi|Hi]; [|by apply Hasked'].
    rewrite Hk'. apply elem_of_app. left. by apply Hasked.
  - by apply Forall_app.
Qed.

(** Requests that neither send nor receive *)
Definition silent (ev : event) : Prop := neutral ev ∧ heard_in ev = [] ∧ sent_in ev = [].

Lemma silent_nothing t : Forall silent t → Forall neutral t ∧ heard t = [] ∧ sent t = [].
Proof.
  induction 1 as [|ev t (Hn & Hh & Hs) _ (IHn & IHh & IHs)]; [done|]. unfold heard, sent in *. simpl.
  rewrite Hh, Hs, IHh, IHs. by split; [constructor|].
Qed.

Lemma heard_out_quiet s t : Forall neutral t → flat_map told (heard t) = [] → responders t = [] → sent t = [] → heard_out s t s.
Proof.
  intros Hn Hh Hr Hs. split.
  - exists []. by rewrite app_nil_r, Hh.
  - exists false, []. rewrite orb_false_r, app_nil_r, Hs. split; [done|]. split; [done|]. split; [done|]. split; [done|].
    split; [by intros ? ?%not_elem_of_nil|done].
  - done.
  - intros Hall. split; [done|]. rewrite Hr. by intros _ ? ?%not_elem_of_nil.
  - done.
Qed.

Lemma heard_out_silent s t : Forall silent t → heard_out s t s.
Proof.
  intros (Hn & Hh & Hs)%silent_nothing. apply heard_out_quiet; [done|by rewrite Hh| |done]. unfold responders. by rewrite Hh.
Qed.
End Told.

Section Rounds.
Context {E : Type} `{Env E}.
Variables (os : platform) (self : MulticastListener) (names : bool).


Lemma socket_send_run sock ip port payload (e : E) r e' t :
  socket_send sock ip port payload e = Some (r, e', t) →
  ∃ x, t = [Ev (SendTo sock payload (SA AF_INET ip port)) x].
Proof. intros Hr. unfold socket_send, mc_send in Hr. run_inv; by eexists. Qed.

Lemma sendQueries_run (e : E) r e' t :
  sendQueries self e = Some (r, e', t) → sent t = group_queries ∧ heard t = [] ∧ Forall neutral t.
Proof.
  intros Hr. unfold sendQueries in Hr.
  apply bind_inv in Hr as (? & e1 & t1 & u1 & [x1 ->]%socket_send_run & Hr & ->).
  apply bind_inv in Hr as (? & e2 & t2 & u2 & [x2 ->]%socket_send_run & Hr & ->).
  apply ret_inv in Hr as (-> & -> & ->). split; [done|]. split; [done|]. by repeat constructor.
Qed.

Lemma ns_wait_readable_silent fuel sock timeout : logs silent (ns_wait_readable (E := E) os fuel sock timeout).
Proof. unfold ns_wait_readable, ns_wait_any, wait_any_round. solve_logs. Qed.

Lemma classify_nil : classify [] = Some None.
Proof. by vm_compute. Qed.

(** A receive hands out the datagram it logs, unless that is empty. *)
Lemma socket_recv_run fuel sock timeout (e : E) r e' t :
  socket_recv os fuel sock timeout DATAGRAM e = Some (r, e', t) →
  Forall neutral t ∧ sent t = [] ∧
  match r with
  | rv_datagram from data => heard t = [(from, data)] ∧ bytes data
  | _ => ∀ d, d ∈ heard t → d.2 = []
  end.
Proof.
  intros Hr. unfold socket_recv in Hr. apply bind_inv in Hr as ([n got] & e1 & t1 & u1 & Hr & Hret & ->).
  apply ret_inv in Hret as (-> & -> & ->). rewrite app_nil_r. cbn [mc_recv] in Hr.
  apply bind_inv in Hr as (ready & e2 & t2 & u2 & Hw & Hr & ->).
  apply ns_wait_readable_silent, silent_nothing in Hw as (Hn & Hh & Hs).
  change (i32 DATAGRAM) with DATAGRAM in Hr.
  destruct (ready =? 0); [|destruct (ready <? 0)].
  1,2: apply ret_inv in Hr as ([= -> ->] & -> & ->); rewrite app_nil_r; (split; [done|]); (split; [done|]);
    simpl; rewrite Hh; by intros ? ?%not_elem_of_nil.
  apply bind_inv in Hr as (x & e3 & t3 & u3 & [_ ->]%ask_inv & Hr & ->).
  destruct x as [[data from]|err].
  - destruct (sa_family from =? AF_INET) eqn:Hf; simpl in Hr; apply ret_inv in Hr as ([= -> ->] & -> & ->);
      rewrite app_nil_r; (split; [apply Forall_app; by split; [|by repeat constructor]|]); (split; [by rewrite sent_app, Hs|]);
      rewrite replies_app, Hh; unfold heard; simpl; rewrite Hf; [|by intros ? ?%not_elem_of_nil].
    destruct (buffer DATAGRAM data) as [|b bs] eqn:Hb; [by intros d ->%list_elem_of_singleton|].
    simpl. split; [done|]. rewrite <- Hb. apply bytes_buffer.
  - apply ret_inv in Hr as ([= -> ->] & -> & ->). rewrite app_nil_r.
    split; [apply Forall_app; by split; [|by repeat constructor]|]. split; [by rewrite sent_app, Hs|].
    rewrite replies_app, Hh. destruct (recv_ignores os err); simpl; by intros ? ?%not_elem_of_nil.
Qed.

Lemma next_rooms_asked s room rest :
  next_rooms s = (room, rest) → Forall (λ r, rm_asked r = true) (li_rooms s) →
  rm_asked room = true ∧ Forall (λ r, rm_asked r = true) rest.
Proof. unfold next_rooms. destruct (li_rooms s); intros [= <- <-] Hall; [done|]. by apply Forall_cons in Hall. Qed.

Lemma datagram_acts_rooms room kind from data acts :
  datagram_acts names room kind from data = Some acts →
  datagram_acts names all_rooms kind from data = Some (map with_room acts).
Proof.
  unfold datagram_acts. destruct kind; [|by intros [= <-]]. destruct names; [|by intros [= <-]].
  destruct (hostName data from) as [[name|]|]; [..|done]; by intros [= <-].
Qed.

(** One answer: what it says is done, and its sender is asked unless it was
    or there is no memory to remember it. *)
Lemma heard_out_answer s t from data kind room rest acts asked :
  Forall neutral t → heard t = [(from, data)] → answer_kind self (from, data) = Some kind →
  next_rooms s = (room, rest) → datagram_acts names room kind from data = Some acts →
  sent t = map name_query asked →
  (asked = [] ∧ (ml_ask_names self = true → rm_asked room = true → from ∈ li_asked s)) ∨
  (asked = [from] ∧ ml_ask_names self = true ∧ from ∉ li_asked s) →
  heard_out self names s t (set_asked (li_asked s ++ asked) (did acts rest s)).
Proof.
  intros Hn Hh Hk Hrm Hacts Hs Hasked.
  assert (responders self t = [from]) as Hresp.
  { unfold responders. rewrite Hh, filter_cons, decide_True by (by rewrite Hk). done. }
  split; simpl.
  - exists acts. split; [done|]. rewrite Hh. simpl. unfold told. rewrite Hk, app_nil_r. simpl.
    by rewrite (datagram_acts_rooms _ _ _ _ _ Hacts).
  - exists false, asked. rewrite orb_false_r. split; [done|]. split; [done|]. split; [done|]. split; [by rewrite Hs|].
    rewrite Hresp. split.
    + intros ip. destruct Hasked as [[-> _]|[-> _]]; [by intros ?%not_elem_of_nil|done].
    + intros Hno. destruct Hasked as [[-> _]|(_ & Hask & _)]; [done|congruence].
  - intros Hnd. destruct Hasked as [[-> _]|(-> & _ & Hnew)]; [by rewrite app_nil_r|].
    apply NoDup_app. split; [done|]. split; [|apply NoDup_singleton]. by intros ip Hip ->%list_elem_of_singleton.
  - intros Hall. destruct (next_rooms_asked _ _ _ Hrm Hall) as [Hroom Hrest]. split; [done|]. rewrite Hresp.
    intros Hask ip ->%list_elem_of_singleton. apply elem_of_app.
    destruct Hasked as [[_ Hin]|(-> & _)]; [left; by apply Hin|right; apply list_elem_of_here].
  - done.
Qed.

Lemma nowNs_silent : logs silent (nowNs (E := E)).
Proof. unfold nowNs. solve_logs. Qed.

Lemma stopping_silent : logs silent (stopping (E := E)).
Proof. unfold stopping. solve_logs. Qed.

(** Asking: at most one query, to the one who answered. *)
Lemma askName_run room ip s (e : E) r e' t :
  ip_ok ip → askName self room ip s e = Some (r, e', t) →
  Forall neutral t ∧ heard t = [] ∧ ∃ asked, r = Some (set_asked (li_asked s ++ asked) s) ∧ sent t = map name_query asked ∧
    ((asked = [] ∧ (room = true → ip ∈ li_asked s)) ∨ (asked = [ip] ∧ ip ∉ li_asked s)).
Proof.
  intros Hip Hr. unfold askName in Hr.
  assert (∀ c, set_asked (li_asked s ++ []) s = c ↔ s = c) as Hsame by (intros c; rewrite app_nil_r; by destruct s).
  destruct room; simpl in Hr; [case_bool_decide as Hin|].
  1,3: apply ret_inv in Hr as (-> & -> & ->); (split; [done|]); (split; [done|]); exists []; rewrite (proj2 (Hsame s) eq_refl); naive_solver.
  destruct (reverseQuery_some ip Hip) as [query Hq]. rewrite Hq in Hr.
  apply bind_inv in Hr as (? & e1 & t1 & u1 & [x ->]%socket_send_run & Hr & ->). apply ret_inv in Hr as (-> & -> & ->).
  split; [by repeat constructor|]. split; [done|]. exists [ip]. split; [done|]. split; [|by right].
  unfold sent, name_query. simpl. by rewrite Hq.
Qed.

(** What the round's end says of it. *)
Definition round_left (s : Listening) (t : list event) (x : Listening + (Listening * listen_end)) : Prop :=
  match x with
  | inl s' => heard_out self names s t s'
  | inr (s', why) => heard_out self names s t s' ∧ why ≠ l_stray
  end.

Lemma round_left_after s t s1 u x : heard_out self names s t s1 → round_left s1 u x → round_left s (t ++ u) x.
Proof.
  intros Ht. destruct x as [s2|[s2 why]]; simpl; [by apply heard_out_trans|].
  intros [Hu ?]. split; [by eapply heard_out_trans|done].
Qed.

Lemma heard_out_ignored s t :
  Forall neutral t → sent t = [] → (∀ d, d ∈ heard t → answer_kind self d = None) → heard_out self names s t s.
Proof.
  intros Hn Hs Hd. apply heard_out_quiet; [done| | |done].
  - induction (heard t) as [|d ds IH]; [done|]. simpl. unfold told at 1.
    rewrite Hd by apply list_elem_of_here. apply IH. intros d' Hd'. apply Hd. by apply list_elem_of_further.
  - unfold responders. enough (filter (λ d, answer_kind self d ≠ None) (heard t) = []) as -> by done. apply elem_of_nil_inv. intros d [Hne Hin]%list_elem_of_filter. by apply Hne, Hd.
Qed.

Lemma answer_kind_empty d : d.2 = [] → answer_kind self d = None.
Proof. destruct d as [ip data]. simpl. intros ->. unfold answer_kind. simpl. by destruct (ipInRange _ _ _). Qed.

Lemma datagram_acts_some room kind from data :
  bytes data → ip_ok from → is_Some (datagram_acts names room kind from data).
Proof.
  intros Hb Hip. unfold datagram_acts. destruct kind; [|by eexists]. destruct names; [|by eexists].
  destruct (hostName_total data from Hb Hip) as (r & -> & _). by eexists.
Qed.

Lemma take_datagram_run fuel s (e : E) x e' t :
  take_datagram os self names fuel s e = Some (x, e', t) → Forall sender_ok t → round_left s t x.
Proof.
  intros Hr Hok. unfold take_datagram in Hr. apply bind_inv in Hr as (got & e1 & t1 & u1 & Hrecv & Hr & ->).
  apply socket_recv_run in Hrecv as (Hn & Hs & Hgot). apply Forall_app in Hok as [Hok _].
  assert (∀ d : ip4 * list Z, d ∈ heard t1 → ip_ok d.1) as Hip.
  { intros d Hd. apply list_elem_of_In, in_flat_map in Hd as (ev & Hev & Hd).
    rewrite Forall_forall in Hok. apply list_elem_of_In in Hev. specialize (Hok ev Hev). unfold sender_ok in Hok.
    rewrite Forall_forall in Hok. apply Hok. by apply list_elem_of_In. }
  destruct got as [| |from data].
  1,2: apply ret_inv in Hr as (-> & -> & ->); rewrite app_nil_r; simpl; try (split; [|done]);
    apply heard_out_ignored; [done|done|intros d Hd; by apply answer_kind_empty, Hgot].
  destruct Hgot as [Hh Hb].
  assert (∀ e2 u2, answer_kind self (from, data) = None → (mret (inl s) : M E (Listening + (Listening * listen_end))) e1 = Some (x, e2, u2) →
    round_left s (t1 ++ u2) x) as Hignored.
  { intros e2 u2 Hk Hret. apply ret_inv in Hret as (-> & -> & ->). rewrite app_nil_r. apply heard_out_ignored; [done|done|].
    rewrite Hh. by intros d ->%list_elem_of_singleton. }
  destruct (ipInRange from _ _) eqn:Hin; simpl in Hr; [|by eapply Hignored; [unfold answer_kind; simpl; rewrite Hin|exact Hr]].
  destruct (classify data) as [[kind|]|] eqn:Hc; [|by eapply Hignored; [unfold answer_kind; simpl; rewrite Hin, Hc|exact Hr]|by rewrite classify_value in Hc].
  assert (answer_kind self (from, data) = Some kind) as Hk by (unfold answer_kind; simpl; by rewrite Hin, Hc).
  assert (ip_ok from) as Hfrom by (apply (Hip (from, data)); rewrite Hh; apply list_elem_of_here).
  destruct (next_rooms s) as [room rest] eqn:Hrm. destruct (datagram_acts_some room kind from data Hb Hfrom) as [acts Hacts].
  rewrite Hacts in Hr. destruct (ml_ask_names self) eqn:Hask.
  - apply bind_inv in Hr as (asked & e2 & t2 & u2 & Ha & Hr & ->).
    apply askName_run in Ha as (Hn2 & Hh2 & asked' & -> & Hs2 & Hcase); [|done].
    apply ret_inv in Hr as (-> & -> & ->). rewrite app_nil_r. simpl.
    eapply (heard_out_answer s _ from data kind room rest acts asked'); [by apply Forall_app|by rewrite replies_app, Hh, Hh2|done..| |].
    + by rewrite sent_app, Hs, Hs2.
    + destruct Hcase as [[-> Hc2]|[-> Hc2]]; [left|right]; auto.
  - apply ret_inv in Hr as (-> & -> & ->). rewrite app_nil_r. simpl.
    assert (heard_out self names s t1 (set_asked (li_asked s ++ []) (did acts rest s))) as Ho.
    { eapply (heard_out_answer s t1 from data kind room rest acts []); [done..|]. left. split; [done|congruence]. }
    rewrite app_nil_r in Ho. exact Ho.
Qed.

Lemma listen_round_run started fuel s (e : E) x e' t :
  listen_round os self names started fuel s e = Some (x, e', t) → Forall sender_ok t → round_left s t x.
Proof.
  intros Hr Hok. unfold listen_round in Hr. apply bind_inv in Hr as (stop & e1 & t1 & u1 & Hs & Hr & ->).
  apply stopping_silent, (heard_out_silent self names s) in Hs. apply Forall_app in Hok as [_ Hok].
  eapply round_left_after; [exact Hs|]. destruct stop.
  { apply ret_inv in Hr as (-> & -> & ->). split; [by apply heard_out_silent|done]. }
  apply bind_inv in Hr as (s1 & e2 & t2 & u2 & Hq & Hr & ->). apply Forall_app in Hok as [_ Hok].
  eapply (round_left_after _ _ s1); [|exact (take_datagram_run fuel s1 _ _ _ _ Hr Hok)]. clear Hr.
  destruct (li_resent s) eqn:Hres; [apply ret_inv in Hq as (-> & -> & ->); by apply heard_out_silent|].
  apply bind_inv in Hq as (now & e3 & t3 & u3 & Hnow & Hq & ->). apply nowNs_silent in Hnow.
  eapply heard_out_trans; [by apply heard_out_silent|]. destruct (_ >=? _); [|apply ret_inv in Hq as (-> & -> & ->); by apply heard_out_silent].
  apply bind_inv in Hq as (? & e4 & t4 & u4 & (Hsent & Hh & Hn)%sendQueries_run & Hq & ->). apply ret_inv in Hq as (-> & -> & ->).
  rewrite app_nil_r. split; simpl.
  - exists []. by rewrite app_nil_r, Hh.
  - exists true, []. rewrite orb_true_r, app_nil_r, Hsent, app_nil_r, Hres. split; [done|]. split; [done|]. split; [done|].
    split; [done|]. split; [by intros ? ?%not_elem_of_nil|done].
  - done.
  - intros Hall. split; [done|]. unfold responders. rewrite Hh. by intros _ ? ?%not_elem_of_nil.
  - done.
Qed.
End Rounds.

(** ** Until it is told to stop

    The flags are not raised by what the thread does: somebody raises one
    after finitely many looks at them. *)
Class StopLaw (E : Type) `{Env E} := {
  patience : E → nat;
  stop_patience : ∀ e e' : E, env_step StopRequested e = (false, e') → (patience e' < patience e)%nat;
  patience_kept : ∀ A (c : call A) (e e' : E) r, env_step c e = (r, e') → (patience e' ≤ patience e)%nat
}.

Section Ends.
Context {E : Type} `{StopLaw E}.

Definition waits {A} (m : M E A) : Prop := ∀ e a e' t, m e = Some (a, e', t) → (patience e' ≤ patience e)%nat.

Lemma waits_ret {A} (a : A) : waits (mret a).
Proof. intros e b e' t Hr. by run_inv. Qed.

Lemma waits_ask {A} (c : call A) : waits (ask c).
Proof. intros e b e' t Hr. run_inv. by eapply patience_kept. Qed.

Lemma waits_bind {A B} (m : M E A) (k : A → M E B) : waits m → (∀ a, waits (k a)) → waits (m ≫= k).
Proof. intros Hm Hk e b e' t Hr. run_inv. etrans; [by eapply Hk|by eapply Hm]. Qed.

Lemma waits_loop {St R} n (body : St → M E (St + R)) : (∀ s, waits (body s)) → ∀ s, waits (loop n body s).
Proof.
  intros Hb. induction n as [|n IH]; [done|]. intros s. cbn [loop].
  apply waits_bind; [done|]. intros [s'|r]; [done|apply waits_ret].
Qed.
End Ends.

Ltac solve_waits :=
  repeat (intros; match goal with
  | |- waits (_ ≫= _) => apply waits_bind
  | |- waits (mret _) => apply waits_ret
  | |- waits (ask _) => apply waits_ask
  | |- waits (loop _ _ _) => apply waits_loop
  | |- waits (if ?b then _ else _) => destruct b
  | |- waits (match ?x with _ => _ end) => destruct x
  end).

Section Listens.
Context {E : Type} `{ClockLaw E, !StopLaw E}.
Variables (os : platform) (self : MulticastListener) (names : bool).

Lemma stopping_patience (e : E) e' t : stopping e = Some (false, e', t) → (patience e' < patience e)%nat.
Proof.
  intros Hr. unfold stopping in Hr. apply bind_inv in Hr as (stop & e1 & t1 & u1 & [Hs _]%ask_inv & Hr & ->).
  destruct stop; [by apply ret_inv in Hr as (? & _)|]. apply ask_inv in Hr as [Hr _].
  apply stop_patience in Hs. apply patience_kept in Hr. lia.
Qed.

Lemma rest_waits fuel started s : waits (
    s ← (if li_resent s then mret s
         else
           now ← nowNs;
           if now - started >=? RESEND_MS * 1000000 then sendQueries self;; mret (set_resent s)
           else mret s);
    take_datagram os self names fuel s).
Proof.
  unfold take_datagram, askName, nowNs, sendQueries, socket_send, mc_send, socket_recv, mc_recv, ns_wait_readable, ns_wait_any, wait_any_round.
  solve_waits.
Qed.

Lemma listen_round_descends n started s (e : E) s' e' t :
  listen_round os self names started n s e = Some (inl s', e', t) → (patience e' < patience e)%nat.
Proof.
  intros Hr. unfold listen_round in Hr. apply bind_inv in Hr as (stop & e1 & t1 & u1 & Hs & Hr & ->).
  destruct stop; [by apply ret_inv in Hr as (? & _)|]. apply stopping_patience in Hs.
  pose proof (rest_waits n started s _ _ _ _ Hr). lia.
Qed.

Lemma ns_wait_readable_runs sock : runs (λ n, ns_wait_readable (E := E) os n sock POLL_MS).
Proof.
  unfold ns_wait_readable. apply runs_bind; [|intros a; apply runs_const, total_ret].
  split; [apply ns_wait_any_mono|]. intros e.
  destruct (wait_any_terminates os [sock] POLL_MS e) as [n Hn]; [by unfold timeout_ok, POLL_MS|]. exists n. by apply Hn.
Qed.

Lemma total_stopping : total (stopping (E := E)).
Proof. unfold stopping. solve_total. Qed.

Lemma listen_round_runs started s : runs (λ n, listen_round (E := E) os self names started n s).
Proof.
  unfold listen_round. apply runs_bind; [apply runs_const, total_stopping|]. intros stop.
  destruct stop; [apply runs_const, total_ret|].
  apply runs_bind.
  { apply runs_const. unfold nowNs, sendQueries, socket_send, mc_send. solve_total. }
  intros s1. unfold take_datagram. apply runs_bind.
  - unfold socket_recv, mc_recv. apply runs_bind; [|intros []; apply runs_const, total_ret].
    apply runs_bind; [apply ns_wait_readable_runs|]. intros ready. apply runs_const. solve_total.
  - intros got. apply runs_const. unfold askName, socket_send, mc_send. solve_total.
Qed.

Lemma listen_runs rooms : runs (λ n, listen (E := E) os n self names rooms).
Proof.
  unfold listen. apply runs_bind; [apply runs_const; unfold nowNs; solve_total|]. intros started.
  apply (runs_loop (λ p q : Listening * E, (patience p.2 < patience q.2)%nat)).
  - apply (wf_projected lt (λ p : Listening * E, patience p.2)); [done|apply lt_wf].
  - intros s. apply listen_round_runs.
  - intros n s e s' e' t. apply listen_round_descends.
Qed.
End Listens.

(** ** Properties *)

(** What the thread may do to the shared state: report a host of the range,
    for a reply received from it, of the kind the reply is; and keep a name
    for one, printable and not empty. *)
Definition act_heard (self : MulticastListener) (t : list event) (a : act) : Prop :=
  match a with
  | a_report ip source _ => ∃ data kind, (ip, data) ∈ heard t ∧ answer_kind self (ip, data) = Some kind ∧
      source = match kind with mdns => by_mdns | ssdp => by_ssdp end
  | a_name ip name _ _ => ∃ data, (ip, data) ∈ heard t ∧ answer_kind self (ip, data) = Some mdns ∧ hostName data ip = Some (Some name) ∧ Packets.name_ok name
  | _ => False
  end.

Lemma told_heard self names t : Forall (λ d : ip4 * list Z, ip_ok d.1 ∧ bytes d.2) (heard t) →
  Forall (act_heard self t) (flat_map (told self names) (heard t)).
Proof.
  intros Hok. apply Forall_forall. intros a ([ip data] & Hin & Ha)%list_elem_of_In%in_flat_map. apply list_elem_of_In in Hin.
  rewrite Forall_forall in Hok. destruct (Hok _ Hin) as [Hip Hb]. simpl in Hip, Hb.
  unfold told in Ha. destruct (answer_kind self (ip, data)) as [kind|] eqn:Hk; [|done]. simpl in Ha.
  unfold datagram_acts in Ha. destruct kind; simpl in Ha; [|destruct Ha as [<-|[]]; by exists data, ssdp].
  destruct (hostName_total data ip Hb Hip) as (name & Hname & Hokn). destruct names; simpl in Ha.
  - rewrite Hname in Ha. simpl in Ha. destruct Ha as [<-|Ha]; [by exists data, mdns|].
    destruct name as [name|]; [|done]. destruct Ha as [<-|[]]. exists data. split; [done|]. split; [done|]. split; [done|]. by apply Hokn.
  - destruct Ha as [<-|[]]. by exists data, mdns.
Qed.

Lemma act_heard_room self t a : act_heard self t (with_room a) → act_heard self t a.
Proof. by destruct a. Qed.

Lemma heard_bytes t : Forall (λ d : ip4 * list Z, bytes d.2) (heard t).
Proof.
  apply Forall_forall. intros [ip data] ([A c r] & Hin & Hd)%list_elem_of_In%in_flat_map.
  destruct c; simpl in Hd; try done. destruct r as [[? from]|]; [|done]. destruct (sa_family from =? AF_INET); [|done].
  destruct Hd as [[= <- <-]|[]]. apply bytes_buffer.
Qed.

Lemma heard_senders t : Forall sender_ok t → Forall (λ d : ip4 * list Z, ip_ok d.1 ∧ bytes d.2) (heard t).
Proof.
  intros Hok. pose proof (heard_bytes t) as Hb. rewrite !Forall_forall in *. intros d Hd. split; [|by apply Hb].
  apply list_elem_of_In, in_flat_map in Hd as (ev & Hev & Hd). apply list_elem_of_In in Hev. specialize (Hok ev Hev).
  unfold sender_ok in Hok. rewrite Forall_forall in Hok. apply Hok. by apply list_elem_of_In.
Qed.

Lemma listen_run {E} `{Env E} os fuel self names rooms (e : E) s why e' t :
  listen os fuel self names rooms e = Some ((s, why), e', t) → Forall sender_ok t →
  heard_out self names (listening rooms) t s ∧ why ≠ l_stray.
Proof.
  intros Hr Hok. unfold listen in Hr. apply bind_inv in Hr as (started & e1 & t1 & u1 & Hn & Hr & ->).
  apply nowNs_silent, (heard_out_silent self names (listening rooms)) in Hn.
  refine (loop_invariant (λ s _ t, Forall sender_ok t → heard_out self names (listening rooms) t s)
    (λ x _ t, Forall sender_ok t → heard_out self names (listening rooms) t x.1 ∧ x.2 ≠ l_stray) _ _ _ fuel _ _ t1 _ _ u1 _ Hr Hok).
  - intros s0 e0 t0 s1 e2 t2 Hi Hb [Ht0 Ht2]%Forall_app. eapply heard_out_trans; [by apply Hi|].
    exact (listen_round_run _ _ _ _ _ _ _ _ _ _ Hb Ht2).
  - intros s0 e0 t0 [s1 why1] e2 t2 Hi Hb [Ht0 Ht2]%Forall_app.
    destruct (listen_round_run _ _ _ _ _ _ _ _ _ _ Hb Ht2) as [Ho Hw]. split; [|exact Hw]. eapply heard_out_trans; [by apply Hi|done].
  - done.
Qed.

Lemma listen_acts_heard {E} `{Env E} os fuel self names rooms (e : E) s why e' t :
  listen os fuel self names rooms e = Some ((s, why), e', t) → Forall sender_ok t → Forall (act_heard self t) (li_acts s).
Proof.
  intros Hr Hok. destruct (listen_run _ _ _ _ _ _ _ _ _ _ Hr Hok) as [[(acts & Ha & Ht) _ _ _ _] _]. simpl in Ha. subst acts.
  apply (Forall_impl (act_heard self t ∘ with_room)); [|apply act_heard_room]. apply Forall_fmap.
  change (with_room <$> li_acts s) with (map with_room (li_acts s)). rewrite Ht. by apply told_heard, heard_senders.
Qed.

(** C13: The listener's thread.  What it does to the shared state is exactly what
    the replies received say, in the order they came (but for what memory
    lacks): hosts of the range, by the kind of the reply, and the names told,
    which are printable and not empty; no datagram makes it read or write
    outside a buffer.  It sends the group queries again at most once, and asks
    for a name only those who replied, each at most once and, while there is
    memory, every one.  It holds nothing but the socket it was given. *)
Theorem listen_exact {E} `{Env E} os fuel self names rooms (e : E) s why e' t :
  listen os fuel self names rooms e = Some ((s, why), e', t) → Forall sender_ok t →
  why ≠ l_stray ∧ map with_room (li_acts s) = flat_map (told self names) (heard t) ∧ Forall (act_heard self t) (li_acts s) ∧
  sent t ≡ₚ (if li_resent s then group_queries else []) ++ map name_query (li_asked s) ∧
  NoDup (li_asked s) ∧ (∀ ip, ip ∈ li_asked s → ip ∈ responders self t) ∧
  (ml_ask_names self = true → Forall (λ r, rm_asked r = true) rooms → ∀ ip, ip ∈ responders self t → ip ∈ li_asked s) ∧
  ∀ held, keeps_from held t held.
Proof.
  intros Hr Hok. destruct (listen_run _ _ _ _ _ _ _ _ _ _ Hr Hok) as
    [[(acts & Ha & Ht) (again & asked & Hres & _ & Hk & Hs & Hin & Hno) Ho Hrm Hn] Hw]. simpl in *. subst acts.
  split; [done|]. split; [done|]. split.
  { by eapply listen_acts_heard. }
  rewrite Hres, Hk. split; [done|]. rewrite <- Hk. split; [by apply Ho, NoDup_nil_2|]. split; [by rewrite Hk|].
  split; [intros Hask Hall; by apply Hrm|]. intros held. by apply keeps_from_neutral.
Qed.

(** The thread ends: each of its rounds does, whatever the network does, and
    somebody raises a flag after finitely many looks at them. *)
Theorem listen_returns {E} `{ClockLaw E, !StopLaw E} os self names rooms (e : E) :
  ∃ n, ∀ m, (n ≤ m)%nat → is_Some (listen os m self names rooms e).
Proof. apply (runs_enough (λ n, listen os n self names rooms) e), listen_runs. Qed.

Section Starts.
Context {E : Type} `{Env E}.
Variable os : platform.

Lemma sends_none t : Forall (λ ev, sent_in ev = []) t → sent t = [].
Proof. induction 1 as [|ev t Hev _ IH]; [done|]. unfold sent in *. simpl. by rewrite Hev, IH. Qed.

Lemma local_address_sends first last (e : E) r e' t : mc_local_address os first last true e = Some (r, e', t) → sent t = [].
Proof.
  intros Hr. apply sends_none. revert Hr.
  assert (∀ n size buf ret, logs (λ ev, sent_in ev = []) (grow_adapters (E := E) n size buf ret)) as Hgrow.
  { induction n as [|n IH]; intros size buf ret; cbn [grow_adapters]; unfold free_opt; solve_logs; apply IH. }
  assert (logs (λ ev, sent_in ev = []) (mc_local_address (E := E) os first last true)) as Hlogs; [|by apply Hlogs].
  unfold mc_local_address, win_wsa_init_once, win_wsa_do_startup, free_opt. solve_logs; apply Hgrow.
Qed.

Lemma open_sends local (e : E) r e' t : mc_open os local e = Some (r, e', t) → sent t = [].
Proof.
  intros Hr. apply sends_none. revert Hr.
  assert (logs (λ ev, sent_in ev = []) (mc_open (E := E) os local)) as Hlogs; [|by apply Hlogs].
  unfold mc_open, ns_udp_socket, ns_socket_init, win_wsa_init_once, win_wsa_do_startup, ns_set_nonblocking, ns_close. solve_logs.
Qed.

Lemma wake_neutral sock : logs neutral (mc_wake (E := E) sock).
Proof. unfold mc_wake. solve_logs. Qed.

Lemma opened_more local sock t u v : opened local sock t → opened local sock ((u ++ t) ++ v).
Proof.
  intros (H1 & [r2 H2] & [r3 H3]). split; [rewrite !elem_of_app; auto|]. split; [exists r2|exists r3]; rewrite !elem_of_app; auto.
Qed.
End Starts.

Lemma start_range {E} `{Env E} os first last ask_names spawns (e : E) self e' t :
  start os first last ask_names spawns e = Some (Some self, e', t) → ml_first self = first ∧ ml_last self = last.
Proof.
  intros Hr. unfold start in Hr. destruct (_ >? _); [by apply ret_inv in Hr as (? & _)|].
  apply bind_inv in Hr as ([local|] & e1 & t1 & u1 & _ & Hr & _); [|by apply ret_inv in Hr as (? & _)].
  apply bind_inv in Hr as ([socket|] & e2 & t2 & u2 & _ & Hr & _); [|by apply ret_inv in Hr as (? & _)].
  apply bind_inv in Hr as (? & e3 & t3 & u3 & _ & Hr & _). destruct spawns; [by apply ret_inv in Hr as ([= ->] & _)|].
  apply bind_inv in Hr as (? & e4 & t4 & u4 & _ & Hr & _). by apply ret_inv in Hr as (? & _).
Qed.

(** The listener's socket.  start either asks both groups and keeps one bound
    socket, or keeps nothing; finish gives the socket back after the thread
    is over, and does nothing when it was called before. *)
Theorem listener_owned {E} `{Env E} os first last ask_names spawns (e : E) r e' t :
  start os first last ask_names spawns e = Some (r, e', t) →
  match r with
  | None => keeps t []
  | Some self =>
    spawns = true ∧ ml_first self = first ∧ ml_last self = last ∧ keeps t [RSock (ml_socket self)] ∧ sent t = group_queries ∧
    (∃ local, opened local (ml_socket self) t) ∧
    ∀ fuel names rooms (e1 : E) done e2 u,
      finish self (Some (listen os fuel self names rooms)) e1 = Some (done, e2, u) → Forall sender_ok u → keeps (t ++ u) []
  end.
Proof.
  intros Hr. unfold start in Hr. destruct (_ >? _); [apply ret_inv in Hr as (-> & _ & ->); exact (keeps_from_nil [])|].
  apply bind_inv in Hr as (local & e1 & t1 & u1 & Hl & Hr & ->).
  pose proof (local_address_sends os _ _ _ _ _ _ Hl) as Hs1. apply mc_local_address_run in Hl as [Hk1 _].
  destruct local as [local|]; [|apply ret_inv in Hr as (-> & _ & ->); by rewrite app_nil_r].
  apply bind_inv in Hr as (socket & e2 & t2 & u2 & Ho & Hr & ->).
  pose proof (open_sends os _ _ _ _ _ Ho) as Hs2. apply mc_open_run in Ho as [Hk2 Hopen].
  pose proof (keeps_from_app [] _ _ _ _ Hk1 Hk2) as Hk. clear Hk1 Hk2.
  destruct socket as [socket|]; [|apply ret_inv in Hr as (-> & _ & ->); by rewrite app_nil_r].
  apply bind_inv in Hr as (? & e3 & t3 & u3 & (Hs3 & _ & Hn3)%sendQueries_run & Hr & ->).
  apply (keeps_from_neutral [RSock socket]) in Hn3. pose proof (keeps_from_app _ _ _ _ _ Hk Hn3) as Hk3.
  destruct spawns; [apply ret_inv in Hr as (-> & -> & ->)|].
  - rewrite app_nil_r, app_assoc. split; [done|]. split; [done|]. split; [done|]. split; [done|].
    split; [by rewrite !sent_app, Hs1, Hs2, Hs3|].
    split; [exists local; by apply opened_more|]. intros fuel names rooms e5 done0 e6 u Hf Hok.
    apply keeps_keeps_from. eapply keeps_from_app; [exact Hk3|]. unfold finish in Hf.
    apply bind_inv in Hf as (? & e7 & t7 & u7 & Hw & Hf & ->). apply wake_neutral, (keeps_from_neutral [RSock socket]) in Hw.
    apply Forall_app in Hok as [_ Hok]. eapply keeps_from_app; [exact Hw|].
    apply bind_inv in Hf as ([s why] & e8 & t8 & u8 & Hrun & Hf & ->). apply Forall_app in Hok as [Hok _].
    destruct (listen_run _ _ _ _ _ _ _ _ _ _ Hrun Hok) as [[_ _ _ _ Hn] _]. eapply keeps_from_app; [by apply keeps_from_neutral|].
    apply bind_inv in Hf as (? & e9 & t9 & u9 & Hc & Hf & ->). apply ret_inv in Hf as (-> & -> & ->).
    rewrite app_nil_r. unfold mc_close, ns_close in Hc. run_inv. solve_keeps.
  - apply bind_inv in Hr as (? & e4 & t4 & u4 & Hc & Hr & ->). apply ret_inv in Hr as (-> & -> & ->).
    rewrite app_nil_r, !app_assoc. apply keeps_keeps_from. eapply keeps_from_app; [exact Hk3|].
    unfold mc_close, ns_close in Hc. run_inv. solve_keeps.
Qed.

(** ** Runs *)

(** An environment that raises a flag after so many looks at them. *)
Definition impatient : Type := nat * script.

Definition impatient_step (A : Type) (c : call A) (e : impatient) : A * impatient :=
  match c in call T return script * (script → T * script) → T * impatient with
  | StopRequested => λ s, match e.1 with O => (true, (O, s.1)) | S n => (false, (n, s.1)) end
  | _ => λ s, let '(r, s') := s.2 s.1 in (r, (e.1, s'))
  end (e.2, script_step A c).

#[export] Instance impatient_env : Env impatient := impatient_step.

(** A step is the script's, or a look at the flags. *)
Lemma impatient_steps A (c : call A) (e e' : impatient) r :
  env_step c e = (r, e') →
  (e'.1 = e.1 ∧ script_step A c e.2 = (r, e'.2) ∨ e'.2 = e.2 ∧ (e'.1 ≤ e.1)%nat).
Proof.
  unfold env_step, impatient_env, impatient_step. destruct c; cbn -[script_step]; intros Hs.
  all: try (match type of Hs with context [script_step ?T ?c ?s] => destruct (script_step T c s) as [r' s'] end;
       injection Hs as <- <-; by left).
  destruct (e.1); injection Hs as <- <-; right; (split; [done|simpl; lia]).
Qed.

#[export] Instance impatient_clock : ClockLaw impatient.
Proof.
  refine {| clk := λ e, sc_now e.2; stall := λ _, 0%nat |}.
  - intros e e' ts H. injection H as <- <-. simpl. exact (clock_read (E := script) e.2 _ _ eq_refl).
  - intros A c e e' r [[_ H]|[-> _]]%impatient_steps; [exact (clock_mono A c e.2 _ _ H)|right; lia].
  - intros A c ms e e' r [[_ H]|[-> _]]%impatient_steps Hms; [exact (clock_day A c ms e.2 _ _ H Hms)|lia].
Defined.

#[export] Instance impatient_stop : StopLaw impatient.
Proof.
  refine {| patience := λ e : impatient, e.1 |}.
  - intros [n s] e' H. unfold env_step, impatient_env, impatient_step in H. simpl in H. destruct n; [done|]. injection H as <-. simpl. lia.
  - intros A c e e' r [[-> _]|[_ H]]%impatient_steps; lia.
Defined.

(** A NAS answers the query, and again; then a device out of range. *)
Definition lan_listener : MulticastListener :=
  {| ml_socket := 3; ml_first := IP 10 0 0 1; ml_last := IP 10 0 0 254; ml_ask_names := true |}.

Definition nas_answers : script :=
  {| sc_now := 0; sc_fd := 3; sc_polls := [Ok [1]; Ok [1]; Ok [1]]; sc_selects := []; sc_sends := [];
     sc_recvs := [Ok (encode_message nas_reply, SA AF_INET (IP 10 0 0 7) 5353); Ok (encode_message nas_reply, SA AF_INET (IP 10 0 0 7) 5353);
                  Ok (encode_message nas_reply, SA AF_INET (IP 10 0 1 7) 5353)];
     sc_connects := []; sc_mallocs := []; sc_files := []; sc_size := 0;
     sc_ifaddrs := []; sc_local := Ok idle_addr; sc_peer := Ok idle_addr;
     sc_soerror := Ok 0; sc_stops := [false; false; false; false; false; false; true]; sc_rows := [];
     sc_echo2 := []; sc_pending := []; sc_parsed := []; sc_jobs := [];
     sc_caps := [] |}.

Definition nas_name : list Z := [110; 97; 115; 46; 108; 111; 99; 97; 108].

Definition nas_listened : Listening :=
  {| li_resent := false; li_asked := [IP 10 0 0 7];
     li_acts := [a_report (IP 10 0 0 7) by_mdns true; a_name (IP 10 0 0 7) nas_name true true;
                 a_report (IP 10 0 0 7) by_mdns true; a_name (IP 10 0 0 7) nas_name true true];
     li_rooms := [] |}.

Lemma listen_exact_witness :
  ∃ e' t, listen Linux 5 lan_listener true [] nas_answers = Some ((nas_listened, l_stopped), e', t) ∧
    NoDup (li_asked nas_listened) ∧ responders lan_listener t = [IP 10 0 0 7; IP 10 0 0 7].
Proof.
  do 2 eexists. split; [vm_compute; reflexivity|]. split; [|vm_compute; reflexivity].
  refine (proj1 (proj2 (proj2 (proj2 (proj2 (listen_exact Linux 5 lan_listener true [] nas_answers nas_listened l_stopped _ _ _ _)))))).
  - vm_compute. reflexivity.
  - repeat (apply Forall_cons; split; [unfold sender_ok; simpl; repeat constructor; simpl; unfold is_u8; lia|]). constructor.
Defined.

Lemma listen_returns_witness :
  ∃ n, ∀ m, (n ≤ m)%nat → is_Some (listen Windows m lan_listener false [] ((9%nat, nas_answers) : impatient)).
Proof. apply (listen_returns Windows lan_listener false [] ((9%nat, nas_answers) : impatient)). Defined.

Lemma listener_owned_witness :
  ∃ self e' t, start Linux (IP 192 168 1 1) (IP 192 168 1 254) true true laptop = Some (Some self, e', t) ∧
    sent t = group_queries ∧ keeps t [RSock (ml_socket self)].
Proof.
  do 3 eexists. split; [vm_compute; reflexivity|].
  assert (∀ self e' t, start Linux (IP 192 168 1 1) (IP 192 168 1 254) true true laptop = Some (Some self, e', t) →
    sent t = group_queries ∧ keeps t [RSock (ml_socket self)]) as Hall.
  { intros self e' t Hr. destruct (listener_owned Linux (IP 192 168 1 1) (IP 192 168 1 254) true true laptop _ _ _ Hr) as
      (_ & _ & _ & Hk & Hs & _). by split. }
  eapply (Hall _ _ _). vm_compute. reflexivity.
Defined.
