(* ===== verification/Scan.v ===== *)
(** * scanner.zig: scanNetwork and scanNetworkPing

    The two discoveries from the range to the report, composed of the parts
    the other files model: the range and its hosts (Ranges.v), the multicast
    listener beside everything else (Listener.v), the neighbour table before
    and after (NeighborTable.v), the TCP sweep (Discovery.v over Run.v), the
    ARP harvest (Harvest.v) or a ping sweep (Pings.v), and the report
    (Results.v).  The theorems say who is listed, and on what evidence. *)
From Stdlib Require Import String.
From stdpp Require Import countable gmap sorting relations.
From S2P Require Import Prelude Words Decimal Subnets Ranges Sys Script NsSocket IcmpWire SweepSpec IcmpSweep IcmpSweepWin Targets Window Held Probe Connects Shared Run Multicast NeighborList Neighbors Packets Names Oui Packed Discovery Warnings NeighborTable Pool Pings Harvest Results Listener.
Open Scope Z_scope.

(** What a scan of a network came to: its hosts, what each part did, how the
    sweep ended (nothing when it could not be set up), the requests its two
    readings of the neighbour table made, the names counted, the lines for
    stderr, and the report. *)
Record Scan := {
  sn_hosts : IpRange;
  sn_targets : list ip4;
  sn_listener : option MulticastListener;
  sn_heard : list event;
  sn_known : option (list neighbor);
  sn_calls : list sweep_call;
  sn_sweep_end : option run_result;
  sn_table : option (list neighbor);
  sn_second : option (list ip4 * list act * bool);
  sn_requests : list Z * list Z;
  sn_heard_acts : list act;
  sn_sweep_acts : list act;
  sn_harvest_acts : list act;
  sn_acts : list act;
  sn_found : Discovery;
  sn_counted : nat;
  sn_warnings : list warning;
  sn_report : Results.report
}.

Inductive scan_result := scan_failed (why : zig_error) | scanned (s : Scan).

(** What sweepHosts writes to stderr, by how its run ended. *)
Definition sweep_says (res : option run_result) : list warning :=
  match res with
  | Some run_ok => []
  | Some out_of_sockets => [w_sweep_stopped]
  | Some out_of_memory | None => [w_sweep_skipped (text "OutOfMemory")]
  end.

(** What harvestArp does, when its ping sweep failed: [sys] is the system's
    error of a ping that could not start. *)
Definition arp_says (sys : list Z) (failure : option ping_result) : list warning :=
  match failure with
  | None => []
  | Some pings_out_of_memory => [w_arp_skipped (text "OutOfMemory")]
  | Some _ => [w_arp_skipped sys]
  end.

Section Scan.
Context {E : Type} `{EchoLaw E, !RlimitLaw E}.
Variables (os : platform) (job_size settled_size : Z) (garbage : list Z).
Variables (parse_message : list Z → reply_error + Message) (send_arp : ip4 → option (list Z)) (table : Table) (oui_db : OuiDatabase).

(** The listener, if there is one: what its thread does and hears until
    finish has joined it. *)
Inductive listened (first last : ip4) (ask_names : bool) : option MulticastListener → list act → list event → Prop :=
| no_listener spawns (e : E) e' t :
    start os first last ask_names spawns e = Some (None, e', t) → listened first last ask_names None [] []
| a_listener spawns (e : E) self e' t fuel rooms e1 s why e2 u :
    start os first last ask_names spawns e = Some (Some self, e', t) →
    listen os fuel self true rooms e1 = Some ((s, why), e2, u) →
    listened first last ask_names (Some self) (li_acts s) u.

(** sweepHosts: the calls of the run and what they do; none when the run
    could not be set up. *)
Inductive swept (ips : list ip4) : list sweep_call → list act → option run_result → Prop :=
| sweep_skipped : swept ips [] [] None
| sweep_run fuel res source sys cs s acts :
    run_of (E := E) os false job_size settled_size fuel fixed res source sys →
    map sweep_seen cs = filter of_source source →
    sweep_calls cs {| hs_ips := ips; hs_index := 0 |} = Some (s, acts) →
    swept ips cs acts (Some res).

(** A reading of the neighbour table, [quiet] or not: its log is [t], its lines
    for stderr [says]. *)
Definition table_read (quiet : bool) (parent : option Parent) (read : option (list neighbor)) (parent' : option Parent)
    (says : list warning) (t : list event) : Prop :=
  ∃ request_fuel fuel rooms room arrivals from rest sys (e : E) e',
    readNeighbors parse_message request_fuel fuel os rooms room arrivals parent e = Some ((read_from from read, parent', rest), e', t) ∧
    Forall arrival_ok arrivals ∧
    says = reading_says parse_message quiet sys request_fuel os rooms arrivals parent from read.

(** scanNetwork.  The listener's operations come anywhere between those of
    the other phases, which follow each other; the report is made of what all
    of them left. *)
Inductive scanNetwork (cidr : list Z) (options : wants) (parent : option Parent) : scan_result → Prop :=
| scan_unparsed why : parseCidr cidr = inl why → scanNetwork cidr options parent (scan_failed why)
| scan_no_memory network range fuel room why :
    parseCidr cidr = inr network → getIpRange network = Some range →
    let hosts := usableHosts network range in
    collectIps fuel room (range_start hosts) (range_end hosts) = Some (inl why) →
    scanNetwork cidr options parent (scan_failed why)
| scan_done network range fuel room targets listener heard_acts heard_log known parent1 says1 t1 calls sweep_acts
      sweep_end read parent2 says2 t2 fuel2 harvest_acts second failure sys acts d r counted stopped :
    parseCidr cidr = inr network → getIpRange network = Some range →
    let hosts := usableHosts network range in
    collectIps fuel room (range_start hosts) (range_end hosts) = Some (inr targets) →
    listened (range_start hosts) (range_end hosts) (resolve_hostname options) listener heard_acts heard_log →
    table_read true parent known parent1 says1 t1 →
    swept targets calls sweep_acts sweep_end →
    table_read false parent1 read parent2 says2 t2 →
    harvestArp os fuel2 garbage known (range_start hosts) (range_end hosts) read harvest_acts second failure →
    merged [heard_acts; sweep_acts ++ harvest_acts ++ match second with Some (_, more, _) => more | None => [] end] acts →
    perform_all acts nothing_found = Some d →
    reportResults (E := E) os (Some d) send_arp table oui_db options d r counted stopped →
    scanNetwork cidr options parent
      (scanned {| sn_hosts := hosts; sn_targets := targets; sn_listener := listener; sn_heard := heard_log; sn_known := known;
                  sn_calls := calls; sn_sweep_end := sweep_end; sn_table := read; sn_second := second;
                  sn_requests := (option_list (asked parent), option_list (asked parent1));
                  sn_heard_acts := heard_acts; sn_sweep_acts := sweep_acts; sn_harvest_acts := harvest_acts; sn_acts := acts;
                  sn_found := d; sn_counted := counted;
                  sn_warnings := says1 ++ sweep_says sweep_end ++ says2 ++ arp_says sys failure; sn_report := r |}).

(** ** Evidence *)

(** A candidate of the harvest that answered a ping, or SendARP. *)
Definition confirmed (candidates : list ip4) (acts : list act) (ip : ip4) : Prop :=
  (∃ fuel r calls stopped i, pingSweep os fuel garbage candidates r calls stopped ∧ candidates !! i = Some ip ∧ (i, true) ∈ calls) ∨
  (os = Windows ∧ ∃ mac room, a_mac ip mac room ∈ acts).

Inductive evidence (s : Scan) (ip : ip4) : Prop :=
| by_connect o us room : sc_done (host_job ip) o us room ∈ sn_calls s → o ≠ filtered → evidence s ip
| by_kernel entries entry :
    sn_table s = Some entries → entry ∈ entries → ne_ip entry = ip →
    fresh_entry (sn_known s) entries (range_start (sn_hosts s)) (range_end (sn_hosts s)) entry = true → evidence s ip
| by_confirm candidates acts cut :
    sn_second s = Some (candidates, acts, cut) → ip ∈ candidates → confirmed candidates acts ip → evidence s ip
| by_reply self data kind :
    sn_listener s = Some self → (ip, data) ∈ heard (sn_heard s) → answer_kind self (ip, data) = Some kind → evidence s ip.
End Scan.

(** ** Who is listed *)

Lemma reported_elem acts ip : ip ∈ flat_map reported_host acts ↔ ∃ source, a_report ip source true ∈ acts.
Proof.
  rewrite list_elem_of_In, in_flat_map. split.
  - intros (a & Ha & Hip). destruct a as [ip' source []| | | |]; try done. destruct Hip as [<-|[]]. exists source. by apply list_elem_of_In.
  - intros (source & Ha). exists (a_report ip source true). split; [by apply list_elem_of_In|by left].
Qed.

Section Evidence.
Context {E : Type} `{EchoLaw E, !RlimitLaw E}.
Variables (os : platform) (job_size settled_size : Z) (garbage : list Z).
Variables (parse_message : list Z → reply_error + Message) (send_arp : ip4 → option (list Z)) (table : Table) (oui_db : OuiDatabase).

(** The report of a confirming ping *)
Lemma pinged_confirmed fuel candidates r calls stopped room ip source rm acts :
  pingSweep (E := E) os fuel garbage candidates r calls stopped → a_report ip source rm ∈ confirm_acts os room candidates calls →
  ip ∈ candidates ∧ confirmed (E := E) os garbage candidates acts ip.
Proof.
  intros Hp Ha. unfold confirm_acts in Ha. apply list_elem_of_In, in_flat_map in Ha as ([i a] & Hin%list_elem_of_In & Ha%list_elem_of_In).
  simpl in Ha. destruct (candidates !! i) as [ip'|] eqn:Hip; [|by apply not_elem_of_nil in Ha]. unfold confirm_pinged in Ha.
  apply elem_of_app in Ha as [Ha|Ha].
  - destruct a; [|by apply not_elem_of_nil in Ha]. apply list_elem_of_singleton in Ha as [= -> -> ->].
    split; [by eapply list_elem_of_lookup_2|]. left. by exists fuel, r, calls, stopped, i.
  - destruct (_ || _); [by apply list_elem_of_singleton in Ha|by apply not_elem_of_nil in Ha].
Qed.

Lemma confirms_confirmed fuel candidates acts cut failure ip source rm :
  confirms (E := E) os fuel garbage candidates acts cut failure → a_report ip source rm ∈ acts → ip ∈ candidates ∧ confirmed (E := E) os garbage candidates acts ip.
Proof.
  intros Hc Ha. destruct Hc as [r calls stopped room Hp Hr|alive calls stopped room Hos Hp|alive calls stopped room room' Hos Hp Hu|
    alive calls stopped room room' p Hos Hp targets Ht Hpool Hret]; [by eapply pinged_confirmed..|].
  apply elem_of_app in Ha as [Ha|Ha]; [by eapply pinged_confirmed|].
  destruct (pool_end _ _ _ _ Hpool Hret) as (n & Hn & Hall & Hjob & Hin). apply log_split in Hin.
  assert (∃ i ops, (i < n)%nat ∧ a_report ip source rm ∈ ops ∧ arp_job targets i ops ∧ ∀ a, a ∈ ops → a ∈ map snd (po_log p)) as
    (i & ops & Hi & Hops & (ip' & mac & mr & r & Hip & ->) & Hsub).
  { pose proof Ha as Ha'. rewrite Hin in Ha'. apply list_elem_of_In, in_flat_map in Ha' as (i & Hi%list_elem_of_In%elem_of_seq & Hops%list_elem_of_In).
    eexists i, _. split; [lia|]. split; [exact Hops|]. split; [apply Hjob; lia|]. intros a Hain. rewrite Hin. apply list_elem_of_In, in_flat_map.
    exists i. split; [apply list_elem_of_In, elem_of_seq; lia|by apply list_elem_of_In]. }
  assert (a_mac ip (default [] mac) mr ∈ map snd (po_log p) ∧ ip' = ip) as [Hmac ->].
  { unfold arp_confirm in *. apply elem_of_app in Hops as [Hops|Hops%list_elem_of_singleton]; [|done].
    destruct mac as [mac|]; [|by apply not_elem_of_nil in Hops]. apply elem_of_cons in Hops as [|[= -> -> ->]%list_elem_of_singleton]; [done|].
    split; [apply Hsub; simpl; apply list_elem_of_here|done]. }
  split; [by eapply unconfirmed_elem, list_elem_of_lookup_2|]. right. split; [done|]. exists (default [] mac), mr. apply elem_of_app. by right.
Qed.

(** Who the listener reports: somebody in range who replied. *)
Lemma listened_reports first last ask_names listener acts t ip source rm :
  listened (E := E) os first last ask_names listener acts t → Forall sender_ok t → a_report ip source rm ∈ acts →
  ip_ok ip ∧ ipInRange ip first last = true ∧
  ∃ self data kind, listener = Some self ∧ (ip, data) ∈ heard t ∧ answer_kind self (ip, data) = Some kind.
Proof.
  intros Hl Hok Ha. destruct Hl as [spawns e e' t0 _|spawns e self e' t0 fuel rooms e1 s why e2 u Hs Hl]; [by apply not_elem_of_nil in Ha|].
  pose proof (listen_acts_heard _ _ _ _ _ _ _ _ _ _ Hl Hok) as Hall. rewrite Forall_forall in Hall.
  destruct (Hall _ Ha) as (data & kind & Hd & Hk & _). apply start_range in Hs as [<- <-].
  pose proof (heard_senders u Hok) as Hsend. rewrite Forall_forall in Hsend. destruct (Hsend _ Hd) as [Hip _].
  split; [exact Hip|]. split; [|by exists self, data, kind].
  unfold answer_kind in Hk. simpl in Hk. by destruct (ipInRange _ _ _).
Qed.

(** Who the sweep reports: a target whose connect was answered. *)
Lemma swept_reports ips calls acts res ip source rm :
  swept (E := E) os job_size settled_size ips calls acts res → a_report ip source rm ∈ acts →
  ip ∈ ips ∧ ∃ o us, sc_done (host_job ip) o us rm ∈ calls ∧ o ≠ filtered.
Proof.
  intros Hs Ha. destruct Hs as [|fuel res src sys cs s acts Hr Heq Hc]; [by apply not_elem_of_nil in Ha|].
  pose proof (sweep_verdicts _ _ _ _ _ _ _ _ _ _ _ _ Hr Heq Hc) as Hv. apply sweep_calls_run in Hc as (_ & _ & _ & _ & ->).
  apply list_elem_of_In, in_flat_map in Ha as (c & Hcs%list_elem_of_In & Ha). destruct c as [|job o us room]; [done|].
  unfold sweep_done in Ha. apply in_app_iff in Ha as [Ha|[Ha|[]]]; [|done].
  destruct (bool_decide (o = filtered)) eqn:Ho; to_prop; [done|]. destruct Ha as [[= <- <- <-]|[]].
  destruct (Hv _ _ _ _ Hcs) as (ip' & Hip & ->). split; [exact Hip|]. by exists o, us.
Qed.

(** Who the harvest reports: a neighbour the kernel vouches for, or one that
    was confirmed. *)
Lemma harvest_reports fuel known first last read acts second failure ip source rm :
  harvestArp (E := E) os fuel garbage known first last read acts second failure →
  a_report ip source rm ∈ acts ++ match second with Some (_, more, _) => more | None => [] end →
  ∃ entries entry, read = Some entries ∧ entry ∈ entries ∧ ne_ip entry = ip ∧ ipInRange ip first last = true ∧
    (fresh_entry known entries first last entry = true ∨
     ∃ candidates more cut, second = Some (candidates, more, cut) ∧ ip ∈ candidates ∧ confirmed (E := E) os garbage candidates more ip).
Proof.
  intros Hh Ha.
  assert (∀ rounds candidates acts, harvest_loop known (map rd_entry rounds) first last rounds [] = (candidates, acts) →
    a_report ip source rm ∈ acts → ∃ entries entry, Some (map rd_entry rounds) = Some entries ∧ entry ∈ entries ∧ ne_ip entry = ip ∧
      ipInRange ip first last = true ∧ fresh_entry known entries first last entry = true) as Hloop.
  { intros rounds candidates acts0 Hl Hin. apply harvest_loop_run in Hl as [_ _ Hrep _].
    apply Hrep in Hin as (r & Hr & -> & _ & _ & [Hrange _] & Hf). eexists _, (rd_entry r). split; [done|].
    split; [by apply list_elem_of_fmap_2|]. done. }
  destruct Hh as [|rounds candidates acts0 entries Hl|rounds candidates acts0 more cut failure entries Hl Hne Hc].
  - by apply not_elem_of_nil in Ha.
  - rewrite app_nil_r in Ha. destruct (Hloop _ _ _ Hl Ha) as (es & en & ? & ? & ? & ? & ?). exists es, en. auto 10.
  - apply elem_of_app in Ha as [Ha|Ha].
    + destruct (Hloop _ _ _ Hl Ha) as (es & en & ? & ? & ? & ? & ?). exists es, en. auto 10.
    + destruct (confirms_confirmed _ _ _ _ _ _ _ _ Hc Ha) as [Hin Hcf]. apply harvest_loop_run in Hl as [(more' & -> & _ & Hm) _ _ _].
      destruct (Hm _ Hin) as (r & Hr & Hip & [Hrange _] & _). exists entries, (rd_entry r). split; [done|].
      split; [by apply list_elem_of_fmap_2|]. split; [done|]. split; [by rewrite Hip|]. right. by exists more', more, cut.
Qed.
End Evidence.

(** The hosts of a scan are those of the network it names. *)
Lemma scan_hosts cidr network range fuel room targets :
  parseCidr cidr = inr network → getIpRange network = Some range →
  let hosts := usableHosts network range in
  collectIps fuel room (range_start hosts) (range_end hosts) = Some (inr targets) →
  Forall ip_ok targets ∧ map ip_value targets = host_range (address network) (prefix_len network) ∧
  ∀ ip, ip_ok ip → ipInRange ip (range_start hosts) (range_end hosts) = true ↔
    ip_value ip ∈ host_range (address network) (prefix_len network).
Proof.
  intros Hparse Hrange hosts Hc. destruct (cidr_range _ _ Hparse) as (range' & lo & hi & Hrange' & Huse & Hlo & Hhi & Hle & Hhosts).
  rewrite Hrange in Hrange'. injection Hrange' as <-. subst hosts. rewrite Huse in *. simpl in *.
  destruct (collected_range _ _ _ _ _ Hlo Hhi ltac:(lia) Hc) as [Hok Hv]. split; [done|]. rewrite Hv, Hhosts. split; [done|].
  intros ip Hip. rewrite ipInRange_exact by (done || apply from_host_order_ok). rewrite !ip_value_host by done.
  rewrite elem_of_seqZ. lia.
Qed.

(** C1: A scan from the range to the report.  The report lists hosts of the
    network that was named, each once, in ascending order, and each on
    evidence: its connect was answered, the kernel vouched for its entry, it
    answered the ping (or, on Windows, the ARP request) that checked an old
    entry, or a multicast reply came from it.  However the listener's reports
    fall between the others', every report made while there was memory is in
    it, so every host whose connect was answered. *)
Theorem scan_lists {E} `{EchoLaw E, !RlimitLaw E} os job_size settled_size garbage parse_message send_arp table oui_db cidr options parent s :
  scanNetwork (E := E) os job_size settled_size garbage parse_message send_arp table oui_db cidr options parent (scanned s) →
  Forall sender_ok (sn_heard s) →
  (∀ entries, sn_table s = Some entries → Forall (λ entry, ip_ok (ne_ip entry)) entries) →
  StronglySorted (λ a b, ip_value a < ip_value b) (reported_ips (sn_report s)) ∧
  (∃ network, parseCidr cidr = inr network ∧ map ip_value (sn_targets s) = host_range (address network) (prefix_len network) ∧
    ∀ ip, ip ∈ reported_ips (sn_report s) →
      ip_value ip ∈ host_range (address network) (prefix_len network) ∧ evidence (E := E) os garbage s ip) ∧
  (∀ ip source, a_report ip source true ∈ sn_acts s → ip ∈ reported_ips (sn_report s)) ∧
  (∀ ip o us, sc_done (host_job ip) o us true ∈ sn_calls s → o ≠ filtered → ip ∈ reported_ips (sn_report s)).
Proof.
  intros Hscan Hsend Htable. inversion Hscan as [| |network range fuel room targets listener heard_acts heard_log known parent1 says1 t1
    calls sweep_acts sweep_end read parent2 says2 t2 fuel2 harvest_acts second failure sys acts d r counted stopped Hparse Hrange hosts Hc Hl Hk Hsw Hread Hh Hm Hp Hrep];
    subst. simpl in *.
  destruct (scan_hosts _ _ _ _ _ _ Hparse Hrange Hc) as (Htok & Htv & Hin). fold hosts in Hin.
  destruct (perform_all_ok _ _ [] _ nothing_ok Hp) as [Hn Hf _ _ _ _]. cbn [app] in Hf.
  apply merged_perm in Hm. simpl in Hm. rewrite app_nil_r in Hm.
  assert (∀ ip, ip ∈ dv_found d → ip_ok ip ∧ ip_value ip ∈ host_range (address network) (prefix_len network) ∧
    evidence (E := E) os garbage {| sn_hosts := hosts; sn_targets := targets; sn_listener := listener; sn_heard := heard_log; sn_known := known;
      sn_calls := calls; sn_sweep_end := sweep_end; sn_table := read; sn_second := second;
      sn_requests := (option_list (asked parent), option_list (asked parent1));
      sn_heard_acts := heard_acts; sn_sweep_acts := sweep_acts; sn_harvest_acts := harvest_acts; sn_acts := acts;
      sn_found := d; sn_counted := counted;
      sn_warnings := says1 ++ sweep_says sweep_end ++ says2 ++ arp_says sys failure; sn_report := r |} ip) as Hall.
  { intros ip (source & Ha)%Hf%reported_elem. rewrite <- Hm, !elem_of_app in Ha. destruct Ha as [Ha|[Ha|Ha]].
    - eapply listened_reports in Ha as (Hip & Hrg & self & data & kind & -> & Hd & Hkind); [|exact Hl|exact Hsend].
      split; [done|]. split; [by apply Hin|]. by apply (by_reply _ _ _ ip self data kind).
    - eapply swept_reports in Ha as (Hip & o & us & Hdone & Ho); [|exact Hsw]. rewrite Forall_forall in Htok.
      split; [by apply Htok|]. split; [rewrite <- Htv; by apply list_elem_of_fmap_2|]. by apply (by_connect _ _ _ ip o us true).
    - apply elem_of_app in Ha. eapply harvest_reports in Ha as (entries & entry & Hread' & Hent & <- & Hrg & Hev); [|exact Hh].
      specialize (Htable _ Hread'). rewrite Forall_forall in Htable. pose proof (Htable _ Hent) as Hip.
      split; [done|]. split; [by apply Hin|]. destruct Hev as [Hfr|(candidates & more & cut & Hs & Hcand & Hcf)].
      + by apply (by_kernel _ _ _ _ entries entry).
      + by apply (by_confirm _ _ _ _ candidates more cut). }
  assert (Forall ip_ok (dv_found d)) as Hok by (apply Forall_forall; intros ip Hip; by apply Hall).
  destruct (results_run _ _ _ _ _ _ _ _ _ _ Hn Hok Hrep) as (Hperm & Hsorted & _).
  assert (∀ ip source, a_report ip source true ∈ acts → ip ∈ reported_ips r) as Hlisted.
  { intros ip source Ha. rewrite Hperm. apply Hf, reported_elem. by exists source. }
  split; [done|]. split.
  - exists network. split; [done|]. split; [done|]. intros ip Hip. rewrite Hperm in Hip. by apply Hall.
  - split; [done|]. intros ip o us Hdone Ho. apply (Hlisted ip by_tcp). rewrite <- Hm, !elem_of_app. right. left.
    destruct Hsw as [|fuel' res src sys' cs s acts' Hrun Heq Hcalls]; [by apply not_elem_of_nil in Hdone|].
    apply sweep_calls_run in Hcalls as (_ & _ & _ & _ & ->). apply list_elem_of_In, in_flat_map. eexists.
    split; [by apply list_elem_of_In|]. unfold sweep_done. rewrite bool_decide_false by done. by left.
Qed.

(** ** The slow path *)

(** What a ping scan came to. *)
Record PingScan := {
  ps_targets : list ip4;
  ps_calls : list (nat * bool);
  ps_stopped : bool;
  ps_room : nat → bool;
  ps_table : option (list neighbor);
  ps_requests : list Z;
  ps_mac_acts : list act;
  ps_acts : list act;
  ps_found : Discovery;
  ps_counted : nat;
  ps_warnings : list warning;
  ps_report : Results.report
}.

(** [begun]: what a scan whose sweep failed was to ping, and what it did. *)
Inductive ping_scan_result := ping_scan_failed (begun : option (list ip4 * list act)) | ping_scanned (s : PingScan).

(** scanNetworkPing's Sweep.pinged, for each call of the observer *)
Definition ping_acts (room : nat → bool) (targets : list ip4) (calls : list (nat * bool)) : list act :=
  flat_map (λ c, match targets !! c.1 with Some ip => ping_pinged (room c.1) ip c.2 | None => [] end) calls.

(** The loop over the table; [room i]: the map can grow. *)
Fixpoint mac_acts (room : nat → bool) (i : nat) (table : list neighbor) : list act :=
  match table with
  | [] => []
  | entry :: table =>
    match ne_mac entry with Some mac => [a_mac (ne_ip entry) mac (room i)] | None => [] end ++ mac_acts room (S i) table
  end.

Section PingScan.
Context {E : Type} `{EchoLaw E, !RlimitLaw E}.
Variables (os : platform) (garbage : list Z).
Variables (parse_message : list Z → reply_error + Message) (send_arp : ip4 → option (list Z)) (table : Table) (oui_db : OuiDatabase).

Inductive scanNetworkPing (cidr : list Z) (options : wants) (parent : option Parent) : ping_scan_result → Prop :=
| ping_unparsed why : parseCidr cidr = inl why → scanNetworkPing cidr options parent (ping_scan_failed None)
| ping_no_memory fuel room why : cidr_ips fuel room cidr = Some (inl why) → scanNetworkPing cidr options parent (ping_scan_failed None)
| ping_no_sweep fuel room targets fuel1 r calls stopped room1 :
    cidr_ips fuel room cidr = Some (inr targets) →
    pingSweep (E := E) os fuel1 garbage targets r calls stopped → (∀ alive, r ≠ pings_alive alive) →
    scanNetworkPing cidr options parent (ping_scan_failed (Some (targets, ping_acts room1 targets calls)))
| ping_done fuel room targets fuel1 alive calls stopped room1 read parent' says t room2 d r counted stopped' :
    cidr_ips fuel room cidr = Some (inr targets) →
    pingSweep (E := E) os fuel1 garbage targets (pings_alive alive) calls stopped →
    table_read (E := E) os parse_message false parent read parent' says t →
    let acts := ping_acts room1 targets calls ++ mac_acts room2 0 (default [] read) in
    perform_all acts nothing_found = Some d →
    reportResults (E := E) os None send_arp table oui_db options d r counted stopped' →
    scanNetworkPing cidr options parent
      (ping_scanned {| ps_targets := targets; ps_calls := calls; ps_stopped := stopped; ps_room := room1; ps_table := read;
                       ps_requests := option_list (asked parent); ps_mac_acts := mac_acts room2 0 (default [] read); ps_acts := acts;
                       ps_found := d; ps_counted := counted; ps_warnings := says; ps_report := r |}).
End PingScan.

Lemma mac_acts_reports room table : ∀ i ip source rm, a_report ip source rm ∉ mac_acts room i table.
Proof.
  induction table as [|entry table IH]; intros i ip source rm; simpl; [by apply not_elem_of_nil|].
  rewrite elem_of_app. intros [Hin|Hin]; [|by apply IH in Hin].
  destruct (ne_mac entry); [by apply list_elem_of_singleton in Hin|by apply not_elem_of_nil in Hin].
Qed.

Lemma ping_acts_reports room targets calls ip source rm :
  a_report ip source rm ∈ ping_acts room targets calls ↔
    source = by_ping ∧ ∃ i, targets !! i = Some ip ∧ (i, true) ∈ calls ∧ rm = room i.
Proof.
  unfold ping_acts. rewrite list_elem_of_In, in_flat_map. setoid_rewrite <- list_elem_of_In. split.
  - intros ([i a] & Hin & Ha). simpl in Ha. destruct (targets !! i) as [ip'|] eqn:Hip; [|by apply not_elem_of_nil in Ha].
    unfold ping_pinged in Ha. apply elem_of_app in Ha as [Ha|Ha%list_elem_of_singleton]; [|done].
    destruct a; [|by apply not_elem_of_nil in Ha]. apply list_elem_of_singleton in Ha as [= -> -> ->]. split; [done|]. by exists i.
  - intros (-> & i & Hip & Hin & ->). exists (i, true). split; [done|]. simpl. rewrite Hip. apply list_elem_of_here.
Qed.

(** C12: A ping scan.  Its targets are the hosts of the network named; the report
    lists, once and in ascending order, exactly those of them whose ping was
    answered (while there was memory); and a scan that was not stopped has
    pinged every one, once. *)
Theorem ping_scan_lists {E} `{EchoLaw E, !RlimitLaw E} os garbage parse_message send_arp table oui_db cidr options parent s :
  scanNetworkPing (E := E) os garbage parse_message send_arp table oui_db cidr options parent (ping_scanned s) →
  StronglySorted (λ a b, ip_value a < ip_value b) (reported_ips (ps_report s)) ∧
  (∃ network, parseCidr cidr = inr network ∧ map ip_value (ps_targets s) = host_range (address network) (prefix_len network)) ∧
  (∀ ip, ip ∈ reported_ips (ps_report s) ↔ ∃ i, ps_targets s !! i = Some ip ∧ (i, true) ∈ ps_calls s ∧ ps_room s i = true) ∧
  NoDup (ps_calls s).*1 ∧ (ps_stopped s = false → (ps_calls s).*1 ≡ₚ seq 0 (length (ps_targets s))).
Proof.
  intros Hscan. inversion Hscan as [| | |fuel room targets fuel1 alive calls stopped room1 read parent' says t room2 d r counted stopped'
    Hc Hping Hread acts Hp Hrep]; subst. simpl in *.
  unfold cidr_ips in Hc. destruct (parseCidr cidr) as [|network] eqn:Hparse; [done|].
  apply bind_Some in Hc as (range & Hrange & Hc). destruct (scan_hosts _ _ _ _ _ _ Hparse Hrange Hc) as (Htok & Htv & _).
  assert (Z.of_nat (length targets) < 18446744073709551616) as Hl.
  { rewrite <- (length_map ip_value), Htv. destruct (cidr_range _ _ Hparse) as (range' & lo & hi & _ & _ & Hlo & Hhi & Hle & ->).
    rewrite length_seqZ. unfold is_u32 in *. lia. }
  apply pingSweep_run in Hping as (Hn & Hr & Hlen & Hal & Hall); [|done].
  destruct (perform_all_ok _ _ [] _ nothing_ok Hp) as [Hnd Hf _ _ _ _]. cbn [app] in Hf.
  assert (∀ ip, ip ∈ dv_found d ↔ ∃ i, targets !! i = Some ip ∧ (i, true) ∈ calls ∧ room1 i = true) as Hfound.
  { intros ip. rewrite Hf, reported_elem. unfold acts. setoid_rewrite elem_of_app. setoid_rewrite ping_acts_reports. split.
    - intros (source & [(_ & i & ? & ? & ?)|Hin]); [by exists i|by apply mac_acts_reports in Hin].
    - intros (i & ? & ? & ?). exists by_ping. left. split; [done|]. by exists i. }
  assert (Forall ip_ok (dv_found d)) as Hok.
  { apply Forall_forall. intros ip (i & Hip & _)%Hfound. rewrite Forall_forall in Htok. by eapply Htok, list_elem_of_lookup_2. }
  destruct (results_run _ _ _ _ _ _ _ _ _ _ Hnd Hok Hrep) as (Hperm & Hsorted & _).
  split; [done|]. split; [by exists network|]. split; [|by split]. intros ip. by rewrite Hperm.
Qed.

(** ** Runs *)

Lemma merged_two {A} (a b : list A) : merged [a; b] (a ++ b).
Proof.
  induction a as [|ev a IH]; [apply merged_idle, merged_one|]. by apply (merged_step [] ev a [b]).
Qed.

(** "10.0.0.7/31" *)
Definition pair_cidr : list Z := [49; 48; 46; 48; 46; 48; 46; 55; 47; 51; 49].

(** An interface of the subnet, then the NAS that answers *)
Definition nas_lan : script :=
  {| sc_now := 0; sc_fd := 3; sc_polls := []; sc_selects := []; sc_sends := []; sc_recvs := [];
     sc_connects := []; sc_mallocs := []; sc_files := []; sc_size := 0;
     sc_ifaddrs := [IfAddr (Some (AF_INET, IP 10 0 0 20)) (Some (IP 255 255 255 0)) true false];
     sc_local := Ok idle_addr; sc_peer := Ok idle_addr; sc_soerror := Ok 0; sc_stops := []; sc_rows := [];
     sc_echo2 := []; sc_pending := []; sc_parsed := []; sc_jobs := []; sc_caps := [] |}.

Definition pair_listener : MulticastListener :=
  {| ml_socket := 4; ml_first := IP 10 0 0 6; ml_last := IP 10 0 0 7; ml_ask_names := false |}.

Lemma nas_listens :
  ∃ acts t, listened (E := script) Linux (IP 10 0 0 6) (IP 10 0 0 7) false (Some pair_listener) acts t ∧
    acts = li_acts nas_listened ∧ Forall sender_ok t.
Proof.
  assert (∃ e' t, start Linux (IP 10 0 0 6) (IP 10 0 0 7) false true nas_lan = Some (Some pair_listener, e', t)) as (e' & t & Hs)
    by (eexists _, _; vm_compute; reflexivity).
  assert (∃ s e2 u, listen Linux 5 pair_listener true [] nas_answers = Some ((s, l_stopped), e2, u) ∧ li_acts s = li_acts nas_listened ∧
    Forall sender_ok u) as (s & e2 & u & Hl & Ha & Hok).
  { eexists _, _, _. split; [vm_compute; reflexivity|]. split; [vm_compute; reflexivity|].
    repeat (apply Forall_cons; split; [unfold sender_ok; simpl; repeat constructor; simpl; unfold is_u8; lia|]). constructor. }
  exists (li_acts s), u. split; [by eapply a_listener|]. by split.
Qed.

(** A request answered by an empty table, the next by one row. *)
Definition fresh_parent : Parent := {| pa_timeout_ms := 2000; pa_next_id := 1; pa_gave_up := false; pa_pending := [] |}.

Lemma tables_read : ∃ parent1 parent2 t1 t2,
  (∀ quiet, table_read (E := script) Linux sample_parse quiet (Some fresh_parent) (Some []) parent1 [] t1) ∧
  table_read (E := script) Linux sample_parse false parent1 (Some sample_table) parent2 [] t2.
Proof.
  do 4 eexists. split.
  - intros quiet. exists 9%nat, 1%nat, (λ _, (true, true)), true, [arrives 5 [49; 10] true], true. eexists. exists []. exists nas_lan. eexists.
    split; [vm_compute; reflexivity|]. split; [repeat constructor; simpl; unfold CHUNK; lia|vm_compute; reflexivity].
  - exists 9%nat, 1%nat, (λ _, (true, true)), true, [arrives 5 [50; 10] true], true. eexists. exists []. exists nas_lan. eexists.
    split; [vm_compute; reflexivity|]. split; [repeat constructor; simpl; unfold CHUNK; lia|vm_compute; reflexivity].
Qed.

Definition plain_wanted : wants := {| resolve_hostname := false; resolve_vendor := false |}.

(** The NAS is found by its reply alone: the sweep could not be set up, and
    the router's row of the table is out of range. *)
Lemma scan_lists_witness :
  ∃ s, scanNetwork (E := script) Linux 24 40 [] sample_parse (λ _, None) (oui_table TWO_VENDORS) no_entries pair_cidr plain_wanted
      (Some fresh_parent) (scanned s) ∧
    reported_ips (sn_report s) = [IP 10 0 0 7] ∧ evidence (E := script) Linux [] s (IP 10 0 0 7).
Proof.
  destruct nas_listens as (acts & t & Hl & -> & Hok). destruct tables_read as (parent1 & parent2 & t1 & t2 & Hr1 & Hr2).
  assert (∃ harvest, harvestArp (E := script) Linux 1 [] (Some []) (IP 10 0 0 6) (IP 10 0 0 7) (Some sample_table) harvest None None ∧
    harvest = [a_mac (IP 10 0 0 1) [16; 230; 107; 38; 126; 83] true]) as (harvest & Hh2 & ->).
  { eexists. split; [|reflexivity]. change (Some sample_table) with (Some (map rd_entry
      [{| rd_entry := {| ne_ip := IP 10 0 0 1; ne_mac := Some [16; 230; 107; 38; 126; 83]; ne_state := reachable |};
          rd_found := false; rd_mac_room := true; rd_room := true |}])).
    eapply (ha_over _ _ _ _ _ _ _ []). vm_compute. reflexivity. }
  assert (∃ d, perform_all (li_acts nas_listened ++ [] ++ [a_mac (IP 10 0 0 1) [16; 230; 107; 38; 126; 83] true] ++ []) nothing_found = Some d ∧
    sort_found (dv_found d) = [IP 10 0 0 7]) as (d & Hp & Hd) by (eexists; split; vm_compute; reflexivity).
  assert (∃ s, scanNetwork (E := script) Linux 24 40 [] sample_parse (λ _, None) (oui_table TWO_VENDORS) no_entries pair_cidr plain_wanted
      (Some fresh_parent) (scanned s) ∧ sn_heard s = t ∧ sn_table s = Some sample_table ∧ sn_report s = plain (sort_found (dv_found d)))
    as (s & Hscan & Ht & Htable & Hrep).
  { eexists. split.
    - eapply (scan_done _ _ _ _ _ _ _ _ _ _ _ (Net (IP 10 0 0 7) 31) (Range (IP 10 0 0 6) (IP 10 0 0 7)) 9 (λ _, true) [IP 10 0 0 6; IP 10 0 0 7]
        (Some pair_listener) (li_acts nas_listened) t); [by vm_compute|by vm_compute|by vm_compute|exact Hl|apply Hr1|apply sweep_skipped|exact Hr2|
        exact Hh2|apply merged_two|exact Hp|by apply rr_plain].
    - done.
    Unshelve. exact []. }
  exists s. split; [exact Hscan|]. split; [by rewrite Hrep|].
  destruct (scan_lists _ _ _ _ _ _ _ _ _ _ _ _ Hscan) as (_ & (network & _ & _ & Hev) & _); [by rewrite Ht| |].
  - rewrite Htable. intros entries [= <-]. apply Forall_singleton. repeat constructor; simpl; unfold is_u8; lia.
  - apply Hev. rewrite Hrep. simpl. rewrite Hd. apply list_elem_of_here.
Defined.

(** "10.0.0.2/30": its two hosts are pinged, and the second answers. *)
Definition quad_cidr : list Z := [49; 48; 46; 48; 46; 48; 46; 50; 47; 51; 48].

Lemma quad_scan :
  ∃ s, scanNetworkPing (E := script) Linux [] sample_parse (λ _, None) (oui_table TWO_VENDORS) no_entries quad_cidr plain_wanted
      (Some fresh_parent) (ping_scanned s) ∧ ps_targets s = two_hosts ∧ ps_calls s = [(1, true); (0, false)]%nat ∧ ps_stopped s = false ∧
    ps_report s = plain [IP 10 0 0 2] ∧ ping_acts (ps_room s) two_hosts [(1, true); (0, false)]%nat = [a_report (IP 10 0 0 2) by_ping true; a_advance; a_advance] ∧
    ps_acts s = [a_report (IP 10 0 0 2) by_ping true; a_advance; a_advance] ∧ ps_mac_acts s = [] ∧ ps_requests s = [1] ∧ ps_warnings s = [] ∧ ps_counted s = 0%nat.
Proof.
  destruct tables_read as (parent1 & _ & t1 & _ & Hr1 & _).
  assert (∃ d, perform_all (ping_acts (λ _, true) two_hosts [(1, true); (0, false)]%nat ++ mac_acts (λ _, true) 0 []) nothing_found = Some d ∧
    sort_found (dv_found d) = [IP 10 0 0 2]) as (d & Hp & Hd)
    by (eexists; split_and!; vm_compute; reflexivity).
  eexists. split.
  - eapply (ping_done _ _ _ _ _ _ _ _ _ 9 (λ _, true) two_hosts); [by vm_compute|exact two_pinged|apply Hr1|exact Hp|by apply rr_plain].
  - simpl. by rewrite Hd.
Qed.

Lemma ping_scan_lists_witness :
  ∃ s, scanNetworkPing (E := script) Linux [] sample_parse (λ _, None) (oui_table TWO_VENDORS) no_entries quad_cidr plain_wanted
      (Some fresh_parent) (ping_scanned s) ∧
    reported_ips (ps_report s) = [IP 10 0 0 2] ∧ (ps_calls s).*1 ≡ₚ seq 0 2.
Proof.
  destruct quad_scan as (s & Hscan & Ht & Hc & Hst & Hrep & _).
  exists s. split; [exact Hscan|]. split; [by rewrite Hrep|].
  destruct (ping_scan_lists _ _ _ _ _ _ _ _ _ _ Hscan) as (_ & _ & _ & _ & Hall). rewrite (Hall Hst), Ht. done.
Defined.
