(* ===== verification/Interrupt.v ===== *)
(** * interrupt.zig: graceful Ctrl+C

    The first press asks the scan to stop, the second ends the process.  The
    state is the process's: the two atomics, what SIGINT does, and the
    handlers under way.  A handler goes step by step, each step one atomic
    operation or system call, and any number of them may be under way at once
    (a POSIX signal may arrive at another thread, Windows starts a thread per
    event), so [step] interleaves them with each other and with the rest of
    the process. *)
From stdpp Require Import relations.
From S2P Require Import Prelude Words Sys.
Open Scope Z_scope.

(** "\r\x1b[J\x1b]9;4;0\x1b\\" *)
Definition erase_status_line : list Z := [13; 27; 91; 74; 27; 93; 57; 59; 52; 59; 48; 27; 92].

(** What SIGINT does. *)
Inductive disposition := SIG_DFL | SIG_IGN | handled.

(** How the process ended: as an unhandled Ctrl+C ends it (killed by SIGINT,
    or by the default console handler), or by an exit of its own. *)
Inductive ending := by_interrupt | by_exit (code : Z).

#[export] Instance disposition_eq_dec : EqDecision disposition.
Proof. solve_decision. Defined.
#[export] Instance interrupt_ending_eq_dec : EqDecision ending.
Proof. solve_decision. Defined.

(** Where a handler is: before the swap of the flag; before its return from
    the first press; before the load and the write of eraseStatusLine, before
    restoring the default and before raise; and, the second press dealt with,
    before its return.  There [again] is whether the raised signal waits for
    it to return (POSIX), or whether it passes the event on (Windows). *)
Inductive handler := at_swap | at_return | at_erase | at_write | at_restore | at_raise | at_end (again : bool).

#[export] Instance handler_eq_dec : EqDecision handler.
Proof. solve_decision. Defined.

Record process := {
  stop_requested : bool;
  erase_on_quit : bool;
  sigint : disposition;
  (** Windows: whether handleConsoleCtrl is registered. *)
  console : bool;
  handlers : list handler;
  (** What was written to the terminal. *)
  written : list Z;
  ended : option ending
}.

(** A process as it starts, with what it inherits for SIGINT. *)
Definition started (inherited : disposition) : process :=
  {| stop_requested := false; erase_on_quit := false; sigint := inherited; console := false;
     handlers := []; written := []; ended := None |}.

Definition set_stop (s : process) : process :=
  {| stop_requested := true; erase_on_quit := erase_on_quit s; sigint := sigint s; console := console s;
     handlers := handlers s; written := written s; ended := ended s |}.
Definition set_sigint (d : disposition) (s : process) : process :=
  {| stop_requested := stop_requested s; erase_on_quit := erase_on_quit s; sigint := d; console := console s;
     handlers := handlers s; written := written s; ended := ended s |}.
Definition set_handlers (hs : list handler) (s : process) : process :=
  {| stop_requested := stop_requested s; erase_on_quit := erase_on_quit s; sigint := sigint s; console := console s;
     handlers := hs; written := written s; ended := ended s |}.
Definition write (bytes : list Z) (s : process) : process :=
  {| stop_requested := stop_requested s; erase_on_quit := erase_on_quit s; sigint := sigint s; console := console s;
     handlers := handlers s; written := written s ++ bytes; ended := ended s |}.
Definition set_ended (e : ending) (s : process) : process :=
  {| stop_requested := stop_requested s; erase_on_quit := erase_on_quit s; sigint := sigint s; console := console s;
     handlers := handlers s; written := written s; ended := Some e |}.

Definition requested (s : process) : bool := stop_requested s.

Definition eraseStatusLineOnQuit (erase : bool) (s : process) : process :=
  {| stop_requested := stop_requested s; erase_on_quit := erase; sigint := sigint s; console := console s;
     handlers := handlers s; written := written s; ended := ended s |}.

(** On Windows the result of SetConsoleCtrlHandler is not looked at:
    [registered] is what it did. *)
Definition install (os : platform) (registered : bool) (s : process) : process :=
  match os with
  | Windows =>
    {| stop_requested := stop_requested s; erase_on_quit := erase_on_quit s; sigint := sigint s; console := registered;
       handlers := handlers s; written := written s; ended := ended s |}
  | _ => if bool_decide (sigint s = SIG_IGN) then s else set_sigint handled s
  end.

Definition restoreDefaultSigint (s : process) : process := set_sigint SIG_DFL s.

(** exitInterrupted: [blocked] says whether SIGINT is, so that the process
    outlives the raise (or raise fails). *)
Definition exitInterrupted (os : platform) (blocked : bool) (s : process) : process :=
  match os with
  | Windows => set_ended by_interrupt s
  | _ =>
    let s := restoreDefaultSigint s in
    if blocked then set_ended (by_exit (128 + 2)) s else set_ended by_interrupt s
  end.

(** eraseStatusLine: its load, and its write. *)
Definition erase_load (s : process) : bool := erase_on_quit s.
Definition erase_write (n : nat) (s : process) : process := write (take n erase_status_line) s.

(** SIGINT is delivered. *)
Definition deliver (s : process) : process :=
  match sigint s with
  | SIG_IGN => s
  | SIG_DFL => set_ended by_interrupt s
  | handled => set_handlers (handlers s ++ [at_swap]) s
  end.

(** One step of handleSigint; [None] is its return.  [n] is how many bytes a
    write takes.  A raised signal stays blocked until the handler returns. *)
Definition handleSigint (n : nat) (h : handler) (s : process) : option handler * process :=
  match h with
  | at_swap => (Some (if negb (stop_requested s) then at_return else at_erase), set_stop s)
  | at_return => (None, s)
  | at_erase => (Some (if erase_load s then at_write else at_restore), s)
  | at_write => (Some at_restore, erase_write n s)
  | at_restore => (Some at_raise, restoreDefaultSigint s)
  | at_raise => (Some (at_end true), s)
  | at_end again => (None, if again then deliver s else s)
  end.

Definition CTRL_C_EVENT : Z := 0.
Definition CTRL_BREAK_EVENT : Z := 1.

(** Whether handleConsoleCtrl looks at an event at all. *)
Definition console_event (ctrl_type : Z) : bool :=
  negb (negb (ctrl_type =? CTRL_C_EVENT) && negb (ctrl_type =? CTRL_BREAK_EVENT)).

(** One step of handleConsoleCtrl after that.  FALSE passes the event on to
    the default handler, which ends the process. *)
Definition handleConsoleCtrl (n : nat) (h : handler) (s : process) : option handler * process :=
  match h with
  | at_swap => (Some (if negb (stop_requested s) then at_return else at_erase), set_stop s)
  | at_return => (None, s)
  | at_erase => (Some (if erase_load s then at_write else at_end true), s)
  | at_write => (Some (at_end true), erase_write n s)
  | at_end again => (None, if again then set_ended by_interrupt s else s)
  | at_restore | at_raise => (None, s)
  end.

Definition handle (os : platform) : nat → handler → process → option handler * process :=
  match os with Windows => handleConsoleCtrl | _ => handleSigint end.

(** Ctrl+C arrives (on Windows, a console event of type [ctrl_type]). *)
Definition press (os : platform) (ctrl_type : Z) (s : process) : process :=
  match os with
  | Windows =>
    if console s && console_event ctrl_type then set_handlers (handlers s ++ [at_swap]) s else set_ended by_interrupt s
  | _ => deliver s
  end.

(** Handler [i] has gone a step: it is now at [h], or gone. *)
Definition moved (i : nat) (h : option handler) (s : process) : process :=
  set_handlers (match h with Some h => <[i := h]> (handlers s) | None => delete i (handlers s) end) s.

(** What can happen to a process: a press, a step of a handler, a raise that
    fails, the display coming and going, output, exitInterrupted. *)
Inductive act :=
| pressed (ctrl_type : Z)
| stepped (i n : nat)
| raise_failed (i : nat)
| drawn (erase : bool)
| wrote (bytes : list Z)
| quit (blocked : bool).

Inductive step (os : platform) : process → act → process → Prop :=
| step_press ctrl_type s : ended s = None → step os s (pressed ctrl_type) (press os ctrl_type s)
| step_handler i n h h' s s' :
    ended s = None → handlers s !! i = Some h → handle os n h s = (h', s') →
    step os s (stepped i n) (moved i h' s')
| step_unraised i s :
    ended s = None → handlers s !! i = Some at_raise →
    step os s (raise_failed i) (moved i (Some (at_end false)) s)
| step_display erase s : ended s = None → step os s (drawn erase) (eraseStatusLineOnQuit erase s)
| step_output bytes s : ended s = None → step os s (wrote bytes) (write bytes s)
| step_exit blocked s : ended s = None → step os s (quit blocked) (exitInterrupted os blocked s).

(** A run of a process, and what happened in it. *)
Inductive runs_to (os : platform) (s : process) : list act → process → Prop :=
| runs_none : runs_to os s [] s
| runs_snoc l s' a s'' : runs_to os s l s' → step os s' a s'' → runs_to os s (l ++ [a]) s''.

(** ** What a run has seen *)

Definition presses (l : list act) : nat := countb (λ a, match a with pressed _ => true | _ => false end) l.
Definition failures (l : list act) : nat := countb (λ a, match a with raise_failed _ => true | _ => false end) l.
Definition output (l : list act) : list Z := flat_map (λ a, match a with wrote bytes => bytes | _ => [] end) l.

(** No exit, and on Windows no event but Ctrl+C and Ctrl+Break: close, logoff
    and shutdown keep their default handling. *)
Definition ordinary (os : platform) (a : act) : Prop :=
  match a with
  | quit _ => False
  | pressed ctrl_type => os = Windows → console_event ctrl_type = true
  | _ => True
  end.

(** How many steps a handler has before it at most. *)
Definition rank (h : handler) : nat :=
  match h with at_swap => 5 | at_erase => 4 | at_write => 3 | at_restore => 2 | at_raise => 1 | at_return | at_end _ => 0 end.

Definition first_press (h : handler) : bool := bool_decide (h = at_return).
Definition gave_up (h : handler) : bool := bool_decide (h = at_end false).

Lemma handler_goes_on os n h s h' s' : handle os n h s = (Some h', s') → (rank h' < rank h)%nat.
Proof.
  intros Hh. destruct os, h; simpl in Hh; unfold erase_load in Hh; repeat case_match; simplify_eq; simpl; try lia;
    try (destruct (negb _); simpl; lia); try (destruct (erase_on_quit _); simpl; lia).
Qed.

(** ** The handlers under way and the presses they answer *)

Record answers (os : platform) (p f : nat) (s : process) : Prop := {
  an_before : stop_requested s = false → Forall (λ h, h = at_swap) (handlers s) ∧ length (handlers s) = p ∧ f = 0%nat;
  an_after : stop_requested s = true →
    (p + countb gave_up (handlers s) + countb first_press (handlers s) = length (handlers s) + 1 + f)%nat ∧
    (countb first_press (handlers s) ≤ 1)%nat ∧ (countb gave_up (handlers s) ≤ f)%nat;
  an_default : os ≠ Windows → ∀ h, h ∈ handlers s → (rank h ≤ 1)%nat → h ≠ at_return → sigint s = SIG_DFL;
  an_console : os = Windows → ∀ h, h ∈ handlers s → h ≠ at_restore ∧ h ≠ at_raise ∧ h ≠ at_end false
}.

Lemma delete_countb {A} (q : A → bool) (l : list A) i x :
  l !! i = Some x → (countb q (delete i l) + (if q x then 1 else 0) = countb q l)%nat.
Proof.
  revert i. induction l as [|y l IH]; intros [|i] Hi; simplify_eq/=; rewrite !countb_cons; [lia|]. specialize (IH _ Hi). lia.
Qed.

Lemma answers_arrival os p f s : answers os p f s → answers os (S p) f (set_handlers (handlers s ++ [at_swap]) s).
Proof.
  intros [Hb Ha Hd Hw]. split; simpl.
  - intros Hs. destruct (Hb Hs) as (H1 & H2 & H3). rewrite Forall_app, length_app. simpl. split; [split; [done|by constructor]|]. split; [lia|done].
  - intros Hs. rewrite !countb_app, length_app. simpl. change (countb gave_up [at_swap]) with 0%nat. change (countb first_press [at_swap]) with 0%nat.
    destruct (Ha Hs) as (H1 & H2 & H3). lia.
  - intros Ho h Hin Hr Hne. apply elem_of_app in Hin as [Hin|Hin%list_elem_of_singleton]; [by eapply Hd|]. subst. simpl in Hr. lia.
  - intros Ho h Hin. apply elem_of_app in Hin as [Hin|Hin%list_elem_of_singleton]; [by eapply Hw|]. by subst.
Qed.

(** A handler's place changes; nothing is counted but what it was and is. *)
Lemma insert_elem (hs : list handler) i h k : k ∈ <[i:=h]> hs → k = h ∨ k ∈ hs.
Proof.
  intros [j Hj]%list_elem_of_lookup. rewrite list_lookup_insert in Hj. case_decide; [left; congruence|right; by eapply list_elem_of_lookup_2].
Qed.

Lemma delete_elem (hs : list handler) i k : k ∈ delete i hs → k ∈ hs.
Proof. intros Hk. eapply elem_of_submseteq; [exact Hk|]. apply sublist_submseteq, sublist_delete. Qed.

Lemma delete_len (hs : list handler) i h : hs !! i = Some h → (length (delete i hs) + 1 = length hs)%nat.
Proof. intros Hi. rewrite length_delete by eauto. apply lookup_lt_Some in Hi. lia. Qed.

Section Answers.
Variables (os : platform) (p f : nat).

(** A handler that goes on, uncounted, in a process asked to stop. *)
Lemma answers_moved i h k s s' :
  handlers s !! i = Some h → handlers s' = handlers s → stop_requested s = true → stop_requested s' = true →
  gave_up k = gave_up h → first_press k = first_press h →
  (os ≠ Windows → (rank k ≤ 1)%nat → k ≠ at_return → sigint s' = SIG_DFL) → (sigint s = SIG_DFL → sigint s' = SIG_DFL) →
  (os = Windows → k ≠ at_restore ∧ k ≠ at_raise ∧ k ≠ at_end false) →
  answers os p f s → answers os p f (moved i (Some k) s').
Proof.
  intros Hi Hhs Hs Hs' Hg Hf Hsig Hkeep Hcon [_ Ha Hd Hw]. destruct (Ha Hs) as (H1 & H2 & H3).
  pose proof (countb_insert gave_up _ _ k _ Hi) as Cg. pose proof (countb_insert first_press _ _ k _ Hi) as Cf. rewrite Hg in Cg. rewrite Hf in Cf.
  split; simpl; rewrite Hhs, ?Hs'; [done| | |].
  - intros _. rewrite length_insert. lia.
  - intros Ho m [->|Hm]%insert_elem Hr Hne; [by apply Hsig|]. by eapply Hkeep, Hd.
  - intros Ho m [->|Hm]%insert_elem; [by apply Hcon|by apply Hw].
Qed.

(** A handler that returns, counted. *)
Lemma answers_returned i h s :
  handlers s !! i = Some h → stop_requested s = true → (h = at_return ∨ h = at_end false) →
  answers os p f s → answers os p f (moved i None s).
Proof.
  intros Hi Hs Hh [_ Ha Hd Hw]. destruct (Ha Hs) as (H1 & H2 & H3).
  pose proof (delete_countb gave_up _ _ _ Hi) as Dg. pose proof (delete_countb first_press _ _ _ Hi) as Df. pose proof (delete_len _ _ _ Hi) as Dl.
  split; simpl; rewrite ?Hs; [done| | |].
  - intros _. destruct Hh as [-> | ->]; simpl in *; lia.
  - intros Ho m Hm%delete_elem. by apply Hd.
  - intros Ho m Hm%delete_elem. by apply Hw.
Qed.

(** The first press: everything before it was still waiting for its swap. *)
Lemma answers_first i s :
  handlers s !! i = Some at_swap → stop_requested s = false → answers os p f s → answers os p f (moved i (Some at_return) (set_stop s)).
Proof.
  intros Hi Hs [Hb _ _ Hw]. destruct (Hb Hs) as (H1 & H2 & ->).
  assert (countb gave_up (handlers s) = 0 ∧ countb first_press (handlers s) = 0)%nat as [Zg Zf].
  { split; apply countb_zero; intros j x Hj; eapply Forall_lookup in H1; try exact Hj; by subst. }
  pose proof (countb_insert gave_up _ _ at_return _ Hi) as Cg. pose proof (countb_insert first_press _ _ at_return _ Hi) as Cf.
  simpl in Cg, Cf. split; simpl; [done| | |].
  - intros _. rewrite length_insert. lia.
  - intros Ho k [->|Hk]%insert_elem Hr Hne; [done|]. eapply Forall_forall in H1; [|exact Hk]. subst. simpl in Hr. lia.
  - intros Ho k [->|Hk]%insert_elem; [done|by apply Hw].
Qed.

End Answers.

Lemma answers_step os p f i n h h' s s' :
  ended s = None → handlers s !! i = Some h → handle os n h s = (h', s') → answers os p f s →
  ended (moved i h' s') = None → answers os p f (moved i h' s').
Proof.
  intros He Hi Hh Hans Hn. pose proof (list_elem_of_lookup_2 _ _ _ Hi) as Hin. pose proof Hans as [Hb _ Hd Hw].
  destruct (stop_requested s) eqn:Hs.
  2:{ destruct (Hb eq_refl) as (H1 & _). eapply Forall_forall in H1; [|exact Hin]. subst h.
      assert (h' = Some at_return ∧ s' = set_stop s) as [-> ->]; [|by apply answers_first].
      destruct os; simpl in Hh; rewrite Hs in Hh; by simplify_eq. }
  destruct os; destruct h as [| | | | | |[]]; simpl in Hh; unfold erase_load in Hh; rewrite ?Hs in Hh;
    try destruct (erase_on_quit s); simplify_eq/=;
    try (exfalso; destruct (Hw eq_refl _ Hin) as (H1 & H2 & H3); congruence);
    try (eapply answers_returned; [exact Hi|exact Hs|tauto|exact Hans]);
    try (eapply answers_moved; [exact Hi|done|exact Hs|done|done|done|simpl; intros; try done; try lia|done|done|exact Hans]).
  all: try (eapply Hd; [done|exact Hin|simpl; lia|done]).
  all: exfalso; unfold deliver in Hn; rewrite (Hd) with (h := at_end true) in Hn; [done|done|done|simpl; lia|done].
Qed.

Lemma answers_unraised os p f i s :
  handlers s !! i = Some at_raise → answers os p f s → answers os p (S f) (moved i (Some (at_end false)) s).
Proof.
  intros Hi [Hb Ha Hd Hw]. pose proof (list_elem_of_lookup_2 _ _ _ Hi) as Hin.
  destruct (stop_requested s) eqn:Hs.
  2:{ destruct (Hb eq_refl) as (H1 & _). by eapply Forall_forall in H1; [|exact Hin]. }
  destruct (Ha eq_refl) as (H1 & H2 & H3).
  pose proof (countb_insert gave_up _ _ (at_end false) _ Hi) as Cg. pose proof (countb_insert first_press _ _ (at_end false) _ Hi) as Cf.
  simpl in Cg, Cf. split; simpl; rewrite ?Hs; [done| | |].
  - intros _. rewrite length_insert. lia.
  - intros Ho m Hm Hr Hne. by apply (Hd Ho at_raise).
  - intros Ho. by destruct (Hw Ho _ Hin) as (_ & ? & _).
Qed.

Lemma answers_start os inherited : answers os 0 0 (install os true (started inherited)).
Proof. unfold install. destruct os; repeat case_match; split; simpl; try done; intros _ h Hh; by apply not_elem_of_nil in Hh. Qed.

Lemma presses_snoc l a : presses (l ++ [a]) = (presses l + match a with pressed _ => 1 | _ => 0 end)%nat.
Proof. unfold presses. rewrite countb_app. by destruct a. Qed.

Lemma failures_snoc l a : failures (l ++ [a]) = (failures l + match a with raise_failed _ => 1 | _ => 0 end)%nat.
Proof. unfold failures. rewrite countb_app. by destruct a. Qed.

Lemma output_snoc l a : output (l ++ [a]) = output l ++ match a with wrote bytes => bytes | _ => [] end.
Proof. unfold output. rewrite flat_map_app. simpl. by rewrite app_nil_r. Qed.

Lemma step_alive os s a s' : step os s a s' → ended s = None.
Proof. by destruct 1. Qed.

(** Every run of a process that is still there keeps the account. *)
Lemma run_answers os inherited l s :
  inherited ≠ SIG_IGN → runs_to os (install os true (started inherited)) l s → ended s = None →
  answers os (presses l) (failures l) s ∧ (os = Windows → console s = true) ∧ (os ≠ Windows → sigint s ≠ SIG_IGN).
Proof.
  intros Hi Hr. induction Hr as [|l s a s' Hr IH Hs]; intros He.
  { split; [apply answers_start|]. unfold install. destruct os; repeat case_match; to_prop; done. }
  destruct (IH (step_alive _ _ _ _ Hs)) as (Ha & Hc & Hg). rewrite presses_snoc, failures_snoc.
  destruct Hs as [c s Hn|i n h h' s s' Hn Hh Heq|i s Hn Hh|erase s Hn|bytes s Hn|blocked s Hn]; rewrite ?Nat.add_0_r, ?Nat.add_1_r.
  - assert (press os c s = set_handlers (handlers s ++ [at_swap]) s) as ->.
    { unfold press, deliver in *. destruct os; try (by destruct (_ && _)); (destruct (sigint s); [done|by destruct Hg|done]). }
    split; [by apply answers_arrival|]. by split.
  - split; [by eapply answers_step; [exact Hn|exact Hh|exact Heq|..]|].
    assert (console s' = console s ∧ (os ≠ Windows → sigint s' = sigint s ∨ sigint s' = SIG_DFL)) as [H1 H2].
    { destruct os, h as [| | | | | |[]]; simpl in Heq; unfold deliver in Heq; repeat case_match; simplify_eq; simpl; auto. }
    split; [simpl; by rewrite H1|]. intros Ho. simpl. by destruct (H2 Ho) as [->| ->]; [apply Hg|].
  - split; [by apply answers_unraised|]. by split.
  - split; [|by split]. destruct Ha. by split.
  - split; [|by split]. destruct Ha. by split.
  - by destruct os, blocked.
Qed.

Lemma counts_disjoint hs : (countb gave_up hs + countb first_press hs ≤ length hs)%nat.
Proof.
  induction hs as [|h hs IH]; [done|]. rewrite !countb_cons. simpl.
  assert ((if gave_up h then 1 else 0) + (if first_press h then 1 else 0) ≤ 1)%nat by (destruct h as [| | | | | |[]]; simpl; lia). lia.
Qed.

Lemma countb_all {A} (q : A → bool) (l : list A) x : x ∈ l → (length l ≤ countb q l)%nat → q x = true.
Proof.
  induction 1 as [x l|x y l _ IH]; simpl; rewrite countb_cons; intros Hle; pose proof (countb_le q l).
  - destruct (q x); [done|lia].
  - apply IH. destruct (q y); lia.
Qed.

(** Up to one press, nothing happens to the process but that it is asked to
    stop. *)
Lemma one_press os inherited l s :
  inherited ≠ SIG_IGN → runs_to os (install os true (started inherited)) l s → Forall (ordinary os) l → (presses l ≤ 1)%nat →
  ended s = None ∧ written s = output l ∧ (os ≠ Windows → sigint s = handled) ∧ Forall (λ h, h = at_swap ∨ h = at_return) (handlers s).
Proof.
  intros Hi Hr. induction Hr as [|l s a s' Hr IH Hs]; intros Ho Hp.
  { unfold install. destruct os; repeat case_match; to_prop; done. }
  apply Forall_app in Ho as [Ho Ha%Forall_inv]. rewrite presses_snoc in Hp.
  destruct IH as (He & Hwr & Hsig & Hhs); [done|lia|].
  assert (ended s' = None ∧ written s' = output (l ++ [a]) ∧ (os ≠ Windows → sigint s' = handled)) as (He' & Hwr' & Hsig').
  { rewrite output_snoc. destruct (run_answers _ _ _ _ Hi Hr He) as (_ & Hc & _).
    destruct Hs as [c s Hn|i n h h' s s' Hn Hh Heq|i s Hn Hh|erase s Hn|bytes s Hn|blocked s Hn]; rewrite ?app_nil_r; try (by simpl; rewrite ?Hwr); try done.
    - unfold press, deliver. destruct os; [rewrite Hsig by done; done..|]. by rewrite Hc, (Ha eq_refl).
    - assert (h = at_swap ∨ h = at_return) as Hsr by by eapply Forall_lookup in Hhs.
      destruct os, Hsr as [->| ->]; simpl in Heq; simplify_eq; simpl; auto. }
  split; [done|]. split; [done|]. split; [done|].
  assert (runs_to os (install os true (started inherited)) (l ++ [a]) s') as Hr' by by econstructor.
  destruct (run_answers _ _ _ _ Hi Hr' He') as ([Hb Haf _ _] & _ & _). rewrite presses_snoc in *.
  destruct (stop_requested s') eqn:Hs'.
  - destruct (Haf eq_refl) as (H1 & H2 & H3). apply Forall_forall. intros h Hin. right.
    pose proof (counts_disjoint (handlers s')). apply (countb_all first_press) in Hin; [|lia]. by apply bool_decide_eq_true in Hin.
  - destruct (Hb eq_refl) as (H1 & _). eapply Forall_impl; [exact H1|]. by left.
Qed.

(** C14: Ctrl+C, however its handlers interleave with each other and with the
    rest of the process.  Until a second press arrives the process goes on
    and nothing is written but its own output: the first press only asks the
    scan to stop, and has done so when its handler is over.  A process that
    is still there with every handler over has had at most one press more
    than raises failed, so a second press ends it; each handler takes at most
    six steps; and Ctrl+C ends a process only as an unhandled one would, and
    only after two presses. *)
Theorem ctrl_c os inherited l s :
  inherited ≠ SIG_IGN → runs_to os (install os true (started inherited)) l s → Forall (ordinary os) l →
  ((presses l ≤ 1)%nat → ended s = None ∧ written s = output l ∧
    (requested s = true → presses l = 1%nat) ∧ (presses l = 1%nat → handlers s = [] → requested s = true)) ∧
  (ended s = None → handlers s = [] → (presses l ≤ 1 + failures l)%nat) ∧
  (∀ e, ended s = Some e → e = by_interrupt ∧ (2 ≤ presses l)%nat) ∧
  (∀ n h h' s1 s2, handle os n h s1 = (Some h', s2) → (rank h' < rank h ≤ 5)%nat).
Proof.
  intros Hi Hr Ho. split_and!.
  - intros Hp. destruct (one_press _ _ _ _ Hi Hr Ho Hp) as (He & Hw & _ & Hhs). split; [done|]. split; [done|].
    destruct (run_answers _ _ _ _ Hi Hr He) as ([Hb Ha _ _] & _ & _). unfold requested. split.
    + intros Hs. destruct (Ha Hs) as (H1 & H2 & H3). pose proof (counts_disjoint (handlers s)). lia.
    + intros Hp1 Hnil. destruct (stop_requested s); [done|]. destruct (Hb eq_refl) as (_ & Hl & _). rewrite Hnil in Hl. simpl in Hl. lia.
  - intros He Hnil. destruct (run_answers _ _ _ _ Hi Hr He) as ([Hb Ha _ _] & _ & _). rewrite Hnil in *. simpl in *.
    destruct (stop_requested s); [destruct (Ha eq_refl) as (H1 & _)|destruct (Hb eq_refl) as (_ & H1 & _)]; unfold countb in *; simpl in *; lia.
  - intros e He. split.
    + inversion Hr as [|l0 s0 a s1 _ Hs]; subst; [unfold install in He; destruct os; repeat case_match; done|].
      apply Forall_app in Ho as [_ Ha%Forall_inv].
      destruct Hs as [c s Hn|i n h h' s s' Hn Hh Heq|i s Hn Hh|erase s Hn|bytes s Hn|blocked s Hn]; try done; simpl in He; try congruence.
      * unfold press, deliver in He. destruct os; repeat case_match; simpl in He; congruence.
      * destruct os, h as [| | | | | |[]]; simpl in Heq; unfold deliver in Heq; repeat case_match; simplify_eq; simpl in *; congruence.
    + destruct (decide (2 ≤ presses l)%nat) as [|Hp]; [done|]. destruct (one_press _ _ _ _ Hi Hr Ho) as (Hn & _); [lia|congruence].
  - intros n h h' s1 s2 Hh. split; [by eapply handler_goes_on|]. destruct h; simpl; lia.
Qed.

(** An ignored SIGINT stays ignored. *)
Lemma ignored_stays os l s :
  os ≠ Windows → runs_to os (install os true (started SIG_IGN)) l s → Forall (ordinary os) l →
  ended s = None ∧ requested s = false ∧ handlers s = [] ∧ sigint s = SIG_IGN ∧ written s = output l.
Proof.
  intros Hos Hr. induction Hr as [|l s a s' Hr IH Hs]; intros Ho; [by destruct os|].
  apply Forall_app in Ho as [Ho Ha%Forall_inv]. destruct (IH Ho) as (H1 & H2 & H3 & H4 & H5). rewrite output_snoc.
  destruct Hs as [c s Hn|i n h h' s s' Hn Hh Heq|i s Hn Hh|erase s Hn|bytes s Hn|blocked s Hn]; rewrite ?app_nil_r; simpl; try (by rewrite H3 in Hh); try done.
  - unfold press, deliver. destruct os; by rewrite ?H4.
  - by rewrite H5.
Qed.

(** ** The status line *)

(** Once the display has said that the line is down, and no handler is
    between its load and its write, Ctrl+C writes nothing any more. *)
Lemma nothing_erased os s l s' :
  runs_to os s l s' → erase_on_quit s = false → at_write ∉ handlers s → drawn true ∉ l →
  written s' = written s ++ output l.
Proof.
  intros Hr He Hw Hd. cut (erase_on_quit s' = false ∧ at_write ∉ handlers s' ∧ written s' = written s ++ output l); [by intros (_ & _ & ?)|].
  induction Hr as [|l s' a s'' Hr IH Hs]; [split; [done|]; split; [done|]; unfold output; simpl; by rewrite app_nil_r|].
  apply not_elem_of_app in Hd as [Hd Ha]. destruct (IH Hd) as (H1 & H2 & H3). rewrite output_snoc.
  destruct Hs as [c s' Hn|i n h h' s' s'' Hn Hh Heq|i s' Hn Hh|erase s' Hn|bytes s' Hn|blocked s' Hn]; rewrite ?app_nil_r.
  - assert (at_write ∉ handlers s' ++ [at_swap]) by (by intros [?|?%list_elem_of_singleton]%elem_of_app).
    unfold press, deliver. destruct os; repeat case_match; simpl; auto.
  - pose proof (list_elem_of_lookup_2 _ _ _ Hh) as Hin.
    assert (erase_on_quit s'' = false ∧ written s'' = written s' ∧ at_write ∉ handlers s'' ∧ h' ≠ Some at_write) as (E1 & E2 & E3 & E4).
    { assert (at_write ∉ handlers s' ++ [at_swap]) by (by intros [?|?%list_elem_of_singleton]%elem_of_app).
      destruct os, h as [| | | | | |[]]; simpl in Heq; unfold deliver, erase_load in Heq; rewrite ?H1 in Heq;
        repeat case_match; simplify_eq; simpl; split_and!; try done; by destruct (stop_requested s'). }
    split; [done|]. split; [|simpl; by rewrite E2].
    simpl. destruct h' as [k|]; [intros [Hk|?]%insert_elem; congruence|by intros ?%delete_elem].
  - split; [done|]. split; [|done]. simpl. by intros [?|?]%insert_elem.
  - split; [|done]. simpl. destruct erase; [|done]. exfalso. apply Ha. apply list_elem_of_here.
  - split; [done|]. split; [done|]. simpl. by rewrite H3, app_assoc.
  - destruct os, blocked; by simpl.
Qed.

(** One thread's acts with what happens beside them, in some order. *)
Inductive beside : list act → list act → list act → Prop :=
  | beside_none : beside [] [] []
  | beside_own a own others l : beside own others l → beside (a :: own) others (a :: l)
  | beside_other a own others l : beside own others l → beside own (a :: others) (a :: l).

(** What Ctrl+C is made of: presses, the handlers' steps, failed raises. *)
Definition of_ctrl_c (a : act) : Prop :=
  match a with pressed _ | stepped _ _ | raise_failed _ => True | _ => False end.

Lemma beside_output own others l :
  beside own others l → Forall of_ctrl_c others → output l = output own.
Proof.
  unfold output. induction 1 as [|a own others l _ IH|a own others l _ IH]; intros Ho; [done| |].
  - simpl. f_equal. by apply IH.
  - apply Forall_cons in Ho as [Ha Ho]. simpl. rewrite IH by done. by destruct a.
Qed.

Lemma beside_elem own others l a : beside own others l → a ∈ l ↔ a ∈ own ∨ a ∈ others.
Proof. induction 1; rewrite ?elem_of_cons; rewrite ?IHbeside; rewrite ?elem_of_nil; tauto. Qed.

Lemma beside_not_drawn own others l b :
  beside own others l → Forall of_ctrl_c others → drawn b ∉ own → drawn b ∉ l.
Proof.
  intros Hb Ho Hown Hl. apply (beside_elem _ _ _ _ Hb) in Hl as [?|Hl]; [done|].
  by eapply Forall_forall in Ho; [|exact Hl].
Qed.

Lemma runs_cons os s a s1 l s2 : step os s a s1 → runs_to os s1 l s2 → runs_to os s (a :: l) s2.
Proof.
  intros Hs Hr. induction Hr as [|l s' b s'' _ IH Hb]; [apply (runs_snoc os s [] s a); [constructor|done]|].
  rewrite app_comm_cons. by eapply runs_snoc.
Qed.

(** One action of a run at concrete states. *)
Ltac act_step :=
  eapply runs_cons;
  [first [apply step_press; reflexivity | apply step_display; reflexivity | apply step_output; reflexivity
         | eapply step_handler; reflexivity]|].

(** Two presses: the first asks the scan to stop, the second ends it. *)
Definition two_presses : list act :=
  [drawn true; pressed 0; stepped 0 0; stepped 0 0; pressed 0; stepped 0 0; stepped 0 0; stepped 0 13; stepped 0 0; stepped 0 0; stepped 0 0].

Lemma two_presses_run : ∃ s, runs_to Linux (install Linux true (started SIG_DFL)) two_presses s ∧
  ended s = Some by_interrupt ∧ written s = erase_status_line.
Proof. eexists. unfold two_presses. split; [do 11 act_step; apply runs_none|]. done. Qed.

Lemma ctrl_c_witness :
  ∃ s, runs_to Linux (install Linux true (started SIG_DFL)) two_presses s ∧ ended s = Some by_interrupt ∧
    (by_interrupt = by_interrupt ∧ (2 ≤ presses two_presses)%nat).
Proof.
  destruct two_presses_run as (s & Hr & He & _). exists s. split; [exact Hr|]. split; [exact He|].
  eapply (ctrl_c Linux SIG_DFL two_presses s); [done|exact Hr| |exact He].
  unfold two_presses. repeat constructor; simpl; done.
Defined.

(** The order matters: a handler that has loaded the flag before the display
    goes down writes its erase sequence after it, into what is printed then. *)
Lemma late_erase :
  ∃ s, runs_to Linux (install Linux true (started SIG_DFL))
    [drawn true; pressed 0; stepped 0 0; stepped 0 0; pressed 0; stepped 0 0; stepped 0 0; drawn false; wrote [49]; stepped 0 13] s ∧
    written s = [49] ++ erase_status_line.
Proof. eexists. split; [do 10 act_step; apply runs_none|]. done. Qed.
