(* ===== verification/Live.v ===== *)
(** * live.zig: the interactive status line

    What the line says ([writeStatus]), cut to the terminal's width between
    characters ([truncateUtf8], [render]), whether a terminal can show it
    ([localeIsUtf8], [isDumbTerminal], [drawable]), and its life: [begin],
    the ticker, [end_], and the flag by which a second Ctrl+C erases it
    (Interrupt.v).  Drawing itself is std.Progress's: what it, the terminal
    and the threads answer are arguments. *)
From Stdlib Require Import String.
From stdpp Require Import relations.
From S2P Require Import Prelude Words Decimal Ranges Text Sys Packets Progress Interrupt.
Open Scope Z_scope.

(** ** Which characters *)

Record Glyphs := { spinner : list (list Z); ellipsis : list Z; separator : list Z }.

(** The braille patterns U+280B to U+280F, U+2026 and U+00B7 in UTF-8. *)
Definition unicode : Glyphs :=
  {| spinner := map (λ b, [226; 160; b]) [139; 153; 185; 184; 188; 180; 166; 167; 135; 143];
     ellipsis := [226; 128; 166];
     separator := [194; 183] |}.

Definition ascii : Glyphs :=
  {| spinner := [text "|"; text "/"; text "-"; text "\"]; ellipsis := text "..."; separator := text "-" |}.

(** std.mem.findScalarPos *)
Definition findScalarPos (s : list Z) (start : nat) (c : Z) : option nat :=
  (λ p, start + p.1)%nat <$> list_find (λ x, x = c) (drop start s).

(** The first of them that is set and not empty. *)
Fixpoint first_set (vars : list (option (list Z))) : option (list Z) :=
  match vars with
  | [] => None
  | v :: vars =>
    match v with
    | Some s => if (0 <? length s)%nat then Some s else first_set vars
    | None => first_set vars
    end
  end.

Definition localeIsUtf8 (lc_all lc_ctype lang : option (list Z)) : bool :=
  match first_set [lc_all; lc_ctype; lang] with
  | None => false
  | Some locale =>
    match findScalarPos locale 0 DOT with
    | None => false
    | Some dot =>
      let codeset_end := default (length locale) (findScalarPos locale dot 64) in
      let codeset := take (codeset_end - (dot + 1)) (drop (dot + 1) locale) in
      eqlIgnoreCase codeset (text "UTF-8") || eqlIgnoreCase codeset (text "utf8")
    end
  end.

(** The environment variables the terminal is described by. *)
Record environ := { LC_ALL : option (list Z); LC_CTYPE : option (list Z); LANG : option (list Z); TERM : option (list Z) }.

(** [code_page] is the console's output code page, when it can be asked. *)
Definition glyphs (os : platform) (code_page : option Z) (env : environ) : Glyphs :=
  match os with
  | Windows => match code_page with Some 65001 => unicode | _ => ascii end
  | _ => if localeIsUtf8 (LC_ALL env) (LC_CTYPE env) (LANG env) then unicode else ascii
  end.

Definition isDumbTerminal (term : option (list Z)) : bool :=
  match term with None => false | Some name => bool_decide (name = text "dumb") end.

(** ** The terminal's size *)

Record TerminalSize := { rows : Z; cols : Z }.

(** What the query answers: nothing when it fails; on Windows the console's
    window, which may be negative. *)
Definition terminalSize (os : platform) (answer : option (Z * Z)) : option TerminalSize :=
  '(row, col) ← answer;
  Some (match os with
        | Windows => {| rows := Z.max row 0; cols := Z.max col 0 |}
        | _ => {| rows := row; cols := col |}
        end).

Definition terminalColumns (size : option TerminalSize) : option Z :=
  size ← size; if cols size =? 0 then None else Some (cols size).

Definition drawable (size : option TerminalSize) : bool :=
  match size with None => true | Some known => (rows known >? 0) && (cols known >? 0) end.

Definition canDraw (os : platform) (answer : option (Z * Z)) : bool := drawable (terminalSize os answer).

(** ** What the line says *)

Definition continuation (b : Z) : bool := Z.land b 192 =? 128.

(** The while loop; [None] is a read outside the line. *)
Fixpoint back_up (line : list Z) (end_ : nat) : option nat :=
  match end_ with
  | O => Some O
  | S end' => b ← line !! end_; if continuation b then back_up line end' else Some end_
  end.

Definition truncateUtf8 (line : list Z) (max_bytes : nat) : option (list Z) :=
  if (length line <=? max_bytes)%nat then Some line
  else end_ ← back_up line max_bytes; Some (take end_ line).

Record Noun := { one : list Z; many : list Z }.

Record Status := { st_label : list Z; st_noun : Noun; st_progress : Snapshot; st_stopping : bool }.

(** Everything the prints of writeStatus add up to; [None] is a read outside
    the spinner or an overflow. *)
Definition status_line (g : Glyphs) (frame : Z) (s : Status) : option (list Z) :=
  spin ← spinner g !! Z.to_nat (frame mod Z.of_nat (length (spinner g)));
  if st_stopping s then
    Some (spin ++ text " Stopping" ++ ellipsis g ++ text " finishing probes in flight (Ctrl+C again to quit now)")
  else
    let p := st_progress s in
    match default phase_sweep (sn_phase p) with
    | phase_identify =>
      Some (spin ++ text " Identifying devices" ++ ellipsis g ++ text " " ++ fmt_usize (sn_done p) ++ text " of " ++ fmt_usize (sn_total p))
    | phase =>
      let label := if bool_decide (phase = phase_arp) then text "Checking ARP table" else st_label s in
      percent ← percent p;
      Some (spin ++ text " " ++ label ++ ellipsis g
        ++ match percent with Some percent => text " " ++ fmt_usize percent ++ text "% " ++ separator g | None => [] end
        ++ text " " ++ fmt_usize (sn_found p) ++ text " " ++ (if sn_found p =? 1 then one (st_noun s) else many (st_noun s)))
    end.

(** A fixed buffer of [room] bytes keeps what fits. *)
Definition writeStatus (room : nat) (g : Glyphs) (frame : Z) (s : Status) : option (list Z) :=
  take room <$> status_line g frame s.

(** std.Progress.Node.max_name_len *)
Definition max_name_len : nat := 120.

(** What a frame sets the line to. *)
Definition render (g : Glyphs) (label : list Z) (noun : Noun) (p : Snapshot) (stopping : bool) (size : option TerminalSize) (frame : Z) : option (list Z) :=
  buffered ← writeStatus max_name_len g frame {| st_label := label; st_noun := noun; st_progress := p; st_stopping := stopping |};
  let width := match terminalColumns size with Some cols => Z.to_nat cols | None => max_name_len end in
  truncateUtf8 buffered width.

(** ** Its life *)

Record Live := {
  (** root.index is not .none *)
  lv_root : bool;
  lv_ticker : bool;
  lv_stop : bool;
  lv_escape_codes : bool
}.

Definition live_init : Live := {| lv_root := false; lv_ticker := false; lv_stop := false; lv_escape_codes := false |}.

(** What the system says when the line begins: whether std.Progress has
    somewhere to draw, whether the ticker's thread starts, and whether the
    terminal takes escape codes. *)
Record terminal := { tm_draws : bool; tm_thread : bool; tm_ansi : bool }.

Definition begin (tm : terminal) (self : Live) (p : process) : Live * process :=
  if negb (tm_draws tm) then ({| lv_root := false; lv_ticker := lv_ticker self; lv_stop := lv_stop self; lv_escape_codes := lv_escape_codes self |}, p)
  else if negb (tm_thread tm) then ({| lv_root := false; lv_ticker := lv_ticker self; lv_stop := lv_stop self; lv_escape_codes := lv_escape_codes self |}, p)
  else ({| lv_root := true; lv_ticker := true; lv_stop := lv_stop self; lv_escape_codes := tm_ansi tm |}, eraseStatusLineOnQuit (tm_ansi tm) p).

(** "\r\x1b[K" *)
Definition CLEAR_LINE : list Z := [13; 27; 91; 75].

(** The acts of end on the process (see Interrupt.v), in their order: the flag
    is turned off; the ticker is joined and std.Progress ends, which write
    [progress]; the line is cleared.  Presses and handlers may fall between
    any two of them. *)
Definition end_acts (progress : list (list Z)) (self : Live) : list Interrupt.act :=
  if lv_ticker self
  then drawn false :: map wrote progress ++ (if lv_escape_codes self then [wrote CLEAR_LINE] else [])
  else [].

Definition end_ (self : Live) : Live :=
  if lv_ticker self then {| lv_root := false; lv_ticker := false; lv_stop := true; lv_escape_codes := lv_escape_codes self |} else self.

(** What a wait of the ticker answers. *)
Inductive waited := stop_set | timed_out | canceled.

(** The frames the ticker draws, and whether it has returned. *)
Fixpoint tick (waits : list waited) (frame : Z) : list Z * bool :=
  match waits with
  | [] => ([frame], false)
  | timed_out :: waits => let '(frames, over) := tick waits (u64 (frame + 1)) in (frame :: frames, over)
  | _ => ([frame], true)
  end.

(** ** Whole characters *)

(** The shape of a character in UTF-8. *)
Definition utf8_char (c : list Z) : Prop :=
  match c with
  | [] => False
  | lead :: rest =>
    is_u8 lead ∧ Forall (λ b, is_u8 b ∧ continuation b = true) rest ∧
    ((lead < 128 ∧ rest = []) ∨ (192 <= lead < 224 ∧ length rest = 1%nat) ∨
     (224 <= lead < 240 ∧ length rest = 2%nat) ∨ (240 <= lead < 248 ∧ length rest = 3%nat))
  end.

(** Text made of whole characters. *)
Definition utf8 (s : list Z) : Prop := ∃ chars, Forall utf8_char chars ∧ s = concat chars.

Lemma lead_starts lead : is_u8 lead → lead < 128 ∨ 192 <= lead → continuation lead = false.
Proof.
  intros Hl H. pose proof (all_bytes (λ b, negb (continuation b) || ((128 <=? b) && (b <? 192))) ltac:(by vm_compute) lead Hl) as Hp.
  cbv beta in Hp. destruct (continuation lead); [|done]. cbn [negb orb] in Hp. to_prop. lia.
Qed.

Lemma char_lead c : utf8_char c → ∃ lead rest, c = lead :: rest ∧ continuation lead = false ∧ Forall (λ b, continuation b = true) rest.
Proof.
  destruct c as [|lead rest]; [done|]. intros (Hl & Hr & Hc). exists lead, rest. split; [done|].
  split; [apply lead_starts; [done|lia]|]. eapply Forall_impl; [exact Hr|]. by intros ? [_ ?].
Qed.

(** Within a character, back to its start. *)
Lemma back_up_inside lead rest s : ∀ e, Forall (λ b, continuation b = true) rest → (e ≤ length rest)%nat →
  back_up ((lead :: rest) ++ s) e = Some 0%nat.
Proof.
  induction e as [|e IH]; intros Hr He; [done|]. cbn [back_up]. rewrite lookup_app_l by (simpl; lia). cbn [lookup list_lookup].
  destruct (rest !! e) as [b|] eqn:Hb; [|apply lookup_ge_None in Hb; lia].
  cbn [mbind option_bind].
  rewrite Forall_lookup in Hr. rewrite (Hr e b Hb). apply IH; [by rewrite Forall_lookup|lia].
Qed.

(** Past a character, as in what follows it. *)
Lemma back_up_past c b s : ∀ e, continuation b = false → (e < length (b :: s))%nat →
  back_up (c ++ b :: s) (length c + e) = (λ k, length c + k)%nat <$> back_up (b :: s) e.
Proof.
  induction e as [|e IH]; intros Hb He.
  - cbn [back_up]. rewrite Nat.add_0_r. destruct (length c) as [|n] eqn:Hc; [by destruct c|].
    cbn [back_up]. rewrite <- Hc, list_lookup_middle by done. cbn [mbind option_bind]. rewrite Hb. cbn. by rewrite Nat.add_0_r.
  - rewrite Nat.add_succ_r. cbn [back_up]. rewrite <- Nat.add_succ_r, lookup_app_r by lia.
    replace (length c + S e - length c)%nat with (S e) by lia.
    destruct ((b :: s) !! S e) as [d|] eqn:Hd; [|done]. cbn [mbind option_bind].
    destruct (continuation d); [apply IH; [done|lia]|done].
Qed.

(** The last start of a character within a limit. *)
Lemma back_up_chars chars : ∀ e, Forall utf8_char chars → (e < length (concat chars))%nat →
  ∃ k, back_up (concat chars) e = Some (length (concat (take k chars))) ∧ (length (concat (take k chars)) ≤ e)%nat ∧
    ∀ j, (length (concat (take j chars)) ≤ e)%nat → (length (concat (take j chars)) ≤ length (concat (take k chars)))%nat.
Proof.
  induction chars as [|c chars IH]; intros e Hc He; [simpl in He; lia|].
  apply Forall_cons in Hc as [Hchar Hc]. destruct (char_lead c Hchar) as (lead & rest & -> & Hlead & Hrest).
  cbn [concat] in *. destruct (decide (e < length (lead :: rest))%nat) as [Hin|Hout].
  - exists 0%nat. split; [apply (back_up_inside lead rest); [done|simpl in Hin; lia]|]. split; [simpl; lia|].
    intros [|j]; [done|]. simpl in *. rewrite length_app. lia.
  - destruct chars as [|d chars]; [simpl in He; rewrite app_nil_r in He; simpl in *; lia|].
    destruct (IH (e - length (lead :: rest))%nat Hc) as (k & Hk & Hle & Hmax); [rewrite length_app in He; simpl length in *; lia|].
    exists (S k). pose proof Hc as [Hd _]%Forall_cons. destruct (char_lead d Hd) as (dl & dr & Hd' & Hdl & _).
    assert (concat (d :: chars) = dl :: (dr ++ concat chars)) as Hs by by rewrite Hd'.
    assert (back_up ((lead :: rest) ++ concat (d :: chars)) e =
      (λ k, length (lead :: rest) + k)%nat <$> back_up (concat (d :: chars)) (e - length (lead :: rest))) as ->.
    { rewrite length_app in He. rewrite Hs in He |- *. rewrite <- back_up_past; [f_equal; lia|done|lia]. }
    rewrite Hk. cbn [fmap option_fmap option_map take concat] in *. rewrite length_app. split; [done|]. split; [lia|].
    intros [|j] Hj; [simpl; lia|]. cbn [take concat] in *. rewrite !length_app in *. specialize (Hmax j). cbn [take concat] in *. lia.
Qed.

Lemma concat_take_prefix {A} (ls : list (list A)) k : concat ls = concat (take k ls) ++ concat (drop k ls).
Proof. by rewrite <- concat_app, take_drop. Qed.

Lemma truncateUtf8_run chars max_bytes :
  Forall utf8_char chars →
  ∃ k, truncateUtf8 (concat chars) max_bytes = Some (concat (take k chars)) ∧ (length (concat (take k chars)) ≤ max_bytes)%nat ∧
    ∀ j, (length (concat (take j chars)) ≤ max_bytes)%nat → (length (concat (take j chars)) ≤ length (concat (take k chars)))%nat.
Proof.
  intros Hc. unfold truncateUtf8. destruct (_ <=? _)%nat eqn:Hl; to_prop.
  - exists (length chars). rewrite take_ge by done. split; [done|]. split; [done|]. intros j _.
    rewrite (concat_take_prefix chars j). rewrite length_app. lia.
  - destruct (back_up_chars chars max_bytes Hc Hl) as (k & Hk & Hle & Hmax). exists k. rewrite Hk. cbn [mbind option_bind].
    split; [|done]. f_equal. rewrite (concat_take_prefix chars k). by rewrite take_app_length.
Qed.

Lemma utf8_nil : utf8 [].
Proof. by exists []. Qed.

Lemma utf8_app s t : utf8 s → utf8 t → utf8 (s ++ t).
Proof. intros (c & Hc & ->) (d & Hd & ->). exists (c ++ d). split; [by apply Forall_app|]. by rewrite concat_app. Qed.

Lemma utf8_ascii s : Forall (λ c, 0 <= c < 128) s → utf8 s.
Proof.
  intros Hs. exists (map (λ c, [c]) s). split.
  - apply Forall_fmap. eapply Forall_impl; [exact Hs|]. intros c Hc. simpl in *. split; [unfold is_u8; lia|]. split; [done|]. left. by split; [lia|].
  - clear Hs. induction s as [|c s IH]; simpl; [done|]. by rewrite <- IH.
Qed.

Lemma utf8_usize v : is_u64 v → utf8 (fmt_usize v).
Proof.
  intros Hv. apply utf8_ascii. destruct (fmt_usize_canonical v Hv) as [Hd _]. eapply Forall_impl; [exact Hd|]. unfold is_digit. lia.
Qed.

(** One of a finite list of texts. *)
Definition utf8_test (s : list Z) : bool := forallb (λ c, (0 <=? c) && (c <? 128)) s.

Lemma utf8_literal s : utf8_test s = true → utf8 s.
Proof. intros Hs. apply utf8_ascii. unfold utf8_test in Hs. rewrite forallb_forall in Hs. apply Forall_forall. intros c Hc%list_elem_of_In%Hs. to_prop. lia. Qed.

Lemma utf8_one c : utf8_char c → utf8 c.
Proof. intros Hc. exists [c]. split; [by repeat constructor|]. simpl. by rewrite app_nil_r. Qed.

(** The glyphs: each is one character, or ASCII. *)
Record glyphs_ok (g : Glyphs) : Prop := {
  go_spinner : spinner g ≠ [] ∧ Forall (λ s, utf8 s ∧ (length s ≤ 3)%nat) (spinner g);
  go_ellipsis : utf8 (ellipsis g) ∧ (length (ellipsis g) ≤ 3)%nat;
  go_separator : utf8 (separator g) ∧ (length (separator g) ≤ 2)%nat
}.

Ltac one_char :=
  apply utf8_one; simpl; split; [unfold is_u8; lia|]; split;
  [repeat constructor; unfold is_u8; lia|lia].

Lemma unicode_ok : glyphs_ok unicode.
Proof.
  split; simpl.
  - split; [done|]. repeat (apply Forall_cons; split; [split; [one_char|simpl; lia]|]). constructor.
  - split; [one_char|lia].
  - split; [one_char|lia].
Qed.

Lemma ascii_ok : glyphs_ok ascii.
Proof.
  split; simpl.
  - split; [done|]. repeat (apply Forall_cons; split; [split; [by apply utf8_literal|vm_compute; lia]|]). constructor.
  - split; [by apply utf8_literal|vm_compute; lia].
  - split; [by apply utf8_literal|vm_compute; lia].
Qed.

Lemma glyphs_either os code_page env : glyphs_ok (glyphs os code_page env).
Proof. unfold glyphs. pose proof unicode_ok. pose proof ascii_ok. repeat case_match; done. Qed.

Create HintDb utf8.
#[local] Hint Resolve utf8_nil utf8_app utf8_usize : utf8.
#[local] Hint Extern 5 (utf8 (text _)) => apply utf8_literal; vm_compute; reflexivity : utf8.

(** What the texts and numbers of a line keep to. *)
Record status_ok (s : Status) : Prop := {
  so_label : utf8 (st_label s) ∧ (length (st_label s) ≤ 64)%nat;
  so_one : utf8 (one (st_noun s)) ∧ (length (one (st_noun s)) ≤ 11)%nat;
  so_many : utf8 (many (st_noun s)) ∧ (length (many (st_noun s)) ≤ 11)%nat;
  so_done : 0 <= sn_done (st_progress s) <= sn_total (st_progress s);
  so_total : sn_total (st_progress s) * 100 < 18446744073709551616;
  so_found : is_u64 (sn_found (st_progress s))
}.

Lemma percent_ok p : 0 <= sn_done p <= sn_total p → sn_total p * 100 < 18446744073709551616 →
  percent p = Some None ∨ ∃ v, percent p = Some (Some v) ∧ 0 <= v <= 100.
Proof.
  intros Hd Ht. unfold percent, zu64. destruct (sn_total p =? 0) eqn:Hz; to_prop; [by left|]. right.
  rewrite fits_some by lia. eexists. split; [done|]. split; [apply Z.div_pos; lia|]. apply Z.div_le_upper_bound; lia.
Qed.

Lemma fmt_percent_length v : 0 <= v <= 100 → (length (fmt_usize v) ≤ 3)%nat.
Proof. intros Hv. apply u_digits_length; [lia|]. simpl. lia. Qed.

(** The composed line is whole characters and fits the buffer. *)
Lemma status_line_fits g frame s :
  glyphs_ok g → status_ok s → 0 <= frame →
  ∃ line, status_line g frame s = Some line ∧ utf8 line ∧ (length line ≤ max_name_len)%nat.
Proof.
  intros [[Hne Hspin] [He He3] [Hs Hs2]] [[Hl Hl64] [H1 H1n] [Hm Hmn] Hd Ht Hf] Hframe.
  assert (∃ spin, spinner g !! Z.to_nat (frame mod Z.of_nat (length (spinner g))) = Some spin ∧ utf8 spin ∧ (length spin ≤ 3)%nat)
    as (spin & Hspin' & Hu & Hu3).
  { destruct (spinner g !! Z.to_nat _) as [spin|] eqn:Hlook.
    - exists spin. split; [done|]. by eapply Forall_lookup in Hspin.
    - apply lookup_ge_None in Hlook. destruct (spinner g); [done|]. pose proof (Z.mod_pos_bound frame (Z.of_nat (length (l :: l0)))). simpl in *. lia. }
  unfold status_line. rewrite Hspin'. cbn [mbind option_bind].
  assert (utf8 (if sn_found (st_progress s) =? 1 then one (st_noun s) else many (st_noun s)) ∧
    (length (if (sn_found (st_progress s) =? 1)%Z then one (st_noun s) else many (st_noun s)) ≤ 11)%nat) as [Hn Hn11] by by destruct (_ =? 1).
  set (noun := if sn_found _ =? 1 then _ else _) in *. clearbody noun.
  assert (∀ label, utf8 label → (length label ≤ 64)%nat → ∃ line,
    (percent ← percent (st_progress s);
      Some (spin ++ text " " ++ label ++ ellipsis g
        ++ match percent with Some percent => text " " ++ fmt_usize percent ++ text "% " ++ separator g | None => [] end
        ++ text " " ++ fmt_usize (sn_found (st_progress s)) ++ text " " ++ noun)) = Some line ∧ utf8 line ∧ (length line ≤ max_name_len)%nat) as Hcount.
  { intros label Hla Hla64. pose proof (fmt_usize_length (sn_found (st_progress s))).
    destruct (percent_ok (st_progress s) Hd Ht) as [->|(v & -> & Hv)]; cbn [mbind option_bind]; eexists; (split; [done|]).
    - split; [eauto 20 with utf8|]. rewrite !length_app. cbn [length text]. vm_compute (length (text " ")). unfold max_name_len. lia.
    - assert (is_u64 v) by (unfold is_u64; lia). pose proof (fmt_percent_length v Hv).
      split; [eauto 20 with utf8|]. rewrite !length_app. vm_compute (length (text _)). unfold max_name_len. lia. }
  destruct (st_stopping s).
  { eexists. split; [done|]. split; [eauto 20 with utf8|]. rewrite !length_app. vm_compute (length (text _)). unfold max_name_len. lia. }
  destruct (default _ _); simpl bool_decide; cbv iota.
  1,2: by apply Hcount.
  { apply Hcount; [eauto with utf8|]. vm_compute. lia. }
  eexists. split; [done|]. assert (is_u64 (sn_done (st_progress s))) by (unfold is_u64; lia).
  assert (is_u64 (sn_total (st_progress s))) by (unfold is_u64; lia).
  pose proof (fmt_usize_length (sn_done (st_progress s))). pose proof (fmt_usize_length (sn_total (st_progress s))).
  split; [eauto 20 with utf8|]. rewrite !length_app. vm_compute (length (text _)). unfold max_name_len. lia.
Qed.

(** What [render] may set the line to: the first characters of [line], as
    many as fit the width. *)
Definition width_of (size : option TerminalSize) : nat :=
  match terminalColumns size with Some cols => Z.to_nat cols | None => max_name_len end.

(** C26: The status line.  Whatever the phase, the counts, the glyphs and the
    width of the terminal, a frame is composed without a fault, fits its
    buffer, and what is drawn of it is as many of its characters as the width
    has room for: no character is ever cut in two. *)
Theorem render_whole os code_page env label noun p stopping size frame :
  let s := {| st_label := label; st_noun := noun; st_progress := p; st_stopping := stopping |} in
  let g := glyphs os code_page env in
  status_ok s → 0 <= frame →
  ∃ chars k, status_line g frame s = Some (concat chars) ∧ Forall utf8_char chars ∧ (length (concat chars) ≤ max_name_len)%nat ∧
    render g label noun p stopping size frame = Some (concat (take k chars)) ∧
    (length (concat (take k chars)) ≤ width_of size)%nat ∧
    ∀ j, (length (concat (take j chars)) ≤ width_of size)%nat → (length (concat (take j chars)) ≤ length (concat (take k chars)))%nat.
Proof.
  intros s g Hs Hf. destruct (status_line_fits g frame s (glyphs_either _ _ _) Hs Hf) as (line & Hline & (chars & Hc & ->) & Hlen).
  destruct (truncateUtf8_run chars (width_of size) Hc) as (k & Hk & Hle & Hmax). exists chars, k.
  split; [done|]. split; [done|]. split; [done|]. split; [|done].
  unfold render, writeStatus. fold s. rewrite Hline. cbn [fmap option_fmap option_map mbind option_bind].
  by rewrite take_ge by done.
Qed.

(** A sweep of 254 hosts on a terminal of 24 columns. *)
Definition sample_status : Status :=
  {| st_label := text "Scanning 192.168.1.0/24"; st_noun := {| one := text "host found"; many := text "hosts found" |};
     st_progress := {| sn_phase := Some phase_sweep; sn_done := 107; sn_total := 254; sn_found := 7 |}; st_stopping := false |}.

Lemma render_whole_witness :
  let g := glyphs Linux None {| LC_ALL := None; LC_CTYPE := None; LANG := Some (text "en_GB.UTF-8"); TERM := None |} in
  let size := Some {| rows := 40; cols := 29 |} in
  render g (st_label sample_status) (st_noun sample_status) (st_progress sample_status) false size 2 =
    Some ([226; 160; 185] ++ text " Scanning 192.168.1.0/24") ∧
  ∃ chars k, status_line g 2 sample_status = Some (concat chars) ∧ Forall utf8_char chars ∧ (length (concat chars) ≤ max_name_len)%nat ∧
    render g (st_label sample_status) (st_noun sample_status) (st_progress sample_status) false size 2 = Some (concat (take k chars)) ∧
    (length (concat (take k chars)) ≤ width_of size)%nat ∧
    ∀ j, (length (concat (take j chars)) ≤ width_of size)%nat → (length (concat (take j chars)) ≤ length (concat (take k chars)))%nat.
Proof.
  split; [by vm_compute|]. apply render_whole; [|lia].
  split; simpl; try (split; [apply utf8_literal; by vm_compute|vm_compute; lia]); unfold is_u64; lia.
Defined.

(** A line that overflows the buffer is not repaired: it is no longer than
    the width, so it is not looked at again.  [render_whole] shows that the
    lines of a scan do not. *)
Lemma overflow_unrepaired :
  let label := text "123456789012345678901234567890123456789012345678901234567890123456789012345678901234567890123456789012345678901234" in
  render unicode label {| one := []; many := [] |} {| sn_phase := None; sn_done := 0; sn_total := 0; sn_found := 0 |} false None 0 =
    Some ([226; 160; 139] ++ text " " ++ label ++ [226; 128]).
Proof. by vm_compute. Qed.

(** ** The locale *)

Lemma findScalarPos_split (c : Z) (before after : list Z) :
  c ∉ before → findScalarPos (before ++ c :: after) 0 c = Some (length before).
Proof.
  intros Hc. unfold findScalarPos. rewrite drop_0.
  assert (list_find (λ x, x = c) (before ++ c :: after) = Some (length before, c)) as ->; [|done].
  apply list_find_Some. split; [by apply list_lookup_middle|]. split; [done|].
  intros j y Hj Hlt ->. rewrite lookup_app_l in Hj by done. apply list_elem_of_lookup_2 in Hj. by apply Hc in Hj.
Qed.

Lemma findScalarPos_none (s : list Z) start (c : Z) : c ∉ drop start s → findScalarPos s start c = None.
Proof.
  intros Hc. unfold findScalarPos. destruct (list_find _ _) as [[i x]|] eqn:Hf; [|done].
  apply list_find_Some in Hf as (Hi & -> & _). by apply list_elem_of_lookup_2 in Hi.
Qed.

Lemma findScalarPos_drop (s : list Z) start (c : Z) : findScalarPos s start c = (λ i, start + i)%nat <$> findScalarPos (drop start s) 0 c.
Proof. unfold findScalarPos. rewrite drop_0. by destruct (list_find _ _). Qed.

(** A text split at its first [c]. *)
Lemma first_split (c : Z) (s : list Z) : c ∉ s ∨ ∃ before after, s = before ++ c :: after ∧ c ∉ before.
Proof.
  destruct (decide (c ∈ s)) as [Hin|]; [right|by left]. apply list_elem_of_split_l in Hin as (before & after & -> & Hb). by exists before, after.
Qed.

(** The codeset a locale names: after its first dot, up to an at sign. *)
Definition codeset_of (locale codeset : list Z) : Prop :=
  ∃ lang modifier, locale = lang ++ DOT :: codeset ++ modifier ∧ DOT ∉ lang ∧ 64 ∉ codeset ∧ (modifier = [] ∨ head modifier = Some 64).

Lemma codeset_end lang codeset modifier :
  64 ∉ codeset → (modifier = [] ∨ head modifier = Some 64) →
  let locale := lang ++ DOT :: codeset ++ modifier in
  take (default (length locale) (findScalarPos locale (length lang) 64) - (length lang + 1)) (drop (length lang + 1) locale) = codeset.
Proof.
  intros Hc Hm locale. unfold locale. rewrite findScalarPos_drop, drop_app_length.
  rewrite drop_app_add. cbn [drop].
  assert (64 ∉ DOT :: codeset) as Hc' by (by intros [?|?]%elem_of_cons).
  destruct Hm as [->|Hm].
  - rewrite findScalarPos_none by (rewrite drop_0, app_nil_r; done). cbn [default fmap option_fmap option_map from_option id].
    rewrite !app_nil_r, length_app. cbn [length]. rewrite drop_0. apply take_ge. lia.
  - destruct modifier as [|x modifier]; [done|]. injection Hm as ->. rewrite app_comm_cons, findScalarPos_split by done.
    cbn [default fmap option_fmap option_map from_option id length]. replace (length lang + S (length codeset) - (length lang + 1))%nat with (length codeset) by lia.
    by rewrite drop_0, take_app_length.
Qed.

(** The locale's encoding is UTF-8 exactly when the first of LC_ALL, LC_CTYPE
    and LANG that is set names it so. *)
Lemma localeIsUtf8_names lc_all lc_ctype lang :
  localeIsUtf8 lc_all lc_ctype lang = true ↔
  ∃ locale codeset, first_set [lc_all; lc_ctype; lang] = Some locale ∧ codeset_of locale codeset ∧
    (eqlIgnoreCase codeset (text "UTF-8") = true ∨ eqlIgnoreCase codeset (text "utf8") = true).
Proof.
  unfold localeIsUtf8. destruct (first_set _) as [locale|]; [|by split; [|intros (? & ? & ? & _)]]. split.
  - destruct (first_split DOT locale) as [Hno|(l & rest & -> & Hl)]; [by rewrite findScalarPos_none|].
    rewrite findScalarPos_split by done.
    destruct (first_split 64 rest) as [Hno|(codeset & modifier & -> & Hc)].
    + pose proof (codeset_end l rest [] Hno (or_introl eq_refl)) as He. cbv zeta in He. rewrite app_nil_r in He. rewrite He.
      intros [H|H]%orb_true_iff; exists (l ++ DOT :: rest), rest; (split; [done|]); (split; [|auto]); exists l, []; rewrite app_nil_r; auto.
    + pose proof (codeset_end l codeset (64 :: modifier) Hc (or_intror eq_refl)) as He. cbv zeta in He. rewrite He.
      intros [H|H]%orb_true_iff; eexists _, codeset; (split; [done|]); (split; [|auto]); exists l, (64 :: modifier); auto.
  - intros (? & codeset & [= <-] & (l & modifier & -> & Hl & Hc & Hm) & Hu). rewrite findScalarPos_split by done.
    pose proof (codeset_end l codeset modifier Hc Hm) as He. cbv zeta in He. rewrite He. by apply orb_true_iff.
Qed.

(** ** Up and down *)

Lemma end_idempotent progress self : end_acts progress (end_ self) = [] ∧ end_ (end_ self) = end_ self.
Proof. unfold end_acts, end_. by destruct (lv_ticker self) eqn:Ht; simpl; rewrite ?Ht. Qed.

Lemma output_wrote progress : output (map wrote progress) = concat progress.
Proof. unfold output. induction progress as [|bs progress IH]; [done|]. simpl. by rewrite IH. Qed.

Lemma output_app l1 l2 : output (l1 ++ l2) = output l1 ++ output l2.
Proof. apply flat_map_app. Qed.

(** What end writes. *)
Lemma output_end progress self :
  output (end_acts progress self) =
  if lv_ticker self then concat progress ++ (if lv_escape_codes self then CLEAR_LINE else []) else [].
Proof.
  unfold end_acts. destruct (lv_ticker self); [|done].
  change (output (drawn false :: ?l)) with (output l). rewrite output_app, output_wrote. f_equal.
  by destruct (lv_escape_codes self).
Qed.

Lemma end_not_drawn progress self : drawn true ∉ end_acts progress self.
Proof.
  unfold end_acts. destruct (lv_ticker self); [|apply not_elem_of_nil].
  intros [?|[Hw|Hc]%elem_of_app]%elem_of_cons; [done| |].
  - by apply list_elem_of_fmap in Hw as (? & ? & _).
  - destruct (lv_escape_codes self); [by apply list_elem_of_singleton in Hc|by apply not_elem_of_nil in Hc].
Qed.

Lemma runs_erase os s l s' : runs_to os s l s' → (∀ b, drawn b ∉ l) → erase_on_quit s' = erase_on_quit s.
Proof.
  intros Hr. induction Hr as [|l s' a s'' _ IH Hs]; intros Hd; [done|].
  rewrite <- IH by (intros b Hb; apply (Hd b), elem_of_app; by left).
  destruct Hs as [c p Hn|i n h h' p p' Hn Hh Heq|i p Hn Hh|erase p Hn|bytes p Hn|blocked p Hn]; try done.
  - unfold press, deliver. destruct os; by repeat case_match.
  - destruct os, h as [| | | | | |[]]; simpl in Heq; unfold deliver in Heq; repeat case_match; by simplify_eq.
  - exfalso. apply (Hd erase), elem_of_app. right. apply list_elem_of_here.
  - by destruct os, blocked.
Qed.

Lemma runs_app_inv os s l1 l2 s' : runs_to os s (l1 ++ l2) s' → ∃ s1, runs_to os s l1 s1 ∧ runs_to os s1 l2 s'.
Proof.
  revert s'. induction l2 as [|a l2 IH] using rev_ind; intros s' Hr; [rewrite app_nil_r in Hr; exists s'; split; [done|constructor]|].
  rewrite app_assoc in Hr. inversion Hr as [Heq|l s0 b s1 Hr0 Hs Heq]; [by destruct (l1 ++ l2)|].
  apply app_inj_tail in Heq as [-> ->]. destruct (IH _ Hr0) as (s2 & H1 & H2). exists s2. split; [done|by econstructor].
Qed.

Lemma one_act os s a s' : runs_to os s [a] s' → step os s a s'.
Proof.
  intros Hr. inversion Hr as [|l s0 b s1 Hr0 Hs Heq]. apply (app_inj_tail l [] b a) in Heq as [-> ->].
  inversion Hr0 as [|l' ? ? ? ? ? Heq']; subst; [done|by destruct l'].
Qed.

(** Once the flag's store is done, a run that does not turn it on again writes
    only what its own acts write. *)
Lemma erased_no_more os p own others l p' a :
  beside own others l → Forall of_ctrl_c others → drawn true ∉ own → at_write ∉ handlers p →
  runs_to os p l p' → (erase_on_quit p = false ∨ a = drawn false ∧ head l = Some a) →
  written p' = written p ++ output own.
Proof.
  intros Hb Ho Hd Hw Hr Hf. rewrite <- (beside_output _ _ _ Hb Ho).
  pose proof (beside_not_drawn _ _ _ _ Hb Ho Hd) as Hnd.
  destruct Hf as [Hf|[-> Hf]]; [by eapply nothing_erased|].
  destruct l as [|? l]; [done|]. injection Hf as ->. apply not_elem_of_cons in Hnd as [_ Hnd].
  apply (runs_app_inv os p [drawn false] l) in Hr as (p1 & H1 & Hr). apply one_act in H1. inversion H1; subst.
  by rewrite (nothing_erased _ _ _ _ Hr).
Qed.

(** C27: The line is down before the results print.  [begin] turns the erase
    flag on only with a line drawn with escape codes.  From the moment [end]
    stores the flag, whatever presses and steps of handlers fall between its
    acts and after them, the terminal gets exactly what std.Progress, [end]
    and the rest of the program ([after]) write, in this order: Ctrl+C writes
    nothing into it, unless a handler was about to write already when the
    flag was stored.  A second [end] does nothing. *)
Theorem line_down os tm self p p1 l1 p2 progress after others l p3 :
  erase_on_quit p = false → begin tm live_init p = (self, p1) →
  runs_to os p1 l1 p2 → (∀ b, drawn b ∉ l1) → at_write ∉ handlers p2 →
  beside (end_acts progress self ++ after) others l → Forall of_ctrl_c others → drawn true ∉ after →
  (∀ a, head (end_acts progress self) = Some a → head l = Some a) → runs_to os p2 l p3 →
  erase_on_quit p2 = tm_draws tm && tm_thread tm && tm_ansi tm ∧
  lv_ticker self = tm_draws tm && tm_thread tm ∧
  (end_acts progress (end_ self) = [] ∧ end_ (end_ self) = end_ self ∧
   lv_root (end_ self) = false ∧ lv_ticker (end_ self) = false) ∧
  written p3 = written p2 ++ (if tm_draws tm && tm_thread tm then concat progress else []) ++
    (if tm_draws tm && tm_thread tm && tm_ansi tm then CLEAR_LINE else []) ++ output after.
Proof.
  intros Hp Hb Hr1 Hd1 Hw Hbe Ho Hd2 Hhead Hr2. pose proof (runs_erase _ _ _ _ Hr1 Hd1) as He.
  assert (erase_on_quit p1 = tm_draws tm && tm_thread tm && tm_ansi tm ∧ lv_ticker self = tm_draws tm && tm_thread tm ∧
    lv_root self = lv_ticker self ∧ (lv_ticker self = true → lv_escape_codes self = tm_ansi tm)) as (H1 & H2 & H3 & H4).
  { unfold begin in Hb. destruct (tm_draws tm), (tm_thread tm); simpl in Hb; simplify_eq; by simpl. }
  rewrite He. split; [done|]. split; [done|]. split.
  { destruct (end_idempotent progress self) as [-> ->]. split; [done|]. split; [done|]. unfold end_. destruct (lv_ticker self) eqn:Ht; simpl; split; congruence. }
  rewrite (erased_no_more os p2 _ _ l p3 (drawn false) Hbe Ho); [| |done|done|].
  - rewrite output_app, output_end, <- H2. destruct (lv_ticker self) eqn:Ht; [|done].
    rewrite H4 by done. by rewrite <- !app_assoc.
  - intros [?|?]%elem_of_app; [by eapply end_not_drawn|done].
  - unfold end_acts in Hhead. destruct (lv_ticker self) eqn:Ht; [right; split; [done|by apply Hhead]|left].
    by rewrite He, H1, <- H2.
Qed.

(** A line drawn with escape codes, std.Progress clearing its line as it ends,
    and two presses while the line is coming down. *)
Definition interactive : terminal := {| tm_draws := true; tm_thread := true; tm_ansi := true |}.
Definition drawing : Live * process := begin interactive live_init (install Linux true (started SIG_DFL)).
Definition coming_down : list Interrupt.act :=
  [drawn false; pressed 0; wrote [13]; stepped 0 0; stepped 0 0; wrote CLEAR_LINE; wrote [49; 10]; stepped 0 0].

Lemma line_down_run :
  ∃ p2 p3, runs_to Linux drawing.2 [pressed 0; stepped 0 0; stepped 0 0] p2 ∧ handlers p2 = [] ∧
    runs_to Linux p2 coming_down p3 ∧ handlers p3 = [at_raise] ∧ written p3 = [13] ++ CLEAR_LINE ++ [49; 10].
Proof.
  eexists _, _. split; [do 3 act_step; apply runs_none|]. split; [done|].
  split; [unfold coming_down; do 8 act_step; apply runs_none|]. done.
Qed.

Lemma line_down_witness :
  ∃ p2 p3, runs_to Linux drawing.2 [pressed 0; stepped 0 0; stepped 0 0] p2 ∧ handlers p2 = [] ∧
    runs_to Linux p2 coming_down p3 ∧ handlers p3 = [at_raise] ∧
    written p3 = written p2 ++ [13] ++ CLEAR_LINE ++ [49; 10].
Proof.
  destruct line_down_run as (p2 & p3 & H1 & Hh & H2 & Hh3 & _). exists p2, p3. do 4 (split; [assumption|]).
  refine (proj2 (proj2 (proj2 (line_down Linux interactive drawing.1 (install Linux true (started SIG_DFL)) drawing.2
    [pressed 0; stepped 0 0; stepped 0 0] p2 [[13]] [wrote [49; 10]]
    [pressed 0; stepped 0 0; stepped 0 0; stepped 0 0] coming_down p3 _ _ H1 _ _ _ _ _ _ H2)))).
  - reflexivity.
  - reflexivity.
  - intros b H. repeat (apply elem_of_cons in H as [H|H]; [discriminate|]). by apply not_elem_of_nil in H.
  - rewrite Hh. apply not_elem_of_nil.
  - unfold coming_down. cbn. repeat constructor.
  - repeat constructor.
  - intros H. repeat (apply elem_of_cons in H as [H|H]; [discriminate|]). by apply not_elem_of_nil in H.
  - done.
Defined.
