(* ===== verification/Json.v ===== *)
(** * JSON lines: the form of --json output, and a reader of it

    The objects the program prints, one to a line: strings, numbers, null and
    arrays of numbers.  [json_line] prints one; [read_line] is a reader
    (RFC 8259, without blanks and nesting) that the printed lines are proved
    against.  Nothing here is the program's; Output.v shows that what it
    prints has this form. *)
From S2P Require Import Prelude Words Decimal Ranges Text.
Open Scope Z_scope.

Inductive json := j_null | j_string (s : list Z) | j_number (v : Z) | j_array (vs : list Z).

#[export] Instance json_eq_dec : EqDecision json.
Proof. solve_decision. Defined.

(** {d} of a signed number *)
Definition fmt_i64 (v : Z) : list Z := if v <? 0 then 45 :: fmt_usize (- v) else fmt_usize v.

(** ** Printing *)

Definition value_text (v : json) : list Z :=
  match v with
  | j_null => NULL
  | j_string s => [34] ++ escaped s ++ [34]
  | j_number v => fmt_i64 v
  | j_array vs => [91] ++ join 44 (map fmt_i64 vs) ++ [93]
  end.

Definition member_text (m : list Z * json) : list Z := [34] ++ escaped m.1 ++ [34; 58] ++ value_text m.2.

Definition json_line (members : list (list Z * json)) : list Z := [123] ++ join 44 (map member_text members) ++ [125; 10].

(** ** Reading *)

(** The characters up to the closing quote, which an escape may hold. *)
Fixpoint until_quote (s : list Z) : option (list Z * list Z) :=
  match s with
  | [] => None
  | c :: s =>
    if c =? 34 then Some ([], s)
    else if c =? 92 then
      match s with
      | [] => None
      | e :: s => '(body, rest) ← until_quote s; Some (c :: e :: body, rest)
      end
    else '(body, rest) ← until_quote s; Some (c :: body, rest)
  end.

(** After the opening quote. *)
Definition read_string (s : list Z) : option (list Z * list Z) :=
  '(body, rest) ← until_quote s; v ← json_string body; Some (v, rest).

Fixpoint read_digits (s : list Z) : list Z * list Z :=
  match s with
  | [] => ([], [])
  | c :: s' => if (48 <=? c) && (c <=? 57) then let '(ds, rest) := read_digits s' in (c :: ds, rest) else ([], s)
  end.

(** No leading zero. *)
Definition read_natural (s : list Z) : option (Z * list Z) :=
  match read_digits s with
  | ([], _) => None
  | (48 :: _ :: _, _) => None
  | (ds, rest) => Some (digits_value ds, rest)
  end.

Definition read_number (s : list Z) : option (Z * list Z) :=
  match s with
  | 45 :: s => '(v, rest) ← read_natural s; Some (- v, rest)
  | _ => read_natural s
  end.

(** The numbers of an array, after its bracket, up to the closing one. *)
Fixpoint read_numbers (fuel : nat) (s : list Z) : option (list Z * list Z) :=
  match fuel with
  | O => None
  | S fuel =>
    '(v, rest) ← read_number s;
    match rest with
    | 44 :: rest => '(vs, rest) ← read_numbers fuel rest; Some (v :: vs, rest)
    | 93 :: rest => Some ([v], rest)
    | _ => None
    end
  end.

Definition read_value (s : list Z) : option (json * list Z) :=
  match s with
  | [] => None
  | c :: s' =>
    if c =? 34 then '(v, rest) ← read_string s'; Some (j_string v, rest)
    else if c =? 91 then
      match s' with
      | 93 :: rest => Some (j_array [], rest)
      | _ => '(vs, rest) ← read_numbers (length s') s'; Some (j_array vs, rest)
      end
    else if c =? 110 then if bool_decide (take 4 s = NULL) then Some (j_null, drop 4 s) else None
    else '(v, rest) ← read_number s; Some (j_number v, rest)
  end.

(** The members of an object, up to its closing brace. *)
Fixpoint read_members (fuel : nat) (s : list Z) : option (list (list Z * json) * list Z) :=
  match fuel, s with
  | S fuel, 34 :: s =>
    '(key, rest) ← read_string s;
    match rest with
    | 58 :: rest =>
      '(v, rest) ← read_value rest;
      match rest with
      | 44 :: rest => '(ms, rest) ← read_members fuel rest; Some ((key, v) :: ms, rest)
      | 125 :: rest => Some ([(key, v)], rest)
      | _ => None
      end
    | _ => None
    end
  | _, _ => None
  end.

(** A line that is one object. *)
Definition read_line (s : list Z) : option (list (list Z * json)) :=
  match s with
  | 123 :: s => '(ms, rest) ← read_members (length s) s; if bool_decide (rest = [10]) then Some ms else None
  | _ => None
  end.

(** ** What is printed is read back *)

Definition in_range (v : Z) : Prop := -9223372036854775808 <= v < 18446744073709551616.

Definition json_ok (v : json) : Prop :=
  match v with
  | j_null => True
  | j_string s => bytes s
  | j_number v => in_range v
  | j_array vs => Forall in_range vs
  end.

Definition member_ok (m : list Z * json) : Prop := bytes m.1 ∧ json_ok m.2.

Lemma until_quote_piece c s : is_u8 c →
  until_quote (json_piece c ++ s) = ('(body, rest) ← until_quote s; Some (json_piece c ++ body, rest)).
Proof.
  intros Hc. unfold json_piece.
  destruct (c =? 34) eqn:H1; [done|]. destruct (c =? 92) eqn:H2; [done|].
  destruct (c =? 10) eqn:H3; [done|]. destruct (c =? 13) eqn:H4; [done|].
  destruct (c =? 9) eqn:H5; [done|]. destruct (json_control c) eqn:Hj.
  - assert (∀ v, (v =? 34) = false → (v =? 92) = false → ∀ t, until_quote (v :: t) = ('(body, rest) ← until_quote t; Some (v :: body, rest))) as Hplain.
    { intros v Hv1 Hv2 t. cbn [until_quote]. by rewrite Hv1, Hv2. }
    pose proof (all_bytes (λ c, negb (hex_digit (Z.shiftr c 4) =? 34) && negb (hex_digit (Z.shiftr c 4) =? 92) &&
      negb (hex_digit (Z.land c 15) =? 34) && negb (hex_digit (Z.land c 15) =? 92)) ltac:(by vm_compute) c Hc) as Hp.
    cbv beta in Hp. apply andb_true_iff in Hp as [[[Ha%negb_true_iff Hb%negb_true_iff]%andb_true_iff Hd%negb_true_iff]%andb_true_iff He%negb_true_iff].
    cbn [app until_quote]. change (92 =? 34) with false. change (92 =? 92) with true. change (117 =? 34) with false. cbv iota.
    change (48 =? 34) with false. change (48 =? 92) with false. cbv iota. rewrite Ha, Hb, Hd, He. by destruct (until_quote s) as [[]|].
  - cbn [app until_quote]. rewrite H1, H2. done.
Qed.

Lemma until_quote_escaped t s : bytes t → until_quote (escaped t ++ 34 :: s) = Some (escaped t, s).
Proof.
  induction 1 as [|c t Hc _ IH]; [done|]. unfold escaped in *. cbn [map concat].
  rewrite <- app_assoc, until_quote_piece by done. by rewrite IH.
Qed.

Lemma read_string_escaped t s : bytes t → read_string (escaped t ++ 34 :: s) = Some (t, s).
Proof. intros Ht. unfold read_string. rewrite until_quote_escaped by done. cbn [mbind option_bind]. by rewrite json_string_escaped. Qed.

(** What ends a number. *)
Definition ends_number (s : list Z) : Prop := match s with [] => True | c :: _ => ¬ is_digit c end.

Lemma read_digits_app ds s : digits ds → ends_number s → read_digits (ds ++ s) = (ds, s).
Proof.
  intros Hd Hs. induction Hd as [|d ds Hd _ IH]; simpl.
  - destruct s as [|c s]; [done|]. simpl in *. destruct (_ && _) eqn:Hc; [|done]. to_prop. exfalso. apply Hs. unfold is_digit. lia.
  - unfold is_digit in Hd. rewrite (proj2 (Z.leb_le _ _)), (proj2 (Z.leb_le _ _)) by lia. simpl. by rewrite IH.
Qed.

Lemma read_natural_app v s : is_u64 v → ends_number s → read_natural (fmt_usize v ++ s) = Some (v, s).
Proof.
  intros Hv Hs. destruct (fmt_usize_canonical v Hv) as [Hd (d & u & Heq & Hz)]. unfold read_natural.
  rewrite read_digits_app by done. rewrite <- (fmt_usize_value v Hv) at 2. rewrite Heq.
  destruct Hz as [Hz|Hz].
  - destruct d as [|p|p]; try done. do 6 (destruct p; try done).
  - subst. destruct d as [|p|p]; try done. do 6 (destruct p; try done).
Qed.

Lemma read_number_app v s : in_range v → ends_number s → read_number (fmt_i64 v ++ s) = Some (v, s).
Proof.
  intros Hv Hs. unfold fmt_i64, in_range in *. destruct (v <? 0) eqn:Hn; to_prop.
  - cbn [app read_number]. rewrite read_natural_app by (unfold is_u64; lia || done). cbn [mbind option_bind]. by rewrite Z.opp_involutive.
  - rewrite <- (read_natural_app v s) by (unfold is_u64; lia || done). unfold read_number.
    destruct (fmt_usize_canonical v) as [Hd (d & u & Heq & _)]; [unfold is_u64; lia|]. rewrite Heq in *. cbn [app].
    apply Forall_cons in Hd as [Hd _]. unfold is_digit in Hd.
    destruct d as [|p|p]; try done. do 6 (destruct p; try done). all: exfalso; lia.
Qed.

(** Each number of an array ends where the next character is no digit. *)
Lemma read_numbers_join vs : ∀ fuel s, vs ≠ [] → Forall in_range vs → (length vs ≤ fuel)%nat →
  read_numbers fuel (join 44 (map fmt_i64 vs) ++ 93 :: s) = Some (vs, s).
Proof.
  induction vs as [|v vs IH]; intros fuel s Hne Hvs Hf; [done|]. apply Forall_cons in Hvs as [Hv Hvs].
  destruct fuel as [|fuel]; [simpl in Hf; lia|]. cbn [read_numbers map]. destruct vs as [|w vs].
  - cbn [map join]. rewrite read_number_app; [done|done|]. simpl. unfold is_digit. lia.
  - rewrite join_cons by done. rewrite <- app_assoc. rewrite read_number_app; [|done|simpl; unfold is_digit; lia].
    cbn [mbind option_bind app]. rewrite IH; [done|done|done|simpl in *; lia].
Qed.

Lemma fmt_i64_head v : in_range v → ∃ c rest, fmt_i64 v = c :: rest ∧ (c = 45 ∨ is_digit c).
Proof.
  intros Hv. unfold fmt_i64, in_range in *. destruct (v <? 0) eqn:Hn; to_prop; [eexists _, _; split; [done|by left]|].
  destruct (fmt_usize_canonical v) as [Hd (d & u & Heq & _)]; [unfold is_u64; lia|]. exists d, u. split; [done|]. right.
  rewrite Heq in Hd. by apply Forall_cons in Hd as [? _].
Qed.

Lemma join_length c ts : Forall (λ t, t ≠ []) ts → (length ts ≤ length (join c ts))%nat.
Proof.
  induction 1 as [|t ts Ht _ IH]; [done|]. destruct ts as [|u ts]; [destruct t; [done|simpl; lia]|].
  rewrite join_cons by done. rewrite length_app. simpl in *. lia.
Qed.

Lemma read_value_app v s : json_ok v → ends_number s → read_value (value_text v ++ s) = Some (v, s).
Proof.
  intros Hv Hs. destruct v as [|t|v|vs]; cbn [value_text json_ok] in *.
  - done.
  - cbn [app read_value]. change (34 =? 34) with true. cbv iota. rewrite <- app_assoc. cbn [app]. by rewrite read_string_escaped.
  - destruct (fmt_i64_head v Hv) as (c & rest & Heq & Hc). assert (c ≠ 34 ∧ c ≠ 91 ∧ c ≠ 110) as (H1 & H2 & H3) by (unfold is_digit in Hc; lia).
    pose proof (read_number_app v s Hv Hs) as Hr. rewrite Heq in *. cbn [app read_value] in *.
    rewrite (proj2 (Z.eqb_neq _ _) H1), (proj2 (Z.eqb_neq _ _) H2), (proj2 (Z.eqb_neq _ _) H3). by rewrite Hr.
  - cbn [app read_value]. change (91 =? 34) with false. change (91 =? 91) with true. cbv iota. rewrite <- app_assoc. cbn [app].
    destruct vs as [|v vs]; [done|]. apply Forall_cons in Hv as [Hv Hvs].
    assert (∃ c rest, join 44 (map fmt_i64 (v :: vs)) ++ 93 :: s = c :: rest ∧ c ≠ 93) as (c & rest & Heq & Hc).
    { destruct (fmt_i64_head v Hv) as (c & rest & Heq & Hc). exists c.
      destruct vs as [|w vs]; cbn [map]; [cbn [join]; rewrite Heq|rewrite join_cons by done; rewrite Heq];
        eexists; (split; [reflexivity|unfold is_digit in Hc; lia]). }
    assert (read_numbers (length (c :: rest)) (c :: rest) = Some (v :: vs, s)) as Hr.
    { rewrite <- Heq. apply read_numbers_join; [done|by constructor|]. rewrite length_app.
      pose proof (join_length 44 (map fmt_i64 (v :: vs))) as Hl. rewrite length_map in Hl. assert (Forall (λ t, t ≠ []) (map fmt_i64 (v :: vs))) as Hne; [|specialize (Hl Hne); simpl in *; lia].
      apply Forall_fmap, Forall_forall. intros w Hw. assert (in_range w) as Hin; [|destruct (fmt_i64_head w Hin) as (? & ? & Hw' & _); simpl; by rewrite Hw'].
      apply elem_of_cons in Hw as [->|Hw]; [done|]. by eapply Forall_forall in Hvs. }
    rewrite Heq. destruct c as [|p|p]; [by rewrite Hr| |by rewrite Hr]. do 7 (destruct p as [p|p|]; try (by rewrite Hr)).
Qed.

(** A member ends before a comma or the brace. *)
Lemma read_members_join ms : ∀ fuel s, ms ≠ [] → Forall member_ok ms → (length ms ≤ fuel)%nat →
  read_members fuel (join 44 (map member_text ms) ++ 125 :: s) = Some (ms, s).
Proof.
  induction ms as [|[k v] ms IH]; intros fuel s Hne Hms Hf; [done|]. apply Forall_cons in Hms as [[Hk Hv] Hms]. simpl in Hk, Hv.
  destruct fuel as [|fuel]; [simpl in Hf; lia|].
  assert (∀ c t, ¬ is_digit c → read_members (S fuel) (member_text (k, v) ++ c :: t) =
    match c :: t with
    | 44 :: rest => '(ms, rest) ← read_members fuel rest; Some ((k, v) :: ms, rest)
    | 125 :: rest => Some ([(k, v)], rest)
    | _ => None
    end) as Hone.
  { intros c t Hc. unfold member_text. cbn [fst snd app read_members]. rewrite <- app_assoc. cbn [app].
    rewrite read_string_escaped by done. cbn [mbind option_bind]. by rewrite read_value_app by done. }
  cbn [map]. destruct ms as [|m ms].
  - cbn [map join]. rewrite Hone by (unfold is_digit; lia). done.
  - cbn [map]. rewrite join_cons by done. rewrite <- app_assoc. cbn [app]. rewrite Hone by (unfold is_digit; lia).
    cbv iota. change (member_text m :: map member_text ms) with (map member_text (m :: ms)).
    rewrite IH; [done|done|done|simpl in *; lia].
Qed.

(** A printed object is read back member by member. *)
Lemma read_line_json ms : ms ≠ [] → Forall member_ok ms → read_line (json_line ms) = Some ms.
Proof.
  intros Hne Hms. unfold json_line. cbn [app read_line].
  rewrite read_members_join; [|done|done|].
  - cbn [mbind option_bind]. by rewrite bool_decide_eq_true_2.
  - rewrite length_app. pose proof (join_length 44 (map member_text ms)) as Hl. rewrite length_map in Hl.
    assert (Forall (λ t, t ≠ []) (map member_text ms)) as Hall; [|specialize (Hl Hall); simpl in *; lia]. apply Forall_fmap, Forall_forall. by intros [k v] _.
Qed.

(** ** Text that is its own escape *)

Definition unescaped (c : Z) : bool := bool_decide (json_piece c = [c]).

Lemma escaped_plain s : forallb unescaped s = true → escaped s = s.
Proof.
  intros Hs. induction s as [|c s IH]; [done|]. simpl in Hs. apply andb_true_iff in Hs as [Hc%bool_decide_eq_true Hs].
  unfold escaped in *. cbn [map concat]. by rewrite Hc, IH.
Qed.

Lemma escaped_app s t : escaped (s ++ t) = escaped s ++ escaped t.
Proof. unfold escaped. by rewrite map_app, concat_app. Qed.

Lemma escaped_digits s : digits s → escaped s = s.
Proof.
  intros Hs. apply escaped_plain, forallb_forall. intros c Hc%list_elem_of_In. eapply Forall_forall in Hs; [|exact Hc].
  pose proof (all_bytes (λ c, negb ((48 <=? c) && (c <=? 57)) || unescaped c) ltac:(by vm_compute) c) as Hp. unfold is_digit, is_u8 in *.
  specialize (Hp ltac:(lia)). cbv beta in Hp. by rewrite (proj2 (Z.leb_le _ _)), (proj2 (Z.leb_le _ _)) in Hp by lia.
Qed.

Lemma escaped_formatIp ip : ip_ok ip → escaped (formatIp ip) = formatIp ip.
Proof.
  intros (Ha & Hb & Hc & Hd)%ip_ok_bytes. unfold is_u8 in *. unfold formatIp.
  rewrite !escaped_app, !(escaped_digits (fmt_u _)) by (apply fmt_u_digits; lia). done.
Qed.

Lemma escaped_hex2 b : is_u8 b → escaped (hex2 b) = hex2 b.
Proof.
  intros Hb. apply escaped_plain. pose proof (all_bytes (λ c, forallb unescaped (hex2 c)) ltac:(by vm_compute) b Hb) as Hp. exact Hp.
Qed.

Lemma escaped_formatMac mac : bytes mac → escaped (formatMac mac) = formatMac mac.
Proof.
  assert (∀ mac, bytes mac → escaped (colon_hex mac) = colon_hex mac) as Hc.
  { induction 1 as [|b m Hb _ IH]; [done|]. cbn [colon_hex]. by rewrite !escaped_app, escaped_hex2, IH. }
  intros Hm. destruct Hm as [|b m Hb Hm]; [done|]. cbn [formatMac]. by rewrite escaped_app, escaped_hex2, Hc.
Qed.

(** What of a text a buffer of [cap] bytes has room for. *)
Definition kept (cap : nat) (s : list Z) : list Z := default [] (json_string (jsonEscape cap s)).

Lemma escaped_take s k : (length (escaped (take k s)) + length (escaped (drop k s)) = length (escaped s))%nat.
Proof. by rewrite <- length_app, <- escaped_app, take_drop. Qed.

(** It is a prefix, all of it when that fits. *)
Lemma kept_prefix cap s : bytes s →
  ∃ k, kept cap s = take k s ∧ jsonEscape cap s = escaped (kept cap s) ∧ ((length (escaped s) ≤ cap)%nat → kept cap s = s).
Proof.
  intros Hs. destruct (json_loop_value cap s []) as (k & Hk & Hv & Hl & Hn); [simpl; lia|]. exists k.
  assert (kept cap s = take k s) as Heq.
  { unfold kept, jsonEscape. rewrite Hv. cbn [app]. by rewrite json_string_escaped by by apply bytes_take. }
  rewrite Heq. split; [done|]. split; [done|]. intros Hcap. apply take_ge. destruct (decide (k = length s)) as [|Hne]; [lia|]. exfalso.
  assert (is_Some (s !! k)) as [c Hc] by (apply lookup_lt_is_Some; lia). specialize (Hn c Hc). rewrite Hv in Hn. cbn [app] in Hn.
  pose proof (escaped_take s k) as He. rewrite (drop_S _ _ _ Hc) in He. unfold escaped in *. cbn [map concat] in He. rewrite length_app in He. lia.
Qed.

(** It is the longest prefix whose escape fits. *)
Lemma kept_longest cap s : bytes s →
  kept cap s `prefix_of` s ∧ (length (escaped (kept cap s)) ≤ cap)%nat ∧
  ∀ p, p `prefix_of` s → (length (escaped p) ≤ cap)%nat → p `prefix_of` kept cap s.
Proof.
  intros Hs. destruct (json_loop_value cap s []) as (k & Hk & Hv & Hl & Hn); [simpl; lia|]. cbn [app] in Hv.
  assert (kept cap s = take k s) as ->.
  { unfold kept, jsonEscape. rewrite Hv. by rewrite json_string_escaped by by apply bytes_take. }
  rewrite Hv in Hl, Hn. split; [exists (drop k s); by rewrite take_drop|]. split; [done|]. intros p [q ->] Hp.
  destruct (decide (length p ≤ k)%nat) as [Hle|Hgt]; [exists (take (k - length p) q); by rewrite take_app_ge by done|]. exfalso.
  destruct (lookup_lt_is_Some_2 (p ++ q) k) as [c Hc]; [rewrite length_app; lia|]. specialize (Hn c Hc).
  assert (take (S k) p = take k (p ++ q) ++ [c]) as Htake.
  { rewrite take_app_le by lia. rewrite lookup_app_l in Hc by lia. by apply take_S_r. }
  pose proof (escaped_take p (S k)) as He. rewrite Htake in He. unfold escaped in *. rewrite map_app, concat_app, length_app in He.
  cbn [map concat] in He. rewrite app_nil_r in He. lia.
Qed.

Lemma kept_bytes cap s : bytes s → bytes (kept cap s).
Proof. intros Hs. destruct (kept_prefix cap s Hs) as (k & -> & _). by apply bytes_take. Qed.

(** ** Lines *)

(** The lines of a text, each with its end. *)
Fixpoint split_lines (s : list Z) : list (list Z) :=
  match s with
  | [] => []
  | c :: s =>
    if c =? 10 then [10] :: split_lines s
    else match split_lines s with l :: ls => (c :: l) :: ls | [] => [[c]] end
  end.

(** Every line an object. *)
Definition read_lines (s : list Z) : option (list (list (list Z * json))) := mapM read_line (split_lines s).

Lemma split_lines_app body s : 10 ∉ body → split_lines (body ++ 10 :: s) = (body ++ [10]) :: split_lines s.
Proof.
  induction body as [|c body IH]; intros Hn; [done|]. apply not_elem_of_cons in Hn as [Hc Hn]. cbn [app split_lines].
  rewrite (proj2 (Z.eqb_neq _ _)) by done. by rewrite IH.
Qed.

Lemma visible_no_end s : Forall (λ c, 32 <= c) s → 10 ∉ s.
Proof. intros Hs Hin. eapply Forall_forall in Hs; [|exact Hin]. simpl in Hs. lia. Qed.

Lemma escaped_visible' s : bytes s → Forall (λ c, 32 <= c) (escaped s).
Proof. intros Hs. eapply Forall_impl; [by apply escaped_visible|]. by intros c [? _]. Qed.

Lemma fmt_i64_visible v : in_range v → Forall (λ c, 32 <= c) (fmt_i64 v).
Proof.
  intros Hv. unfold fmt_i64, in_range in *.
  assert (∀ w, is_u64 w → Forall (λ c, 32 <= c) (fmt_usize w)) as Hw.
  { intros w Hw. destruct (fmt_usize_canonical w Hw) as [Hd _]. eapply Forall_impl; [exact Hd|]. unfold is_digit. lia. }
  destruct (v <? 0) eqn:Hn; to_prop; [constructor; [lia|]|]; apply Hw; unfold is_u64; lia.
Qed.

Lemma join_visible c ts : 32 <= c → Forall (Forall (λ c, 32 <= c)) ts → Forall (λ c, 32 <= c) (join c ts).
Proof.
  intros Hc. induction 1 as [|t ts Ht Hts IH]; [constructor|]. destruct ts as [|u ts]; [done|].
  rewrite join_cons by done. apply Forall_app. split; [done|]. by constructor.
Qed.

Lemma value_visible v : json_ok v → Forall (λ c, 32 <= c) (value_text v).
Proof.
  destruct v as [|t|v|vs]; simpl; intros Hv.
  - repeat constructor; lia.
  - constructor; [lia|]. apply Forall_app. split; [by apply escaped_visible'|]. by repeat constructor.
  - by apply fmt_i64_visible.
  - constructor; [lia|]. apply Forall_app. split; [|by repeat constructor]. apply join_visible; [lia|].
    apply Forall_fmap. eapply Forall_impl; [exact Hv|]. intros w Hw. by apply fmt_i64_visible.
Qed.

Lemma member_visible m : member_ok m → Forall (λ c, 32 <= c) (member_text m).
Proof.
  intros [Hk Hv]. unfold member_text. repeat apply Forall_app_2; try (by repeat constructor); [by apply escaped_visible'|by apply value_visible].
Qed.

(** An object, then more lines. *)
Lemma read_lines_cons ms s r :
  ms ≠ [] → Forall member_ok ms → read_lines s = Some r → read_lines (json_line ms ++ s) = Some (ms :: r).
Proof.
  intros Hne Hms Hr. pose proof (read_line_json ms Hne Hms) as Hl. unfold read_lines in *.
  assert (json_line ms = ([123] ++ join 44 (map member_text ms) ++ [125]) ++ [10]) as Heq by (unfold json_line; by rewrite <- !app_assoc).
  rewrite Heq in *. rewrite <- app_assoc. cbn [app] in *. rewrite app_comm_cons, split_lines_app.
  - cbn [mapM]. rewrite <- app_comm_cons in *. cbn [app] in *. rewrite Hl. cbn [mbind option_bind]. by rewrite Hr.
  - apply visible_no_end. constructor; [lia|]. apply Forall_app. split; [|by repeat constructor].
    apply join_visible; [lia|]. apply Forall_fmap. eapply Forall_impl; [exact Hms|]. apply member_visible.
Qed.

Lemma read_lines_concat (events : list (list (list Z * json))) s r :
  Forall (λ ms, ms ≠ [] ∧ Forall member_ok ms) events → read_lines s = Some r →
  read_lines (concat (map json_line events) ++ s) = Some (events ++ r).
Proof.
  intros He Hr. induction He as [|ms events [Hne Hms] _ IH]; [done|]. cbn [map concat]. rewrite <- app_assoc. by apply read_lines_cons.
Qed.
