(* ===== verification/Output.v ===== *)
(** * scanner.zig, utils.zig: what a scan prints

    The lines of a scan, as text and as --json events: what each print writes
    to stdout, byte for byte.  Every event is one JSON object on a line of its
    own ([report_read]; Events.v).  Writing itself, and the lock that
    keeps lines apart, are the callers' (a print is one step of theirs); the
    one number formatted as a float, the seconds of a summary, is a
    parameter. *)
From Stdlib Require Import String.
From S2P Require Import Prelude Words Decimal Ranges Text Json Progress Ports Discovery Results.
Open Scope Z_scope.

(** A literal of a format string, its double quotes written as single
    ones. *)
Definition quoted (s : string) : list Z := map (λ c, if c =? 39 then 34 else c) (text s).

Definition LF : list Z := [10].

(** {s: <width} *)
Definition pad (width : nat) (s : list Z) : list Z := s ++ replicate (width - length s) 32.

(** @tagName *)
Definition phase_name (phase : Phase) : list Z :=
  match phase with
  | phase_ports => text "ports"
  | phase_sweep => text "sweep"
  | phase_arp => text "arp"
  | phase_identify => text "identify"
  end.

Definition source_name (source : HostSource) : list Z :=
  match source with
  | by_tcp => text "tcp"
  | by_arp => text "arp"
  | by_ping => text "ping"
  | by_mdns => text "mdns"
  | by_ssdp => text "ssdp"
  end.

Definition interruptedNote (stopped : bool) : list Z := if stopped then text ", interrupted" else [].

(** ** Events *)

(** Run.advance's event, of the count it claimed. *)
Definition progress_event (phase : Phase) (done total : Z) : list Z :=
  quoted "{'type':'progress','phase':'" ++ phase_name phase ++ quoted "','done':" ++ fmt_usize done
    ++ quoted ",'total':" ++ fmt_usize total ++ quoted "}" ++ LF.

(** Run.advance by one worker that meets no other: the tracker after it, and
    what it prints.  [None] is an overflow.  (Progress.v has its halves in any
    order.) *)
Definition advance (json stream : bool) (t : Tracker) : option (Tracker * list Z) :=
  '(crosses, t) ← tracker_advance t;
  if negb crosses || negb (json && stream) then Some (t, [])
  else
    let '(claimed, t) := claim t in
    Some (t, match claimed, tr_phase t with
             | Some done, Some phase => progress_event phase done (tr_total t)
             | _, _ => []
             end).

(** The buffers of printOpenPort and printDetails. *)
Definition FIELD_BUF : nat := 768.

Definition printOpenPort (service : option Service) (port : Z) (json : bool) : list Z :=
  if json then
    quoted "{'type':'port','port':" ++ fmt_usize port
      ++ quoted ",'service':" ++ jsonStringOrNull FIELD_BUF (sv_name <$> service)
      ++ quoted ",'iana':" ++ jsonStringOrNull FIELD_BUF (service ≫= sv_iana)
      ++ quoted ",'description':" ++ jsonStringOrNull FIELD_BUF (service ≫= sv_description)
      ++ quoted ",'category':" ++ jsonStringOrNull FIELD_BUF (service ≫= sv_category) ++ quoted "}" ++ LF
  else match service with
       | Some s => text "Open port: " ++ fmt_usize port ++ text " (" ++ sv_name s ++ text ")" ++ LF
       | None => text "Open port: " ++ fmt_usize port ++ LF
       end.

Definition printHost (ip : ip4) (source : HostSource) (json : bool) : list Z :=
  if json then
    quoted "{'type':'host','ip':'" ++ formatIp ip ++ quoted "','source':'" ++ source_name source ++ quoted "'}" ++ LF
  else
    let suffix := match source with by_tcp | by_ping => [] | _ => text " (" ++ source_name source ++ text ")" end in
    text "Host " ++ formatIp ip ++ text " is online" ++ suffix ++ LF.

Definition printScanHeader (json : bool) (cidr : list Z) (range : IpRange) : list Z :=
  if json then
    quoted "{'type':'start','mode':'subnet','cidr':'" ++ jsonEscape 128 cidr
      ++ quoted "','first':'" ++ formatIp (range_start range) ++ quoted "','last':'" ++ formatIp (range_end range) ++ quoted "'}" ++ LF
  else
    text "Scanning network: " ++ cidr ++ text " (Range: " ++ formatIp (range_start range) ++ text " - "
      ++ formatIp (range_end range) ++ text ")" ++ LF.

(** neighbor_table.zig: the event that asks the parent. *)
Definition request_event (id : Z) : list Z := quoted "{'type':'neighbors_request','id':" ++ fmt_usize id ++ quoted "}" ++ LF.

(** ** Summaries *)

(** @divTrunc of the nanoseconds. *)
Definition elapsed_ms (elapsed_ns : Z) : Z := Z.quot elapsed_ns 1000000.

Definition printJsonSummary (host_count elapsed_ns : Z) : list Z :=
  quoted "{'type':'summary','hosts':" ++ fmt_usize host_count ++ quoted ",'elapsed_ms':" ++ fmt_i64 (elapsed_ms elapsed_ns) ++ quoted "}" ++ LF.

Section Summaries.
(** {d:.1} of the nanoseconds over a second. *)
Variable seconds : Z → list Z.

(** The closing line of every text summary. *)
Definition closing (count : nat) (noun : list Z) (elapsed_ns : Z) (stopped : bool) : list Z :=
  fmt_usize (Z.of_nat count) ++ text " " ++ noun ++ text " up (" ++ seconds elapsed_ns ++ text "s" ++ interruptedNote stopped ++ text ")" ++ LF.

Definition host_noun (count : nat) : list Z := if (count =? 1)%nat then text "host" else text "hosts".

Definition printSummary (json stopped : bool) (found : list ip4) (elapsed_ns : Z) : list Z :=
  if json then printJsonSummary (Z.of_nat (length found)) elapsed_ns
  else concat (map (λ ip, formatIp ip ++ LF) found) ++ closing (length found) (host_noun (length found)) elapsed_ns stopped.

(** One host's event. *)
Definition detail_event (options : wants) (d : HostDetail) : list Z :=
  quoted "{'type':'host_detail','ip':'" ++ formatIp (hd_ip d) ++ quoted "'"
    ++ (if resolve_hostname options then
          match hd_hostname d with
          | Some h => quoted ",'hostname':'" ++ jsonEscape FIELD_BUF h ++ quoted "'"
          | None => quoted ",'hostname':null"
          end
        else [])
    ++ (if resolve_vendor options then
          match hd_mac d with
          | Some m => quoted ",'mac':'" ++ formatMac m ++ quoted "'"
          | None => quoted ",'mac':null"
          end
          ++ match hd_vendor d with
             | Some v => quoted ",'vendor':'" ++ jsonEscape FIELD_BUF v ++ quoted "'"
             | None => quoted ",'vendor':null"
             end
        else [])
    ++ quoted "}" ++ LF.

Definition dash : list Z := text "-".

(** One host's row, and the head of the table. *)
Definition detail_row (options : wants) (d : HostDetail) : list Z :=
  let ip := pad 17 (formatIp (hd_ip d)) in
  let hostname := default dash (hd_hostname d) in
  let mac := match hd_mac d with Some m => formatMac m | None => dash end in
  let vendor := default dash (hd_vendor d) in
  match resolve_hostname options, resolve_vendor options with
  | true, true => ip ++ pad 26 hostname ++ pad 19 mac ++ vendor ++ LF
  | true, false => ip ++ hostname ++ LF
  | false, true => ip ++ pad 19 mac ++ vendor ++ LF
  | false, false => []
  end.

Definition detail_head (options : wants) : list Z :=
  match resolve_hostname options, resolve_vendor options with
  | true, true => pad 17 (text "IP") ++ pad 26 (text "HOSTNAME") ++ pad 19 (text "MAC") ++ text "MANUFACTURER" ++ LF
  | true, false => pad 17 (text "IP") ++ text "HOSTNAME" ++ LF
  | false, true => pad 17 (text "IP") ++ pad 19 (text "MAC") ++ text "MANUFACTURER" ++ LF
  | false, false => []
  end.

Definition printDetails (json stopped : bool) (options : wants) (details : list HostDetail) (elapsed_ns : Z) : list Z :=
  if json then concat (map (detail_event options) details) ++ printJsonSummary (Z.of_nat (length details)) elapsed_ns
  else
    (if (0 <? length details)%nat then detail_head options ++ concat (map (detail_row options) details) else [])
      ++ closing (length details) (host_noun (length details)) elapsed_ns stopped.

(** The last of a discovery: reportResults' two ways out. *)
Definition printReport (json stopped : bool) (options : wants) (r : Results.report) (elapsed_ns : Z) : list Z :=
  match r with
  | plain ips => printSummary json stopped ips elapsed_ns
  | detailed details => printDetails json stopped options details elapsed_ns
  end.
End Summaries.

(** ** What the events say *)

(** An optional text in a buffer of [cap] bytes with its quotes. *)
Definition field (cap : nat) (s : option (list Z)) : json :=
  match s with None => j_null | Some s => j_string (kept cap s) end.

Definition member (name : string) (v : json) : list Z * json := (text name, v).

Definition progress_members (phase : Phase) (done total : Z) : list (list Z * json) :=
  [member "type" (j_string (text "progress")); member "phase" (j_string (phase_name phase)); member "done" (j_number done); member "total" (j_number total)].

Definition port_members (service : option Service) (port : Z) : list (list Z * json) :=
  [member "type" (j_string (text "port")); member "port" (j_number port); member "service" (field 766 (sv_name <$> service));
   member "iana" (field 766 (service ≫= sv_iana)); member "description" (field 766 (service ≫= sv_description));
   member "category" (field 766 (service ≫= sv_category))].

Definition host_members (ip : ip4) (source : HostSource) : list (list Z * json) :=
  [member "type" (j_string (text "host")); member "ip" (j_string (formatIp ip)); member "source" (j_string (source_name source))].

Definition start_members (cidr : list Z) (range : IpRange) : list (list Z * json) :=
  [member "type" (j_string (text "start")); member "mode" (j_string (text "subnet")); member "cidr" (j_string (kept 128 cidr));
   member "first" (j_string (formatIp (range_start range))); member "last" (j_string (formatIp (range_end range)))].

Definition request_members (id : Z) : list (list Z * json) :=
  [member "type" (j_string (text "neighbors_request")); member "id" (j_number id)].

Definition summary_members (count elapsed_ns : Z) : list (list Z * json) :=
  [member "type" (j_string (text "summary")); member "hosts" (j_number count); member "elapsed_ms" (j_number (elapsed_ms elapsed_ns))].

Definition detail_members (options : wants) (d : HostDetail) : list (list Z * json) :=
  [member "type" (j_string (text "host_detail")); member "ip" (j_string (formatIp (hd_ip d)))]
    ++ (if resolve_hostname options then [member "hostname" (field FIELD_BUF (hd_hostname d))] else [])
    ++ (if resolve_vendor options then
          [member "mac" (match hd_mac d with Some m => j_string (formatMac m) | None => j_null end);
           member "vendor" (field FIELD_BUF (hd_vendor d))]
        else []).

(** *** Each print is the object of its members *)

Lemma fmt_i64_usize v : 0 <= v → fmt_i64 v = fmt_usize v.
Proof. intros Hv. unfold fmt_i64. by rewrite (proj2 (Z.ltb_ge _ _)). Qed.

Lemma fmt_usize_u8 v : is_u8 v → fmt_usize v = fmt_u v.
Proof.
  intros Hv. unfold is_u8 in Hv. assert (canonical (fmt_u v)) as Hc by (apply fmt_u_canonical; lia).
  rewrite <- (fmt_u_value v) at 1 by lia. unfold fmt_usize. apply u_digits_unique; [done| |lia]. rewrite fmt_u_value; simpl; lia.
Qed.

Lemma escaped_phase phase : escaped (phase_name phase) = phase_name phase.
Proof. destruct phase; by vm_compute. Qed.

Lemma escaped_source source : escaped (source_name source) = source_name source.
Proof. destruct source; by vm_compute. Qed.

(** The members' own texts are plain. *)
Lemma member_text_name name v : forallb unescaped (text name) = true → member_text (member name v) = [34] ++ text name ++ [34; 58] ++ value_text v.
Proof. intros Hn. unfold member_text, member. cbn [fst snd]. by rewrite (escaped_plain _ Hn). Qed.

Lemma field_text cap s : (∀ t, s = Some t → bytes t) → jsonStringOrNull (2 + cap) s = value_text (field cap s).
Proof.
  intros Hs. destruct s as [t|]; [|done]. cbn [jsonStringOrNull field value_text]. change (2 + cap <? 2)%nat with false. cbv iota.
  replace (2 + cap - 2)%nat with cap by lia. destruct (kept_prefix cap t (Hs t eq_refl)) as (_ & _ & -> & _). done.
Qed.

Ltac name_members :=
  unfold json_line; cbn [map join]; rewrite !member_text_name by (vm_compute; reflexivity);
  cbn [value_text].

(** Two texts of the same literals and parts. *)
Ltac literals :=
  unfold LF, dash;
  repeat match goal with
    | |- context [text ?s] => let v := eval vm_compute in (text s) in change (text s) with v
    | |- context [quoted ?s] => let v := eval vm_compute in (quoted s) in change (quoted s) with v
    end.

Ltac same_text := literals; repeat (cbn [app]; rewrite <- ?app_assoc); reflexivity.

Lemma progress_line phase done total : 0 <= done → 0 <= total → progress_event phase done total = json_line (progress_members phase done total).
Proof.
  intros Hd Ht. unfold progress_members. name_members. rewrite escaped_phase, !fmt_i64_usize by done.
  rewrite (escaped_plain (text "progress")) by (vm_compute; reflexivity). unfold progress_event.
  generalize (phase_name phase) (fmt_usize done) (fmt_usize total). intros a b c. same_text.
Qed.

Lemma host_line ip source : ip_ok ip → printHost ip source true = json_line (host_members ip source).
Proof.
  intros Hip. unfold host_members. name_members. rewrite escaped_source, escaped_formatIp by done.
  rewrite (escaped_plain (text "host")) by (vm_compute; reflexivity). unfold printHost.
  generalize (formatIp ip) (source_name source). intros a b. same_text.
Qed.

Lemma start_line cidr range : bytes cidr → ip_ok (range_start range) → ip_ok (range_end range) →
  printScanHeader true cidr range = json_line (start_members cidr range).
Proof.
  intros Hc H1 H2. unfold start_members. name_members. rewrite !escaped_formatIp by done.
  rewrite (escaped_plain (text "start")), (escaped_plain (text "subnet")) by (vm_compute; reflexivity).
  unfold printScanHeader. destruct (kept_prefix 128 cidr Hc) as (_ & _ & -> & _).
  generalize (formatIp (range_start range)) (formatIp (range_end range)) (escaped (kept 128 cidr)). intros a b c. same_text.
Qed.

Lemma request_line id : 0 <= id → request_event id = json_line (request_members id).
Proof.
  intros Hi. unfold request_members. name_members. rewrite fmt_i64_usize by done.
  rewrite (escaped_plain (text "neighbors_request")) by (vm_compute; reflexivity). unfold request_event.
  generalize (fmt_usize id). intros a. same_text.
Qed.

Lemma summary_line count elapsed_ns : 0 <= count → printJsonSummary count elapsed_ns = json_line (summary_members count elapsed_ns).
Proof.
  intros Hc. unfold summary_members. name_members. rewrite (fmt_i64_usize count) by done.
  rewrite (escaped_plain (text "summary")) by (vm_compute; reflexivity). unfold printJsonSummary.
  generalize (fmt_usize count) (fmt_i64 (elapsed_ms elapsed_ns)). intros a b. same_text.
Qed.

(** A service's texts are bytes. *)
Definition service_ok (s : Service) : Prop :=
  bytes (sv_name s) ∧ ∀ t, Some t ∈ [sv_iana s; sv_description s; sv_category s] → bytes t.

Lemma port_line service port : 0 <= port → (∀ s, service = Some s → service_ok s) →
  printOpenPort service port true = json_line (port_members service port).
Proof.
  intros Hp Hs. unfold port_members. name_members. rewrite fmt_i64_usize by done.
  rewrite (escaped_plain (text "port")) by (vm_compute; reflexivity). unfold printOpenPort.
  assert (∀ t, Some t ∈ [sv_name <$> service; service ≫= sv_iana; service ≫= sv_description; service ≫= sv_category] → bytes t) as Ht.
  { intros t Ht. destruct service as [s|]; [|repeat (apply elem_of_cons in Ht as [Ht|Ht]; [done|]); by apply not_elem_of_nil in Ht].
    destruct (Hs s eq_refl) as [Hn Ho]. apply elem_of_cons in Ht as [[= ->]|Ht]; [done|by apply Ho]. }
  change FIELD_BUF with (2 + 766)%nat. rewrite !field_text by (intros t Heq; apply Ht; rewrite <- Heq; in_list).
  generalize (fmt_usize port) (value_text (field 766 (sv_name <$> service))) (value_text (field 766 (service ≫= sv_iana)))
    (value_text (field 766 (service ≫= sv_description))) (value_text (field 766 (service ≫= sv_category))).
  intros a b c d e. same_text.
Qed.

(** A detail's texts are bytes. *)
Record texts_ok (d : HostDetail) : Prop := {
  to_ip : ip_ok (hd_ip d);
  to_hostname : ∀ t, hd_hostname d = Some t → bytes t;
  to_mac : ∀ t, hd_mac d = Some t → bytes t;
  to_vendor : ∀ t, hd_vendor d = Some t → bytes t
}.

Lemma detail_line options d : texts_ok d → detail_event options d = json_line (detail_members options d).
Proof.
  intros [Hip Hh Hm Hv]. unfold detail_members, detail_event.
  destruct (resolve_hostname options), (resolve_vendor options); cbn [app]; name_members; rewrite escaped_formatIp by done;
    rewrite (escaped_plain (text "host_detail")) by (vm_compute; reflexivity); generalize (formatIp (hd_ip d)); intros ip.
  all: try (destruct (hd_hostname d) as [h|]; cbn [field value_text]; [destruct (kept_prefix FIELD_BUF h (Hh h eq_refl)) as (_ & _ & -> & _);
    generalize (escaped (kept FIELD_BUF h)); intros name|]).
  all: try (destruct (hd_mac d) as [m|]; cbn [field value_text]; [rewrite escaped_formatMac by (by apply Hm); generalize (formatMac m); intros mac|]).
  all: try (destruct (hd_vendor d) as [v|]; cbn [field value_text]; [destruct (kept_prefix FIELD_BUF v (Hv v eq_refl)) as (_ & _ & -> & _);
    generalize (escaped (kept FIELD_BUF v)); intros vendor|]).
  all: unfold NULL; same_text.
Qed.

(** The members are printable. *)
Lemma bytes_literal s : forallb (λ c, (0 <=? c) && (c <? 256)) s = true → bytes s.
Proof. intros Hs. rewrite forallb_forall in Hs. apply Forall_forall. intros c Hc%list_elem_of_In%Hs. to_prop. by split. Qed.

Lemma formatIp_bytes ip : ip_ok ip → bytes (formatIp ip).
Proof.
  intros (Ha & Hb & Hc & Hd)%ip_ok_bytes. unfold formatIp, is_u8 in *.
  assert (∀ v, 0 <= v → bytes (fmt_u v)) as Hv.
  { intros v Hv. eapply Forall_impl; [by apply fmt_u_digits|]. unfold is_digit, is_u8. lia. }
  unfold bytes in *. rewrite !Forall_app. split_and!; try (apply Hv; lia); by apply bytes_literal.
Qed.

Lemma formatMac_bytes mac : bytes mac → bytes (formatMac mac).
Proof.
  assert (∀ b, is_u8 b → bytes (hex2 b)) as H2.
  { intros b Hb. apply bytes_literal. exact (all_bytes (λ c, forallb (λ c, (0 <=? c) && (c <? 256)) (hex2 c)) ltac:(by vm_compute) b Hb). }
  assert (∀ mac, bytes mac → bytes (colon_hex mac)) as Hc.
  { induction 1 as [|b m Hb _ IH]; [constructor|]. cbn [colon_hex]. apply bytes_app; [by apply bytes_literal|]. apply bytes_app; [by apply H2|done]. }
  intros Hm. destruct Hm as [|b m Hb Hm]; [constructor|]. cbn [formatMac]. apply bytes_app; [by apply H2|by apply Hc].
Qed.

Lemma field_ok cap s : (∀ t, s = Some t → bytes t) → json_ok (field cap s).
Proof. intros Hs. destruct s as [t|]; [|done]. by apply kept_bytes, Hs. Qed.

Lemma member_name_ok (m : list Z * json) : forallb (λ c, (0 <=? c) && (c <? 256)) m.1 = true → json_ok m.2 → member_ok m.
Proof. intros Hm Hv. split; [by apply bytes_literal|done]. Qed.

Ltac members_ok :=
  repeat (apply Forall_cons; split; [apply member_name_ok; [vm_compute; reflexivity|cbn [snd member json_ok];
    try match goal with |- bytes (text _) => apply bytes_literal; vm_compute; reflexivity end]|]);
  try apply Forall_nil_2.

Lemma u64_in_range v : is_u64 v → in_range v.
Proof. unfold is_u64, in_range. lia. Qed.

#[local] Hint Resolve u64_in_range formatIp_bytes formatMac_bytes : netscan.

Lemma summary_ok count elapsed_ns : is_u64 count → in_range (elapsed_ms elapsed_ns) → Forall member_ok (summary_members count elapsed_ns).
Proof. intros Hc He. unfold summary_members. members_ok; eauto with netscan. Qed.

Lemma detail_ok options d : texts_ok d → detail_members options d ≠ [] ∧ Forall member_ok (detail_members options d).
Proof.
  intros [Hip Hh Hm Hv]. split; [done|]. unfold detail_members. repeat apply Forall_app_2.
  - members_ok. by apply formatIp_bytes.
  - destruct (resolve_hostname options); [|constructor]. members_ok. by apply field_ok.
  - destruct (resolve_vendor options); [|constructor]. members_ok; [|by apply field_ok].
    destruct (hd_mac d) as [m|]; [|done]. by apply formatMac_bytes, Hm.
Qed.

Lemma progress_ok phase done total : is_u64 done → is_u64 total → Forall member_ok (progress_members phase done total).
Proof. intros Hd Ht. unfold progress_members. members_ok; eauto with netscan. destruct phase; by apply bytes_literal. Qed.

Lemma port_ok service port : 0 <= port < 65536 → (∀ s, service = Some s → service_ok s) → Forall member_ok (port_members service port).
Proof.
  intros Hp Hs. unfold port_members. members_ok; [unfold in_range; lia|..]; apply field_ok; intros t Ht;
    (destruct service as [s|]; [|done]); destruct (Hs s eq_refl) as [Hn Ho]; cbn in Ht;
    first [by injection Ht as <- | apply Ho; rewrite <- Ht; in_list].
Qed.

Lemma host_ok ip source : ip_ok ip → Forall member_ok (host_members ip source).
Proof. intros Hip. unfold host_members. members_ok; [by apply formatIp_bytes|]. destruct source; by apply bytes_literal. Qed.

Lemma start_ok cidr range : bytes cidr → ip_ok (range_start range) → ip_ok (range_end range) → Forall member_ok (start_members cidr range).
Proof. intros. unfold start_members. members_ok; [by apply kept_bytes|by apply formatIp_bytes..]. Qed.

Lemma request_ok id : is_u64 id → Forall member_ok (request_members id).
Proof. intros Hi. unfold request_members. members_ok. by apply u64_in_range. Qed.

(** The report of a --json scan.  Read line by line, it is one object per
    host, in the report's order, with the fields that were asked for, null
    where nothing is known, and last the summary with the number of hosts;
    without details, the summary alone. *)
Lemma report_read seconds stopped options r elapsed_ns :
  (∀ ips, r = plain ips → is_u64 (Z.of_nat (length ips))) →
  (∀ details, r = detailed details → is_u64 (Z.of_nat (length details)) ∧ Forall texts_ok details) →
  in_range (elapsed_ms elapsed_ns) →
  read_lines (printReport seconds true stopped options r elapsed_ns) =
    Some (match r with
          | plain ips => [summary_members (Z.of_nat (length ips)) elapsed_ns]
          | detailed details => map (detail_members options) details ++ [summary_members (Z.of_nat (length details)) elapsed_ns]
          end).
Proof.
  intros Hp Hd He.
  assert (∀ n, is_u64 n → read_lines (printJsonSummary n elapsed_ns) = Some [summary_members n elapsed_ns]) as Hsum.
  { intros n Hn. rewrite summary_line by (unfold is_u64 in *; lia). rewrite <- (app_nil_r (json_line _)).
    rewrite (read_lines_cons (summary_members n elapsed_ns) [] []); [done|done|by apply summary_ok|done]. }
  destruct r as [ips|details]; simpl; [by apply Hsum, Hp|]. destruct (Hd details eq_refl) as [Hn Ht].
  assert (concat (map (detail_event options) details) = concat (map json_line (map (detail_members options) details))) as ->.
  { f_equal. rewrite map_map. apply map_ext_in. intros d Hin. apply detail_line. by eapply Forall_forall in Ht; [|apply list_elem_of_In]. }
  apply read_lines_concat; [|by apply Hsum]. apply Forall_fmap. eapply Forall_impl; [exact Ht|]. intros d Hok. by apply detail_ok.
Qed.

(** A host with a name and an address, its vendor unknown. *)
Lemma sample_report :
  let router := {| hd_ip := IP 192 168 1 1; hd_hostname := Some (text "router"); hd_mac := Some [0; 17; 34; 51; 68; 255]; hd_vendor := None |} in
  let both := {| resolve_hostname := true; resolve_vendor := true |} in
  printReport (λ _, []) true false both (detailed [router]) 1234567890 =
    quoted "{'type':'host_detail','ip':'192.168.1.1','hostname':'router','mac':'00:11:22:33:44:ff','vendor':null}" ++ [10]
      ++ quoted "{'type':'summary','hosts':1,'elapsed_ms':1234}" ++ [10] ∧
  read_lines (printReport (λ _, []) true false both (detailed [router]) 1234567890) =
    Some (map (detail_members both) [router] ++ [summary_members 1 1234567890]).
Proof.
  intros router both. split; [by vm_compute|]. apply (report_read (λ _, []) false both (detailed [router]) 1234567890).
  - done.
  - intros details [= <-]. split; [by vm_compute|]. apply Forall_singleton.
    split; simpl; [by apply bytes_literal|..]; intros t; [intros [= <-]|intros [= <-]|done]; by apply bytes_literal.
  - by vm_compute.
Qed.
