(* ===== verification/Streams.v ===== *)
(** * scanner.zig: what a discovery prints while it runs

    The workers of a discovery print as they go: reportHost each new host,
    Run.advance the progress, Parent.request its request.  A run is a list of
    steps, in the order in which they take effect ([emit]); [emit_step] is
    what each does to what the workers share, and what it prints.  The steps of
    the two scans are those of Scan.v with the phases started and the requests
    made where the code does so ([network_emits], [ping_emits]).  From them
    follow the events of a --json scan ([emitted_events]). *)
From Stdlib Require Import String.
From stdpp Require Import countable gmap sorting relations.
From S2P Require Import Prelude Words Decimal Ranges Text Json Targets Sys Shared Progress Discovery Harvest Results Warnings Scan Output.
Open Scope Z_scope.

(** ** Steps *)

(** An operation on the discovery; the second half of Run.advance, for a
    worker whose unit moved the percentage; startPhase; a request to the
    parent. *)
Inductive emit := e_act (a : act) | e_claim | e_phase (phase : Phase) (total : Z) | e_request (id : Z).

Definition act_of (e : emit) : option act := match e with e_act a => Some a | _ => None end.
Definition is_claim (e : emit) : bool := match e with e_claim => true | _ => false end.

(** What the workers share, and how many of them are between the halves of
    Run.advance. *)
Record emitter := { em_found : Discovery; em_tracker : Tracker; em_claiming : nat }.

Definition emitter_start : emitter := {| em_found := nothing_found; em_tracker := fresh_tracker; em_claiming := 0 |}.

Section Emit.
Variables (json stream : bool).

(** reportHost, whole: it holds the list's lock while it prints. *)
Definition emit_report (ip : ip4) (source : HostSource) (room : bool) (m : emitter) : emitter * list Z :=
  let d := reportHost room ip source (em_found m) in
  if containsIp (dv_found (em_found m)) ip || negb room then
    ({| em_found := d; em_tracker := em_tracker m; em_claiming := em_claiming m |}, [])
  else
    ({| em_found := d; em_tracker := tracker_addFound (em_tracker m); em_claiming := em_claiming m |},
     if stream then printHost ip source json else []).

(** A step, and what it prints.  [None]: an overflow, a read of something
    else, a claim by nobody, or a phase begun before the workers of the last
    one were joined. *)
Definition emit_step (e : emit) (m : emitter) : option (emitter * list Z) :=
  match e with
  | e_act (a_report ip source room) => Some (emit_report ip source room m)
  | e_act a_advance =>
    '(crosses, t) ← tracker_advance (em_tracker m);
    Some ({| em_found := em_found m; em_tracker := t;
             em_claiming := if negb crosses || negb (json && stream) then em_claiming m else S (em_claiming m) |}, [])
  | e_act a =>
    d ← perform a (em_found m);
    Some ({| em_found := d; em_tracker := em_tracker m; em_claiming := em_claiming m |}, [])
  | e_claim =>
    match em_claiming m with
    | O => None
    | S n =>
      let '(claimed, t) := claim (em_tracker m) in
      Some ({| em_found := em_found m; em_tracker := t; em_claiming := n |},
            match claimed, tr_phase t with
            | Some done, Some phase => progress_event phase done (tr_total t)
            | _, _ => []
            end)
    end
  | e_phase phase total =>
    match em_claiming m with
    | O => Some ({| em_found := em_found m; em_tracker := startPhase phase total (em_tracker m); em_claiming := 0 |}, [])
    | S _ => None
    end
  | e_request id => Some (m, request_event id)
  end.

Fixpoint emit_all (es : list emit) (m : emitter) : option (emitter * list Z) :=
  match es with
  | [] => Some (m, [])
  | e :: es => '(m, out) ← emit_step e m; '(m, rest) ← emit_all es m; Some (m, out ++ rest)
  end.
End Emit.

(** ** The steps of the scans *)

Definition length_phase {A} (phase : Phase) (l : list A) : emit := e_phase phase (Z.of_nat (length l)).

(** resolveHostnames, in the report: [units] lookups counted. *)
Definition identify_emits (options : wants) (r : Results.report) (units : nat) : list emit :=
  match r with
  | detailed (d :: details) =>
    if resolve_hostname options then length_phase phase_identify (d :: details) :: replicate units (e_act a_advance) else []
  | _ => []
  end.

(** scanNetwork between the listener's start and its end, and harvestArp in
    it: the steps of the thread that scans and of the workers it waits
    for. *)
Definition main_emits (s : Scan) : list emit :=
  map e_request (sn_requests s).1 ++
  length_phase phase_sweep (sn_targets s) :: map e_act (sn_sweep_acts s) ++
  e_phase phase_arp 0 :: map e_request (sn_requests s).2 ++ map e_act (sn_harvest_acts s) ++
  match sn_second s with
  | Some (candidates, more, _) => length_phase phase_arp candidates :: map e_act more
  | None => []
  end.

(** scanNetwork: the listener's steps come anywhere between the others, its
    operations in the scan's order; then the report.  Claims come
    anywhere. *)
Inductive network_emits (options : wants) (s : Scan) : list emit → Prop :=
| scan_emits m es :
    merged [map e_act (sn_heard_acts s); main_emits s] m → omap act_of m = sn_acts s →
    filter (λ e, negb (is_claim e)) es = m ++ identify_emits options (sn_report s) (sn_counted s) →
    network_emits options s es.

(** The pings of a scan that was to ping [targets]. *)
Definition pings_emits (targets : list ip4) (acts : list act) : list emit := length_phase phase_sweep targets :: map e_act acts.

(** scanNetworkPing *)
Inductive ping_emits (options : wants) (s : PingScan) : list emit → Prop :=
| pings_emit es :
    filter (λ e, negb (is_claim e)) es =
      pings_emits (ps_targets s) (ping_acts (ps_room s) (ps_targets s) (ps_calls s)) ++
      map e_request (ps_requests s) ++ map e_act (ps_mac_acts s) ++ identify_emits options (ps_report s) (ps_counted s) →
    ping_emits options s es.

(** What steps from the start print, once every worker is joined. *)
Definition prints (json stream : bool) (es : list emit) (out : list Z) : Prop :=
  ∃ m, emit_all json stream es emitter_start = Some (m, out) ∧ em_claiming m = 0%nat.

(** ** Events *)

(** An event of a subnet scan. *)
Inductive subnet_event := se_host (ip : ip4) (source : HostSource) | se_progress (phase : Phase) (done total : Z) | se_request (id : Z).

Definition subnet_members (e : subnet_event) : list (list Z * json) :=
  match e with
  | se_host ip source => host_members ip source
  | se_progress phase done total => progress_members phase done total
  | se_request id => request_members id
  end.

Definition event_host (e : subnet_event) : option (ip4 * HostSource) := match e with se_host ip source => Some (ip, source) | _ => None end.
Definition event_progress (e : subnet_event) : option (Phase * Z * Z) := match e with se_progress phase done total => Some (phase, done, total) | _ => None end.
Definition event_request (e : subnet_event) : option Z := match e with se_request id => Some id | _ => None end.

(** The hosts reported while there was room, each where it was reported
    first. *)
Fixpoint first_reports (seen : list ip4) (acts : list act) : list (ip4 * HostSource) :=
  match acts with
  | [] => []
  | a_report ip source true :: acts =>
    if bool_decide (ip ∈ seen) then first_reports seen acts else (ip, source) :: first_reports (seen ++ [ip]) acts
  | _ :: acts => first_reports seen acts
  end.

(** The phases of a run: their totals, and the units counted in them. *)
Record phase_run := { pr_phase : Phase; pr_total : Z; pr_units : nat }.

Definition one_more (p : phase_run) : phase_run := {| pr_phase := pr_phase p; pr_total := pr_total p; pr_units := S (pr_units p) |}.

Fixpoint phases_from (current : option phase_run) (es : list emit) : list phase_run :=
  match es with
  | [] => option_list current
  | e_phase phase total :: es => option_list current ++ phases_from (Some {| pr_phase := phase; pr_total := total; pr_units := 0 |}) es
  | e_act a_advance :: es => phases_from (one_more <$> current) es
  | _ :: es => phases_from current es
  end.

Definition request_of (e : emit) : option Z := match e with e_request id => Some id | _ => None end.

(** The counts a phase prints: they increase, each within the phase and the
    units counted, at most 100 of them; the total is the last once every unit
    is counted. *)
Record counts_of (p : phase_run) (counts : list Z) : Prop := {
  co_sorted : StronglySorted Z.lt counts;
  co_range : Forall (λ k, 0 < k <= Z.min (Z.of_nat (pr_units p)) (pr_total p)) counts;
  co_few : Z.of_nat (length counts) <= Z.min 100 (pr_total p);
  co_last : 0 < pr_total p <= Z.of_nat (pr_units p) → last counts = Some (pr_total p)
}.

Definition tagged (p : phase_run) (counts : list Z) : list (Phase * Z * Z) := map (λ k, (pr_phase p, k, pr_total p)) counts.

Definition acts_phase (phase : Phase) (total : nat) (acts : list act) : phase_run :=
  {| pr_phase := phase; pr_total := Z.of_nat total; pr_units := counted acts |}.

(** The name lookups of a report: a phase of their own, if there are any. *)
Definition identify_phases (options : wants) (r : Results.report) (units : nat) : list phase_run :=
  match r with
  | detailed (d :: details) =>
    if resolve_hostname options then [{| pr_phase := phase_identify; pr_total := Z.of_nat (length (d :: details)); pr_units := units |}] else []
  | _ => []
  end.

(** The phases of scanNetwork: the targets; the table, of no size; the
    candidates, if any were to be confirmed; the names. *)
Definition network_phases (options : wants) (s : Scan) : list phase_run :=
  acts_phase phase_sweep (length (sn_targets s)) (sn_sweep_acts s) ::
  acts_phase phase_arp 0 (sn_harvest_acts s) ::
  match sn_second s with Some (candidates, more, _) => [acts_phase phase_arp (length candidates) more] | None => [] end ++
  identify_phases options (sn_report s) (sn_counted s).

(** Those of scanNetworkPing. *)
Definition ping_phases (options : wants) (s : PingScan) : list phase_run :=
  acts_phase phase_sweep (length (ps_targets s)) (ping_acts (ps_room s) (ps_targets s) (ps_calls s)) ::
  identify_phases options (ps_report s) (ps_counted s).

(** Phases whose totals the tracker can take. *)
Definition fits_tracker (p : phase_run) : Prop :=
  0 <= pr_total p ∧ pr_total p * 100 < 18446744073709551616.

(** ** The events of a run *)

Lemma first_reports_app acts acts' : ∀ seen,
  first_reports seen (acts ++ acts') = first_reports seen acts ++ first_reports (seen ++ (first_reports seen acts).*1) acts'.
Proof.
  induction acts as [|a acts IH]; intros seen; cbn [app first_reports]; [by rewrite app_nil_r|].
  destruct a as [ip source []| | | |]; try apply IH. case_bool_decide; [apply IH|]. cbn [app fmap list_fmap fst]. by rewrite IH, <- app_assoc.
Qed.

Lemma first_reports_elem ip source acts : ∀ seen, (ip, source) ∈ first_reports seen acts → a_report ip source true ∈ acts.
Proof.
  induction acts as [|a acts IH]; intros seen Hin; cbn [first_reports] in Hin; [by apply not_elem_of_nil in Hin|].
  destruct a as [ip' source' []| | | |]; try (apply list_elem_of_further; by eapply IH). case_bool_decide; [apply list_elem_of_further; by eapply IH|].
  apply elem_of_cons in Hin as [[= <- <-]|Hin]; [apply list_elem_of_here|apply list_elem_of_further; by eapply IH].
Qed.

(** What a discovery has printed. *)
Lemma perform_prints a d d' : perform a d = Some d' → dv_printed d' = dv_printed d ++ first_reports (dv_found d) [a] ∧ 
  dv_found d' = dv_found d ++ (first_reports (dv_found d) [a]).*1.
Proof.
  intros Hp. destruct a as [ip source room|ip found|ip mac room|ip name er cr|]; simpl in Hp; simplify_eq; simpl; rewrite ?app_nil_r; try done.
  - unfold reportHost. destruct (containsIp (dv_found d) ip) eqn:Hin; destruct room; simpl; rewrite ?app_nil_r; try done.
    + apply containsIp_elem in Hin. rewrite bool_decide_true by done. by rewrite !app_nil_r.
    + rewrite bool_decide_false; [done|]. intros Hx%containsIp_elem. congruence.
  - case_match; by simplify_eq.
  - unfold recordMac. by destruct room.
  - unfold put_name. repeat case_match; done.
Qed.

Lemma perform_all_prints acts : ∀ d d', perform_all acts d = Some d' → dv_printed d' = dv_printed d ++ first_reports (dv_found d) acts.
Proof.
  induction acts as [|a acts IH]; intros d d' Hp; cbn [perform_all] in Hp; [simplify_eq; by rewrite app_nil_r|].
  apply bind_Some in Hp as (d1 & H1 & Hp). destruct (perform_prints _ _ _ H1) as [Hpr Hfd]. rewrite (IH _ _ Hp), Hpr, Hfd.
  change (a :: acts) with ([a] ++ acts). by rewrite first_reports_app, app_assoc.
Qed.

(** The steps' operations are the discovery's. *)
Lemma emit_step_found json stream e m m' out : emit_step json stream e m = Some (m', out) →
  perform_all match act_of e with Some a => [a] | None => [] end (em_found m) = Some (em_found m').
Proof.
  intros Hs. destruct e as [[ip source room|ip found|ip mac room|ip name er cr|]| |phase total|id];
    cbn [emit_step act_of perform_all] in Hs |- *.
  - unfold emit_report in Hs. by destruct (_ || _); injection Hs as <- _.
  - apply bind_Some in Hs as (d & -> & [= <- _]). done.
  - by injection Hs as <- _.
  - by injection Hs as <- _.
  - apply bind_Some in Hs as ([crosses t] & _ & [= <- _]). done.
  - destruct (em_claiming m); [done|]. destruct (claim _). by injection Hs as <- _.
  - destruct (em_claiming m); [|done]. by injection Hs as <- _.
  - by injection Hs as <- _.
Qed.

Lemma perform_all_app acts acts' d d1 d' : perform_all acts d = Some d1 → perform_all acts' d1 = Some d' → perform_all (acts ++ acts') d = Some d'.
Proof.
  revert d. induction acts as [|a acts IH]; intros d H1 H2; cbn [app perform_all] in *; [by simplify_eq|].
  apply bind_Some in H1 as (d2 & Ha & H1). rewrite Ha. by apply IH.
Qed.

Lemma emit_all_found json stream es : ∀ m m' out, emit_all json stream es m = Some (m', out) →
  perform_all (omap act_of es) (em_found m) = Some (em_found m').
Proof.
  induction es as [|e es IH]; intros m m' out Hs; cbn [emit_all] in Hs; [by injection Hs as <- _|].
  apply bind_Some in Hs as ([m1 o1] & H1 & Hs). apply bind_Some in Hs as ([m2 o2] & H2 & [= <- _]).
  change (e :: es) with ([e] ++ es). rewrite omap_app. eapply perform_all_app; [|by eapply IH].
  apply emit_step_found in H1. cbn in H1 |- *. by destruct (act_of e).
Qed.

(** Where a run stands in its phase: [printed] are the counts out. *)
Definition at_phase (current : option phase_run) (m : emitter) (printed : list Z) : Prop :=
  match current with
  | None => tr_phase (em_tracker m) = None ∧ tr_total (em_tracker m) = 0 ∧ em_claiming m = 0%nat ∧ printed = []
  | Some p => tr_phase (em_tracker m) = Some (pr_phase p) ∧ tr_done (em_tracker m) = Z.of_nat (pr_units p) ∧
              events_ok (pr_total p) (em_tracker m, em_claiming m, printed)
  end.

Definition tagged_now (current : option phase_run) (counts : list Z) : list (Phase * Z * Z) :=
  match current with Some p => tagged p counts | None => [] end.

Lemma tagged_app p a b : tagged p (a ++ b) = tagged p a ++ tagged p b.
Proof. apply map_app. Qed.

(** A phase that is over has printed the counts it should. *)
Lemma phase_done p m printed : fits_tracker p → em_claiming m = 0%nat → at_phase (Some p) m printed → counts_of p printed.
Proof.
  intros [Ht Hf] Hc (_ & Hd & Hok). rewrite Hc in Hok. destruct (events_done (pr_total p) Ht Hf _ _ Hok) as (H1 & H2 & H3 & H4).
  rewrite Hd in *. split; done.
Qed.

Lemma phases_head p es : ∃ q rest, phases_from (Some p) es = q :: rest ∧ pr_total q = pr_total p.
Proof.
  revert p. induction es as [|e es IH]; intros p; cbn [phases_from option_list]; [by eexists _, []|].
  destruct e as [[]| | |]; try apply IH; [exact (IH (one_more p))|by eexists _, _].
Qed.

(** One step that begins no phase. *)
Lemma emit_event e current m printed m' out :
  emit_step true true e m = Some (m', out) → (∀ phase total, e ≠ e_phase phase total) →
  at_phase current m printed → (∀ p, current = Some p → fits_tracker p) →
  (∀ ip source, (ip, source) ∈ first_reports (dv_found (em_found m)) (option_list (act_of e)) → ip_ok ip) → Forall is_u64 (option_list (request_of e)) →
  ∃ events, out = concat (map json_line (map subnet_members events)) ∧
    omap event_host events = first_reports (dv_found (em_found m)) (option_list (act_of e)) ∧
    omap event_request events = option_list (request_of e) ∧
    at_phase (match e with e_act a_advance => one_more <$> current | _ => current end) m' (printed ++ map (λ x, x.1.2) (omap event_progress events)) ∧
    omap event_progress events = tagged_now current (map (λ x, x.1.2) (omap event_progress events)) ∧
    Forall (λ e, subnet_members e ≠ [] ∧ Forall member_ok (subnet_members e)) events.
Proof.
  intros Hs Hno Hat Hfit Hip Hreq.
  assert (∀ m2, em_tracker m2 = em_tracker m → em_claiming m2 = em_claiming m → at_phase current m2 (printed ++ [])) as Hstay.
  { intros m2 H1 H2. rewrite app_nil_r. unfold at_phase. by rewrite H1, H2. }
  assert (∀ current' m2, out = [] → omap event_host (@nil subnet_event) = first_reports (dv_found (em_found m)) (option_list (act_of e)) →
    [] = option_list (request_of e) → at_phase current' m2 (printed ++ []) →
    ∃ events, out = concat (map json_line (map subnet_members events)) ∧
    omap event_host events = first_reports (dv_found (em_found m)) (option_list (act_of e)) ∧
    omap event_request events = option_list (request_of e) ∧
    at_phase current' m2 (printed ++ map (λ x, x.1.2) (omap event_progress events)) ∧
    omap event_progress events = tagged_now current (map (λ x, x.1.2) (omap event_progress events)) ∧
    Forall (λ e, subnet_members e ≠ [] ∧ Forall member_ok (subnet_members e)) events) as Hsilent.
  { intros current' m2 -> Hh Hr Ha. exists []. split_and!; try done. by destruct current. }
  destruct e as [[ip source room|ip found|ip mac room|ip name er cr|]| |phase total|id].
  - cbn [emit_step] in Hs. unfold emit_report in Hs. destruct (containsIp _ ip || negb room) eqn:Hin; injection Hs as <- <-.
    { apply Hsilent; [done| |done|by apply Hstay]. cbn. destruct room; [|done]. rewrite orb_false_r in Hin.
      apply containsIp_elem in Hin. by rewrite bool_decide_true. }
    apply orb_false_iff in Hin as [Hin Hr%negb_false_iff]. subst room.
    assert (first_reports (dv_found (em_found m)) (option_list (act_of (e_act (a_report ip source true)))) = [(ip, source)]) as Hnew.
    { cbn. rewrite bool_decide_false; [done|]. intros Hx%containsIp_elem. congruence. }
    assert (ip_ok ip) as Hipok by (apply (Hip ip source); rewrite Hnew; apply list_elem_of_here).
    exists [se_host ip source]. cbn [map concat subnet_members]. rewrite app_nil_r. split; [by apply host_line|]. split; [done|].
    split; [done|]. split.
    { cbn. rewrite app_nil_r. unfold at_phase in *. destruct current as [p|]; [|exact Hat]. destruct Hat as (H1 & H2 & H3).
      split; [done|]. split; [done|]. destruct H3; by split. }
    split; [by destruct current|]. apply Forall_singleton. split; [done|]. by apply host_ok.
  - apply bind_Some in Hs as (d & _ & [= <- <-]). by apply Hsilent; [| | |apply Hstay].
  - apply bind_Some in Hs as (d & _ & [= <- <-]). by apply Hsilent; [| | |apply Hstay].
  - apply bind_Some in Hs as (d & _ & [= <- <-]). by apply Hsilent; [| | |apply Hstay].
  - apply bind_Some in Hs as ([crosses t] & Ha & [= <- <-]). apply Hsilent; [done..|]. rewrite app_nil_r.
    destruct current as [p|]; unfold at_phase in *; cbn [fmap option_fmap option_map em_tracker em_claiming].
    + destruct Hat as (H1 & H2 & H3). destruct (Hfit p eq_refl) as [Ht Hf].
      pose proof (counts_ok (pr_total p) Ht Hf _ _ _ _ _ Ha H3) as Hok. unfold tracker_advance in Ha.
      apply bind_Some in Ha as (done & Hz & Ha). apply fits_inv in Hz as [-> Hz]. apply bind_Some in Ha as (cr & _ & [= -> <-]).
      split; [done|]. split; [cbn; rewrite u64_id by done; lia|]. by destruct crosses.
    + destruct Hat as (H1 & H2 & H3 & ->). unfold tracker_advance in Ha. apply bind_Some in Ha as (done & _ & Ha).
      rewrite H2 in Ha. cbn in Ha. injection Ha as <- <-. by split_and!.
  - cbn [emit_step] in Hs. destruct (em_claiming m) as [|n] eqn:Hn; [done|]. destruct (claim (em_tracker m)) as [claimed t] eqn:Hc.
    destruct current as [p|]; [|destruct Hat as (_ & _ & Hz & _); congruence]. destruct Hat as (H1 & H2 & H3). rewrite Hn in H3.
    destruct (Hfit p eq_refl) as [Ht Hf]. pose proof (claim_ok (pr_total p) _ _ _ _ _ Hc H3) as Hok.
    assert (tr_phase t = Some (pr_phase p) ∧ tr_done t = Z.of_nat (pr_units p)) as [Hph Hd].
    { unfold claim in Hc. destruct (_ <=? _); by simplify_eq. }
    rewrite Hph in Hs. pose proof (ev_total _ _ Hok) as Htot. cbn [fst snd] in Htot. rewrite Htot in Hs.
    destruct claimed as [k|]; injection Hs as <- <-; [|by apply Hsilent].
    assert (0 < k <= pr_total p) as Hk.
    { pose proof (ev_range _ _ Hok) as Hr. simpl in Hr. apply Forall_app in Hr as [_ Hr]. apply Forall_inv in Hr. simpl in Hr. lia. }
    exists [se_progress (pr_phase p) k (pr_total p)]. cbn [map concat subnet_members]. rewrite app_nil_r.
    split; [apply progress_line; lia|]. split; [done|]. split; [done|]. split; [by split_and!|]. split; [done|].
    apply Forall_singleton. split; [done|]. apply progress_ok; unfold is_u64; lia.
  - by destruct (Hno phase total).
  - injection Hs as <- <-. assert (is_u64 id) as Hid by exact (Forall_inv Hreq). exists [se_request id]. cbn [map concat subnet_members]. rewrite app_nil_r.
    split; [apply request_line; unfold is_u64 in *; lia|]. split; [done|]. split; [done|]. split; [by apply Hstay|].
    split; [by destruct current|]. apply Forall_singleton. split; [done|]. by apply request_ok.
Qed.

Definition current_after (e : emit) (current : option phase_run) : option phase_run :=
  match e with e_act a_advance => one_more <$> current | _ => current end.

Lemma phases_step e current es : (∀ phase total, e ≠ e_phase phase total) → phases_from current (e :: es) = phases_from (current_after e current) es.
Proof. intros Hno. destruct e as [[]| |phase total|]; try done. by destruct (Hno phase total). Qed.

Lemma tagged_after e current counts : tagged_now (current_after e current) counts = tagged_now current counts.
Proof. destruct e as [[]| | |], current; done. Qed.

Lemma tagged_now_app current a b : tagged_now current (a ++ b) = tagged_now current a ++ tagged_now current b.
Proof. destruct current; [apply tagged_app|done]. Qed.

Lemma option_list_omap {A B} (f : A → option B) x l : omap f (x :: l) = option_list (f x) ++ omap f l.
Proof. cbn. by destruct (f x). Qed.

Lemma phase_step_events m m' out phase total : emit_step true true (e_phase phase total) m = Some (m', out) → 0 <= total → total * 100 < 18446744073709551616 →
  em_claiming m = 0%nat ∧ out = [] ∧ em_found m' = em_found m ∧ at_phase (Some {| pr_phase := phase; pr_total := total; pr_units := 0 |}) m' [].
Proof.
  intros Hs H0 Hf. cbn [emit_step] in Hs. destruct (em_claiming m) eqn:Hc; [|done]. injection Hs as <- <-.
  split; [done|]. split; [done|]. split; [done|]. split; [done|]. split; [done|]. by apply events_start.
Qed.

Lemma emit_all_events es : ∀ current m printed m' out,
  emit_all true true es m = Some (m', out) → em_claiming m' = 0%nat → at_phase current m printed →
  Forall fits_tracker (phases_from current es) →
  (∀ ip source, (ip, source) ∈ first_reports (dv_found (em_found m)) (omap act_of es) → ip_ok ip) → Forall is_u64 (omap request_of es) →
  ∃ events counts, out = concat (map json_line (map subnet_members events)) ∧
    omap event_host events = first_reports (dv_found (em_found m)) (omap act_of es) ∧
    omap event_request events = omap request_of es ∧
    Forall2 counts_of (phases_from current es) counts ∧
    tagged_now current printed ++ omap event_progress events = concat (zip_with tagged (phases_from current es) counts) ∧
    Forall (λ e, subnet_members e ≠ [] ∧ Forall member_ok (subnet_members e)) events.
Proof.
  induction es as [|e es IH]; intros current m printed m' out Hs Hend Hat Hfit Hip Hreq.
  { injection Hs as <- <-. exists []. destruct current as [p|]; [exists [printed]|by exists []]. split; [done|]. split; [done|]. split; [done|].
    split; [|by cbn]. apply Forall_inv in Hfit. constructor; [|constructor]. eapply phase_done; [exact Hfit|exact Hend|exact Hat]. }
  cbn [emit_all] in Hs. apply bind_Some in Hs as ([m1 o1] & H1 & Hs). apply bind_Some in Hs as ([m2 o2] & H2 & [= <- <-]).
  rewrite (option_list_omap act_of), first_reports_app in Hip. rewrite (option_list_omap request_of) in Hreq. apply Forall_app in Hreq as [Hreq1 Hreq2].
  assert (dv_found (em_found m1) = dv_found (em_found m) ++ (first_reports (dv_found (em_found m)) (option_list (act_of e))).*1) as Hfound.
  { apply emit_step_found in H1. destruct (act_of e) as [a|]; cbn [perform_all] in H1.
    - apply bind_Some in H1 as (d & H1 & [= ->]). by apply perform_prints.
    - injection H1 as <-. cbn. by rewrite app_nil_r. }
  assert (∀ ip source, (ip, source) ∈ first_reports (dv_found (em_found m1)) (omap act_of es) → ip_ok ip) as Hip2
    by (intros ip source Hin; eapply Hip, elem_of_app; right; by rewrite <- Hfound).
  assert ((∃ phase total, e = e_phase phase total) ∨ ∀ phase total, e ≠ e_phase phase total) as [(phase & total & ->)|Hne]
    by (destruct e as [| |phase total|]; [by right|by right|left; by exists phase, total|by right]).
  - cbn [phases_from] in *. apply Forall_app in Hfit as [Hfit1 Hfit2].
    destruct (phases_head {| pr_phase := phase; pr_total := total; pr_units := 0 |} es) as (q & rest & Hq & Hqt).
    assert (fits_tracker q) as [Hq0 Hqf] by (rewrite Hq in Hfit2; by apply Forall_inv in Hfit2). rewrite Hqt in Hq0, Hqf. cbn in Hq0, Hqf.
    destruct (phase_step_events _ _ _ _ _ H1 Hq0 Hqf) as (Hc & -> & Hfd & Hat1).
    destruct (IH _ _ _ _ _ H2 Hend Hat1 Hfit2 Hip2 Hreq2) as (events & counts & -> & Hh & Hr & Hco & Htag & Hm). rewrite Hfd in Hh.
    exists events. destruct current as [p|]; [exists (printed :: counts)|exists counts]; cbn in Htag |- *; split_and!; try done.
    + constructor; [|done]. apply Forall_inv in Hfit1. by eapply phase_done.
    + by rewrite Htag.
  - rewrite (phases_step _ _ _ Hne) in *.
    assert (∀ p, current = Some p → fits_tracker p) as Hfitc.
    { intros p ->. assert (∃ q, current_after e (Some p) = Some q ∧ pr_total q = pr_total p) as (q & Hq & Hqt) by (destruct e as [[]| | |]; by eexists).
      rewrite Hq in Hfit. destruct (phases_head q es) as (q' & rest & Heq & Hq't). rewrite Heq in Hfit. apply Forall_inv in Hfit.
      unfold fits_tracker in *. by rewrite Hq't, Hqt in Hfit. }
    destruct (emit_event e current m printed m1 o1 H1 Hne Hat Hfitc) as (ev1 & -> & Hh1 & Hr1 & Hat1 & Ht1 & Hm1).
    { intros ip source Ha. eapply Hip. apply elem_of_app. by left. }
    { exact Hreq1. }
    destruct (IH _ _ _ _ _ H2 Hend Hat1 Hfit Hip2 Hreq2) as (ev2 & counts & -> & Hh2 & Hr2 & Hco & Htag & Hm2).
    exists (ev1 ++ ev2), counts. rewrite !map_app, concat_app, !omap_app, !option_list_omap, Hr1, Hr2, Hh1, Hh2, first_reports_app.
    split; [done|]. split; [|split; [done|split; [done|split; [|by apply Forall_app]]]].
    + by rewrite Hfound.
    + change (match e with e_act a_advance => one_more <$> current | _ => current end) with (current_after e current) in Htag.
      rewrite tagged_after, tagged_now_app, <- Ht1, <- app_assoc in Htag. exact Htag.
Qed.

(** ** The phases of the two scans *)

(** The steps that begin or count a phase, or make a request. *)
Definition in_phases (e : emit) : bool :=
  match e with e_phase _ _ | e_request _ | e_act a_advance => true | _ => false end.

Lemma phases_filter es : ∀ current, phases_from current (filter in_phases es) = phases_from current es.
Proof.
  induction es as [|e es IH]; intros current; [done|]. rewrite filter_cons.
  destruct e as [[]| | |]; cbn [in_phases Is_true]; (case_decide; [|try (exfalso; tauto)]); cbn [phases_from]; try done; try apply IH; by rewrite IH.
Qed.

Lemma requests_filter (es : list emit) : omap request_of (filter in_phases es) = omap request_of es.
Proof.
  induction es as [|e es IH]; [done|]. rewrite filter_cons.
  destruct e as [[]| | |]; cbn [in_phases Is_true]; (case_decide; [|try (exfalso; tauto)]); cbn; try done; by rewrite IH.
Qed.

Lemma unclaimed_phases (es : list emit) : filter in_phases (filter (λ e, negb (is_claim e)) es) = filter in_phases es.
Proof.
  rewrite list_filter_filter. apply list_filter_iff. intros e. destruct e as [[]| | |]; simpl; tauto.
Qed.

Lemma unclaimed_acts (es : list emit) : omap act_of (filter (λ e, negb (is_claim e)) es) = omap act_of es.
Proof.
  induction es as [|e es IH]; [done|]. rewrite filter_cons.
  destruct e; cbn [is_claim negb Is_true]; (case_decide; [|try (exfalso; tauto)]); cbn; try done; by rewrite IH.
Qed.

(** What of a merge satisfies [P], when it all comes from one log. *)
Lemma merged_filter {A} (P : A → Prop) `{∀ x, Decision (P x)} (ts : list (list A)) t : merged ts t → ∀ pre l post,
  ts = pre ++ l :: post → filter P (concat pre) = [] → filter P (concat post) = [] → filter P t = filter P l.
Proof.
  induction 1 as [|ts t Hm IH|ts1 ev t1 ts2 t Hm IH]; intros pre l post Heq Hpre Hpost.
  - by destruct pre.
  - destruct pre as [|p pre]; simplify_eq/=; [|by eapply IH].
    apply merged_perm in Hm. apply Permutation_nil. rewrite <- Hm. by rewrite Hpost.
  - assert (ts1 = pre ∧ (ev :: t1) = l ∧ ts2 = post ∨ (∃ mid, ts1 = pre ++ l :: mid ∧ post = mid ++ (ev :: t1) :: ts2) ∨
      ∃ mid, pre = ts1 ++ (ev :: t1) :: mid ∧ ts2 = mid ++ l :: post) as [(-> & <- & ->)|[(mid & -> & ->)|(mid & -> & ->)]].
    { apply app_eq_inv in Heq as [(k & -> & Hk)|(k & -> & Hk)]; destruct k as [|x k]; simplify_eq/=; rewrite ?app_nil_r; eauto 10. }
    + rewrite !filter_cons. rewrite (IH pre t1 post) by done. done.
    + rewrite concat_app, filter_app in Hpost. cbn [concat] in Hpost. apply app_eq_nil in Hpost as [H1 Hpost].
      rewrite filter_app in Hpost. apply app_eq_nil in Hpost as [H2 H3]. rewrite filter_cons in H2 |- *. destruct (decide (P ev)); [done|].
      apply (IH pre l (mid ++ t1 :: ts2)); [by rewrite <- app_assoc|done|]. rewrite concat_app, filter_app. cbn [concat]. by rewrite filter_app, H1, H2, H3.
    + rewrite concat_app, filter_app in Hpre. cbn [concat] in Hpre. apply app_eq_nil in Hpre as [H1 Hpre].
      rewrite filter_app in Hpre. apply app_eq_nil in Hpre as [H2 H3]. rewrite filter_cons in H2 |- *. destruct (decide (P ev)); [done|].
      apply (IH (ts1 ++ t1 :: mid) l post); [by rewrite <- app_assoc| |done]. rewrite concat_app, filter_app. cbn [concat]. by rewrite filter_app, H1, H2, H3.
Qed.

Lemma omap_acts_app (f : emit → option Z) (a b : list emit) : omap f (a ++ b) = omap f a ++ omap f b.
Proof. apply omap_app. Qed.

Definition more_units (p : phase_run) (n : nat) : phase_run :=
  {| pr_phase := pr_phase p; pr_total := pr_total p; pr_units := pr_units p + n |}.

Lemma phases_first phase total es : phases_from None (e_phase phase total :: es) = phases_from (Some {| pr_phase := phase; pr_total := total; pr_units := 0 |}) es.
Proof. done. Qed.

Lemma phases_next p phase total es :
  phases_from (Some p) (e_phase phase total :: es) = p :: phases_from (Some {| pr_phase := phase; pr_total := total; pr_units := 0 |}) es.
Proof. done. Qed.

Lemma phases_acts acts es : ∀ p, phases_from (Some p) (map e_act acts ++ es) = phases_from (Some (more_units p (counted acts))) es.
Proof.
  induction acts as [|a acts IH]; intros [ph tot n]; [unfold more_units; simpl; by rewrite Nat.add_0_r|].
  cbn [map app]. change (counted (a :: acts)) with (length (filter is_advance (a :: acts))). rewrite filter_cons.
  destruct a; cbn [is_advance Is_true]; (case_decide; [|try (exfalso; tauto)]); cbn [phases_from]; try done; try apply IH.
  etrans; [exact (IH (one_more {| pr_phase := ph; pr_total := tot; pr_units := n |}))|]. unfold more_units, counted. cbn. do 3 f_equal. lia.
Qed.

Lemma phases_requests ids es current : phases_from current (map e_request ids ++ es) = phases_from current es.
Proof. by induction ids. Qed.

Lemma counted_advances n : counted (replicate n a_advance) = n.
Proof. induction n as [|n IH]; [done|]. unfold counted in *. cbn [replicate]. rewrite filter_cons_True by done. cbn. by f_equal. Qed.

Lemma phases_identify options r units p : phases_from (Some p) (identify_emits options r units) = p :: identify_phases options r units.
Proof.
  unfold identify_emits, identify_phases. destruct r as [|[|d details]]; [done..|]. destruct (resolve_hostname options); [|done].
  cbn [length_phase phases_from option_list app]. f_equal.
  rewrite <- (app_nil_r (replicate _ _)). replace (replicate units (e_act a_advance)) with (map e_act (replicate units a_advance)) by exact (fmap_replicate e_act units a_advance).
  rewrite phases_acts. unfold more_units. rewrite counted_advances. done.
Qed.

Lemma acts_no_requests acts : omap request_of (map e_act acts) = [].
Proof. by induction acts. Qed.

Lemma requests_of ids : omap request_of (map e_request ids) = ids.
Proof. induction ids as [|id ids IH]; [done|]. cbn. by f_equal. Qed.

Lemma identify_no_requests options r units : omap request_of (identify_emits options r units) = [].
Proof.
  unfold identify_emits. destruct r as [|[|d details]]; [done..|]. destruct (resolve_hostname options); [|done].
  cbn. by induction units.
Qed.

Lemma identify_no_reports options r units seen : first_reports seen (omap act_of (identify_emits options r units)) = [].
Proof.
  unfold identify_emits. destruct r as [|[|d details]]; [done..|]. destruct (resolve_hostname options); [|done].
  cbn. by induction units.
Qed.

(** The listener counts nothing. *)
Lemma quiet_acts acts : a_advance ∉ acts → filter in_phases (map e_act acts) = [].
Proof.
  induction acts as [|a acts IH]; [done|]. intros [Ha Hacts]%not_elem_of_cons. cbn [map]. rewrite filter_cons.
  destruct a; cbn [in_phases Is_true]; (case_decide; [exfalso; tauto|]); try (by apply IH).
Qed.

Lemma network_emits_phases options s es : network_emits options s es → a_advance ∉ sn_heard_acts s →
  phases_from None es = network_phases options s ∧ omap request_of es = (sn_requests s).1 ++ (sn_requests s).2 ∧
  ∀ seen, first_reports seen (omap act_of es) = first_reports seen (sn_acts s).
Proof.
  intros Hn Hheard. destruct Hn as [m es Hm Hacts Hes].
  assert (filter in_phases m = filter in_phases (main_emits s)) as Hf.
  { apply (merged_filter in_phases _ _ Hm [map e_act (sn_heard_acts s)] (main_emits s) []); [done| |done]. cbn. rewrite app_nil_r. by apply quiet_acts. }
  assert (filter in_phases es = filter in_phases (main_emits s ++ identify_emits options (sn_report s) (sn_counted s))) as Hall.
  { by rewrite <- unclaimed_phases, Hes, !filter_app, Hf. }
  split; [|split].
  - rewrite <- phases_filter, Hall, phases_filter. unfold main_emits, network_phases. rewrite <- app_assoc, phases_requests.
    cbn [app]. unfold length_phase at 1. rewrite phases_first, <- app_assoc, phases_acts. cbn [app].
    rewrite phases_next, <- !app_assoc, phases_requests, phases_acts.
    f_equal. f_equal. destruct (sn_second s) as [[[candidates more] cut]|]; cbn [app]; [|by rewrite phases_identify].
    cbn [app]. unfold length_phase at 1. by rewrite phases_next, phases_acts, phases_identify.
  - rewrite <- requests_filter, Hall, requests_filter. unfold main_emits. rewrite !omap_app, identify_no_requests, requests_of, app_nil_r. f_equal.
    cbn. rewrite omap_app, acts_no_requests. cbn. rewrite !omap_app, requests_of, acts_no_requests.
    destruct (sn_second s) as [[[candidates more] cut]|]; cbn; [by rewrite acts_no_requests, app_nil_r|by rewrite !app_nil_r].
  - intros seen. rewrite <- unclaimed_acts, Hes, omap_app, Hacts, first_reports_app, identify_no_reports. by rewrite app_nil_r.
Qed.

Lemma acts_of acts : omap act_of (map e_act acts) = acts.
Proof. induction acts as [|a acts IH]; [done|]. cbn. by f_equal. Qed.

Lemma requests_no_acts ids : omap act_of (map e_request ids) = [].
Proof. by induction ids. Qed.

Lemma ping_emits_phases options s es : ping_emits options s es →
  ps_acts s = ping_acts (ps_room s) (ps_targets s) (ps_calls s) ++ ps_mac_acts s → counted (ps_mac_acts s) = 0%nat →
  phases_from None es = ping_phases options s ∧ omap request_of es = ps_requests s ∧
  ∀ seen, first_reports seen (omap act_of es) = first_reports seen (ps_acts s).
Proof.
  intros Hn Hacts Hmac. destruct Hn as [es Hes]. split; [|split].
  - rewrite <- phases_filter, <- unclaimed_phases, phases_filter, Hes. unfold pings_emits, ping_phases. cbn [app]. unfold length_phase.
    rewrite phases_first, phases_acts, phases_requests, phases_acts, phases_identify, Hmac. unfold more_units, acts_phase. cbn. by rewrite !Nat.add_0_r.
  - rewrite <- requests_filter, <- unclaimed_phases, requests_filter, Hes. unfold pings_emits. rewrite !omap_app. cbn.
    by rewrite !acts_no_requests, requests_of, identify_no_requests, app_nil_r.
  - intros seen. rewrite <- unclaimed_acts, Hes, Hacts. unfold pings_emits. rewrite !omap_app. cbn.
    rewrite !acts_of, requests_no_acts. cbn. rewrite app_assoc, first_reports_app, identify_no_reports. by rewrite app_nil_r.
Qed.

(** ** A scan that returned *)

Inductive subnet_run := network_run (s : Scan) | ping_run (s : PingScan).

Definition run_report (r : subnet_run) : Results.report := match r with network_run s => sn_report s | ping_run s => ps_report s end.
Definition run_acts (r : subnet_run) : list act := match r with network_run s => sn_acts s | ping_run s => ps_acts s end.
Definition run_counted (r : subnet_run) : nat := match r with network_run s => sn_counted s | ping_run s => ps_counted s end.
Definition run_requests (r : subnet_run) : list Z :=
  match r with network_run s => (sn_requests s).1 ++ (sn_requests s).2 | ping_run s => ps_requests s end.
Definition run_warnings (r : subnet_run) : list warning := match r with network_run s => sn_warnings s | ping_run s => ps_warnings s end.
Definition run_table (r : subnet_run) : option (list neighbor) := match r with network_run s => sn_table s | ping_run s => ps_table s end.

Definition run_phases (options : wants) (r : subnet_run) : list phase_run :=
  match r with network_run s => network_phases options s | ping_run s => ping_phases options s end.

Definition run_emits (options : wants) (r : subnet_run) (es : list emit) : Prop :=
  match r with network_run s => network_emits options s es | ping_run s => ping_emits options s es end.

(** ** Every run can be printed *)

Lemma merged_prefix {A} (p : list A) ts1 t1 ts2 t : merged (ts1 ++ t1 :: ts2) t → merged (ts1 ++ (p ++ t1) :: ts2) (p ++ t).
Proof. intros Hm. induction p as [|x p IH]; [done|]. cbn [app]. by apply merged_step. Qed.

(** The steps of the operations of a list, what else there is before them. *)
Lemma acts_split es : ∀ a acts, omap act_of es = a :: acts → ∃ pre es', es = pre ++ e_act a :: es' ∧ omap act_of pre = [] ∧ omap act_of es' = acts.
Proof.
  induction es as [|e es IH]; intros a acts Heq; [done|]. rewrite option_list_omap in Heq. destruct (act_of e) as [b|] eqn:He.
  - injection Heq as -> Heq. exists [], es. destruct e; simplify_eq/=. done.
  - destruct (IH a acts Heq) as (pre & es' & -> & Hp & Hs). exists (e :: pre), es'. split; [done|]. split; [|done].
    rewrite option_list_omap, He. exact Hp.
Qed.

Lemma merged_lift ts t : merged ts t → ∀ tss, Forall2 (λ es l, omap act_of es = l) tss ts → ∃ m, merged tss m ∧ omap act_of m = t.
Proof.
  induction 1 as [|ts t _ IH|ts1 ev t1 ts2 t _ IH]; intros tss Hts.
  - apply Forall2_nil_inv_r in Hts as ->. exists []. split; [constructor|done].
  - apply Forall2_cons_inv_r in Hts as (es & tss' & Hes & Hts & ->). destruct (IH _ Hts) as (m & Hm & Ha).
    exists (es ++ m). split; [|by rewrite omap_app, Hes]. pose proof (merged_prefix es [] [] tss' m ltac:(by apply merged_idle)) as Hp.
    by rewrite app_nil_r in Hp.
  - apply Forall2_app_inv_r in Hts as (s1 & s & H1 & Hts & ->). apply Forall2_cons_inv_r in Hts as (es & s2 & Hes & H2 & ->).
    destruct (acts_split _ _ _ Hes) as (pre & es' & -> & Hpre & Hes'). destruct (IH (s1 ++ es' :: s2)) as (m & Hm & Ha); [by apply Forall2_app; [|constructor]|].
    exists (pre ++ e_act ev :: m). split; [|rewrite omap_app, Hpre; cbn; by rewrite Ha]. apply merged_prefix, merged_step. exact Hm.
Qed.

Lemma emit_all_app json stream es es' m : emit_all json stream (es ++ es') m =
  ('(m1, out) ← emit_all json stream es m; '(m2, out') ← emit_all json stream es' m1; Some (m2, out ++ out')).
Proof.
  revert m. induction es as [|e es IH]; intros m.
  - cbn [app emit_all mbind option_bind]. by destruct (emit_all _ _ es' m) as [[]|].
  - cbn [app emit_all]. destruct (emit_step _ _ e m) as [[m1 o1]|]; [|done]. cbn [mbind option_bind]. rewrite IH.
    destruct (emit_all _ _ es m1) as [[m2 o2]|]; [|done]. cbn [mbind option_bind].
    destruct (emit_all _ _ es' m2) as [[m3 o3]|]; [|done]. cbn [mbind option_bind]. by rewrite app_assoc.
Qed.

Lemma perform_all_split acts acts' d d' : perform_all (acts ++ acts') d = Some d' → ∃ d1, perform_all acts d = Some d1 ∧ perform_all acts' d1 = Some d'.
Proof.
  revert d. induction acts as [|a acts IH]; intros d Hp; cbn [app perform_all] in *; [by exists d|].
  apply bind_Some in Hp as (d2 & Ha & Hp). rewrite Ha. by apply IH.
Qed.

(** A step with its claim, if it needs one, goes through. *)
Lemma step_placed e current m printed d :
  at_phase current m printed → em_claiming m = 0%nat → is_claim e = false → Forall fits_tracker (phases_from current [e]) →
  perform_all (option_list (act_of e)) (em_found m) = Some d →
  0 <= tr_done (em_tracker m) → tr_done (em_tracker m) + Z.of_nat (counted (option_list (act_of e))) < 18446744073709551616 →
  ∃ steps current' m' out printed', filter (λ e, negb (is_claim e)) steps = [e] ∧ emit_all true true steps m = Some (m', out) ∧
    em_claiming m' = 0%nat ∧ at_phase current' m' printed' ∧ 0 <= tr_done (em_tracker m') <= tr_done (em_tracker m) + Z.of_nat (counted (option_list (act_of e))) ∧
    ∀ es, ∃ before, phases_from current (e :: es) = before ++ phases_from current' es.
Proof.
  intros Hat Hc He Hfit Hp Hd Hbound.
  assert (∀ m1 out1, emit_step true true e m = Some (m1, out1) → em_claiming m1 = 0%nat → at_phase current m1 printed →
    tr_done (em_tracker m1) = tr_done (em_tracker m) → (∀ es, phases_from current (e :: es) = phases_from current es) → 
    ∃ steps current' m' out printed', filter (λ e, negb (is_claim e)) steps = [e] ∧ emit_all true true steps m = Some (m', out) ∧
    em_claiming m' = 0%nat ∧ at_phase current' m' printed' ∧ 0 <= tr_done (em_tracker m') <= tr_done (em_tracker m) + Z.of_nat (counted (option_list (act_of e))) ∧
    ∀ es, ∃ before, phases_from current (e :: es) = before ++ phases_from current' es) as Hplain.
  { intros m1 out1 Hs Hc1 Hat1 Ht Hph. exists [e], current, m1, (out1 ++ []), printed. rewrite filter_cons_True by (by rewrite He).
    split; [done|]. split; [cbn [emit_all]; by rewrite Hs|]. split; [done|]. split; [done|]. split; [rewrite Ht; lia|]. intros es. by exists []. }
  destruct e as [[ip source room|ip found|ip mac room|ip name er cr|]| |phase total|id]; try done.
  - destruct (emit_report true true ip source room m) as [m1 out1] eqn:Hr.
    assert (em_claiming m1 = 0%nat ∧ (em_tracker m1 = em_tracker m ∨ em_tracker m1 = tracker_addFound (em_tracker m))) as [Hc1 Ht].
    { unfold emit_report in Hr. destruct (_ || _); simplify_eq; cbn; auto. }
    apply (Hplain m1 out1); [by cbn [emit_step]; rewrite Hr|done| | |done].
    + unfold at_phase in *. destruct current; destruct Ht as [->| ->]; rewrite Hc1, Hc in *; try done.
      destruct Hat as (A1 & A2 & A3). split; [done|]. split; [done|]. destruct A3; by split.
    + by destruct Ht as [-> | ->].
  - apply bind_Some in Hp as (d1 & Hd1 & _). eapply Hplain; [cbn [emit_step]; rewrite Hd1; done|done| |done|done].
    unfold at_phase in *. destruct current; cbn; by rewrite Hc in *.
  - eapply Hplain; [done|done| |done|done]. unfold at_phase in *. destruct current; cbn; by rewrite Hc in *.
  - eapply Hplain; [done|done| |done|done]. unfold at_phase in *. destruct current; cbn; by rewrite Hc in *.
  - assert (zu64 (tr_done (em_tracker m) + 1) = Some (tr_done (em_tracker m) + 1)) as Hz by (apply fits_some; change (Z.of_nat (counted (option_list (act_of (e_act a_advance))))) with 1 in *; lia).
    change (Z.of_nat (counted (option_list (act_of (e_act a_advance))))) with 1 in *.
    destruct current as [p|].
    + destruct Hat as (A1 & A2 & A3). assert (fits_tracker p) as [F1 F2] by exact (Forall_inv Hfit).
      pose proof (ev_total _ _ A3) as Htot. cbn [fst] in Htot.
      destruct (tracker_advance (em_tracker m)) as [[crosses t]|] eqn:Ha; cycle 1.
      { unfold tracker_advance in Ha. rewrite Hz in Ha. cbn [mbind option_bind] in Ha. rewrite Htot, (crosses_value (pr_total p)) in Ha by lia. done. }
      rewrite Hc in A3. pose proof (counts_ok (pr_total p) F1 F2 _ _ _ _ _ Ha A3) as Hok.
      assert (tr_done t = tr_done (em_tracker m) + 1 ∧ tr_phase t = Some (pr_phase p)) as [Hdone Hph].
      { unfold tracker_advance in Ha. rewrite Hz in Ha. apply bind_Some in Ha as (? & [= <-] & Ha). apply bind_Some in Ha as (? & _ & [= _ <-]).
        cbn. split; [apply u64_id; unfold is_u64; lia|done]. }
      destruct crosses.
      * destruct (claim t) as [claimed t2] eqn:Hcl. pose proof (claim_ok (pr_total p) _ _ _ _ _ Hcl Hok) as Hok2.
        assert (tr_done t2 = tr_done t ∧ tr_phase t2 = tr_phase t) as [Hd2 Hp2] by (unfold claim in Hcl; destruct (_ <=? _); by simplify_eq).
        exists [e_act a_advance; e_claim], (Some (one_more p)). do 3 eexists. split; [done|].
        split; [cbn [emit_all emit_step]; rewrite Ha; cbn [mbind option_bind negb orb andb em_claiming]; rewrite Hc; cbn [em_tracker]; rewrite Hcl; done|].
        split; [done|]. split; [split; [cbn; congruence|split; [cbn [em_tracker one_more pr_units]; lia|exact Hok2]]|].
        split; [cbn [em_tracker tr_done]; lia|]. intros es. by exists [].
      * exists [e_act a_advance], (Some (one_more p)). do 3 eexists. split; [done|].
        split; [cbn [emit_all emit_step]; rewrite Ha; cbn [mbind option_bind negb orb]; rewrite Hc; done|].
        split; [done|]. split; [split; [done|split; [cbn [em_tracker one_more pr_units]; lia|exact Hok]]|].
        split; [cbn [em_tracker tr_done]; lia|]. intros es. by exists [].
    + destruct Hat as (A1 & A2 & A3 & ->). exists [e_act a_advance], None. do 3 eexists. split; [done|].
      split; [cbn [emit_all emit_step]; unfold tracker_advance; rewrite Hz; cbn [mbind option_bind]; rewrite A2; cbn; rewrite Hc; done|].
      split; [done|]. split; [split; [exact A1|split; [done|by split]]|]. cbn [em_tracker tr_done]. rewrite u64_id by (unfold is_u64; lia).
      split; [lia|]. intros es. by exists [].
  - exists [e_phase phase total], (Some {| pr_phase := phase; pr_total := total; pr_units := 0 |}). do 2 eexists. exists [].
    cbn [phases_from] in Hfit. apply Forall_app in Hfit as [_ [F1 F2]%Forall_inv].
    split; [done|]. split; [cbn [emit_all emit_step]; rewrite Hc; done|]. split; [done|].
    split; [split; [done|split; [done|by apply events_start]]|]. split; [cbn; lia|]. intros es. by exists (option_list current).
  - eapply Hplain; done.
Qed.

Lemma one_step_fits current e es : Forall fits_tracker (phases_from current (e :: es)) → Forall fits_tracker (phases_from current [e]).
Proof.
  assert (∀ p, Forall fits_tracker (phases_from (Some p) es) → fits_tracker p) as Hhead.
  { intros p Hf. destruct (phases_head p es) as (q & rest & Hq & Hqt). rewrite Hq in Hf. apply Forall_inv in Hf. unfold fits_tracker in *. by rewrite Hqt in Hf. }
  assert ((∃ phase total, e = e_phase phase total) ∨ ∀ phase total, e ≠ e_phase phase total) as [(phase & total & ->)|Hne]
    by (destruct e as [| |phase total|]; [by right|by right|left; by exists phase, total|by right]).
  - cbn [phases_from]. intros [F1 F2]%Forall_app. apply Forall_app. split; [done|]. by apply Forall_singleton, Hhead.
  - rewrite !phases_step by done. destruct (current_after e current) as [p|]; [|constructor]. intros Hf. by apply Forall_singleton, Hhead.
Qed.

(** With each claim right after its unit, nothing is in the way of a run. *)
Lemma claims_placed es : ∀ current m printed d,
  at_phase current m printed → em_claiming m = 0%nat → Forall fits_tracker (phases_from current es) →
  filter is_claim es = [] → perform_all (omap act_of es) (em_found m) = Some d →
  0 <= tr_done (em_tracker m) → tr_done (em_tracker m) + Z.of_nat (counted (omap act_of es)) < 18446744073709551616 →
  ∃ placed m' out, filter (λ e, negb (is_claim e)) placed = es ∧ emit_all true true placed m = Some (m', out) ∧ em_claiming m' = 0%nat.
Proof.
  induction es as [|e es IH]; intros current m printed d Hat Hc Hfit Hnc Hp H0 Hb; [by exists [], m, []|].
  assert (is_claim e = false ∧ filter is_claim es = []) as [He Hnc'].
  { rewrite filter_cons in Hnc. case_decide as Hd; [done|]. split; [|done]. by destruct (is_claim e). }
  rewrite option_list_omap, counted_app, Nat2Z.inj_add in Hb. rewrite option_list_omap in Hp. apply perform_all_split in Hp as (d1 & Hd1 & Hp).
  destruct (step_placed e current m printed d1 Hat Hc He) as (steps & current' & m1 & out1 & printed' & Hst & Hall1 & Hc1 & Hat1 & Hdone & Hph); [|done|lia|lia|].
  { by eapply one_step_fits. }
  destruct (Hph es) as [before Hbefore]. rewrite Hbefore in Hfit. apply Forall_app in Hfit as [_ Hfit].
  pose proof (emit_all_found _ _ _ _ _ _ Hall1) as Hf. rewrite <- unclaimed_acts, Hst, option_list_omap, app_nil_r in Hf.
  assert (em_found m1 = d1) as <- by congruence.
  destruct (IH current' m1 printed' d Hat1 Hc1 Hfit Hnc' Hp) as (placed & m' & out & Hpl & Hall & Hend); [lia|lia|].
  exists (steps ++ placed), m', (out1 ++ out). rewrite filter_app, Hst, Hpl. split; [done|]. split; [|done].
  rewrite emit_all_app, Hall1. cbn [mbind option_bind]. by rewrite Hall.
Qed.

Lemma unclaimed_filter (es : list emit) : (∀ e, e ∈ es → is_claim e = false) → filter is_claim es = [].
Proof.
  intros Hes. induction es as [|e es IH]; [done|]. rewrite filter_cons_False; [apply IH; intros e' He'; apply Hes; by apply list_elem_of_further|].
  rewrite (Hes e) by apply list_elem_of_here. simpl. tauto.
Qed.

Lemma unclaimed_keep (es : list emit) : (∀ e, e ∈ es → is_claim e = false) → filter (λ e, negb (is_claim e)) es = es.
Proof.
  intros Hes. induction es as [|e es IH]; [done|]. rewrite filter_cons_True by by rewrite (Hes e) by apply list_elem_of_here.
  f_equal. apply IH. intros e' He'. apply Hes. by apply list_elem_of_further.
Qed.

Lemma unclaimed_identify options r units e : e ∈ identify_emits options r units → is_claim e = false.
Proof.
  unfold identify_emits. destruct r as [|[|d details]]; [by intros ?%not_elem_of_nil..|]. destruct (resolve_hostname options); [|by intros ?%not_elem_of_nil].
  intros [->|[-> _]%elem_of_replicate]%elem_of_cons; done.
Qed.

Lemma unclaimed_map {A} (f : A → emit) l e : e ∈ map f l → (∀ x, is_claim (f x) = false) → is_claim e = false.
Proof. intros (x & -> & _)%list_elem_of_fmap Hf. apply Hf. Qed.

(** Steps without claims, in the operations' order, can be printed. *)
Lemma steps_print es0 d : (∀ e, e ∈ es0 → is_claim e = false) →
  Forall fits_tracker (phases_from None es0) → perform_all (omap act_of es0) nothing_found = Some d →
  Z.of_nat (counted (omap act_of es0)) < 18446744073709551616 →
  ∃ es out, filter (λ e, negb (is_claim e)) es = es0 ∧ prints true true es out.
Proof.
  intros Hno Hfit Hp Hb. destruct (claims_placed es0 None emitter_start [] d) as (es & m' & out & He & Hall & Hend);
    [by split_and!|done|done|by apply unclaimed_filter|done|done|done|]. exists es, out. split; [done|]. by exists m'.
Qed.

Lemma identify_performs options r units d : perform_all (omap act_of (identify_emits options r units)) d = Some d.
Proof.
  unfold identify_emits. destruct r as [|[|x details]]; [done..|]. destruct (resolve_hostname options); [|done]. cbn. by induction units.
Qed.

Lemma identify_counted options r units : (counted (omap act_of (identify_emits options r units)) ≤ units)%nat.
Proof.
  unfold identify_emits. destruct r as [|[|x details]]; [cbn; lia..|]. destruct (resolve_hostname options); [|cbn; lia].
  assert (omap act_of (replicate units (e_act a_advance)) = replicate units a_advance) as Ha by (induction units as [|n IH]; [done|]; cbn; by f_equal).
  change (omap act_of (length_phase phase_identify (x :: details) :: replicate units (e_act a_advance))) with (omap act_of (replicate units (e_act a_advance))).
  by rewrite Ha, counted_advances.
Qed.

Lemma network_printed options s d :
  merged [sn_heard_acts s; sn_sweep_acts s ++ sn_harvest_acts s ++ match sn_second s with Some (_, more, _) => more | None => [] end] (sn_acts s) →
  perform_all (sn_acts s) nothing_found = Some d → a_advance ∉ sn_heard_acts s → Forall fits_tracker (network_phases options s) →
  Z.of_nat (counted (sn_acts s) + sn_counted s) < 18446744073709551616 →
  ∃ es out, network_emits options s es ∧ prints true true es out.
Proof.
  intros Hm Hp Hq Hfit Hb.
  destruct (merged_lift _ _ Hm [map e_act (sn_heard_acts s); main_emits s]) as (m & Hmm & Ha).
  { constructor; [apply acts_of|]. constructor; [|constructor]. unfold main_emits. rewrite !omap_app, requests_no_acts. cbn.
    rewrite !omap_app, acts_of. cbn. rewrite !omap_app, requests_no_acts, acts_of.
    destruct (sn_second s) as [[[candidates more] cut]|]; cbn; by rewrite ?acts_of. }
  set (es0 := m ++ identify_emits options (sn_report s) (sn_counted s)).
  assert (∀ e, e ∈ es0 → is_claim e = false) as Hno.
  { intros e [Hin|Hin]%elem_of_app; [|by eapply unclaimed_identify]. rewrite <- (merged_perm _ _ Hmm) in Hin. cbn in Hin. rewrite app_nil_r in Hin.
    apply elem_of_app in Hin as [Hin|Hin]; [by apply (unclaimed_map _ _ _ Hin)|]. unfold main_emits in Hin.
    repeat first [apply elem_of_app in Hin as [Hin|Hin]; [by apply (unclaimed_map _ _ _ Hin)|] | apply elem_of_cons in Hin as [->|Hin]; [done|]].
    destruct (sn_second s) as [[[candidates more] cut]|]; [|by apply not_elem_of_nil in Hin].
    apply elem_of_cons in Hin as [->|Hin]; [done|by apply (unclaimed_map _ _ _ Hin)]. }
  assert (filter (λ e, negb (is_claim e)) es0 = es0) as Hes0.
  { by apply unclaimed_keep. }
  destruct (network_emits_phases options s es0 ltac:(by econstructor) Hq) as (Hph & _ & _).
  destruct (steps_print es0 d) as (es & out & Hes & Hout); [done|by rewrite Hph| | |].
  - unfold es0. rewrite omap_app, Ha. eapply perform_all_app; [done|]. apply identify_performs.
  - unfold es0. rewrite omap_app, Ha, counted_app. pose proof (identify_counted options (sn_report s) (sn_counted s)). lia.
  - exists es, out. split; [|done]. econstructor; [exact Hmm|done|]. exact Hes.
Qed.

Lemma ping_printed options s d :
  ps_acts s = ping_acts (ps_room s) (ps_targets s) (ps_calls s) ++ ps_mac_acts s → counted (ps_mac_acts s) = 0%nat →
  perform_all (ps_acts s) nothing_found = Some d → Forall fits_tracker (ping_phases options s) →
  Z.of_nat (counted (ps_acts s) + ps_counted s) < 18446744073709551616 →
  ∃ es out, ping_emits options s es ∧ prints true true es out.
Proof.
  intros Hacts Hmac Hp Hfit Hb.
  set (es0 := pings_emits (ps_targets s) (ping_acts (ps_room s) (ps_targets s) (ps_calls s)) ++
      map e_request (ps_requests s) ++ map e_act (ps_mac_acts s) ++ identify_emits options (ps_report s) (ps_counted s)).
  assert (∀ e, e ∈ es0 → is_claim e = false) as Hno.
  { intros e [Hin|Hin]%elem_of_app; [apply elem_of_cons in Hin as [->|Hin]; [done|by apply (unclaimed_map _ _ _ Hin)]|].
    apply elem_of_app in Hin as [Hin|Hin]; [by apply (unclaimed_map _ _ _ Hin)|].
    apply elem_of_app in Hin as [Hin|Hin]; [by apply (unclaimed_map _ _ _ Hin)|by eapply unclaimed_identify]. }
  assert (filter (λ e, negb (is_claim e)) es0 = es0) as Hes0.
  { by apply unclaimed_keep. }
  destruct (ping_emits_phases options s es0 ltac:(by constructor) Hacts Hmac) as (Hph & _ & _).
  assert (omap act_of es0 = ps_acts s ++ omap act_of (identify_emits options (ps_report s) (ps_counted s))) as Ha.
  { unfold es0, pings_emits. rewrite !omap_app, Hacts. cbn. by rewrite !acts_of, requests_no_acts, <- app_assoc. }
  destruct (steps_print es0 d) as (es & out & Hes & Hout); [done|by rewrite Hph| | |].
  - rewrite Ha. eapply perform_all_app; [done|]. apply identify_performs.
  - rewrite Ha, counted_app. pose proof (identify_counted options (ps_report s) (ps_counted s)). lia.
  - exists es, out. split; [by constructor|done].
Qed.
