(* ===== verification/Cli.v ===== *)
(** * main.zig: the command line

    From the arguments to the exit: [main] and its two commands, what each
    accepts and how it fails, what it prints around the scan it runs, and how
    the process ends.  The port scan is scanPorts (ScanPorts.v), called in an
    order the run's loops choose; its events are printed as it says them
    (Output.v).  The subnet scans are those of Scan.v. *)
From Stdlib Require Import String.
From stdpp Require Import countable gmap sorting relations.
From S2P Require Import Prelude Words Decimal Subnets Ranges Text Json Targets Sys Script Progress Packed Ports PortScan Rtt Window Held Probe NsSocket IcmpWire SweepSpec IcmpSweep IcmpSweepWin Connects Shared Run ScanPorts Multicast NeighborList Neighbors Packets Names Oui NeighborTable Pool Pings Harvest Listener Discovery Results Warnings Scan Interrupt Live Output Streams.
Open Scope Z_scope.

(** ** Outcomes *)

(** How a command ends: main returns (status 0), an exit with a code,
    exitInterrupted, or a Zig error out of main (a trace, status 1). *)
Inductive finish := returns | exits (code : Z) | interrupted | traced.

#[export] Instance finish_eq_dec : EqDecision finish.
Proof. solve_decision. Defined.

Record outcome := { oc_stdout : list Z; oc_stderr : list Z; oc_finish : finish }.

Definition line (s : string) : list Z := text s ++ LF.

(** utils.printUsage *)
Definition usage : list Z :=
  concat (map line
    ["NetScanner - Fast, zero-privilege network discovery & port scanner"; "";
     "USAGE:"; "  ns -s <subnet> [options]"; "  ns -p <ip> <ports> [options]"; "  ns [flags]"; "";
     "COMMANDS:";
     "  -s <subnet>                 Find live hosts in a subnet (e.g. 192.168.0.1/24)";
     "                              Default: fast TCP + ARP sweep; use --ping for ICMP";
     "  -p <ip> <ports>             Scan an IP for open ports (e.g. 192.168.1.1 1-1024)"; "";
     "SUBNET OPTIONS (-s):";
     "  --resolve                   Resolve hostnames and hardware manufacturers";
     "  --hostname                  Resolve hostnames only (mDNS, NetBIOS, Reverse DNS)";
     "  --vendor                    Lookup MAC addresses and hardware manufacturers";
     "  --oui-file <path>           Load custom Wireshark or IEEE OUI database file";
     "  --ping                      Use ICMP ping sweep instead of TCP + ARP";
     "  --neighbor-table=parent     Ask the parent app for the ARP table (needs --json)"; "";
     "PORT OPTIONS (-p):";
     "  --timeout <ms>              Fixed probe timeout in ms (default: learned, 100-500)"; "";
     "OUTPUT OPTIONS (-s, -p):";
     "  --json                      One JSON object per line, for scripts and apps"; "";
     "FLAGS:";
     "  -h, --help                  Display this help message";
     "  -v, --version               Display version information"; "";
     "EXAMPLES:";
     "  ns -s 192.168.0.1/24 --resolve";
     "  ns -s 10.0.0.1/24 --ping";
     "  ns -p 192.168.1.1 20-80 --timeout 250"]%string).

Definition hasFlag (args : list (list Z)) (flag : list Z) : bool := existsb (λ arg, bool_decide (arg = flag)) args.

(** std.mem.print into a buffer: nothing when it does not fit. *)
Definition print_into (room : nat) (s : list Z) : option (list Z) := if (length s <=? room)%nat then Some s else None.

(** "Scanning <target>", in 64 bytes *)
Definition scanLabel (target : list Z) : list Z := default (text "Scanning") (print_into 64 (text "Scanning " ++ target)).

(** The message of [fail], in 256 bytes: [fmt] is its format string,
    [printed] what it prints to. *)
Definition fail_message (fmt printed : list Z) : list Z := default fmt (print_into 256 printed).

Definition error_event (msg : list Z) : list Z := quoted "{'type':'error','message':'" ++ jsonEscape 512 msg ++ quoted "'}" ++ LF.

Definition fail (json : bool) (fmt printed : list Z) : outcome :=
  let msg := fail_message fmt printed in
  if json then {| oc_stdout := error_event msg; oc_stderr := []; oc_finish := exits 1 |}
  else {| oc_stdout := []; oc_stderr := text "NetScanner: " ++ msg ++ LF; oc_finish := exits 1 |}.

(** fail with a message that has no arguments *)
Definition fail_with (json : bool) (msg : string) : outcome := fail json (text msg) (text msg).

(** Usage, then exit 1: what a missing argument gets in text mode. *)
Definition usage_exit : outcome := {| oc_stdout := usage; oc_stderr := []; oc_finish := exits 1 |}.

(** ** Arguments *)

(** std.fmt.parseInt(u16, ..., 10) *)
Fixpoint parse_digits_u16 (neg : bool) (buf : list Z) (acc : Z) : zig_error + Z :=
  match buf with
  | [] => mret acc
  | c :: buf =>
    if c =? 95 then parse_digits_u16 neg buf acc
    else
      digit ← or_error InvalidCharacter (char_to_digit c 10);
      acc ← (if negb (acc =? 0) then or_error Overflow (zu16 (acc * 10)) else mret acc);
      acc ← or_error Overflow (zu16 (if neg then acc - digit else acc + digit));
      parse_digits_u16 neg buf acc
  end.

Definition parse_signed_u16 (neg : bool) (buf : list Z) : zig_error + Z :=
  match buf with
  | [] => inl InvalidCharacter
  | c :: _ =>
    if (c =? 95) || bool_decide (last buf = Some 95) then inl InvalidCharacter
    else parse_digits_u16 neg buf 0
  end.

Definition parseInt_u16 (buf : list Z) : zig_error + Z :=
  match buf with
  | [] => inl InvalidCharacter
  | c :: rest =>
    if c =? 43 then parse_signed_u16 false rest
    else if c =? 45 then parse_signed_u16 true rest
    else parse_signed_u16 false buf
  end.

(** The options after a port range: a message, or the timeout. *)
Fixpoint port_options (args : list (list Z)) (timeout_ms : option Z) : string + option Z :=
  match args with
  | [] => inr timeout_ms
  | arg :: args =>
    if bool_decide (arg = text "--json") then port_options args timeout_ms
    else if negb (bool_decide (arg = text "--timeout")) then inl "Unknown option"%string
    else
      match args with
      | [] => inl "--timeout needs a value in milliseconds (1-60000)"%string
      | value :: args =>
        match parseInt_u16 value with
        | inl _ => inl "Invalid timeout"%string
        | inr parsed =>
          if (parsed =? 0) || (parsed >? 60000) then inl "Timeout must be 1-60000 ms"%string
          else port_options args (Some parsed)
        end
      end
  end.

Record PortArgs := { pg_ip : ip4; pg_start : Z; pg_end : Z; pg_timeout_ms : option Z }.

Definition DASH : Z := 45.

(** runPortScan up to the scan; [room] is the allocator's for the list of
    ports. *)
Definition port_arguments (room : nat → bool) (args : list (list Z)) (json : bool) : outcome + PortArgs :=
  match args with
  | _ :: _ :: ip :: range :: options =>
    match ipStringToBytes ip with
    | inl _ => inl (fail_with json "Invalid IP address")
    | inr ip_address =>
      match splitStringToIntArray room range DASH with
      | inl _ => inl (fail_with json "Invalid port range")
      | inr [p0; p1] =>
        let '(start_port, end_port) := if p0 >? p1 then (p1, p0) else (p0, p1) in
        match port_options options None with
        | inl msg => inl (fail_with json msg)
        | inr timeout_ms => inr {| pg_ip := ip_address; pg_start := start_port; pg_end := end_port; pg_timeout_ms := timeout_ms |}
        end
      | inr _ => inl (fail_with json "Please provide two ports")
      end
    end
  | _ => inl (if json then fail_with json "Usage: ns -p <ip> <port-range>" else usage_exit)
  end.

(** The options of a subnet scan, as its while loop leaves them. *)
Record SubnetOptions := {
  so_ping : bool;
  so_wants : wants;
  so_oui_file : option (list Z);
  so_parent : bool
}.

Definition no_options : SubnetOptions :=
  {| so_ping := false; so_wants := {| resolve_hostname := false; resolve_vendor := false |}; so_oui_file := None; so_parent := false |}.

Definition ask_ping (o : SubnetOptions) : SubnetOptions :=
  {| so_ping := true; so_wants := so_wants o; so_oui_file := so_oui_file o; so_parent := so_parent o |}.
Definition ask_hostname (o : SubnetOptions) : SubnetOptions :=
  {| so_ping := so_ping o; so_wants := {| resolve_hostname := true; resolve_vendor := resolve_vendor (so_wants o) |};
     so_oui_file := so_oui_file o; so_parent := so_parent o |}.
Definition ask_vendor (o : SubnetOptions) : SubnetOptions :=
  {| so_ping := so_ping o; so_wants := {| resolve_hostname := resolve_hostname (so_wants o); resolve_vendor := true |};
     so_oui_file := so_oui_file o; so_parent := so_parent o |}.
Definition ask_oui_file (path : list Z) (o : SubnetOptions) : SubnetOptions :=
  {| so_ping := so_ping o; so_wants := {| resolve_hostname := resolve_hostname (so_wants o); resolve_vendor := true |};
     so_oui_file := Some path; so_parent := so_parent o |}.
Definition ask_parent (parent : bool) (o : SubnetOptions) : SubnetOptions :=
  {| so_ping := so_ping o; so_wants := so_wants o; so_oui_file := so_oui_file o; so_parent := parent |}.

(** std.mem.startsWith, and what follows *)
Definition after_prefix (prefix s : list Z) : option (list Z) :=
  if bool_decide (take (length prefix) s = prefix) then Some (drop (length prefix) s) else None.

(** A message without arguments, or an unknown option. *)
Inductive bad_option := bad (msg : string) | unknown (arg : list Z).

Fixpoint subnet_options (os : platform) (json : bool) (args : list (list Z)) (o : SubnetOptions) : bad_option + SubnetOptions :=
  match args with
  | [] => inr o
  | arg :: args =>
    if bool_decide (arg = text "--ping") then subnet_options os json args (ask_ping o)
    else if bool_decide (arg = text "--json") then subnet_options os json args o
    else if bool_decide (arg = text "--resolve") then subnet_options os json args (ask_vendor (ask_hostname o))
    else if bool_decide (arg = text "--hostname") then subnet_options os json args (ask_hostname o)
    else if bool_decide (arg = text "--vendor") then subnet_options os json args (ask_vendor o)
    else if bool_decide (arg = text "--oui-file") then
      match args with
      | [] => inl (bad "--oui-file requires a file path")
      | path :: args => subnet_options os json args (ask_oui_file path o)
      end
    else
      match after_prefix (text "--neighbor-table=") arg with
      | Some source =>
        if bool_decide (source = text "parent") then
          if negb json then inl (bad "--neighbor-table=parent needs --json")
          else if bool_decide (os = Windows) then inl (bad "--neighbor-table=parent is not supported on Windows")
          else subnet_options os json args (ask_parent true o)
        else if bool_decide (source = text "kernel") then subnet_options os json args (ask_parent false o)
        else inl (bad "--neighbor-table must be 'kernel' or 'parent'")
      | None => inl (unknown arg)
      end
  end.

Record SubnetArgs := { sg_cidr : list Z; sg_options : SubnetOptions }.

(** runSubnetScan up to the scan. *)
Definition subnet_arguments (os : platform) (args : list (list Z)) (json : bool) : outcome + SubnetArgs :=
  match args with
  | _ :: _ :: cidr :: options =>
    match subnet_options os json options no_options with
    | inr o => inr {| sg_cidr := cidr; sg_options := o |}
    | inl (bad msg) => inl (fail_with json msg)
    | inl (unknown arg) =>
      let f := fail json (text "Unknown option '{s}'") (text "Unknown option '" ++ arg ++ text "'") in
      inl {| oc_stdout := (if json then [] else usage) ++ oc_stdout f; oc_stderr := oc_stderr f; oc_finish := oc_finish f |}
    end
  | _ => inl (if json then fail_with json "Usage: ns -s <subnet>" else usage_exit)
  end.

(** ** A terminal or not *)

(** What standard output and error are, and what the terminal says of its
    size.  A failed isTty counts as no terminal. *)
Record console := { stdout_tty : option bool; stderr_tty : option bool; size_answer : option (Z * Z) }.

Definition wantsStatusLine (os : platform) (c : console) (env : environ) (json : bool) : bool :=
  if json then false
  else if isDumbTerminal (TERM env) then false
  else match stdout_tty c, stderr_tty c with
       | Some stdout_tty, Some stderr_tty => stdout_tty && stderr_tty && canDraw os (size_answer c)
       | _, _ => false
       end.

(** setUpInteractive: whether the line is on, the process, and the glyphs. *)
Definition setUpInteractive (os : platform) (registered : bool) (code_page : option Z) (c : console) (env : environ) (json : bool)
    (p : process) : bool * process * Glyphs :=
  if negb (wantsStatusLine os c env json) then (false, p, Live.ascii)
  else (true, install os registered p, glyphs os code_page env).

Definition port_noun : Noun := {| one := text "open port"; many := text "open ports" |}.
Definition found_noun : Noun := {| one := text "host found"; many := text "hosts found" |}.

(** ** The port scan *)

(** The @intCast of a summary's milliseconds to i64. *)
Definition elapsed_fits (elapsed_ns : Z) : Prop := -9223372036854775808 <= elapsed_ms elapsed_ns < 9223372036854775808.

(** What the scan prints when it says something.  The source's calls come one
    at a time, so nothing else counts in between. *)
Definition say (db : Table) (json stream : bool) (x : said) (t : Tracker) : option (Tracker * list Z) :=
  match x with
  | said_open port =>
    if stream then service ← Ports.lookup db port; Some (tracker_addFound t, printOpenPort service port json)
    else Some (tracker_addFound t, [])
  | said_advance => Output.advance json stream t
  end.

Fixpoint say_all (db : Table) (json stream : bool) (l : list said) (t : Tracker) : option (Tracker * list Z) :=
  match l with
  | [] => Some (t, [])
  | x :: l =>
    '(t, s) ← say db json stream x t;
    '(t, s') ← say_all db json stream l t;
    Some (t, s ++ s')
  end.

(** The tracker as scanPorts starts its phase. *)
Definition port_tracker (start_port end_port : Z) : Tracker := startPhase phase_ports (end_port - start_port + 1) fresh_tracker.

(** The for loop of the JSON summary. *)
Fixpoint port_items (i : nat) (ports : list Z) : list Z :=
  match ports with
  | [] => []
  | port :: ports => (if (0 <? i)%nat then text "," else []) ++ fmt_usize port ++ port_items (S i) ports
  end.

Definition ports_summary (open_ports : list Z) (elapsed_ns : Z) : list Z :=
  quoted "{'type':'summary','open_ports':[" ++ port_items 0 open_ports ++ quoted "],'elapsed_ms':" ++ fmt_i64 (elapsed_ms elapsed_ns) ++ quoted "}" ++ LF.

Section Closing.
Variable seconds : Z → list Z.
Variable db : Table.

Definition table_row (port service iana description : list Z) : list Z := pad 7 port ++ pad 22 service ++ pad 17 iana ++ description ++ LF.

(** printPortTable's rows; [None] is a read outside the table. *)
Fixpoint port_rows (ports : list Z) : option (list Z) :=
  match ports with
  | [] => Some []
  | port :: ports =>
    service ← Ports.lookup db port;
    rest ← port_rows ports;
    Some (table_row (fmt_usize port) (default dash (sv_name <$> service)) (default dash (service ≫= sv_iana)) (default dash (service ≫= sv_description)) ++ rest)
  end.

Definition printPortTable (open_ports : list Z) (elapsed_ns : Z) (stopped : bool) : option (list Z) :=
  rows ← port_rows open_ports;
  Some (table_row (text "PORT") (text "SERVICE") (text "IANA") (text "DESCRIPTION") ++ rows
    ++ fmt_usize (Z.of_nat (length open_ports)) ++ text " " ++ (if (length open_ports =? 1)%nat then text "open port" else text "open ports")
    ++ text " (" ++ seconds elapsed_ns ++ text "s" ++ interruptedNote stopped ++ text ")" ++ LF).

(** What runPortScan prints of a scan that returned. *)
Definition port_report (json stopped : bool) (open_ports : list Z) (elapsed_ns : Z) : option (list Z) :=
  if json then Some (ports_summary open_ports elapsed_ns)
  else if (length open_ports =? 0)%nat then
    Some (text "No open ports found (" ++ seconds elapsed_ns ++ text "s" ++ interruptedNote stopped ++ text ")" ++ LF)
  else printPortTable open_ports elapsed_ns stopped.
End Closing.

(** How a command ends that has printed its results. *)
Definition finished (stop_requested : bool) : finish := if stop_requested then interrupted else returns.

#[export] Instance scan_result_eq_dec : EqDecision ScanPorts.scan_result.
Proof. solve_decision. Defined.

Section PortCommand.
Context `{PortRanks} {E : Type} `{Env E} `{!RlimitLaw E}.
Variables (os : platform) (job_size settled_size : Z) (fuel : nat).
Variables (seconds : Z → list Z) (db : Table) (c : console) (env : environ) (room : nat → bool).

(** The message of a scan that ran out of sockets: its text, and its
    format. *)
Definition OUT_OF_SOCKETS : list Z :=
  text "Out of sockets: the system would not open one for " ++ fmt_usize (STALL_LIMIT_NS / 1000000000)
    ++ text "s, so the scan stopped (try again in a moment)".
Definition OUT_OF_SOCKETS_FMT : list Z :=
  text "Out of sockets: the system would not open one for {d}s, so the scan stopped (try again in a moment)".

(** What recordOpen writes to stderr for a port its list cannot grow for:
    append fails with error.OutOfMemory only. *)
Definition append_error (port : Z) : list Z :=
  text "Error appending port " ++ fmt_usize port ++ text ": error.OutOfMemory" ++ LF.

(** The ports reported open without room, in the order of the verdicts. *)
Definition unrecorded (q : query) : list Z := match q with q_done p Targets.open _ false => [port_of p] | _ => [] end.

Definition port_warnings (logs : list (list query)) : list Z :=
  concat (map append_error (flat_map unrecorded (concat logs))).

(** runPortScan: how the scan it makes, if any, went, and its outcome (on
    stderr, the program's own lines: what std.Progress draws there on a
    terminal is Live.v's).  Only the handlers that setUpInteractive installs
    raise the stop flag (Interrupt.v), so without the status line it stays
    down. *)
Inductive runPortScan (args : list (list Z)) (json : bool) : option (ScanPorts.scan_result * list (list query) * list said) → outcome → Prop :=
| port_refused o : port_arguments room args json = inl o → runPortScan args json None o
| port_scanned a ports logs l t events report elapsed_ns stopped :
    port_arguments room args json = inr a →
    scanPorts (E := E) os job_size settled_size fuel (pg_ip a) (pg_start a) (pg_end a) (pg_timeout_ms a) (scan_ports ports) logs l →
    say_all db json (negb (wantsStatusLine os c env json)) l (port_tracker (pg_start a) (pg_end a)) = Some (t, events) →
    port_report seconds db json stopped ports elapsed_ns = Some report →
    elapsed_fits elapsed_ns →
    (wantsStatusLine os c env json = false → stopped = false ∧ Forall (Forall unstopped) logs) →
    runPortScan args json (Some (scan_ports ports, logs, l)) 
      {| oc_stdout := events ++ report; oc_stderr := port_warnings logs; oc_finish := finished stopped |}
| port_failed a why logs l t events :
    port_arguments room args json = inr a →
    scanPorts (E := E) os job_size settled_size fuel (pg_ip a) (pg_start a) (pg_end a) (pg_timeout_ms a) why logs l →
    (∀ ports, why ≠ scan_ports ports) →
    say_all db json (negb (wantsStatusLine os c env json)) l (port_tracker (pg_start a) (pg_end a)) = Some (t, events) →
    let f := if bool_decide (why = ScanPorts.scan_failed out_of_sockets) then fail json OUT_OF_SOCKETS_FMT OUT_OF_SOCKETS
             else {| oc_stdout := []; oc_stderr := []; oc_finish := traced |} in
    runPortScan args json (Some (why, logs, l))
      {| oc_stdout := events ++ oc_stdout f; oc_stderr := port_warnings logs ++ oc_stderr f; oc_finish := oc_finish f |}.
End PortCommand.

(** ** The subnet scan *)

(** The switch on a scan's error. *)
Definition subnet_error (json : bool) (cidr : list Z) (why : zig_error) : outcome :=
  match why with
  | InvalidCidr | InvalidIpAddress | InvalidPrefixLength | InvalidCharacter | Overflow =>
    fail json (text "Invalid subnet '{s}' (use CIDR like 192.168.1.0/24)") (text "Invalid subnet '" ++ cidr ++ text "' (use CIDR like 192.168.1.0/24)")
  | _ => {| oc_stdout := []; oc_stderr := []; oc_finish := traced |}
  end.

(** What scanNetwork and scanNetworkPing print first: nothing when the range
    cannot be read. *)
Definition header_of (json : bool) (cidr : list Z) : option (list Z) :=
  match parseCidr cidr with
  | inl _ => Some []
  | inr network => range ← getIpRange network; Some (printScanHeader json cidr range)
  end.

(** Their error, when they fail: the range's, else that memory ran out. *)
Definition scan_error (cidr : list Z) : zig_error := match parseCidr cidr with inl why => why | inr _ => OutOfMemory end.

Section SubnetCommand.
Context {E : Type} `{EchoLaw E, !RlimitLaw E}.
Variables (os : platform) (job_size settled_size : Z) (garbage : list Z).
Variables (parse_message : list Z → reply_error + Message) (send_arp : ip4 → option (list Z)) (table : Table).
Variable capacity_for : nat → nat.
Variables (seconds : Z → list Z) (c : console) (env : environ).

Definition parent_of (o : SubnetOptions) : option Parent := if so_parent o then Some new_parent else None.

Definition load_error_name (why : load_error) : list Z :=
  match why with LoadFileNotFound => text "FileNotFound" | LoadOutOfMemory => text "OutOfMemory" end.

(** collectDetails' database, and what loading a file into it writes to
    stderr: the file is loaded when manufacturers are asked for and there was
    memory for the details. *)
Inductive oui_loaded (file : option (list Z)) (options : wants) (r : Results.report) : OuiDatabase → list warning → Prop :=
| oui_unread : file = None ∨ resolve_vendor options = false ∨ (∃ ips, r = plain ips) → oui_loaded file options r no_entries []
| oui_read path details db (e : E) e' t :
    file = Some path → resolve_vendor options = true → r = detailed details →
    loadFile capacity_for path no_entries e = Some ((db, inr ()), e', t) → oui_loaded file options r db []
| oui_failed path details db why (e : E) e' t :
    file = Some path → resolve_vendor options = true → r = detailed details →
    loadFile capacity_for path no_entries e = Some ((db, inl why), e', t) →
    oui_loaded file options r db [w_oui_file path (load_error_name why)].

(** The scan a subnet command makes, and what the file of manufacturers comes
    to in it. *)
Inductive scanned_by (a : SubnetArgs) : subnet_run → list warning → Prop :=
| by_network s db says :
    so_ping (sg_options a) = false →
    scanNetwork (E := E) os job_size settled_size garbage parse_message send_arp table db
      (sg_cidr a) (so_wants (sg_options a)) (parent_of (sg_options a)) (Scan.scanned s) →
    oui_loaded (so_oui_file (sg_options a)) (so_wants (sg_options a)) (sn_report s) db says →
    scanned_by a (network_run s) says
| by_pings s db says :
    so_ping (sg_options a) = true →
    scanNetworkPing (E := E) os garbage parse_message send_arp table db
      (sg_cidr a) (so_wants (sg_options a)) (parent_of (sg_options a)) (ping_scanned s) →
    oui_loaded (so_oui_file (sg_options a)) (so_wants (sg_options a)) (ps_report s) db says →
    scanned_by a (ping_run s) says.

(** A scan that failed: the steps it had taken, claims aside. *)
Inductive failed_by (a : SubnetArgs) : list emit → Prop :=
| network_fails why :
    so_ping (sg_options a) = false →
    scanNetwork (E := E) os job_size settled_size garbage parse_message send_arp table no_entries
      (sg_cidr a) (so_wants (sg_options a)) (parent_of (sg_options a)) (Scan.scan_failed why) →
    failed_by a []
| pings_fail begun :
    so_ping (sg_options a) = true →
    scanNetworkPing (E := E) os garbage parse_message send_arp table no_entries
      (sg_cidr a) (so_wants (sg_options a)) (parent_of (sg_options a)) (ping_scan_failed begun) →
    failed_by a match begun with Some (targets, acts) => pings_emits targets acts | None => [] end.

(** runSubnetScan: the scan it makes, if it returns, and the outcome. *)
Inductive runSubnetScan (args : list (list Z)) (json : bool) : option subnet_run → outcome → Prop :=
| subnet_refused o : subnet_arguments os args json = inl o → runSubnetScan args json None o
| subnet_scanned a run says header es events elapsed_ns stopped :
    subnet_arguments os args json = inr a → scanned_by a run says →
    header_of json (sg_cidr a) = Some header →
    run_emits (so_wants (sg_options a)) run es → prints json (negb (wantsStatusLine os c env json)) es events →
    elapsed_fits elapsed_ns →
    (wantsStatusLine os c env json = false → stopped = false) →
    runSubnetScan args json (Some run)
      {| oc_stdout := header ++ events ++ printReport seconds json stopped (so_wants (sg_options a)) (run_report run) elapsed_ns;
         oc_stderr := warnings (run_warnings run ++ says); oc_finish := finished stopped |}
| subnet_failed a header begun es events :
    subnet_arguments os args json = inr a → failed_by a begun →
    header_of json (sg_cidr a) = Some header →
    filter (λ e, negb (is_claim e)) es = begun → prints json (negb (wantsStatusLine os c env json)) es events →
    let f := subnet_error json (sg_cidr a) (scan_error (sg_cidr a)) in
    runSubnetScan args json None
      {| oc_stdout := header ++ events ++ oc_stdout f; oc_stderr := oc_stderr f; oc_finish := oc_finish f |}.
End SubnetCommand.

(** ** main *)

Section Main.
Context `{PortRanks} {E : Type} `{EchoLaw E, !RlimitLaw E}.
Variables (os : platform) (job_size settled_size : Z) (fuel : nat) (garbage : list Z).
Variables (parse_message : list Z → reply_error + Message) (send_arp : ip4 → option (list Z)) (table : Table) (capacity_for : nat → nat).
Variables (seconds : Z → list Z) (db : Table) (c : console) (env : environ) (room : nat → bool) (version : list Z).

Inductive main (args : list (list Z)) : outcome → Prop :=
| main_usage : (length args < 2)%nat → main args {| oc_stdout := usage; oc_stderr := []; oc_finish := returns |}
| main_help command :
    args !! 1%nat = Some command → command = text "--help" ∨ command = text "-h" →
    main args {| oc_stdout := usage; oc_stderr := []; oc_finish := returns |}
| main_version command :
    args !! 1%nat = Some command → command = text "--version" ∨ command = text "-v" →
    main args {| oc_stdout := text "v" ++ version ++ LF; oc_stderr := []; oc_finish := returns |}
| main_ports how o :
    args !! 1%nat = Some (text "-p") →
    runPortScan (E := E) os job_size settled_size fuel seconds db c env room args (hasFlag (drop 2 args) (text "--json")) how o → main args o
| main_subnet how o :
    args !! 1%nat = Some (text "-s") →
    runSubnetScan (E := E) os job_size settled_size garbage parse_message send_arp table capacity_for seconds c env args
      (hasFlag (drop 2 args) (text "--json")) how o → main args o
| main_unknown command :
    args !! 1%nat = Some command →
    command ∉ [text "--help"; text "-h"; text "--version"; text "-v"; text "-p"; text "-s"] →
    main args usage_exit.
End Main.

(** ** What a port scan accepts *)

(** An option of a port scan, well written. *)
Inductive port_option := o_json | o_timeout (value : list Z) (ms : Z).

Definition port_option_args (o : port_option) : list (list Z) :=
  match o with o_json => [text "--json"] | o_timeout value _ => [text "--timeout"; value] end.

Definition port_option_ok (o : port_option) : Prop :=
  match o with o_json => True | o_timeout value ms => parseInt_u16 value = inr ms ∧ 1 <= ms <= 60000 end.

Definition port_timeout (o : port_option) : option Z := match o with o_json => None | o_timeout _ ms => Some ms end.

(** The last timeout given, else [t]. *)
Definition last_timeout (os : list port_option) (t : option Z) : option Z :=
  match last (omap port_timeout os) with Some ms => Some ms | None => t end.

Lemma last_timeout_cons o os t : last_timeout (o :: os) t = last_timeout os (match port_timeout o with Some ms => Some ms | None => t end).
Proof.
  unfold last_timeout. destruct o as [|value ms]; [done|]. cbn [omap list_omap port_timeout].
  rewrite last_cons. by destruct (last _).
Qed.

Lemma parse_u16_range buf : ∀ neg acc v, 0 <= acc < 65536 → parse_digits_u16 neg buf acc = inr v → 0 <= v < 65536.
Proof.
  induction buf as [|c buf IH]; intros neg acc v Ha Hp; cbn [parse_digits_u16] in Hp; [by injection Hp as <-|].
  destruct (c =? 95); [by eapply IH|]. destruct (char_to_digit c 10) as [d|]; [|done]. cbn [or_error mbind zig_bind] in Hp.
  destruct (if negb (acc =? 0) then _ else _) as [|a1]; [done|]. cbn [mbind zig_bind] in Hp.
  destruct (zu16 _) as [a2|] eqn:H2; [|done]. apply fits_inv in H2 as [-> H2]. cbn [or_error mbind zig_bind] in Hp. by eapply IH.
Qed.

Lemma parseInt_u16_range s v : parseInt_u16 s = inr v → 0 <= v < 65536.
Proof.
  unfold parseInt_u16, parse_signed_u16. destruct s as [|c s]; [done|].
  intros Hp. repeat case_match; try done; (eapply parse_u16_range; [|exact Hp]; lia).
Qed.

(** The options read are those written. *)
Lemma port_options_exact args : ∀ t r,
  port_options args t = inr r ↔
  ∃ os, args = flat_map port_option_args os ∧ Forall port_option_ok os ∧ r = last_timeout os t.
Proof.
  assert (∀ n args, (length args ≤ n)%nat → ∀ t r, port_options args t = inr r ↔
    ∃ os, args = flat_map port_option_args os ∧ Forall port_option_ok os ∧ r = last_timeout os t) as Hall; [|by intros t r; eapply Hall].
  clear args. induction n as [|n IH]; intros args Hn t r.
  { destruct args as [|arg args]; [|simpl in Hn; lia]. split.
    - intros [= <-]. exists []. by repeat split.
    - intros ([|o os] & Heq & _ & ->); [done|]. by destruct o. }
  destruct args as [|arg args]; cbn [port_options].
  { split; [intros [= <-]; exists []; by repeat split|]. intros ([|o os] & Heq & _ & ->); [done|]. by destruct o. }
  simpl in Hn. destruct (bool_decide (arg = text "--json")) eqn:Hj; to_prop.
  - subst. rewrite (IH args) by lia. split.
    + intros (os & -> & Hok & ->). exists (o_json :: os). split; [done|]. split; [by constructor|]. by rewrite last_timeout_cons.
    + intros ([|o os] & Heq & Hok & ->); [done|]. apply Forall_cons in Hok as [Ho Hok]. destruct o as [|value ms]; [|done].
      injection Heq as ->. exists os. rewrite last_timeout_cons. by repeat split.
  - destruct (bool_decide (arg = text "--timeout")) eqn:Ht; to_prop; cbn [negb].
    + subst. destruct args as [|value args].
      { split; [done|]. intros ([|o os] & Heq & Hok & ->); [done|]. by destruct o. }
      destruct (parseInt_u16 value) as [e|parsed] eqn:Hp.
      { split; [done|]. intros ([|o os] & Heq & Hok & ->); [done|]. apply Forall_cons in Hok as [Ho _].
        destruct o as [|v ms]; [done|]. injection Heq as <- _. destruct Ho as [Ho _]. congruence. }
      pose proof (parseInt_u16_range _ _ Hp) as Hr.
      destruct ((parsed =? 0) || (parsed >? 60000)) eqn:Hb.
      { split; [done|]. intros ([|o os] & Heq & Hok & ->); [done|]. apply Forall_cons in Hok as [Ho _].
        destruct o as [|v ms]; [done|]. injection Heq as <- _. destruct Ho as [Ho Hms]. exfalso.
        apply orb_true_iff in Hb as [Hb|Hb]; to_prop; rewrite Hp in Ho; injection Ho as ->; lia. }
      rewrite Z.gtb_ltb in Hb. to_prop. rewrite (IH args) by (simpl in Hn; lia). split.
      * intros (os & -> & Hok & ->). exists (o_timeout value parsed :: os). split; [done|]. split; [|by rewrite last_timeout_cons].
        constructor; [|done]. split; [done|lia].
      * intros ([|o os] & Heq & Hok & ->); [done|]. apply Forall_cons in Hok as [Ho Hok]. destruct o as [|v ms]; [done|].
        injection Heq as <- ->. destruct Ho as [Ho _]. rewrite Hp in Ho. injection Ho as <-. exists os. rewrite last_timeout_cons. by repeat split.
    + split; [done|]. intros ([|o os] & Heq & Hok & ->); [done|]. by destruct o; injection Heq as ->.
Qed.

Lemma port_arguments_read room args json a :
  (∀ k, room k = true) →
  port_arguments room args json = inr a ↔
  ∃ exe command ip p0 p1 options,
    args = exe :: command :: ip :: (fmt_u p0 ++ DASH :: fmt_u p1) :: flat_map port_option_args options ∧
    ipStringToBytes ip = inr (pg_ip a) ∧ is_port p0 ∧ is_port p1 ∧ Forall port_option_ok options ∧
    pg_start a = Z.min p0 p1 ∧ pg_end a = Z.max p0 p1 ∧ pg_timeout_ms a = last_timeout options None.
Proof.
  intros Hroom. split.
  - destruct args as [|exe [|command [|ip [|range options]]]]; cbn [port_arguments]; try (by destruct json).
    destruct (ipStringToBytes ip) as [|ip_address] eqn:Hip; [done|].
    destruct (splitStringToIntArray room range DASH) as [|ns] eqn:Hs; [done|].
    apply port_list_read in Hs as (Hne & Hp & ->); [|unfold is_digit, DASH; lia|done].
    destruct ns as [|p0 [|p1 [|? ?]]]; try done. apply Forall_cons in Hp as [Hp0 [Hp1 _]%Forall_cons].
    destruct (if p0 >? p1 then _ else _) as [lo hi] eqn:Hord.
    destruct (port_options options None) as [|timeout] eqn:Ho; [done|]. intros [= <-].
    apply port_options_exact in Ho as (os & -> & Hok & ->). exists exe, command, ip, p0, p1, os. cbn [pg_ip pg_start pg_end pg_timeout_ms].
    split; [done|]. rewrite Z.gtb_ltb in Hord. split; [done|]. split; [done|]. split; [done|]. split; [done|].
    destruct (p1 <? p0) eqn:Hlt; to_prop; simplify_eq; split; try lia; split; try lia; done.
  - intros (exe & command & ip & p0 & p1 & options & -> & Hip & Hp0 & Hp1 & Hok & Hs & He & Ht). cbn [port_arguments].
    rewrite Hip. assert (splitStringToIntArray room (fmt_u p0 ++ DASH :: fmt_u p1) DASH = inr [p0; p1]) as ->.
    { apply port_list_read; [unfold is_digit, DASH; lia|done|]. split; [done|]. split; [apply Forall_cons_2; [done|by apply Forall_singleton]|done]. }
    assert (port_options (flat_map port_option_args options) None = inr (pg_timeout_ms a)) as ->.
    { apply port_options_exact. by exists options. }
    destruct a as [aip alo ahi atm]. simpl in *. subst. rewrite Z.gtb_ltb. destruct (p1 <? p0) eqn:Hlt; to_prop; do 2 f_equal; lia.
Qed.

Lemma last_timeout_ok os : Forall port_option_ok os → ∀ ms, last_timeout os None = Some ms → 1 <= ms <= 60000.
Proof.
  intros Hok ms. unfold last_timeout. destruct (last (omap port_timeout os)) as [m|] eqn:Hl; [|done]. intros [= <-].
  apply last_Some_elem_of in Hl. apply list_elem_of_omap in Hl as (o & Ho & Hm). rewrite Forall_forall in Hok. specialize (Hok _ Ho).
  destruct o as [|value m']; [done|]. injection Hm as <-. by destruct Hok.
Qed.

(** What the scan may count on. *)
Lemma port_arguments_bounds room args json a :
  (∀ k, room k = true) → port_arguments room args json = inr a →
  1 <= pg_start a ∧ pg_start a <= pg_end a ∧ pg_end a < 65536 ∧ ∀ ms, pg_timeout_ms a = Some ms → 0 <= ms.
Proof.
  intros Hroom Ha. apply port_arguments_read in Ha as (exe & command & ip & p0 & p1 & options & _ & _ & Hp0 & Hp1 & Hok & -> & -> & Ht); [|done].
  unfold is_port in *. split; [lia|]. split; [lia|]. split; [lia|]. intros ms Hms. rewrite Ht in Hms.
  apply last_timeout_ok in Hms; [lia|done].
Qed.

(** C16: The arguments of a port scan.  They are accepted exactly when there is
    an address in dotted form, two ports between 1 and 65535 with a dash
    between them, and options each of which is --json or --timeout with a
    number of milliseconds from 1 to 60000; the scan is of that address, of
    the ports from the smaller to the larger in whichever order they came,
    with the last timeout given. *)
Theorem port_arguments_exact room args json a :
  (∀ k, room k = true) →
  port_arguments room args json = inr a ↔
  ∃ exe command ip p0 p1 options,
    args = exe :: command :: ip :: (fmt_u p0 ++ DASH :: fmt_u p1) :: flat_map port_option_args options ∧
    ipStringToBytes ip = inr (pg_ip a) ∧ is_port p0 ∧ is_port p1 ∧ Forall port_option_ok options ∧
    pg_start a = Z.min p0 p1 ∧ pg_end a = Z.max p0 p1 ∧ pg_timeout_ms a = last_timeout options None.
Proof. apply port_arguments_read. Qed.

(** "ns -p 10.0.0.1 80-20 --timeout 250 --json --timeout 300" *)
Lemma port_arguments_exact_witness :
  let args := [text "ns"; text "-p"; text "10.0.0.1"; text "80-20"; text "--timeout"; text "250"; text "--json"; text "--timeout"; text "300"] in
  let a := {| pg_ip := IP 10 0 0 1; pg_start := 20; pg_end := 80; pg_timeout_ms := Some 300 |} in
  port_arguments (λ _, true) args true = inr a ∧
  ∃ exe command ip p0 p1 options,
    args = exe :: command :: ip :: (fmt_u p0 ++ DASH :: fmt_u p1) :: flat_map port_option_args options ∧
    ipStringToBytes ip = inr (pg_ip a) ∧ is_port p0 ∧ is_port p1 ∧ Forall port_option_ok options ∧
    pg_start a = Z.min p0 p1 ∧ pg_end a = Z.max p0 p1 ∧ pg_timeout_ms a = last_timeout options None.
Proof.
  intros args a. assert (port_arguments (λ _, true) args true = inr a) as Ha by (vm_compute; reflexivity).
  split; [exact Ha|]. apply (port_arguments_exact (λ _, true) args true a); [done|exact Ha].
Defined.

(** ** Input that is refused *)

(** An error as the caller asked to have it: status 1, and in JSON one object
    on stdout and nothing else. *)
Definition refused_well (json : bool) (o : outcome) : Prop :=
  oc_finish o = exits 1 ∧
  if json then oc_stderr o = [] ∧ ∃ msg, msg ≠ [] ∧
    read_lines (oc_stdout o) = Some [[member "type" (j_string (text "error")); member "message" (j_string msg)]]
  else (oc_stdout o = [] ∨ oc_stdout o = usage) ∧ (oc_stderr o = [] ∧ oc_stdout o = usage ∨ ∃ msg, msg ≠ [] ∧ oc_stderr o = text "NetScanner: " ++ msg ++ LF).

Lemma error_line msg : bytes msg → error_event msg = json_line [member "type" (j_string (text "error")); member "message" (j_string (Json.kept 512 msg))].
Proof.
  intros Hm. name_members. rewrite (escaped_plain (text "error")) by (vm_compute; reflexivity). unfold error_event.
  destruct (kept_prefix 512 msg Hm) as (_ & _ & -> & _). generalize (escaped (Json.kept 512 msg)). intros a. same_text.
Qed.

Lemma kept_some cap s : bytes s → s ≠ [] → (6 ≤ cap)%nat → Json.kept cap s ≠ [].
Proof.
  intros Hs Hne Hcap. destruct (json_loop_value cap s []) as (k & Hk & Hv & Hl & Hn); [simpl; lia|].
  destruct (kept_prefix cap s Hs) as (k' & Hk' & He & _). intros Hnil. rewrite Hnil in He. unfold jsonEscape in He. simpl in He.
  rewrite He in Hv, Hn. simpl in Hn. destruct s as [|c s]; [done|]. destruct k as [|k].
  - specialize (Hn c eq_refl). pose proof (json_piece_length c). lia.
  - cbn [take app] in Hv. unfold escaped in Hv. cbn [map concat] in Hv. pose proof (json_piece_length c) as Hp.
    symmetry in Hv. apply app_nil in Hv as [Hv _]. rewrite Hv in Hp. simpl in Hp. lia.
Qed.

Lemma fail_refused json fmt printed : bytes fmt → bytes printed → fmt ≠ [] → printed ≠ [] → refused_well json (fail json fmt printed).
Proof.
  intros Hf Hp Hfn Hpn. unfold fail. assert (bytes (fail_message fmt printed) ∧ fail_message fmt printed ≠ []) as [Hm Hmn].
  { unfold fail_message, print_into. by case_match. }
  destruct json; (split; [done|]); cbn [oc_stdout oc_stderr].
  - split; [done|]. exists (Json.kept 512 (fail_message fmt printed)). split; [apply kept_some; [done|done|lia]|].
    rewrite error_line by done. rewrite <- (app_nil_r (json_line _)).
    rewrite (read_lines_cons [member "type" (j_string (text "error")); member "message" (j_string (Json.kept 512 (fail_message fmt printed)))] [] []); [done|done| |done].
    members_ok. by apply kept_bytes.
  - split; [by left|]. right. by exists (fail_message fmt printed).
Qed.

Lemma fail_with_refused json msg : msg ≠ ""%string → bytes (text msg) → refused_well json (fail_with json msg).
Proof. intros Hne Hb. assert (text msg ≠ []) by (by destruct msg). by apply fail_refused. Qed.

Lemma usage_refused : refused_well false usage_exit.
Proof. split; [done|]. split; [by right|]. by left. Qed.

(** What reading a range can fail with. *)
Lemma zig_bind_err {A B} (m : zig_error + A) (k : A → zig_error + B) e : (m ≫= k) = inl e → m = inl e ∨ ∃ a, m = inr a ∧ k a = inl e.
Proof. destruct m as [e'|a]; simpl; [intros [= ->]; by left|intros Hk; right; by exists a]. Qed.

Definition subnet_why (why : zig_error) : Prop :=
  why = InvalidCidr ∨ why = InvalidIpAddress ∨ why = InvalidPrefixLength ∨ why = InvalidCharacter ∨ why = Overflow.

Lemma or_error_why {A} e (m : option A) why : or_error e m = inl why → why = e.
Proof. destruct m; [done|by intros [= ->]]. Qed.

Lemma parse_digits_why neg base s : ∀ acc why, parse_digits neg base s acc = inl why → why = InvalidCharacter ∨ why = Overflow.
Proof.
  induction s as [|c s IH]; intros acc why; cbn [parse_digits]; [done|]. case_match; [apply IH|].
  assert (∀ v, (or_error Overflow (zu8 v) ≫= λ a, parse_digits neg base s a) = inl why → why = InvalidCharacter ∨ why = Overflow) as Hrest.
  { intros v [He%or_error_why|(a & _ & He)]%zig_bind_err; [by right|by eapply IH]. }
  intros [He%or_error_why|(d & _ & He)]%zig_bind_err; [by left|]. cbv beta in He. case_match; [|by eapply Hrest].
  apply zig_bind_err in He as [He%or_error_why|(a & _ & He)]; [by right|by eapply Hrest].
Qed.

Lemma parseInt_why s base why : parseInt_u8 s base = inl why → why = InvalidCharacter ∨ why = Overflow.
Proof.
  unfold parseInt_u8, parse_signed. intros He. repeat case_match; try (injection He as <-; by left); by eapply parse_digits_why.
Qed.

Lemma parseCidr_why s why : parseCidr s = inl why → subnet_why why.
Proof.
  unfold parseCidr, subnet_why. destruct (split_scalar SLASH s) as [|t [|u [|]]]; try (intros [= <-]; by left).
  intros [He|(ip & _ & [He%parseInt_why|(p & _ & He)]%zig_bind_err)]%zig_bind_err; [|naive_solver|].
  - unfold ipStringToBytes in He. apply or_error_why in He. naive_solver.
  - case_match; [|done]. injection He as <-. naive_solver.
Qed.

Lemma bytes_text_app a b : bytes a → bytes b → bytes (a ++ b).
Proof. intros. by apply Forall_app. Qed.

Lemma fail_arg_refused json fmt a s b : bytes fmt → bytes a → bytes s → bytes b → fmt ≠ [] → a ≠ [] → refused_well json (fail json fmt (a ++ s ++ b)).
Proof. intros. apply fail_refused; [done|by repeat apply bytes_text_app|done|by destruct a]. Qed.

Lemma text_bytes s : bytes (text s).
Proof.
  apply Forall_fmap, Forall_true. intros c. unfold is_u8. simpl. pose proof (Ascii.nat_ascii_bounded c). lia.
Qed.
#[local] Hint Resolve text_bytes : core.

Lemma subnet_error_refused json cidr why : bytes cidr → subnet_why why → refused_well json (subnet_error json cidr why).
Proof.
  intros Hc Hw. assert (subnet_error json cidr why = subnet_error json cidr InvalidCidr) as -> by (destruct Hw as [->|[->|[->|[->| ->]]]]; done).
  apply (fail_arg_refused json _ (text "Invalid subnet '")); [auto|auto|done|auto|done|done].
Qed.

Lemma unknown_refused json arg : bytes arg →
  refused_well json (let f := fail json (text "Unknown option '{s}'") (text "Unknown option '" ++ arg ++ text "'") in
    {| oc_stdout := (if json then [] else usage) ++ oc_stdout f; oc_stderr := oc_stderr f; oc_finish := oc_finish f |}).
Proof.
  intros Ha. cbv zeta.
  destruct (fail_arg_refused json (text "Unknown option '{s}'") (text "Unknown option '") arg (text "'")) as [Hf Hr]; [auto|auto|done|auto|done|done|].
  split; [done|]. destruct json; cbn [oc_stdout oc_stderr] in *; [exact Hr|].
  change (oc_stdout (fail false _ _)) with (@nil Z) in *. rewrite app_nil_r. split; [by right|]. right. destruct Hr as [_ [[_ Hu]|Hr]]; [done|exact Hr].
Qed.

Lemma port_options_refused args : ∀ t msg, port_options args t = inl msg → ∀ json, refused_well json (fail_with json msg).
Proof.
  assert (∀ n args, (length args ≤ n)%nat → ∀ t msg, port_options args t = inl msg → ∀ json, refused_well json (fail_with json msg)) as Hall;
    [|by intros t msg Hm; eapply Hall].
  clear args. induction n as [|n IH]; intros args Hn t msg Hm json; (destruct args as [|arg args]; [done|]); cbn [length] in Hn; [lia|].
  cbn [port_options] in Hm. case_match; [by eapply (IH args); [lia|]|].
  case_match; [injection Hm as <-; apply fail_with_refused; [done|auto]|].
  destruct args as [|value args]; [injection Hm as <-; apply fail_with_refused; [done|auto]|].
  case_match; [injection Hm as <-; apply fail_with_refused; [done|auto]|].
  case_match; [injection Hm as <-; apply fail_with_refused; [done|auto]|].
  cbn [length] in Hn. eapply (IH args); [lia|exact Hm].
Qed.

Lemma port_arguments_refused room args json o : port_arguments room args json = inl o → refused_well json o.
Proof.
  intros Ho.
  assert (refused_well json (if json then fail_with json "Usage: ns -p <ip> <port-range>" else usage_exit)) as Husage.
  { destruct json; [apply fail_with_refused; [done|auto]|apply usage_refused]. }
  destruct args as [|a0 [|a1 [|ip [|range options]]]]; cbn [port_arguments] in Ho; try (by injection Ho as <-). clear Husage.
  destruct (ipStringToBytes ip); [injection Ho as <-; apply fail_with_refused; [done|auto]|].
  destruct (splitStringToIntArray room range DASH) as [|l]; [injection Ho as <-; apply fail_with_refused; [done|auto]|].
  destruct l as [|p0 [|p1 [|]]]; try (injection Ho as <-; apply fail_with_refused; [done|auto]).
  case_match. destruct (port_options options None) as [msg|] eqn:Hp; [|done]. injection Ho as <-. by eapply port_options_refused.
Qed.

(** What a subnet option can be refused with *)
Lemma subnet_options_refused os json n : ∀ args o why, (length args ≤ n)%nat → Forall bytes args → subnet_options os json args o = inl why →
  match why with bad msg => refused_well json (fail_with json msg) | unknown arg => bytes arg end.
Proof.
  induction n as [|n IH]; intros args o why Hn Hb Hw; (destruct args as [|arg args]; [done|]); cbn [length] in Hn; [lia|].
  apply Forall_cons in Hb as [Ha Hb]. cbn [subnet_options] in Hw.
  do 5 (case_match; [eapply (IH args); [lia|done|exact Hw]|]).
  case_match.
  { destruct args as [|path args]; [injection Hw as <-; apply fail_with_refused; [done|auto]|].
    apply Forall_cons in Hb as [_ Hb]. cbn [length] in Hn. eapply (IH args); [lia|done|exact Hw]. }
  case_match; [|by injection Hw as <-].
  revert Hw; repeat (match goal with |- context [if ?b then _ else _] => destruct b end); intros Hw; try (injection Hw as <-; apply fail_with_refused; [done|auto]); (eapply (IH args); [lia|done|exact Hw]).
Qed.

Lemma subnet_arguments_refused os args json o : Forall bytes args → subnet_arguments os args json = inl o → refused_well json o.
Proof.
  intros Hb Ho.
  assert (refused_well json (if json then fail_with json "Usage: ns -s <subnet>" else usage_exit)) as Husage.
  { destruct json; [apply fail_with_refused; [done|auto]|apply usage_refused]. }
  destruct args as [|a0 [|a1 [|cidr options]]]; cbn [subnet_arguments] in Ho; try (by injection Ho as <-). clear Husage.
  do 3 apply Forall_cons in Hb as [_ Hb].
  destruct (subnet_options os json options no_options) as [[msg|arg]|] eqn:Hs; [..|done]; pose proof (subnet_options_refused _ _ _ _ _ _ (le_n _) Hb Hs) as Hr.
  - by injection Ho as <-.
  - injection Ho as <-. by apply unknown_refused.
Qed.

Lemma subnet_cidr_bytes os args json a : Forall bytes args → subnet_arguments os args json = inr a → bytes (sg_cidr a).
Proof.
  intros Hb Ha. destruct args as [|a0 [|a1 [|cidr options]]]; cbn [subnet_arguments] in Ha; try (by destruct json).
  do 2 apply Forall_cons in Hb as [_ Hb]. apply Forall_cons in Hb as [Hc _].
  destruct (subnet_options os json options no_options) as [[|]|]; [done..|]. by injection Ha as <-.
Qed.

(** Output that is no terminal, an empty environment and an empty table. *)
Definition no_environ : environ := {| LC_ALL := None; LC_CTYPE := None; LANG := None; TERM := None |}.
Definition no_services : Table := {| entry_count := 0; record_size := 20; records := []; strings := [] |}.
Definition no_console : console := {| stdout_tty := Some false; stderr_tty := Some false; size_answer := None |}.

Section Refused.
Context `{PortRanks} {E : Type} `{EchoLaw E, !RlimitLaw E}.
Variables (os : platform) (job_size settled_size : Z) (fuel : nat) (garbage : list Z).
Variables (parse_message : list Z → reply_error + Message) (send_arp : ip4 → option (list Z)) (table : Table) (capacity_for : nat → nat).
Variables (seconds : Z → list Z) (db : Table) (c : console) (env : environ) (room : nat → bool) (version : list Z).

Lemma scanned_parses a run says :
  scanned_by (E := E) os job_size settled_size garbage parse_message send_arp table capacity_for a run says →
  ∃ network, parseCidr (sg_cidr a) = inr network.
Proof.
  intros Hs. destruct Hs as [s odb says _ Hn _|s odb says _ Hp _].
  - inversion Hn; subst. by eexists.
  - inversion Hp as [| | |? ? targets ? ? ? ? ? ? ? ? ? ? ? ? ? ? Hc]; subst. unfold cidr_ips in Hc. destruct (parseCidr _); [done|by eexists].
Qed.

(** A scan of nothing readable has done nothing. *)
Lemma failed_unparsed a begun why :
  failed_by (E := E) os job_size settled_size garbage parse_message send_arp table a begun → parseCidr (sg_cidr a) = inl why → begun = [].
Proof.
  intros Hf Hw. destruct Hf as [|b _ Hp]; [done|]. inversion Hp as [| |? ? ? ? ? ? ? ? Hc|]; subst; try done.
  unfold cidr_ips in Hc. by rewrite Hw in Hc.
Qed.

Lemma unclaimed_nothing json stream (es : list emit) out : filter (λ e, negb (is_claim e)) es = [] → prints json stream es out → out = [].
Proof.
  intros Hes (m & Hm & _). destruct es as [|e es]; [by injection Hm as _ <-|].
  destruct e; try (rewrite filter_cons_True in Hes by done; done).
Qed.

(** A command whose arguments are no good makes no scan. *)
Lemma port_command_refuses args json how o :
  (∃ e, port_arguments room args json = inl e) →
  runPortScan (E := E) os job_size settled_size fuel seconds db c env room args json how o → how = None ∧ refused_well json o.
Proof.
  intros [e He] Hr. inversion Hr as [o' Ho|? ? ? ? ? ? ? ? ? Ha|? ? ? ? ? ? Ha]; subst; [|congruence..].
  split; [done|by eapply port_arguments_refused].
Qed.

Lemma subnet_command_refuses args json how o :
  Forall bytes args → (∀ a network, subnet_arguments os args json = inr a → parseCidr (sg_cidr a) ≠ inr network) →
  runSubnetScan (E := E) os job_size settled_size garbage parse_message send_arp table capacity_for seconds c env args json how o →
  how = None ∧ refused_well json o.
Proof.
  intros Hb Hno Hr. inversion Hr as [o' Ho|a run says ? ? ? ? ? Ha Hs|a header begun es events Ha Hs Hh Hes Hev]; subst.
  - split; [done|by eapply subnet_arguments_refused].
  - apply scanned_parses in Hs as [network Hp]. by destruct (Hno _ _ Ha Hp).
  - split; [done|]. subst f. unfold header_of in Hh. destruct (parseCidr (sg_cidr a)) as [why|network] eqn:Hp; [|by destruct (Hno _ _ Ha Hp)].
    injection Hh as <-. rewrite (unclaimed_nothing _ _ _ _ (failed_unparsed _ _ _ Hs Hp) Hev), !app_nil_l.
    replace (scan_error (sg_cidr a)) with why by (unfold scan_error; by rewrite Hp).
    pose proof (subnet_error_refused json (sg_cidr a) why (subnet_cidr_bytes _ _ _ _ Hb Ha) (parseCidr_why _ _ Hp)) as Hf.
    by destruct (subnet_error json (sg_cidr a) why).
Qed.

(** C15: Input that is refused, from the command line to the exit.  Without a
    command the program prints its usage and succeeds; with one it does not
    know, it prints the usage and exits with status 1.  Whatever is wrong with
    the arguments of a command - one missing, an address, a port range, a
    number, an option that cannot be read, a subnet that is none - it says so
    in the form the caller asked for and exits with status 1: with --json
    stdout is one error object and nothing goes to stderr; else the usage, or
    a line on stderr, or both.  No such error comes out as a trace. *)
Theorem input_errors_fail args o :
  Forall bytes args →
  main (E := E) os job_size settled_size fuel garbage parse_message send_arp table capacity_for seconds db c env room version args o →
  let json := hasFlag (drop 2 args) (text "--json") in
  ((length args < 2)%nat → oc_stdout o = usage ∧ oc_finish o = returns) ∧
  (∀ command, args !! 1%nat = Some command →
    command ∉ [text "--help"; text "-h"; text "--version"; text "-v"; text "-p"; text "-s"] → oc_stdout o = usage ∧ oc_finish o = exits 1) ∧
  (args !! 1%nat = Some (text "-p") → (∃ e, port_arguments room args json = inl e) → refused_well json o) ∧
  (args !! 1%nat = Some (text "-s") →
    (∀ a network, subnet_arguments os args json = inr a → parseCidr (sg_cidr a) ≠ inr network) → refused_well json o).
Proof.
  intros Hb Hm json.
  assert ((length args < 2)%nat → ∀ x, args !! 1%nat = Some x → False) as Hshort by (intros Hl x Hx%lookup_lt_Some; lia).
  assert (∀ x y, args !! 1%nat = Some x → args !! 1%nat = Some y → x = y) as Hsame by (intros; congruence).
  destruct Hm as [Hl|x Hx Hc|x Hx Hc|how o Hx Hr|how o Hx Hr|x Hx Hc]; split_and!; try done; intros;
    try (exfalso; by eapply Hshort); try (match goal with Hy : args !! 1%nat = Some _ |- _ => pose proof (Hsame _ _ Hx Hy) end; subst).
  all: try (exfalso; destruct Hc as [Hc|Hc]; discriminate Hc).
  all: try (exfalso; destruct Hc as [Hc|Hc]; subst; match goal with Hn : _ ∉ _ |- _ => apply Hn; in_list end).
  all: try (exfalso; match goal with Hn : _ ∉ _ |- _ => apply Hn; in_list end).
  all: try match goal with Hn : text _ = text _ |- _ => discriminate Hn end.
  - by eapply port_command_refuses.
  - by eapply subnet_command_refuses.
Qed.
End Refused.

(** "ns -s 10.0.0.7/33 --json" *)
Lemma input_errors_fail_witness :
  let args := [text "ns"; text "-s"; text "10.0.0.7/33"; text "--json"] in
  ∃ o, main (H := small_ranks) (E := script) Linux 24 40 20 [] sample_parse (λ _, None) (oui_table TWO_VENDORS) (λ n, n) (λ _, [])
      no_services no_console no_environ (λ _, true) (text "0.0.0") args o ∧ refused_well true o.
Proof.
  intros args.
  assert (∃ a, subnet_arguments Linux args true = inr a ∧ sg_cidr a = text "10.0.0.7/33" ∧ so_ping (sg_options a) = false) as (a & Ha & Hc & Hp)
    by (eexists; by vm_compute).
  assert (∃ o, main (H := small_ranks) (E := script) Linux 24 40 20 [] sample_parse (λ _, None) (oui_table TWO_VENDORS) (λ n, n) (λ _, [])
      no_services no_console no_environ (λ _, true) (text "0.0.0") args o) as [o Ho].
  { eexists. eapply main_subnet; [done|]. apply (subnet_failed _ _ _ _ _ _ _ _ _ _ _ _ _ a [] [] [] []); [exact Ha| | |done|by eexists].
    - apply (network_fails _ _ _ _ _ _ _ _ InvalidPrefixLength); [done|]. apply scan_unparsed. rewrite Hc. by vm_compute.
    - rewrite Hc. by vm_compute. }
  exists o. split; [exact Ho|].
  destruct (input_errors_fail (E := script) (H := small_ranks) Linux 24 40 20 [] sample_parse (λ _, None) (oui_table TWO_VENDORS) (λ n, n) (λ _, [])
    no_services no_console no_environ (λ _, true) (text "0.0.0") args o) as (_ & _ & _ & Hs); [by repeat (apply Forall_cons_2; [apply text_bytes|])|exact Ho|].
  apply Hs; [done|]. intros a' network Ha' Hn. assert (a' = a) as -> by (change (hasFlag (drop 2 args) (text "--json")) with true in Ha'; congruence).
  rewrite Hc in Hn. vm_compute in Hn. discriminate Hn.
Defined.

(** ** What the code does with input at the edges *)

(** A message that does not fit is its format, braces and all. *)
Lemma long_option_unprinted arg : (256 < length arg)%nat →
  fail_message (text "Unknown option '{s}'") (text "Unknown option '" ++ arg ++ text "'") = text "Unknown option '{s}'".
Proof.
  intros Hl. unfold fail_message, print_into. rewrite (proj2 (Nat.leb_gt _ _)); [done|]. rewrite !length_app. lia.
Qed.

(** The path of --oui-file is an argument like any other to [hasFlag]. *)
Lemma path_turns_json_on os exe cidr :
  let args := [exe; text "-s"; cidr; text "--oui-file"; text "--json"] in
  hasFlag (drop 2 args) (text "--json") = true ∧
  ∃ a, subnet_arguments os args true = inr a ∧ so_oui_file (sg_options a) = Some (text "--json").
Proof. intros args. split; [|by eexists]. unfold args, hasFlag. simpl. by rewrite orb_true_r. Qed.

(** A character of two bytes at the end of the room is cut in half. *)
Lemma escape_splits_character : jsonEscape 768 (replicate 767 97 ++ [195; 169]) = replicate 767 97 ++ [195].
Proof. vm_compute. reflexivity. Qed.

(** A label of printable ASCII stays so. *)
Lemma scanLabel_fits target : (length (scanLabel target) ≤ 64)%nat.
Proof. unfold scanLabel, print_into. destruct (length _ <=? 64)%nat eqn:Hl; [by apply Nat.leb_le in Hl|simpl; lia]. Qed.
