(* ===== verification/Events.v ===== *)
(** * scanner.zig, main.zig, neighbor_table.zig: the events of --json

    Every line the program prints with --json, what a reader of JSON gets back
    from it ([event_reads]), and when it is text at all: JSON is UTF-8
    (RFC 8259), the escaping works byte by byte, so a line is UTF-8 exactly
    when what its buffers kept of the texts is. *)
From Stdlib Require Import String.
From S2P Require Import Prelude Words Decimal Ranges Text Json Progress Ports Discovery Results Output Cli.
Open Scope Z_scope.

(** ** UTF-8 (RFC 3629) *)

(** The ranges of the bytes still to come of a character, its first byte
    read; none between characters. *)
Definition CONT : Z * Z := (128, 191).

Definition utf8_step (wait : list (Z * Z)) (b : Z) : option (list (Z * Z)) :=
  match wait with
  | (lo, hi) :: wait => if (lo <=? b) && (b <=? hi) then Some wait else None
  | [] =>
    if (0 <=? b) && (b <=? 127) then Some []
    else if (194 <=? b) && (b <=? 223) then Some [CONT]
    else if b =? 224 then Some [(160, 191); CONT]
    else if b =? 237 then Some [(128, 159); CONT]
    else if (225 <=? b) && (b <=? 239) then Some [CONT; CONT]
    else if b =? 240 then Some [(144, 191); CONT; CONT]
    else if (241 <=? b) && (b <=? 243) then Some [CONT; CONT; CONT]
    else if b =? 244 then Some [(128, 143); CONT; CONT]
    else None
  end.

Fixpoint utf8_run (wait : list (Z * Z)) (s : list Z) : option (list (Z * Z)) :=
  match s with
  | [] => Some wait
  | b :: s => wait ← utf8_step wait b; utf8_run wait s
  end.

Definition utf8_text (s : list Z) : bool := bool_decide (utf8_run [] s = Some []).

Lemma utf8_run_app s t : ∀ wait, utf8_run wait (s ++ t) = (wait ← utf8_run wait s; utf8_run wait t).
Proof.
  induction s as [|b s IH]; intros wait; [done|]. cbn [app utf8_run]. destruct (utf8_step wait b); [apply IH|done].
Qed.

Definition ascii (c : Z) : Prop := 0 <= c <= 127.

Lemma utf8_run_ascii s : Forall ascii s → utf8_run [] s = Some [].
Proof.
  induction 1 as [|c s Hc _ IH]; [done|]. cbn [utf8_run utf8_step]. unfold ascii in Hc.
  by rewrite (proj2 (Z.leb_le _ _)), (proj2 (Z.leb_le _ _)) by lia.
Qed.

(** Bytes that may follow in a character are none of ASCII. *)
Definition waits (wait : list (Z * Z)) : Prop := Forall (λ r, 128 <= r.1) wait.

Lemma utf8_step_waits wait b wait' : waits wait → utf8_step wait b = Some wait' → waits wait'.
Proof.
  intros Hw Hs. destruct wait as [|[lo hi] wait]; cbn [utf8_step] in Hs.
  - repeat case_match; simplify_eq; repeat (apply Forall_cons; split; [by vm_compute|]); constructor.
  - case_match; simplify_eq. by apply Forall_cons in Hw as [_ Hw].
Qed.

Lemma waiting_ascii lo hi wait c s : waits ((lo, hi) :: wait) → ascii c → utf8_run ((lo, hi) :: wait) (c :: s) = None.
Proof.
  intros [Hlo _]%Forall_cons Hc. unfold ascii in Hc. simpl in Hlo. cbn [utf8_run utf8_step].
  by rewrite (proj2 (Z.leb_gt _ _)) by lia.
Qed.

Lemma json_piece_ascii c : 0 <= c <= 127 → Forall ascii (json_piece c).
Proof.
  intros Hc. pose proof (all_bytes (λ c, (127 <? c) || forallb (λ x, (0 <=? x) && (x <=? 127)) (json_piece c)) ltac:(by vm_compute) c) as Hp.
  specialize (Hp ltac:(unfold is_u8; lia)). cbv beta in Hp. rewrite (proj2 (Z.ltb_ge _ _)) in Hp by lia. cbn [orb] in Hp. rewrite forallb_forall in Hp.
  apply Forall_forall. intros x Hx%list_elem_of_In%Hp. unfold ascii. to_prop. lia.
Qed.

Lemma json_piece_high c : is_u8 c → 127 < c → json_piece c = [c].
Proof.
  intros Hc Hh. pose proof (all_bytes (λ c, (c <=? 127) || bool_decide (json_piece c = [c])) ltac:(by vm_compute) c Hc) as Hp.
  cbv beta in Hp. rewrite (proj2 (Z.leb_gt _ _)) in Hp by lia. by apply bool_decide_eq_true in Hp.
Qed.

(** Escaping keeps a text UTF-8, and keeps it from being so. *)
Lemma utf8_run_escaped s : ∀ wait, waits wait → bytes s → utf8_run wait (escaped s) = utf8_run wait s.
Proof.
  induction s as [|c s IH]; intros wait Hw Hs; [done|]. apply Forall_cons in Hs as [Hc Hs].
  change (escaped (c :: s)) with (json_piece c ++ escaped s). rewrite utf8_run_app. destruct (decide (c <= 127)) as [Hlow|Hhigh].
  - assert (0 <= c <= 127) as Ha by (unfold is_u8 in Hc; lia). pose proof (json_piece_ascii c Ha) as Hp. destruct wait as [|[lo hi] wait].
    + rewrite (utf8_run_ascii _ Hp). cbn [mbind option_bind]. rewrite IH by done. cbn [utf8_run utf8_step].
      by rewrite (proj2 (Z.leb_le _ _)), (proj2 (Z.leb_le _ _)) by lia.
    + rewrite (waiting_ascii lo hi wait c s) by done. pose proof (json_piece_length c) as Hl.
      destruct (json_piece c) as [|d p]; [simpl in Hl; lia|]. apply Forall_cons in Hp as [Hd _]. by rewrite (waiting_ascii lo hi wait d p).
  - rewrite json_piece_high by (done || lia). cbn [utf8_run]. destruct (utf8_step wait c) as [wait'|] eqn:Hstep; [|done].
    cbn [mbind option_bind utf8_run]. apply IH; [by eapply utf8_step_waits|done].
Qed.

(** A text that does not end in the middle of a character, before ASCII. *)
Lemma utf8_run_then s c t : bytes s → ascii c → utf8_run [] (escaped s ++ c :: t) = if utf8_text s then utf8_run [] (c :: t) else None.
Proof.
  intros Hs Hc. rewrite utf8_run_app, utf8_run_escaped by (done || constructor).
  assert (∀ wait s, waits wait → ∀ wait', utf8_run wait s = Some wait' → waits wait') as Hkeep.
  { clear. intros wait s. revert wait. induction s as [|b s IH]; intros wait Hw wait' Hr; cbn [utf8_run] in Hr; [by simplify_eq|].
    destruct (utf8_step wait b) as [w|] eqn:Hst; [|done]. cbn [mbind option_bind] in Hr. eapply IH; [by eapply utf8_step_waits|done]. }
  unfold utf8_text. destruct (utf8_run [] s) as [[|[lo hi] wait]|] eqn:Hr; cbn [mbind option_bind].
  - by rewrite bool_decide_true.
  - rewrite bool_decide_false by done. apply waiting_ascii; [|done]. eapply Hkeep; [|exact Hr]. constructor.
  - by rewrite bool_decide_false.
Qed.

(** ** Lines *)

Definition value_utf8 (v : json) : bool := match v with j_string s => utf8_text s | _ => true end.
Definition member_utf8 (m : list Z * json) : bool := utf8_text m.1 && value_utf8 m.2.

Lemma digits_ascii s : digits s → Forall ascii s.
Proof. intros Hs. eapply Forall_impl; [exact Hs|]. unfold is_digit, ascii. lia. Qed.

Lemma fmt_i64_ascii v : in_range v → Forall ascii (fmt_i64 v).
Proof.
  intros Hv. unfold fmt_i64, in_range in *. destruct (v <? 0) eqn:Hn; to_prop; [constructor; [unfold ascii; lia|]|];
    apply digits_ascii, fmt_usize_canonical; unfold is_u64; lia.
Qed.

Lemma join_ascii c ts : ascii c → Forall (Forall ascii) ts → Forall ascii (join c ts).
Proof.
  intros Hc. induction 1 as [|t ts Ht Hts IH]; [constructor|]. destruct ts as [|u ts]; [done|].
  rewrite join_cons by done. apply Forall_app. split; [done|]. by constructor.
Qed.

Lemma utf8_run_skip s t : Forall ascii s → utf8_run [] (s ++ t) = utf8_run [] t.
Proof. intros Hs. by rewrite utf8_run_app, utf8_run_ascii. Qed.

Lemma value_run v c t : json_ok v → ascii c → utf8_run [] (value_text v ++ c :: t) = if value_utf8 v then utf8_run [] (c :: t) else None.
Proof.
  intros Hv Hc. destruct v as [|s|v|vs]; cbn [value_text value_utf8 json_ok] in *.
  - apply utf8_run_skip. unfold NULL, ascii. repeat constructor; unfold ascii; lia.
  - rewrite <- !app_assoc. rewrite utf8_run_skip by (repeat constructor; unfold ascii; lia). cbn [app].
    rewrite utf8_run_then by (done || unfold ascii; lia). destruct (utf8_text s); [|done].
    change (34 :: c :: t) with ([34] ++ c :: t). apply utf8_run_skip. repeat constructor; unfold ascii; lia.
  - by apply utf8_run_skip, fmt_i64_ascii.
  - apply utf8_run_skip. constructor; [unfold ascii; lia|]. apply Forall_app. split; [|repeat constructor; unfold ascii; lia].
    apply join_ascii; [unfold ascii; lia|]. apply Forall_fmap. eapply Forall_impl; [exact Hv|]. intros w Hw. by apply fmt_i64_ascii.
Qed.

Lemma member_run m c t : member_ok m → ascii c → utf8_run [] (member_text m ++ c :: t) = if member_utf8 m then utf8_run [] (c :: t) else None.
Proof.
  intros [Hk Hv] Hc. unfold member_text, member_utf8. rewrite <- !app_assoc. rewrite utf8_run_skip by (repeat constructor; unfold ascii; lia). cbn [app].
  rewrite utf8_run_then by (done || unfold ascii; lia). destruct (utf8_text m.1); [|done]. cbn [andb].
  change (34 :: 58 :: value_text m.2 ++ c :: t) with ([34; 58] ++ value_text m.2 ++ c :: t).
  rewrite utf8_run_skip by (repeat constructor; unfold ascii; lia). by apply value_run.
Qed.

Lemma members_run ms : ∀ c t, Forall member_ok ms → ascii c →
  utf8_run [] (join 44 (map member_text ms) ++ c :: t) = if forallb member_utf8 ms then utf8_run [] (c :: t) else None.
Proof.
  induction ms as [|m ms IH]; intros c t Hms Hc; [done|]. apply Forall_cons in Hms as [Hm Hms]. cbn [map forallb].
  destruct ms as [|m' ms]; [cbn [map join forallb]; rewrite andb_true_r; by apply member_run|].
  cbn [map]. rewrite join_cons by done. rewrite <- app_assoc. cbn [app]. rewrite member_run by (done || unfold ascii; lia).
  destruct (member_utf8 m); [|done]. cbn [andb].
  match goal with |- utf8_run [] (44 :: ?u) = _ => change (44 :: u) with ([44] ++ u) end.
  rewrite utf8_run_skip by (repeat constructor; unfold ascii; lia). by apply IH.
Qed.

(** An object is UTF-8 exactly when its texts are. *)
Lemma json_line_utf8 ms : Forall member_ok ms → utf8_text (json_line ms) = forallb member_utf8 ms.
Proof.
  intros Hms. unfold utf8_text, json_line. rewrite utf8_run_skip by (repeat constructor; unfold ascii; lia). change [125; 10] with (125 :: [10]).
  rewrite members_run by (done || unfold ascii; lia). destruct (forallb _ ms); [by rewrite bool_decide_true|by rewrite bool_decide_false].
Qed.

(** ** Events *)

(** The summary's line is its object. *)
Definition ports_members (open_ports : list Z) (elapsed_ns : Z) : list (list Z * json) :=
  [member "type" (j_string (text "summary")); member "open_ports" (j_array open_ports); member "elapsed_ms" (j_number (elapsed_ms elapsed_ns))].

Lemma port_items_join ports : ∀ i, Forall (λ p, 0 <= p) ports →
  port_items i ports = (if (0 <? i)%nat && (0 <? length ports)%nat then text "," else []) ++ join 44 (map fmt_i64 ports).
Proof.
  induction ports as [|p ports IH]; intros i Hp; [simpl; by rewrite andb_false_r|]. apply Forall_cons in Hp as [Hp Hps].
  cbn [port_items map]. rewrite IH by done. cbn [length]. simpl (0 <? S _)%nat. rewrite andb_true_r. f_equal.
  destruct ports as [|q ports]; [cbn [map join length]; simpl; rewrite app_nil_r; by rewrite fmt_i64_usize|].
  change (0 <? S i)%nat with true. change (0 <? length (q :: ports))%nat with true. cbn [andb].
  rewrite (join_cons 44 (fmt_i64 p)) by done. by rewrite (fmt_i64_usize p).
Qed.

Lemma ports_line open_ports elapsed_ns : Forall (λ p, 0 <= p) open_ports →
  ports_summary open_ports elapsed_ns = json_line (ports_members open_ports elapsed_ns).
Proof.
  intros Hp. unfold ports_members. name_members. rewrite (escaped_plain (text "summary")) by (vm_compute; reflexivity).
  unfold ports_summary. rewrite port_items_join by done. simpl (0 <? 0)%nat. cbn [andb app].
  generalize (join 44 (map fmt_i64 open_ports)) (fmt_i64 (elapsed_ms elapsed_ns)). intros a b. same_text.
Qed.

Lemma ports_ok open_ports elapsed_ns : Forall is_u16 open_ports → in_range (elapsed_ms elapsed_ns) → Forall member_ok (ports_members open_ports elapsed_ns).
Proof.
  intros Hp He. unfold ports_members. members_ok; [|done]. eapply Forall_impl; [exact Hp|]. unfold is_u16, in_range. lia.
Qed.

(** A line of --json: the range of a scan, a phase's progress, an open port, a
    host, a request to the parent, a host's details, the summaries of the two
    scans, an error. *)
Inductive json_event :=
| ev_start (cidr : list Z) (range : IpRange)
| ev_progress (phase : Phase) (done total : Z)
| ev_port (service : option Service) (port : Z)
| ev_host (ip : ip4) (source : HostSource)
| ev_request (id : Z)
| ev_detail (options : wants) (d : HostDetail)
| ev_hosts (count elapsed_ns : Z)
| ev_ports (open_ports : list Z) (elapsed_ns : Z)
| ev_error (msg : list Z).

(** What prints it. *)
Definition print_event (e : json_event) : list Z :=
  match e with
  | ev_start cidr range => printScanHeader true cidr range
  | ev_progress phase done total => progress_event phase done total
  | ev_port service port => printOpenPort service port true
  | ev_host ip source => printHost ip source true
  | ev_request id => request_event id
  | ev_detail options d => detail_event options d
  | ev_hosts count elapsed_ns => printJsonSummary count elapsed_ns
  | ev_ports open_ports elapsed_ns => ports_summary open_ports elapsed_ns
  | ev_error msg => error_event msg
  end.

Definition error_members (msg : list Z) : list (list Z * json) :=
  [member "type" (j_string (text "error")); member "message" (j_string (kept 512 msg))].

Definition event_object (e : json_event) : list (list Z * json) :=
  match e with
  | ev_start cidr range => start_members cidr range
  | ev_progress phase done total => progress_members phase done total
  | ev_port service port => port_members service port
  | ev_host ip source => host_members ip source
  | ev_request id => request_members id
  | ev_detail options d => detail_members options d
  | ev_hosts count elapsed_ns => summary_members count elapsed_ns
  | ev_ports open_ports elapsed_ns => ports_members open_ports elapsed_ns
  | ev_error msg => error_members msg
  end.

(** The texts in it that are not the program's own, each with the room its
    buffer has. *)
Definition sized (cap : nat) (s : option (list Z)) : list (nat * list Z) := match s with Some s => [(cap, s)] | None => [] end.

Definition event_texts (e : json_event) : list (nat * list Z) :=
  match e with
  | ev_start cidr _ => [(128%nat, cidr)]
  | ev_port service _ =>
    sized 766 (sv_name <$> service) ++ sized 766 (service ≫= sv_iana) ++ sized 766 (service ≫= sv_description) ++ sized 766 (service ≫= sv_category)
  | ev_detail options d =>
    (if resolve_hostname options then sized FIELD_BUF (hd_hostname d) else []) ++
    (if resolve_vendor options then sized FIELD_BUF (hd_vendor d) else [])
  | ev_error msg => [(512%nat, msg)]
  | _ => []
  end.

(** What the types say. *)
Definition event_ok (e : json_event) : Prop :=
  match e with
  | ev_start cidr range => bytes cidr ∧ ip_ok (range_start range) ∧ ip_ok (range_end range)
  | ev_progress _ done total => is_u64 done ∧ is_u64 total
  | ev_port service port => is_u16 port ∧ ∀ s, service = Some s → service_ok s
  | ev_host ip _ => ip_ok ip
  | ev_request id => is_u64 id
  | ev_detail _ d => texts_ok d
  | ev_hosts count elapsed_ns => is_u64 count ∧ in_range (elapsed_ms elapsed_ns)
  | ev_ports open_ports elapsed_ns => Forall is_u16 open_ports ∧ in_range (elapsed_ms elapsed_ns)
  | ev_error msg => bytes msg
  end.

Lemma event_line e : event_ok e → print_event e = json_line (event_object e).
Proof.
  destruct e; cbn [event_ok print_event event_object]; intros He.
  - destruct He as (? & ? & ?). by apply start_line.
  - destruct He. apply progress_line; unfold is_u64 in *; lia.
  - destruct He. apply port_line; [unfold is_u16 in *; lia|done].
  - by apply host_line.
  - apply request_line; unfold is_u64 in *; lia.
  - by apply detail_line.
  - destruct He. apply summary_line; unfold is_u64 in *; lia.
  - destruct He as [Hp _]. apply ports_line. eapply Forall_impl; [exact Hp|]. unfold is_u16. lia.
  - by apply error_line.
Qed.

Lemma event_object_ok e : event_ok e → event_object e ≠ [] ∧ Forall member_ok (event_object e).
Proof.
  intros He. split; [by destruct e|]. destruct e; cbn [event_ok event_object] in *.
  - destruct He as (? & ? & ?). by apply start_ok.
  - destruct He. by apply progress_ok.
  - destruct He. apply port_ok; [unfold is_u16 in *; lia|done].
  - by apply host_ok.
  - by apply request_ok.
  - by apply detail_ok.
  - destruct He. by apply summary_ok.
  - destruct He. by apply ports_ok.
  - unfold error_members. members_ok. by apply kept_bytes.
Qed.

Ltac asciis := repeat (apply Forall_cons_2; [by vm_compute|]); apply Forall_nil_2.

Lemma ascii_utf8 s : Forall ascii s → utf8_text s = true.
Proof. intros Hs. unfold utf8_text. by rewrite utf8_run_ascii. Qed.

Lemma formatIp_ascii ip : ip_ok ip → utf8_text (formatIp ip) = true.
Proof.
  intros (Ha & Hb & Hc & Hd)%ip_ok_bytes. unfold formatIp, is_u8 in *. apply ascii_utf8.
  assert (∀ v, 0 <= v → Forall ascii (fmt_u v)) as Hv by (intros v Hv; by apply digits_ascii, fmt_u_digits).
  rewrite !Forall_app. split_and!; first [asciis|apply Hv; lia].
Qed.

Lemma formatMac_ascii mac : bytes mac → utf8_text (formatMac mac) = true.
Proof.
  assert (∀ b, is_u8 b → Forall ascii (hex2 b)) as H2.
  { intros b Hb. pose proof (all_bytes (λ c, forallb (λ x, (0 <=? x) && (x <=? 127)) (hex2 c)) ltac:(by vm_compute) b Hb) as Hp.
    cbv beta in Hp. rewrite forallb_forall in Hp. apply Forall_forall. intros x Hx%list_elem_of_In%Hp. unfold ascii. to_prop. lia. }
  assert (∀ mac, bytes mac → Forall ascii (colon_hex mac)) as Hc.
  { induction 1 as [|b m Hb _ IH]; [constructor|]. cbn [colon_hex]. rewrite !Forall_app. split_and!; [asciis|by apply H2|done]. }
  intros Hm. apply ascii_utf8. destruct Hm as [|b m Hb Hm]; [constructor|]. cbn [formatMac]. apply Forall_app. split; [by apply H2|by apply Hc].
Qed.

Definition kept_utf8 (x : nat * list Z) : bool := utf8_text (kept x.1 x.2).

Lemma member_value name v : utf8_text (text name) = true → member_utf8 (member name v) = value_utf8 v.
Proof. intros Hn. unfold member_utf8, member. cbn [fst snd]. by rewrite Hn. Qed.

Lemma field_utf8 cap s : value_utf8 (field cap s) = forallb kept_utf8 (sized cap s).
Proof. destruct s; cbn; [by rewrite andb_true_r|done]. Qed.

Ltac values := cbn [forallb]; rewrite !member_value by (vm_compute; reflexivity); cbn [value_utf8]; rewrite ?andb_true_r, ?andb_true_l.

Lemma event_utf8 e : event_ok e → forallb member_utf8 (event_object e) = forallb kept_utf8 (event_texts e).
Proof.
  intros He. destruct e as [cidr range|phase done total|service port|ip source|id|options d|count el|ports el|msg]; cbn [event_ok event_object event_texts] in *.
  - destruct He as (_ & H1 & H2). unfold start_members. values. rewrite !formatIp_ascii by done. by rewrite !andb_true_r.
  - unfold progress_members. values. by destruct phase.
  - unfold port_members. values. rewrite !forallb_app, <- !field_utf8. by destruct (value_utf8 (field 766 (sv_name <$> service))).
  - unfold host_members. values. rewrite formatIp_ascii by done. by destruct source.
  - unfold request_members. by values.
  - destruct He as [Hip _ Hm _]. unfold detail_members. rewrite !forallb_app.
    assert (forallb member_utf8 [member "type" (j_string (text "host_detail")); member "ip" (j_string (formatIp (hd_ip d)))] = true) as ->.
    { values. by rewrite formatIp_ascii. }
    cbn [andb]. f_equal.
    + destruct (resolve_hostname options); [|done]. values. apply field_utf8.
    + destruct (resolve_vendor options); [|done]. values. rewrite <- field_utf8.
      destruct (hd_mac d) as [mac|]; [|done]. cbn [value_utf8]. by rewrite formatMac_ascii by by apply Hm.
  - unfold summary_members. by values.
  - unfold ports_members. by values.
  - unfold error_members. by values.
Qed.

Lemma event_texts_bytes e cap s : event_ok e → (cap, s) ∈ event_texts e → bytes s ∧ ∃ key, (key, j_string (kept cap s)) ∈ event_object e.
Proof.
  assert (∀ n o, (cap, s) ∈ sized n o → o = Some s ∧ cap = n) as Hsized.
  { intros n o. destruct o as [t|]; cbn; [by intros [= -> ->]%list_elem_of_singleton|by intros ?%not_elem_of_nil]. }
  intros He Hin. destruct e as [cidr range|phase done total|service port|ip source|id|options d|count el|ports el|msg]; cbn [event_ok event_object event_texts] in *;
    try (by apply not_elem_of_nil in Hin).
  - apply list_elem_of_singleton in Hin as [= -> ->]. split; [apply He|]. eexists. unfold start_members, member. in_list.
  - destruct He as [_ Hs]. unfold port_members, member.
    assert (∀ o, o = Some s → o ∈ [sv_name <$> service; service ≫= sv_iana; service ≫= sv_description; service ≫= sv_category] → bytes s) as Hb.
    { intros o -> Ho. destruct service as [sv|]; [|repeat (apply elem_of_cons in Ho as [Ho|Ho]; [done|]); by apply not_elem_of_nil in Ho].
      destruct (Hs sv eq_refl) as [Hn Hother]. apply elem_of_cons in Ho as [[= ->]|Ho]; [done|]. by apply Hother. }
    rewrite !elem_of_app in Hin. destruct Hin as [Hin|[Hin|[Hin|Hin]]]; apply Hsized in Hin as [Ho ->]; rewrite Ho;
      (split; [eapply Hb; [exact Ho|in_list]|eexists; in_list]).
  - destruct He as [_ Hh _ Hv]. unfold detail_members, member. apply elem_of_app in Hin as [Hin|Hin].
    + destruct (resolve_hostname options); [|by apply not_elem_of_nil in Hin]. apply Hsized in Hin as [Ho ->]. split; [by apply Hh|].
      rewrite Ho. eexists. rewrite !elem_of_app. right. left. in_list.
    + destruct (resolve_vendor options); [|by apply not_elem_of_nil in Hin]. apply Hsized in Hin as [Ho ->]. split; [by apply Hv|].
      rewrite Ho. eexists. rewrite !elem_of_app. right. right. in_list.
  - apply list_elem_of_singleton in Hin as [= -> ->]. split; [done|]. eexists. unfold error_members, member. in_list.
Qed.

(** C28: Every line of --json.  The range of a scan, a phase's progress, an open
    port, a host, a request to the parent, a host's details, both summaries and
    an error are each one line with one object, and a reader of JSON gets back
    exactly what there was to say.  A text goes through a buffer and is read
    back as its longest prefix whose escape fits there, so whole when it does.
    The reader is of bytes; JSON is UTF-8, and the line is exactly when what
    was kept of each text is: a text cut inside a character makes a line that
    is no JSON text. *)
Theorem events_read e : event_ok e →
  read_lines (print_event e) = Some [event_object e] ∧
  (utf8_text (print_event e) = true ↔ ∀ cap s, (cap, s) ∈ event_texts e → utf8_text (kept cap s) = true) ∧
  ∀ cap s, (cap, s) ∈ event_texts e →
    (∃ key, (key, j_string (kept cap s)) ∈ event_object e) ∧
    kept cap s `prefix_of` s ∧ (length (escaped (kept cap s)) ≤ cap)%nat ∧
    ∀ p, p `prefix_of` s → (length (escaped p) ≤ cap)%nat → p `prefix_of` kept cap s.
Proof.
  intros He. destruct (event_object_ok e He) as [Hne Hms]. rewrite (event_line e He). split; [|split].
  - rewrite <- (app_nil_r (json_line _)). by rewrite (read_lines_cons (event_object e) [] []).
  - rewrite json_line_utf8 by done. rewrite event_utf8 by done. rewrite forallb_forall. split.
    + intros Hall cap s Hin. by apply (Hall (cap, s)), list_elem_of_In.
    + intros Hall [cap s] Hin%list_elem_of_In. by apply Hall.
  - intros cap s Hin. destruct (event_texts_bytes e cap s He Hin) as [Hb Hkey]. split; [done|]. by apply kept_longest.
Qed.

(** A host whose name is UTF-8 of 769 bytes, the last character of two: the
    line has half of it, and is none. *)
Lemma events_read_witness :
  let name := replicate 767 97 ++ [195; 169] in
  let both := {| resolve_hostname := true; resolve_vendor := true |} in
  let e := ev_detail both {| hd_ip := IP 192 168 1 1; hd_hostname := Some name; hd_mac := None; hd_vendor := Some (text "AVM") |} in
  utf8_text name = true ∧ read_lines (print_event e) = Some [event_object e] ∧ utf8_text (print_event e) = false.
Proof.
  intros name both e.
  assert (event_ok e) as He.
  { split; cbn; [repeat constructor; simpl; unfold is_u8; lia| |done|].
    - intros t [= <-]. apply bytes_literal. vm_compute. reflexivity.
    - intros t [= <-]. apply bytes_literal. vm_compute. reflexivity. }
  destruct (events_read e He) as (Hread & Hutf & _). split; [vm_compute; reflexivity|]. split; [exact Hread|].
  apply not_true_is_false. intros Hline. rewrite Hutf in Hline. specialize (Hline FIELD_BUF name ltac:(cbn; left)).
  vm_compute in Hline. discriminate Hline.
Defined.
