(* ===== verification/CliReports.v ===== *)
(** * main.zig: a command from its arguments to its last line

    The two commands of Cli.v with --json, whole: what [runPortScan] and
    [runSubnetScan] write to stdout, read back line by line as objects, is what
    the scan they made found ([port_scan_reports], [subnet_scan_reports]). *)
From Stdlib Require Import String.
From stdpp Require Import countable gmap sorting relations.
From S2P Require Import Prelude Words Decimal Subnets Ranges Text Json Targets Sys Script Progress Packed Ports PortScan Rtt Window Held Probe NsSocket IcmpWire SweepSpec IcmpSweep IcmpSweepWin Connects Shared Run ScanPorts Multicast NeighborList Neighbors Packets Names Oui NeighborTable Pool Pings Harvest Listener Discovery Results Warnings Scan Interrupt Live Output Streams Cli Events.
Open Scope Z_scope.

(** ** What a port scan prints *)

(** A service's texts come from the table's pool. *)
Lemma lookup_texts db port s : bytes (strings db) → Ports.lookup db port = Some (Some s) → service_ok s.
Proof.
  intros Hdb Hl. assert (∀ field t, poolString db field = Some (Some t) → bytes t) as Hpool.
  { intros field t Ht. unfold poolString in Ht. repeat case_match; try done. apply bind_Some in Ht as (len & _ & Ht).
    case_match; [done|]. apply bind_Some in Ht as (u & Hu & [= <-]). unfold slice in Hu. case_match; [|done]. injection Hu as <-.
    by apply bytes_take, bytes_drop. }
  assert (∀ r a b t, (slice r a b ≫= poolString db) = Some (Some t) → bytes t) as Hfield.
  { intros r a b t (u & _ & Hu)%bind_Some. by eapply Hpool. }
  unfold Ports.lookup in Hl. apply bind_Some in Hl as ([index|] & _ & Hl); [|done]. apply bind_Some in Hl as (r & _ & Hl).
  unfold decode in Hl. apply bind_Some in Hl as (label & Hlabel & Hl). apply bind_Some in Hl as (iana & Hiana & Hl).
  destruct (match label with Some name => Some name | None => iana end) as [name|] eqn:Hname; [|done].
  apply bind_Some in Hl as (description & Hdesc & Hl). apply bind_Some in Hl as (category & Hcat & [= <-]).
  split; simpl.
  - destruct label as [l|]; simplify_eq; by eapply Hfield.
  - intros t Ht. repeat (apply elem_of_cons in Ht as [Ht|Ht]; [subst; by eapply Hfield|]). by apply not_elem_of_nil in Ht.
Qed.

(** An event of a port scan. *)
Inductive port_event := pe_port (service : option Service) (port : Z) | pe_progress (done : Z).

Definition event_members (total : Z) (e : port_event) : list (list Z * json) :=
  match e with
  | pe_port service port => port_members service port
  | pe_progress done => progress_members phase_ports done total
  end.

Definition event_port (e : port_event) : option Z := match e with pe_port _ port => Some port | pe_progress _ => None end.
Definition event_done (e : port_event) : option Z := match e with pe_progress done => Some done | _ => None end.

(** The ports a scan says are open, and those its verdicts do. *)
Definition said_port (x : said) : list Z := match x with said_open port => [port] | said_advance => [] end.
Definition opened (q : query) : list Z := match q with q_done p Targets.open _ _ => [port_of p] | _ => [] end.

Lemma said_halves n : flat_map said_port (replicate n said_advance) = [].
Proof. by induction n. Qed.

Lemma done_says `{PortRanks} room p o us s s' l : PortScan.done room p o us s = Some (s', l) → flat_map said_port l = opened (q_done p o us room).
Proof.
  unfold PortScan.done. intros Hd. apply bind_Some in Hd as (s1 & _ & Hd). apply bind_Some in Hd as (s2 & _ & Hd).
  unfold count_verdict, recordOpen, advanceHalves in Hd. destruct (ps_pass s2), o; simpl in Hd; try (injection Hd as <- <-; cbn [app flat_map said_port]; rewrite ?said_halves; reflexivity).
  all: apply bind_Some in Hd as ([] & _ & Hd); [apply bind_Some in Hd as (s3 & _ & Hd)|]; injection Hd as <- <-; cbn [app]; by rewrite said_halves.
Qed.

Lemma answers_say `{PortRanks} qs : ∀ s s' l, ScanPorts.answers qs s = Some (s', l) → flat_map said_port l = flat_map opened qs.
Proof.
  induction qs as [|q qs IH]; intros s s' l Ha; [by injection Ha as _ <-|].
  apply answers_cons in Ha as (s1 & l1 & l2 & H1 & H2 & ->). rewrite flat_map_app, (IH _ _ _ H2). cbn [flat_map]. f_equal.
  destruct q as [stop r|p o us room|r]; simpl in H1.
  - apply bind_Some in H1 as ([r' s2] & _ & H1). case_match; [|done]. by simplify_eq.
  - by eapply done_says.
  - apply bind_Some in H1 as (r' & _ & H1). case_match; [|done]. by simplify_eq.
Qed.

Lemma scan_says `{PortRanks} {E} `{Env E} `{!RlimitLaw E} os job_size settled_size fuel ip lo hi timeout r logs l :
  scanPorts (E := E) os job_size settled_size fuel ip lo hi timeout r logs l → flat_map said_port l = flat_map opened (concat logs).
Proof.
  intros Hs. destruct Hs as [| |s0 qs1 res s1 l1 _ _ (? & ? & _ & _ & H1) _|s0 qs1 s1 l1 qs2 res s2 l2 _ _ (? & ? & _ & _ & H1) (? & ? & _ & _ & H2) _|
    s0 qs1 s1 l1 qs2 s2 l2 stop _ _ (? & ? & _ & _ & H1) (? & ? & _ & _ & H2) _|
    s0 qs1 s1 l1 qs2 s2 l2 stop qs3 res s3 l3 _ _ (? & ? & _ & _ & H1) (? & ? & _ & _ & H2) _ (? & ? & _ & _ & H3)]; simpl; try done;
    rewrite ?app_nil_r, ?flat_map_app, (answers_say _ _ _ _ H1), ?(answers_say _ _ _ _ H2), ?(answers_say _ _ _ _ H3); done.
Qed.

(** Events printed one by one, and the tracker they leave.  Printed counts
    keep the invariant of Progress.v with nobody between counting and
    claiming. *)
Section Said.
Variables (db : Table) (total : Z).
Hypothesis Hdb : bytes (strings db).
Hypothesis Htotal : 0 <= total.
Hypothesis Hfits : total * 100 < 18446744073709551616.

Lemma say_event x t t' out printed :
  say db true true x t = Some (t', out) → tr_phase t = Some phase_ports → events_ok total (t, 0%nat, printed) →
  Forall (λ p, 0 <= p < 65536) (said_port x) →
  ∃ events, out = concat (map json_line (map (event_members total) events)) ∧ omap event_port events = said_port x ∧
    tr_phase t' = Some phase_ports ∧ events_ok total (t', 0%nat, printed ++ omap event_done events) ∧
    Forall (λ e, event_members total e ≠ [] ∧ Forall member_ok (event_members total e)) events ∧
    tr_done t' = (match x with said_open _ => tr_done t | said_advance => u64 (tr_done t + 1) end).
Proof.
  intros Hs Hph Hok Hp. destruct x as [port|]; cbn [say said_port] in Hs, Hp.
  - apply bind_Some in Hs as (service & Hl & [= <- <-]). apply Forall_inv in Hp.
    assert (∀ s, service = Some s → service_ok s) as Hsv by (intros s ->; by eapply lookup_texts).
    exists [pe_port service port]. cbn [map concat omap list_omap event_port event_done]. rewrite !app_nil_r. split; [apply port_line; [lia|done]|].
    split; [done|]. split; [done|]. split; [destruct Hok; by split|]. split; [|done].
    apply Forall_singleton. split; [done|]. by apply port_ok.
  - unfold Output.advance in Hs. apply bind_Some in Hs as ([crosses t1] & Ha & Hs).
    pose proof (counts_ok total ltac:(lia) ltac:(lia) _ _ _ _ _ Ha Hok) as Hok1.
    assert (tr_phase t1 = tr_phase t ∧ tr_done t1 = u64 (tr_done t + 1)) as [Hph1 Hd1].
    { unfold tracker_advance in Ha. apply bind_Some in Ha as (d & _ & Ha). apply bind_Some in Ha as (? & _ & Ha). by simplify_eq. }
    destruct crosses; simpl in Hs; cycle 1.
    { injection Hs as <- <-. exists []. cbn [map concat omap list_omap]. rewrite app_nil_r.
      split; [done|]. split; [done|]. split; [congruence|]. split; [done|]. by split. }
    destruct (claim t1) as [claimed t2] eqn:Hc. pose proof (claim_ok total _ _ _ _ _ Hc Hok1) as Hok2.
    assert (tr_phase t2 = tr_phase t1 ∧ tr_done t2 = tr_done t1 ∧ tr_total t2 = tr_total t1) as (Hph2 & Hd2 & Ht2).
    { unfold claim in Hc. destruct (_ <=? _); by simplify_eq. }
    rewrite Hph2, Hph1, Hph in Hs. destruct claimed as [d|]; injection Hs as <- <-; cycle 1.
    { exists []. cbn [map concat omap list_omap]. rewrite app_nil_r. cbn [option_list] in Hok2. rewrite app_nil_r in Hok2.
      split; [done|]. split; [done|]. split; [congruence|]. split; [done|]. split; [done|congruence]. }
    pose proof (ev_total _ _ Hok2) as Htot. simpl in Htot. rewrite Htot.
    assert (0 < d <= total) as Hd.
    { pose proof (ev_range _ _ Hok2) as Hr. simpl in Hr. apply Forall_app in Hr as [_ Hr]. apply Forall_inv in Hr. simpl in Hr. lia. }
    exists [pe_progress d]. cbn [map concat omap list_omap event_port event_done]. rewrite app_nil_r. split; [apply progress_line; lia|]. split; [done|]. split; [congruence|].
    split; [done|]. split; [|congruence]. apply Forall_singleton. split; [done|]. apply progress_ok; unfold is_u64; lia.
Qed.

Lemma say_all_events l : ∀ t t' out printed,
  say_all db true true l t = Some (t', out) → tr_phase t = Some phase_ports → events_ok total (t, 0%nat, printed) →
  Forall (λ p, 0 <= p < 65536) (flat_map said_port l) →
  ∃ events, out = concat (map json_line (map (event_members total) events)) ∧ omap event_port events = flat_map said_port l ∧
    events_ok total (t', 0%nat, printed ++ omap event_done events) ∧
    Forall (λ e, event_members total e ≠ [] ∧ Forall member_ok (event_members total e)) events ∧
    (tr_done t + Z.of_nat (advances l) < 18446744073709551616 → tr_done t' = tr_done t + Z.of_nat (advances l)).
Proof.
  induction l as [|x l IH]; intros t t' out printed Hs Hph Hok Hp; cbn [say_all] in Hs.
  { injection Hs as <- <-. exists []. cbn [map concat omap list_omap flat_map]. rewrite app_nil_r.
    split; [done|]. split; [done|]. split; [done|]. split; [done|]. unfold advances. simpl. lia. }
  apply bind_Some in Hs as ([t1 s1] & H1 & Hs). apply bind_Some in Hs as ([t2 s2] & H2 & [= <- <-]).
  cbn [flat_map] in Hp. apply Forall_app in Hp as [Hp1 Hp2].
  destruct (say_event x t t1 s1 printed H1 Hph Hok Hp1) as (e1 & -> & Hport1 & Hph1 & Hok1 & Hm1 & Hd1).
  destruct (IH t1 t2 s2 _ H2 Hph1 Hok1 Hp2) as (e2 & -> & Hport2 & Hok2 & Hm2 & Hd2).
  exists (e1 ++ e2). rewrite !map_app, concat_app, !omap_app, Hport1, Hport2, app_assoc. split; [done|]. split; [done|]. split; [done|].
  split; [by apply Forall_app|]. change (x :: l) with ([x] ++ l). rewrite advances_app, Nat2Z.inj_add.
  pose proof (ev_done _ _ Hok) as Hpos. simpl in Hpos. rewrite Hd1 in Hd2. destruct x; [exact Hd2|].
  change (advances [said_advance]) with 1%nat in *. intros Hb. rewrite u64_id in Hd2 by (unfold is_u64; lia). rewrite Hd2 by lia. lia.
Qed.

(** Nothing overflows on the way, when the table is sound. *)
Lemma say_all_goes_on l : ∀ t,
  tr_total t = total → 0 <= tr_done t → tr_done t + Z.of_nat (advances l) < 18446744073709551616 →
  (∀ port, is_Some (Ports.lookup db port)) → is_Some (say_all db true true l t).
Proof.
  induction l as [|x l IH]; intros t Ht Hd Hb Hl; [by eexists|]. cbn [say_all]. change (x :: l) with ([x] ++ l) in Hb. rewrite advances_app in Hb.
  destruct x as [port|]; cbn [say].
  - destruct (Hl port) as [service ->]. cbn [mbind option_bind]. destruct (IH (tracker_addFound t)) as [[t' s] Hs]; [done|done|by rewrite Nat.add_0_l in Hb|done|].
    rewrite Hs. by eexists.
  - change (advances [said_advance]) with 1%nat in Hb. unfold Output.advance, tracker_advance, zu64. rewrite fits_some by lia. cbn [mbind option_bind].
    rewrite Ht, (crosses_value total) by lia. cbn [mbind option_bind]. set (b := bool_decide _). clearbody b.
    set (t1 := {| tr_found := _ |}). assert (tr_total t1 = total ∧ tr_done t1 = tr_done t + 1) as [Ht1 Hd1].
    { split; [done|]. apply u64_id. unfold is_u64. lia. }
    clearbody t1. assert (∀ t2, tr_total t2 = total → tr_done t2 = tr_done t + 1 → is_Some (say_all db true true l t2)) as Hnext.
    { intros t2 H1 H2. apply IH; [done|lia|lia|done]. }
    destruct b; cbn [negb orb andb]; cycle 1.
    { cbn [mbind option_bind]. destruct (Hnext t1 Ht1 Hd1) as [[t' s] ->]. by eexists. }
    destruct (claim t1) as [claimed t2] eqn:Hc. cbn [mbind option_bind].
    destruct (Hnext t2) as [[t' s] ->]; [unfold claim in Hc; destruct (_ <=? _); by simplify_eq|unfold claim in Hc; destruct (_ <=? _); by simplify_eq|]. by eexists.
Qed.
End Said.

(** ** A port scan from the arguments to the summary *)

Section Reported.
Context `{PortRanks} {E : Type} `{Env E} `{!RlimitLaw E}.
Variables (os : platform) (job_size settled_size : Z) (fuel : nat).

(** A pass reports open only ports it was to try. *)
Lemma pass_opens_range s qs s' l a k0 k1 out :
  books s [] a k0 k1 → pass_ok s [] qs s' l k0 k1 out → Forall (λ p, ps_start s <= p <= ps_end s) (flat_map opened qs).
Proof.
  intros Hb Hp. apply Forall_forall. intros port Hin.
  assert (port ∈ map port_of (flat_map reported qs)) as Hrep.
  { apply list_elem_of_In, in_flat_map in Hin as (q & Hq & Hin). destruct q as [|p o us room|]; [done| |done]. destruct o; [|done..].
    destruct Hin as [<-|[]]. apply list_elem_of_fmap_2, list_elem_of_In, in_flat_map. eexists. split; [exact Hq|by left]. }
  pose proof (pa_out _ _ _ _ _ _ _ _ Hp) as Hout. simpl in Hout.
  assert (port ∈ map port_of (flat_map handed qs)) as Hhand by (rewrite Hout, map_app; apply elem_of_app; by left).
  assert (port ∈ to_try s) as Htry by (rewrite (pa_pool _ _ _ _ _ _ _ _ Hp); apply elem_of_app; by left).
  assert (port ∈ seqZ (ps_start s) (ps_end s + 1 - ps_start s)) as Hseq.
  { rewrite (bo_ports _ _ _ _ _ Hb). rewrite !elem_of_app. auto. }
  apply elem_of_seqZ in Hseq. lia.
Qed.

Lemma scan_opens_range ip lo hi timeout ports logs l :
  0 <= lo → hi < 65536 → (∀ ms, timeout = Some ms → 0 <= ms) → Forall (Forall timely_query) logs →
  scanPorts (E := E) os job_size settled_size fuel ip lo hi timeout (scan_ports ports) logs l →
  Forall (λ p, lo <= p <= hi) (flat_map opened (concat logs)).
Proof.
  intros Hlo Hhi Hms Ht Hs. inversion Hs as [| | | |s0 qs1 s1 l1 qs2 s2 l2 stop Hle Hs0 H1 H2 Hno|
    s0 qs1 s1 l1 qs2 s2 l2 stop qs3 res s3 l3 Hle Hs0 H1 H2 Hyes H3]; subst; apply Forall_cons in Ht as [Ht1 [Ht2 Ht3]%Forall_cons];
    destruct (two_passes os job_size settled_size fuel ip lo hi timeout s0 qs1 s1 l1 qs2 run_ok s2 l2 ltac:(lia) Hhi Hms Hs0 H1 H2 Ht1 Ht2)
      as (Hp1 & _ & _ & (b1 & Hb1) & out & Hp2 & Hend); destruct (Hend eq_refl) as [-> _];
    destruct (scan_of_ok ip lo hi timeout s0) as (_ & Hb0 & _ & _ & Hst & Hen & _ & _); [lia|done|done|lia|done| |lia|done|done|lia|done|];
    pose proof (pass_opens_range _ _ _ _ _ _ _ _ Hb0 Hp1) as F1; pose proof (pass_opens_range _ _ _ _ _ _ _ _ Hb1 Hp2) as F2;
    destruct (pa_range _ _ _ _ _ _ _ _ Hp1) as [R1 R2]; simpl in F2; rewrite R1, R2 in F2; rewrite Hst, Hen in F1, F2.
  - simpl. rewrite app_nil_r, flat_map_app. by apply Forall_app.
  - destruct (bool_decide (res = run_ok)) eqn:Hres; to_prop; [|done]. subst res. apply Forall_cons in Ht3 as [Ht3 _].
    pose proof (pa_pass _ _ _ _ _ _ _ _ Hp2) as P2. destruct (pa_books _ _ _ _ _ _ _ _ Hp2) as [a2 Hb2].
    destruct (to_third s2 a2 _ _ P2 (pa_inv _ _ _ _ _ _ _ _ Hp2) Hb2) as [Hi3 Hb3].
    destruct (pass_run_ok _ _ _ _ _ _ _ _ _ _ _ _ _ H3 Hi3 Hb3 Ht3) as (out3 & Hp3 & _).
    pose proof (pass_opens_range _ _ _ _ _ _ _ _ Hb3 Hp3) as F3. destruct (pa_range _ _ _ _ _ _ _ _ Hp2) as [R3 R4].
    simpl in F3, R3, R4. rewrite R3, R4, R1, R2, Hst, Hen in F3.
    simpl. rewrite app_nil_r, !flat_map_app. by rewrite !Forall_app.
Qed.

(** Every port reported is recorded or not. *)
Lemma opened_split qs : flat_map opened qs ≡ₚ flat_map recorded qs ++ flat_map unrecorded qs.
Proof.
  induction qs as [|q qs IH]; [done|]. cbn [flat_map]. rewrite IH.
  destruct q as [|p o us room|]; [done| |done]. destruct o, room; cbn [opened recorded unrecorded app]; try done. by rewrite Permutation_middle.
Qed.

Lemma ports_lost reports ports logs : reports ≡ₚ ports ++ flat_map unrecorded (concat logs) →
  reports ≡ₚ ports ++ flat_map unrecorded (concat logs) ∧ (port_warnings logs = [] ↔ reports ≡ₚ ports).
Proof.
  intros Hp. split; [done|]. unfold port_warnings. split.
  - intros Hw. destruct (flat_map unrecorded (concat logs)) as [|port lost]; [by rewrite Hp, app_nil_r|]. by destruct lost.
  - intros Hq. assert (flat_map unrecorded (concat logs) = []) as ->; [|done]. apply length_zero_iff_nil.
    pose proof (Permutation_length (Permutation_trans (Permutation_sym Hp) Hq)) as Hl. rewrite length_app in Hl. lia.
Qed.

(** C2: A whole `ns -p ... --json`.  Whatever order the runs' loops call the
    scan in, what it prints reads, line by line, as the events and one last
    object: a port event for each connect reported open, in the order of the
    reports; progress events whose counts increase, at most 100 of them, the
    last of them the whole range; and the summary with the open ports,
    ascending, each once, all of the range asked for and exactly those
    reported while the list had room.  The ports reported are those of the
    summary and those the list had no room for; of these each has its line on
    stderr, in the order of the reports, and nothing else is there, so nothing
    at all when the summary names every port reported.  It exits with status
    0. *)
Theorem port_scan_reports seconds db c env room args ports logs l o :
  (∀ k, room k = true) → bytes (strings db) → Forall (Forall timely_query) logs →
  runPortScan (E := E) os job_size settled_size fuel seconds db c env room args true (Some (scan_ports ports, logs, l)) o →
  ∃ a events elapsed_ns, port_arguments room args true = inr a ∧ oc_finish o = returns ∧ oc_stderr o = port_warnings logs ∧
    let total := pg_end a - pg_start a + 1 in
    read_lines (oc_stdout o) = Some (map (event_members total) events ++ [ports_members ports elapsed_ns]) ∧
    omap event_port events = flat_map opened (concat logs) ∧
    StronglySorted Z.lt (omap event_done events) ∧ Z.of_nat (length (omap event_done events)) <= Z.min 100 total ∧
    last (omap event_done events) = Some total ∧
    StronglySorted Z.lt ports ∧ Forall (λ port, pg_start a <= port <= pg_end a) ports ∧
    (∀ port, port ∈ ports ↔ port ∈ flat_map recorded (concat logs)) ∧
    omap event_port events ≡ₚ ports ++ flat_map unrecorded (concat logs) ∧
    (oc_stderr o = [] ↔ omap event_port events ≡ₚ ports).
Proof.
  intros Hroom Hdb Ht Hr. inversion Hr as [|a ports' logs' l' t events report elapsed_ns stopped Ha Hs Hsay Hrep Hel Hquiet|a why logs' l' t events Ha Hs Hwhy Hsay f]; subst; [|by destruct (Hwhy ports)].
  destruct (port_arguments_bounds room args true a Hroom Ha) as (Hlo & Hle & Hhi & Hms).
  assert (0 <= pg_start a) as Hlo0 by lia.
  destruct (scan_ends _ _ _ _ _ _ _ _ _ _ _ Hlo0 Hhi Hms Ht Hs) as (s & b & k0 & k1 & -> & Hb & Hst & Hen & Hop & Hadv & Hun).
  destruct (open_ports_ok s b _ _ Hb) as [Hsort Hin]. rewrite Hst, Hen in Hin.
  pose proof (scan_opens_range _ _ _ _ _ _ _ Hlo0 Hhi Hms Ht Hs) as Hopened.
  pose proof (scan_says _ _ _ _ _ _ _ _ _ _ _ Hs) as Hsaid.
  cbn [wantsStatusLine negb] in Hsay. set (total := pg_end a - pg_start a + 1) in *.
  destruct (say_all_events db total Hdb ltac:(lia) ltac:(lia) l (port_tracker (pg_start a) (pg_end a)) t events [] Hsay eq_refl) as (evs & Hev & Hports & Hok & Hmem & Hdone).
  { apply (events_start total ltac:(lia) ltac:(lia)). }
  { rewrite Hsaid. eapply Forall_impl; [exact Hopened|]. simpl. lia. }
  destruct (Hquiet eq_refl) as [-> Huns]. exists a, evs, elapsed_ns. split; [done|]. split; [done|]. split; [done|]. fold total.
  injection Hrep as <-. cbn [oc_stdout]. split.
  { rewrite Hev. assert (Forall (λ p, 0 <= p) (sort_ports (ps_open_ports s))) as Hpos.
    { apply Forall_forall. intros p Hp%Hin. lia. }
    rewrite (ports_line _ _ Hpos). rewrite <- (app_nil_r (json_line _)). apply read_lines_concat.
    - by apply Forall_fmap.
    - rewrite (read_lines_cons (ports_members (sort_ports (ps_open_ports s)) elapsed_ns) [] []); [done|done| |done].
      unfold ports_members. members_ok; [|unfold elapsed_fits in Hel; unfold in_range; lia].
      apply Forall_forall. intros p Hp%Hin. unfold in_range. lia. }
  split; [by rewrite Hports, Hsaid|].
  destruct (events_done total ltac:(lia) ltac:(lia) _ _ Hok) as (Hsorted & _ & Hfew & Hlast). cbn [app] in *.
  split; [done|]. split; [done|].
  split; [|split; [done|]; split; [by apply Forall_forall|]; split; [intros port; by rewrite sort_ports_perm, Hop|]].
  2: { apply ports_lost. by rewrite Hports, Hsaid, sort_ports_perm, Hop, opened_split. }
  destruct (Hun Huns) as (_ & Hk0 & Hk1 & Hp). apply Hlast.
  rewrite Hdone; rewrite Hadv, (full_progress s b _ _ Hb Hk0 Hk1 Hp), div_halves, Hst, Hen; simpl; lia.
Qed.
End Reported.

(** "ns -p 192.168.1.7 22-23 --json" on the small scan of ScanPorts.v. *)

Section SmallReport.
#[local] Existing Instance small_ranks.

Definition lan_args : list (list Z) := [text "ns"; text "-p"; text "192.168.1.7"; text "22-23"; text "--json"].

Lemma port_scan_reports_witness :
  ∃ o, runPortScan (E := script) Linux 24 40 20 (λ _, []) no_services no_console no_environ (λ _, true) lan_args true
      (Some (scan_ports [23], [first_calls; second_calls], [said_advance; said_open 23; said_advance])) o ∧
    ∃ a events elapsed_ns, port_arguments (λ _, true) lan_args true = inr a ∧ oc_finish o = returns ∧ oc_stderr o = port_warnings [first_calls; second_calls] ∧
      let total := pg_end a - pg_start a + 1 in
      read_lines (oc_stdout o) = Some (map (event_members total) events ++ [ports_members [23] elapsed_ns]) ∧
      omap event_port events = flat_map opened (concat [first_calls; second_calls]) ∧
      StronglySorted Z.lt (omap event_done events) ∧ Z.of_nat (length (omap event_done events)) <= Z.min 100 total ∧
      last (omap event_done events) = Some total ∧
      StronglySorted Z.lt [23] ∧ Forall (λ port, pg_start a <= port <= pg_end a) [23] ∧
      (∀ port, port ∈ [23] ↔ port ∈ flat_map recorded (concat [first_calls; second_calls])) ∧
      omap event_port events ≡ₚ [23] ++ flat_map unrecorded (concat [first_calls; second_calls]) ∧
      (oc_stderr o = [] ↔ omap event_port events ≡ₚ [23]).
Proof.
  assert (∃ o, runPortScan (E := script) Linux 24 40 20 (λ _, []) no_services no_console no_environ (λ _, true) lan_args true
      (Some (scan_ports [23], [first_calls; second_calls], [said_advance; said_open 23; said_advance])) o) as [o Ho].
  { eexists. eapply (port_scanned Linux 24 40 20 _ _ _ _ _ _ _ {| pg_ip := IP 192 168 1 7; pg_start := 22; pg_end := 23; pg_timeout_ms := None |}
      [23] _ _ _ _ _ 600000000 false); [by vm_compute|exact lan_scan|by vm_compute|by vm_compute|vm_compute; by split|].
    intros _. split; [done|]. unfold first_calls, second_calls. repeat first [apply Forall_nil_2 | apply Forall_cons_2]; done. }
  exists o. split; [exact Ho|].
  apply (port_scan_reports (E := script) Linux 24 40 20 (λ _, []) no_services no_console no_environ (λ _, true) lan_args [23] [first_calls; second_calls]
    [said_advance; said_open 23; said_advance] o);
    [done|constructor| |exact Ho].
  unfold first_calls, second_calls. repeat first [apply Forall_nil_2 | apply Forall_cons_2]; simpl; unfold MAX_RTT; first [done | lia].
Defined.
End SmallReport.

(** ** What a discovery writes to stderr *)




Section Says.
Context {E : Type} `{EchoLaw E, !RlimitLaw E}.
Variables (os : platform) (parse_message : list Z → reply_error + Message).




End Says.

(** ** A subnet scan from the arguments to the summary *)


(** What the types of a report say: addresses of four bytes, texts of bytes,
    a length in a word. *)
Definition report_ok (r : Results.report) : Prop :=
  match r with
  | plain ips => is_u64 (Z.of_nat (length ips))
  | detailed details => is_u64 (Z.of_nat (length details)) ∧ Forall texts_ok details
  end.

(** What the types of a run say: addresses of four bytes, ids and a hundred
    times a phase's total in a word. *)
Record run_typed (options : wants) (run : subnet_run) : Prop := {
  ty_reports : ∀ ip source, a_report ip source true ∈ run_acts run → ip_ok ip;
  ty_senders : match run with network_run s => Forall sender_ok (sn_heard s) | ping_run _ => True end;
  ty_requests : Forall is_u64 (run_requests run);
  ty_phases : Forall fits_tracker (run_phases options run);
  ty_report : report_ok (run_report run)
}.

Lemma mac_acts_counted room table : ∀ i, counted (mac_acts room i table) = 0%nat.
Proof.
  induction table as [|entry table IH]; intros i; [done|]. cbn [mac_acts]. rewrite counted_app, IH. by destruct (ne_mac entry).
Qed.

Section SubnetReported.
Context {E : Type} `{EchoLaw E, !RlimitLaw E}.
Variables (os : platform) (job_size settled_size : Z) (garbage : list Z).
Variables (parse_message : list Z → reply_error + Message) (send_arp : ip4 → option (list Z)) (table : Table) (capacity_for : nat → nat).
Variables (seconds : Z → list Z) (c : console) (env : environ).

Lemma listened_quiet first last ask_names listener acts t :
  listened (E := E) os first last ask_names listener acts t → Forall sender_ok t → a_advance ∉ acts.
Proof.
  intros Hl Hok Ha. destruct Hl as [spawns e e' t0 _|spawns e self e' t0 fuel rooms e1 s why e2 u _ Hl]; [by apply not_elem_of_nil in Ha|].
  pose proof (listen_acts_heard _ _ _ _ _ _ _ _ _ _ Hl Hok) as Hall. rewrite Forall_forall in Hall.
  exact (Hall _ Ha).
Qed.



(** Every scan that returns prints: some order of its steps, with each claim
    right after its unit, goes through, so the command has an outcome. *)
Lemma subnet_scan_ends args a run says :
  subnet_arguments os args true = inr a →
  scanned_by (E := E) os job_size settled_size garbage parse_message send_arp table capacity_for a run says →
  run_typed (so_wants (sg_options a)) run → Z.of_nat (counted (run_acts run) + run_counted run) < 18446744073709551616 →
  ∃ o, runSubnetScan (E := E) os job_size settled_size garbage parse_message send_arp table capacity_for seconds c env args true (Some run) o.
Proof.
  intros Ha Hs [_ Hsend _ Hfit _] Hb.
  assert (∃ es out, run_emits (so_wants (sg_options a)) run es ∧ prints true true es out) as (es & out & He & Hout).
  { destruct Hs as [s odb says _ Hn _|s odb says _ Hp _]; cbn [run_emits run_phases run_acts run_counted] in *.
    - inversion Hn; subst. eapply network_printed; [done|done| |done|done]. by eapply listened_quiet.
    - inversion Hp; subst. eapply ping_printed; [done|apply mac_acts_counted|done..]. }
  destruct (scanned_parses _ _ _ _ _ _ _ _ _ _ _ Hs) as [network Hp]. apply parseCidr_ok in Hp as Hnet. destruct Hnet as [Hip Hlen].
  assert (∃ header, header_of true (sg_cidr a) = Some header) as [header Hh].
  { unfold header_of. rewrite Hp. pose proof (getIpRange_value network Hip Hlen) as Hv. cbv zeta in Hv. rewrite Hv. by eexists. }
  eexists. by apply (subnet_scanned _ _ _ _ _ _ _ _ _ _ _ _ _ a run says header es out 0 false).
Qed.

End SubnetReported.



